(* ===== verification/_CoqProject ===== *)
-Q . S2P
Prelude.v
Types.v
Bytes.v
GoHeap.v
Blockchain.v
TxPool.v
ForkId.v
GoFloat.v
EthPeer.v
PeerSet.v
Netutil.v
NodeTable.v
NodeTableProps.v
NodeTableRuns.v
P2PDial.v
P2PDialProps.v
P2PPeer.v
P2PPeerProps.v
P2PServer.v
P2PServerProps.v
Peri.v
PeriProps.v
PeriStore.v
TxFetcher.v
TxFetcherInv.v
TxFetcherProps.v
TxFetcherEntry.v
GoReader.v
Relay.v
RelayProps.v
RelayAdmin.v
Disguise.v
DisguiseProps.v
Handler.v
HandlerProps.v
Prque.v
BlockFetcher.v
BlockFetcherProps.v
RlpRaw.v
RlpLemmas.v
RlpEncode.v
RlpEncodeProps.v
RlpDecode.v
RlpDecodeProps.v
RlpCompound.v
RlpReads.v
TypesRlp.v
TypesRlpProps.v
RlpCodec.v
Trie.v
TrieProps.v
TrieNode.v
TrieNodeProps.v
FreezerTable.v
FreezerTableProps.v
Freezer.v
FreezerProps.v
KeyValue.v
KeyValueProps.v
Schema.v
Accessors.v
ChainStore.v
Receipts.v
ChainFreezer.v
SchemaProps.v
AccessorsProps.v
ChainFreezerProps.v
ReceiptsProps.v
EthPackets.v
EthPacketsProps.v
EthServe.v
EthServeProps.v
EthDispatch.v
EthDispatchProps.v
EthHandshake.v
EthHandshakeProps.v
