(* ===== verification/Prelude.v ===== *)
(** * lowlatency-relay: a verification library for the relay node

    The program (src/) is a node that pretends to be a full node of an Ethereum-like chain.
    It learns of blocks and transactions from many peers as early as possible, keeps the peers that
    deliver early and drops the others, and passes what it learns on to the peers, to other
    relays and to a trusted full node.

    ** The parts and how they interact

    Peers connect through the protocol handler, which admits them ([Handler], src/eth/handler.go),
    puts them into the peer set ([PeerSet]) and runs their write loops ([EthPeer]). Packets of the peers
    go to two fetchers: announced transactions to the transaction fetcher ([TxFetcher]) and
    from there to the pool ([TxPool]), announced blocks to the block fetcher ([BlockFetcher]), whose import
    queue is [Prque], and from there to the chain front ([Blockchain]). Every arrival is
    recorded by the eviction policy ([Peri]), which drops the slowest peers from time to time and
    keeps its memory in a database ([PeriStore]). New blocks and transactions are broadcast to other
    relays over TCP and UDP ([Relay]); a full node behind a TLS connection
    answers what the relay cannot know ([Disguise]), among it the fork list from which the
    handshake identifiers are computed ([ForkId]). All of them speak RLP ([RlpRaw],
    [RlpEncode], [RlpDecode]) for headers, transactions and blocks ([TypesRlp]).

    ** The files

    - Prelude.v: this file. Machine integers with wrap-around ([i64], [u64], [u32]), the result types [go]
      (a value or a panic) and [res] (a value or an error) with their notations, and what the components
      share of Go: ranges over maps, [sort.Slice], [rand.Shuffle], the capacity of
      [append].
    - Types.v: hashes, headers, blocks and transactions as the node's own code reads them, and the
      order of a Go map ([RangeOrder]).
    - Bytes.v, GoHeap.v, GoFloat.v, GoReader.v: little-endian and big-endian integers and CRC-32,
      container/heap, binary64, and slices, connections and bufio.
    - Blockchain.v: src/core/blockchain.go. [Push] and the lookups of the ring of block numbers,
      [EnqueueNewBlock], [InsertChain] and the getters of the chain front.
    - TxPool.v: src/core/tx_pool.go.
    - ForkId.v: src/core/forkid/forkid.go, with the rules of EIP-2124 as the specification.
    - EthPeer.v, PeerSet.v: src/eth/protocols/eth/peer.go and broadcast.go; src/eth/peerset.go.
    - Peri.v, PeriProps.v, PeriStore.v: src/eth/peri.go.
    - TxFetcher.v, TxFetcherInv.v, TxFetcherProps.v, TxFetcherEntry.v: src/eth/fetcher/tx_fetcher.go,
      each case of its event loop, its invariant, the step relation and the
      entry points.
    - Prque.v: src/common/prque. BlockFetcher.v, BlockFetcherProps.v:
      src/eth/fetcher/block_fetcher.go, each case of its event loop, the rounds of the loop and
      their invariant.
    - Relay.v, RelayProps.v, RelayAdmin.v: src/eth/pioplat_server.go, the wire format, the receive loops,
      the broadcasts and the HTTP handlers.
    - Disguise.v, DisguiseProps.v: src/eth/disguise_client.go.
    - Handler.v, HandlerProps.v: src/eth/handler.go and handler_eth.go.
    - RlpRaw.v, RlpLemmas.v: src/rlp/raw.go and iterator.go. RlpEncode.v, RlpEncodeProps.v: encode.go and
      encbuffer.go. RlpDecode.v, RlpDecodeProps.v, RlpCompound.v: decode.go.
    - TypesRlp.v, TypesRlpProps.v: the codecs, sizes and hashes of src/core/types.
    - Netutil.v: src/p2p/netutil/net.go. NodeTable.v, NodeTableProps.v, NodeTableRuns.v: src/p2p/discover/table.go and
      lookup.go, the buckets over shared node objects, the revalidation and the searches.
    - P2PDial.v, P2PDialProps.v: src/p2p/dial.go. P2PPeer.v, P2PPeerProps.v: src/p2p/peer.go, protocol.go and peer_error.go.
      P2PServer.v, P2PServerProps.v: src/p2p/server.go, the run loop and the set-up of connections.
    - RlpReads.v: decoders that accept older encodings, too.
    - Trie.v, TrieProps.v, TrieNode.v, TrieNodeProps.v: src/trie, the stack trie and [DeriveSha], the nodes, their hasher
      and their stored form.
    - FreezerTable.v, FreezerTableProps.v, Freezer.v, FreezerProps.v: src/core/rawdb/freezer_table.go, freezer_batch.go and
      freezer.go, from the bytes of the index and data files up to atomic operations on all tables.
    - KeyValue.v, KeyValueProps.v: src/ethdb, memorydb and src/core/rawdb/table.go. Schema.v, SchemaProps.v: schema.go.
    - Accessors.v, ChainStore.v, AccessorsProps.v: the accessors of src/core/rawdb. Receipts.v, ReceiptsProps.v: receipts, logs
      and blooms of src/core/types with their accessors.
    - RlpCodec.v: what an encoder and a decoder promise to each other, as a class. EthPackets.v, EthPacketsProps.v: src/eth/protocols/eth/protocol.go, the packets
      on the wire. EthServe.v, EthServeProps.v: the answers to requests in handlers.go. EthHandshake.v, EthHandshakeProps.v: handshake.go.
      EthDispatch.v, EthDispatchProps.v: dispatcher.go and src/p2p/tracker/tracker.go, requests in flight as a step relation.
    - ChainFreezer.v, ChainFreezerProps.v: databases with a freezer and the rounds that move old blocks there.
    A component is a record for its state and one definition per operation, named as in the source.
    The mutex of a component makes its operations atomic. Loops over channels are one
    function per case of the [select]; their interleavings are lists of events or a step
    relation. Goroutines that only send or wait are commands or effects, and what they
    report is an event. The clock, drawn numbers and the order of maps are arguments or class
    members without further assumptions.

    ** What the theorems show

    - The transaction fetcher: no run panics, a hash is in exactly one stage, timers are armed while
      something waits for them; retrievals are fair, deliveries and
      disconnections leave nothing behind, and where the code falls short of that.
    - The block fetcher: no run panics, stages do not overlap, the counts per peer are exact and bounded,
      no block is under import twice, and each round imports the waiting blocks
      from the lowest number. The queue refines a bag of items with priorities. A hash whose body never comes
      is kept for ever, and in light mode a header panics the loop.
    - The eviction policy: quotas and reserved places are respected, fast and protected peers
      survive, evicted addresses are blocked for exactly their period, the records stay consistent, and the blocklist survives a restart.
    - Peers and handler: admission beside other sessions, announcements in order and of bounded size, what a packet
      does to the fetchers and to the records of the policy, each round for a mined block tells exactly the peers that do not
      know it; a limit that can be overrun, and a shutdown that does not return.
    - The relay: what is sent by TCP arrives in order however the stream is cut and damaged, each hash is
      broadcast once in every interleaving, malformed lengths crash the process.
    - The disguise client: messages decode to what was sent, and what each request makes of a reply, with
      three that go wrong.
    - Fork identifiers: the filter accepts exactly by EIP-2124.
    - RLP: the encoder writes the canonical encoding, splitting and decoding accept exactly that, and so headers,
      transactions and blocks survive a round trip and have one encoding.
    - Discovery and dialling: the shape of the node table and its limits on addresses hold in every run, a search asks nobody twice and has the closest
      nodes as its result, also when it is cancelled, the static pool of the dialler is exact and its loop is total.
    - The p2p server: the limits on peers hold in every run, the dialler sees the same peers, and messages reach the protocol
      that their code belongs to.
    - Tries: the stack trie and the node hasher compute the root of the declarative trie of the same entries.
    - The freezer: a table is the list of its items, also after a crash in the middle of a write; operations on all tables are atomic in a freezer that starts at item 0.
    - The database: different data have different keys, what is written is read back and nothing else changes, for blocks and for receipts; blooms have no
      false negatives; and a round of the freezer is invisible to readers of the canonical chain.
    - The eth protocol: packets survive the wire, two sides that agree complete the handshake and nobody else does, requests are served as asked, as far as the node finds what they ask for, and within
      the limits, and in every interleaving a request gets at most one response, the one it asked for.
    ** Bounds and fuel

    Loops that are not structural run with fuel, and their theorems are not relative to it: the loops of
    the heaps run with the length of the slice (an index moves one tree level per round), the import
    loop of the block fetcher with the size of its queue, the splitting loops of RLP with the length of the
    input (every value takes at least one byte), the receive loops with the bytes of the connection. The
    theorems on these functions state that the result is reached.
    The stack trie and the node hasher recurse with the length of a key or the depth of a node, the repair of a freezer table with the entries of its
    index, and the deletion of dangling blocks with one more than the highest number in the store: every round steps to the next number, and above
    the highest there are no blocks. The loop over a header query has the 2048 lookups that the code allows.
    ** What is not modelled

    Sockets, TLS, files below their contents, locks, log output and metrics are left out everywhere: they do not compute what the
    theorems are about. Signatures, the recovery of senders, Snappy and Keccak are parameters. Values of interface type and struct tags of RLP
    other than those that core/types uses are left out: decoders are chosen by type through reflection, and the model
    names the decoder instead.

    Of the packages that src/ takes over from go-ethereum, these have no model: the elliptic curves, ciphers and hash functions below src/crypto; the
    UDP protocols, DNS lists and node records of src/p2p (discover/v4_udp.go, v5_udp.go, v4wire, v5wire, dnsdisc, enode beyond distances, enr, nat, msgrate,
    nodestate) and the cipher and handshake of rlpx; the simulation framework of p2p; rpc, node, log, metrics, event and the
    command line; the generator of RLP code; LevelDB, a library that src/ethdb/leveldb wraps; configuration presets
    other than the one of the relay, JSON and text encodings, and the tools of src/common around compilers, files and clocks. They are called through
    narrow interfaces, which are events and arguments here. The loop that reads messages of the eth protocol and picks their handler is left out, too: the
    packets, the answers to requests, and what the relay does with deliveries are modelled one by one. *)

From stdpp Require Import base tactics list gmap fin_maps strings sorting.
From Stdlib Require Import ZArith Lia.

Open Scope Z_scope.

Declare Scope go_scope.
Delimit Scope go_scope with go.

(** ** Panics

    A Go function that can hit a run-time panic (a slice bound, a nil
    dereference, an explicit [panic]) returns a [go A]. *)

Inductive go (A : Type) : Type :=
| Ret (a : A)
| Panic.
Arguments Ret {A} a.
Arguments Panic {A}.

(** Sequencing in the panic monad, spelled so that it does not clash with the
    list and option monads of stdpp. *)
Notation "'let!' x ':=' m 'in' k" :=
  (match m with Ret x => k | Panic => Panic end)
  (at level 10, x pattern, m at level 100, k at level 200) : go_scope.
Open Scope go_scope.

(** [for x := range l { s = f(s, x) }], stopping at the first panic. *)
Fixpoint go_foldl {A S} (f : S -> A -> go S) (s : S) (l : list A) : go S :=
  match l with
  | [] => Ret s
  | x :: l => let! s' := f s x in go_foldl f s' l
  end.

(** Indexing and slicing of a Go slice whose capacity is its length. *)
Definition go_index {A} (l : list A) (i : Z) : go A :=
  if decide (0 <= i) then
    match l !! Z.to_nat i with Some x => Ret x | None => Panic end
  else Panic.

Definition go_slice {A} (l : list A) (lo hi : Z) : go (list A) :=
  if decide (0 <= lo /\ lo <= hi /\ hi <= Z.of_nat (length l))
  then Ret (take (Z.to_nat (hi - lo)) (drop (Z.to_nat lo) l))
  else Panic.

(** The capacity of a slice that [n] calls of [append] built from nil. The growth
    policy belongs to the run time; slicing may go up to the capacity, and shows
    zero values behind the length. *)
Class AppendCap := {
  append_cap : nat -> nat;
  append_cap_ge : forall n, (n <= append_cap n)%nat
}.

Definition append_slice `{AppendCap} {A} (zero : A) (l : list A) (hi : Z) : go (list A) :=
  if decide (0 <= hi /\ hi <= Z.of_nat (append_cap (length l)))
  then Ret (take (Z.to_nat hi) (l ++ replicate (append_cap (length l) - length l) zero))
  else Panic.

(** ** Machine integers *)

Definition u8 (z : Z) : Z := z mod 2 ^ 8.
Definition u32 (z : Z) : Z := z mod 2 ^ 32.
Definition u64 (z : Z) : Z := z mod 2 ^ 64.
Definition i64 (z : Z) : Z := (z + 2 ^ 63) mod 2 ^ 64 - 2 ^ 63.

Definition in_i64 (z : Z) : Prop := - 2 ^ 63 <= z < 2 ^ 63.
Definition in_u64 (z : Z) : Prop := 0 <= z < 2 ^ 64.

(** ** Orders in which Go ranges over a map

    The iteration order of a Go map is unspecified and changes from loop to
    loop. A modelled operation that ranges over a map takes the order as an
    argument, and its theorems assume only that the order enumerates the keys. *)

Definition range_of {K V} `{Countable K} (l : list K) (m : gmap K V) : Prop :=
  l ≡ₚ (map_to_list m).*1.

(** ** The contract of [sort.Slice]

    [sort.Slice] is not stable: for a strict weak order [less] it returns some
    sorted permutation. Theorems about code that sorts are proved for every
    function that keeps this contract; [merge_sort_slice] below is one. *)

Class SortSlice := {
  sort_slice : forall {A : Type}, (A -> A -> bool) -> list A -> list A;
  sort_slice_perm : forall A (less : A -> A -> bool) l, sort_slice less l ≡ₚ l;
  sort_slice_sorted : forall A (less : A -> A -> bool) l,
    (forall x y, less x y = true -> less y x = false) ->
    (forall x y z, x ∈ l -> y ∈ l -> z ∈ l ->
       less y x = false -> less z y = false -> less z x = false) ->
    StronglySorted (fun x y => less y x = false) (sort_slice less l)
}.

(** [rand.Shuffle]: some permutation. *)
Class Shuffle := {
  shuffle : forall {A : Type}, list A -> list A;
  shuffle_perm : forall A (l : list A), shuffle l ≡ₚ l
}.

(** ** Lemmas *)

Create HintDb machine.
Create Rewrite HintDb machine_rw.

Lemma i64_id z : in_i64 z -> i64 z = z.
Proof. unfold in_i64, i64. intros H. rewrite Z.mod_small; lia. Qed.

Lemma i64_range z : in_i64 (i64 z).
Proof. unfold in_i64, i64. pose proof (Z.mod_pos_bound (z + 2 ^ 63) (2 ^ 64)). lia. Qed.

Lemma u64_id z : in_u64 z -> u64 z = z.
Proof. unfold in_u64, u64. intros H. rewrite Z.mod_small; lia. Qed.

Lemma u64_range z : in_u64 (u64 z).
Proof. apply Z.mod_pos_bound. lia. Qed.

Lemma u32_id z : 0 <= z < 2 ^ 32 -> u32 z = z.
Proof. unfold u32. intros H. rewrite Z.mod_small; lia. Qed.

#[export] Hint Resolve i64_range u64_range : machine.
#[export] Hint Rewrite i64_id u64_id u32_id using (unfold in_i64, in_u64 in *; lia) : machine_rw.

Lemma go_index_Ret {A} (l : list A) (i : nat) x :
  l !! i = Some x -> go_index l (Z.of_nat i) = Ret x.
Proof.
  intros H. unfold go_index. rewrite decide_True by lia. by rewrite Nat2Z.id, H.
Qed.

Lemma go_slice_Ret {A} (l : list A) lo hi :
  0 <= lo <= hi -> hi <= Z.of_nat (length l) ->
  go_slice l lo hi = Ret (take (Z.to_nat (hi - lo)) (drop (Z.to_nat lo) l)).
Proof. intros. unfold go_slice. rewrite decide_True by lia. done. Qed.

Lemma append_slice_Ret `{AppendCap} {A} (zero : A) (l : list A) hi :
  0 <= hi <= Z.of_nat (length l) -> append_slice zero l hi = Ret (take (Z.to_nat hi) l).
Proof.
  intros Hhi. unfold append_slice. pose proof (append_cap_ge (length l)).
  rewrite decide_True by lia. by rewrite take_app_le by lia.
Qed.

(** A fold over Go's [range] keeps what each round keeps, and cannot panic when
    no round can. *)
Lemma go_foldl_inv {A S} (P : S -> Prop) (f : S -> A -> go S) l s :
  P s ->
  (forall s x, x ∈ l -> P s -> exists s', f s x = Ret s' /\ P s') ->
  exists s', go_foldl f s l = Ret s' /\ P s'.
Proof.
  revert s. induction l as [|x l IH]; intros s Hs Hf; simpl; [by eauto|].
  destruct (Hf s x) as (s' & -> & Hs'); [set_solver|done|].
  apply IH; [done|]. intros. apply Hf; [set_solver|done].
Qed.

Lemma go_foldl_app {A S} (f : S -> A -> go S) l1 l2 s :
  go_foldl f s (l1 ++ l2) = let! s' := go_foldl f s l1 in go_foldl f s' l2.
Proof. revert s. induction l1 as [|x l1 IH]; intros s; simpl; [done|]. by destruct (f s x). Qed.

Lemma foldl_inv {A S} (P : S -> Prop) (f : S -> A -> S) l s :
  P s -> (forall s x, x ∈ l -> P s -> P (f s x)) -> P (foldl f s l).
Proof.
  revert s. induction l as [|x l IH]; intros s Hs Hf; simpl; [done|].
  apply IH; [apply Hf; set_solver|]. intros. apply Hf; set_solver.
Qed.

Lemma range_of_elem {K V} `{Countable K} (l : list K) (m : gmap K V) k :
  range_of l m -> k ∈ l <-> is_Some (m !! k).
Proof.
  intros Hl. rewrite Hl. rewrite list_elem_of_fmap. split.
  - intros ([k' v] & -> & Hin). apply elem_of_map_to_list in Hin. eauto.
  - intros [v Hv]. exists (k, v). by rewrite elem_of_map_to_list.
Qed.

Lemma range_of_NoDup {K V} `{Countable K} (l : list K) (m : gmap K V) :
  range_of l m -> NoDup l.
Proof. intros ->. apply NoDup_fst_map_to_list. Qed.

Lemma range_of_length {K V} `{Countable K} (l : list K) (m : gmap K V) :
  range_of l m -> length l = size m.
Proof. intros ->. by rewrite length_fmap, length_map_to_list. Qed.

Lemma foldl_delete_lookup {K A B} `{Countable K} (f : B -> K) (l : list B) (m : gmap K A) k :
  foldl (fun m x => delete (f x) m) m l !! k =
    if decide (k ∈ f <$> l) then None else m !! k.
Proof.
  revert m. induction l as [|b l IH]; intros m; cbn [foldl].
  - by case_decide; [set_solver|].
  - rewrite IH, fmap_cons, lookup_delete. repeat case_decide; try done; set_solver.
Qed.

Lemma NoDup_fmap_inj {A B} (f : A -> B) (l : list A) x y :
  NoDup (f <$> l) -> x ∈ l -> y ∈ l -> f x = f y -> x = y.
Proof.
  induction l as [|a l IH]; [set_solver|]. rewrite fmap_cons, NoDup_cons, !elem_of_cons.
  intros [Ha Hl] [->|Hx] [->|Hy] Heq; try done; [..|by apply IH].
  - destruct Ha. rewrite Heq. by apply list_elem_of_fmap_2.
  - destruct Ha. rewrite <- Heq. by apply list_elem_of_fmap_2.
Qed.

Lemma filter_all {A} (P : A -> Prop) `{forall x, Decision (P x)} (l : list A) :
  Forall P l -> filter P l = l.
Proof. induction 1; [done|]. rewrite filter_cons_True by done. by f_equal. Qed.

Lemma filter_none {A} (P : A -> Prop) `{forall x, Decision (P x)} (l : list A) :
  Forall (fun x => ~ P x) l -> filter P l = [].
Proof. induction 1; [done|]. by rewrite filter_cons_False. Qed.

Lemma length_filter_notin `{Countable A} (l : list A) (S : gset A) :
  NoDup l -> (forall x, x ∈ S -> x ∈ l) ->
  length (filter (fun x => x ∉ S) l) = (length l - size S)%nat.
Proof.
  intros Hnd Hsub. rewrite <- (size_list_to_set (C := gset A) (filter _ l)) by by apply NoDup_filter.
  rewrite <- (size_list_to_set (C := gset A) l) by done.
  rewrite <- size_difference by (intros x Hx; apply elem_of_list_to_set; auto).
  f_equal. apply leibniz_equiv. intros x.
  rewrite elem_of_difference, !elem_of_list_to_set, list_elem_of_filter. tauto.
Qed.

Lemma size_list_to_set_le `{Countable A} (l : list A) :
  (size (list_to_set l : gset A) <= length l)%nat.
Proof.
  induction l as [|x l IH]; [rewrite list_to_set_nil, size_empty; lia|].
  rewrite list_to_set_cons, length_cons, size_union_alt, size_singleton.
  pose proof (subseteq_size (list_to_set l ∖ {[x]}) (list_to_set l : gset A) ltac:(set_solver)). lia.
Qed.

Lemma StronglySorted_impl_elem {A} (R R' : relation A) l :
  (forall x y, x ∈ l -> y ∈ l -> R x y -> R' x y) -> StronglySorted R l -> StronglySorted R' l.
Proof.
  intros Himp. induction 1 as [|x l Hs IH Hall]; constructor.
  - apply IH. intros; apply Himp; [set_solver..|done].
  - rewrite Forall_forall in *. intros y Hy. apply Himp; [set_solver..|by apply Hall].
Qed.

(** Local order plus transitivity on the members gives the global order. *)
Lemma StronglySorted_lookup_lt {A} (R : relation A) l i j x y :
  StronglySorted R l -> l !! i = Some x -> l !! j = Some y -> (i < j)%nat -> R x y.
Proof.
  intros Hs Hx Hy Hij. rewrite <- (take_drop j l) in Hs.
  apply (StronglySorted_app_1_elem_of R _ _ x y Hs).
  - apply (list_elem_of_lookup_2 _ i). by apply lookup_take_Some.
  - apply (list_elem_of_lookup_2 _ 0). by rewrite lookup_drop, Nat.add_0_r.
Qed.

Lemma Sorted_StronglySorted_on {A} (R : relation A) l :
  (forall x y z, x ∈ l -> y ∈ l -> z ∈ l -> R x y -> R y z -> R x z) ->
  Sorted R l -> StronglySorted R l.
Proof.
  intros Htr. induction 1 as [|x l Hs IH Hhd]; constructor.
  - apply IH. intros; eapply Htr; set_solver.
  - assert (StronglySorted R l) as Hss by (apply IH; intros; eapply Htr; set_solver).
    destruct Hhd as [|y l Hxy]; constructor; [done|].
    inversion Hss as [|? ? ? Hall]; subst. rewrite Forall_forall in Hall |- *.
    intros z Hz. eapply Htr; [..|exact Hxy|by apply Hall]; set_solver.
Qed.

Definition not_less {A} (less : A -> A -> bool) : relation A :=
  fun x y => less y x = false.

#[global] Instance not_less_dec {A} (less : A -> A -> bool) x y :
  Decision (not_less less x y).
Proof. unfold not_less. apply _. Defined.

(** The contract of [sort.Slice] is realised by merge sort. *)
#[global] Program Instance merge_sort_slice : SortSlice := {|
  sort_slice := fun A less l => merge_sort (not_less less) l
|}.
Next Obligation. intros. apply merge_sort_Permutation. Qed.
Next Obligation.
  intros A less l Hasym Htr. apply Sorted_StronglySorted_on.
  - intros x y z. rewrite !merge_sort_Permutation. intros. eauto.
  - apply Sorted_merge_sort. intros x y. destruct (less x y) eqn:E; eauto.
Qed.

(** A run time that allocates no spare capacity. *)
#[global] Program Instance tight_cap : AppendCap := {| append_cap := fun n => n |}.
Next Obligation. done. Qed.

#[global] Program Instance id_shuffle : Shuffle := {| shuffle := fun A l => l |}.
Next Obligation. done. Qed.
