(* ===== verification/Types.v ===== *)
(** * Chain data shared by the components

    The parts of [common.Hash] (src/common/types.go) and of the block, header and
    transaction types (src/core/types) that the relay's own code reads. *)

From stdpp Require Import base tactics list gmap strings.
From Stdlib Require Import ZArith Lia.
From S2P Require Import Prelude.

Open Scope Z_scope.

(** A [common.Hash] is a 32-byte array, kept here as the 256-bit number those
    bytes spell in big-endian order. *)
Notation hash := Z (only parsing).

(** [h[i]], the [i]-th byte of the array. *)
Definition hash_byte (h : hash) (i : Z) : Z := Z.shiftr h (8 * (31 - i)) mod 256.

(** [types.Header]. [headerHash] is the value of [Header.Hash()], the Keccak hash
    of the RLP encoding; the fields no modelled operation reads are left out. *)
Record Header := mkHeader {
  ParentHash : hash;
  Number : Z;       (* *big.Int *)
  Difficulty : Z;   (* *big.Int *)
  headerHash : hash;
  TxHash : hash;
  UncleHash : hash;
  ReceiptHash : hash
}.

(** [types.Transaction]: its hash and the time it was first seen. *)
Record Transaction := mkTx {
  txHash : hash;
  txTime : Z
}.

(** [types.Block]. *)
Record Block := mkBlock {
  header : Header;
  transactions : list Transaction;
  uncles : list Header
}.

(** [Block.Hash], [Block.NumberU64] (the low 64 bits of a big integer) and
    [Block.Header]. *)
Definition blockHash (b : Block) : hash := headerHash (header b).
Definition NumberU64 (b : Block) : Z := u64 (Number (header b)).

#[global] Instance Header_eq_dec : EqDecision Header.
Proof. solve_decision. Defined.
#[global] Instance Transaction_eq_dec : EqDecision Transaction.
Proof. solve_decision. Defined.
#[global] Instance Block_eq_dec : EqDecision Block.
Proof. solve_decision. Defined.

(** A block with a given number and hash, for concrete examples. *)
Definition exBlock (n h : Z) : Block := mkBlock (mkHeader 0 n 0 h 0 0 0) [] [].

(** An order in which Go ranges over sets of peers and of hashes. *)
Class RangeOrder := {
  peerOrder : gset string -> list string;
  peerOrder_perm : forall s, peerOrder s ≡ₚ elements s;
  hashOrder : gset hash -> list hash;
  hashOrder_perm : forall s, hashOrder s ≡ₚ elements s
}.

#[global] Program Instance elements_order : RangeOrder :=
  {| peerOrder := elements; hashOrder := elements |}.
Next Obligation. done. Qed.
Next Obligation. done. Qed.
