(* ===== verification/Bytes.v ===== *)
(** * Byte strings, encoding/binary and hash/crc32

    A byte is a [Z] between 0 and 255. [le_encode] and [le_decode] are the
    PutUint and Uint functions of [binary.LittleEndian] at a given width,
    [be_encode] and [be_decode] those of [binary.BigEndian]; [crc32Update] is
    [crc32.Update] with [crc32.IEEETable]. *)

From stdpp Require Import base tactics list.
From Stdlib Require Import ZArith Lia.
From S2P Require Import Prelude.

Open Scope Z_scope.

Definition is_byte (b : Z) : Prop := 0 <= b < 256.

Fixpoint le_encode (n : nat) (z : Z) : list Z :=
  match n with
  | O => []
  | S n => z mod 256 :: le_encode n (z / 256)
  end.

Fixpoint le_decode (bs : list Z) : Z :=
  match bs with
  | [] => 0
  | b :: bs => b + 256 * le_decode bs
  end.

Definition be_encode (n : nat) (z : Z) : list Z := reverse (le_encode n z).
Definition be_decode (bs : list Z) : Z := le_decode (reverse bs).

(** [crc32.IEEETable] and the byte-wise [crc32.Update]. *)
Definition crc32Poly : Z := 0xedb88320.
Definition mask32 : Z := 0xffffffff.

Definition crc32Shift (crc : Z) : Z :=
  if Z.odd crc then Z.lxor (Z.shiftr crc 1) crc32Poly else Z.shiftr crc 1.

Definition crc32Table (i : Z) : Z := Nat.iter 8 crc32Shift i.

Definition crc32Step (crc b : Z) : Z :=
  Z.lxor (crc32Table (Z.lxor (Z.land crc 255) b)) (Z.shiftr crc 8).

Definition crc32Update (crc : Z) (p : list Z) : Z :=
  Z.lxor (foldl crc32Step (Z.lxor crc mask32) p) mask32.

Definition ChecksumIEEE (p : list Z) : Z := crc32Update 0 p.

(** The check value of the IEEE polynomial: the CRC of the digits 1 to 9. *)
Example crc32_check_value : ChecksumIEEE [49; 50; 51; 52; 53; 54; 55; 56; 57] = 0xcbf43926.
Proof. reflexivity. Qed.

(** ** Lemmas *)

Create HintDb bytes.

Lemma length_le_encode n z : length (le_encode n z) = n.
Proof. revert z. induction n; intros; simpl; [done|]. by rewrite IHn. Qed.

Lemma length_be_encode n z : length (be_encode n z) = n.
Proof. unfold be_encode. by rewrite length_reverse, length_le_encode. Qed.

Lemma le_encode_bytes n z : Forall is_byte (le_encode n z).
Proof.
  revert z. induction n; intros; simpl; constructor; [|done].
  apply Z.mod_pos_bound. lia.
Qed.

Lemma be_encode_bytes n z : Forall is_byte (be_encode n z).
Proof. unfold be_encode. rewrite reverse_Permutation. apply le_encode_bytes. Qed.

Lemma le_decode_encode n z : le_decode (le_encode n z) = z mod 256 ^ Z.of_nat n.
Proof.
  revert z. induction n as [|n IH]; intros z; cbn [le_encode le_decode].
  - by rewrite Z.mod_1_r.
  - rewrite IH, Nat2Z.inj_succ, Z.pow_succ_r by lia.
    rewrite Z.rem_mul_r by lia. lia.
Qed.

Lemma le_encode_decode bs : Forall is_byte bs -> le_encode (length bs) (le_decode bs) = bs.
Proof.
  induction 1 as [|b bs Hb _ IH]; [done|]. cbn [le_decode length le_encode]. unfold is_byte in Hb.
  f_equal.
  - rewrite Z.mul_comm, Z.mod_add by lia. by apply Z.mod_small.
  - rewrite Z.mul_comm, Z.div_add, Z.div_small by lia. done.
Qed.

Lemma le_decode_bound bs : Forall is_byte bs -> 0 <= le_decode bs < 256 ^ Z.of_nat (length bs).
Proof.
  induction 1 as [|b bs Hb _ IH]; cbn [le_decode length]; [done|].
  rewrite Nat2Z.inj_succ, Z.pow_succ_r by lia. unfold is_byte in Hb. nia.
Qed.

Lemma be_decode_encode n z : be_decode (be_encode n z) = z mod 256 ^ Z.of_nat n.
Proof. unfold be_decode, be_encode. rewrite reverse_involutive. apply le_decode_encode. Qed.

Lemma le_decode_app bs cs : le_decode (bs ++ cs) = le_decode bs + 256 ^ Z.of_nat (length bs) * le_decode cs.
Proof.
  induction bs as [|b bs IH]; cbn [le_decode app length]; [lia|].
  rewrite IH, Nat2Z.inj_succ, Z.pow_succ_r by lia. lia.
Qed.

Lemma be_decode_cons b bs : be_decode (b :: bs) = b * 256 ^ Z.of_nat (length bs) + be_decode bs.
Proof.
  unfold be_decode. rewrite reverse_cons, le_decode_app, length_reverse. cbn [le_decode]. lia.
Qed.

Lemma be_decode_bound bs : Forall is_byte bs -> 0 <= be_decode bs < 256 ^ Z.of_nat (length bs).
Proof.
  intros Hb. unfold be_decode. rewrite <- (length_reverse bs). apply le_decode_bound.
  by rewrite reverse_Permutation.
Qed.

Lemma be_encode_decode bs : Forall is_byte bs -> be_encode (length bs) (be_decode bs) = bs.
Proof.
  intros Hb. unfold be_encode, be_decode. rewrite <- (length_reverse bs) at 1.
  rewrite le_encode_decode by (by rewrite reverse_Permutation). apply reverse_involutive.
Qed.

Lemma be_encode_inj n z z' :
  0 <= z < 256 ^ Z.of_nat n -> 0 <= z' < 256 ^ Z.of_nat n ->
  be_encode n z = be_encode n z' -> z = z'.
Proof.
  intros Hz Hz' Heq. apply (f_equal be_decode) in Heq.
  rewrite !be_decode_encode, !Z.mod_small in Heq by done. done.
Qed.

#[export] Hint Resolve length_le_encode length_be_encode le_encode_bytes be_encode_bytes : bytes.

(** Continuing a checksum is the checksum of the concatenation. *)
Lemma crc32Update_app crc p q : crc32Update crc (p ++ q) = crc32Update (crc32Update crc p) q.
Proof.
  unfold crc32Update. rewrite foldl_app. do 2 f_equal.
  by rewrite Z.lxor_assoc, Z.lxor_nilpotent, Z.lxor_0_r.
Qed.

Lemma lxor_bound a b n : 0 <= n -> 0 <= a < 2 ^ n -> 0 <= b < 2 ^ n -> 0 <= Z.lxor a b < 2 ^ n.
Proof.
  intros Hn Ha Hb. split; [apply Z.lxor_nonneg; lia|].
  destruct (Z.eq_dec (Z.lxor a b) 0) as [->|Hne]; [lia|].
  assert (0 < Z.lxor a b) by (pose proof (proj2 (Z.lxor_nonneg a b)); lia).
  apply Z.log2_lt_pow2; [done|]. eapply Z.le_lt_trans; [apply Z.log2_lxor; lia|].
  destruct (decide (n = 0)) as [->|]; [simpl in *; assert (a = 0 /\ b = 0) as [-> ->] by lia; done|].
  apply Z.max_lub_lt.
  - destruct (decide (a = 0)) as [->|]; [simpl; lia|]. apply Z.log2_lt_pow2; lia.
  - destruct (decide (b = 0)) as [->|]; [simpl; lia|]. apply Z.log2_lt_pow2; lia.
Qed.

Lemma crc32Shift_bound x : 0 <= x < 2 ^ 32 -> 0 <= crc32Shift x < 2 ^ 32.
Proof.
  intros Hx. unfold crc32Shift. assert (0 <= Z.shiftr x 1 < 2 ^ 32).
  { rewrite Z.shiftr_div_pow2 by lia. change (2 ^ 1) with 2. split; [apply Z.div_pos; lia|].
    apply Z.div_lt_upper_bound; lia. }
  case_match; [|done]. apply lxor_bound; [lia|done|unfold crc32Poly; lia].
Qed.

Lemma crc32Step_bound crc b : 0 <= crc < 2 ^ 32 -> is_byte b -> 0 <= crc32Step crc b < 2 ^ 32.
Proof.
  intros Hc Hb. unfold crc32Step. apply lxor_bound; [lia|..].
  - unfold crc32Table.
    assert (0 <= Z.lxor (Z.land crc 255) b < 2 ^ 32) as H0.
    { assert (0 <= Z.lxor (Z.land crc 255) b < 2 ^ 8); [|lia].
      apply lxor_bound; [lia| |exact Hb].
      change 255 with (Z.ones 8). rewrite Z.land_ones by lia. apply Z.mod_pos_bound. lia. }
    revert H0. generalize (Z.lxor (Z.land crc 255) b). intros x Hx.
    simpl. by repeat apply crc32Shift_bound.
  - rewrite Z.shiftr_div_pow2 by lia. split; [apply Z.div_pos; lia|].
    apply Z.div_lt_upper_bound; lia.
Qed.

Lemma crc32Update_bound crc p :
  0 <= crc < 2 ^ 32 -> Forall is_byte p -> 0 <= crc32Update crc p < 2 ^ 32.
Proof.
  intros Hc Hp. unfold crc32Update. apply lxor_bound; [lia| |unfold mask32; lia].
  apply foldl_inv; [apply lxor_bound; unfold mask32; lia|].
  intros s x Hx Hs. rewrite Forall_forall in Hp. apply crc32Step_bound; auto.
Qed.

(** ** Error detection *)

(** The top bytes of the table are all different. *)
Lemma crc32Table_top_inj i j :
  0 <= i < 256 -> 0 <= j < 256 -> Z.shiftr (crc32Table i) 24 = Z.shiftr (crc32Table j) 24 -> i = j.
Proof.
  intros Hi Hj E.
  assert (NoDup ((fun i => Z.shiftr (crc32Table i) 24) <$> seqZ 0 256)) as Hnd.
  { apply (bool_decide_unpack _). vm_compute. exact I. }
  assert (forall k, 0 <= k < 256 -> ((fun i => Z.shiftr (crc32Table i) 24) <$> seqZ 0 256) !! Z.to_nat k
    = Some (Z.shiftr (crc32Table k) 24)) as Hl.
  { intros k Hk. rewrite list_lookup_fmap, lookup_seqZ_lt by lia. simpl. by rewrite Z2Nat.id by lia. }
  pose proof (NoDup_lookup _ (Z.to_nat i) (Z.to_nat j) _ Hnd (Hl i Hi)) as H.
  rewrite E in H. specialize (H (Hl j Hj)). lia.
Qed.

Lemma crc32Step_inj c c' b b' :
  0 <= c < 2 ^ 32 -> 0 <= c' < 2 ^ 32 -> is_byte b -> is_byte b' ->
  crc32Step c b = crc32Step c' b' ->
  Z.shiftr c 8 = Z.shiftr c' 8 /\ Z.lxor (Z.land c 255) b = Z.lxor (Z.land c' 255) b'.
Proof.
  intros Hc Hc' Hb Hb' E. unfold crc32Step in E.
  assert (forall x y, is_byte y -> 0 <= x < 2 ^ 32 -> 0 <= Z.lxor (Z.land x 255) y < 256) as Hidx.
  { intros x y Hy Hx. apply (lxor_bound _ _ 8); [lia| |exact Hy].
    change 255 with (Z.ones 8). rewrite Z.land_ones by lia. apply Z.mod_pos_bound. lia. }
  set (i := Z.lxor (Z.land c 255) b) in *. set (j := Z.lxor (Z.land c' 255) b') in *.
  assert (forall x, 0 <= x < 2 ^ 32 -> Z.shiftr (Z.shiftr x 8) 24 = 0) as Hz.
  { intros x Hx. rewrite Z.shiftr_shiftr by lia. rewrite Z.shiftr_div_pow2 by lia. apply Z.div_small. lia. }
  assert (i = j) as Eij.
  { apply crc32Table_top_inj; [by apply Hidx..|]. apply (f_equal (fun x => Z.shiftr x 24)) in E.
    by rewrite !Z.shiftr_lxor, !Hz, !Z.lxor_0_r in E by done. }
  split; [|done]. rewrite Eij in E. apply (f_equal (Z.lxor (crc32Table j))) in E.
  by rewrite <- !Z.lxor_assoc, Z.lxor_nilpotent, !Z.lxor_0_l in E.
Qed.

Lemma low_byte_split c : 0 <= c -> c = Z.shiftr c 8 * 256 + Z.land c 255.
Proof.
  intros Hc. change 255 with (Z.ones 8). rewrite Z.land_ones, Z.shiftr_div_pow2 by lia.
  pose proof (Z.div_mod c (2 ^ 8)). lia.
Qed.

Lemma lxor_cancel_r a b c : Z.lxor a c = Z.lxor b c -> a = b.
Proof.
  intros E. apply (f_equal (fun x => Z.lxor x c)) in E.
  by rewrite !Z.lxor_assoc, Z.lxor_nilpotent, !Z.lxor_0_r in E.
Qed.

Lemma crc32Steps_inj q c c' :
  0 <= c < 2 ^ 32 -> 0 <= c' < 2 ^ 32 -> Forall is_byte q ->
  foldl crc32Step c q = foldl crc32Step c' q -> c = c'.
Proof.
  revert c c'. induction q as [|b q IH]; intros c c' Hc Hc' Hq; simpl; [done|].
  inversion_clear Hq as [|?? Hb Hq']. intros E. apply IH in E; [|by apply crc32Step_bound..|done].
  apply crc32Step_inj in E as [E1 E2]; [|done..]. apply lxor_cancel_r in E2.
  rewrite (low_byte_split c), (low_byte_split c') by lia. congruence.
Qed.

(** The checksum detects a change of any single byte. *)
Lemma ChecksumIEEE_detects p q b b' :
  Forall is_byte p -> Forall is_byte q -> is_byte b -> is_byte b' -> b <> b' ->
  ChecksumIEEE (p ++ b :: q) <> ChecksumIEEE (p ++ b' :: q).
Proof.
  intros Hp Hq Hb Hb' Hne E. unfold ChecksumIEEE, crc32Update in E. apply lxor_cancel_r in E.
  rewrite !foldl_app in E. simpl in E.
  assert (0 <= foldl crc32Step mask32 p < 2 ^ 32) as Hc.
  { clear -Hp. assert (0 <= mask32 < 2 ^ 32) as H by (unfold mask32; lia). revert H. generalize mask32.
    induction Hp as [|x p Hx _ IH]; intros c Hc; simpl; [done|]. by apply IH, crc32Step_bound. }
  apply crc32Steps_inj in E; [|by apply crc32Step_bound..|done].
  apply crc32Step_inj in E as [_ E]; [|done..]. rewrite !(Z.lxor_comm (Z.land _ _)) in E.
  by apply lxor_cancel_r in E.
Qed.
