(* ===== verification/GoHeap.v ===== *)
(** * Go's container/heap on a slice

    [heap.Push] and [heap.Pop] with their sift loops, as the transaction pool
    (src/core/tx_pool.go) and the queues of the fetchers use them, for a slice
    ordered by an integer key. The loops run with the length of the slice as
    fuel; [up_heap] and [down_heap] show that this is enough, since the index moves
    one tree level per round. *)

From stdpp Require Import base tactics list.
From Stdlib Require Import ZArith Lia.
From S2P Require Import Prelude.

Open Scope nat_scope.

Section Heap.
Context {A : Type} (key : A -> Z).

(** [h.Less(i, j)]. *)
Definition less (l : list A) (i j : nat) : bool :=
  match l !! i, l !! j with
  | Some x, Some y => Z.ltb (key x) (key y)
  | _, _ => false
  end.

(** [h.Swap(i, j)]. *)
Definition swap (l : list A) (i j : nat) : list A :=
  match l !! i, l !! j with
  | Some x, Some y => <[i := y]> (<[j := x]> l)
  | _, _ => l
  end.

Definition parent (j : nat) : nat := (j - 1) / 2.

Fixpoint up (fuel : nat) (l : list A) (j : nat) : list A :=
  match fuel with
  | O => l
  | S fuel =>
      let i := parent j in
      if decide (i = j) then l
      else if less l j i then up fuel (swap l i j) i else l
  end.

(** The child [down] descends to: the smaller one, the left one on a tie. *)
Definition child (l : list A) (n i : nat) : nat :=
  let j1 := 2 * i + 1 in
  if decide (j1 + 1 < n) then if less l (j1 + 1) j1 then j1 + 1 else j1 else j1.

Fixpoint down (fuel : nat) (l : list A) (i n : nat) : list A :=
  match fuel with
  | O => l
  | S fuel =>
      if decide (n <= 2 * i + 1) then l
      else
        let j := child l n i in
        if less l j i then down fuel (swap l i j) j n else l
  end.

Definition heap_push (l : list A) (x : A) : list A :=
  up (length l + 1) (l ++ [x]) (length l).

(** [None] is the panic of popping an empty heap. *)
Definition heap_pop (l : list A) : option (A * list A) :=
  let n := length l - 1 in
  let l' := down (length l) (swap l 0 n) 0 n in
  x ← l' !! n; Some (x, take n l').

(** The key in slot [k]. *)
Definition kz (l : list A) (k : nat) : Z :=
  match l !! k with Some x => key x | None => 0%Z end.

(** The heap order on the first [n] slots; with a hole at [j], where the edge above [j]
    (for [up]) or the edges below [j] (for [down]) may be broken. *)
Definition heap_ok (n : nat) (l : list A) : Prop :=
  forall k, 0 < k < n -> (kz l (parent k) <= kz l k)%Z.

Definition heap_up_hole (n : nat) (l : list A) (j : nat) : Prop :=
  (forall k, 0 < k < n -> k <> j -> (kz l (parent k) <= kz l k)%Z) /\
  (forall k, 0 < k < n -> 0 < j -> parent k = j -> (kz l (parent j) <= kz l k)%Z).

Definition heap_down_hole (n : nat) (l : list A) (i : nat) : Prop :=
  (forall k, 0 < k < n -> parent k <> i -> (kz l (parent k) <= kz l k)%Z) /\
  (forall k, 0 < k < n -> 0 < i -> parent k = i -> (kz l (parent i) <= kz l k)%Z).

(** ** Lemmas *)

Lemma parent_spec k : 0 < k -> k = 2 * parent k + 1 \/ k = 2 * parent k + 2.
Proof.
  unfold parent. intros. pose proof (Nat.div_mod_eq (k - 1) 2).
  pose proof (Nat.mod_upper_bound (k - 1) 2). lia.
Qed.

Lemma swap_perm l i j : swap l i j ≡ₚ l.
Proof.
  unfold swap. destruct (l !! i) as [x|] eqn:Hi; [|done]. destruct (l !! j) as [y|] eqn:Hj; [|done].
  by apply Permutation_insert_swap.
Qed.

Lemma length_swap l i j : length (swap l i j) = length l.
Proof. by rewrite swap_perm. Qed.

Lemma swap_lookup l i j k : i < length l -> j < length l ->
  swap l i j !! k = if decide (k = i) then l !! j else if decide (k = j) then l !! i else l !! k.
Proof.
  intros Hi Hj. unfold swap.
  destruct (lookup_lt_is_Some_2 l i Hi) as [x Hx]. destruct (lookup_lt_is_Some_2 l j Hj) as [y Hy].
  rewrite Hx, Hy, !list_lookup_insert, length_insert. repeat case_decide; naive_solver.
Qed.

Lemma kz_swap l i j k : i < length l -> j < length l ->
  kz (swap l i j) k = if decide (k = i) then kz l j else if decide (k = j) then kz l i else kz l k.
Proof. intros. unfold kz. rewrite swap_lookup by done. by repeat case_decide. Qed.

Lemma less_kz l i j : i < length l -> j < length l -> less l i j = (kz l i <? kz l j)%Z.
Proof.
  intros Hi Hj. unfold less, kz.
  destruct (lookup_lt_is_Some_2 l i Hi) as [x ->]. by destruct (lookup_lt_is_Some_2 l j Hj) as [y ->].
Qed.

Lemma up_perm fuel l j : up fuel l j ≡ₚ l.
Proof.
  revert l j. induction fuel as [|fuel IH]; intros l j; simpl; [done|].
  case_decide; [done|]. case_match; [|done]. by rewrite IH, swap_perm.
Qed.

Lemma down_perm fuel l i n : down fuel l i n ≡ₚ l.
Proof.
  revert l i. induction fuel as [|fuel IH]; intros l i; simpl; [done|].
  case_decide; [done|]. case_match; [|done]. by rewrite IH, swap_perm.
Qed.

Lemma up_heap fuel n l j :
  j < fuel -> j < n -> n <= length l -> heap_up_hole n l j -> heap_ok n (up fuel l j).
Proof.
  revert l j. induction fuel as [|fuel IH]; intros l j Hf Hj Hn [H1 H2]; simpl; [lia|].
  destruct (decide (j = 0)) as [->|Hj0].
  { rewrite decide_True by done. intros k Hk. apply H1; lia. }
  pose proof (parent_spec j ltac:(lia)) as Hp. rewrite decide_False by lia.
  rewrite less_kz by lia. destruct (Z.ltb_spec (kz l j) (kz l (parent j))) as [Hlt|Hge].
  - apply IH; rewrite ?length_swap; try lia. split; intros k Hk; rewrite !kz_swap by lia.
    + intros Hne. rewrite (decide_False (P := k = parent j)) by done.
      destruct (decide (k = j)) as [->|Hkj]; [rewrite decide_True by done; lia|].
      pose proof (H1 k Hk Hkj) as Hk1.
      destruct (decide (parent k = parent j)) as [Hpp|]; [rewrite Hpp in Hk1; lia|].
      destruct (decide (parent k = j)); [apply H2; lia|done].
    + intros Hpos Hpk. pose proof (parent_spec (parent j) Hpos).
      pose proof (H1 (parent j) ltac:(lia) ltac:(lia)).
      rewrite !(decide_False (P := parent (parent j) = _)) by lia.
      pose proof (parent_spec k ltac:(lia)). destruct (decide (k = parent j)); [lia|].
      destruct (decide (k = j)); [lia|].
      pose proof (H1 k Hk ltac:(done)) as Hk1. rewrite Hpk in Hk1. lia.
  - intros k Hk. destruct (decide (k = j)) as [->|]; [lia|]. by apply H1.
Qed.

Lemma child_spec l n i :
  2 * i + 1 < n -> n <= length l ->
  (child l n i = 2 * i + 1 \/ child l n i = 2 * i + 2) /\ child l n i < n /\
  forall k, 0 < k < n -> parent k = i -> (kz l (child l n i) <= kz l k)%Z.
Proof.
  intros Hi Hn. unfold child. case_decide as Hd.
  - rewrite less_kz by lia. destruct (Z.ltb_spec (kz l (2 * i + 1 + 1)) (kz l (2 * i + 1)));
      (split_and!; [lia..|]); intros k Hk Hp; pose proof (parent_spec k ltac:(lia)) as [Hs|Hs];
      rewrite Hp in Hs; subst k; try lia.
    + replace (2 * i + 2) with (2 * i + 1 + 1) by lia. lia.
    + replace (2 * i + 2) with (2 * i + 1 + 1) by lia. lia.
  - split_and!; [lia..|]. intros k Hk Hp. pose proof (parent_spec k ltac:(lia)).
    replace k with (2 * i + 1) by lia. lia.
Qed.

Lemma down_heap fuel n l i :
  n <= fuel + i -> n <= length l -> heap_down_hole n l i -> heap_ok n (down fuel l i n).
Proof.
  revert l i. induction fuel as [|fuel IH]; intros l i Hf Hn [H1 H2]; simpl.
  { intros k Hk. apply H1; [done|]. pose proof (parent_spec k ltac:(lia)). lia. }
  case_decide as Hd.
  { intros k Hk. apply H1; [done|]. pose proof (parent_spec k ltac:(lia)). lia. }
  destruct (child_spec l n i) as (Hc & Hcn & Hmin); [lia..|].
  rewrite less_kz by lia. destruct (Z.ltb_spec (kz l (child l n i)) (kz l i)) as [Hlt|Hge].
  - set (j := child l n i) in *. apply IH; rewrite ?length_swap; [lia..|].
    split; intros k Hk; rewrite !kz_swap by lia; pose proof (parent_spec k ltac:(lia)) as Hps.
    + intros Hne. destruct (decide (k = i)) as [->|Hki].
      * rewrite !(decide_False (P := parent i = _)) by lia. apply H2; [lia..|].
        destruct (decide (parent j = i)); [done|]. pose proof (parent_spec j ltac:(lia)). lia.
      * destruct (decide (k = j)) as [->|].
        { pose proof (parent_spec j ltac:(lia)). replace (parent j) with i by lia.
          rewrite decide_True by done. lia. }
        destruct (decide (parent k = i)) as [Hp|]; [by apply Hmin|].
        rewrite decide_False by done. by apply H1.
    + intros Hpos Hp. pose proof (parent_spec j ltac:(lia)). replace (parent j) with i by lia.
      rewrite (decide_True (P := i = i)) by done.
      rewrite !(decide_False (P := k = _)) by lia.
      pose proof (H1 k Hk ltac:(lia)) as Hk1. by rewrite Hp in Hk1.
  - intros k Hk. destruct (decide (parent k = i)) as [Hp|]; [|by apply H1].
    rewrite Hp. pose proof (Hmin k Hk Hp). lia.
Qed.

(** [down] leaves the slots from [n] on alone. *)
Lemma down_lookup_ge fuel l i n k :
  n <= k -> n <= length l -> down fuel l i n !! k = l !! k.
Proof.
  intros Hk. revert l i. induction fuel as [|fuel IH]; intros l i Hn; simpl; [done|].
  case_decide as Hd; [done|]. case_match; [|done].
  destruct (child_spec l n i) as (Hc & Hcn & _); [lia..|].
  rewrite IH, swap_lookup by (rewrite ?length_swap; lia). by rewrite !decide_False by lia.
Qed.

Lemma heap_ok_min n l k : heap_ok n l -> k < n -> (kz l 0 <= kz l k)%Z.
Proof.
  intros Hok. induction (lt_wf k) as [k _ IH]. intros Hk.
  destruct (decide (k = 0)) as [->|]; [lia|].
  pose proof (parent_spec k ltac:(lia)). etrans; [|apply Hok; lia]. apply IH; lia.
Qed.

Lemma kz_app_l l l' k : k < length l -> kz (l ++ l') k = kz l k.
Proof. intros. unfold kz. by rewrite lookup_app_l. Qed.

Lemma kz_take n l k : k < n -> kz (take n l) k = kz l k.
Proof. intros. unfold kz. by rewrite lookup_take_lt. Qed.

(** [heap.Push] adds the element and keeps the heap order. *)
Lemma heap_push_ok l x :
  heap_ok (length l) l -> heap_push l x ≡ₚ x :: l /\ heap_ok (length (heap_push l x)) (heap_push l x).
Proof.
  intros Hok. assert (heap_push l x ≡ₚ x :: l) as Hp.
  { unfold heap_push. rewrite up_perm. by rewrite Permutation_app_comm. }
  split; [done|]. rewrite (Permutation_length Hp). cbn [length]. apply up_heap; rewrite ?length_app; simpl; [lia..|].
  split; intros k Hk.
  - intros Hne. pose proof (parent_spec k ltac:(lia)). rewrite !kz_app_l by lia. apply Hok. lia.
  - intros Hpos Hpk. pose proof (parent_spec k ltac:(lia)). lia.
Qed.

(** [heap.Pop] removes an element with the least key and keeps the heap order. *)
Lemma heap_pop_ok l :
  heap_ok (length l) l -> l <> [] ->
  exists x r, heap_pop l = Some (x, r) /\ l ≡ₚ x :: r /\ heap_ok (length r) r /\
    l !! 0 = Some x /\ Forall (fun y => (key x <= key y)%Z) l.
Proof.
  intros Hok Hne. destruct l as [|x0 t] eqn:El; [done|]. rewrite <- El in *.
  assert (0 < length l) as Hlen by (rewrite El; simpl; lia).
  set (n := length l - 1). set (l' := down (length l) (swap l 0 n) 0 n).
  assert (l' ≡ₚ l) as Hperm by (unfold l'; by rewrite down_perm, swap_perm).
  assert (heap_ok n l') as Hok'.
  { apply down_heap; rewrite ?length_swap; [lia..|]. split; [|lia].
    intros k Hk Hp. pose proof (parent_spec k ltac:(lia)). rewrite !kz_swap by lia.
    repeat case_decide; try lia. apply Hok. lia. }
  assert (l' !! n = l !! 0) as Hlast.
  { unfold l'. rewrite down_lookup_ge, swap_lookup by (rewrite ?length_swap; lia).
    case_decide; [by replace n with 0 by lia|]. by rewrite decide_True. }
  assert (l !! 0 = Some x0) as Hx0 by by rewrite El.
  assert (length l' = S n) as Hl' by (rewrite (Permutation_length Hperm); lia).
  exists x0, (take n l'). split_and!; [| | |done|].
  - unfold heap_pop. fold n. fold l'. by rewrite Hlast, Hx0.
  - rewrite <- Hperm at 1. rewrite <- (take_drop n l') at 1.
    rewrite (drop_S l' x0 n) by congruence. rewrite drop_ge by lia. by rewrite Permutation_app_comm.
  - rewrite length_take. replace (n `min` length l') with n by lia.
    intros k Hk. pose proof (parent_spec k ltac:(lia)). rewrite !kz_take by lia. by apply Hok'.
  - apply Forall_lookup. intros k y Hy. pose proof (lookup_lt_Some _ _ _ Hy).
    pose proof (heap_ok_min (length l) l k Hok ltac:(done)) as Hm.
    unfold kz in Hm. by rewrite Hx0, Hy in Hm.
Qed.
End Heap.
