(* ===== verification/Blockchain.v ===== *)
(** * The block cache and the chain front (src/core/blockchain.go)

    [BlockQueue] models [fixedSizeBlockQueue], the ring of recent block numbers
    with its two indexes; [Chain] models [Blockchain], which answers from the
    cache or forwards to the full node behind the interface [FullNode]. *)

From stdpp Require Import base tactics list gmap fin_maps strings.
From Stdlib Require Import ZArith Lia.
From S2P Require Import Prelude Types.

Open Scope Z_scope.

Module BlockQueue.

(** [fixedSizeBlockQueue]; the mutex is implicit, every operation is atomic. *)
Record queue := mkQueue {
  blockNumbers : list Z;
  uniqueNumbers : gmap Z (list Block);
  hash2Number : gmap Z Z;
  size : nat;
  head : nat;
  count : nat
}.

Definition newFixedSizeBlockQueue (capacity : nat) : queue := {|
  blockNumbers := replicate capacity 0;
  uniqueNumbers := ∅;
  hash2Number := ∅;
  size := capacity;
  head := 0;
  count := 0
|}.

(** [q.blockNumbers[(q.head+q.size-1)%q.size]]; a zero size divides by zero. *)
Definition lastSlot (q : queue) : go Z :=
  if decide (size q = 0%nat) then Panic
  else go_index (blockNumbers q) (Z.of_nat ((head q + size q - 1) mod size q)).

(** The [delete(q.hash2Number, block.Hash())] loop of [Push]. *)
Definition deleteHashes (bs : list Block) (m : gmap Z Z) : gmap Z Z :=
  foldl (fun m b => delete (blockHash b) m) m bs.

(** The branch of [Push] that makes room. *)
Definition evict (q : queue) : go queue :=
  let! n := lastSlot q in
  Ret {|
    blockNumbers := blockNumbers q;
    uniqueNumbers := delete n (uniqueNumbers q);
    hash2Number := deleteHashes (default [] (uniqueNumbers q !! n)) (hash2Number q);
    size := size q;
    head := head q;
    count := count q - 1
  |}.

(** The end of [Push]: write the number at the head and index the block. *)
Definition append (q : queue) (block : Block) : go queue :=
  let n := NumberU64 block in
  if decide (head q < length (blockNumbers q))%nat then
    if decide (size q = 0%nat) then Panic
    else Ret {|
      blockNumbers := <[head q := n]> (blockNumbers q);
      uniqueNumbers := <[n := default [] (uniqueNumbers q !! n) ++ [block]]> (uniqueNumbers q);
      hash2Number := <[blockHash block := n]> (hash2Number q);
      size := size q;
      head := (head q + 1) mod size q;
      count := count q + 1
    |}
  else Panic.

Definition Push (q : queue) (block : Block) : go queue :=
  let n := NumberU64 block in
  match uniqueNumbers q !! n with
  | Some bs => Ret {|
      blockNumbers := blockNumbers q;
      uniqueNumbers := <[n := bs ++ [block]]> (uniqueNumbers q);
      hash2Number := <[blockHash block := n]> (hash2Number q);
      size := size q;
      head := head q;
      count := count q
    |}
  | None =>
      let! q' := (if decide (size q <= count q)%nat then evict q else Ret q) in
      append q' block
  end.

(** [First]: [None] is the nil block. *)
Definition First (q : queue) : go (option Block) :=
  if decide (0 < count q)%nat then
    let! n := lastSlot q in
    let! b := go_index (default [] (uniqueNumbers q !! n)) 0 in
    Ret (Some b)
  else Ret None.

Definition Exist (q : queue) (h : Z) (number : Z) : bool :=
  match uniqueNumbers q !! number with
  | None => false
  | Some bs => existsb (fun b => blockHash b =? h) bs
  end.

Definition ExistByHash (q : queue) (h : Z) : bool :=
  match hash2Number q !! h with Some _ => true | None => false end.

Definition Hash2Number (q : queue) (h : Z) : option Z := hash2Number q !! h.

Definition UniqueNumber (q : queue) (number : Z) : option (list Block) :=
  uniqueNumbers q !! number.

(** ** The invariant *)

(** Both indexes describe the same set of blocks, the ring has its size, the
    counter counts the cached numbers, and the slot before the head names a
    cached number. *)
Record wf_index (q : queue) : Prop := {
  wf_size : (0 < size q)%nat;
  wf_ring : length (blockNumbers q) = size q;
  wf_head : (head q < size q)%nat;
  wf_count : count q = base.size (uniqueNumbers q);
  wf_capacity : (count q <= size q)%nat;
  wf_blocks : forall n bs, uniqueNumbers q !! n = Some bs ->
    bs <> [] /\ Forall (fun b => NumberU64 b = n) bs;
  wf_hash : forall h n, hash2Number q !! h = Some n <->
    exists bs b, uniqueNumbers q !! n = Some bs /\ b ∈ bs /\ blockHash b = h
}.

Record wf (q : queue) : Prop := {
  wf_indexed : wf_index q;
  wf_last : (0 < count q)%nat -> exists n,
    lastSlot q = Ret n /\ is_Some (uniqueNumbers q !! n)
}.

(** A block hash determines the number it was cached under: the hash of a header
    covers its number, so two blocks with one hash have one number. *)
Definition no_collision (q : queue) (block : Block) : Prop :=
  forall n bs b, uniqueNumbers q !! n = Some bs -> b ∈ bs ->
    blockHash b = blockHash block -> n = NumberU64 block.

Fixpoint pushAll (q : queue) (bs : list Block) : go queue :=
  match bs with
  | [] => Ret q
  | b :: bs => let! q' := Push q b in pushAll q' bs
  end.

(** ** Lemmas *)

Lemma deleteHashes_lookup bs m h :
  deleteHashes bs m !! h = if decide (h ∈ blockHash <$> bs) then None else m !! h.
Proof.
  apply foldl_delete_lookup.
Qed.

Lemma lastSlot_range q n :
  lastSlot q = Ret n -> blockNumbers q !! ((head q + size q - 1) mod size q)%nat = Some n.
Proof.
  unfold lastSlot, go_index. case_decide; [done|].
  rewrite decide_True by lia. rewrite Nat2Z.id. by case_match; intros; simplify_eq.
Qed.

Lemma lastSlot_total q :
  (0 < size q)%nat -> length (blockNumbers q) = size q -> exists n, lastSlot q = Ret n.
Proof.
  intros Hs Hl. destruct (lookup_lt_is_Some_2 (blockNumbers q) ((head q + size q - 1) mod size q)%nat) as [n Hn].
  { rewrite Hl. apply Nat.mod_upper_bound. lia. }
  exists n. unfold lastSlot. rewrite decide_False by lia. by apply go_index_Ret.
Qed.

(** The slot before the new head is the one just written. *)
Lemma lastSlot_append bns u h2 sz hd c n :
  (hd < sz)%nat -> length bns = sz ->
  lastSlot (mkQueue (<[hd := n]> bns) u h2 sz ((hd + 1) mod sz) c) = Ret n.
Proof.
  intros Hh Hl. unfold lastSlot; simpl. rewrite decide_False by lia.
  assert ((((hd + 1) mod sz + sz - 1) mod sz = hd)%nat) as ->.
  { destruct (decide (hd + 1 = sz)%nat) as [<-|].
    - rewrite Nat.Div0.mod_same, Nat.add_0_l. rewrite Nat.mod_small; lia.
    - rewrite (Nat.mod_small (hd + 1)) by lia.
      replace (hd + 1 + sz - 1)%nat with (hd + 1 * sz)%nat by lia.
      rewrite Nat.Div0.mod_add. apply Nat.mod_small. lia. }
  apply go_index_Ret. apply list_lookup_insert_eq. lia.
Qed.

Lemma newFixedSizeBlockQueue_wf n : (0 < n)%nat -> wf (newFixedSizeBlockQueue n).
Proof.
  intros Hn. split; [split|]; simpl; try done; try lia.
  - apply length_replicate.
  - intros h m. split; [done|]. by intros (bs & b & ? & _).
Qed.

(** Indexing one more block under its number keeps the two indexes equal. *)
Lemma index_insert (u : gmap Z (list Block)) (h2 : gmap Z Z) block bs :
  bs = default [] (u !! NumberU64 block) ->
  (forall n bs b, u !! n = Some bs -> b ∈ bs ->
    blockHash b = blockHash block -> n = NumberU64 block) ->
  (forall h n, h2 !! h = Some n <->
    exists bs b, u !! n = Some bs /\ b ∈ bs /\ blockHash b = h) ->
  forall h n, <[blockHash block := NumberU64 block]> h2 !! h = Some n <->
    exists bs' b, <[NumberU64 block := bs ++ [block]]> u !! n = Some bs' /\
      b ∈ bs' /\ blockHash b = h.
Proof.
  intros -> Hnc Hh h n. rewrite !lookup_insert. repeat case_decide; subst.
  - split; [|done]. intros _. eexists _, block. split; [done|]. set_solver.
  - split; [congruence|]. intros (bs' & b & Hu & Hb & Heq). exfalso. naive_solver.
  - rewrite Hh. split.
    + intros (bs & b & Hu & Hb & <-). rewrite Hu. simpl. eexists _, b. split; [done|]. set_solver.
    + intros (bs' & b & [= <-] & Hb & <-). apply elem_of_app in Hb as [Hb|Hb].
      * destruct (u !! NumberU64 block) as [bs|] eqn:E; simpl in Hb; [eauto|set_solver].
      * set_solver.
  - apply Hh.
Qed.

Lemma Forall_index_insert (u : gmap Z (list Block)) block n bs :
  (forall n bs, u !! n = Some bs -> bs <> [] /\ Forall (fun b => NumberU64 b = n) bs) ->
  <[NumberU64 block := default [] (u !! NumberU64 block) ++ [block]]> u !! n = Some bs ->
  bs <> [] /\ Forall (fun b => NumberU64 b = n) bs.
Proof.
  intros Hb. rewrite lookup_insert. case_decide; subst; [|apply Hb].
  intros [= <-]. split; [by destruct (default _ _)|].
  apply Forall_app. split; [|by constructor].
  destruct (u !! NumberU64 block) eqn:E; simpl; [by eapply Hb|constructor].
Qed.

Lemma append_wf q block :
  wf_index q -> (count q < size q)%nat -> uniqueNumbers q !! NumberU64 block = None ->
  no_collision q block ->
  exists q', append q block = Ret q' /\ wf q' /\
    uniqueNumbers q' = <[NumberU64 block := [block]]> (uniqueNumbers q) /\
    size q' = size q /\ lastSlot q' = Ret (NumberU64 block).
Proof.
  intros [Hs Hr Hh Hc Hcap Hb Hx] Hlt Hnone Hnc. unfold append.
  rewrite decide_True, decide_False by lia. eexists. split; [done|].
  pose proof (lastSlot_append (blockNumbers q)
    (<[NumberU64 block := default [] (uniqueNumbers q !! NumberU64 block) ++ [block]]> (uniqueNumbers q))
    (<[blockHash block := NumberU64 block]> (hash2Number q))
    (size q) (head q) (count q + 1) (NumberU64 block) Hh Hr) as Hlast.
  split; [|by rewrite Hnone in *; repeat split].
  split; [split|]; simpl; try done.
  - by rewrite length_insert.
  - apply Nat.mod_upper_bound. lia.
  - rewrite map_size_insert_None by done. lia.
  - lia.
  - intros n bs. by apply Forall_index_insert.
  - by apply index_insert.
  - intros _. eexists. split; [exact Hlast|]. by simplify_map_eq.
Qed.

Lemma evict_wf q :
  wf q -> (0 < count q)%nat ->
  exists q' n, evict q = Ret q' /\ lastSlot q = Ret n /\ wf_index q' /\
    uniqueNumbers q' = delete n (uniqueNumbers q) /\
    size q' = size q /\ (count q' < size q)%nat.
Proof.
  intros [[Hs Hr Hh Hc Hcap Hb Hx] Hl] Hpos. destruct (Hl Hpos) as (n & Hn & [bs Hbs]).
  exists {| blockNumbers := blockNumbers q; uniqueNumbers := delete n (uniqueNumbers q);
     hash2Number := deleteHashes bs (hash2Number q);
     size := size q; head := head q; count := count q - 1 |}, n.
  unfold evict. rewrite Hn, Hbs. repeat (split; [done|]).
  split; [|repeat (split; [done|]); simpl; lia].
  split; simpl; try done.
  - rewrite map_size_delete_Some by eauto. lia.
  - lia.
  - intros m cs [_ Hm]%lookup_delete_Some. by apply Hb.
  - intros h m. rewrite deleteHashes_lookup. setoid_rewrite lookup_delete_Some.
    case_decide as Hin.
    + split; [done|]. intros (cs & c & [Hne Hcs] & Hc' & <-).
      apply list_elem_of_fmap in Hin as (b & Hbh & Hbin).
      assert (hash2Number q !! blockHash c = Some m) by (apply Hx; eauto).
      assert (hash2Number q !! blockHash c = Some n) by (apply Hx; eexists bs, b; auto).
      congruence.
    + rewrite Hx. split; [|naive_solver].
      intros (cs & c & Hcs & Hc' & <-). exists cs, c. repeat split; try done.
      intros ->. apply Hin. apply list_elem_of_fmap. exists c. by simplify_eq.
Qed.

(** The three branches of [Push] on a well-formed queue. *)
Lemma Push_known q block bs :
  wf q -> no_collision q block -> uniqueNumbers q !! NumberU64 block = Some bs ->
  exists q', Push q block = Ret q' /\ wf q' /\
    uniqueNumbers q' = <[NumberU64 block := bs ++ [block]]> (uniqueNumbers q) /\
    size q' = size q.
Proof.
  intros [[Hs Hr Hh Hc Hcap Hb Hx] Hl] Hnc Hbs. unfold Push. rewrite Hbs.
  eexists. split; [done|]. split; [|done].
  split; [split|]; simpl; try done.
  - by rewrite map_size_insert_Some by eauto.
  - intros n cs. pose proof (Forall_index_insert (uniqueNumbers q) block n cs Hb) as HF.
    rewrite Hbs in HF. exact HF.
  - apply index_insert; [by rewrite Hbs|done|done].
  - intros Hpos. destruct (Hl Hpos) as (n & Hn & Hsome). exists n. split; [exact Hn|].
    rewrite lookup_insert. case_decide; [eauto|done].
Qed.

Lemma Push_room q block :
  wf q -> no_collision q block -> uniqueNumbers q !! NumberU64 block = None ->
  (count q < size q)%nat ->
  exists q', Push q block = Ret q' /\ wf q' /\
    uniqueNumbers q' = <[NumberU64 block := [block]]> (uniqueNumbers q) /\
    size q' = size q /\ lastSlot q' = Ret (NumberU64 block).
Proof.
  intros [Hwf _] Hnc Hnone Hlt. unfold Push. rewrite Hnone, decide_False by lia.
  by apply append_wf.
Qed.

Lemma Push_full q block :
  wf q -> no_collision q block -> uniqueNumbers q !! NumberU64 block = None ->
  count q = size q ->
  exists q' n, Push q block = Ret q' /\ wf q' /\ lastSlot q = Ret n /\
    uniqueNumbers q' = <[NumberU64 block := [block]]> (delete n (uniqueNumbers q)) /\
    size q' = size q /\ lastSlot q' = Ret (NumberU64 block).
Proof.
  intros Hwf Hnc Hnone Hfull. unfold Push. rewrite Hnone, decide_True by lia.
  destruct (evict_wf q) as (q1 & n & -> & Hlast & Hwf1 & Hu & Hsz & Hcnt);
    [done|destruct Hwf as [[]]; lia|].
  destruct (append_wf q1 block) as (q2 & -> & Hwf2 & Hu2 & Hsz2 & Hl2); [done|lia|..].
  - rewrite Hu. by apply lookup_delete_None; right.
  - intros m bs b. rewrite Hu. intros [_ Hm]%lookup_delete_Some. by eapply Hnc.
  - exists q2, n. rewrite Hu2, Hu, Hl2, Hsz2. done.
Qed.

(** Every branch indexes the block in the old contents or in a part of them. *)
Lemma Push_cases q block :
  wf q -> no_collision q block ->
  exists q' u, Push q block = Ret q' /\ wf q' /\ size q' = size q /\
    u ⊆ uniqueNumbers q /\
    uniqueNumbers q' =
      <[NumberU64 block := default [] (uniqueNumbers q !! NumberU64 block) ++ [block]]> u.
Proof.
  intros Hwf Hnc. destruct (uniqueNumbers q !! NumberU64 block) as [bs|] eqn:E.
  - destruct (Push_known q block bs) as (q' & -> & ? & Hu & ?); try done.
    by exists q', (uniqueNumbers q).
  - destruct (decide (count q < size q)%nat) as [Hlt|Hge].
    + destruct (Push_room q block) as (q' & -> & ? & Hu & ? & ?); try done.
      by exists q', (uniqueNumbers q).
    + destruct (Push_full q block) as (q' & n & -> & ? & ? & Hu & ? & ?); try done.
      { destruct Hwf as [[]]. lia. }
      exists q', (delete n (uniqueNumbers q)). split_and!; try done. apply delete_subseteq.
Qed.

Lemma Exist_spec q h n :
  Exist q h n = true <-> exists bs b, uniqueNumbers q !! n = Some bs /\ b ∈ bs /\ blockHash b = h.
Proof.
  unfold Exist. destruct (uniqueNumbers q !! n) as [bs|] eqn:E; [|naive_solver].
  rewrite existsb_exists. split.
  - intros (b & Hb & Hh%Z.eqb_eq). exists bs, b. by rewrite list_elem_of_In.
  - intros (bs' & b & [= <-] & Hb & Hh). exists b. by rewrite <- list_elem_of_In, Z.eqb_eq.
Qed.

(** All blocks of a queue satisfy [P]. *)
Definition holds (P : Block -> Prop) (q : queue) : Prop :=
  forall n bs, uniqueNumbers q !! n = Some bs -> Forall P bs.

Definition hash_injective (P : Block -> Prop) : Prop :=
  forall b1 b2, P b1 -> P b2 -> blockHash b1 = blockHash b2 -> NumberU64 b1 = NumberU64 b2.

Lemma holds_no_collision P q block :
  wf q -> hash_injective P -> holds P q -> P block -> no_collision q block.
Proof.
  intros [[] _] Hinj Hh Hb n bs b Hn Hin Heq.
  destruct (wf_blocks0 n bs Hn) as [_ HF]. rewrite Forall_forall in HF.
  rewrite <- (HF b Hin). apply Hinj; [|done|done].
  specialize (Hh n bs Hn). rewrite Forall_forall in Hh. by apply Hh.
Qed.

(** Blocks pushed one after the other into a well-formed queue leave it well formed. *)
Lemma pushAll_wf P q bs :
  wf q -> hash_injective P -> holds P q -> Forall P bs ->
  exists q', pushAll q bs = Ret q' /\ wf q' /\ holds P q' /\ size q' = size q.
Proof.
  intros Hwf Hinj. revert q Hwf. induction bs as [|b bs IH]; intros q Hwf Hh HP; simpl.
  { exists q. done. }
  apply Forall_cons in HP as [Hb HP].
  assert (no_collision q b) as Hnc by by eapply holds_no_collision.
  destruct (Push_cases q b Hwf Hnc) as (q1 & u & -> & Hwf1 & Hsz1 & Hsub & Hu).
  assert (holds P q1) as Hh1.
  { intros n cs. rewrite Hu, lookup_insert. case_decide; subst.
    - intros [= <-]. apply Forall_app. split; [|by constructor].
      destruct (uniqueNumbers q !! NumberU64 b) eqn:E; simpl; [by eapply Hh|constructor].
    - intros Hn. eapply Hh, lookup_weaken; eauto. }
  destruct (IH q1) as (q2 & ? & ? & ? & ?); try done. exists q2. split_and!; try done. lia.
Qed.

(** A small full cache, for concrete examples. *)
Definition exQueue : queue :=
  match pushAll (newFixedSizeBlockQueue 3) [exBlock 1 101; exBlock 2 102; exBlock 3 103] with
  | Ret q => q
  | Panic => newFixedSizeBlockQueue 3
  end.

End BlockQueue.

Module Chain.
Import BlockQueue.

(** The callbacks [SetPioplatFullNodeFn] installs; the boolean of a result says
    that the error is not nil (the callers only log it). A receipt is its RLP encoding here,
    and [None] is the nil slice of receipts. *)
Record FullNode := mkFullNode {
  reqHeaderByHash : Z -> option Header * bool;
  reqHeaderByHashAndNumber : Z -> Z -> option Header * bool;
  reqHeaderByNumber : Z -> option Header * bool;
  reqBlockBodyRlp : Z -> list Z * bool;
  reqReceiptsByHash : Z -> option (list (list Z)) * bool;
  reqTrieNodeByHash : Z -> list Z * bool;
  reqContractCodeWithPrefix : Z -> list Z * bool;
  reqAncestor : Z -> Z -> Z -> Z -> Z * Z;
  reqTotalDifficulty : Z -> Z -> Z * bool
}.

(** What a correct full node promises: a header it returns is the one asked for. *)
Class FullNodeSound (fn : FullNode) : Prop := {
  sound_by_hash : forall h hd e, reqHeaderByHash fn h = (Some hd, e) -> headerHash hd = h;
  sound_by_both : forall h n hd e,
    reqHeaderByHashAndNumber fn h n = (Some hd, e) -> headerHash hd = h
}.

(** [Blockchain]. [broadcastSet] says whether [SetBroadcastFn] was called. *)
Record chain := mkChain {
  currentBlock : Block;
  blockContainer : queue;
  genesisHash : Z;
  broadcastSet : bool;
  fullNode : option FullNode
}.

(** What the chain hands to its feeds and to the relay peers. *)
Inductive event :=
| ChainHeadEvent (b : Block)
| ChainBlockEvent (b : Block)
| BroadcastToPioplat (b : Block).

Definition BlockContainerSizeLimit : nat := 128.

(** [NewBlockchain]; [genesisChildHash] is the hash of the placeholder block. *)
Definition NewBlockchain (genesis genesisChildHash : Z) : chain := {|
  currentBlock := mkBlock (mkHeader genesis 1 0 genesisChildHash 0 0 0) [] [];
  blockContainer := newFixedSizeBlockQueue BlockContainerSizeLimit;
  genesisHash := genesis;
  broadcastSet := false;
  fullNode := None
|}.

Definition SetBroadcastFn (bc : chain) : chain :=
  mkChain (currentBlock bc) (blockContainer bc) (genesisHash bc) true (fullNode bc).

Definition SetPioplatFullNodeFn (bc : chain) (fn : FullNode) : chain :=
  mkChain (currentBlock bc) (blockContainer bc) (genesisHash bc) (broadcastSet bc) (Some fn).

Definition HasBlock (bc : chain) (h n : Z) : bool := Exist (blockContainer bc) h n.
Definition HasBlockByHash (bc : chain) (h : Z) : bool := ExistByHash (blockContainer bc) h.

(** The last statement of [EnqueueNewBlock]. *)
Definition advanceHead (bc : chain) (block : Block) : chain :=
  if decide (NumberU64 (currentBlock bc) < NumberU64 block /\
             blockHash block <> blockHash (currentBlock bc))
  then mkChain block (blockContainer bc) (genesisHash bc) (broadcastSet bc) (fullNode bc)
  else bc.

Definition EnqueueNewBlock (bc : chain) (block : Block) : go (chain * list event) :=
  if HasBlock bc (blockHash block) (NumberU64 block) then Ret (advanceHead bc block, [])
  else
    let! q := Push (blockContainer bc) block in
    if broadcastSet bc then
      Ret (advanceHead (mkChain (currentBlock bc) q (genesisHash bc) (broadcastSet bc) (fullNode bc)) block,
           [ChainHeadEvent block; ChainBlockEvent block; BroadcastToPioplat block])
    else Panic.

Fixpoint InsertChain (bc : chain) (blocks : list Block) : go (chain * list event) :=
  match blocks with
  | [] => Ret (bc, [])
  | b :: bs =>
      let! (bc1, ev1) := EnqueueNewBlock bc b in
      let! (bc2, ev2) := InsertChain bc1 bs in
      Ret (bc2, ev1 ++ ev2)
  end.

(** The search loop shared by the getters. *)
Definition findBlock (h : Z) (bs : list Block) : option Block :=
  List.find (fun b => blockHash b =? h) bs.

Definition GetBlockByHash (bc : chain) (h : Z) : option Block :=
  match Hash2Number (blockContainer bc) h with
  | Some n => findBlock h (default [] (UniqueNumber (blockContainer bc) n))
  | None => None
  end.

Definition GetHeaderByHash (bc : chain) (h : Z) : option Header :=
  match Hash2Number (blockContainer bc) h with
  | Some n => header <$> findBlock h (default [] (UniqueNumber (blockContainer bc) n))
  | None =>
      match fullNode bc with
      | Some fn => (reqHeaderByHash fn h).1
      | None => None
      end
  end.

Definition GetHeader (bc : chain) (h n : Z) : go (option Header) :=
  match UniqueNumber (blockContainer bc) n with
  | Some bs => Ret (header <$> findBlock h bs)
  | None =>
      match fullNode bc with
      | Some fn => Ret (reqHeaderByHashAndNumber fn h n).1
      | None => Panic
      end
  end.

Definition GetHeaderByNumber (bc : chain) (n : Z) : go (option Header) :=
  let forward :=
    match fullNode bc with
    | Some fn => Ret (reqHeaderByNumber fn n).1
    | None => Panic
    end in
  match UniqueNumber (blockContainer bc) n with
  | Some [b] => Ret (Some (header b))
  | _ => forward
  end.

(** [GetHeadersFrom] with the RLP encoder of a (possibly nil) header as argument;
    [from+count] wraps at 64 bits. *)
Fixpoint collectHeaders (encode : option Header -> option (list Z)) (bc : chain)
    (ns : list Z) : go (list (list Z)) :=
  match ns with
  | [] => Ret []
  | n :: ns =>
      let! hd := GetHeaderByNumber bc n in
      let! rest := collectHeaders encode bc ns in
      Ret (default [] (encode hd) :: rest)
  end.

Definition GetHeadersFrom (encode : option Header -> option (list Z)) (bc : chain)
    (from cnt : Z) : go (list (list Z)) :=
  collectHeaders encode bc (seqZ from (u64 (from + cnt) - from)).

(** [GetBodyRLP] with the RLP encoder of a body as argument. *)
Definition GetBodyRLP (encode : Block -> option (list Z)) (bc : chain) (h : Z) : go (list Z) :=
  match Hash2Number (blockContainer bc) h with
  | Some n =>
      Ret (match findBlock h (default [] (UniqueNumber (blockContainer bc) n)) with
           | Some b => default [] (encode b)
           | None => []
           end)
  | None =>
      match fullNode bc with
      | Some fn => Ret (reqBlockBodyRlp fn h).1
      | None => Panic
      end
  end.

Definition GetAncestor (bc : chain) (h n ancestor maxNonCanonical : Z) : go (Z * Z) :=
  match fullNode bc with
  | Some fn => Ret (reqAncestor fn h n ancestor maxNonCanonical)
  | None => Panic
  end.

(** [Hash] of a nil header is the hash of the empty list. *)
Definition GetCanonicalHash (nilHash : hash) (bc : chain) (n : Z) : go hash :=
  let! hd := GetHeaderByNumber bc n in Ret (from_option headerHash nilHash hd).

Definition GetReceiptsByHash (bc : chain) (h : Z) : go (option (list (list Z))) :=
  match fullNode bc with Some fn => Ret (reqReceiptsByHash fn h).1 | None => Panic end.

(** These two return the error, too. *)
Definition ContractCodeWithPrefix (bc : chain) (h : Z) : go (list Z * bool) :=
  match fullNode bc with Some fn => Ret (reqContractCodeWithPrefix fn h) | None => Panic end.

Definition TrieNode (bc : chain) (h : Z) : go (list Z * bool) :=
  match fullNode bc with Some fn => Ret (reqTrieNodeByHash fn h) | None => Panic end.

Definition GetTd (bc : chain) (h n : Z) : go Z :=
  match fullNode bc with
  | Some fn => Ret (reqTotalDifficulty fn h n).1
  | None => Panic
  end.

(** ** Lemmas *)

Lemma findBlock_Some h bs b : findBlock h bs = Some b -> b ∈ bs /\ blockHash b = h.
Proof.
  intros [Hin Hh]%find_some. split; [by apply list_elem_of_In|by apply Z.eqb_eq].
Qed.

Lemma findBlock_is_Some h bs b : b ∈ bs -> blockHash b = h -> is_Some (findBlock h bs).
Proof.
  intros Hin Hh. destruct (findBlock h bs) eqn:E; [eauto|].
  eapply find_none in E; [|by apply list_elem_of_In]. apply Z.eqb_neq in E. done.
Qed.

Lemma advanceHead_container bc b : blockContainer (advanceHead bc b) = blockContainer bc.
Proof. unfold advanceHead. by case_decide. Qed.

Lemma advanceHead_monotone bc b :
  NumberU64 (currentBlock bc) <= NumberU64 (currentBlock (advanceHead bc b)).
Proof. unfold advanceHead. case_decide; simpl; lia. Qed.

(** The two ways of looking a hash up agree on a well-formed cache. *)
Lemma GetBlockByHash_cached bc h :
  wf (blockContainer bc) -> HasBlockByHash bc h = true <-> is_Some (GetBlockByHash bc h).
Proof.
  intros [[] _]. unfold HasBlockByHash, ExistByHash, GetBlockByHash, Hash2Number, UniqueNumber.
  destruct (hash2Number (blockContainer bc) !! h) as [n|] eqn:E; [|split; [done|by intros []]].
  split; [intros _|done]. apply wf_hash0 in E as (bs & b & -> & Hb & Hh).
  by eapply findBlock_is_Some.
Qed.

End Chain.

(** ** Theorems *)

Import BlockQueue Chain.

(** Pushing a block into a well-formed cache never panics, keeps both indexes
    consistent and within capacity, and the block can be found afterwards. *)
Theorem Push_preserves_wf q block :
  wf q -> no_collision q block ->
  exists q', Push q block = Ret q' /\ wf q' /\ size q' = size q /\
    Exist q' (blockHash block) (NumberU64 block) = true /\
    ExistByHash q' (blockHash block) = true.
Proof.
  intros Hwf Hnc. destruct (Push_cases q block Hwf Hnc) as (q' & u & -> & Hwf' & Hsz & _ & Hu).
  assert (exists bs b, uniqueNumbers q' !! NumberU64 block = Some bs /\ b ∈ bs /\
    blockHash b = blockHash block) as Hin.
  { eexists _, block. rewrite Hu, lookup_insert_eq. split; [done|set_solver]. }
  exists q'. split_and!; [done..|by apply Exist_spec|].
  unfold ExistByHash. destruct Hwf' as [[] _]. apply wf_hash0 in Hin. by rewrite Hin.
Qed.

(** In the examples the hash of a block is 100 more than its number. *)
Definition exP (b : Block) : Prop := blockHash b = 100 + NumberU64 b.

Lemma exP_injective : hash_injective exP.
Proof. unfold exP. intros b1 b2. lia. Qed.

Lemma exQueue_facts : wf exQueue /\ holds exP exQueue.
Proof.
  destruct (pushAll_wf exP (newFixedSizeBlockQueue 3)
    [exBlock 1 101; exBlock 2 102; exBlock 3 103]) as (q & Hq & Hwf & Hh & _).
  - apply newFixedSizeBlockQueue_wf. lia.
  - apply exP_injective.
  - by intros n bs ?.
  - by repeat constructor.
  - unfold exQueue. by rewrite Hq.
Qed.

Lemma Push_preserves_wf_witness :
  exists q', Push exQueue (exBlock 4 104) = Ret q' /\ ExistByHash q' 104 = true.
Proof.
  destruct (Push_preserves_wf exQueue (exBlock 4 104)) as (q' & H1 & _ & _ & _ & H2).
  - apply exQueue_facts.
  - eapply (holds_no_collision exP); try apply exQueue_facts; [apply exP_injective|done].
  - exists q'. done.
Defined.

(** A full cache evicts the number it cached last, not the oldest one. However
    many blocks with fresh numbers arrive after it filled up, all the numbers
    it held before stay, except the then newest one, and of the new blocks only the very last
    one is cached. *)
Theorem full_cache_evicts_newest P q l bs b :
  wf q -> hash_injective P -> holds P q -> Forall P (bs ++ [b]) ->
  count q = size q -> lastSlot q = Ret l ->
  NoDup (NumberU64 <$> bs ++ [b]) ->
  Forall (fun c => uniqueNumbers q !! NumberU64 c = None) (bs ++ [b]) ->
  exists q', pushAll q (bs ++ [b]) = Ret q' /\
    uniqueNumbers q' = <[NumberU64 b := [b]]> (delete l (uniqueNumbers q)).
Proof.
  intros Hwf Hinj. revert q l Hwf. induction bs as [|c bs IH];
    intros q l Hwf Hh HP Hfull Hlast Hnd Hfresh; cbn [app pushAll] in *.
  - inversion HP; inversion Hfresh; subst.
    destruct (Push_full q b) as (q' & n & -> & ? & ? & Hu & _); try done.
    { by eapply holds_no_collision. }
    exists q'. split; [done|]. congruence.
  - apply Forall_cons in HP as [Hc HP]. apply Forall_cons in Hfresh as [Hfc Hfresh].
    rewrite fmap_cons, NoDup_cons in Hnd. destruct Hnd as [Hnc Hnd].
    destruct (Push_full q c) as (q1 & n & Hp1 & Hwf1 & Hl0 & Hu & Hsz & Hl1); try done.
    { by eapply holds_no_collision. }
    rewrite Hp1. assert (n = l) as -> by congruence.
    assert (is_Some (uniqueNumbers q !! l)) as Hl.
    { destruct Hwf as [[] Hlast']. destruct Hlast' as (m & Hm & ?); [lia|].
      congruence. }
    destruct (IH q1 (NumberU64 c)) as (q' & Hq' & Hu'); try done.
    + intros m cs. rewrite Hu, lookup_insert. case_decide; subst.
      * intros [= <-]. by constructor.
      * intros [_ ?]%lookup_delete_Some. by eapply Hh.
    + pose proof Hwf as [[] _]. pose proof Hwf1 as [[] _].
      rewrite wf_count1, Hu, Hsz, map_size_insert_None by (apply lookup_delete_None; auto).
      rewrite map_size_delete_Some by done. lia.
    + rewrite Forall_forall in Hfresh |- *. intros d Hd. rewrite Hu.
      apply lookup_insert_None. split; [apply lookup_delete_None; auto|].
      intros Heq. apply Hnc. rewrite Heq. by apply list_elem_of_fmap_2.
    + exists q'. split; [done|]. rewrite Hu', Hu. f_equal.
      apply delete_insert_id. apply lookup_delete_None. auto.
Qed.

Lemma full_cache_evicts_newest_witness :
  exists q', pushAll exQueue [exBlock 4 104; exBlock 5 105; exBlock 6 106] = Ret q' /\
    uniqueNumbers q' = <[6 := [exBlock 6 106]]> (delete 3 (uniqueNumbers exQueue)).
Proof.
  apply (full_cache_evicts_newest exP exQueue 3 [exBlock 4 104; exBlock 5 105] (exBlock 6 106));
    try apply exQueue_facts; try reflexivity; [apply exP_injective|..].
  - repeat constructor.
  - vm_compute. repeat constructor; set_solver.
  - repeat constructor.
Defined.

(** Enqueuing a block caches it, never lowers the head number, and hands it to
    the feeds and the relay peers exactly when it was not cached before; a
    second enqueue of the same block is silent. *)
Theorem EnqueueNewBlock_once bc block :
  wf (blockContainer bc) -> no_collision (blockContainer bc) block -> broadcastSet bc = true ->
  exists bc', EnqueueNewBlock bc block = Ret (bc',
      if HasBlock bc (blockHash block) (NumberU64 block) then []
      else [ChainHeadEvent block; ChainBlockEvent block; BroadcastToPioplat block]) /\
    wf (blockContainer bc') /\
    HasBlock bc' (blockHash block) (NumberU64 block) = true /\
    NumberU64 (currentBlock bc) <= NumberU64 (currentBlock bc') /\
    exists bc'', EnqueueNewBlock bc' block = Ret (bc'', []).
Proof.
  intros Hwf Hnc Hset.
  assert (forall bc', HasBlock bc' (blockHash block) (NumberU64 block) = true ->
    exists bc'', EnqueueNewBlock bc' block = Ret (bc'', [])) as Hagain.
  { intros bc' Hhas. unfold EnqueueNewBlock. rewrite Hhas. eauto. }
  destruct (HasBlock bc (blockHash block) (NumberU64 block)) eqn:Hhas.
  - exists (advanceHead bc block). unfold EnqueueNewBlock. rewrite Hhas.
    assert (HasBlock (advanceHead bc block) (blockHash block) (NumberU64 block) = true)
      by (unfold HasBlock; by rewrite advanceHead_container).
    split_and!; [done|by rewrite advanceHead_container|done|apply advanceHead_monotone|].
    by apply Hagain.
  - destruct (Push_cases _ _ Hwf Hnc) as (q' & u & Hp & Hwf' & _ & _ & Hu).
    set (bc1 := mkChain (currentBlock bc) q' (genesisHash bc) true (fullNode bc)).
    exists (advanceHead bc1 block).
    split; [unfold EnqueueNewBlock; by rewrite Hhas, Hp, Hset|].
    rewrite advanceHead_container; simpl.
    assert (Exist q' (blockHash block) (NumberU64 block) = true).
    { apply Exist_spec. eexists _, block. rewrite Hu, lookup_insert_eq. split; [done|set_solver]. }
    split_and!; [done|unfold HasBlock; by rewrite advanceHead_container| |].
    + apply (advanceHead_monotone bc1).
    + apply Hagain. unfold HasBlock. by rewrite advanceHead_container.
Qed.

Definition exChain : chain := mkChain (exBlock 1 101) exQueue 7 true None.

Lemma EnqueueNewBlock_once_witness :
  exists bc' : chain, EnqueueNewBlock exChain (exBlock 4 104) = Ret (bc',
    [ChainHeadEvent (exBlock 4 104); ChainBlockEvent (exBlock 4 104);
     BroadcastToPioplat (exBlock 4 104)]).
Proof.
  destruct (EnqueueNewBlock_once exChain (exBlock 4 104)) as (bc' & H & _).
  - apply exQueue_facts.
  - eapply (holds_no_collision exP); try apply exQueue_facts; [apply exP_injective|done].
  - done.
  - exists bc'. exact H.
Defined.

(** Whatever header the chain front returns for a hash, from the cache or from a
    sound full node, has that hash; and a block it returns is cached under the
    number of its header. *)
Theorem lookups_return_what_was_asked bc h :
  wf (blockContainer bc) ->
  (forall fn, fullNode bc = Some fn -> FullNodeSound fn) ->
  (forall hd, GetHeaderByHash bc h = Some hd -> headerHash hd = h) /\
  (forall n hd, GetHeader bc h n = Ret (Some hd) -> headerHash hd = h) /\
  (forall b, GetBlockByHash bc h = Some b -> HasBlock bc h (NumberU64 b) = true) /\
  (HasBlockByHash bc h = true <-> is_Some (GetBlockByHash bc h)).
Proof.
  intros Hwf Hfn. split_and!; [..|by apply GetBlockByHash_cached].
  - intros hd. unfold GetHeaderByHash. case_match.
    + intros (b & [_ Hb]%findBlock_Some & ->)%fmap_Some. done.
    + destruct (fullNode bc) as [fn|]; [|done]. specialize (Hfn fn eq_refl).
      destruct (reqHeaderByHash fn h) as [[]] eqn:E; [|done]. intros [= <-]. by eapply sound_by_hash.
  - intros n hd. unfold GetHeader. case_match.
    + intros [= (b & [_ Hb]%findBlock_Some & ->)%fmap_Some]. done.
    + destruct (fullNode bc) as [fn|]; [|done]. specialize (Hfn fn eq_refl).
      destruct (reqHeaderByHashAndNumber fn h n) as [[]] eqn:E; [|done].
      intros [= <-]. by eapply sound_by_both.
  - intros b. unfold GetBlockByHash, Hash2Number, UniqueNumber. case_match eqn:Hn; [|done].
    intros [Hb Hh]%findBlock_Some. apply Exist_spec.
    destruct (uniqueNumbers (blockContainer bc) !! z) as [bs|] eqn:E; simpl in Hb; [|set_solver].
    destruct Hwf as [[] _]. destruct (wf_blocks0 z bs E) as [_ HF]. rewrite Forall_forall in HF.
    exists bs, b. by rewrite (HF b Hb).
Qed.

(** A full node that knows one header. *)
Definition exNode : FullNode := {|
  reqHeaderByHash := fun h => if decide (h = 55) then (Some (mkHeader 0 9 0 55 0 0 0), false) else (None, true);
  reqHeaderByHashAndNumber := fun h n =>
    if decide (h = 55) then (Some (mkHeader 0 9 0 55 0 0 0), false) else (None, true);
  reqHeaderByNumber := fun n => (None, true);
  reqBlockBodyRlp := fun h => ([], true);
  reqReceiptsByHash := fun h => (None, true);
  reqTrieNodeByHash := fun h => ([], true);
  reqContractCodeWithPrefix := fun h => ([], true);
  reqAncestor := fun _ _ _ _ => (0, 0);
  reqTotalDifficulty := fun _ _ => (0, true)
|}.

#[global] Instance exNode_sound : FullNodeSound exNode.
Proof. split; simpl; intros; case_decide; simplify_eq; done. Qed.

Lemma lookups_return_what_was_asked_witness :
  GetHeaderByHash (SetPioplatFullNodeFn exChain exNode) 55 = Some (mkHeader 0 9 0 55 0 0 0) /\
  headerHash (mkHeader 0 9 0 55 0 0 0) = 55.
Proof.
  split; [reflexivity|].
  apply (lookups_return_what_was_asked (SetPioplatFullNodeFn exChain exNode) 55).
  - apply exQueue_facts.
  - intros fn [= <-]. apply _.
  - reflexivity.
Defined.
