(* ===== verification/TxPool.v ===== *)
(** * The transaction pool (src/core/tx_pool.go)

    [TxPool] keeps the transactions by hash and, for expiry, in a heap ordered by
    expiry time ([expHeap], on [GoHeap]). The mutex makes each operation
    atomic; the clock reading of [AddRemotes] is an argument. *)

From stdpp Require Import base tactics list gmap fin_maps.
From Stdlib Require Import ZArith Lia.
From S2P Require Import Prelude Types GoHeap.

Open Scope Z_scope.

Module TxPool.

(** [expItem] and [expHeap]. *)
Record expItem := mkItem { item : Transaction; exp : Z }.

Notation expHeap := (list expItem) (only parsing).

Definition add (h : expHeap) (tx : Transaction) (e : Z) : expHeap :=
  heap_push exp h (mkItem tx e).

Definition contains (h : expHeap) (hs : Z) : bool :=
  existsb (fun v => txHash (item v) =? hs) h.

(** The loop of [expire]: the remaining heap and the expired transactions in the
    order [onExp] sees them. Each round pops one item, so the length is
    enough fuel. *)
Fixpoint expireLoop (fuel : nat) (h : expHeap) (now : Z) : expHeap * list Transaction :=
  match fuel with
  | O => (h, [])
  | S fuel =>
      match h !! 0%nat with
      | Some top =>
          if exp top <? now then
            match heap_pop exp h with
            | Some (x, h') =>
                let '(h'', gone) := expireLoop fuel h' now in (h'', item x :: gone)
            | None => (h, [])
            end
          else (h, [])
      | None => (h, [])
      end
  end.

Definition expire (h : expHeap) (now : Z) : expHeap * list Transaction :=
  expireLoop (length h) h now.

(** The errors the pool and its callers distinguish. *)
Inductive txError := ErrAlreadyKnown | ErrUnderpriced | ErrReplaceUnderpriced | ErrOther.

#[global] Instance txError_eq_dec : EqDecision txError.
Proof. solve_decision. Defined.

Record pool := mkPool {
  txs : expHeap;
  txsByHash : gmap Z Transaction;
  expirePeriod : Z;
  broadcastSet : bool
}.

Definition NewTxPool (period : Z) : pool := mkPool [] ∅ period false.

(** [DefaultTxPoolConfig]: 60 seconds, in nanoseconds. *)
Definition DefaultExpirePeriod : Z := 60 * 10 ^ 9.

Definition SetBroadcastFn (tp : pool) : pool :=
  mkPool (txs tp) (txsByHash tp) (expirePeriod tp) true.

Definition Has (tp : pool) (h : Z) : bool :=
  match txsByHash tp !! h with Some _ => true | None => false end.

Definition Get (tp : pool) (h : Z) : option Transaction := txsByHash tp !! h.

(** One round of the loop of [AddRemotes]. *)
Definition addOne (tp : pool) (tx : Transaction) : pool * option txError :=
  if Has tp (txHash tx) then (tp, Some ErrAlreadyKnown)
  else (mkPool (add (txs tp) tx (expirePeriod tp)) (<[txHash tx := tx]> (txsByHash tp))
          (expirePeriod tp) (broadcastSet tp), None).

Fixpoint addAll (tp : pool) (l : list Transaction)
    : pool * list (option txError) * list Transaction :=
  match l with
  | [] => (tp, [], [])
  | tx :: l =>
      let '(tp1, e) := addOne tp tx in
      let '(tp2, res, added) := addAll tp1 l in
      (tp2, e :: res, match e with None => tx :: added | Some _ => added end)
  end.

(** The expiry at the end of [AddRemotes]. *)
Definition expirePool (tp : pool) (now : Z) : pool :=
  let '(h, gone) := expire (txs tp) now in
  mkPool h (foldl (fun m tx => delete (txHash tx) m) (txsByHash tp) gone)
    (expirePeriod tp) (broadcastSet tp).

Inductive poolEvent :=
| BroadcastToPioplat (l : list Transaction)
| NewTxsEvent (l : list Transaction).

Definition AddRemotes (tp : pool) (l : list Transaction) (now : Z)
    : go (pool * list (option txError) * list poolEvent) :=
  if broadcastSet tp then
    let '(tp1, res, added) := addAll tp l in
    Ret (expirePool tp1 now, res, [BroadcastToPioplat l; NewTxsEvent added])
  else Panic.

(** [Pending] always answers with an empty map. *)
Definition Pending (tp : pool) (enforceTips : bool) : gmap Z (list Transaction) := ∅.

(** ** The invariant *)

(** The heap is ordered, no hash occurs twice in it, every item carries the one expiry
    value [AddRemotes] writes, and the index holds exactly the transactions of
    the heap. *)
Record wf (tp : pool) : Prop := {
  wf_heap : heap_ok exp (length (txs tp)) (txs tp);
  wf_nodup : NoDup ((fun v => txHash (item v)) <$> txs tp);
  wf_exp : Forall (fun v => exp v = expirePeriod tp) (txs tp);
  wf_index : forall h tx, txsByHash tp !! h = Some tx <->
    exists v, v ∈ txs tp /\ item v = tx /\ txHash tx = h
}.

(** What [AddRemotes] should do to the index, written without the heap: the expected
    error of each transaction of a batch, given the hashes known so far. *)
Fixpoint expectedErrors (known : gset Z) (l : list Transaction) : list (option txError) :=
  match l with
  | [] => []
  | tx :: l =>
      (if decide (txHash tx ∈ known) then Some ErrAlreadyKnown else None)
        :: expectedErrors ({[txHash tx]} ∪ known) l
  end.

(** ** Lemmas *)

Lemma expireLoop_spec fuel h now :
  (length h <= fuel)%nat -> heap_ok exp (length h) h ->
  let '(h', gone) := expireLoop fuel h now in
  heap_ok exp (length h') h' /\
  h' ≡ₚ filter (fun v => now <= exp v) h /\
  gone ≡ₚ item <$> filter (fun v => exp v < now) h.
Proof.
  revert h. induction fuel as [|fuel IH]; intros h Hf Hok; simpl.
  { destruct h; simpl in Hf; [done|lia]. }
  destruct h as [|top t] eqn:Eh; simpl; [done|]. rewrite <- Eh in *.
  destruct (heap_pop_ok exp h) as (x & r & Hpop & Hperm & Hokr & H0 & Hmin); [done|by subst|].
  assert (x = top) as -> by (subst h; simpl in H0; congruence).
  destruct (Z.ltb_spec (exp top) now) as [Hlt|Hge].
  - rewrite Hpop. specialize (IH r). destruct (expireLoop fuel r now) as [h' gone].
    destruct IH as (Hok' & Hh' & Hg).
    { pose proof (Permutation_length Hperm). simpl in *. lia. }
    { done. }
    split_and!; [done|..]; rewrite Hperm.
    + rewrite filter_cons_False by lia. done.
    + rewrite filter_cons_True by lia. by rewrite fmap_cons, Hg.
  - rewrite Forall_forall in Hmin. split_and!; [done|..].
    + rewrite filter_all; [done|]. apply Forall_forall. intros y Hy%Hmin. lia.
    + rewrite filter_none; [done|]. apply Forall_forall. intros y Hy%Hmin. lia.
Qed.

Lemma Has_spec tp h : wf tp -> Has tp h = true <-> exists v, v ∈ txs tp /\ txHash (item v) = h.
Proof.
  intros [_ _ _ Hx]. unfold Has. split.
  - destruct (txsByHash tp !! h) as [tx|] eqn:E; [|done]. apply Hx in E as (v & ? & <- & ?). eauto.
  - intros (v & Hv & Hh). assert (txsByHash tp !! h = Some (item v)) as -> by (apply Hx; eauto). done.
Qed.

Lemma addOne_wf tp tx : wf tp -> wf (addOne tp tx).1.
Proof.
  intros Hwf. unfold addOne. destruct (Has tp (txHash tx)) eqn:E; simpl; [done|].
  assert (forall v, v ∈ txs tp -> txHash (item v) <> txHash tx) as Hfresh.
  { intros v Hv Heq. assert (Has tp (txHash tx) = true) by (apply Has_spec; eauto). congruence. }
  destruct Hwf as [Hok Hnd He Hx].
  destruct (heap_push_ok exp (txs tp) (mkItem tx (expirePeriod tp)) Hok) as [Hp Hok'].
  split; simpl; unfold add; [done|..].
  - rewrite Hp, fmap_cons. apply NoDup_cons. split; [|done]. simpl.
    intros (v & ? & ?)%list_elem_of_fmap. by eapply Hfresh.
  - rewrite Hp. by constructor.
  - intros h tx'. rewrite lookup_insert. setoid_rewrite Hp. setoid_rewrite elem_of_cons.
    case_decide as Hh.
    + split; [intros [= <-]; eexists; naive_solver|].
      intros (v & [->|Hv] & <- & Hv'); [done|]. exfalso. eapply Hfresh; eauto. congruence.
    + rewrite Hx. split; [naive_solver|]. intros (v & [->|Hv] & <- & Hv'); naive_solver.
Qed.

Lemma addOne_period tp tx :
  expirePeriod (addOne tp tx).1 = expirePeriod tp /\ broadcastSet (addOne tp tx).1 = broadcastSet tp.
Proof. unfold addOne. by case_match. Qed.

Lemma expirePool_spec tp now :
  wf tp -> wf (expirePool tp now) /\
  txs (expirePool tp now) ≡ₚ filter (fun v => now <= exp v) (txs tp) /\
  broadcastSet (expirePool tp now) = broadcastSet tp.
Proof.
  intros Hwf. pose proof Hwf as [Hok Hnd He Hx]. unfold expirePool, expire.
  pose proof (expireLoop_spec (length (txs tp)) (txs tp) now ltac:(lia) Hok) as Hs.
  destruct (expireLoop _ _ _) as [h gone]. destruct Hs as (Hok' & Hh & Hg). split; [|by split].
  split; simpl; [done|..].
  - rewrite Hh. eapply sublist_NoDup; [exact Hnd|]. apply fmap_sublist, sublist_filter.
  - rewrite Hh, Forall_forall in *. intros v [_ Hv]%list_elem_of_filter. by apply He.
  - intros k tx. rewrite foldl_delete_lookup. setoid_rewrite Hh. setoid_rewrite list_elem_of_filter.
    assert (k ∈ txHash <$> gone <-> exists w, k = txHash (item w) /\ exp w < now /\ w ∈ txs tp) as Hgone.
    { rewrite Hg, <- list_fmap_compose, list_elem_of_fmap. by setoid_rewrite list_elem_of_filter. }
    case_decide as Hin; rewrite Hgone in Hin.
    + destruct Hin as (w & -> & Hlt & Hw). split; [done|].
      intros (v & (Hge & Hv) & <- & Hk). simpl in *.
      assert (v = w) as -> by (by eapply NoDup_fmap_inj). lia.
    + rewrite Hx. split; [|naive_solver]. intros (v & Hv & <- & <-). exists v. split_and!; try done.
      destruct (decide (now <= exp v)); [done|]. exfalso. apply Hin. exists v. split_and!; [done|lia|done].
Qed.

Definition known (tp : pool) : gset Z := dom (txsByHash tp).

Lemma Has_known tp h : Has tp h = true <-> h ∈ known tp.
Proof. unfold Has, known. rewrite elem_of_dom. case_match; naive_solver. Qed.

Lemma addAll_spec tp l :
  wf tp ->
  let '(tp', res, added) := addAll tp l in
  wf tp' /\ res = expectedErrors (known tp) l /\
  known tp' = known tp ∪ list_to_set (txHash <$> l) /\
  added = (zip l res ≫= fun p => match p.2 with None => [p.1] | Some _ => [] end) /\
  expirePeriod tp' = expirePeriod tp /\ broadcastSet tp' = broadcastSet tp.
Proof.
  revert tp. induction l as [|tx l IH]; intros tp Hwf; cbn [addAll].
  { split_and!; [done..|set_solver|done|done|done]. }
  pose proof (addOne_wf tp tx Hwf) as Hwf1. pose proof (addOne_period tp tx) as [Hper Hset].
  destruct (addOne tp tx) as [tp1 e] eqn:E1. simpl in Hwf1, Hper, Hset. specialize (IH tp1 Hwf1).
  destruct (addAll tp1 l) as [[tp2 res] added]. destruct IH as (Hwf2 & -> & Hk & Ha & Hp2 & Hs2).
  assert (e = (if decide (txHash tx ∈ known tp) then Some ErrAlreadyKnown else None) /\
    known tp1 = {[txHash tx]} ∪ known tp) as [-> Hk1].
  { unfold addOne in E1. destruct (Has tp (txHash tx)) eqn:Hh; simplify_eq.
    - apply Has_known in Hh. rewrite decide_True by done. split; [done|]. set_solver.
    - assert (txHash tx ∉ known tp) by (rewrite <- Has_known; congruence).
      rewrite decide_False by done. split; [done|]. unfold known; simpl. by rewrite dom_insert_L. }
  split_and!; [done| | | |congruence|congruence].
  - cbn [expectedErrors]. by rewrite Hk1.
  - rewrite Hk, Hk1, fmap_cons, list_to_set_cons. set_solver.
  - cbn [zip zip_with mbind list_bind]. rewrite Ha. simpl. by case_decide.
Qed.

End TxPool.

(** ** Theorems *)

Import TxPool.

(** [AddRemotes] keeps the heap and the index consistent, answers every
    transaction of the batch, in order, with [ErrAlreadyKnown] exactly when its
    hash was in the pool or earlier in the batch, announces exactly the others, and leaves in the
    pool exactly those of the old and new transactions that have not expired. *)
Theorem AddRemotes_correct tp l now :
  wf tp -> broadcastSet tp = true ->
  exists tp' added, AddRemotes tp l now =
      Ret (tp', expectedErrors (known tp) l, [BroadcastToPioplat l; NewTxsEvent added]) /\
    wf tp' /\
    added = (zip l (expectedErrors (known tp) l)
               ≫= fun p => match p.2 with None => [p.1] | Some _ => [] end) /\
    forall h, Has tp' h = true <->
      now <= expirePeriod tp /\ (Has tp h = true \/ h ∈ txHash <$> l).
Proof.
  intros Hwf Hset. unfold AddRemotes. rewrite Hset. pose proof (addAll_spec tp l Hwf) as Hs.
  destruct (addAll tp l) as [[tp1 res] added]. destruct Hs as (Hwf1 & -> & Hk & -> & Hp & _).
  destruct (expirePool_spec tp1 now Hwf1) as (Hwf2 & Hperm & _).
  eexists _, _. split; [done|]. split_and!; [done..|]. intros h.
  rewrite Has_spec by done. setoid_rewrite Hperm. setoid_rewrite list_elem_of_filter.
  pose proof (wf_exp _ Hwf1) as He. rewrite Forall_forall in He.
  assert (Has tp1 h = true <-> Has tp h = true \/ h ∈ txHash <$> l) as <-.
  { rewrite !Has_known, Hk. set_solver. }
  rewrite (Has_spec tp1) by done. split.
  - intros (v & [Hn Hv] & Hh). rewrite (He v Hv), Hp in Hn. eauto.
  - intros (Hn & v & Hv & Hh). exists v. rewrite (He v Hv), Hp. auto.
Qed.

Definition exPool : pool := mkPool [] ∅ 60 true.

Lemma exPool_wf : wf exPool.
Proof.
  split; simpl; [intros k ?; simpl in *; lia|constructor|constructor|].
  intros h tx. split; [done|]. by intros (v & ?%not_elem_of_nil & _).
Qed.

Lemma AddRemotes_correct_witness :
  exists tp' added, AddRemotes exPool [mkTx 1 0; mkTx 2 0; mkTx 1 5] 40 =
    Ret (tp', [None; None; Some ErrAlreadyKnown],
         [BroadcastToPioplat [mkTx 1 0; mkTx 2 0; mkTx 1 5]; NewTxsEvent added]) /\
    Has tp' 2 = true.
Proof.
  destruct (AddRemotes_correct exPool [mkTx 1 0; mkTx 2 0; mkTx 1 5] 40) as (tp' & added & H & _ & _ & Hh).
  - apply exPool_wf.
  - reflexivity.
  - exists tp', added. split; [exact H|]. apply Hh. split; [vm_compute; discriminate|]. right. set_solver.
Defined.

(** An item's expiry is the period itself and not the clock plus the period. So
    once the monotonic clock has passed the period, every call of [AddRemotes] leaves the pool empty: no
    transaction is known afterwards, and the same batch is accepted, and announced, again. *)
Theorem pool_forgets_everything tp l now now' :
  wf tp -> broadcastSet tp = true -> expirePeriod tp < now ->
  exists tp' ev, AddRemotes tp l now = Ret (tp', expectedErrors (known tp) l, ev) /\
    (forall h, Has tp' h = false) /\
    exists tp'' ev', AddRemotes tp' l now' = Ret (tp'', expectedErrors ∅ l, ev').
Proof.
  intros Hwf Hset Hlt. unfold AddRemotes at 1. rewrite Hset. pose proof (addAll_spec tp l Hwf) as Hs.
  destruct (addAll tp l) as [[tp1 res] added]. destruct Hs as (Hwf1 & -> & _ & _ & Hp & Hset1).
  destruct (expirePool_spec tp1 now Hwf1) as (Hwf2 & Hperm & Hset2).
  set (tp2 := expirePool tp1 now) in *.
  assert (forall h, Has tp2 h = false) as Hnone.
  { intros h. apply not_true_is_false. rewrite Has_spec by done. setoid_rewrite Hperm.
    setoid_rewrite list_elem_of_filter. intros (v & [Hn Hv] & _).
    pose proof (wf_exp _ Hwf1) as He. rewrite Forall_forall in He. rewrite (He v Hv) in Hn. lia. }
  assert (known tp2 = ∅) as Hk.
  { apply set_eq. intros h. rewrite <- Has_known, Hnone. set_solver. }
  eexists _, _. split; [done|]. split; [done|]. unfold AddRemotes. rewrite Hset2, Hset1, Hset.
  pose proof (addAll_spec tp2 l Hwf2) as Hs. destruct (addAll tp2 l) as [[tp3 res] added'].
  destruct Hs as (_ & -> & _). rewrite Hk. eauto.
Qed.

Lemma pool_forgets_everything_witness :
  exists tp' ev, AddRemotes exPool [mkTx 1 0; mkTx 2 0] 61 = Ret (tp', [None; None], ev) /\
    (forall h, Has tp' h = false) /\
    exists tp'' ev', AddRemotes tp' [mkTx 1 0; mkTx 2 0] 62 = Ret (tp'', [None; None], ev').
Proof.
  apply (pool_forgets_everything exPool [mkTx 1 0; mkTx 2 0] 61 62);
    [apply exPool_wf|reflexivity|reflexivity].
Defined.
