(* ===== verification/ForkId.v ===== *)
(** * Fork identifiers (src/core/forkid/forkid.go, EIP-2124)

    [gatherForks] over the fields of a chain configuration, the identifier
    ([NewID], [NewIdInDisguise], [NextForkHash]) and the filter that judges a remote
    identifier ([newFilter], [NewFilterInDisguise]), with the declarative rules of
    the EIP as the specification the filter refines. *)

From stdpp Require Import base tactics list sets sorting strings.
From Stdlib Require Import ZArith Lia.
From S2P Require Import Prelude Types Bytes.

Open Scope Z_scope.

Module ForkId.

(** ** The fork blocks of a configuration *)

(** A field of [params.ChainConfig] as reflection sees it: its name and, when its
    type is [*big.Int], its value ([None] is nil). *)
Inductive fieldValue := BigInt (v : option Z) | OtherType.

Record structField := mkField { fieldName : string; fieldVal : fieldValue }.

(** [strings.HasSuffix]. *)
Definition hasSuffix (s suffix : string) : bool :=
  let n := String.length s in
  let k := String.length suffix in
  if decide (k <= n)%nat then String.eqb (String.substring (n - k) k s) suffix else false.

Definition collectForks (config : list structField) : list Z :=
  config ≫= fun f =>
    if hasSuffix (fieldName f) "Block" then
      match fieldVal f with
      | BigInt (Some rule) => [u64 rule]
      | _ => []
      end
    else [].

(** The inner loop of the sort for a fixed [i]: [x] is [forks[i]], the list the
    slots behind it; a smaller element changes places with [forks[i]]. *)
Fixpoint exchange (x : Z) (l : list Z) : Z * list Z :=
  match l with
  | [] => (x, [])
  | y :: l =>
      if y <? x then let '(m, l') := exchange y l in (m, x :: l')
      else let '(m, l') := exchange x l in (m, y :: l')
  end.

Fixpoint exchangeSort (fuel : nat) (l : list Z) : list Z :=
  match fuel, l with
  | S fuel, x :: l => let '(m, l') := exchange x l in m :: exchangeSort fuel l'
  | _, _ => l
  end.

(** The deduplication loop behind an element [prev] that is kept. *)
Fixpoint dedupFrom (prev : Z) (l : list Z) : list Z :=
  match l with
  | [] => []
  | x :: l => if x =? prev then dedupFrom prev l else x :: dedupFrom x l
  end.

Definition dedup (l : list Z) : list Z :=
  match l with [] => [] | x :: l => x :: dedupFrom x l end.

Definition gatherForks (config : list structField) : list Z :=
  let forks := collectForks config in
  let forks := dedup (exchangeSort (length forks) forks) in
  match forks with
  | x :: rest => if x =? 0 then rest else forks
  | [] => forks
  end.

(** ** Identifiers *)

Record ID := mkID { Hash : list Z; Next : Z }.

#[global] Instance ID_eq_dec : EqDecision ID.
Proof. solve_decision. Defined.

Definition genesisBytes (genesis : hash) : list Z := be_encode 32 genesis.

Definition checksumUpdate (h fork : Z) : Z := crc32Update h (be_encode 8 fork).
Definition checksumToBytes (h : Z) : list Z := be_encode 4 h.

(** The loop over the forks: the checksum of the passed ones and the next one. *)
Fixpoint forkLoop (forks : list Z) (head : Z) (h : Z) {struct forks} : Z * Z :=
  match forks with
  | [] => (h, 0)
  | fork :: forks =>
      if fork <=? head then forkLoop forks head (checksumUpdate h fork) else (h, fork)
  end.

Definition NewIdInDisguise (forks : list Z) (genesis head : Z) : ID :=
  let '(h, next) := forkLoop forks head (ChecksumIEEE (genesisBytes genesis)) in
  mkID (checksumToBytes h) next.

Definition NewID (config : list structField) (genesis head : Z) : ID :=
  let '(h, next) := forkLoop (gatherForks config) head (ChecksumIEEE (genesisBytes genesis)) in
  mkID (checksumToBytes h) next.

Definition NextForkHash (config : list structField) (genesis head : Z) : list Z :=
  let '(h, next) := forkLoop (gatherForks config) head (ChecksumIEEE (genesisBytes genesis)) in
  if next =? 0 then checksumToBytes h else checksumToBytes (checksumUpdate h next).

(** ** The filter *)

Inductive filterError := ErrRemoteStale | ErrLocalIncompatibleOrStale.

#[global] Instance filterError_eq_dec : EqDecision filterError.
Proof. solve_decision. Defined.

Definition MaxUint64 : Z := 2 ^ 64 - 1.

(** [sums]: the checksum after genesis and after each fork. *)
Fixpoint checksums (h : Z) (forks : list Z) {struct forks} : list Z :=
  h :: match forks with
       | [] => []
       | fork :: forks => checksums (checksumUpdate h fork) forks
       end.

Definition sumsOf (forks : list Z) (genesis : Z) : list (list Z) :=
  checksumToBytes <$> checksums (ChecksumIEEE (genesisBytes genesis)) forks.

(** Rule 2: the first earlier checksum that matches decides. *)
Fixpoint scanPast (past : list (list Z * Z)) (id : ID) : option (option filterError) :=
  match past with
  | [] => None
  | (s, fork) :: past =>
      if decide (s = Hash id) then
        Some (if fork =? Next id then None else Some ErrRemoteStale)
      else scanPast past id
  end.

(** The body of the validator for the first unpassed fork, in slot [i]. *)
Definition judgeAt (sums : list (list Z)) (forks : list Z) (head : Z) (id : ID) (i : nat)
    : option filterError :=
  if decide (sums !! i = Some (Hash id)) then
    if (0 <? Next id) && (Next id <=? head) then Some ErrLocalIncompatibleOrStale else None
  else
    match scanPast (take i (zip sums forks)) id with
    | Some r => r
    | None =>
        if decide (Hash id ∈ drop (S i) sums) then None else Some ErrLocalIncompatibleOrStale
    end.

(** [None] accepts the remote. *)
Definition NewFilterInDisguise (forks : list Z) (genesis head : Z) (id : ID) : option filterError :=
  let sums := sumsOf forks genesis in
  let forks' := forks ++ [MaxUint64] in
  match list_find (fun fork => head < fork) forks' with
  | Some (i, _) => judgeAt sums forks' head id i
  | None => None
  end.

Definition newFilter (config : list structField) (genesis head : Z) (id : ID) : option filterError :=
  let forks := gatherForks config in
  let sums := sumsOf forks genesis in
  let forks' := forks ++ [MaxUint64] in
  match list_find (fun fork => head < fork) forks' with
  | Some (i, _) => judgeAt sums forks' head id i
  | None => None
  end.

(** ** Specification *)

(** The checksum of a fork state: CRC-32 of the genesis hash followed by the passed
    fork numbers, each as 8 big-endian bytes. *)
Definition forkSum (genesis : Z) (passed : list Z) : list Z :=
  checksumToBytes (ChecksumIEEE (genesisBytes genesis ++ (passed ≫= be_encode 8))).

Definition passedForks (forks : list Z) (head : Z) : list Z := filter (fun f => f <= head) forks.

(** The rules of EIP-2124 for a local chain with the (sorted) fork list [forks]. *)
Definition rule1 (forks : list Z) (genesis head : Z) (id : ID) : Prop :=
  Hash id = forkSum genesis (passedForks forks head) /\ (Next id = 0 \/ head < Next id).

Definition rule2 (forks : list Z) (genesis head : Z) (id : ID) : Prop :=
  exists past fork rest, forks = past ++ fork :: rest /\ fork <= head /\
    Hash id = forkSum genesis past /\ Next id = fork.

Definition rule3 (forks : list Z) (genesis head : Z) (id : ID) : Prop :=
  exists past future, forks = past ++ future /\ Hash id = forkSum genesis past /\
    (exists f, f ∈ past /\ head < f).

(** The remote has not passed a fork that the local chain has, and does not know it. *)
Definition stale (forks : list Z) (genesis head : Z) (id : ID) : Prop :=
  exists past fork rest, forks = past ++ fork :: rest /\ fork <= head /\
    Hash id = forkSum genesis past /\ Next id <> fork.

(** No two fork states of the chain share a checksum. *)
Definition collision_free (forks : list Z) (genesis : Z) : Prop := NoDup (sumsOf forks genesis).

(** The BSC main net configuration of src/params/config.go. *)
Definition BSCChainConfig : list structField := [
  mkField "ChainID" (BigInt (Some 56));
  mkField "HomesteadBlock" (BigInt (Some 0));
  mkField "DAOForkBlock" (BigInt None);
  mkField "DAOForkSupport" OtherType;
  mkField "EIP150Block" (BigInt (Some 0));
  mkField "EIP150Hash" OtherType;
  mkField "EIP155Block" (BigInt (Some 0));
  mkField "EIP158Block" (BigInt (Some 0));
  mkField "ByzantiumBlock" (BigInt (Some 0));
  mkField "ConstantinopleBlock" (BigInt (Some 0));
  mkField "PetersburgBlock" (BigInt (Some 0));
  mkField "IstanbulBlock" (BigInt (Some 0));
  mkField "MuirGlacierBlock" (BigInt (Some 0));
  mkField "BerlinBlock" (BigInt None);
  mkField "YoloV3Block" (BigInt None);
  mkField "CatalystBlock" (BigInt None);
  mkField "LondonBlock" (BigInt None);
  mkField "ArrowGlacierBlock" (BigInt None);
  mkField "MergeForkBlock" (BigInt None);
  mkField "TerminalTotalDifficulty" (BigInt None);
  mkField "RamanujanBlock" (BigInt (Some 0));
  mkField "NielsBlock" (BigInt (Some 0));
  mkField "MirrorSyncBlock" (BigInt (Some 5184000));
  mkField "BrunoBlock" (BigInt (Some 13082000));
  mkField "EulerBlock" (BigInt (Some 18907621));
  mkField "GibbsBlock" (BigInt None);
  mkField "NanoBlock" (BigInt (Some 21962149));
  mkField "Ethash" OtherType;
  mkField "Clique" OtherType;
  mkField "Parlia" OtherType].

Example bsc_forks : gatherForks BSCChainConfig = [5184000; 13082000; 18907621; 21962149].
Proof. reflexivity. Qed.

(** ** Lemmas: the fork list *)

Lemma exchange_spec x l :
  let '(m, l') := exchange x l in m :: l' ≡ₚ x :: l /\ Forall (fun y => m <= y) l' /\ m <= x.
Proof.
  revert x. induction l as [|y l IH]; intros x; cbn [exchange].
  { split_and!; [done|constructor|lia]. }
  destruct (Z.ltb_spec y x) as [Hlt|Hge].
  - specialize (IH y). destruct (exchange y l) as [m l']. destruct IH as (Hp & HF & Hm).
    split_and!; [|constructor; [lia|done]|lia].
    etrans; [apply perm_swap|]. by rewrite Hp.
  - specialize (IH x). destruct (exchange x l) as [m l']. destruct IH as (Hp & HF & Hm).
    split_and!; [|constructor; [lia|done]|lia].
    etrans; [apply perm_swap|]. rewrite Hp. apply perm_swap.
Qed.

Lemma exchangeSort_spec fuel l :
  (length l <= fuel)%nat ->
  exchangeSort fuel l ≡ₚ l /\ StronglySorted Z.le (exchangeSort fuel l).
Proof.
  revert l. induction fuel as [|fuel IH]; intros [|x l] Hf; cbn [exchangeSort].
  1, 3: split; [done|apply SSorted_nil].
  { simpl in Hf. lia. }
  pose proof (exchange_spec x l) as Hx. destruct (exchange x l) as [m l'].
  destruct Hx as (Hp & HF & _). pose proof (Permutation_length Hp) as Hlen. simpl in Hlen, Hf.
  destruct (IH l') as [Hp' Hs]; [lia|]. split; [by rewrite Hp'|].
  constructor; [done|]. by rewrite Hp'.
Qed.

Lemma dedupFrom_spec prev l :
  StronglySorted Z.le (prev :: l) ->
  StronglySorted Z.lt (prev :: dedupFrom prev l) /\
  (forall x, x ∈ prev :: dedupFrom prev l <-> x ∈ prev :: l).
Proof.
  revert prev. induction l as [|y l IH]; intros prev Hs; cbn [dedupFrom].
  { split; [repeat constructor|done]. }
  apply StronglySorted_inv in Hs as [Hs Hall]. apply Forall_cons in Hall as [Hy Hall].
  destruct (Z.eqb_spec y prev) as [->|Hne].
  - destruct (IH prev Hs) as [H1 H2]. split; [done|]. intros x. rewrite H2. set_solver.
  - destruct (IH y Hs) as [H1 H2]. split.
    + constructor; [done|]. apply Forall_forall. intros x Hx. apply H2 in Hx.
      apply StronglySorted_inv in Hs as [_ Hy']. rewrite Forall_forall in Hy'.
      apply elem_of_cons in Hx as [->|Hx]; [lia|]. specialize (Hy' x Hx). lia.
    + intros x. rewrite (elem_of_cons _ x prev), H2. set_solver.
Qed.

Lemma dedup_spec l :
  StronglySorted Z.le l ->
  StronglySorted Z.lt (dedup l) /\ (forall x, x ∈ dedup l <-> x ∈ l).
Proof.
  destruct l as [|x l]; [intros _; split; [apply SSorted_nil|done]|]. apply dedupFrom_spec.
Qed.

Lemma collectForks_elem config x :
  x ∈ collectForks config <-> exists f v, f ∈ config /\ hasSuffix (fieldName f) "Block" = true /\
    fieldVal f = BigInt (Some v) /\ x = u64 v.
Proof.
  unfold collectForks. rewrite list_elem_of_bind. split.
  - intros (f & Hx & Hf). repeat case_match; try by apply not_elem_of_nil in Hx.
    apply list_elem_of_singleton in Hx. naive_solver.
  - intros (f & v & Hf & Hs & Hv & ->). exists f. rewrite Hs, Hv. split; [|done].
    by apply list_elem_of_singleton.
Qed.

(** [gatherForks] is the strictly increasing list of the non-zero fork blocks. *)
Lemma gatherForks_spec config :
  StronglySorted Z.lt (gatherForks config) /\
  (forall x, x ∈ gatherForks config <-> x ∈ collectForks config /\ x <> 0).
Proof.
  unfold gatherForks. set (forks := collectForks config).
  destruct (exchangeSort_spec (length forks) forks ltac:(lia)) as [Hp Hs].
  destruct (dedup_spec _ Hs) as [Hlt Hin0].
  assert (forall x, x ∈ dedup (exchangeSort (length forks) forks) <-> x ∈ forks) as Hin.
  { intros x. by rewrite Hin0, Hp. }
  assert (Forall (fun x => 0 <= x) (dedup (exchangeSort (length forks) forks))) as Hpos.
  { apply Forall_forall. intros x Hx. apply Hin, collectForks_elem in Hx as (f & v & _ & _ & _ & ->).
    apply u64_range. }
  destruct (dedup _) as [|x rest] eqn:E; [split; [done|set_solver]|].
  apply StronglySorted_inv in Hlt as Hlt'. destruct Hlt' as [Hrest Hall].
  rewrite Forall_forall in Hall. destruct (Z.eqb_spec x 0) as [->|Hne].
  - split; [done|]. intros y. rewrite <- Hin, elem_of_cons. split; [|naive_solver].
    intros Hy. split; [by right|]. specialize (Hall y Hy). lia.
  - split; [done|]. intros y. rewrite <- Hin. split; [|naive_solver]. intros Hy. split; [done|].
    apply Forall_cons in Hpos as [Hx _]. apply elem_of_cons in Hy as [->|Hy]; [done|].
    specialize (Hall y Hy). lia.
Qed.

Lemma gatherForks_range config x : x ∈ gatherForks config -> 0 <= x.
Proof.
  intros [Hx _]%gatherForks_spec. apply collectForks_elem in Hx as (? & v & ? & ? & ? & ->).
  apply u64_range.
Qed.

(** ** Lemmas: checksums *)

Lemma crc32Update_nil h : crc32Update h [] = h.
Proof. unfold crc32Update. cbn [foldl]. by rewrite Z.lxor_assoc, Z.lxor_nilpotent, Z.lxor_0_r. Qed.

Lemma checksums_lookup h forks i :
  (i <= length forks)%nat ->
  checksums h forks !! i = Some (crc32Update h (take i forks ≫= be_encode 8)).
Proof.
  revert h i. induction forks as [|f forks IH]; intros h [|i] Hi; cbn [checksums take].
  - cbn. f_equal. by rewrite crc32Update_nil.
  - simpl in Hi. lia.
  - cbn. f_equal. by rewrite crc32Update_nil.
  - simpl in Hi. change ((h :: checksums (checksumUpdate h f) forks) !! S i)
      with (checksums (checksumUpdate h f) forks !! i).
    rewrite IH by lia. rewrite bind_cons, crc32Update_app. done.
Qed.

Lemma length_checksums h forks : length (checksums h forks) = S (length forks).
Proof. revert h. induction forks; intros; cbn [checksums length]; [done|]. by rewrite IHforks. Qed.

Lemma sumsOf_lookup forks genesis i :
  (i <= length forks)%nat -> sumsOf forks genesis !! i = Some (forkSum genesis (take i forks)).
Proof.
  intros Hi. unfold sumsOf. rewrite list_lookup_fmap, checksums_lookup by done.
  unfold forkSum, ChecksumIEEE. by rewrite crc32Update_app.
Qed.

Lemma length_sumsOf forks genesis : length (sumsOf forks genesis) = S (length forks).
Proof. unfold sumsOf. by rewrite length_fmap, length_checksums. Qed.

(** A checksum identifies its prefix of the fork list. *)
Lemma sumsOf_prefix forks genesis past rest :
  forks = past ++ rest -> sumsOf forks genesis !! length past = Some (forkSum genesis past).
Proof.
  intros ->. rewrite sumsOf_lookup by (rewrite length_app; lia). by rewrite take_app_length.
Qed.

(** ** Lemmas: the first unpassed fork *)

Lemma first_unpassed forks head :
  head < MaxUint64 ->
  exists i f, list_find (fun fork => head < fork) (forks ++ [MaxUint64]) = Some (i, f) /\
    (i <= length forks)%nat /\ (forks ++ [MaxUint64]) !! i = Some f /\ head < f /\
    Forall (fun g => g <= head) (take i forks).
Proof.
  intros Hh. destruct (list_find_elem_of (fun fork => head < fork) (forks ++ [MaxUint64]) MaxUint64)
    as [[i f] Hf]; [set_solver|done|].
  exists i, f. split; [done|]. apply list_find_Some in Hf as (Hi & Hlt & Hbefore).
  pose proof (lookup_lt_Some _ _ _ Hi) as Hlen. rewrite length_app in Hlen; simpl in Hlen.
  split_and!; [lia|done|done|]. apply Forall_lookup. intros j g Hg.
  apply lookup_take_Some in Hg as [Hg Hj].
  destruct (decide (g <= head)); [done|]. exfalso. apply (Hbefore j g); [|done|lia].
  by apply lookup_app_l_Some.
Qed.

Lemma passedForks_take forks head i :
  StronglySorted Z.lt forks -> (i <= length forks)%nat ->
  Forall (fun g => g <= head) (take i forks) ->
  (forall f, forks !! i = Some f -> head < f) ->
  passedForks forks head = take i forks.
Proof.
  intros Hs Hi Hpast Hf. unfold passedForks. rewrite <- (take_drop i forks) at 1.
  rewrite filter_app, filter_all by done. rewrite filter_none; [by rewrite app_nil_r|].
  destruct (drop i forks) as [|f rest] eqn:E; [constructor|].
  assert (forks !! i = Some f) as Hfi.
  { rewrite <- (Nat.add_0_r i), <- lookup_drop, E. done. }
  specialize (Hf f Hfi). rewrite <- (take_drop i forks), E in Hs.
  apply StronglySorted_app_1_r in Hs. apply StronglySorted_inv in Hs as [_ Hall].
  constructor; [lia|]. eapply Forall_impl; [exact Hall|]. simpl. lia.
Qed.

Lemma forkLoop_spec forks head h i :
  (i <= length forks)%nat -> Forall (fun g => g <= head) (take i forks) ->
  (forall f, forks !! i = Some f -> head < f) ->
  forkLoop forks head h = (crc32Update h (take i forks ≫= be_encode 8), default 0 (forks !! i)).
Proof.
  revert h i. induction forks as [|f forks IH]; intros h i Hi Hpast Hf; cbn [forkLoop].
  - destruct i; [|simpl in Hi; lia]. cbn. f_equal. by rewrite crc32Update_nil.
  - destruct i as [|i].
    + specialize (Hf f eq_refl). destruct (Z.leb_spec f head); [lia|]. cbn. f_equal. by rewrite crc32Update_nil.
    + cbn [take] in *. apply Forall_cons in Hpast as [Hfh Hpast].
      destruct (Z.leb_spec f head); [|lia]. simpl in Hi. rewrite (IH _ i); [|lia|done|done].
      rewrite bind_cons, crc32Update_app. done.
Qed.

Lemma split_at_head forks head :
  exists i, (i <= length forks)%nat /\ Forall (fun g => g <= head) (take i forks) /\
    (forall f, forks !! i = Some f -> head < f).
Proof.
  induction forks as [|f forks (i & Hi & Hp & Hf)]; [by exists O|].
  destruct (decide (f <= head)) as [Hle|Hgt].
  - exists (S i). split_and!; [simpl; lia|by constructor|done].
  - exists O. split_and!; [lia|constructor|]. intros g [= <-]. lia.
Qed.

(** ** Lemmas: the filter in terms of the position of the matching checksum *)

Section Position.

Context (forks : list Z) (genesis head : Z) (id : ID) (i : nat).
Context (Hsorted : StronglySorted Z.lt forks) (Hfree : collision_free forks genesis).
Context (Hi : (i <= length forks)%nat) (Hpast : Forall (fun g => g <= head) (take i forks)).
Context (Hnext : forall f, forks !! i = Some f -> head < f).

Notation sums := (sumsOf forks genesis).

Lemma position_unique j k : sums !! j = Some (Hash id) -> sums !! k = Some (Hash id) -> j = k.
Proof. apply NoDup_lookup, Hfree. Qed.

Lemma fork_before j f : forks !! j = Some f -> (f <= head <-> (j < i)%nat).
Proof.
  intros Hj. split.
  - intros Hf. destruct (decide (j < i)%nat); [done|]. exfalso.
    destruct (forks !! i) as [g|] eqn:Hg.
    + specialize (Hnext g eq_refl). destruct (decide (i = j)) as [->|].
      * simplify_eq. lia.
      * pose proof (StronglySorted_lookup_lt Z.lt forks i j g f Hsorted Hg Hj ltac:(lia)). lia.
    + apply lookup_ge_None in Hg. apply lookup_lt_Some in Hj. lia.
  - intros Hlt. rewrite Forall_lookup in Hpast. apply (Hpast j). by apply lookup_take_Some.
Qed.

Lemma rule1_at :
  rule1 forks genesis head id <->
  sums !! i = Some (Hash id) /\ (Next id = 0 \/ head < Next id).
Proof.
  unfold rule1. rewrite (passedForks_take _ _ i) by done. rewrite sumsOf_lookup by done.
  split; intros [H1 H2]; (split; [congruence|done]).
Qed.

(** The state [past] of a remote is the prefix at the position of its checksum. *)
Lemma prefix_at (P : list Z -> list Z -> Prop) :
  (exists past rest, forks = past ++ rest /\ Hash id = forkSum genesis past /\ P past rest) <->
  (exists j, sums !! j = Some (Hash id) /\ P (take j forks) (drop j forks)).
Proof.
  split.
  - intros (past & rest & -> & Hh & HP). exists (length past).
    rewrite (sumsOf_prefix _ _ past rest) by done. rewrite take_app_length, drop_app_length.
    split; congruence.
  - intros (j & Hj & HP). exists (take j forks), (drop j forks). split; [by rewrite take_drop|].
    pose proof (lookup_lt_Some _ _ _ Hj) as Hlt. rewrite length_sumsOf in Hlt.
    rewrite sumsOf_lookup in Hj by lia. split; [congruence|done].
Qed.

(** A remote that misses a fork the local chain has passed. *)
Lemma behind_at (Q : Z -> Prop) :
  (exists past fork rest, forks = past ++ fork :: rest /\ fork <= head /\
     Hash id = forkSum genesis past /\ Q fork) <->
  (exists j fork, sums !! j = Some (Hash id) /\ (j < i)%nat /\ forks !! j = Some fork /\ Q fork).
Proof.
  pose proof (prefix_at (fun _ rest => exists fork rest', rest = fork :: rest' /\ fork <= head /\ Q fork))
    as Hp. split.
  - intros (past & fork & rest & Hf & Hle & Hh & HQ).
    destruct (proj1 Hp) as (j & Hj & fork' & rest' & Hd & Hle' & HQ').
    { by exists past, (fork :: rest); split_and!; [..|exists fork, rest]. }
    assert (forks !! j = Some fork') as Hjf.
    { rewrite <- (Nat.add_0_r j), <- lookup_drop, Hd. done. }
    exists j, fork'. split_and!; [done| |done|done]. by apply (fork_before j fork').
  - intros (j & fork & Hj & Hlt & Hjf & HQ).
    destruct (proj2 Hp) as (past & rest & Hf & Hh & fork' & rest' & -> & Hle & HQ').
    { exists j. split; [done|]. exists fork, (drop (S j) forks).
      split_and!; [by apply drop_S|by apply (fork_before j)|done]. }
    by exists past, fork', rest'.
Qed.

Lemma rule3_at :
  rule3 forks genesis head id <-> exists j, sums !! j = Some (Hash id) /\ (i < j)%nat.
Proof.
  unfold rule3. rewrite (prefix_at (fun past _ => exists f, f ∈ past /\ head < f)).
  split; intros (j & Hj & Hx); exists j; (split; [done|]).
  - destruct Hx as (f & (k & Hk)%list_elem_of_lookup_1 & Hf). apply lookup_take_Some in Hk as [Hk Hkj].
    destruct (decide (k < i)%nat) as [Hlt|]; [|lia]. apply (fork_before k f Hk) in Hlt. lia.
  - pose proof (lookup_lt_Some _ _ _ Hj) as Hlt. rewrite length_sumsOf in Hlt.
    destruct (lookup_lt_is_Some_2 forks i) as [f Hf]; [lia|]. exists f. split; [|by apply Hnext].
    apply (list_elem_of_lookup_2 _ i). by apply lookup_take_Some.
Qed.

Lemma scanPast_None past :
  scanPast past id = None <-> Forall (fun sf => fst sf <> Hash id) past.
Proof.
  induction past as [|[s f] past IH]; cbn [scanPast]; [by split; [constructor|]|].
  rewrite Forall_cons, <- IH. simpl. case_decide; naive_solver.
Qed.

Lemma scanPast_Some past r :
  scanPast past id = Some r ->
  exists j f, past !! j = Some (Hash id, f) /\
    r = if f =? Next id then None else Some ErrRemoteStale.
Proof.
  induction past as [|[s f] past IH]; cbn [scanPast]; [done|]. case_decide as Hs.
  - intros [= <-]. exists O, f. by subst.
  - intros Hr. destruct (IH Hr) as (j & f' & ? & ?). by exists (S j), f'.
Qed.

Lemma past_lookup (sums' : list (list Z)) j s f :
  take i (zip sums' (forks ++ [MaxUint64])) !! j = Some (s, f) <->
  (j < i)%nat /\ sums' !! j = Some s /\ forks !! j = Some f.
Proof.
  rewrite lookup_take_Some, lookup_zip_Some. split.
  - intros [[Hs Hf] Hj]. rewrite lookup_app_l in Hf by lia. done.
  - intros (Hj & Hs & Hf). split_and!; [done| |done]. by rewrite lookup_app_l by lia.
Qed.

(** The verdict by the position of the remote's checksum. *)
Lemma judgeAt_position :
  0 <= Next id ->
  match judgeAt sums (forks ++ [MaxUint64]) head id i with
  | None => sums !! i = Some (Hash id) /\ (Next id = 0 \/ head < Next id)
            \/ (exists j fork, sums !! j = Some (Hash id) /\ (j < i)%nat /\
                 forks !! j = Some fork /\ Next id = fork)
            \/ (exists j, sums !! j = Some (Hash id) /\ (i < j)%nat)
  | Some ErrRemoteStale =>
      exists j fork, sums !! j = Some (Hash id) /\ (j < i)%nat /\
        forks !! j = Some fork /\ Next id <> fork
  | Some ErrLocalIncompatibleOrStale =>
      (sums !! i = Some (Hash id) /\ Next id <> 0 /\ Next id <= head) \/ Hash id ∉ sums
  end.
Proof.
  intros Hn. unfold judgeAt. case_decide as Hat.
  { destruct (Z.ltb_spec 0 (Next id)), (Z.leb_spec (Next id) head); simpl; naive_solver lia. }
  destruct (scanPast _ _) as [r|] eqn:E.
  - apply scanPast_Some in E as (j & f & Hj & ->). apply past_lookup in Hj as (Hlt & Hs & Hf).
    destruct (Z.eqb_spec f (Next id)); naive_solver.
  - apply scanPast_None in E. rewrite Forall_lookup in E. case_decide as Hin.
    + right; right. apply list_elem_of_lookup_1 in Hin as [k Hk]. rewrite lookup_drop in Hk.
      exists (S i + k)%nat. split; [done|lia].
    + right. intros [j Hj]%list_elem_of_lookup_1. destruct (lt_eq_lt_dec j i) as [[Hlt| ->]|Hgt].
      * destruct (lookup_lt_is_Some_2 forks j) as [f Hf]; [lia|].
        apply (E j (Hash id, f)); [|done]. by apply past_lookup.
      * done.
      * apply Hin, (list_elem_of_lookup_2 _ (j - S i)). rewrite lookup_drop.
        by replace (S i + (j - S i))%nat with j by lia.
Qed.

Lemma judgeAt_refines :
  0 <= Next id ->
  let verdict := judgeAt sums (forks ++ [MaxUint64]) head id i in
  (verdict = None <-> rule1 forks genesis head id \/ rule2 forks genesis head id \/
                      rule3 forks genesis head id) /\
  (verdict = Some ErrRemoteStale <-> stale forks genesis head id).
Proof.
  intros Hn. unfold rule2, stale. rewrite rule1_at, rule3_at, !behind_at.
  pose proof (judgeAt_position Hn) as Hv. pose proof position_unique as Hu. simpl.
  destruct (judgeAt _ _ _ _ _) as [[|]|].
  - split; split; try done. destruct Hv as (j & f & Hj & Hlt & Hf & Hne).
    intros [[H1 _]|[(k & g & H1 & _ & Hg & Hng)|(k & H1 & Hk)]];
      pose proof (Hu _ _ Hj H1); simplify_eq; lia.
  - assert (forall j, sums !! j = Some (Hash id) ->
              j = i /\ Next id <> 0 /\ Next id <= head) as Hj.
    { intros j Hj. destruct Hv as [(H1 & H2)|Hv]; [by rewrite (Hu _ _ Hj H1)|].
      destruct Hv. by eapply list_elem_of_lookup_2. }
    split; split; try done; intros Hx; exfalso.
    + destruct Hx as [[H1 ?]|[(k & g & H1 & ? & _)|(k & H1 & ?)]]; specialize (Hj _ H1); lia.
    + destruct Hx as (k & g & H1 & ? & _). specialize (Hj _ H1). lia.
  - split; split; try done. intros (k & g & Hk & Hlt & Hg & Hne).
    destruct Hv as [[H1 _]|[(j & f & H1 & _ & Hf & Heq)|(j & H1 & Hj)]];
      pose proof (Hu _ _ Hk H1); simplify_eq; lia.
Qed.

End Position.

Lemma newFilter_refines config genesis head id :
  let forks := gatherForks config in
  head < MaxUint64 -> collision_free forks genesis -> 0 <= Next id ->
  (newFilter config genesis head id = None <->
     rule1 forks genesis head id \/ rule2 forks genesis head id \/ rule3 forks genesis head id) /\
  (newFilter config genesis head id = Some ErrRemoteStale <-> stale forks genesis head id).
Proof.
  intros forks Hh Hfree Hn. destruct (first_unpassed forks head Hh) as (i & f & Hf & Hi & Hl & Hlt & Hp).
  unfold newFilter. fold forks. rewrite Hf. apply judgeAt_refines; [..|done]; try done.
  - apply gatherForks_spec.
  - intros g Hg. rewrite lookup_app_l in Hl by (by eapply lookup_lt_Some). by simplify_eq.
Qed.

Lemma forkSum_update genesis forks :
  checksumToBytes (crc32Update (ChecksumIEEE (genesisBytes genesis)) (forks ≫= be_encode 8))
  = forkSum genesis forks.
Proof. unfold forkSum, ChecksumIEEE. by rewrite crc32Update_app. Qed.

(** The identifier at a head whose first unpassed fork has index [i]. *)
Lemma NewID_at config genesis head i :
  let forks := gatherForks config in
  (i <= length forks)%nat -> Forall (fun g => g <= head) (take i forks) ->
  (forall f, forks !! i = Some f -> head < f) ->
  NewID config genesis head = mkID (forkSum genesis (take i forks)) (default 0 (forks !! i)).
Proof.
  intros forks Hi Hp Hf. unfold NewID. fold forks.
  rewrite (forkLoop_spec _ _ _ i Hi Hp Hf), forkSum_update. done.
Qed.

Lemma NextForkHash_at config genesis head i :
  let forks := gatherForks config in
  (i <= length forks)%nat -> Forall (fun g => g <= head) (take i forks) ->
  (forall f, forks !! i = Some f -> head < f) ->
  NextForkHash config genesis head = forkSum genesis (take (S i) forks).
Proof.
  intros forks Hi Hp Hf. unfold NextForkHash. fold forks. rewrite (forkLoop_spec _ _ _ i Hi Hp Hf).
  destruct (forks !! i) as [f|] eqn:E; simpl.
  - rewrite (take_S_r _ _ _ E). destruct (Z.eqb_spec f 0) as [->|_].
    + apply list_elem_of_lookup_2, gatherForks_spec in E. naive_solver.
    + rewrite <- forkSum_update, bind_app, crc32Update_app. cbn [mbind list_bind].
      by rewrite app_nil_r.
  - rewrite forkSum_update. apply lookup_ge_None in E. by rewrite !take_ge by lia.
Qed.

Lemma passedForks_next forks i f :
  StronglySorted Z.lt forks -> forks !! i = Some f -> passedForks forks f = take (S i) forks.
Proof.
  intros Hs Hf. pose proof (lookup_lt_Some _ _ _ Hf). apply passedForks_take; [done|lia| |].
  - apply Forall_lookup. intros j g [Hg Hj]%lookup_take_Some.
    destruct (decide (j = i)) as [->|]; [simplify_eq; lia|].
    pose proof (StronglySorted_lookup_lt Z.lt forks j i g f Hs Hg Hf ltac:(lia)). lia.
  - intros g Hg. apply (StronglySorted_lookup_lt Z.lt forks i (S i)); try done. lia.
Qed.

End ForkId.

Import ForkId.

(** The identifier a node announces is the one EIP-2124 defines: the fork list
    is strictly increasing and holds exactly the non-zero block numbers of the
    [...Block] fields of the configuration, the hash is the CRC-32 of the genesis hash
    followed by the forks the head has passed, [Next] is the smallest fork ahead (0
    when there is none), and [NextForkHash] is the hash once that fork has passed. *)
Theorem NewID_is_EIP2124 config genesis head :
  let forks := gatherForks config in
  let id := NewID config genesis head in
  StronglySorted Z.lt forks /\
  (forall x, x ∈ forks <-> x <> 0 /\ exists f v, f ∈ config /\ hasSuffix (fieldName f) "Block" = true /\
     fieldVal f = BigInt (Some v) /\ x = u64 v) /\
  Hash id = forkSum genesis (passedForks forks head) /\
  (((forall f, f ∈ forks -> f <= head) /\ Next id = 0 /\ NextForkHash config genesis head = Hash id) \/
   (Next id ∈ forks /\ head < Next id /\ (forall f, f ∈ forks -> head < f -> Next id <= f) /\
    NextForkHash config genesis head = forkSum genesis (passedForks forks (Next id)))).
Proof.
  intros forks id. destruct (gatherForks_spec config) as [Hs Hin].
  destruct (split_at_head forks head) as (i & Hi & Hp & Hf).
  pose proof (fork_before forks head i Hs Hi Hp Hf) as Hb.
  split_and!; [done|intros x; unfold forks; rewrite Hin, collectForks_elem; tauto| |].
  { unfold id. rewrite (NewID_at _ _ _ i) by done. by rewrite (passedForks_take _ _ i). }
  unfold id. rewrite (NewID_at _ _ _ i), (NextForkHash_at _ _ _ i) by done. fold forks. simpl.
  destruct (forks !! i) as [f|] eqn:E; simpl.
  - right. split_and!; [by eapply list_elem_of_lookup_2|by apply Hf| |].
    + intros g [k Hg]%list_elem_of_lookup_1 Hlt. destruct (decide (k < i)%nat) as [Hk|Hk].
      * pose proof (proj2 (Hb k g Hg) Hk). lia.
      * destruct (decide (k = i)) as [->|]; [simplify_eq; lia|].
        pose proof (StronglySorted_lookup_lt Z.lt forks i k f g Hs E Hg ltac:(lia)). lia.
    + by rewrite (passedForks_next _ i).
  - left. apply lookup_ge_None in E. rewrite take_ge in Hp by done. split_and!; [|done|].
    + by apply Forall_forall.
    + by rewrite !take_ge by lia.
Qed.

(** C6: The filter is exactly the validation of EIP-2124 for a chain no two fork
    states of which share a checksum: it accepts a remote by rule 1 (same state and no
    announced fork that the local chain already passed), rule 2 (a past state whose
    announced next fork is the right one) or rule 3 (a future state of the same chain);
    it answers [ErrRemoteStale] for a past state that announces another next fork, and
    [ErrLocalIncompatibleOrStale] for everything else. The filter of the disguised node
    gives the same verdicts on the same fork list. *)
Theorem filter_refines_EIP2124 config genesis head id :
  let forks := gatherForks config in
  head < MaxUint64 -> collision_free forks genesis -> 0 <= Next id ->
  (newFilter config genesis head id = None <->
     rule1 forks genesis head id \/ rule2 forks genesis head id \/ rule3 forks genesis head id) /\
  (newFilter config genesis head id = Some ErrRemoteStale <-> stale forks genesis head id) /\
  (newFilter config genesis head id = Some ErrLocalIncompatibleOrStale <->
     ~ (rule1 forks genesis head id \/ rule2 forks genesis head id \/
        rule3 forks genesis head id \/ stale forks genesis head id)) /\
  NewFilterInDisguise forks genesis head id = newFilter config genesis head id.
Proof.
  intros forks Hh Hfree Hn. destruct (newFilter_refines config genesis head id Hh Hfree Hn) as [H1 H2].
  split; [done|]. split; [done|]. split; [|done]. fold forks in H1, H2.
  destruct (newFilter _ _ _ _) as [[|]|]; intuition congruence.
Qed.

(** Two nodes of one chain accept each other, however far apart their heads are:
    the filter of a node at one head accepts the identifier of a node at another. *)
Theorem same_chain_peers_accepted config genesis head head' :
  head < MaxUint64 -> collision_free (gatherForks config) genesis ->
  newFilter config genesis head (NewID config genesis head') = None.
Proof.
  intros Hh Hfree. set (forks := gatherForks config) in *.
  destruct (gatherForks_spec config) as [Hs _].
  destruct (split_at_head forks head) as (i & Hi & Hp & Hf).
  destruct (split_at_head forks head') as (j & Hj & Hp' & Hf').
  rewrite (NewID_at _ _ _ j) by done. fold forks.
  apply newFilter_refines; [done..| |].
  { simpl. destruct (forks !! j) as [f|] eqn:E; [|done]. simpl.
    by apply list_elem_of_lookup_2, gatherForks_range in E. }
  unfold rule2. rewrite (rule1_at _ _ _ _ i), (rule3_at _ _ _ _ i), (behind_at _ _ _ _ i) by done.
  simpl. fold forks. destruct (lt_eq_lt_dec j i) as [[Hlt| ->]|Hgt].
  - right; left. destruct (lookup_lt_is_Some_2 forks j) as [f E]; [lia|]. rewrite E.
    exists j, f. split_and!; [by apply sumsOf_lookup|done|done|done].
  - left. split; [by apply sumsOf_lookup|]. destruct (forks !! i) eqn:E; simpl; [|by left].
    right. by apply Hf.
  - right; right. exists j. split; [by apply sumsOf_lookup|done].
Qed.

Definition BSCGenesisHash : hash :=
  0x0d21840abff46b96c84b2ac9e10e4f5cdaeb5693cb665db62a2f3b02d2d57b5b.

Lemma bsc_collision_free : collision_free (gatherForks BSCChainConfig) BSCGenesisHash.
Proof. apply (bool_decide_unpack _). vm_compute. exact I. Qed.

(** On BSC at block 20,000,000: a node that left at block 6,000,000 and knows the
    next fork is accepted, one that announces another next fork is stale. *)
Lemma filter_refines_EIP2124_witness :
  let old := NewID BSCChainConfig BSCGenesisHash 6000000 in
  (rule1 (gatherForks BSCChainConfig) BSCGenesisHash 20000000 old \/
   rule2 (gatherForks BSCChainConfig) BSCGenesisHash 20000000 old \/
   rule3 (gatherForks BSCChainConfig) BSCGenesisHash 20000000 old) /\
  stale (gatherForks BSCChainConfig) BSCGenesisHash 20000000 (mkID (Hash old) 7000000).
Proof.
  split.
  - apply (filter_refines_EIP2124 BSCChainConfig BSCGenesisHash 20000000);
      [reflexivity|apply bsc_collision_free|vm_compute; discriminate|vm_compute; reflexivity].
  - apply (filter_refines_EIP2124 BSCChainConfig BSCGenesisHash 20000000);
      [reflexivity|apply bsc_collision_free|vm_compute; discriminate|vm_compute; reflexivity].
Defined.

Lemma same_chain_peers_accepted_witness :
  newFilter BSCChainConfig BSCGenesisHash 100 (NewID BSCChainConfig BSCGenesisHash 22000000) = None.
Proof.
  apply (same_chain_peers_accepted BSCChainConfig BSCGenesisHash 100 22000000);
    [reflexivity|apply bsc_collision_free].
Defined.
