(* ===== verification/GoFloat.v ===== *)
(** * Go's [float64]

    IEEE 754 binary64 through the Standard Library's [SpecFloat] (53 bits of
    precision, exponent bound 1024): the conversions, the comparison and the
    functions of package math that the relay uses. [of_int] is [float64(n)], [to_int]
    is [int(f)] and [int64(f)]; Go leaves the conversion of a value out of range
    open, and the definition takes the result of amd64 ([-2^63]). The lemmas give
    what the ranking and the quotas need: the comparison is a strict weak order off
    NaN, and integers up to [2^53] pass through a float unchanged. *)

From stdpp Require Import base tactics list.
From Stdlib Require Import ZArith Lia SpecFloat.
From S2P Require Import Prelude.

Open Scope Z_scope.

Definition float64 := spec_float.

#[global] Instance float64_eq_dec : EqDecision float64.
Proof. solve_decision. Defined.

Definition of_int (z : Z) : float64 := binary_normalize 53 1024 z 0 false.
Definition fadd (x y : float64) : float64 := SFadd 53 1024 x y.
Definition fmul (x y : float64) : float64 := SFmul 53 1024 x y.
Definition fdiv (x y : float64) : float64 := SFdiv 53 1024 x y.
Definition flt (x y : float64) : bool := SFltb x y.
Definition fgt (x y : float64) : bool := SFltb y x.

(** The integer part, rounded towards zero. *)
Definition trunc (x : float64) : Z :=
  match x with
  | S754_finite s m e =>
      cond_Zopp s (if 0 <=? e then Z.pos m * 2 ^ e else Z.pos m / 2 ^ (- e))
  | _ => 0
  end.

Definition to_int (x : float64) : Z :=
  match x with
  | S754_zero _ => 0
  | S754_finite _ _ _ =>
      let z := trunc x in if (- 2 ^ 63 <=? z) && (z <? 2 ^ 63) then z else - 2 ^ 63
  | _ => - 2 ^ 63
  end.

Definition isNaN (x : float64) : bool := match x with S754_nan => true | _ => false end.

(** [math.Max] and [math.Min] with their special cases. *)
Definition math_Max (x y : float64) : float64 :=
  match x, y with
  | S754_infinity false, _ | _, S754_infinity false => S754_infinity false
  | S754_nan, _ | _, S754_nan => S754_nan
  | S754_zero sx, S754_zero _ => if sx then y else x
  | _, _ => if fgt x y then x else y
  end.

Definition math_Min (x y : float64) : float64 :=
  match x, y with
  | S754_infinity true, _ | _, S754_infinity true => S754_infinity true
  | S754_nan, _ | _, S754_nan => S754_nan
  | S754_zero sx, S754_zero _ => if sx then x else y
  | _, _ => if flt x y then x else y
  end.

(** [math.Round]: half away from zero; a value with no fractional bits is its own
    result. *)
Definition math_Round (x : float64) : float64 :=
  match x with
  | S754_finite s m e =>
      if 0 <=? e then x
      else binary_normalize 53 1024
             (cond_Zopp s ((Z.pos m + 2 ^ (- e - 1)) / 2 ^ (- e))) 0 s
  | _ => x
  end.

(** [math.Pow(2, y)] for an integral [y]. *)
Definition math_Pow2 (y : float64) : float64 := binary_normalize 53 1024 1 (trunc y) false.

(** ** The order *)

(** A number as a triple ordered lexicographically: its class, then the signed
    exponent and mantissa. *)
Definition key (x : float64) : Z * Z * Z :=
  match x with
  | S754_infinity true => (-2, 0, 0)
  | S754_finite true m e => (-1, - e, Z.neg m)
  | S754_zero _ => (0, 0, 0)
  | S754_finite false m e => (1, e, Z.pos m)
  | S754_infinity false => (2, 0, 0)
  | S754_nan => (0, 0, 0)
  end.

Definition lex_lt (a b : Z * Z * Z) : Prop :=
  let '(a1, a2, a3) := a in
  let '(b1, b2, b3) := b in
  a1 < b1 \/ (a1 = b1 /\ (a2 < b2 \/ (a2 = b2 /\ a3 < b3))).

Lemma flt_key x y : isNaN x = false -> isNaN y = false -> flt x y = true <-> lex_lt (key x) (key y).
Proof.
  intros Hx Hy. unfold flt, SFltb.
  destruct x as [[]|[]| |[] mx ex], y as [[]|[]| |[] my ey]; simpl in *; try done;
    try (split; [discriminate|lia]); try (split; [lia|done]).
  - change (PosDef.Pos.compare_cont Eq mx my) with (mx ?= my)%positive.
    destruct (Z.compare_spec ex ey); [destruct (Pos.compare_spec mx my)|..]; simpl;
      (split; [try discriminate; lia|try done; lia]).
  - change (PosDef.Pos.compare_cont Eq mx my) with (mx ?= my)%positive.
    destruct (Z.compare_spec ex ey); [destruct (Pos.compare_spec mx my)|..]; simpl;
      (split; [try discriminate; lia|try done; lia]).
Qed.

Lemma flt_nan_l x y : isNaN x = true -> flt x y = false.
Proof. by destruct x. Qed.

Lemma flt_nan_r x y : isNaN y = true -> flt x y = false.
Proof. by destruct x as [[]|[]| |[] ? ?], y. Qed.

Lemma flt_asym x y : flt x y = true -> flt y x = false.
Proof.
  intros Hlt. destruct (flt y x) eqn:E; [exfalso|done].
  destruct (isNaN x) eqn:Hx; [by rewrite flt_nan_l in Hlt|].
  destruct (isNaN y) eqn:Hy; [by rewrite flt_nan_r in Hlt|].
  apply flt_key in Hlt, E; try done.
  unfold lex_lt in *. destruct (key x) as [[??]?], (key y) as [[??]?]. lia.
Qed.

Lemma not_flt_trans x y z :
  isNaN x = false -> isNaN y = false -> isNaN z = false ->
  flt x y = false -> flt y z = false -> flt x z = false.
Proof.
  intros Hx Hy Hz H1 H2. apply not_true_is_false. rewrite <- not_true_iff_false in H1, H2.
  rewrite flt_key in * by done. unfold lex_lt in *.
  destruct (key x) as [[??]?], (key y) as [[??]?], (key z) as [[??]?]. lia.
Qed.

(** ** Integers up to 2^53 are exact *)

Lemma digits2_pos_bound p :
  2 ^ (Z.pos (digits2_pos p) - 1) <= Z.pos p < 2 ^ Z.pos (digits2_pos p).
Proof.
  induction p as [p IH|p IH|]; cbn [digits2_pos]; [| |done];
    rewrite Pos2Z.inj_succ; replace (Z.succ _ - 1) with (Z.succ (Z.pos (digits2_pos p) - 1)) by lia;
    rewrite !Z.pow_succ_r by lia; lia.
Qed.

Lemma digits2_pos_small p : Z.pos p < 2 ^ 53 -> Z.pos (digits2_pos p) <= 53.
Proof.
  intros Hp. destruct (digits2_pos_bound p) as [Hl _].
  destruct (Z.le_gt_cases (Z.pos (digits2_pos p)) 53) as [|Hgt]; [done|].
  pose proof (Z.pow_le_mono_r 2 53 (Z.pos (digits2_pos p) - 1)). lia.
Qed.

Lemma iter_xO p k :
  Z.pos (Pos.iter xO p k) = Z.pos p * 2 ^ Z.pos k /\
  digits2_pos (Pos.iter xO p k) = (digits2_pos p + k)%positive.
Proof.
  induction k as [|k [IH1 IH2]] using Pos.peano_ind; [simpl; lia|].
  rewrite Pos.iter_succ, Pos2Z.inj_succ, Z.pow_succ_r by lia. cbn [digits2_pos]. lia.
Qed.

(** A mantissa of 53 digits is not rounded. *)
Lemma round_exact s m e :
  digits2_pos m = 53%positive -> -1074 <= e <= 971 ->
  binary_round_aux 53 1024 s (Z.pos m) e loc_Exact = S754_finite s m e.
Proof.
  intros Hd He. unfold binary_round_aux, shr_fexp, fexp, emin. cbn [Zdigits2]. rewrite Hd.
  replace (Z.max _ _ - e) with 0 by lia. cbn [shr shr_record_of_loc shr_m loc_of_shr_record].
  cbn [round_nearest_even Zdigits2]. rewrite Hd.
  replace (Z.max _ _ - e) with 0 by lia. cbn [shr shr_record_of_loc shr_m].
  destruct (Z.leb_spec e (1024 - 53)); [done|lia].
Qed.

Lemma binary_round_small s p :
  Z.pos p < 2 ^ 53 ->
  exists m e, binary_round 53 1024 s p 0 = S754_finite s m e /\ -53 <= e <= 0 /\
    Z.pos m = Z.pos p * 2 ^ (- e).
Proof.
  intros Hp. pose proof (digits2_pos_small p Hp) as Hd. unfold binary_round, fexp, emin, shl_align.
  set (d := digits2_pos p) in *.
  replace (Z.max (Z.pos d + 0 - 53) (3 - 1024 - 53) - 0) with (Z.pos d - 53) by lia.
  replace (Z.max (Z.pos d + 0 - 53) (3 - 1024 - 53)) with (Z.pos d - 53) by lia.
  destruct (Z.pos d - 53) as [|k|k] eqn:E; [|lia|].
  - exists p, 0. split_and!; [|lia|lia|]; [|rewrite Z.mul_1_r; done].
    apply round_exact; [fold d; lia|lia].
  - destruct (iter_xO p k) as [Hm Hdm]. exists (Pos.iter xO p k), (Z.neg k).
    split_and!; [|lia|lia|done]. apply round_exact; [fold d in Hdm; lia|lia].
Qed.

(** [float64(n)] of a small integer: the sign of [n], and [n] exactly. *)
Inductive exact_int (z : Z) : float64 -> Prop :=
| exact_zero : z = 0 -> exact_int z (S754_zero false)
| exact_finite s m e :
    -53 <= e <= 0 -> z = cond_Zopp s (Z.pos m / 2 ^ (- e)) -> Z.pos m mod 2 ^ (- e) = 0 ->
    (if s then z < 0 else 0 < z) -> exact_int z (S754_finite s m e).

Lemma of_int_exact z : Z.abs z < 2 ^ 53 -> exact_int z (of_int z).
Proof.
  intros Hz. unfold of_int, binary_normalize. destruct z as [|p|p]; [by constructor| |].
  - destruct (binary_round_small false p) as (m & e & -> & He & Hm); [lia|].
    constructor; [done| | |lia]; rewrite Hm; [by rewrite Z.div_mul by lia|by apply Z.mod_mul; lia].
  - destruct (binary_round_small true p) as (m & e & -> & He & Hm); [lia|].
    constructor; [done| | |lia]; rewrite Hm; [by rewrite Z.div_mul by lia|by apply Z.mod_mul; lia].
Qed.

Lemma to_int_exact z x : Z.abs z < 2 ^ 53 -> exact_int z x -> to_int x = z.
Proof.
  intros Hz [->|s m e He Hv Hm Hs]; [done|]. unfold to_int, trunc.
  assert ((if 0 <=? e then Z.pos m * 2 ^ e else Z.pos m / 2 ^ (- e)) = Z.pos m / 2 ^ (- e)) as ->.
  { destruct (Z.leb_spec 0 e); [|done]. by replace e with 0 by lia; rewrite Z.div_1_r, Z.mul_1_r. }
  rewrite <- Hv. destruct (Z.leb_spec (- 2 ^ 63) z), (Z.ltb_spec z (2 ^ 63)); simpl; lia.
Qed.

Lemma to_int_of_int z : Z.abs z < 2 ^ 53 -> to_int (of_int z) = z.
Proof. intros Hz. by apply to_int_exact, of_int_exact. Qed.

(** [int(math.Max(float64(n), 0))] *)
Lemma to_int_Max_0 z : Z.abs z < 2 ^ 53 -> to_int (math_Max (of_int z) (of_int 0)) = Z.max z 0.
Proof.
  intros Hz. pose proof (to_int_of_int z Hz) as Ht. destruct (of_int_exact z Hz) as [->|s m e He Hv Hm Hs];
    [done|]. destruct s; cbn [math_Max of_int binary_normalize fgt SFltb SFcompare] in *; cbn; [lia|].
  simpl in Ht. lia.
Qed.

Lemma math_Min_diag z : Z.abs z < 2 ^ 53 -> math_Min (of_int z) (of_int z) = of_int z.
Proof.
  intros Hz. destruct (of_int_exact z Hz); [done|]. cbn [math_Min]. by destruct (flt _ _).
Qed.

(** ** Values that are not NaN *)

Lemma shr_1_nonneg r : 0 <= shr_m r -> 0 <= shr_m (shr_1 r).
Proof. destruct r as [[|[]|[]] ? ?]; simpl; lia. Qed.

Lemma shr_nonneg r e n : 0 <= shr_m r -> 0 <= shr_m (fst (shr r e n)).
Proof.
  intros Hr. destruct n as [|p|]; simpl; [done| |done]. revert r Hr.
  induction p as [p IH|p IH|]; intros r Hr; simpl; auto using shr_1_nonneg.
Qed.

Lemma round_nonneg m l : 0 <= m -> 0 <= round_nearest_even m l.
Proof. intros. destruct l as [|[]]; simpl; try lia. destruct (Z.even m); lia. Qed.

Lemma binary_round_aux_not_nan s m e l : 0 <= m -> isNaN (binary_round_aux 53 1024 s m e l) = false.
Proof.
  intros Hm. unfold binary_round_aux, shr_fexp.
  set (n1 := fexp 53 1024 (Zdigits2 m + e) - e).
  pose proof (shr_nonneg (shr_record_of_loc m l) e n1) as H1.
  destruct (shr _ e n1) as [r1 e1]. cbn [fst] in H1.
  assert (0 <= shr_m r1) as Hr1 by (apply H1; destruct l as [|[]]; done).
  set (m2 := round_nearest_even _ _). assert (0 <= m2) as Hm2 by by apply round_nonneg.
  set (n2 := fexp 53 1024 (Zdigits2 m2 + e1) - e1).
  pose proof (shr_nonneg (shr_record_of_loc m2 loc_Exact) e1 n2 Hm2) as H2.
  destruct (shr _ e1 n2) as [r2 e2]. cbn [fst] in H2.
  destruct (shr_m r2); [done|by destruct (_ <=? _)|lia].
Qed.

Lemma of_int_not_nan z : isNaN (of_int z) = false.
Proof.
  unfold of_int, binary_normalize, binary_round. destruct z; [done|..];
    destruct (shl_align _ _ _); by apply binary_round_aux_not_nan.
Qed.

Lemma fdiv_not_nan x s m e : isNaN x = false -> isNaN (fdiv x (S754_finite s m e)) = false.
Proof.
  intros Hx. destruct x as [| | |sx mx ex]; try done. unfold fdiv, SFdiv, SFdiv_core_binary.
  set (e' := Z.min _ _). set (m' := match _ with 0 => _ | Z.pos _ => _ | Z.neg _ => 0 end).
  assert (0 <= m') as Hm'.
  { subst m'. destruct (ex - e - e'); [done|by apply Z.shiftl_nonneg|done]. }
  pose proof (Z_div_mod m' (Z.pos m) eq_refl) as Hdiv.
  destruct (IntDef.Z.div_eucl m' (Z.pos m)) as [q r]. apply binary_round_aux_not_nan.
  destruct Hdiv as [Hq Hr]. nia.
Qed.

(** An average of integers is a number. *)
Lemma average_not_nan total count :
  0 < count < 2 ^ 53 -> isNaN (fdiv (of_int total) (of_int count)) = false.
Proof.
  intros Hc. pose proof (of_int_not_nan total). destruct (of_int_exact count); [lia|lia|].
  by apply fdiv_not_nan.
Qed.

(** Rounding keeps the sign. *)
Definition nonneg_float (x : float64) : Prop :=
  match x with S754_zero s | S754_infinity s | S754_finite s _ _ => s = false | S754_nan => True end.

Lemma binary_round_aux_nonneg m e l : nonneg_float (binary_round_aux 53 1024 false m e l).
Proof.
  unfold binary_round_aux. destruct (shr_fexp 53 1024 m e l) as [r1 e1].
  destruct (shr_fexp _ _ _ e1 loc_Exact) as [r2 e2].
  destruct (shr_m r2); [done|by destruct (_ <=? _)|done].
Qed.

Lemma of_int_nonneg z : 0 <= z -> nonneg_float (of_int z).
Proof.
  intros Hz. unfold of_int, binary_normalize, binary_round. destruct z; [done| |lia].
  destruct (shl_align _ _ _). apply binary_round_aux_nonneg.
Qed.

Lemma nonneg_not_below x : nonneg_float x -> flt x (S754_zero false) = false.
Proof. by destruct x as [|[]| |[] ? ?]. Qed.

Lemma average_nonneg total count :
  0 <= total -> 0 < count < 2 ^ 53 ->
  flt (fdiv (of_int total) (of_int count)) (S754_zero false) = false.
Proof.
  intros Ht Hc. destruct (of_int_exact count) as [|s m e]; [lia|lia|].
  destruct s; [lia|]. apply nonneg_not_below. pose proof (of_int_nonneg total Ht) as Hn.
  destruct (of_int total) as [[]|[]| |[] mx ex]; try done. unfold fdiv, SFdiv.
  destruct (SFdiv_core_binary _ _ _ _ _ _) as [[mz ez] lz]. apply binary_round_aux_nonneg.
Qed.

Lemma average_zero count : 0 < count < 2 ^ 53 -> fdiv (of_int 0) (of_int count) = S754_zero false.
Proof. intros Hc. destruct (of_int_exact count) as [|s m e]; [lia|lia|]. destruct s; [lia|done]. Qed.
