(* ===== verification/EthPeer.v ===== *)
(** * A remote peer (src/eth/protocols/eth/peer.go, broadcast.go)

    The bounded set of hashes a peer is known to have ([KnownCache]), the peer with
    its block queues ([Peer]) and the two write loops that batch transactions and
    announcements ([Writer]). A send on a channel is a step of the loop that receives
    it; the network writer a loop starts is a command, its outcome an event. *)

From stdpp Require Import base tactics list gmap strings.
From Stdlib Require Import ZArith Lia.
From S2P Require Import Prelude Types.

Open Scope Z_scope.

(** [Set.Pop] of the mapset package: removes and returns an arbitrary item. *)
Class SetPop := {
  pop : gset Z -> option Z;
  pop_in : forall s x, pop s = Some x -> x ∈ s;
  pop_none : forall s, pop s = None -> s = ∅
}.

#[global] Program Instance first_pop : SetPop := {| pop := fun s => head (elements s) |}.
Next Obligation. intros s x Hx. apply elem_of_elements. by apply head_Some_elem_of. Qed.
Next Obligation. intros s Hs%head_None. by apply elements_empty_inv in Hs; apply leibniz_equiv. Qed.

Module KnownCache.

Record knownCache := mkCache { hashes : gset hash; max : Z }.

Definition newKnownCache (max : Z) : knownCache := mkCache ∅ max.

Section Cache.

Context `{SetPop}.

(** The loop that makes room; one round takes one item out. *)
Fixpoint popLoop (fuel : nat) (s : gset hash) (room : Z) : gset hash :=
  if decide (room < Z.of_nat (size s)) then
    match fuel, pop s with
    | S fuel, Some x => popLoop fuel (s ∖ {[x]}) room
    | _, _ => s
    end
  else s.

Definition Add (k : knownCache) (hs : list hash) : knownCache :=
  let room := Z.max 0 (max k - Z.of_nat (length hs)) in
  let s := popLoop (size (hashes k)) (hashes k) room in
  mkCache (foldl (fun s h => s ∪ {[h]}) s hs) (max k).

Definition Contains (k : knownCache) (h : hash) : bool := bool_decide (h ∈ hashes k).
Definition Cardinality (k : knownCache) : Z := Z.of_nat (size (hashes k)).

(** ** Lemmas *)

Lemma size_remove (s : gset hash) x : x ∈ s -> size (s ∖ {[x]}) = (size s - 1)%nat.
Proof. intros Hx. rewrite size_difference by set_solver. by rewrite size_singleton. Qed.

Lemma popLoop_spec fuel s room :
  0 <= room -> (size s <= fuel)%nat ->
  let s' := popLoop fuel s room in
  s' ⊆ s /\ Z.of_nat (size s') <= room \/ s' = s /\ Z.of_nat (size s) <= room.
Proof.
  intros Hroom. revert s. induction fuel as [|fuel IH]; intros s Hf; cbn [popLoop]; case_decide as Hd;
    [lia|by right; split; [|lia]| |by right; split; [|lia]].
  destruct (pop s) as [x|] eqn:Hx.
  - apply pop_in in Hx. assert (0 < size s)%nat by lia.
    destruct (IH (s ∖ {[x]})) as [[Hs Hle]|[-> Hle]]; [rewrite size_remove by done; lia|..];
      left; (split; [set_solver|done]).
  - apply pop_none in Hx as ->. rewrite size_empty in Hd. lia.
Qed.

Lemma foldl_union (l : list hash) (s : gset hash) :
  foldl (fun s h => s ∪ {[h]}) s l = s ∪ list_to_set l.
Proof.
  revert s. induction l as [|h l IH]; intros s; simpl; [set_solver|].
  rewrite IH. set_solver.
Qed.

Lemma size_union_le (s t : gset hash) : (size (s ∪ t) <= size s + size t)%nat.
Proof.
  rewrite size_union_alt. pose proof (subseteq_size (t ∖ s) t ltac:(set_solver)). lia.
Qed.

Lemma Add_elem k hs h : h ∈ hashes (Add k hs) -> h ∈ hashes k \/ h ∈ hs.
Proof.
  unfold Add. cbn [hashes]. rewrite foldl_union.
  destruct (popLoop_spec (size (hashes k)) (hashes k) (Z.max 0 (max k - Z.of_nat (length hs))))
    as [[Hs _]|[-> _]]; [lia|lia|set_solver..].
Qed.

Lemma Add_mem k hs h : h ∈ hs -> h ∈ hashes (Add k hs).
Proof. unfold Add. cbn [hashes]. rewrite foldl_union. set_solver. Qed.

Lemma Add_size k hs :
  0 <= max k -> Z.of_nat (size (hashes (Add k hs))) <= Z.max (max k) (Z.of_nat (length hs)).
Proof.
  intros Hm. unfold Add. cbn [hashes]. rewrite foldl_union.
  set (room := Z.max 0 (max k - Z.of_nat (length hs))).
  pose proof (size_union_le (popLoop (size (hashes k)) (hashes k) room) (list_to_set hs)).
  pose proof (size_list_to_set_le hs).
  destruct (popLoop_spec (size (hashes k)) (hashes k) room) as [[_ Hle]|[Heq Hle]]; [lia|lia|lia|].
  rewrite Heq in *. lia.
Qed.

Lemma Add_size_plus k hs : (size (hashes (Add k hs)) <= size (hashes k) + length hs)%nat.
Proof.
  unfold Add. cbn [hashes]. rewrite foldl_union. set (room := Z.max 0 _).
  pose proof (size_union_le (popLoop (size (hashes k)) (hashes k) room) (list_to_set hs)).
  pose proof (size_list_to_set_le hs).
  destruct (popLoop_spec (size (hashes k)) (hashes k) room) as [[Hs _]|[Heq _]]; [lia|lia|..].
  - apply subseteq_size in Hs. lia.
  - rewrite Heq in *. lia.
Qed.

(** Nothing is forgotten while there is room. *)
Lemma Add_keeps k hs h :
  Z.of_nat (size (hashes k)) + Z.of_nat (length hs) <= max k ->
  h ∈ hashes k -> h ∈ hashes (Add k hs).
Proof.
  intros Hroom Hh. unfold Add. cbn [hashes]. rewrite foldl_union.
  assert (forall fuel, popLoop fuel (hashes k) (Z.max 0 (max k - Z.of_nat (length hs))) = hashes k) as ->.
  { intros [|fuel]; cbn [popLoop]; rewrite decide_False by lia; done. }
  set_solver.
Qed.

(** A cache after a series of batches. *)
Lemma Adds_spec m batches :
  0 <= m -> Forall (fun b => Z.of_nat (length b) <= m) batches ->
  let k := foldl Add (newKnownCache m) batches in
  max k = m /\ Z.of_nat (size (hashes k)) <= m /\
  Z.of_nat (size (hashes k)) <= Z.of_nat (length (concat batches)) /\
  (forall h, h ∈ hashes k -> h ∈ concat batches) /\
  (Z.of_nat (length (concat batches)) <= m -> forall h, h ∈ concat batches -> h ∈ hashes k).
Proof.
  intros Hm. induction batches as [|b batches IH] using rev_ind; intros HF.
  { cbn [foldl newKnownCache hashes max concat length]. rewrite size_empty. split_and!; [done|lia|done|set_solver..]. }
  apply Forall_app in HF as [HF Hb]. rewrite Forall_singleton in Hb.
  destruct (IH HF) as (Hmax & Hsz & Hsz' & Hin & Hkeep). clear IH.
  rewrite foldl_app, concat_app, length_app. cbn [foldl concat]. rewrite app_nil_r.
  set (k := foldl Add (newKnownCache m) batches) in *. split_and!.
  - done.
  - pose proof (Add_size k b) as Ha. lia.
  - etrans; [apply (inj_le _ _ (Add_size_plus k b))|]. lia.
  - intros h Hh%Add_elem. set_solver.
  - intros Hlen h. rewrite elem_of_app. intros [Hh|Hh]; [|by apply Add_mem].
    apply Add_keeps; [lia|]. apply Hkeep; [lia|done].
Qed.

End Cache.

End KnownCache.

(** ** The write loops [broadcastTransactions] and [announceTransactions]

    Both loops have the same shape and differ in what an item weighs: the size of the
    pooled transaction, or 32 bytes of hash for an announcement. *)
Module Writer.

Definition maxTxPacketSize : Z := 100 * 1024.
Definition maxQueuedTxs : Z := 4096.
Definition maxQueuedTxAnns : Z := 4096.

(** [inflight] is the batch of the running background writer, [None] when [done] is
    nil; [stopped] once the loop has returned. *)
Record loop := mkLoop {
  queue : list hash;
  inflight : option (list hash);
  failed : bool;
  stopped : bool
}.

#[global] Instance loop_eq_dec : EqDecision loop.
Proof. solve_decision. Defined.

Definition start : loop := mkLoop [] None false false.

(** The pile loop: the batch, and what is left of the queue. An item that the pool
    no longer has ([None]) is counted and skipped. *)
Fixpoint pile (weight : hash -> option Z) (q : list hash) (size : Z) : list hash * list hash :=
  match q with
  | [] => ([], [])
  | h :: q' =>
      if size <? maxTxPacketSize then
        match weight h with
        | Some n => let '(pack, rest) := pile weight q' (size + n) in (h :: pack, rest)
        | None => pile weight q' size
        end
      else ([], q)
  end.

Definition txWeight (Get : hash -> option Transaction) (Size : Transaction -> Z) (h : hash) : option Z :=
  Size <$> Get h.

Definition announceWeight (Get : hash -> option Transaction) (h : hash) : option Z :=
  match Get h with Some _ => Some 32 | None => None end.

(** The top of the loop: start a writer if there is none and something to send. *)
Definition fire (weight : hash -> option Z) (s : loop) : loop * option (list hash) :=
  match inflight s, queue s with
  | None, _ :: _ =>
      let '(pack, rest) := pile weight (queue s) 0 in
      match pack with
      | [] => (mkLoop rest None (failed s) (stopped s), None)
      | _ => (mkLoop rest (Some pack) (failed s) (stopped s), Some pack)
      end
  | _, _ => (s, None)
  end.

(** What the [select] can receive. *)
Inductive event := Hashes (hs : list hash) | WriterDone | WriterFailed | Terminate.

Definition capQueue (cap : Z) (q : list hash) : list hash :=
  if cap <? Z.of_nat (length q) then drop (length q - Z.to_nat cap) q else q.

Definition receive (cap : Z) (s : loop) (ev : event) : loop :=
  match ev with
  | Hashes hs =>
      if failed s then s
      else mkLoop (capQueue cap (queue s ++ hs)) (inflight s) (failed s) (stopped s)
  | WriterDone => mkLoop (queue s) None (failed s) (stopped s)
  | WriterFailed => mkLoop (queue s) (inflight s) true (stopped s)
  | Terminate => mkLoop (queue s) (inflight s) (failed s) true
  end.

(** One round: receive an event, and go round to the top unless the loop returned. *)
Definition round (cap : Z) (weight : hash -> option Z) (s : loop) (ev : event)
    : loop * option (list hash) :=
  let s := receive cap s ev in
  if stopped s then (s, None) else fire weight s.

Definition broadcastTransactions Get Size := round maxQueuedTxs (txWeight Get Size).
Definition announceTransactions Get := round maxQueuedTxAnns (announceWeight Get).

(** A writer reports once, and only while it runs; a returned loop receives nothing. *)
Definition enabled (s : loop) (ev : event) : Prop :=
  stopped s = false /\
  match ev with
  | WriterDone | WriterFailed => inflight s <> None /\ failed s = false
  | _ => True
  end.

Definition accepted (s : loop) (ev : event) : list hash :=
  match ev with Hashes hs => if failed s then [] else hs | _ => [] end.

(** The states of a loop, with the hashes it took in and the batches it started.
    The pool may change from round to round; [pool w] says that [w] weighs by some pool. *)
Inductive reach (cap : Z) (pool : (hash -> option Z) -> Prop)
    : loop -> list hash -> list (list hash) -> Prop :=
| reach_start : reach cap pool start [] []
| reach_round s acc sent w ev s' out :
    reach cap pool s acc sent -> enabled s ev -> pool w -> round cap w s ev = (s', out) ->
    reach cap pool s' (acc ++ accepted s ev) (sent ++ option_list out).

(** ** Lemmas *)

Lemma pile_sublist w q size pack rest :
  pile w q size = (pack, rest) -> pack ++ rest `sublist_of` q.
Proof.
  revert size pack rest. induction q as [|h q IH]; intros size pack rest; cbn [pile]; [by intros [= <- <-]|].
  destruct (size <? maxTxPacketSize); [|by intros [= <- <-]].
  destruct (w h) as [n|].
  - destruct (pile w q (size + n)) as [p r] eqn:E. intros [= <- <-].
    by apply sublist_skip, (IH _ _ _ E).
  - intros E. by apply sublist_cons, (IH _ _ _ E).
Qed.

(** A batch is empty only when the whole queue was stale. *)
Lemma pile_nil w q size rest : size < maxTxPacketSize -> pile w q size = ([], rest) -> rest = [].
Proof.
  intros Hs. induction q as [|h q IH]; cbn [pile]; [by intros [= <-]|].
  destruct (Z.ltb_spec size maxTxPacketSize); [|lia].
  destruct (w h) as [n|]; [|done]. destruct (pile w q (size + n)); intros [=].
Qed.

Lemma announce_pile_length Get q size pack rest :
  0 <= size <= maxTxPacketSize + 31 -> pile (announceWeight Get) q size = (pack, rest) ->
  size + 32 * Z.of_nat (length pack) <= maxTxPacketSize + 31.
Proof.
  revert size pack rest. induction q as [|h q IH]; intros size pack rest Hs; cbn [pile].
  { intros [= <- <-]. simpl. lia. }
  destruct (Z.ltb_spec size maxTxPacketSize) as [Hlt|]; [|intros [= <- <-]; simpl; lia].
  unfold announceWeight at 1. destruct (Get h).
  - destruct (pile _ q (size + 32)) as [p r] eqn:E. intros [= <- <-].
    apply IH in E; [|lia]. rewrite length_cons. lia.
  - apply IH. lia.
Qed.

Lemma capQueue_length cap q : 0 <= cap -> Z.of_nat (length (capQueue cap q)) <= cap.
Proof. intros. unfold capQueue. destruct (Z.ltb_spec cap (Z.of_nat (length q))); [rewrite length_drop|]; lia. Qed.

Lemma capQueue_sublist cap q : capQueue cap q `sublist_of` q.
Proof. unfold capQueue. destruct (_ <? _); [apply sublist_drop|done]. Qed.

Lemma pile_rest_length w q size pack rest :
  pile w q size = (pack, rest) -> (length rest <= length q)%nat.
Proof. intros E%pile_sublist%sublist_length. rewrite length_app in E. lia. Qed.

Lemma fire_spec w s s' out :
  fire w s = (s', out) ->
  (concat (option_list out) ++ queue s') `sublist_of` queue s /\
  failed s' = failed s /\ stopped s' = stopped s /\
  (inflight s' = None -> inflight s = None /\ queue s' = []) /\
  (out <> None -> inflight s = None).
Proof.
  unfold fire. destruct s as [q [p|] f st]; cbn [inflight queue failed stopped].
  { intros [= <- <-]. simpl. by split_and!. }
  destruct q as [|h q]; [intros [= <- <-]; by split_and!|].
  destruct (pile w (h :: q) 0) as [[|x pack] rest] eqn:E; intros [= <- <-]; simpl.
  - pose proof (pile_sublist _ _ _ _ _ E). apply pile_nil in E; [|done]. by split_and!.
  - pose proof (pile_sublist _ _ _ _ _ E) as Hs. rewrite app_nil_r. by split_and!.
Qed.

Lemma receive_sublist cap s ev : queue (receive cap s ev) `sublist_of` queue s ++ accepted s ev.
Proof.
  destruct ev; simpl; try by rewrite app_nil_r. destruct (failed s); [by rewrite app_nil_r|].
  apply capQueue_sublist.
Qed.

Lemma round_spec cap w s ev s' out :
  stopped s = false -> round cap w s ev = (s', out) ->
  (concat (option_list out) ++ queue s') `sublist_of` queue s ++ accepted s ev /\
  failed s' = failed (receive cap s ev) /\
  (inflight s' = None -> inflight (receive cap s ev) = None /\
     (ev = Terminate /\ queue s' = queue s \/ queue s' = [])) /\
  (out <> None -> inflight (receive cap s ev) = None).
Proof.
  unfold round. pose proof (receive_sublist cap s ev) as Hr. intros Hrun E.
  destruct (stopped (receive cap s ev)) eqn:Hst.
  - injection E as <- <-. split_and!; [done|done| |done]. intros Hn. split; [done|].
    destruct ev; simpl in *; try congruence; [destruct (failed s); simpl in *; congruence|by left].
  - apply fire_spec in E as (Hs & Hf & Hst' & Hi & Ho). split_and!; [by etrans|done| |done].
    intros Hn. destruct (Hi Hn). auto.
Qed.

Lemma round_length cap w s ev s' out :
  0 <= cap -> Z.of_nat (length (queue s)) <= cap -> round cap w s ev = (s', out) ->
  Z.of_nat (length (queue s')) <= cap.
Proof.
  intros Hcap Hq E. assert (Z.of_nat (length (queue (receive cap s ev))) <= cap) as Hr.
  { destruct ev; simpl; try done. destruct (failed s); [done|]. by apply capQueue_length. }
  unfold round in E. destruct (stopped _); [by injection E as <- <-|].
  apply fire_spec in E as (Hs & _). apply sublist_length in Hs. rewrite length_app in Hs. lia.
Qed.

Lemma reach_inv cap pool s acc sent :
  0 <= cap -> reach cap pool s acc sent ->
  Z.of_nat (length (queue s)) <= cap /\
  concat sent ++ queue s `sublist_of` acc /\
  (inflight s = None -> queue s = []) /\
  (failed s = true -> inflight s <> None).
Proof.
  intros Hcap. induction 1 as [|s acc sent w ev s' out Hr (Hl & Hsub & Hidle & Hfail) [Hst Hen] Hw E].
  { by split_and!. }
  pose proof (round_length _ _ _ _ _ _ Hcap Hl E) as Hl'.
  apply round_spec in E as (Hs & Hf & Hi & Ho); [|done]. split_and!; [done| | |].
  - rewrite concat_app, <- app_assoc. etrans; [by apply sublist_app|]. rewrite app_assoc.
    by apply sublist_app.
  - intros Hn. destruct (Hi Hn) as [Hrn [[-> Hq]|Hq]]; [|done].
    rewrite Hq. by apply Hidle.
  - rewrite Hf. intros Hf'. intros Hn. destruct (Hi Hn) as [Hrn _].
    destruct ev; simpl in *; destruct (failed s) eqn:Ef; simpl in *;
      intuition congruence.
Qed.

(** A loop whose pool has everything and whose queue never overflows loses nothing. *)
Lemma pile_total w q size pack rest :
  (forall h, is_Some (w h)) -> pile w q size = (pack, rest) -> pack ++ rest = q.
Proof.
  intros Hw. revert size pack rest. induction q as [|h q IH]; intros size pack rest; cbn [pile].
  { by intros [= <- <-]. }
  destruct (size <? maxTxPacketSize); [|by intros [= <- <-]].
  destruct (Hw h) as [n ->]. destruct (pile w q (size + n)) as [p r] eqn:E. intros [= <- <-].
  simpl. f_equal. by eapply IH.
Qed.

Lemma fire_total w s s' out :
  (forall h, is_Some (w h)) -> fire w s = (s', out) -> concat (option_list out) ++ queue s' = queue s.
Proof.
  intros Hw. unfold fire. destruct s as [q [p|] f st]; cbn [inflight queue]; [by intros [= <- <-]|].
  destruct q as [|h q]; [by intros [= <- <-]|].
  destruct (pile w (h :: q) 0) as [[|x pack] rest] eqn:E; apply pile_total in E; try done;
    intros [= <- <-]; simpl in *; [done|]. by rewrite app_nil_r.
Qed.

Lemma reach_total cap pool s acc sent :
  (forall w, pool w -> forall h, is_Some (w h)) ->
  reach cap pool s acc sent -> Z.of_nat (length acc) <= cap -> concat sent ++ queue s = acc.
Proof.
  intros Hpool. induction 1 as [|s acc sent w ev s' out Hr IH Hen Hw E]; [done|].
  rewrite length_app. intros Hlen. specialize (IH ltac:(lia)).
  assert (queue (receive cap s ev) = queue s ++ accepted s ev) as Hq.
  { destruct ev; simpl in *; try by rewrite app_nil_r. destruct (failed s); [by rewrite app_nil_r|].
    simpl. unfold capQueue. destruct (Z.ltb_spec cap (Z.of_nat (length (queue s ++ hs)))); [|done].
    apply (f_equal length) in IH. rewrite length_app in *. lia. }
  assert (concat (option_list out) ++ queue s' = queue s ++ accepted s ev) as Hout.
  { unfold round in E. destruct (stopped _); [by injection E as <- <-|].
    rewrite <- Hq. apply (fire_total w); [by apply Hpool|done]. }
  rewrite concat_app, <- app_assoc, Hout, app_assoc, IH. done.
Qed.

Lemma fire_out w s s' b :
  fire w s = (s', Some b) -> b <> [] /\ exists rest, pile w (queue s) 0 = (b, rest).
Proof.
  unfold fire. destruct s as [[|h q] [p|] f st]; cbn [inflight queue]; try discriminate.
  destruct (pile w (h :: q) 0) as [[|x pack] rest] eqn:E; [discriminate|].
  intros [= <- <-]. split; [done|by exists rest].
Qed.

Lemma reach_batches cap (P : list hash -> Prop) pool s acc sent :
  (forall w q b rest, pool w -> pile w q 0 = (b, rest) -> P b) ->
  reach cap pool s acc sent -> Forall (fun b => b <> [] /\ P b) sent.
Proof.
  intros HP. induction 1 as [|s acc sent w ev s' out Hr IH Hen Hw E]; [constructor|].
  apply Forall_app. split; [done|]. destruct out as [b|]; [|constructor]. constructor; [|constructor].
  unfold round in E. destruct (stopped _); [done|]. apply fire_out in E as (Hb & rest & Hp). eauto.
Qed.

End Writer.

(** ** The peer *)
Module Peer.

Import KnownCache.

Definition maxKnownTxs : Z := 32768.
Definition maxKnownBlocks : Z := 1024.
Definition maxQueuedBlocks : nat := 4.
Definition maxQueuedBlockAnns : nat := 4.

(** What travels to the remote node. *)
Inductive message :=
| TransactionsMsg (txs : list hash)
| NewPooledTransactionHashesMsg (hs : list hash)
| NewBlockHashesMsg (anns : list (hash * Z))
| NewBlockMsg (b : Block) (td : Z).

(** [Peer], with the parts of the embedded [p2p.Peer] that are read: the node's URL and
    address and whether it is trusted. The two channels with a buffer are lists. *)
Record peer := mkPeer {
  id : string;
  URLv4 : string;
  IP : string;
  Trusted : bool;
  head : hash;
  td : Z;
  knownBlocks : knownCache;
  knownTxs : knownCache;
  queuedBlocks : list (Block * Z);
  queuedBlockAnns : list Block;
  ConnectedTimestamp : Z
}.

Definition NewPeer (id url ip : string) (trusted : bool) (head : hash) (td now : Z) : peer :=
  mkPeer id url ip trusted head td (newKnownCache maxKnownBlocks) (newKnownCache maxKnownTxs) [] [] now.

Definition Head (p : peer) : hash * Z := (head p, td p).

Definition SetHead (p : peer) (h : hash) (d : Z) : peer :=
  mkPeer (id p) (URLv4 p) (IP p) (Trusted p) h d (knownBlocks p) (knownTxs p)
    (queuedBlocks p) (queuedBlockAnns p) (ConnectedTimestamp p).

Definition KnownBlock (p : peer) (h : hash) : bool := Contains (knownBlocks p) h.
Definition KnownTransaction (p : peer) (h : hash) : bool := Contains (knownTxs p) h.

Section Peer.

Context `{SetPop}.

Definition addBlocks (p : peer) (hs : list hash) : peer :=
  mkPeer (id p) (URLv4 p) (IP p) (Trusted p) (head p) (td p) (Add (knownBlocks p) hs) (knownTxs p)
    (queuedBlocks p) (queuedBlockAnns p) (ConnectedTimestamp p).

Definition addTxs (p : peer) (hs : list hash) : peer :=
  mkPeer (id p) (URLv4 p) (IP p) (Trusted p) (head p) (td p) (knownBlocks p) (Add (knownTxs p) hs)
    (queuedBlocks p) (queuedBlockAnns p) (ConnectedTimestamp p).

Definition setQueues (p : peer) (blocks : list (Block * Z)) (anns : list Block) : peer :=
  mkPeer (id p) (URLv4 p) (IP p) (Trusted p) (head p) (td p) (knownBlocks p) (knownTxs p)
    blocks anns (ConnectedTimestamp p).

Definition markBlock (p : peer) (h : hash) : peer := addBlocks p [h].
Definition markTransaction (p : peer) (h : hash) : peer := addTxs p [h].

(** Each transaction is added by a call of its own. *)
Definition SendTransactions (p : peer) (txs : list Transaction) : peer * message :=
  (foldl (fun p tx => addTxs p [txHash tx]) p txs, TransactionsMsg (txHash <$> txs)).

(** The [select] takes the send when the write loop is at its own [select]
    ([taken]); otherwise one of the termination channels is closed. *)
Definition AsyncSendTransactions (p : peer) (hs : list hash) (taken : bool) : peer :=
  if taken then addTxs p hs else p.

Definition sendPooledTransactionHashes (p : peer) (hs : list hash) : peer * message :=
  (addTxs p hs, NewPooledTransactionHashesMsg hs).

Definition AsyncSendPooledTransactionHashes (p : peer) (hs : list hash) (taken : bool) : peer :=
  if taken then addTxs p hs else p.

(** [numbers[i]] panics when there are fewer numbers than hashes. *)
Definition SendNewBlockHashes (p : peer) (hs : list hash) (numbers : list Z) : go (peer * message) :=
  if decide (length hs <= length numbers)%nat
  then Ret (addBlocks p hs, NewBlockHashesMsg (zip hs numbers)) else Panic.

Definition SendNewBlock (p : peer) (b : Block) (d : Z) : peer * message :=
  (addBlocks p [blockHash b], NewBlockMsg b d).

(** A full queue drops the event and does not mark the block. *)
Definition AsyncSendNewBlockHash (p : peer) (b : Block) : peer :=
  if decide (length (queuedBlockAnns p) < maxQueuedBlockAnns)%nat
  then addBlocks (setQueues p (queuedBlocks p) (queuedBlockAnns p ++ [b])) [blockHash b] else p.

Definition AsyncSendNewBlock (p : peer) (b : Block) (d : Z) : peer :=
  if decide (length (queuedBlocks p) < maxQueuedBlocks)%nat
  then addBlocks (setQueues p (queuedBlocks p ++ [(b, d)]) (queuedBlockAnns p)) [blockHash b] else p.

(** One round of [broadcastBlocks]: the [select] may take from either queue. *)
Definition broadcastBlocks (p : peer) (fromBlocks : bool) : option (go (peer * message)) :=
  match fromBlocks, queuedBlocks p, queuedBlockAnns p with
  | true, (b, d) :: rest, _ => Some (Ret (SendNewBlock (setQueues p rest (queuedBlockAnns p)) b d))
  | false, _, b :: rest =>
      Some (SendNewBlockHashes (setQueues p (queuedBlocks p) rest) [blockHash b] [NumberU64 b])
  | _, _, _ => None
  end.

(** ** Runs of the block queues *)

Inductive blockOp :=
| Propagate (b : Block) (d : Z)   (* AsyncSendNewBlock *)
| Announce (b : Block)            (* AsyncSendNewBlockHash *)
| Write (fromBlocks : bool).      (* a round of broadcastBlocks *)

Definition blockStep (st : peer * list message) (o : blockOp) : go (peer * list message) :=
  let '(p, out) := st in
  match o with
  | Propagate b d => Ret (AsyncSendNewBlock p b d, out)
  | Announce b => Ret (AsyncSendNewBlockHash p b, out)
  | Write fromBlocks =>
      match broadcastBlocks p fromBlocks with
      | Some r => let! (p', msg) := r in Ret (p', out ++ [msg])
      | None => Ret (p, out)
      end
  end.

Definition propagated (out : list message) : list (Block * Z) :=
  omap (fun m => match m with NewBlockMsg b d => Some (b, d) | _ => None end) out.

Definition announced (out : list message) : list (hash * Z) :=
  out ≫= fun m => match m with NewBlockHashesMsg l => l | _ => [] end.

Definition asked (ops : list blockOp) : list (Block * Z) :=
  omap (fun o => match o with Propagate b d => Some (b, d) | _ => None end) ops.

Definition askedAnns (ops : list blockOp) : list (hash * Z) :=
  omap (fun o => match o with Announce b => Some (blockHash b, NumberU64 b) | _ => None end) ops.

Definition annOf (b : Block) : hash * Z := (blockHash b, NumberU64 b).

(** The queues are bounded, and what was sent, followed by what is queued, is part of
    what was asked, in order. *)
Definition blockInv (st : peer * list message) (ops : list blockOp) : Prop :=
  let '(p, out) := st in
  (length (queuedBlocks p) <= maxQueuedBlocks)%nat /\
  (length (queuedBlockAnns p) <= maxQueuedBlockAnns)%nat /\
  propagated out ++ queuedBlocks p `sublist_of` asked ops /\
  announced out ++ (annOf <$> queuedBlockAnns p) `sublist_of` askedAnns ops.

Lemma blockStep_inv st ops o :
  blockInv st ops -> exists st', blockStep st o = Ret st' /\ blockInv st' (ops ++ [o]).
Proof.
  destruct st as [p out]. intros (Hb & Ha & Hp & Hn).
  unfold blockInv, asked, askedAnns. rewrite !omap_app. fold (asked ops) (askedAnns ops).
  destruct o as [b d|b|fromBlocks]; cbn [blockStep].
  - eexists; split; [done|]. unfold AsyncSendNewBlock. case_decide; simpl; rewrite app_nil_r.
    + rewrite length_app; simpl. split_and!; [lia|done| |done]. rewrite app_assoc.
      by apply sublist_app.
    + split_and!; [done|done| |done]. by apply sublist_inserts_r.
  - eexists; split; [done|]. unfold AsyncSendNewBlockHash. case_decide; simpl; rewrite app_nil_r.
    + rewrite length_app; simpl. split_and!; [done|lia|done|]. rewrite fmap_app, app_assoc.
      by apply sublist_app.
    + split_and!; [done|done|done|]. by apply sublist_inserts_r.
  - unfold broadcastBlocks. simpl. rewrite !app_nil_r.
    destruct fromBlocks; [destruct (queuedBlocks p) as [|[b d] rest] eqn:Eq|
      destruct (queuedBlockAnns p) as [|b rest] eqn:Eq]; eexists; (split; [done|]).
    + simpl. rewrite Eq. by split_and!.
    + simpl in *. unfold propagated, announced. rewrite omap_app, bind_app. simpl.
      rewrite app_nil_r, <- app_assoc. split_and!; [lia|done..].
    + simpl. rewrite Eq. by split_and!.
    + simpl in *. unfold propagated, announced. rewrite omap_app, bind_app. simpl.
      rewrite app_nil_r, <- app_assoc. split_and!; [done|lia|done..].
Qed.

End Peer.

End Peer.

Import KnownCache Peer.

(** A cache of known hashes filled from empty by batches no longer than its bound
    never exceeds the bound, always knows the whole latest batch, knows nothing that was
    not added, and forgets nothing until more hashes than the bound have been added. *)
Theorem known_cache_bounded `{SetPop} m batches latest :
  0 <= m -> Forall (fun b => Z.of_nat (length b) <= m) (batches ++ [latest]) ->
  let k := foldl Add (newKnownCache m) (batches ++ [latest]) in
  Cardinality k <= m /\
  (forall h, h ∈ latest -> Contains k h = true) /\
  (forall h, Contains k h = true -> h ∈ concat (batches ++ [latest])) /\
  (Z.of_nat (length (concat (batches ++ [latest]))) <= m ->
     forall h, h ∈ concat (batches ++ [latest]) -> Contains k h = true).
Proof.
  intros Hm HF k. destruct (Adds_spec m (batches ++ [latest]) Hm HF) as (Hmax & Hsz & _ & Hin & Hkeep).
  fold k in Hmax, Hsz, Hin, Hkeep. split_and!; [done| | |].
  - intros h Hh. apply bool_decide_eq_true. unfold k. rewrite foldl_app. by apply Add_mem.
  - intros h Hh%bool_decide_eq_true. by apply Hin.
  - intros Hlen h Hh. apply bool_decide_eq_true. by apply Hkeep.
Qed.

Lemma known_cache_bounded_witness :
  let k := foldl Add (newKnownCache 3) ([[1; 2]; [3; 4]] ++ [[5]]) in
  Cardinality k <= 3 /\ Contains k 5 = true.
Proof.
  destruct (known_cache_bounded 3 [[1; 2]; [3; 4]] [5]) as (Hc & Hl & _).
  - lia.
  - repeat constructor; simpl; lia.
  - split; [exact Hc|]. apply Hl. set_solver.
Defined.

(** The announcement loop, whatever the pool and the network do. Its queue holds at
    most 4096 hashes; the batches it starts and then its queue are, in order, part of
    what it was given, so nothing is invented, reordered or sent twice; a batch has between
    one hash and 3200 (100 KiB of hashes); the loop is idle only with an empty queue; and
    once a write failed no further batch is started. *)
Theorem announce_loop_safe s acc sent :
  Writer.reach Writer.maxQueuedTxAnns (fun w => exists Get, w = Writer.announceWeight Get) s acc sent ->
  Z.of_nat (length (Writer.queue s)) <= 4096 /\
  concat sent ++ Writer.queue s `sublist_of` acc /\
  Forall (fun b => (1 <= length b <= 3200)%nat) sent /\
  (Writer.inflight s = None -> Writer.queue s = []) /\
  (forall Get ev, Writer.failed s = true -> Writer.enabled s ev ->
     snd (Writer.announceTransactions Get s ev) = None).
Proof.
  intros Hr. destruct (Writer.reach_inv Writer.maxQueuedTxAnns _ _ _ _ ltac:(done) Hr) as (Hl & Hs & Hi & Hf).
  split_and!; [done|done| |done|].
  - eapply Forall_impl.
    + apply (Writer.reach_batches _ (fun b => 32 * Z.of_nat (length b) <= Writer.maxTxPacketSize + 31)) in Hr;
        [exact Hr|]. intros w q b rest [Get ->] Hp.
      apply Writer.announce_pile_length in Hp; [lia|]. unfold Writer.maxTxPacketSize. lia.
    + unfold Writer.maxTxPacketSize. intros b [Hb Hle]. destruct b; [done|]. simpl in *. lia.
  - intros Get ev Hfail [Hst Hen]. unfold Writer.announceTransactions.
    destruct (Writer.round _ _ s ev) as [s' out] eqn:E.
    apply Writer.round_spec in E as (_ & _ & _ & Ho); [|done]. simpl.
    destruct out; [|done]. exfalso. apply (Hf Hfail). specialize (Ho ltac:(done)).
    destruct ev; simpl in *; rewrite ?Hfail in Ho; intuition congruence.
Qed.

Lemma announce_loop_safe_witness :
  let Get := fun h => if h =? 7 then None else Some (mkTx h 0) in
  let '(s, out) := Writer.announceTransactions Get Writer.start (Writer.Hashes [5; 7; 9]) in
  out = Some [5; 9] /\ Forall (fun b => (1 <= length b <= 3200)%nat) (option_list out).
Proof.
  split; [reflexivity|].
  refine (proj1 (proj2 (proj2 (announce_loop_safe (Writer.mkLoop [] (Some [5; 9]) false false)
    [5; 7; 9] [[5; 9]] _)))).
  apply (Writer.reach_round Writer.maxQueuedTxAnns _ Writer.start [] []
    (Writer.announceWeight (fun h => if h =? 7 then None else Some (mkTx h 0)))
    (Writer.Hashes [5; 7; 9]) (Writer.mkLoop [] (Some [5; 9]) false false) (Some [5; 9])).
  - constructor.
  - done.
  - eexists. reflexivity.
  - reflexivity.
Defined.

(** No announcement is lost: as long as the pool still has the transactions and no
    more than 4096 hashes were handed over, what was started followed by what is queued is
    exactly what was handed over; when the loop is idle, all of it was started. *)
Theorem announce_loop_complete s acc sent :
  Writer.reach Writer.maxQueuedTxAnns
    (fun w => exists Get, w = Writer.announceWeight Get /\ forall h, Get h <> None) s acc sent ->
  Z.of_nat (length acc) <= 4096 ->
  concat sent ++ Writer.queue s = acc /\
  (Writer.inflight s = None -> concat sent = acc).
Proof.
  intros Hr Hlen. destruct (Writer.reach_inv Writer.maxQueuedTxAnns _ _ _ _ ltac:(done) Hr) as (_ & _ & Hi & _).
  assert (concat sent ++ Writer.queue s = acc) as Heq.
  { apply (Writer.reach_total _ _ _ _ _) in Hr; [done| |done].
    intros w (Get & -> & HG) h. unfold Writer.announceWeight. specialize (HG h).
    destruct (Get h); [by eexists|done]. }
  split; [done|]. intros Hn. by rewrite (Hi Hn), app_nil_r in Heq.
Qed.

Lemma announce_loop_complete_witness :
  let Get := fun h => Some (mkTx h 0) in
  let s := fst (Writer.announceTransactions Get Writer.start (Writer.Hashes [5; 7])) in
  concat [[5; 7]] ++ Writer.queue s = [5; 7].
Proof.
  refine (proj1 (announce_loop_complete (Writer.mkLoop [] (Some [5; 7]) false false)
    [5; 7] [[5; 7]] _ _)); [|simpl; lia].
  apply (Writer.reach_round Writer.maxQueuedTxAnns _ Writer.start [] []
    (Writer.announceWeight (fun h => Some (mkTx h 0)))
    (Writer.Hashes [5; 7]) (Writer.mkLoop [] (Some [5; 7]) false false) (Some [5; 7])).
  - constructor.
  - done.
  - eexists. split; [reflexivity|done].
  - reflexivity.
Defined.

(** The block queues of a peer under any interleaving of propagations, announcements
    and write rounds: nothing panics, each queue holds at most four entries, and what was
    written followed by what is queued is, in order, part of what was asked (a full queue
    drops the newcomer). *)
Theorem block_queues_bounded `{SetPop} id url ip trusted head td now ops :
  exists p out, go_foldl blockStep (NewPeer id url ip trusted head td now, []) ops = Ret (p, out) /\
    (length (queuedBlocks p) <= 4)%nat /\ (length (queuedBlockAnns p) <= 4)%nat /\
    propagated out ++ queuedBlocks p `sublist_of` asked ops /\
    announced out ++ (annOf <$> queuedBlockAnns p) `sublist_of` askedAnns ops.
Proof.
  assert (exists st, go_foldl blockStep (NewPeer id url ip trusted head td now, []) ops = Ret st /\
            blockInv st ops) as ([p out] & Hst & Hinv).
  { induction ops as [|o ops (st & Hst & Hinv)] using rev_ind.
    - eexists; split; [done|]. unfold blockInv. simpl. split_and!; try done; lia.
    - rewrite go_foldl_app, Hst. destruct (blockStep_inv st ops o Hinv) as (st' & Hst' & Hinv').
      exists st'. simpl. by rewrite Hst'. }
  exists p, out. split; [done|exact Hinv].
Qed.
