(* ===== verification/PeerSet.v ===== *)
(** * The set of connected peers (src/eth/peerset.go) and how the handler drops one
    (src/eth/handler.go, [removePeer], [unregisterPeer])

    Operations that range over the map of peers take the iteration order. *)

From stdpp Require Import base tactics list gmap strings.
From Stdlib Require Import ZArith Lia.
From S2P Require Import Prelude Types EthPeer.

Open Scope Z_scope.

Import EthPeer.Peer.

Module PeerSet.

Record peerSet := mkPeerSet { peers : gmap string Peer.peer; closed : bool }.

Inductive peerError := errPeerSetClosed | errPeerAlreadyRegistered | errPeerNotRegistered.

#[global] Instance peerError_eq_dec : EqDecision peerError.
Proof. solve_decision. Defined.

Definition newPeerSet : peerSet := mkPeerSet ∅ false.

Definition registerPeer (ps : peerSet) (p : Peer.peer) : peerSet * option peerError :=
  if closed ps then (ps, Some errPeerSetClosed)
  else match peers ps !! id p with
       | Some _ => (ps, Some errPeerAlreadyRegistered)
       | None => (mkPeerSet (<[id p := p]> (peers ps)) (closed ps), None)
       end.

Definition unregisterPeer (ps : peerSet) (id : string) : peerSet * option peerError :=
  match peers ps !! id with
  | None => (ps, Some errPeerNotRegistered)
  | Some _ => (mkPeerSet (delete id (peers ps)) (closed ps), None)
  end.

Definition peer (ps : peerSet) (id : string) : option Peer.peer := peers ps !! id.

Definition len (ps : peerSet) : Z := Z.of_nat (size (peers ps)).

(** The peers in an iteration order. *)
Definition inOrder (ps : peerSet) (order : list string) : list Peer.peer :=
  omap (fun id => peers ps !! id) order.

(** [num] only sizes the slice; the loop appends every peer. *)
Definition headPeers (ps : peerSet) (order : list string) (num : Z) : list Peer.peer :=
  inOrder ps order.

Definition peersWithoutBlock (ps : peerSet) (order : list string) (h : hash) : list Peer.peer :=
  filter (fun p => KnownBlock p h = false) (inOrder ps order).

Definition peersWithoutTransaction (ps : peerSet) (order : list string) (h : hash) : list Peer.peer :=
  filter (fun p => KnownTransaction p h = false) (inOrder ps order).

Definition betterPeer (best : option Peer.peer) (p : Peer.peer) : option Peer.peer :=
  match best with
  | None => Some p
  | Some b => if td b <? td p then Some p else best
  end.

Definition peerWithHighestTD (ps : peerSet) (order : list string) : option Peer.peer :=
  foldl betterPeer None (inOrder ps order).

(** Effects outside the set: the network connection and the transaction fetcher. *)
Inductive netEvent :=
| DiscQuitting (id : string)
| DiscUselessPeer (id : string)
| FetcherDrop (id : string).

#[global] Instance netEvent_eq_dec : EqDecision netEvent.
Proof. solve_decision. Defined.

Definition close (ps : peerSet) (order : list string) : peerSet * list netEvent :=
  (mkPeerSet (peers ps) true, (fun p => DiscQuitting (id p)) <$> inOrder ps order).

(** [handler.removePeer] and [handler.unregisterPeer]. *)
Definition removePeer (ps : peerSet) (id : string) : list netEvent :=
  match peer ps id with Some _ => [DiscUselessPeer id] | None => [] end.

Definition handlerUnregisterPeer (ps : peerSet) (id : string) : peerSet * list netEvent :=
  match peer ps id with
  | None => (ps, [])
  | Some _ => (fst (unregisterPeer ps id), [FetcherDrop id])
  end.

(** Every entry is stored under the identifier of its peer. *)
Definition wf (ps : peerSet) : Prop := forall i p, peers ps !! i = Some p -> id p = i.

(** ** Lemmas *)

Lemma registerPeer_wf ps p : wf ps -> wf (fst (registerPeer ps p)).
Proof.
  intros Hwf. unfold registerPeer. destruct (closed ps); [done|].
  destruct (peers ps !! id p); [done|]. intros i q. cbn [fst peers]. rewrite lookup_insert_Some. naive_solver.
Qed.

Lemma unregisterPeer_wf ps i : wf ps -> wf (fst (unregisterPeer ps i)).
Proof.
  intros Hwf. unfold unregisterPeer. destruct (peers ps !! i); [|done].
  intros j q. cbn [fst peers]. rewrite lookup_delete_Some. naive_solver.
Qed.

Lemma inOrder_elem ps order p :
  range_of order (peers ps) -> p ∈ inOrder ps order <-> exists i, peers ps !! i = Some p.
Proof.
  intros Ho. unfold inOrder. rewrite list_elem_of_omap. split.
  - intros (i & _ & Hp). eauto.
  - intros [i Hi]. exists i. split; [|done]. apply (range_of_elem order (peers ps)); [done|by eexists].
Qed.

Lemma inOrder_length ps order :
  range_of order (peers ps) -> Z.of_nat (length (inOrder ps order)) = len ps.
Proof.
  intros Ho. unfold len. rewrite <- (range_of_length order) by done. f_equal.
  assert (forall l, Forall (fun i => is_Some (peers ps !! i)) l ->
            length (omap (fun i => peers ps !! i) l) = length l) as Hl.
  { induction 1 as [|i l [p Hp] _ IH]; [done|]. simpl. rewrite Hp. simpl. by f_equal. }
  apply Hl, Forall_forall. intros i Hi. by apply (range_of_elem order).
Qed.

Lemma betterPeer_fold l best :
  match foldl betterPeer best l with
  | None => best = None /\ l = []
  | Some b => (best = Some b \/ b ∈ l) /\ (forall b', best = Some b' -> td b' <= td b) /\
              (forall p, p ∈ l -> td p <= td b)
  end.
Proof.
  revert best. induction l as [|p l IH]; intros best; simpl.
  { destruct best; [|done]. split_and!; [by left| |set_solver]. by intros ? [= ->]. }
  specialize (IH (betterPeer best p)). destruct (foldl betterPeer _ l) as [b|].
  - destruct IH as (Hin & Hb & Hl). destruct best as [b0|]; simpl in *.
    + destruct (Z.ltb_spec (td b0) (td p)).
      * specialize (Hb p eq_refl) as Hp. split_and!; [set_solver| |].
        -- intros b' [= <-]. lia.
        -- intros q [->|Hq]%elem_of_cons; [done|by apply Hl].
      * specialize (Hb b0 eq_refl) as Hp. split_and!; [set_solver|naive_solver|].
        intros q [->|Hq]%elem_of_cons; [lia|by apply Hl].
    + split_and!; [set_solver|done|]. intros q [->|Hq]%elem_of_cons; [by apply Hb|by apply Hl].
  - destruct IH as [IH _]. destruct best; simpl in IH; [by destruct (_ <? _)|done].
Qed.

End PeerSet.

Import PeerSet.

(** [peerWithHighestTD] returns a connected peer whose total difficulty no other
    connected peer exceeds, and nil only when there is no peer. *)
Theorem peerWithHighestTD_is_max ps order :
  range_of order (peers ps) ->
  match peerWithHighestTD ps order with
  | Some b => (exists i, peers ps !! i = Some b) /\ forall i p, peers ps !! i = Some p -> td p <= td b
  | None => peers ps = ∅
  end.
Proof.
  intros Ho. unfold peerWithHighestTD. pose proof (betterPeer_fold (inOrder ps order) None) as H.
  destruct (foldl _ _ _) as [b|].
  - destruct H as (Hin & _ & Hl). destruct Hin as [|Hin]; [done|].
    split; [by apply inOrder_elem in Hin|]. intros i p Hp. apply Hl, inOrder_elem; eauto.
  - destruct H as [_ Hnil]. pose proof (inOrder_length ps order Ho) as Hlen. rewrite Hnil in Hlen.
    unfold len in Hlen. simpl in Hlen. apply map_size_empty_inv. lia.
Qed.

Definition exPeer (i : string) (d : Z) : Peer.peer := NewPeer i i i false 0 d 0.

Definition exPeers : peerSet :=
  mkPeerSet (<["a" := exPeer "a" 3]> (<["b" := exPeer "b" 8]> ∅)) false.

Lemma peerWithHighestTD_is_max_witness :
  range_of ["a"; "b"] (peers exPeers) /\
  forall i p, peers exPeers !! i = Some p -> td p <= 8.
Proof.
  assert (range_of ["a"; "b"] (peers exPeers)) as Ho by (vm_compute; reflexivity).
  split; [exact Ho|].
  exact (proj2 (peerWithHighestTD_is_max exPeers ["a"; "b"] Ho)).
Defined.
