(* ===== verification/Netutil.v ===== *)
(** * Addresses and networks (src/p2p/netutil/net.go)

    IP addresses as Go has them, a slice of 4 or 16 bytes (or nil, the empty slice); the networks and lists of them,
    the rules for relayed addresses, and [DistinctNetSet], which limits the addresses of one subnet. What the
    file uses of package net is defined first. *)

From stdpp Require Import base tactics list gmap fin_maps.
From Stdlib Require Import ZArith Lia.
From S2P Require Import Prelude Bytes.

Open Scope Z_scope.

Module Netutil.

(** ** Package net *)

Definition IP : Type := list Z.

Definition v4InV6Prefix : list Z := replicate 10 0 ++ [255; 255].

Definition To4 (ip : IP) : option IP :=
  if decide (length ip = 4%nat) then Some ip
  else if decide (length ip = 16%nat /\ take 12 ip = v4InV6Prefix) then Some (drop 12 ip)
  else None.

Definition To16 (ip : IP) : option IP :=
  if decide (length ip = 4%nat) then Some (v4InV6Prefix ++ ip)
  else if decide (length ip = 16%nat) then Some ip
  else None.

Definition Equal (ip x : IP) : bool :=
  if decide (length ip = length x) then bool_decide (ip = x)
  else if decide (length ip = 4%nat /\ length x = 16%nat)
  then bool_decide (take 12 x = v4InV6Prefix) && bool_decide (ip = drop 12 x)
  else if decide (length ip = 16%nat /\ length x = 4%nat)
  then bool_decide (take 12 ip = v4InV6Prefix) && bool_decide (drop 12 ip = x)
  else false.

Definition IPv4zero : IP := v4InV6Prefix ++ [0; 0; 0; 0].
Definition IPv6unspecified : IP := replicate 16 0.
Definition IPv6loopback : IP := replicate 15 0 ++ [1].

Definition IsUnspecified (ip : IP) : bool := Equal ip IPv4zero || Equal ip IPv6unspecified.

Definition IsLoopback (ip : IP) : bool :=
  match To4 ip with
  | Some ip4 => bool_decide (head ip4 = Some 127)
  | None => Equal ip IPv6loopback
  end.

Definition IsMulticast (ip : IP) : bool :=
  match To4 ip with
  | Some ip4 => bool_decide (Z.land 240 <$> head ip4 = Some 224)
  | None => bool_decide (length ip = 16%nat) && bool_decide (head ip = Some 255)
  end.

Record IPNet := mkNet { netIP : IP; netMask : list Z }.

Definition networkNumberAndMask (n : IPNet) : IP * list Z :=
  let ip := default (netIP n) (To4 (netIP n)) in
  if decide (length ip = 4%nat \/ length ip = 16%nat) then
    if decide (length (netMask n) = 4%nat) then
      if decide (length ip = 4%nat) then (ip, netMask n) else ([], [])
    else if decide (length (netMask n) = 16%nat) then
      (ip, if decide (length ip = 4%nat) then drop 12 (netMask n) else netMask n)
    else ([], [])
  else ([], []).

Fixpoint maskedEqual (nn m ip : list Z) : bool :=
  match nn, m, ip with
  | a :: nn, k :: m, b :: ip => if Z.land a k =? Z.land b k then maskedEqual nn m ip else false
  | _, _, _ => true
  end.

Definition netContains (n : IPNet) (ip : IP) : bool :=
  let '(nn, m) := networkNumberAndMask n in
  let ip := default ip (To4 ip) in
  if decide (length ip = length nn) then maskedEqual nn m ip else false.

(** [CIDRMask] and the network that [ParseCIDR] makes of an address and a prefix length. *)
Fixpoint cidrMask (bytes : nat) (bits : Z) : list Z :=
  match bytes with
  | O => []
  | S bytes =>
      (if 8 <=? bits then 255 else 255 - Z.shiftr 255 (Z.max 0 bits)) :: cidrMask bytes (bits - 8)
  end.

Definition parseCIDR (ip : IP) (bits : Z) : IPNet :=
  let m := cidrMask (length ip) bits in mkNet (zip_with Z.land ip m) m.

(** ** Lists of networks *)

Notation Netlist := (list IPNet) (only parsing).

(** A nil list contains nothing. *)
Definition Contains (l : option Netlist) (ip : IP) : bool :=
  match l with None => false | Some l => existsb (fun n => netContains n ip) l end.

(** An IPv6 address by its first groups, the others zero. *)
Definition ip6 (groups : list Z) : IP :=
  let bs := concat (be_encode 2 <$> groups) in bs ++ replicate (16 - length bs) 0.

Definition lan4 : Netlist :=
  [parseCIDR [0; 0; 0; 0] 8; parseCIDR [10; 0; 0; 0] 8; parseCIDR [172; 16; 0; 0] 12; parseCIDR [192; 168; 0; 0] 16].

Definition lan6 : Netlist := [parseCIDR (ip6 [0xfe80]) 10; parseCIDR (ip6 [0xfc00]) 7].

Definition special4 : Netlist :=
  [parseCIDR [192; 0; 0; 0] 29; parseCIDR [192; 0; 0; 9] 32; parseCIDR [192; 0; 0; 170] 32; parseCIDR [192; 0; 0; 171] 32;
   parseCIDR [192; 0; 2; 0] 24; parseCIDR [192; 31; 196; 0] 24; parseCIDR [192; 52; 193; 0] 24; parseCIDR [192; 88; 99; 0] 24;
   parseCIDR [192; 175; 48; 0] 24; parseCIDR [198; 18; 0; 0] 15; parseCIDR [198; 51; 100; 0] 24; parseCIDR [203; 0; 113; 0] 24;
   parseCIDR [255; 255; 255; 255] 32].

Definition special6 : Netlist :=
  [parseCIDR (ip6 [0x100]) 64; parseCIDR (ip6 [0x2001]) 32; parseCIDR (ip6 [0x2001; 1; 0; 0; 0; 0; 0; 1]) 128;
   parseCIDR (ip6 [0x2001; 2]) 48; parseCIDR (ip6 [0x2001; 3]) 32; parseCIDR (ip6 [0x2001; 4; 0x112]) 48;
   parseCIDR (ip6 [0x2001; 5]) 32; parseCIDR (ip6 [0x2001; 0x10]) 28; parseCIDR (ip6 [0x2001; 0x20]) 28;
   parseCIDR (ip6 [0x2001; 0xdb8]) 32; parseCIDR (ip6 [0x2002]) 16].

Definition IsLAN (ip : IP) : bool :=
  if IsLoopback ip then true
  else match To4 ip with Some v4 => Contains (Some lan4) v4 | None => Contains (Some lan6) ip end.

Definition IsSpecialNetwork (ip : IP) : bool :=
  if IsMulticast ip then true
  else match To4 ip with Some v4 => Contains (Some special4) v4 | None => Contains (Some special6) ip end.

Inductive relayError := errInvalid | errUnspecified | errSpecial | errLoopback | errLAN.

Definition CheckRelayIP (sender addr : IP) : option relayError :=
  if decide (length addr <> 4%nat /\ length addr <> 16%nat) then Some errInvalid
  else if IsUnspecified addr then Some errUnspecified
  else if IsSpecialNetwork addr then Some errSpecial
  else if IsLoopback addr && negb (IsLoopback sender) then Some errLoopback
  else if IsLAN addr && negb (IsLAN sender) then Some errLAN
  else None.

(** ** Prefixes *)

(** [^byte(0xFF >> (bits % 8))]. *)
Definition prefixMask (bits : Z) : Z := 255 - Z.shiftr 255 (bits mod 8).

(** Two slices of one length; indexing behind the end does not happen. *)
Definition sameNet (bits : Z) (ip other : IP) : bool :=
  let nb := Z.to_nat (bits / 8) in
  let mask := prefixMask bits in
  if negb (mask =? 0) && bool_decide (nb < length ip)%nat &&
     negb (Z.land (default 0 (ip !! nb)) mask =? Z.land (default 0 (other !! nb)) mask) then false
  else bool_decide (nb <= length ip)%nat && Equal (take nb ip) (take nb other).

Definition SameNet (bits : Z) (ip other : IP) : bool :=
  match To4 ip, To4 other with
  | Some a, Some b => sameNet bits a b
  | None, None => sameNet bits (default [] (To16 ip)) (default [] (To16 other))
  | _, _ => false
  end.

(** ** DistinctNetSet *)

Record DistinctNetSet := mkNetSet { Subnet : Z; Limit : Z; members : gmap (list Z) Z }.

(** The first byte is the character 4 or 6. *)
Definition key (s : DistinctNetSet) (ip : IP) : list Z :=
  let '(typ, ip) := match To4 ip with Some ip4 => (52, ip4) | None => (54, ip) end in
  let bits := Z.min (Subnet s) (Z.of_nat (length ip) * 8) in
  let nb := Z.to_nat (bits / 8) in
  let mask := prefixMask bits in
  typ :: take nb ip ++
    (if bool_decide (nb < length ip)%nat && negb (mask =? 0) then [Z.land (default 0 (ip !! nb)) mask] else []).

Definition Add (s : DistinctNetSet) (ip : IP) : DistinctNetSet * bool :=
  let k := key s ip in
  let n := default 0 (members s !! k) in
  if n <? Limit s then (mkNetSet (Subnet s) (Limit s) (<[k := n + 1]> (members s)), true) else (s, false).

(** The count is unsigned. *)
Definition Remove (s : DistinctNetSet) (ip : IP) : DistinctNetSet :=
  let k := key s ip in
  match members s !! k with
  | Some n =>
      mkNetSet (Subnet s) (Limit s) (if n =? 1 then delete k (members s) else <[k := u64 (n - 1)]> (members s))
  | None => s
  end.

Definition setContains (s : DistinctNetSet) (ip : IP) : bool := bool_decide (is_Some (members s !! key s ip)).

Definition Len (s : DistinctNetSet) : Z := foldr (fun p n => p.2 + n) 0 (map_to_list (members s)).

End Netutil.

Module NetutilLemmas.
Import Netutil.

(** ** DistinctNetSet refines a bag of prefixes with a limit *)

Definition count (s : DistinctNetSet) (k : list Z) : Z := default 0 (members s !! k).

Record setOk (s : DistinctNetSet) : Prop := {
  limit_ok : 0 <= Limit s < 2 ^ 64;
  members_ok k n : members s !! k = Some n -> 1 <= n <= Limit s
}.

Lemma count_bound s k : setOk s -> 0 <= count s k <= Limit s.
Proof. intros [H1 H2]. unfold count. destruct (members s !! k) as [n|] eqn:E; cbn; [specialize (H2 k n E)|]; lia. Qed.

Lemma key_config s s' ip : Subnet s' = Subnet s -> key s' ip = key s ip.
Proof. unfold key. by intros ->. Qed.

Lemma Add_spec s ip :
  setOk s -> let '(s', ok) := Add s ip in
  setOk s' /\ Subnet s' = Subnet s /\ Limit s' = Limit s /\ ok = (count s (key s ip) <? Limit s) /\
  forall k, count s' k = count s k + (if ok && bool_decide (k = key s ip) then 1 else 0).
Proof.
  intros Hs. pose proof (count_bound s (key s ip) Hs) as Hb. unfold Add. fold (count s (key s ip)).
  destruct (Z.ltb_spec (count s (key s ip)) (Limit s)); cbn [andb]; split_and!; try done; [| |intros k; lia].
  - destruct Hs as [H1 H2]. split; [done|]. cbn [members Limit]. intros k n.
    destruct (decide (key s ip = k)) as [<-|]; rewrite ?lookup_insert_eq, ?lookup_insert_ne by done; [|apply H2].
    intros [= <-]. lia.
  - intros k. unfold count at 1. cbn [members]. case_bool_decide as E;
      [subst k; by rewrite lookup_insert_eq|rewrite lookup_insert_ne by done; unfold count; lia].
Qed.

Lemma Remove_spec s ip :
  setOk s -> setOk (Remove s ip) /\ Subnet (Remove s ip) = Subnet s /\ Limit (Remove s ip) = Limit s /\
  forall k, count (Remove s ip) k = Z.max 0 (count s k - (if bool_decide (k = key s ip) then 1 else 0)).
Proof.
  intros Hs. unfold Remove. destruct (members s !! key s ip) as [n|] eqn:E.
  - pose proof Hs as [H1 H2]. pose proof (H2 _ _ E) as Hn. split_and!; [split; [done|]|done|done|]; cbn [members Limit].
    + intros k m. destruct (Z.eqb_spec n 1).
      * rewrite lookup_delete_Some. intros [_ ?]. by eapply H2.
      * destruct (decide (key s ip = k)) as [<-|]; rewrite ?lookup_insert_eq, ?lookup_insert_ne by done; [|apply H2].
        intros [= <-]. rewrite u64_id; unfold in_u64; lia.
    + intros k. pose proof (count_bound s k Hs). unfold count in *. cbn [members]. case_bool_decide as Hk; subst;
        destruct (Z.eqb_spec n 1); rewrite ?lookup_delete_eq, ?lookup_insert_eq, ?lookup_delete_ne, ?lookup_insert_ne by done; rewrite ?E; cbn.
      * lia.
      * rewrite u64_id; unfold in_u64; lia.
      * lia.
      * lia.
  - split_and!; [done..|]. intros k. pose proof (count_bound s k Hs). case_bool_decide as Hk; [|lia].
    subst k. unfold count in *. rewrite E in *. cbn in *. lia.
Qed.

(** ** Keys and prefixes *)

Lemma To4_length ip ip4 : To4 ip = Some ip4 -> length ip4 = 4%nat.
Proof.
  unfold To4. case_decide; [by intros [= <-]|]. case_decide as Hd; [|done]. intros [= <-]. rewrite length_drop. lia.
Qed.

Definition valid (ip : IP) : Prop := length ip = 4%nat \/ length ip = 16%nat.

Lemma To4_None ip : valid ip -> To4 ip = None -> length ip = 16%nat /\ To16 ip = Some ip.
Proof. intros Hv. unfold To4, To16. destruct Hv; repeat case_decide; try done; lia. Qed.

(** The part of [key] and of [sameNet] that compares two slices of one length. *)
Lemma prefix_equal bits (a b : IP) :
  0 <= bits <= Z.of_nat (length a) * 8 -> length b = length a ->
  let part (ip : IP) := take (Z.to_nat (bits / 8)) ip ++
    (if bool_decide (Z.to_nat (bits / 8) < length ip)%nat && negb (prefixMask bits =? 0)
     then [Z.land (default 0 (ip !! Z.to_nat (bits / 8))) (prefixMask bits)] else []) in
  part a = part b <-> sameNet bits a b = true.
Proof.
  intros Hb Hl. cbn zeta. unfold sameNet. set (nb := Z.to_nat (bits / 8)). set (m := prefixMask bits).
  assert (nb <= length a)%nat as Hnb by (subst nb; pose proof (Z.div_le_upper_bound bits 8 (Z.of_nat (length a))); lia).
  assert (length (take nb a) = length (take nb b)) as Ht by (rewrite !length_take; lia).
  assert (Equal (take nb a) (take nb b) = bool_decide (take nb a = take nb b)) as -> by (unfold Equal; by rewrite decide_True).
  rewrite Hl. rewrite (bool_decide_eq_true_2 (nb <= length a)%nat) by done.
  destruct (m =? 0); cbn [negb andb]; rewrite ?andb_false_r, ?andb_true_r.
  - rewrite !app_nil_r, bool_decide_eq_true. done.
  - destruct (bool_decide (nb < length a)%nat) eqn:Hlt; cbn [andb]; [|by rewrite !app_nil_r, bool_decide_eq_true].
    destruct (Z.eqb_spec (Z.land (default 0 (a !! nb)) m) (Z.land (default 0 (b !! nb)) m)) as [E|E]; cbn [negb].
    + rewrite bool_decide_eq_true, E. split; [by intros [? _]%app_inj_1|by intros ->].
    + split; [|done]. intros H%app_inj_1; [|done]. destruct H as [_ [= ?]]. done.
Qed.

(** Two addresses count for the same subnet exactly when [SameNet] says that they share its prefix. *)
Lemma key_SameNet s ip other :
  valid ip -> valid other -> 0 <= Subnet s <= 32 -> key s ip = key s other <-> SameNet (Subnet s) ip other = true.
Proof.
  intros Hv Hv' Hs. unfold key, SameNet. destruct (To4 ip) as [a|] eqn:Ea, (To4 other) as [b|] eqn:Eb.
  - pose proof (To4_length _ _ Ea) as La. pose proof (To4_length _ _ Eb) as Lb. rewrite La, Lb. rewrite Z.min_l by lia.
    rewrite <- prefix_equal by lia. rewrite La, Lb. split; [by intros [= ?]|intros E; f_equal; exact E].
  - done.
  - done.
  - destruct (To4_None _ Hv Ea) as [La ->], (To4_None _ Hv' Eb) as [Lb ->]. cbn [default]. rewrite La, Lb. rewrite Z.min_l by lia.
    unfold id. rewrite <- prefix_equal by lia. rewrite La, Lb. split; [by intros [= ?]|intros E; f_equal; exact E].
Qed.

End NetutilLemmas.
