(* ===== verification/NodeTable.v ===== *)
(** * The table of discovered nodes (src/p2p/discover/table.go, lookup.go, src/p2p/enode/node.go)

    [Table] is the Kademlia table: buckets of nodes by distance, replacements for full buckets, and limits on the
    addresses of a subnet. The mutex makes each operation atomic; a revalidation is two operations, before and after
    its ping. Nodes are shared by pointer: [ref] is the identity of the object, and a write goes to every place of the table
    that holds it. [Lookup] is the iterative search for the nodes closest to a target. *)

From stdpp Require Import base tactics list gmap fin_maps.
From Stdlib Require Import ZArith Lia.
From S2P Require Import Prelude Bytes Netutil.

Open Scope Z_scope.
Open Scope go_scope.

Import Netutil.

Module Enode.

(** [enode.ID]: 32 bytes. *)
Definition ID : Type := list Z.

Fixpoint DistCmp (target a b : ID) : Z :=
  match target, a, b with
  | t :: target, x :: a, y :: b =>
      let da := Z.lxor x t in
      let db := Z.lxor y t in
      if db <? da then 1 else if da <? db then -1 else DistCmp target a b
  | _, _, _ => 0
  end.

(** [bits.LeadingZeros8] of a byte that is not zero. *)
Definition LeadingZeros8 (x : Z) : Z := 7 - Z.log2 x.

Fixpoint leadingZeros (a b : ID) : Z :=
  match a, b with
  | x :: a, y :: b => if Z.lxor x y =? 0 then 8 + leadingZeros a b else LeadingZeros8 (Z.lxor x y)
  | _, _ => 0
  end.

Definition LogDist (a b : ID) : Z := Z.of_nat (length a) * 8 - leadingZeros a b.

End Enode.

Import Enode.

Module Table.

Definition alpha : Z := 3.
Definition bucketSize : nat := 16.
Definition maxReplacements : nat := 10.
Definition hashBits : Z := 256.
Definition nBuckets : Z := hashBits / 15.
Definition bucketMinDistance : Z := hashBits - nBuckets.
Definition bucketIPLimit : Z := 2.
Definition tableIPLimit : Z := 10.
Definition bucketSubnet : Z := 24.
Definition tableSubnet : Z := 24.
Definition seedMinTableTime : Z := 300 * 10 ^ 9.

Record node := mkNode {
  ref : nat;
  nid : ID;
  nip : IP;
  seq : Z;
  addedAt : Z;
  livenessChecks : Z
}.

#[global] Instance node_eq_dec : EqDecision node.
Proof. solve_decision. Defined.

Record bucket := mkBucket { entries : list node; replacements : list node; bips : DistinctNetSet }.

Record table := mkTable {
  self : ID;
  buckets : list bucket;
  nursery : list node;
  ips : DistinctNetSet;
  initDone : bool
}.

Definition setBuckets (t : table) bs ps : table := mkTable (self t) bs (nursery t) ps (initDone t).

(** ** Lists of nodes *)

Definition contains (ns : list node) (id : ID) : bool := existsb (fun n => bool_decide (nid n = id)) ns.

(** The list with the node in front, at most [max] long, and the node that fell off. *)
Definition pushNode (l : list node) (n : node) (max : nat) : go (list node * option node) :=
  if decide (length l < max)%nat then Ret (n :: l, None)
  else match last l with
       | Some x => Ret (n :: take (length l - 1) l, Some x)
       | None => Panic
       end.

Fixpoint deleteNode (l : list node) (n : node) : list node :=
  match l with
  | [] => []
  | x :: l => if decide (nid x = nid n) then l else x :: deleteNode l n
  end.

(** ** Writes to a shared node *)

Definition touchIn (r : nat) (w : node -> node) (l : list node) : list node :=
  (fun x => if decide (ref x = r) then w x else x) <$> l.

Definition touchBucket (r : nat) (w : node -> node) (b : bucket) : bucket :=
  mkBucket (touchIn r w (entries b)) (touchIn r w (replacements b)) (bips b).

Definition touch (r : nat) (w : node -> node) (t : table) : table :=
  mkTable (self t) (touchBucket r w <$> buckets t) (touchIn r w (nursery t)) (ips t) (initDone t).

(** What an object holds now; one that is nowhere in the table is as its holder left it. *)
Definition deref (t : table) (n : node) : node :=
  default n (snd <$> list_find (fun x => ref x = ref n) ((buckets t ≫= fun b => entries b ++ replacements b) ++ nursery t)).

Definition withAddedAt (now : Z) (n : node) : node := mkNode (ref n) (nid n) (nip n) (seq n) now (livenessChecks n).
Definition checked (n : node) : node := mkNode (ref n) (nid n) (nip n) (seq n) (addedAt n) (livenessChecks n + 1).

(** ** Addresses *)

Definition addIP (tips : DistinctNetSet) (b : bucket) (ip : IP) : DistinctNetSet * bucket * bool :=
  match ip with
  | [] => (tips, b, false)
  | _ =>
      if IsLAN ip then (tips, b, true)
      else
        let '(tips', ok) := Add tips ip in
        if ok then
          let '(bs, ok) := Add (bips b) ip in
          if ok then (tips', mkBucket (entries b) (replacements b) bs, true)
          else (Remove tips' ip, b, false)
        else (tips, b, false)
  end.

Definition removeIP (tips : DistinctNetSet) (b : bucket) (ip : IP) : DistinctNetSet * bucket :=
  if IsLAN ip then (tips, b)
  else (Remove tips ip, mkBucket (entries b) (replacements b) (Remove (bips b) ip)).

(** ** Operations on a bucket *)

Definition addReplacement (tips : DistinctNetSet) (b : bucket) (n : node) : go (DistinctNetSet * bucket) :=
  if contains (replacements b) (nid n) then Ret (tips, b)
  else
    let '(tips, b, ok) := addIP tips b (nip n) in
    if ok : bool then
      let! (rs, removed) := pushNode (replacements b) n maxReplacements in
      let b := mkBucket (entries b) rs (bips b) in
      Ret (match removed with Some x => removeIP tips b (nip x) | None => (tips, b) end)
    else Ret (tips, b).

Definition deleteInBucket (tips : DistinctNetSet) (b : bucket) (n : node) : DistinctNetSet * bucket :=
  removeIP tips (mkBucket (deleteNode (entries b) n) (replacements b) (bips b)) (nip n).

(** [draw] is the number from the generator. *)
Definition replace (tips : DistinctNetSet) (b : bucket) (last_ : node) (draw : nat) : go (DistinctNetSet * bucket) :=
  match last (entries b) with
  | None => Ret (tips, b)
  | Some x =>
      if decide (nid x = nid last_) then
        if decide (replacements b = []) then Ret (deleteInBucket tips b last_)
        else
          match replacements b !! (draw mod length (replacements b))%nat with
          | None => Panic
          | Some r =>
              let b := mkBucket (take (length (entries b) - 1) (entries b) ++ [r]) (deleteNode (replacements b) r) (bips b) in
              Ret (removeIP tips b (nip last_))
          end
      else Ret (tips, b)
  end.

(** The entry with the given ID and its index. *)
Definition findEntry (l : list node) (id : ID) : option (nat * node) := list_find (fun x => nid x = id) l.

Definition bumpInBucket (tips : DistinctNetSet) (b : bucket) (n : node) : DistinctNetSet * bucket * bool :=
  match findEntry (entries b) (nid n) with
  | None => (tips, b, false)
  | Some (i, old) =>
      let front (b : bucket) := mkBucket (n :: take i (entries b) ++ drop (S i) (entries b)) (replacements b) (bips b) in
      if Equal (nip n) (nip old) then (tips, front b, true)
      else
        let '(tips1, b1) := removeIP tips b (nip old) in
        let '(tips2, b2, ok) := addIP tips1 b1 (nip n) in
        if ok : bool then (tips2, front b2, true)
        else let '(tips3, b3, _) := addIP tips2 b2 (nip old) in (tips3, b3, false)
  end.

(** ** The table *)

Definition emptyBucket : bucket := mkBucket [] [] (mkNetSet bucketSubnet bucketIPLimit ∅).

Definition bucketIndex (t : table) (id : ID) : nat :=
  let d := LogDist (self t) id in
  if d <=? bucketMinDistance then 0%nat else Z.to_nat (d - bucketMinDistance - 1).

(** An operation on the bucket at an index and the addresses of the table. *)
Definition onBucket {A} (t : table) (i : nat) (f : DistinctNetSet -> bucket -> go (DistinctNetSet * bucket * A)) : go (table * A) :=
  match buckets t !! i with
  | None => Panic
  | Some b => let! (tips, b, a) := f (ips t) b in Ret (setBuckets t (<[i := b]> (buckets t)) tips, a)
  end.

Definition addSeenNode (t : table) (n : node) (now : Z) : go table :=
  if decide (nid n = self t) then Ret t
  else
    let! (t, added) := onBucket t (bucketIndex t (nid n)) (fun tips b =>
      if contains (entries b) (nid n) then Ret (tips, b, false)
      else if decide (bucketSize <= length (entries b))%nat then
        let! (tips, b) := addReplacement tips b n in Ret (tips, b, false)
      else
        let '(tips, b, ok) := addIP tips b (nip n) in
        if ok : bool then Ret (tips, mkBucket (entries b ++ [n]) (deleteNode (replacements b) n) (bips b), true)
        else Ret (tips, b, false)) in
    Ret (if added : bool then touch (ref n) (withAddedAt now) t else t).

Definition addVerifiedNode (t : table) (n : node) (now : Z) : go table :=
  if negb (initDone t) then Ret t
  else if decide (nid n = self t) then Ret t
  else
    let! (t, added) := onBucket t (bucketIndex t (nid n)) (fun tips b =>
      let '(tips, b, bumped) := bumpInBucket tips b n in
      if bumped : bool then Ret (tips, b, false)
      else if decide (bucketSize <= length (entries b))%nat then
        let! (tips, b) := addReplacement tips b n in Ret (tips, b, false)
      else
        let '(tips, b, ok) := addIP tips b (nip n) in
        if ok : bool then
          let! (es, _) := pushNode (entries b) n bucketSize in
          Ret (tips, mkBucket es (deleteNode (replacements b) n) (bips b), true)
        else Ret (tips, b, false)) in
    Ret (if added : bool then touch (ref n) (withAddedAt now) t else t).

Definition delete_ (t : table) (n : node) : go table :=
  let! (t, _) := onBucket t (bucketIndex t (nid n)) (fun tips b => let '(tips, b) := deleteInBucket tips b n in Ret (tips, b, tt)) in Ret t.

Definition loadSeedNodes (t : table) (seeds : list node) (now : Z) : go table :=
  go_foldl (fun t n => addSeenNode t n now) t (seeds ++ nursery t).

(** [ValidateComplete] says which bootstrap nodes are complete; [None] is the error for the others. *)
Definition newTable (ValidateComplete : node -> bool) (self : ID) (bootnodes seeds : list node) (now : Z) : option (go table) :=
  if forallb ValidateComplete bootnodes then
    Some (loadSeedNodes (mkTable self (replicate (Z.to_nat nBuckets) emptyBucket) bootnodes (mkNetSet tableSubnet tableIPLimit ∅) false)
      seeds now)
  else None.

(** ** Revalidation *)

Fixpoint nodeToRevalidate (t : table) (perm : list nat) : option (node * nat) :=
  match perm with
  | [] => None
  | bi :: perm =>
      match buckets t !! bi with
      | Some b => match last (entries b) with Some x => Some (x, bi) | None => nodeToRevalidate t perm end
      | None => nodeToRevalidate t perm
      end
  end.

(** [doRevalidate] after the ping of [last_]: [pong] is the sequence number that came back, [enr] the record
    when a newer one was asked for and arrived, as a fresh object. *)
Definition doRevalidate (t : table) (last_ : node) (bi : nat) (pong : option Z) (enr : option node) (draw : nat) : go table :=
  let fetched :=
    match enr with
    | Some n => if seq last_ <? default 0 pong
                then Some (mkNode (ref n) (nid n) (nip n) (seq n) (addedAt last_) (livenessChecks last_)) else None
    | None => None
    end in
  match pong with
  | Some _ =>
      let '(t, last_) := match fetched with
                         | Some n => (t, checked n)
                         | None => (touch (ref last_) checked t, checked (deref t last_))
                         end in
      let! (t, _) := onBucket t bi (fun tips b => Ret (bumpInBucket tips b last_)) in Ret t
  | None =>
      let! (t, _) := onBucket t bi (fun tips b => let! (tips, b) := replace tips b (default last_ fetched) draw in Ret (tips, b, tt)) in
      Ret t
  end.

(** What changes the table: nodes that were seen or that answered a ping, nodes that a search gives up,
    finished revalidations, and the end of the first refresh. *)
Inductive event :=
| Seen (n : node) (now : Z)
| Verified (n : node) (now : Z)
| Delete (n : node)
| Revalidated (last_ : node) (bi : nat) (pong : option Z) (enr : option node) (draw : nat)
| InitDone.

Definition apply (t : table) (e : event) : go table :=
  match e with
  | Seen n now => addSeenNode t n now
  | Verified n now => addVerifiedNode t n now
  | Delete n => delete_ t n
  | Revalidated n bi pong enr draw => doRevalidate t n bi pong enr draw
  | InitDone => Ret (mkTable (self t) (buckets t) (nursery t) (ips t) true)
  end.

(** The nodes that [copyLiveNodes] writes to the database. *)
Definition copyLiveNodes (t : table) (now : Z) : list node :=
  buckets t ≫= fun b => filter (fun n => 0 < livenessChecks n /\ seedMinTableTime <= now - addedAt n) (entries b).

(** ** Queries *)

Definition getNode (t : table) (id : ID) : go (option node) :=
  match buckets t !! bucketIndex t id with
  | Some b => Ret (snd <$> findEntry (entries b) id)
  | None => Panic
  end.

Definition allEntries (t : table) : list node := buckets t ≫= entries.

Definition len (t : table) : nat := length (allEntries t).

Definition bucketLen (t : table) (id : ID) : go nat :=
  match buckets t !! bucketIndex t id with Some b => Ret (length (entries b)) | None => Panic end.

(** [sort.Search]: the binary search for the smallest index in [i, j) at which [f] holds, or [j]. *)
Fixpoint searchLoop (fuel : nat) (f : nat -> bool) (i j : nat) : nat :=
  match fuel with
  | O => i
  | S fuel =>
      if decide (i < j)%nat then
        let h := ((i + j) / 2)%nat in
        if f h then searchLoop fuel f i h else searchLoop fuel f (S h) j
      else i
  end.

Definition sortSearch (n : nat) (f : nat -> bool) : nat := searchLoop n f 0 n.

(** [nodesByDistance.push]. *)
Definition push (target : ID) (l : list node) (n : node) (maxElems : nat) : list node :=
  let ix := sortSearch (length l) (fun i =>
    match l !! i with Some x => 0 <? DistCmp target (nid x) (nid n) | None => true end) in
  let l := if decide (length l < maxElems)%nat then l ++ [n] else l in
  if decide (ix = length l) then l else take ix l ++ n :: take (length l - S ix) (drop ix l).

Definition findnodeByID (t : table) (target : ID) (nresults : nat) (preferLive : bool) : list node :=
  let nodes := foldl (fun l n => push target l n nresults) [] (allEntries t) in
  let liveNodes := foldl (fun l n => if preferLive && (0 <? livenessChecks n) then push target l n nresults else l) [] (allEntries t) in
  if preferLive && bool_decide (liveNodes <> []) then liveNodes else nodes.

(** [ReadRandomNodes] with the numbers of the generator, for a buffer of [size] slots. *)
Fixpoint shuffleLoop (draws : list nat) (i : nat) (l : list node) : list node :=
  match draws with
  | [] => l
  | d :: draws =>
      let j := (d mod length l)%nat in
      match l !! i, l !! j with
      | Some x, Some y => shuffleLoop draws (S i) (<[j := x]> (<[i := y]> l))
      | _, _ => l
      end
  end.

Definition ReadRandomNodes (t : table) (draws : list nat) (size : nat) : list node :=
  if initDone t then take size (shuffleLoop draws 0 (allEntries t)) else [].

End Table.

Module Lookup.
Import Table.

(** The state of a search; [asked] and [seen] are sets of identifiers. [live] tells that the query function is not nil. *)
Record lookup := mkLookup {
  target : ID;
  asked : gset ID;
  seen : gset ID;
  result : list node;
  replyBuffer : list node;
  queries : Z;
  live : bool
}.

Definition newLookup (self target : ID) : lookup := mkLookup target {[self]} ∅ [] [] (-1) true.

(** The loop over the result that starts queries, up to [alpha] at a time. *)
Fixpoint askLoop (it : lookup) (l : list node) : lookup * list node :=
  match l with
  | [] => (it, [])
  | n :: l =>
      if queries it <? alpha then
        if decide (nid n ∈ asked it) then askLoop it l
        else
          let '(it, ns) :=
            askLoop (mkLookup (target it) ({[nid n]} ∪ asked it) (seen it) (result it) (replyBuffer it) (queries it + 1) (live it)) l in
          (it, n :: ns)
      else (it, [])
  end.

(** [startQueries]: the nodes to ask, or the entries of the table that arrive as the first reply, and
    whether there is a reply to wait for. *)
Inductive started := FromTable (closest : list node) | Ask (ns : list node).

Definition startQueries (t : table) (it : lookup) : lookup * started * bool :=
  if negb (live it) then (it, Ask [], false)
  else if queries it =? -1 then
    (mkLookup (target it) (asked it) (seen it) (result it) (replyBuffer it) 1 (live it),
     FromTable (findnodeByID t (target it) bucketSize false), true)
  else
    let '(it, ns) := askLoop it (result it) in (it, Ask ns, 0 <? queries it).

(** A reply: the nodes not seen before go into the result and the buffer. *)
Definition takeNode (it : lookup) (n : node) : lookup :=
  if decide (nid n ∈ seen it) then it
  else mkLookup (target it) (asked it) ({[nid n]} ∪ seen it) (push (target it) (result it) n bucketSize) (replyBuffer it ++ [n])
         (queries it) (live it).

Definition receive (it : lookup) (nodes : list node) : lookup :=
  let it := mkLookup (target it) (asked it) (seen it) (result it) [] (queries it) (live it) in
  let it := foldl takeNode it nodes in
  mkLookup (target it) (asked it) (seen it) (result it) (replyBuffer it) (queries it - 1) (live it).

(** Whether [advance] returns with new nodes after a reply. *)
Definition found (it : lookup) : bool := bool_decide (replyBuffer it <> []).

(** [shutdown]: the replies under way are awaited and dropped, and nothing is asked any more. *)
Definition shutdown (it : lookup) : lookup :=
  mkLookup (target it) (asked it) (seen it) (result it) [] (if 0 <? queries it then 0 else queries it) false.

(** What [advance] waits for: the next reply, or the end of the context. *)
Inductive lookupEvent := Reply (nodes : list node) | Cancel.

#[global] Instance lookupEvent_eq_dec : EqDecision lookupEvent.
Proof. solve_decision. Defined.

Definition await (it : lookup) (e : lookupEvent) : lookup :=
  match e with Reply nodes => receive it nodes | Cancel => shutdown it end.

(** Only the entries of the table can arrive as the first reply. *)
Definition possible (s : started) (e : lookupEvent) : bool :=
  match s, e with FromTable c, Reply nodes => bool_decide (nodes = c) | _, _ => true end.

Definition askedBy (s : started) : list node := match s with FromTable _ => [] | Ask ns => ns end.

(** [run]: queries are started before each event is awaited; with the nodes that were asked, in order. [None] when the search has
    ended before the events, or an event cannot happen. *)
Fixpoint run (t : table) (it : lookup) (events : list lookupEvent) : option (lookup * list node) :=
  match events with
  | [] => Some (it, [])
  | e :: events =>
      let '(it, s, more) := startQueries t it in
      if more && possible s e then
        match run t (await it e) events with
        | Some (it, ns) => Some (it, askedBy s ++ ns)
        | None => None
        end
      else None
  end.

Definition maxFindnodeFailures : Z := 5.

(** [query] after the answer of a node: the new count of failures to store, and whether the node is deleted from the table. *)
Definition query (fails : Z) (r : list node) (closed : bool) (bucketLen : nat) : option Z * bool :=
  if closed then (None, false)
  else if decide (r = []) then
    (Some (fails + 1), (maxFindnodeFailures <=? fails + 1) && bool_decide (bucketSize / 2 <= bucketLen)%nat)
  else (if 0 <? fails then Some 0 else None, false).

End Lookup.
