(* ===== verification/NodeTableProps.v ===== *)
(** * Properties of the table of discovered nodes (NodeTable.v)

    Distances, the shape of the table over every run, the limits on addresses and where the accounting of them
    fails, and what queries and searches return. *)

From stdpp Require Import base tactics list gmap fin_maps sorting.
From Stdlib Require Import ZArith Lia.
From S2P Require Import Prelude Bytes Netutil NodeTable.

Open Scope Z_scope.
Open Scope go_scope.

Import Netutil NetutilLemmas Enode Table.

Module Distance.

Definition wfID (id : ID) : Prop := length id = 32%nat /\ Forall is_byte id.

(** The distance of an identifier from the target, as a number. *)
Definition dist (target a : ID) : Z := be_decode (zip_with Z.lxor a target).

Lemma xor_bytes a b : Forall is_byte a -> Forall is_byte b -> Forall is_byte (zip_with Z.lxor a b).
Proof.
  intros Ha. revert b. induction Ha as [|x a Hx _ IH]; intros b Hb; [constructor|]. destruct Hb as [|y b Hy Hb]; [constructor|].
  cbn. constructor; [|by apply IH]. by apply (lxor_bound x y 8).
Qed.

Lemma dist_bound target a : Forall is_byte target -> Forall is_byte a -> length a = length target ->
  0 <= dist target a < 256 ^ Z.of_nat (length a).
Proof.
  intros Ht Ha Hl. pose proof (be_decode_bound _ (xor_bytes a target Ha Ht)) as Hb. rewrite length_zip_with, Hl, Nat.min_id in Hb.
  by rewrite Hl.
Qed.

(** [DistCmp] compares the distances as numbers. *)
Lemma DistCmp_spec target a b :
  Forall is_byte target -> Forall is_byte a -> Forall is_byte b -> length a = length target -> length b = length target ->
  DistCmp target a b = match dist target a ?= dist target b with Lt => -1 | Eq => 0 | Gt => 1 end.
Proof.
  intros Ht. revert a b. induction Ht as [|t target Ht Hts IH]; intros a b Ha Hb La Lb.
  { destruct a, b; done. }
  destruct Ha as [|x a Hx Ha]; [done|]. destruct Hb as [|y b Hy Hb]; [done|]. cbn in La, Lb. injection La as La. injection Lb as Lb.
  cbn [DistCmp]. unfold dist. cbn [zip_with]. rewrite !be_decode_cons, !length_zip_with, La, Lb, Nat.min_id.
  pose proof (dist_bound target a Hts Ha La) as Ba. pose proof (dist_bound target b Hts Hb Lb) as Bb. unfold dist in Ba, Bb. rewrite La in Ba. rewrite Lb in Bb.
  set (B := 256 ^ Z.of_nat (length target)) in *.
  destruct (Z.ltb_spec (Z.lxor y t) (Z.lxor x t)) as [H1|H1]; [|destruct (Z.ltb_spec (Z.lxor x t) (Z.lxor y t)) as [H2|H2]].
  - assert (Z.lxor y t * B + be_decode (zip_with Z.lxor b target) < Z.lxor x t * B + be_decode (zip_with Z.lxor a target)) as H by nia.
    by rewrite (proj2 (Z.compare_gt_iff _ _) H).
  - assert (Z.lxor x t * B + be_decode (zip_with Z.lxor a target) < Z.lxor y t * B + be_decode (zip_with Z.lxor b target)) as H by nia.
    by rewrite (proj2 (Z.compare_lt_iff _ _) H).
  - assert (Z.lxor x t = Z.lxor y t) as E by lia. rewrite E, Z.add_compare_mono_l. by apply IH.
Qed.

Lemma dist_inj target a b : Forall is_byte target -> Forall is_byte a -> Forall is_byte b ->
  length a = length target -> length b = length target -> dist target a = dist target b -> a = b.
Proof.
  intros Ht. revert a b. induction Ht as [|t target Ht Hts IH]; intros a b Ha Hb La Lb; [by destruct a, b|].
  destruct Ha as [|x a Hx Ha]; [done|]. destruct Hb as [|y b Hy Hb]; [done|]. cbn in La, Lb. injection La as La. injection Lb as Lb.
  unfold dist. cbn [zip_with]. rewrite !be_decode_cons, !length_zip_with, La, Lb, Nat.min_id.
  pose proof (dist_bound target a Hts Ha La) as Ba. pose proof (dist_bound target b Hts Hb Lb) as Bb. unfold dist in Ba, Bb. rewrite La in Ba. rewrite Lb in Bb.
  set (B := 256 ^ Z.of_nat (length target)) in *. intros E.
  assert (Z.lxor x t = Z.lxor y t) as Exy by nia. rewrite Exy in E.
  f_equal; [by apply (lxor_cancel_r x y t)|]. apply IH; [done..|]. unfold dist. lia.
Qed.

(** [LogDist] is the length of the distance in bits. *)
Lemma LogDist_spec a b :
  Forall is_byte a -> Forall is_byte b -> length b = length a ->
  LogDist a b = if decide (a = b) then 0 else Z.log2 (dist b a) + 1.
Proof.
  unfold LogDist, dist. intros Ha. revert b. induction Ha as [|x a Hx Ha IH]; intros b Hb Hl.
  { destruct b; [|done]. by rewrite decide_True. }
  destruct Hb as [|y b Hy Hb]; [done|]. cbn in Hl. injection Hl as Hl. cbn [leadingZeros zip_with length].
  rewrite be_decode_cons, length_zip_with, Hl, Nat.min_id. specialize (IH b Hb Hl).
  pose proof (be_decode_bound _ (xor_bytes a b Ha Hb)) as B. rewrite length_zip_with, Hl, Nat.min_id in B.
  assert (0 <= Z.lxor x y < 2 ^ 8) as Hxy by (apply lxor_bound; [lia|exact Hx|exact Hy]).
  destruct (Z.eqb_spec (Z.lxor x y) 0) as [E|E].
  - apply Z.lxor_eq in E as ->. rewrite Z.lxor_nilpotent, Z.mul_0_l, Z.add_0_l, Nat2Z.inj_succ.
    destruct (decide (a = b)) as [->|Hne]; [rewrite decide_True by done|rewrite decide_False by congruence]; lia.
  - rewrite decide_False by (intros [= -> ->]; by rewrite Z.lxor_nilpotent in E). unfold LeadingZeros8.
    change 256 with (2 ^ 8) in *. rewrite <- Z.pow_mul_r in * by lia. set (k := 8 * Z.of_nat (length a)) in *.
    assert (Z.log2 (Z.lxor x y * 2 ^ k + be_decode (zip_with Z.lxor a b)) = Z.log2 (Z.lxor x y) + k) as ->.
    { apply Z.log2_unique; [pose proof (Z.log2_nonneg (Z.lxor x y)); lia|].
      pose proof (Z.log2_spec (Z.lxor x y) ltac:(lia)) as Hs. pose proof (Z.log2_nonneg (Z.lxor x y)) as H0. pose proof (Z.pow_pos_nonneg 2 k ltac:(lia) ltac:(lia)).
      rewrite <- Z.add_succ_l, !Z.pow_add_r by lia. nia. }
    rewrite Nat2Z.inj_succ. lia.
Qed.

Lemma LogDist_range a b : wfID a -> wfID b -> 0 <= LogDist a b <= 256 /\ (LogDist a b = 0 <-> a = b).
Proof.
  intros [La Ha] [Lb Hb]. rewrite LogDist_spec by (done || lia). case_decide as E; [done|].
  pose proof (dist_bound b a Hb Ha ltac:(lia)) as Hd. rewrite La in Hd. pose proof (Z.log2_nonneg (dist b a)).
  assert (dist b a <> 0) as Hnz.
  { intros E0. apply E. apply (dist_inj b a b Hb Ha Hb ltac:(lia) eq_refl). rewrite E0. symmetry. unfold dist. clear.
    induction b as [|x b IH]; [done|]. cbn [zip_with]. rewrite be_decode_cons, IH, Z.lxor_nilpotent. lia. }
  assert (Z.log2 (dist b a) < 256) by (apply Z.log2_lt_pow2; [lia|exact (proj2 Hd)]). split; [lia|]. split; [lia|done].
Qed.

End Distance.

Module TableLemmas.
Import Distance.

(** ** Addresses *)

(** The prefix that the sets of the table and of the buckets count. *)
Definition key24 (ip : IP) : list Z := key (mkNetSet 24 0 ∅) ip.

(** The nodes of a list that count for a prefix. *)
Definition counts (k : list Z) (n : node) : Prop := IsLAN (nip n) = false /\ key24 (nip n) = k.
#[local] Instance counts_dec k n : Decision (counts k n).
Proof. unfold counts. apply _. Defined.

Definition weight (k : list Z) (l : list node) : Z := Z.of_nat (length (filter (counts k) l)).

Lemma weight_app k l l' : weight k (l ++ l') = weight k l + weight k l'.
Proof. unfold weight. rewrite filter_app, length_app. lia. Qed.

Lemma weight_perm k l l' : l ≡ₚ l' -> weight k l = weight k l'.
Proof. intros E. unfold weight. by rewrite E. Qed.

Lemma weight_cons k n l : weight k (n :: l) = (if decide (counts k n) then 1 else 0) + weight k l.
Proof. unfold weight. rewrite filter_cons. case_decide; cbn [length]; lia. Qed.

Lemma weight_nil k : weight k [] = 0.
Proof. done. Qed.

Lemma weight_nonneg k l : 0 <= weight k l.
Proof. unfold weight. lia. Qed.

(** The change of a count by an address. *)
Definition unit_ (k : list Z) (ip : IP) : Z := if decide (IsLAN ip = false /\ key24 ip = k) then 1 else 0.

Lemma weight_cons_unit k n l : weight k (n :: l) = unit_ k (nip n) + weight k l.
Proof. rewrite weight_cons. unfold unit_, counts. done. Qed.

Definition tracked (b : bucket) : list node := entries b ++ replacements b.

Record ipsOk (lim : Z) (s : DistinctNetSet) : Prop := {
  ips_set : setOk s;
  ips_subnet : Subnet s = 24;
  ips_limit : Limit s = lim
}.

Lemma key_24 lim s ip : ipsOk lim s -> key s ip = key24 ip.
Proof. intros [_ H _]. unfold key24. by apply key_config. Qed.

(** What [addIP] and [removeIP] do to both sets. *)
Lemma addIP_spec tips b ip :
  ipsOk 10 tips -> ipsOk 2 (bips b) ->
  let '(tips', b', ok) := addIP tips b ip in
  entries b' = entries b /\ replacements b' = replacements b /\ ipsOk 10 tips' /\ ipsOk 2 (bips b') /\
  ok = bool_decide (ip <> []) && (IsLAN ip || ((count tips (key24 ip) <? 10) && (count (bips b) (key24 ip) <? 2))) /\
  forall k, count tips' k = count tips k + (if ok then unit_ k ip else 0) /\
            count (bips b') k = count (bips b) k + (if ok then unit_ k ip else 0).
Proof.
  intros Ht Hb. unfold addIP. destruct ip as [|x ip]; [split_and!; try done; intros k; lia|].
  set (a := x :: ip) in *. rewrite bool_decide_eq_true_2 by done. cbn [andb]. unfold unit_.
  destruct (IsLAN a) eqn:Hlan; [split_and!; try done; intros k; rewrite decide_False by (by intros [? _]); lia|].
  pose proof (Add_spec tips a (ips_set _ _ Ht)) as HA. rewrite (key_24 _ _ a Ht), (ips_limit _ _ Ht) in HA.
  destruct (Add tips a) as [tips' ok]. destruct HA as (A1 & A2 & A3 & -> & A4). cbn [orb].
  assert (ipsOk 10 tips') as Ht' by (split; [done|rewrite A2; apply Ht|done]).
  destruct (count tips (key24 a) <? 10) eqn:E1; cbn [andb]; [|split_and!; try done; intros k; lia].
  pose proof (Add_spec (bips b) a (ips_set _ _ Hb)) as HB. rewrite (key_24 _ _ a Hb), (ips_limit _ _ Hb) in HB.
  destruct (Add (bips b) a) as [bs ok]. destruct HB as (B1 & B2 & B3 & -> & B4).
  destruct (count (bips b) (key24 a) <? 2) eqn:E2; cbn [entries replacements bips].
  - split_and!; try done; [split; [done|rewrite B2; apply Hb|done]|].
    intros k. rewrite A4, B4. cbn [andb]. destruct (decide (key24 a = k)) as [<-|].
    + by rewrite bool_decide_eq_true_2, decide_True.
    + rewrite bool_decide_eq_false_2, decide_False by naive_solver. lia.
  - destruct (Remove_spec tips' a (ips_set _ _ Ht')) as (R1 & R2 & R3 & R4). rewrite (key_24 _ _ a Ht') in R4.
    split_and!; try done; [split; [done|rewrite R2; apply Ht'|rewrite R3; apply Ht']|].
    intros k. rewrite R4, A4. pose proof (count_bound tips k (ips_set _ _ Ht)). cbn [andb]. case_bool_decide; lia.
Qed.

Lemma removeIP_spec tips b ip :
  ipsOk 10 tips -> ipsOk 2 (bips b) ->
  let '(tips', b') := removeIP tips b ip in
  entries b' = entries b /\ replacements b' = replacements b /\ ipsOk 10 tips' /\ ipsOk 2 (bips b') /\
  forall k, count tips' k = Z.max 0 (count tips k - unit_ k ip) /\ count (bips b') k = Z.max 0 (count (bips b) k - unit_ k ip).
Proof.
  intros Ht Hb. unfold removeIP, unit_. destruct (IsLAN ip) eqn:Hlan.
  { split_and!; try done. intros k. rewrite decide_False by (by intros [? _]).
    pose proof (count_bound tips k (ips_set _ _ Ht)). pose proof (count_bound (bips b) k (ips_set _ _ Hb)). lia. }
  destruct (Remove_spec tips ip (ips_set _ _ Ht)) as (R1 & R2 & R3 & R4). rewrite (key_24 _ _ ip Ht) in R4.
  destruct (Remove_spec (bips b) ip (ips_set _ _ Hb)) as (S1 & S2 & S3 & S4). rewrite (key_24 _ _ ip Hb) in S4.
  split_and!; try done; [split; [done|rewrite R2; apply Ht|rewrite R3; apply Ht]|cbn [bips]; split; [done|rewrite S2; apply Hb|rewrite S3; apply Hb]|].
  intros k. cbn [bips]. rewrite R4, S4. destruct (decide (key24 ip = k)) as [<-|].
  - by rewrite bool_decide_eq_true_2, decide_True.
  - by rewrite bool_decide_eq_false_2, decide_False by naive_solver.
Qed.

(** ** Buckets *)

Definition nodesOk (P : node -> Prop) (l : list node) : Prop :=
  NoDup (nid <$> l) /\ Forall (fun n => P n /\ nip n <> []) l.

Lemma nodesOk_sub P l l' : l' ⊆+ l -> nodesOk P l -> nodesOk P l'.
Proof.
  intros [k Hk]%submseteq_Permutation [H1 H2]. rewrite Hk in H1, H2. rewrite fmap_app in H1. split.
  - by apply NoDup_app in H1 as (? & _ & _).
  - by apply Forall_app in H2 as [? _].
Qed.

Lemma nodesOk_cons P n l : P n -> nip n <> [] -> nid n ∉ nid <$> l -> nodesOk P l -> nodesOk P (n :: l).
Proof. intros H1 H2 H3 [H4 H5]. split; [by constructor|by constructor]. Qed.

Record bucketOk (P : node -> Prop) (b : bucket) : Prop := {
  entries_len : (length (entries b) <= bucketSize)%nat;
  replacements_len : (length (replacements b) <= maxReplacements)%nat;
  nodes_ok : nodesOk P (tracked b);
  bips_ok : ipsOk 2 (bips b)
}.

(** The room between the counts of the sets and the nodes does not shrink. *)
Definition keeps (tips : DistinctNetSet) (b : bucket) (tips' : DistinctNetSet) (b' : bucket) : Prop :=
  forall k, count tips k - weight k (tracked b) <= count tips' k - weight k (tracked b') /\
            count (bips b) k - weight k (tracked b) <= count (bips b') k - weight k (tracked b').

Lemma contains_elem l id : contains l id = bool_decide (id ∈ nid <$> l).
Proof.
  unfold contains. induction l as [|x l IH]; cbn [existsb fmap list_fmap]; [by rewrite bool_decide_eq_false_2 by set_solver|].
  rewrite IH. repeat case_bool_decide; try done; set_solver.
Qed.

Lemma nid_inj l x y : NoDup (nid <$> l) -> x ∈ l -> y ∈ l -> nid x = nid y -> x = y.
Proof.
  intros Hnd [i Hi]%list_elem_of_lookup_1 [j Hj]%list_elem_of_lookup_1 E.
  assert (i = j) as ->; [|congruence]. eapply (NoDup_lookup _ _ _ (nid x) Hnd); rewrite list_lookup_fmap; [by rewrite Hi|by rewrite Hj, E].
Qed.

Lemma deleteNode_spec l n :
  (nid n ∉ nid <$> l -> deleteNode l n = l) /\ (forall x, x ∈ l -> NoDup (nid <$> l) -> nid x = nid n -> l ≡ₚ x :: deleteNode l n).
Proof.
  induction l as [|y l [IH1 IH2]]; [by split; [|intros x ?%elem_of_nil]|]. cbn [deleteNode]. split.
  - intros Hn. rewrite decide_False by set_solver. f_equal. apply IH1. set_solver.
  - intros x Hx Hnd E. apply NoDup_cons in Hnd as [Hy Hnd]. destruct (decide (nid y = nid n)) as [E'|E'].
    + apply elem_of_cons in Hx as [->|Hx]; [done|]. destruct Hy. change (nid y ∈ nid <$> l). rewrite E', <- E. by apply list_elem_of_fmap_2.
    + apply elem_of_cons in Hx as [->|Hx]; [done|]. rewrite (IH2 x Hx Hnd E) at 1. constructor.
Qed.

Lemma deleteNode_sub l n : deleteNode l n ⊆+ l.
Proof. induction l as [|y l IH]; [done|]. cbn [deleteNode]. case_decide; [by apply submseteq_cons|by apply submseteq_skip]. Qed.

Lemma deleteNode_not_in l n : NoDup (nid <$> l) -> nid n ∉ nid <$> deleteNode l n.
Proof.
  intros Hnd. destruct (decide (nid n ∈ nid <$> l)) as [Hin|Hin].
  - apply list_elem_of_fmap in Hin as (x & E & Hx). pose proof (proj2 (deleteNode_spec l n) x Hx Hnd (eq_sym E)) as Hp.
    rewrite Hp in Hnd. cbn in Hnd. rewrite E. by inversion_clear Hnd.
  - by rewrite (proj1 (deleteNode_spec l n) Hin).
Qed.

Lemma length_deleteNode l n : (length (deleteNode l n) <= length l)%nat.
Proof. apply submseteq_length, deleteNode_sub. Qed.

Lemma pushNode_ok l n max :
  (0 < max)%nat -> (length l <= max)%nat ->
  exists l' r, pushNode l n max = Ret (l', r) /\ (length l' <= max)%nat /\ l' ++ option_list r ≡ₚ n :: l.
Proof.
  intros Hm Hl. unfold pushNode. case_decide as Hd; [eexists _, None; split_and!; [done|cbn; lia|by rewrite app_nil_r]|].
  destruct (last l) as [x|] eqn:E; [|apply last_None in E as ->; cbn in Hd; lia].
  apply last_Some in E as [l0 ->]. eexists _, (Some x). rewrite length_app in *. cbn [length] in *.
  rewrite Nat.add_sub, take_app_length by lia. split_and!; [done|cbn; lia|]. cbn. constructor. done.
Qed.

Lemma tracked_same b b' : entries b' = entries b -> replacements b' = replacements b -> tracked b' = tracked b.
Proof. unfold tracked. by intros -> ->. Qed.

Lemma bucketOk_NoDup P b :
  bucketOk P b -> NoDup (nid <$> entries b) /\ NoDup (nid <$> replacements b) /\ forall id, id ∈ nid <$> entries b -> id ∉ nid <$> replacements b.
Proof. intros [_ _ [Hnd _] _]. unfold tracked in Hnd. rewrite fmap_app in Hnd. apply NoDup_app in Hnd as (? & ? & ?). done. Qed.

Lemma bucketOk_same P b b' :
  entries b' = entries b -> replacements b' = replacements b -> ipsOk 2 (bips b') -> bucketOk P b -> bucketOk P b'.
Proof. intros E1 E2 H [B1 B2 B3 B4]. split; rewrite ?E1, ?E2, ?(tracked_same b b' E1 E2); done. Qed.

Lemma addIP_ok P tips b ip :
  ipsOk 10 tips -> bucketOk P b -> let '(tips', b', ok) := addIP tips b ip in
  ipsOk 10 tips' /\ bucketOk P b' /\ tracked b' = tracked b /\ entries b' = entries b /\ replacements b' = replacements b /\
  (ok = true -> ip <> []) /\
  forall k, count tips' k = count tips k + (if ok then unit_ k ip else 0) /\ count (bips b') k = count (bips b) k + (if ok then unit_ k ip else 0).
Proof.
  intros Ht [B1 B2 B3 B4]. pose proof (addIP_spec tips b ip Ht B4) as Ha. destruct (addIP tips b ip) as [[tips' b'] ok].
  destruct Ha as (E1 & E2 & A1 & A2 & -> & A3). pose proof (tracked_same b b' E1 E2) as Et.
  split_and!; try done; [by apply (bucketOk_same P b)|].
  intros [H _]%andb_prop. by apply bool_decide_eq_true in H.
Qed.

Lemma addReplacement_ok P tips b n :
  ipsOk 10 tips -> bucketOk P b -> P n -> nid n ∉ nid <$> entries b \/ snd (addIP tips b (nip n)) = false ->
  exists tips' b', addReplacement tips b n = Ret (tips', b') /\ ipsOk 10 tips' /\ bucketOk P b' /\ keeps tips b tips' b'.
Proof.
  intros Ht Hb HP Hn. unfold addReplacement. rewrite contains_elem. case_bool_decide as Hin; [by exists tips, b|].
  pose proof (addIP_ok P tips b (nip n) Ht Hb) as Ha. destruct (addIP tips b (nip n)) as [[tips1 b1] ok]. cbn [snd] in Hn.
  destruct Ha as (A1 & [B1 B2 B3 B4] & Et & E1 & E2 & A5 & A6). destruct ok; [destruct Hn as [Hn|]; [|done]|].
  2: { exists tips1, b1. split_and!; [done|done|by split|]. intros k. rewrite Et. specialize (A6 k). lia. }
  destruct (pushNode_ok (replacements b1) n maxReplacements ltac:(unfold maxReplacements; lia) B2) as (rs & r & -> & Hlen & Hperm).
  assert (nodesOk P (n :: tracked b1)) as Hn1.
  { apply nodesOk_cons; [done|by apply A5| |done]. unfold tracked. rewrite E1, E2, fmap_app. set_solver. }
  assert (entries b1 ++ rs ++ option_list r ≡ₚ n :: tracked b1) as Hp1.
  { rewrite Hperm. unfold tracked. by rewrite Permutation_middle. }
  assert (bucketOk P (mkBucket (entries b1) rs (bips b1))) as Hb1.
  { split; cbn [entries replacements bips]; [done|done| |done]. eapply nodesOk_sub; [|exact Hn1]. unfold tracked at 1. cbn [entries replacements].
    rewrite <- Hp1, app_assoc. apply submseteq_inserts_r. done. }
  assert (forall k, weight k (entries b1 ++ rs) + weight k (option_list r) = unit_ k (nip n) + weight k (tracked b)) as Hw.
  { intros k. rewrite <- weight_app, <- app_assoc, (weight_perm k _ _ Hp1), weight_cons_unit, Et. done. }
  destruct r as [x|].
  - pose proof (removeIP_spec tips1 (mkBucket (entries b1) rs (bips b1)) (nip x) A1 B4) as Hr.
    destruct (removeIP _ _ _) as [tips2 b2]. destruct Hr as (R1 & R2 & R3 & R4 & R5). cbn [entries replacements bips] in *.
    exists tips2, b2. split_and!; [done|done| |].
    + exact (bucketOk_same P (mkBucket (entries b1) rs (bips b1)) b2 R1 R2 R4 Hb1).
    + intros k. rewrite (tracked_same (mkBucket (entries b1) rs (bips b1)) b2 R1 R2). unfold tracked at 2 4. cbn [entries replacements].
      specialize (Hw k). change (option_list (Some x)) with [x] in Hw. rewrite weight_cons_unit, weight_nil in Hw. specialize (A6 k). specialize (R5 k). lia.
  - eexists _, _. split_and!; [done|done|done|]. intros k. unfold tracked at 2 4. cbn [entries replacements bips].
    specialize (Hw k). change (option_list None) with (@nil node) in Hw. rewrite weight_nil in Hw. specialize (A6 k). lia.
Qed.

(** An entry goes and its address is taken off the sets. *)
Lemma removeEntry_ok P tips b es rs x ip :
  ipsOk 10 tips -> bucketOk P b -> tracked b ≡ₚ x :: es ++ rs -> (length es <= bucketSize)%nat -> (length rs <= maxReplacements)%nat ->
  let '(tips', b') := removeIP tips (mkBucket es rs (bips b)) ip in
  ipsOk 10 tips' /\ bucketOk P b' /\ (nip x = ip -> keeps tips b tips' b').
Proof.
  intros Ht [B1 B2 B3 B4] Hp Hl1 Hl2. pose proof (removeIP_spec tips (mkBucket es rs (bips b)) ip Ht B4) as Hr.
  assert (bucketOk P (mkBucket es rs (bips b))) as Hb'.
  { split; cbn; [done|done| |done]. eapply nodesOk_sub; [|exact B3]. unfold tracked at 1. cbn. rewrite Hp. by apply submseteq_cons. }
  destruct (removeIP _ _ _) as [tips' b']. destruct Hr as (R1 & R2 & R3 & R4 & R5). split_and!; [done|by eapply bucketOk_same|].
  intros <- k. rewrite (tracked_same _ _ R1 R2), (weight_perm k _ _ Hp), weight_cons_unit. unfold tracked. cbn [entries replacements bips] in *.
  specialize (R5 k). pose proof (count_bound tips k (ips_set _ _ Ht)). lia.
Qed.

Lemma deleteInBucket_ok P tips b n :
  ipsOk 10 tips -> bucketOk P b -> let '(tips', b') := deleteInBucket tips b n in
  ipsOk 10 tips' /\ bucketOk P b' /\ ((exists x, x ∈ entries b /\ nid x = nid n /\ nip x = nip n) -> keeps tips b tips' b').
Proof.
  intros Ht Hb. pose proof Hb as [B1 B2 B3 B4]. unfold deleteInBucket.
  pose proof (bucketOk_NoDup P b Hb) as (Hnd & _ & _).
  destruct (decide (nid n ∈ nid <$> entries b)) as [Hin|Hin].
  - apply list_elem_of_fmap in Hin as (x & E & Hx). pose proof (proj2 (deleteNode_spec (entries b) n) x Hx Hnd (eq_sym E)) as Hp.
    assert (tracked b ≡ₚ x :: deleteNode (entries b) n ++ replacements b) as Hp' by (unfold tracked; by rewrite Hp at 1).
    pose proof (removeEntry_ok P tips b _ _ x (nip n) Ht Hb Hp') as Hr. destruct (removeIP _ _ _) as [tips' b'].
    destruct Hr as (? & ? & Hk); [pose proof (length_deleteNode (entries b) n); lia|done|]. split_and!; [done|done|].
    intros (y & Hy & Ey & Ei). apply Hk. rewrite <- Ei. f_equal. apply (nid_inj (entries b)); [done..|]. congruence.
  - rewrite (proj1 (deleteNode_spec (entries b) n) Hin).
    pose proof (removeIP_spec tips (mkBucket (entries b) (replacements b) (bips b)) (nip n) Ht B4) as Hr.
    destruct (removeIP _ _ _) as [tips' b']. destruct Hr as (R1 & R2 & R3 & R4 & _). split_and!; [done|by apply (bucketOk_same P b)|].
    intros (y & Hy & Ey & _). destruct Hin. rewrite <- Ey. by apply list_elem_of_fmap_2.
Qed.

(** The node that did not answer is the one in the table. *)
Definition currentLast (b : bucket) (n : node) : Prop :=
  forall x, last (entries b) = Some x -> nid x = nid n -> nip x = nip n.

Lemma replace_ok P tips b n draw :
  ipsOk 10 tips -> bucketOk P b ->
  exists tips' b', replace tips b n draw = Ret (tips', b') /\ ipsOk 10 tips' /\ bucketOk P b' /\ (currentLast b n -> keeps tips b tips' b').
Proof.
  intros Ht Hb. pose proof Hb as [B1 B2 B3 B4]. unfold replace. destruct (last (entries b)) as [x|] eqn:El; [|by exists tips, b; split_and!].
  case_decide as Ei; [|by exists tips, b; split_and!]. pose proof El as Hx%last_Some_elem_of. case_decide as Er.
  - pose proof (deleteInBucket_ok P tips b n Ht Hb) as Hd. destruct (deleteInBucket tips b n) as [tips' b']. destruct Hd as (? & ? & Hk).
    exists tips', b'. split_and!; [done..|]. intros Hc. apply Hk. exists x. split_and!; [done|done|by apply Hc].
  - assert (draw mod length (replacements b) < length (replacements b))%nat as Hlt by (apply Nat.mod_upper_bound; by destruct (replacements b)).
    destruct (lookup_lt_is_Some_2 _ _ Hlt) as [r Hr]. rewrite Hr. apply list_elem_of_lookup_2 in Hr. apply last_Some in El as [es E].
    rewrite E, length_app. cbn [length]. rewrite Nat.add_sub, take_app_length by lia.
    pose proof (bucketOk_NoDup P b Hb) as (_ & Hnd & _).
    assert (tracked b ≡ₚ x :: (es ++ [r]) ++ deleteNode (replacements b) r) as Hp.
    { unfold tracked. rewrite E, (proj2 (deleteNode_spec (replacements b) r) r Hr Hnd eq_refl) at 1.
      rewrite <- !app_assoc. cbn. by rewrite <- Permutation_middle. }
    pose proof (removeEntry_ok P tips b _ _ x (nip n) Ht Hb Hp) as Hd. destruct (removeIP _ _ _) as [tips' b'].
    destruct Hd as (? & ? & Hk); [rewrite E, length_app in B1; rewrite length_app; exact B1|pose proof (length_deleteNode (replacements b) r); lia|].
    exists tips', b'. split_and!; [done..|]. intros Hc. apply Hk. by apply Hc; [rewrite E; apply last_snoc|].
Qed.

(** Equal addresses, in whichever form, count alike. *)
Lemma Equal_same a b : Equal a b = true -> IsLAN a = IsLAN b /\ key24 a = key24 b /\ (b <> [] -> a <> []).
Proof.
  assert (forall a b v, To4 a = Some v -> To4 b = Some v -> IsLAN a = IsLAN b /\ key24 a = key24 b) as H4.
  { intros x y v Hx Hy. unfold IsLAN, IsLoopback, key24, key. by rewrite Hx, Hy. }
  unfold Equal. case_decide; [intros ->%bool_decide_eq_true; done|]. case_decide as H1; [|case_decide as H2; [|done]];
    intros [E1%bool_decide_eq_true E2%bool_decide_eq_true]%andb_prop.
  - destruct (H4 a b a) as [? ?]; [unfold To4; rewrite decide_True by (apply H1); done| |split_and!; [done|done|by intros _ ->; destruct H1]].
    unfold To4. rewrite decide_False by lia. rewrite decide_True by (split; [apply H1|done]). by rewrite E2.
  - destruct (H4 a b b) as [? ?]; [|unfold To4; rewrite decide_True by (apply H2); done|split_and!; [done|done|by intros _ ->; destruct H2]].
    unfold To4. rewrite decide_False by lia. rewrite decide_True by (split; [apply H2|done]). by rewrite E2.
Qed.

Lemma unit_Equal k a b : Equal a b = true -> unit_ k a = unit_ k b.
Proof. intros (E1 & E2 & _)%Equal_same. unfold unit_. by rewrite E1, E2. Qed.

Lemma unit_range k ip : 0 <= unit_ k ip <= 1.
Proof. unfold unit_. case_decide; lia. Qed.

(** An address that was taken off can be put back, and one that did not fit then does not fit afterwards. *)
Lemma addIP_back P tips b old new :
  ipsOk 10 tips -> bucketOk P b -> old <> [] ->
  let '(tips1, b1) := removeIP tips b old in
  let '(tips2, b2, ok) := addIP tips1 b1 new in
  ok = false ->
  let '(tips3, b3, _) := addIP tips2 b2 old in
  ipsOk 10 tips3 /\ bucketOk P b3 /\ entries b3 = entries b /\ replacements b3 = replacements b /\ keeps tips b tips3 b3 /\
  snd (addIP tips3 b3 new) = false.
Proof.
  intros Ht Hb Hold. pose proof (removeIP_spec tips b old Ht (bips_ok _ _ Hb)) as Hr. destruct (removeIP tips b old) as [tips1 b1].
  destruct Hr as (R1 & R2 & R3 & R4 & R5). pose proof (bucketOk_same P b b1 R1 R2 R4 Hb) as Hb1.
  pose proof (addIP_spec tips1 b1 new R3 R4) as Ha. destruct (addIP tips1 b1 new) as [[tips2 b2] ok].
  destruct Ha as (E1 & E2 & A1 & A2 & Eok & A3). intros ->.
  pose proof (addIP_spec tips2 b2 old A1 A2) as Hc. destruct (addIP tips2 b2 old) as [[tips3 b3] ok3].
  destruct Hc as (F1 & F2 & C1 & C2 & Eok3 & C3).
  assert (ok3 = true) as ->.
  { rewrite Eok3, bool_decide_eq_true_2 by done. cbn [andb]. destruct (IsLAN old) eqn:Hlan; [done|]. cbn [orb].
    destruct (A3 (key24 old)) as [-> ->]. destruct (R5 (key24 old)) as [-> ->]. unfold unit_. rewrite decide_True by done.
    pose proof (count_bound tips (key24 old) (ips_set _ _ Ht)) as T. pose proof (count_bound (bips b) (key24 old) (ips_set _ _ (bips_ok _ _ Hb))) as B.
    rewrite (ips_limit _ _ Ht) in T. rewrite (ips_limit _ _ (bips_ok _ _ Hb)) in B. apply andb_true_intro. split; apply Z.ltb_lt; lia. }
  assert (entries b3 = entries b) as Ee by congruence. assert (replacements b3 = replacements b) as Er by congruence.
  split_and!; [done|by apply (bucketOk_same P b)|done|done|..].
  - intros k. rewrite (tracked_same b b3 Ee Er). specialize (R5 k). specialize (A3 k). specialize (C3 k). lia.
  - pose proof (addIP_spec tips3 b3 new C1 C2) as Hd. destruct (addIP tips3 b3 new) as [[tips4 b4] ok4].
    destruct Hd as (_ & _ & _ & _ & -> & _). cbn [snd]. apply eq_sym, andb_false_iff in Eok as [E|[E1' E2']%orb_false_iff]; [by rewrite E|].
    rewrite E1'. cbn [orb]. pose proof (unit_range (key24 new) old). destruct (C3 (key24 new)) as [-> ->]. destruct (A3 (key24 new)) as [-> ->].
    apply andb_false_iff. right. apply andb_false_iff. apply andb_false_iff in E2' as [E2'|E2']; apply Z.ltb_ge in E2'; [left|right]; apply Z.ltb_ge; lia.
Qed.

Lemma bumpInBucket_ok P tips b n :
  ipsOk 10 tips -> bucketOk P b -> P n -> let '(tips', b', ok) := bumpInBucket tips b n in
  ipsOk 10 tips' /\ bucketOk P b' /\ keeps tips b tips' b' /\
  (ok = false -> entries b' = entries b /\ replacements b' = replacements b /\ (nid n ∉ nid <$> entries b \/ snd (addIP tips' b' (nip n)) = false)).
Proof.
  intros Ht Hb HP. unfold bumpInBucket, findEntry. destruct (list_find _ (entries b)) as [[i old]|] eqn:Hf.
  2: { apply list_find_None in Hf. split_and!; try done. intros _. split_and!; [done|done|]. left.
       intros (x & E & Hx)%list_elem_of_fmap. rewrite Forall_forall in Hf. by apply (Hf x Hx). }
  apply list_find_Some in Hf as (Hi & Ei & _). pose proof Hb as [B1 B2 B3 B4].
  assert (entries b ≡ₚ old :: take i (entries b) ++ drop (S i) (entries b)) as Hp.
  { rewrite <- (take_drop_middle _ _ _ Hi) at 1. by rewrite Permutation_middle. }
  assert (old ∈ tracked b) as Hold by (unfold tracked; apply elem_of_app; left; by eapply list_elem_of_lookup_2).
  assert (nip old <> []) as Hne by (destruct B3 as [_ HF]; rewrite Forall_forall in HF; by apply HF).
  assert (forall bs, ipsOk 2 bs -> nip n <> [] ->
    bucketOk P (mkBucket (n :: take i (entries b) ++ drop (S i) (entries b)) (replacements b) bs)) as Hfront.
  { intros bs Hbs Hn. assert (tracked b ≡ₚ old :: (take i (entries b) ++ drop (S i) (entries b)) ++ replacements b) as Ht' by (unfold tracked; by rewrite Hp at 1).
    destruct B3 as [Hnd HF]. rewrite Ht' in Hnd, HF. apply NoDup_cons in Hnd as [Hn1 Hn2]. apply Forall_cons in HF as [_ HF].
    split; cbn [entries replacements bips]; [rewrite Hp in B1; exact B1|done| |done]. unfold tracked. cbn [entries replacements].
    apply nodesOk_cons; [done|done| |done]. rewrite <- Ei. exact Hn1. }
  assert (forall bs k, weight k (tracked (mkBucket (n :: take i (entries b) ++ drop (S i) (entries b)) (replacements b) bs)) =
    weight k (tracked b) - unit_ k (nip old) + unit_ k (nip n)) as Hw.
  { intros bs k. unfold tracked. cbn [entries replacements]. rewrite !weight_app, weight_cons_unit. rewrite (weight_perm k _ _ Hp), weight_cons_unit. lia. }
  destruct (Equal (nip n) (nip old)) eqn:Heq.
  - split_and!; try done; [apply Hfront; [done|by apply Equal_same in Heq as (_ & _ & Heq); apply Heq]|].
    intros k. rewrite Hw, (unit_Equal k _ _ Heq). cbn [bips]. lia.
  - pose proof (removeIP_spec tips b (nip old) Ht B4) as Hr. pose proof (addIP_back P tips b (nip old) (nip n) Ht Hb Hne) as Hback.
    destruct (removeIP tips b (nip old)) as [tips1 b1]. destruct Hr as (R1 & R2 & R3 & R4 & R5).
    pose proof (addIP_spec tips1 b1 (nip n) R3 R4) as Ha. destruct (addIP tips1 b1 (nip n)) as [[tips2 b2] ok].
    destruct Ha as (E1 & E2 & A1 & A2 & Eok & A3). destruct ok.
    + rewrite E1, R1, E2, R2. split_and!; try done.
      * apply Hfront; [done|]. symmetry in Eok. by apply andb_prop in Eok as [?%bool_decide_eq_true _].
      * intros k. rewrite Hw. cbn [bips]. specialize (R5 k). specialize (A3 k). lia.
    + specialize (Hback eq_refl). destruct (addIP tips2 b2 (nip old)) as [[tips3 b3] ok3]. destruct Hback as (? & ? & ? & ? & ? & ?).
      split_and!; try done. intros _. split_and!; [done|done|by right].
Qed.

(** ** The table *)

Section Tables.

(** The objects: a reference has one identifier and one address for good. *)
Variable env : nat -> option (ID * IP).

Definition known (n : node) : Prop := wfID (nid n) /\ env (ref n) = Some (nid n, nip n) /\ (nip n = [] \/ valid (nip n)).

Definition placed (t : table) (i : nat) (n : node) : Prop := known n /\ nid n <> self t /\ bucketIndex t (nid n) = i.

Record shapeOk (t : table) : Prop := {
  self_ok : wfID (self t);
  buckets_len : length (buckets t) = 17%nat;
  tips_ok : ipsOk 10 (ips t);
  buckets_ok i b : buckets t !! i = Some b -> bucketOk (placed t i) b;
  nursery_ok : Forall known (nursery t)
}.

Record coverOk (t : table) : Prop := {
  table_cover k : weight k (buckets t ≫= tracked) <= count (ips t) k;
  bucket_cover i b k : buckets t !! i = Some b -> weight k (tracked b) <= count (bips b) k
}.

Lemma bucketIndex_lt t id : wfID (self t) -> wfID id -> (bucketIndex t id < 17)%nat.
Proof.
  intros Hs Hid. destruct (LogDist_range (self t) id Hs Hid) as [Hr _]. unfold bucketIndex.
  change bucketMinDistance with 239. destruct (Z.leb_spec (LogDist (self t) id) 239); lia.
Qed.

Lemma weight_insert k bs i b b' :
  bs !! i = Some b -> weight k (<[i := b']> bs ≫= tracked) = weight k (bs ≫= tracked) - weight k (tracked b) + weight k (tracked b').
Proof.
  intros Hi. rewrite insert_take_drop by (by eapply lookup_lt_Some). rewrite <- (take_drop_middle bs i b Hi) at 3.
  rewrite !bind_app. cbn [mbind list_bind]. rewrite !weight_app. lia.
Qed.

Lemma onBucket_ok {A} t i (f : DistinctNetSet -> bucket -> go (DistinctNetSet * bucket * A)) (C : bucket -> Prop) :
  shapeOk t -> (i < 17)%nat ->
  (forall tips b, ipsOk 10 tips -> bucketOk (placed t i) b ->
    exists tips' b' a, f tips b = Ret (tips', b', a) /\ ipsOk 10 tips' /\ bucketOk (placed t i) b' /\ (C b -> keeps tips b tips' b')) ->
  exists t' a, onBucket t i f = Ret (t', a) /\ shapeOk t' /\ self t' = self t /\
    ((forall b, buckets t !! i = Some b -> C b) -> coverOk t -> coverOk t').
Proof.
  intros [S1 S2 S3 S4 S5] Hi Hf. unfold onBucket. destruct (lookup_lt_is_Some_2 (buckets t) i) as [b Hb]; [lia|]. rewrite Hb.
  destruct (Hf (ips t) b S3 (S4 i b Hb)) as (tips' & b' & a & -> & H1 & H2 & H3). eexists _, a. split; [done|]. split; [|split; [done|]].
  - split; cbn [self buckets ips nursery setBuckets]; [done|by rewrite length_insert|done| |done].
    intros j c. rewrite list_lookup_insert. case_decide as Hj; [|apply S4]. intros [= <-]. destruct Hj as [-> _]. exact H2.
  - intros HC [V1 V2]. specialize (H3 (HC b eq_refl)). split; cbn [buckets ips setBuckets].
    + intros k. rewrite (weight_insert k _ _ _ _ Hb). specialize (V1 k). specialize (H3 k). lia.
    + intros j c k. rewrite list_lookup_insert. case_decide as Hj; [|apply V2]. intros [= <-].
      specialize (V2 i b k Hb). specialize (H3 k). lia.
Qed.

(** *** Writes to shared nodes *)

Lemma touchIn_same {A} (g : node -> A) r w l : (forall n, g (w n) = g n) -> g <$> touchIn r w l = g <$> l.
Proof. intros Hg. unfold touchIn. rewrite <- list_fmap_compose. apply list_fmap_ext. intros i x _. cbn. case_decide; [apply Hg|done]. Qed.

Lemma touchIn_Forall (Q : node -> Prop) r w l : (forall n, Q n -> Q (w n)) -> Forall Q l -> Forall Q (touchIn r w l).
Proof. intros Hw Hl. unfold touchIn. apply Forall_fmap. eapply Forall_impl; [exact Hl|]. intros x Hx. cbn. case_decide; auto. Qed.

Lemma touchIn_weight k r w l : (forall n, nip (w n) = nip n) -> weight k (touchIn r w l) = weight k l.
Proof.
  intros Hw. induction l as [|x l IH]; [done|]. cbn [touchIn fmap list_fmap]. rewrite !weight_cons_unit. fold (touchIn r w l).
  change (list_fmap _ _ _ l) with (touchIn r w l). rewrite IH. case_decide; [by rewrite Hw|done].
Qed.

Lemma tracked_touch r w b : tracked (touchBucket r w b) = touchIn r w (tracked b).
Proof. unfold tracked, touchIn. cbn. by rewrite fmap_app. Qed.

Definition identityKept (w : node -> node) : Prop := forall n, ref (w n) = ref n /\ nid (w n) = nid n /\ nip (w n) = nip n.

Lemma touch_ok r w t : identityKept w -> shapeOk t -> shapeOk (touch r w t) /\ (coverOk t -> coverOk (touch r w t)).
Proof.
  intros Hw [S1 S2 S3 S4 S5].
  assert (forall n, known n -> known (w n)) as Hk by (intros n (? & ? & ?); destruct (Hw n) as (E1 & E2 & E3); unfold known; by rewrite E1, E2, E3).
  split.
  - split; cbn [self buckets ips nursery touch]; [done|by rewrite length_fmap|done| |by apply touchIn_Forall].
    intros i b. rewrite list_lookup_fmap. destruct (buckets t !! i) as [b0|] eqn:Hb; [|done]. intros [= <-].
    destruct (S4 i b0 Hb) as [B1 B2 [B3 B4] B5]. split; [cbn [entries touchBucket]; unfold touchIn; by rewrite length_fmap|cbn [replacements touchBucket]; unfold touchIn; by rewrite length_fmap| |done].
    rewrite tracked_touch. split; [rewrite touchIn_same by apply Hw; done|]. apply touchIn_Forall; [|done].
    intros n [(H1 & H2 & H3) H4]. destruct (Hw n) as (E1 & E2 & E3). split; [|by rewrite E3]. split; [by apply Hk|].
    cbn [self touch]. rewrite E2. done.
  - intros [V1 V2]. split; cbn [buckets ips touch].
    + intros k. rewrite <- V1. clear -Hw. induction (buckets t) as [|b bs IH]; [done|]. cbn [fmap list_fmap mbind list_bind].
      rewrite !weight_app, tracked_touch, touchIn_weight by apply Hw. change (list_fmap _ _ ?f bs) with (f <$> bs) in *. lia.
    + intros i b k. rewrite list_lookup_fmap. destruct (buckets t !! i) as [b0|] eqn:Hb; [|done]. intros [= <-].
      rewrite tracked_touch, touchIn_weight by apply Hw. exact (V2 i b0 k Hb).
Qed.

End Tables.

Lemma keeps_refl tips b : keeps tips b tips b.
Proof. intros k. lia. Qed.

Lemma keeps_trans tips b tips' b' tips'' b'' : keeps tips b tips' b' -> keeps tips' b' tips'' b'' -> keeps tips b tips'' b''.
Proof. intros H1 H2 k. specialize (H1 k). specialize (H2 k). lia. Qed.

(** A node that is not an entry becomes one, in front or at the end. *)
Lemma newEntry_ok P tips b tips1 b1 n es :
  bucketOk P b -> ipsOk 10 tips1 -> bucketOk P b1 -> entries b1 = entries b -> replacements b1 = replacements b ->
  P n -> nip n <> [] -> nid n ∉ nid <$> entries b -> (length (entries b) < bucketSize)%nat -> es ≡ₚ n :: entries b1 ->
  (forall k, count tips1 k = count tips k + unit_ k (nip n) /\ count (bips b1) k = count (bips b) k + unit_ k (nip n)) ->
  let b' := mkBucket es (deleteNode (replacements b1) n) (bips b1) in bucketOk P b' /\ keeps tips b tips1 b'.
Proof.
  intros Hb Ht1 [B1 B2 B3 B4] E1 E2 HP Hn Hin Hlen Hes Hc. pose proof (bucketOk_NoDup P b Hb) as (_ & Hnd & _). cbn zeta.
  assert (es ++ deleteNode (replacements b1) n ≡ₚ n :: entries b ++ deleteNode (replacements b) n) as Hp by by rewrite Hes, E1, E2.
  split.
  - split; cbn [entries replacements bips]; [rewrite Hes, E1; cbn; lia|pose proof (length_deleteNode (replacements b1) n); lia| |done].
    unfold tracked. cbn [entries replacements]. eapply (nodesOk_sub P (n :: entries b ++ deleteNode (replacements b) n)); [by rewrite Hp|].
    apply nodesOk_cons; [done|done| |].
    + rewrite fmap_app. pose proof (deleteNode_not_in (replacements b) n Hnd). set_solver.
    + apply (nodesOk_sub P (tracked b)); [|by destruct Hb]. unfold tracked. apply submseteq_app; [done|apply deleteNode_sub].
  - intros k. unfold tracked. cbn [entries replacements bips]. rewrite (weight_perm k _ _ Hp), weight_cons_unit, !weight_app.
    assert (weight k (deleteNode (replacements b) n) <= weight k (replacements b)) as Hw.
    { pose proof (deleteNode_sub (replacements b) n) as [l Hl]%submseteq_Permutation. rewrite (weight_perm k _ _ Hl), weight_app.
      pose proof (weight_nonneg k l). lia. }
    specialize (Hc k). lia.
Qed.

Section Operations.
Variable env : nat -> option (ID * IP).

Notation shapeOk := (shapeOk env).
Notation known := (known env).

Lemma withAddedAt_identity now : identityKept (withAddedAt now).
Proof. by intros n. Qed.

Lemma checked_identity : identityKept checked.
Proof. by intros n. Qed.

(** An operation succeeds, keeps the shape of the table, and keeps the counts when [C] holds. *)
Definition succeeds (t : table) (m : go table) (C : Prop) : Prop :=
  exists t', m = Ret t' /\ shapeOk t' /\ self t' = self t /\ (C -> coverOk t -> coverOk t').

Lemma succeeds_same t : shapeOk t -> succeeds t (Ret t) True.
Proof. intros H. by exists t. Qed.

(** An operation on the bucket of a node, followed by a write to the node when it was added. *)
Lemma succeeds_add t n now (f : DistinctNetSet -> bucket -> go (DistinctNetSet * bucket * bool)) :
  shapeOk t -> known n -> nid n <> self t ->
  (forall P tips b, P n -> ipsOk 10 tips -> bucketOk P b ->
    exists tips' b' a, f tips b = Ret (tips', b', a) /\ ipsOk 10 tips' /\ bucketOk P b' /\ keeps tips b tips' b') ->
  succeeds t (let! (t, added) := onBucket t (bucketIndex t (nid n)) f in
              Ret (if added : bool then touch (ref n) (withAddedAt now) t else t)) True.
Proof.
  intros Ht Hn Hne Hf.
  destruct (onBucket_ok env t (bucketIndex t (nid n)) f (fun _ => True) Ht) as (t' & a & -> & Ht' & Es & Hc).
  - apply bucketIndex_lt; [apply Ht|apply Hn].
  - intros tips b H1 H2. destruct (Hf (placed env t (bucketIndex t (nid n))) tips b) as (tips' & b' & a & -> & ? & ? & ?);
      [by split_and!; [..|done]|done|done|]. eexists _, _, _. by split_and!.
  - eexists. split; [done|]. destruct a; [|by split_and!; [done|done|intros _; apply Hc]].
    destruct (touch_ok env (ref n) (withAddedAt now) t' (withAddedAt_identity now) Ht') as [H1 H2].
    split_and!; [done|done|]. intros _ Hcov. apply H2, Hc; done.
Qed.

Lemma addSeenNode_ok t n now : shapeOk t -> known n -> succeeds t (addSeenNode t n now) True.
Proof.
  intros Ht Hn. unfold addSeenNode. case_decide as Hs; [by apply succeeds_same|]. apply succeeds_add; [done..|].
  intros P tips b HP Hips Hb. rewrite contains_elem. case_bool_decide as Hin; [eexists _, _, _; split_and!; [done..|apply keeps_refl]|].
  case_decide as Hfull.
  - destruct (addReplacement_ok P tips b n Hips Hb HP) as (tips' & b' & -> & ? & ? & ?); [by left|]. eexists _, _, _. by split_and!.
  - pose proof (addIP_ok P tips b (nip n) Hips Hb) as Ha. destruct (addIP tips b (nip n)) as [[tips1 b1] ok].
    destruct Ha as (A1 & A2 & A3 & A4 & A5 & A6 & A7). destruct ok; eexists _, _, _; (split; [done|]); (split; [done|]).
    + apply (newEntry_ok P tips b tips1 b1 n); try done; [by apply A6|lia|by rewrite Permutation_app_comm].
    + split; [done|]. intros k. rewrite A3. specialize (A7 k). lia.
Qed.

Lemma addVerifiedNode_ok t n now : shapeOk t -> known n -> succeeds t (addVerifiedNode t n now) True.
Proof.
  intros Ht Hn. unfold addVerifiedNode. destruct (negb _); [by apply succeeds_same|]. case_decide as Hs; [by apply succeeds_same|].
  apply succeeds_add; [done..|]. intros P tips b HP Hips Hb.
  pose proof (bumpInBucket_ok P tips b n Hips Hb HP) as Hbump. destruct (bumpInBucket tips b n) as [[tips1 b1] ok].
  destruct Hbump as (U1 & U2 & U3 & U4). destruct ok; [eexists _, _, _; by split_and!|]. destruct (U4 eq_refl) as (E1 & E2 & U5). rewrite <- E1 in U5.
  case_decide as Hfull.
  - destruct (addReplacement_ok P tips1 b1 n U1 U2 HP U5) as (tips' & b' & -> & ? & ? & ?).
    eexists _, _, _. split_and!; [done..|]. by eapply keeps_trans.
  - pose proof (addIP_ok P tips1 b1 (nip n) U1 U2) as Ha. destruct (addIP tips1 b1 (nip n)) as [[tips2 b2] ok2].
    destruct Ha as (A1 & A2 & A3 & A4 & A5 & A6 & A7). cbn [snd] in U5. destruct ok2; [|eexists _, _, _; split_and!; [done..|]].
    + destruct U5 as [U5|]; [|done]. destruct (pushNode_ok (entries b2) n bucketSize ltac:(unfold bucketSize; lia)) as (es & r & Ep & Hl & Hp); [rewrite A4; lia|].
      assert (r = None) as -> by (unfold pushNode in Ep; rewrite decide_True in Ep by (rewrite A4; lia); congruence).
      rewrite Ep. cbn in Hp. rewrite app_nil_r in Hp. eexists _, _, _. split; [done|]. split; [done|].
      destruct (newEntry_ok P tips1 b1 tips2 b2 n es) as [H1 H2]; try done; [by apply A6|lia|]. split; [done|]. by eapply keeps_trans.
    + eapply keeps_trans; [exact U3|]. intros k. rewrite A3. specialize (A7 k). lia.
Qed.

Lemma delete_ok t n :
  shapeOk t -> wfID (nid n) ->
  succeeds t (delete_ t n) (exists b x, buckets t !! bucketIndex t (nid n) = Some b /\ x ∈ entries b /\ nid x = nid n /\ nip x = nip n).
Proof.
  intros Ht Hn. unfold delete_.
  destruct (onBucket_ok env t (bucketIndex t (nid n)) (fun tips b => let '(tips, b) := deleteInBucket tips b n in Ret (tips, b, tt))
    (fun b => exists x, x ∈ entries b /\ nid x = nid n /\ nip x = nip n) Ht) as (t' & a & -> & Ht' & Es & Hc).
  - apply bucketIndex_lt; [apply Ht|done].
  - intros tips b H1 H2. pose proof (deleteInBucket_ok _ tips b n H1 H2) as Hd. destruct (deleteInBucket tips b n) as [tips' b'].
    destruct Hd as (? & ? & ?). eexists _, _, _. by split_and!.
  - eexists. split_and!; [done|done|done|]. intros (b & x & Hb & Hx). apply Hc. intros b' Hb'. simplify_eq. by exists x.
Qed.

Lemma deref_known t n : shapeOk t -> known n -> known (deref t n) /\ nid (deref t n) = nid n /\ nip (deref t n) = nip n.
Proof.
  intros Ht Hn. unfold deref. destruct (list_find _ _) as [[i x]|] eqn:Hf; [|done]. apply list_find_Some in Hf as (Hi & E & _).
  apply list_elem_of_lookup_2 in Hi. cbn [fmap option_fmap option_map snd default]. assert (known x) as Hx.
  { apply elem_of_app in Hi as [(b & Hx & [j Hb]%list_elem_of_lookup_1)%list_elem_of_bind|Hi].
    - destruct (buckets_ok env t Ht j b Hb) as [_ _ [_ HF] _]. rewrite Forall_forall in HF. by destruct (HF x Hx) as [[? _] _].
    - destruct Ht as [_ _ _ _ HF]. rewrite Forall_forall in HF. by apply HF. }
  destruct Hx as (Hx1 & Hx2 & Hx3), Hn as (Hn1 & Hn2 & Hn3). rewrite E, Hn2 in Hx2. injection Hx2 as E1 E2. unfold id. rewrite <- E1, <- E2.
  split_and!; [|done|done]. unfold known. by rewrite E, <- E1, <- E2.
Qed.

Lemma doRevalidate_ok t n bi pong enr draw :
  shapeOk t -> known n -> nid n <> self t -> bucketIndex t (nid n) = bi -> 0 <= seq n ->
  (forall x, enr = Some x -> known x /\ nid x = nid n) ->
  succeeds t (doRevalidate t n bi pong enr draw) (pong = None -> forall b, buckets t !! bi = Some b -> currentLast b n).
Proof.
  intros Ht Hn Hne Hbi Hseq Henr. assert (bi < 17)%nat as Hlt by (subst bi; apply bucketIndex_lt; [apply Ht|apply Hn]).
  unfold doRevalidate. destruct pong as [s|].
  - assert (forall t1 x, shapeOk t1 -> self t1 = self t -> (coverOk t -> coverOk t1) -> known x -> nid x = nid n ->
      succeeds t (let! (t, _) := onBucket t1 bi (fun tips b => Ret (bumpInBucket tips b x)) in Ret t)
        (Some s = None -> forall b, buckets t !! bi = Some b -> currentLast b n)) as Hbump.
    { intros t1 x Ht1 Es1 Hc1 Hx Ex.
      destruct (onBucket_ok env t1 bi (fun tips b => Ret (bumpInBucket tips b x)) (fun _ => True) Ht1 Hlt) as (t' & a & -> & Ht' & Es & Hc).
      - intros tips b H1 H2. pose proof (bumpInBucket_ok _ tips b x H1 H2) as Hb. destruct (bumpInBucket tips b x) as [[tips' b'] ok].
        destruct Hb as (? & ? & ? & _); [|eexists _, _, _; by split_and!]. unfold bucketIndex in Hbi. unfold placed, bucketIndex.
        by rewrite Ex, Es1.
      - eexists. split_and!; [done|done|congruence|]. intros _ Hcov. apply Hc; [done|by apply Hc1]. }
    destruct enr as [x|]; [destruct (Henr x eq_refl) as [Hx Ex]; destruct (seq n <? default 0 (Some s))|].
    + apply Hbump; done.
    + destruct (deref_known t n Ht Hn) as (D1 & D2 & _), (touch_ok env (ref n) checked t checked_identity Ht) as [T1 T2]. by apply Hbump.
    + destruct (deref_known t n Ht Hn) as (D1 & D2 & _), (touch_ok env (ref n) checked t checked_identity Ht) as [T1 T2]. by apply Hbump.
  - assert (forall x, match enr with Some y => if seq n <? default 0 None then Some (x y) else None | None => None end = @None node) as ->.
    { intros x. destruct enr; [|done]. cbn. by rewrite (proj2 (Z.ltb_ge _ _)) by lia. }
    destruct (onBucket_ok env t bi (fun tips b => let! (tips, b) := replace tips b (default n None) draw in Ret (tips, b, tt))
      (fun b => currentLast b n) Ht Hlt) as (t' & a & -> & Ht' & Es & Hc).
    + intros tips b H1 H2. destruct (replace_ok _ tips b n draw H1 H2) as (tips' & b' & E & ? & ? & ?). cbn [default]. unfold id. rewrite E.
      eexists _, _, _. by split_and!.
    + eexists. split_and!; [done|done|done|]. intros HC. apply Hc. by apply HC.
Qed.

End Operations.

(** ** Runs of the table *)

Section Runs.
Variable env : nat -> option (ID * IP).

(** What the callers hand in: nodes with their identities, a revalidated node with its bucket, a record of the same node. *)
Definition proper (self_ : ID) (e : event) : Prop :=
  match e with
  | Seen n _ | Verified n _ => known env n
  | Delete n => wfID (nid n)
  | Revalidated n bi pong enr _ =>
      known env n /\ nid n <> self_ /\ bucketIndex (mkTable self_ [] [] (mkNetSet 0 0 ∅) false) (nid n) = bi /\ 0 <= seq n /\
      (forall x, enr = Some x -> known env x /\ nid x = nid n)
  | InitDone => True
  end.

(** The node that is deleted, or did not answer, is in the table with its address. *)
Definition current (t : table) (e : event) : Prop :=
  match e with
  | Delete n => exists b x, buckets t !! bucketIndex t (nid n) = Some b /\ x ∈ entries b /\ nid x = nid n /\ nip x = nip n
  | Revalidated n bi None _ _ => forall b, buckets t !! bi = Some b -> currentLast b n
  | _ => True
  end.

Fixpoint currentRun (t : table) (es : list event) : Prop :=
  match es with
  | [] => True
  | e :: es => current t e /\ forall t', apply t e = Ret t' -> currentRun t' es
  end.

Lemma apply_ok t e : shapeOk env t -> proper (self t) e -> succeeds env t (apply t e) (current t e).
Proof.
  intros Ht He. destruct e as [n now|n now|n|n bi pong enr draw|]; cbn [apply proper current] in *.
  - by apply addSeenNode_ok.
  - by apply addVerifiedNode_ok.
  - by apply delete_ok.
  - destruct He as (H1 & H2 & H3 & H4 & H5). destruct (doRevalidate_ok env t n bi pong enr draw Ht H1 H2 H3 H4 H5) as (t' & E & ? & ? & Hc).
    exists t'. split_and!; [done..|]. intros HC. apply Hc. intros ->. exact HC.
  - eexists. split; [done|]. destruct Ht as [S1 S2 S3 S4 S5]. split_and!; [by split|done|]. intros _ [V1 V2]. by split.
Qed.

Lemma runs_ok t es :
  shapeOk env t -> Forall (proper (self t)) es ->
  exists t', go_foldl apply t es = Ret t' /\ shapeOk env t' /\ (currentRun t es -> coverOk t -> coverOk t').
Proof.
  intros Ht Hes. revert t Ht Hes. induction es as [|e es IH]; intros t Ht Hes; [by exists t|]. apply Forall_cons in Hes as [He Hes].
  destruct (apply_ok t e Ht He) as (t1 & E & Ht1 & Es & Hc). cbn [go_foldl currentRun]. rewrite E.
  destruct (IH t1 Ht1) as (t2 & -> & Ht2 & Hc2); [by rewrite Es|]. exists t2. split_and!; [done|done|].
  intros [C1 C2] Hcov. apply Hc2; [by apply C2|]. by apply Hc.
Qed.

Lemma newTable_ok self_ V boots seeds now :
  wfID self_ -> forallb V boots = true -> Forall (known env) boots -> Forall (known env) seeds ->
  exists t, newTable V self_ boots seeds now = Some (Ret t) /\ shapeOk env t /\ coverOk t /\ self t = self_.
Proof.
  intros Hs HV Hb Hsd. unfold newTable, loadSeedNodes. rewrite HV. set (t0 := mkTable _ _ _ _ _).
  assert (shapeOk env t0 /\ coverOk t0) as [H0 C0].
  { assert (forall i b, buckets t0 !! i = Some b -> b = emptyBucket) as Hi.
    { intros i b Hi. cbn [buckets t0] in Hi. by apply lookup_replicate in Hi as [? _]. }
    assert (forall lim, 0 <= lim < 2 ^ 64 -> ipsOk lim (mkNetSet 24 lim ∅)) as He.
    { intros lim Hl. split; [split; [done|]|done|done]. intros k n. cbn. by rewrite lookup_empty. }
    split; [split; [done|done|by apply (He 10)| |done]|split].
    - intros i b ->%Hi. split; cbn; [lia|lia|split; constructor|by apply (He 2)].
    - intros k. assert (buckets t0 ≫= tracked = []) as -> by reflexivity. by rewrite weight_nil.
    - intros i b k ->%Hi. by rewrite weight_nil. }
  assert (Forall (known env) (seeds ++ boots)) as Hall by by apply Forall_app.
  destruct (go_foldl_inv (fun t => shapeOk env t /\ coverOk t /\ self t = self_) (fun t n => addSeenNode t n now) (seeds ++ boots) t0)
    as (t & E & H1 & H2 & H3); [done| |exists t; split_and!; [f_equal; exact E|done|done|done]].
  intros t n Hn (Ht & Hc & Hst). rewrite Forall_forall in Hall. destruct (addSeenNode_ok env t n now Ht (Hall n Hn)) as (t' & E & ? & ? & Hc').
  exists t'. split_and!; [done|done|by apply Hc'|congruence].
Qed.

(** The nodes that are not on a local network and share the first 24 bits with an address. *)
Definition inSubnet (ip : IP) (n : node) : Prop := IsLAN (nip n) = false /\ SameNet 24 (nip n) ip = true.
#[local] Instance inSubnet_dec ip n : Decision (inSubnet ip n).
Proof. unfold inSubnet. apply _. Defined.

Lemma weight_subnet ip l :
  valid ip -> Forall (fun n => valid (nip n)) l -> Z.of_nat (length (filter (inSubnet ip) l)) = weight (key24 ip) l.
Proof.
  intros Hv Hl. unfold weight. do 2 f_equal. induction Hl as [|n l Hn _ IH]; [done|]. rewrite !filter_cons, IH.
  assert (inSubnet ip n <-> counts (key24 ip) n) as E.
  { unfold inSubnet, counts, key24. rewrite <- (key_SameNet (mkNetSet 24 0 ∅) (nip n) ip Hn Hv) by (cbn; lia). done. }
  destruct (decide (inSubnet ip n)), (decide (counts (key24 ip) n)); tauto.
Qed.

End Runs.

End TableLemmas.

Module QueryLemmas.
Import Distance.

(** ** Binary search *)

Lemma searchLoop_spec fuel f i j n :
  (j - i <= fuel)%nat -> (i <= j)%nat -> (j <= n)%nat ->
  (forall k l, (k <= l < n)%nat -> f k = true -> f l = true) ->
  (forall k, (k < i)%nat -> f k = false) -> (forall k, (j <= k < n)%nat -> f k = true) ->
  let r := searchLoop fuel f i j in
  (r <= n)%nat /\ (forall k, (k < r)%nat -> f k = false) /\ (forall k, (r <= k < n)%nat -> f k = true).
Proof.
  revert i j. induction fuel as [|fuel IH]; intros i j Hf Hij Hj Hmono H1 H2; cbn [searchLoop].
  { assert (i = j) as -> by lia. done. }
  case_decide as Hlt; [|assert (i = j) as -> by lia; done].
  pose proof (Nat.div_mod_eq (i + j) 2) as Hd. pose proof (Nat.mod_upper_bound (i + j) 2 ltac:(lia)) as Hm.
  set (h := ((i + j) / 2)%nat) in *. destruct (f h) eqn:Eh.
  - apply IH; [lia|lia|lia|done|done|]. intros k Hk. apply (Hmono h k); [lia|done].
  - apply IH; [lia|lia|lia|done| |done]. intros k Hk. destruct (f k) eqn:Ek; [|done].
    rewrite (Hmono k h) in Eh; [done|lia|done].
Qed.

Section Target.
Variable target : ID.
Hypothesis target_ok : wfID target.

Definition d (n : node) : Z := dist target (nid n).
Definition nearer (x y : node) : Prop := d x <= d y.
Definition wfNode (n : node) : Prop := wfID (nid n).

Lemma cmp_d x y : wfNode x -> wfNode y -> (0 <? DistCmp target (nid x) (nid y)) = (d y <? d x).
Proof.
  intros [Lx Hx] [Ly Hy]. destruct target_ok as [Lt Ht]. rewrite DistCmp_spec by (done || lia). fold (d x) (d y).
  destruct (Z.compare_spec (d x) (d y)), (Z.ltb_spec (d y) (d x)); done || lia.
Qed.

(** The place of a node in a sorted list. *)
Definition place (l : list node) (n : node) : nat :=
  sortSearch (length l) (fun i => match l !! i with Some x => 0 <? DistCmp target (nid x) (nid n) | None => true end).

Lemma place_spec l n :
  Forall wfNode l -> wfNode n -> StronglySorted nearer l ->
  (place l n <= length l)%nat /\ Forall (fun x => d x <= d n) (take (place l n) l) /\ Forall (fun x => d n < d x) (drop (place l n) l).
Proof.
  intros Hl Hn Hs. unfold place, sortSearch. set (f := fun i => match l !! i with Some x => _ | None => true end).
  assert (forall i x, l !! i = Some x -> f i = (d n <? d x)) as Hf.
  { intros i x Hi. unfold f. rewrite Hi. apply cmp_d; [|done]. by eapply Forall_lookup_1. }
  destruct (searchLoop_spec (length l) f 0 (length l) (length l)) as (H1 & H2 & H3); [lia|lia|lia| |lia|lia|].
  - intros k m Hkm. destruct (lookup_lt_is_Some_2 l k) as [x Hx]; [lia|]. destruct (lookup_lt_is_Some_2 l m) as [y Hy]; [lia|].
    rewrite (Hf _ _ Hx), (Hf _ _ Hy). intros ?%Z.ltb_lt. apply Z.ltb_lt.
    destruct (decide (k = m)) as [->|]; [simplify_eq; lia|].
    assert (d x <= d y) by (eapply (StronglySorted_lookup_lt nearer); [done|exact Hx|exact Hy|lia]). lia.
  - set (r := searchLoop _ _ _ _) in *. split_and!; [done|..]; apply Forall_lookup_2; intros i x Hi.
    + apply lookup_take_Some in Hi as [Hi Hlt]. specialize (H2 i Hlt). rewrite (Hf _ _ Hi) in H2. apply Z.ltb_ge in H2. lia.
    + rewrite lookup_drop in Hi. assert (r + i < length l)%nat by (by eapply lookup_lt_Some).
      specialize (H3 (r + i)%nat ltac:(lia)). rewrite (Hf _ _ Hi) in H3. by apply Z.ltb_lt in H3.
Qed.

Definition insertAt (l : list node) (n : node) : list node := take (place l n) l ++ n :: drop (place l n) l.

Lemma insertAt_perm l n : insertAt l n ≡ₚ n :: l.
Proof. unfold insertAt. by rewrite <- Permutation_middle, take_drop. Qed.

Lemma insertAt_sorted l n : Forall wfNode l -> wfNode n -> StronglySorted nearer l -> StronglySorted nearer (insertAt l n).
Proof.
  intros Hl Hn Hs. destruct (place_spec l n Hl Hn Hs) as (_ & H1 & H2). unfold insertAt.
  rewrite <- (take_drop (place l n) l) in Hs. apply StronglySorted_app in Hs as (Hx & Hs1 & Hs2).
  apply StronglySorted_app. split_and!; [|done|].
  - intros x y Hxin [->|Hy]%elem_of_cons; [rewrite Forall_forall in H1; by apply H1|by apply Hx].
  - constructor; [done|]. eapply Forall_impl; [exact H2|]. intros y Hy. cbv beta in Hy. unfold nearer. lia.
Qed.

Lemma push_insertAt l n max :
  Forall wfNode l -> wfNode n -> StronglySorted nearer l -> (length l <= max)%nat -> push target l n max = take max (insertAt l n).
Proof.
  intros Hl Hn Hs Hmax. destruct (place_spec l n Hl Hn Hs) as (Hp & _ & _). unfold push. fold (place l n). unfold insertAt.
  set (ix := place l n) in *. destruct (decide (length l < max)%nat) as [Hlt|Hge].
  - rewrite length_app. cbn [length]. rewrite decide_False by lia. rewrite take_app_le by lia. rewrite drop_app_le by lia.
    rewrite (take_ge (take ix l ++ n :: drop ix l)) by (rewrite length_app, length_take; cbn [length]; rewrite length_drop; lia).
    f_equal. f_equal. rewrite take_app_le by (rewrite length_drop; lia). rewrite take_ge by (rewrite length_drop; lia). done.
  - assert (length l = max) as Em by lia. case_decide as Hix.
    + rewrite Hix, (take_ge l (length l)), (drop_ge l (length l)) by lia. rewrite take_app_le by lia. by rewrite take_ge by lia.
    + rewrite take_app, length_take, Nat.min_l by lia. rewrite (take_ge (take ix l)) by (rewrite length_take; lia).
      f_equal. destruct (max - ix)%nat as [|m] eqn:Em'; [lia|]. cbn [take firstn]. do 2 f_equal. lia.
Qed.

(** [l] is the list of the [max] nearest nodes of [all], sorted by distance. *)
Definition closest (max : nat) (all l : list node) : Prop :=
  StronglySorted nearer l /\ length l = (max `min` length all)%nat /\
  exists rest, l ++ rest ≡ₚ all /\ forall x y, x ∈ l -> y ∈ rest -> nearer x y.

Lemma closest_nil max : closest max [] [].
Proof. split_and!; [constructor|cbn; lia|]. exists []. split; [done|]. by intros x y ?%elem_of_nil. Qed.

Lemma closest_push max all l n :
  Forall wfNode all -> wfNode n -> closest max all l -> closest max (all ++ [n]) (push target l n max).
Proof.
  intros Ha Hn (Hs & Hlen & rest & Hp & Hnear). assert (Forall wfNode l) as Hl by (rewrite <- Hp in Ha; by apply Forall_app in Ha as [? _]).
  rewrite push_insertAt by (done || lia). pose proof (insertAt_sorted l n Hl Hn Hs) as Hs'. pose proof (insertAt_perm l n) as Hp'.
  assert (length (insertAt l n) = S (length l)) as Hlen' by by rewrite Hp'.
  rewrite <- (take_drop max (insertAt l n)) in Hs'. apply StronglySorted_app in Hs' as (Hx & Hs1 & _).
  split_and!; [done|rewrite length_take, length_app; cbn; lia|]. exists (drop max (insertAt l n) ++ rest). split.
  { rewrite app_assoc, take_drop, Hp'. cbn. rewrite Hp. by rewrite Permutation_app_comm. }
  assert (forall x, x ∈ take max (insertAt l n) -> x ∈ n :: l) as Hin by (intros x ?; rewrite <- Hp'; by eapply subseteq_take).
  intros x y Hxin [Hy|Hy]%elem_of_app; [by apply Hx|].
  assert (length l = max) as El.
  { assert (length (l ++ rest) = length all) as E by by rewrite Hp. rewrite length_app in E. destruct rest; [by apply elem_of_nil in Hy|]. cbn in E. lia. }
  destruct (place_spec l n Hl Hn Hs) as (Hpl & H1 & H2). destruct (decide (place l n = max)) as [Em|Em].
  - apply Hnear; [|done]. unfold insertAt in Hxin. rewrite Em, take_app_le, take_take, Nat.min_id in Hxin by (rewrite length_take; lia). by eapply subseteq_take.
  - specialize (Hin x Hxin). apply elem_of_cons in Hin as [->|Hin]; [|by apply Hnear].
    destruct (drop (place l n) l) as [|z zs] eqn:Ed; [apply (f_equal length) in Ed; rewrite length_drop in Ed; cbn in Ed; lia|].
    apply Forall_cons in H2 as [Hz _]. assert (z ∈ l) as Hzl by (rewrite <- (take_drop (place l n) l), Ed; set_solver).
    specialize (Hnear z y Hzl Hy). unfold nearer in *. lia.
Qed.

Lemma closest_foldl max all l ns :
  Forall wfNode all -> Forall wfNode ns -> closest max all l ->
  closest max (all ++ ns) (foldl (fun l n => push target l n max) l ns).
Proof.
  intros Ha Hns. revert all l Ha. induction Hns as [|n ns Hn Hns IH]; intros all l Ha Hc; cbn [foldl]; [by rewrite app_nil_r|].
  rewrite (cons_middle n all ns), app_assoc. apply IH; [by apply Forall_app; split; [|constructor]|]. by apply closest_push.
Qed.

Lemma foldl_filter {A B} (f : A -> B -> A) (q : B -> bool) a l :
  foldl (fun a x => if q x then f a x else a) a l = foldl f a (filter (fun x => q x) l).
Proof.
  revert a. induction l as [|x l IH]; intros a; [done|]. cbn [foldl]. rewrite filter_cons, IH.
  destruct (q x) eqn:E; [rewrite decide_True by done|rewrite decide_False by auto]; done.
Qed.

End Target.

End QueryLemmas.
