(* ===== verification/NodeTableRuns.v ===== *)
(** * What the node table and its searches guarantee (NodeTable.v)

    The theorems on runs of the table, on [findnodeByID] and on the iterative search, and runs in which the accounting of
    addresses and the shared bootstrap nodes go wrong. *)

From stdpp Require Import base tactics list gmap fin_maps sorting.
From Stdlib Require Import ZArith Lia.
From S2P Require Import Prelude Bytes Netutil NodeTable NodeTableProps.

Open Scope Z_scope.
Open Scope go_scope.

Import Netutil NetutilLemmas Enode Table Distance TableLemmas QueryLemmas.

(** ** Searches *)

Module SearchLemmas.
Import Lookup.

(** The nodes of a list that are new, once each. *)
Definition collect (all : list node) (n : node) : list node := if contains all (nid n) then all else all ++ [n].

(** [all] are the nodes of the replies so far, [ns] those that were asked. *)
Record searchOk (self_ : ID) (it : lookup) (all ns : list node) (replies : nat) : Prop := {
  is_live : live it = true;
  all_distinct : NoDup (nid <$> all);
  all_wf : Forall (fun n => wfID (nid n)) all;
  seen_ok id : id ∈ seen it <-> id ∈ nid <$> all;
  result_ok : closest (target it) bucketSize all (result it);
  asked_distinct : NoDup (self_ :: (nid <$> ns));
  asked_ok id : id ∈ asked it <-> id ∈ self_ :: (nid <$> ns);
  asked_seen n : n ∈ ns -> n ∈ all;
  queries_count : Z.of_nat replies + Z.max (queries it) 0 + (if decide (queries it = -1) then 1 else 0) = 1 + Z.of_nat (length ns);
  queries_ok : -1 <= queries it <= alpha
}.

Lemma takeNode_ok self_ it all ns n k :
  wfID (target it) -> wfID (nid n) -> searchOk self_ it all ns k -> searchOk self_ (takeNode it n) (collect all n) ns k.
Proof.
  intros Ht Hn [H0 H1 H2 H3 H4 H5 H6 H7 H8 H9]. unfold takeNode, collect. rewrite contains_elem.
  destruct (decide (nid n ∈ seen it)) as [Hs|Hs]; [rewrite bool_decide_eq_true_2 by (by rewrite <- H3); by split|].
  assert (nid n ∉ nid <$> all) as Hna by by rewrite <- H3. rewrite bool_decide_eq_false_2 by done.
  split; cbn [seen asked result queries target live]; rewrite ?fmap_app; try done.
  - apply NoDup_app. split_and!; [done|set_solver|apply NoDup_singleton].
  - apply Forall_app. split; [done|by apply Forall_singleton].
  - intros id. rewrite elem_of_union, H3, elem_of_app. set_solver.
  - by apply closest_push.
  - intros m Hm. apply elem_of_app. left. by apply H7.
Qed.

Lemma takeNode_target it n : target (takeNode it n) = target it.
Proof. unfold takeNode. by case_decide. Qed.

Lemma receive_ok self_ it all ns k nodes :
  wfID (target it) -> Forall (fun n => wfID (nid n)) nodes -> 0 < queries it -> searchOk self_ it all ns k ->
  searchOk self_ (receive it nodes) (foldl collect all nodes) ns (S k) /\ target (receive it nodes) = target it.
Proof.
  intros Ht Hns Hq [H0 H1 H2 H3 H4 H5 H6 H7 H8 H9]. pose (it0 := mkLookup (target it) (asked it) (seen it) (result it) [] (queries it) (live it)).
  change (receive it nodes) with (let it := foldl takeNode it0 nodes in
    mkLookup (target it) (asked it) (seen it) (result it) (replyBuffer it) (queries it - 1) (live it)). cbn zeta.
  assert (searchOk self_ it0 all ns k) as Hok by (split; cbn [it0 seen asked result queries target live]; assumption). assert (target it0 = target it) as Et by done. assert (queries it0 = queries it) as Eq by done.
  clearbody it0. assert (searchOk self_ (foldl takeNode it0 nodes) (foldl collect all nodes) ns k /\ target (foldl takeNode it0 nodes) = target it /\
    queries (foldl takeNode it0 nodes) = queries it) as (Hf & Ef & Eqf).
  { clear -Ht Hns Hok Et Eq. revert it0 all Hok Et Eq. induction Hns as [|n nodes Hn _ IH]; intros it0 all Hok Et Eq; [done|]. cbn [foldl].
    apply IH; [apply takeNode_ok; [by rewrite Et|done|done]|by rewrite takeNode_target|]. unfold takeNode. by case_decide. }
  destruct Hf as [F0 F1 F2 F3 F4 F5 F6 F7 F8 F9]. rewrite Eqf in *. split; [|done].
  split; cbn [seen asked result queries target live]; try done; [|lia]. rewrite decide_False in F8 by lia. rewrite <- F8. rewrite decide_False by lia. lia.
Qed.

Lemma askLoop_ok self_ it all ns k l :
  0 <= queries it -> (forall n, n ∈ l -> n ∈ all) -> searchOk self_ it all ns k ->
  let it' := fst (askLoop it l) in
  searchOk self_ it' all (ns ++ snd (askLoop it l)) k /\ target it' = target it /\ result it' = result it /\ queries it <= queries it' /\ asked it ⊆ asked it' /\
  (queries it' < alpha -> forall n, n ∈ l -> nid n ∈ asked it').
Proof.
  revert it ns. induction l as [|n l IH]; intros it ns Hq Hl Hok; cbn [askLoop].
  { cbn [fst snd]. rewrite app_nil_r. split_and!; try done. intros _ n ?%elem_of_nil. done. }
  destruct (Z.ltb_spec (queries it) alpha) as [Ha|Ha]; [|cbn [fst snd]; rewrite app_nil_r; split_and!; try done; lia].
  assert (forall m, m ∈ l -> m ∈ all) as Hl' by (intros m Hm; apply Hl; by right).
  case_decide as Hn.
  - destruct (IH it ns Hq Hl' Hok) as (I1 & I2 & I3 & I4 & I5 & I6). split_and!; try done.
    intros Hlt m [->|Hm]%elem_of_cons; [by apply I5|by apply I6].
  - set (it1 := mkLookup _ _ _ _ _ _ _). assert (searchOk self_ it1 all (ns ++ [n]) k) as Hok1.
    { destruct Hok as [H0 H1 H2 H3 H4 H5 H6 H7 H8 H9]. rewrite H6 in Hn. split; cbn [it1 seen asked result queries target live]; rewrite ?fmap_app; try done; [| | | |lia].
      - change (self_ :: ((nid <$> ns) ++ (nid <$> [n]))) with ((self_ :: (nid <$> ns)) ++ [nid n]). apply NoDup_app. split_and!; [done|set_solver|apply NoDup_singleton].
      - intros id. rewrite elem_of_union, H6. set_solver.
      - intros m [Hm|Hm%list_elem_of_singleton]%elem_of_app; [by apply H7|subst m; apply Hl; by left].
      - rewrite length_app. cbn [length]. rewrite decide_False in H8 by lia. rewrite decide_False by lia. lia. }
    destruct (IH it1 (ns ++ [n]) ltac:(cbn; lia) Hl' Hok1) as (I1 & I2 & I3 & I4 & I5 & I6). destruct (askLoop it1 l) as [it2 ns2]. cbn [fst snd] in *.
    rewrite <- app_assoc in I1. cbn [it1 queries asked app] in I1, I4, I5. split_and!; try done; [lia|set_solver|].
    intros Hlt m [->|Hm]%elem_of_cons; [set_solver|by apply I6].
Qed.

Lemma startQueries_ok self_ t it all ns k :
  searchOk self_ it all ns k ->
  let '(it', s, more) := startQueries t it in
  searchOk self_ it' all (ns ++ askedBy s) k /\ target it' = target it /\ 0 <= queries it' /\ more = (0 <? queries it') /\ result it' = result it /\
  (more = false -> askedBy s = [] /\ forall n, n ∈ result it' -> nid n ∈ asked it').
Proof.
  intros Hok. unfold startQueries. rewrite (is_live _ _ _ _ _ Hok). cbn [negb]. destruct (Z.eqb_spec (queries it) (-1)) as [E|E].
  - cbn [askedBy]. rewrite app_nil_r. split_and!; try done. destruct Hok as [H0 H1 H2 H3 H4 H5 H6 H7 H8 H9]. split; cbn [seen asked result queries target live]; try done.
    rewrite decide_True in H8 by done. rewrite decide_False by done. lia.
  - assert (0 <= queries it) as Hq by (destruct Hok; lia). destruct (askLoop_ok self_ it all ns k (result it) Hq) as (A1 & A2 & A3 & A4 & A5 & A6); [|done|].
    + intros n Hn. destruct (result_ok _ _ _ _ _ Hok) as (_ & _ & rest & Hp & _). rewrite <- Hp. apply elem_of_app. by left.
    + destruct (askLoop it (result it)) as [it' ns'] eqn:Ea. cbn [fst snd askedBy] in *. split_and!; try done; [lia|]. intros ?%Z.ltb_ge. assert (queries it' = 0) as E0 by lia. split.
      * pose proof (queries_count _ _ _ _ _ Hok) as C. pose proof (queries_count _ _ _ _ _ A1) as C'. rewrite length_app in C'. rewrite decide_False in C by lia. rewrite decide_False in C' by lia. apply nil_length_inv. lia.
      * rewrite A3. apply A6. unfold alpha. lia.
Qed.

(** The replies among the events. *)
Definition repliesOf (es : list lookupEvent) : list (list node) := omap (fun e => match e with Reply r => Some r | Cancel => None end) es.

(** A search that was not cancelled keeps the invariant; a cancelled one had it, but for the queries under way, and has ended. *)
Definition cancelled (self_ : ID) (it : lookup) (all ns : list node) (replies : nat) : Prop :=
  live it = false /\ queries it = 0 /\ exists it0, searchOk self_ it0 all ns replies /\ target it0 = target it /\ result it0 = result it.

Lemma run_dead t it es r : live it = false -> run t it es = Some r -> es = [] /\ r = (it, []).
Proof. destruct es; cbn [run]; [by intros _ [= <-]|]. unfold startQueries. by intros ->. Qed.

Lemma run_ok self_ t it all ns k es it' ns' :
  wfID (target it) -> Forall (Forall (fun n => wfID (nid n))) (repliesOf es) -> searchOk self_ it all ns k -> run t it es = Some (it', ns') ->
  let all' := foldl collect all (concat (repliesOf es)) in
  target it' = target it /\
  if decide (Cancel ∈ es) then cancelled self_ it' all' (ns ++ ns') (k + length (repliesOf es)) else searchOk self_ it' all' (ns ++ ns') (k + length (repliesOf es)).
Proof.
  revert it all ns k ns'. induction es as [|e es IH]; intros it all ns k ns' Ht Hr Hok; cbn [run].
  { intros [= <- <-]. cbn zeta. rewrite decide_False by apply not_elem_of_nil. cbn. by rewrite Nat.add_0_r, app_nil_r. }
  pose proof (startQueries_ok self_ t it all ns k Hok) as Hs. destruct (startQueries t it) as [[it1 s] more].
  destruct Hs as (S1 & S2 & _ & -> & S4 & _). destruct (Z.ltb_spec 0 (queries it1)) as [Hq|]; [|done]. cbn [andb]. destruct (possible s e); [|done].
  destruct (run t (await it1 e) es) as [[it2 ns2]|] eqn:Hrun; [|done]. intros [= <- <-]. rewrite app_assoc. destruct e as [r|].
  - cbn [repliesOf omap list_omap concat] in *. fold (repliesOf es) in *. apply Forall_cons in Hr as [Hr1 Hr]. cbn [await] in Hrun.
    destruct (receive_ok self_ it1 all (ns ++ askedBy s) k r) as [R1 R2]; [by rewrite S2|done|done|done|].
    destruct (IH (receive it1 r) (foldl collect all r) (ns ++ askedBy s) (S k) ns2) as [I1 I2]; [congruence|done|done|done|].
    cbn zeta in *. rewrite foldl_app. cbn [length]. replace (k + S (length (repliesOf es)))%nat with (S k + length (repliesOf es))%nat by lia. split; [congruence|].
    destruct (decide (Cancel ∈ es)); [rewrite decide_True by (by right)|rewrite decide_False by (by intros [?|?]%elem_of_cons)]; exact I2.
  - cbn [await] in Hrun. apply run_dead in Hrun as [-> [= -> ->]]; [|done]. cbn zeta. rewrite decide_True by (by left). cbn [repliesOf omap list_omap concat foldl length]. rewrite Nat.add_0_r, app_nil_r.
    split; [done|]. unfold shutdown. cbn [target]. split_and!; [done|cbn [queries]; by rewrite (proj2 (Z.ltb_lt _ _))|]. by exists it1.
Qed.

Lemma new_search self_ target_ : searchOk self_ (newLookup self_ target_) [] [] 0.
Proof.
  split; cbn [newLookup seen asked result queries target live fmap list_fmap]; try done.
  - constructor.
  - intros id. set_solver.
  - apply closest_nil.
  - apply NoDup_singleton.
  - intros id. by rewrite elem_of_singleton, list_elem_of_singleton.
Qed.

End SearchLemmas.

(** ** Main properties *)

Import Lookup SearchLemmas.

#[local] Instance inSubnet_decision ip n : Decision (inSubnet ip n).
Proof. unfold inSubnet. apply _. Defined.

(** C36: The node table keeps its shape whatever happens to it: starting from its bootstrap and seed nodes, no sequence of seen, verified, deleted
    and revalidated nodes panics, every bucket has at most 16 entries and 10 replacements, no node is twice in a bucket, every
    node is in the bucket of its distance and has an address, and the own node is nowhere in the table. *)
Theorem node_table_shape env V self_ boots seeds now es :
  wfID self_ -> forallb V boots = true -> Forall (known env) (boots ++ seeds) -> Forall (proper env self_) es ->
  exists t0 t, newTable V self_ boots seeds now = Some (Ret t0) /\ go_foldl apply t0 es = Ret t /\ shapeOk env t.
Proof.
  intros Hs HV [Hb Hsd]%Forall_app He. destruct (newTable_ok env self_ V boots seeds now Hs HV Hb Hsd) as (t0 & E & H0 & _ & Es).
  destruct (runs_ok env t0 es H0) as (t & E' & Ht & _); [by rewrite Es|]. by exists t0, t.
Qed.

(** The limits on addresses hold as long as only nodes that are in the table, with the address they have there, are deleted
    from it: of the nodes and replacements that share the first 24 bits of an address outside of local networks, a bucket has at most
    two and the table at most ten. *)
Theorem address_limits_hold env V self_ boots seeds now es ip :
  wfID self_ -> forallb V boots = true -> Forall (known env) (boots ++ seeds) -> Forall (proper env self_) es -> valid ip ->
  exists t0 t, newTable V self_ boots seeds now = Some (Ret t0) /\ go_foldl apply t0 es = Ret t /\
    (currentRun t0 es ->
     Z.of_nat (length (filter (inSubnet ip) (buckets t ≫= tracked))) <= 10 /\
     forall i b, buckets t !! i = Some b -> Z.of_nat (length (filter (inSubnet ip) (tracked b))) <= 2).
Proof.
  intros Hs HV [Hb Hsd]%Forall_app He Hip. destruct (newTable_ok env self_ V boots seeds now Hs HV Hb Hsd) as (t0 & E & H0 & C0 & Es).
  destruct (runs_ok env t0 es H0) as (t & E' & Ht & Hc); [by rewrite Es|]. exists t0, t. split_and!; [done|done|]. intros Hcur.
  destruct (Hc Hcur C0) as [V1 V2].
  assert (forall i b, buckets t !! i = Some b -> Forall (fun n => valid (nip n)) (tracked b)) as Hval.
  { intros i b Hi. destruct (buckets_ok env t Ht i b Hi) as [_ _ [_ HF] _]. eapply Forall_impl; [exact HF|].
    intros n [((_ & _ & [?|?]) & _) ?]; done. }
  split.
  - rewrite weight_subnet; [|done|].
    + pose proof (count_bound (ips t) (key24 ip) (ips_set _ _ (tips_ok env t Ht))) as Hcb. rewrite (ips_limit _ _ (tips_ok env t Ht)) in Hcb.
      specialize (V1 (key24 ip)). lia.
    + apply Forall_forall. intros n (b & Hn & [i Hi]%list_elem_of_lookup_1)%list_elem_of_bind.
      specialize (Hval i b Hi). rewrite Forall_forall in Hval. by apply Hval.
  - intros i b Hi. rewrite weight_subnet; [|done|by eapply Hval]. pose proof (bips_ok _ _ (buckets_ok env t Ht i b Hi)) as Hbi.
    pose proof (count_bound (bips b) (key24 ip) (ips_set _ _ Hbi)) as Hcb. rewrite (ips_limit _ _ Hbi) in Hcb. specialize (V2 i b (key24 ip) Hi). lia.
Qed.

(** [findnodeByID] returns the nodes of the table that are nearest to the target in the XOR metric, as many as asked for or all of
    them, sorted by distance; when live nodes are preferred and there is one, it chooses among the live nodes only. *)
Theorem findnode_returns_closest env t target nresults preferLive :
  shapeOk env t -> wfID target ->
  let live := filter (fun n => 0 < livenessChecks n) (allEntries t) in
  closest target nresults (if preferLive && bool_decide (live <> []) then live else allEntries t)
    (findnodeByID t target nresults preferLive).
Proof.
  intros Ht Htg live. assert (Forall (fun n => wfID (nid n)) (allEntries t)) as Hwf.
  { apply Forall_forall. intros n (b & Hn & [i Hi]%list_elem_of_lookup_1)%list_elem_of_bind.
    destruct (buckets_ok env t Ht i b Hi) as [_ _ [_ HF] _]. rewrite Forall_forall in HF.
    destruct (HF n) as [((? & _) & _) _]; [apply elem_of_app; by left|done]. }
  assert (Forall (fun n => wfID (nid n)) live) as Hlive.
  { apply Forall_forall. intros n [_ Hn]%list_elem_of_filter. rewrite Forall_forall in Hwf. by apply Hwf. }
  pose proof (closest_foldl target Htg nresults [] [] (allEntries t) ltac:(constructor) Hwf (closest_nil target nresults)) as H1.
  pose proof (closest_foldl target Htg nresults [] [] live ltac:(constructor) Hlive (closest_nil target nresults)) as H2.
  unfold findnodeByID. destruct preferLive; cbn [andb]; [|exact H1].
  rewrite (foldl_filter (fun l n => push target l n nresults) (fun n => 0 <? livenessChecks n)).
  assert (filter (fun x => 0 <? livenessChecks x) (allEntries t) = live) as ->.
  { apply list_filter_iff. intros x. rewrite <- Z.ltb_lt. by rewrite Is_true_true. }
  cbn [app] in H1, H2. destruct (decide (live = [])) as [El|El].
  - rewrite (bool_decide_eq_false_2 (live <> [])) by auto. rewrite El. cbn [foldl]. by rewrite bool_decide_eq_false_2 by auto.
  - rewrite (bool_decide_eq_true_2 (live <> [])) by done. case_bool_decide as E2; [exact H2|].
    assert (nresults = 0%nat) as ->.
    { destruct H2 as (_ & Hl & _). rewrite E2 in Hl. destruct live; [done|]. cbn in Hl. lia. }
    destruct H1 as (_ & Hl & _). apply nil_length_inv in Hl. rewrite Hl. split_and!; [constructor|done|].
    exists live. split; [done|]. by intros x y ?%elem_of_nil.
Qed.

(** C37: A search for nodes near a target, with its first reply from the table, the others in any order, and possibly cancelled. It never has more
    than three queries under way; it asks nobody twice, never the own node, and only nodes that a reply contained; it has received at most one reply more than it has asked nodes. Its result are always
    the 16 nodes nearest to the target of all that the replies contained. When it ends by itself, all of these, the own node apart, have been asked and no query is under way. Once it is cancelled it has ended
    and asks nobody any more. *)
Theorem search_ends_with_closest t self_ target_ events it ns :
  wfID target_ -> Forall (Forall (fun n => wfID (nid n))) (repliesOf events) -> run t (newLookup self_ target_) events = Some (it, ns) ->
  let all := foldl collect [] (concat (repliesOf events)) in
  queries it <= alpha /\ NoDup (nid <$> ns) /\ self_ ∉ nid <$> ns /\ (forall n, n ∈ ns -> n ∈ all) /\ (length (repliesOf events) <= 1 + length ns)%nat /\
  closest target_ bucketSize all (result it) /\
  let '(it', s, more) := startQueries t it in
  result it' = result it /\
  (more = false -> askedBy s = [] /\ queries it' = 0 /\ (Cancel ∉ events -> forall n, n ∈ result it -> nid n = self_ \/ nid n ∈ nid <$> ns)) /\
  (Cancel ∈ events -> more = false).
Proof.
  intros Ht Hr Hrun all. destruct (run_ok self_ t (newLookup self_ target_) [] [] 0 events it ns Ht Hr (new_search _ _) Hrun) as [Et Hok]. fold all in Hok. cbn [app] in Hok.
  assert (exists it0, searchOk self_ it0 all ns (0 + length (repliesOf events)) /\ target it0 = target it /\ result it0 = result it) as (it0 & [H0 H1 H2 H3 H4 H5 H6 H7 H8 H9] & Et0 & Er0).
  { destruct (decide (Cancel ∈ events)); [by destruct Hok as (_ & _ & ?)|by exists it]. }
  apply NoDup_cons in H5 as [Hself Hnd]. rewrite Et0, Et, Er0 in H4. cbn [newLookup target] in H4.
  split; [destruct (decide (Cancel ∈ events)); [destruct Hok as (_ & -> & _); done|apply Hok]|]. split_and!; [done..|case_decide; lia|done|].
  destruct (decide (Cancel ∈ events)) as [Hc|Hc].
  - destruct Hok as (Hl & Hq & _). unfold startQueries. rewrite Hl. cbn [negb askedBy]. by split_and!.
  - pose proof (startQueries_ok self_ t it all ns _ Hok) as Hs. destruct (startQueries t it) as [[it' s] more]. destruct Hs as (S1 & S2 & Hq & S3 & S4 & S5). split_and!; [done| |done].
    intros ->. destruct (S5 eq_refl) as [Ea Hall]. split_and!; [done| |].
    + symmetry in S3. apply Z.ltb_ge in S3. lia.
    + intros _ n Hn. rewrite S4 in Hall. specialize (Hall n Hn). apply (asked_ok _ _ _ _ _ S1) in Hall. rewrite Ea, app_nil_r in Hall. by apply elem_of_cons in Hall.
Qed.

(** ** Runs *)

(** Nodes in the farthest bucket of a table whose own identifier is zero. *)
Definition exSelf : ID := replicate 32 0.
Definition exID (r : nat) : ID := (128 + Z.of_nat r) :: replicate 31 0.
Definition exNode (r : nat) (ip : IP) : node := mkNode r (exID r) ip 0 0 0.
Definition exTable : table :=
  mkTable exSelf (replicate 17 emptyBucket) [] (mkNetSet tableSubnet tableIPLimit ∅) true.

Definition onTable {A} (m : go table) (g : table -> A) (x : A) : A := match m with Ret t => g t | Panic => x end.

Definition lastBucket (t : table) : bucket := default emptyBucket (buckets t !! 16%nat).

(** Deleting a node that is not in the table takes its address off the counts all the same, and a third node of a subnet gets
    into a bucket that is limited to two. *)
Theorem stray_delete_breaks_limit :
  let n1 := exNode 1 [8; 8; 8; 1] in let n2 := exNode 2 [8; 8; 8; 2] in let n3 := exNode 3 [8; 8; 8; 3] in
  onTable (go_foldl apply exTable [Seen n1 0; Seen n2 0; Seen n3 0]) (fun t => nip <$> tracked (lastBucket t)) [] = [[8; 8; 8; 1]; [8; 8; 8; 2]] /\
  onTable (go_foldl apply exTable [Seen n1 0; Seen n2 0; Delete n3; Seen n3 0]) (fun t => nip <$> tracked (lastBucket t)) [] =
    [[8; 8; 8; 1]; [8; 8; 8; 2]; [8; 8; 8; 3]].
Proof. split; vm_compute; reflexivity. Qed.

(** A replacement that is seen again while its bucket has room becomes an entry, but its address is counted once more and never
    taken off again: with one node of a subnet in the bucket, a second one is refused. *)
Theorem promoted_replacement_leaks_address :
  let fill := (fun r => Seen (exNode r [9; Z.of_nat r; 0; 1]) 0) <$> List.seq 1 16 in
  let n17 := exNode 17 [8; 8; 8; 17] in let n18 := exNode 18 [8; 8; 8; 18] in
  onTable (go_foldl apply exTable (fill ++ [Seen n17 0; Delete (exNode 1 [9; 1; 0; 1]); Seen n17 0; Delete (exNode 2 [9; 2; 0; 1]); Seen n18 0]))
    (fun t => (length (entries (lastBucket t)), filter (inSubnet [8; 8; 8; 8]) (tracked (lastBucket t)))) (0%nat, []) =
  (15%nat, [mkNode 17 (exID 17) [8; 8; 8; 17] 0 0 0]).
Proof. vm_compute. reflexivity. Qed.

(** A bootstrap node is one object in the table and in the list of bootstrap nodes: after it stopped answering and was removed, the next refresh
    puts it back with the liveness checks of its earlier life, so that it counts as live. *)
Theorem dead_bootnode_returns_live :
  onTable (let! t := loadSeedNodes (mkTable exSelf (replicate 17 emptyBucket) [exNode 1 [8; 8; 8; 1]] (mkNetSet tableSubnet tableIPLimit ∅) true) [] 0 in
           let! t := apply t (Revalidated (exNode 1 [8; 8; 8; 1]) 16 (Some 0) None 0) in
           let! t := apply t (Revalidated (exNode 1 [8; 8; 8; 1]) 16 None None 0) in
           if decide (allEntries t = []) then loadSeedNodes t [] 7 else Panic)
    (fun t => findnodeByID t (exID 1) 16 true) [] =
  [mkNode 1 (exID 1) [8; 8; 8; 1] 0 7 1].
Proof. vm_compute. reflexivity. Qed.

Definition exEnv (r : nat) : option (ID * IP) := Some (exID r, [8; 8; Z.of_nat r; 1]).

Definition exKnown (r : nat) : node := exNode r [8; 8; Z.of_nat r; 1].

Lemma exKnown_ok r : (r < 100)%nat -> known exEnv (exKnown r).
Proof.
  intros Hr. split; [|split; [done|by right; left]]. split; [done|]. constructor; [unfold is_byte; lia|].
  cbn [replicate]. repeat constructor; unfold is_byte; lia.
Qed.

Lemma exSelf_ok : wfID exSelf.
Proof. split; [done|]. apply Forall_forall. intros x ->%elem_of_replicate_inv. unfold is_byte. lia. Qed.

Definition exEvents : list event :=
  [InitDone; Verified (exKnown 2) 5; Revalidated (exKnown 1) 16 (Some 0) None 0; Delete (exKnown 2); Seen (exKnown 3) 6].

Lemma exEvents_proper : Forall (proper exEnv exSelf) exEvents.
Proof.
  repeat (apply Forall_cons; split); [done|apply exKnown_ok; lia| |apply (exKnown_ok 2); lia|apply exKnown_ok; lia|apply Forall_nil_2].
  split_and!; [apply exKnown_ok; lia|done|by vm_compute|done|done].
Qed.

Lemma node_table_shape_witness : exists t0 t,
  newTable (fun _ => true) exSelf [exKnown 1] [] 0 = Some (Ret t0) /\ go_foldl apply t0 exEvents = Ret t /\ shapeOk exEnv t.
Proof.
  apply (node_table_shape exEnv (fun _ => true) exSelf [exKnown 1] [] 0 exEvents);
    [exact exSelf_ok|reflexivity|apply Forall_singleton, exKnown_ok; lia|exact exEvents_proper].
Defined.

Lemma address_limits_hold_witness : exists t0 t,
  newTable (fun _ => true) exSelf [exKnown 1] [] 0 = Some (Ret t0) /\ go_foldl apply t0 (take 3 exEvents) = Ret t /\
  Z.of_nat (length (filter (inSubnet [8; 8; 1; 9]) (buckets t ≫= tracked))) <= 10.
Proof.
  destruct (address_limits_hold exEnv (fun _ => true) exSelf [exKnown 1] [] 0 (take 3 exEvents) [8; 8; 1; 9]) as (t0 & t & E1 & E2 & H);
    [exact exSelf_ok|reflexivity|apply Forall_singleton, exKnown_ok; lia|apply Forall_take, exEvents_proper|left; reflexivity|].
  exists t0, t. split; [exact E1|]. split; [exact E2|]. apply H.
  cbn [exEvents take currentRun current]. split; [exact I|]. intros t1 _. split; [exact I|]. intros t2 _. split; [exact I|]. intros t3 _. exact I.
Defined.

Lemma findnode_returns_closest_witness :
  exists t, closest (exID 5) 3 (allEntries t) (findnodeByID t (exID 5) 3 false) /\ nid <$> findnodeByID t (exID 5) 3 false = [exID 1; exID 2].
Proof.
  destruct (newTable_ok exEnv exSelf (fun _ => true) [exKnown 2; exKnown 1] [] 0 exSelf_ok eq_refl) as (t & E & Ht & _);
    [apply Forall_cons; split; [apply exKnown_ok; lia|apply Forall_singleton, exKnown_ok; lia]|apply Forall_nil_2|].
  exists t. split.
  - refine (findnode_returns_closest exEnv t (exID 5) 3 false Ht _). apply (exKnown_ok 5). lia.
  - assert (match newTable (fun _ => true) exSelf [exKnown 2; exKnown 1] [] 0 with
            | Some (Ret t) => nid <$> findnodeByID t (exID 5) 3 false | _ => [] end = [exID 1; exID 2]) as H by (vm_compute; reflexivity).
    rewrite E in H. exact H.
Defined.

Definition exSearched : table := onTable (apply exTable (Seen (exKnown 1) 0)) (fun t => t) exTable.

Definition exFirst : list node := findnodeByID exSearched (exID 5) bucketSize false.

Definition exReplies : list lookupEvent := [Reply exFirst; Reply [exKnown 2; exKnown 1]; Reply []].

Lemma exReplies_wf es : es = exReplies \/ es = [Reply exFirst; Cancel] -> Forall (Forall (fun n => wfID (nid n))) (repliesOf es).
Proof. intros [-> | ->]; vm_compute (repliesOf _); repeat (apply Forall_cons; split); try apply Forall_nil_2; try (apply (exKnown_ok 1); lia); apply (exKnown_ok 2); lia. Qed.

(** A search that ends by itself, and one that is cancelled while it asks the first node. *)
Lemma search_ends_with_closest_witness :
  (exists it ns, run exSearched (newLookup exSelf (exID 5)) exReplies = Some (it, ns) /\ snd (startQueries exSearched it) = false /\ NoDup (nid <$> ns) /\
     forall n, n ∈ result it -> nid n = exSelf \/ nid n ∈ nid <$> ns) /\
  (exists it ns, run exSearched (newLookup exSelf (exID 5)) [Reply exFirst; Cancel] = Some (it, ns) /\ snd (startQueries exSearched it) = false).
Proof.
  split.
  - destruct (run exSearched (newLookup exSelf (exID 5)) exReplies) as [[it ns]|] eqn:E; [|by vm_compute in E]. exists it, ns. split; [reflexivity|].
    pose proof (search_ends_with_closest exSearched exSelf (exID 5) exReplies it ns ltac:(by apply (exKnown_ok 5); lia) (exReplies_wf _ (or_introl eq_refl)) E) as H.
    assert (snd (startQueries exSearched it) = false) as Hm.
    { assert (match run exSearched (newLookup exSelf (exID 5)) exReplies with Some (it, _) => snd (startQueries exSearched it) | None => true end = false) as Hm by (vm_compute; reflexivity). by rewrite E in Hm. }
    destruct (startQueries exSearched it) as [[it' s] more]. cbn [snd] in *. subst more. destruct H as (_ & Hnd & _ & _ & _ & _ & _ & H & _). split; [done|]. split; [done|].
    destruct (H eq_refl) as (_ & _ & Hall). apply Hall. unfold exReplies. by intros [?|[?|[?|?%elem_of_nil]%elem_of_cons]%elem_of_cons]%elem_of_cons.
  - destruct (run exSearched (newLookup exSelf (exID 5)) [Reply exFirst; Cancel]) as [[it ns]|] eqn:E; [|by vm_compute in E]. exists it, ns. split; [reflexivity|].
    pose proof (search_ends_with_closest exSearched exSelf (exID 5) [Reply exFirst; Cancel] it ns ltac:(by apply (exKnown_ok 5); lia) (exReplies_wf _ (or_intror eq_refl)) E) as H.
    destruct (startQueries exSearched it) as [[it' s] more]. destruct H as (_ & _ & _ & _ & _ & _ & _ & _ & H). apply H. right. by left.
Defined.
