(* ===== verification/P2PDial.v ===== *)
(** * The dial scheduler (src/p2p/dial.go) and the expiry heap (src/p2p/util.go)

    The loop of [dialScheduler]: what it does before each wait ([launch]) and one function per case of its [select]. A dial task
    is an object that the static list, the pool and the map of running dials share, so the tasks are in a store and the three
    hold references. A goroutine that runs a task comes back as the event [Done] with what the task then holds. Clock and
    generator are arguments. *)

From stdpp Require Import base tactics list gmap fin_maps.
From Stdlib Require Import ZArith Lia.
From S2P Require Import Prelude GoHeap Netutil NodeTable.

Open Scope Z_scope.
Open Scope go_scope.

Import Netutil Enode.

(** ** expHeap *)

Module ExpHeap.
Section Heap.
Context {A : Type} `{EqDecision A}.

Record expItem := mkExp { item : A; exp : Z }.

(** [None] is the panic on an empty heap. *)
Definition nextExpiry (h : list expItem) : option Z := exp <$> h !! 0%nat.

Definition add (h : list expItem) (x : A) (e : Z) : list expItem := heap_push exp h (mkExp x e).

Definition contains (h : list expItem) (x : A) : bool := existsb (fun v => bool_decide (item v = x)) h.

(** [expire] without a callback: the items that are left. *)
Fixpoint expireLoop (fuel : nat) (h : list expItem) (now : Z) : list expItem :=
  match fuel with
  | O => h
  | S fuel =>
      match h !! 0%nat with
      | Some top =>
          if exp top <? now then match heap_pop exp h with Some (_, h) => expireLoop fuel h now | None => h end
          else h
      | None => h
      end
  end.

Definition expire (h : list expItem) (now : Z) : list expItem := expireLoop (length h) h now.

End Heap.
Arguments expItem : clear implicits.
End ExpHeap.

Module Dial.
Import ExpHeap.

Definition inboundThrottleTime : Z := 30 * 10 ^ 9.
Definition dialHistoryExpiration : Z := inboundThrottleTime + 5 * 10 ^ 9.
Definition initialResolveDelay : Z := 60 * 10 ^ 9.
Definition maxResolveDelay : Z := 3600 * 10 ^ 9.
Definition defaultMaxPendingPeers : Z := 50.

(** [connFlag]. *)
Definition dynDialedConn : Z := 1.
Definition staticDialedConn : Z := 2.
Definition inboundConn : Z := 4.
Definition trustedConn : Z := 8.
Definition verifyConn : Z := 16.

Definition is_ (flags f : Z) : bool := negb (Z.land flags f =? 0).

(** The fields of [enode.Node] that are read here; the address is nil for a node without endpoint. *)
Record enode := mkEnode { nodeID : ID; nodeIP : IP; nodeTCP : Z }.

Record dialTask := mkTask {
  staticPoolIndex : Z;
  flags : Z;
  dest : enode;
  lastResolved : Z;
  resolveDelay : Z
}.

Definition newDialTask (n : enode) (flags : Z) : dialTask := mkTask (-1) flags n 0 0.

Definition withIndex (i : Z) (t : dialTask) : dialTask := mkTask i (flags t) (dest t) (lastResolved t) (resolveDelay t).

Record dialConfig := mkConfig {
  selfID : ID;
  maxDialPeers : Z;
  maxActiveDials : Z;
  netRestrict : option (list IPNet)
}.

Definition withDefaults (c : dialConfig) : dialConfig :=
  mkConfig (selfID c) (maxDialPeers c) (if maxActiveDials c =? 0 then defaultMaxPendingPeers else maxActiveDials c) (netRestrict c).

Record scheduler := mkScheduler {
  config : dialConfig;
  tasks : gmap nat dialTask;   (* the store *)
  fresh : nat;
  dialing : gmap ID nat;
  peers : gset ID;
  dialPeers : Z;
  static : gmap ID nat;
  staticPool : list nat;
  history : list (expItem ID);
  historyTimer : option Z
}.

Definition newDialScheduler (c : dialConfig) : scheduler := mkScheduler (withDefaults c) ∅ 0 ∅ ∅ 0 ∅ [] [] None.

Definition setTask (d : scheduler) (p : nat) (t : dialTask) : scheduler :=
  mkScheduler (config d) (<[p := t]> (tasks d)) (fresh d) (dialing d) (peers d) (dialPeers d) (static d) (staticPool d)
    (history d) (historyTimer d).
Definition alloc (d : scheduler) (t : dialTask) : scheduler * nat :=
  (mkScheduler (config d) (<[fresh d := t]> (tasks d)) (S (fresh d)) (dialing d) (peers d) (dialPeers d) (static d) (staticPool d)
     (history d) (historyTimer d), fresh d).
Definition setDialing (d : scheduler) dl h : scheduler :=
  mkScheduler (config d) (tasks d) (fresh d) dl (peers d) (dialPeers d) (static d) (staticPool d) h (historyTimer d).
Definition setPeers (d : scheduler) ps n : scheduler :=
  mkScheduler (config d) (tasks d) (fresh d) (dialing d) ps n (static d) (staticPool d) (history d) (historyTimer d).
Definition setStatic (d : scheduler) st pool : scheduler :=
  mkScheduler (config d) (tasks d) (fresh d) (dialing d) (peers d) (dialPeers d) st pool (history d) (historyTimer d).
Definition setHistory (d : scheduler) h t : scheduler :=
  mkScheduler (config d) (tasks d) (fresh d) (dialing d) (peers d) (dialPeers d) (static d) (staticPool d) h t.

(** ** Checks *)

Definition freeDialSlots (d : scheduler) : Z :=
  let slots := (maxDialPeers (config d) - dialPeers d) * 2 in
  Z.min slots (maxActiveDials (config d)) - Z.of_nat (size (dialing d)).

Inductive dialErr := errSelf | errNoPort | errAlreadyDialing | errAlreadyConnected | errNetRestrict | errRecentlyDialed.

Definition checkDial (d : scheduler) (n : enode) : option dialErr :=
  if decide (nodeID n = selfID (config d)) then Some errSelf
  else if bool_decide (nodeIP n <> []) && (nodeTCP n =? 0) then Some errNoPort
  else if decide (is_Some (dialing d !! nodeID n)) then Some errAlreadyDialing
  else if decide (nodeID n ∈ peers d) then Some errAlreadyConnected
  else if match netRestrict (config d) with Some l => negb (Contains (Some l) (nodeIP n)) | None => false end then Some errNetRestrict
  else if contains (history d) (nodeID n) then Some errRecentlyDialed
  else None.

(** ** The pool of static tasks *)

Definition addToStaticPool (d : scheduler) (p : nat) : go scheduler :=
  match tasks d !! p with
  | None => Panic
  | Some t =>
      if 0 <=? staticPoolIndex t then Panic
      else
        let d := setStatic d (static d) (staticPool d ++ [p]) in
        Ret (setTask d p (withIndex (Z.of_nat (length (staticPool d)) - 1) t))
  end.

Definition removeFromStaticPool (d : scheduler) (idx : Z) : go scheduler :=
  let! p := go_index (staticPool d) idx in
  let endi := (length (staticPool d) - 1)%nat in
  match staticPool d !! endi with
  | None => Panic
  | Some q =>
      let pool := take endi (<[Z.to_nat idx := q]> (staticPool d)) in
      match tasks d !! q with
      | None => Panic
      | Some tq =>
          let d := setTask (setStatic d (static d) pool) q (withIndex idx tq) in
          match tasks d !! p with
          | None => Panic
          | Some tp => Ret (setTask d p (withIndex (-1) tp))
          end
      end
  end.

Definition updateStaticPool (d : scheduler) (id : ID) : go scheduler :=
  match static d !! id with
  | None => Ret d
  | Some p =>
      match tasks d !! p with
      | None => Panic
      | Some t =>
          if (staticPoolIndex t <? 0) && bool_decide (checkDial d (dest t) = None) then addToStaticPool d p else Ret d
      end
  end.

(** ** Dials *)

(** A dial that is started: the task, its node and the time. *)
Record start := mkStart { started : nat; toNode : ID; atTime : Z }.

Definition startDial (d : scheduler) (p : nat) (now : Z) : go (scheduler * start) :=
  match tasks d !! p with
  | None => Panic
  | Some t =>
      let id := nodeID (dest t) in
      Ret (setDialing d (<[id := p]> (dialing d)) (add (history d) id (now + dialHistoryExpiration)), mkStart p id now)
  end.

(** The loop starts at most [n] tasks and empties the pool at most, so the length of the pool is enough fuel. *)
Fixpoint startStaticDials (fuel : nat) (d : scheduler) (n : Z) (draw : nat -> nat) (now : Z) : go (scheduler * list start) :=
  match fuel with
  | O => Ret (d, [])
  | S fuel' =>
      if (0 <? n) && bool_decide (0 < length (staticPool d))%nat then
        let idx := (draw fuel' mod length (staticPool d))%nat in
        match staticPool d !! idx with
        | None => Panic
        | Some p =>
            let! (d, s) := startDial d p now in
            let! d := removeFromStaticPool d (Z.of_nat idx) in
            let! (d, ss) := startStaticDials fuel' d (n - 1) draw now in
            Ret (d, s :: ss)
        end
      else Ret (d, [])
  end.

(** ** History *)

Definition rearmHistoryTimer (d : scheduler) : scheduler :=
  match nextExpiry (history d) with
  | None => d
  | Some e => if decide (historyTimer d = Some e) then d else setHistory d (history d) (Some e)
  end.

(** The loop of [expire], whose callback sees the history without the item. *)
Fixpoint expireHistoryLoop (fuel : nat) (d : scheduler) (now : Z) : go scheduler :=
  match fuel with
  | O => Ret d
  | S fuel =>
      match history d !! 0%nat with
      | Some top =>
          if exp top <? now then
            match heap_pop exp (history d) with
            | Some (x, h) => let! d := updateStaticPool (setHistory d h (historyTimer d)) (item x) in expireHistoryLoop fuel d now
            | None => Panic
            end
          else Ret d
      | None => Ret d
      end
  end.

(** Stopping a timer that is not there is a panic. *)
Definition expireHistory (d : scheduler) (now : Z) : go scheduler :=
  match historyTimer d with
  | None => Panic
  | Some _ => let d := setHistory d (history d) None in expireHistoryLoop (length (history d)) d now
  end.

(** ** Tasks *)

(** [resolve]: the readings of the clock before and after, and what the resolver answers; [None] is a scheduler without resolver. *)
Definition resolve (t : dialTask) (resolver : option (enode -> option enode)) (now later : Z) : dialTask * bool :=
  match resolver with
  | None => (t, false)
  | Some r =>
      let delay := if resolveDelay t =? 0 then initialResolveDelay else resolveDelay t in
      let t := mkTask (staticPoolIndex t) (flags t) (dest t) (lastResolved t) delay in
      if (0 <? lastResolved t) && (now - lastResolved t <? delay) then (t, false)
      else
        match r (dest t) with
        | None => (mkTask (staticPoolIndex t) (flags t) (dest t) later (Z.min (delay * 2) maxResolveDelay), false)
        | Some n => (mkTask (staticPoolIndex t) (flags t) n later initialResolveDelay, true)
        end
  end.

Definition needResolve (t : dialTask) : bool := is_ (flags t) staticDialedConn && bool_decide (nodeIP (dest t) = []).

(** [run]: [dial] says of each attempt whether it failed with a dial error; the clock is read twice per attempt to resolve. *)
Definition run (t : dialTask) (resolver : option (enode -> option enode)) (dialFails : bool) (clock : nat -> Z) : dialTask * list enode :=
  let '(t, ok) := if needResolve t then resolve t resolver (clock 0%nat) (clock 1%nat) else (t, true) in
  if ok then
    let first := dest t in
    if dialFails && is_ (flags t) staticDialedConn then
      let '(t, ok) := resolve t resolver (clock 2%nat) (clock 3%nat) in
      (t, first :: if ok then [dest t] else [])
    else (t, [first])
  else (t, []).

(** ** The loop *)

Record conn := mkConn { connNode : enode; connFlags : Z }.

Inductive event :=
| Node (n : enode)
| Done (p : nat) (t : dialTask)
| AddPeer (c : conn)
| RemPeer (c : conn)
| AddStatic (n : enode)
| RemStatic (n : enode)
| HistoryExp.

(** The top of the loop: static dials for the free slots. The result says whether discovered nodes are accepted. *)
Definition launch (d : scheduler) (draw : nat -> nat) (now : Z) : go (scheduler * list start * bool) :=
  let slots := freeDialSlots d in
  let! (d, ss) := startStaticDials (length (staticPool d)) d slots draw now in
  Ret (rearmHistoryTimer d, ss, 0 <? slots - Z.of_nat (length ss)).

Definition isDialed (c : conn) : bool := is_ (connFlags c) dynDialedConn || is_ (connFlags c) staticDialedConn.

Definition handle (d : scheduler) (e : event) (now : Z) : go (scheduler * list start) :=
  match e with
  | Node n =>
      match checkDial d n with
      | Some _ => Ret (d, [])
      | None =>
          let '(d, p) := alloc d (newDialTask n dynDialedConn) in
          let! (d, s) := startDial d p now in Ret (d, [s])
      end
  | Done p t =>
      let d := setTask d p t in
      let! d := updateStaticPool (setDialing d (delete (nodeID (dest t)) (dialing d)) (history d)) (nodeID (dest t)) in Ret (d, [])
  | AddPeer c =>
      let d := setPeers d ({[nodeID (connNode c)]} ∪ peers d) (if isDialed c then dialPeers d + 1 else dialPeers d) in
      match static d !! nodeID (connNode c) with
      | None => Ret (d, [])
      | Some p =>
          match tasks d !! p with
          | None => Panic
          | Some t => if 0 <=? staticPoolIndex t then let! d := removeFromStaticPool d (staticPoolIndex t) in Ret (d, []) else Ret (d, [])
          end
      end
  | RemPeer c =>
      let d := setPeers d (peers d ∖ {[nodeID (connNode c)]}) (if isDialed c then dialPeers d - 1 else dialPeers d) in
      let! d := updateStaticPool d (nodeID (connNode c)) in Ret (d, [])
  | AddStatic n =>
      match static d !! nodeID n with
      | Some _ => Ret (d, [])
      | None =>
          let '(d, p) := alloc d (newDialTask n staticDialedConn) in
          let d := setStatic d (<[nodeID n := p]> (static d)) (staticPool d) in
          if decide (checkDial d n = None) then let! d := addToStaticPool d p in Ret (d, []) else Ret (d, [])
      end
  | RemStatic n =>
      match static d !! nodeID n with
      | None => Ret (d, [])
      | Some p =>
          let d := setStatic d (delete (nodeID n) (static d)) (staticPool d) in
          match tasks d !! p with
          | None => Panic
          | Some t => if 0 <=? staticPoolIndex t then let! d := removeFromStaticPool d (staticPoolIndex t) in Ret (d, []) else Ret (d, [])
          end
      end
  | HistoryExp => let! d := expireHistory d now in Ret (d, [])
  end.

End Dial.
