(* ===== verification/P2PDialProps.v ===== *)
(** * Properties of the dial scheduler (P2PDial.v)

    The invariant of the shared tasks and of the pool, and what it gives over all runs of the loop: no panic, no node dialled twice
    at a time or again too soon, and bounded dials. *)

From stdpp Require Import base tactics list gmap fin_maps.
From Stdlib Require Import ZArith Lia.
From S2P Require Import Prelude GoHeap Netutil NodeTable P2PDial.

Open Scope Z_scope.
Open Scope go_scope.

Import Netutil Enode ExpHeap Dial.

Module DialLemmas.

(** ** The pool and the indices in the tasks *)

Definition destOf (d : scheduler) (p : nat) : option enode := dest <$> tasks d !! p.

Record idxOk (d : scheduler) : Prop := {
  in_pool i p : staticPool d !! i = Some p -> staticPoolIndex <$> tasks d !! p = Some (Z.of_nat i);
  out_of_pool p t : tasks d !! p = Some t -> p ∉ staticPool d -> staticPoolIndex t = -1
}.

(** All but the pool and the indices stays. *)
Record frame (d d' : scheduler) : Prop := {
  fr_config : config d' = config d;
  fr_fresh : fresh d' = fresh d;
  fr_dialing : dialing d' = dialing d;
  fr_peers : peers d' = peers d;
  fr_dialPeers : dialPeers d' = dialPeers d;
  fr_static : static d' = static d;
  fr_history : history d' = history d;
  fr_timer : historyTimer d' = historyTimer d;
  fr_dest p : destOf d' p = destOf d p;
  fr_dom p : is_Some (tasks d' !! p) <-> is_Some (tasks d !! p)
}.

#[local] Instance frame_preorder : PreOrder frame.
Proof.
  split; [by intros d; split|]. intros d1 d2 d3 [] []. split; try congruence; naive_solver congruence.
Qed.

Lemma idxOk_NoDup d : idxOk d -> NoDup (staticPool d).
Proof.
  intros [H1 _]. apply NoDup_alt. intros i j p Hi Hj. apply H1 in Hi, Hj. rewrite Hi in Hj. injection Hj. lia.
Qed.

Lemma in_pool_index d p t : idxOk d -> tasks d !! p = Some t -> 0 <= staticPoolIndex t -> staticPool d !! Z.to_nat (staticPoolIndex t) = Some p.
Proof.
  intros [H1 H2] Ht Hi. destruct (decide (p ∈ staticPool d)) as [Hin|Hin]; [|specialize (H2 p t Ht Hin); lia].
  apply list_elem_of_lookup_1 in Hin as [i Hp]. specialize (H1 i p Hp). rewrite Ht in H1. injection H1 as ->. by rewrite Nat2Z.id.
Qed.

Lemma setTask_frame d p t t' : tasks d !! p = Some t -> dest t' = dest t -> frame d (setTask d p t').
Proof.
  intros Ht E. split; try done; intros q; unfold destOf; cbn [tasks setTask]; destruct (decide (p = q)) as [<-|];
    rewrite ?lookup_insert_eq, ?lookup_insert_ne by done; rewrite ?Ht; cbn; [by rewrite E|done|by split|done].
Qed.

Lemma setPool_frame d pool : frame d (setStatic d (static d) pool).
Proof. by split. Qed.

Lemma addToStaticPool_ok d p t :
  idxOk d -> tasks d !! p = Some t -> p ∉ staticPool d ->
  exists d', addToStaticPool d p = Ret d' /\ idxOk d' /\ staticPool d' = staticPool d ++ [p] /\ frame d d'.
Proof.
  intros [H1 H2] Ht Hp. unfold addToStaticPool. rewrite Ht. rewrite (H2 p t Ht Hp). cbn [Z.leb Z.compare].
  eexists. split; [done|]. cbn [staticPool setStatic]. split_and!; [|done|].
  - split; cbn [tasks staticPool setTask setStatic].
    + intros i q Hi. rewrite lookup_snoc_Some in Hi. destruct Hi as [[Hlt Hi]|[-> ->]].
      * rewrite lookup_insert_ne by (intros ->; apply Hp; by eapply list_elem_of_lookup_2). by apply H1.
      * rewrite lookup_insert_eq. cbn. f_equal. rewrite length_app. cbn. lia.
    + intros q u Hq Hin. assert (q <> p) as Hne by set_solver. rewrite lookup_insert_ne in Hq by done. apply (H2 q u Hq). set_solver.
  - etrans; [apply (setPool_frame d (staticPool d ++ [p]))|]. by apply (setTask_frame _ p t).
Qed.

(** The last element takes the place of the one that goes. *)
Lemma pool_remove (l : list nat) i p q :
  NoDup l -> l !! i = Some p -> l !! (length l - 1)%nat = Some q ->
  let l' := take (length l - 1) (<[i := q]> l) in
  l ≡ₚ p :: l' /\ forall j r, l' !! j = Some r <-> (j < length l - 1)%nat /\ (if decide (j = i) then r = q else l !! j = Some r).
Proof.
  intros Hnd Hi Hq. pose proof (lookup_lt_Some _ _ _ Hi) as Hlt. cbn zeta. split.
  - destruct (decide (i = length l - 1)%nat) as [->|Hne].
    + assert (p = q) as -> by congruence. rewrite list_insert_id by done.
      rewrite <- (take_drop_middle l (length l - 1) q Hq) at 1. rewrite drop_ge by lia. by rewrite Permutation_app_comm.
    + rewrite insert_take_drop by done. rewrite take_app, length_take, Nat.min_l by lia.
      rewrite (take_ge (take i l)) by (rewrite length_take; lia). destruct (length l - 1 - i)%nat as [|m] eqn:Em; [lia|]. cbn [take firstn].
      rewrite <- (take_drop_middle l i p Hi) at 1. rewrite <- Permutation_middle. constructor. f_equiv.
      assert (drop (S i) l !! (length l - 1 - S i)%nat = Some q) as Hq' by (rewrite lookup_drop; rewrite <- Hq; f_equal; lia).
      rewrite <- (take_drop_middle (drop (S i) l) _ q Hq') at 1. rewrite (drop_ge (drop _ _)) by (rewrite length_drop; lia).
      rewrite Permutation_app_comm. cbn. replace m with (length l - 1 - S i)%nat by lia. done.
  - intros j r. rewrite lookup_take_Some, list_lookup_insert_Some. case_decide as Hj; [subst j|]; naive_solver lia.
Qed.

Lemma removeFromStaticPool_ok d i p :
  idxOk d -> staticPool d !! i = Some p ->
  exists d', removeFromStaticPool d (Z.of_nat i) = Ret d' /\ idxOk d' /\ staticPool d ≡ₚ p :: staticPool d' /\ frame d d'.
Proof.
  intros Hok Hi. pose proof (idxOk_NoDup d Hok) as Hnd. pose proof Hok as [H1 H2]. pose proof (lookup_lt_Some _ _ _ Hi) as Hlt.
  unfold removeFromStaticPool, go_index. rewrite decide_True, Nat2Z.id, Hi by lia.
  destruct (lookup_lt_is_Some_2 (staticPool d) (length (staticPool d) - 1)) as [q Hq]; [lia|]. rewrite Hq.
  destruct (pool_remove _ i p q Hnd Hi Hq) as [Hperm Hlk]. set (pool := take _ _) in *.
  pose proof (H1 _ _ Hq) as Eq. destruct (tasks d !! q) as [tq|] eqn:Htq; [|done].
  pose proof (H1 _ _ Hi) as Ep. destruct (tasks d !! p) as [tp|] eqn:Htp; [|done].
  assert (exists tp', tasks (setTask (setStatic d (static d) pool) q (withIndex (Z.of_nat i) tq)) !! p = Some tp' /\ dest tp' = dest tp) as (tp' & Htp' & Edest).
  { cbn [tasks setTask setStatic]. destruct (decide (q = p)) as [<-|]; rewrite ?lookup_insert_eq, ?lookup_insert_ne by done; [|by eauto].
    simplify_eq. by eexists. }
  rewrite Htp'. eexists. split; [done|]. assert (p ∉ pool) as Hp by (rewrite Hperm in Hnd; by apply NoDup_cons in Hnd as [? _]).
  split_and!; [|done|].
  - split; cbn [tasks staticPool setTask setStatic].
    + intros j r Hj. assert (r <> p) as Hrp by (intros ->; apply Hp; by eapply list_elem_of_lookup_2). rewrite lookup_insert_ne by done.
      apply Hlk in Hj as [Hjl Hj]. destruct (decide (q = r)) as [<-|Hqr].
      * rewrite lookup_insert_eq. cbn. case_decide as Hji; [by subst j|]. pose proof (NoDup_lookup _ _ _ _ Hnd Hj Hq). lia.
      * rewrite lookup_insert_ne by done. case_decide as Hji; [by subst r|]. by apply H1.
    + intros r u Hr Hin. destruct (decide (p = r)) as [<-|Hpr]; [rewrite lookup_insert_eq in Hr; by injection Hr as <-|].
      rewrite lookup_insert_ne in Hr by done. destruct (decide (q = r)) as [<-|Hqr].
      * destruct Hin. assert (q ∈ staticPool d) as Hqin by by eapply list_elem_of_lookup_2. rewrite Hperm in Hqin. set_solver.
      * rewrite lookup_insert_ne in Hr by done. apply (H2 r u Hr). rewrite Hperm. set_solver.
  - etrans; [apply (setPool_frame d pool)|].
    etrans; [apply (setTask_frame (setStatic d (static d) pool) q tq (withIndex (Z.of_nat i) tq) Htq eq_refl)|].
    apply (setTask_frame _ p tp'); [exact Htp'|done].
Qed.

(** ** The invariant *)

Lemma contains_spec (h : list (expItem ID)) x : contains h x = true <-> x ∈ item <$> h.
Proof.
  unfold contains. rewrite existsb_exists, list_elem_of_fmap. split.
  - intros (v & Hv & E). apply bool_decide_eq_true in E. exists v. split; [done|]. by apply list_elem_of_In.
  - intros (v & -> & Hv). exists v. split; [by apply list_elem_of_In|]. by apply bool_decide_eq_true.
Qed.

Definition unrestricted (d : scheduler) (n : enode) : bool :=
  match netRestrict (config d) with Some l => Contains (Some l) (nodeIP n) | None => true end.

Lemma checkDial_None d n :
  checkDial d n = None <->
  nodeID n <> selfID (config d) /\ ~ (nodeIP n <> [] /\ nodeTCP n = 0) /\ dialing d !! nodeID n = None /\
  nodeID n ∉ peers d /\ unrestricted d n = true /\ nodeID n ∉ item <$> history d.
Proof.
  unfold checkDial. rewrite <- contains_spec, (eq_None_not_Some (dialing d !! _)).
  replace (match netRestrict (config d) with Some l => negb (Contains (Some l) (nodeIP n)) | None => false end)
    with (negb (unrestricted d n)) by (unfold unrestricted; by destruct (netRestrict (config d))).
  assert (bool_decide (nodeIP n <> []) && (nodeTCP n =? 0) = true <-> nodeIP n <> [] /\ nodeTCP n = 0) as E
    by (rewrite andb_true_iff, bool_decide_eq_true, Z.eqb_eq; done). rewrite <- E. clear E.
  case_decide; [split; [done|tauto]|]. destruct (_ && _); [split; [done|tauto]|]. do 2 (case_decide; [split; [done|tauto]|]).
  destruct (unrestricted d n); [|split; [done|naive_solver]]. destruct (contains _ _); [split; [done|naive_solver]|].
  split; [intros _; by split_and!|done].
Qed.

(** A task that belongs in the pool: it is that of its node in the list, and the node may be dialled. *)
Definition ready (d : scheduler) (p : nat) : Prop :=
  exists n, destOf d p = Some n /\ static d !! nodeID n = Some p /\ checkDial d n = None.

Record baseOk (d : scheduler) : Prop := {
  static_dest id p : static d !! id = Some p -> exists n, destOf d p = Some n /\ nodeID n = id;
  dialing_dest id p : dialing d !! id = Some p -> exists n, destOf d p = Some n /\ nodeID n = id;
  history_heap : heap_ok exp (length (history d)) (history d);
  tasks_fresh p : is_Some (tasks d !! p) -> (p < fresh d)%nat
}.

Record dialOk (d : scheduler) : Prop := {
  ok_base : baseOk d;
  ok_idx : idxOk d;
  ok_ready p : p ∈ staticPool d <-> ready d p
}.

Lemma frame_base d d' : frame d d' -> baseOk d -> baseOk d'.
Proof.
  intros [] []. split.
  - intros id p. rewrite fr_static0, fr_dest0. auto.
  - intros id p. rewrite fr_dialing0, fr_dest0. auto.
  - by rewrite fr_history0.
  - intros p. rewrite fr_dom0, fr_fresh0. auto.
Qed.

Lemma frame_checkDial d d' n : frame d d' -> checkDial d' n = checkDial d n.
Proof. intros []. unfold checkDial. by rewrite fr_config0, fr_dialing0, fr_peers0, fr_history0. Qed.

Lemma frame_ready d d' p : frame d d' -> ready d' p <-> ready d p.
Proof.
  intros Hf. unfold ready. pose proof Hf as []. setoid_rewrite fr_dest0. setoid_rewrite fr_static0.
  split; intros (n & E & Hs & Hc); exists n; by rewrite (frame_checkDial d d') in *.
Qed.

(** Two states that check a node alike. *)
Definition alike (d d' : scheduler) (id : ID) : Prop :=
  static d' !! id = static d !! id /\ (dialing d' !! id = None <-> dialing d !! id = None) /\ (id ∈ peers d' <-> id ∈ peers d) /\
  (id ∈ item <$> history d' <-> id ∈ item <$> history d).

Lemma ready_alike d d' q n :
  destOf d q = Some n -> destOf d' q = Some n -> config d' = config d -> alike d d' (nodeID n) -> ready d' q <-> ready d q.
Proof.
  intros E E' Ec (Hs & Hd & Hp & Hh). unfold ready. rewrite E, E'.
  assert (checkDial d' n = None <-> checkDial d n = None) as Hch by (rewrite !checkDial_None; unfold unrestricted; rewrite Ec; tauto).
  split; intros (n' & [= <-] & ? & ?); exists n; split_and!; [done|congruence|tauto|done|congruence|tauto].
Qed.

(** The same for a task that is not that of the one node on which the states differ. *)
Lemma ready_away d d' id q :
  destOf d' q = destOf d q -> config d' = config d -> (forall i, i <> id -> alike d d' i) ->
  static d !! id <> Some q -> static d' !! id <> Some q -> ready d' q <-> ready d q.
Proof.
  intros Ed Ec Ha Hs Hs'. destruct (destOf d q) as [n|] eqn:En; [|unfold ready; rewrite Ed, En; naive_solver].
  destruct (decide (nodeID n = id)) as [<-|Hne]; [|by apply (ready_alike d d' q n); auto].
  split; intros (m & Em & Esm & _); simplify_eq.
Qed.

(** Taking a task out of the pool restores the invariant when all the others are those that belong there. *)
Lemma remove_dialOk d i p :
  baseOk d -> idxOk d -> staticPool d !! i = Some p -> (forall q, ready d q <-> q ∈ staticPool d /\ q <> p) ->
  exists d', removeFromStaticPool d (Z.of_nat i) = Ret d' /\ dialOk d' /\ staticPool d ≡ₚ p :: staticPool d' /\ frame d d'.
Proof.
  intros Hb Hi Hp Hr. destruct (removeFromStaticPool_ok d i p Hi Hp) as (d' & -> & Hi' & Hperm & Hf). exists d'. split_and!; try done.
  split; [by eapply frame_base|done|]. intros q. rewrite (frame_ready d d') by done. rewrite Hr. pose proof (idxOk_NoDup d Hi) as Hnd.
  rewrite Hperm in Hnd |- *. apply NoDup_cons in Hnd as [Hnp _]. set_solver.
Qed.

(** Entering the task of a listed node, when it may be dialled and is not there, for a pool that is right on all other nodes. *)
Lemma update_dialOk d id :
  baseOk d -> idxOk d -> (forall q, q ∈ staticPool d -> ready d q) ->
  (forall q n, destOf d q = Some n -> nodeID n <> id -> ready d q -> q ∈ staticPool d) ->
  exists d', updateStaticPool d id = Ret d' /\ dialOk d' /\ frame d d'.
Proof.
  intros Hb Hi Hr Hr'. unfold updateStaticPool. destruct (static d !! id) as [p|] eqn:Es.
  2: { exists d. split_and!; [done| |done]. split; [done..|]. intros q. split; [apply Hr|]. intros Hq. pose proof Hq as (n & E & Esn & _).
       apply (Hr' q n); [done| |done]. congruence. }
  destruct (static_dest d Hb id p Es) as (n & En & Eid). pose proof En as Et. unfold destOf in Et.
  destruct (tasks d !! p) as [t|] eqn:Etask; [|done]. injection Et as Et. subst n.
  destruct (decide (p ∈ staticPool d)) as [Hp|Hp].
  - apply list_elem_of_lookup_1 in Hp as [i Hp]. pose proof (in_pool d Hi i p Hp) as E. rewrite Etask in E. injection E as E.
    rewrite (proj2 (Z.ltb_ge _ _)) by lia. exists d. split_and!; [done| |done]. split; [done..|]. intros q. split; [apply Hr|].
    intros Hq. pose proof Hq as (m & Em & Esm & _). destruct (decide (nodeID m = id)) as [E'|E']; [|by apply (Hr' q m)].
    assert (q = p) as -> by congruence. by eapply list_elem_of_lookup_2.
  - rewrite (out_of_pool d Hi p t Etask Hp). cbn [Z.ltb Z.compare andb]. assert (ready d p <-> checkDial d (dest t) = None) as Hrp.
    { split; [intros (m & Em & _ & Hc); congruence|]. intros Hc. exists (dest t). by rewrite Eid. }
    assert (forall q, ready d q <-> q ∈ staticPool d \/ q = p /\ ready d p) as Hall.
    { intros q. split; [|intros [?|[-> ?]]; auto]. intros Hq. pose proof Hq as (m & Em & Esm & _).
      destruct (decide (nodeID m = id)) as [E'|E']; [|left; by apply (Hr' q m)]. assert (q = p) as -> by congruence. auto. }
    case_bool_decide as Hc.
    + destruct (addToStaticPool_ok d p t Hi Etask Hp) as (d' & -> & Hi' & Epool & Hf). exists d'. split_and!; try done.
      split; [by eapply frame_base|done|]. intros q. rewrite (frame_ready d d'), Hall, Epool, elem_of_app, list_elem_of_singleton by done. tauto.
    + exists d. split_and!; [done| |done]. split; [done..|]. intros q. rewrite Hall. tauto.
Qed.

(** ** Starting dials *)

(** One dial starts: the node may be dialled, and it is then among the running ones and in the history. *)
Record begins (d : scheduler) (s : start) (now : Z) (d' : scheduler) : Prop := {
  be_node : exists n, nodeID n = toNode s /\ checkDial d n = None;
  be_time : atTime s = now;
  be_dialing : dialing d' = <[toNode s := started s]> (dialing d);
  be_history : history d' ≡ₚ mkExp (toNode s) (now + dialHistoryExpiration) :: history d;
  be_config : config d' = config d;
  be_peers : peers d' = peers d;
  be_dialPeers : dialPeers d' = dialPeers d
}.

(** A task of the pool starts and leaves the pool. *)
Lemma start_static d i p now :
  dialOk d -> staticPool d !! i = Some p ->
  exists d1 s d2, startDial d p now = Ret (d1, s) /\ removeFromStaticPool d1 (Z.of_nat i) = Ret d2 /\ dialOk d2 /\
    begins d s now d2 /\ staticPool d ≡ₚ p :: staticPool d2.
Proof.
  intros [Hb Hi Hr] Hp. assert (p ∈ staticPool d) as Hin by by eapply list_elem_of_lookup_2.
  pose proof (proj1 (Hr p) Hin) as (n & En & Es & Hc). pose proof En as En'. unfold destOf in En'.
  unfold startDial. destruct (tasks d !! p) as [t|] eqn:Et; [|done]. injection En' as Edest. rewrite Edest.
  pose proof (heap_push_ok exp (history d) (mkExp (nodeID n) (now + dialHistoryExpiration)) (history_heap d Hb)) as [Hperm Hheap].
  set (d1 := setDialing _ _ _). assert (idxOk d1) as Hi1 by by destruct Hi.
  assert (baseOk d1) as Hb1.
  { destruct Hb. split; cbn [d1 static dialing history tasks fresh setDialing]; try done.
    intros id q. rewrite lookup_insert_Some. intros [[<- <-]|[_ Hq]]; [by exists n|by apply dialing_dest0]. }
  destruct (remove_dialOk d1 i p Hb1 Hi1 Hp) as (d2 & E2 & Hok2 & Hp2 & Hf).
  - intros q. change (staticPool d1) with (staticPool d). rewrite Hr. destruct (decide (q = p)) as [->|Hne].
    { split; [|tauto]. intros (m & Em & _ & Hcm). apply checkDial_None in Hcm as (_ & _ & Hcm & _).
      change (destOf d p = Some m) in Em. assert (m = n) as -> by congruence. cbn [d1 dialing setDialing] in Hcm. by rewrite lookup_insert_eq in Hcm. }
    rewrite (ready_away d d1 (nodeID n) q); [tauto|done|done| |congruence|cbn [d1 static setDialing]; congruence].
    intros id Hid. split_and!; try done; cbn [d1 dialing history setDialing]; [by rewrite lookup_insert_ne|].
    unfold add. rewrite Hperm. cbn. set_solver.
  - exists d1, (mkStart p (nodeID n) now), d2. split_and!; try done. destruct Hf. split; try done; [by exists n|].
    by rewrite fr_history0.
Qed.

(** The records of the starts, that of the history and the times. *)
Definition remembered (d : scheduler) (clk : Z) (s : start) : Prop :=
  mkExp (toNode s) (atTime s + dialHistoryExpiration) ∈ history d \/ atTime s + dialHistoryExpiration < clk.

Definition spaced (ss : list start) : Prop :=
  forall i j s u, (i < j)%nat -> ss !! i = Some s -> ss !! j = Some u -> toNode s = toNode u -> atTime s + dialHistoryExpiration < atTime u.

Record traceOk (d : scheduler) (ss : list start) (clk : Z) : Prop := {
  tr_remembered : Forall (remembered d clk) ss;
  tr_spaced : spaced ss;
  tr_self : Forall (fun s => toNode s <> selfID (config d)) ss
}.

Lemma traceOk_mono d d' ss clk clk' :
  config d' = config d -> clk <= clk' -> (forall x, x ∈ history d -> x ∈ history d' \/ exp x < clk') -> traceOk d ss clk -> traceOk d' ss clk'.
Proof.
  intros Ec Hle Hh [H1 H2 H3]. split; [|done|by rewrite Ec]. eapply Forall_impl; [exact H1|].
  intros s [Hs|Hs]; [|right; lia]. apply Hh in Hs as [Hs|Hs]; [by left|by right].
Qed.

Lemma traceOk_begins d s now d' ss clk :
  traceOk d ss clk -> clk <= now -> begins d s now d' -> traceOk d' (ss ++ [s]) now.
Proof.
  intros Htr Hle [(n & En & Hc) Et Ed Eh Ec Ep Edp]. apply checkDial_None in Hc as (Hself & _ & _ & _ & _ & Hnh).
  assert (traceOk d' ss now) as [H1 H2 H3].
  { apply (traceOk_mono d d' ss clk); [done|done| |done]. intros x Hx. left. rewrite Eh. set_solver. }
  split.
  - apply Forall_app. split; [done|]. apply Forall_singleton. left. rewrite Eh, Et. set_solver.
  - intros i j x y Hij Hx Hy E. apply lookup_snoc_Some in Hy as [[Hj Hy]|[-> <-]].
    + rewrite lookup_app_l in Hx by lia. by apply (H2 i j).
    + rewrite lookup_app_l in Hx by done. destruct Htr as [H1' _ _]. rewrite Forall_lookup in H1'. destruct (H1' i x Hx) as [Hin|Hlt]; [|lia].
      destruct Hnh. rewrite En, <- E. apply list_elem_of_fmap. eexists; split; [|exact Hin]; done.
  - apply Forall_app. split; [done|]. apply Forall_singleton. rewrite Ec, <- En. done.
Qed.

Lemma begins_size d s now d' : begins d s now d' -> size (dialing d') = S (size (dialing d)).
Proof.
  intros [(n & En & Hc) _ Ed _ _ _ _]. rewrite Ed. apply map_size_insert_None. rewrite <- En. by apply checkDial_None in Hc as (_ & _ & ? & _).
Qed.

(** What a number of starts changes. *)
Record launched (d : scheduler) (ss' : list start) (now : Z) (d' : scheduler) : Prop := {
  la_ok : dialOk d';
  la_trace ss clk : traceOk d ss clk -> clk <= now -> traceOk d' (ss ++ ss') now;
  la_size : size (dialing d') = (size (dialing d) + length ss')%nat;
  la_config : config d' = config d;
  la_peers : peers d' = peers d;
  la_dialPeers : dialPeers d' = dialPeers d;
  la_strangers : Forall (fun s => toNode s ∉ peers d) ss'
}.

Lemma launched_nil d d' now :
  dialOk d' -> dialing d' = dialing d -> history d' = history d -> config d' = config d -> peers d' = peers d -> dialPeers d' = dialPeers d ->
  launched d [] now d'.
Proof.
  intros Hok Ed Eh ? ? ?. split; try done; [|rewrite Ed; cbn; lia].
  intros ss clk Htr Hle. rewrite app_nil_r. apply (traceOk_mono d d' ss clk); [done..| |done]. rewrite Eh. auto.
Qed.

Lemma start_pointer d p now d1 s : startDial d p now = Ret (d1, s) -> started s = p.
Proof. unfold startDial. destruct (tasks d !! p); [|done]. by intros [= _ <-]. Qed.

Lemma startStaticDials_ok fuel d n draw now :
  dialOk d -> (length (staticPool d) <= fuel)%nat ->
  exists d' ss', startStaticDials fuel d n draw now = Ret (d', ss') /\ launched d ss' now d' /\ Z.of_nat (length ss') <= Z.max 0 n /\
    (Z.of_nat (length ss') < n -> staticPool d' = []) /\ staticPool d ≡ₚ (started <$> ss') ++ staticPool d'.
Proof.
  revert d n. induction fuel as [|fuel IH]; intros d n Hok Hf; cbn [startStaticDials].
  - exists d, []. split_and!; [done|by apply launched_nil|cbn; lia|intros _; apply nil_length_inv; lia|done].
  - destruct ((0 <? n) && bool_decide (0 < length (staticPool d))%nat) eqn:Ec.
    + apply andb_true_iff in Ec as [En El]. apply Z.ltb_lt in En. apply bool_decide_eq_true in El.
      pose proof (Nat.mod_upper_bound (draw fuel) (length (staticPool d)) ltac:(lia)) as Hi.
      destruct (lookup_lt_is_Some_2 _ _ Hi) as [p Hp]. rewrite Hp.
      destruct (start_static d _ p now Hok Hp) as (d1 & s & d2 & E1 & E2 & Hok2 & Hbe & Hperm). rewrite E1. cbn iota. rewrite E2. cbn iota.
      pose proof (Permutation_length Hperm) as Hlen. cbn in Hlen.
      destruct (IH d2 (n - 1) Hok2 ltac:(lia)) as (d' & ss' & -> & [] & Hle & Hpool & Hperm2).
      exists d', (s :: ss'). cbn [length]. split_and!; [done| |lia|intros; apply Hpool; lia|].
      2: { cbn. rewrite <- Hperm2. by rewrite (start_pointer d p now d1 s E1). }
      pose proof (begins_size _ _ _ _ Hbe). pose proof Hbe as []. split; [done| |cbn [length]; lia|congruence..|].
      2: { constructor; [|by rewrite <- be_peers0]. destruct be_node0 as (m & <- & Hc). by apply checkDial_None in Hc as (_ & _ & _ & ? & _). }
      intros ss clk Htr Hclk. rewrite cons_middle, app_assoc. apply (la_trace0 _ now); [|lia]. by eapply traceOk_begins.
    + exists d, []. split_and!; [done|by apply launched_nil|cbn; lia| |done].
      intros Hn. cbn in Hn. apply andb_false_iff in Ec as [Ec|Ec]; [apply Z.ltb_ge in Ec; lia|]. apply bool_decide_eq_false in Ec.
      apply nil_length_inv. lia.
Qed.

(** ** The events *)

Lemma frame_history d d' : frame d d' -> forall x now, x ∈ history d -> x ∈ history d' \/ exp x < now.
Proof. intros []. rewrite fr_history0. auto. Qed.

(** What an event may change: dials end, the history forgets what is past. *)
Record handled (d : scheduler) (ss' : list start) (now : Z) (d' : scheduler) : Prop := {
  ha_ok : dialOk d';
  ha_trace ss clk : traceOk d ss clk -> clk <= now -> traceOk d' (ss ++ ss') now;
  ha_size : (size (dialing d') <= size (dialing d) + length ss')%nat;
  ha_config : config d' = config d
}.

Lemma handled_quiet d d' now :
  dialOk d' -> (size (dialing d') <= size (dialing d))%nat -> (forall x, x ∈ history d -> x ∈ history d' \/ exp x < now) -> config d' = config d ->
  handled d [] now d'.
Proof.
  intros Hok Hsz Hh Hc. split; try done; [|cbn; lia]. intros ss clk Htr Hle. rewrite app_nil_r. by apply (traceOk_mono d d' ss clk).
Qed.

Lemma alloc_dialOk d t : dialOk d -> staticPoolIndex t = -1 -> dialOk (alloc d t).1.
Proof.
  intros [Hb [H1 H2] Hr] Ht. assert (tasks d !! fresh d = None) as Hf.
  { destruct (tasks d !! fresh d) eqn:E; [|done]. pose proof (tasks_fresh d Hb (fresh d) ltac:(eauto)). lia. }
  assert (forall p n, destOf d p = Some n -> destOf (alloc d t).1 p = Some n) as Hdest.
  { intros p n. unfold destOf. cbn [tasks alloc fst]. intros E. rewrite lookup_insert_ne; [done|]. intros <-. by rewrite Hf in E. }
  split.
  - destruct Hb. split; cbn [static dialing history tasks fresh alloc fst]; [| |done|].
    + intros id p Hp. destruct (static_dest0 id p Hp) as (n & E & ?). exists n. auto.
    + intros id p Hp. destruct (dialing_dest0 id p Hp) as (n & E & ?). exists n. auto.
    + intros p. rewrite lookup_insert_is_Some. intros [<-|[_ Hp%tasks_fresh0]]; lia.
  - split; cbn [tasks staticPool alloc fst].
    + intros i p Hp. pose proof (H1 i p Hp) as E. rewrite lookup_insert_ne; [done|]. intros <-. by rewrite Hf in E.
    + intros p u. rewrite lookup_insert_Some. intros [[<- <-]|[_ Hp]] Hn; [done|by eapply H2].
  - intros p. change (staticPool (alloc d t).1) with (staticPool d). rewrite Hr. destruct (decide (p = fresh d)) as [->|Hne].
    + split; [intros (n & E & _); unfold destOf in E; by rewrite Hf in E|]. intros (n & _ & Es & _).
      destruct (static_dest d Hb _ _ Es) as (m & E & _). unfold destOf in E. by rewrite Hf in E.
    + unfold ready. assert (destOf (alloc d t).1 p = destOf d p) as E by (unfold destOf; cbn [tasks alloc fst]; by rewrite lookup_insert_ne).
      by setoid_rewrite E.
Qed.

(** A discovered node, accepted while the pool is empty. *)
Lemma handle_node d n now :
  dialOk d -> staticPool d = [] -> exists d' ss', handle d (Node n) now = Ret (d', ss') /\ handled d ss' now d' /\ (length ss' <= 1)%nat.
Proof.
  intros Hok Hpool. cbn [handle]. destruct (checkDial d n) eqn:Ec.
  { exists d, []. split_and!; [done| |cbn; lia]. apply handled_quiet; auto. }
  pose proof (alloc_dialOk d (newDialTask n dynDialedConn) Hok eq_refl) as [Hb Hi Hr]. unfold alloc in *. cbn [fst] in *.
  unfold startDial. cbn [tasks]. rewrite lookup_insert_eq. cbn [dest newDialTask]. eexists _, [_]. split; [done|]. split; [|cbn; lia].
  pose proof (heap_push_ok exp (history d) (mkExp (nodeID n) (now + dialHistoryExpiration)) (history_heap d (ok_base d Hok))) as [Hperm Hheap].
  match goal with |- handled _ [?s] _ ?d' => assert (begins d s now d') as Hbe end.
  { split; try done. by exists n. }
  split; [|intros ss clk Htr Hle; by eapply traceOk_begins|rewrite (begins_size _ _ _ _ Hbe); cbn; lia|done].
  split; [|by destruct Hi|].
  2: { cbn [staticPool setDialing] in *. intros p. rewrite Hr. split; intros (m & E & Es & Hc).
       - exfalso. assert (p ∈ staticPool d) as Hp by (apply Hr; by exists m). rewrite Hpool in Hp. by apply not_elem_of_nil in Hp.
       - exists m. split_and!; [done..|]. apply checkDial_None in Hc as (? & ? & Hd & ? & ? & Hh). apply checkDial_None. split_and!; try done.
         + cbn [dialing setDialing] in *. by apply lookup_insert_None in Hd as [? _].
         + cbn [history setDialing] in *. unfold add in Hh. rewrite Hperm in Hh. cbn in Hh. set_solver. }
  destruct Hb. split; cbn [static dialing history tasks fresh setDialing] in *; try done.
  intros id q. rewrite lookup_insert_Some. intros [[<- <-]|[_ Hq]]; [|by apply dialing_dest0].
  exists n. unfold destOf. cbn [tasks setDialing]. by rewrite lookup_insert_eq.
Qed.

(** The task that comes back is that of the running dial, for the same node. *)
Definition returns (d : scheduler) (p : nat) (t : dialTask) : Prop :=
  exists t0 resolver fails clock, tasks d !! p = Some t0 /\ dialing d !! nodeID (dest t0) = Some p /\ t = (run t0 resolver fails clock).1 /\
    match resolver with Some r => forall n n', r n = Some n' -> nodeID n' = nodeID n | None => True end.

Lemma resolve_keeps t resolver now later :
  match resolver with Some r => forall n n', r n = Some n' -> nodeID n' = nodeID n | None => True end ->
  let t' := (resolve t resolver now later).1 in
  nodeID (dest t') = nodeID (dest t) /\ staticPoolIndex t' = staticPoolIndex t /\ flags t' = flags t.
Proof.
  intros Hr. unfold resolve. destruct resolver as [r|]; [|done]. cbn zeta. cbn [lastResolved dest].
  destruct (_ && _); [done|]. destruct (r (dest t)) as [n|] eqn:E; [|done]. cbn. split; [by apply Hr|done].
Qed.

Lemma run_keeps t resolver fails clock :
  match resolver with Some r => forall n n', r n = Some n' -> nodeID n' = nodeID n | None => True end ->
  let t' := (run t resolver fails clock).1 in
  nodeID (dest t') = nodeID (dest t) /\ staticPoolIndex t' = staticPoolIndex t /\ flags t' = flags t.
Proof.
  intros Hr. unfold run.
  pose proof (resolve_keeps t resolver (clock 0%nat) (clock 1%nat) Hr) as H0.
  destruct (needResolve t); [destruct (resolve t _ _ _) as [t1 ok]|]; cbn [fst] in *; cbn zeta in H0 |- *.
  - destruct ok; [|done]. destruct (_ && _); [|done].
    pose proof (resolve_keeps t1 resolver (clock 2%nat) (clock 3%nat) Hr) as H1. destruct (resolve t1 _ _ _) as [t2 ok]. cbn in *.
    destruct H0 as (? & ? & ?), H1 as (? & ? & ?). split_and!; congruence.
  - destruct (_ && _); [|done].
    pose proof (resolve_keeps t resolver (clock 2%nat) (clock 3%nat) Hr) as H1. destruct (resolve t resolver (clock 2%nat) _) as [t2 ok]. exact H1.
Qed.

Lemma handle_done d p t now :
  dialOk d -> returns d p t -> exists d', handle d (Done p t) now = Ret (d', []) /\ handled d [] now d'.
Proof.
  intros [Hb Hi Hr] (t0 & resolver & fails & clock & Ht0 & Hd & -> & Hres).
  pose proof (run_keeps t0 resolver fails clock Hres) as (Eid & Eidx & _). set (t := (run _ _ _ _).1) in *. cbn [handle].
  assert (p ∉ staticPool d) as Hp.
  { intros Hin. destruct (proj1 (Hr p) Hin) as (n & En & _ & Hc). unfold destOf in En. rewrite Ht0 in En. injection En as <-.
    apply checkDial_None in Hc as (_ & _ & Hc & _). congruence. }
  assert (forall q n, destOf d q = Some n -> exists n', destOf (setTask d p t) q = Some n' /\ nodeID n' = nodeID n) as Hdest.
  { intros q n. unfold destOf. cbn [tasks setTask]. destruct (decide (p = q)) as [<-|]; rewrite ?lookup_insert_eq, ?lookup_insert_ne by done; [|eauto].
    rewrite Ht0. cbn. intros [= <-]. eauto. }
  set (d1 := setDialing _ _ _). assert (baseOk d1) as Hb1.
  { destruct Hb. split; cbn [d1 static dialing history tasks fresh setDialing setTask]; [| |done|].
    - intros id q Hq. destruct (static_dest0 id q Hq) as (n & E & <-). by apply Hdest.
    - intros id q [_ Hq]%lookup_delete_Some. destruct (dialing_dest0 id q Hq) as (n & E & <-). by apply Hdest.
    - intros q. rewrite lookup_insert_is_Some. intros [<-|[_ ?]]; eauto. }
  assert (idxOk d1) as Hi1.
  { destruct Hi as [H1 H2]. split; cbn [d1 tasks staticPool setDialing setTask].
    - intros i q Hq. rewrite lookup_insert_ne; [by apply H1|]. intros <-. apply Hp. by eapply list_elem_of_lookup_2.
    - intros q u. rewrite lookup_insert_Some. intros [[<- <-]|[_ Hq]] Hn; [|by eapply H2]. rewrite Eidx. by eapply H2. }
  assert (forall q n, destOf d1 q = Some n -> nodeID n <> nodeID (dest t) -> ready d1 q <-> ready d q) as Hiff.
  { intros q n En Hne. assert (q <> p) as Hqp.
    { intros ->. unfold destOf in En. cbn [d1 tasks setDialing setTask] in En. rewrite lookup_insert_eq in En. cbn in En. congruence. }
    assert (destOf d q = Some n) as En0 by (unfold destOf in *; cbn [d1 tasks setDialing setTask] in En; by rewrite lookup_insert_ne in En).
    apply (ready_alike d d1 q n); [done..|]. split_and!; try done. cbn [d1 dialing setDialing]. by rewrite lookup_delete_ne. }
  destruct (update_dialOk d1 (nodeID (dest t)) Hb1 Hi1) as (d' & -> & Hok' & Hf).
  { intros q Hq. pose proof (proj1 (Hr q) Hq) as Hrq. pose proof Hrq as (n & E & _ & Hc). apply checkDial_None in Hc as (_ & _ & Hc & _).
    assert (q <> p) as Hqp by (intros ->; done). apply (Hiff q n); [|congruence|done]. unfold destOf in *. cbn [d1 tasks setDialing setTask].
    by rewrite lookup_insert_ne. }
  { intros q n En Hne Hq. apply Hr. by apply (Hiff q n). }
  exists d'. split; [done|].
  apply handled_quiet; [done| |exact (fun x => frame_history d1 d' Hf x now)|by destruct Hf].
  destruct Hf. rewrite fr_dialing0. cbn [d1 dialing setDialing]. apply map_subseteq_size. apply delete_subseteq.
Qed.

Lemma setPeers_base d ps n : baseOk d -> baseOk (setPeers d ps n).
Proof. by intros []. Qed.

(** The task of a listed node leaves the pool if it is there. *)
Lemma remove_listed d d1 p t now :
  baseOk d1 -> idxOk d1 -> tasks d1 !! p = Some t -> (forall q, ready d1 q <-> q ∈ staticPool d1 /\ q <> p) ->
  dialing d1 = dialing d -> history d1 = history d -> config d1 = config d -> (0 <= staticPoolIndex t \/ p ∉ staticPool d1) ->
  exists d', (if 0 <=? staticPoolIndex t then let! d := removeFromStaticPool d1 (staticPoolIndex t) in Ret (d, []) else Ret (d1, ([] : list start))) = Ret (d', []) /\
    handled d [] now d'.
Proof.
  intros Hb Hi Ht Hr Ed Eh Ec Hcase. case_match eqn:E.
  - apply Z.leb_le in E. pose proof (in_pool_index d1 p t Hi Ht E) as Hp.
    destruct (remove_dialOk d1 _ p Hb Hi Hp Hr) as (d' & Erem & Hok & _ & Hf). rewrite Z2Nat.id in Erem by done. rewrite Erem.
    exists d'. split; [done|]. pose proof Hf as []. apply handled_quiet; [done|by rewrite fr_dialing0, Ed| |congruence].
    intros x. rewrite fr_history0, Eh. auto.
  - apply Z.leb_gt in E. exists d1. split; [done|]. apply handled_quiet; [|by rewrite Ed|rewrite Eh; auto|done].
    split; [done..|]. intros q. rewrite Hr. split; [|tauto]. intros Hq. split; [done|]. intros ->. destruct Hcase; [lia|done].
Qed.

Lemma index_or_out d p t : idxOk d -> tasks d !! p = Some t -> 0 <= staticPoolIndex t \/ p ∉ staticPool d.
Proof.
  intros Hi Ht. destruct (decide (p ∈ staticPool d)) as [Hin|]; [left|by right]. apply list_elem_of_lookup_1 in Hin as [i Hp].
  pose proof (in_pool d Hi i p Hp) as E. rewrite Ht in E. injection E. lia.
Qed.

Lemma static_task d id p : baseOk d -> static d !! id = Some p -> exists t, tasks d !! p = Some t /\ nodeID (dest t) = id.
Proof.
  intros Hb Hs. destruct (static_dest d Hb id p Hs) as (n & En & Eid). unfold destOf in En. destruct (tasks d !! p) as [t|]; [|done].
  injection En as <-. by exists t.
Qed.

Lemma handle_addPeer d c now : dialOk d -> exists d', handle d (AddPeer c) now = Ret (d', []) /\ handled d [] now d'.
Proof.
  intros [Hb Hi Hr]. cbn [handle]. set (d1 := setPeers _ _ _). set (id := nodeID (connNode c)) in *.
  assert (forall q, static d !! id <> Some q -> ready d1 q <-> ready d q) as Hr1.
  { intros q Hne. apply (ready_away d d1 id q); try done. intros i Hi'. split_and!; try done. cbn [d1 peers setPeers]. set_solver. }
  assert (idxOk d1) as Hi1 by by destruct Hi.
  assert (baseOk d1) as Hb1 by by apply setPeers_base. change (static d1) with (static d). destruct (static d !! id) as [p|] eqn:Es.
  - destruct (static_task d id p Hb Es) as (t & Ht & Eid). change (tasks d1) with (tasks d). rewrite Ht.
    apply (remove_listed d d1 p t now); try done; [|by apply index_or_out]. intros q. change (staticPool d1) with (staticPool d). rewrite Hr.
    destruct (decide (q = p)) as [->|Hne]; [|rewrite Hr1 by congruence; tauto]. split; [|tauto]. intros (n & En & _ & Hc).
    apply checkDial_None in Hc as (_ & _ & _ & Hc & _). destruct Hc. cbn [d1 peers setPeers].
    assert (nodeID n = id) as -> by (unfold destOf in En; change (tasks d1) with (tasks d) in En; rewrite Ht in En; injection En as <-; done). set_solver.
  - exists d1. split; [done|]. apply handled_quiet; [|done|auto|done]. split; [done..|]. intros q. rewrite Hr1 by congruence. apply Hr.
Qed.

Lemma handle_remPeer d c now : dialOk d -> exists d', handle d (RemPeer c) now = Ret (d', []) /\ handled d [] now d'.
Proof.
  intros [Hb Hi Hr]. cbn [handle]. set (d1 := setPeers _ _ _). set (id := nodeID (connNode c)) in *.
  destruct (update_dialOk d1 id) as (d' & -> & Hok' & Hf); [by apply setPeers_base|by destruct Hi|..].
  { intros q Hq. pose proof (proj1 (Hr q) Hq) as Hrq. pose proof Hrq as (n & E & Es & Hc). apply checkDial_None in Hc as (_ & _ & ? & ? & _ & ?).
    apply (ready_alike d d1 q n); try done. split_and!; try done. cbn [d1 peers setPeers]. set_solver. }
  { intros q n En Hne Hq. apply Hr. apply (ready_alike d d1 q n); try done. split_and!; try done. cbn [d1 peers setPeers]. set_solver. }
  exists d'. split; [done|].
  apply handled_quiet; [done| |exact (fun x => frame_history d1 d' Hf x now)|by destruct Hf]. destruct Hf. by rewrite fr_dialing0.
Qed.

Lemma handle_addStatic d n now : dialOk d -> exists d', handle d (AddStatic n) now = Ret (d', []) /\ handled d [] now d'.
Proof.
  intros Hok. cbn [handle]. destruct (static d !! nodeID n) as [q|] eqn:Es.
  { exists d. split; [done|]. apply handled_quiet; auto. }
  pose proof (alloc_dialOk d (newDialTask n staticDialedConn) Hok eq_refl) as [Hb Hi Hr]. unfold alloc in *. cbn [fst] in *.
  set (da := mkScheduler _ _ _ _ _ _ _ _ _ _) in *. cbn [static staticPool da]. set (d1 := setStatic _ _ _).
  assert (tasks d1 !! fresh d = Some (newDialTask n staticDialedConn)) as Ht by apply lookup_insert_eq.
  assert (idxOk d1) as Hi1 by by destruct Hi.
  assert (baseOk d1) as Hb1.
  { destruct Hb. split; try done. intros id p. cbn [d1 static setStatic]. rewrite lookup_insert_Some. intros [[<- <-]|[_ Hp]]; [|by apply static_dest0].
    exists n. unfold destOf. by rewrite Ht. }
  assert (fresh d ∉ staticPool d1) as Hp.
  { intros Hin%(ok_ready d Hok). destruct Hin as (m & E & _). unfold destOf in E. destruct (tasks d !! fresh d) eqn:Ef; [|done].
    pose proof (tasks_fresh d (ok_base d Hok) (fresh d) ltac:(eauto)). lia. }
  assert (forall q, ready d1 q <-> q ∈ staticPool d1 \/ q = fresh d /\ checkDial d1 n = None) as Hr1.
  { intros q. destruct (decide (q = fresh d)) as [->|Hne].
    - unfold ready, destOf. rewrite Ht. split; [intros (m & [= <-] & _ & Hc); auto|]. intros [Hq|[_ Hc]]; [done|].
      exists n. split_and!; [done|apply lookup_insert_eq|done].
    - rewrite (ready_away da d1 (nodeID n) q); try done; [rewrite <- Hr; cbn [staticPool da d1 setStatic]; tauto| |cbn [static da]; congruence|].
      + intros i Hi'. split_and!; try done. cbn [d1 static setStatic da]. by rewrite lookup_insert_ne.
      + cbn [d1 static setStatic da]. rewrite lookup_insert_eq. congruence. }
  case_decide as Hc.
  - destruct (addToStaticPool_ok d1 (fresh d) _ Hi1 Ht Hp) as (d' & -> & Hi' & Epool & Hf). exists d'. split; [done|].
    apply handled_quiet; [|destruct Hf; by rewrite fr_dialing0|exact (fun x => frame_history d1 d' Hf x now)|by destruct Hf].
    split; [by eapply frame_base|done|]. intros q. rewrite (frame_ready d1 d'), Hr1, Epool, elem_of_app, list_elem_of_singleton by done. tauto.
  - exists d1. split; [done|]. apply handled_quiet; auto. split; [done..|]. intros q. rewrite Hr1. tauto.
Qed.

Lemma handle_remStatic d n now : dialOk d -> exists d', handle d (RemStatic n) now = Ret (d', []) /\ handled d [] now d'.
Proof.
  intros Hok. pose proof Hok as [Hb Hi Hr]. cbn [handle]. destruct (static d !! nodeID n) as [p|] eqn:Es.
  2: { exists d. split; [done|]. apply handled_quiet; auto. }
  set (d1 := setStatic _ _ _). destruct (static_task d _ p Hb Es) as (t & Ht & Eid). change (tasks d1) with (tasks d). rewrite Ht.
  assert (idxOk d1) as Hi1 by by destruct Hi. apply (remove_listed d d1 p t now); try done; [| |by apply index_or_out].
  - destruct Hb. split; try done. intros id q. cbn [d1 static setStatic]. rewrite lookup_delete_Some. intros [_ ?]. by apply static_dest0.
  - intros q. change (staticPool d1) with (staticPool d). rewrite Hr. destruct (decide (q = p)) as [->|Hne].
    + split; [|tauto]. intros (m & E & Esm & _). unfold destOf in E. change (tasks d1) with (tasks d) in E. rewrite Ht in E. injection E as <-.
      cbn [d1 static setStatic] in Esm. by rewrite Eid, lookup_delete_eq in Esm.
    + rewrite (ready_away d d1 (nodeID n) q); [tauto|done|done| |congruence|].
      * intros i Hi'. split_and!; try done. cbn [d1 static setStatic]. by rewrite lookup_delete_ne.
      * cbn [d1 static setStatic]. by rewrite lookup_delete_eq.
Qed.

Lemma expireHistoryLoop_ok fuel d now :
  dialOk d -> (length (history d) <= fuel)%nat ->
  exists d', expireHistoryLoop fuel d now = Ret d' /\ handled d [] now d' /\ Forall (fun x => now <= exp x) (history d').
Proof.
  revert d. induction fuel as [|fuel IH]; intros d Hok Hf; cbn [expireHistoryLoop].
  { exists d. apply Nat.le_0_r, nil_length_inv in Hf. split_and!; [done| |by rewrite Hf]. apply handled_quiet; auto. }
  destruct (history d !! 0%nat) as [top|] eqn:Etop.
  2: { exists d. assert (history d = []) as Eh by (by destruct (history d)). split_and!; [done| |by rewrite Eh]. apply handled_quiet; auto. }
  destruct (heap_pop_ok exp (history d) (history_heap d (ok_base d Hok))) as (x & r & Epop & Hperm & Hheap & Ex & Hmin).
  { intros E. by rewrite E in Etop. }
  assert (x = top) as -> by congruence. destruct (Z.ltb_spec (exp top) now) as [Hlt|Hge].
  2: { exists d. split_and!; [done|apply handled_quiet; auto|]. eapply Forall_impl; [exact Hmin|]. cbn. lia. }
  rewrite Epop. set (d1 := setHistory _ _ _). pose proof Hok as [Hb Hi Hr].
  destruct (update_dialOk d1 (item top)) as (d2 & -> & Hok2 & Hf2); [by destruct Hb|by destruct Hi|..].
  { intros q Hq. pose proof (proj1 (Hr q) Hq) as Hrq. pose proof Hrq as (m & E & Esm & Hc).
    apply checkDial_None in Hc as (_ & _ & _ & _ & _ & Hh). apply (ready_alike d d1 q m); try done. split_and!; try done.
    cbn [d1 history setHistory]. rewrite Hperm in Hh |- *. cbn in *. set_solver. }
  { intros q m En Hne Hq. apply Hr. apply (ready_alike d d1 q m); try done. split_and!; try done. cbn [d1 history setHistory].
    rewrite Hperm. cbn. set_solver. }
  assert (history d2 = r) as Eh2 by by destruct Hf2. apply Permutation_length in Hperm as Hl. cbn in Hl.
  destruct (IH d2 Hok2) as (d' & E' & [] & Hall); [rewrite Eh2; lia|]. exists d'. split_and!; [done| |done].
  pose proof Hf2 as []. split; [done| |cbn [length] in *; rewrite fr_dialing0 in ha_size0; exact ha_size0|by rewrite ha_config0, fr_config0].
  intros ss clk Htr Hle. apply (ha_trace0 ss now); [|lia]. apply (traceOk_mono d d2 ss clk); [by rewrite fr_config0|done| |done].
  intros y Hy. rewrite Hperm in Hy. rewrite Eh2. apply elem_of_cons in Hy as [->|]; auto.
Qed.

Lemma handle_historyExp d now e :
  dialOk d -> historyTimer d = Some e ->
  exists d', handle d HistoryExp now = Ret (d', []) /\ handled d [] now d' /\ Forall (fun x => now <= exp x) (history d').
Proof.
  intros [Hb Hi Hr] He. cbn [handle]. unfold expireHistory. rewrite He. set (d1 := setHistory _ _ _).
  assert (dialOk d1) as Hok1 by (split; [by destruct Hb|by destruct Hi|done]).
  destruct (expireHistoryLoop_ok (length (history d1)) d1 now Hok1) as (d' & E & [Hok' Htr' Hsz' Hc'] & Hall); [done|].
  rewrite E. exists d'. split_and!; [done| |done]. split; try done.
  intros ss clk Htr Hle. apply (Htr' ss clk); [|done]. by destruct Htr.
Qed.

(** ** Runs of the loop *)

(** The events that can come: a discovered node while the loop listens for one, the end of a running dial, a timer that is set. *)
Definition enabled (d : scheduler) (accept : bool) (now : Z) (e : event) : Prop :=
  match e with
  | Node _ => accept = true
  | Done p t => returns d p t
  | HistoryExp => exists at_, historyTimer d = Some at_ /\ at_ <= now
  | _ => True
  end.

Lemma dial_handle_ok d accept e now :
  dialOk d -> (accept = true -> staticPool d = []) -> enabled d accept now e ->
  exists d' ss', handle d e now = Ret (d', ss') /\ handled d ss' now d' /\ (length ss' <= if accept then 1 else 0)%nat.
Proof.
  intros Hok Hpool Hen. assert (forall d', handle d e now = Ret (d', []) -> handled d [] now d' ->
    exists d' ss', handle d e now = Ret (d', ss') /\ handled d ss' now d' /\ (length ss' <= if accept then 1 else 0)%nat) as Hquiet.
  { intros d' E H. exists d', []. split_and!; [done..|cbn; lia]. }
  destruct e as [n|p t|c|c|n|n|]; cbn [enabled] in Hen.
  - subst accept. apply handle_node; auto.
  - destruct (handle_done d p t now Hok Hen) as (d' & E & H). eauto.
  - destruct (handle_addPeer d c now Hok) as (d' & E & H). eauto.
  - destruct (handle_remPeer d c now Hok) as (d' & E & H). eauto.
  - destruct (handle_addStatic d n now Hok) as (d' & E & H). eauto.
  - destruct (handle_remStatic d n now Hok) as (d' & E & H). eauto.
  - destruct Hen as (at_ & Hat & _). destruct (handle_historyExp d now at_ Hok Hat) as (d' & E & H & _). eauto.
Qed.

(** Only a discovered node is dialled at once, and no connected one. *)
Lemma handle_strangers d e now d' ss' : handle d e now = Ret (d', ss') -> Forall (fun s => toNode s ∉ peers d) ss'.
Proof.
  assert (forall (m : go scheduler), (let! d := m in Ret (d, [] : list start)) = Ret (d', ss') -> ss' = []) as Hq by (intros [x|]; [by intros [= _ <-]|done]).
  destruct e as [n|p t|c|c|n|n|]; cbn [handle]; intros H.
  - destruct (checkDial d n) eqn:Ec; [by simplify_eq|]. unfold alloc, startDial in H. cbn [tasks] in H. rewrite lookup_insert_eq in H. injection H as _ <-.
    constructor; [|constructor]. apply checkDial_None in Ec as (_ & _ & _ & Hn & _). done.
  - by rewrite (Hq _ H).
  - cbn [static setPeers] in H. destruct (static d !! _); [|by simplify_eq]. cbn [tasks setPeers] in H. destruct (tasks d !! _); [|done]. destruct (0 <=? _); [by rewrite (Hq _ H)|by simplify_eq].
  - by rewrite (Hq _ H).
  - destruct (static d !! nodeID n); [by simplify_eq|]. destruct (alloc d (newDialTask n staticDialedConn)) as [d0 p0]. case_decide; [by rewrite (Hq _ H)|by simplify_eq].
  - destruct (static d !! nodeID n); [|by simplify_eq]. cbn [tasks setStatic] in H. destruct (tasks d !! _); [|done]. destruct (0 <=? _); [by rewrite (Hq _ H)|by simplify_eq].
  - by rewrite (Hq _ H).
Qed.

Lemma rearm_frame d : dialOk d -> dialOk (rearmHistoryTimer d).
Proof.
  intros [Hb Hi Hr]. unfold rearmHistoryTimer. destruct (nextExpiry _); [|done]. case_decide; [done|]. split; [by destruct Hb|by destruct Hi|done].
Qed.

Lemma rearm_fields d :
  let d' := rearmHistoryTimer d in
  dialing d' = dialing d /\ history d' = history d /\ config d' = config d /\ peers d' = peers d /\ dialPeers d' = dialPeers d /\
  staticPool d' = staticPool d /\ tasks d' = tasks d.
Proof. unfold rearmHistoryTimer. destruct (nextExpiry _); [|done]. by case_decide. Qed.

Lemma launch_ok d draw now :
  dialOk d ->
  exists d' ss' accept, launch d draw now = Ret (d', ss', accept) /\ launched d ss' now d' /\
    Z.of_nat (length ss') <= Z.max 0 (freeDialSlots d) /\ (Z.of_nat (length ss') < freeDialSlots d -> staticPool d' = []) /\
    staticPool d ≡ₚ (started <$> ss') ++ staticPool d' /\ (accept = true <-> Z.of_nat (length ss') < freeDialSlots d).
Proof.
  intros Hok. unfold launch. destruct (startStaticDials_ok (length (staticPool d)) d (freeDialSlots d) draw now Hok) as (d' & ss' & -> & [] & Hle & Hp & Hperm); [done|].
  eexists _, _, _. split; [done|]. destruct (rearm_fields d') as (Ed & Eh & Ec & Ep & Edp & Epool & _). rewrite Epool. split_and!; [|done|done|done|].
  - split; [by apply rearm_frame| |congruence..|done]. intros ss clk Htr Hclk. apply (traceOk_mono d' _ _ now); [done|lia| |eauto]. rewrite Eh. auto.
  - rewrite Z.ltb_lt. lia.
Qed.

(** States of the loop with the starts so far and the last reading of the clock. *)
Inductive reach (c : dialConfig) : scheduler -> list start -> Z -> Prop :=
| reach_new clk : reach c (newDialScheduler c) [] clk
| reach_round d ss clk draw now d1 ss1 accept e later d2 ss2 :
    reach c d ss clk -> clk <= now <= later ->
    launch d draw now = Ret (d1, ss1, accept) -> enabled d1 accept later e -> handle d1 e later = Ret (d2, ss2) ->
    reach c d2 (ss ++ ss1 ++ ss2) later.

Lemma newDialScheduler_ok c : dialOk (newDialScheduler c).
Proof.
  split.
  - split; cbn; try done; intros; try lia. by apply is_Some_None in H.
  - split; cbn; done.
  - intros p. split; [intros Hp; by apply not_elem_of_nil in Hp|]. intros (n & E & _). by unfold destOf in E.
Qed.

Lemma freeDialSlots_active d : freeDialSlots d <= maxActiveDials (config d) - Z.of_nat (size (dialing d)).
Proof. unfold freeDialSlots. lia. Qed.

Lemma reach_ok c d ss clk :
  reach c d ss clk ->
  dialOk d /\ traceOk d ss clk /\ config d = withDefaults c /\ Z.of_nat (size (dialing d)) <= Z.max 0 (maxActiveDials (withDefaults c)).
Proof.
  induction 1 as [clk|d ss clk draw now d1 ss1 accept e later d2 ss2 _ (Hok & Htr & Hc & Hsz) Hclk Hl Hen Hh].
  - split_and!; [apply newDialScheduler_ok| |done|cbn [dialing newDialScheduler]; rewrite map_size_empty; lia]. split; [constructor| |constructor]. intros i j s u _ Hs. done.
  - destruct (launch_ok d draw now Hok) as (d1' & ss1' & acc' & El & [] & Hle & Hpool & _ & Hacc). rewrite El in Hl. simplify_eq.
    destruct (dial_handle_ok d1 accept e later la_ok0) as (d2' & ss2' & Eh & [] & Hle2); [intros Ha; by apply Hpool, Hacc|done|]. rewrite Eh in Hh. simplify_eq.
    split_and!; [done| |congruence|].
    + rewrite app_assoc. apply (ha_trace0 _ now); [|lia]. apply (la_trace0 _ clk); [done|lia].
    + pose proof (freeDialSlots_active d). rewrite Hc in *. destruct accept; [pose proof (proj1 Hacc eq_refl)|]; lia.
Qed.

End DialLemmas.

Import DialLemmas.

(** The dial loop never panics. From every state that it reaches by events as they can come, the launch of static dials
    succeeds, and so does each event that can then come; and no more than [maxActiveDials] dials run. *)
Theorem dial_loop_total c d ss clk :
  reach c d ss clk ->
  (forall draw now, exists d1 ss1 accept, launch d draw now = Ret (d1, ss1, accept) /\
     forall e later, enabled d1 accept later e -> exists d2 ss2, handle d1 e later = Ret (d2, ss2)) /\
  Z.of_nat (size (dialing d)) <= Z.max 0 (maxActiveDials (withDefaults c)).
Proof.
  intros (Hok & _ & _ & Hsz)%reach_ok. split; [|done]. intros draw now.
  destruct (launch_ok d draw now Hok) as (d1 & ss1 & accept & -> & [] & _ & Hpool & _ & Hacc). exists d1, ss1, accept. split; [done|].
  intros e later Hen. destruct (dial_handle_ok d1 accept e later la_ok0) as (d2 & ss2 & E & _); [intros Ha; by apply Hpool, Hacc|done|eauto].
Qed.

(** C11: The pool of static tasks, which is kept up to date event by event through indices stored in the tasks, is at all times
    exactly the set of tasks of listed nodes that [checkDial] allows; and a launch takes as many of them as there are free slots,
    each once. *)
Theorem static_pool_exact c d ss clk :
  reach c d ss clk ->
  NoDup (staticPool d) /\
  (forall p, p ∈ staticPool d <-> exists t, tasks d !! p = Some t /\ static d !! nodeID (dest t) = Some p /\ checkDial d (dest t) = None) /\
  (forall draw now, exists d1 ss1 accept, launch d draw now = Ret (d1, ss1, accept) /\
     staticPool d ≡ₚ (started <$> ss1) ++ staticPool d1 /\
     Z.of_nat (length ss1) = Z.min (Z.max 0 (freeDialSlots d)) (Z.of_nat (length (staticPool d)))).
Proof.
  intros (Hok & _ & _ & _)%reach_ok. split_and!.
  - apply idxOk_NoDup, Hok.
  - intros p. rewrite (ok_ready d Hok). unfold ready, destOf. destruct (tasks d !! p) as [t|]; cbn; [|naive_solver].
    split; [intros (n & [= <-] & ?); by exists t|]. intros (t' & [= <-] & ?). by exists (dest t).
  - intros draw now. destruct (launch_ok d draw now Hok) as (d1 & ss1 & accept & -> & _ & Hle & Hpool & Hperm & _).
    exists d1, ss1, accept. split_and!; [done..|]. pose proof (Permutation_length Hperm) as Hlen. rewrite length_app, length_fmap in Hlen.
    destruct (decide (Z.of_nat (length ss1) < freeDialSlots d)) as [Hlt|Hge]; [|lia]. rewrite (Hpool Hlt) in Hlen. cbn in Hlen. lia.
Qed.

(** No node is dialled again within [dialHistoryExpiration] (35 seconds) of an earlier dial to it, be the dials static
    or dynamic, and the scheduler never dials its own node. *)
Theorem redial_spacing c d ss clk :
  reach c d ss clk ->
  (forall i j s u, (i < j)%nat -> ss !! i = Some s -> ss !! j = Some u -> toNode s = toNode u -> atTime s + dialHistoryExpiration < atTime u) /\
  Forall (fun s => toNode s <> selfID c) ss.
Proof. intros (_ & [] & Hc & _)%reach_ok. split; [done|]. by rewrite Hc in tr_self0. Qed.

(** ** A run: a node is listed, dialled, and dialled again when its time is over *)

Module DialDemo.

Definition demoConfig : dialConfig := mkConfig [0] 2 0 None.
Definition demoNode : enode := mkEnode [1] [] 0.
Definition demoTask : dialTask := newDialTask demoNode staticDialedConn.
Definition demoResolver (n : enode) : option enode := Some (mkEnode (nodeID n) [10; 0; 0; 1] 30303).
Definition demoClock (i : nat) : Z := 2000 + Z.of_nat i.

(** A round as a function, with the first task of the pool drawn. *)
Definition demoRound (st : scheduler * list start) (now : Z) (e : event) : scheduler * list start :=
  match launch st.1 (fun _ => 0%nat) now with
  | Ret (d1, ss1, _) => match handle d1 e now with Ret (d2, ss2) => (d2, st.2 ++ ss1 ++ ss2) | Panic => st end
  | Panic => st
  end.

Definition demo0 : scheduler * list start := (newDialScheduler demoConfig, []).
Definition demo1 : scheduler * list start := demoRound demo0 1000 (AddStatic demoNode).
Definition demo2 : scheduler * list start := demoRound demo1 2000 (Done 0 (run demoTask (Some demoResolver) true demoClock).1).
Definition demo3 : scheduler * list start := demoRound demo2 (40 * 10 ^ 9) HistoryExp.
Definition demo4 : scheduler * list start := demoRound demo3 (41 * 10 ^ 9) (AddStatic demoNode).

Definition demoLaunched (st : scheduler * list start) (now : Z) : scheduler * bool :=
  match launch st.1 (fun _ => 0%nat) now with Ret (d1, _, accept) => (d1, accept) | Panic => (st.1, false) end.

Definition demoReturns (st : scheduler * list start) (now : Z) (e : event) : bool :=
  match launch st.1 (fun _ => 0%nat) now with
  | Ret (d1, _, _) => match handle d1 e now with Ret _ => true | Panic => false end
  | Panic => false
  end.

Lemma demoRound_reach st clk now e :
  reach demoConfig st.1 st.2 clk -> clk <= now -> enabled (demoLaunched st now).1 (demoLaunched st now).2 now e ->
  demoReturns st now e = true -> reach demoConfig (demoRound st now e).1 (demoRound st now e).2 now.
Proof.
  intros Hr Hle. unfold demoRound, demoLaunched, demoReturns. destruct (launch st.1 _ now) as [[[d1 ss1] accept]|] eqn:El; [|done]. intros Hen Hh.
  destruct (handle d1 e now) as [[d2 ss2]|] eqn:Eh; [|done]. by eapply (reach_round _ st.1 st.2 clk).
Qed.

Lemma demo_reach1 : reach demoConfig demo1.1 demo1.2 1000.
Proof. apply (demoRound_reach demo0 0); [apply reach_new|lia|exact I|vm_compute; reflexivity]. Qed.

Lemma demo_reach2 : reach demoConfig demo2.1 demo2.2 2000.
Proof.
  apply (demoRound_reach demo1 1000); [exact demo_reach1|lia| |vm_compute; reflexivity].
  exists demoTask, (Some demoResolver), true, demoClock. split_and!; [vm_compute; reflexivity..|]. intros n n' [= <-]. done.
Qed.

Lemma demo_reach3 : reach demoConfig demo3.1 demo3.2 (40 * 10 ^ 9).
Proof.
  apply (demoRound_reach demo2 2000); [exact demo_reach2|lia| |vm_compute; reflexivity].
  exists (2000 + dialHistoryExpiration). split; [vm_compute; reflexivity|vm_compute; discriminate].
Qed.

Lemma demo_reach : reach demoConfig demo4.1 demo4.2 (41 * 10 ^ 9).
Proof. apply (demoRound_reach demo3 (40 * 10 ^ 9)); [exact demo_reach3|lia|exact I|vm_compute; reflexivity]. Qed.

End DialDemo.

Import DialDemo.

Lemma dial_loop_total_witness : Z.of_nat (size (dialing demo4.1)) <= 50.
Proof. exact (proj2 (dial_loop_total demoConfig _ _ _ demo_reach)). Defined.

Lemma static_pool_exact_witness : 0%nat ∈ staticPool demo3.1.
Proof.
  apply (proj1 (proj2 (static_pool_exact demoConfig _ _ _ demo_reach3))). eexists. split_and!; vm_compute; reflexivity.
Defined.

Lemma redial_spacing_witness : atTime <$> demo4.2 = [2000; 41 * 10 ^ 9] /\ 2000 + dialHistoryExpiration < 41 * 10 ^ 9.
Proof.
  split; [vm_compute; reflexivity|].
  apply (proj1 (redial_spacing demoConfig _ _ _ demo_reach) 0%nat 1%nat (mkStart 0 [1] 2000) (mkStart 0 [1] (41 * 10 ^ 9))); vm_compute; reflexivity || lia.
Defined.
