(* ===== verification/P2PPeer.v ===== *)
(** * Peers of the p2p layer: matched protocols, message codes, the write token (src/p2p/peer.go, protocol.go, peer_error.go)

    Names are byte strings. The table of running protocols is a map, ranged over in any order; the goroutines of a peer are steps
    over the contents of the channels between them. *)

From stdpp Require Import base tactics list gmap fin_maps.
From Stdlib Require Import ZArith Lia.
From S2P Require Import Prelude.

Open Scope Z_scope.

Module Peer.

(** ** Capabilities *)

Record Cap := mkCap { capName : list Z; capVersion : Z }.
#[global] Instance Cap_eq_dec : EqDecision Cap.
Proof. solve_decision. Defined.

Record Protocol := mkProtocol { Name : list Z; Version : Z; Length : Z }.

Definition cap (p : Protocol) : Cap := mkCap (Name p) (Version p).

(** The order of Go strings. *)
Fixpoint strLess (a b : list Z) : bool :=
  match a, b with
  | _, [] => false
  | [], _ :: _ => true
  | x :: a, y :: b => (x <? y) || ((x =? y) && strLess a b)
  end.

Definition Less (a b : Cap) : bool :=
  strLess (capName a) (capName b) || (bool_decide (capName a = capName b) && (capVersion a <? capVersion b)).

(** ** Matching *)

Definition matches (c : Cap) (p : Protocol) : bool := bool_decide (Name p = capName c) && (Version p =? capVersion c).

Definition countMatchingProtocols (protocols : list Protocol) (caps : list Cap) : nat :=
  foldl (fun n c => foldl (fun n p => if matches c p then S n else n) n protocols) 0%nat caps.

Definition baseProtocolLength : Z := 16.

Record protoRW := mkRW { proto : Protocol; offset : Z }.

(** The protocol for a capability: the inner loop ends with the first one. *)
Fixpoint firstMatch (c : Cap) (protocols : list Protocol) : option Protocol :=
  match protocols with
  | [] => None
  | p :: protocols => if matches c p then Some p else firstMatch c protocols
  end.

(** One capability: the offset and the table after it. Offsets are 64 bits wide. *)
Definition matchCap (protocols : list Protocol) (st : Z * gmap (list Z) protoRW) (c : Cap) : Z * gmap (list Z) protoRW :=
  match firstMatch c protocols with
  | None => st
  | Some p =>
      let '(off, result) := st in
      let off := match result !! capName c with Some old => u64 (off - Length (proto old)) | None => off end in
      (u64 (off + Length p), <[capName c := mkRW p off]> result)
  end.

Definition matchProtocols `{SortSlice} (protocols : list Protocol) (caps : list Cap) : gmap (list Z) protoRW :=
  (foldl (matchCap protocols) (baseProtocolLength, ∅) (sort_slice Less caps)).2.

Definition RunningCap (running : gmap (list Z) protoRW) (protocol : list Z) (versions : list Z) : bool :=
  match running !! protocol with
  | Some rw => existsb (fun v => Version (proto rw) =? v) versions
  | None => false
  end.

(** ** Message codes *)

(** The running protocols in the order in which the map is ranged over. *)
Fixpoint getProto (running : list protoRW) (code : Z) : option protoRW :=
  match running with
  | [] => None
  | rw :: running =>
      if (offset rw <=? code) && (code <? u64 (offset rw + Length (proto rw))) then Some rw else getProto running code
  end.

Definition handshakeMsg : Z := 0.
Definition discMsg : Z := 1.
Definition pingMsg : Z := 2.
Definition pongMsg : Z := 3.

Inductive action := SendPong | Disconnected | Discarded | Deliver (rw : protoRW) | ErrOutOfRange.

Definition handle (running : list protoRW) (code : Z) : action :=
  if code =? pingMsg then SendPong
  else if code =? discMsg then Disconnected
  else if code <? baseProtocolLength then Discarded
  else match getProto running code with Some rw => Deliver rw | None => ErrOutOfRange end.

(** The code on the wire; [None] is errInvalidMsgCode. *)
Definition WriteMsg (rw : protoRW) (code : Z) : option Z := if Length (proto rw) <=? code then None else Some (u64 (code + offset rw)).

Definition ReadMsg (rw : protoRW) (code : Z) : Z := u64 (code - offset rw).

(** ** Reasons *)

Definition DiscRequested : Z := 0.
Definition DiscNetworkError : Z := 1.
Definition DiscProtocolError : Z := 2.
Definition DiscUselessPeer : Z := 3.
Definition DiscTooManyPeers : Z := 4.
Definition DiscAlreadyConnected : Z := 5.
Definition DiscInvalidIdentity : Z := 7.
Definition DiscQuitting : Z := 8.
Definition DiscUnexpectedIdentity : Z := 9.
Definition DiscSelf : Z := 10.
Definition DiscSubprotocolError : Z := 16.

Inductive peerErr := errDisc (r : Z) | errProtocolReturned | errInvalidMsgCode | errInvalidMsg | errOther.

Definition discReasonForError (e : peerErr) : Z :=
  match e with
  | errDisc r => r
  | errProtocolReturned => DiscQuitting
  | errInvalidMsgCode | errInvalidMsg => DiscProtocolError
  | errOther => DiscSubprotocolError
  end.

(** ** The loop of a peer and the token for writes

    [wstart] and [werr] are the contents of the two channels, each with room for one; [writers] are the protocols between the two. *)

Inductive loopState := Running | Blocked | Ended (remoteRequested : bool) (reason : Z).

Record peer := mkPeer {
  wstart : nat;
  writers : list (list Z);
  werr : list (option peerErr);
  loop : loopState
}.

Definition newPeer : peer := mkPeer 1 [] [] Running.

Inductive step :=
| StartWrite (name : list Z)           (* a protocol takes the token *)
| EndWrite (i : nat) (err : option peerErr)
| WriteErr                             (* the cases of the select *)
| ReadErr (err : peerErr)
| ProtoErr (err : peerErr)
| Disc (reason : Z).

(** [None]: the step cannot be taken. A send on a full channel blocks. *)
Definition take_step (p : peer) (s : step) : option peer :=
  match s with
  | StartWrite name =>
      match wstart p with
      | O => None
      | S n => Some (mkPeer n (name :: writers p) (werr p) (loop p))
      end
  | EndWrite i err =>
      match writers p !! i, werr p with
      | Some _, [] => Some (mkPeer (wstart p) (delete i (writers p)) [err] (loop p))
      | _, _ => None
      end
  | WriteErr =>
      match loop p, werr p with
      | Running, err :: rest =>
          match err with
          | Some _ => Some (mkPeer (wstart p) (writers p) rest (Ended false DiscNetworkError))
          | None =>
              match wstart p with
              | O => Some (mkPeer 1 (writers p) rest Running)
              | S _ => Some (mkPeer (wstart p) (writers p) rest Blocked)
              end
          end
      | _, _ => None
      end
  | ReadErr err =>
      match loop p with
      | Running =>
          Some (mkPeer (wstart p) (writers p) (werr p)
            (match err with errDisc r => Ended true r | _ => Ended false DiscNetworkError end))
      | _ => None
      end
  | ProtoErr err =>
      match loop p with
      | Running => Some (mkPeer (wstart p) (writers p) (werr p) (Ended false (discReasonForError err)))
      | _ => None
      end
  | Disc reason =>
      match loop p with
      | Running => Some (mkPeer (wstart p) (writers p) (werr p) (Ended false (discReasonForError (errDisc reason))))
      | _ => None
      end
  end.

End Peer.
