(* ===== verification/P2PPeerProps.v ===== *)
(** * Properties of peers (P2PPeer.v)

    The table of matched protocols in closed form, the message codes of two ends that matched each other, and the token for writes. *)

From stdpp Require Import base tactics list gmap fin_maps sorting.
From Stdlib Require Import ZArith Lia.
From S2P Require Import Prelude P2PPeer.

Open Scope Z_scope.

Import Peer.

Module PeerLemmas.

(** ** The order of capabilities *)

Lemma strLess_irrefl a : strLess a a = false.
Proof. induction a as [|x a IH]; [done|]. cbn. by rewrite Z.ltb_irrefl, Z.eqb_refl, IH. Qed.

Lemma strLess_cons x y a b : strLess (x :: a) (y :: b) = true <-> x < y \/ x = y /\ strLess a b = true.
Proof. cbn. rewrite orb_true_iff, andb_true_iff, Z.ltb_lt, Z.eqb_eq. done. Qed.

Lemma strLess_trans a b c : strLess a b = true -> strLess b c = true -> strLess a c = true.
Proof.
  revert b c. induction a as [|x a IH]; intros [|y b] [|z c]; try done. rewrite !strLess_cons.
  intros [?|[-> ?]] [?|[-> ?]]; [left; lia|left; lia|left; lia|right; split; [done|by eapply IH]].
Qed.

Lemma strLess_total a b : strLess a b = false -> strLess b a = false -> a = b.
Proof.
  revert b. induction a as [|x a IH]; intros [|y b]; try done.
  rewrite <- !not_true_iff_false, !strLess_cons. intros H1 H2. assert (x = y) as -> by lia. f_equal.
  apply IH; apply not_true_iff_false; tauto.
Qed.

Lemma Less_spec a b : Less a b = true <-> strLess (capName a) (capName b) = true \/ capName a = capName b /\ capVersion a < capVersion b.
Proof. unfold Less. rewrite orb_true_iff, andb_true_iff, bool_decide_eq_true, Z.ltb_lt. done. Qed.

Lemma Less_asym a b : Less a b = true -> Less b a = false.
Proof.
  rewrite <- not_true_iff_false, !Less_spec. intros [H1|[H1 H2]] [H3|[H3 H4]].
  - pose proof (strLess_trans _ _ _ H1 H3) as H. by rewrite strLess_irrefl in H.
  - rewrite H3, strLess_irrefl in H1. done.
  - rewrite H1, strLess_irrefl in H3. done.
  - lia.
Qed.

Lemma Less_total a b : Less a b = false -> Less b a = false -> a = b.
Proof.
  rewrite <- !not_true_iff_false, !Less_spec. intros H1 H2.
  assert (capName a = capName b) as E by (apply strLess_total; apply not_true_iff_false; tauto).
  destruct a as [n v], b as [m w]. cbn in *. subst m. f_equal. destruct (Z.lt_trichotomy v w) as [?|[?|?]]; [|done|]; naive_solver.
Qed.

Lemma Less_trans a b c : Less a b = true -> Less b c = true -> Less a c = true.
Proof.
  rewrite !Less_spec. intros [H1|[H1 H2]] [H3|[H3 H4]].
  - left. by eapply strLess_trans.
  - left. by rewrite <- H3.
  - left. by rewrite H1.
  - right. split; [congruence|lia].
Qed.

Lemma Less_negtrans a b c : Less b a = false -> Less c b = false -> Less c a = false.
Proof.
  intros H1 H2. apply not_true_iff_false. intros H3. destruct (Less a b) eqn:E.
  - pose proof (Less_trans _ _ _ H3 E) as H. congruence.
  - assert (a = b) as -> by by apply Less_total. congruence.
Qed.

Definition notAfter (a b : Cap) : Prop := Less b a = false.

Lemma sorted_caps `{SortSlice} l : StronglySorted notAfter (sort_slice Less l).
Proof. apply sort_slice_sorted; [apply Less_asym|]. intros x y z _ _ _. apply Less_negtrans. Qed.

(** Two sorted lists with the same elements, each once, are equal. *)
Lemma sorted_unique l k : StronglySorted notAfter l -> StronglySorted notAfter k -> l ≡ₚ k -> l = k.
Proof. intros Hl Hk Hp. eapply (StronglySorted_unique_strong notAfter); eauto. intros x y _ _ H1 H2. by apply Less_total. Qed.

(** ** The matched capabilities *)

Definition matched (protocols : list Protocol) (l : list Cap) : list Protocol := omap (fun c => firstMatch c protocols) l.

Lemma firstMatch_spec c protocols p : firstMatch c protocols = Some p -> p ∈ protocols /\ cap p = c.
Proof.
  induction protocols as [|q protocols IH]; [done|]. cbn. destruct (matches c q) eqn:E.
  - intros [= <-]. apply andb_true_iff in E as [E1 E2]. apply bool_decide_eq_true in E1. apply Z.eqb_eq in E2.
    split; [set_solver|]. destruct c. unfold cap. cbn in *. congruence.
  - intros [? ?]%IH. set_solver.
Qed.

Lemma firstMatch_is_Some c protocols : is_Some (firstMatch c protocols) <-> c ∈ cap <$> protocols.
Proof.
  split.
  - intros [p Hp]. apply firstMatch_spec in Hp as [Hp <-]. by apply list_elem_of_fmap_2.
  - induction protocols as [|q protocols IH]; [intros H; by apply not_elem_of_nil in H|]. cbn. rewrite elem_of_cons.
    destruct (matches c q) eqn:E; [eauto|]. intros [->|?]; [|auto]. unfold matches in E. cbn in E.
    rewrite bool_decide_true, Z.eqb_refl in E by done. done.
Qed.

(** One matched protocol. *)
Definition place (st : Z * gmap (list Z) protoRW) (p : Protocol) : Z * gmap (list Z) protoRW :=
  let '(off, result) := st in
  let off := match result !! Name p with Some old => u64 (off - Length (proto old)) | None => off end in
  (u64 (off + Length p), <[Name p := mkRW p off]> result).

Lemma matchLoop_place protocols st l : foldl (matchCap protocols) st l = foldl place st (matched protocols l).
Proof.
  revert st. induction l as [|c l IH]; intros st; [done|]. cbn. rewrite IH. unfold matchCap. destruct (firstMatch c protocols) as [p|] eqn:E; [|done].
  cbn. apply firstMatch_spec in E as [_ <-]. by destruct st.
Qed.

(** Of the protocols with one name, which come one after the other, the last. *)
Fixpoint chosen (ms : list Protocol) : list Protocol :=
  match ms with
  | [] => []
  | p :: ms' =>
      match ms' with
      | q :: _ => if decide (Name q = Name p) then chosen ms' else p :: chosen ms'
      | [] => [p]
      end
  end.

(** Protocols one behind the other. *)
Fixpoint layout (off : Z) (ps : list Protocol) (m : gmap (list Z) protoRW) : gmap (list Z) protoRW :=
  match ps with
  | [] => m
  | p :: ps => layout (u64 (off + Length p)) ps (<[Name p := mkRW p off]> m)
  end.

Definition nameLe (p q : Protocol) : Prop := strLess (Name q) (Name p) = false.

Lemma u64_undo off n : in_u64 off -> u64 (u64 (off + n) - n) = off.
Proof. unfold in_u64, u64. intros H. rewrite Zminus_mod_idemp_l. replace (off + n - n) with off by lia. by apply Z.mod_small. Qed.

Lemma chosen_cons p q l : chosen (p :: q :: l) = if decide (Name q = Name p) then chosen (q :: l) else p :: chosen (q :: l).
Proof. done. Qed.

Lemma place_loop ms off m :
  in_u64 off -> StronglySorted nameLe ms -> Forall (fun p => m !! Name p = None) ms ->
  (foldl place (off, m) ms).2 = layout off (chosen ms) m.
Proof.
  revert off m. induction ms as [|p ms IH]; intros off m Hoff Hs Hm; [done|]. apply Forall_cons in Hm as [Hp Hm]. inversion Hs as [|? ? Hs' Hle]; subst.
  cbn [foldl place]. rewrite Hp. destruct ms as [|q ms]; [done|]. rewrite chosen_cons. case_decide as Hq.
  - rewrite <- (IH off m) by done. cbn [foldl place]. rewrite Hq, lookup_insert_eq. cbn [proto]. rewrite u64_undo by done.
    apply Forall_cons in Hm as [Hmq _]. by rewrite <- Hq, Hmq, insert_insert_eq.
  - cbn [layout]. apply IH; [unfold in_u64, u64; apply Z.mod_pos_bound; lia|done|].
    apply Forall_forall. intros r Hr. rewrite lookup_insert_ne; [by apply (proj1 (Forall_forall _ _) Hm)|].
    intros E. apply elem_of_cons in Hr as [->|Hr]; [done|]. inversion Hs' as [|? ? _ Hqr]; subst.
    rewrite Forall_forall in Hqr. specialize (Hqr r Hr). apply Forall_cons in Hle as [Hpq _]. unfold nameLe in *. rewrite <- E in Hqr.
    apply Hq. by apply strLess_total.
Qed.

Definition capLe (p q : Protocol) : Prop := notAfter (cap p) (cap q).

Lemma capLe_nameLe p q : capLe p q -> nameLe p q.
Proof. unfold capLe, notAfter, nameLe. rewrite <- !not_true_iff_false, Less_spec. cbn. tauto. Qed.

Lemma matched_sorted protocols l : StronglySorted notAfter l -> StronglySorted capLe (matched protocols l).
Proof.
  induction 1 as [|c l Hs IH Hc]; [constructor|]. cbn. destruct (firstMatch c protocols) as [p|] eqn:E; [|done]. constructor; [done|].
  apply Forall_forall. intros q (c' & Hc' & Hq)%list_elem_of_omap. apply firstMatch_spec in E as [_ E], Hq as [_ Hq]. unfold capLe. rewrite E, Hq.
  by apply (proj1 (Forall_forall _ _) Hc).
Qed.

Lemma chosen_sub ms p : p ∈ chosen ms -> p ∈ ms.
Proof.
  induction ms as [|x [|y ms] IH]; [done|done|]. rewrite chosen_cons. case_decide; [set_solver|].
  rewrite elem_of_cons. intros [->|H']; set_solver.
Qed.

(** Names increase strictly, and for each protocol there is a chosen one of the name that is not before it. *)
Lemma chosen_spec ms :
  StronglySorted capLe ms ->
  StronglySorted (fun p q => strLess (Name p) (Name q) = true) (chosen ms) /\
  forall p, p ∈ ms -> exists q, q ∈ chosen ms /\ Name q = Name p /\ Version p <= Version q.
Proof.
  induction ms as [|x [|y ms] IH]; intros Hs.
  - split; [constructor|]. intros p Hp. by apply not_elem_of_nil in Hp.
  - split; [repeat constructor|]. intros p ->%list_elem_of_singleton. exists x. cbn. split_and!; [set_solver|done|lia].
  - inversion Hs as [|? ? Hs' Hx]; subst. destruct (IH Hs') as [Hsort Hall]. rewrite chosen_cons. case_decide as E.
    + split; [done|]. intros p [->|Hp]%elem_of_cons; [|by apply Hall]. destruct (Hall y) as (q & Hq & En & Hv); [set_solver|].
      exists q. split_and!; [done|congruence|]. apply Forall_cons in Hx as [Hxy _]. unfold capLe, notAfter in Hxy.
      rewrite <- not_true_iff_false, Less_spec in Hxy. cbn in Hxy. destruct (Z.le_gt_cases (Version x) (Version y)); [lia|]. destruct Hxy. right. split; [done|lia].
    + split.
      * constructor; [done|]. apply Forall_forall. intros q Hq%chosen_sub. rewrite Forall_forall in Hx.
        assert (Name q <> Name x) as Hne.
        { intros Eq. apply elem_of_cons in Hq as [->|Hq]; [done|]. inversion Hs' as [|? ? _ Hy]; subst. rewrite Forall_forall in Hy.
          pose proof (capLe_nameLe _ _ (Hy q Hq)) as H1. pose proof (capLe_nameLe _ _ (Hx y ltac:(set_solver))) as H2. unfold nameLe in *. rewrite Eq in H1.
          apply E. by apply strLess_total. }
        pose proof (capLe_nameLe _ _ (Hx q Hq)) as H1. unfold nameLe in H1. destruct (strLess (Name x) (Name q)) eqn:E'; [done|]. destruct Hne. by apply strLess_total.
      * intros p [->|Hp]%elem_of_cons; [exists x; split_and!; [set_solver|done|lia]|]. destruct (Hall p Hp) as (q & ? & ?). exists q. split; [set_solver|done].
Qed.

Lemma chosen_names ms : StronglySorted capLe ms -> NoDup (Name <$> chosen ms).
Proof.
  intros [Hs _]%chosen_spec. induction Hs as [|p l Hs IH Hp]; [constructor|]. cbn. constructor; [|done].
  intros (q & E & Hq)%list_elem_of_fmap. rewrite Forall_forall in Hp. specialize (Hp q Hq). by rewrite E, strLess_irrefl in Hp.
Qed.

(** ** Offsets *)

Definition total (ps : list Protocol) : Z := foldr (fun p n => Length p + n) 0 ps.

Lemma total_app l k : total (l ++ k) = total l + total k.
Proof. induction l as [|p l IH]; cbn; [done|]. fold (total (l ++ k)). fold (total l). lia. Qed.

#[local] Instance total_perm : Proper ((≡ₚ) ==> eq) total.
Proof. intros l k H. induction H; cbn; unfold total in *; lia. Qed.

Lemma total_pos l : Forall (fun p => 0 <= Length p) l -> 0 <= total l.
Proof. induction 1; cbn; unfold total in *; lia. Qed.

Lemma total_sub l k : Forall (fun p => 0 <= Length p) k -> l ⊆+ k -> total l <= total k.
Proof.
  intros Hk [r Hr]%submseteq_Permutation. rewrite Hr in Hk |- *. rewrite total_app. apply Forall_app in Hk as [_ Hr']. pose proof (total_pos r Hr'). lia.
Qed.

Lemma layout_lookup off ps m n rw :
  NoDup (Name <$> ps) -> Forall (fun p => 0 <= Length p) ps -> 0 <= off -> off + total ps < 2 ^ 64 ->
  layout off ps m !! n = Some rw <->
  (exists i p, ps !! i = Some p /\ Name p = n /\ rw = mkRW p (off + total (take i ps))) \/ (n ∉ Name <$> ps /\ m !! n = Some rw).
Proof.
  revert off m. induction ps as [|p ps IH]; intros off m Hnd Hpos Hoff Hlt; cbn [layout].
  { cbn. split; [intros H; right; split; [apply not_elem_of_nil|done]|]. intros [(i & p & Hi & _)|[_ H]]; [done|done]. }
  apply NoDup_cons in Hnd as [Hn Hnd]. apply Forall_cons in Hpos as [Hp Hpos]. pose proof (total_pos ps Hpos) as Ht. cbn [total foldr] in Hlt. fold (total ps) in Hlt.
  unfold u64. rewrite Z.mod_small by lia. rewrite IH by (done || lia). cbn. rewrite not_elem_of_cons. split.
  - intros [(i & q & Hi & En & ->)|[Hni Hm]].
    + left. exists (S i), q. split_and!; [done..|]. cbn. f_equal. fold (total (take i ps)). lia.
    + rewrite lookup_insert_Some in Hm. destruct Hm as [[<- <-]|[Hne Hm]]; [|right; naive_solver]. left. exists 0%nat, p. split_and!; [done..|]. cbn. f_equal. lia.
  - intros [([|i] & q & Hi & En & ->)|[[Hne Hni] Hm]].
    + injection Hi as ->. right. rewrite <- En. split; [done|]. rewrite lookup_insert_eq. cbn. do 2 f_equal. lia.
    + left. exists i, q. split_and!; [done..|]. cbn. f_equal. fold (total (take i ps)). lia.
    + right. split; [done|]. by rewrite lookup_insert_ne.
Qed.

(** ** The table *)

(** The codes of all protocols fit in 64 bits. *)
Definition fits (protocols : list Protocol) : Prop :=
  Forall (fun p => 0 <= Length p) protocols /\ baseProtocolLength + total protocols < 2 ^ 64.

Definition running_list `{SortSlice} (protocols : list Protocol) (caps : list Cap) : list Protocol :=
  chosen (matched protocols (sort_slice Less caps)).

Lemma matched_elem protocols l p : p ∈ matched protocols l <-> cap p ∈ l /\ firstMatch (cap p) protocols = Some p.
Proof.
  unfold matched. rewrite list_elem_of_omap. split.
  - intros (c & Hc & Hp). pose proof (firstMatch_spec _ _ _ Hp) as [_ ->]. done.
  - intros [Hc Hp]. by exists (cap p).
Qed.

Lemma running_sub `{SortSlice} protocols caps : running_list protocols caps ⊆+ protocols.
Proof.
  apply NoDup_submseteq.
  - apply (NoDup_fmap_1 Name). apply chosen_names, matched_sorted, sorted_caps.
  - intros p [_ [? _]%firstMatch_spec]%chosen_sub%matched_elem. done.
Qed.

Lemma running_fits `{SortSlice} protocols caps : fits protocols -> fits (running_list protocols caps).
Proof.
  intros [Hp Ht]. pose proof (running_sub protocols caps) as Hs. split; [|pose proof (total_sub _ _ Hp Hs); lia].
  apply submseteq_Permutation in Hs as [r Hr]. rewrite Hr in Hp. by apply Forall_app in Hp as [? _].
Qed.

Lemma matchProtocols_lookup `{SortSlice} protocols caps n rw :
  fits protocols ->
  matchProtocols protocols caps !! n = Some rw <->
  exists i p, running_list protocols caps !! i = Some p /\ Name p = n /\
    rw = mkRW p (baseProtocolLength + total (take i (running_list protocols caps))).
Proof.
  intros Hf. pose proof (matched_sorted protocols _ (sorted_caps caps)) as Hs. unfold matchProtocols. rewrite matchLoop_place, place_loop.
  - destruct (running_fits protocols caps Hf) as [Hp Ht]. rewrite layout_lookup; [|by apply chosen_names|done|unfold baseProtocolLength; lia|done].
    split; [intros [?|[_ ?]]; [done|done]|auto].
  - unfold in_u64, baseProtocolLength. lia.
  - eapply StronglySorted_impl_elem; [|exact Hs]. intros x y _ _. apply capLe_nameLe.
  - apply Forall_forall. intros p _. apply lookup_empty.
Qed.

(** The ranges of codes of two places. *)
Lemma take_total l i j p : Forall (fun p => 0 <= Length p) l -> l !! i = Some p -> (i < j)%nat -> total (take i l) + Length p <= total (take j l).
Proof.
  intros Hl Hi Hij. rewrite <- (take_drop (S i) (take j l)). rewrite take_take, Nat.min_l, total_app by lia. rewrite (take_S_r l i p Hi), total_app. cbn.
  assert (0 <= total (drop (S i) (take j l))) by (apply total_pos, Forall_drop, Forall_take; done). lia.
Qed.

Lemma take_le_total l i : Forall (fun p => 0 <= Length p) l -> 0 <= total (take i l) <= total l.
Proof.
  intros Hl. rewrite <- (take_drop i l) at 3. rewrite total_app.
  pose proof (total_pos _ (Forall_take _ i l Hl)). pose proof (total_pos _ (Forall_drop _ i l Hl)). lia.
Qed.

Definition range (rw : protoRW) (code : Z) : Prop := offset rw <= code < offset rw + Length (proto rw).

Lemma table_ranges `{SortSlice} protocols caps n rw :
  fits protocols -> matchProtocols protocols caps !! n = Some rw ->
  Name (proto rw) = n /\ 0 <= Length (proto rw) /\ baseProtocolLength <= offset rw /\ offset rw + Length (proto rw) < 2 ^ 64 /\
  forall n' rw' code, matchProtocols protocols caps !! n' = Some rw' -> range rw code -> range rw' code -> n = n'.
Proof.
  intros Hf (i & p & Hi & En & ->)%matchProtocols_lookup; [|done]. destruct (running_fits protocols caps Hf) as [Hp Ht]. cbn [proto offset].
  set (l := running_list protocols caps) in *. pose proof (take_le_total l i Hp). pose proof (take_le_total l (S i) Hp).
  pose proof (take_total l i (S i) p Hp Hi ltac:(lia)). rewrite Forall_lookup in Hp. pose proof (Hp i p Hi). unfold baseProtocolLength in *.
  split_and!; [done..|lia|lia|]. intros n' rw' code (j & q & Hj & En' & ->)%matchProtocols_lookup; [|done]. fold l in Hj |- *. unfold range, baseProtocolLength. cbn [proto offset].
  rewrite <- Forall_lookup in Hp. intros Hc1 Hc2. destruct (Nat.lt_trichotomy i j) as [Hij|[<-|Hij]].
  - pose proof (take_total l i j p Hp Hi Hij). lia.
  - congruence.
  - pose proof (take_total l j i q Hp Hj Hij). lia.
Qed.

(** The lookup by code finds the one protocol with the code in its range, in whatever order the table is searched. *)
Lemma getProto_unique order rw code :
  rw ∈ order -> Forall (fun r => 0 <= offset r /\ 0 <= Length (proto r) /\ offset r + Length (proto r) < 2 ^ 64) order -> range rw code ->
  (forall r, r ∈ order -> range r code -> r = rw) -> getProto order code = Some rw.
Proof.
  intros Hin Hall Hr Hu. induction order as [|r order IH]; [by apply not_elem_of_nil in Hin|]. apply Forall_cons in Hall as [Hrb Hall]. cbn [getProto].
  unfold u64. rewrite Z.mod_small by lia. destruct (_ && _) eqn:E.
  - f_equal. apply Hu; [set_solver|]. unfold range. apply andb_true_iff in E as [E1%Z.leb_le E2%Z.ltb_lt]. done.
  - apply IH; [|done|intros; apply Hu; [set_solver|done]]. apply elem_of_cons in Hin as [->|]; [|done].
    apply andb_false_iff in E as [E%Z.leb_gt|E%Z.ltb_ge]; unfold range in Hr; lia.
Qed.

(** ** The two ends *)

Lemma matched_caps protocols l : cap <$> matched protocols l = filter (fun c => c ∈ cap <$> protocols) l.
Proof.
  induction l as [|c l IH]; [done|]. rewrite filter_cons. unfold matched in *. cbn [omap list_omap]. destruct (firstMatch c protocols) as [p|] eqn:E.
  - rewrite decide_True by (apply firstMatch_is_Some; eauto). cbn. apply firstMatch_spec in E as [_ ->]. by rewrite IH.
  - rewrite decide_False; [done|]. rewrite <- firstMatch_is_Some, E. by apply is_Some_None.
Qed.

(** Each end has the other's capabilities, and they agree on the lengths of the protocols they share. *)
Record agree (pa pb : list Protocol) (ca cb : list Cap) : Prop := {
  ag_a : ca ≡ₚ cap <$> pa;
  ag_b : cb ≡ₚ cap <$> pb;
  ag_da : NoDup ca;
  ag_db : NoDup cb;
  ag_len p q : p ∈ pa -> q ∈ pb -> cap p = cap q -> Length p = Length q
}.

Lemma filter_sorted (P : Cap -> Prop) `{!forall c, Decision (P c)} l : StronglySorted notAfter l -> StronglySorted notAfter (filter P l).
Proof.
  induction 1 as [|c l Hs IH Hc]; [constructor|]. rewrite filter_cons. case_decide; [|done]. constructor; [done|].
  apply Forall_forall. intros x [_ Hx]%list_elem_of_filter. by apply (proj1 (Forall_forall _ _) Hc).
Qed.

Lemma matched_agree `{SortSlice} pa pb ca cb : agree pa pb ca cb -> matched pa (sort_slice Less cb) = matched pb (sort_slice Less ca).
Proof.
  intros []. assert (cap <$> matched pa (sort_slice Less cb) = cap <$> matched pb (sort_slice Less ca)) as E.
  { rewrite !matched_caps. apply sorted_unique; [apply filter_sorted, sorted_caps..|]. apply NoDup_Permutation; [apply NoDup_filter; by rewrite sort_slice_perm..|].
    intros c. rewrite !list_elem_of_filter, !sort_slice_perm, ag_a0, ag_b0. tauto. }
  apply list_eq_same_length with (n := length (matched pa (sort_slice Less cb))); [|done|].
  - rewrite <- (length_fmap cap), <- E, length_fmap. done.
  - intros i p q _ Hp Hq. assert (cap p = cap q) as Ec.
    { apply (f_equal (fun l => l !! i)) in E. rewrite !list_lookup_fmap, Hp, Hq in E. change (Some (cap p) = Some (cap q)) in E. congruence. }
    apply list_elem_of_lookup_2, matched_elem in Hp as [_ Hp], Hq as [_ Hq]. apply firstMatch_spec in Hp as [Hp _], Hq as [Hq _].
    pose proof (ag_len0 p q Hp Hq Ec). destruct p, q. unfold cap in Ec. cbn in *. congruence.
Qed.

Lemma table_agree `{SortSlice} pa pb ca cb : agree pa pb ca cb -> matchProtocols pa cb = matchProtocols pb ca.
Proof. intros H'. unfold matchProtocols. rewrite !matchLoop_place. by rewrite (matched_agree pa pb ca cb H'). Qed.

(** ** The token *)

(** The token is in one place: the channel, a writer's hand, or the report of a write. *)
Record tokenOk (p : peer) : Prop := {
  tk_one : (wstart p + length (writers p) + length (werr p) <= 1)%nat;
  tk_loop : loop p <> Blocked
}.

Fixpoint take_steps (p : peer) (ss : list step) : option peer :=
  match ss with
  | [] => Some p
  | s :: ss => match take_step p s with Some p => take_steps p ss | None => None end
  end.

Lemma take_step_ok p s p' : tokenOk p -> take_step p s = Some p' -> tokenOk p'.
Proof.
  intros [H1 H2] Hs. destruct s as [n|i e| |e|e|r]; cbn in Hs.
  - destruct (wstart p) eqn:E; [done|]. injection Hs as <-. split; cbn; [lia|done].
  - destruct (writers p !! i) as [w|] eqn:Ew; [|done]. destruct (werr p) eqn:Ee; [|done]. injection Hs as <-.
    pose proof (lookup_lt_Some _ _ _ Ew). split; cbn; [|done]. rewrite length_delete by eauto. cbn in H1. lia.
  - destruct (loop p), (werr p) as [|e l] eqn:Ee; try done. cbn in H1. destruct e; [injection Hs as <-; split; cbn; [lia|done]|].
    destruct (wstart p) eqn:Ew; [|lia]. injection Hs as <-. split; cbn; [lia|done].
  - destruct (loop p); try done. injection Hs as <-. split; cbn; [lia|]. by destruct e.
  - destruct (loop p); try done. injection Hs as <-. by split.
  - destruct (loop p); try done. injection Hs as <-. by split.
Qed.

(** After a failed write there is no token any more. *)
Definition failed (p : peer) : Prop :=
  wstart p = 0%nat /\ writers p = [] /\ ((exists e, werr p = [Some e]) \/ (werr p = [] /\ loop p <> Running)).

Lemma take_step_failed p s p' : failed p -> take_step p s = Some p' -> failed p' /\ forall n, s <> StartWrite n.
Proof.
  intros (H1 & H2 & H3) Hs. destruct s as [n|i e| |e|e|r]; cbn in Hs; rewrite ?H1, ?H2 in Hs; try done.
  - split; [|done]. destruct (loop p) eqn:El; [|done..]. destruct H3 as [[e E]|[_ ?]]; [|done]. rewrite E in Hs. injection Hs as <-.
    split_and!; [done..|]. right. done.
  - split; [|done]. destruct (loop p) eqn:El; [|done..]. injection Hs as <-. destruct H3 as [[e' E]|[_ ?]]; [|done].
    split_and!; [done..|]. left. by exists e'.
  - split; [|done]. destruct (loop p) eqn:El; [|done..]. injection Hs as <-. destruct H3 as [[e' E]|[_ ?]]; [|done].
    split_and!; [done..|]. left. by exists e'.
  - split; [|done]. destruct (loop p) eqn:El; [|done..]. injection Hs as <-. destruct H3 as [[e' E]|[_ ?]]; [|done].
    split_and!; [done..|]. left. by exists e'.
Qed.

Lemma take_steps_ok p ss p' : tokenOk p -> take_steps p ss = Some p' -> tokenOk p'.
Proof.
  revert p. induction ss as [|s ss IH]; intros p Hp; cbn; [by intros [= <-]|]. destruct (take_step p s) as [q|] eqn:E; [|done].
  apply IH. by eapply take_step_ok.
Qed.

Lemma take_steps_failed p ss p' : failed p -> take_steps p ss = Some p' -> Forall (fun s => forall n, s <> StartWrite n) ss.
Proof.
  revert p. induction ss as [|s ss IH]; intros p Hp; cbn; [constructor|]. destruct (take_step p s) as [q|] eqn:E; [|done].
  destruct (take_step_failed p s q Hp E) as [Hq Hn]. constructor; [done|by eapply IH].
Qed.

Lemma take_steps_app p ss ss' : take_steps p (ss ++ ss') = match take_steps p ss with Some q => take_steps q ss' | None => None end.
Proof. revert p. induction ss as [|s ss IH]; intros p; cbn; [done|]. destruct (take_step p s); [apply IH|done]. Qed.

End PeerLemmas.

Import PeerLemmas.

(** The table of running protocols holds, for each protocol name that both ends have in a common version, the highest such
    version, and nothing else; and the codes of its protocols lie above those of the base protocol and do not overlap. *)
Theorem highest_versions_disjoint_codes `{SortSlice} protocols caps n :
  fits protocols ->
  match matchProtocols protocols caps !! n with
  | Some rw =>
      (exists v, mkCap n v ∈ caps /\ firstMatch (mkCap n v) protocols = Some (proto rw) /\
         forall w, mkCap n w ∈ caps -> is_Some (firstMatch (mkCap n w) protocols) -> w <= v) /\
      baseProtocolLength <= offset rw /\ offset rw + Length (proto rw) < 2 ^ 64 /\
      forall n' rw' code, matchProtocols protocols caps !! n' = Some rw' -> range rw code -> range rw' code -> n = n'
  | None => forall v, mkCap n v ∈ caps -> firstMatch (mkCap n v) protocols = None
  end.
Proof.
  intros Hf. destruct (chosen_spec _ (matched_sorted protocols _ (sorted_caps caps))) as [_ Hall].
  assert (forall v q, mkCap n v ∈ caps -> firstMatch (mkCap n v) protocols = Some q ->
    exists i p, running_list protocols caps !! i = Some p /\ Name p = n /\ v <= Version p) as Hv.
  { intros v q Hc Hq. pose proof (firstMatch_spec _ _ _ Hq) as [_ E]. destruct (Hall q) as (p & Hp & En & Hle).
    { apply matched_elem. rewrite E, sort_slice_perm. done. }
    apply list_elem_of_lookup_1 in Hp as [i Hp]. exists i, p. injection E as E1 E2. subst n v. by split_and!. }
  destruct (matchProtocols protocols caps !! n) as [rw|] eqn:Erw.
  - destruct (table_ranges protocols caps n rw Hf Erw) as (En & _ & Hb & Hlt & Hdis). split_and!; try done.
    apply matchProtocols_lookup in Erw as (i & p & Hi & Ep & ->); [|done]. cbn [proto].
    pose proof (list_elem_of_lookup_2 _ _ _ Hi) as [Hc Hm]%chosen_sub%matched_elem. rewrite sort_slice_perm in Hc. unfold cap in *. rewrite Ep in *.
    exists (Version p). split_and!; [done..|]. intros w Hw [q Hq]. destruct (Hv w q Hw Hq) as (j & p' & Hj & Ep' & Hle).
    assert (i = j) as <-; [|congruence]. eapply (NoDup_lookup (Name <$> running_list protocols caps)).
    + apply chosen_names, matched_sorted, sorted_caps.
    + by rewrite list_lookup_fmap, Hi.
    + rewrite list_lookup_fmap, Hj. cbn. congruence.
  - intros v Hc. destruct (firstMatch (mkCap n v) protocols) as [q|] eqn:Eq; [|done]. destruct (Hv v q Hc Eq) as (i & p & Hi & Ep & _).
    assert (exists rw, matchProtocols protocols caps !! n = Some rw) as [rw E]; [|congruence].
    eexists. apply matchProtocols_lookup; [done|]. by exists i, p.
Qed.

(** C21: Two ends that know each other's capabilities build the same table, and a message that a protocol of one end writes is
    delivered at the other end to the protocol of the same name and version, with the code it was written with, in whatever order
    the table is searched; a code beyond the protocol's length is refused by the writer. *)
Theorem messages_reach_their_protocol `{SortSlice} pa pb ca cb n rw code order :
  fits pa -> agree pa pb ca cb -> matchProtocols pa cb !! n = Some rw -> 0 <= code ->
  order ≡ₚ (map_to_list (matchProtocols pb ca)).*2 ->
  matchProtocols pb ca !! n = Some rw /\
  (code < Length (proto rw) -> exists wire, WriteMsg rw code = Some wire /\ handle order wire = Deliver rw /\ ReadMsg rw wire = code) /\
  (Length (proto rw) <= code -> WriteMsg rw code = None).
Proof.
  intros Hf Ha Hrw Hcode Hord. rewrite <- (table_agree pa pb ca cb Ha) in *. destruct (table_ranges pa cb n rw Hf Hrw) as (En & Hl & Hb & Hlt & Hdis).
  split; [done|]. unfold WriteMsg. split; intros Hc; [rewrite (proj2 (Z.leb_gt _ _)) by lia|by rewrite (proj2 (Z.leb_le _ _)) by lia].
  unfold baseProtocolLength in Hb. exists (code + offset rw). split_and!; [unfold u64; by rewrite Z.mod_small by lia| |].
  - unfold handle, pingMsg, discMsg, baseProtocolLength. rewrite (proj2 (Z.eqb_neq _ 2)), (proj2 (Z.eqb_neq _ 1)), (proj2 (Z.ltb_ge _ 16)) by lia.
    assert (forall r, r ∈ order -> exists n', matchProtocols pa cb !! n' = Some r) as Hin.
    { intros r. rewrite Hord. intros ([n' r'] & -> & Hr)%list_elem_of_fmap. exists n'. by apply elem_of_map_to_list. }
    rewrite (getProto_unique order rw); [done| | |unfold range; lia|].
    + rewrite Hord. apply list_elem_of_fmap. exists (n, rw). split; [done|]. by apply elem_of_map_to_list.
    + apply Forall_forall. intros r (n' & Hr)%Hin. destruct (table_ranges pa cb n' r Hf Hr) as (_ & ? & ? & ? & _). unfold baseProtocolLength in *. lia.
    + intros r Hr Hrange. destruct (Hin r Hr) as (n' & Hr'). assert (n = n') as <-; [|congruence]. eapply (Hdis n' r (code + offset rw)); [done| |done]. unfold range. lia.
  - unfold ReadMsg, u64. rewrite Z.mod_small; lia.
Qed.

(** In every run of a peer at most one protocol writes at a time, the send that gives the token back never blocks the loop, a
    writer can always report, and after a write that failed no other starts. *)
Theorem one_writer_at_a_time ss p :
  take_steps newPeer ss = Some p ->
  (length (writers p) <= 1)%nat /\ loop p <> Blocked /\
  (forall i err, is_Some (writers p !! i) -> is_Some (take_step p (EndWrite i err))) /\
  (forall ss1 i err ss2, ss = ss1 ++ EndWrite i (Some err) :: ss2 -> Forall (fun s => forall n, s <> StartWrite n) ss2).
Proof.
  intros Hs. assert (tokenOk newPeer) as Hnew by (split; cbn; [lia|done]). pose proof (take_steps_ok _ _ _ Hnew Hs) as [H1 H2]. split_and!; [lia|done| |].
  - intros i err [w Hw]. cbn. rewrite Hw. pose proof (lookup_lt_Some _ _ _ Hw). destruct (werr p); [eauto|cbn in H1; lia].
  - intros ss1 i err ss2 ->. rewrite take_steps_app in Hs. destruct (take_steps newPeer ss1) as [q|] eqn:Eq; [|done].
    pose proof (take_steps_ok _ _ _ Hnew Eq) as [H1q _]. cbn in Hs. destruct (writers q !! i) as [w|] eqn:Ew; [|done]. pose proof (lookup_lt_Some _ _ _ Ew) as Hlt.
    destruct (werr q) eqn:Ee; [|done]. cbn in H1q. eapply take_steps_failed; [|exact Hs]. split_and!; cbn; [lia| |left; by eexists].
    apply nil_length_inv. rewrite length_delete by eauto. lia.
Qed.

(** ** Two ends that share eth/66 and snap/1 *)

Module PeerDemo.

Definition eth : list Z := [101; 116; 104].
Definition snap : list Z := [115; 110; 97; 112].
Definition demoA : list Protocol := [mkProtocol eth 66 17; mkProtocol eth 65 17; mkProtocol snap 1 8].
Definition demoB : list Protocol := [mkProtocol snap 1 8; mkProtocol eth 66 17].

Lemma demo_agree : agree demoA demoB (cap <$> demoA) (cap <$> demoB).
Proof.
  split; [done|done|apply (bool_decide_unpack _); vm_compute; done..|]. intros p q Hp Hq E. unfold demoA, demoB in *.
  repeat (apply elem_of_cons in Hp as [->|Hp]); try (by apply not_elem_of_nil in Hp); repeat (apply elem_of_cons in Hq as [->|Hq]);
    try (by apply not_elem_of_nil in Hq); done.
Qed.

Lemma demo_fits : fits demoA.
Proof. split; [repeat constructor; cbn; lia|vm_compute; done]. Qed.

End PeerDemo.

Import PeerDemo.

Lemma highest_versions_disjoint_codes_witness :
  matchProtocols demoA (cap <$> demoB) !! eth = Some (mkRW (mkProtocol eth 66 17) 16) /\ firstMatch (mkCap eth 66) demoA = Some (mkProtocol eth 66 17) /\
  forall w, mkCap eth w ∈ cap <$> demoB -> is_Some (firstMatch (mkCap eth w) demoA) -> w <= 66.
Proof.
  assert (matchProtocols demoA (cap <$> demoB) !! eth = Some (mkRW (mkProtocol eth 66 17) 16)) as E by (vm_compute; reflexivity).
  split; [exact E|]. split; [reflexivity|]. pose proof (highest_versions_disjoint_codes demoA (cap <$> demoB) eth demo_fits) as H. rewrite E in H.
  destruct H as [(v & Hv & Hm & Hmax) _]. assert (v = 66) as -> by (by apply firstMatch_spec in Hm as [_ [= <-]]). exact Hmax.
Defined.

Lemma messages_reach_their_protocol_witness :
  exists wire, WriteMsg (mkRW (mkProtocol snap 1 8) 33) 5 = Some wire /\ wire = 38 /\
    handle (map_to_list (matchProtocols demoB (cap <$> demoA))).*2 wire = Deliver (mkRW (mkProtocol snap 1 8) 33).
Proof.
  destruct (messages_reach_their_protocol demoA demoB (cap <$> demoA) (cap <$> demoB) snap (mkRW (mkProtocol snap 1 8) 33) 5
    (map_to_list (matchProtocols demoB (cap <$> demoA))).*2 demo_fits demo_agree) as (_ & H & _); [vm_compute; reflexivity|lia|reflexivity|].
  destruct (H ltac:(cbn; lia)) as (wire & E & Hd & _). exists wire. split; [exact E|]. split; [|exact Hd]. vm_compute in E. injection E as <-. reflexivity.
Defined.

Lemma one_writer_at_a_time_witness :
  exists p, take_steps newPeer [StartWrite eth; EndWrite 0 None; WriteErr; StartWrite snap] = Some p /\ (length (writers p) <= 1)%nat.
Proof.
  eexists. split; [reflexivity|]. exact (proj1 (one_writer_at_a_time [StartWrite eth; EndWrite 0 None; WriteErr; StartWrite snap] _ eq_refl)).
Defined.
