(* ===== verification/P2PServer.v ===== *)
(** * The p2p server (src/p2p/server.go)

    The loop [run] that owns the set of peers, the goroutine [setupConn] of each connection with its two checkpoints, the throttle
    of inbound connections, and the limits. A connection is an object that its goroutine, the loop and the peer share: it is in
    a store, and the field [stage] is where its goroutine stands. What the loop tells the dial scheduler is output, as events of
    P2PDial.v. The results of the two handshakes are inputs. *)

From stdpp Require Import base tactics list gmap fin_maps.
From Stdlib Require Import ZArith Lia.
From S2P Require Import Prelude GoHeap Netutil NodeTable P2PDial P2PPeer.

Open Scope Z_scope.
Open Scope go_scope.

Module Server.
Import Netutil Enode ExpHeap Dial.

Record Config := mkServerConfig {
  self : ID;
  MaxPeers : Z;
  MaxPendingPeers : Z;
  DialRatio : Z;
  NoDial : bool;
  Protocols : list Peer.Protocol;
  TrustedNodes : list ID;
  StaticNodes : list enode;
  VerifyNodes : list enode;
  NetRestrict : option (list IPNet)
}.

Definition defaultDialRatio : Z := 3.

Definition maxDialedConns (c : Config) : Z :=
  if NoDial c || (MaxPeers c =? 0) then 0
  else
    let limit := Z.quot (MaxPeers c) (if DialRatio c =? 0 then defaultDialRatio else DialRatio c) in
    if limit =? 0 then 1 else limit.

Definition maxInboundConns (c : Config) : Z := MaxPeers c - maxDialedConns c.

(** [setupDialScheduler]: the configuration of the scheduler and the static nodes it is then told of. *)
Definition setupDialScheduler (c : Config) : dialConfig * list Dial.event :=
  (mkConfig (self c) (maxDialedConns c) (MaxPendingPeers c) (NetRestrict c), AddStatic <$> StaticNodes c ++ VerifyNodes c).

(** ** Connections *)

Inductive setupErr := errDisc (reason : Z) | errNoKey | errHandshake | errProtoHandshake.

(** Where the goroutine stands: in the encryption handshake, sending to [checkpointPostHandshake], in the protocol handshake,
    sending to [checkpointAddPeer]; then the connection is a peer, or closed. *)
Inductive stage :=
| EncHandshake (dialDest : option enode)
| AtPostHandshake
| ProtoHandshake
| AtAddPeer
| Added
| Closed (err : option setupErr).

Record sconn := mkSConn { node : enode; flags : Z; caps : list Peer.Cap; at_ : stage }.

Definition set (c : sconn) (f : Z) (val : bool) : sconn :=
  mkSConn (node c) (if val then Z.lor (flags c) f else Z.land (flags c) (Z.lnot f)) (caps c) (at_ c).

Definition move (c : sconn) (s : stage) : sconn := mkSConn (node c) (flags c) (caps c) s.

Record server := mkServer {
  cfg : Config;
  conns : gmap nat sconn;   (* the store *)
  fresh : nat;
  peers : gmap ID nat;
  inboundCount : Z;
  trusted : gset ID
}.

Definition newServer (c : Config) : server := mkServer c ∅ 0 ∅ 0 (list_to_set (TrustedNodes c)).

Definition setConn (s : server) (r : nat) (c : sconn) : server :=
  mkServer (cfg s) (<[r := c]> (conns s)) (fresh s) (peers s) (inboundCount s) (trusted s).
Definition setPeers (s : server) (ps : gmap ID nat) (n : Z) : server :=
  mkServer (cfg s) (conns s) (fresh s) ps n (trusted s).

(** ** Checks *)

Definition postHandshakeChecks (s : server) (c : sconn) : option Z :=
  if negb (is_ (flags c) trustedConn) && (MaxPeers (cfg s) <=? Z.of_nat (size (peers s))) then Some Peer.DiscTooManyPeers
  else if negb (is_ (flags c) trustedConn) && is_ (flags c) inboundConn && (maxInboundConns (cfg s) <=? inboundCount s) then Some Peer.DiscTooManyPeers
  else if decide (is_Some (peers s !! nodeID (node c))) then Some Peer.DiscAlreadyConnected
  else if decide (nodeID (node c) = self (cfg s)) then Some Peer.DiscSelf
  else None.

Definition addPeerChecks (s : server) (c : sconn) : option Z :=
  if bool_decide (0 < length (Protocols (cfg s)))%nat && (Peer.countMatchingProtocols (Protocols (cfg s)) (caps c) =? 0)%nat
  then Some Peer.DiscUselessPeer
  else postHandshakeChecks s c.

(** ** Inbound connections *)

(** The key of an address: what [String] tells apart. *)
Definition ipKey (ip : IP) : IP := default ip (To4 ip).

Inductive inboundErr := errNotInNetrestrict | errTooManyAttempts.

Definition checkInboundConn (c : Config) (history : list (expItem IP)) (remoteIP : IP) (now : Z) : list (expItem IP) * option inboundErr :=
  if decide (remoteIP = []) then (history, None)
  else if match NetRestrict c with Some l => negb (Contains (Some l) remoteIP) | None => false end then (history, Some errNotInNetrestrict)
  else
    let history := expire history now in
    if negb (IsLAN remoteIP) && contains history (ipKey remoteIP) then (history, Some errTooManyAttempts)
    else (add history (ipKey remoteIP) (now + inboundThrottleTime), None).

(** ** Steps *)

(** [SetupConn] up to the handshake. The destination is nil for an inbound connection, and a nil node has no ID. *)
Definition SetupConn (s : server) (fl : Z) (dialDest : option enode) : go server :=
  let! fl := go_foldl (fun fl n => match dialDest with
                                   | None => Panic
                                   | Some d => Ret (if decide (nodeID d = nodeID n) then Z.lor fl verifyConn else fl)
                                   end) fl (VerifyNodes (cfg s)) in
  let c := mkSConn (mkEnode [] [] 0) fl [] (EncHandshake dialDest) in
  Ret (mkServer (cfg s) (<[Server.fresh s := c]> (conns s)) (S (Server.fresh s)) (peers s) (inboundCount s) (trusted s)).

Inductive event :=
| Connect (fl : Z) (dialDest : option enode)
| NoKey (r : nat)                                               (* the destination has no secp256k1 key *)
| EncDone (r : nat) (remote : option enode)                     (* the node of the remote key, or an error *)
| PostHandshakeCh (r : nat)
| ProtoDone (r : nat) (phs : option (ID * list Peer.Cap))        (* the hash of the identity and the capabilities, or an error *)
| AddPeerCh (r : nat)
| DelPeer (r : nat)
| AddTrusted (id : ID)
| RemoveTrusted (id : ID).

(** Setting the flag on the connection of a peer. *)
Definition setTrusted (s : server) (id : ID) (val : bool) : server :=
  match peers s !! id with
  | None => s
  | Some r => match conns s !! r with Some c => setConn s r (set c trustedConn val) | None => s end
  end.

Definition onPostHandshake (s : server) (r : nat) (c : sconn) : server :=
  let c := if decide (nodeID (node c) ∈ trusted s) then mkSConn (node c) (Z.lor (flags c) trustedConn) (caps c) (at_ c) else c in
  match postHandshakeChecks s c with
  | Some reason => setConn s r (move c (Closed (Some (errDisc reason))))
  | None => setConn s r (move c ProtoHandshake)
  end.

Definition onAddPeer (s : server) (r : nat) (c : sconn) : server * list Dial.event :=
  match addPeerChecks s c with
  | Some reason => (setConn s r (move c (Closed (Some (errDisc reason)))), [])
  | None =>
      let s := setPeers s (<[nodeID (node c) := r]> (peers s)) (inboundCount s) in
      let s := if is_ (flags c) inboundConn then setPeers s (peers s) (inboundCount s + 1) else s in
      (setConn s r (move c Added), [AddPeer (mkConn (node c) (flags c))])
  end.

Definition onDelPeer (s : server) (r : nat) (c : sconn) : server * list Dial.event :=
  let s := setPeers s (delete (nodeID (node c)) (peers s)) (inboundCount s) in
  let s := if is_ (flags c) inboundConn then setPeers s (peers s) (inboundCount s - 1) else s in
  (setConn s r (move c (Closed None)), [RemPeer (mkConn (node c) (flags c))]).

(** One step; [Ret None]: no goroutine stands where the step starts. *)
Definition step (s : server) (e : event) : go (option (server * list Dial.event)) :=
  match e with
  | Connect fl dialDest => let! s := SetupConn s fl dialDest in Ret (Some (s, []))
  | AddTrusted id =>
      let s := mkServer (cfg s) (conns s) (Server.fresh s) (peers s) (inboundCount s) ({[id]} ∪ trusted s) in
      Ret (Some (setTrusted s id true, []))
  | RemoveTrusted id =>
      let s := mkServer (cfg s) (conns s) (Server.fresh s) (peers s) (inboundCount s) (trusted s ∖ {[id]}) in
      Ret (Some (setTrusted s id false, []))
  | NoKey r | EncDone r _ | PostHandshakeCh r | ProtoDone r _ | AddPeerCh r | DelPeer r =>
      match conns s !! r with
      | None => Ret None
      | Some c =>
          match e, at_ c with
          | NoKey _, EncHandshake (Some _) => Ret (Some (setConn s r (move c (Closed (Some errNoKey))), []))
          | EncDone _ None, EncHandshake _ => Ret (Some (setConn s r (move c (Closed (Some errHandshake))), []))
          | EncDone _ (Some n), EncHandshake dialDest =>
              Ret (Some (setConn s r (mkSConn (default n dialDest) (flags c) (caps c) AtPostHandshake), []))
          | PostHandshakeCh _, AtPostHandshake => Ret (Some (onPostHandshake s r c, []))
          | ProtoDone _ None, ProtoHandshake => Ret (Some (setConn s r (move c (Closed (Some errProtoHandshake))), []))
          | ProtoDone _ (Some (id, cs)), ProtoHandshake =>
              if decide (id = nodeID (node c)) then Ret (Some (setConn s r (mkSConn (node c) (flags c) cs AtAddPeer), []))
              else Ret (Some (setConn s r (move c (Closed (Some (errDisc Peer.DiscUnexpectedIdentity)))), []))
          | AddPeerCh _, AtAddPeer => Ret (Some (onAddPeer s r c))
          | DelPeer _, Added => Ret (Some (onDelPeer s r c))
          | _, _ => Ret None
          end
      end
  end.

End Server.
