(* ===== verification/P2PServerProps.v ===== *)
(** * Properties of the p2p server (P2PServer.v)

    The counts of the run loop, the limits on peers, the view that the dial scheduler has of the peers, and the throttle of inbound
    connections. *)

From stdpp Require Import base tactics list gmap fin_maps fin_map_dom sorting.
From Stdlib Require Import ZArith Lia.
From S2P Require Import Prelude GoHeap Netutil NodeTable P2PDial P2PDialProps P2PPeer P2PServer.

Open Scope Z_scope.
Open Scope go_scope.

Import Netutil Enode ExpHeap Dial.

Module ServerLemmas.
Import Server.

(** ** Flags *)

Lemma is_testbit f k : 0 <= k -> Dial.is_ f (2 ^ k) = Z.testbit f k.
Proof.
  intros Hk. unfold Dial.is_. destruct (Z.testbit f k) eqn:E.
  - apply negb_true_iff, Z.eqb_neq. intros H. apply (f_equal (fun z => Z.testbit z k)) in H.
    by rewrite Z.land_spec, E, Z.pow2_bits_true, Z.bits_0 in H by done.
  - apply negb_false_iff, Z.eqb_eq. apply Z.bits_inj'. intros n Hn. rewrite Z.land_spec, Z.bits_0.
    destruct (Z.eq_dec n k) as [->|Hne]; [by rewrite E|]. rewrite Z.pow2_bits_false by lia. apply andb_false_r.
Qed.

(** A flag other than the trusted one is not touched by [set]. *)
Lemma set_other c val k : 0 <= k -> k <> 3 -> Dial.is_ (flags (set c Dial.trustedConn val)) (2 ^ k) = Dial.is_ (flags c) (2 ^ k).
Proof.
  intros Hk Hne. rewrite !is_testbit by done. unfold set. cbn [flags]. change Dial.trustedConn with (2 ^ 3). destruct val.
  - rewrite Z.lor_spec, Z.pow2_bits_false by lia. apply orb_false_r.
  - rewrite Z.land_spec, Z.lnot_spec, Z.pow2_bits_false by lia. apply andb_true_r.
Qed.

(** ** Counting entries *)

Definition count (P : ID -> nat -> bool) (m : gmap ID nat) : nat := size (filter (fun kv => P kv.1 kv.2 = true) m).

Lemma count_insert P m i x : m !! i = None -> count P (<[i := x]> m) = ((if P i x then 1 else 0) + count P m)%nat.
Proof.
  intros Hi. unfold count. destruct (P i x) eqn:E.
  - rewrite map_filter_insert_True by done. rewrite map_size_insert_None; [done|]. apply map_lookup_filter_None_2. by left.
  - rewrite map_filter_insert_False by (cbn; congruence). by rewrite delete_id.
Qed.

Lemma count_empty P : count P ∅ = 0%nat.
Proof. unfold count. by rewrite map_filter_empty, map_size_empty. Qed.

Lemma count_delete P m i x : m !! i = Some x -> count P m = ((if P i x then 1 else 0) + count P (delete i m))%nat.
Proof. intros Hi. rewrite <- (insert_delete_id m i x Hi) at 1. by rewrite count_insert by apply lookup_delete_eq. Qed.

Lemma count_mono P Q m : (forall i x, m !! i = Some x -> P i x = true -> Q i x = true) -> (count P m <= count Q m)%nat.
Proof.
  intros H. apply map_subseteq_size. apply map_filter_subseteq_ext. intros i x Hi. cbn. by apply H.
Qed.

Lemma count_ext P Q m : (forall i x, m !! i = Some x -> P i x = Q i x) -> count P m = count Q m.
Proof. intros H. apply Nat.le_antisymm; apply count_mono; intros i x Hi; by rewrite (H i x Hi). Qed.

Lemma count_size P m : (count P m <= size m)%nat.
Proof. apply map_subseteq_size, map_filter_subseteq. Qed.

(** ** The invariant *)

Definition inbound (s : server) (r : nat) : bool :=
  match conns s !! r with Some c => Dial.is_ (flags c) Dial.inboundConn | None => false end.

Definition dialed (s : server) (r : nat) : bool :=
  match conns s !! r with Some c => Dial.isDialed (Dial.mkConn (node c) (flags c)) | None => false end.

Definition inboundPeers (s : server) : nat := count (fun _ r => inbound s r) (peers s).
Definition dialedPeers (s : server) : nat := count (fun _ r => dialed s r) (peers s).

(** Peers that were never trusted, and the inbound ones of them. *)
Definition stranger (ever : gset ID) (id : ID) : bool := bool_decide (id ∉ ever).
Definition strangers (ever : gset ID) (s : server) : nat := count (fun id _ => stranger ever id) (peers s).
Definition inboundStrangers (ever : gset ID) (s : server) : nat := count (fun id r => stranger ever id && inbound s r) (peers s).

Definition isTrusted (c : sconn) : bool := Dial.is_ (flags c) Dial.trustedConn.

Record serverOk (ever : gset ID) (s : server) : Prop := {
  so_peer id r : peers s !! id = Some r -> exists c, conns s !! r = Some c /\ nodeID (node c) = id /\ at_ c = Added;
  so_added r c : conns s !! r = Some c -> at_ c = Added -> peers s !! nodeID (node c) = Some r;
  so_self : peers s !! self (cfg s) = None;
  so_fresh r : is_Some (conns s !! r) -> (r < fresh s)%nat;
  so_inbound : inboundCount s = Z.of_nat (inboundPeers s);
  so_ever : trusted s ⊆ ever;
  so_flag r c : conns s !! r = Some c -> isTrusted c = true -> nodeID (node c) ∈ ever /\ forall dd, at_ c <> EncHandshake dd;
  so_strangers : Z.of_nat (strangers ever s) <= Z.max 0 (MaxPeers (cfg s));
  so_inboundStrangers : Z.of_nat (inboundStrangers ever s) <= Z.max 0 (maxInboundConns (cfg s))
}.

(** ** Connections that are not peers *)

(** Changing, or making, a connection that is not a peer's. *)
Lemma setConn_ok ever s r c' n :
  serverOk ever s -> (forall c, conns s !! r = Some c -> at_ c <> Added) -> at_ c' <> Added ->
  (isTrusted c' = true -> nodeID (node c') ∈ ever /\ forall dd, at_ c' <> EncHandshake dd) -> (r < n)%nat -> (fresh s <= n)%nat ->
  serverOk ever (mkServer (cfg s) (<[r := c']> (conns s)) n (peers s) (inboundCount s) (trusted s)).
Proof.
  intros [] Hold Hnew Ht Hr Hn. set (s' := mkServer _ _ _ _ _ _).
  assert (forall id q, peers s !! id = Some q -> conns s' !! q = conns s !! q) as Hsame.
  { intros id q Hq. destruct (so_peer0 id q Hq) as (c & Hc & _ & Ha). cbn [s' conns]. rewrite lookup_insert_ne; [done|]. intros <-. by apply (Hold c). }
  assert (forall id q, peers s !! id = Some q -> inbound s' q = inbound s q) as Hin by (intros id q Hq; unfold inbound; by rewrite (Hsame id q Hq)).
  split; cbn [s' peers trusted cfg fresh inboundCount].
  - intros id q Hq. rewrite (Hsame id q Hq). by apply so_peer0.
  - intros q c Hc Ha. cbn [s' conns] in Hc. apply lookup_insert_Some in Hc as [[<- <-]|[_ Hc]]; [done|]. by apply so_added0.
  - done.
  - intros q. cbn [s' conns]. rewrite lookup_insert_is_Some. intros [<-|[_ Hq%so_fresh0]]; lia.
  - rewrite so_inbound0. f_equal. apply count_ext. intros i x Hi. symmetry. by eapply Hin.
  - done.
  - intros q c Hc. cbn [s' conns] in Hc. apply lookup_insert_Some in Hc as [[<- <-]|[_ Hc]]; [done|]. exact (so_flag0 q c Hc).
  - done.
  - unfold inboundStrangers. rewrite (count_ext _ (fun id r => stranger ever id && inbound s r)); [done|]. intros i x Hi. cbn. by rewrite (Hin i x Hi).
Qed.

(** The same for a step of the goroutine of a connection. *)
Lemma goroutine_ok ever s r c c' :
  serverOk ever s -> conns s !! r = Some c -> at_ c <> Added -> at_ c' <> Added -> (forall dd, at_ c' <> EncHandshake dd) ->
  (isTrusted c' = true -> nodeID (node c') ∈ ever) -> serverOk ever (setConn s r c').
Proof.
  intros Hok Hc Ha Ha' He Ht. apply setConn_ok; try done.
  - intros c0 Hc0. by simplify_eq.
  - auto.
  - apply (so_fresh ever s Hok). eauto.
Qed.

(** ** Trust *)

Lemma setTrusted_ok ever s id val :
  serverOk ever s -> (val = true -> id ∈ ever) -> serverOk ever (setTrusted s id val).
Proof.
  intros Hok Hv. unfold setTrusted. destruct (peers s !! id) as [r|] eqn:Er; [|done].
  destruct (so_peer ever s Hok id r Er) as (c & Hc & Hid & Ha). rewrite Hc. set (c' := set c Dial.trustedConn val).
  assert (forall q, inbound (setConn s r c') q = inbound s q) as Hin.
  { intros q. unfold inbound. cbn [conns setConn]. destruct (decide (r = q)) as [<-|]; [|by rewrite lookup_insert_ne].
    rewrite lookup_insert_eq, Hc. by apply (set_other c val 2). }
  destruct Hok. split; cbn [peers trusted cfg fresh inboundCount setConn].
  - intros i q Hq. destruct (so_peer0 i q Hq) as (c0 & Hc0 & ? & ?). cbn [conns setConn]. destruct (decide (r = q)) as [<-|]; [|rewrite lookup_insert_ne by done; eauto].
    rewrite lookup_insert_eq. exists c'. simplify_eq. done.
  - intros q c0 Hc0 Ha0. cbn [conns setConn] in Hc0. apply lookup_insert_Some in Hc0 as [[<- <-]|[_ Hc0]]; [|by apply so_added0].
    change (node c') with (node c). by rewrite Hid.
  - done.
  - intros q. cbn [conns setConn]. rewrite lookup_insert_is_Some. intros [<-|[_ Hq]]; eauto.
  - rewrite so_inbound0. f_equal. apply count_ext. intros i x _. by rewrite Hin.
  - done.
  - intros q c0 Hc0 Ht. cbn [conns setConn] in Hc0. apply lookup_insert_Some in Hc0 as [[<- <-]|[_ Hc0]]; [|by apply (so_flag0 q c0)].
    change (node c') with (node c). change (at_ c') with (at_ c). rewrite Hid, Ha. split; [|done]. destruct val; [auto|].
    exfalso. unfold isTrusted in Ht. change Dial.trustedConn with (2 ^ 3) in Ht. rewrite is_testbit in Ht by lia. cbn [flags c' set] in Ht.
    rewrite Z.land_spec, Z.lnot_spec in Ht by lia. change Dial.trustedConn with (2 ^ 3) in Ht. rewrite Z.pow2_bits_true in Ht by lia. by rewrite andb_false_r in Ht.
  - done.
  - unfold inboundStrangers. rewrite (count_ext _ (fun id r => stranger ever id && inbound s r)); [done|]. intros i x Hi. cbn. by rewrite Hin.
Qed.

(** A larger set of nodes that were trusted at some time. *)
Lemma ever_mono ever s id tr :
  serverOk ever s -> tr ⊆ {[id]} ∪ ever -> serverOk ({[id]} ∪ ever) (mkServer (cfg s) (conns s) (fresh s) (peers s) (inboundCount s) tr).
Proof.
  intros [] Htr. assert (forall i, stranger ({[id]} ∪ ever) i = true -> stranger ever i = true) as Hst.
  { intros i. unfold stranger. rewrite !bool_decide_eq_true. set_solver. }
  split; cbn [peers conns trusted cfg fresh inboundCount]; try done.
  - intros r c Hc Ht. destruct (so_flag0 r c Hc Ht). split; [set_solver|done].
  - etrans; [|exact so_strangers0]. apply inj_le, count_mono. auto.
  - etrans; [|exact so_inboundStrangers0]. apply inj_le, count_mono. intros i x _. rewrite !andb_true_iff. intros [? ?]. split; [auto|done].
Qed.

(** ** The run loop *)

Lemma postHandshakeChecks_None s c :
  postHandshakeChecks s c = None ->
  peers s !! nodeID (node c) = None /\ nodeID (node c) <> self (cfg s) /\
  (isTrusted c = false -> Z.of_nat (size (peers s)) < MaxPeers (cfg s) /\ (Dial.is_ (flags c) Dial.inboundConn = true -> inboundCount s < maxInboundConns (cfg s))).
Proof.
  unfold postHandshakeChecks, isTrusted. destruct (negb _ && (_ <=? _)) eqn:E1; [done|]. destruct (negb _ && _ && _) eqn:E2; [done|].
  case_decide as E3; [done|]. case_decide as E4; [done|]. intros _. split_and!; [by apply eq_None_not_Some|done|].
  intros Ht. rewrite Ht in *. cbn in E1, E2. apply Z.leb_gt in E1. split; [done|]. intros Hi. rewrite Hi in E2. cbn in E2. by apply Z.leb_gt in E2.
Qed.

Lemma onPostHandshake_ok ever s r c :
  serverOk ever s -> conns s !! r = Some c -> at_ c = AtPostHandshake -> serverOk ever (onPostHandshake s r c).
Proof.
  intros Hok Hc Ha. unfold onPostHandshake. set (c1 := if decide (nodeID (node c) ∈ trusted s) then _ else c).
  assert (isTrusted c1 = true -> nodeID (node c1) ∈ ever) as Ht.
  { unfold c1. case_decide as Hin; [intros _; by apply (so_ever ever s Hok)|]. intros H. by apply (so_flag ever s Hok r c). }
  destruct (postHandshakeChecks s c1); apply (goroutine_ok ever s r c); try done; by rewrite Ha.
Qed.

(** A connection becomes a peer. *)
Lemma add_ok ever s r c :
  serverOk ever s -> conns s !! r = Some c -> at_ c = AtAddPeer -> postHandshakeChecks s c = None ->
  serverOk ever (mkServer (cfg s) (<[r := move c Added]> (conns s)) (fresh s) (<[nodeID (node c) := r]> (peers s))
    (if Dial.is_ (flags c) Dial.inboundConn then inboundCount s + 1 else inboundCount s) (trusted s)).
Proof.
  intros Hok Hc Ha Hch. destruct (postHandshakeChecks_None s c Hch) as (Hnew & Hself & Hlim). set (s' := mkServer _ _ _ _ _ _). pose proof Hok as [].
  assert (forall id q, peers s !! id = Some q -> q <> r) as Hne.
  { intros id q Hq ->. destruct (so_peer0 id r Hq) as (c0 & Hc0 & _ & Ha0). simplify_eq. by rewrite Ha in Ha0. }
  assert (inbound s' r = Dial.is_ (flags c) Dial.inboundConn) as Hinr by (unfold inbound; cbn [s' conns]; by rewrite lookup_insert_eq).
  assert (forall id q, peers s !! id = Some q -> inbound s' q = inbound s q) as Hin.
  { intros id q Hq. unfold inbound. cbn [s' conns]. rewrite lookup_insert_ne; [done|]. intros <-. by apply (Hne id r Hq). }
  assert (inboundPeers s' = ((if Dial.is_ (flags c) Dial.inboundConn then 1 else 0) + inboundPeers s)%nat) as Hip.
  { unfold inboundPeers. cbn [s' peers]. rewrite count_insert, Hinr by done. f_equal. apply count_ext. eauto. }
  split; cbn [s' peers trusted cfg fresh inboundCount].
  - intros id q. cbn [s' conns]. rewrite lookup_insert_Some. intros [[<- <-]|[Hid Hq]]; [rewrite lookup_insert_eq; by exists (move c Added)|].
    rewrite lookup_insert_ne by (symmetry; by eapply Hne). by apply so_peer0.
  - intros q c0 Hc0 Ha0. cbn [s' conns] in Hc0. apply lookup_insert_Some in Hc0 as [[<- <-]|[_ Hc0]]; [apply lookup_insert_eq|].
    pose proof (so_added0 q c0 Hc0 Ha0) as Hq. rewrite lookup_insert_ne; [done|]. intros E. by rewrite <- E, Hnew in Hq.
  - by rewrite lookup_insert_ne.
  - intros q. cbn [s' conns]. rewrite lookup_insert_is_Some. intros [<-|[_ Hq]]; eauto.
  - rewrite Hip. destruct (Dial.is_ _ _); lia.
  - done.
  - intros q c0 Hc0 Ht. cbn [s' conns] in Hc0. apply lookup_insert_Some in Hc0 as [[<- <-]|[_ Hc0]]; [|by apply (so_flag0 q c0)].
    split; [|done]. by apply (so_flag0 r c).
  - unfold strangers. cbn [s' peers]. rewrite count_insert by done. fold (strangers ever s). destruct (stranger ever (nodeID (node c))) eqn:Est; [|lia].
    destruct Hlim as [Hlim _]. { apply not_true_iff_false. intros Ht. apply bool_decide_eq_true in Est. by apply Est, (so_flag0 r c). }
    pose proof (count_size (fun id _ => stranger ever id) (peers s)). unfold strangers. lia.
  - unfold inboundStrangers. cbn [s' peers]. rewrite count_insert by done.
    rewrite (count_ext _ (fun id r => stranger ever id && inbound s r) (peers s)) by (intros i x Hi; cbn; by rewrite (Hin i x Hi)).
    fold (inboundStrangers ever s). rewrite Hinr. destruct (stranger ever (nodeID (node c))) eqn:Est; [|cbn; lia].
    destruct Hlim as [_ Hlim]. { apply not_true_iff_false. intros Ht. apply bool_decide_eq_true in Est. by apply Est, (so_flag0 r c). }
    destruct (Dial.is_ (flags c) Dial.inboundConn) eqn:Ei; cbn [andb]; [|lia]. specialize (Hlim eq_refl).
    assert (inboundStrangers ever s <= inboundPeers s)%nat by (apply count_mono; intros i x _; cbn; rewrite andb_true_iff; tauto). lia.
Qed.

(** A peer is gone. *)
Lemma del_ok ever s r c :
  serverOk ever s -> conns s !! r = Some c -> at_ c = Added ->
  serverOk ever (mkServer (cfg s) (<[r := move c (Closed None)]> (conns s)) (fresh s) (delete (nodeID (node c)) (peers s))
    (if Dial.is_ (flags c) Dial.inboundConn then inboundCount s - 1 else inboundCount s) (trusted s)).
Proof.
  intros Hok Hc Ha. pose proof (so_added ever s Hok r c Hc Ha) as Hp. set (id := nodeID (node c)) in *. set (s' := mkServer _ _ _ _ _ _). pose proof Hok as [].
  assert (forall i q, delete id (peers s) !! i = Some q -> q <> r) as Hne.
  { intros i q [Hi Hq]%lookup_delete_Some ->. destruct (so_peer0 i r Hq) as (c0 & Hc0 & E & _). by simplify_eq. }
  assert (forall i q, delete id (peers s) !! i = Some q -> inbound s' q = inbound s q) as Hin.
  { intros i q Hq. unfold inbound. cbn [s' conns]. rewrite lookup_insert_ne; [done|]. intros <-. by apply (Hne i r Hq). }
  assert (inbound s r = Dial.is_ (flags c) Dial.inboundConn) as Hinr by (unfold inbound; by rewrite Hc).
  split; cbn [s' peers trusted cfg fresh inboundCount].
  - intros i q Hq. cbn [s' conns]. rewrite lookup_insert_ne by (symmetry; by eapply Hne). apply lookup_delete_Some in Hq as [_ Hq]. by apply so_peer0.
  - intros q c0 Hc0 Ha0. cbn [s' conns] in Hc0. apply lookup_insert_Some in Hc0 as [[<- <-]|[Hqr Hc0]]; [done|].
    apply lookup_delete_Some. split; [|by apply so_added0]. intros E. pose proof (so_added0 q c0 Hc0 Ha0) as Hq. rewrite <- E in Hq. congruence.
  - apply lookup_delete_None. by right.
  - intros q. cbn [s' conns]. rewrite lookup_insert_is_Some. intros [<-|[_ Hq]]; eauto.
  - rewrite so_inbound0. unfold inboundPeers. cbn [s' peers]. rewrite (count_delete _ (peers s) id r Hp), Hinr.
    rewrite (count_ext (fun _ r => inbound s' r) (fun _ r => inbound s r)) by eauto. destruct (Dial.is_ _ _); lia.
  - done.
  - intros q c0 Hc0 Ht. cbn [s' conns] in Hc0. apply lookup_insert_Some in Hc0 as [[<- <-]|[_ Hc0]]; [|by apply (so_flag0 q c0)].
    split; [|done]. by apply (so_flag0 r c).
  - etrans; [|exact so_strangers0]. unfold strangers. cbn [s' peers]. rewrite (count_delete _ (peers s) id r Hp). lia.
  - etrans; [|exact so_inboundStrangers0]. unfold inboundStrangers. cbn [s' peers]. rewrite (count_delete _ (peers s) id r Hp).
    rewrite (count_ext _ (fun id r => stranger ever id && inbound s r) (delete id (peers s))) by (intros i x Hi; cbn; by rewrite (Hin i x Hi)). lia.
Qed.

(** What one step does: a quiet one, a peer that comes, a peer that goes. *)
Inductive effect (s : server) : server -> list Dial.event -> Prop :=
| quiet s' : peers s' = peers s -> (forall id r, peers s !! id = Some r -> dialed s' r = dialed s r) -> effect s s' []
| comes r c s' : conns s !! r = Some c -> peers s !! nodeID (node c) = None -> peers s' = <[nodeID (node c) := r]> (peers s) ->
    (forall q, dialed s' q = dialed s q) -> effect s s' [AddPeer (mkConn (node c) (flags c))]
| goes r c s' : conns s !! r = Some c -> peers s !! nodeID (node c) = Some r -> peers s' = delete (nodeID (node c)) (peers s) ->
    (forall q, dialed s' q = dialed s q) -> effect s s' [RemPeer (mkConn (node c) (flags c))].

Definition nowTrusted (e : event) : gset ID := match e with AddTrusted id => {[id]} | _ => ∅ end.

(** The callers of [SetupConn] set one of these flags. *)
Definition goodEvent (e : event) : Prop :=
  match e with Connect fl _ => fl = Dial.dynDialedConn \/ fl = Dial.staticDialedConn \/ fl = Dial.inboundConn | _ => True end.

Lemma verify_flag (ns : list enode) fl d fl' :
  go_foldl (fun fl n => match d with None => Panic | Some d => Ret (if decide (nodeID d = nodeID n) then Z.lor fl Dial.verifyConn else fl) end) fl ns = Ret fl' ->
  Dial.is_ fl' Dial.trustedConn = Dial.is_ fl Dial.trustedConn.
Proof.
  revert fl. induction ns as [|n ns IH]; intros fl; cbn; [by intros [= <-]|]. destruct d as [d|]; [|done]. cbn. intros Hf. rewrite (IH _ Hf).
  case_decide; [|done]. change Dial.trustedConn with (2 ^ 3). rewrite !is_testbit by lia. change Dial.verifyConn with (2 ^ 4).
  rewrite Z.lor_spec, Z.pow2_bits_false by lia. apply orb_false_r.
Qed.

Lemma quiet_setConn s r c c' : conns s !! r = Some c -> Dial.isDialed (mkConn (node c') (flags c')) = Dial.isDialed (mkConn (node c) (flags c)) -> effect s (setConn s r c') [].
Proof.
  intros Hc E. constructor; [done|]. intros id q _. unfold dialed. cbn [conns setConn]. destruct (decide (r = q)) as [<-|]; [|by rewrite lookup_insert_ne].
  by rewrite lookup_insert_eq, Hc.
Qed.

(** The whole of one step. *)
Definition stepOk (ever : gset ID) (s : server) (e : event) (s' : server) (out : list Dial.event) : Prop :=
  serverOk (nowTrusted e ∪ ever) s' /\ effect s s' out /\ cfg s' = cfg s.

Lemma goroutine_step ever s e r c c' :
  nowTrusted e = ∅ -> serverOk ever s -> conns s !! r = Some c -> at_ c <> Added -> at_ c' <> Added -> (forall dd, at_ c' <> EncHandshake dd) ->
  (isTrusted c' = true -> nodeID (node c') ∈ ever) -> flags c' = flags c -> stepOk ever s e (setConn s r c') [].
Proof.
  intros He Hok Hc ? ? ? ? Ef. split_and!; [|apply (quiet_setConn s r c); [done|]|done].
  - rewrite He, union_empty_l_L. by eapply goroutine_ok.
  - unfold Dial.isDialed. cbn. by rewrite Ef.
Qed.

Lemma step_connect ever s fl d s' out :
  serverOk ever s -> goodEvent (Connect fl d) -> step s (Connect fl d) = Ret (Some (s', out)) -> stepOk ever s (Connect fl d) s' out.
Proof.
  intros Hok Hg. cbn [step]. unfold SetupConn. destruct (go_foldl _ fl _) as [fl'|] eqn:Ef; [|done]. intros [= <- <-].
  apply verify_flag in Ef. assert (Dial.is_ fl Dial.trustedConn = false) as Hfl by (destruct Hg as [->|[->| ->]]; done). rewrite Hfl in Ef.
  assert (conns s !! fresh s = None) as Hnone.
  { destruct (conns s !! fresh s) eqn:E; [|done]. pose proof (so_fresh ever s Hok (fresh s) ltac:(eauto)). lia. }
  split_and!; [|constructor; [done|]|done].
  - cbn [nowTrusted]. rewrite union_empty_l_L. apply setConn_ok; try done; [|unfold isTrusted; cbn [flags]; by rewrite Ef|lia|lia]. intros c Hc. by rewrite Hnone in Hc.
  - intros id r Hr. destruct (so_peer ever s Hok id r Hr) as (c & Hc & _). unfold dialed. cbn [conns]. rewrite lookup_insert_ne; [done|]. intros <-. congruence.
Qed.

Lemma step_trust ever s id val e :
  serverOk ever s -> e = (if val : bool then AddTrusted id else RemoveTrusted id) ->
  let tr := if val then {[id]} ∪ trusted s else trusted s ∖ {[id]} in
  stepOk ever s e (setTrusted (mkServer (cfg s) (conns s) (fresh s) (peers s) (inboundCount s) tr) id val) [].
Proof.
  intros Hok -> tr. set (s1 := mkServer _ _ _ _ _ _). assert (serverOk (nowTrusted (if val then AddTrusted id else RemoveTrusted id) ∪ ever) s1) as Hok1.
  { pose proof (so_ever ever s Hok). destruct val; cbn [nowTrusted tr] in *; [apply ever_mono; [done|set_solver]|].
    rewrite union_empty_l_L. destruct Hok. split; try done. cbn [s1 trusted]. set_solver. }
  split_and!.
  - apply setTrusted_ok; [done|]. intros ->. cbn. set_solver.
  - unfold setTrusted. cbn [s1 peers]. destruct (peers s !! id) as [r|] eqn:Er; [|by constructor].
    change (conns s1) with (conns s). destruct (conns s !! r) as [c|] eqn:Ec; [|by constructor]. constructor; [done|]. intros i q _. unfold dialed. cbn [conns setConn s1].
    destruct (decide (r = q)) as [<-|]; [|by rewrite lookup_insert_ne]. rewrite lookup_insert_eq, Ec. unfold Dial.isDialed. cbn [connFlags].
    f_equal; [apply (set_other c val 0)|apply (set_other c val 1)]; lia.
  - unfold setTrusted. cbn [s1 peers]. destruct (peers s !! id); [|done]. by destruct (conns _ !! _).
Qed.

Lemma isDialed_move s r c st q : conns s !! r = Some c -> forall n ps ic tr, dialed (mkServer (cfg s) (<[r := move c st]> (conns s)) n ps ic tr) q = dialed s q.
Proof.
  intros Hc n ps ic tr. unfold dialed. cbn [conns]. destruct (decide (r = q)) as [<-|]; [|by rewrite lookup_insert_ne]. by rewrite lookup_insert_eq, Hc.
Qed.

Lemma step_addPeer ever s r c :
  serverOk ever s -> conns s !! r = Some c -> at_ c = AtAddPeer -> stepOk ever s (AddPeerCh r) (onAddPeer s r c).1 (onAddPeer s r c).2.
Proof.
  intros Hok Hc Ha. unfold onAddPeer. destruct (addPeerChecks s c) as [reason|] eqn:Ech.
  - apply (goroutine_step ever s _ r c); try done; [by rewrite Ha|]. intros Ht. by apply (so_flag ever s Hok r c).
  - assert (postHandshakeChecks s c = None) as Hch by (unfold addPeerChecks in Ech; by destruct (_ && _)).
    destruct (postHandshakeChecks_None s c Hch) as (Hnew & _). pose proof (add_ok ever s r c Hok Hc Ha Hch) as Hok'. unfold stepOk. cbn [nowTrusted]. rewrite union_empty_l_L.
    destruct (Dial.is_ (flags c) Dial.inboundConn); (split_and!; [exact Hok'| |done]); apply (comes s r c); try done; intros q; exact (isDialed_move s r c _ q Hc _ _ _ _).
Qed.

Lemma step_delPeer ever s r c :
  serverOk ever s -> conns s !! r = Some c -> at_ c = Added -> stepOk ever s (DelPeer r) (onDelPeer s r c).1 (onDelPeer s r c).2.
Proof.
  intros Hok Hc Ha. unfold onDelPeer. pose proof (so_added ever s Hok r c Hc Ha) as Hp. pose proof (del_ok ever s r c Hok Hc Ha) as Hok'.
  unfold stepOk. cbn [nowTrusted]. rewrite union_empty_l_L.
  destruct (Dial.is_ (flags c) Dial.inboundConn); (split_and!; [exact Hok'| |done]); apply (goes s r c); try done; intros q; exact (isDialed_move s r c _ q Hc _ _ _ _).
Qed.

Lemma step_postHandshake ever s r c :
  serverOk ever s -> conns s !! r = Some c -> at_ c = AtPostHandshake -> stepOk ever s (PostHandshakeCh r) (onPostHandshake s r c) [].
Proof.
  intros Hok Hc Ha. split_and!; [cbn [nowTrusted]; rewrite union_empty_l_L; by apply onPostHandshake_ok| |].
  - unfold onPostHandshake. assert (forall st, Dial.isDialed (mkConn (node (move (if decide (nodeID (node c) ∈ trusted s) then
      mkSConn (node c) (Z.lor (flags c) Dial.trustedConn) (caps c) (at_ c) else c) st)) (flags (move (if decide (nodeID (node c) ∈ trusted s) then
      mkSConn (node c) (Z.lor (flags c) Dial.trustedConn) (caps c) (at_ c) else c) st))) = Dial.isDialed (mkConn (node c) (flags c))) as E.
    { intros st. case_decide; [|done]. unfold Dial.isDialed. cbn [connFlags]. f_equal; [apply (set_other c true 0)|apply (set_other c true 1)]; lia. }
    destruct (postHandshakeChecks _ _); apply (quiet_setConn s r c); auto.
  - unfold onPostHandshake. by destruct (postHandshakeChecks _ _).
Qed.

Lemma step_ok ever s e s' out :
  serverOk ever s -> goodEvent e -> step s e = Ret (Some (s', out)) -> stepOk ever s e s' out.
Proof.
  intros Hok Hg Hs. destruct e as [fl d|r|r res|r|r res|r|r|id|id]; [by apply step_connect|..].
  7: { cbn in Hs. injection Hs as <- <-. by apply (step_trust ever s id true). }
  7: { cbn in Hs. injection Hs as <- <-. by apply (step_trust ever s id false). }
  all: cbn [step] in Hs; destruct (conns s !! r) as [c|] eqn:Hc; [|done].
  all: assert (isTrusted c = true -> nodeID (node c) ∈ ever /\ forall dd, at_ c <> EncHandshake dd) as Ht by exact (so_flag ever s Hok r c Hc).
  - destruct (at_ c) as [[d|]| | | | |] eqn:Ha; try done. injection Hs as <- <-. apply (goroutine_step ever s _ r c); try done; [by rewrite Ha|]. intros T. by apply Ht.
  - destruct res as [n|]; destruct (at_ c) as [d| | | | |] eqn:Ha; try done; injection Hs as <- <-; apply (goroutine_step ever s _ r c); try done; try (by rewrite Ha);
      intros T; exfalso; by eapply (proj2 (Ht T)).
  - destruct (at_ c) eqn:Ha; try done. injection Hs as <- <-. by apply step_postHandshake.
  - destruct res as [[id cs]|]; destruct (at_ c) eqn:Ha; try done.
    + case_decide; injection Hs as <- <-; apply (goroutine_step ever s _ r c); try done; try (by rewrite Ha); intros T; by apply Ht.
    + injection Hs as <- <-. apply (goroutine_step ever s _ r c); try done; [by rewrite Ha|]. intros T. by apply Ht.
  - destruct (at_ c) eqn:Ha; try done. destruct (onAddPeer s r c) as [s1 out1] eqn:E. injection Hs as <- <-.
    pose proof (step_addPeer ever s r c Hok Hc Ha) as H. by rewrite E in H.
  - destruct (at_ c) eqn:Ha; try done. destruct (onDelPeer s r c) as [s1 out1] eqn:E. injection Hs as <- <-.
    pose proof (step_delPeer ever s r c Hok Hc Ha) as H. by rewrite E in H.
Qed.

(** ** The scheduler's view of the peers *)

Definition sameView (d d' : scheduler) : Prop := Dial.peers d' = Dial.peers d /\ dialPeers d' = dialPeers d.

#[local] Instance sameView_preorder : PreOrder sameView.
Proof. split; [done|]. intros d1 d2 d3 [] []. split; congruence. Qed.

Lemma removeFromStaticPool_view d i d' : removeFromStaticPool d i = Ret d' -> sameView d d'.
Proof. unfold removeFromStaticPool. destruct (go_index _ _); [|done]. repeat case_match; try done. by intros [= <-]. Qed.

Lemma addToStaticPool_view d p d' : addToStaticPool d p = Ret d' -> sameView d d'.
Proof. unfold addToStaticPool. repeat case_match; try done. by intros [= <-]. Qed.

Lemma updateStaticPool_view d id d' : updateStaticPool d id = Ret d' -> sameView d d'.
Proof. unfold updateStaticPool. repeat case_match; try done; [by apply addToStaticPool_view|by intros [= <-]..]. Qed.

Lemma startDial_view d p now d' st : startDial d p now = Ret (d', st) -> sameView d d'.
Proof. unfold startDial. case_match; [|done]. by intros [= <- <-]. Qed.

Lemma expireHistoryLoop_view fuel d now d' : expireHistoryLoop fuel d now = Ret d' -> sameView d d'.
Proof.
  revert d. induction fuel as [|fuel IH]; intros d; cbn [expireHistoryLoop]; [by intros [= <-]|]. destruct (history d !! 0%nat); [|by intros [= <-]].
  case_match; [|by intros [= <-]]. destruct (heap_pop _ _) as [[x h]|]; [|done]. destruct (updateStaticPool _ _) as [d1|] eqn:E; [|done].
  intros H'. etrans; [exact (updateStaticPool_view _ _ _ E)|by apply IH].
Qed.

(** Only the two events of the server change it. *)
Definition view (e : Dial.event) (v : gset ID * Z) : gset ID * Z :=
  match e with
  | AddPeer c => ({[nodeID (connNode c)]} ∪ v.1, if isDialed c then v.2 + 1 else v.2)
  | RemPeer c => (v.1 ∖ {[nodeID (connNode c)]}, if isDialed c then v.2 - 1 else v.2)
  | _ => v
  end.

Lemma handle_view d e now d' ss : handle d e now = Ret (d', ss) -> (Dial.peers d', dialPeers d') = view e (Dial.peers d, dialPeers d).
Proof.
  assert (forall d0 d1, sameView d0 d1 -> (Dial.peers d1, dialPeers d1) = (Dial.peers d0, dialPeers d0)) as Hv by (intros d0 d1 [-> ->]; done).
  destruct e as [n|p t|c|c|n|n|]; cbn [handle view].
  - destruct (checkDial d n); [by intros [= <- <-]|]. cbn [alloc]. destruct (startDial _ _ _) as [[d1 st]|] eqn:E; [|done]. intros [= <- <-].
    apply Hv. by apply startDial_view in E.
  - destruct (updateStaticPool _ _) as [d1|] eqn:E; [|done]. intros [= <- <-]. apply Hv. by apply updateStaticPool_view in E.
  - set (d1 := Dial.setPeers _ _ _). destruct (static d1 !! _) as [p|]; [|by intros [= <- <-]]. destruct (tasks d1 !! p) as [t|]; [|done].
    case_match; [|by intros [= <- <-]]. destruct (removeFromStaticPool _ _) as [d2|] eqn:E; [|done]. intros [= <- <-].
    rewrite (Hv d1); [done|]. by apply removeFromStaticPool_view in E.
  - set (d1 := Dial.setPeers _ _ _). destruct (updateStaticPool _ _) as [d2|] eqn:E; [|done]. intros [= <- <-]. rewrite (Hv d1); [done|]. by apply updateStaticPool_view in E.
  - destruct (static d !! _); [by intros [= <- <-]|]. cbn [alloc]. set (d1 := setStatic _ _ _). case_decide; [|by intros [= <- <-]].
    destruct (addToStaticPool _ _) as [d2|] eqn:E; [|done]. intros [= <- <-]. rewrite (Hv d1); [done|]. by apply addToStaticPool_view in E.
  - destruct (static d !! _) as [p|]; [|by intros [= <- <-]]. set (d1 := setStatic _ _ _). destruct (tasks d1 !! p) as [t|]; [|done].
    case_match; [|by intros [= <- <-]]. destruct (removeFromStaticPool _ _) as [d2|] eqn:E; [|done]. intros [= <- <-].
    rewrite (Hv d1); [done|]. by apply removeFromStaticPool_view in E.
  - unfold expireHistory. destruct (historyTimer d); [|done]. destruct (expireHistoryLoop _ _ _) as [d1|] eqn:E; [|done]. intros [= <- <-].
    apply Hv. by apply expireHistoryLoop_view in E.
Qed.

(** ** Server and scheduler together

    The loop of the server waits until the scheduler has taken what it tells it, so the two take such a step together. *)

Inductive sys (c : Config) : server -> gset ID -> scheduler -> list start -> Z -> Prop :=
| sys_new clk : sys c (newServer c) (list_to_set (TrustedNodes c)) (newDialScheduler (setupDialScheduler c).1) [] clk
| sys_server s ever d ss clk e s' :
    sys c s ever d ss clk -> goodEvent e -> step s e = Ret (Some (s', [])) -> sys c s' (nowTrusted e ∪ ever) d ss clk
| sys_told s ever d ss clk e s' x draw now d1 ss1 accept later d2 ss2 :
    sys c s ever d ss clk -> goodEvent e -> step s e = Ret (Some (s', [x])) -> clk <= now <= later ->
    launch d draw now = Ret (d1, ss1, accept) -> handle d1 x later = Ret (d2, ss2) ->
    sys c s' (nowTrusted e ∪ ever) d2 (ss ++ ss1 ++ ss2) later
| sys_dial s ever d ss clk draw now d1 ss1 accept x later d2 ss2 :
    sys c s ever d ss clk -> clk <= now <= later -> launch d draw now = Ret (d1, ss1, accept) -> DialLemmas.enabled d1 accept later x ->
    (forall v, view x v = v) -> handle d1 x later = Ret (d2, ss2) -> sys c s ever d2 (ss ++ ss1 ++ ss2) later.

Lemma newServer_ok c : serverOk (list_to_set (TrustedNodes c)) (newServer c).
Proof.
  split; try done; unfold strangers, inboundStrangers, inboundPeers; cbn [newServer peers inboundCount]; rewrite ?count_empty; try lia.
  intros r [c0 Hc]. cbn [newServer conns] in Hc. by rewrite lookup_empty in Hc.
Qed.

Definition agrees (s : server) (d : scheduler) : Prop := Dial.peers d = dom (peers s) /\ dialPeers d = Z.of_nat (dialedPeers s).

Lemma effect_agrees s s' out x d d' now ss :
  effect s s' out -> agrees s d -> out = [x] -> handle d x now = Ret (d', ss) -> agrees s' d' /\ forall a t, DialLemmas.enabled d a t x.
Proof.
  intros He [E1 E2] -> Hh. apply handle_view in Hh. rewrite E1, E2 in Hh. unfold agrees, dialedPeers in *. inversion He as [|r c ? Hc Hp Ep Hd|r c ? Hc Hp Ep Hd]; subst.
  - cbn [view fst snd connNode] in Hh. injection Hh as -> ->. rewrite Ep. split; [|done]. split; [by rewrite dom_insert_L|].
    rewrite count_insert by done. rewrite (count_ext (fun _ r => dialed s' r) (fun _ r => dialed s r)) by (intros; apply Hd). assert (dialed s r = isDialed (mkConn (node c) (flags c))) as Hdr by (unfold dialed; by rewrite Hc). rewrite Hd, Hdr.
    destruct (isDialed _); lia.
  - cbn [view fst snd connNode] in Hh. injection Hh as -> ->. rewrite Ep. split; [|done]. split; [by rewrite dom_delete_L|].
    rewrite (count_delete _ (peers s) _ r Hp). rewrite (count_ext (fun _ r => dialed s' r) (fun _ r => dialed s r)) by (intros; apply Hd). assert (dialed s r = isDialed (mkConn (node c) (flags c))) as Hdr by (unfold dialed; by rewrite Hc). rewrite Hdr.
    destruct (isDialed _); lia.
Qed.

Lemma launch_agrees s d draw now d1 ss1 accept :
  DialLemmas.dialOk d -> launch d draw now = Ret (d1, ss1, accept) -> agrees s d -> agrees s d1.
Proof.
  intros Hok Hl [E1 E2]. destruct (DialLemmas.launch_ok d draw now Hok) as (d1' & ss1' & a & El & [] & _). rewrite El in Hl. simplify_eq.
  split; congruence.
Qed.

Lemma sys_ok c s ever d ss clk :
  sys c s ever d ss clk ->
  serverOk ever s /\ cfg s = c /\ DialLemmas.reach (setupDialScheduler c).1 d ss clk /\ agrees s d.
Proof.
  induction 1 as [clk|s ever d ss clk e s' _ (Hok & Hc & Hr & Ha) Hg Hs|s ever d ss clk e s' x draw now d1 ss1 accept later d2 ss2 _ (Hok & Hc & Hr & Ha) Hg Hs Hclk Hl Hh
    |s ever d ss clk draw now d1 ss1 accept x later d2 ss2 _ (Hok & Hc & Hr & Ha) Hclk Hl Hen Hv Hh].
  - split_and!; [apply newServer_ok|done|constructor|]. split; [cbn; by rewrite dom_empty_L|done].
  - destruct (step_ok ever s e s' [] Hok Hg Hs) as (Hok' & He & Hc'). split_and!; [done|congruence|done|]. destruct Ha as [E1 E2].
    inversion He as [? Ep Hd| |]; subst. unfold agrees, dialedPeers. rewrite Ep, E1, E2. split; [done|]. f_equal. apply count_ext. intros i r Hi. symmetry. by eapply Hd.
  - destruct (step_ok ever s e s' [x] Hok Hg Hs) as (Hok' & He & Hc'). pose proof (DialLemmas.reach_ok _ _ _ _ Hr) as (Hdok & _).
    destruct (effect_agrees s s' [x] x d1 d2 later ss2 He) as [Ha' Hen]; [by eapply launch_agrees|done..|].
    split_and!; [done|congruence| |done]. eapply DialLemmas.reach_round; [exact Hr|exact Hclk|exact Hl|apply Hen|exact Hh].
  - split_and!; [done|done|by eapply DialLemmas.reach_round|]. pose proof (DialLemmas.reach_ok _ _ _ _ Hr) as (Hdok & _).
    pose proof (launch_agrees s d draw now d1 ss1 accept Hdok Hl Ha) as [E1 E2]. apply handle_view in Hh. rewrite Hv in Hh. injection Hh as Ep Ed. split; congruence.
Qed.

(** ** Inbound attempts *)

Lemma expireLoop_ok {A} `{EqDecision A} fuel (h : list (expItem A)) now :
  heap_ok exp (length h) h ->
  heap_ok exp (length (expireLoop fuel h now)) (expireLoop fuel h now) /\ forall x, x ∈ h -> x ∈ expireLoop fuel h now \/ exp x < now.
Proof.
  revert h. induction fuel as [|fuel IH]; intros h Hh; cbn [expireLoop]; [auto|]. destruct (h !! 0%nat) as [top|] eqn:Et; [|auto].
  destruct (Z.ltb_spec (exp top) now) as [Hlt|]; [|auto]. destruct (heap_pop_ok exp h Hh) as (x & r & -> & Hp & Hr & Ex & _); [by intros ->|].
  assert (x = top) as -> by congruence. destruct (IH r Hr) as [H1 H2]. split; [done|]. intros y. rewrite Hp, elem_of_cons. intros [->|Hy]; auto.
Qed.

(** The connections that pass, in order. *)
Fixpoint listen (c : Config) (h : list (expItem IP)) (l : list (IP * Z)) : list (IP * Z) :=
  match l with
  | [] => []
  | (ip, now) :: l => let '(h, err) := checkInboundConn c h ip now in match err with None => (ip, now) :: listen c h l | Some _ => listen c h l end
  end.

Lemma checkInboundConn_spec c h ip now h' err :
  heap_ok exp (length h) h -> checkInboundConn c h ip now = (h', err) ->
  heap_ok exp (length h') h' /\ (forall x, x ∈ h -> x ∈ h' \/ exp x < now) /\
  (err = None -> ip <> [] -> mkExp (ipKey ip) (now + inboundThrottleTime) ∈ h' /\
     forall x, IsLAN ip = false -> x ∈ h -> item x = ipKey ip -> exp x < now).
Proof.
  intros Hh. unfold checkInboundConn. case_decide as Hip; [intros [= <- <-]; split_and!; auto; done|]. destruct (match NetRestrict c with Some _ => _ | None => _ end).
  { intros [= <- <-]. split_and!; auto. done. }
  destruct (expireLoop_ok (length h) h now Hh) as [Hh1 Hx1]. fold (expire h now) in *. destruct (negb (IsLAN ip) && contains (expire h now) (ipKey ip)) eqn:Ec.
  { intros [= <- <-]. split_and!; auto. done. }
  intros [= <- <-]. destruct (heap_push_ok exp (expire h now) (mkExp (ipKey ip) (now + inboundThrottleTime)) Hh1) as [Hp Hh2]. unfold add. split_and!; [done| |].
  - intros x Hx. rewrite Hp. destruct (Hx1 x Hx); [left; set_solver|by right].
  - intros _ _. split; [rewrite Hp; set_solver|]. intros x Hlan Hx Ek. rewrite Hlan in Ec. cbn in Ec. destruct (Hx1 x Hx) as [Hin|]; [|done].
    exfalso. assert (contains (expire h now) (ipKey ip) = true) as E; [|congruence]. unfold contains. apply existsb_exists. exists x.
    split; [by apply list_elem_of_In|by apply bool_decide_eq_true].
Qed.

Lemma listen_spaced c l h :
  heap_ok exp (length h) h -> StronglySorted (fun a b => a.2 <= b.2) l ->
  (forall x ip u, x ∈ h -> (ip, u) ∈ listen c h l -> ip <> [] -> IsLAN ip = false -> item x = ipKey ip -> exp x < u) /\
  (forall i j ip t ip' u, (i < j)%nat -> listen c h l !! i = Some (ip, t) -> listen c h l !! j = Some (ip', u) ->
     ip <> [] -> ip' <> [] -> IsLAN ip' = false -> ipKey ip = ipKey ip' -> t + inboundThrottleTime < u).
Proof.
  revert h. induction l as [|[ip now] l IH]; intros h Hh Hs; cbn [listen].
  { split; [intros x ip u _ Hin; by apply not_elem_of_nil in Hin|]. intros i j ip t ip' u _ Hi. done. }
  inversion Hs as [|? ? Hs' Hle]; subst. destruct (checkInboundConn c h ip now) as [h' err] eqn:Ec.
  destruct (checkInboundConn_spec c h ip now h' err Hh Ec) as (Hh' & Hkeep & Hnone). destruct (IH h' Hh' Hs') as [Ha Hb].
  assert (forall q u, (q, u) ∈ listen c h' l -> now <= u) as Hlater.
  { clear - Hle. intros q u. revert h'. induction l as [|[p t] l IH]; intros h'; cbn [listen]; [intros H; by apply not_elem_of_nil in H|].
    apply Forall_cons in Hle as [Ht Hle]. destruct (checkInboundConn c h' p t) as [h2 [e|]]; [by apply IH|]. intros [[= -> ->]|Hin]%elem_of_cons; [done|]. by eapply IH. }
  assert (forall x q u, x ∈ h -> (q, u) ∈ listen c h' l -> q <> [] -> IsLAN q = false -> item x = ipKey q -> exp x < u) as Hold.
  { intros x q u Hx Hq ? ? ?. destruct (Hkeep x Hx); [by eapply Ha|]. pose proof (Hlater q u Hq). lia. }
  destruct err as [e|]; [by split|]. split.
  - intros x q u Hx [[= -> ->]|Hq]%elem_of_cons Hne Hlan Ek; [|by eapply Hold]. destruct (Hnone eq_refl Hne) as [_ H]. by apply H.
  - intros i j q t q' u Hij Hi Hj Hq Hq' Hlan Ek. destruct j as [|j]; [lia|]. cbn in Hj. destruct i as [|i]; [|by apply (Hb i j q t q' u); try done; lia].
    injection Hi as <- <-. destruct (Hnone eq_refl Hq) as [Hin _]. eapply (Ha _ q' u Hin); try done. by eapply list_elem_of_lookup_2.
Qed.

End ServerLemmas.

Import Server ServerLemmas.

(** C12: In every state that the server reaches, [inboundCount] is the number of inbound peers; the peers that were never trusted are
    at most [MaxPeers], the inbound ones of them at most [maxInboundConns]; the entry of a peer is that of a connection to its
    node; and the server is not its own peer. *)
Theorem peer_limits c s ever d ss clk :
  sys c s ever d ss clk ->
  inboundCount s = Z.of_nat (inboundPeers s) /\
  Z.of_nat (strangers ever s) <= Z.max 0 (MaxPeers c) /\ Z.of_nat (inboundStrangers ever s) <= Z.max 0 (maxInboundConns c) /\
  (forall id r, peers s !! id = Some r -> exists cn, conns s !! r = Some cn /\ nodeID (node cn) = id /\ at_ cn = Added) /\
  peers s !! self c = None.
Proof. intros ([] & <- & _)%sys_ok. by split_and!. Qed.

(** C22: The scheduler's view of the peers, which is told to it event by event, is at all times that of the server: the same nodes are
    connected, and as many are counted as dialled. So, in every turn of its loop, neither the static dials that it launches nor the dial to a
    discovered node go to a connected node; and a turn that starts a dial leaves no more dials under way, earlier ones included, than
    the limit on pending dials, and than two for each place that the dialled peers leave free. *)
Theorem scheduler_sees_the_peers c s ever d ss clk draw now :
  sys c s ever d ss clk ->
  let limit := Z.min (2 * (maxDialedConns c - Z.of_nat (dialedPeers s))) (if MaxPendingPeers c =? 0 then defaultMaxPendingPeers else MaxPendingPeers c) in
  Dial.peers d = dom (peers s) /\ dialPeers d = Z.of_nat (dialedPeers s) /\
  exists d1 ss1 accept, launch d draw now = Ret (d1, ss1, accept) /\
    Forall (fun st => peers s !! toNode st = None) ss1 /\
    size (dialing d1) = (size (dialing d) + length ss1)%nat /\ (ss1 <> [] -> Z.of_nat (size (dialing d1)) <= limit) /\
    forall e later, DialLemmas.enabled d1 accept later e -> exists d2 ss2, handle d1 e later = Ret (d2, ss2) /\
      Forall (fun st => peers s !! toNode st = None) ss2 /\
      (size (dialing d2) <= size (dialing d1) + length ss2)%nat /\ (ss2 <> [] -> Z.of_nat (size (dialing d1) + length ss2) <= limit).
Proof.
  intros (_ & _ & Hr & E1 & E2)%sys_ok limit. split_and!; [done..|]. destruct (DialLemmas.reach_ok _ _ _ _ Hr) as (Hok & _ & Hc & _).
  destruct (DialLemmas.launch_ok d draw now Hok) as (d1 & ss1 & accept & -> & [] & Hle & Hpool & _ & Hacc). exists d1, ss1, accept.
  assert (freeDialSlots d = limit - Z.of_nat (size (dialing d))) as Hfree.
  { unfold freeDialSlots. rewrite Hc, E2. cbn [maxDialPeers maxActiveDials withDefaults setupDialScheduler fst]. unfold limit. lia. }
  assert (forall l, Forall (fun st => toNode st ∉ Dial.peers d) l -> Forall (fun st => peers s !! toNode st = None) l) as Hstr.
  { intros l Hl. eapply Forall_impl; [exact Hl|]. cbn. intros st. by rewrite E1, not_elem_of_dom. }
  split_and!; [done|by apply Hstr|done| |].
  - intros Hne. rewrite la_size. destruct ss1; [done|]. cbn [length] in *. lia.
  - intros e later Hen. destruct (DialLemmas.dial_handle_ok d1 accept e later la_ok) as (d2 & ss2 & Eh & [] & Hle2); [intros Ha; by apply Hpool, Hacc|done|].
    exists d2, ss2. split_and!; [done| |done|].
    + apply Hstr. rewrite <- la_peers. by eapply DialLemmas.handle_strangers.
    + intros Hne. destruct accept; [|destruct ss2; [done|cbn in Hle2; lia]]. pose proof (proj1 Hacc eq_refl). lia.
Qed.

(** Of two inbound connections from one address outside the local network, both of which pass, the second comes more than
    [inboundThrottleTime] (30 seconds) after the first. *)
Theorem inbound_attempts_spaced c l i j ip t ip' u :
  StronglySorted (fun a b => a.2 <= b.2) l -> (i < j)%nat -> listen c [] l !! i = Some (ip, t) -> listen c [] l !! j = Some (ip', u) ->
  ip <> [] -> ip' <> [] -> IsLAN ip' = false -> ipKey ip = ipKey ip' -> t + inboundThrottleTime < u.
Proof. intros Hs. apply (listen_spaced c l []); [|done]. intros k Hk. cbn in Hk. lia. Qed.

(** Setting up a connection panics exactly for one without destination, which is every inbound one, when there are nodes to
    verify: [SetupConn] asks the missing destination for its ID. *)
Theorem inbound_panics_with_verify_nodes s e :
  step s e = Panic <-> exists fl, e = Connect fl None /\ VerifyNodes (cfg s) <> [].
Proof.
  split.
  - destruct e as [fl dd|r|r res|r|r res|r|r|id|id]; cbn [step]; try done.
    + unfold SetupConn. destruct dd as [dn|].
      * assert (forall ns f, exists f', go_foldl (fun fl n => Ret (if decide (nodeID dn = nodeID n) then Z.lor fl Dial.verifyConn else fl)) f ns = Ret f') as Hret.
        { induction ns as [|n ns IH]; intros f; cbn; [eauto|apply IH]. }
        destruct (Hret (VerifyNodes (cfg s)) fl) as [f' ->]. done.
      * destruct (VerifyNodes (cfg s)) eqn:E; [done|]. intros _. exists fl. done.
    + destruct (conns s !! r) as [cn|]; [|done]. by destruct (at_ cn) as [[]| | | | |].
    + destruct (conns s !! r) as [cn|]; [|done]. destruct res; by destruct (at_ cn) as [[]| | | | |].
    + destruct (conns s !! r) as [cn|]; [|done]. by destruct (at_ cn) as [[]| | | | |].
    + destruct (conns s !! r) as [cn|]; [|done]. destruct res as [[]|]; destruct (at_ cn) as [[]| | | | |]; try done. by case_decide.
    + destruct (conns s !! r) as [cn|]; [|done]. by destruct (at_ cn) as [[]| | | | |].
    + destruct (conns s !! r) as [cn|]; [|done]. by destruct (at_ cn) as [[]| | | | |].
  - intros (fl & -> & Hv). cbn [step]. unfold SetupConn. by destruct (VerifyNodes (cfg s)).
Qed.

(** ** A run: an inbound connection becomes a peer; a trusted one loses its trust while it is set up *)

Module ServerDemo.

Record demo := mkDemo { dServer : server; dEver : gset ID; dSched : scheduler; dStarts : list start; dClock : Z }.

Definition demoStart (c : Config) : demo :=
  mkDemo (newServer c) (list_to_set (TrustedNodes c)) (newDialScheduler (setupDialScheduler c).1) [] 0.

(** One step of the server, and of the scheduler when it is told something; [None] if there is none. *)
Definition demoStep (st : demo) (e : event) : option demo :=
  match step (dServer st) e with
  | Ret (Some (s', [])) => Some (mkDemo s' (nowTrusted e ∪ dEver st) (dSched st) (dStarts st) (dClock st))
  | Ret (Some (s', [x])) =>
      match launch (dSched st) (fun _ => 0%nat) (dClock st) with
      | Ret (d1, ss1, _) =>
          match handle d1 x (dClock st) with
          | Ret (d2, ss2) => Some (mkDemo s' (nowTrusted e ∪ dEver st) d2 (dStarts st ++ ss1 ++ ss2) (dClock st))
          | Panic => None
          end
      | Panic => None
      end
  | _ => None
  end.

Fixpoint demoSteps (st : demo) (es : list event) : option demo :=
  match es with
  | [] => Some st
  | e :: es => match demoStep st e with Some st => demoSteps st es | None => None end
  end.

Lemma demoStep_sys c st e st' :
  sys c (dServer st) (dEver st) (dSched st) (dStarts st) (dClock st) -> goodEvent e -> demoStep st e = Some st' ->
  sys c (dServer st') (dEver st') (dSched st') (dStarts st') (dClock st').
Proof.
  intros Hs Hg. unfold demoStep. destruct (step (dServer st) e) as [[[s' [|x [|y l]]]|]|] eqn:E; try done.
  - intros [= <-]. by eapply sys_server.
  - destruct (launch _ _ _) as [[[d1 ss1] a]|] eqn:El; [|done]. destruct (handle _ _ _) as [[d2 ss2]|] eqn:Eh; [|done]. intros [= <-].
    eapply sys_told; [exact Hs|done|exact E| |exact El|exact Eh]. cbn. lia.
Qed.

Lemma demoSteps_sys c es st st' :
  sys c (dServer st) (dEver st) (dSched st) (dStarts st) (dClock st) -> Forall goodEvent es -> demoSteps st es = Some st' ->
  sys c (dServer st') (dEver st') (dSched st') (dStarts st') (dClock st').
Proof.
  revert st. induction es as [|e es IH]; intros st Hs Hg; cbn; [by intros [= <-]|]. apply Forall_cons in Hg as [He Hg].
  destruct (demoStep st e) as [st1|] eqn:E; [|done]. apply IH; [by eapply demoStep_sys|done].
Qed.

Definition demoConfig : Config := mkServerConfig [0] 1 0 0 false [] [[2]] [] [] None.

(** A connection from node [id], up to the protocol handshake. *)
Definition arrives (r : nat) (id : Z) : list event := [Connect inboundConn None; EncDone r (Some (mkEnode [id] [] 0)); PostHandshakeCh r].

Definition demoEvents : list event :=
  [Connect dynDialedConn (Some (mkEnode [1] [] 0)); EncDone 0 (Some (mkEnode [1] [] 0)); PostHandshakeCh 0; ProtoDone 0 (Some ([1], [])); AddPeerCh 0] ++
  arrives 1 2 ++ [RemoveTrusted [2]; ProtoDone 1 (Some ([2], [])); AddPeerCh 1].

Definition demoEnd : demo := default (demoStart demoConfig) (demoSteps (demoStart demoConfig) demoEvents).

Lemma demo_sys : sys demoConfig (dServer demoEnd) (dEver demoEnd) (dSched demoEnd) (dStarts demoEnd) (dClock demoEnd).
Proof.
  apply (demoSteps_sys demoConfig demoEvents (demoStart demoConfig)); [apply sys_new| |vm_compute; reflexivity].
  repeat (constructor; [cbn; tauto|]). constructor.
Qed.

End ServerDemo.

Import ServerDemo.

(** A node that loses its trust while its connection is set up is still let in beyond the limit: the flag on the connection is
    set at the first checkpoint, and [RemoveTrusted] clears it on peers only. Here there are two peers where [MaxPeers] is one, and
    no node is trusted. *)
Theorem withdrawn_trust_still_admits :
  size (peers (dServer demoEnd)) = 2%nat /\ MaxPeers (cfg (dServer demoEnd)) = 1 /\ trusted (dServer demoEnd) = ∅.
Proof. split_and!; vm_compute; reflexivity. Qed.

Lemma peer_limits_witness : inboundCount (dServer demoEnd) = 1 /\ Z.of_nat (strangers (dEver demoEnd) (dServer demoEnd)) <= 1.
Proof.
  destruct (peer_limits demoConfig _ _ _ _ _ demo_sys) as (_ & H & _). split; [vm_compute; reflexivity|exact H].
Defined.

Lemma scheduler_sees_the_peers_witness : dialPeers (dSched demoEnd) = 1 /\ Dial.peers (dSched demoEnd) = dom (peers (dServer demoEnd)).
Proof.
  destruct (scheduler_sees_the_peers demoConfig _ _ _ _ _ (fun _ => 0%nat) 0 demo_sys) as (H1 & _). split; [vm_compute; reflexivity|exact H1].
Defined.

(** Three attempts from one address: the second is too early. *)
Definition demoAttempts : list (IP * Z) := [([8; 8; 8; 8], 0); ([8; 8; 8; 8], 10 * 10 ^ 9); ([8; 8; 8; 8], 31 * 10 ^ 9)].

Lemma inbound_attempts_spaced_witness :
  listen demoConfig [] demoAttempts = [([8; 8; 8; 8], 0); ([8; 8; 8; 8], 31 * 10 ^ 9)] /\ 0 + inboundThrottleTime < 31 * 10 ^ 9.
Proof.
  split; [vm_compute; reflexivity|].
  apply (inbound_attempts_spaced demoConfig demoAttempts 0 1 [8; 8; 8; 8] 0 [8; 8; 8; 8]); try (vm_compute; reflexivity); try discriminate.
  repeat constructor; cbn; lia.
Defined.
