(* ===== verification/Peri.v ===== *)
(** * The peer eviction policy (src/eth/peri.go)

    [Peri] records when each peer delivered a block or a transaction, scores the
    peers by their average delay, and every period disconnects those it does not
    reserve and blocks their address for a while. The state is the record [peri]; the
    clock is an argument. A loop over a Go map whose result is sorted or shuffled
    afterwards takes the map's elements in the order of [map_to_list]: every other
    order is another instance of [SortSlice] or [Shuffle]. *)

From stdpp Require Import base tactics list gmap strings sorting.
From Stdlib Require Import ZArith Lia SpecFloat Ascii DecimalString.
From S2P Require Import Prelude Types GoFloat EthPeer PeerSet.

Open Scope Z_scope.
Open Scope go_scope.

Import PeerSet.

Module Peri.

Definition milli2Nano : Z := 1000000.
Definition transactionArrivalReplace : Z := 30000.
Definition enodeSplitIndex : nat := 137.
Definition maxBlockDist : Z := 32.
Definition Minute : Z := 60 * 1000000000.

Record blockItem := mkBlockItem { ip : string; count : Z; expiredTime : Z }.

#[global] Instance blockItem_eq_dec : EqDecision blockItem.
Proof. solve_decision. Defined.

Record idScore := mkScore { id : string; score : float64 }.

#[global] Instance idScore_eq_dec : EqDecision idScore.
Proof. solve_decision. Defined.

(** [blockAnnounce]: a hash and a number. *)
Notation blockAnnounce := (Z * Z)%type (only parsing).

(** The part of [ethconfig.Config] that the policy reads. *)
Record config := mkConfig {
  PeriActive : bool;
  PeriReplaceRatio : float64;
  PeriBlockNodeRatio : float64;
  PeriMaxDelayPenalty : Z;         (* uint64, milliseconds *)
  PeriMaxDeliveryTolerance : Z;    (* int64, milliseconds *)
  PeriShowTxDelivery : bool;
  PeriNoDropList : list string;
  PeriMaxTransactionAmount : Z
}.

Record peri := mkPeri {
  replaceCount : Z;
  blockPeersCount : Z;
  txsPeerCount : Z;
  maxDelayDuration : Z;
  txArrivals : gmap hash Z;
  txArrivalPerPeer : gmap hash (gmap string Z);
  txOldArrivals : gmap hash Z;
  blockArrivals : gmap blockAnnounce Z;
  blockArrivalPerPeer : gmap blockAnnounce (gmap string Z);
  peersSnapShot : gmap string string;
  blocklist : gmap string blockItem
}.

Definition setTx (p : peri) (arr : gmap hash Z) (per : gmap hash (gmap string Z)) : peri :=
  mkPeri (replaceCount p) (blockPeersCount p) (txsPeerCount p) (maxDelayDuration p)
    arr per (txOldArrivals p) (blockArrivals p) (blockArrivalPerPeer p)
    (peersSnapShot p) (blocklist p).

Definition setBlock (p : peri) (arr : gmap blockAnnounce Z)
    (per : gmap blockAnnounce (gmap string Z)) : peri :=
  mkPeri (replaceCount p) (blockPeersCount p) (txsPeerCount p) (maxDelayDuration p)
    (txArrivals p) (txArrivalPerPeer p) (txOldArrivals p) arr per
    (peersSnapShot p) (blocklist p).

Definition setSnapShot (p : peri) (snap : gmap string string) : peri :=
  mkPeri (replaceCount p) (blockPeersCount p) (txsPeerCount p) (maxDelayDuration p)
    (txArrivals p) (txArrivalPerPeer p) (txOldArrivals p) (blockArrivals p)
    (blockArrivalPerPeer p) snap (blocklist p).

Definition setBlocklist (p : peri) (bl : gmap string blockItem) : peri :=
  mkPeri (replaceCount p) (blockPeersCount p) (txsPeerCount p) (maxDelayDuration p)
    (txArrivals p) (txArrivalPerPeer p) (txOldArrivals p) (blockArrivals p)
    (blockArrivalPerPeer p) (peersSnapShot p) bl.

(** ** Strings *)

(** [s[n:]] *)
Definition sliceFrom (s : string) (n : nat) : go string :=
  if decide (n <= String.length s)%nat then Ret (String.substring n (String.length s - n) s) else Panic.

(** [strings.Split(s, ":")[0]]: what precedes the first colon. *)
Fixpoint untilColon (s : string) : string :=
  match s with
  | EmptyString => EmptyString
  | String c s => if Ascii.eqb c ":" then EmptyString else String c (untilColon s)
  end.

Definition extractIPFromEnode (enode : string) : go string :=
  let! rest := sliceFrom enode enodeSplitIndex in Ret (untilColon rest).

(** ** The URL of a node (src/p2p/enode/urlv4.go, [Node.URLv4]) *)

Definition Itoa (z : Z) : string := NilZero.string_of_int (Z.to_int z).

Fixpoint containsColonOrPercent (s : string) : bool :=
  match s with
  | EmptyString => false
  | String c s => Ascii.eqb c ":" || Ascii.eqb c "%" || containsColonOrPercent s
  end.

(** [net.JoinHostPort], through [net.TCPAddr.String]. *)
Definition JoinHostPort (host port : string) : string :=
  if containsColonOrPercent host
  then String.append "[" (String.append host (String.append "]:" port))
  else String.append host (String.append ":" port).

(** [nodeid] is the public key in hexadecimal, [host] the printed address, [None] for
    an incomplete node (one without an address). *)
Definition nodeURLv4 (nodeid : string) (host : option string) (tcp udp : Z) : string :=
  match host with
  | None => String.append "enode://" nodeid
  | Some host =>
      String.append "enode://" (String.append nodeid (String.append "@"
        (String.append (JoinHostPort host (Itoa tcp))
          (if udp =? tcp then EmptyString else String.append "?discport=" (Itoa udp)))))
  end.

(** ** Recording arrivals *)

Definition blockAnnouncesFromHashesAndNumbers (hashes numbers : list Z) : list blockAnnounce :=
  zip hashes numbers.

(** The update of one arrival, shared by blocks and transactions: the first
    timestamp, and the timestamp of this peer. Writing to the inner map of a key that
    has an arrival but no inner map is a write to a nil map. *)
Definition recordArrival {K} `{Countable K} (arr : gmap K Z) (per : gmap K (gmap string Z))
    (k : K) (peerId : string) (timestamp : Z) : go (gmap K Z * gmap K (gmap string Z)) :=
  match arr !! k with
  | Some arrivalTimestamp =>
      let arr' := if timestamp <? arrivalTimestamp then <[k := timestamp]> arr else arr in
      match per !! k with
      | Some m => Ret (arr', <[k := <[peerId := timestamp]> m]> per)
      | None => Panic
      end
  | None => Ret (<[k := timestamp]> arr, <[k := {[peerId := timestamp]}]> per)
  end.

(** The log line cuts the URL at [enodeSplitIndex]. *)
Definition showDelivery (cfg : config) (enodeUrl : string) : go unit :=
  if PeriShowTxDelivery cfg then let! _ := sliceFrom enodeUrl enodeSplitIndex in Ret tt else Ret tt.

(** [current] is the number of the chain's current block. *)
Definition recordBlockAnnounces (cfg : config) (p : peri) (peerId enodeUrl : string)
    (hashes numbers : list Z) (current timestamp : Z) : go peri :=
  go_foldl (fun p ann =>
    if i64 (i64 (snd ann) - i64 current) <? - maxBlockDist then Ret p
    else
      let! (arr, per) := recordArrival (blockArrivals p) (blockArrivalPerPeer p) ann peerId timestamp in
      let! _ := showDelivery cfg enodeUrl in
      Ret (setBlock p arr per))
    p (blockAnnouncesFromHashesAndNumbers hashes numbers).

Definition recordBlockBody (cfg : config) (p : peri) (peerId enodeUrl : string) (b : Block)
    (current timestamp : Z) : go peri :=
  recordBlockAnnounces cfg p peerId enodeUrl [blockHash b] [NumberU64 b] current timestamp.

Definition recordTransactionAnnounces (cfg : config) (p : peri) (peerId enodeUrl : string)
    (hashes : list hash) (timestamp : Z) : go peri :=
  go_foldl (fun p h =>
    match txOldArrivals p !! h with
    | Some _ => Ret p
    | None =>
        let! (arr, per) := recordArrival (txArrivals p) (txArrivalPerPeer p) h peerId timestamp in
        let! _ := showDelivery cfg enodeUrl in
        Ret (setTx p arr per)
    end) p hashes.

Definition recordTransactionBody (cfg : config) (p : peri) (peerId enodeUrl : string)
    (txs : list Transaction) (timestamp : Z) : go peri :=
  recordTransactionAnnounces cfg p peerId enodeUrl (txHash <$> txs) timestamp.

(** ** Scores *)

(** The latest arrival, 0 if there is none. *)
Definition latestArrival {K} `{Countable K} (arr : gmap K Z) : Z :=
  foldl (fun latest kv => if latest <? snd kv then snd kv else latest) 0 (map_to_list arr).

(** The delay of one peer for one item. *)
Definition delayOf {K} `{Countable K} (per : gmap K (gmap string Z)) (maxDelay : Z) (peerId : string)
    (k : K) (arrivalTimestamp : Z) : Z :=
  match per !! k ≫= (.!! peerId) with
  | None => maxDelay
  | Some t => let d := i64 (t - arrivalTimestamp) in if maxDelay <? d then maxDelay else d
  end.

(** The items that arrived since the peer connected: how many, and the total delay. *)
Definition delays {K} `{Countable K} (arr : gmap K Z) (per : gmap K (gmap string Z)) (maxDelay : Z)
    (peerId : string) (birth : Z) : Z * Z :=
  foldl (fun '(n, total) '(k, t) =>
    if t <? birth then (n, total) else (i64 (n + 1), i64 (total + delayOf per maxDelay peerId k t)))
    (0, 0) (map_to_list arr).

(** The average delay of a peer, and whether it is excused as a newcomer. *)
Definition scoreOf {K} `{Countable K} (arr : gmap K Z) (per : gmap K (gmap string Z)) (maxDelay : Z)
    (tolerance latest : Z) (peerId : string) (birth : Z) : float64 * bool :=
  let '(n, total) := delays arr per maxDelay peerId birth in
  if n =? 0 then (of_int maxDelay, i64 (latest - i64 (tolerance * milli2Nano)) <? birth)
  else (fdiv (of_int total) (of_int n), false).

Definition isNoDropPeer (cfg : config) (p : peri) (peerId : string) : go bool :=
  let! ipAddress := extractIPFromEnode (default EmptyString (peersSnapShot p !! peerId)) in
  Ret (bool_decide (ipAddress ∈ PeriNoDropList cfg)).

(** The comparison of the two sorts, the no-drop flags given. *)
Definition scoreLess (noDrop : string -> bool) (x y : idScore) : bool :=
  if noDrop (id x) && negb (noDrop (id y)) then false
  else if noDrop (id y) && negb (noDrop (id x)) then true
  else fgt (score x) (score y).

Section Policy.

Context `{SortSlice} `{Shuffle} `{AppendCap}.

(** The flags of all the peers to sort; a sort of two or more elements compares each
    of them, so a panic of one comparison is a panic of the sort. *)
Fixpoint noDropFlags (cfg : config) (p : peri) (l : list idScore) : go (gmap string bool) :=
  match l with
  | [] => Ret ∅
  | x :: l =>
      let! b := isNoDropPeer cfg p (id x) in
      let! m := noDropFlags cfg p l in Ret (<[id x := b]> m)
  end.

Definition sortScores (cfg : config) (p : peri) (l : list idScore) : go (list idScore) :=
  if decide (length l < 2)%nat then Ret l
  else
    let! flags := noDropFlags cfg p l in
    Ret (sort_slice (scoreLess (fun i => default false (flags !! i))) l).

(** The scores before sorting. *)
Definition rawScores {K} `{Countable K} (arr : gmap K Z) (per : gmap K (gmap string Z))
    (maxDelay tolerance : Z) (ps : peerSet) : list (idScore * bool) :=
  (fun '(i, peer) =>
     let '(s, ex) := scoreOf arr per maxDelay tolerance (latestArrival arr) i (Peer.ConnectedTimestamp peer) in
     (mkScore i s, ex)) <$> map_to_list (peers ps).

(** [getScores]: block scores, transaction scores, excused peers; it refreshes the
    snapshot of the peers' URLs. *)
Definition getScores (cfg : config) (p : peri) (ps : peerSet)
    : go (peri * list idScore * list idScore * gset string) :=
  let tol := PeriMaxDeliveryTolerance cfg in
  let p := setSnapShot p ((Peer.URLv4 <$> peers ps) ∪ peersSnapShot p) in
  let bs := rawScores (blockArrivals p) (blockArrivalPerPeer p) (maxDelayDuration p) tol ps in
  let ts := rawScores (txArrivals p) (txArrivalPerPeer p) (maxDelayDuration p) tol ps in
  let excused := list_to_set (id ∘ fst <$> filter (fun x => snd x = true) (bs ++ ts)) in
  let! blockScores := sortScores cfg p bs.*1 in
  let! txScores := sortScores cfg p ts.*1 in
  Ret (p, blockScores, txScores, excused).

(** ** Eviction *)

(** The identifiers in the last [quota] places of a ranking. *)
Definition reserved (scores : list idScore) (quota : Z) : list string :=
  let idx := math_Max (of_int (i64 (Z.of_nat (length scores) - quota))) (of_int 0) in
  id <$> drop (Z.to_nat (to_int idx)) scores.

(** The identifiers in places [idx .. right) of a ranking. *)
Definition surplus (scores : list idScore) (quota toDropNum : Z) : list string :=
  let n := Z.of_nat (length scores) in
  let idx := math_Max (of_int (i64 (n - quota))) (of_int 0) in
  let right := math_Min (fadd idx (of_int toDropNum)) (of_int n) in
  id <$> take (Z.to_nat (to_int right - to_int idx)) (drop (Z.to_nat (to_int idx)) scores).

(** The identifiers to drop, before the excused ones are skipped. *)
Definition chooseDrops (p : peri) (blockScores txScores : list idScore) : go (list string) :=
  let quota := i64 (blockPeersCount p + txsPeerCount p) in
  let peersReserve : gset string :=
    list_to_set (reserved blockScores (blockPeersCount p) ++ reserved txScores (txsPeerCount p)) in
  let neighbors := to_int (math_Min (of_int (Z.of_nat (length txScores)))
                                    (of_int (Z.of_nat (length blockScores)))) in
  let peersRemove := filter (fun i => i ∉ peersReserve) (id <$> take (Z.to_nat neighbors) txScores) in
  if quota <? neighbors then
    let toDropNum := i64 (neighbors - quota) in
    if Z.of_nat (size peersReserve) <=? quota then
      append_slice EmptyString (shuffle peersRemove) toDropNum
    else
      let toDropNum := i64 (toDropNum - Z.of_nat (length peersRemove)) in
      let toDropIds : gset string :=
        list_to_set (surplus blockScores (blockPeersCount p) toDropNum
                     ++ surplus txScores (txsPeerCount p) toDropNum) in
      let! chosen := append_slice EmptyString (shuffle (elements toDropIds)) toDropNum in
      Ret (chosen ++ peersRemove)
  else Ret [].

(** [time.Duration(math.Pow(2, float64(count))) * 20 * time.Minute] *)
Definition backoff (count : Z) : Z :=
  i64 (i64 (to_int (math_Pow2 (of_int count)) * 20) * Minute).

Definition blockAddress (bl : gmap string blockItem) (addr : string) (now : Z) : gmap string blockItem :=
  match bl !! addr with
  | Some item =>
      let c := i64 (count item + 1) in <[addr := mkBlockItem (ip item) c (now + backoff c)]> bl
  | None => <[addr := mkBlockItem addr 1 (now + backoff 0)]> bl
  end.

(** The loop over the chosen identifiers; [clock i] is the time of round [i]. *)
Fixpoint dropLoop (excused : gset string) (clock : nat -> Z) (i : nat) (l : list string)
    (p : peri) (ps : peerSet) (evs : list netEvent) : go (peri * peerSet * list netEvent) :=
  match l with
  | [] => Ret (p, ps, evs)
  | peerId :: l =>
      if decide (peerId ∈ excused) then dropLoop excused clock (S i) l p ps evs
      else
        let! addr := extractIPFromEnode (default EmptyString (peersSnapShot p !! peerId)) in
        let p := setBlocklist p (blockAddress (blocklist p) addr (clock i)) in
        let evs := evs ++ removePeer ps peerId in
        let '(ps, dropped) := handlerUnregisterPeer ps peerId in
        dropLoop excused clock (S i) l p ps (evs ++ dropped)
  end.

(** Old transactions are those of this round and of the rounds before; when there are
    too many, the earliest are forgotten, and the round starts afresh. *)
Definition resetRecords (cfg : config) (p : peri) : peri :=
  let old := txArrivals p ∪ txOldArrivals p in
  let old :=
    if PeriMaxTransactionAmount cfg <? Z.of_nat (size old) then
      let listArrivals := sort_slice (fun x y : hash * Z => snd x <? snd y) (map_to_list old) in
      let n := if Z.of_nat (size old) <? transactionArrivalReplace
               then size old else Z.to_nat transactionArrivalReplace in
      foldl (fun m x => delete (fst x) m) old (take n listArrivals)
    else old in
  mkPeri (replaceCount p) (blockPeersCount p) (txsPeerCount p) (maxDelayDuration p)
    ∅ ∅ old ∅ ∅ ∅ (blocklist p).

Definition disconnectByScore (cfg : config) (p : peri) (ps : peerSet) (clock : nat -> Z)
    : go (peri * peerSet * list netEvent) :=
  if decide (blockArrivals p = ∅ \/ txArrivals p = ∅) then Ret (p, ps, [])
  else
    let! (p, blockScores, txScores, excused) := getScores cfg p ps in
    let! toDrop := chooseDrops p blockScores txScores in
    let! (p, ps, evs) :=
      (if PeriActive cfg then dropLoop excused clock 0 toDrop p ps [] else Ret (p, ps, [])) in
    Ret (resetRecords cfg p, ps, evs).

End Policy.

(** [time.Now().After(expired) == false] *)
Definition isBlocked (p : peri) (enode : string) (now : Z) : go bool :=
  let! addr := extractIPFromEnode enode in
  match blocklist p !! addr with
  | Some item => Ret (now <=? expiredTime item)
  | None => Ret false
  end.

(** ** Quotas *)

Definition SetRatios (p : peri) (maxPeers : Z) (replaceRatio blockRatio txRatio : float64) : peri :=
  let n := of_int maxPeers in
  mkPeri (to_int (fmul n replaceRatio)) (to_int (fmul n blockRatio)) (to_int (fmul n txRatio))
    (maxDelayDuration p) (txArrivals p) (txArrivalPerPeer p) (txOldArrivals p) (blockArrivals p)
    (blockArrivalPerPeer p) (peersSnapShot p) (blocklist p).

(** The state [CreatePeri] builds before it reads its database. *)
Definition newPeri (cfg : config) (maxPeers : Z) : peri :=
  let n := of_int maxPeers in
  let replace := to_int (math_Round (fmul n (PeriReplaceRatio cfg))) in
  let blocks := to_int (math_Round (fmul n (PeriBlockNodeRatio cfg))) in
  mkPeri replace blocks (i64 (i64 (maxPeers - replace) - blocks))
    (i64 (u64 (PeriMaxDelayPenalty cfg * milli2Nano))) ∅ ∅ ∅ ∅ ∅ ∅ ∅.

(** ** Invariant of the records *)

(** Every arrival has per-peer timestamps, none earlier than the arrival, and one that
    equals it until that peer repeats itself; nothing else is kept. *)
Definition records_ok {K} `{Countable K} (arr : gmap K Z) (per : gmap K (gmap string Z)) : Prop :=
  (forall k t, arr !! k = Some t ->
     exists m, per !! k = Some m /\ m <> ∅ /\ forall i t', m !! i = Some t' -> t <= t') /\
  (forall k, is_Some (per !! k) -> is_Some (arr !! k)).

Record wf (p : peri) : Prop := {
  wf_tx : records_ok (txArrivals p) (txArrivalPerPeer p);
  wf_block : records_ok (blockArrivals p) (blockArrivalPerPeer p);
  wf_fresh : forall h, is_Some (txArrivals p !! h) -> txOldArrivals p !! h = None
}.

(** A URL that can be cut at [enodeSplitIndex]. *)
Definition longURL (url : string) : Prop := (enodeSplitIndex <= String.length url)%nat.

Lemma showDelivery_Ret cfg url : longURL url -> showDelivery cfg url = Ret tt.
Proof.
  intros Hu. unfold showDelivery, sliceFrom. destruct (PeriShowTxDelivery cfg); [|done].
  by rewrite decide_True.
Qed.

Lemma extractIP_Ret url : longURL url -> exists addr, extractIPFromEnode url = Ret addr.
Proof.
  intros Hu. unfold extractIPFromEnode, sliceFrom. rewrite decide_True by done. by eexists.
Qed.

(** Recording one arrival: the earliest timestamp and this peer's latest. *)
Lemma recordArrival_spec {K} `{Countable K} (arr : gmap K Z) per k i t :
  records_ok arr per ->
  exists arr' per', recordArrival arr per k i t = Ret (arr', per') /\
    records_ok arr' per' /\
    arr' !! k = Some (match arr !! k with Some t0 => Z.min t t0 | None => t end) /\
    per' !! k ≫= (.!! i) = Some t /\
    (forall j, j <> i -> per' !! k ≫= (.!! j) = per !! k ≫= (.!! j)) /\
    (forall k', k' <> k -> arr' !! k' = arr !! k' /\ per' !! k' = per !! k').
Proof.
  intros [Hok Hdom]. unfold recordArrival. destruct (arr !! k) as [t0|] eqn:Ha.
  - destruct (Hok k t0 Ha) as (m & Hm & Hne & Hle). rewrite Hm. do 2 eexists. split; [done|].
    assert ((if t <? t0 then <[k:=t]> arr else arr) = <[k := Z.min t t0]> arr) as ->.
    { destruct (Z.ltb_spec t t0); [by rewrite Z.min_l by lia|].
      rewrite Z.min_r by lia. by rewrite insert_id. }
    split_and!.
    + split.
      * intros k' t'. rewrite lookup_insert_Some. intros [[<- <-]|[Hk Ht']].
        -- exists (<[i:=t]> m). rewrite lookup_insert_eq. split_and!; [done|apply insert_non_empty|].
           intros j tj. rewrite lookup_insert_Some. intros [[_ <-]|[_ Hj]]; [lia|].
           specialize (Hle j tj Hj). lia.
        -- rewrite lookup_insert_ne by done. by apply Hok.
      * intros k'. destruct (decide (k' = k)) as [->|]; [rewrite !lookup_insert_eq; by eauto|].
        rewrite !lookup_insert_ne by done. apply Hdom.
    + by rewrite lookup_insert_eq.
    + rewrite lookup_insert_eq. simpl. by rewrite lookup_insert_eq.
    + intros j Hj. rewrite lookup_insert_eq. simpl. by rewrite lookup_insert_ne.
    + intros k' Hk'. by rewrite !lookup_insert_ne.
  - do 2 eexists. split; [done|]. split_and!.
    + split.
      * intros k' t'. rewrite lookup_insert_Some. intros [[<- <-]|[Hk Ht']].
        -- exists {[i := t]}. rewrite lookup_insert_eq. split_and!; [done|apply map_non_empty_singleton|].
           intros j tj. rewrite lookup_singleton_Some. intros [_ <-]. lia.
        -- rewrite lookup_insert_ne by done. by apply Hok.
      * intros k'. destruct (decide (k' = k)) as [->|]; [rewrite !lookup_insert_eq; by eauto|].
        rewrite !lookup_insert_ne by done. apply Hdom.
    + by rewrite lookup_insert_eq.
    + rewrite lookup_insert_eq. simpl. by rewrite lookup_singleton_eq.
    + intros j Hj. rewrite lookup_insert_eq. simpl. rewrite lookup_singleton_ne by done.
      destruct (per !! k) as [m|] eqn:Hm; [|done]. destruct (Hdom k) as [x Hx]; [by eauto|]. congruence.
    + intros k' Hk'. by rewrite !lookup_insert_ne.
Qed.

(** The loop over a batch, with the entries that are skipped given by [skip]. *)
Definition recordAll {K} `{Countable K} (skip : K -> bool) (i : string) (t : Z)
    (st : gmap K Z * gmap K (gmap string Z)) (k : K) : go (gmap K Z * gmap K (gmap string Z)) :=
  if skip k then Ret st else recordArrival (fst st) (snd st) k i t.

(** What a batch at time [t] from peer [i] does to the records. *)
Definition recorded {K} `{Countable K} (skip : K -> bool) (i : string) (t : Z) (ks : list K)
    (arr arr' : gmap K Z) (per per' : gmap K (gmap string Z)) : Prop :=
  (forall k, k ∈ ks -> skip k = false ->
     arr' !! k = Some (match arr !! k with Some t0 => Z.min t t0 | None => t end) /\
     per' !! k ≫= (.!! i) = Some t) /\
  (forall k, k ∉ ks \/ skip k = true -> arr' !! k = arr !! k /\ per' !! k = per !! k) /\
  (forall k j, j <> i -> per' !! k ≫= (.!! j) = per !! k ≫= (.!! j)).

Lemma recordAll_spec {K} `{Countable K} (skip : K -> bool) i t ks arr per :
  records_ok arr per ->
  exists arr' per', go_foldl (recordAll skip i t) (arr, per) ks = Ret (arr', per') /\
    records_ok arr' per' /\ recorded skip i t ks arr arr' per per'.
Proof.
  revert arr per. induction ks as [|k ks IH]; intros arr per Hok; cbn [go_foldl].
  { exists arr, per. split_and!; [done..|]. split_and!; [set_solver|done|done]. }
  unfold recordAll at 1. cbn [fst snd]. destruct (skip k) eqn:Hk.
  - destruct (IH arr per Hok) as (arr' & per' & Hr & Hok' & H1 & H2 & H3).
    exists arr', per'. split_and!; [done..|]. split_and!; [| |done].
    + intros k' [->|Hin]%elem_of_cons Hs; [congruence|by apply H1].
    + intros k' Hk'. apply H2. rewrite not_elem_of_cons in Hk'. tauto.
  - destruct (recordArrival_spec arr per k i t Hok) as (a1 & p1 & -> & Hok1 & Ha & Hp & Hj & Hne).
    destruct (IH a1 p1 Hok1) as (arr' & per' & Hr & Hok' & H1 & H2 & H3).
    exists arr', per'. split_and!; [done..|]. split_and!.
    + intros k' Hin Hs. destruct (decide (k' = k)) as [->|Hkne].
      * destruct (decide (k ∈ ks)) as [Hks|Hks].
        -- destruct (H1 k Hks Hs) as [E1 E2]. split; [|done]. rewrite E1, Ha.
           destruct (arr !! k); f_equal; lia.
        -- destruct (H2 k (or_introl Hks)) as [-> ->]. done.
      * destruct (Hne k' Hkne) as [E1 E2]. apply elem_of_cons in Hin as [|Hin]; [done|].
        destruct (H1 k' Hin Hs) as [E3 E4]. by rewrite E3, E1.
    + intros k' Hk'. rewrite not_elem_of_cons in Hk'.
      assert (k' <> k) as Hkne by (intros ->; intuition congruence).
      destruct (Hne k' Hkne) as [<- <-]. apply H2. tauto.
    + intros k' j Hji. rewrite (H3 k' j Hji). destruct (decide (k' = k)) as [->|Hkne]; [by apply Hj|].
      by destruct (Hne k' Hkne) as [_ ->].
Qed.

Definition txSkip (p : peri) (h : hash) : bool := bool_decide (is_Some (txOldArrivals p !! h)).
Definition blockSkip (current : Z) (a : blockAnnounce) : bool :=
  i64 (i64 (snd a) - i64 current) <? - maxBlockDist.

Lemma recordTransactionAnnounces_fold cfg p i url hs t :
  showDelivery cfg url = Ret tt ->
  recordTransactionAnnounces cfg p i url hs t =
    let! (arr, per) := go_foldl (recordAll (txSkip p) i t) (txArrivals p, txArrivalPerPeer p) hs in
    Ret (setTx p arr per).
Proof.
  intros Hshow. unfold recordTransactionAnnounces. rewrite Hshow.
  assert (p = setTx p (txArrivals p) (txArrivalPerPeer p)) as Hp by (by destruct p).
  rewrite Hp at 1. generalize (txArrivals p) (txArrivalPerPeer p). clear Hp.
  induction hs as [|h hs IH]; intros arr per; cbn [go_foldl]; [done|].
  unfold recordAll at 1, txSkip at 1. cbn [fst snd txOldArrivals setTx txArrivals txArrivalPerPeer].
  destruct (txOldArrivals p !! h); simpl; [apply IH|].
  destruct (recordArrival arr per h i t) as [[arr' per']|]; [|done]. apply IH.
Qed.

Lemma recordBlockAnnounces_fold cfg p i url hs ns current t :
  showDelivery cfg url = Ret tt ->
  recordBlockAnnounces cfg p i url hs ns current t =
    let! (arr, per) := go_foldl (recordAll (blockSkip current) i t)
      (blockArrivals p, blockArrivalPerPeer p) (zip hs ns) in
    Ret (setBlock p arr per).
Proof.
  intros Hshow. unfold recordBlockAnnounces, blockAnnouncesFromHashesAndNumbers. rewrite Hshow.
  assert (p = setBlock p (blockArrivals p) (blockArrivalPerPeer p)) as Hp by (by destruct p).
  rewrite Hp at 1. generalize (blockArrivals p) (blockArrivalPerPeer p) (zip hs ns). clear Hp.
  intros arr per l. revert arr per.
  induction l as [|a l IH]; intros arr per; cbn [go_foldl]; [done|].
  unfold recordAll at 1, blockSkip at 1. cbn [fst snd blockArrivals blockArrivalPerPeer setBlock].
  destruct (_ <? - maxBlockDist); [apply IH|].
  destruct (recordArrival arr per a i t) as [[arr' per']|]; [|done]. apply IH.
Qed.

(** ** Lemmas: scores *)

Lemma delays_count {K} `{Countable K} (arr : gmap K Z) per maxDelay i birth :
  Z.of_nat (size arr) < 2 ^ 53 ->
  fst (delays arr per maxDelay i birth) =
    Z.of_nat (length (filter (fun kv => birth <= snd kv) (map_to_list arr))).
Proof.
  intros Hsz. unfold delays. rewrite <- length_map_to_list in Hsz.
  assert (forall l n total, 0 <= n -> n + Z.of_nat (length l) < 2 ^ 53 ->
    fst (foldl (fun '(n, total) '(k, t) =>
      if t <? birth then (n, total) else (i64 (n + 1), i64 (total + delayOf per maxDelay i k t)))
      (n, total) l) = n + Z.of_nat (length (filter (fun kv : K * Z => birth <= snd kv) l))) as Hl.
  { induction l as [|[k t] l IH]; intros n total Hn Hb; [simpl; lia|]. cbn [foldl].
    rewrite length_cons in Hb. destruct (Z.ltb_spec t birth).
    - rewrite filter_cons_False by (simpl; lia). apply IH; lia.
    - rewrite filter_cons_True by (simpl; lia). rewrite (i64_id (n + 1)) by (unfold in_i64; lia).
      rewrite IH by lia. rewrite length_cons. lia. }
  by rewrite Hl by lia.
Qed.

(** Every score is a number. *)
Lemma scoreOf_not_nan {K} `{Countable K} (arr : gmap K Z) per maxDelay tol latest i birth :
  Z.of_nat (size arr) < 2 ^ 53 ->
  isNaN (fst (scoreOf arr per maxDelay tol latest i birth)) = false.
Proof.
  intros Hsz. unfold scoreOf. pose proof (delays_count arr per maxDelay i birth Hsz) as Hn.
  destruct (delays _ _ _ _ _) as [n total]. cbn [fst] in Hn.
  destruct (Z.eqb_spec n 0); cbn [fst]; [apply of_int_not_nan|]. apply average_not_nan.
  pose proof (length_filter (fun kv : K * Z => birth <= snd kv) (map_to_list arr)) as Hle.
  rewrite length_map_to_list in Hle. lia.
Qed.

Lemma scoreLess_asym nd x y : scoreLess nd x y = true -> scoreLess nd y x = false.
Proof.
  unfold scoreLess, fgt. destruct (nd (id x)), (nd (id y)); simpl; try done; apply flt_asym.
Qed.

Lemma not_scoreLess_trans nd x y z :
  isNaN (score x) = false -> isNaN (score y) = false -> isNaN (score z) = false ->
  scoreLess nd y x = false -> scoreLess nd z y = false -> scoreLess nd z x = false.
Proof.
  intros Hx Hy Hz. unfold scoreLess, fgt.
  destruct (nd (id x)), (nd (id y)), (nd (id z)); simpl; try done; intros H1 H2;
    by apply (not_flt_trans _ (score y)).
Qed.

(** The no-drop flag as a total function. *)
Definition noDrop (cfg : config) (p : peri) (i : string) : bool :=
  match isNoDropPeer cfg p i with Ret b => b | Panic => false end.

(** The snapshot has a URL long enough for every ranked peer. *)
Definition snapped (p : peri) (l : list idScore) : Prop :=
  forall x, x ∈ l -> exists url, peersSnapShot p !! id x = Some url /\ longURL url.

Definition ranked (cfg : config) (p : peri) (l : list idScore) : Prop :=
  StronglySorted (fun x y => scoreLess (noDrop cfg p) y x = false) l.

Lemma isNoDropPeer_Ret cfg p i url :
  peersSnapShot p !! i = Some url -> longURL url -> isNoDropPeer cfg p i = Ret (noDrop cfg p i).
Proof.
  intros Hs Hu. unfold noDrop, isNoDropPeer. rewrite Hs. simpl.
  by destruct (extractIP_Ret url Hu) as [addr ->].
Qed.

Lemma noDropFlags_spec cfg p l :
  snapped p l -> exists m, noDropFlags cfg p l = Ret m /\
    forall x, x ∈ l -> m !! id x = Some (noDrop cfg p (id x)).
Proof.
  induction l as [|x l IH]; intros Hs; cbn [noDropFlags]; [exists ∅; split; [done|set_solver]|].
  destruct (Hs x) as (url & Hu & Hl); [set_solver|]. rewrite (isNoDropPeer_Ret _ _ _ _ Hu Hl).
  destruct IH as (m & -> & Hm); [intros y Hy; apply Hs; set_solver|].
  eexists. split; [done|]. intros y Hy. rewrite lookup_insert.
  case_decide as Hid; [by rewrite Hid|]. apply Hm. apply elem_of_cons in Hy as [->|]; done.
Qed.

Lemma sortScores_spec `{SortSlice} cfg p l :
  snapped p l -> (forall x, x ∈ l -> isNaN (score x) = false) ->
  exists l', sortScores cfg p l = Ret l' /\ l' ≡ₚ l /\ ranked cfg p l'.
Proof.
  intros Hs Hn. unfold sortScores. case_decide as Hlen.
  { exists l. split_and!; [done..|]. destruct l as [|x [|y l]]; simpl in Hlen; [..|lia].
    - constructor.
    - constructor; constructor. }
  destruct (noDropFlags_spec cfg p l Hs) as (m & -> & Hm). eexists. split; [done|].
  split; [apply sort_slice_perm|].
  apply (StronglySorted_impl_elem
    (fun x y => scoreLess (fun i => default false (m !! i)) y x = false)).
  - intros x y. rewrite sort_slice_perm. intros Hx Hy. unfold scoreLess.
    rewrite (Hm x Hx), (Hm y Hy). done.
  - apply sort_slice_sorted; [apply scoreLess_asym|].
    intros x y z Hx Hy Hz. apply not_scoreLess_trans; auto.
Qed.

(** ** Lemmas: rankings and quotas *)

Lemma rawScores_ids {K} `{Countable K} (arr : gmap K Z) per maxDelay tol ps :
  id <$> (rawScores arr per maxDelay tol ps).*1 = (map_to_list (peers ps)).*1.
Proof.
  unfold rawScores. rewrite <- !list_fmap_compose. apply list_fmap_ext. intros ? [i q] _. simpl.
  by destruct (scoreOf _ _ _ _ _ _ _).
Qed.

Lemma rawScores_not_nan {K} `{Countable K} (arr : gmap K Z) per maxDelay tol ps x :
  Z.of_nat (size arr) < 2 ^ 53 ->
  x ∈ (rawScores arr per maxDelay tol ps).*1 -> isNaN (score x) = false.
Proof.
  intros Hsz Hx. unfold rawScores in Hx. rewrite <- list_fmap_compose in Hx.
  apply list_elem_of_fmap in Hx as ([i q] & -> & _). simpl.
  pose proof (scoreOf_not_nan arr per maxDelay tol (latestArrival arr) i (Peer.ConnectedTimestamp q) Hsz).
  by destruct (scoreOf _ _ _ _ _ _ _).
Qed.

(** Sizes for which the floating-point arithmetic on counts is exact. *)
Record sizes_ok (p : peri) (ps : peerSet) : Prop := {
  few_txs : Z.of_nat (size (txArrivals p)) < 2 ^ 53;
  few_blocks : Z.of_nat (size (blockArrivals p)) < 2 ^ 53;
  few_peers : Z.of_nat (size (peers ps)) < 2 ^ 52
}.

Definition urls_ok (ps : peerSet) : Prop :=
  forall i q, peers ps !! i = Some q -> longURL (Peer.URLv4 q).

Definition snapShot (p : peri) (ps : peerSet) : peri :=
  setSnapShot p ((Peer.URLv4 <$> peers ps) ∪ peersSnapShot p).

Lemma snapShot_lookup p ps i q :
  peers ps !! i = Some q -> peersSnapShot (snapShot p ps) !! i = Some (Peer.URLv4 q).
Proof. intros Hi. simpl. apply lookup_union_Some_l. by rewrite lookup_fmap, Hi. Qed.

Lemma snapped_raw p ps (l : list idScore) :
  urls_ok ps -> id <$> l ≡ₚ (map_to_list (peers ps)).*1 -> snapped (snapShot p ps) l.
Proof.
  intros Hu Hl x Hx. assert (id x ∈ (map_to_list (peers ps)).*1) as Hi.
  { rewrite <- Hl. by apply list_elem_of_fmap_2. }
  apply list_elem_of_fmap in Hi as ([i q] & Hid & Hq). apply elem_of_map_to_list in Hq. simpl in Hid.
  exists (Peer.URLv4 q). rewrite Hid, (snapShot_lookup p ps i q Hq). split; [done|by apply (Hu i)].
Qed.

Lemma getScores_spec `{SortSlice} cfg p ps :
  sizes_ok p ps -> urls_ok ps ->
  exists bs ts ex, getScores cfg p ps = Ret (snapShot p ps, bs, ts, ex) /\
    bs ≡ₚ (rawScores (blockArrivals p) (blockArrivalPerPeer p) (maxDelayDuration p)
            (PeriMaxDeliveryTolerance cfg) ps).*1 /\
    ts ≡ₚ (rawScores (txArrivals p) (txArrivalPerPeer p) (maxDelayDuration p)
            (PeriMaxDeliveryTolerance cfg) ps).*1 /\
    ranked cfg (snapShot p ps) bs /\ ranked cfg (snapShot p ps) ts.
Proof.
  intros Hsz Hu. unfold getScores. fold (snapShot p ps). cbn [blockArrivals txArrivals
    blockArrivalPerPeer txArrivalPerPeer maxDelayDuration snapShot setSnapShot].
  fold (snapShot p ps).
  destruct (sortScores_spec cfg (snapShot p ps) (rawScores (blockArrivals p) (blockArrivalPerPeer p)
    (maxDelayDuration p) (PeriMaxDeliveryTolerance cfg) ps).*1) as (bs & -> & Hbs & Hrb).
  { apply snapped_raw; [done|]. by rewrite rawScores_ids. }
  { intros x. apply rawScores_not_nan, Hsz. }
  destruct (sortScores_spec cfg (snapShot p ps) (rawScores (txArrivals p) (txArrivalPerPeer p)
    (maxDelayDuration p) (PeriMaxDeliveryTolerance cfg) ps).*1) as (ts & -> & Hts & Hrt).
  { apply snapped_raw; [done|]. by rewrite rawScores_ids. }
  { intros x. apply rawScores_not_nan, Hsz. }
  by do 3 eexists.
Qed.

Lemma ranking_ids {K} `{Countable K} (arr : gmap K Z) per maxDelay tol ps l :
  l ≡ₚ (rawScores arr per maxDelay tol ps).*1 -> range_of (id <$> l) (peers ps).
Proof. intros Hl. unfold range_of. by rewrite Hl, rawScores_ids. Qed.

(** The reserved places are the last [quota] of the ranking. *)
Lemma reserved_drop l quota :
  0 <= quota < 2 ^ 52 -> Z.of_nat (length l) < 2 ^ 52 ->
  reserved l quota = id <$> drop (length l - Z.to_nat quota) l.
Proof.
  intros Hq Hl. unfold reserved. rewrite i64_id by (unfold in_i64; lia).
  rewrite to_int_Max_0 by lia. do 2 f_equal. lia.
Qed.

Lemma reserved_length l quota :
  0 <= quota < 2 ^ 52 -> Z.of_nat (length l) < 2 ^ 52 ->
  Z.of_nat (length (reserved l quota)) <= quota.
Proof. intros. rewrite reserved_drop by done. rewrite length_fmap, length_drop. lia. Qed.

Lemma reserved_elem l quota i : i ∈ reserved l quota -> i ∈ id <$> l.
Proof.
  unfold reserved. intros (x & -> & Hx)%list_elem_of_fmap. apply list_elem_of_fmap_2.
  by eapply elem_of_sublist; [|apply sublist_drop].
Qed.

(** With quotas that are not negative, exactly the excess over the two quotas is
    chosen, once each, and nobody in a reserved place. *)
Lemma chooseDrops_spec `{Shuffle} `{AppendCap} p bs ts :
  0 <= blockPeersCount p -> 0 <= txsPeerCount p -> blockPeersCount p + txsPeerCount p < 2 ^ 52 ->
  NoDup (id <$> ts) -> id <$> bs ≡ₚ id <$> ts -> Z.of_nat (length ts) < 2 ^ 52 ->
  exists drops, chooseDrops p bs ts = Ret drops /\ NoDup drops /\
    Z.of_nat (length drops) =
      Z.max 0 (Z.of_nat (length ts) - (blockPeersCount p + txsPeerCount p)) /\
    (forall i, i ∈ drops -> i ∈ id <$> ts /\ i ∉ reserved bs (blockPeersCount p) /\
                           i ∉ reserved ts (txsPeerCount p)).
Proof.
  intros Hb Ht Hq Hnd Hperm Hlen. unfold chooseDrops.
  assert (length bs = length ts) as Heq.
  { apply Permutation_length in Hperm. by rewrite !length_fmap in Hperm. }
  rewrite i64_id by (unfold in_i64; lia). rewrite Heq, math_Min_diag, to_int_of_int by lia.
  rewrite Nat2Z.id, take_ge by done.
  set (reserve := list_to_set _ : gset string). set (remove := filter _ _).
  destruct (Z.ltb_spec (blockPeersCount p + txsPeerCount p) (Z.of_nat (length ts))) as [Hlt|Hge].
  2: { exists []. split_and!; [done|constructor|simpl; lia|].
       intros i Hi. by apply not_elem_of_nil in Hi. }
  pose proof (reserved_length bs (blockPeersCount p) ltac:(lia) ltac:(lia)) as Hrb.
  pose proof (reserved_length ts (txsPeerCount p) ltac:(lia) ltac:(lia)) as Hrt.
  assert (Z.of_nat (size reserve) <= blockPeersCount p + txsPeerCount p) as Hres.
  { pose proof (size_list_to_set_le (reserved bs (blockPeersCount p) ++ reserved ts (txsPeerCount p))) as Hs.
    fold reserve in Hs. rewrite length_app in Hs. lia. }
  destruct (Z.leb_spec (Z.of_nat (size reserve)) (blockPeersCount p + txsPeerCount p)); [|lia].
  assert (length remove = (length ts - size reserve)%nat) as Hrem.
  { unfold remove. rewrite length_filter_notin, length_fmap; [done|done|].
    intros x. unfold reserve. rewrite elem_of_list_to_set, elem_of_app.
    intros [Hx|Hx]; apply reserved_elem in Hx; [by rewrite <- Hperm|done]. }
  pose proof (Permutation_length (shuffle_perm _ remove)) as Hsh.
  rewrite i64_id by (unfold in_i64; lia). rewrite append_slice_Ret by lia.
  eexists. split; [done|]. split_and!.
  - assert (NoDup (shuffle remove)) as Hns by (rewrite shuffle_perm; by apply NoDup_filter).
    by apply (sublist_NoDup _ _ Hns), sublist_take.
  - rewrite length_take. lia.
  - intros i Hi. apply (elem_of_sublist _ (shuffle remove)) in Hi; [|apply sublist_take].
    rewrite shuffle_perm in Hi. apply list_elem_of_filter in Hi as [Hni Hi].
    split; [done|]. unfold reserve in Hni.
    by rewrite elem_of_list_to_set, not_elem_of_app in Hni.
Qed.

(** The chosen peers that are not excused. *)
Definition evicted (excused : gset string) (drops : list string) : list string :=
  filter (fun i => i ∉ excused) drops.

(** The address of a peer in the snapshot, and the addresses that a round blocks, with the times. *)
Definition addrOf (snap : gmap string string) (i : string) : string :=
  match extractIPFromEnode (default EmptyString (snap !! i)) with Ret addr => addr | Panic => EmptyString end.

Fixpoint blockings (snap : gmap string string) (excused : gset string) (clock : nat -> Z) (n : nat)
    (drops : list string) : list (string * Z) :=
  match drops with
  | [] => []
  | i :: l =>
      if decide (i ∈ excused) then blockings snap excused clock (S n) l
      else (addrOf snap i, clock n) :: blockings snap excused clock (S n) l
  end.

Definition blockAll (bl : gmap string blockItem) (l : list (string * Z)) : gmap string blockItem :=
  foldl (fun bl x => blockAddress bl x.1 x.2) bl l.

Lemma dropLoop_spec excused clock n drops p ps evs :
  NoDup drops ->
  (forall i, i ∈ drops -> is_Some (peers ps !! i)) ->
  (forall i, i ∈ drops -> exists url, peersSnapShot p !! i = Some url /\ longURL url) ->
  exists ps', dropLoop excused clock n drops p ps evs =
      Ret (setBlocklist p (blockAll (blocklist p) (blockings (peersSnapShot p) excused clock n drops)), ps',
           evs ++ (evicted excused drops ≫= fun i => [DiscUselessPeer i; FetcherDrop i])) /\
    (forall i, peers ps' !! i =
       if decide (i ∈ evicted excused drops) then None else peers ps !! i) /\
    closed ps' = closed ps.
Proof.
  revert n p ps evs. induction drops as [|i drops IH]; intros n p ps evs Hnd Hin Hurl; cbn [dropLoop blockings].
  { exists ps. rewrite app_nil_r. split_and!; [by destruct p|..]; done. }
  apply NoDup_cons in Hnd as [Hni Hnd].
  assert (forall j, j ∈ drops -> is_Some (peers ps !! j)) as Hin' by (intros; apply Hin; set_solver).
  assert (forall j, j ∈ drops -> exists url, peersSnapShot p !! j = Some url /\ longURL url) as Hurl'
    by (intros; apply Hurl; set_solver).
  case_decide as Hex.
  { unfold evicted. rewrite filter_cons_False by tauto. by apply IH. }
  unfold evicted. rewrite filter_cons_True by done. fold (evicted excused drops).
  destruct (Hurl i) as (url & Hs & Hl); [set_solver|]. unfold addrOf. rewrite Hs.
  change (default EmptyString (Some url)) with url.
  destruct (extractIP_Ret url Hl) as [addr Haddr]. rewrite Haddr.
  destruct (Hin i) as [q Hq]; [set_solver|]. unfold removePeer, handlerUnregisterPeer, peer, unregisterPeer.
  rewrite Hq. cbn [fst].
  set (p' := setBlocklist p _). set (ps1 := mkPeerSet _ _).
  destruct (IH (S n) p' ps1 ((evs ++ [DiscUselessPeer i]) ++ [FetcherDrop i]) Hnd) as (ps' & -> & Hps & Hcl).
  { intros j Hj. cbn [peers ps1]. rewrite lookup_delete_ne by (intros ->; done). by apply Hin'. }
  { done. }
  exists ps'. split_and!.
  - rewrite bind_cons, <- !app_assoc. done.
  - intros j. rewrite Hps. cbn [peers ps1]. rewrite lookup_delete.
    repeat case_decide; try done; set_solver.
  - done.
Qed.

(** The other peers of a ranking that are not worse than [x]. *)
Definition rivals (cfg : config) (p : peri) (l : list idScore) (x : idScore) : list idScore :=
  filter (fun y => id y <> id x /\ scoreLess (noDrop cfg p) y x = false) l.

(** A peer with fewer rivals than the quota is in a reserved place. *)
Lemma ranked_protects cfg p l quota x :
  ranked cfg p l -> NoDup (id <$> l) -> x ∈ l ->
  0 <= quota < 2 ^ 52 -> Z.of_nat (length l) < 2 ^ 52 ->
  Z.of_nat (length (rivals cfg p l x)) < quota -> id x ∈ reserved l quota.
Proof.
  intros Hr Hnd Hx Hq Hlen Hriv. rewrite reserved_drop by done. apply list_elem_of_fmap_2.
  apply list_elem_of_split in Hx as (l1 & l2 & ->).
  unfold ranked in Hr. apply StronglySorted_app_1_r in Hr. apply StronglySorted_inv in Hr as [_ Hall].
  rewrite fmap_app, fmap_cons in Hnd. apply NoDup_app in Hnd as (_ & _ & Hnd).
  apply NoDup_cons in Hnd as [Hnx _].
  assert (length l2 <= length (rivals cfg p (l1 ++ x :: l2) x))%nat as Hl2.
  { unfold rivals. rewrite filter_app, filter_cons_False by tauto. rewrite length_app.
    rewrite (filter_all _ l2); [lia|]. apply Forall_forall. intros y Hy. split.
    - intros Hid. apply Hnx. rewrite <- Hid. by apply list_elem_of_fmap_2.
    - rewrite Forall_forall in Hall. by apply Hall. }
  rewrite length_app, length_cons, drop_app. apply elem_of_app. right.
  replace (_ - _ - _)%nat with 0%nat by lia. set_solver.
Qed.

Lemma rivals_perm cfg p l l' x : l ≡ₚ l' -> length (rivals cfg p l x) = length (rivals cfg p l' x).
Proof. intros Hl. unfold rivals. by rewrite Hl. Qed.

(** Only other no-drop peers rival a no-drop peer. *)
Lemma rivals_noDrop cfg p l x :
  NoDup (id <$> l) -> x ∈ l -> noDrop cfg p (id x) = true ->
  (length (rivals cfg p l x) < length (filter (fun y => noDrop cfg p (id y) = true) l))%nat.
Proof.
  intros Hnd Hx Hnx. unfold rivals.
  assert (filter (fun y => id y <> id x /\ scoreLess (noDrop cfg p) y x = false) l =
          filter (fun y => id y <> id x /\ scoreLess (noDrop cfg p) y x = false)
            (filter (fun y => noDrop cfg p (id y) = true) l)) as ->.
  { rewrite list_filter_filter. apply list_filter_iff. intros y. split; [|tauto].
    intros [Hid Hless]. split_and!; [done..|]. unfold scoreLess in Hless. rewrite Hnx in Hless.
    by destruct (noDrop cfg p (id y)). }
  apply (length_filter_lt _ _ x); [by apply list_elem_of_filter|tauto].
Qed.

Lemma remaining_size (ps ps' : peerSet) (gone : list string) :
  (forall i, peers ps' !! i = if decide (i ∈ gone) then None else peers ps !! i) ->
  (size (peers ps) <= size (peers ps') + length gone)%nat.
Proof.
  intros Hps. rewrite <- !size_dom. etrans.
  - apply (subseteq_size _ (dom (peers ps') ∪ list_to_set gone)). intros i Hi.
    apply elem_of_union. rewrite elem_of_list_to_set. destruct (decide (i ∈ gone)) as [|Hn]; [by right|left].
    apply elem_of_dom. rewrite Hps, decide_False by done. by apply elem_of_dom.
  - rewrite size_union_alt. pose proof (size_list_to_set_le gone).
    pose proof (subseteq_size (list_to_set gone ∖ dom (peers ps')) (list_to_set gone) ltac:(set_solver)). lia.
Qed.

(** The whole round, for an active policy with quotas that are not negative. *)
Lemma disconnectByScore_spec `{SortSlice} `{Shuffle} `{AppendCap} cfg p ps clock :
  sizes_ok p ps -> urls_ok ps -> PeriActive cfg = true ->
  0 <= blockPeersCount p -> 0 <= txsPeerCount p -> blockPeersCount p + txsPeerCount p < 2 ^ 52 ->
  blockArrivals p <> ∅ -> txArrivals p <> ∅ ->
  exists bs ts excused drops ps',
    let bl := blockAll (blocklist p) (blockings (peersSnapShot (snapShot p ps)) excused clock 0 drops) in
    getScores cfg p ps = Ret (snapShot p ps, bs, ts, excused) /\
    chooseDrops (snapShot p ps) bs ts = Ret drops /\
    disconnectByScore cfg p ps clock =
      Ret (resetRecords cfg (setBlocklist (snapShot p ps) bl), ps',
           evicted excused drops ≫= fun i => [DiscUselessPeer i; FetcherDrop i]) /\
    NoDup drops /\
    Z.of_nat (length drops) = Z.max 0 (len ps - (blockPeersCount p + txsPeerCount p)) /\
    (forall i, i ∈ drops -> i ∉ reserved bs (blockPeersCount p) /\ i ∉ reserved ts (txsPeerCount p)) /\
    (forall i, peers ps' !! i = if decide (i ∈ evicted excused drops) then None else peers ps !! i) /\
    (forall i, i ∈ drops -> is_Some (peers ps !! i)).
Proof.
  intros Hsz Hu Hact Hb Ht Hq Hbne Htne.
  destruct (getScores_spec cfg p ps Hsz Hu) as (bs & ts & ex & Hg & Hbs & Hts & _ & _).
  pose proof (ranking_ids _ _ _ _ _ _ Hbs) as Hbi. pose proof (ranking_ids _ _ _ _ _ _ Hts) as Hti.
  assert (length ts = size (peers ps)) as Hlen.
  { apply range_of_length in Hti. by rewrite length_fmap in Hti. }
  destruct (chooseDrops_spec (snapShot p ps) bs ts) as (drops & Hc & Hnd & Hn & Hin); try done.
  { by eapply range_of_NoDup. }
  { unfold range_of in *. by rewrite Hbi, Hti. }
  { rewrite Hlen. apply Hsz. }
  assert (forall i, i ∈ drops -> is_Some (peers ps !! i)) as Hpeer.
  { intros i Hi. apply (range_of_elem _ _ _ Hti), Hin, Hi. }
  destruct (dropLoop_spec ex clock 0 drops (snapShot p ps) ps [] Hnd Hpeer) as
    (ps' & Hd & Hps & _).
  { intros i Hi. destruct (Hpeer i Hi) as [q Hiq]. exists (Peer.URLv4 q).
    split; [by apply snapShot_lookup|by apply (Hu i)]. }
  exists bs, ts, ex, drops, ps'. split_and!; [done|done| |done| | |done|done].
  - unfold disconnectByScore. rewrite decide_False by tauto. rewrite Hg, Hc, Hact, Hd. done.
  - unfold len. rewrite <- Hlen. done.
  - intros i Hi. apply Hin, Hi.
Qed.

End Peri.
