(* ===== verification/PeriProps.v ===== *)
(** * Properties of the eviction policy (src/eth/peri.go)

    Recording, eviction, protection of fast and of no-drop peers, the blocklist, and
    the memory of old transactions, stated on the definitions of [Peri]. *)

From stdpp Require Import base tactics list gmap strings sorting.
From Stdlib Require Import ZArith Lia SpecFloat Ascii.
From S2P Require Import Prelude Types GoFloat EthPeer PeerSet Peri.

Open Scope Z_scope.
Open Scope go_scope.

Import PeerSet Peri.

(** ** A concrete node *)

(** The URL of a node: scheme, 128 hexadecimal digits, the address. *)
Definition exURL (host : string) : string :=
  String.append "enode://" (String.append (String.concat EmptyString (replicate 128 "a"%string))
    (String.append "@" (String.append host ":30303"))).

Definition exNode (i host : string) (birth : Z) : Peer.peer :=
  Peer.NewPeer i (exURL host) host false 0 0 birth.

Definition exSet : peerSet :=
  mkPeerSet (list_to_map [("a"%string, exNode "a" "1.1.1.1" 0); ("b"%string, exNode "b" "2.2.2.2" 0);
                          ("c"%string, exNode "c" "3.3.3.3" 0)]) false.

Definition exCfg (noDrop : list string) : config :=
  mkConfig true (S754_zero false) (S754_zero false) 10 0 true noDrop 100.

Definition exPeri (blocks txs : Z) : peri :=
  mkPeri 0 blocks txs 10000000
    {[ 7 := 1000 ]} {[ 7 := <["a"%string := 1000]> {["b"%string := 5000]} ]} ∅
    {[ (8, 1) := 1000 ]} {[ (8, 1) := <["a"%string := 1000]> {["b"%string := 6000]} ]} ∅ ∅.

Lemma exSizes blocks txs : sizes_ok (exPeri blocks txs) exSet.
Proof. split; vm_compute; reflexivity. Defined.

Lemma exSet_cases i q :
  peers exSet !! i = Some q ->
  (i = "a" /\ q = exNode "a" "1.1.1.1" 0 \/ i = "b" /\ q = exNode "b" "2.2.2.2" 0 \/
   i = "c" /\ q = exNode "c" "3.3.3.3" 0)%string.
Proof.
  intros Hq. apply elem_of_list_to_map_2 in Hq. set_solver.
Qed.

Lemma exUrls : urls_ok exSet.
Proof.
  intros i q [[_ ->]|[[_ ->]|[_ ->]]]%exSet_cases; unfold longURL; vm_compute; lia.
Qed.

(** ** Recording *)

Lemma recordTransactions_exact cfg p i url hs t :
  wf p -> longURL url ->
  exists arr per, recordTransactionAnnounces cfg p i url hs t = Ret (setTx p arr per) /\ wf (setTx p arr per) /\
    recorded (txSkip p) i t hs (txArrivals p) arr (txArrivalPerPeer p) per.
Proof.
  intros [Ht Hb Hf] Hu. pose proof (showDelivery_Ret cfg url Hu) as Hs.
  destruct (recordAll_spec (txSkip p) i t hs _ _ Ht) as (arr & per & Hr & Hok & Hrec).
  exists arr, per. rewrite recordTransactionAnnounces_fold, Hr by done.
  split_and!; [done| |done]. split; [done|done|]. simpl. intros h Hh.
  destruct (txOldArrivals p !! h) eqn:E; [exfalso|done].
  destruct Hrec as (_ & Hun & _). destruct (Hun h) as [Ha _].
  { right. unfold txSkip. apply bool_decide_eq_true. by eexists. }
  rewrite Ha in Hh. specialize (Hf h Hh). congruence.
Qed.

Lemma recordBlocks_exact cfg p i url hs ns current t :
  wf p -> longURL url ->
  exists arr per, recordBlockAnnounces cfg p i url hs ns current t = Ret (setBlock p arr per) /\ wf (setBlock p arr per) /\
    recorded (blockSkip current) i t (zip hs ns) (blockArrivals p) arr (blockArrivalPerPeer p) per.
Proof.
  intros [Ht Hb Hf] Hu. pose proof (showDelivery_Ret cfg url Hu) as Hs.
  destruct (recordAll_spec (blockSkip current) i t (zip hs ns) _ _ Hb) as (arr & per & Hr & Hok & Hrec).
  exists arr, per. rewrite recordBlockAnnounces_fold, Hr by done.
  split_and!; [done| |done]. by split.
Qed.

(** Recording a batch never panics for a peer with a complete URL and keeps the
    records consistent: each arrival is the earliest delivery so far, each peer's entry is the
    time of its latest delivery and is not earlier than the arrival, other peers' entries
    are untouched, and transactions of earlier rounds and blocks more than 32 behind
    the head are not recorded. *)
Theorem recording_keeps_records cfg p i url hs ns current t :
  wf p -> longURL url ->
  (exists p', recordTransactionAnnounces cfg p i url hs t = Ret p' /\ wf p' /\
     recorded (txSkip p) i t hs (txArrivals p) (txArrivals p') (txArrivalPerPeer p) (txArrivalPerPeer p') /\
     blockArrivals p' = blockArrivals p) /\
  (exists p', recordBlockAnnounces cfg p i url hs ns current t = Ret p' /\ wf p' /\
     recorded (blockSkip current) i t (zip hs ns) (blockArrivals p) (blockArrivals p')
       (blockArrivalPerPeer p) (blockArrivalPerPeer p') /\
     txArrivals p' = txArrivals p).
Proof.
  intros Hwf Hu. split.
  - destruct (recordTransactions_exact cfg p i url hs t Hwf Hu) as (arr & per & H1 & H2 & H3). by exists (setTx p arr per).
  - destruct (recordBlocks_exact cfg p i url hs ns current t Hwf Hu) as (arr & per & H1 & H2 & H3). by exists (setBlock p arr per).
Qed.

Lemma recording_keeps_records_witness :
  exists p', recordTransactionAnnounces (exCfg []) (newPeri (exCfg []) 50) "a" (exURL "1.2.3.4") [5; 6] 99
    = Ret p' /\ wf p'.
Proof.
  destruct (proj1 (recording_keeps_records (exCfg []) (newPeri (exCfg []) 50) "a" (exURL "1.2.3.4")
    [5; 6] [] 0 99 ltac:(split; [split|split|]; intros ? *; try done; by intros [? ?])
    ltac:(unfold longURL; vm_compute; lia))) as (p' & H1 & H2 & _).
  exists p'. split; [exact H1|exact H2].
Defined.

(** ** The blocklist *)

(** The evictions of one address at the times [ts]. *)
Definition evictions (addr : string) (bl : gmap string blockItem) (ts : list Z) : gmap string blockItem :=
  foldl (fun bl t => blockAddress bl addr t) bl ts.

Lemma evictions_snoc addr bl ts t :
  evictions addr bl (ts ++ [t]) = blockAddress (evictions addr bl ts) addr t.
Proof. unfold evictions. by rewrite foldl_app. Qed.

Lemma evictions_count addr ts :
  ts <> [] -> Z.of_nat (length ts) < 2 ^ 63 ->
  exists e, evictions addr ∅ ts !! addr = Some (mkBlockItem addr (Z.of_nat (length ts)) e).
Proof.
  induction ts as [|t ts IH] using rev_ind; [done|]. intros _ Hlen. rewrite length_app in *. simpl in Hlen.
  rewrite evictions_snoc. unfold blockAddress. destruct (decide (ts = [])) as [->|Hne].
  - change (evictions addr ∅ []) with (∅ : gmap string blockItem).
    rewrite lookup_empty, lookup_insert_eq. by eexists.
  - destruct IH as [e ->]; [done|lia|]. rewrite lookup_insert_eq. simpl.
    rewrite i64_id by (unfold in_i64; lia). eexists. do 2 f_equal. lia.
Qed.

(** The doubling holds up to 22 and wraps around at 23. *)
Lemma backoff_table :
  forallb (fun c => backoff c =? 2 ^ c * (20 * Minute)) (seqZ 0 23) = true /\ backoff 23 < 0.
Proof. split; vm_compute; reflexivity. Qed.

Lemma backoff_exact c : 0 <= c <= 22 -> backoff c = 2 ^ c * (20 * Minute).
Proof.
  intros Hc. destruct backoff_table as [Ht _]. rewrite forallb_forall in Ht.
  apply Z.eqb_eq, Ht. apply list_elem_of_In, elem_of_seqZ. lia.
Qed.

Lemma leb_shift now t d : (now <=? t + d) = (now - t <=? d).
Proof. destruct (Z.leb_spec now (t + d)), (Z.leb_spec (now - t) d); lia. Qed.











Section Round.
Context (cfg : config) (p : peri) (ps : peerSet) (excused : gset string) (clock : nat -> Z) (drops : list string).
Context (Hu : urls_ok ps) (Hconn : forall i, i ∈ drops -> is_Some (peers ps !! i)).
Context (Hcnt : forall addr item, blocklist p !! addr = Some item -> 1 <= count item < 2 ^ 62) (Hlen : Z.of_nat (length drops) < 2 ^ 62).







End Round.

(** ** Eviction *)



(** The two lists of scores before they are sorted. *)
Definition blockScoresOf (cfg : config) (p : peri) (ps : peerSet) : list idScore :=
  (rawScores (blockArrivals p) (blockArrivalPerPeer p) (maxDelayDuration p)
     (PeriMaxDeliveryTolerance cfg) ps).*1.
Definition txScoresOf (cfg : config) (p : peri) (ps : peerSet) : list idScore :=
  (rawScores (txArrivals p) (txArrivalPerPeer p) (maxDelayDuration p)
     (PeriMaxDeliveryTolerance cfg) ps).*1.

(** A peer with fewer rivals than places in one of the rankings is not dropped. *)
Lemma survives `{SortSlice} `{Shuffle} `{AppendCap} cfg p ps clock x :
  sizes_ok p ps -> urls_ok ps -> PeriActive cfg = true ->
  0 <= blockPeersCount p -> 0 <= txsPeerCount p -> blockPeersCount p + txsPeerCount p < 2 ^ 52 ->
  blockArrivals p <> ∅ -> txArrivals p <> ∅ ->
  (x ∈ blockScoresOf cfg p ps /\
   Z.of_nat (length (rivals cfg (snapShot p ps) (blockScoresOf cfg p ps) x)) < blockPeersCount p) \/
  (x ∈ txScoresOf cfg p ps /\
   Z.of_nat (length (rivals cfg (snapShot p ps) (txScoresOf cfg p ps) x)) < txsPeerCount p) ->
  exists p' ps' evs, disconnectByScore cfg p ps clock = Ret (p', ps', evs) /\
    peers ps' !! id x = peers ps !! id x.
Proof.
  intros Hsz Hu Ha Hb Ht Hq Hb0 Ht0 Hx.
  destruct (disconnectByScore_spec cfg p ps clock) as
    (bs & ts & ex & drops & ps' & Hg & _ & Hd & _ & _ & Hr & Hps & _); try done.
  do 3 eexists. split; [exact Hd|]. rewrite Hps, decide_False; [done|].
  intros [_ Hin]%list_elem_of_filter. destruct (Hr _ Hin) as [Hrb Hrt].
  destruct (getScores_spec cfg p ps Hsz Hu) as (bs' & ts' & ex' & Hg' & Hbs & Hts & Hkb & Hkt).
  rewrite Hg in Hg'. injection Hg' as <- <- <-.
  pose proof (ranking_ids _ _ _ _ _ _ Hbs) as Hbi. pose proof (ranking_ids _ _ _ _ _ _ Hts) as Hti.
  pose proof (range_of_length _ _ Hbi) as Hbl. pose proof (range_of_length _ _ Hti) as Htl.
  rewrite length_fmap in Hbl, Htl. pose proof (few_peers _ _ Hsz).
  destruct Hx as [[Hx Hl]|[Hx Hl]]; [apply Hrb|apply Hrt]; apply (ranked_protects cfg (snapShot p ps)); try done;
    try lia.
  - by eapply range_of_NoDup.
  - by rewrite Hbs.
  - by rewrite (rivals_perm _ _ _ _ _ Hbs).
  - by eapply range_of_NoDup.
  - by rewrite Hts.
  - by rewrite (rivals_perm _ _ _ _ _ Hts).
Qed.

(** Fast peers stay connected: a peer that has, in the block ranking, fewer
    rivals than there are places for block peers (other peers whose score is not
    worse, or that may not be dropped), or likewise in the transaction ranking, is still
    connected after the round. *)
Theorem fast_peers_survive `{SortSlice} `{Shuffle} `{AppendCap} cfg p ps clock x :
  sizes_ok p ps -> urls_ok ps -> PeriActive cfg = true ->
  0 <= blockPeersCount p -> 0 <= txsPeerCount p -> blockPeersCount p + txsPeerCount p < 2 ^ 52 ->
  blockArrivals p <> ∅ -> txArrivals p <> ∅ ->
  (x ∈ blockScoresOf cfg p ps /\
   Z.of_nat (length (rivals cfg (snapShot p ps) (blockScoresOf cfg p ps) x)) < blockPeersCount p) \/
  (x ∈ txScoresOf cfg p ps /\
   Z.of_nat (length (rivals cfg (snapShot p ps) (txScoresOf cfg p ps) x)) < txsPeerCount p) ->
  exists p' ps' evs, disconnectByScore cfg p ps clock = Ret (p', ps', evs) /\
    peers ps' !! id x = peers ps !! id x.
Proof. intros. by apply survives. Qed.

Lemma fast_peers_survive_witness :
  exists p' ps' evs, disconnectByScore (exCfg []) (exPeri 1 0) exSet (fun _ => 777) = Ret (p', ps', evs) /\
    peers ps' !! "a"%string = peers exSet !! "a"%string.
Proof.
  apply (fast_peers_survive (exCfg []) (exPeri 1 0) exSet (fun _ => 777) (mkScore "a" (S754_zero false))
    (exSizes 1 0) exUrls eq_refl ltac:(done) ltac:(done) ltac:(done) ltac:(discriminate) ltac:(discriminate)).
  left. split.
  - apply (bool_decide_unpack _). vm_compute. exact I.
  - vm_compute. reflexivity.
Defined.

(** A connected peer whose address is in the no-drop list. *)
Definition protected (cfg : config) (q : Peer.peer) : Prop :=
  exists addr, extractIPFromEnode (Peer.URLv4 q) = Ret addr /\ addr ∈ PeriNoDropList cfg.

Lemma noDrop_protected cfg p ps i q :
  peers ps !! i = Some q -> noDrop cfg (snapShot p ps) i = true <-> protected cfg q.
Proof.
  intros Hi. unfold noDrop, isNoDropPeer, protected. rewrite (snapShot_lookup p ps i q Hi). simpl.
  destruct (extractIPFromEnode (Peer.URLv4 q)) as [addr|]; [|naive_solver].
  rewrite bool_decide_eq_true. naive_solver.
Qed.

(** No-drop peers stay connected as long as there are no more of them than places
    in the larger of the two rankings. *)
Theorem no_drop_peers_survive `{SortSlice} `{Shuffle} `{AppendCap} cfg p ps clock i q listed :
  sizes_ok p ps -> urls_ok ps -> PeriActive cfg = true ->
  0 <= blockPeersCount p -> 0 <= txsPeerCount p -> blockPeersCount p + txsPeerCount p < 2 ^ 52 ->
  blockArrivals p <> ∅ -> txArrivals p <> ∅ ->
  peers ps !! i = Some q -> protected cfg q ->
  (forall j r, peers ps !! j = Some r -> protected cfg r -> j ∈ listed) ->
  Z.of_nat (length listed) <= Z.max (blockPeersCount p) (txsPeerCount p) ->
  exists p' ps' evs, disconnectByScore cfg p ps clock = Ret (p', ps', evs) /\ peers ps' !! i = Some q.
Proof.
  intros Hsz Hu Ha Hb Ht Hq Hb0 Ht0 Hi Hp Hall Hlen.
  assert (forall {K} `{Countable K} (arr : gmap K Z) per maxDelay tol,
    exists x, x ∈ (rawScores arr per maxDelay tol ps).*1 /\ id x = i /\
      (length (rivals cfg (snapShot p ps) (rawScores arr per maxDelay tol ps).*1 x) < length listed)%nat) as Hraw.
  { intros K ? ? arr per maxDelay tol. pose proof (rawScores_ids arr per maxDelay tol ps) as Hids.
    set (l := (rawScores arr per maxDelay tol ps).*1) in *.
    assert (range_of (id <$> l) (peers ps)) as Hrange by (unfold range_of; by rewrite Hids).
    assert (i ∈ id <$> l) as Hx by (apply (range_of_elem _ _ _ Hrange); by eexists).
    apply list_elem_of_fmap in Hx as (x & -> & Hx). exists x. split_and!; [done..|].
    eapply Nat.lt_le_trans.
    - apply rivals_noDrop; [by eapply range_of_NoDup|done|]. by apply (noDrop_protected cfg p ps (id x) q Hi).
    - rewrite <- (length_fmap id). apply submseteq_length, NoDup_submseteq.
      + eapply sublist_NoDup; [by eapply range_of_NoDup|]. apply fmap_sublist, sublist_filter.
      + intros j (y & -> & [Hny Hy]%list_elem_of_filter)%list_elem_of_fmap.
        destruct (proj1 (range_of_elem _ _ (id y) Hrange)) as [r Hr]; [by apply list_elem_of_fmap_2|].
        apply (Hall (id y) r Hr). by apply (noDrop_protected cfg p ps (id y) r Hr). }
  destruct (Hraw _ _ _ (blockArrivals p) (blockArrivalPerPeer p) (maxDelayDuration p)
    (PeriMaxDeliveryTolerance cfg)) as (x & Hx & Hxi & Hxl).
  destruct (Hraw _ _ _ (txArrivals p) (txArrivalPerPeer p) (maxDelayDuration p)
    (PeriMaxDeliveryTolerance cfg)) as (y & Hy & Hyi & Hyl).
  destruct (decide (txsPeerCount p <= blockPeersCount p)).
  - destruct (survives cfg p ps clock x) as (p' & ps' & evs & Hd & Hs); try done.
    { left. split; [done|]. unfold blockScoresOf. lia. }
    exists p', ps', evs. by rewrite <- Hxi at 1; rewrite Hs, Hxi.
  - destruct (survives cfg p ps clock y) as (p' & ps' & evs & Hd & Hs); try done.
    { right. split; [done|]. unfold txScoresOf. lia. }
    exists p', ps', evs. by rewrite <- Hyi at 1; rewrite Hs, Hyi.
Qed.

Lemma no_drop_peers_survive_witness :
  exists p' ps' evs,
    disconnectByScore (exCfg ["3.3.3.3"%string]) (exPeri 1 0) exSet (fun _ => 777) = Ret (p', ps', evs) /\
    peers ps' !! "c"%string = Some (exNode "c" "3.3.3.3" 0).
Proof.
  apply (no_drop_peers_survive (exCfg ["3.3.3.3"%string]) (exPeri 1 0) exSet (fun _ => 777) "c"
    (exNode "c" "3.3.3.3" 0) ["c"%string] (exSizes 1 0) exUrls eq_refl ltac:(done) ltac:(done) ltac:(done)
    ltac:(discriminate) ltac:(discriminate)).
  - vm_compute. reflexivity.
  - exists "3.3.3.3"%string. split; [vm_compute; reflexivity|set_solver].
  - intros j r [[-> ->]|[[-> ->]|[-> ->]]]%exSet_cases (addr & Haddr & Hin);
      vm_compute in Haddr; injection Haddr as <-; set_solver.
  - simpl. lia.
Defined.

(** The no-drop list only moves a peer to the end of the rankings. When it has
    more connected peers than places, no-drop peers are disconnected and blocked. *)
Theorem no_drop_list_is_not_absolute :
  let cfg := exCfg ["1.1.1.1"; "2.2.2.2"; "3.3.3.3"]%string in
  exists p' ps' evs, disconnectByScore cfg (exPeri 1 0) exSet (fun _ => 777) = Ret (p', ps', evs) /\
    (forall i q, peers exSet !! i = Some q -> protected cfg q) /\
    DiscUselessPeer "b" ∈ evs /\ peers ps' !! "b"%string = None /\
    is_Some (blocklist p' !! "2.2.2.2"%string).
Proof.
  intros cfg. do 3 eexists. split; [vm_compute; reflexivity|]. split_and!.
  - intros i q Hi. apply exSet_cases in Hi as [[_ ->]|[[_ ->]|[_ ->]]];
      (eexists; split; [vm_compute; reflexivity|set_solver]).
  - apply (bool_decide_unpack _). vm_compute. exact I.
  - vm_compute. reflexivity.
  - apply (bool_decide_unpack _). vm_compute. exact I.
Qed.

(** How long an address stays blocked after the [k]-th eviction, at time [t]: 20
    minutes for the first, [2^k] times 20 minutes for the second to the 22nd; the 23rd
    computes a negative duration in 64 bits, and the address is not blocked at all. *)
Theorem blocklist_backoff p enode addr ts t now :
  extractIPFromEnode enode = Ret addr -> blocklist p !! addr = None -> t <= now ->
  let k := Z.of_nat (length ts) + 1 in
  let p' := setBlocklist p (evictions addr (blocklist p) (ts ++ [t])) in
  (k = 1 -> isBlocked p' enode now = Ret (now - t <=? 20 * Minute)) /\
  (2 <= k <= 22 -> isBlocked p' enode now = Ret (now - t <=? 2 ^ k * (20 * Minute))) /\
  (k = 23 -> isBlocked p' enode now = Ret false).
Proof.
  intros Henode Hnone Hnow k p'. unfold isBlocked. rewrite Henode.
  change (blocklist p') with (evictions addr (blocklist p) (ts ++ [t])).
  assert (evictions addr (blocklist p) (ts ++ [t]) !! addr = evictions addr ∅ (ts ++ [t]) !! addr) as ->.
  { generalize (ts ++ [t]). intros l.
    assert (forall bl bl' : gmap string blockItem, bl !! addr = bl' !! addr ->
      evictions addr bl l !! addr = evictions addr bl' l !! addr) as Hl.
    { induction l as [|u l IH]; intros bl bl' Hbl; [done|]. simpl. apply IH. unfold blockAddress.
      rewrite Hbl. destruct (bl' !! addr); by rewrite !lookup_insert_eq. }
    apply Hl. by rewrite Hnone. }
  rewrite evictions_snoc. unfold blockAddress. destruct (decide (ts = [])) as [->|Hne].
  - change (evictions addr ∅ []) with (∅ : gmap string blockItem).
    rewrite lookup_empty, lookup_insert_eq. cbn [expiredTime].
    split_and!; intros Hk; [|unfold k in Hk; simpl in Hk; lia..].
    rewrite (backoff_exact 0) by lia. by rewrite leb_shift.
  - assert (1 <= length ts)%nat by (destruct ts; simpl; [done|lia]).
    split_and!; intros Hk; [lia|..];
      (destruct (evictions_count addr ts Hne ltac:(lia)) as [e ->]); rewrite lookup_insert_eq; simpl;
      fold k; rewrite i64_id by (unfold in_i64; lia); fold k.
    + rewrite backoff_exact by lia. by rewrite leb_shift.
    + rewrite Hk. pose proof (proj2 backoff_table). f_equal. apply Z.leb_gt. lia.
Qed.

Lemma blocklist_backoff_witness :
  isBlocked (setBlocklist (newPeri (exCfg []) 50) (evictions "1.2.3.4" ∅ ([5; 7] ++ [100])))
    (exURL "1.2.3.4") 9600000000100 = Ret true /\
  isBlocked (setBlocklist (newPeri (exCfg []) 50) (evictions "1.2.3.4" ∅ (replicate 22 5 ++ [100])))
    (exURL "1.2.3.4") 100 = Ret false.
Proof.
  split.
  - refine (proj1 (proj2 (blocklist_backoff (newPeri (exCfg []) 50) (exURL "1.2.3.4") "1.2.3.4" [5; 7] 100
      9600000000100 _ _ _)) _); [vm_compute; reflexivity|reflexivity|lia|simpl; lia].
  - refine (proj2 (proj2 (blocklist_backoff (newPeri (exCfg []) 50) (exURL "1.2.3.4") "1.2.3.4"
      (replicate 22 5) 100 100 _ _ _)) _); [vm_compute; reflexivity|reflexivity|lia|reflexivity].
Defined.

(** ** Addresses *)

Lemma substring_0_all s : String.substring 0 (String.length s) s = s.
Proof. induction s as [|c s IH]; simpl; [done|]. by f_equal. Qed.

Lemma substring_skip a b :
  String.substring (String.length a) (String.length b) (String.append a b) = b.
Proof.
  induction a as [|c a IH]; simpl; [apply substring_0_all|done].
Qed.

Lemma length_append a b :
  String.length (String.append a b) = (String.length a + String.length b)%nat.
Proof. induction a as [|c a IH]; simpl; [done|]. by f_equal. Qed.

Lemma append_assoc a b c : String.append a (String.append b c) = String.append (String.append a b) c.
Proof.
  induction a as [|x a IH]; [done|].
  change (String x (String.append a (String.append b c)) = String x (String.append (String.append a b) c)).
  by f_equal.
Qed.

Lemma extractIP_append a b :
  String.length a = enodeSplitIndex -> extractIPFromEnode (String.append a b) = Ret (untilColon b).
Proof.
  intros Ha. unfold extractIPFromEnode, sliceFrom. rewrite length_append, Ha.
  rewrite decide_True by lia. replace (enodeSplitIndex + String.length b - enodeSplitIndex)%nat
    with (String.length b) by lia.
  by rewrite <- Ha, substring_skip.
Qed.

Lemma untilColon_plain host rest :
  containsColonOrPercent host = false -> untilColon (String.append host (String.append ":" rest)) = host.
Proof.
  induction host as [|c host IH]; simpl; [done|]. rewrite !orb_false_iff. intros [[-> _] Hh].
  f_equal. by apply IH.
Qed.

Lemma untilColon_app host rest :
  untilColon host <> host -> untilColon (String.append host rest) = untilColon host.
Proof.
  induction host as [|c host IH]; simpl; [done|]. destruct (Ascii.eqb c ":"); [done|].
  intros Hne. f_equal. apply IH. congruence.
Qed.

(** The address under which a node is blocked, from its URL (whose identifier has
    128 digits). For an IPv4 node it is the IP address. For an IPv6 node it is a
    bracket and the first group only, so all IPv6 nodes that share the first group share
    one blocklist entry. For an incomplete node the slice expression panics. *)
Theorem enode_addresses nodeid tcp udp :
  String.length nodeid = 128%nat ->
  (forall host, containsColonOrPercent host = false ->
     extractIPFromEnode (nodeURLv4 nodeid (Some host) tcp udp) = Ret host) /\
  (forall host, containsColonOrPercent host = true -> untilColon host <> host ->
     extractIPFromEnode (nodeURLv4 nodeid (Some host) tcp udp) = Ret (String.append "[" (untilColon host))) /\
  extractIPFromEnode (nodeURLv4 nodeid None tcp udp) = Panic.
Proof.
  intros Hid.
  assert (forall host, extractIPFromEnode (nodeURLv4 nodeid (Some host) tcp udp) =
    Ret (untilColon (String.append (JoinHostPort host (Itoa tcp))
          (if udp =? tcp then EmptyString else String.append "?discport=" (Itoa udp))))) as Hurl.
  { intros host. unfold nodeURLv4. rewrite (append_assoc nodeid), append_assoc. apply extractIP_append.
    rewrite !length_append, Hid. done. }
  split_and!.
  - intros host Hh. rewrite Hurl. unfold JoinHostPort. rewrite Hh.
    rewrite <- append_assoc, <- append_assoc. by rewrite untilColon_plain.
  - intros host Hh Hc. rewrite Hurl. unfold JoinHostPort. rewrite Hh, <- append_assoc. f_equal.
    change (untilColon (String.append "[" (String.append (String.append host (String.append "]:" (Itoa tcp)))
      (if udp =? tcp then EmptyString else String.append "?discport=" (Itoa udp))))) with
      (String.append "[" (untilColon (String.append (String.append host (String.append "]:" (Itoa tcp)))
      (if udp =? tcp then EmptyString else String.append "?discport=" (Itoa udp))))).
    f_equal. rewrite <- append_assoc. by apply untilColon_app.
  - unfold nodeURLv4, extractIPFromEnode, sliceFrom. rewrite decide_False; [done|].
    rewrite length_append, Hid. unfold enodeSplitIndex. simpl. lia.
Qed.

Lemma enode_addresses_witness :
  let nodeid := String.concat EmptyString (replicate 128 "a"%string) in
  extractIPFromEnode (nodeURLv4 nodeid (Some "2001:db8::1"%string) 30303 30303) = Ret "[2001"%string /\
  extractIPFromEnode (nodeURLv4 nodeid (Some "2001:470::7"%string) 30303 30303) = Ret "[2001"%string.
Proof.
  split.
  - apply (proj1 (proj2 (enode_addresses (String.concat EmptyString (replicate 128 "a"%string)) 30303 30303
      eq_refl))); [reflexivity|discriminate].
  - apply (proj1 (proj2 (enode_addresses (String.concat EmptyString (replicate 128 "a"%string)) 30303 30303
      eq_refl))); [reflexivity|discriminate].
Defined.

(** ** The memory of old transactions *)

(** Deleting the first [n] keys of an enumeration of a map leaves the others. *)
Lemma delete_prefix (old : gmap hash Z) (l : list (hash * Z)) n :
  l ≡ₚ map_to_list old ->
  let old' := foldl (fun m x => delete (fst x) m) old (take n l) in
  (forall h t, old' !! h = Some t <-> (h, t) ∈ drop n l) /\ size old' = (length l - n)%nat.
Proof.
  intros Hl old'. assert (NoDup (l.*1)) as Hnd by (rewrite Hl; apply NoDup_fst_map_to_list).
  assert (forall h t, old' !! h = Some t <-> (h, t) ∈ drop n l) as Hiff.
  { intros h t. unfold old'. rewrite foldl_delete_lookup.
    assert (old !! h = Some t <-> (h, t) ∈ l) as Hold by (by rewrite Hl, elem_of_map_to_list).
    rewrite <- (take_drop n l), fmap_app in Hnd. apply NoDup_app in Hnd as (_ & Hdisj & _).
    case_decide as Hin.
    - split; [done|]. intros Hd. destruct (Hdisj h Hin). apply list_elem_of_fmap. by exists (h, t).
    - rewrite Hold. rewrite <- (take_drop n l) at 1. rewrite elem_of_app. split; [|tauto].
      intros [Ht|]; [|done]. destruct Hin. apply list_elem_of_fmap. by exists (h, t). }
  split; [done|]. rewrite <- length_map_to_list, <- length_drop. apply Permutation_length, NoDup_Permutation.
  - apply NoDup_map_to_list.
  - eapply sublist_NoDup; [by eapply NoDup_fmap_1|apply sublist_drop].
  - intros [h t]. by rewrite elem_of_map_to_list.
Qed.

(** What the policy remembers of old transactions across a round. All of this
    round's and the earlier ones are kept while there are at most [PeriMaxTransactionAmount];
    beyond that, the 30000 earliest are forgotten, or all of them when there are no more
    than 30000: none that is kept arrived before one that is forgotten. The records of
    the new round are empty and consistent. *)
Theorem old_transactions_forgotten_earliest_first `{SortSlice} cfg p :
  let old := txArrivals p ∪ txOldArrivals p in
  let n := Z.of_nat (size old) in
  let p' := resetRecords cfg p in
  wf p' /\ blocklist p' = blocklist p /\
  (n <= PeriMaxTransactionAmount cfg -> txOldArrivals p' = old) /\
  (PeriMaxTransactionAmount cfg < n ->
     Z.of_nat (size (txOldArrivals p')) = Z.max 0 (n - 30000) /\
     (forall h t, txOldArrivals p' !! h = Some t -> old !! h = Some t) /\
     (forall h t h' t', old !! h = Some t -> txOldArrivals p' !! h = None ->
        txOldArrivals p' !! h' = Some t' -> t <= t')).
Proof.
  intros old n p'. split_and!; [|done|..].
  { split; [split|split|]; simpl; try done; intros ? [? ?]; done. }
  - intros Hn. unfold p', resetRecords. cbn [txOldArrivals]. fold old n.
    destruct (Z.ltb_spec (PeriMaxTransactionAmount cfg) n); [lia|done].
  - intros Hn. unfold p', resetRecords. cbn [txOldArrivals]. fold old n.
    destruct (Z.ltb_spec (PeriMaxTransactionAmount cfg) n); [|lia].
    set (less := fun x y : hash * Z => snd x <? snd y). set (l := sort_slice less (map_to_list old)).
    set (k := if n <? transactionArrivalReplace then _ else _).
    assert (k = Z.to_nat (Z.min n 30000)) as Hk.
    { unfold k. change transactionArrivalReplace with 30000.
      destruct (Z.ltb_spec n 30000); unfold n; lia. }
    pose proof (sort_slice_perm _ less (map_to_list old)) as Hperm. fold l in Hperm.
    destruct (delete_prefix old l k Hperm) as [Hiff Hsz].
    pose proof (Permutation_length Hperm) as Hlen. rewrite length_map_to_list in Hlen.
    split_and!.
    + rewrite Hsz, Hlen, Hk. lia.
    + intros h t Hh%Hiff. apply elem_of_map_to_list. rewrite <- Hperm.
      by eapply elem_of_sublist; [|apply sublist_drop].
    + intros h t h' t' Hold Hgone Hkept%Hiff.
      assert ((h, t) ∈ take k l) as Htk.
      { apply elem_of_map_to_list in Hold. rewrite <- Hperm, <- (take_drop k l), elem_of_app in Hold.
        destruct Hold as [|Hd]; [done|]. apply Hiff in Hd. congruence. }
      assert (StronglySorted (fun x y => less y x = false) (take k l ++ drop k l)) as Hs.
      { rewrite take_drop. apply sort_slice_sorted; unfold less; intros *; rewrite ?Z.ltb_ge, ?Z.ltb_lt; lia. }
      pose proof (StronglySorted_app_1_elem_of _ _ _ _ _ Hs Htk Hkept) as Hle. unfold less in Hle.
      simpl in Hle. lia.
Qed.
