(* ===== verification/PeriStore.v ===== *)
(** * The policy's database (src/eth/peri.go, [CreatePeri], [StartPeri])

    On exit [StartPeri] stores the URLs of the reserved peers and the blocklist as
    strings in a key-value store, and [CreatePeri] loads them at the next start. The store
    (src/p2p/enode/nodedb.go, [StoreString], [FetchString]) is a map of strings; a missing
    key reads as the empty string. Writes that fail are logged and skipped by the code;
    the model has writes that succeed. [enode.Parse] is an argument. *)

From stdpp Require Import base tactics list gmap strings sorting.
From Stdlib Require Import ZArith Lia SpecFloat Ascii Decimal DecimalString DecimalZ.
From S2P Require Import Prelude Types GoFloat EthPeer PeerSet Peri PeriProps.

Open Scope Z_scope.
Open Scope go_scope.

Import PeerSet Peri.

Module Store.

Definition periNodeCountKey : string := "nodes_count".
Definition periBlocklistCountKey : string := "blocklist_count".
Definition periBlockIpKeyPrefix : string := "b_ip_".
Definition periBlockTimeKeyPrefix : string := "b_time_".
Definition periBlockExpireKeyPrefix : string := "b_unix_".
Definition periNodeKeyPrefix : string := "n_".

Notation db := (gmap string string) (only parsing).

Definition StoreString (d : db) (key value : string) : db := <[key := value]> d.
Definition FetchString (d : db) (key : string) : string := default EmptyString (d !! key).

(** [strconv.ParseInt(s, 10, bits)]: the value and whether it parsed. A number out of
    range gives the nearest bound, a malformed one 0. *)
Definition parseUint (s : string) : option Z :=
  match s with
  | EmptyString => None
  | _ => Z.of_uint <$> NilEmpty.uint_of_string s
  end.

Definition clampInt (bits z : Z) : Z * bool :=
  if z <? - 2 ^ (bits - 1) then (- 2 ^ (bits - 1), false)
  else if 2 ^ (bits - 1) <=? z then (2 ^ (bits - 1) - 1, false)
  else (z, true).

Definition ParseInt (s : string) (bits : Z) : Z * bool :=
  let parsed :=
    match s with
    | String "+"%char rest => parseUint rest
    | String "-"%char rest => Z.opp <$> parseUint rest
    | _ => parseUint s
    end in
  match parsed with Some z => clampInt bits z | None => (0, false) end.

Definition Second : Z := 1000000000.

(** [time.Time.Unix] and [time.Unix(sec, 0)]. *)
Definition toUnix (t : Z) : Z := t / Second.
Definition ofUnix (sec : Z) : Z := sec * Second.

Definition indexed (prefix : string) (i : nat) : string := String.append prefix (Itoa (Z.of_nat i)).

(** ** Saving *)

(** The identifiers in the last [quota] places, the places counted in [counted] and
    the identifiers read from [read]. *)
Definition lastPlaces (counted read : list idScore) (quota : Z) : go (list string) :=
  let n := length counted in
  if decide (n <= length read)%nat
  then Ret (id <$> drop (Z.to_nat (Z.of_nat n - quota)) (take n read)) else Panic.

(** [peersReserve] as [StartPeri] computes it on exit. *)
Definition exitReserve (p : peri) (blockScores txScores : list idScore) : go (gset string) :=
  let! a := lastPlaces blockScores txScores (blockPeersCount p) in
  let! b := lastPlaces txScores blockScores (txsPeerCount p) in
  Ret (list_to_set (a ++ b)).

Fixpoint storeNodes (d : db) (p : peri) (i : nat) (ids : list string) : db :=
  match ids with
  | [] => d
  | id :: ids =>
      storeNodes (StoreString d (indexed periNodeKeyPrefix i) (default EmptyString (peersSnapShot p !! id)))
        p (S i) ids
  end.

Fixpoint storeItems (d : db) (i : nat) (items : list blockItem) : db :=
  match items with
  | [] => d
  | it :: items =>
      let d := StoreString d (indexed periBlockIpKeyPrefix i) (ip it) in
      let d := StoreString d (indexed periBlockTimeKeyPrefix i) (Itoa (count it)) in
      let d := StoreString d (indexed periBlockExpireKeyPrefix i) (Itoa (toUnix (expiredTime it))) in
      storeItems d (S i) items
  end.

Definition storeBlocklist (d : db) (items : list blockItem) : db :=
  storeItems (StoreString d periBlocklistCountKey (Itoa (Z.of_nat (length items)))) 0 items.

(** The exit of [StartPeri]: [order] and [items] are the orders in which the reserved
    set and the blocklist are ranged over. *)
Definition saveOnExit `{SortSlice} (cfg : config) (p : peri) (ps : peerSet) (d : db)
    (order : gset string -> list string) (items : list blockItem) : go db :=
  let! (p, blockScores, txScores, _) := getScores cfg p ps in
  let! reserve := exitReserve p blockScores txScores in
  let d := StoreString d periNodeCountKey (Itoa (Z.of_nat (size reserve))) in
  let d := storeNodes d p 0 (order reserve) in
  Ret (storeBlocklist d items).

(** ** Loading *)

Definition loadItem (d : db) (bl : gmap string blockItem) (i : nat) : gmap string blockItem :=
  let addr := FetchString d (indexed periBlockIpKeyPrefix i) in
  let c := fst (ParseInt (FetchString d (indexed periBlockTimeKeyPrefix i)) 64) in
  let e := fst (ParseInt (FetchString d (indexed periBlockExpireKeyPrefix i)) 64) in
  if decide (addr = EmptyString) then bl
  else <[addr := mkBlockItem addr c (ofUnix e)]> bl.

Definition loadBlocklist (d : db) : gmap string blockItem :=
  match ParseInt (FetchString d periBlocklistCountKey) 32 with
  | (n, true) => if 0 <? n then foldl (loadItem d) ∅ (seq 0 (Z.to_nat n)) else ∅
  | _ => ∅
  end.

Definition loadNodes {Node} (Parse : string -> option Node) (d : db) (maxPeers : Z) : go (list Node) :=
  let nodes :=
    match ParseInt (FetchString d periNodeCountKey) 32 with
    | (n, true) =>
        omap (fun i =>
          let url := FetchString d (indexed periNodeKeyPrefix i) in
          if decide (url = EmptyString) then None else Parse url) (seq 0 (Z.to_nat n))
    | _ => []
    end in
  if maxPeers <? Z.of_nat (length nodes) then go_slice nodes 0 maxPeers else Ret nodes.

(** [CreatePeri]: the fresh state with the stored blocklist, and the nodes to dial. *)
Definition CreatePeri {Node} (Parse : string -> option Node) (cfg : config) (maxPeers : Z) (d : db)
    : go (peri * list Node) :=
  let! nodes := loadNodes Parse d maxPeers in
  Ret (setBlocklist (newPeri cfg maxPeers) (loadBlocklist d), nodes).

(** ** Lemmas: numbers as strings *)

Lemma parseUint_uint d : d <> Nil -> parseUint (NilEmpty.string_of_uint d) = Some (Z.of_uint d).
Proof.
  intros Hd. unfold parseUint. destruct (NilEmpty.string_of_uint d) eqn:E.
  - destruct d; done.
  - rewrite <- E, NilEmpty.usu. done.
Qed.

Lemma ParseInt_uint d bits :
  d <> Nil -> ParseInt (NilEmpty.string_of_uint d) bits = clampInt bits (Z.of_uint d).
Proof.
  intros Hd. pose proof (parseUint_uint d Hd) as Hp.
  destruct d; [done|..]; cbn [NilEmpty.string_of_uint] in *; unfold ParseInt; by rewrite Hp.
Qed.

Lemma string_of_uint_NilZero d : d <> Nil -> NilZero.string_of_uint d = NilEmpty.string_of_uint d.
Proof. by destruct d. Qed.

Lemma to_uint_not_Nil p : Pos.to_uint p <> Nil.
Proof.
  intros Hn. pose proof (DecimalZ.of_to (Z.pos p)) as Ho. unfold Z.to_int in Ho. rewrite Hn in Ho. done.
Qed.

Lemma ParseInt_Itoa z bits :
  - 2 ^ (bits - 1) <= z < 2 ^ (bits - 1) -> ParseInt (Itoa z) bits = (z, true).
Proof.
  intros Hz. assert (clampInt bits z = (z, true)) as Hc.
  { unfold clampInt. destruct (Z.ltb_spec z (- 2 ^ (bits - 1))); [lia|].
    destruct (Z.leb_spec (2 ^ (bits - 1)) z); [lia|done]. }
  rewrite <- Hc. pose proof (DecimalZ.of_to z) as Ho. unfold Itoa.
  destruct z as [|p|p]; [done|..]; unfold Z.to_int in *; simpl in Ho; cbn [NilZero.string_of_int];
    pose proof (to_uint_not_Nil p) as Hp; rewrite string_of_uint_NilZero by done.
  - rewrite ParseInt_uint by done. by rewrite Ho.
  - unfold ParseInt. rewrite parseUint_uint by done. cbn [fmap option_fmap option_map]. by rewrite Ho.
Qed.

Lemma Itoa_inj i j : Itoa (Z.of_nat i) = Itoa (Z.of_nat j) -> i = j.
Proof.
  intros E. set (bits := Z.of_nat (i + j) + 2).
  assert (forall k, (k <= i + j)%nat -> Z.of_nat k < 2 ^ (bits - 1)) as Hk.
  { intros k Hk. pose proof (Z.pow_gt_lin_r 2 (bits - 1)). lia. }
  assert (0 <= 2 ^ (bits - 1)) by (apply Z.pow_nonneg; lia).
  pose proof (ParseInt_Itoa (Z.of_nat i) bits ltac:(specialize (Hk i); lia)) as Hi.
  rewrite E, ParseInt_Itoa in Hi by (specialize (Hk j); lia). injection Hi. lia.
Qed.

(** ** Lemmas: keys *)

Lemma append_inj_r a b c : String.append a b = String.append a c -> b = c.
Proof. induction a as [|x a IH]; [done|]. intros [= E]. by apply IH. Qed.

Lemma indexed_inj prefix i j : indexed prefix i = indexed prefix j -> i = j.
Proof. unfold indexed. intros E. by apply Itoa_inj, (append_inj_r prefix). Qed.

(** The keys of entry [i]. *)
Definition entryKeys (i : nat) : list string :=
  [indexed periBlockIpKeyPrefix i; indexed periBlockTimeKeyPrefix i; indexed periBlockExpireKeyPrefix i].

Lemma entryKeys_inj i j k : k ∈ entryKeys i -> k ∈ entryKeys j -> i = j.
Proof.
  unfold entryKeys. intros Hi Hj.
  repeat (apply elem_of_cons in Hi as [->|Hi]); try by apply not_elem_of_nil in Hi.
  all: repeat (apply elem_of_cons in Hj as [Hj|Hj]); try by apply not_elem_of_nil in Hj.
  all: try by apply indexed_inj in Hj.
  all: discriminate Hj.
Qed.

Lemma count_key_fresh i : periBlocklistCountKey ∉ entryKeys i.
Proof.
  unfold entryKeys. intros Hi. repeat (apply elem_of_cons in Hi as [Hi|Hi]; [discriminate Hi|]).
  by apply not_elem_of_nil in Hi.
Qed.

Lemma storeItems_other d i items k :
  (forall j, (i <= j)%nat -> k ∉ entryKeys j) -> FetchString (storeItems d i items) k = FetchString d k.
Proof.
  revert d i. induction items as [|it items IH]; intros d i Hk; cbn [storeItems]; [done|].
  rewrite IH by (intros; apply Hk; lia). specialize (Hk i ltac:(lia)). unfold entryKeys in Hk.
  rewrite !not_elem_of_cons in Hk. destruct Hk as (H1 & H2 & H3 & _).
  unfold FetchString, StoreString. by rewrite !lookup_insert_ne by congruence.
Qed.

Lemma storeItems_entry d i items j it :
  items !! j = Some it ->
  FetchString (storeItems d i items) (indexed periBlockIpKeyPrefix (i + j)) = ip it /\
  FetchString (storeItems d i items) (indexed periBlockTimeKeyPrefix (i + j)) = Itoa (count it) /\
  FetchString (storeItems d i items) (indexed periBlockExpireKeyPrefix (i + j)) = Itoa (toUnix (expiredTime it)).
Proof.
  revert d i j. induction items as [|x items IH]; intros d i [|j] Hj; cbn [storeItems]; try done.
  - injection Hj as ->. rewrite Nat.add_0_r.
    assert (forall k, k ∈ entryKeys i -> forall j, (S i <= j)%nat -> k ∉ entryKeys j) as Hne.
    { intros k Hk j Hj Hkj. pose proof (entryKeys_inj _ _ _ Hk Hkj). lia. }
    rewrite !storeItems_other by (apply Hne; unfold entryKeys; set_solver).
    unfold FetchString, StoreString. split_and!.
    + rewrite !lookup_insert_ne by discriminate. by rewrite lookup_insert_eq.
    + rewrite lookup_insert_ne by discriminate. by rewrite lookup_insert_eq.
    + by rewrite lookup_insert_eq.
  - replace (i + S j)%nat with (S i + j)%nat by lia. by apply IH.
Qed.

(** ** Lemmas: the blocklist comes back *)

(** What the store keeps of an entry: the expiry in whole seconds. *)
Definition truncated (it : blockItem) : blockItem :=
  mkBlockItem (ip it) (count it) (ofUnix (toUnix (expiredTime it))).

(** Entries that can be stored: filed under their own address, which is not empty,
    with numbers that fit. *)
Definition storable (bl : gmap string blockItem) : Prop :=
  Z.of_nat (size bl) < 2 ^ 31 /\
  forall k it, bl !! k = Some it ->
    ip it = k /\ k <> EmptyString /\ in_i64 (count it) /\ in_i64 (toUnix (expiredTime it)).

Definition fileItem (bl : gmap string blockItem) (it : blockItem) : gmap string blockItem :=
  <[ip it := truncated it]> bl.

Lemma loadItem_entry d i items j it bl :
  items !! j = Some it -> ip it <> EmptyString -> in_i64 (count it) -> in_i64 (toUnix (expiredTime it)) ->
  loadItem (storeItems d i items) bl (i + j) = fileItem bl it.
Proof.
  intros Hj Hip Hc He. destruct (storeItems_entry d i items j it Hj) as (E1 & E2 & E3).
  unfold loadItem. rewrite E1, E2, E3, decide_False by done. unfold in_i64 in *.
  by rewrite !ParseInt_Itoa by (change (64 - 1) with 63; lia).
Qed.

Lemma foldl_loadItem d (l items : list blockItem) i bl :
  (forall j it, l !! j = Some it -> forall bl, loadItem d bl (i + j) = fileItem bl it) ->
  foldl (loadItem d) bl (seq i (length l)) = foldl fileItem bl l.
Proof.
  revert i bl. induction l as [|it l IH]; intros i bl Hl; cbn [length seq foldl]; [done|].
  pose proof (Hl 0%nat it eq_refl bl) as H0. rewrite Nat.add_0_r in H0. rewrite H0.
  apply IH. intros j it' Hj bl'. replace (S i + j)%nat with (i + S j)%nat by lia. by apply Hl.
Qed.

Lemma foldl_fileItem (items : list blockItem) bl k :
  NoDup (ip <$> items) ->
  (k ∉ ip <$> items -> foldl fileItem bl items !! k = bl !! k) /\
  (forall it, it ∈ items -> ip it = k -> foldl fileItem bl items !! k = Some (truncated it)).
Proof.
  revert bl. induction items as [|x items IH]; intros bl Hnd; cbn [foldl]; [split; [done|set_solver]|].
  rewrite fmap_cons in *. apply NoDup_cons in Hnd as [Hx Hnd]. destruct (IH (fileItem bl x) Hnd) as [H1 H2].
  split.
  - rewrite not_elem_of_cons. intros [Hne Hk]. rewrite H1 by done. unfold fileItem.
    by rewrite lookup_insert_ne by congruence.
  - intros it [->|Hit]%elem_of_cons Hk; [|by apply H2]. rewrite H1 by congruence. unfold fileItem.
    by rewrite Hk, lookup_insert_eq.
Qed.

Lemma blocklist_roundtrip d bl items :
  storable bl -> items ≡ₚ (map_to_list bl).*2 -> loadBlocklist (storeBlocklist d items) = truncated <$> bl.
Proof.
  intros [Hsize Hst] Hitems. unfold loadBlocklist, storeBlocklist.
  assert (length items = size bl) as Hlen by (by rewrite Hitems, length_fmap, length_map_to_list).
  assert (forall it, it ∈ items <-> exists k, bl !! k = Some it) as Hin.
  { intros it. rewrite Hitems, list_elem_of_fmap. split.
    - intros ([k x] & -> & Hk). apply elem_of_map_to_list in Hk. eauto.
    - intros [k Hk]. exists (k, it). by rewrite elem_of_map_to_list. }
  assert (FetchString (storeItems (StoreString d periBlocklistCountKey (Itoa (Z.of_nat (length items))))
    0 items) periBlocklistCountKey = Itoa (Z.of_nat (length items))) as ->.
  { rewrite storeItems_other by (intros; apply count_key_fresh).
    unfold FetchString, StoreString. by rewrite lookup_insert_eq. }
  rewrite ParseInt_Itoa by (change (32 - 1) with 31; lia). rewrite Nat2Z.id.
  assert (NoDup (ip <$> items)) as Hnd.
  { rewrite Hitems, <- list_fmap_compose. rewrite (list_fmap_ext _ fst); [apply NoDup_fst_map_to_list|].
    intros n [k it] Hk%list_elem_of_lookup_2%elem_of_map_to_list. simpl. by apply (Hst k). }
  set (d' := storeItems _ 0 items).
  assert (foldl (loadItem d') ∅ (seq 0 (length items)) = foldl fileItem ∅ items) as Hfold.
  { apply foldl_loadItem; [exact items|]. intros j it Hj bl'. apply loadItem_entry; [done|..];
      apply list_elem_of_lookup_2, Hin in Hj as [k Hk]; destruct (Hst k it Hk) as (<- & ? & ? & ?); done. }
  assert ((if 0 <? Z.of_nat (length items) then foldl (loadItem d') ∅ (seq 0 (length items)) else ∅)
          = foldl fileItem ∅ items) as ->.
  { destruct items; [done|]. by rewrite Hfold. }
  apply map_eq. intros k. rewrite lookup_fmap. destruct (foldl_fileItem items ∅ k Hnd) as [H1 H2].
  destruct (bl !! k) as [it|] eqn:Hk; simpl.
  - apply H2; [apply Hin; eauto|]. by apply (Hst k).
  - rewrite H1; [done|]. intros (it & Hit & [k' Hk']%Hin)%list_elem_of_fmap.
    destruct (Hst k' it Hk') as (<- & _). congruence.
Qed.

End Store.

Import Store.

Lemma lastPlaces_reserved counted read quota :
  length counted = length read -> 0 <= quota < 2 ^ 52 -> Z.of_nat (length read) < 2 ^ 52 ->
  lastPlaces counted read quota = Ret (reserved read quota).
Proof.
  intros Hlen Hq Hr. unfold lastPlaces. rewrite decide_True by lia. rewrite reserved_drop by done.
  rewrite Hlen, take_ge by done. do 3 f_equal. lia.
Qed.

(** The set saved on exit, and that the exit does not panic. *)
Lemma exitReserve_spec `{SortSlice} cfg p ps :
  sizes_ok p ps -> urls_ok ps -> 0 <= blockPeersCount p < 2 ^ 52 -> 0 <= txsPeerCount p < 2 ^ 52 ->
  exists bs ts ex, getScores cfg p ps = Ret (snapShot p ps, bs, ts, ex) /\
    exitReserve (snapShot p ps) bs ts =
      Ret (list_to_set (reserved ts (blockPeersCount p) ++ reserved bs (txsPeerCount p))).
Proof.
  intros Hsz Hu Hb Ht. destruct (getScores_spec cfg p ps Hsz Hu) as (bs & ts & ex & Hg & Hbs & Hts & _).
  exists bs, ts, ex. split; [done|]. unfold exitReserve.
  pose proof (range_of_length _ _ (ranking_ids _ _ _ _ _ _ Hbs)) as Hbl.
  pose proof (range_of_length _ _ (ranking_ids _ _ _ _ _ _ Hts)) as Htl.
  rewrite length_fmap in Hbl, Htl. pose proof (few_peers _ _ Hsz).
  rewrite !lastPlaces_reserved by (simpl; lia). done.
Qed.

(** The blocklist survives a restart. What [StartPeri] stores on exit, [CreatePeri]
    loads at the next start: the same addresses and counts, with expiry times cut to whole
    seconds. So an address that is blocked after the restart was blocked before it, and one
    that was blocked for at least another second still is. *)
Theorem blocklist_survives_restart `{SortSlice} {Node} (Parse : string -> option Node)
    cfg p ps d order items maxPeers :
  sizes_ok p ps -> urls_ok ps -> 0 <= blockPeersCount p < 2 ^ 52 -> 0 <= txsPeerCount p < 2 ^ 52 ->
  storable (blocklist p) -> items ≡ₚ (map_to_list (blocklist p)).*2 -> 0 <= maxPeers ->
  exists d' p' nodes, saveOnExit cfg p ps d order items = Ret d' /\
    CreatePeri Parse cfg maxPeers d' = Ret (p', nodes) /\
    blocklist p' = truncated <$> blocklist p /\
    (forall url now, isBlocked p' url now = Ret true -> isBlocked p url now = Ret true) /\
    (forall url now, isBlocked p url (now + Second) = Ret true -> isBlocked p' url now = Ret true).
Proof.
  intros Hsz Hu Hb Ht Hst Hitems Hmax.
  destruct (exitReserve_spec cfg p ps Hsz Hu Hb Ht) as (bs & ts & ex & Hg & He).
  unfold saveOnExit. rewrite Hg, He. set (d1 := storeNodes _ _ _ _).
  pose proof (blocklist_roundtrip d1 (blocklist p) items Hst Hitems) as Hround.
  assert (exists nodes, loadNodes Parse (storeBlocklist d1 items) maxPeers = Ret nodes) as [nodes Hnodes].
  { unfold loadNodes. set (nodes := match ParseInt _ _ with (_, _) => _ end).
    destruct (Z.ltb_spec maxPeers (Z.of_nat (length nodes))); [|by eexists].
    rewrite go_slice_Ret by lia. by eexists. }
  exists (storeBlocklist d1 items), (setBlocklist (newPeri cfg maxPeers) (loadBlocklist (storeBlocklist d1 items))), nodes.
  split; [done|]. unfold CreatePeri. rewrite Hnodes. split; [done|]. split; [done|].
  unfold isBlocked. cbn [blocklist setBlocklist]. rewrite Hround.
  split; intros url now; destruct (extractIPFromEnode url) as [addr|]; try done;
    rewrite lookup_fmap; destruct (blocklist p !! addr) as [it|]; try done; simpl;
    unfold ofUnix, toUnix, Second; intros [= E%Z.leb_le]; f_equal; apply Z.leb_le;
    pose proof (Z.div_mod (expiredTime it) 1000000000 ltac:(lia));
    pose proof (Z.mod_pos_bound (expiredTime it) 1000000000 ltac:(lia)); lia.
Qed.

Definition exBlocked : peri :=
  setBlocklist (exPeri 1 1) {["9.9.9.9"%string := mkBlockItem "9.9.9.9" 2 5500000000]}.

Lemma blocklist_survives_restart_witness :
  exists d' p' nodes,
    saveOnExit (exCfg []) exBlocked exSet ∅ elements [mkBlockItem "9.9.9.9" 2 5500000000] = Ret d' /\
    CreatePeri Some (exCfg []) 50 d' = Ret (p', nodes) /\
    blocklist p' = {["9.9.9.9"%string := mkBlockItem "9.9.9.9" 2 5000000000]}.
Proof.
  destruct (blocklist_survives_restart Some (exCfg []) exBlocked exSet ∅ elements
    [mkBlockItem "9.9.9.9" 2 5500000000] 50) as (d' & p' & nodes & Hs & Hc & Hb & _).
  - split; vm_compute; reflexivity.
  - exact exUrls.
  - done.
  - done.
  - split; [vm_compute; reflexivity|]. intros k it Hk.
    cbn [blocklist exBlocked setBlocklist] in Hk. apply lookup_singleton_Some in Hk as [<- <-]. split_and!; done.
  - vm_compute. reflexivity.
  - done.
  - exists d', p', nodes. split; [exact Hs|]. split; [exact Hc|]. rewrite Hb. vm_compute. reflexivity.
Defined.

(** On exit the quotas are applied to the wrong rankings: the set whose URLs are
    saved for the next start has the best [blockPeersCount] peers by transactions and the
    best [txsPeerCount] by blocks, where a round of the policy reserves the best
    [blockPeersCount] by blocks and the best [txsPeerCount] by transactions. *)
Theorem exit_saves_swapped_rankings `{SortSlice} cfg p ps :
  sizes_ok p ps -> urls_ok ps -> 0 <= blockPeersCount p < 2 ^ 52 -> 0 <= txsPeerCount p < 2 ^ 52 ->
  exists bs ts ex, getScores cfg p ps = Ret (snapShot p ps, bs, ts, ex) /\
    exitReserve (snapShot p ps) bs ts =
      Ret (list_to_set (reserved ts (blockPeersCount p) ++ reserved bs (txsPeerCount p))).
Proof. intros. by apply exitReserve_spec. Qed.

(** Peer [a] delivered the block first and peer [b] the transaction. *)
Definition exSwap : peri :=
  setTx (exPeri 1 0) {[ 7 := 1000 ]} {[ 7 := <["b"%string := 1000]> {["a"%string := 5000]} ]}.

Lemma exit_saves_swapped_rankings_witness :
  (exists bs ts ex, getScores (exCfg []) exSwap exSet = Ret (snapShot exSwap exSet, bs, ts, ex) /\
     exitReserve (snapShot exSwap exSet) bs ts = Ret (list_to_set (reserved ts 1 ++ reserved bs 0))) /\
  (let! (p, bs, ts, _) := getScores (exCfg []) exSwap exSet in
   let! saved := exitReserve p bs ts in Ret (reserved bs 1, saved)) = Ret (["a"%string], {["b"%string]}).
Proof.
  split.
  - apply (exit_saves_swapped_rankings (exCfg []) exSwap exSet); [split; vm_compute; reflexivity|exact exUrls|done|done].
  - vm_compute. reflexivity.
Defined.
