(* ===== verification/TxFetcher.v ===== *)
(** * The transaction fetcher (src/eth/fetcher/tx_fetcher.go)

    The event loop of [TxFetcher] as one function per case of its [select]: an
    announcement ([onNotify]), the two timers ([onWaitTrigger], [onTimeoutTrigger]), a
    delivery ([onCleanup]) and a disconnected peer ([onDrop]), over the record of its
    trackers; an explicit [panic] of the code is [Panic]. A handler also returns the
    retrievals it starts. The inner maps of the trackers are moved from one tracker to
    the next and never shared by two, so they are sets by value. The loops over maps take
    their order from [RangeOrder]. *)

From stdpp Require Import base tactics list gmap fin_maps strings.
From Stdlib Require Import ZArith Lia.
From S2P Require Import Prelude Types.

Open Scope Z_scope.
Open Scope go_scope.

Module TxFetcher.

Definition maxTxAnnounces : Z := 4096.
Definition maxTxRetrievals : nat := 256.
Definition maxTxUnderpricedSetSize : Z := 32768.
Definition txArriveTimeout : Z := 500000000.
Definition txGatherSlack : Z := 100000000.
Definition txFetchTimeout : Z := 5000000000.

Record txRequest := mkRequest { hashes : list hash; stolen : gset hash; time : Z }.

(** [waitArmed] and [timeoutArmed]: a trigger of that timer is due or pending. *)
Record fetcher := mkFetcher {
  waitlist : gmap hash (gset string);
  waittime : gmap hash Z;
  waitslots : gmap string (gset hash);
  announces : gmap string (gset hash);
  announced : gmap hash (gset string);
  fetching : gmap hash string;
  requests : gmap string txRequest;
  alternates : gmap hash (gset string);
  waitArmed : bool;
  timeoutArmed : bool
}.

Definition NewTxFetcher : fetcher := mkFetcher ∅ ∅ ∅ ∅ ∅ ∅ ∅ ∅ false false.

(** A retrieval handed to a worker: the peer and the hashes asked of it. *)
Definition command : Type := string * list hash.

Definition setWait (f : fetcher) wl wt ws : fetcher :=
  mkFetcher wl wt ws (announces f) (announced f) (fetching f) (requests f) (alternates f)
    (waitArmed f) (timeoutArmed f).
Definition setQueue (f : fetcher) ans and_ : fetcher :=
  mkFetcher (waitlist f) (waittime f) (waitslots f) ans and_ (fetching f) (requests f) (alternates f)
    (waitArmed f) (timeoutArmed f).
Definition setFetch (f : fetcher) fe re al : fetcher :=
  mkFetcher (waitlist f) (waittime f) (waitslots f) (announces f) (announced f) fe re al
    (waitArmed f) (timeoutArmed f).
Definition setTimers (f : fetcher) w t : fetcher :=
  mkFetcher (waitlist f) (waittime f) (waitslots f) (announces f) (announced f) (fetching f)
    (requests f) (alternates f) w t.

(** ** Maps of sets *)

Section SetMaps.

Context `{Countable K} `{Countable V}.

(** [m[k]], nil read as empty. *)
Definition at_ (m : gmap K (gset V)) (k : K) : gset V := default ∅ (m !! k).

(** [m[k][x] = struct{}{}], creating the inner map. *)
Definition addTo (m : gmap K (gset V)) (k : K) (x : V) : gmap K (gset V) := <[k := at_ m k ∪ {[x]}]> m.

(** [delete(m[k], x)] *)
Definition delFrom (m : gmap K (gset V)) (k : K) (x : V) : gmap K (gset V) :=
  match m !! k with Some s => <[k := s ∖ {[x]}]> m | None => m end.

(** [if len(m[k]) == 0 { delete(m, k) }] *)
Definition prune (m : gmap K (gset V)) (k : K) : gmap K (gset V) :=
  if decide (at_ m k = ∅) then delete k m else m.

(** [for k, set := range m { delete(set, x); if len(set) == 0 { delete(m, k) } }] *)
Definition purge (m : gmap K (gset V)) (x : V) : gmap K (gset V) :=
  omap (fun s => let s' := s ∖ {[x]} in if decide (s' = ∅) then None else Some s') m.

End SetMaps.

(** ** Scheduling *)

Section Loop.

Context `{RangeOrder}.

(** The closure of [forEachHash]: allocate hashes to [peer] until the limit. A hash
    that is not queued would leave a nil set of alternates behind. *)
Fixpoint allocate (f : fetcher) (peer : string) (acc : list hash) (l : list hash)
    : go (fetcher * list hash) :=
  match l with
  | [] => Ret (f, acc)
  | h :: l =>
      match fetching f !! h with
      | Some _ => allocate f peer acc l
      | None =>
          match alternates f !! h, announced f !! h with
          | None, Some origins =>
              let f := setFetch f (<[h := peer]> (fetching f)) (requests f)
                         (<[h := origins]> (alternates f)) in
              let f := setQueue f (announces f) (delete h (announced f)) in
              let acc := acc ++ [h] in
              if decide (maxTxRetrievals <= length acc)%nat then Ret (f, acc)
              else allocate f peer acc l
          | _, _ => Panic
          end
      end
  end.

(** The closure of [forEachPeer]; [now peer] is the clock when its request starts. *)
Definition schedulePeer (now : string -> Z) (st : fetcher * list command) (peer : string)
    : go (fetcher * list command) :=
  let '(f, cmds) := st in
  if decide (is_Some (requests f !! peer)) then Ret st
  else if decide (at_ (announces f) peer = ∅) then Ret st
  else
    let! (f, acc) := allocate f peer [] (hashOrder (at_ (announces f) peer)) in
    match acc with
    | [] => Ret (f, cmds)
    | _ =>
        let f := setFetch f (fetching f) (<[peer := mkRequest acc ∅ (now peer)]> (requests f)) (alternates f) in
        Ret (f, cmds ++ [(peer, acc)])
    end.

Definition rescheduleWait (f : fetcher) : fetcher := setTimers f true (timeoutArmed f).
Definition rescheduleTimeout (f : fetcher) : fetcher := setTimers f (waitArmed f) true.

Definition scheduleFetches (f : fetcher) (now : string -> Z) (whitelist : option (gset string))
    : go (fetcher * list command) :=
  let actives := match whitelist with Some w => w | None => dom (announces f) end in
  if decide (actives = ∅) then Ret (f, [])
  else
    let idle := bool_decide (requests f = ∅) in
    let! (f, cmds) := go_foldl (schedulePeer now) (f, []) (peerOrder actives) in
    Ret (if idle && negb (bool_decide (requests f = ∅)) then rescheduleTimeout f else f, cmds).

(** ** Announcements *)

Definition notifyHash (origin : string) (now : hash -> Z) (f : fetcher) (h : hash) : fetcher :=
  match alternates f !! h, announced f !! h, waitlist f !! h with
  | Some s, _, _ =>
      setFetch (setQueue f (addTo (announces f) origin h) (announced f))
        (fetching f) (requests f) (<[h := s ∪ {[origin]}]> (alternates f))
  | None, Some s, _ =>
      setQueue f (addTo (announces f) origin h) (<[h := s ∪ {[origin]}]> (announced f))
  | None, None, Some s =>
      setWait f (<[h := s ∪ {[origin]}]> (waitlist f)) (waittime f) (addTo (waitslots f) origin h)
  | None, None, None =>
      setWait f (<[h := {[origin]}]> (waitlist f)) (<[h := now h]> (waittime f))
        (addTo (waitslots f) origin h)
  end.

(** The cap on what one peer may have announced, with the slice expression of the
    code: [ann.hashes[:want-maxTxAnnounces]]. [None] when the peer is over it. *)
Definition capAnnounce (f : fetcher) (origin : string) (hs : list hash) : go (option (list hash)) :=
  let used := Z.of_nat (size (at_ (waitslots f) origin)) + Z.of_nat (size (at_ (announces f) origin)) in
  if maxTxAnnounces <=? used then Ret None
  else
    let want := used + Z.of_nat (length hs) in
    if maxTxAnnounces <? want then
      let! hs := go_slice hs 0 (want - maxTxAnnounces) in Ret (Some hs)
    else Ret (Some hs).

Definition onNotify (f : fetcher) (origin : string) (hs : list hash) (now : hash -> Z)
    (clock : string -> Z) : go (fetcher * list command) :=
  let! kept := capAnnounce f origin hs in
  match kept with
  | None => Ret (f, [])
  | Some hs =>
      let idleWait := bool_decide (waittime f = ∅) in
      let oldPeer := bool_decide (is_Some (announces f !! origin)) in
      let f := foldl (notifyHash origin now) f hs in
      let f := if idleWait && negb (bool_decide (waittime f = ∅)) then rescheduleWait f else f in
      if negb oldPeer && negb (bool_decide (at_ (announces f) origin = ∅))
      then scheduleFetches f clock (Some {[origin]}) else Ret (f, [])
  end.

(** ** The wait timer *)

(** A hash that waited long enough moves to the queue of every peer that announced it. *)
Definition waitHash (now : hash -> Z) (st : fetcher * gset string) (h : hash)
    : go (fetcher * gset string) :=
  let '(f, actives) := st in
  match waittime f !! h with
  | Some instance =>
      if txArriveTimeout <? i64 (i64 (now h - instance) + txGatherSlack) then
        match announced f !! h with
        | Some _ => Panic
        | None =>
            let origins := at_ (waitlist f) h in
            let ans := foldl (fun m p => addTo m p h) (announces f) (peerOrder origins) in
            let ws := foldl (fun m p => prune (delFrom m p h) p) (waitslots f) (peerOrder origins) in
            let f := setQueue f ans (<[h := origins]> (announced f)) in
            let f := setWait f (delete h (waitlist f)) (delete h (waittime f)) ws in
            Ret (f, actives ∪ origins)
        end
      else Ret st
  | None => Ret st
  end.

Definition onWaitTrigger (f : fetcher) (now : hash -> Z) (clock : string -> Z)
    : go (fetcher * list command) :=
  let f := setTimers f false (timeoutArmed f) in
  let! (f, actives) := go_foldl (waitHash now) (f, ∅) (hashOrder (dom (waittime f))) in
  let f := if bool_decide (waittime f = ∅) then f else rescheduleWait f in
  if decide (actives = ∅) then Ret (f, []) else scheduleFetches f clock (Some actives).

(** ** The retrieval timer *)

(** An undelivered hash of an expired request goes back to the queue without the peer. *)
Definition expireHash (peer : string) (lost : gset hash) (f : fetcher) (h : hash) : go fetcher :=
  if decide (h ∈ lost) then Ret f
  else
    match announced f !! h with
    | Some _ => Panic
    | None =>
        let and_ := match alternates f !! h with
                    | Some s => <[h := s]> (announced f)
                    | None => announced f
                    end in
        let and_ := prune (delFrom and_ h peer) h in
        let f := setQueue f (delFrom (announces f) peer h) and_ in
        Ret (setFetch f (delete h (fetching f)) (requests f) (delete h (alternates f)))
    end.

Definition expireRequest (now : string -> Z) (f : fetcher) (peer : string) : go fetcher :=
  match requests f !! peer with
  | Some req =>
      if txFetchTimeout <? i64 (i64 (now peer - time req) + txGatherSlack) then
        let! f := go_foldl (expireHash peer (stolen req)) f (hashes req) in
        let f := setQueue f (prune (announces f) peer) (announced f) in
        Ret (setFetch f (fetching f) (<[peer := mkRequest [] (stolen req) (time req)]> (requests f))
               (alternates f))
      else Ret f
  | None => Ret f
  end.

Definition onTimeoutTrigger (f : fetcher) (now clock : string -> Z) : go (fetcher * list command) :=
  let f := setTimers f (waitArmed f) false in
  let! f := go_foldl (expireRequest now) f (peerOrder (dom (requests f))) in
  let! (f, cmds) := scheduleFetches f clock None in
  Ret (rescheduleTimeout f, cmds).

(** ** Deliveries *)

(** All traces of a delivered hash; a request of another origin learns of the theft. The
    origin of a retrieval always has a request; without one the code dereferences nil. *)
Definition cleanHash (origin : string) (direct : bool) (f : fetcher) (h : hash) : go fetcher :=
  match waitlist f !! h with
  | Some _ => Ret (setWait f (delete h (waitlist f)) (delete h (waittime f)) (purge (waitslots f) h))
  | None =>
      let f := setQueue f (purge (announces f) h) (delete h (announced f)) in
      let! re :=
        match fetching f !! h with
        | Some o =>
            if bool_decide (o <> origin) || negb direct then
              match requests f !! o with
              | Some req => Ret (<[o := mkRequest (hashes req) (stolen req ∪ {[h]}) (time req)]> (requests f))
              | None => Panic
              end
            else Ret (requests f)
        | None => Ret (requests f)
        end in
      Ret (setFetch f (delete h (fetching f)) re (delete h (alternates f)))
  end.

(** The position of the last delivered hash, the length if there is none. *)
Definition cutoff (delivered : gset hash) (hs : list hash) : nat :=
  snd (foldl (fun '(i, c) h => (S i, if decide (h ∈ delivered) then i else c)) (O, length hs) hs).

(** One hash of an answered request: what is missing before the cutoff is asked of
    others, what is missing behind it of this peer again, too. *)
Definition settleHash (origin : string) (delivered lost : gset hash) (cut : nat)
    (st : nat * fetcher) (h : hash) : go (nat * fetcher) :=
  let '(i, f) := st in
  if decide (h ∈ lost) then Ret (S i, f)
  else
    let! f :=
      (if decide (h ∈ delivered) then Ret f
       else
         let f := if decide (i < cut)%nat then
                    setFetch (setQueue f (prune (delFrom (announces f) origin h) origin) (announced f))
                      (fetching f) (requests f) (delFrom (alternates f) h origin)
                  else f in
         if decide (at_ (alternates f) h = ∅) then Ret f
         else match announced f !! h with
              | Some _ => Panic
              | None => Ret (setQueue f (announces f) (<[h := at_ (alternates f) h]> (announced f)))
              end) in
    Ret (S i, setFetch f (delete h (fetching f)) (requests f) (delete h (alternates f))).

Definition onCleanup (f : fetcher) (origin : string) (hs : list hash) (direct : bool)
    (clock : string -> Z) : go (fetcher * list command) :=
  let! f := go_foldl (cleanHash origin direct) f hs in
  if direct then
    match requests f !! origin with
    | None => Ret (f, [])
    | Some req =>
        let f := setFetch f (fetching f) (delete origin (requests f)) (alternates f) in
        let delivered : gset hash := list_to_set hs in
        let! (_, f) := go_foldl (settleHash origin delivered (stolen req) (cutoff delivered (hashes req)))
                         (O, f) (hashes req) in
        scheduleFetches f clock None
    end
  else Ret (f, []).

(** ** Disconnected peers *)

Definition dropWaiting (peer : string) (f : fetcher) (h : hash) : fetcher :=
  let wl := delFrom (waitlist f) h peer in
  if decide (at_ wl h = ∅)
  then setWait f (delete h wl) (delete h (waittime f)) (waitslots f)
  else setWait f wl (waittime f) (waitslots f).

Definition dropFetching (peer : string) (lost : gset hash) (f : fetcher) (h : hash) : fetcher :=
  if decide (h ∈ lost) then f
  else
    let al := delFrom (alternates f) h peer in
    let and_ := if decide (at_ al h = ∅) then announced f else <[h := at_ al h]> (announced f) in
    setFetch (setQueue f (announces f) and_) (delete h (fetching f)) (requests f) (delete h al).

Definition dropAnnounced (peer : string) (f : fetcher) (h : hash) : fetcher :=
  setQueue f (announces f) (prune (delFrom (announced f) h peer) h).

Definition onDrop (f : fetcher) (peer : string) (clock : string -> Z) : go (fetcher * list command) :=
  let f :=
    match waitslots f !! peer with
    | Some slots =>
        let f := foldl (dropWaiting peer) f (hashOrder slots) in
        let f := setWait f (waitlist f) (waittime f) (delete peer (waitslots f)) in
        if bool_decide (waitlist f = ∅) then f else rescheduleWait f
    | None => f
    end in
  let request := requests f !! peer in
  let f :=
    match request with
    | Some req =>
        let f := foldl (dropFetching peer (stolen req)) f (hashes req) in
        setFetch f (fetching f) (delete peer (requests f)) (alternates f)
    | None => f
    end in
  let f :=
    match announces f !! peer with
    | Some set =>
        let f := foldl (dropAnnounced peer) f (hashOrder set) in
        setQueue f (delete peer (announces f)) (announced f)
    | None => f
    end in
  match request with
  | Some _ => let! (f, cmds) := scheduleFetches f clock None in Ret (rescheduleTimeout f, cmds)
  | None => Ret (f, [])
  end.

End Loop.

End TxFetcher.
