(* ===== verification/TxFetcherInv.v ===== *)
(** * The invariant of the transaction fetcher

    The invariant [Inv] on the trackers of [TxFetcher], and that every handler of its
    event loop keeps it and does not panic, with the lemmas on the steps the handlers
    are made of: allocating, releasing and forgetting a hash. *)

From stdpp Require Import base tactics list gmap fin_maps strings.
From Stdlib Require Import ZArith Lia.
From S2P Require Import Prelude Types TxFetcher.

Open Scope Z_scope.
Open Scope go_scope.

Import TxFetcher.

Module FetcherInv.

(** ** Lemmas: maps of sets *)

Section SetMapLemmas.

Context `{Countable K} `{Countable V}.

Implicit Types (m : gmap K (gset V)) (k : K) (x : V).

Lemma at_insert m k s k' : at_ (<[k := s]> m) k' = if decide (k = k') then s else at_ m k'.
Proof. unfold at_. rewrite lookup_insert. by case_decide. Qed.

Lemma at_delete m k k' : at_ (delete k m) k' = if decide (k = k') then ∅ else at_ m k'.
Proof. unfold at_. rewrite lookup_delete. by case_decide. Qed.

Lemma at_addTo m k x k' : at_ (addTo m k x) k' = if decide (k = k') then at_ m k' ∪ {[x]} else at_ m k'.
Proof. unfold addTo. rewrite at_insert. case_decide; by subst. Qed.

Lemma at_delFrom m k x k' :
  at_ (delFrom m k x) k' = if decide (k = k') then at_ m k' ∖ {[x]} else at_ m k'.
Proof.
  unfold delFrom. destruct (m !! k) as [s|] eqn:E.
  - rewrite at_insert. case_decide; [|done]. subst. unfold at_. by rewrite E.
  - case_decide; [|done]. subst. unfold at_. rewrite E. simpl. set_solver.
Qed.

Lemma at_prune m k k' : at_ (prune m k) k' = at_ m k'.
Proof. unfold prune. case_decide; [|done]. rewrite at_delete. case_decide; by subst. Qed.

Lemma at_purge m x k : at_ (purge m x) k = at_ m k ∖ {[x]}.
Proof.
  unfold at_, purge. rewrite lookup_omap. destruct (m !! k) as [s|]; simpl; [|set_solver].
  case_decide as E; simpl; [by rewrite E|done].
Qed.

Lemma at_Some m k s : m !! k = Some s -> at_ m k = s.
Proof. unfold at_. by intros ->. Qed.

Lemma at_None m k : m !! k = None -> at_ m k = ∅.
Proof. unfold at_. by intros ->. Qed.

Lemma elem_at m k x : x ∈ at_ m k -> is_Some (m !! k).
Proof. unfold at_. destruct (m !! k); [by eexists|set_solver]. Qed.

Lemma delFrom_lookup_ne m k x k' : k <> k' -> delFrom m k x !! k' = m !! k'.
Proof. intros Hne. unfold delFrom. destruct (m !! k); [by rewrite lookup_insert_ne|done]. Qed.

Lemma prune_lookup_ne m k k' : k <> k' -> prune m k !! k' = m !! k'.
Proof. intros Hne. unfold prune. case_decide; [by rewrite lookup_delete_ne|done]. Qed.

End SetMapLemmas.

Create Rewrite HintDb setmap.
#[local] Hint Rewrite @at_insert @at_delete @at_addTo @at_delFrom @at_prune @at_purge : setmap.

(** ** The invariant

    Each hash is in one stage only (waiting, queued, or being fetched, with its other
    origins as alternates); the trackers by peer and by hash agree; a retrieval belongs to
    one request; and a request has at most 256 hashes, without repetition. *)
Record Inv (f : fetcher) : Prop := {
  i_wait : forall h p, h ∈ at_ (waitslots f) p <-> p ∈ at_ (waitlist f) h;
  i_time : forall h, is_Some (waittime f !! h) <-> is_Some (waitlist f !! h);
  i_wq : forall h, is_Some (waitlist f !! h) -> announced f !! h = None /\ alternates f !! h = None;
  i_qf : forall h, is_Some (announced f !! h) -> alternates f !! h = None;
  i_alt : forall h, is_Some (alternates f !! h) <-> is_Some (fetching f !! h);
  i_ann : forall h p, h ∈ at_ (announces f) p -> p ∈ at_ (announced f) h \/ p ∈ at_ (alternates f) h;
  i_fetch : forall h p, fetching f !! h = Some p ->
    p ∈ at_ (alternates f) h /\
    exists r, requests f !! p = Some r /\ h ∈ hashes r /\ h ∉ stolen r;
  i_req : forall p r h, requests f !! p = Some r -> h ∈ hashes r -> h ∉ stolen r ->
    fetching f !! h = Some p;
  i_size : forall p r, requests f !! p = Some r ->
    (length (hashes r) <= maxTxRetrievals)%nat /\ NoDup (hashes r)
}.

(** The timers: something that waits or is being fetched has a trigger coming. *)
Definition Timers (f : fetcher) : Prop :=
  (waittime f <> ∅ -> waitArmed f = true) /\ (requests f <> ∅ -> timeoutArmed f = true).

Lemma Inv_timers f w t : Inv f -> Inv (setTimers f w t).
Proof. by intros []. Qed.

Lemma notifyHash_inv origin now f h : Inv f -> Inv (notifyHash origin now f h).
Proof.
  intros [Hw Ht Hwq Hqf Halt Hann Hf Hr Hs]. unfold notifyHash.
  destruct (alternates f !! h) as [s|] eqn:Ea.
  { split; simpl; try done.
    - intros h' Hh'. rewrite lookup_insert. case_decide; [|by auto]. subst.
      destruct (Hwq h' Hh'). congruence.
    - intros h' Hh'. rewrite lookup_insert. case_decide; [|by auto]. subst. specialize (Hqf h' Hh'). congruence.
    - intros h'. rewrite lookup_insert. case_decide; [|by auto]. subst. rewrite <- Halt, Ea.
      split; by eexists.
    - intros h' p. autorewrite with setmap. pose proof (Hann h' p) as Hx.
      repeat case_decide; subst; try rewrite (at_Some _ _ _ Ea) in Hx; set_solver.
    - intros h' p Hp. destruct (Hf h' p Hp) as [Hin Hreq]. split; [|done]. autorewrite with setmap.
      case_decide; [|done]. subst. rewrite (at_Some _ _ _ Ea) in Hin. set_solver. }
  destruct (announced f !! h) as [s|] eqn:Eq.
  { split; simpl; try done.
    - intros h' Hh'. rewrite lookup_insert. case_decide; [|by auto]. subst. destruct (Hwq h' Hh'). congruence.
    - intros h'. rewrite lookup_insert. case_decide; [by subst|by auto].
    - intros h' p. autorewrite with setmap. pose proof (Hann h' p) as Hx.
      repeat case_decide; subst; try rewrite (at_Some _ _ _ Eq) in Hx; set_solver. }
  destruct (waitlist f !! h) as [s|] eqn:Ew; (split; simpl; try done).
  - intros h' p. autorewrite with setmap. rewrite <- (at_Some _ _ _ Ew).
    pose proof (Hw h' p). repeat case_decide; subst; set_solver.
  - intros h'. rewrite lookup_insert. case_decide; [|done]. subst. rewrite Ht, Ew. split; by eexists.
  - intros h' Hh'. rewrite lookup_insert in Hh'. case_decide; [by subst|by auto].
  - intros h' p. autorewrite with setmap. pose proof (Hw h' p) as Hx.
    repeat case_decide; subst; try rewrite (at_None _ _ Ew) in Hx; set_solver.
  - intros h'. rewrite !lookup_insert. case_decide; [|done]. split; by eexists.
  - intros h' Hh'. rewrite lookup_insert in Hh'. case_decide; [by subst|by auto].
Qed.

(** ** Lemmas: the wait timer *)

Lemma at_foldl_addTo (m : gmap string (gset hash)) (l : list string) h p :
  at_ (foldl (fun m q => addTo m q h) m l) p = if decide (p ∈ l) then at_ m p ∪ {[h]} else at_ m p.
Proof.
  revert m. induction l as [|q l IH]; intros m; cbn [foldl]; [by rewrite decide_False by set_solver|].
  rewrite IH. autorewrite with setmap. repeat case_decide; set_solver.
Qed.

Lemma at_foldl_unslot (m : gmap string (gset hash)) (l : list string) h p :
  at_ (foldl (fun m q => prune (delFrom m q h) q) m l) p =
    if decide (p ∈ l) then at_ m p ∖ {[h]} else at_ m p.
Proof.
  revert m. induction l as [|q l IH]; intros m; cbn [foldl]; [by rewrite decide_False by set_solver|].
  rewrite IH. autorewrite with setmap. repeat case_decide; set_solver.
Qed.

Lemma peerOrder_elem `{RangeOrder} s p : p ∈ peerOrder s <-> p ∈ s.
Proof. by rewrite peerOrder_perm, elem_of_elements. Qed.

Lemma hashOrder_elem `{RangeOrder} s h : h ∈ hashOrder s <-> h ∈ s.
Proof. by rewrite hashOrder_perm, elem_of_elements. Qed.

(** What the handlers below do not touch. *)
Definition sameFetch (f f' : fetcher) : Prop :=
  fetching f' = fetching f /\ requests f' = requests f /\ alternates f' = alternates f /\
  waitArmed f' = waitArmed f /\ timeoutArmed f' = timeoutArmed f.

Lemma waitHash_inv `{RangeOrder} now f act h :
  Inv f -> exists f' act', waitHash now (f, act) h = Ret (f', act') /\ Inv f' /\ sameFetch f f'.
Proof.
  intros HI. pose proof HI as [Hw Ht Hwq Hqf Halt Hann Hf Hr Hs]. unfold waitHash.
  destruct (waittime f !! h) as [inst|] eqn:Et; [|by exists f, act].
  destruct (_ <? _); [|by exists f, act].
  destruct (Hwq h) as [Hq Ha]; [apply Ht; by eexists|]. rewrite Hq.
  do 2 eexists. split; [done|]. split; [|done]. set (origins := at_ (waitlist f) h).
  split; simpl; try done.
  - intros h' p. rewrite at_foldl_unslot. autorewrite with setmap. pose proof (Hw h' p) as Hx.
    pose proof (peerOrder_elem origins p). repeat case_decide; subst; set_solver.
  - intros h'. rewrite !lookup_delete. case_decide; [|done]. split; intros [? ?]; done.
  - intros h' Hh'. rewrite lookup_delete in Hh'. rewrite lookup_insert.
    case_decide; [by destruct Hh'|by auto].
  - intros h'. rewrite lookup_insert. case_decide; [by subst|by auto].
  - intros h' p. rewrite at_foldl_addTo. autorewrite with setmap. pose proof (Hann h' p) as Hx.
    pose proof (peerOrder_elem origins p). rewrite ?(at_None _ _ Hq), ?(at_None _ _ Ha) in Hx.
    repeat case_decide; subst; rewrite ?(at_None _ _ Hq), ?(at_None _ _ Ha) in Hx; set_solver.
Qed.

(** ** Lemmas: scheduling *)

(** [f] with a request of [p] for the hashes [acc]. *)
Definition withReq (f : fetcher) (p : string) (r : txRequest) : fetcher :=
  setFetch f (fetching f) (<[p := r]> (requests f)) (alternates f).

Lemma Inv_addEmpty f p st t : Inv f -> requests f !! p = None -> Inv (withReq f p (mkRequest [] st t)).
Proof.
  intros [Hw Ht Hwq Hqf Halt Hann Hf Hr Hs] Hp. split; simpl; try done.
  - intros h q Hq. destruct (Hf h q Hq) as (Hin & r & Hreq & Hh). split; [done|]. exists r.
    rewrite lookup_insert_ne by congruence. done.
  - intros q r h. rewrite lookup_insert_Some. intros [[<- <-]|[_ Hq]] Hh; [set_solver|by apply Hr].
  - intros q r. rewrite lookup_insert_Some. intros [[<- <-]|[_ Hq]]; [split; [simpl; lia|constructor]|by apply (Hs q)].
Qed.

Lemma Inv_dropEmpty f p st t : Inv (withReq f p (mkRequest [] st t)) -> Inv (setFetch f (fetching f) (delete p (requests f)) (alternates f)).
Proof.
  intros [Hw Ht Hwq Hqf Halt Hann Hf Hr Hs]. split; simpl in *; try done.
  - intros h q Hq. destruct (Hf h q Hq) as (Hin & r & Hreq & Hh). split; [done|]. exists r.
    apply lookup_insert_Some in Hreq as [[<- <-]|[Hne Hreq]]; [set_solver|].
    by rewrite lookup_delete_ne.
  - intros q r h. rewrite lookup_delete_Some. intros [Hne Hq]. apply Hr. by rewrite lookup_insert_ne.
  - intros q r. rewrite lookup_delete_Some. intros [Hne Hq]. apply (Hs q). by rewrite lookup_insert_ne.
Qed.

(** One hash moves from the queue to the retrievals of [p]. *)
Lemma allocateOne_inv f p acc t h origins :
  Inv (withReq f p (mkRequest acc ∅ t)) -> (length acc < maxTxRetrievals)%nat ->
  fetching f !! h = None -> alternates f !! h = None -> announced f !! h = Some origins -> p ∈ origins ->
  Inv (withReq (setQueue (setFetch f (<[h := p]> (fetching f)) (requests f) (<[h := origins]> (alternates f)))
    (announces f) (delete h (announced f))) p (mkRequest (acc ++ [h]) ∅ t)).
Proof.
  intros [Hw Ht Hwq Hqf Halt Hann Hf Hr Hs] Hlen Hfe Ha Hq Hp.
  assert (h ∉ acc) as Hnew.
  { intros Hin. assert (fetching f !! h = Some p); [|congruence].
    apply (Hr p (mkRequest acc ∅ t) h); [apply lookup_insert_eq|done|set_solver]. }
  split; simpl in *; try done.
  - intros h' Hh'. destruct (Hwq h' Hh') as [H1 H2]. rewrite lookup_delete, lookup_insert.
    case_decide; [subst; congruence|done].
  - intros h' Hh'. rewrite lookup_delete in Hh'. rewrite lookup_insert.
    case_decide; [by destruct Hh'|by auto].
  - intros h'. rewrite !lookup_insert. case_decide; [split; by eexists|done].
  - intros h' q Hh'. destruct (Hann h' q Hh') as [Hx|Hx]; autorewrite with setmap; case_decide; subst; try tauto.
    + right. by rewrite (at_Some _ _ _ Hq) in Hx.
    + by rewrite (at_None _ _ Ha) in Hx.
  - intros h' q. autorewrite with setmap. rewrite lookup_insert. case_decide as Hd.
    + subst. intros [= <-]. split; [done|]. eexists. rewrite lookup_insert_eq. simpl.
      split_and!; [done|set_solver|set_solver].
    + intros Hh'. destruct (Hf h' q Hh') as (Hin & r & Hreq & Hh & Hns). split; [done|].
      apply lookup_insert_Some in Hreq as [[<- <-]|[Hne Hreq]]; eexists.
      * rewrite lookup_insert_eq. simpl in *. split_and!; [done|set_solver|done].
      * rewrite lookup_insert_ne by done. split_and!; done.
  - intros q r h'. rewrite lookup_insert_Some. intros [[<- <-]|[Hne Hreq]]; simpl.
    + intros Hh' _. rewrite lookup_insert. case_decide; [done|].
      apply (Hr p (mkRequest acc ∅ t)); [apply lookup_insert_eq|set_solver|set_solver].
    + intros Hh' Hns. rewrite lookup_insert. assert (fetching f !! h' = Some q) as Hfq.
      { apply (Hr q r); [by rewrite lookup_insert_ne|done|done]. }
      case_decide; [subst; congruence|done].
  - intros q r. rewrite lookup_insert_Some. intros [[<- <-]|[Hne Hreq]]; simpl.
    + destruct (Hs p (mkRequest acc ∅ t)) as [_ Hnd]; [apply lookup_insert_eq|]. simpl in Hnd.
      rewrite length_app. simpl. split; [lia|]. apply NoDup_app. split_and!; [done|set_solver|apply NoDup_singleton].
    + apply (Hs q). by rewrite lookup_insert_ne.
Qed.

(** Scheduling leaves the wait list and the announcements of the peers alone. *)
Definition sameQueue (f f' : fetcher) : Prop :=
  waitlist f' = waitlist f /\ waittime f' = waittime f /\ waitslots f' = waitslots f /\
  announces f' = announces f /\ waitArmed f' = waitArmed f.

Lemma allocate_inv f p acc t l :
  Inv (withReq f p (mkRequest acc ∅ t)) -> (length acc < maxTxRetrievals)%nat ->
  (forall h, h ∈ l -> h ∈ at_ (announces f) p) ->
  exists f' acc', allocate f p acc l = Ret (f', acc') /\ Inv (withReq f' p (mkRequest acc' ∅ t)) /\
    sameQueue f f' /\ requests f' = requests f /\ timeoutArmed f' = timeoutArmed f /\
    (forall h, is_Some (fetching f !! h) -> is_Some (fetching f' !! h)) /\
    (forall h, h ∈ l -> is_Some (fetching f' !! h) \/ length acc' = maxTxRetrievals).
Proof.
  revert f acc. induction l as [|h l IH]; intros f acc HI Hlen Hl; cbn [allocate].
  { exists f, acc. split_and!; try done. intros h Hh. by apply not_elem_of_nil in Hh. }
  assert (forall h', h' ∈ l -> h' ∈ at_ (announces f) p) as Hl' by (intros; apply Hl; set_solver).
  destruct (fetching f !! h) as [q|] eqn:Ef.
  { destruct (IH f acc HI Hlen Hl') as (f' & acc' & -> & H1 & H2 & H3 & H4 & H5 & H6).
    exists f', acc'. split_and!; try done. intros h' [->|Hh']%elem_of_cons; [left; apply H5; by eexists|auto]. }
  assert (alternates f !! h = None) as Ea.
  { pose proof (i_alt _ HI h) as Ha. simpl in Ha. rewrite Ef in Ha. destruct (alternates f !! h); [|done].
    destruct (proj1 Ha ltac:(by eexists)); done. }
  assert (exists origins, announced f !! h = Some origins /\ p ∈ origins) as (origins & Eq & Hp).
  { destruct (i_ann _ HI h p) as [Hx|Hx]; [apply Hl; set_solver| |].
    - simpl in Hx. destruct (elem_at _ _ _ Hx) as [o Ho]. exists o. by rewrite (at_Some _ _ _ Ho) in Hx.
    - simpl in Hx. rewrite (at_None _ _ Ea) in Hx. set_solver. }
  rewrite Ea, Eq. pose proof (allocateOne_inv f p acc t h origins HI Hlen Ef Ea Eq Hp) as HI'.
  set (f1 := setQueue _ _ _) in *.
  assert (forall h', is_Some (fetching f !! h') -> is_Some (fetching f1 !! h')) as Hmono.
  { intros h' Hh'. simpl. rewrite lookup_insert. case_decide; [by eexists|done]. }
  assert (is_Some (fetching f1 !! h)) as Hdone by (simpl; rewrite lookup_insert_eq; by eexists).
  case_decide as Hfull.
  - exists f1, (acc ++ [h]). split_and!; try done. intros h' _. right.
    rewrite length_app in *. simpl in *. lia.
  - destruct (IH f1 (acc ++ [h]) HI') as (f' & acc' & -> & H1 & H2 & H3 & H4 & H5 & H6); [lia|done|].
    exists f', acc'. split_and!; try done; [auto|].
    intros h' [->|Hh']%elem_of_cons; [left; by apply H5|auto].
Qed.

Lemma schedulePeer_inv `{RangeOrder} now f cmds p :
  Inv f ->
  exists f' cmds', schedulePeer now (f, cmds) p = Ret (f', cmds') /\ Inv f' /\ sameQueue f f' /\
    timeoutArmed f' = timeoutArmed f /\
    (forall q r, requests f !! q = Some r -> requests f' !! q = Some r) /\
    (forall q, q <> p -> requests f' !! q = requests f !! q) /\
    (forall h, is_Some (fetching f !! h) -> is_Some (fetching f' !! h)) /\
    (is_Some (requests f' !! p) \/ forall h, h ∈ at_ (announces f) p -> is_Some (fetching f' !! h)).
Proof.
  intros HI. unfold schedulePeer. case_decide as Hreq; [by exists f, cmds; split_and!; try done; left|].
  case_decide as Hempty; [exists f, cmds; split_and!; try done; right; set_solver|].
  assert (requests f !! p = None) as Hnone by (by apply eq_None_not_Some).
  destruct (allocate_inv f p [] (now p) (hashOrder (at_ (announces f) p)))
    as (f' & acc & -> & H1 & H2 & H3 & H4 & H5 & H6).
  { by apply Inv_addEmpty. }
  { simpl. unfold maxTxRetrievals. lia. }
  { intros h. by rewrite hashOrder_elem. }
  destruct acc as [|a acc].
  - exists f', cmds. split_and!; try done.
    + apply Inv_dropEmpty in H1. rewrite H3 in H1. rewrite delete_id in H1 by done.
      rewrite <- H3 in H1. by destruct f'.
    + by intros; rewrite H3.
    + by intros; rewrite H3.
    + right. intros h Hh. destruct (H6 h) as [|Hx]; [by apply hashOrder_elem|done|].
      simpl in Hx. unfold maxTxRetrievals in Hx. lia.
  - eexists _, _. split; [done|]. split_and!; try done; simpl.
    + intros q r Hq. rewrite H3, lookup_insert_ne by congruence. done.
    + intros q Hq. by rewrite H3, lookup_insert_ne.
    + left. rewrite lookup_insert_eq. by eexists.
Qed.

Lemma sameQueue_trans f1 f2 f3 : sameQueue f1 f2 -> sameQueue f2 f3 -> sameQueue f1 f3.
Proof. unfold sameQueue. intuition congruence. Qed.

Lemma schedulePeers_inv `{RangeOrder} now l f cmds :
  Inv f ->
  exists f' cmds', go_foldl (schedulePeer now) (f, cmds) l = Ret (f', cmds') /\ Inv f' /\ sameQueue f f' /\
    timeoutArmed f' = timeoutArmed f /\
    (forall q r, requests f !! q = Some r -> requests f' !! q = Some r) /\
    (forall q, q ∉ l -> requests f' !! q = requests f !! q) /\
    (forall h, is_Some (fetching f !! h) -> is_Some (fetching f' !! h)) /\
    (forall p, p ∈ l -> is_Some (requests f' !! p) \/
       forall h, h ∈ at_ (announces f) p -> is_Some (fetching f' !! h)).
Proof.
  revert f cmds. induction l as [|p l IH]; intros f cmds HI; cbn [go_foldl].
  { exists f, cmds. split_and!; try done. intros p Hp. by apply not_elem_of_nil in Hp. }
  destruct (schedulePeer_inv now f cmds p HI) as (f1 & c1 & -> & HI1 & Hq1 & Ht1 & Hr1 & Hn1 & Hf1 & Hp1).
  destruct (IH f1 c1 HI1) as (f' & c' & -> & HI' & Hq' & Ht' & Hr' & Hn' & Hf' & Hp').
  exists f', c'. split_and!; try done; [by eapply sameQueue_trans|congruence|auto| |auto|].
  - intros q Hq. rewrite not_elem_of_cons in Hq. rewrite Hn', Hn1; tauto.
  - destruct Hq1 as (_ & _ & _ & Han & _). rewrite Han in Hp'.
    intros q [->|Hq]%elem_of_cons; [|by auto]. destruct Hp1 as [[r Hr]|Hall]; [left; eexists; by apply Hr'|].
    right. intros h Hh. auto.
Qed.

Lemma scheduleFetches_inv `{RangeOrder} f now wl :
  Inv f ->
  exists f' cmds, scheduleFetches f now wl = Ret (f', cmds) /\ Inv f' /\ sameQueue f f' /\
    ((requests f <> ∅ -> timeoutArmed f = true) -> requests f' <> ∅ -> timeoutArmed f' = true) /\
    (wl = None -> forall p h, h ∈ at_ (announces f') p ->
       is_Some (requests f' !! p) \/ is_Some (fetching f' !! h)).
Proof.
  intros HI. unfold scheduleFetches. case_decide as Hact.
  { exists f, []. split_and!; try done. intros -> p h Hh. apply elem_at, elem_of_dom in Hh. set_solver. }
  set (actives := match wl with Some w => w | None => dom (announces f) end) in *.
  destruct (schedulePeers_inv now (peerOrder actives) f [] HI)
    as (f1 & cmds & -> & HI1 & Hq1 & Ht1 & Hr1 & _ & _ & Hp1).
  assert (forall g, announces g = announces f1 -> requests g = requests f1 -> fetching g = fetching f1 ->
    wl = None -> forall p h, h ∈ at_ (announces g) p -> is_Some (requests g !! p) \/ is_Some (fetching g !! h)) as Hwork.
  { intros g -> -> -> -> p h Hh. destruct Hq1 as (_ & _ & _ & Han & _). rewrite Han in Hh.
    destruct (Hp1 p) as [|Hall]; [|by left|right; auto]. apply peerOrder_elem, elem_of_dom.
    by eapply elem_at. }
  eexists _, _. split; [done|].
  destruct (bool_decide (requests f = ∅)) eqn:Hidle; [apply bool_decide_eq_true in Hidle|apply bool_decide_eq_false in Hidle];
    cbn [andb]; [destruct (bool_decide (requests f1 = ∅)) eqn:H1; cbn [negb]|].
  - apply bool_decide_eq_true in H1. split_and!; [done|done|done|by apply Hwork].
  - split_and!; [by apply Inv_timers|done|done|by apply Hwork].
  - split_and!; [done|done|intros Ht _; rewrite Ht1; auto|by apply Hwork].
Qed.

(** ** Lemmas: requests that end *)

(** A hash that was delivered by someone else leaves the request. *)
Lemma skip_inv f p h rest st t :
  Inv (withReq f p (mkRequest (h :: rest) st t)) -> h ∈ st -> Inv (withReq f p (mkRequest rest st t)).
Proof.
  intros [Hw Ht Hwq Hqf Halt Hann Hf Hr Hs] Hst. split; simpl in *; try done.
  - intros h' q Hh'. destruct (Hf h' q Hh') as (Hin & r & Hreq & Hh & Hns). split; [done|].
    apply lookup_insert_Some in Hreq as [[<- <-]|[Hne Hreq]]; eexists.
    + rewrite lookup_insert_eq. simpl in *. split_and!; [done|set_solver|done].
    + rewrite lookup_insert_ne by done. by split_and!.
  - intros q r h'. rewrite lookup_insert_Some. intros [[<- <-]|[Hne Hreq]]; simpl; intros Hh Hns.
    + apply (Hr p (mkRequest (h :: rest) st t)); [apply lookup_insert_eq|simpl; set_solver|done].
    + apply (Hr q r); [by rewrite lookup_insert_ne|done..].
  - intros q r. rewrite lookup_insert_Some. intros [[<- <-]|[Hne Hreq]]; simpl.
    + destruct (Hs p (mkRequest (h :: rest) st t)) as [Hl Hnd]; [apply lookup_insert_eq|]. simpl in *.
      apply NoDup_cons in Hnd as [_ Hnd]. split; [lia|done].
    + apply (Hs q). by rewrite lookup_insert_ne.
Qed.

(** A hash of a request that ends goes back to the queue with the origins [announced']
    has for it; peers that still announce it must be among them. *)
Lemma release_inv f p h rest st t announces' announced' :
  Inv (withReq f p (mkRequest (h :: rest) st t)) -> h ∉ st ->
  (forall h', h' <> h -> announced' !! h' = announced f !! h') ->
  (forall q x, x ∈ at_ announces' q -> x ∈ at_ (announces f) q) ->
  (forall q, h ∈ at_ announces' q -> q ∈ at_ (alternates f) h -> q ∈ at_ announced' h) ->
  Inv (withReq (setFetch (setQueue f announces' announced') (delete h (fetching f)) (requests f)
    (delete h (alternates f))) p (mkRequest rest st t)).
Proof.
  intros [Hw Ht Hwq Hqf Halt Hann Hf Hr Hs] Hns Had Hsub Hkeep. simpl in *.
  assert (fetching f !! h = Some p) as Hfh.
  { apply (Hr p (mkRequest (h :: rest) st t)); [apply lookup_insert_eq|simpl; set_solver|done]. }
  assert (is_Some (alternates f !! h)) as Hah by (apply Halt; by eexists).
  assert (announced f !! h = None) as Hqh.
  { destruct (announced f !! h) eqn:E; [|done]. rewrite (Hqf h) in Hah by (by eexists). by destruct Hah. }
  destruct (Hs p (mkRequest (h :: rest) st t)) as [Hl Hnd]; [apply lookup_insert_eq|]. simpl in Hl, Hnd.
  apply NoDup_cons in Hnd as [Hnh Hnd]. split; simpl; try done.
  - intros h' Hh'. destruct (Hwq h' Hh') as [H1 H2]. assert (h' <> h) by (intros ->; rewrite H2 in Hah; by destruct Hah).
    rewrite Had, lookup_delete_ne by done. done.
  - intros h'. rewrite lookup_delete. case_decide; [done|]. rewrite Had by done. auto.
  - intros h'. rewrite !lookup_delete. case_decide; [split; by intros [? ?]|done].
  - intros h' q Hh'. destruct (decide (h' = h)) as [->|Hne].
    + left. apply Hkeep; [done|]. destruct (Hann h q (Hsub _ _ Hh')) as [Hx|Hx]; [|done].
      rewrite (at_None _ _ Hqh) in Hx. set_solver.
    + rewrite at_delete, decide_False by done. unfold at_ at 1. rewrite Had by done. apply (Hann h' q), Hsub, Hh'.
  - intros h' q. rewrite lookup_delete. case_decide as Hd; [done|]. intros Hh'.
    destruct (Hf h' q Hh') as (Hin & r & Hreq & Hh & Hr'). rewrite at_delete, decide_False by done. split; [done|].
    apply lookup_insert_Some in Hreq as [[<- <-]|[Hne Hreq]]; eexists.
    + rewrite lookup_insert_eq. simpl in *. split_and!; [done|set_solver|done].
    + rewrite lookup_insert_ne by done. by split_and!.
  - intros q r h'. rewrite lookup_insert_Some. intros [[<- <-]|[Hne Hreq]]; simpl; intros Hh Hr'.
    + rewrite lookup_delete_ne by (intros ->; done).
      apply (Hr p (mkRequest (h :: rest) st t)); [apply lookup_insert_eq|simpl; set_solver|done].
    + assert (fetching f !! h' = Some q) by (apply (Hr q r); [by rewrite lookup_insert_ne|done..]).
      rewrite lookup_delete_ne by congruence. done.
  - intros q r. rewrite lookup_insert_Some. intros [[<- <-]|[Hne Hreq]]; simpl; [split; [lia|done]|].
    apply (Hs q). by rewrite lookup_insert_ne.
Qed.

(** The wait list and the timers are not touched by what follows. *)
Definition sameWait (f f' : fetcher) : Prop :=
  waitlist f' = waitlist f /\ waittime f' = waittime f /\ waitslots f' = waitslots f /\
  waitArmed f' = waitArmed f /\ timeoutArmed f' = timeoutArmed f.

Lemma sameWait_trans f1 f2 f3 : sameWait f1 f2 -> sameWait f2 f3 -> sameWait f1 f3.
Proof. unfold sameWait. intuition congruence. Qed.

Lemma pending_lookup f p h rest st t :
  Inv (withReq f p (mkRequest (h :: rest) st t)) -> h ∉ st ->
  announced f !! h = None /\ exists s, alternates f !! h = Some s.
Proof.
  intros HI Hns. assert (fetching f !! h = Some p) as Hf.
  { apply (i_req _ HI p (mkRequest (h :: rest) st t)); [apply lookup_insert_eq|simpl; set_solver|done]. }
  assert (is_Some (alternates f !! h)) as [s Hs] by (apply (i_alt _ HI); simpl; by eexists).
  split; [|by exists s]. destruct (announced f !! h) eqn:E; [|done].
  pose proof (i_qf _ HI h) as Hq. simpl in Hq. rewrite E, Hs in Hq. by specialize (Hq ltac:(by eexists)).
Qed.

Lemma expireHash_inv f p h rest st t :
  Inv (withReq f p (mkRequest (h :: rest) st t)) ->
  exists f', expireHash p st f h = Ret f' /\ Inv (withReq f' p (mkRequest rest st t)) /\
    requests f' = requests f /\ sameWait f f'.
Proof.
  intros HI. unfold expireHash. case_decide as Hst; [exists f; split_and!; try done; by eapply skip_inv|].
  destruct (pending_lookup f p h rest st t HI Hst) as [Hq [s Hs]]. rewrite Hq, Hs.
  eexists. split; [done|]. split; [|done].
  apply (release_inv f p h rest st t (delFrom (announces f) p h)
    (prune (delFrom (<[h := s]> (announced f)) h p) h) HI Hst); simpl.
  - intros h' Hne. rewrite prune_lookup_ne, delFrom_lookup_ne, lookup_insert_ne by congruence. done.
  - intros q x. autorewrite with setmap. case_decide; set_solver.
  - intros q. autorewrite with setmap. rewrite (at_Some _ _ _ Hs).
    rewrite (decide_True (P := h = h)) by done. repeat case_decide; set_solver.
Qed.

Lemma expireHashes_inv f p hs st t :
  Inv (withReq f p (mkRequest hs st t)) ->
  exists f', go_foldl (expireHash p st) f hs = Ret f' /\ Inv (withReq f' p (mkRequest [] st t)) /\
    requests f' = requests f /\ sameWait f f'.
Proof.
  revert f. induction hs as [|h hs IH]; intros f HI; cbn [go_foldl]; [by exists f|].
  destruct (expireHash_inv f p h hs st t HI) as (f1 & -> & HI1 & Hr1 & Hw1).
  destruct (IH f1 HI1) as (f' & -> & HI' & Hr' & Hw'). exists f'.
  split_and!; [done|done|congruence|by eapply sameWait_trans].
Qed.

(** The invariant reads [announces] only through [at_]. *)
Lemma Inv_announces f announces' :
  (forall q, at_ announces' q ⊆ at_ (announces f) q) -> Inv f -> Inv (setQueue f announces' (announced f)).
Proof.
  intros Hsub [Hw Ht Hwq Hqf Halt Hann Hf Hr Hs]. split; simpl; try done.
  intros h p Hh. apply Hann, Hsub, Hh.
Qed.

Lemma withReq_id f p r : requests f !! p = Some r -> withReq f p r = f.
Proof. intros Hr. unfold withReq, setFetch. rewrite insert_id by done. by destruct f. Qed.

Lemma expireRequest_inv now f p :
  Inv f -> exists f', expireRequest now f p = Ret f' /\ Inv f' /\ dom (requests f') = dom (requests f) /\
    sameWait f f'.
Proof.
  intros HI. unfold expireRequest. destruct (requests f !! p) as [[hs st t]|] eqn:Hr; [|by exists f].
  cbn [time stolen hashes]. destruct (_ <? _); [|by exists f].
  destruct (expireHashes_inv f p hs st t) as (f1 & -> & HI1 & Hr1 & Hw1); [by rewrite withReq_id|].
  eexists. split; [done|]. split_and!.
  - apply (Inv_announces (withReq f1 p (mkRequest [] st t)) (prune (announces f1) p)); [|done].
    intros q. simpl. by rewrite at_prune.
  - simpl. rewrite Hr1. apply dom_insert_lookup_L. by eexists.
  - done.
Qed.

Lemma expireRequests_inv now l f :
  Inv f -> exists f', go_foldl (expireRequest now) f l = Ret f' /\ Inv f' /\
    dom (requests f') = dom (requests f) /\ sameWait f f'.
Proof.
  revert f. induction l as [|p l IH]; intros f HI; cbn [go_foldl]; [by exists f|].
  destruct (expireRequest_inv now f p HI) as (f1 & -> & HI1 & Hd1 & Hw1).
  destruct (IH f1 HI1) as (f' & -> & HI' & Hd' & Hw'). exists f'.
  split_and!; [done|done|congruence|by eapply sameWait_trans].
Qed.

(** ** Lemmas: deliveries *)

(** A delivered hash taken out of every tracker, the request that fetches it told. *)
Definition forget (f : fetcher) (h : hash) : fetcher :=
  match waitlist f !! h with
  | Some _ => setWait f (delete h (waitlist f)) (delete h (waittime f)) (purge (waitslots f) h)
  | None =>
      let re := match fetching f !! h with
                | Some o => match requests f !! o with
                            | Some r => <[o := mkRequest (hashes r) (stolen r ∪ {[h]}) (time r)]> (requests f)
                            | None => requests f
                            end
                | None => requests f
                end in
      setFetch (setQueue f (purge (announces f) h) (delete h (announced f)))
        (delete h (fetching f)) re (delete h (alternates f))
  end.

(** No tracker has the hash. *)
Definition untracked (f : fetcher) (h : hash) : Prop :=
  waitlist f !! h = None /\ waittime f !! h = None /\ announced f !! h = None /\
  alternates f !! h = None /\ fetching f !! h = None /\
  (forall p, h ∉ at_ (waitslots f) p) /\ (forall p, h ∉ at_ (announces f) p).

Lemma forget_inv f h : Inv f -> Inv (forget f h).
Proof.
  intros [Hw Ht Hwq Hqf Halt Hann Hf Hr Hs]. unfold forget. destruct (waitlist f !! h) as [s|] eqn:Ew.
  { split; simpl; try done.
    - intros h' p. autorewrite with setmap. pose proof (Hw h' p). case_decide; subst; set_solver.
    - intros h'. rewrite !lookup_delete. case_decide; [split; by intros [? ?]|done].
    - intros h'. rewrite lookup_delete. case_decide; [by intros [? ?]|auto]. }
  set (re := match fetching f !! h with Some _ => _ | None => _ end).
  assert (forall p r', re !! p = Some r' -> exists r, requests f !! p = Some r /\ hashes r' = hashes r /\
    (stolen r' = stolen r \/ stolen r' = stolen r ∪ {[h]}) /\ (fetching f !! h = Some p -> h ∈ stolen r')) as Hre.
  { intros p r' Hp. unfold re in Hp. destruct (fetching f !! h) as [o|] eqn:Eo; [|by exists r'; split_and!; auto].
    destruct (requests f !! o) as [r|] eqn:Er.
    - apply lookup_insert_Some in Hp as [[<- <-]|[Hne Hp]].
      + exists r. simpl. split_and!; auto. set_solver.
      + exists r'. split_and!; auto. congruence.
    - exists r'. split_and!; auto. intros [= ->]. congruence. }
  assert (forall p r, requests f !! p = Some r -> exists r', re !! p = Some r' /\ hashes r' = hashes r /\
    stolen r' ⊆ stolen r ∪ {[h]}) as Hre'.
  { intros p r Hp. unfold re. destruct (fetching f !! h) as [o|]; [|exists r; split_and!; auto; set_solver].
    destruct (requests f !! o) as [r0|] eqn:Er; [|exists r; split_and!; auto; set_solver].
    rewrite lookup_insert. case_decide as Hd; [subst; rewrite Er in Hp; injection Hp as ->|]; eexists;
      split_and!; auto; set_solver. }
  split; simpl; try done.
  - intros h' Hh'. destruct (Hwq h' Hh'). assert (h <> h') by (intros ->; rewrite Ew in Hh'; by destruct Hh').
    by rewrite !lookup_delete_ne.
  - intros h'. rewrite !lookup_delete. case_decide; [by intros [? ?]|auto].
  - intros h'. rewrite !lookup_delete. case_decide; [split; by intros [? ?]|done].
  - intros h' p. autorewrite with setmap. pose proof (Hann h' p). case_decide; subst; set_solver.
  - intros h' p. rewrite lookup_delete. case_decide as Hd; [done|]. intros Hp.
    destruct (Hf h' p Hp) as (Hin & r & Hreq & Hh & Hns). rewrite at_delete, decide_False by done. split; [done|].
    destruct (Hre' p r Hreq) as (r' & Hr' & Hhs & Hst). exists r'. rewrite Hhs. split_and!; [done|done|set_solver].
  - intros p r' h' Hp Hh Hns. destruct (Hre p r' Hp) as (r & Hreq & Hhs & Hst & Hown). rewrite Hhs in Hh.
    assert (fetching f !! h' = Some p) as Hfp by (apply (Hr p r); [done|done|set_solver]).
    rewrite lookup_delete_ne; [done|]. intros ->. auto.
  - intros p r' Hp. destruct (Hre p r' Hp) as (r & Hreq & -> & _). by apply (Hs p).
Qed.

Lemma forget_untracks f h : Inv f -> untracked (forget f h) h.
Proof.
  intros [Hw Ht Hwq Hqf Halt Hann Hf Hr Hs]. unfold forget, untracked.
  destruct (waitlist f !! h) as [s|] eqn:Ew; simpl.
  - destruct (Hwq h) as [Hq Ha]; [by eexists|].
    assert (fetching f !! h = None) as Hfe.
    { apply eq_None_not_Some. rewrite <- Halt, Ha. by intros [? ?]. }
    rewrite !lookup_delete_eq. split_and!; try done.
    + intros p. rewrite at_purge. set_solver.
    + intros p Hp. destruct (Hann h p Hp) as [Hx|Hx]; [rewrite (at_None _ _ Hq) in Hx|rewrite (at_None _ _ Ha) in Hx]; set_solver.
  - rewrite !lookup_delete_eq. split_and!; try done.
    + apply eq_None_not_Some. rewrite Ht, Ew. by intros [? ?].
    + intros p. rewrite Hw, (at_None _ _ Ew). set_solver.
    + intros p. rewrite at_purge. set_solver.
Qed.

Lemma forget_keeps_untracked f h x : untracked f x -> untracked (forget f h) x.
Proof.
  intros (H1 & H2 & H3 & H4 & H5 & H6 & H7). unfold forget, untracked.
  destruct (waitlist f !! h); simpl; rewrite ?lookup_delete; repeat case_decide; split_and!; try done;
    intros p; rewrite at_purge; set_solver.
Qed.

Lemma forgets_inv hs f : Inv f -> Inv (foldl forget f hs) /\ forall h, h ∈ hs -> untracked (foldl forget f hs) h.
Proof.
  revert f. induction hs as [|h hs IH]; intros f HI; cbn [foldl].
  { split; [done|]. intros h Hh. by apply not_elem_of_nil in Hh. }
  destruct (IH (forget f h) (forget_inv f h HI)) as [HI' Hun]. split; [done|].
  intros x [->|Hx]%elem_of_cons; [|by apply Hun].
  pose proof (forget_untracks f h HI) as Hh. clear -Hh. revert Hh. generalize (forget f h) as g.
  induction hs as [|y hs IH]; intros g Hg; cbn [foldl]; [done|]. by apply IH, forget_keeps_untracked.
Qed.

(** [f] with the hashes [E] marked as stolen from the request of [p]. *)
Definition steal (f : fetcher) (p : string) (E : gset hash) : fetcher :=
  match requests f !! p with
  | Some r => withReq f p (mkRequest (hashes r) (stolen r ∪ E) (time r))
  | None => f
  end.

Lemma steal_empty f p : steal f p ∅ = f.
Proof.
  unfold steal. destruct (requests f !! p) as [[hs st t]|] eqn:Hr; [|done]. simpl.
  rewrite union_empty_r_L. by apply withReq_id.
Qed.

(** Handling a delivered hash is forgetting it, except that a direct delivery is not
    marked as stolen from its own origin. *)
Lemma cleanHash_forget origin direct f h E :
  Inv (steal f origin E) ->
  exists f' E', cleanHash origin direct f h = Ret f' /\ forget (steal f origin E) h = steal f' origin E' /\
    E' ⊆ E ∪ {[h]} /\ (direct = false -> E' = E).
Proof.
  intros HI. unfold cleanHash. unfold steal in HI |- *.
  destruct (waitlist f !! h) as [s|] eqn:Ew.
  { eexists _, E. split; [done|]. split_and!; [|set_solver|done].
    unfold forget. simpl. destruct (requests f !! origin); simpl; by rewrite Ew. }
  destruct (fetching f !! h) as [o|] eqn:Eo; cbn [setQueue fetching]; rewrite Eo.
  2: { eexists _, E. split; [done|]. split_and!; [|set_solver|done].
       unfold forget. simpl. destruct (requests f !! origin); simpl; by rewrite Ew, Eo. }
  destruct (decide (o = origin)) as [->|Hne].
  - destruct (requests f !! origin) as [r|] eqn:Er.
    2: { destruct (i_fetch _ HI h origin Eo) as (_ & r & Hr & _). congruence. }
    rewrite bool_decide_eq_false_2 by tauto. destruct direct; simpl.
    + eexists _, (E ∪ {[h]}). split; [done|]. split_and!; [|set_solver|done].
      unfold forget. simpl. rewrite Ew, Eo, lookup_insert_eq. cbn [hashes stolen time requests setFetch].
      rewrite Er. unfold withReq, setFetch, setQueue. simpl. rewrite insert_insert_eq.
      by rewrite (assoc_L (∪)).
    + rewrite Er. eexists _, E. split; [done|]. split_and!; [|set_solver|done].
      unfold forget. simpl. rewrite Ew, Eo, lookup_insert_eq. cbn [hashes stolen time requests setFetch].
      rewrite lookup_insert_eq. unfold withReq, setFetch, setQueue. simpl. rewrite !insert_insert_eq.
      replace (stolen r ∪ E ∪ {[h]}) with (stolen r ∪ {[h]} ∪ E) by set_solver. done.
  - rewrite bool_decide_eq_true_2 by done. simpl.
    assert (exists r, requests f !! o = Some r) as [r Hr].
    { destruct (requests f !! origin) as [r0|] eqn:Er.
      - destruct (i_fetch _ HI h o Eo) as (_ & r & Hr & _). simpl in Hr.
        rewrite lookup_insert_ne in Hr by done. by exists r.
      - destruct (i_fetch _ HI h o Eo) as (_ & r & Hr & _). by exists r. }
    rewrite Hr. eexists _, E. split; [done|]. split_and!; [|set_solver|done].
    unfold forget. cbn [requests setFetch]. rewrite (lookup_insert_ne _ o) by done.
    destruct (requests f !! origin) as [r0|] eqn:Er; simpl; rewrite Ew, Eo.
    + rewrite lookup_insert_ne by done. rewrite Hr. unfold withReq, setFetch, setQueue. simpl.
      by rewrite insert_insert_ne by done.
    + rewrite Hr. done.
Qed.

Lemma cleanHashes_forget origin direct hs f E :
  Inv (steal f origin E) ->
  exists f' E', go_foldl (cleanHash origin direct) f hs = Ret f' /\
    foldl forget (steal f origin E) hs = steal f' origin E' /\
    E' ⊆ E ∪ list_to_set hs /\ (direct = false -> E' = E).
Proof.
  revert f E. induction hs as [|h hs IH]; intros f E HI; cbn [go_foldl foldl].
  { exists f, E. split_and!; try done. set_solver. }
  destruct (cleanHash_forget origin direct f h E HI) as (f1 & E1 & -> & Hf1 & Hsub & Hd).
  pose proof (forget_inv _ h HI) as HI1. rewrite Hf1 in *.
  destruct (IH f1 E1 HI1) as (f' & E' & -> & Hf' & Hsub' & Hd'). exists f', E'.
  split_and!; [done|done| |].
  - rewrite list_to_set_cons. clear -Hsub Hsub'. set_solver.
  - intros Hdir. rewrite Hd', Hd by done. done.
Qed.

(** ** Lemmas: answered requests *)

Lemma delete_delFrom (m : gmap hash (gset string)) h x : delete h (delFrom m h x) = delete h m.
Proof. unfold delFrom. destruct (m !! h); [by rewrite delete_insert_eq|done]. Qed.

(** The delivered hashes are in no retrieval. *)
Definition landed (f : fetcher) (delivered : gset hash) : Prop :=
  forall x, x ∈ delivered -> fetching f !! x = None /\ alternates f !! x = None.

Lemma settleHash_inv f p h rest st E t i cut delivered :
  Inv (withReq f p (mkRequest (h :: rest) (st ∪ E) t)) -> E ⊆ delivered -> landed f delivered ->
  exists f', settleHash p delivered st cut (i, f) h = Ret (S i, f') /\
    Inv (withReq f' p (mkRequest rest (st ∪ E) t)) /\ requests f' = requests f /\ sameWait f f' /\
    landed f' delivered.
Proof.
  intros HI HE Hland. unfold settleHash. case_decide as Hst.
  { exists f. split_and!; try done. eapply skip_inv; [done|]. by apply elem_of_union_l. }
  case_decide as Hdel.
  { destruct (Hland h Hdel) as [Hf Ha]. rewrite !delete_id by done.
    exists f. split; [by destruct f|]. split_and!; try done. eapply skip_inv; [done|].
    destruct (decide (h ∈ st ∪ E)) as [|Hn]; [done|].
    destruct (pending_lookup f p h rest (st ∪ E) t HI Hn) as [_ [s Hs]]. congruence. }
  assert (h ∉ st ∪ E) as Hns by (clear -HE Hst Hdel; set_solver).
  destruct (pending_lookup f p h rest (st ∪ E) t HI Hns) as [Hq [s Hs]].
  set (f1 := if decide (i < cut)%nat then _ else f).
  assert (exists an al, f1 = setFetch (setQueue f an (announced f)) (fetching f) (requests f) al /\
    delete h al = delete h (alternates f) /\
    (forall q x, x ∈ at_ an q -> x ∈ at_ (announces f) q) /\
    (forall q, h ∈ at_ an q -> q ∈ at_ (alternates f) h -> q ∈ at_ al h)) as (an & al & Ef1 & Hal & Han & Hkeep).
  { unfold f1. case_decide.
    - do 2 eexists. split; [done|]. rewrite delete_delFrom. split_and!; [done|..].
      + intros q x. autorewrite with setmap. clear. case_decide; set_solver.
      + intros q. autorewrite with setmap. clear. repeat case_decide; set_solver.
    - exists (announces f), (alternates f). split; [by destruct f|]. done. }
  rewrite Ef1. cbn [alternates announced setFetch setQueue]. rewrite Hq.
  assert (forall an' ad', (forall h', h' <> h -> ad' !! h' = announced f !! h') ->
    (forall q x, x ∈ at_ an' q -> x ∈ at_ (announces f) q) ->
    (forall q, h ∈ at_ an' q -> q ∈ at_ (alternates f) h -> q ∈ at_ ad' h) ->
    exists f', setFetch (setQueue f an' ad') (delete h (fetching f)) (requests f) (delete h (alternates f)) = f' /\
      Inv (withReq f' p (mkRequest rest (st ∪ E) t)) /\ requests f' = requests f /\ sameWait f f' /\
      landed f' delivered) as Hrel.
  { intros an' ad' H1 H2 H3. eexists. split; [done|].
    split; [by apply release_inv|]. split_and!; try done.
    intros x Hx. destruct (Hland x Hx). simpl. rewrite !lookup_delete. by case_decide. }
  case_decide as Hempty.
  - destruct (Hrel an (announced f)) as (f' & Ef' & Hrest); [done|done| |].
    { intros q Hh Hq'. specialize (Hkeep q Hh Hq'). rewrite Hempty in Hkeep. clear -Hkeep. set_solver. }
    exists f'. split; [|done]. rewrite <- Ef', <- Hal. done.
  - destruct (Hrel an (<[h := at_ al h]> (announced f))) as (f' & Ef' & Hrest).
    { intros h' Hne. by rewrite lookup_insert_ne. }
    { done. }
    { intros q Hh Hq'. rewrite at_insert, decide_True by done. by apply Hkeep. }
    exists f'. split; [|done]. rewrite <- Ef', <- Hal. done.
Qed.

Lemma settleHashes_inv p st E t cut delivered hs f i :
  Inv (withReq f p (mkRequest hs (st ∪ E) t)) -> E ⊆ delivered -> landed f delivered ->
  exists i' f', go_foldl (settleHash p delivered st cut) (i, f) hs = Ret (i', f') /\
    Inv (withReq f' p (mkRequest [] (st ∪ E) t)) /\ requests f' = requests f /\ sameWait f f'.
Proof.
  intros HI HE Hland. revert f i HI Hland.
  induction hs as [|h hs IH]; intros f i HI Hland; cbn [go_foldl]; [by exists i, f|].
  destruct (settleHash_inv f p h hs st E t i cut delivered HI HE Hland) as (f1 & -> & HI1 & Hr1 & Hw1 & Hl1).
  destruct (IH f1 (S i) HI1 Hl1) as (i' & f' & -> & HI' & Hr' & Hw'). exists i', f'.
  split_and!; [done|done|congruence|by eapply sameWait_trans].
Qed.

(** ** Lemmas: disconnected peers *)

Definition withSlots (f : fetcher) (p : string) (R : gset hash) : fetcher :=
  setWait f (waitlist f) (waittime f) (<[p := R]> (waitslots f)).

Lemma dropWaiting_inv f p h R :
  Inv (withSlots f p ({[h]} ∪ R)) -> h ∉ R -> Inv (withSlots (dropWaiting p f h) p R).
Proof.
  intros [Hw Ht Hwq Hqf Halt Hann Hf Hr Hs] Hh. unfold dropWaiting. simpl in *.
  assert (forall h' q, h' ∈ at_ (<[p := R]> (waitslots f)) q <-> q ∈ at_ (delFrom (waitlist f) h p) h') as Hwait.
  { intros h' q. specialize (Hw h' q). autorewrite with setmap in *. clear -Hw Hh.
    repeat case_decide; subst; set_solver. }
  assert (forall h', is_Some (delFrom (waitlist f) h p !! h') <-> is_Some (waitlist f !! h')) as Hdom.
  { intros h'. unfold delFrom. destruct (waitlist f !! h) eqn:E; [|done]. rewrite lookup_insert.
    case_decide; [subst; rewrite E; split; by eexists|done]. }
  case_decide as Hempty; split; simpl; try done.
  - intros h' q. rewrite Hwait. autorewrite with setmap. case_decide; [|done]. subst.
    autorewrite with setmap in Hempty. rewrite decide_True in * by done. clear -Hempty. set_solver.
  - intros h'. rewrite !lookup_delete. case_decide; [split; by intros [? ?]|]. by rewrite Hdom, Ht.
  - intros h'. rewrite lookup_delete. case_decide; [by intros [? ?]|]. rewrite Hdom. apply Hwq.
  - intros h'. by rewrite Hdom.
  - intros h'. rewrite Hdom. apply Hwq.
Qed.

Lemma dropWaitings_inv f p l :
  Inv (withSlots f p (list_to_set l)) -> NoDup l ->
  let f' := foldl (dropWaiting p) f l in
  Inv (withSlots f' p ∅) /\ waitslots f' = waitslots f /\ sameFetch f f' /\ announces f' = announces f.
Proof.
  revert f. induction l as [|h l IH]; intros f HI Hnd; cbn [foldl]; [done|].
  apply NoDup_cons in Hnd as [Hh Hnd].
  assert (Inv (withSlots (dropWaiting p f h) p (list_to_set l))) as HI1.
  { apply dropWaiting_inv; [done|]. by rewrite elem_of_list_to_set. }
  destruct (IH _ HI1 Hnd) as (H1 & H2 & H3 & H4). split_and!; [done|..].
  - rewrite H2. unfold dropWaiting. by case_decide.
  - unfold sameFetch in *. destruct H3 as (-> & -> & -> & -> & ->). unfold dropWaiting. by case_decide.
  - rewrite H4. unfold dropWaiting. by case_decide.
Qed.

(** [f] without the announcements of [p]. *)
Definition without (f : fetcher) (p : string) : fetcher :=
  setQueue f (delete p (announces f)) (announced f).

Lemma dropFetching_inv f p h rest st t :
  Inv (withReq (without f p) p (mkRequest (h :: rest) st t)) ->
  Inv (withReq (without (dropFetching p st f h) p) p (mkRequest rest st t)).
Proof.
  intros HI. unfold dropFetching. case_decide as Hst; [by eapply skip_inv|].
  destruct (pending_lookup _ p h rest st t HI Hst) as [Hq [s Hs]]. simpl in Hq, Hs.
  rewrite delete_delFrom. set (ad := if decide _ then _ else _).
  apply (release_inv (without f p) p h rest st t (delete p (announces f)) ad HI Hst); simpl.
  - intros h' Hne. unfold ad. case_decide; [done|]. by rewrite lookup_insert_ne.
  - done.
  - intros q. unfold ad. rewrite at_delete. case_decide as Hd; [clear; set_solver|].
    intros _ Hqa. assert (q ∈ at_ (delFrom (alternates f) h p) h) as Hin.
    { rewrite at_delFrom, decide_True by done. clear -Hqa Hd. set_solver. }
    case_decide as He; [rewrite He in Hin; clear -Hin; set_solver|].
    rewrite at_insert, decide_True by done. done.
Qed.

Lemma dropFetchings_inv f p hs st t :
  Inv (withReq (without f p) p (mkRequest hs st t)) ->
  let f' := foldl (dropFetching p st) f hs in
  Inv (withReq (without f' p) p (mkRequest [] st t)) /\ requests f' = requests f /\
  announces f' = announces f /\ sameWait f f'.
Proof.
  revert f. induction hs as [|h hs IH]; intros f HI; cbn [foldl]; [done|].
  destruct (IH _ (dropFetching_inv f p h hs st t HI)) as (H1 & H2 & H3 & H4). split_and!; [done|..].
  - rewrite H2. unfold dropFetching. by case_decide.
  - rewrite H3. unfold dropFetching. by case_decide.
  - eapply sameWait_trans; [|done]. unfold dropFetching. by case_decide.
Qed.

Lemma dropAnnounced_inv f p h : Inv (without f p) -> Inv (without (dropAnnounced p f h) p).
Proof.
  intros [Hw Ht Hwq Hqf Halt Hann Hf Hr Hs]. unfold dropAnnounced. simpl in *.
  assert (forall h', is_Some (prune (delFrom (announced f) h p) h !! h') -> is_Some (announced f !! h')) as Hsome.
  { intros h'. destruct (decide (h = h')) as [<-|Hne]; [|by rewrite prune_lookup_ne, delFrom_lookup_ne].
    unfold prune, delFrom. destruct (announced f !! h) eqn:E; [by eexists|].
    case_decide; [|by rewrite E]. rewrite lookup_delete_eq. by intros [? ?]. }
  split; simpl; try done.
  - intros h' Hh'. destruct (Hwq h' Hh') as [H1 H2]. split; [|done].
    apply eq_None_not_Some. intros Hx%Hsome. rewrite H1 in Hx. by destruct Hx.
  - intros h' Hx%Hsome. auto.
  - intros h' q Hq. destruct (Hann h' q Hq) as [Hx|Hx]; [left|by right]. autorewrite with setmap in *.
    clear -Hx Hq. repeat case_decide; subst; set_solver.
Qed.

Lemma dropAnnounceds_inv f p l :
  Inv (without f p) -> let f' := foldl (dropAnnounced p) f l in
  Inv (without f' p) /\ announces f' = announces f /\ requests f' = requests f /\ fetching f' = fetching f /\
  sameWait f f'.
Proof.
  revert f. induction l as [|h l IH]; intros f HI; cbn [foldl]; [done|].
  destruct (IH _ (dropAnnounced_inv f p h HI)) as (H1 & H2 & H3 & H4 & H5). split_and!; done.
Qed.

End FetcherInv.
