(* ===== verification/TxFetcherProps.v ===== *)
(** * Properties of the transaction fetcher (src/eth/fetcher/tx_fetcher.go)

    The event loop as a step relation, the invariant over all its runs, what
    deliveries, requests and disconnections guarantee, and two places where the code
    does not do what its comments say. *)

From stdpp Require Import base tactics list gmap fin_maps strings.
From Stdlib Require Import ZArith Lia.
From S2P Require Import Prelude Types TxFetcher TxFetcherInv.

Open Scope Z_scope.
Open Scope go_scope.

Import TxFetcher FetcherInv.

Module FetcherLoop.

(** ** The loop as a step relation *)

Inductive event :=
| Notify (origin : string) (hs : list hash)
| WaitTrigger
| TimeoutTrigger
| Delivery (origin : string) (hs : list hash) (direct : bool)
| DropPeer (peer : string).

(** One iteration of the loop; the clock is read per hash, per request and per peer. *)
Definition handle `{RangeOrder} (nowH : hash -> Z) (nowR clock : string -> Z) (f : fetcher) (ev : event)
    : go (fetcher * list command) :=
  match ev with
  | Notify origin hs => onNotify f origin hs nowH clock
  | WaitTrigger => onWaitTrigger f nowH clock
  | TimeoutTrigger => onTimeoutTrigger f nowR clock
  | Delivery origin hs direct => onCleanup f origin hs direct clock
  | DropPeer peer => onDrop f peer clock
  end.

(** The map orders and the clock may differ in every iteration. *)
Inductive reach : fetcher -> Prop :=
| reach_new : reach NewTxFetcher
| reach_step (O : RangeOrder) nowH nowR clock f ev f' cmds :
    reach f -> handle nowH nowR clock f ev = Ret (f', cmds) -> reach f'.

(** ** Lemmas: the handlers *)

Lemma capAnnounce_Ret f origin hs : exists kept, capAnnounce f origin hs = Ret kept.
Proof.
  unfold capAnnounce. set (used := _ + _).
  destruct (Z.leb_spec maxTxAnnounces used); [by eexists|].
  destruct (Z.ltb_spec maxTxAnnounces (used + Z.of_nat (length hs))); [|by eexists].
  rewrite go_slice_Ret by lia. by eexists.
Qed.

Lemma notifyHashes_inv origin now hs f :
  Inv f -> let f' := foldl (notifyHash origin now) f hs in
  Inv f' /\ requests f' = requests f /\ waitArmed f' = waitArmed f /\ timeoutArmed f' = timeoutArmed f.
Proof.
  revert f. induction hs as [|h hs IH]; intros f HI; cbn [foldl]; [done|].
  destruct (IH _ (notifyHash_inv origin now f h HI)) as (H1 & H2 & H3 & H4).
  split_and!; [done|rewrite H2|rewrite H3|rewrite H4]; unfold notifyHash; by repeat case_match.
Qed.

Lemma onNotify_good `{RangeOrder} f origin hs now clock :
  Inv f -> Timers f -> exists f' cmds, onNotify f origin hs now clock = Ret (f', cmds) /\ Inv f' /\ Timers f'.
Proof.
  intros HI [Hw Ht]. unfold onNotify. destruct (capAnnounce_Ret f origin hs) as [[kept|] ->]; [|by exists f, []]. cbv zeta.
  destruct (notifyHashes_inv origin now kept f HI) as (HI1 & Hr1 & Hw1 & Ht1).
  set (f1 := foldl _ f kept) in *. set (f2 := if bool_decide (waittime f = ∅) && negb (bool_decide (waittime f1 = ∅)) then rescheduleWait f1 else f1).
  assert (Inv f2 /\ Timers f2) as [HI2 [Hw2 Ht2]].
  { unfold f2. rewrite <- Hr1, <- Ht1 in Ht. destruct (bool_decide (waittime f = ∅)) eqn:E1; cbn [andb];
      [apply bool_decide_eq_true in E1|apply bool_decide_eq_false in E1].
    - destruct (bool_decide (waittime f1 = ∅)) eqn:E2; cbn [negb];
        [apply bool_decide_eq_true in E2|apply bool_decide_eq_false in E2]; (split; [by try apply Inv_timers|]).
      + split; done.
      + by split.
    - split; [done|]. split; [|done]. rewrite Hw1. auto. }
  clearbody f2. destruct (negb _ && _); [|exists f2, []; split; [done|]; split; [done|]; by split].
  destruct (scheduleFetches_inv f2 clock (Some {[origin]}) HI2) as (f3 & cmds & -> & HI3 & Hq & Ht3 & _). specialize (Ht3 Ht2).
  exists f3, cmds. split_and!; [done|done|]. destruct Hq as (_ & E1 & _ & _ & E2).
  split; [|done]. rewrite E1, E2. done.
Qed.

Lemma waitHashes_inv `{RangeOrder} now l f act :
  Inv f -> exists f' act', go_foldl (waitHash now) (f, act) l = Ret (f', act') /\ Inv f' /\ sameFetch f f'.
Proof.
  revert f act. induction l as [|h l IH]; intros f act HI; cbn [go_foldl]; [by exists f, act|].
  destruct (waitHash_inv now f act h HI) as (f1 & a1 & -> & HI1 & Hs1).
  destruct (IH f1 a1 HI1) as (f' & a' & -> & HI' & Hs'). exists f', a'. split_and!; [done|done|].
  unfold sameFetch in *. intuition congruence.
Qed.

Lemma onWaitTrigger_good `{RangeOrder} f now clock :
  Inv f -> Timers f -> exists f' cmds, onWaitTrigger f now clock = Ret (f', cmds) /\ Inv f' /\ Timers f'.
Proof.
  intros HI [Hw Ht]. unfold onWaitTrigger. cbv zeta.
  change (waittime (setTimers f false (timeoutArmed f))) with (waittime f).
  destruct (waitHashes_inv now (hashOrder (dom (waittime f))) (setTimers f false (timeoutArmed f)) ∅)
    as (f1 & act & -> & HI1 & (_ & Er & _ & _ & Et)); [by apply Inv_timers|].
  set (f2 := if bool_decide (waittime f1 = ∅) then f1 else rescheduleWait f1).
  assert (Inv f2 /\ Timers f2) as [HI2 [Hw2 Ht2]].
  { simpl in Er, Et. rewrite <- Er, <- Et in Ht. unfold f2. destruct (bool_decide (waittime f1 = ∅)) eqn:E;
      [apply bool_decide_eq_true in E|]; (split; [by try apply Inv_timers|]); by split. }
  case_decide; [exists f2, []; split; [done|]; split; [done|]; by split|].
  destruct (scheduleFetches_inv f2 clock (Some act) HI2) as (f3 & cmds & -> & HI3 & Hq & Ht3 & _). specialize (Ht3 Ht2).
  exists f3, cmds. split_and!; [done|done|]. destruct Hq as (_ & E1 & _ & _ & E2).
  split; [|done]. rewrite E1, E2. done.
Qed.

Lemma dom_empty_requests (f f' : fetcher) :
  dom (requests f') = dom (requests f) -> requests f' <> ∅ -> requests f <> ∅.
Proof. intros Hd Hne He. apply Hne, dom_empty_inv_L. rewrite Hd, He. apply dom_empty_L. Qed.

Lemma onTimeoutTrigger_good `{RangeOrder} f now clock :
  Inv f -> Timers f ->
  exists f' cmds, onTimeoutTrigger f now clock = Ret (f', cmds) /\ Inv f' /\ Timers f'.
Proof.
  intros HI [Hw Ht]. unfold onTimeoutTrigger.
  destruct (expireRequests_inv now (peerOrder (dom (requests f))) (setTimers f (waitArmed f) false))
    as (f2 & E2 & HI2 & Hd2 & (_ & Ew & _ & Ea & _)); [by apply Inv_timers|].
  cbn [requests setTimers] in *. rewrite E2.
  destruct (scheduleFetches_inv f2 clock None HI2) as (f3 & cmds & -> & HI3 & Hq & _ & _).
  exists (rescheduleTimeout f3), cmds. destruct Hq as (_ & E3 & _ & _ & E4).
  split_and!; [done|by apply Inv_timers|]. split; simpl in *; [|done]. rewrite E3, E4, Ew, Ea. done.
Qed.

Lemma forget_timers f h :
  waitArmed (forget f h) = waitArmed f /\ timeoutArmed (forget f h) = timeoutArmed f /\
  (waittime f = ∅ -> waittime (forget f h) = ∅) /\ dom (requests (forget f h)) = dom (requests f).
Proof.
  unfold forget. destruct (waitlist f !! h); simpl.
  - split_and!; try done. intros ->. apply delete_empty.
  - split_and!; try done. destruct (fetching f !! h) as [o|]; [|done].
    destruct (requests f !! o) eqn:E; [|done]. apply dom_insert_lookup_L. by eexists.
Qed.

Lemma forgets_timers hs f :
  waitArmed (foldl forget f hs) = waitArmed f /\ timeoutArmed (foldl forget f hs) = timeoutArmed f /\
  (waittime f = ∅ -> waittime (foldl forget f hs) = ∅) /\
  dom (requests (foldl forget f hs)) = dom (requests f).
Proof.
  revert f. induction hs as [|h hs IH]; intros f; cbn [foldl]; [done|].
  destruct (IH (forget f h)) as (-> & -> & H3 & ->). destruct (forget_timers f h) as (? & ? & ? & ?).
  split_and!; try done. auto.
Qed.

Lemma steal_fields f p E :
  waitArmed (steal f p E) = waitArmed f /\ timeoutArmed (steal f p E) = timeoutArmed f /\
  waittime (steal f p E) = waittime f /\ dom (requests (steal f p E)) = dom (requests f) /\
  fetching (steal f p E) = fetching f /\ alternates (steal f p E) = alternates f /\
  (forall h, untracked (steal f p E) h <-> untracked f h).
Proof.
  unfold steal. destruct (requests f !! p) eqn:Hr; [|done]. split_and!; try done.
  simpl. apply dom_insert_lookup_L. by eexists.
Qed.

(** The state after the loop over the delivered hashes. *)
Lemma cleanHashes_good origin direct hs f :
  Inv f -> Timers f ->
  exists f' E, go_foldl (cleanHash origin direct) f hs = Ret f' /\ Inv (steal f' origin E) /\
    E ⊆ list_to_set hs /\ (direct = false -> E = ∅) /\ Timers f' /\ (forall h, h ∈ hs -> untracked f' h).
Proof.
  intros HI [Hw Ht]. rewrite <- (steal_empty f origin) in HI.
  destruct (cleanHashes_forget origin direct hs f ∅ HI) as (f' & E & -> & Hf' & Hsub & Hd).
  destruct (forgets_inv hs _ HI) as [HI' Hun]. rewrite Hf' in HI', Hun.
  destruct (forgets_timers hs (steal f origin ∅)) as (T1 & T2 & T3 & T4). rewrite Hf' in T1, T2, T3, T4.
  destruct (steal_fields f' origin E) as (S1 & S2 & S3 & S4 & _ & _ & S5).
  rewrite steal_empty in *. rewrite S1 in T1. rewrite S2 in T2. rewrite S3 in T3. rewrite S4 in T4.
  exists f', E. split_and!; [done|done|clear -Hsub; set_solver|done| |].
  - split; [rewrite T1; auto|]. rewrite T2. intros Hne. by apply Ht, (dom_empty_requests f f').
  - intros h Hh. by apply S5, Hun.
Qed.

Lemma onCleanup_good `{RangeOrder} f origin hs direct clock :
  Inv f -> Timers f ->
  exists f' cmds, onCleanup f origin hs direct clock = Ret (f', cmds) /\ Inv f' /\ Timers f'.
Proof.
  intros HI HT. unfold onCleanup.
  destruct (cleanHashes_good origin direct hs f HI HT) as (f1 & E & -> & HI1 & Hsub & Hd & [Hw1 Ht1] & Hun).
  destruct direct.
  2: { rewrite (Hd eq_refl), steal_empty in HI1. by exists f1, []. }
  destruct (requests f1 !! origin) as [[rh st t]|] eqn:Hr.
  2: { unfold steal in HI1. rewrite Hr in HI1. by exists f1, []. }
  set (f2 := setFetch f1 (fetching f1) (delete origin (requests f1)) (alternates f1)).
  cbn [hashes stolen].
  destruct (settleHashes_inv origin st E t (cutoff (list_to_set hs) rh) (list_to_set hs) rh f2 0)
    as (i' & f3 & -> & HI3 & Hr3 & (_ & Ew & _ & Ea & Eb)).
  { unfold steal in HI1. rewrite Hr in HI1. simpl in HI1. unfold withReq, f2, setFetch in *. simpl in *.
    by rewrite insert_delete_eq. }
  { done. }
  { intros x Hx. apply elem_of_list_to_set, Hun in Hx as (_ & _ & _ & ? & ? & _). done. }
  apply Inv_dropEmpty in HI3. assert (Inv f3) as HI3'.
  { rewrite delete_id in HI3; [by destruct f3|]. rewrite Hr3. apply lookup_delete_eq. }
  destruct (scheduleFetches_inv f3 clock None HI3') as (f4 & cmds & -> & HI4 & Hq & Ht4 & _).
  exists f4, cmds. split_and!; [done|done|]. destruct Hq as (_ & E1 & _ & _ & E2). split.
  - rewrite E1, E2, Ew, Ea. done.
  - apply Ht4. rewrite Hr3, Eb. simpl. intros Hne. apply Ht1. intros He. apply Hne. rewrite He. apply delete_empty.
Qed.

(** The three parts of [onDrop]: the wait list, the request, the announcements. *)
Lemma dropWait_good `{RangeOrder} f p :
  Inv f -> Timers f ->
  let f1 := match waitslots f !! p with
    | Some slots =>
        let f := foldl (dropWaiting p) f (hashOrder slots) in
        let f := setWait f (waitlist f) (waittime f) (delete p (waitslots f)) in
        if bool_decide (waitlist f = ∅) then f else rescheduleWait f
    | None => f
    end in
  Inv f1 /\ Timers f1 /\ requests f1 = requests f /\ announces f1 = announces f /\
  at_ (waitslots f1) p = ∅.
Proof.
  intros HI [Hw Ht]. destruct (waitslots f !! p) as [slots|] eqn:Es; cbv zeta.
  2: { split_and!; try done. by apply at_None. }
  destruct (dropWaitings_inv f p (hashOrder slots)) as (HI1 & Hs1 & (Hf1 & Hr1 & Ha1 & Hwa & Hta) & Han).
  { assert (list_to_set (hashOrder slots) = slots) as ->.
    { apply leibniz_equiv. intros h. by rewrite elem_of_list_to_set, hashOrder_elem. }
    unfold withSlots, setWait. rewrite insert_id by done. by destruct f. }
  { rewrite hashOrder_perm. apply NoDup_elements. }
  set (f1 := foldl (dropWaiting p) f (hashOrder slots)) in *.
  set (f2 := setWait f1 (waitlist f1) (waittime f1) (delete p (waitslots f1))).
  assert (Inv f2) as HI2.
  { destruct HI1 as [Iw It Iwq Iqf Ialt Iann If_ Ir Isz]. split; simpl in *; try done.
    intros h q. rewrite <- Iw. by rewrite at_insert, at_delete. }
  assert (waittime f2 = ∅ <-> waitlist f2 = ∅) as Hiff.
  { split; intros He; apply map_empty; intros h; apply eq_None_not_Some; intros Hh;
      apply (i_time _ HI2) in Hh; rewrite He in Hh; by destruct Hh. }
  destruct (bool_decide (waitlist f2 = ∅)) eqn:E;
    [apply bool_decide_eq_true in E|apply bool_decide_eq_false in E].
  - split_and!; [done| |done|done|simpl; rewrite at_delete, decide_True by done; done].
    split; [intros Hne; by apply Hiff in E|]. simpl. rewrite Hr1, Hta. done.
  - split_and!; [by apply Inv_timers| |done|done|simpl; rewrite at_delete, decide_True by done; done].
    split; simpl; [done|]. rewrite Hr1, Hta. done.
Qed.

Lemma without_drop_inv f p : Inv f -> Inv (without f p).
Proof. intros HI. apply Inv_announces; [|done]. intros q. rewrite at_delete. case_decide; set_solver. Qed.

Lemma dropRequest_good f p req :
  Inv f -> requests f !! p = Some req ->
  let f1 := foldl (dropFetching p (stolen req)) f (hashes req) in
  let f2 := setFetch f1 (fetching f1) (delete p (requests f1)) (alternates f1) in
  Inv (without f2 p) /\ sameWait f f2 /\ announces f2 = announces f /\ requests f2 = delete p (requests f).
Proof.
  intros HI Hr f1 f2. destruct req as [rh st t].
  destruct (dropFetchings_inv f p rh st t) as (HI1 & Hr1 & Ha1 & Hw1).
  { rewrite withReq_id by done. by apply without_drop_inv. }
  simpl in f1. fold f1 in HI1, Hr1, Ha1, Hw1. apply Inv_dropEmpty in HI1.
  split_and!; [exact HI1|done|done|]. simpl. by rewrite Hr1.
Qed.

Lemma dropAnnounces_good `{RangeOrder} f p :
  Inv (without f p) ->
  let f1 := match announces f !! p with
    | Some set =>
        let f := foldl (dropAnnounced p) f (hashOrder set) in
        setQueue f (delete p (announces f)) (announced f)
    | None => f
    end in
  Inv f1 /\ sameWait f f1 /\ requests f1 = requests f /\ announces f1 = delete p (announces f) /\
  fetching f1 = fetching f.
Proof.
  intros HI. destruct (announces f !! p) as [set|] eqn:Ea; cbv zeta.
  - destruct (dropAnnounceds_inv f p (hashOrder set) HI) as (HI1 & Ha1 & Hr1 & Hf1 & Hw1).
    split_and!; [exact HI1|done|done|simpl; by rewrite Ha1|done].
  - unfold without in HI. rewrite delete_id in HI by done. split_and!; [by destruct f|done|done|by rewrite delete_id|done].
Qed.

Lemma onDrop_good `{RangeOrder} f p clock :
  Inv f -> Timers f -> exists f' cmds, onDrop f p clock = Ret (f', cmds) /\ Inv f' /\ Timers f'.
Proof.
  intros HI HT. unfold onDrop. cbv zeta. pose proof (dropWait_good f p HI HT) as Hdw. cbv zeta in Hdw.
  set (f1 := match waitslots f !! p with Some _ => _ | None => _ end) in *.
  destruct Hdw as (HI1 & [Hw1 Ht1] & _ & _ & _). destruct (requests f1 !! p) as [req|] eqn:Hr.
  - destruct (dropRequest_good f1 p req HI1 Hr) as (HI2 & (_ & Ew & _ & Ea & Et) & _ & Hr2).
    set (f2 := setFetch _ _ _ _) in *.
    destruct (dropAnnounces_good f2 p HI2) as (HI3 & (_ & Ew3 & _ & Ea3 & Et3) & Hr3 & _ & _). cbv zeta in *.
    set (f3 := match announces f2 !! p with Some _ => _ | None => _ end) in *.
    destruct (scheduleFetches_inv f3 clock None HI3) as (f4 & cmds & -> & HI4 & Hq & _ & _).
    exists (rescheduleTimeout f4), cmds. destruct Hq as (_ & E1 & _ & _ & E2).
    split_and!; [done|by apply Inv_timers|]. split; simpl; [|done]. rewrite E1, E2, Ew3, Ea3, Ew, Ea. done.
  - destruct (dropAnnounces_good f1 p (without_drop_inv _ p HI1)) as (HI3 & (_ & Ew3 & _ & Ea3 & Et3) & Hr3 & _ & _).
    cbv zeta in *. set (f3 := match announces f1 !! p with Some _ => _ | None => _ end) in *.
    exists f3, []. split_and!; [done|done|]. split; [rewrite Ew3, Ea3; done|rewrite Hr3, Et3; done].
Qed.

Lemma handle_good `{RangeOrder} nowH nowR clock f ev :
  Inv f -> Timers f -> exists f' cmds, handle nowH nowR clock f ev = Ret (f', cmds) /\ Inv f' /\ Timers f'.
Proof.
  intros HI HT. destruct ev; simpl.
  - by apply onNotify_good.
  - by apply onWaitTrigger_good.
  - by apply onTimeoutTrigger_good.
  - by apply onCleanup_good.
  - by apply onDrop_good.
Qed.

Lemma Inv_new : Inv NewTxFetcher.
Proof. split; simpl; intros *; rewrite ?lookup_empty; try done; by intros [? ?]. Qed.

Lemma reach_good f : reach f -> Inv f /\ Timers f.
Proof.
  induction 1 as [|O nowH nowR clock f ev f' cmds _ [HI HT] Hh].
  - split; [apply Inv_new|done].
  - destruct (handle_good nowH nowR clock f ev HI HT) as (f1 & c1 & E & HI1 & HT1).
    rewrite E in Hh. by injection Hh as <- <-.
Qed.

(** ** Lemmas: what scheduling touches *)

Lemma allocate_frame f p acc l f' acc' :
  allocate f p acc l = Ret (f', acc') ->
  (forall h, h ∉ l -> fetching f' !! h = fetching f !! h /\ alternates f' !! h = alternates f !! h /\
     announced f' !! h = announced f !! h) /\
  (forall h q, fetching f !! h = Some q -> fetching f' !! h = Some q) /\
  (forall h, h ∈ acc' -> h ∈ acc \/ h ∈ l /\ fetching f !! h = None /\ fetching f' !! h = Some p).
Proof.
  revert f acc. induction l as [|h l IH]; intros f acc; cbn [allocate].
  { intros [= <- <-]. split_and!; [done|done|by left]. }
  destruct (fetching f !! h) as [q|] eqn:Ef.
  { intros E. destruct (IH _ _ E) as (H1 & H2 & H3). split_and!; [|done|].
    - intros x Hx. apply H1. rewrite not_elem_of_cons in Hx. tauto.
    - intros x Hx. destruct (H3 x Hx) as [|(? & ? & ?)]; [by left|right]. split_and!; try done. by right. }
  destruct (alternates f !! h); [done|]. destruct (announced f !! h) as [o|]; [|done].
  set (f1 := setQueue _ _ _).
  assert (forall x, x <> h -> fetching f1 !! x = fetching f !! x /\ alternates f1 !! x = alternates f !! x /\
    announced f1 !! x = announced f !! x) as Hframe.
  { intros x Hx. simpl. rewrite !lookup_insert_ne, lookup_delete_ne by done. done. }
  assert (fetching f1 !! h = Some p) as Hh by (simpl; apply lookup_insert_eq).
  case_decide.
  - intros [= <- <-]. split_and!.
    + intros x Hx. apply Hframe. set_solver.
    + intros x q Hq. destruct (decide (x = h)) as [->|]; [congruence|]. by rewrite (proj1 (Hframe x ltac:(done))).
    + intros x [Hx|Hx]%elem_of_app; [by left|right]. apply list_elem_of_singleton in Hx as ->.
      split_and!; [by left|done|done].
  - intros E. destruct (IH _ _ E) as (H1 & H2 & H3). split_and!.
    + intros x Hx. rewrite not_elem_of_cons in Hx. destruct Hx as [Hne Hx].
      destruct (H1 x Hx) as (-> & -> & ->). by apply Hframe.
    + intros x q Hq. apply H2. destruct (decide (x = h)) as [->|]; [congruence|].
      by rewrite (proj1 (Hframe x ltac:(done))).
    + intros x Hx. destruct (H3 x Hx) as [[Hx'|Hx']%elem_of_app|(Hx1 & Hx2 & Hx3)].
      * by left.
      * right. apply list_elem_of_singleton in Hx' as ->. split_and!; [by left|done|by apply H2].
      * right. destruct (decide (x = h)) as [->|Hne]; [split_and!; [by left|done|done]|].
        rewrite (proj1 (Hframe x Hne)) in Hx2. split_and!; [by right|done|done].
Qed.

(** A retrieval that scheduling starts: for hashes the peer announced and nobody was
    fetching, at least one and at most 256, now fetched from this peer. *)
Definition fair (f f' : fetcher) (c : command) : Prop :=
  let '(p, hs) := c in
  hs <> [] /\ (length hs <= maxTxRetrievals)%nat /\ NoDup hs /\
  requests f !! p = None /\ (exists t, requests f' !! p = Some (mkRequest hs ∅ t)) /\
  forall h, h ∈ hs -> h ∈ at_ (announces f) p /\ fetching f !! h = None /\ fetching f' !! h = Some p.

Definition quiet (f : fetcher) (h : hash) : Prop := forall p, h ∉ at_ (announces f) p.

Lemma schedulePeers_frame `{RangeOrder} now l f cmds f' cmds' :
  Inv f -> go_foldl (schedulePeer now) (f, cmds) l = Ret (f', cmds') ->
  (forall h, quiet f h -> fetching f' !! h = fetching f !! h /\ alternates f' !! h = alternates f !! h /\
     announced f' !! h = announced f !! h) /\
  (forall h q, fetching f !! h = Some q -> fetching f' !! h = Some q) /\
  exists new, cmds' = cmds ++ new /\ Forall (fair f f') new.
Proof.
  revert f cmds. induction l as [|p l IH]; intros f cmds HI; cbn [go_foldl].
  { intros [= <- <-]. split_and!; [done|done|]. exists []. by rewrite app_nil_r. }
  destruct (schedulePeer_inv now f cmds p HI) as (f1 & c1 & E1 & HI1 & Hq1 & _ & Hr1 & Hn1 & _ & _).
  rewrite E1. intros E. destruct (IH f1 c1 HI1 E) as (H1 & H2 & new & -> & Hnew).
  destruct (schedulePeers_inv now l f1 c1 HI1) as (f2 & c2 & E2 & _ & _ & _ & Hr2 & _). rewrite E in E2.
  injection E2 as <- <-. destruct Hq1 as (_ & _ & _ & Ha1 & _).
  assert ((forall h, quiet f h -> fetching f1 !! h = fetching f !! h /\ alternates f1 !! h = alternates f !! h /\
     announced f1 !! h = announced f !! h) /\
    (forall h q, fetching f !! h = Some q -> fetching f1 !! h = Some q) /\
    exists one, c1 = cmds ++ one /\ Forall (fair f f1) one) as (G1 & G2 & one & -> & Hone).
  { clear H1 H2 Hnew Hr2 E. pose proof E1 as E1'. unfold schedulePeer in E1.
    case_decide as Hreq; [injection E1 as <- <-; split_and!; [done|done|exists []; by rewrite app_nil_r]|].
    case_decide; [injection E1 as <- <-; split_and!; [done|done|exists []; by rewrite app_nil_r]|].
    destruct (allocate f p [] _) as [[g acc]|] eqn:Ea; [|done].
    pose proof Ea as Ea'. apply allocate_frame in Ea as (A1 & A2 & A3).
    assert (forall h, h ∈ hashOrder (at_ (announces f) p) <-> h ∈ at_ (announces f) p) as Hord
      by (intros; apply hashOrder_elem).
    destruct acc as [|a acc]; injection E1 as <- <-.
    - split_and!; [|done|exists []; by rewrite app_nil_r]. intros h Hh. apply A1. rewrite Hord. apply Hh.
    - split_and!; [|done|]; [intros h Hh; apply A1; rewrite Hord; apply Hh|].
      eexists. split; [done|]. constructor; [|constructor].
      destruct (i_size _ HI1 p (mkRequest (a :: acc) ∅ (now p))) as [Hl Hnd]; [apply lookup_insert_eq|].
      split_and!; [done|done|done|by apply eq_None_not_Some|eexists; apply lookup_insert_eq|].
      intros h Hh. destruct (A3 h Hh) as [Hx|(Hx & Hx2 & Hx3)]; [by apply not_elem_of_nil in Hx|].
      rewrite Hord in Hx. split_and!; done. }
  split_and!.
  - intros h Hh. destruct (H1 h) as (-> & -> & ->); [|by apply G1]. unfold quiet. by rewrite Ha1.
  - auto.
  - exists (one ++ new). rewrite app_assoc. split; [done|]. apply Forall_app. split.
    + eapply Forall_impl; [exact Hone|]. intros [q hs] (B1 & B2 & B3 & B4 & [t B5] & B6).
      split_and!; try done; [eexists; by apply Hr2|].
      intros h Hh. destruct (B6 h Hh) as (? & ? & ?). split_and!; try done. auto.
    + eapply Forall_impl; [exact Hnew|]. intros [q hs] (B1 & B2 & B3 & B4 & B5 & B6). split_and!; try done.
      * destruct (requests f !! q) eqn:Eq; [|done]. apply Hr1 in Eq. congruence.
      * intros h Hh. destruct (B6 h Hh) as (Hx & Hx2 & Hx3). rewrite Ha1 in Hx. split_and!; try done.
        destruct (fetching f !! h) eqn:Efh; [|done]. apply G2 in Efh. congruence.
Qed.

Lemma scheduleFetches_frame `{RangeOrder} f now wl f' cmds :
  Inv f -> scheduleFetches f now wl = Ret (f', cmds) ->
  (forall h, quiet f h -> fetching f' !! h = fetching f !! h /\ alternates f' !! h = alternates f !! h /\
     announced f' !! h = announced f !! h) /\ Forall (fair f f') cmds.
Proof.
  intros HI. unfold scheduleFetches. case_decide; [intros [= <- <-]; split; [done|constructor]|].
  set (act := peerOrder _). destruct (schedulePeers_inv now act f [] HI) as (f1 & c1 & E1 & _).
  rewrite E1. intros E. injection E as <- <-.
  destruct (schedulePeers_frame now act f [] f1 c1 HI E1) as (H1 & H2 & new & -> & Hnew).
  split; [|eapply Forall_impl; [exact Hnew|]]; destruct (_ && _); try done; by intros [? ?].
Qed.

(** ** Lemmas: deliveries stay untracked *)

Lemma settleHash_untracked p delivered lost cut i f h j f' x :
  settleHash p delivered lost cut (i, f) h = Ret (j, f') -> x ∈ delivered -> untracked f x -> untracked f' x.
Proof.
  intros E Hx Hun. unfold settleHash in E. case_decide; [by injection E as <- <-|].
  assert (forall g, untracked g x -> untracked (setFetch g (delete h (fetching g)) (requests g) (delete h (alternates g))) x) as Hdel.
  { intros g (H1 & H2 & H3 & H4 & H5 & H6 & H7). unfold untracked; simpl. rewrite !lookup_delete.
    repeat case_decide; split_and!; done. }
  case_decide as Hd; [injection E as <- <-; by apply Hdel|].
  set (f1 := if decide (i < cut)%nat then _ else f) in E.
  assert (untracked f1 x) as Hun1.
  { unfold f1. clear E. destruct (decide (i < cut)%nat); [|done]. destruct Hun as (H1 & H2 & H3 & H4 & H5 & H6 & H7). unfold untracked; simpl.
    rewrite delFrom_lookup_ne by (intros ->; done). split_and!; try done.
    intros q. rewrite at_prune, at_delFrom. case_decide; set_solver. }
  case_decide; [injection E as <- <-; by apply Hdel|]. destruct (announced f1 !! h); [done|].
  injection E as <- <-. apply (Hdel (setQueue f1 (announces f1) (<[h:=at_ (alternates f1) h]> (announced f1)))).
  destruct Hun1 as (H1 & H2 & H3 & H4 & H5 & H6 & H7). unfold untracked; simpl.
  rewrite lookup_insert_ne by (intros ->; done). split_and!; done.
Qed.

Lemma settleHashes_untracked p delivered lost cut hs i f j f' x :
  go_foldl (settleHash p delivered lost cut) (i, f) hs = Ret (j, f') ->
  x ∈ delivered -> untracked f x -> untracked f' x.
Proof.
  revert i f. induction hs as [|h hs IH]; intros i f; cbn [go_foldl]; [by intros [= <- <-]|].
  destruct (settleHash p delivered lost cut (i, f) h) as [[i1 f1]|] eqn:E; [|done].
  intros Hf Hx Hun. eapply (IH i1 f1); [done|done|]. by eapply settleHash_untracked.
Qed.

Lemma scheduleFetches_untracked `{RangeOrder} f now wl f' cmds x :
  Inv f -> scheduleFetches f now wl = Ret (f', cmds) -> untracked f x -> untracked f' x.
Proof.
  intros HI E (H1 & H2 & H3 & H4 & H5 & H6 & H7).
  destruct (scheduleFetches_frame f now wl f' cmds HI E) as [Hfr _].
  destruct (scheduleFetches_inv f now wl HI) as (f2 & c2 & E2 & _ & (Q1 & Q2 & Q3 & Q4 & _) & _).
  rewrite E in E2. injection E2 as <- <-. destruct (Hfr x H7) as (G1 & G2 & G3).
  unfold untracked. rewrite Q1, Q2, Q3, Q4, G1, G2, G3. done.
Qed.

Lemma onCleanup_untracks `{RangeOrder} f origin hs direct clock f' cmds :
  Inv f -> Timers f -> onCleanup f origin hs direct clock = Ret (f', cmds) ->
  forall x, x ∈ hs -> untracked f' x.
Proof.
  intros HI HT E x Hx. unfold onCleanup in E.
  destruct (cleanHashes_good origin direct hs f HI HT) as (f1 & E1 & Hc & HI1 & Hsub & Hd & _ & Hun).
  rewrite Hc in E. destruct direct; [|injection E as <- <-; auto].
  destruct (requests f1 !! origin) as [[rh st t]|] eqn:Hr; [|injection E as <- <-; auto].
  set (f2 := setFetch f1 (fetching f1) (delete origin (requests f1)) (alternates f1)) in *.
  cbn [hashes stolen] in E.
  destruct (settleHashes_inv origin st E1 t (cutoff (list_to_set hs) rh) (list_to_set hs) rh f2 0)
    as (i' & f3 & Hs & HI3 & Hr3 & _).
  { unfold steal in HI1. rewrite Hr in HI1. simpl in HI1. unfold withReq, f2, setFetch in *. simpl in *.
    by rewrite insert_delete_eq. }
  { done. }
  { intros y Hy. apply elem_of_list_to_set, Hun in Hy as (_ & _ & _ & ? & ? & _). done. }
  rewrite Hs in E. apply Inv_dropEmpty in HI3. assert (Inv f3) as HI3'.
  { rewrite delete_id in HI3; [by destruct f3|]. rewrite Hr3. apply lookup_delete_eq. }
  apply (scheduleFetches_untracked f3 clock None f' cmds x HI3' E).
  eapply settleHashes_untracked; [exact Hs|by apply elem_of_list_to_set|]. by apply Hun.
Qed.

(** ** Lemmas: a dropped peer *)

Lemma schedulePeers_silent `{RangeOrder} now l f cmds f' cmds' p :
  Inv f -> at_ (announces f) p = ∅ -> go_foldl (schedulePeer now) (f, cmds) l = Ret (f', cmds') ->
  requests f' !! p = requests f !! p.
Proof.
  revert f cmds. induction l as [|q l IH]; intros f cmds HI Hp; cbn [go_foldl]; [by intros [= <- <-]|].
  destruct (schedulePeer_inv now f cmds q HI) as (f1 & c1 & E1 & HI1 & (_ & _ & _ & Ha1 & _) & _ & _ & Hn1 & _).
  rewrite E1. intros E. rewrite (IH f1 c1 HI1) by (by rewrite ?Ha1).
  destruct (decide (p = q)) as [<-|Hne]; [|by apply Hn1]. unfold schedulePeer in E1.
  case_decide; [by injection E1 as <- <-|]. rewrite decide_True in E1 by done. by injection E1 as <- <-.
Qed.

Lemma scheduleFetches_silent `{RangeOrder} f now wl f' cmds p :
  Inv f -> at_ (announces f) p = ∅ -> scheduleFetches f now wl = Ret (f', cmds) ->
  requests f' !! p = requests f !! p.
Proof.
  intros HI Hp. unfold scheduleFetches. case_decide; [by intros [= <- <-]|]. set (act := peerOrder _).
  destruct (go_foldl _ _ act) as [[f1 c1]|] eqn:E; [|done]. intros E'. injection E' as <- <-.
  apply schedulePeers_silent with (p := p) in E; [|done|done]. by destruct (_ && _).
Qed.

(** The peer [p] waits for nothing, has announced nothing and is asked for nothing. *)
Definition gone (f : fetcher) (p : string) : Prop :=
  (forall h, p ∉ at_ (waitlist f) h) /\ at_ (waitslots f) p = ∅ /\ at_ (announces f) p = ∅ /\
  requests f !! p = None /\ (forall h, fetching f !! h <> Some p).

Lemma gone_intro f p :
  Inv f -> at_ (waitslots f) p = ∅ -> at_ (announces f) p = ∅ -> requests f !! p = None -> gone f p.
Proof.
  intros HI Hs Ha Hr. split_and!; try done.
  - intros h Hh. apply (i_wait _ HI) in Hh. set_solver.
  - intros h Hh. apply (i_fetch _ HI) in Hh as (_ & r & Hr' & _). congruence.
Qed.

Lemma onDrop_gone `{RangeOrder} f p clock f' cmds :
  Inv f -> Timers f -> onDrop f p clock = Ret (f', cmds) -> Inv f' -> gone f' p /\ forall hs, (p, hs) ∉ cmds.
Proof.
  intros HI HT E HI'. unfold onDrop in E. cbv zeta in E. pose proof (dropWait_good f p HI HT) as Hdw. cbv zeta in Hdw.
  set (f1 := match waitslots f !! p with Some _ => _ | None => _ end) in *.
  destruct Hdw as (HI1 & _ & _ & _ & Hs1). destruct (requests f1 !! p) as [req|] eqn:Hr.
  - destruct (dropRequest_good f1 p req HI1 Hr) as (HI2 & (_ & _ & Es2 & _) & _ & Hr2).
    set (f2 := setFetch _ _ _ _) in *.
    destruct (dropAnnounces_good f2 p HI2) as (HI3 & (_ & _ & Es3 & _) & Hr3 & Ha3 & _). cbv zeta in *.
    set (f3 := match announces f2 !! p with Some _ => _ | None => _ end) in *.
    destruct (scheduleFetches f3 clock None) as [[f4 c4]|] eqn:E4; [|done]. injection E as <- <-.
    assert (at_ (announces f3) p = ∅) as Hp3 by (rewrite Ha3, at_delete, decide_True by done; done).
    destruct (scheduleFetches_inv f3 clock None HI3) as (g & c & Eg & _ & (_ & _ & Q3 & Q4 & _) & _).
    rewrite E4 in Eg. injection Eg as <- <-. split.
    + apply gone_intro; [done|simpl; by rewrite Q3, Es3, Es2|simpl; by rewrite Q4|]. simpl.
      rewrite (scheduleFetches_silent f3 clock None f4 c4 p HI3 Hp3 E4), Hr3, Hr2. apply lookup_delete_eq.
    + destruct (scheduleFetches_frame f3 clock None f4 c4 HI3 E4) as [_ Hf]. rewrite Forall_forall in Hf.
      intros hs Hin. destruct (Hf _ Hin) as (Hne & _ & _ & _ & _ & Hh). destruct hs as [|h hs]; [done|].
      destruct (Hh h) as [Hx _]; [by left|]. rewrite Hp3 in Hx. set_solver.
  - destruct (dropAnnounces_good f1 p (without_drop_inv _ p HI1)) as (HI3 & (_ & _ & Es3 & _) & Hr3 & Ha3 & _).
    cbv zeta in *. injection E as <- <-. split; [|intros hs Hin; by apply not_elem_of_nil in Hin].
    apply gone_intro; [done|by rewrite Es3|by rewrite Ha3, at_delete, decide_True|by rewrite Hr3].
Qed.

(** ** Lemmas: a queue nobody announced *)

(** Nothing waits, no peer has announced anything, and all requests have expired. *)
Definition stuck (f : fetcher) : Prop :=
  waittime f = ∅ /\ announces f = ∅ /\ forall p r, requests f !! p = Some r -> hashes r = [].

Lemma hashOrder_empty `{RangeOrder} : hashOrder ∅ = [].
Proof. apply Permutation_nil. by rewrite hashOrder_perm, elements_empty. Qed.

Lemma stuck_expireRequests `{RangeOrder} now l f :
  stuck f -> exists f', go_foldl (expireRequest now) f l = Ret f' /\ stuck f' /\ announced f' = announced f.
Proof.
  revert f. induction l as [|p l IH]; intros f Hs; cbn [go_foldl]; [by exists f|].
  enough (exists f1, expireRequest now f p = Ret f1 /\ stuck f1 /\ announced f1 = announced f)
    as (f1 & -> & Hs1 & <-) by (by apply IH).
  destruct Hs as (Hw & Ha & Hr). unfold expireRequest.
  destruct (requests f !! p) as [[rh st t]|] eqn:E; [|by exists f].
  assert (rh = []) as -> by apply (Hr _ _ E). destruct (_ <? _); [|by exists f].
  eexists. split; [reflexivity|]. split; [|done]. split_and!; simpl; [done| |].
  - rewrite Ha. unfold prune. case_decide; [apply delete_empty|done].
  - intros q r. rewrite lookup_insert. case_decide; [by intros [= <-]|apply Hr].
Qed.

Lemma stuck_timers `{RangeOrder} nowH nowR clock f ev :
  stuck f -> ev = WaitTrigger \/ ev = TimeoutTrigger ->
  exists f', handle nowH nowR clock f ev = Ret (f', []) /\ announced f' = announced f /\ stuck f'.
Proof.
  intros (Hw & Ha & Hr) [-> | ->]; simpl.
  - unfold onWaitTrigger. cbn [waittime setTimers]. rewrite Hw, dom_empty_L, hashOrder_empty. cbn [go_foldl].
    rewrite decide_True by done. eexists. split; [done|]. case_bool_decide; done.
  - unfold onTimeoutTrigger. destruct (stuck_expireRequests nowR
      (peerOrder (dom (requests (setTimers f (waitArmed f) false)))) (setTimers f (waitArmed f) false))
      as (f1 & -> & (Hw1 & Ha1 & Hr1) & E1); [done|].
    unfold scheduleFetches. rewrite Ha1, dom_empty_L, decide_True by done.
    eexists. split; [done|]. done.
Qed.

(** The events after which a transaction is stuck: two peers announce it, one is asked,
    the other leaves, the request times out. *)
Definition ghostTrace : list (Z * event) :=
  [(0, Notify "A" [7]); (0, Notify "B" [7]); (10 ^ 9, WaitTrigger); (10 ^ 9, DropPeer "B");
   (10 ^ 10, TimeoutTrigger)].

Definition runTrace (f : fetcher) (l : list (Z * event)) : go (fetcher * list command) :=
  go_foldl (fun '(f, cmds) '(now, ev) =>
    let! (f, new) := handle (fun _ => now) (fun _ => now) (fun _ => now) f ev in Ret (f, cmds ++ new))
    (f, []) l.

Lemma runTrace_reach f l f' cmds : reach f -> runTrace f l = Ret (f', cmds) -> reach f'.
Proof.
  unfold runTrace. generalize (@nil command). revert f. induction l as [|[now ev] l IH]; intros f acc Hr;
    cbn [go_foldl]; [by intros [= <- <-]|].
  destruct (handle _ _ _ f ev) as [[f1 c1]|] eqn:E; [|done]. apply IH. by eapply reach_step.
Qed.

Lemma stuck_check f :
  bool_decide (waittime f = ∅) && bool_decide (announces f = ∅) &&
    forallb (fun '(_, r) => bool_decide (hashes r = [])) (map_to_list (requests f)) = true -> stuck f.
Proof.
  rewrite !andb_true_iff, !bool_decide_eq_true, forallb_forall. intros [[Hw Ha] Hr]. split_and!; [done..|].
  intros p r E. apply elem_of_map_to_list, list_elem_of_In, Hr in E. by apply bool_decide_eq_true in E.
Qed.

End FetcherLoop.

Import FetcherLoop.

(** C1: In every state the event loop can reach, no next event makes it panic, whatever
    the order of the maps and the clock, and the invariants the code states hold: a
    tracked hash is in exactly one of the three stages; the two views of the wait list
    agree; every retrieval belongs to exactly one request of the peer it is fetched from, who
    is among its origins; a request has at most 256 different hashes; and whenever
    something waits or is requested, the timer that will look at it is armed. *)
Theorem fetcher_invariant f :
  reach f -> Inv f /\ Timers f /\
  (forall (O : RangeOrder) nowH nowR clock ev, exists f' cmds,
     handle nowH nowR clock f ev = Ret (f', cmds) /\ Inv f' /\ Timers f').
Proof.
  intros [HI HT]%reach_good. split_and!; [done|done|]. intros. by apply handle_good.
Qed.

Lemma fetcher_invariant_witness :
  let f := match handle (fun _ => 0) (fun _ => 0) (fun _ => 0) NewTxFetcher (Notify "A" [7; 9])
           with Ret (f, _) => f | Panic => NewTxFetcher end in
  reach f /\ Inv f /\ dom (waitlist f) = {[7; 9]}.
Proof.
  assert (reach (match handle (fun _ => 0) (fun _ => 0) (fun _ => 0) NewTxFetcher (Notify "A" [7; 9])
           with Ret (f, _) => f | Panic => NewTxFetcher end)) as Hr.
  { eapply (reach_step elements_order (fun _ => 0) (fun _ => 0) (fun _ => 0) NewTxFetcher (Notify "A" [7; 9]));
      [constructor|]. vm_compute. reflexivity. }
  split; [exact Hr|]. split; [exact (proj1 (fetcher_invariant _ Hr))|]. vm_compute. reflexivity.
Defined.

(** C31: A delivered transaction is forgotten: after the loop has handled a delivery, by
    broadcast or in answer to a request, no tracker has any of the delivered hashes, so
    none of them is waited for, queued or requested any more. *)
Theorem delivered_hashes_untracked `{RangeOrder} f origin hs direct clock :
  reach f -> exists f' cmds, onCleanup f origin hs direct clock = Ret (f', cmds) /\
    forall h, h ∈ hs -> untracked f' h.
Proof.
  intros [HI HT]%reach_good. destruct (onCleanup_good f origin hs direct clock HI HT) as (f' & cmds & E & _).
  exists f', cmds. split; [done|]. by apply (onCleanup_untracks f origin hs direct clock f' cmds).
Qed.

Lemma delivered_hashes_untracked_witness :
  let f := match handle (fun _ => 0) (fun _ => 0) (fun _ => 0) NewTxFetcher (Notify "A" [7; 9])
           with Ret (f, _) => f | Panic => NewTxFetcher end in
  exists f' cmds, onCleanup f "B" [7] false (fun _ => 0) = Ret (f', cmds) /\ untracked f' 7.
Proof.
  assert (reach (match handle (fun _ => 0) (fun _ => 0) (fun _ => 0) NewTxFetcher (Notify "A" [7; 9])
           with Ret (f, _) => f | Panic => NewTxFetcher end)) as Hr.
  { eapply (reach_step elements_order (fun _ => 0) (fun _ => 0) (fun _ => 0) NewTxFetcher (Notify "A" [7; 9]));
      [constructor|]. vm_compute. reflexivity. }
  destruct (delivered_hashes_untracked _ "B" [7] false (fun _ => 0) Hr) as (f' & cmds & E & Hu).
  exists f', cmds. split; [exact E|]. apply Hu. set_solver.
Defined.

(** C29: Retrievals are fair: every request that scheduling starts goes to a peer
    without a request, asks for at least one and at most 256 different hashes that this peer
    announced and nobody was fetching; no hash is asked of two peers; and when all peers
    are considered, afterwards every peer has a request or has announced nothing that is not
    being fetched. *)
Theorem retrievals_are_fair `{RangeOrder} f now wl :
  Inv f -> exists f' cmds, scheduleFetches f now wl = Ret (f', cmds) /\ Inv f' /\
    Forall (fair f f') cmds /\
    (forall p hs q hs' h, (p, hs) ∈ cmds -> (q, hs') ∈ cmds -> h ∈ hs -> h ∈ hs' -> p = q) /\
    (wl = None -> forall p h, h ∈ at_ (announces f') p ->
       is_Some (requests f' !! p) \/ is_Some (fetching f' !! h)).
Proof.
  intros HI. destruct (scheduleFetches_inv f now wl HI) as (f' & cmds & E & HI' & _ & _ & Hwork).
  destruct (scheduleFetches_frame f now wl f' cmds HI E) as [_ Hfair].
  exists f', cmds. split_and!; try done. intros p hs q hs' h Hp Hq Hh Hh'.
  rewrite Forall_forall in Hfair. destruct (Hfair _ Hp) as (_ & _ & _ & _ & _ & F1).
  destruct (Hfair _ Hq) as (_ & _ & _ & _ & _ & F2).
  destruct (F1 h Hh) as (_ & _ & E1). destruct (F2 h Hh') as (_ & _ & E2). congruence.
Qed.

Lemma retrievals_are_fair_witness :
  exists f f', scheduleFetches f (fun _ => 0) None = Ret (f', [("A", [7; 9])]) /\ Inv f' /\
    fair f f' ("A", [7; 9]).
Proof.
  destruct (waitHashes_inv (fun _ => 10 ^ 9) [7; 9]
    (foldl (notifyHash "A" (fun _ => 0)) NewTxFetcher [7; 9]) ∅) as (f & act & E & HI & _).
  { apply notifyHashes_inv, Inv_new. }
  destruct (retrievals_are_fair f (fun _ => 0) None HI) as (f' & cmds & E' & HI' & Hfair & _).
  exists f, f'. vm_compute in E. injection E as <- <-.
  assert (cmds = [("A", [7; 9])]) as ->. { vm_compute in E'. injection E' as _ <-. reflexivity. }
  split; [exact E'|]. split; [exact HI'|]. rewrite Forall_singleton in Hfair. exact Hfair.
Defined.

(** The cap on announcements is inverted: when a peer with [used] tracked
    announcements announces more than the remaining room, the code keeps the first
    [used + n - 4096] of the [n] new hashes instead of the first [4096 - used]. So 4097 hashes
    from a new peer leave one, and the peer exceeds the cap when [2 * used + n > 8192]. *)
Theorem announce_cap_is_inverted f origin hs :
  let used := Z.of_nat (size (at_ (waitslots f) origin)) + Z.of_nat (size (at_ (announces f) origin)) in
  used < 4096 -> 4096 < used + Z.of_nat (length hs) ->
  exists kept, capAnnounce f origin hs = Ret (Some kept) /\ kept `prefix_of` hs /\
    Z.of_nat (length kept) = used + Z.of_nat (length hs) - 4096 /\
    (4096 < used + Z.of_nat (length kept) <-> 8192 < 2 * used + Z.of_nat (length hs)).
Proof.
  intros used Hu Hn. unfold capAnnounce. fold used. unfold maxTxAnnounces.
  destruct (Z.leb_spec 4096 used); [lia|]. destruct (Z.ltb_spec 4096 (used + Z.of_nat (length hs))); [|lia].
  rewrite go_slice_Ret by lia. eexists. split; [done|]. rewrite Z.sub_0_r, drop_0. split; [apply prefix_take|].
  rewrite length_take. lia.
Qed.

Lemma announce_cap_is_inverted_witness :
  exists kept, capAnnounce NewTxFetcher "A" (seqZ 0 4097) = Ret (Some kept) /\ length kept = 1%nat.
Proof.
  destruct (announce_cap_is_inverted NewTxFetcher "A" (seqZ 0 4097)) as (kept & E & _ & Hl & _).
  - vm_compute. reflexivity.
  - rewrite length_seqZ. vm_compute. reflexivity.
  - exists kept. split; [exact E|]. rewrite length_seqZ in Hl.
    apply Nat2Z.inj. rewrite Hl. vm_compute. reflexivity.
Defined.

(** A disconnected peer is forgotten by the trackers that schedule work: after
    [Drop], the peer is in no entry of the wait list, has no slots and no announcements, has
    no request and is the origin of no retrieval, and none of the requests started by the
    drop goes to it. *)
Theorem dropped_peer_is_gone `{RangeOrder} f p clock :
  reach f -> exists f' cmds, onDrop f p clock = Ret (f', cmds) /\ gone f' p /\ forall hs, (p, hs) ∉ cmds.
Proof.
  intros [HI HT]%reach_good. destruct (onDrop_good f p clock HI HT) as (f' & cmds & E & HI' & _).
  exists f', cmds. split; [done|]. by apply (onDrop_gone f p clock).
Qed.

Lemma dropped_peer_is_gone_witness :
  let f := match handle (fun _ => 0) (fun _ => 0) (fun _ => 0) NewTxFetcher (Notify "A" [7; 9])
           with Ret (f, _) => f | Panic => NewTxFetcher end in
  at_ (waitlist f) 7 = {["A"]} /\ exists f' cmds, onDrop f "A" (fun _ => 0) = Ret (f', cmds) /\ gone f' "A".
Proof.
  assert (reach (match handle (fun _ => 0) (fun _ => 0) (fun _ => 0) NewTxFetcher (Notify "A" [7; 9])
           with Ret (f, _) => f | Panic => NewTxFetcher end)) as Hr.
  { eapply (reach_step elements_order (fun _ => 0) (fun _ => 0) (fun _ => 0) NewTxFetcher (Notify "A" [7; 9]));
      [constructor|]. vm_compute. reflexivity. }
  destruct (dropped_peer_is_gone _ "A" (fun _ => 0) Hr) as (f' & cmds & E & Hg & _).
  split; [vm_compute; reflexivity|]. exists f', cmds. split; [exact E|exact Hg].
Defined.

(** [Drop] leaves the peer among the alternates of retrievals in flight. When such
    a retrieval fails, the transaction goes back to the queue with the disconnected peer as its
    only origin: it stays in [announced] although no peer has it in [announces], and no
    trigger of either timer asks for it or forgets it. *)
Theorem dropped_peer_stays_an_alternate :
  exists f cmds, runTrace NewTxFetcher ghostTrace = Ret (f, cmds) /\ reach f /\ cmds = [("A", [7])] /\
    announced f = {[7 := {["B"]}]} /\ stuck f /\
    forall (O : RangeOrder) nowH nowR clock ev, ev = WaitTrigger \/ ev = TimeoutTrigger ->
      exists f', handle nowH nowR clock f ev = Ret (f', []) /\ announced f' = announced f /\ stuck f'.
Proof.
  destruct (runTrace NewTxFetcher ghostTrace) as [[f cmds]|] eqn:E; [|by vm_compute in E].
  assert (reach f) as Hr by (by eapply (runTrace_reach NewTxFetcher); [constructor|]).
  vm_compute in E. injection E as <- <-. eexists _, _. split; [done|]. split; [exact Hr|].
  split_and!; [done|vm_compute; reflexivity| |intros; by apply stuck_timers; [apply stuck_check; vm_compute|]].
  apply stuck_check. vm_compute. done.
Qed.
