(* ===== verification/TxFetcherEntry.v ===== *)
(** * The entry points of the transaction fetcher (src/eth/fetcher/tx_fetcher.go)

    [Notify] and [Enqueue] run in the goroutines of the peers: they look at the
    pool and at the set of underpriced transactions, and hand an event to the loop of
    [FetcherLoop]. What they need of the pool is the class [TxSink], which the
    transaction pool of [TxPool] implements. *)

From stdpp Require Import base tactics list gmap fin_maps strings.
From Stdlib Require Import ZArith Lia Ascii.
From S2P Require Import Prelude Types TxPool EthPeer TxFetcher TxFetcherInv TxFetcherProps.

Open Scope Z_scope.
Open Scope go_scope.

Import TxFetcher FetcherInv FetcherLoop.

(** The callbacks [hasTx] and [addTxs] of the fetcher. [addTxs] has one answer for every
    transaction, and a pool that is ready stays ready. *)
Class TxSink (P : Type) := {
  hasTx : P -> hash -> bool;
  addTxs : P -> list Transaction -> Z -> go (P * list (option TxPool.txError));
  ready : P -> Prop;
  addTxs_answers : forall p l now, ready p ->
    exists p' errs, addTxs p l now = Ret (p', errs) /\ length errs = length l /\ ready p'
}.

Module FetcherEntry.

(** [strings.ContainsAny(peer, ":")] *)
Fixpoint containsColon (s : string) : bool :=
  match s with
  | EmptyString => false
  | String c s => Ascii.eqb c ":" || containsColon s
  end.

Section Entry.

Context {P : Type} `{TxSink P} `{SetPop}.

(** The filter of [Notify]; [None] when nothing is left to announce. *)
Definition Notify (underpriced : gset hash) (pool : P) (peer : string) (hs : list hash) : option event :=
  let unknowns := foldl (fun acc h =>
    if hasTx pool h then acc
    else if decide (h ∈ underpriced) then acc
    else acc ++ [h]) [] hs in
  match unknowns with [] => None | _ => Some (FetcherLoop.Notify peer unknowns) end.

Definition tooCheap (err : option TxPool.txError) : bool :=
  match err with
  | Some TxPool.ErrUnderpriced | Some TxPool.ErrReplaceUnderpriced => true
  | _ => false
  end.

(** One round of the loop of [Enqueue] over the answers of the pool. *)
Definition enqueueOne (l : list Transaction) (st : nat * gset hash * list hash)
    (err : option TxPool.txError) : go (nat * gset hash * list hash) :=
  let '(i, cheap, added) := st in
  match l !! i with
  | None => Panic
  | Some tx =>
      let cheap :=
        if tooCheap err then
          KnownCache.popLoop (size cheap) cheap (maxTxUnderpricedSetSize - 1) ∪ {[txHash tx]}
        else cheap in
      Ret (S i, cheap, added ++ [txHash tx])
  end.

Record enqueued := mkEnqueued {
  cheap : gset hash;
  sink : P;
  toPioplat : list Transaction;
  delivery : event
}.

Definition Enqueue (underpriced : gset hash) (pool : P) (peer : string) (l : list Transaction)
    (direct : bool) (now : Z) : go enqueued :=
  let broadcast := if containsColon peer then [] else l in
  let! (pool, errs) := addTxs pool l now in
  let! (_, underpriced, added) := go_foldl (enqueueOne l) (O, underpriced, []) errs in
  Ret (mkEnqueued underpriced pool broadcast (Delivery peer added direct)).

(** ** Lemmas *)

Lemma Notify_spec underpriced pool peer hs :
  Notify underpriced pool peer hs =
    match filter (fun h => hasTx pool h = false /\ h ∉ underpriced) hs with
    | [] => None
    | l => Some (FetcherLoop.Notify peer l)
    end.
Proof.
  unfold Notify. enough (forall l acc, foldl (fun acc h =>
    if hasTx pool h then acc else if decide (h ∈ underpriced) then acc else acc ++ [h]) acc l =
    acc ++ filter (fun h => hasTx pool h = false /\ h ∉ underpriced) l) as E by (rewrite (E hs []); cbn [app]; by destruct (filter _ hs)).
  induction l as [|h l IH]; intros acc; cbn [foldl]; [by rewrite app_nil_r|]. rewrite IH, filter_cons.
  destruct (hasTx pool h); [by rewrite decide_False by naive_solver|].
  destruct (decide (h ∈ underpriced)); [by rewrite decide_False by naive_solver|].
  rewrite decide_True by done. by rewrite <- app_assoc.
Qed.

(** How the set of underpriced transactions grows over a batch. *)
Definition cheapStep (s : gset hash) (x : Transaction * option TxPool.txError) : gset hash :=
  if tooCheap x.2 then KnownCache.popLoop (size s) s (maxTxUnderpricedSetSize - 1) ∪ {[txHash x.1]} else s.

Lemma enqueueAll_spec l errs l0 s added :
  length errs = length l ->
  go_foldl (enqueueOne (l0 ++ l)) (length l0, s, added) errs =
    Ret ((length l0 + length l)%nat, foldl cheapStep s (zip l errs), added ++ (txHash <$> l)).
Proof.
  revert l l0 s added. induction errs as [|e errs IH]; intros [|tx l] l0 s added Hl; try done.
  { simpl. by rewrite Nat.add_0_r, app_nil_r. }
  cbn [go_foldl enqueueOne]. rewrite list_lookup_middle by done. cbn [zip_with foldl].
  change (cheapStep s (tx, e)) with (if tooCheap e then
    KnownCache.popLoop (size s) s (maxTxUnderpricedSetSize - 1) ∪ {[txHash tx]} else s).
  set (s1 := if tooCheap e then _ else s). clearbody s1.
  pose proof (IH l (l0 ++ [tx]) s1 (added ++ [txHash tx]) ltac:(simpl in Hl; lia)) as E.
  rewrite <- app_assoc, length_app in E. cbn [app length] in E. rewrite Nat.add_1_r in E. rewrite E.
  rewrite fmap_cons, <- app_assoc. cbn [app length]. by rewrite Nat.add_succ_r.
Qed.

Lemma Enqueue_spec underpriced pool peer l direct now :
  ready pool ->
  exists pool' errs, addTxs pool l now = Ret (pool', errs) /\ length errs = length l /\ ready pool' /\
    Enqueue underpriced pool peer l direct now =
      Ret (mkEnqueued (foldl cheapStep underpriced (zip l errs)) pool'
             (if containsColon peer then [] else l) (Delivery peer (txHash <$> l) direct)).
Proof.
  intros Hp. destruct (addTxs_answers pool l now Hp) as (pool' & errs & E & Hl & Hp').
  exists pool', errs. split_and!; try done. unfold Enqueue. rewrite E.
  change (go_foldl (enqueueOne l)) with (go_foldl (enqueueOne ([] ++ l))).
  change O with (length (@nil Transaction)). by rewrite enqueueAll_spec by done.
Qed.

Lemma popLoop_full (s : gset hash) :
  let s' := KnownCache.popLoop (size s) s (maxTxUnderpricedSetSize - 1) in
  s' ⊆ s /\ Z.of_nat (size s') <= maxTxUnderpricedSetSize - 1 /\
  (Z.of_nat (size s) <= maxTxUnderpricedSetSize - 1 -> s' = s).
Proof.
  intros s'. split_and!.
  1,2: destruct (KnownCache.popLoop_spec (size s) s (maxTxUnderpricedSetSize - 1)) as [[??]|[E ?]];
    unfold s', maxTxUnderpricedSetSize in *; try lia; rewrite ?E; done.
  intros Hle. unfold s'. destruct (size s) eqn:E; cbn [KnownCache.popLoop]; rewrite decide_False by lia; done.
Qed.

Lemma cheapStep_bounded s x :
  Z.of_nat (size s) <= maxTxUnderpricedSetSize -> Z.of_nat (size (cheapStep s x)) <= maxTxUnderpricedSetSize.
Proof.
  intros Hs. unfold cheapStep. destruct (tooCheap x.2); [|done].
  destruct (popLoop_full s) as (_ & Hle & _). set (s' := KnownCache.popLoop _ _ _) in *.
  pose proof (KnownCache.size_union_le s' {[txHash x.1]}). rewrite size_singleton in *. lia.
Qed.

Lemma cheap_bounded l s :
  Z.of_nat (size s) <= maxTxUnderpricedSetSize -> Z.of_nat (size (foldl cheapStep s l)) <= maxTxUnderpricedSetSize.
Proof. revert s. induction l as [|x l IH]; intros s Hs; simpl; [done|]. by apply IH, cheapStep_bounded. Qed.

(** While there is room, nothing is evicted. *)
Lemma cheap_grows l s :
  Z.of_nat (size s) + Z.of_nat (length l) <= maxTxUnderpricedSetSize ->
  s ⊆ foldl cheapStep s l /\ forall tx e, (tx, e) ∈ l -> tooCheap e = true -> txHash tx ∈ foldl cheapStep s l.
Proof.
  revert s. induction l as [|x l IH]; intros s Hs; cbn [foldl]; [by split; [|intros ?? ?%not_elem_of_nil]|].
  cbn [length] in Hs. destruct (popLoop_full s) as (_ & _ & Hid).
  assert (s ⊆ cheapStep s x /\ (size (cheapStep s x) <= S (size s))%nat /\
    (tooCheap x.2 = true -> txHash x.1 ∈ cheapStep s x)) as (H1 & H2 & H3).
  { unfold cheapStep. destruct (tooCheap x.2); [|split_and!; [done|lia|done]].
    rewrite Hid by lia. split_and!; [set_solver| |set_solver].
    pose proof (KnownCache.size_union_le s {[txHash x.1]}). rewrite size_singleton in *. lia. }
  destruct (IH (cheapStep s x)) as [G1 G2]; [lia|]. split; [by etrans|].
  intros tx e [<-|Hin]%elem_of_cons He; [apply G1, H3, He|by eapply G2].
Qed.

End Entry.

End FetcherEntry.

(** ** The pool of the node as the sink *)

#[global] Program Instance pool_sink : TxSink TxPool.pool := {|
  hasTx := TxPool.Has;
  addTxs := fun tp l now => let! (tp, errs, _) := TxPool.AddRemotes tp l now in Ret (tp, errs);
  ready := fun tp => TxPool.wf tp /\ TxPool.broadcastSet tp = true
|}.
Next Obligation.
  intros tp l now [Hwf Hset]. unfold TxPool.AddRemotes. rewrite Hset.
  pose proof (TxPool.addAll_spec tp l Hwf) as Hs. destruct (TxPool.addAll tp l) as [[tp1 res] added].
  destruct Hs as (Hwf1 & -> & _ & _ & _ & Hset1). destruct (TxPool.expirePool_spec tp1 now Hwf1) as (Hwf2 & _ & Hset2).
  eexists _, _. split; [reflexivity|]. split_and!; [|done|congruence].
  generalize (TxPool.known tp). induction l; intros K; simpl; [done|]. by f_equal.
Qed.

Import FetcherEntry.

(** A batch of transactions that arrives, by broadcast or as an answer, is
    settled: [Enqueue] returns, and when the loop has handled its event no tracker has a
    hash of the batch, whatever the pool answered; the set of underpriced
    transactions stays within its bound; and the batch goes to the Pioplat clients unless the
    sender's name has a colon. *)
Theorem enqueued_batch_is_settled `{TxSink P} `{SetPop} `{RangeOrder} underpriced (pool : P) peer l direct now f nowH nowR clock :
  ready pool -> Z.of_nat (size underpriced) <= maxTxUnderpricedSetSize -> reach f ->
  exists r f' cmds, Enqueue underpriced pool peer l direct now = Ret r /\
    ready (sink r) /\ Z.of_nat (size (cheap r)) <= maxTxUnderpricedSetSize /\
    toPioplat r = (if containsColon peer then [] else l) /\
    handle nowH nowR clock f (delivery r) = Ret (f', cmds) /\
    forall tx, tx ∈ l -> untracked f' (txHash tx).
Proof.
  intros Hp Hs [HI HT]%reach_good.
  destruct (Enqueue_spec underpriced pool peer l direct now Hp) as (pool' & errs & _ & _ & Hp' & E).
  destruct (onCleanup_good f peer (txHash <$> l) direct clock HI HT) as (f' & cmds & E' & _).
  eexists _, f', cmds. split; [exact E|]. split_and!; [done|by apply cheap_bounded|done|exact E'|].
  intros tx Htx. apply (onCleanup_untracks _ _ _ _ _ _ _ HI HT E'). by apply list_elem_of_fmap_2.
Qed.

Lemma enqueued_batch_is_settled_witness :
  exists r f' cmds, Enqueue ∅ exPool "A" [mkTx 7 0] false 5 = Ret r /\ toPioplat r = [mkTx 7 0] /\
    handle (fun _ => 0) (fun _ => 0) (fun _ => 0) NewTxFetcher (delivery r) = Ret (f', cmds) /\
    untracked f' 7.
Proof.
  destruct (enqueued_batch_is_settled ∅ exPool "A" [mkTx 7 0] false 5 NewTxFetcher
    (fun _ => 0) (fun _ => 0) (fun _ => 0)) as (r & f' & cmds & E & _ & _ & Hb & Eh & Hu).
  - split; [apply exPool_wf|reflexivity].
  - vm_compute. discriminate.
  - constructor.
  - exists r, f', cmds. split; [exact E|]. split; [exact Hb|]. split; [exact Eh|].
    apply (Hu (mkTx 7 0)). by left.
Defined.

(** A transaction the pool rejected as underpriced is not fetched again: while the
    set of such transactions has room for the batch, a later announcement of it, by any
    peer, does not reach the loop. *)
Theorem cheap_transactions_not_refetched `{TxSink P} `{SetPop} underpriced (pool pool' : P) peer l direct now errs later who hs :
  ready pool -> addTxs pool l now = Ret (pool', errs) ->
  Z.of_nat (size underpriced) + Z.of_nat (length l) <= maxTxUnderpricedSetSize ->
  exists r, Enqueue underpriced pool peer l direct now = Ret r /\
    forall tx e, (tx, e) ∈ zip l errs -> tooCheap e = true ->
      match Notify (cheap r) later who hs with
      | Some (FetcherLoop.Notify origin l) => origin = who /\ txHash tx ∉ l
      | Some _ => False
      | None => True
      end.
Proof.
  intros Hp Ha Hs. destruct (Enqueue_spec underpriced pool peer l direct now Hp) as (p1 & e1 & Ha1 & Hl & _ & E).
  rewrite Ha in Ha1. injection Ha1 as <- <-. eexists. split; [exact E|]. cbn [cheap]. intros tx e Hin He.
  destruct (cheap_grows (zip l errs) underpriced) as [_ Hg]; [rewrite length_zip_with; lia|].
  specialize (Hg tx e Hin He). rewrite Notify_spec. set (F := filter _ hs).
  assert (txHash tx ∉ F) as HF by (unfold F; rewrite list_elem_of_filter; naive_solver).
  destruct F; [done|]. by split.
Qed.

(** A pool that finds everything but transaction 7 too cheap. *)
Definition pickySink : TxSink unit.
Proof.
  refine {| hasTx := fun _ _ => false;
    addTxs := fun _ l _ => Ret (tt, (fun tx => if decide (txHash tx = 7) then None else Some TxPool.ErrUnderpriced) <$> l);
    ready := fun _ => True |}.
  intros [] l now _. eexists _, _. split; [reflexivity|]. by rewrite length_fmap.
Defined.

Lemma cheap_transactions_not_refetched_witness :
  exists r, @Enqueue unit pickySink first_pop ∅ tt "A" [mkTx 7 0; mkTx 9 0] true 0 = Ret r /\
    @Notify unit pickySink (cheap r) tt "B" [7; 9] = Some (FetcherLoop.Notify "B" [7]) /\
    match @Notify unit pickySink (cheap r) tt "B" [7; 9] with
    | Some (FetcherLoop.Notify origin l) => origin = "B" /\ 9 ∉ l
    | Some _ => False
    | None => True
    end.
Proof.
  destruct (@cheap_transactions_not_refetched unit pickySink first_pop ∅ tt tt "A" [mkTx 7 0; mkTx 9 0] true 0
    [None; Some TxPool.ErrUnderpriced] tt "B" [7; 9]) as (r & E & Hr).
  - exact I.
  - reflexivity.
  - vm_compute. discriminate.
  - exists r. split; [exact E|]. split; [vm_compute in E; injection E as <-; reflexivity|].
    apply (Hr (mkTx 9 0) (Some TxPool.ErrUnderpriced)); [|reflexivity]. right. left.
Defined.
