(* ===== verification/GoReader.v ===== *)
(** * Buffers, connections and buffered readers of Go

    What the relay uses of the standard library to read and write messages: [copy] and
    [PutUint32]/[PutUint64] into a slice, slice expressions checked against
    the capacity, a connection whose reads return one segment at a time (a TCP
    segment, or a UDP datagram, whose rest is lost when the buffer is too
    short), [bufio.Reader] and [io.ReadFull]. *)

From stdpp Require Import base tactics list.
From Stdlib Require Import ZArith Lia.
From S2P Require Import Prelude Bytes.

Open Scope Z_scope.
Open Scope go_scope.

Module GoReader.

Notation bytes := (list Z) (only parsing).

(** ** Writing into a slice *)

(** [make([]byte, n)] *)
Definition make (n : nat) : bytes := replicate n 0.

(** [copy(buf[off:], src)] *)
Definition copyAt (buf : bytes) (off : nat) (src : bytes) : go bytes :=
  if decide (off <= length buf)%nat
  then Ret (take off buf ++ take (length buf - off) src ++ drop (off + length src) buf)
  else Panic.

(** [binary.LittleEndian.PutUint32(buf[off:], v)] and [PutUint64] *)
Definition putUint (width : nat) (buf : bytes) (off : nat) (v : Z) : go bytes :=
  if decide (off + width <= length buf)%nat
  then Ret (take off buf ++ le_encode width v ++ drop (off + width) buf)
  else Panic.

(** [buf[i] = b] *)
Definition setByte (buf : bytes) (i : nat) (b : Z) : go bytes :=
  if decide (i < length buf)%nat then Ret (<[i := b]> buf) else Panic.

(** [buf[lo:hi]] of a slice whose array ends with [buf], for machine integers. *)
Definition sub (buf : bytes) (lo hi : Z) : go bytes :=
  if (0 <=? lo) && (lo <=? hi) && (hi <=? Z.of_nat (length buf))
  then Ret (take (Z.to_nat (hi - lo)) (drop (Z.to_nat lo) buf))
  else Panic.

(** [binary.LittleEndian.Uint32(s)], [Uint64(s)]: the first bytes of the slice. *)
Definition getUint (width : nat) (s : bytes) : go Z :=
  if decide (width <= length s)%nat then Ret (le_decode (take width s)) else Panic.

(** ** Connections and buffered readers *)

(** The size of the buffer of [bufio.NewReader]. *)
Definition bufSize : nat := 4096.

(** [Read] into a buffer of [n] bytes. [None] is an error: the connection is closed. *)
Definition connRead (datagram : bool) (n : nat) (conn : list bytes) : option (bytes * list bytes) :=
  match conn with
  | [] => None
  | s :: conn =>
      Some (take n s, if datagram then conn
                      else match drop n s with [] => conn | rest => rest :: conn end)
  end.

Record reader := mkReader { buffered : bytes; conn : list bytes }.

Definition newReader (c : list bytes) : reader := mkReader [] c.

(** [bufio.Reader.Read] into [n > 0] bytes. *)
Definition readerRead (datagram : bool) (n : nat) (r : reader) : option (bytes * reader) :=
  match buffered r with
  | [] =>
      if decide (bufSize <= n)%nat then
        match connRead datagram n (conn r) with
        | Some (bs, c) => Some (bs, mkReader [] c)
        | None => None
        end
      else
        match connRead datagram bufSize (conn r) with
        | Some (bs, c) => Some (take n bs, mkReader (drop n bs) c)
        | None => None
        end
  | buf => Some (take n buf, mkReader (drop n buf) (conn r))
  end.

(** The loop of [io.ReadFull]: every round reads a byte or uses up an empty segment. *)
Fixpoint readLoop (fuel : nat) (datagram : bool) (n : nat) (r : reader) : option bytes * reader :=
  match n with
  | O => (Some [], r)
  | _ =>
      match fuel with
      | O => (None, r)
      | S fuel =>
          match readerRead datagram n r with
          | None => (None, r)
          | Some (bs, r) =>
              let '(more, r) := readLoop fuel datagram (n - length bs) r in
              ((fun more => bs ++ more) <$> more, r)
          end
      end
  end.

Definition ReadFull (datagram : bool) (n : nat) (r : reader) : option bytes * reader :=
  readLoop (n + length (conn r)) datagram n r.

(** ** Lemmas *)

(** What is still to be read. *)
Definition stream (r : reader) : bytes := buffered r ++ concat (conn r).

(** No datagram is longer than the buffer. *)
Definition intact (datagram : bool) (r : reader) : Prop :=
  datagram = true -> Forall (fun s => (length s <= bufSize)%nat) (conn r).

Lemma connRead_spec datagram n s c :
  (0 < n)%nat -> (datagram = true -> (length s <= n)%nat) ->
  exists bs c', connRead datagram n (s :: c) = Some (bs, c') /\ bs = take n s /\
    bs ++ concat c' = s ++ concat c /\ (length c' <= S (length c))%nat /\
    ((length c' < S (length c))%nat \/ bs <> []) /\ (datagram = true -> c' = c).
Proof.
  intros Hn Hd. unfold connRead. eexists _, _. split; [done|]. split; [done|]. destruct datagram.
  - rewrite take_ge by auto. simpl. split_and!; [done|lia|left; lia|done].
  - destruct (drop n s) as [|x rest] eqn:E.
    + rewrite <- (take_drop n s) at 2. rewrite E, app_nil_r. simpl. split_and!; [done|lia|left; lia|done].
    + simpl. split_and!; [|lia| |done].
      * rewrite <- (take_drop n s) at 2. rewrite E. by rewrite <- app_assoc.
      * right. intros He. assert (length s = 0%nat \/ n = 0%nat) as [Hs|]; [|..|lia].
        { apply (f_equal length) in He. rewrite length_take in He. simpl in He. lia. }
        apply nil_length_inv in Hs as ->. by rewrite drop_nil in E.
Qed.

(** One read takes a prefix of the stream; the measure of the loop goes down. *)
Lemma readerRead_spec datagram n r :
  (0 < n)%nat -> intact datagram r -> stream r <> [] \/ conn r <> [] ->
  exists bs r', readerRead datagram n r = Some (bs, r') /\ stream r = bs ++ stream r' /\
    (length bs <= n)%nat /\ intact datagram r' /\
    (n - length bs + length (conn r') < n + length (conn r))%nat.
Proof.
  intros Hn Hi Hne. unfold readerRead, stream in *. destruct r as [buf c]; simpl in *. destruct buf as [|b buf].
  - destruct c as [|s c]; [simpl in Hne; by destruct Hne|].
    case_decide as Hb.
    + destruct (connRead_spec datagram n s c Hn) as (bs & c' & -> & Hbs & Hcat & Hle & Hlt & Hd).
      { intros E. specialize (Hi E). apply Forall_inv in Hi. lia. }
      eexists bs, _. split; [done|]. simpl. assert (length bs <= n)%nat by (subst bs; rewrite length_take; lia).
      split_and!; [done|done| |].
      * intros E. rewrite (Hd E). specialize (Hi E). by apply Forall_inv_tail in Hi.
      * simpl. destruct Hlt as [|Hx]; [lia|]. destruct bs; [done|]. simpl in *. lia.
    + destruct (connRead_spec datagram bufSize s c) as (bs & c' & -> & Hbs & Hcat & Hle & Hlt & Hd).
      { unfold bufSize; lia. }
      { intros E. specialize (Hi E). by apply Forall_inv in Hi. }
      eexists (take n bs), _. split; [done|]. simpl. rewrite length_take.
      split_and!; [by rewrite app_assoc, take_drop|lia| |].
      * intros E. rewrite (Hd E). specialize (Hi E). by apply Forall_inv_tail in Hi.
      * destruct Hlt as [|Hx]; [lia|]. destruct bs; [done|]. simpl. lia.
  - eexists _, _. split; [done|]. rewrite length_take. simpl.
    split_and!; [by rewrite app_assoc, take_drop|lia|done|lia].
Qed.

Lemma readLoop_0 fuel datagram r : readLoop fuel datagram 0 r = (Some [], r).
Proof. by destruct fuel. Qed.

Lemma readLoop_spec fuel datagram n r :
  intact datagram r -> (n + length (conn r) <= fuel)%nat ->
  let '(res, r') := readLoop fuel datagram n r in
  if decide (n <= length (stream r))%nat
  then res = Some (take n (stream r)) /\ stream r' = drop n (stream r) /\ intact datagram r'
  else res = None.
Proof.
  revert n r. induction fuel as [|fuel IH]; intros n r Hi Hf.
  { destruct n; [|lia]. rewrite readLoop_0, decide_True by lia. by rewrite drop_0. }
  destruct n as [|n]; [rewrite readLoop_0, decide_True by lia; by rewrite drop_0|]. cbn [readLoop].
  destruct (decide (stream r <> [] \/ conn r <> [])) as [Hne|Hno].
  - destruct (readerRead_spec datagram (S n) r ltac:(lia) Hi Hne) as (bs & r1 & -> & Hs & Hl & Hi1 & Hm).
    specialize (IH (S n - length bs)%nat r1 Hi1 ltac:(lia)). destruct (readLoop _ _ _ _) as [more r2].
    rewrite Hs, length_app. case_decide as H1; case_decide as H2; try lia.
    + destruct IH as (-> & -> & Hi2). simpl. split_and!; [|by rewrite drop_app_ge by lia|done].
      f_equal. by rewrite take_app_ge by lia.
    + by rewrite IH.
  - assert (stream r = [] /\ conn r = []) as [Hs Hc].
    { split; [destruct (stream r)|destruct (conn r)]; naive_solver. }
    unfold readerRead. unfold stream in Hs. rewrite Hc in Hs. simpl in Hs. rewrite app_nil_r in Hs.
    rewrite Hs, Hc. simpl. unfold stream. rewrite Hs, Hc. simpl. by case_decide.
Qed.

(** [io.ReadFull] returns the next bytes of the stream however they are segmented. *)
Lemma ReadFull_spec datagram n r :
  intact datagram r ->
  let '(res, r') := ReadFull datagram n r in
  if decide (n <= length (stream r))%nat
  then res = Some (take n (stream r)) /\ stream r' = drop n (stream r) /\ intact datagram r'
  else res = None.
Proof. intros Hi. by apply readLoop_spec. Qed.

Lemma ReadFull_app datagram r bs rest :
  intact datagram r -> stream r = bs ++ rest ->
  exists r', ReadFull datagram (length bs) r = (Some bs, r') /\ stream r' = rest /\ intact datagram r'.
Proof.
  intros Hi Hs. pose proof (ReadFull_spec datagram (length bs) r Hi) as H.
  destruct (ReadFull datagram (length bs) r) as [res r']. rewrite Hs, length_app, decide_True in H by lia.
  destruct H as (-> & Hr & Hi'). exists r'. rewrite take_app_length, drop_app_length in *. done.
Qed.

Lemma ReadFull_eof datagram n r :
  intact datagram r -> (length (stream r) < n)%nat -> (ReadFull datagram n r).1 = None.
Proof.
  intros Hi Hn. pose proof (ReadFull_spec datagram n r Hi) as H. destruct (ReadFull datagram n r).
  by rewrite decide_False in H by lia.
Qed.

(** ** Lemmas: slices *)

Lemma copyAt_app a b c src :
  length src = length b -> copyAt (a ++ b ++ c) (length a) src = Ret (a ++ src ++ c).
Proof.
  intros Hl. unfold copyAt. rewrite !length_app, decide_True by lia. f_equal.
  rewrite take_app_length, Hl. rewrite (take_ge src) by lia. do 2 f_equal.
  rewrite <- drop_drop, drop_app_length.
  by rewrite drop_app_length.
Qed.

Lemma putUint_app width a b c v :
  length b = width -> putUint width (a ++ b ++ c) (length a) v = Ret (a ++ le_encode width v ++ c).
Proof.
  intros Hl. unfold putUint. rewrite !length_app, decide_True by lia. f_equal.
  rewrite take_app_length. do 2 f_equal. rewrite <- drop_drop, drop_app_length.
  rewrite <- Hl. by rewrite drop_app_length.
Qed.

Lemma sub_app a b c lo hi :
  lo = Z.of_nat (length a) -> hi = Z.of_nat (length a + length b) -> sub (a ++ b ++ c) lo hi = Ret b.
Proof.
  intros -> ->. unfold sub. rewrite !length_app.
  rewrite (proj2 (Z.leb_le 0 _)), (proj2 (Z.leb_le _ (Z.of_nat (length a + length b)))),
    (proj2 (Z.leb_le _ (Z.of_nat (length a + (length b + length c))))) by lia. simpl. f_equal.
  rewrite Nat2Z.id, drop_app_length.
  replace (Z.to_nat _) with (length b) by lia. by rewrite take_app_length.
Qed.

Lemma make_app n m : make (n + m) = make n ++ make m.
Proof. apply replicate_add. Qed.

Lemma length_make n : length (make n) = n.
Proof. apply length_replicate. Qed.

End GoReader.
