(* ===== verification/Relay.v ===== *)
(** * The relay server (src/eth/pioplat_server.go)

    The wire format between relay nodes ([newBlockMsg], [newTransactionMsg]), the two
    receive loops ([handleTcpMsgLoop], [handleUdpMsgLoop]), the broadcast side with its
    set of sent hashes, the dispatch loop [run] with the goroutines it
    starts, and the handlers of the HTTP interface. The RLP encoding of transactions
    and blocks is the class [Wire]. *)

From stdpp Require Import base tactics list gmap strings.
From Stdlib Require Import ZArith Lia.
From S2P Require Import Prelude Types Bytes GoReader.

Open Scope Z_scope.
Open Scope go_scope.

Import GoReader.

(** [rlp.EncodeToBytes] and [rlp.DecodeBytes] at a type with a hash: decoding an encoding
    gives an item with the same hash (the time a transaction was first seen is not
    part of the encoding). *)
Class Wire (A : Type) := {
  EncodeToBytes : A -> option (list Z);
  DecodeBytes : list Z -> option A;
  itemHash : A -> hash;
  wire_bytes : forall a bs, EncodeToBytes a = Some bs -> Forall is_byte bs;
  wire_hash : forall a bs, EncodeToBytes a = Some bs -> 0 <= itemHash a < 2 ^ 256;
  decode_encode : forall a bs, EncodeToBytes a = Some bs ->
    exists a', DecodeBytes bs = Some a' /\ itemHash a' = itemHash a
}.

Module Relay.

Definition TransactionMsg : Z := 1.
Definition BlockMsg : Z := 2.

Definition HeaderSize : nat := 40.
Definition LengthSize : nat := 4.
Definition HashSize : nat := 32.
Definition Crc32Size : nat := 4.

(** ** Messages *)

(** The body that [newBlockMsg] and [newTransactionMsg] share, statement by statement. *)
Definition newMsg (msgType : Z) (h : hash) (data : list Z) : go (list Z) :=
  let message := make (HeaderSize + length data + Crc32Size) in
  let! message := putUint 4 message 0 (u32 (Z.of_nat (length data + Crc32Size))) in
  let! message := setByte message 3 msgType in
  let! message := copyAt message LengthSize (be_encode 32 h) in
  let! header := sub message 0 (Z.of_nat (LengthSize + HashSize)) in
  let! message := putUint 4 message (LengthSize + HashSize) (ChecksumIEEE header) in
  let! message := copyAt message HeaderSize data in
  putUint 4 message (HeaderSize + length data) (ChecksumIEEE data).

(** [None] is the error of the encoder. *)
Definition encodeMsg {A} `{Wire A} (msgType : Z) (a : A) : go (option (list Z)) :=
  match EncodeToBytes a with
  | None => Ret None
  | Some data => let! m := newMsg msgType (itemHash a) data in Ret (Some m)
  end.

Section Server.

Context `{Wire Transaction} `{Wire Block}.

Definition newBlockMsg (b : Block) : go (option (list Z)) := encodeMsg BlockMsg b.
Definition newTransactionMsg (tx : Transaction) : go (option (list Z)) := encodeMsg TransactionMsg tx.

(** ** Receiving *)

(** What a receive loop hands to the fetchers. *)
Inductive delivery :=
| EnqueueTx (peer : string) (tx : Transaction)
| EnqueueBlock (peer : string) (b : Block).

(** The pool and the chain as one round of a loop sees them. *)
Record view := mkView { hasTransaction : hash -> bool; hasBlock : hash -> bool }.

(** The header of a message: does its checksum hold? *)
Definition headerOk (hdr : list Z) : go bool :=
  let! covered := sub hdr 0 (Z.of_nat (LengthSize + HashSize)) in
  let! field := sub hdr (Z.of_nat (LengthSize + HashSize)) (Z.of_nat (LengthSize + HashSize + Crc32Size)) in
  let! sum := getUint 4 field in
  Ret (ChecksumIEEE covered =? sum).

(** The type, the length (with the type byte cleared) and the hash. *)
Definition readHeader (hdr : list Z) : go (Z * Z * hash) :=
  match hdr !! 3%nat with
  | None => Panic
  | Some msgType =>
      let! hdr := setByte hdr 3 0 in
      let! len := sub hdr 0 (Z.of_nat LengthSize) in
      let! totalLength := getUint 4 len in
      let! h := sub hdr (Z.of_nat LengthSize) (Z.of_nat (LengthSize + HashSize)) in
      Ret (msgType, totalLength, be_decode h)
  end.

(** The payload [body[:n-4]] when its checksum [body[n-4:n]] holds; [n-4] may be
    negative. *)
Definition checkBody (body : list Z) : go (option (list Z)) :=
  let n := Z.of_nat (length body) in
  let! data := sub body 0 (n - Z.of_nat Crc32Size) in
  let! field := sub body (n - Z.of_nat Crc32Size) n in
  let! sum := getUint 4 field in
  Ret (if ChecksumIEEE data =? sum then Some data else None).

(** The connection of a relay node: its reader and the length of the receive buffer. *)
Record tcpConn := mkTcp { tcpReader : reader; recvLen : Z }.

Inductive outcome := Continue | Break.

(** The [switch] over the type of a received message. *)
Definition dispatch (v : view) (addr : string) (msgType : Z) (h : hash) (data : list Z) : list delivery :=
  if msgType =? TransactionMsg then
    if hasTransaction v h then []
    else match DecodeBytes data with Some tx => [EnqueueTx ":" tx] | None => [] end
  else if msgType =? BlockMsg then
    if hasBlock v h then []
    else match DecodeBytes data with Some b => [EnqueueBlock addr b] | None => [] end
  else [].

(** One round of the loop of [handleTcpMsgLoop]. *)
Definition tcpRound (v : view) (addr : string) (c : tcpConn) : go (outcome * tcpConn * list delivery) :=
  match ReadFull false HeaderSize (tcpReader c) with
  | (None, r) => Ret (Break, mkTcp r (recvLen c), [])
  | (Some hdr, r) =>
      let! ok := headerOk hdr in
      if negb ok then
        let drained := match connRead false (Z.to_nat (recvLen c)) (conn r) with
                       | Some (_, rest) => mkReader (buffered r) rest
                       | None => r
                       end in
        Ret (Continue, mkTcp drained (recvLen c), [])
      else
        let! (msgType, totalLength, h) := readHeader hdr in
        let n := if recvLen c <? totalLength then totalLength + 1 else recvLen c in
        match ReadFull false (Z.to_nat totalLength) r with
        | (None, r) => Ret (Continue, mkTcp r n, [])
        | (Some body, r) =>
            let! data := checkBody body in
            match data with
            | None => Ret (Continue, mkTcp r n, [])
            | Some data => Ret (Continue, mkTcp r n, dispatch v addr msgType h data)
            end
        end
  end.

(** The loop; [closed i] is the flag before round [i]. A round that continues has read a
    header, so the bytes of the connection bound the rounds. *)
Fixpoint tcpLoop (fuel : nat) (views : nat -> view) (closed : nat -> bool) (addr : string) (i : nat)
    (c : tcpConn) : go (list delivery) :=
  match fuel with
  | O => Ret []
  | S fuel =>
      if closed i then Ret []
      else
        let! (o, c, out) := tcpRound (views i) addr c in
        match o with
        | Break => Ret out
        | Continue => let! more := tcpLoop fuel views closed addr (S i) c in Ret (out ++ more)
        end
  end.

Definition handleTcpMsgLoop (views : nat -> view) (closed : nat -> bool) (addr : string)
    (segments : list (list Z)) : go (list delivery) :=
  tcpLoop (S (length (concat segments))) views closed addr 0 (mkTcp (newReader segments) 0x20000).

(** One round of [handleUdpMsgLoop]; the receive buffer has 0x1000 bytes. [Break] stands
    for a read that has nothing to return. *)
Definition udpRound (v : view) (r : reader) : go (outcome * reader * list delivery) :=
  match ReadFull true HeaderSize r with
  | (None, r) => Ret (Break, r, [])
  | (Some hdr, r) =>
      let! ok := headerOk hdr in
      if negb ok then Ret (Continue, r, [])
      else
        let! (msgType, totalLength, h) := readHeader hdr in
        if negb (msgType =? TransactionMsg) then Ret (Continue, r, [])
        else if 0x1000 <? totalLength then Panic
        else
          match ReadFull true (Z.to_nat totalLength) r with
          | (None, r) => Ret (Break, r, [])
          | (Some body, r) =>
              let! data := checkBody body in
              match data with
              | None => Ret (Continue, r, [])
              | Some data =>
                  Ret (Continue, r,
                       if hasTransaction v h then []
                       else match DecodeBytes data with Some tx => [EnqueueTx ":" tx] | None => [] end)
              end
          end
  end.

Fixpoint udpLoop (fuel : nat) (views : nat -> view) (i : nat) (r : reader) : go (list delivery) :=
  match fuel with
  | O => Ret []
  | S fuel =>
      let! (o, r, out) := udpRound (views i) r in
      match o with
      | Break => Ret out
      | Continue => let! more := udpLoop fuel views (S i) r in Ret (out ++ more)
      end
  end.

Definition handleUdpMsgLoop (views : nat -> view) (datagrams : list (list Z)) : go (list delivery) :=
  udpLoop (S (length (concat datagrams))) views 0 (newReader datagrams).

(** ** Broadcasting *)

(** The set of sent hashes, and the goroutines that wait to send their message to the dispatch loop. The channel
    [broadcastOp] is not buffered, so the loop receives from any of them: their list has no meaningful order. *)
Record broadcaster := mkBroadcaster {
  hashSent : gset hash;
  senders : list (list Z)
}.

(** A hash is marked even when its item cannot be encoded; otherwise a goroutine is started for its message. *)
Definition mark (s : broadcaster) (h : hash) (m : option (list Z)) : broadcaster :=
  mkBroadcaster (hashSent s ∪ {[h]}) (match m with Some m => senders s ++ [m] | None => senders s end).

Definition BroadcastBlock (s : broadcaster) (b : Block) : go broadcaster :=
  if decide (itemHash b ∈ hashSent s) then Ret s
  else let! m := newBlockMsg b in Ret (mark s (itemHash b) m).

Definition BroadcastTransaction (s : broadcaster) (tx : Transaction) : go broadcaster :=
  if decide (itemHash tx ∈ hashSent s) then Ret s
  else let! m := newTransactionMsg tx in Ret (mark s (itemHash tx) m).

(** A request to broadcast, or the loop receives from the [i]th of the waiting goroutines. *)
Inductive broadcastEvent := SubmitTx (tx : Transaction) | SubmitBlock (b : Block) | Receive (i : nat).

(** The state afterwards and what the loop receives. *)
Definition broadcastStep (s : broadcaster) (ev : broadcastEvent) : go (broadcaster * list (list Z)) :=
  match ev with
  | SubmitTx tx => let! s := BroadcastTransaction s tx in Ret (s, [])
  | SubmitBlock b => let! s := BroadcastBlock s b in Ret (s, [])
  | Receive i =>
      match senders s !! i with
      | Some m => Ret (mkBroadcaster (hashSent s) (take i (senders s) ++ drop (S i) (senders s)), [m])
      | None => Ret (s, [])
      end
  end.

Definition broadcastRun (s : broadcaster) (evs : list broadcastEvent) : go (broadcaster * list (list Z)) :=
  go_foldl (fun '(s, out) ev => let! (s, new) := broadcastStep s ev in Ret (s, out ++ new)) (s, []) evs.

End Server.

(** ** The dispatch loop and its goroutines *)

(** The loop [run]: the connected relay nodes, the variable [msgType] it shares with the
    goroutines it starts, and those of them that have not run yet. *)
Record server := mkServer {
  peers : gset string;
  msgType : Z;
  tasks : list (string * list Z)
}.

Inductive write := Udp (addr : string) (msg : list Z) | Tcp (addr : string) (msg : list Z).

Inductive runEvent :=
| AddPeer (addr : string)
| Broadcast (order : list string) (msg : list Z)
| RunTask (i : nat) (fails : bool).

(** The message is written by UDP when the variable says transaction at this moment and it
    fits a datagram; a failed TCP write removes the peer. *)
Definition runStep (s : server) (ev : runEvent) : go (server * list write) :=
  match ev with
  | AddPeer addr => Ret (mkServer (peers s ∪ {[addr]}) (msgType s) (tasks s), [])
  | Broadcast order msg =>
      match msg !! 3%nat with
      | None => Panic
      | Some t => Ret (mkServer (peers s) t (tasks s ++ ((fun addr => (addr, msg)) <$> order)), [])
      end
  | RunTask i fails =>
      match tasks s !! i with
      | None => Ret (s, [])
      | Some (addr, msg) =>
          let rest := take i (tasks s) ++ drop (S i) (tasks s) in
          if (msgType s =? TransactionMsg) && (Z.of_nat (length msg) <=? 1472)
          then Ret (mkServer (peers s) (msgType s) rest, [Udp addr msg])
          else Ret (mkServer (if fails then peers s ∖ {[addr]} else peers s) (msgType s) rest, [Tcp addr msg])
      end
  end.

Definition runServer (s : server) (evs : list runEvent) : go (server * list write) :=
  go_foldl (fun '(s, out) ev => let! (s, new) := runStep s ev in Ret (s, out ++ new)) (s, []) evs.

End Relay.
