(* ===== verification/RelayProps.v ===== *)
(** * Properties of the relay server (src/eth/pioplat_server.go)

    What arrives of what is sent, over TCP and however the stream is cut and damaged, the
    malformed headers that stop the process, the broadcast of every hash once, and the
    variable that the dispatch loop shares with its goroutines. *)

From stdpp Require Import base tactics list gmap strings.
From Stdlib Require Import ZArith Lia.
From S2P Require Import Prelude Types Bytes GoReader Relay.

Open Scope Z_scope.
Open Scope go_scope.

Import GoReader Relay.

Module RelayLemmas.

(** ** The wire format *)

(** The 36 bytes the first checksum covers: length in three bytes, type, hash. *)
Definition covered (ty : Z) (h : hash) (n : Z) : list Z := le_encode 3 n ++ [ty] ++ be_encode 32 h.

Definition header (ty : Z) (h : hash) (n : Z) : list Z :=
  covered ty h n ++ le_encode 4 (ChecksumIEEE (covered ty h n)).

Definition body (data : list Z) : list Z := data ++ le_encode 4 (ChecksumIEEE data).

Lemma length_covered ty h n : length (covered ty h n) = 36%nat.
Proof. unfold covered. by rewrite !length_app, length_le_encode, length_be_encode. Qed.

Lemma length_header ty h n : length (header ty h n) = 40%nat.
Proof. unfold header. by rewrite length_app, length_covered, length_le_encode. Qed.

Lemma length_body data : length (body data) = (length data + 4)%nat.
Proof. unfold body. by rewrite length_app, length_le_encode. Qed.

Lemma le_encode_u32 z : le_encode 4 (u32 z) = le_encode 3 z ++ [z / 2 ^ 24 mod 256].
Proof.
  unfold u32. cbn [le_encode app].
  assert (forall k, 0 <= k <= 24 -> (z mod 2 ^ 32) / 2 ^ k mod 256 = z / 2 ^ k mod 256) as E.
  { intros k Hk. replace (2 ^ 32) with (2 ^ k * 2 ^ (32 - k)) by (rewrite <- Z.pow_add_r by lia; f_equal; lia).
    rewrite Z.rem_mul_r by lia. rewrite Z.mul_comm, Z.div_add by lia.
    rewrite Z.div_small by (apply Z.mod_pos_bound; lia). rewrite Z.add_0_l.
    symmetry. apply Znumtheory.Zmod_div_mod; [lia|apply Z.pow_pos_nonneg; lia|].
    exists (2 ^ (24 - k)). change 256 with (2 ^ 8). rewrite <- Z.pow_add_r by lia. f_equal. lia. }
  rewrite !Z.div_div by lia. f_equal; [rewrite <- (Z.div_1_r z) at 2; rewrite <- (Z.div_1_r (z mod _)); apply (E 0); lia|]. f_equal; [apply (E 8); lia|].
  f_equal; [apply (E 16); lia|]. f_equal. apply (E 24). lia.
Qed.

Lemma newMsg_spec ty h data :
  newMsg ty h data = Ret (header ty h (Z.of_nat (length data + 4)) ++ body data).
Proof.
  unfold newMsg, HeaderSize, Crc32Size, LengthSize, HashSize. set (n := Z.of_nat (length data + 4)).
  replace (make (40 + length data + 4)) with ([] ++ make 4 ++ make 32 ++ make 4 ++ make (length data) ++ make 4)
    by (rewrite <- !make_app; f_equal; simpl; lia).
  change 0%nat with (length (@nil Z)) at 1. rewrite putUint_app by apply length_make. rewrite le_encode_u32.
  set (top := n / 2 ^ 24 mod 256). rewrite app_nil_l.
  assert (length (le_encode 3 n) = 3%nat) as H3 by apply length_le_encode.
  unfold setByte. rewrite !length_app, H3. rewrite decide_True by (simpl; lia).
  replace (<[3%nat:=ty]> ((le_encode 3 n ++ [top]) ++ make 32 ++ make 4 ++ make (length data) ++ make 4))
    with ((le_encode 3 n ++ [ty]) ++ make 32 ++ make 4 ++ make (length data) ++ make 4)
    by (rewrite <- !app_assoc, insert_app_r_alt by lia; by rewrite H3).
  assert (length (le_encode 3 n ++ [ty]) = 4%nat) as H4 by (rewrite length_app, H3; done).
  rewrite <- H4 at 1. rewrite copyAt_app by (rewrite length_be_encode; by rewrite length_make).
  replace ((le_encode 3 n ++ [ty]) ++ be_encode 32 h ++ make 4 ++ make (length data) ++ make 4)
    with ([] ++ covered ty h n ++ make 4 ++ make (length data) ++ make 4)
    by (unfold covered; by rewrite <- !app_assoc).
  rewrite sub_app by (rewrite ?length_covered; done). rewrite app_nil_l.
  replace (4 + 32)%nat with (length (covered ty h n)) by apply length_covered.
  rewrite putUint_app by apply length_make. rewrite app_assoc. fold (header ty h n).
  replace 40%nat with (length (header ty h n)) by apply length_header.
  rewrite copyAt_app by (by rewrite length_make).
  replace (header ty h n ++ data ++ make 4) with ((header ty h n ++ data) ++ make 4 ++ [])
    by (by rewrite app_nil_r, app_assoc).
  replace (length (header ty h n) + length data)%nat with (length (header ty h n ++ data)) by apply length_app.
  rewrite putUint_app by apply length_make. unfold body. by rewrite app_nil_r, <- !app_assoc.
Qed.

(** ** Reading it back *)

Lemma Checksum_bound p : Forall is_byte p -> 0 <= ChecksumIEEE p < 2 ^ 32.
Proof. intros Hp. by apply crc32Update_bound. Qed.

Lemma getUint_le p : Forall is_byte p -> getUint 4 (le_encode 4 (ChecksumIEEE p)) = Ret (ChecksumIEEE p).
Proof.
  intros Hp. unfold getUint. rewrite length_le_encode, decide_True by done.
  rewrite take_ge by (by rewrite length_le_encode). rewrite le_decode_encode, Z.mod_small; [done|].
  by apply Checksum_bound.
Qed.

Lemma covered_bytes ty h n : is_byte ty -> Forall is_byte (covered ty h n).
Proof. intros Ht. unfold covered. rewrite !Forall_app, Forall_singleton. auto with bytes. Qed.

Lemma headerOk_header ty h n : is_byte ty -> headerOk (header ty h n) = Ret true.
Proof.
  intros Ht. unfold headerOk, header, LengthSize, HashSize, Crc32Size.
  set (c := covered ty h n). assert (length c = 36%nat) as Hc by apply length_covered.
  rewrite <- (app_nil_l c) at 1. rewrite <- app_assoc, sub_app by (rewrite ?Hc; done).
  rewrite <- (app_nil_r (le_encode 4 _)) at 1. rewrite sub_app by (rewrite ?length_le_encode, ?Hc; done).
  rewrite getUint_le by (by apply covered_bytes). by rewrite Z.eqb_refl.
Qed.

Lemma readHeader_header ty h n :
  is_byte ty -> 0 <= h < 2 ^ 256 -> readHeader (header ty h n) = Ret (ty, n mod 2 ^ 24, h).
Proof.
  intros Ht Hh. unfold readHeader, header, LengthSize, HashSize. set (crc := le_encode 4 _).
  assert (length (le_encode 3 n) = 3%nat) as H3 by apply length_le_encode.
  unfold covered. rewrite <- !app_assoc. rewrite lookup_app_r by lia. rewrite H3. cbn [lookup list_lookup app Nat.sub].
  unfold setByte. rewrite decide_True by (rewrite length_app; cbn [length]; lia).
  rewrite insert_app_r_alt by lia. rewrite H3. cbn [insert list_insert Nat.sub].
  replace (le_encode 3 n ++ 0 :: be_encode 32 h ++ crc) with ([] ++ (le_encode 3 n ++ [0]) ++ be_encode 32 h ++ crc)
    by (by rewrite app_nil_l, <- app_assoc).
  rewrite sub_app by (rewrite ?length_app, ?H3; done). rewrite app_nil_l.
  rewrite sub_app by (rewrite ?length_app, ?H3, ?length_be_encode; done).
  unfold getUint. rewrite decide_True by (rewrite length_app, H3; simpl; lia).
  rewrite take_ge by (rewrite length_app, H3; simpl; lia).
  rewrite be_decode_encode, Z.mod_small by (by change (256 ^ Z.of_nat 32) with (2 ^ 256)). f_equal. do 2 f_equal.
  change (2 ^ 24) with (256 ^ Z.of_nat 3). rewrite <- le_decode_encode. clear. cbn [le_encode app le_decode]. lia.
Qed.

Lemma checkBody_app data field :
  length field = 4%nat ->
  checkBody (data ++ field) = Ret (if ChecksumIEEE data =? le_decode field then Some data else None).
Proof.
  intros Hf. unfold checkBody, Crc32Size. rewrite length_app, Hf.
  rewrite <- (app_nil_l (data ++ field)) at 1. rewrite sub_app by (simpl; lia).
  rewrite <- (app_nil_r field) at 1. rewrite sub_app by lia.
  unfold getUint. rewrite decide_True by lia. by rewrite take_ge by lia.
Qed.

Lemma checkBody_body data : Forall is_byte data -> checkBody (body data) = Ret (Some data).
Proof.
  intros Hd. unfold body. rewrite checkBody_app by apply length_le_encode.
  rewrite le_decode_encode, Z.mod_small by (by apply Checksum_bound). by rewrite Z.eqb_refl.
Qed.

Lemma le_decode_inj a b :
  Forall is_byte a -> Forall is_byte b -> length a = length b -> le_decode a = le_decode b -> a = b.
Proof. intros Ha Hb Hl E. rewrite <- (le_encode_decode a), <- (le_encode_decode b) by done. congruence. Qed.

Lemma insert_split {A} (l : list A) i x y : l !! i = Some y -> <[i:=x]> l = take i l ++ x :: drop (S i) l.
Proof. intros Hi. by apply insert_take_drop; eapply lookup_lt_Some. Qed.

(** A body with one byte changed is recognised. *)
Lemma checkBody_damaged data i b :
  Forall is_byte data -> is_byte b -> (i < length data + 4)%nat -> body data !! i <> Some b ->
  checkBody (<[i := b]> (body data)) = Ret None.
Proof.
  intros Hd Hb Hi Hne. unfold body in *. set (crc := le_encode 4 (ChecksumIEEE data)) in *.
  assert (length crc = 4%nat) as Hc by apply length_le_encode.
  assert (le_decode crc = ChecksumIEEE data) as Hdc.
  { unfold crc. rewrite le_decode_encode, Z.mod_small; [done|]. by apply Checksum_bound. }
  destruct (decide (i < length data)%nat) as [Hlt|Hge].
  - rewrite lookup_app_l in Hne by done. rewrite insert_app_l by done.
    rewrite checkBody_app by done. rewrite Hdc. destruct (lookup_lt_is_Some_2 data i Hlt) as [y Hy].
    rewrite (insert_split _ _ _ y) by done. rewrite <- (take_drop_middle data i y) at 3 by done.
    rewrite (proj2 (Z.eqb_neq _ _)); [done|]. rewrite Forall_forall in Hd. apply ChecksumIEEE_detects; [..|congruence].
    + apply Forall_take, Forall_forall, Hd.
    + apply Forall_drop, Forall_forall, Hd.
    + done.
    + eapply Hd, list_elem_of_lookup_2, Hy.
  - rewrite lookup_app_r in Hne by lia. rewrite insert_app_r_alt by lia.
    rewrite checkBody_app by (by rewrite length_insert).
    rewrite (proj2 (Z.eqb_neq _ _)); [done|]. rewrite <- Hdc. intros E.
    apply le_decode_inj in E; [|apply le_encode_bytes| |by rewrite length_insert].
    + apply Hne. rewrite E. apply list_lookup_insert_eq. lia.
    + apply Forall_insert; [apply le_encode_bytes|done].
Qed.

(** ** A stream of messages *)

Section Stream.

Context `{Wire Transaction} `{Wire Block}.

(** A message on the wire: the item, its encoding, and the byte of the body that
    is changed on the way, if any. *)
Record sent := mkSent { item : Transaction + Block; payload : list Z; damage : option (nat * Z) }.

Definition sentType (s : sent) : Z := match item s with inl _ => TransactionMsg | inr _ => BlockMsg end.
Definition sentHash (s : sent) : hash := match item s with inl tx => itemHash tx | inr b => itemHash b end.

Definition wire (s : sent) : list Z :=
  header (sentType s) (sentHash s) (Z.of_nat (length (payload s) + 4)) ++
  match damage s with None => body (payload s) | Some (i, b) => <[i := b]> (body (payload s)) end.

(** The encoding is that of the item and its length fits into three bytes. *)
Definition valid (s : sent) : Prop :=
  match item s with
  | inl tx => EncodeToBytes tx = Some (payload s)
  | inr b => EncodeToBytes b = Some (payload s)
  end /\
  Z.of_nat (length (payload s) + 4) < 2 ^ 24 /\
  match damage s with
  | None => True
  | Some (i, b) => (i < length (payload s) + 4)%nat /\ is_byte b /\ body (payload s) !! i <> Some b
  end.

(** What the receiver hands on of one message: nothing when it is damaged or known. *)
Definition expected (v : view) (addr : string) (it : Transaction + Block) (damaged : bool)
    (out : list delivery) : Prop :=
  match it with
  | inl tx =>
      if damaged || hasTransaction v (itemHash tx) then out = []
      else exists tx', out = [EnqueueTx ":" tx'] /\ itemHash tx' = itemHash tx
  | inr b =>
      if damaged || hasBlock v (itemHash b) then out = []
      else exists b', out = [EnqueueBlock addr b'] /\ itemHash b' = itemHash b
  end.

(** The message [m] on the wire: what the sender made of the item, or that with one byte
    after the header changed. *)
Definition onWire (s : (Transaction + Block) * option (nat * Z)) (m : list Z) : Prop :=
  exists m0, match s.1 with inl tx => newTransactionMsg tx | inr b => newBlockMsg b end = Ret (Some m0) /\
    Z.of_nat (length m0) < 2 ^ 24 + 40 /\
    match s.2 with
    | None => m = m0
    | Some (i, b) => (40 <= i < length m0)%nat /\ is_byte b /\ m0 !! i <> Some b /\ m = <[i := b]> m0
    end.

Lemma onWire_wire x m :
  onWire x m -> exists data d, let s := mkSent x.1 data d in
    valid s /\ wire s = m /\ bool_decide (is_Some d) = bool_decide (is_Some x.2).
Proof.
  destruct x as [it d]. intros (m0 & Hm & Hlen & Hd). cbn [fst snd] in *.
  assert (exists data, m0 = header (sentType (mkSent it data None)) (sentHash (mkSent it data None))
      (Z.of_nat (length data + 4)) ++ body data /\
    match it with inl tx => EncodeToBytes tx = Some data | inr b => EncodeToBytes b = Some data end) as (data & -> & He).
  { unfold newTransactionMsg, newBlockMsg, encodeMsg in Hm.
    destruct it as [tx|b]; (destruct (EncodeToBytes _) as [data|] eqn:E; [|done]);
      rewrite newMsg_spec in Hm; injection Hm as <-; by exists data. }
  rewrite length_app, length_header, length_body in *. destruct d as [[i b]|].
  - destruct Hd as (Hi & Hb & Hne & ->). rewrite lookup_app_r, length_header in Hne by (rewrite length_header; lia).
    exists data, (Some ((i - 40)%nat, b)). cbv zeta. split_and!; [|unfold wire|done].
    + split_and!; [done|simpl; lia|]. simpl. split_and!; [lia|done|done].
    + cbn [damage payload]. rewrite insert_app_r_alt by (rewrite length_header; lia). by rewrite length_header.
  - subst m. exists data, None. split_and!; [|done|done]. split_and!; [done|simpl; lia|done].
Qed.

Lemma onWires_wires l ms :
  Forall2 onWire l ms -> exists fs, Forall valid fs /\ wire <$> fs = ms /\
    (fun s => (item s, bool_decide (is_Some (damage s)))) <$> fs =
    (fun x => (x.1, bool_decide (is_Some x.2))) <$> l.
Proof.
  induction 1 as [|x m l ms Hx _ (fs & Hv & Hw & Hd)]; [by exists []|].
  destruct (onWire_wire x m Hx) as (data & d & Hvs & Hws & Hds). cbv zeta in *.
  exists (mkSent x.1 data d :: fs). split_and!; [by constructor|by rewrite fmap_cons, Hws, Hw|].
  rewrite !fmap_cons, Hd. by rewrite <- Hds.
Qed.

Lemma valid_facts s :
  valid s -> is_byte (sentType s) /\ 0 <= sentHash s < 2 ^ 256 /\ Forall is_byte (payload s).
Proof.
  intros (He & _ & _). revert He. unfold sentType, sentHash. destruct (item s); intros He;
    (split; [unfold is_byte, TransactionMsg, BlockMsg; lia|]; split; [exact (wire_hash _ _ He)|exact (wire_bytes _ _ He)]).
Qed.

Lemma dispatch_expected v addr s :
  valid s -> damage s = None -> expected v addr (item s) false (dispatch v addr (sentType s) (sentHash s) (payload s)).
Proof.
  intros (He & _ & _) Hd. revert He. unfold expected, dispatch, sentType, sentHash. clear Hd.
  destruct (item s) as [tx|b]; intros He; simpl.
  - destruct (hasTransaction v (itemHash tx)); [done|].
    destruct (decode_encode tx _ He) as (tx' & -> & E). by exists tx'.
  - destruct (hasBlock v (itemHash b)); [done|]. destruct (decode_encode b _ He) as (b' & -> & E). by exists b'.
Qed.

Lemma wire_split s : valid s -> exists bd, wire s = header (sentType s) (sentHash s) (Z.of_nat (length (payload s) + 4)) ++ bd /\
  length bd = (length (payload s) + 4)%nat /\
  checkBody bd = Ret (match damage s with None => Some (payload s) | Some _ => None end).
Proof.
  intros Hv. destruct (valid_facts s Hv) as (_ & _ & Hp). destruct Hv as (_ & _ & Hd). eexists. split; [done|].
  destruct (damage s) as [[i b]|]; rewrite ?length_insert, length_body; (split; [done|]).
  - destruct Hd as (Hi & Hb & Hne). by apply checkBody_damaged.
  - by apply checkBody_body.
Qed.

Lemma tcpRound_wire v addr c s rest :
  valid s -> stream (tcpReader c) = wire s ++ rest ->
  exists c' out, tcpRound v addr c = Ret (Continue, c', out) /\ stream (tcpReader c') = rest /\
    expected v addr (item s) (bool_decide (is_Some (damage s))) out.
Proof.
  intros Hv Hs. destruct (valid_facts s Hv) as (Ht & Hh & _). destruct (wire_split s Hv) as (bd & Hw & Hl & Hc).
  rewrite Hw, <- app_assoc in Hs. destruct c as [r n]. cbn [tcpReader] in Hs. unfold tcpRound. cbn [tcpReader recvLen].
  destruct (ReadFull_app false r _ _ ltac:(done) Hs) as (r1 & E1 & Hs1 & _).
  rewrite length_header in E1. unfold HeaderSize. rewrite E1, headerOk_header, readHeader_header by done.
  cbn [negb]. rewrite Z.mod_small by (destruct Hv as (_ & ? & _); lia). rewrite Nat2Z.id.
  destruct (ReadFull_app false r1 bd rest ltac:(done) Hs1) as (r2 & E2 & Hs2 & _). rewrite Hl in E2. rewrite E2, Hc.
  destruct (damage s) as [d|] eqn:Ed; (eexists _, _; split; [done|]; split; [done|]).
  - unfold expected. simpl. by destruct (item s).
  - by apply dispatch_expected.
Qed.

Lemma tcpLoop_wire fuel views closed addr l i c :
  Forall valid l -> (forall j, closed j = false) -> (length l < fuel)%nat ->
  stream (tcpReader c) = concat (wire <$> l) ->
  exists outs, tcpLoop fuel views closed addr i c = Ret (concat outs) /\ length outs = length l /\
    forall k s o, l !! k = Some s -> outs !! k = Some o ->
      expected (views (i + k)%nat) addr (item s) (bool_decide (is_Some (damage s))) o.
Proof.
  intros Hv Hcl. revert l i c Hv. induction fuel as [|fuel IH]; intros l i c Hv Hf Hs; [lia|].
  cbn [tcpLoop]. rewrite Hcl. destruct l as [|s l].
  - exists []. unfold tcpRound. assert ((ReadFull false HeaderSize (tcpReader c)).1 = None) as E.
    { apply ReadFull_eof; [done|]. rewrite Hs. simpl. unfold HeaderSize. lia. }
    destruct (ReadFull _ _ _) as [res r]. simpl in E. subst res. split_and!; [done|done|]. intros k s o Hk. done.
  - inversion_clear Hv as [|?? Hv1 Hv2]. cbn [fmap list_fmap concat] in Hs.
    destruct (tcpRound_wire (views i) addr c s _ Hv1 Hs) as (c' & out & -> & Hs' & He).
    destruct (IH l (S i) c' Hv2 ltac:(simpl in Hf; lia) Hs') as (outs & -> & Hl & Ho).
    exists (out :: outs). split_and!; [done|simpl; by rewrite Hl|].
    intros [|k] s' o; simpl; [intros [= <-] [= <-]; by rewrite Nat.add_0_r|].
    intros Hk Hok. rewrite <- Nat.add_succ_comm. by eapply Ho.
Qed.

Lemma length_wires l : Forall valid l -> (length l <= length (concat (wire <$> l)))%nat.
Proof.
  induction 1 as [|s l Hs _ IH]; [done|]. cbn [fmap list_fmap concat length]. destruct (wire_split s Hs) as (bd & -> & _).
  rewrite !length_app, length_header. lia.
Qed.

End Stream.

(** ** Broadcasting *)

Section Broadcast.

Context `{Wire Transaction} `{Wire Block}.

(** The requests among the events. *)
Definition submitted (ev : broadcastEvent) : option (Transaction + Block) :=
  match ev with SubmitTx tx => Some (inl tx) | SubmitBlock b => Some (inr b) | Receive _ => None end.

Definition hashOfItem (it : Transaction + Block) : hash :=
  match it with inl tx => itemHash tx | inr b => itemHash b end.

Definition messageOf (it : Transaction + Block) : list (list Z) :=
  match match it with inl tx => newTransactionMsg tx | inr b => newBlockMsg b end with
  | Ret (Some m) => [m]
  | _ => []
  end.

(** The items whose hash occurs for the first time. *)
Fixpoint firsts (seen : gset hash) (l : list (Transaction + Block))
    : list (Transaction + Block) :=
  match l with
  | [] => []
  | it :: l =>
      if decide (hashOfItem it ∈ seen) then firsts seen l
      else it :: firsts (seen ∪ {[hashOfItem it]}) l
  end.

Lemma messageOf_Ret it : exists m, match it with inl tx => newTransactionMsg tx | inr b => newBlockMsg b end = Ret m /\ messageOf it = match m with Some m => [m] | None => [] end.
Proof.
  unfold messageOf, newTransactionMsg, newBlockMsg, encodeMsg.
  destruct it as [tx|b]; (destruct (EncodeToBytes _) as [data|]; [rewrite newMsg_spec|]; by eexists).
Qed.

Lemma broadcastStep_submit s ev it : submitted ev = Some it ->
  broadcastStep s ev = Ret (if decide (hashOfItem it ∈ hashSent s) then s else mkBroadcaster (hashSent s ∪ {[hashOfItem it]}) (senders s ++ messageOf it), []).
Proof.
  intros Hev. destruct (messageOf_Ret it) as (m & E & ->). destruct ev as [tx|b|i]; simplify_eq/=; unfold BroadcastTransaction, BroadcastBlock;
    (case_decide; [done|]); rewrite E; destruct m; cbn [mark]; rewrite ?app_nil_r; done.
Qed.

(** In every interleaving the messages received and waiting are those of the fresh items. *)
Lemma broadcastRun_spec evs s out :
  exists s' out', go_foldl (fun '(s, out) ev => let! (s, new) := broadcastStep s ev in Ret (s, out ++ new)) (s, out) evs = Ret (s', out') /\
    out' ++ senders s' ≡ₚ out ++ senders s ++ (firsts (hashSent s) (omap submitted evs) ≫= messageOf) /\
    hashSent s' = hashSent s ∪ list_to_set (hashOfItem <$> omap submitted evs).
Proof.
  revert s out. induction evs as [|ev evs IH]; intros s out; cbn [go_foldl omap list_omap].
  { exists s, out. split_and!; [done|by rewrite app_nil_r|]. set_solver. }
  destruct (submitted ev) as [it|] eqn:Hev.
  - rewrite (broadcastStep_submit s ev it Hev). cbn [firsts fmap list_fmap list_to_set]. rewrite app_nil_r. case_decide as Hin.
    + destruct (IH s out) as (s' & out' & E & Hp & Hh). exists s', out'. split_and!; [done|done|]. rewrite Hh. set_solver.
    + destruct (IH (mkBroadcaster (hashSent s ∪ {[hashOfItem it]}) (senders s ++ messageOf it)) out) as (s' & out' & E & Hp & Hh). exists s', out'. split_and!; [done| |].
      * rewrite Hp. cbn [senders hashSent mbind list_bind]. by rewrite <- app_assoc.
      * rewrite Hh. cbn [hashSent]. set_solver.
  - destruct ev as [| |i]; [done..|]. cbn [broadcastStep]. destruct (senders s !! i) as [m|] eqn:Hi.
    + destruct (IH (mkBroadcaster (hashSent s) (take i (senders s) ++ drop (S i) (senders s))) (out ++ [m])) as (s' & out' & E & Hp & Hh). exists s', out'. split_and!; [done| |done].
      rewrite Hp. cbn [senders hashSent]. rewrite <- (take_drop_middle (senders s) i m Hi) at 3. solve_Permutation.
    + rewrite app_nil_r. exact (IH s out).
Qed.

(** The waiting goroutines can all be served. *)
Lemma broadcast_drains s out :
  go_foldl (fun '(s, out) ev => let! (s, new) := broadcastStep s ev in Ret (s, out ++ new)) (s, out) (replicate (length (senders s)) (Receive 0)) = Ret (mkBroadcaster (hashSent s) [], out ++ senders s).
Proof.
  destruct s as [sent l]. cbn [senders hashSent]. revert out. induction l as [|m l IH]; intros out; cbn [length replicate go_foldl]; [by rewrite app_nil_r|].
  cbn [broadcastStep senders lookup list_lookup take drop app hashSent]. rewrite IH. by rewrite <- app_assoc.
Qed.

Lemma firsts_spec seen l :
  firsts seen l `sublist_of` l /\ NoDup (hashOfItem <$> firsts seen l) /\
  forall h, h ∈ hashOfItem <$> firsts seen l <-> h ∈ hashOfItem <$> l /\ h ∉ seen.
Proof.
  revert seen. induction l as [|it l IH]; intros seen; cbn [firsts].
  { split_and!; [done|constructor|]. set_solver. }
  case_decide as Hin.
  - destruct (IH seen) as (H1 & H2 & H3). split_and!; [by constructor|done|].
    intros h. rewrite H3, fmap_cons, elem_of_cons. split; [tauto|]. intros [[->|] ?]; tauto.
  - destruct (IH (seen ∪ {[hashOfItem it]})) as (H1 & H2 & H3). split_and!; [by constructor| |].
    + rewrite fmap_cons. constructor; [|done]. rewrite H3. set_solver.
    + intros h. rewrite !fmap_cons, !elem_of_cons, H3, not_elem_of_union, not_elem_of_singleton.
      destruct (decide (h = hashOfItem it)) as [->|]; tauto.
Qed.

(** The UDP loop hands on transactions only. *)
Lemma udpLoop_no_block fuel views i r out addr b :
  udpLoop fuel views i r = Ret out -> EnqueueBlock addr b ∉ out.
Proof.
  revert i r out. induction fuel as [|fuel IH]; intros i r out; cbn [udpLoop]; [intros [= <-]; apply not_elem_of_nil|].
  destruct (udpRound (views i) r) as [[[o r'] new]|] eqn:E; [|done].
  assert (EnqueueBlock addr b ∉ new) as Hnew.
  { unfold udpRound in E. destruct (ReadFull true HeaderSize r) as [[hdr|] r1]; [|injection E as <- <- <-; apply not_elem_of_nil].
    destruct (headerOk hdr) as [ok|]; [|done]. destruct (negb ok); [injection E as <- <- <-; apply not_elem_of_nil|].
    destruct (readHeader hdr) as [[[ty n] h]|]; [|done].
    destruct (negb _); [injection E as <- <- <-; apply not_elem_of_nil|]. destruct (_ <? _); [done|].
    destruct (ReadFull true _ r1) as [[bd|] r2]; [|injection E as <- <- <-; apply not_elem_of_nil].
    destruct (checkBody bd) as [[data|]|]; [|injection E as <- <- <-; apply not_elem_of_nil|done].
    injection E as <- <- <-. destruct (hasTransaction _ _); [apply not_elem_of_nil|].
    destruct (DecodeBytes data); [|apply not_elem_of_nil]. rewrite list_elem_of_singleton. discriminate. }
  destruct o; [|by intros [= <-]]. destruct (udpLoop fuel views (S i) r') as [more|] eqn:E'; [|done].
  intros [= <-]. rewrite elem_of_app. intros [|Hm]; [done|]. by apply (IH _ _ _ E').
Qed.

(** The type byte of a message. *)
Lemma encodeMsg_type {A} `{Wire A} ty (a : A) m : encodeMsg ty a = Ret (Some m) -> m !! 3%nat = Some ty.
Proof.
  unfold encodeMsg. destruct (EncodeToBytes a) as [data|]; [|done]. rewrite newMsg_spec.
  set (msg := _ ++ body data). intros E. assert (msg = m) as <- by (by injection E). unfold msg, header, covered.
  rewrite <- !app_assoc.
  rewrite lookup_app_r by (by rewrite length_le_encode). by rewrite length_le_encode.
Qed.

End Broadcast.

End RelayLemmas.

Import RelayLemmas.

(** C5: Over TCP, a sequence of messages arrives complete and in order however the
    network cuts the stream, even when it changes a byte in the body of some of them:
    every message the receiver does not know yet is handed to the fetchers exactly once, with
    its hash, the damaged ones are recognised by their checksum and skipped, and the
    receiver never loses its place in the stream. *)
Theorem tcp_delivers_in_order `{Wire Transaction} `{Wire Block} views closed addr l ms segments :
  Forall2 onWire l ms -> (forall i, closed i = false) -> concat segments = concat ms ->
  exists outs, handleTcpMsgLoop views closed addr segments = Ret (concat outs) /\
    length outs = length l /\
    forall i it d o, l !! i = Some (it, d) -> outs !! i = Some o ->
      expected (views i) addr it (bool_decide (is_Some d)) o.
Proof.
  intros Hl Hc Hs. destruct (onWires_wires l ms Hl) as (fs & Hv & <- & Hd). unfold handleTcpMsgLoop.
  destruct (tcpLoop_wire (S (length (concat segments))) views closed addr fs 0 (mkTcp (newReader segments) 0x20000))
    as (outs & -> & Hlen & Ho); [done|done| |by unfold stream|].
  { rewrite Hs. pose proof (length_wires fs Hv). lia. }
  exists outs. split_and!; [done| |].
  - rewrite Hlen. apply (f_equal length) in Hd. by rewrite !length_fmap in Hd.
  - intros i it d o Hi Hoi. assert ((fun s => (item s, bool_decide (is_Some (damage s)))) <$> fs !! i =
      Some (it, bool_decide (is_Some d))) as (s & Hs1 & Hs2)%fmap_Some by (rewrite <- list_lookup_fmap, Hd, list_lookup_fmap, Hi; done).
    injection Hs2 as -> ->. by eapply Ho.
Qed.

(** C39: The relay broadcasts a block or transaction once. Whatever is requested and in whatever order the dispatch loop receives from the
    goroutines that send to it, nothing panics, and the messages received so far together with those still waiting are exactly those of the items
    whose hash was requested for the first time, one for each that can be encoded; their order need not be kept. A repeated request changes
    nothing, for as long as the node runs, and the waiting messages can always all be received. *)
Theorem relay_broadcasts_once `{Wire Transaction} `{Wire Block} evs :
  let requested := omap submitted evs in
  exists s received fresh, broadcastRun (mkBroadcaster ∅ []) evs = Ret (s, received) /\
    received ++ senders s ≡ₚ (fresh ≫= messageOf) /\
    fresh `sublist_of` requested /\ NoDup (hashOfItem <$> fresh) /\ (forall h, h ∈ hashOfItem <$> fresh <-> h ∈ hashOfItem <$> requested) /\
    (forall ev it, submitted ev = Some it -> hashOfItem it ∈ hashOfItem <$> requested -> broadcastStep s ev = Ret (s, [])) /\
    exists s', broadcastRun s (replicate (length (senders s)) (Receive 0)) = Ret (s', senders s) /\ senders s' = [].
Proof.
  intros requested. destruct (broadcastRun_spec evs (mkBroadcaster ∅ []) []) as (s & received & E & Hp & Hh). destruct (firsts_spec ∅ requested) as (H1 & H2 & H3).
  exists s, received, (firsts ∅ requested). split_and!; [exact E|exact Hp|done|done| | |].
  - intros h. rewrite H3. set_solver.
  - intros ev it Hev Hit. rewrite (broadcastStep_submit s ev it Hev), decide_True; [done|]. rewrite Hh. set_solver.
  - eexists. unfold broadcastRun. rewrite broadcast_drains. by split.
Qed.

(** [run] reads the type of a message into a variable that its goroutines read when
    they run. So if a transaction is broadcast before the goroutine of a small block has
    run, the block is written to the UDP socket instead of the TCP connection, where the
    receiving node never hands on a block; without the second broadcast it goes over TCP. *)
Theorem block_lost_to_shared_type `{Wire Transaction} `{Wire Block} b tx m t addr views datagrams out :
  newBlockMsg b = Ret (Some m) -> newTransactionMsg tx = Ret (Some t) -> (length m <= 1472)%nat ->
  handleUdpMsgLoop views datagrams = Ret out ->
  (exists s, runServer (mkServer {[addr]} 0 []) [Broadcast [addr] m; RunTask 0 false] = Ret (s, [Tcp addr m])) /\
  (exists s, runServer (mkServer {[addr]} 0 []) [Broadcast [addr] m; Broadcast [addr] t; RunTask 0 false] =
     Ret (s, [Udp addr m])) /\
  forall who b', EnqueueBlock who b' ∉ out.
Proof.
  intros Hm%encodeMsg_type Ht%encodeMsg_type Hl Hout. unfold runServer, runStep. cbn [go_foldl]. rewrite Hm, Ht.
  cbn. rewrite (proj2 (Z.leb_le _ _)) by lia. split; [by eexists|]. split; [by eexists|].
  intros who b'. by eapply udpLoop_no_block.
Qed.

(** ** A concrete encoding *)

(** For the examples, an item travels as its hash. *)
Definition hashBytes (h : hash) : option (list Z) :=
  if decide (0 <= h < 2 ^ 256) then Some (be_encode 32 h) else None.

Lemma hashBytes_Some h bs :
  hashBytes h = Some bs -> 0 <= h < 2 ^ 256 /\ Forall is_byte bs /\ length bs = 32%nat /\ be_decode bs = h.
Proof.
  unfold hashBytes. case_decide as Hh; [|done]. intros [= <-].
  rewrite length_be_encode, be_decode_encode. change (256 ^ Z.of_nat 32) with (2 ^ 256).
  rewrite Z.mod_small by done. auto with bytes.
Qed.

Definition hashWire {A} (hashOf : A -> hash) (ofHash : hash -> A) (Hof : forall h, hashOf (ofHash h) = h) : Wire A.
Proof.
  refine {| EncodeToBytes := fun a => hashBytes (hashOf a);
            DecodeBytes := fun bs => if decide (length bs = 32%nat) then Some (ofHash (be_decode bs)) else None;
            itemHash := hashOf |}.
  - intros a bs Hb. apply hashBytes_Some in Hb. tauto.
  - intros a bs Hb. apply hashBytes_Some in Hb. tauto.
  - intros a bs Hb. apply hashBytes_Some in Hb as (_ & _ & Hl & Hd).
    exists (ofHash (be_decode bs)). rewrite decide_True by done. by rewrite Hof, Hd.
Defined.

#[local] Instance exTxWire : Wire Transaction := hashWire txHash (fun h => mkTx h 0) (fun h => eq_refl).
#[local] Instance exBlockWire : Wire Block := hashWire blockHash (exBlock 1) (fun h => eq_refl).

Definition exView : view := mkView (fun _ => false) (fun h => h =? 8).

Definition exMsg (it : Transaction + Block) : list Z :=
  match match it with inl tx => newTransactionMsg tx | inr b => newBlockMsg b end with
  | Ret (Some m) => m
  | _ => []
  end.

(** Two transactions, the first damaged, a known and an unknown block, in three segments. *)
Lemma tcp_delivers_in_order_witness :
  exists outs,
    handleTcpMsgLoop (fun _ => exView) (fun _ => false) "r:1"
      [take 50 (exMsg (inl (mkTx 5 0))); <[3%nat := 77]> (drop 50 (exMsg (inl (mkTx 5 0))));
       exMsg (inl (mkTx 6 0)) ++ exMsg (inr (exBlock 1 8)) ++ exMsg (inr (exBlock 1 9))] = Ret (concat outs) /\
    concat outs = [EnqueueTx ":" (mkTx 6 0); EnqueueBlock "r:1" (exBlock 1 9)] /\
    (exists tx, outs !! 1%nat = Some [EnqueueTx ":" tx] /\ itemHash tx = 6).
Proof.
  destruct (tcp_delivers_in_order (fun _ => exView) (fun _ => false) "r:1"
    [(inl (mkTx 5 0), Some (53%nat, 77)); (inl (mkTx 6 0), None); (inr (exBlock 1 8), None); (inr (exBlock 1 9), None)]
    [<[53%nat := 77]> (exMsg (inl (mkTx 5 0))); exMsg (inl (mkTx 6 0)); exMsg (inr (exBlock 1 8)); exMsg (inr (exBlock 1 9))]
    [take 50 (exMsg (inl (mkTx 5 0))); <[3%nat := 77]> (drop 50 (exMsg (inl (mkTx 5 0))));
     exMsg (inl (mkTx 6 0)) ++ exMsg (inr (exBlock 1 8)) ++ exMsg (inr (exBlock 1 9))])
    as (outs & E & Hl & Ho).
  - repeat constructor; (eexists; split; [vm_compute; reflexivity|]; split; [vm_compute; reflexivity|];
      first [reflexivity|split; [vm_compute; lia|]; split; [vm_compute; split; discriminate || reflexivity|];
             split; [vm_compute; discriminate|reflexivity]]).
  - intros i. reflexivity.
  - vm_compute. reflexivity.
  - exists outs. split; [exact E|]. split; [vm_compute in E; injection E as E; symmetry; exact E|].
    destruct (lookup_lt_is_Some_2 outs 1) as [o Hoi]; [rewrite Hl; vm_compute; lia|].
    destruct (Ho 1%nat (inl (mkTx 6 0)) None o eq_refl Hoi) as (tx & -> & Htx). exists tx. split; [exact Hoi|exact Htx].
Defined.

(** A header with a correct checksum and a bad length stops the process. Over
    TCP a length below four, and over UDP, where no connection is needed, also a length above
    4096, makes a slice expression of the receive loop panic. *)
Theorem malformed_length_crashes `{Wire Transaction} `{Wire Block} views closed addr ty h n rest segments :
  is_byte ty -> 0 <= h < 2 ^ 256 -> 0 <= n < 2 ^ 24 -> n <= Z.of_nat (length rest) ->
  concat segments = header ty h n ++ rest ->
  (n < 4 -> closed 0%nat = false -> handleTcpMsgLoop views closed addr segments = Panic) /\
  (ty = TransactionMsg -> Forall (fun s => (length s <= bufSize)%nat) segments ->
     n < 4 \/ 4096 < n -> handleUdpMsgLoop views segments = Panic).
Proof.
  intros Ht Hh Hn Hr Hs. assert (stream (newReader segments) = header ty h n ++ rest) as Hst by done.
  assert (forall r, stream r = rest -> n < 4 -> forall dg, intact dg r ->
    exists bd r', ReadFull dg (Z.to_nat n) r = (Some bd, r') /\ checkBody bd = Panic) as Hbody.
  { intros r Hrs Hn4 dg Hi. destruct (ReadFull_app dg r (take (Z.to_nat n) rest) (drop (Z.to_nat n) rest) Hi)
      as (r' & E & _); [by rewrite take_drop|].
    assert (length (take (Z.to_nat n) rest) = Z.to_nat n) as Hl by (rewrite length_take; lia).
    rewrite Hl in E. eexists _, r'. split; [done|]. unfold checkBody, sub, Crc32Size. rewrite Hl.
    rewrite (proj2 (Z.leb_gt 0 (Z.of_nat (Z.to_nat n) - Z.of_nat 4))) by lia. simpl. done. }
  split.
  - intros Hn4 Hc. unfold handleTcpMsgLoop. cbn [tcpLoop]. rewrite Hc. unfold tcpRound. cbn [tcpReader recvLen].
    destruct (ReadFull_app false _ _ _ ltac:(done) Hst) as (r1 & E1 & Hs1 & Hi1).
    rewrite length_header in E1. unfold HeaderSize. rewrite E1, headerOk_header, readHeader_header by done.
    cbn [negb]. rewrite Z.mod_small by lia.
    destruct (Hbody r1 Hs1 Hn4 false Hi1) as (bd & r' & -> & ->). done.
  - intros -> Hseg Hbad. unfold handleUdpMsgLoop. cbn [udpLoop]. unfold udpRound.
    assert (intact true (newReader segments)) as Hint by (by intros _).
    destruct (ReadFull_app true _ _ _ Hint Hst) as (r1 & E1 & Hs1 & Hi1).
    rewrite length_header in E1. unfold HeaderSize. rewrite E1, headerOk_header, readHeader_header by done.
    rewrite Z.mod_small by lia. cbn [negb Z.eqb TransactionMsg Pos.eqb].
    destruct (Z.ltb_spec 0x1000 n); [done|]. destruct Hbad as [Hn4|]; [|lia].
    destruct (Hbody r1 Hs1 Hn4 true Hi1) as (bd & r' & -> & ->). done.
Qed.

Lemma malformed_length_crashes_witness :
  handleTcpMsgLoop (fun _ => exView) (fun _ => false) "r:1" [header TransactionMsg 0 0] = Panic /\
  handleUdpMsgLoop (fun _ => exView) [header TransactionMsg 0 0] = Panic.
Proof.
  destruct (malformed_length_crashes (fun _ => exView) (fun _ => false) "r:1" TransactionMsg 0 0 []
    [header TransactionMsg 0 0]) as [H1 H2].
  - vm_compute. split; discriminate || reflexivity.
  - vm_compute. split; discriminate || reflexivity.
  - vm_compute. split; discriminate || reflexivity.
  - vm_compute. discriminate.
  - reflexivity.
  - split; [apply H1; reflexivity|apply H2; [reflexivity| |left; reflexivity]].
    rewrite Forall_singleton. apply Nat.leb_le. vm_compute. reflexivity.
Defined.

Lemma block_lost_to_shared_type_witness :
  exists s, runServer (mkServer {["r:1"]} 0 [])
    [Broadcast ["r:1"] (exMsg (inr (exBlock 1 9))); Broadcast ["r:1"] (exMsg (inl (mkTx 5 0))); RunTask 0 false] =
    Ret (s, [Udp "r:1" (exMsg (inr (exBlock 1 9)))]).
Proof.
  destruct (block_lost_to_shared_type (exBlock 1 9) (mkTx 5 0) (exMsg (inr (exBlock 1 9))) (exMsg (inl (mkTx 5 0)))
    "r:1" (fun _ => exView) [] []) as (_ & H & _).
  - vm_compute. reflexivity.
  - vm_compute. reflexivity.
  - apply Nat.leb_le. vm_compute. reflexivity.
  - reflexivity.
  - exact H.
Defined.
