(* ===== verification/RelayAdmin.v ===== *)
(** * The HTTP interface of the relay server (src/eth/pioplat_server.go)

    The handlers [dialHandler], [setPeriRatio] and [sendtxHandler] as functions from the
    form of a request to the status and message of the response and the effect on the node,
    with Base64 as [encoding/base64] decodes it. *)

From stdpp Require Import base tactics list gmap strings.
From Stdlib Require Import ZArith Lia Ascii SpecFloat.
From S2P Require Import Prelude Types GoFloat EthPeer PeerSet Peri PeriProps Bytes GoReader Relay.

Open Scope Z_scope.
Open Scope go_scope.

Module Admin.

(** [c.PostForm(key)]: empty when the form has no such field. *)
Definition form : Type := string -> string.

Definition setField (f : form) (key value : string) : form :=
  fun k => if decide (k = key) then value else f k.

Definition TokenKey : string := "token".
Definition PeerKey : string := "peer".
Definition Ratio0Key : string := "ratio_replace".
Definition Ratio1Key : string := "ratio_block".
Definition Ratio2Key : string := "ratio_tx".
Definition TxEncodedKey : string := "tx".

Inductive reply :=
| AuthFailedErr | InvalidPeerErr | InvalidBase64TxErr | InvalidRlpTxErr | InvalidFloatErr | OpSuccessMsg.

Definition StatusOK : Z := 200.
Definition StatusBadRequest : Z := 400.

(** The loop over the bytes of the address. *)
Fixpoint hasColon (s : string) : bool :=
  match s with
  | EmptyString => false
  | String c s => if Ascii.eqb c ":" then true else hasColon s
  end.

(** The address to dial, if the request is accepted. *)
Definition dialHandler (adminToken : string) (f : form) : Z * reply * option string :=
  if decide (f TokenKey = adminToken) then
    if hasColon (f PeerKey) then (StatusOK, OpSuccessMsg, Some (f PeerKey))
    else (StatusBadRequest, InvalidPeerErr, None)
  else (StatusBadRequest, AuthFailedErr, None).

(** The constants 0.95, 1.05 and 100 as binary64 numbers. *)
Definition low : float64 := fdiv (of_int 95) (of_int 100).
Definition high : float64 := fdiv (of_int 105) (of_int 100).
Definition hundred : float64 := of_int 100.

(** [ParseFloat] is the result of [strconv.ParseFloat] on a form value. *)
Definition setPeriRatio (ParseFloat : string -> option float64) (adminToken : string) (f : form)
    (p : Peri.peri) (maxPeers : Z) : Z * reply * Peri.peri :=
  if decide (f TokenKey = adminToken) then
    match ParseFloat (f Ratio0Key), ParseFloat (f Ratio1Key), ParseFloat (f Ratio2Key) with
    | Some ratio0, Some ratio1, Some ratio2 =>
        let ratio0 := fdiv ratio0 hundred in
        let ratio1 := fdiv ratio1 hundred in
        let ratio2 := fdiv ratio2 hundred in
        let sum := fadd (fadd ratio0 ratio1) ratio2 in
        if flt sum low || fgt sum high then (StatusOK, InvalidFloatErr, p)
        else (StatusOK, OpSuccessMsg, Peri.SetRatios p maxPeers ratio0 ratio1 ratio2)
    | _, _, _ => (StatusBadRequest, InvalidFloatErr, p)
    end
  else (StatusBadRequest, AuthFailedErr, p).

(** ** Base64 *)

(** The value of a character of the standard alphabet. *)
Definition sextet (c : Z) : option Z :=
  if (65 <=? c) && (c <=? 90) then Some (c - 65)
  else if (97 <=? c) && (c <=? 122) then Some (c - 71)
  else if (48 <=? c) && (c <=? 57) then Some (c + 4)
  else if c =? 43 then Some 62
  else if c =? 47 then Some 63
  else None.

Definition pad : Z := 61.

(** Groups of four characters; padding only ends the last one. *)
Fixpoint decodeGroups (fuel : nat) (l : list Z) : option (list Z) :=
  match fuel, l with
  | _, [] => Some []
  | S fuel, a :: b :: c :: d :: l =>
      match sextet a, sextet b, sextet c, sextet d with
      | Some a, Some b, Some c, Some d =>
          (fun rest => Z.lor (Z.shiftl a 2) (Z.shiftr b 4) :: Z.land (Z.lor (Z.shiftl b 4) (Z.shiftr c 2)) 255
             :: Z.land (Z.lor (Z.shiftl c 6) d) 255 :: rest) <$> decodeGroups fuel l
      | Some a, Some b, Some c, None =>
          if (d =? pad) && bool_decide (l = [])
          then Some [Z.lor (Z.shiftl a 2) (Z.shiftr b 4); Z.land (Z.lor (Z.shiftl b 4) (Z.shiftr c 2)) 255]
          else None
      | Some a, Some b, None, None =>
          if (c =? pad) && (d =? pad) && bool_decide (l = [])
          then Some [Z.lor (Z.shiftl a 2) (Z.shiftr b 4)] else None
      | _, _, _, _ => None
      end
  | _, _ => None
  end.

Fixpoint codes (s : string) : list Z :=
  match s with EmptyString => [] | String c s => Z.of_N (N_of_ascii c) :: codes s end.

(** [base64.StdEncoding.DecodeString]: line breaks are skipped. *)
Definition DecodeString (s : string) : option (list Z) :=
  let l := filter (fun c => c <> 10 /\ c <> 13) (codes s) in decodeGroups (length l) l.

(** ** Sending a transaction *)

(** The token is read from the field whose name is the still empty token. No response
    is written when it does not match. *)
Definition sendtxHandler `{Wire Transaction} (adminToken : string) (f : form) (peers : gset string)
    : option (Z * reply) * list (string * Transaction) :=
  let token := f EmptyString in
  if decide (token = adminToken) then
    match DecodeString (f TxEncodedKey) with
    | None => (Some (StatusBadRequest, InvalidBase64TxErr), [])
    | Some txRLP =>
        match DecodeBytes txRLP with
        | None => (Some (StatusBadRequest, InvalidRlpTxErr), [])
        | Some tx => (Some (StatusOK, OpSuccessMsg), (fun p => (p, tx)) <$> elements peers)
        end
    end
  else (None, []).

End Admin.

Import Admin.

Example base64_example : DecodeString (String.append "TWFu" (String "010" "TWE=")) = Some [77; 97; 110; 77; 97].
Proof. vm_compute. reflexivity. Qed.

(** [sendtxHandler] ignores the token it is sent. Its answer does not depend on the
    field [token]; a request without a field of empty name is refused silently whatever its
    token when an admin token is set, the correct one included, and when none is set anyone
    can make the node send a transaction to all its peers. *)
Theorem sendtx_ignores_token `{Wire Transaction} adminToken f peers :
  (forall t, sendtxHandler adminToken (setField f TokenKey t) peers = sendtxHandler adminToken f peers) /\
  (f EmptyString = EmptyString -> adminToken <> EmptyString ->
     sendtxHandler adminToken (setField f TokenKey adminToken) peers = (None, [])) /\
  (f EmptyString = EmptyString -> adminToken = EmptyString ->
     forall bs tx, DecodeString (f TxEncodedKey) = Some bs -> DecodeBytes bs = Some tx ->
     exists sends, sendtxHandler adminToken f peers = (Some (StatusOK, OpSuccessMsg), sends) /\
       forall p, p ∈ peers -> (p, tx) ∈ sends).
Proof.
  assert (forall t k, k <> TokenKey -> setField f TokenKey t k = f k) as Hf
    by (intros t k Hk; unfold setField; by rewrite decide_False).
  assert (EmptyString <> TokenKey /\ TxEncodedKey <> TokenKey) as [H1 H2] by done.
  split_and!.
  - intros t. unfold sendtxHandler. by rewrite !Hf.
  - intros He Hne. unfold sendtxHandler. rewrite Hf, He, decide_False by done. done.
  - intros He -> bs tx Hb Ht. unfold sendtxHandler. rewrite He, decide_True, Hb, Ht by done.
    eexists. split; [done|]. intros p Hp. apply list_elem_of_fmap. exists p. split; [done|]. by apply elem_of_elements.
Qed.

(** A form, and what [strconv.ParseFloat] makes of its values. *)
Definition exForm : form := fun k =>
  if decide (k = TokenKey) then "secret" else if decide (k = Ratio0Key) then "200"
  else if decide (k = Ratio1Key) then "-200" else if decide (k = Ratio2Key) then "100" else EmptyString.

Definition exParse (s : string) : option float64 :=
  if decide (s = "200") then Some (of_int 200) else if decide (s = "-200") then Some (of_int (-200))
  else if decide (s = "100") then Some (of_int 100) else None.

(** The capacity of a short slice that grows by [append], one element at a time. *)
Definition doubling_cap : AppendCap.
Proof.
  refine {| append_cap := fun n => (2 ^ Nat.log2_up n)%nat |}.
  intros [|[|n]]; [simpl; lia|simpl; lia|]. apply Nat.log2_up_spec. lia.
Defined.

(** [setPeriRatio] checks only the sum of the ratios, so it accepts negative ones.
    With 200, -200 and 100 percent the block quota of a node for 50 peers becomes -100, and the next
    round of the eviction policy, with three peers connected, panics on a slice bound. *)
Theorem negative_ratios_crash :
  exists p, setPeriRatio exParse "secret" exForm (exPeri 1 1) 50 = (StatusOK, OpSuccessMsg, p) /\
    Peri.blockPeersCount p = -100 /\ Peri.txsPeerCount p = 50 /\
    forall clock, Peri.disconnectByScore (H1 := doubling_cap) (exCfg []) p exSet clock = Panic.
Proof.
  eexists. split; [vm_compute; reflexivity|]. split; [reflexivity|]. split; [reflexivity|].
  intros clock. vm_compute. reflexivity.
Qed.
