(* ===== verification/Disguise.v ===== *)
(** * The client of the disguise server (src/eth/disguise_client.go)

    [DisguiseClient] asks a full node for the fork list, the genesis hash and the head number
    that the relay pretends to have, and for headers, bodies and the like. Modelled are the decoder of
    its messages, [GetForkInfo], the messages of all requests as the code writes them
    into their buffers, and the framing of the replies. TLS is a connection of
    [GoReader]; a received message is the receive buffer and the number of bytes read, since
    slice expressions reach up to the capacity. *)

From stdpp Require Import base tactics list gmap strings.
From Stdlib Require Import ZArith Lia.
From S2P Require Import Prelude Types Bytes GoReader ForkId.

Open Scope Z_scope.
Open Scope go_scope.

Import GoReader.

Module Disguise.

(** ** Commands *)

(** The four digits of a command. *)
Definition GetGenesisMsg : list Z := [49; 49; 48; 48].
Definition GetBlockNumber : list Z := [49; 50; 48; 48].
Definition GetForksMsg : list Z := [49; 51; 48; 48].
Definition GetAllAbove : list Z := [49; 52; 48; 48].
Definition GetHeaderByHash : list Z := [50; 49; 48; 48].
Definition GetHeaderByNumber : list Z := [50; 50; 48; 48].
Definition GetHeaderByHashAndNumber : list Z := [50; 51; 48; 48].
Definition GetAncestor : list Z := [51; 48; 48; 48].
Definition GetBlockBodyRlpByHash : list Z := [52; 48; 48; 48].
Definition GetReceiptsByHash : list Z := [53; 48; 48; 48].
Definition GetContractCodeWithPrefix : list Z := [54; 48; 48; 48].
Definition GetTrieNode : list Z := [55; 48; 48; 48].
Definition GetTotalDifficulty : list Z := [56; 48; 48; 48].

Definition CmdSize : nat := 4.
Definition LengthSize : nat := 4.
Definition HashSize : nat := 32.
Definition BlockNumberSize : nat := 8.
Definition ForkNumberSize : nat := 8.

Inductive msgError := InvalidCommandMsgErr | InvalidLengthMsgErr.

Record client := mkClient {
  forks : list Z;
  genesisHash : hash;
  curBlockNumber : Z;
  lastGetForkIdTime : Z;
  forkID : ForkId.ID;
  forkFilter : ForkId.ID -> option ForkId.filterError;
  connecting : bool
}.

Definition setForks (dc : client) (fs : list Z) : client :=
  mkClient fs (genesisHash dc) (curBlockNumber dc) (lastGetForkIdTime dc) (forkID dc) (forkFilter dc) (connecting dc).
Definition setGenesis (dc : client) (g : hash) : client :=
  mkClient (forks dc) g (curBlockNumber dc) (lastGetForkIdTime dc) (forkID dc) (forkFilter dc) (connecting dc).
Definition setNumber (dc : client) (n : Z) : client :=
  mkClient (forks dc) (genesisHash dc) n (lastGetForkIdTime dc) (forkID dc) (forkFilter dc) (connecting dc).
Definition setTime (dc : client) (t : Z) : client :=
  mkClient (forks dc) (genesisHash dc) (curBlockNumber dc) t (forkID dc) (forkFilter dc) (connecting dc).
Definition setInfo (dc : client) (i : ForkId.ID) (f : ForkId.ID -> option ForkId.filterError) : client :=
  mkClient (forks dc) (genesisHash dc) (curBlockNumber dc) (lastGetForkIdTime dc) i f (connecting dc).

(** ** Decoding *)

Definition hasPrefix (msg cmd : list Z) : bool := bool_decide (take (length cmd) msg = cmd).

(** The loop of the [GetAllAbove] case: [count] forks from [off] on. *)
Fixpoint readForks (buf : list Z) (off : Z) (count : nat) : go (list Z) :=
  match count with
  | O => Ret []
  | S count =>
      let! s := sub buf off (off + 8) in
      let! fork := getUint 8 s in
      let! rest := readForks buf (off + 8) count in
      Ret (fork :: rest)
  end.

(** The loop of the [GetForksMsg] case: round [i] reads the first number of a slice that
    starts at the first fork. *)
Fixpoint readSlices (buf : list Z) (i : Z) (count : nat) : go (list Z) :=
  match count with
  | O => Ret []
  | S count =>
      let! s := sub buf 8 (8 + i * 8) in
      let! fork := getUint 8 s in
      let! rest := readSlices buf (i + 1) count in
      Ret (fork :: rest)
  end.

(** [decodeMsg(recvBuf[:n])]. The length is computed with 32-bit numbers. *)
Definition decodeMsg (dc : client) (buf : list Z) (n : nat) : go (client * option msgError) :=
  let msg := take n buf in
  if hasPrefix msg GetAllAbove then
    if decide (n < 48)%nat then Ret (dc, Some InvalidLengthMsgErr)
    else
      let! lf := sub buf 4 8 in
      let! forksLength := getUint 4 lf in
      let msgTotalLength := u32 (48 + u32 (8 * forksLength)) in
      if decide (Z.of_nat n <> msgTotalLength) then Ret (dc, Some InvalidLengthMsgErr)
      else
        let! g := sub buf 8 40 in
        let! nf := sub buf 40 48 in
        let! number := getUint 8 nf in
        let! fs := readForks buf 48 (Z.to_nat forksLength) in
        Ret (setForks (setNumber (setGenesis dc (be_decode g)) number) fs, None)
  else if hasPrefix msg GetForksMsg then
    if decide (n < 8)%nat then Ret (dc, Some InvalidLengthMsgErr)
    else
      let! lf := sub buf 4 8 in
      let! forksLength := getUint 4 lf in
      let msgTotalLength := u32 (8 + u32 (8 * forksLength)) in
      if decide (Z.of_nat n <> msgTotalLength) then Ret (dc, Some InvalidLengthMsgErr)
      else
        let! fs := readSlices buf 1 (Z.to_nat forksLength) in
        Ret (setForks dc fs, None)
  else if hasPrefix msg GetGenesisMsg then
    if decide (n <> 36%nat) then Ret (dc, Some InvalidCommandMsgErr)
    else let! g := sub buf 4 36 in Ret (setGenesis dc (be_decode g), None)
  else if hasPrefix msg GetBlockNumber then
    if decide (n <> 12%nat) then Ret (dc, Some InvalidLengthMsgErr)
    else
      let! nf := sub buf 4 12 in
      let! number := getUint 8 nf in
      Ret (setNumber dc number, None)
  else Ret (dc, Some InvalidCommandMsgErr).

(** One [conn.Read] into a fresh buffer of [size] bytes. *)
Definition receive (size : nat) (conn : list (list Z)) : option (list Z * nat * list (list Z)) :=
  match connRead false size conn with
  | Some (bs, conn) => Some (bs ++ make (size - length bs), length bs, conn)
  | None => None
  end.

(** ** The fork information *)

Definition refresh (dc : client) : client :=
  setInfo dc (ForkId.NewIdInDisguise (forks dc) (genesisHash dc) (curBlockNumber dc))
    (ForkId.NewFilterInDisguise (forks dc) (genesisHash dc) (curBlockNumber dc)).

(** What [CreateDisguise] does once it is connected: [None] is [log.Crit]. *)
Definition CreateDisguise (conn : list (list Z)) (now : Z) : go (option client) :=
  let dc := mkClient [] 0 0 0 (ForkId.mkID [] 0) (fun _ => None) false in
  match receive 0x100 conn with
  | None => Ret None
  | Some (buf, n, _) =>
      let! (dc, err) := decodeMsg dc buf n in
      match err with
      | Some _ => Ret None
      | None => Ret (Some (refresh (setTime dc now)))
      end
  end.

Definition Second : Z := 1000000000.

(** [GetForkInfo]: the client afterwards, what it returns, and whether it starts
    [TryingConnect]. [writes] tells whether the request can be written, [conn] is what the
    server sends. *)
Definition GetForkInfo (dc : client) (now : Z) (writes : bool) (conn : list (list Z))
    : go (client * (ForkId.ID * (ForkId.ID -> option ForkId.filterError)) * bool) :=
  let! (dc, fetchSuc, reconnect) :=
    (if (2 * Second <? now - lastGetForkIdTime dc) && negb (connecting dc) then
       if negb writes then Ret (dc, true, true)
       else
         match receive 0x400 conn with
         | None => Ret (dc, false, false)
         | Some (buf, n, _) =>
             let! (dc, err) := decodeMsg dc buf n in
             match err with
             | Some _ => Ret (dc, false, false)
             | None => Ret (setTime dc now, true, false)
             end
         end
     else Ret (dc, true, false)) in
  let '(dc, reconnect) := if fetchSuc : bool then (dc, reconnect) else (refresh dc, true) in
  Ret (dc, (forkID dc, forkFilter dc), reconnect).

(** ** Requests *)

Definition hashBytes (h : hash) : list Z := be_encode 32 h.

(** A command and a hash in a buffer of [size] bytes. *)
Definition cmdHash (size : nat) (cmd : list Z) (h : hash) : go (list Z) :=
  let msgBuf := make size in
  let! msgBuf := copyAt msgBuf 0 cmd in
  copyAt msgBuf CmdSize (hashBytes h).

(** The messages, as the requests build them. *)
Definition headerByHashMsg (h : hash) : go (list Z) := cmdHash (CmdSize + HashSize) GetHeaderByHash h.
Definition blockBodyMsg (h : hash) : go (list Z) := cmdHash (CmdSize + HashSize) GetBlockBodyRlpByHash h.
Definition trieNodeMsg (h : hash) : go (list Z) := cmdHash (CmdSize + HashSize) GetTrieNode h.
Definition contractCodeMsg (h : hash) : go (list Z) := cmdHash (CmdSize + HashSize) GetContractCodeWithPrefix h.
Definition receiptsMsg (h : hash) : go (list Z) := cmdHash (CmdSize + BlockNumberSize) GetReceiptsByHash h.

Definition headerByHashAndNumberMsg (h : hash) (number : Z) : go (list Z) :=
  let! msgBuf := cmdHash (CmdSize + HashSize + BlockNumberSize) GetHeaderByHashAndNumber h in
  putUint 8 msgBuf (CmdSize + BlockNumberSize) number.

Definition headerByNumberMsg (number : Z) : go (list Z) :=
  let! msgBuf := copyAt (make (CmdSize + BlockNumberSize)) 0 GetHeaderByNumber in
  putUint 8 msgBuf CmdSize number.

(** A nil pointer to the limit of non-canonical blocks is dereferenced. *)
Definition ancestorMsg (h : hash) (number ancestor : Z) (maxNonCanonical : option Z) : go (list Z) :=
  let! msgBuf := cmdHash (CmdSize + HashSize + BlockNumberSize * 3) GetAncestor h in
  let! msgBuf := putUint 8 msgBuf (CmdSize + HashSize) number in
  let! msgBuf := putUint 8 msgBuf (CmdSize + HashSize + BlockNumberSize * 1) ancestor in
  match maxNonCanonical with
  | None => Panic
  | Some m => putUint 8 msgBuf (CmdSize + HashSize + BlockNumberSize * 2) m
  end.

Definition totalDifficultyMsg (h : hash) (number : Z) : go (list Z) :=
  let! msgBuf := cmdHash (CmdSize + HashSize + BlockNumberSize) GetTotalDifficulty h in
  putUint 8 msgBuf (CmdSize + HashSize) number.

(** ** Replies *)

Definition lenLimit : Z := 102400.

(** [readLengthBytes]: [None] is an error, the flag says that it starts a reconnection. The
    buffered reader is new in every call, so what it has read ahead is lost with it. *)
Definition readLengthBytes (conn : list (list Z)) : go (option (list Z) * bool * list (list Z)) :=
  match ReadFull false LengthSize (newReader conn) with
  | (None, r) => Ret (None, true, GoReader.conn r)
  | (Some lf, r) =>
      let! bytesLen := getUint 4 lf in
      if lenLimit <? bytesLen then Ret (None, false, GoReader.conn r)
      else if bytesLen =? 0 then Ret (Some [], false, GoReader.conn r)
      else
        match ReadFull false (Z.to_nat bytesLen) r with
        | (None, r) => Ret (None, false, GoReader.conn r)
        | (Some data, r) => Ret (Some data, false, GoReader.conn r)
        end
  end.

(** What a header request returns for a reply: a header and whether there is an error.
    [Decode] is [rlp.DecodeBytes] into a fresh header: the header afterwards and whether it
    succeeded, which the code only logs. *)
Definition headerReply (Decode : list Z -> Header * bool) (data : option (list Z)) : go (option Header * bool) :=
  Ret match data with
      | None => (None, true)
      | Some data => if decide (8 < length data)%nat then (Some (Decode data).1, false) else (None, false)
      end.

(** Body, trie node and code: the bytes, [None] for nil. *)
Definition bytesReply (data : option (list Z)) : go (option (list Z) * bool) :=
  Ret match data with
      | None => (Some [], true)
      | Some data => if decide (8 < length data)%nat then (Some data, false) else (None, false)
      end.

(** The receipts are decoded into a slice that is not a pointer, which [rlp.DecodeBytes]
    refuses; the empty slice is returned. *)
Definition receiptsReply {Receipt} (data : option (list Z)) : go (option (list Receipt) * bool) :=
  Ret match data with
      | None => (Some [], true)
      | Some data => if decide (8 < length data)%nat then (Some [], false) else (None, false)
      end.

Definition ancestorReply (data : option (list Z)) : go (hash * Z) :=
  match data with
  | Some data =>
      if decide (40 <= length data)%nat then
        let! h := sub data 0 32 in
        let! nf := sub data 32 40 in
        let! number := getUint 8 nf in
        Ret (be_decode h, number)
      else Ret (0, 0)
  | None => Ret (0, 0)
  end.

Definition difficultyReply (data : option (list Z)) : go (Z * bool) :=
  match data with
  | Some data => if decide (8 <= length data)%nat then let! d := sub data 0 8 in Ret (be_decode d, false) else Ret (0, false)
  | None => Ret (0, true)
  end.

(** ** Requests with their replies *)

Section Requests.

(** The node at the other end: the segments that arrive after a message was written to it,
    [None] when the write fails. *)
Variable server : list Z -> option (list (list Z)).

Variable dc : client.

(** The shape the requests share: while a reconnection is running they return [idle], after a
    failed write [unsent], otherwise what [reply] makes of the answer. The flag says that
    the request starts a reconnection. *)
Definition request {A} (msg : go (list Z)) (idle unsent : A) (reply : option (list Z) -> go A) : go (A * bool) :=
  if connecting dc then Ret (idle, false)
  else
    let! msgBuf := msg in
    match server msgBuf with
    | None => Ret (unsent, true)
    | Some conn =>
        let! (data, reconnects, _) := readLengthBytes conn in
        let! res := reply data in
        Ret (res, reconnects)
    end.

Definition requestHeader (Decode : list Z -> Header * bool) (msg : go (list Z)) : go (option Header * bool * bool) :=
  request msg (None, false) (None, true) (headerReply Decode).

Definition RequestHeaderByHash Decode (h : hash) := requestHeader Decode (headerByHashMsg h).
Definition RequestHeaderByHashAndNumber Decode (h : hash) (number : Z) :=
  requestHeader Decode (headerByHashAndNumberMsg h number).
Definition RequestHeaderByNumber Decode (number : Z) := requestHeader Decode (headerByNumberMsg number).

Definition requestBytes (msg : go (list Z)) : go (option (list Z) * bool * bool) :=
  request msg (Some [], false) (Some [], true) bytesReply.

Definition RequestBlockBodyRLP (h : hash) := requestBytes (blockBodyMsg h).
Definition RequestTrieNodeByHash (h : hash) := requestBytes (trieNodeMsg h).
Definition RequestContractCodeWithPrefix (h : hash) := requestBytes (contractCodeMsg h).

Definition RequestReceiptsByHash {Receipt} (h : hash) : go (option (list Receipt) * bool * bool) :=
  request (receiptsMsg h) (Some [], false) (Some [], true) receiptsReply.

Definition RequestAncestor (h : hash) (number ancestor : Z) (maxNonCanonical : option Z) : go (hash * Z * bool) :=
  request (ancestorMsg h number ancestor maxNonCanonical) (0, 0) (0, 0) ancestorReply.

Definition RequestTotalDifficulty (h : hash) (number : Z) : go (Z * bool * bool) :=
  request (totalDifficultyMsg h number) (0, false) (0, true) difficultyReply.

End Requests.

End Disguise.
