(* ===== verification/DisguiseProps.v ===== *)
(** * Properties of the disguise client (src/eth/disguise_client.go)

    The messages of the server decode to what they encode, replies arrive whole however the
    stream is cut, and the requests have the documented layout, each with the cases in which the
    code does something else. *)

From stdpp Require Import base tactics list gmap strings.
From Stdlib Require Import ZArith Lia.
From S2P Require Import Prelude Types Bytes GoReader ForkId Disguise.

Open Scope Z_scope.
Open Scope go_scope.

Import GoReader Disguise.

Module DisguiseLemmas.

(** ** The messages of the server *)

Definition numbers (fs : list Z) : list Z := fs ≫= le_encode 8.

Definition allAboveMsg (g n : Z) (fs : list Z) : list Z :=
  GetAllAbove ++ le_encode 4 (Z.of_nat (length fs)) ++ be_encode 32 g ++ le_encode 8 n ++ numbers fs.
Definition forksMsg (fs : list Z) : list Z :=
  GetForksMsg ++ le_encode 4 (Z.of_nat (length fs)) ++ numbers fs.
Definition genesisMsg (g : Z) : list Z := GetGenesisMsg ++ be_encode 32 g.
Definition numberMsg (n : Z) : list Z := GetBlockNumber ++ le_encode 8 n.

Lemma length_numbers fs : length (numbers fs) = (8 * length fs)%nat.
Proof.
  unfold numbers. induction fs as [|f fs IH]; [done|]. rewrite bind_cons, length_app, length_le_encode, IH. simpl. lia.
Qed.

Lemma sub_at pre s rest lo hi buf :
  buf = pre ++ s ++ rest -> lo = Z.of_nat (length pre) -> hi = Z.of_nat (length pre + length s) ->
  sub buf lo hi = Ret s.
Proof. intros -> -> ->. by apply sub_app. Qed.

Lemma getUint_encode w z rest : 0 <= z < 256 ^ Z.of_nat w -> getUint w (le_encode w z ++ rest) = Ret z.
Proof.
  intros Hz. unfold getUint. rewrite length_app, length_le_encode, decide_True by lia.
  rewrite take_app_le by (rewrite length_le_encode; lia). rewrite take_ge by (rewrite length_le_encode; lia).
  by rewrite le_decode_encode, Z.mod_small.
Qed.

Lemma getUint_encode_all w z : 0 <= z < 256 ^ Z.of_nat w -> getUint w (le_encode w z) = Ret z.
Proof. intros Hz. rewrite <- (app_nil_r (le_encode w z)). by apply getUint_encode. Qed.

Lemma readForks_numbers pre fs rest :
  Forall in_u64 fs -> readForks (pre ++ numbers fs ++ rest) (Z.of_nat (length pre)) (length fs) = Ret fs.
Proof.
  intros Hf. revert pre. induction Hf as [|f fs Hf _ IH]; intros pre; [done|]. cbn [readForks length].
  unfold numbers. rewrite bind_cons. fold (numbers fs). rewrite <- app_assoc.
  rewrite sub_app by (rewrite ?length_le_encode; lia). rewrite getUint_encode_all by done.
  specialize (IH (pre ++ le_encode 8 f)). rewrite <- app_assoc, length_app, length_le_encode in IH.
  replace (Z.of_nat (length pre) + 8) with (Z.of_nat (length pre + 8)) by lia. by rewrite IH.
Qed.

(** Every round of the other loop reads the first fork. *)
Lemma readSlices_numbers pre f more i count :
  length pre = 8%nat -> in_u64 f -> 1 <= i -> (8 * (i + Z.of_nat count - 1) <= Z.of_nat (length (numbers (f :: more)))) ->
  readSlices (pre ++ numbers (f :: more)) i count = Ret (replicate count f).
Proof.
  intros Hp Hf. revert i. induction count as [|count IH]; intros i Hi Hl; [done|]. cbn [readSlices replicate].
  rewrite (sub_at pre (take (Z.to_nat (8 * i)) (numbers (f :: more))) (drop (Z.to_nat (8 * i)) (numbers (f :: more))));
    [|by rewrite take_drop|by rewrite Hp|rewrite Hp, length_take; lia].
  assert (exists s, take (Z.to_nat (8 * i)) (numbers (f :: more)) = le_encode 8 f ++ s) as [s ->].
  { unfold numbers. rewrite bind_cons, take_app_ge by (rewrite length_le_encode; lia). by eexists. }
  rewrite getUint_encode by done. by rewrite IH by lia.
Qed.

Lemma readForks_Panic buf off count :
  0 <= off -> (0 < count)%nat -> Z.of_nat (length buf) < off + 8 * Z.of_nat count -> readForks buf off count = Panic.
Proof.
  revert off. induction count as [|count IH]; intros off Ho Hc Hl; [lia|]. cbn [readForks]. unfold sub.
  destruct (Z.leb_spec 0 off), (Z.leb_spec off (off + 8)); try lia.
  destruct (Z.leb_spec (off + 8) (Z.of_nat (length buf))); [|done]. cbn [andb].
  destruct (getUint 8 _); [|done]. destruct count; [lia|]. by rewrite IH by lia.
Qed.

Lemma hasPrefix_app cmd other msg n :
  length cmd = 4%nat -> length other = 4%nat -> (4 <= n)%nat ->
  hasPrefix (take n (cmd ++ msg)) other = bool_decide (cmd = other).
Proof.
  intros Hc Ho Hn. unfold hasPrefix. rewrite take_take, Ho. replace (4 `min` n)%nat with 4%nat by lia.
  rewrite take_app_le by lia. by rewrite take_ge by lia.
Qed.

Lemma number_message_decodes dc n junk :
  in_u64 n -> decodeMsg dc (numberMsg n ++ junk) (length (numberMsg n)) = Ret (setNumber dc n, None).
Proof.
  intros Hn. unfold decodeMsg, numberMsg. rewrite <- app_assoc.
  rewrite !hasPrefix_app by (done || (rewrite length_app; simpl; lia)).
  rewrite length_app, length_le_encode. cbn [length GetBlockNumber Nat.add].
  rewrite (bool_decide_false (GetBlockNumber = GetAllAbove)), (bool_decide_false (GetBlockNumber = GetForksMsg)),
    (bool_decide_false (GetBlockNumber = GetGenesisMsg)), (bool_decide_true (GetBlockNumber = GetBlockNumber)) by done.
  rewrite decide_False by auto.
  rewrite (sub_at GetBlockNumber (le_encode 8 n) junk) by (rewrite ?length_le_encode; done).
  by rewrite getUint_encode_all.
Qed.

(** ** Replies *)

(** Reading a reply, however the stream is cut. *)
Lemma readLengthBytes_spec segments data rest :
  Z.of_nat (length data) < 2 ^ 32 -> concat segments = le_encode 4 (Z.of_nat (length data)) ++ data ++ rest ->
  exists res conn' ahead, readLengthBytes segments = Ret (res, false, conn') /\
    (Z.of_nat (length data) <= lenLimit -> res = Some data /\ rest = ahead ++ concat conn') /\
    (lenLimit < Z.of_nat (length data) -> res = None).
Proof.
  intros Hl Hs. unfold readLengthBytes.
  destruct (ReadFull_app false (newReader segments) (le_encode 4 (Z.of_nat (length data))) (data ++ rest))
    as (r & E & Hr & _); [done|done|].
  rewrite length_le_encode in E. unfold LengthSize. rewrite E.
  rewrite getUint_encode_all by (change (256 ^ Z.of_nat 4) with (2 ^ 32); lia).
  destruct (Z.ltb_spec lenLimit (Z.of_nat (length data))).
  { eexists _, _, []. split; [done|]. split; [lia|done]. }
  destruct (Z.eqb_spec (Z.of_nat (length data)) 0) as [H0|H0].
  { assert (data = []) as -> by (apply nil_length_inv; lia). eexists _, _, (buffered r).
    split; [done|]. split; [|lia]. intros _. split; [done|]. exact (eq_sym Hr). }
  rewrite Nat2Z.id. destruct (ReadFull_app false r data rest) as (r' & E' & Hr' & _); [done|done|].
  rewrite E'. eexists _, _, (buffered r'). split; [done|]. split; [|lia]. intros _. by split.
Qed.





End DisguiseLemmas.

Import DisguiseLemmas.

(** The messages of the disguise server decode to what they say: the genesis hash,
    the head number and the whole fork list, in a receive buffer of any capacity; other
    fields of the client keep their values. *)
Theorem server_messages_decode dc g n fs junk :
  0 <= g < 2 ^ 256 -> in_u64 n -> Forall in_u64 fs -> 48 + 8 * Z.of_nat (length fs) < 2 ^ 32 ->
  decodeMsg dc (allAboveMsg g n fs ++ junk) (length (allAboveMsg g n fs)) =
    Ret (setForks (setNumber (setGenesis dc g) n) fs, None) /\
  decodeMsg dc (genesisMsg g ++ junk) (length (genesisMsg g)) = Ret (setGenesis dc g, None) /\
  decodeMsg dc (numberMsg n ++ junk) (length (numberMsg n)) = Ret (setNumber dc n, None).
Proof.
  intros Hg Hn Hf Hl. assert (be_decode (be_encode 32 g) = g) as Eg
    by (rewrite be_decode_encode; by apply Z.mod_small).
  split_and!.
  - unfold decodeMsg, allAboveMsg. rewrite <- !app_assoc. set (count := le_encode 4 _).
    assert (length count = 4%nat) as Hc by apply length_le_encode.
    set (len := length _). assert (len = (48 + 8 * length fs)%nat) as Hlen.
    { unfold len. rewrite !length_app, Hc, length_be_encode, length_le_encode, length_numbers. simpl. lia. }
    rewrite hasPrefix_app by (done || lia). rewrite bool_decide_true by done. rewrite decide_False by lia.
    rewrite (sub_at GetAllAbove count (be_encode 32 g ++ le_encode 8 n ++ numbers fs ++ junk)) by (rewrite ?Hc; done).
    unfold count at 1. rewrite getUint_encode_all by (change (256 ^ Z.of_nat 4) with (2 ^ 32); lia).
    unfold u32. rewrite !Z.mod_small by (rewrite ?Z.mod_small by lia; lia). rewrite decide_False by lia.
    rewrite (sub_at (GetAllAbove ++ count) (be_encode 32 g) (le_encode 8 n ++ numbers fs ++ junk));
      [|by rewrite <- !app_assoc|by rewrite length_app, Hc|by rewrite length_app, Hc, length_be_encode].
    rewrite (sub_at (GetAllAbove ++ count ++ be_encode 32 g) (le_encode 8 n) (numbers fs ++ junk));
      [|by rewrite <- !app_assoc|by rewrite !length_app, Hc, length_be_encode
       |by rewrite !length_app, Hc, length_be_encode, length_le_encode].
    rewrite getUint_encode_all by done. rewrite Nat2Z.id.
    pose proof (readForks_numbers (GetAllAbove ++ count ++ be_encode 32 g ++ le_encode 8 n) fs junk Hf) as Hr.
    rewrite !length_app, Hc, length_be_encode, length_le_encode, <- !app_assoc in Hr.
    change (Z.of_nat _) with 48 in Hr. rewrite Hr. by rewrite Eg.
  - unfold decodeMsg, genesisMsg. rewrite <- app_assoc.
    rewrite !hasPrefix_app by (done || (rewrite length_app; simpl; lia)).
    rewrite length_app, length_be_encode. cbn [length GetGenesisMsg Nat.add].
    rewrite (bool_decide_false (GetGenesisMsg = GetAllAbove)), (bool_decide_false (GetGenesisMsg = GetForksMsg)),
      (bool_decide_true (GetGenesisMsg = GetGenesisMsg)) by done. rewrite decide_False by auto.
    rewrite (sub_at GetGenesisMsg (be_encode 32 g) junk) by (rewrite ?length_be_encode; done). by rewrite Eg.
  - by apply number_message_decodes.
Qed.

Definition exClient : client := mkClient [] 0 0 0 (ForkId.mkID [] 0) (fun _ => None) false.

Lemma server_messages_decode_witness :
  decodeMsg exClient (allAboveMsg 77 1000 [10; 20; 30] ++ make 100) (length (allAboveMsg 77 1000 [10; 20; 30])) =
    Ret (setForks (setNumber (setGenesis exClient 77) 1000) [10; 20; 30], None).
Proof.
  apply (server_messages_decode exClient 77 1000 [10; 20; 30] (make 100)).
  - split; [discriminate|reflexivity].
  - split; [discriminate|reflexivity].
  - repeat constructor; try discriminate; reflexivity.
  - reflexivity.
Defined.

(** Two ways a fork message is not decoded as it should be. A [GetForksMsg]
    message gives as many copies of the first fork as it has forks. A message whose fork
    count is at least 2^29 has a 32-bit length that wraps around, so it passes the length check
    however short it is, and the loop over the forks then panics at the end of the buffer. *)
Theorem fork_messages_misread dc f more buf n count :
  (in_u64 f -> 8 + 8 * Z.of_nat (length (f :: more)) < 2 ^ 32 ->
     decodeMsg dc (forksMsg (f :: more)) (length (forksMsg (f :: more))) =
       Ret (setForks dc (replicate (length (f :: more)) f), None)) /\
  (buf = GetAllAbove ++ le_encode 4 count ++ drop 8 buf -> 48 <= Z.of_nat (length buf) <= 1024 ->
     2 ^ 29 <= count < 2 ^ 32 -> Z.of_nat n = u32 (48 + u32 (8 * count)) -> (48 <= n)%nat ->
     decodeMsg dc buf n = Panic).
Proof.
  split.
  - intros Hf Hl. unfold decodeMsg, forksMsg. set (fs := f :: more) in *. set (cnt := le_encode 4 _).
    assert (length cnt = 4%nat) as Hc by apply length_le_encode.
    set (len := length _). assert (len = (8 + 8 * length fs)%nat) as Hlen.
    { unfold len. rewrite !length_app, Hc, length_numbers. simpl. lia. }
    rewrite !hasPrefix_app by (done || lia).
    rewrite (bool_decide_false (GetForksMsg = GetAllAbove)), (bool_decide_true (GetForksMsg = GetForksMsg)) by done.
    rewrite decide_False by lia. rewrite (sub_at GetForksMsg cnt (numbers fs)) by (rewrite ?Hc; done).
    unfold cnt at 1. rewrite getUint_encode_all by (change (256 ^ Z.of_nat 4) with (2 ^ 32); lia).
    unfold u32. rewrite !Z.mod_small by (rewrite ?Z.mod_small by lia; lia). rewrite decide_False by lia.
    rewrite Nat2Z.id. rewrite app_assoc. unfold fs at 1.
    rewrite readSlices_numbers; [done|rewrite length_app, Hc; done|done|lia|rewrite length_numbers; unfold fs; lia].
  - intros Hb Hlen Hc Hn Hn48. unfold decodeMsg. rewrite Hb at 1.
    rewrite hasPrefix_app by (done || lia). rewrite bool_decide_true by done. rewrite decide_False by lia.
    rewrite (sub_at GetAllAbove (le_encode 4 count) (drop 8 buf)) by (rewrite ?length_le_encode; done).
    rewrite getUint_encode_all by (change (256 ^ Z.of_nat 4) with (2 ^ 32); lia).
    rewrite decide_False by auto. destruct (sub buf 8 40) as [g|]; [|done].
    destruct (sub buf 40 48) as [nf|]; [|done]. destruct (getUint 8 nf); [|done].
    rewrite readForks_Panic; [done|lia|lia|]. rewrite Z2Nat.id by lia. lia.
Qed.

(** [GetForkInfo] does not use what it fetches. When the server's answer arrives
    the head number of the client is updated, but the identifier and the filter returned are
    the old ones; only a failed read or a bad answer recomputes them, from the old
    number, and starts a reconnection. *)
Theorem fork_info_goes_stale dc now n rest :
  2 * Second < now - lastGetForkIdTime dc -> connecting dc = false -> in_u64 n ->
  GetForkInfo dc now true (numberMsg n :: rest) =
    Ret (setTime (setNumber dc n) now, (forkID dc, forkFilter dc), false) /\
  GetForkInfo dc now true [] = Ret (refresh dc,
    (ForkId.NewIdInDisguise (forks dc) (genesisHash dc) (curBlockNumber dc),
     ForkId.NewFilterInDisguise (forks dc) (genesisHash dc) (curBlockNumber dc)), true).
Proof.
  intros Ht Hc Hn. unfold GetForkInfo. rewrite (proj2 (Z.ltb_lt _ _) Ht), Hc. cbn [andb negb]. split; [|done].
  unfold receive, connRead. assert (length (numberMsg n) = 12%nat) as Hl
    by (unfold numberMsg; by rewrite length_app, length_le_encode).
  rewrite take_ge by (rewrite Hl; apply Nat.leb_le; reflexivity).
  by rewrite (number_message_decodes dc n (make (0x400 - length (numberMsg n))) Hn).
Qed.

Lemma fork_info_goes_stale_witness :
  GetForkInfo exClient (3 * Second) true [numberMsg 1000] =
    Ret (setTime (setNumber exClient 1000) (3 * Second), (forkID exClient, forkFilter exClient), false).
Proof.
  apply (fork_info_goes_stale exClient (3 * Second) 1000 []).
  - reflexivity.
  - reflexivity.
  - split; [discriminate|reflexivity].
Defined.

(** The requests have the documented layout (command, hash, numbers in little
    endian), and so tell different questions apart, with two exceptions: a request by hash and number
    writes the number over bytes 8 to 15 of the hash and leaves the number field zero, and a
    request for receipts carries only the first 8 bytes of the hash. *)
Theorem request_layouts h n a m :
  headerByHashMsg h = Ret (GetHeaderByHash ++ be_encode 32 h) /\
  blockBodyMsg h = Ret (GetBlockBodyRlpByHash ++ be_encode 32 h) /\
  trieNodeMsg h = Ret (GetTrieNode ++ be_encode 32 h) /\
  contractCodeMsg h = Ret (GetContractCodeWithPrefix ++ be_encode 32 h) /\
  headerByNumberMsg n = Ret (GetHeaderByNumber ++ le_encode 8 n) /\
  totalDifficultyMsg h n = Ret (GetTotalDifficulty ++ be_encode 32 h ++ le_encode 8 n) /\
  ancestorMsg h n a (Some m) =
    Ret (GetAncestor ++ be_encode 32 h ++ le_encode 8 n ++ le_encode 8 a ++ le_encode 8 m) /\
  ancestorMsg h n a None = Panic /\
  headerByHashAndNumberMsg h n =
    Ret (GetHeaderByHashAndNumber ++ take 8 (be_encode 32 h) ++ le_encode 8 n ++ drop 16 (be_encode 32 h) ++ make 8) /\
  receiptsMsg h = Ret (GetReceiptsByHash ++ take 8 (be_encode 32 h)).
Proof.
  split_and!; reflexivity.
Qed.

(** A reply arrives whole however the stream is cut into segments, up to 100 KiB; a
    longer one, and one that ends early, is an error. What the reader of this call has read
    ahead of the next reply is lost. *)
Theorem replies_arrive_whole segments data rest :
  Z.of_nat (length data) < 2 ^ 32 -> concat segments = le_encode 4 (Z.of_nat (length data)) ++ data ++ rest ->
  exists res conn' ahead, readLengthBytes segments = Ret (res, false, conn') /\
    (Z.of_nat (length data) <= lenLimit -> res = Some data /\ rest = ahead ++ concat conn') /\
    (lenLimit < Z.of_nat (length data) -> res = None).
Proof. apply readLengthBytes_spec. Qed.

Lemma replies_arrive_whole_witness :
  exists res conn' ahead, readLengthBytes [[3; 0]; [0; 0; 7; 8]; [9; 5]; [6]] = Ret (res, false, conn') /\
    res = Some [7; 8; 9] /\ [5; 6] = ahead ++ concat conn'.
Proof.
  destruct (replies_arrive_whole [[3; 0]; [0; 0; 7; 8]; [9; 5]; [6]] [7; 8; 9] [5; 6])
    as (res & conn' & ahead & E & Hok & _).
  - reflexivity.
  - vm_compute. reflexivity.
  - exists res, conn', ahead. split; [exact E|]. apply Hok. discriminate.
Defined.


