(* ===== verification/Handler.v ===== *)
(** * The protocol handler (src/eth/handler.go, src/eth/handler_eth.go and the
    broadcasts to Pioplat peers of src/eth/peri.go)

    Admission of a peer, the verdicts on its checkpoint and whitelist headers, the
    dispatch of its packets, the broadcasts of blocks and transactions, and the life cycle
    of the handler's own loops. Peers are shared objects: a broadcast changes the entry of the
    peer set. Ranges over the peers take their order as an argument. Where the code pauses or runs
    beside other sessions, what they do to the peers in between is an argument, too. *)

From stdpp Require Import base tactics list gmap strings.
From Stdlib Require Import ZArith Lia.
From S2P Require Import Prelude Types Blockchain EthPeer PeerSet Peri.

Open Scope Z_scope.
Open Scope go_scope.

Import PeerSet Chain.

Module Handler.

(** The change of a peer object. *)
Definition change (m : gmap string Peer.peer) (i : string) (f : Peer.peer -> Peer.peer) : gmap string Peer.peer :=
  alter f i m.

Definition withPeers (ps : peerSet) (m : gmap string Peer.peer) : peerSet := mkPeerSet m (closed ps).

(** ** Admission *)

Section Admission.

Context `{SetPop}.

(** [syncTransactions]: [pending] has the batches of [Pending] in the order of the map. *)
Definition syncTransactions (p : Peer.peer) (pending : list (list Transaction)) (taken : bool) : Peer.peer :=
  match concat pending with
  | [] => p
  | txs => Peer.AsyncSendPooledTransactionHashes p (txHash <$> txs) taken
  end.

Inductive session :=
| HandshakeFailed
| DiscSelf
| DiscTooManyPeers
| NotRegistered (e : peerError)
| DroppedDuringHandling
| RequestFailed
| Serving (challenges : list Z).

(** What [runEthPeer] meets outside the handler: the outcome of the handshake, the clock, the
    pending transactions, whether the announcement loop takes them, and which header requests
    can be sent. *)
Record surroundings := mkEnv {
  handshake : bool;
  now : Z;
  pending : list (list Transaction);
  announceTaken : bool;
  requestSent : Z -> bool
}.

(** The peer set is shared: what the other sessions do to it between the comparison with the limit
    and the registration, between that and the look at the entry, and before the entry is removed. *)
Record otherSessions := mkOthers {
  beforeRegister : peerSet -> peerSet;
  afterRegister : peerSet -> peerSet;
  beforeRemoval : peerSet -> peerSet
}.

(** An untrusted peer finds the set full. *)
Definition noRoom (maxPeers : Z) (ps : peerSet) (p : Peer.peer) : bool := negb (Peer.Trusted p) && (maxPeers <=? len ps).

(** [runEthPeer] up to the call of the message handler; [whitelist] has the numbers of the
    whitelisted blocks in the order of the map, [pe] is the eviction policy once it exists. *)
Definition runEthPeer (others : otherSessions) (ps : peerSet) (maxPeers : Z) (pe : option Peri.peri)
    (checkpointHash : hash) (checkpointNumber : Z) (whitelist : list Z) (env : surroundings)
    (p : Peer.peer) : go (peerSet * session) :=
  if negb (handshake env) then Ret (ps, HandshakeFailed)
  else
    let! blocked := match pe with Some pe => Peri.isBlocked pe (Peer.URLv4 p) (now env) | None => Ret false end in
    if blocked : bool then
      let! _ := Peri.sliceFrom (Peer.URLv4 p) Peri.enodeSplitIndex in
      Ret (ps, DiscSelf)
    else if noRoom maxPeers ps p then Ret (ps, DiscTooManyPeers)
    else
      let '(ps, err) := registerPeer (beforeRegister others ps) p in
      match err with
      | Some e => Ret (ps, NotRegistered e)
      | None =>
          let ps := afterRegister others ps in
          match peer ps (Peer.id p) with
          | None => Ret (fst (handlerUnregisterPeer ps (Peer.id p)), DroppedDuringHandling)
          | Some _ =>
              let ps := withPeers ps (change (PeerSet.peers ps) (Peer.id p)
                          (fun q => syncTransactions q (pending env) (announceTaken env))) in
              let numbers := (if decide (checkpointHash = 0) then [] else [checkpointNumber]) ++ whitelist in
              if forallb (requestSent env) numbers then Ret (ps, Serving numbers)
              else Ret (fst (handlerUnregisterPeer (beforeRemoval others ps) (Peer.id p)), RequestFailed)
          end
      end.

End Admission.

(** The two steps of the limit on peers in [runEthPeer], which run concurrently for different
    peers: the comparison with [maxPeers], and the registration of the [k]th that passed it. *)
Inductive limitStep := CheckRoom (p : Peer.peer) | Register (k : nat).

Definition limitRun (maxPeers : Z) (st : peerSet * list Peer.peer) (s : limitStep) : peerSet * list Peer.peer :=
  let '(ps, passed) := st in
  match s with
  | CheckRoom p => if noRoom maxPeers ps p then st else (ps, passed ++ [p])
  | Register k =>
      match passed !! k with
      | Some p => (fst (registerPeer ps p), delete k passed)
      | None => st
      end
  end.

(** The verdicts of the goroutines of [runEthPeer] on the headers a peer answers with;
    [Some] is the error that drops it. *)
Inductive challengeError := Unsynced | TooManyHeaders | HashMismatch.

Definition checkpointVerdict (snapSync : bool) (checkpointHash : hash) (headers : list Header)
    : option challengeError :=
  match headers with
  | [] => if snapSync then Some Unsynced else None
  | [h] => if decide (headerHash h = checkpointHash) then None else Some HashMismatch
  | _ => Some TooManyHeaders
  end.

Definition whitelistVerdict (number : Z) (h : hash) (headers : list Header) : option challengeError :=
  match headers with
  | [] => None
  | [hd] => if decide (u64 (Number hd) <> number \/ headerHash hd <> h) then Some HashMismatch else None
  | _ => Some TooManyHeaders
  end.

(** ** Broadcasts *)

Section Broadcast.

Context `{SetPop}.

(** [BroadcastBlock]: the code that sends the block itself is commented out. *)
Definition BroadcastBlock (bc : chain) (ps : peerSet) (order : list string) (b : Block) (propagate : bool)
    : peerSet :=
  let peers := peersWithoutBlock ps order (blockHash b) in
  if HasBlock bc (blockHash b) (NumberU64 b)
  then withPeers ps (foldl (fun m p => change m (Peer.id p) (fun q => Peer.AsyncSendNewBlockHash q b))
                       (PeerSet.peers ps) peers)
  else ps.

(** [minedBroadcastLoop] on a mined block. Each round starts with a pause of 1.5 seconds: the first
    finds the chain [bc1] and the peers [ps], and by the second the chain is [bc2] and the peers
    have changed as [pause] says, by messages, sends, new and lost connections. *)
Definition minedBroadcast (bc1 bc2 : chain) (pause : peerSet -> peerSet) (ps : peerSet) (order1 order2 : list string) (b : Block) : peerSet :=
  let ps := BroadcastBlock bc1 ps order1 b true in
  BroadcastBlock bc2 (pause ps) order2 b false.

(** [m[p] = append(m[p], h)] *)
Definition appendTo (h : hash) (m : gmap string (list hash)) (p : Peer.peer) : gmap string (list hash) :=
  <[Peer.id p := default [] (m !! Peer.id p) ++ [h]]> m.

(** The loop of [BroadcastTransactions]: [txset] and [annos]. [numDirect n] is
    [int(math.Cbrt(float64(n)))], [order tx] the order of the peers for a transaction. *)
Definition assignTx (numDirect : nat -> nat) (order : Transaction -> list string) (ps : peerSet)
    (st : gmap string (list hash) * gmap string (list hash)) (tx : Transaction)
    : go (gmap string (list hash) * gmap string (list hash)) :=
  let '(txset, annos) := st in
  if 4 <=? hash_byte (txHash tx) 31 then Ret st
  else
    let peers := peersWithoutTransaction ps (order tx) (txHash tx) in
    let n := numDirect (length peers) in
    if decide (n <= length peers)%nat then
      Ret (foldl (appendTo (txHash tx)) txset (take n peers), foldl (appendTo (txHash tx)) annos (drop n peers))
    else Panic.

(** The announcements go out; the loop over [txset] is commented out. [taken] tells
    whether the announcement loop of a peer takes the hashes. *)
Definition BroadcastTransactions (numDirect : nat -> nat) (order : Transaction -> list string)
    (taken : string -> bool) (ps : peerSet) (txs : list Transaction) : go (peerSet * gmap string (list hash)) :=
  let! (_, annos) := go_foldl (assignTx numDirect order ps) (∅, ∅) txs in
  Ret (withPeers ps (map_imap (fun i p =>
         Some match annos !! i with
              | Some hs => Peer.AsyncSendPooledTransactionHashes p hs (taken i)
              | None => p
              end) (PeerSet.peers ps)), annos).

(** [peersCount] is the integer square root of the number of peers. *)
Definition ReannounceTransactions (peersCount : Z) (order : list string) (taken : string -> bool)
    (ps : peerSet) (txs : list Transaction) : peerSet :=
  let hashes := txHash <$> txs in
  withPeers ps (foldl (fun m p => change m (Peer.id p)
      (fun q => Peer.AsyncSendPooledTransactionHashes q hashes (taken (Peer.id p))))
    (PeerSet.peers ps) (headPeers ps order peersCount)).

(** ** Pioplat peers *)

(** The loop over the peers: those with a Pioplat address are counted, and served by [f]
    unless [known]; it ends when as many were found as there are addresses. *)
Fixpoint pioplatLoop (ips : gset string) (known : Peer.peer -> bool) (f : Peer.peer -> Peer.peer)
    (pioplatCount : Z) (l : list Peer.peer) (m : gmap string Peer.peer) : gmap string Peer.peer :=
  match l with
  | [] => m
  | p :: l =>
      if decide (Peer.IP p ∈ ips) then
        let m := if known p then m else change m (Peer.id p) f in
        let pioplatCount := pioplatCount + 1 in
        if Z.of_nat (size ips) <=? pioplatCount then m else pioplatLoop ips known f pioplatCount l m
      else pioplatLoop ips known f pioplatCount l m
  end.

Definition BroadcastBlockToPioplatPeer (periBroadcast : bool) (ips : gset string) (current : Block)
    (ps : peerSet) (order : list string) (b : Block) (d : Z) : peerSet :=
  let dist := i64 (i64 (NumberU64 b) - i64 (NumberU64 current)) in
  if (dist <? - Peri.maxBlockDist) || (Peri.maxBlockDist <? dist) then ps
  else if periBroadcast then
    withPeers ps (pioplatLoop ips (fun p => Peer.KnownBlock p (blockHash b))
      (fun p => Peer.AsyncSendNewBlock p b d) 0 (inOrder ps order) (PeerSet.peers ps))
  else ps.

Definition BroadcastTransactionsToPioplatPeer (periBroadcast : bool) (ips : gset string)
    (order : Transaction -> list string) (taken : string -> bool) (ps : peerSet) (txs : list Transaction) : peerSet :=
  if periBroadcast then
    foldl (fun ps tx => withPeers ps (pioplatLoop ips (fun p => Peer.KnownTransaction p (txHash tx))
      (fun p => Peer.AsyncSendTransactions p [txHash tx] (taken (Peer.id p))) 0
      (inOrder ps (order tx)) (PeerSet.peers ps))) ps txs
  else ps.

End Broadcast.

(** ** Packets *)

Inductive packet :=
| NewBlockHashesPacket (anns : list (hash * Z))
| NewBlockPacket (b : Block) (td : Z)
| NewPooledTransactionHashesPacket (hashes : list hash)
| TransactionsPacket (txs : list Transaction)
| PooledTransactionsPacket (txs : list Transaction)
| UnexpectedPacket.

(** What reaches the fetchers. *)
Inductive fetchCall :=
| BlockNotify (peer : string) (h : hash) (number : Z)
| BlockEnqueue (peer : string) (b : Block)
| TxNotify (peer : string) (hs : list hash)
| TxEnqueue (peer : string) (txs : list Transaction) (direct : bool).

Definition Unpack (anns : list (hash * Z)) : list hash * list Z := (fst <$> anns, snd <$> anns).

(** [numbers[i]] for every [i < len(hashes)]. *)
Fixpoint unknownBlocks (bc : chain) (hashes : list hash) (numbers : list Z) : go (list (hash * Z)) :=
  match hashes, numbers with
  | [], _ => Ret []
  | h :: hashes, n :: numbers =>
      let! rest := unknownBlocks bc hashes numbers in
      Ret (if HasBlock bc h n then rest else (h, n) :: rest)
  | _, [] => Panic
  end.

Definition handleBlockAnnounces (bc : chain) (peer : string) (hashes : list hash) (numbers : list Z)
    : go (list fetchCall) :=
  let! unknown := unknownBlocks bc hashes numbers in
  Ret ((fun hn => BlockNotify peer hn.1 hn.2) <$> unknown).

(** The peer's head moves to the parent of the block when that is heavier. *)
Definition handleBlockBroadcast (p : Peer.peer) (b : Block) (d : Z) : Peer.peer * list fetchCall :=
  let trueHead := ParentHash (header b) in
  let trueTD := d - Difficulty (header b) in
  (if snd (Peer.Head p) <? trueTD then Peer.SetHead p trueHead trueTD else p,
   [BlockEnqueue (Peer.id p) b]).

(** [Handle]: the policy records first, then the packet goes to its fetcher. [None] is
    the error for an unexpected packet. *)
Definition Handle (cfg : Peri.config) (pe : option Peri.peri) (bc : chain) (p : Peer.peer) (now : Z)
    (pk : packet) : go (option Peri.peri * Peer.peer * option (list fetchCall)) :=
  let current := NumberU64 (currentBlock bc) in
  let record (f : Peri.peri -> go Peri.peri) : go (option Peri.peri) :=
    match pe with None => Ret None | Some pe => let! pe := f pe in Ret (Some pe) end in
  match pk with
  | NewBlockHashesPacket anns =>
      let '(hs, ns) := Unpack anns in
      let! pe := record (fun pe => Peri.recordBlockAnnounces cfg pe (Peer.id p) (Peer.URLv4 p) hs ns current now) in
      let! calls := handleBlockAnnounces bc (Peer.id p) hs ns in
      Ret (pe, p, Some calls)
  | NewBlockPacket b d =>
      let! pe := record (fun pe => Peri.recordBlockBody cfg pe (Peer.id p) (Peer.URLv4 p) b current now) in
      let '(p, calls) := handleBlockBroadcast p b d in
      Ret (pe, p, Some calls)
  | NewPooledTransactionHashesPacket hs =>
      let! pe := record (fun pe => Peri.recordTransactionAnnounces cfg pe (Peer.id p) (Peer.URLv4 p) hs now) in
      Ret (pe, p, Some [TxNotify (Peer.id p) hs])
  | TransactionsPacket txs =>
      let! pe := record (fun pe => Peri.recordTransactionBody cfg pe (Peer.id p) (Peer.URLv4 p) txs now) in
      Ret (pe, p, Some [TxEnqueue (Peer.id p) txs false])
  | PooledTransactionsPacket txs => Ret (pe, p, Some [TxEnqueue (Peer.id p) txs true])
  | UnexpectedPacket => Ret (pe, p, None)
  end.

(** ** Life cycle *)

Inductive loopState := Idle | Running | Finished.
Inductive stopPhase := NotStopping | Waiting | Returned.

(** The wait group, the three loops that [Start] starts, their subscriptions, and how
    far [Stop] has come. *)
Record lifecycle := mkLife {
  wg : Z;
  txLoop : loopState;
  reannoLoop : loopState;
  minedLoop : loopState;
  subscribed : bool;
  stopping : stopPhase
}.

Definition created : lifecycle := mkLife 0 Idle Idle Idle false NotStopping.

(** [Start] adds one to the wait group four times and starts three loops. *)
Definition Start (s : lifecycle) : lifecycle :=
  mkLife (wg s + 1 + 1 + 1 + 1) Running Running Running true (stopping s).

(** [Stop] up to the wait: the subscriptions end. *)
Definition StopCall (s : lifecycle) : lifecycle :=
  mkLife (wg s) (txLoop s) (reannoLoop s) (minedLoop s) false Waiting.

Inductive lifeStep : lifecycle -> lifecycle -> Prop :=
| step_txExit w r m :
    lifeStep (mkLife w Running r m false Waiting) (mkLife (w - 1) Finished r m false Waiting)
| step_reannoExit w t m :
    lifeStep (mkLife w t Running m false Waiting) (mkLife (w - 1) t Finished m false Waiting)
| step_minedExit w t r :
    lifeStep (mkLife w t r Running false Waiting) (mkLife (w - 1) t r Finished false Waiting)
| step_wait t r m :
    lifeStep (mkLife 0 t r m false Waiting) (mkLife 0 t r m false Returned).

End Handler.
