(* ===== verification/HandlerProps.v ===== *)
(** * Theorems about the protocol handler (Handler.v)

    Who is admitted and how the limit on peers can be overrun, who is told of blocks and
    transactions, what each packet does, and how the handler shuts down. *)

From stdpp Require Import base tactics list gmap strings relations.
From Stdlib Require Import ZArith Lia.
From S2P Require Import Prelude Types Blockchain EthPeer PeerSet Peri PeriProps Handler.

Open Scope Z_scope.
Open Scope go_scope.

Import PeerSet Chain Handler.

Module HandlerLemmas.

(** ** Changes of many peers *)

Lemma decide_cons_ne {A} (i x : string) (l : list string) (a b : A) :
  i <> x -> (if decide (i ∈ x :: l) then a else b) = (if decide (i ∈ l) then a else b).
Proof. intros Hne. destruct (decide (i ∈ x :: l)), (decide (i ∈ l)); set_solver. Qed.

Definition changeAll (f : string -> Peer.peer -> Peer.peer) (m : gmap string Peer.peer) (l : list Peer.peer)
    : gmap string Peer.peer :=
  foldl (fun m p => change m (Peer.id p) (f (Peer.id p))) m l.

Lemma changeAll_lookup f m l i :
  NoDup (Peer.id <$> l) ->
  changeAll f m l !! i = if decide (i ∈ Peer.id <$> l) then f i <$> m !! i else m !! i.
Proof.
  revert m. induction l as [|p l IH]; intros m; cbn [changeAll foldl fmap list_fmap].
  { intros _. rewrite decide_False; [done|apply not_elem_of_nil]. }
  intros [Hp Hl]%NoDup_cons. fold (changeAll f (change m (Peer.id p) (f (Peer.id p))) l).
  rewrite IH by done. unfold change. destruct (decide (i = Peer.id p)) as [->|Hne].
  - rewrite decide_False by done. rewrite decide_True by set_solver. apply lookup_alter_eq.
  - by rewrite lookup_alter_ne, decide_cons_ne.
Qed.

Lemma inOrder_ids ps order :
  wf ps -> range_of order (peers ps) -> Peer.id <$> inOrder ps order = order.
Proof.
  intros Hwf Ho. unfold inOrder.
  assert (Forall (fun i => is_Some (peers ps !! i)) order) as HF
    by (apply Forall_forall; intros i; apply (range_of_elem _ _ _ Ho)).
  clear Ho. induction HF as [|i l [p Hp] _ IH]; [done|].
  cbn [omap list_omap]. rewrite Hp. cbn [fmap list_fmap]. by rewrite IH, (Hwf i p).
Qed.

Lemma inOrder_filter_NoDup (P : Peer.peer -> Prop) `{!forall p, Decision (P p)} ps order :
  wf ps -> range_of order (peers ps) -> NoDup (Peer.id <$> filter P (inOrder ps order)).
Proof.
  intros Hwf Ho. eapply sublist_NoDup; [|apply fmap_sublist, sublist_filter].
  rewrite inOrder_ids by done. by eapply range_of_NoDup.
Qed.

(** A peer is in a selection exactly when it satisfies its condition. *)
Lemma selected_ids (P : Peer.peer -> Prop) `{!forall p, Decision (P p)} ps order i p :
  wf ps -> range_of order (peers ps) -> peers ps !! i = Some p ->
  i ∈ Peer.id <$> filter P (inOrder ps order) <-> P p.
Proof.
  intros Hwf Ho Hi. rewrite list_elem_of_fmap. split.
  - intros (q & -> & [Hq Hin]%list_elem_of_filter).
    apply (inOrder_elem ps order q Ho) in Hin as [j Hj]. rewrite <- (Hwf j q Hj) in Hj.
    by simplify_eq.
  - intros HP. exists p. split; [by rewrite (Hwf i p)|]. apply list_elem_of_filter. split; [done|].
    apply (inOrder_elem ps order p Ho). by exists i.
Qed.

(** A peer that is in the order but not among the first [n] is among the rest. *)
Lemma drop_ids ps order n P `{!forall p, Decision (P p)} i p :
  wf ps -> range_of order (peers ps) -> peers ps !! i = Some p ->
  i ∈ Peer.id <$> drop n (filter P (inOrder ps order)) <->
  P p /\ p ∉ take n (filter P (inOrder ps order)).
Proof.
  intros Hwf Ho Hi. set (l := filter P (inOrder ps order)).
  pose proof (inOrder_filter_NoDup P ps order Hwf Ho) as Hnd. fold l in Hnd.
  pose proof (selected_ids P ps order i p Hwf Ho Hi) as Hs. fold l in Hs.
  rewrite <- (take_drop n l), fmap_app in Hnd. apply NoDup_app in Hnd as (_ & Hdisj & _).
  assert (i ∈ Peer.id <$> l <-> i ∈ Peer.id <$> take n l \/ i ∈ Peer.id <$> drop n l) as Hl
    by (rewrite <- elem_of_app, <- fmap_app, take_drop; done).
  rewrite <- Hs, Hl. split.
  - intros Hd. split; [by right|]. intros Hp. apply (Hdisj i); [|done].
    rewrite <- (Hwf i p Hi). by apply list_elem_of_fmap_2.
  - intros [[Ht|Ht] Hp]; [|done]. exfalso. apply Hp.
    apply list_elem_of_fmap in Ht as (q & -> & Hq).
    assert (q ∈ inOrder ps order) as Hin.
    { assert (q ∈ l) as Hql by (rewrite <- (take_drop n l); apply elem_of_app; by left).
      by apply list_elem_of_filter in Hql as [_ ?]. }
    apply (inOrder_elem ps order q Ho) in Hin as [j Hj]. rewrite <- (Hwf j q Hj) in Hj. by simplify_eq.
Qed.





(** ** The assignment of transactions *)

Definition forwarded (tx : Transaction) : bool := hash_byte (txHash tx) 31 <? 4.

Definition directPeers (numDirect : nat -> nat) (order : Transaction -> list string) (ps : peerSet) (tx : Transaction)
    : list Peer.peer :=
  let l := peersWithoutTransaction ps (order tx) (txHash tx) in take (numDirect (length l)) l.

Definition announcePeers (numDirect : nat -> nat) (order : Transaction -> list string) (ps : peerSet) (tx : Transaction)
    : list Peer.peer :=
  let l := peersWithoutTransaction ps (order tx) (txHash tx) in drop (numDirect (length l)) l.

Lemma appendTo_fold h m l i :
  NoDup (Peer.id <$> l) ->
  default [] (foldl (appendTo h) m l !! i) =
  default [] (m !! i) ++ (if decide (i ∈ Peer.id <$> l) then [h] else []).
Proof.
  revert m. induction l as [|p l IH]; intros m; cbn [foldl fmap list_fmap].
  { intros _. rewrite decide_False by apply not_elem_of_nil. by rewrite app_nil_r. }
  intros [Hp Hl]%NoDup_cons. rewrite IH by done. unfold appendTo.
  destruct (decide (i = Peer.id p)) as [->|Hne].
  - rewrite lookup_insert_eq. cbn [default]. rewrite decide_False by done.
    rewrite decide_True by set_solver. by rewrite app_nil_r.
  - by rewrite lookup_insert_ne, decide_cons_ne.
Qed.

Lemma appendTo_nonempty h m l :
  (forall i, m !! i <> Some []) -> forall i, foldl (appendTo h) m l !! i <> Some [].
Proof.
  revert m. induction l as [|p l IH]; intros m Hm; [done|]. cbn [foldl]. apply IH.
  intros i. unfold appendTo. rewrite lookup_insert_Some. intros [[_ E]|[_ E]]; [|by apply (Hm i)].
  by apply app_eq_nil in E as [_ ?].
Qed.

Lemma announcePeers_NoDup numDirect order ps tx :
  wf ps -> range_of (order tx) (peers ps) -> NoDup (Peer.id <$> announcePeers numDirect order ps tx).
Proof.
  intros Hwf Ho. eapply sublist_NoDup; [|apply fmap_sublist, sublist_drop].
  by apply inOrder_filter_NoDup.
Qed.

Section Assign.

Context (numDirect : nat -> nat) (order : Transaction -> list string) (ps : peerSet).

Hypothesis (Hcbrt : forall n, (numDirect n <= n)%nat) (Hwf : wf ps) (Ho : forall tx, range_of (order tx) (peers ps)).

Definition announcedTo (i : string) (tx : Transaction) : Prop :=
  forwarded tx = true /\ i ∈ Peer.id <$> announcePeers numDirect order ps tx.

#[global] Instance announcedTo_dec i tx : Decision (announcedTo i tx).
Proof using Type. apply _. Defined.

(** The table of announcements lists, for each peer, the hashes in the order of the batch. *)
Lemma assignTx_fold txset annos txs :
  (forall i, annos !! i <> Some []) ->
  exists txset' annos',
    go_foldl (assignTx numDirect order ps) (txset, annos) txs = Ret (txset', annos') /\
    forall i, annos' !! i <> Some [] /\
      default [] (annos' !! i) = default [] (annos !! i) ++ (txHash <$> filter (announcedTo i) txs).
Proof using All.
  revert txset annos. induction txs as [|tx txs IH]; intros txset annos Hne; cbn [go_foldl].
  { eexists _, _. split; [done|]. intros i. by rewrite app_nil_r. }
  cbn [assignTx]. destruct (Z.leb_spec 4 (hash_byte (txHash tx) 31)) as [Hb|Hb].
  - destruct (IH txset annos Hne) as (t & a & Ha & Hi). exists t, a. split; [done|].
    intros i. destruct (Hi i) as [? ->]. split; [done|]. rewrite filter_cons_False; [done|]. unfold announcedTo, forwarded. intros [E _]. lia.
  - rewrite decide_True by apply Hcbrt.
    edestruct IH as (t & a & Ha & Hi); [by apply appendTo_nonempty|].
    exists t, a. split; [exact Ha|]. intros i. destruct (Hi i) as [? ->]. split; [done|].
    fold (announcePeers numDirect order ps tx).
    rewrite appendTo_fold by (by apply announcePeers_NoDup). rewrite <- app_assoc. f_equal.
    assert (forwarded tx = true) as Hf by (unfold forwarded; lia).
    destruct (decide (announcedTo i tx)) as [Hd|Hd].
    + rewrite filter_cons_True by done. rewrite decide_True by apply Hd. done.
    + rewrite filter_cons_False by done. rewrite decide_False; [done|]. intros E. by apply Hd.
Qed.

Lemma announcedTo_spec i p tx :
  peers ps !! i = Some p ->
  announcedTo i tx <->
  txHash tx mod 256 < 4 /\ Peer.KnownTransaction p (txHash tx) = false /\ p ∉ directPeers numDirect order ps tx.
Proof using Hwf Ho.
  intros Hi. unfold announcedTo, forwarded, announcePeers, directPeers, peersWithoutTransaction.
  rewrite (drop_ids ps (order tx) _ _ i p Hwf (Ho tx) Hi), Z.ltb_lt.
  unfold hash_byte. rewrite Z.shiftr_0_r. tauto.
Qed.

End Assign.

(** ** Pioplat peers *)

Definition served (ips : gset string) (known : Peer.peer -> bool) (l : list Peer.peer) : list Peer.peer :=
  filter (fun p => Peer.IP p ∈ ips /\ known p = false) l.

Definition pioplat (ips : gset string) (l : list Peer.peer) : list Peer.peer :=
  filter (fun p => Peer.IP p ∈ ips) l.

Lemma served_nil ips known l : (forall p, p ∈ l -> Peer.IP p ∉ ips) -> served ips known l = [].
Proof.
  intros Hl. unfold served.
  induction l as [|p l IH]; [done|]. rewrite filter_cons_False; [apply IH; set_solver|].
  intros [Hp _]. apply (Hl p); [set_solver|done].
Qed.

(** With one peer per address the early end misses nobody. *)
Lemma pioplatLoop_all ips known f l m (seen : gset string) :
  seen ⊆ ips -> NoDup (Peer.IP <$> pioplat ips l) ->
  (forall p, p ∈ pioplat ips l -> Peer.IP p ∉ seen) ->
  pioplatLoop ips known f (Z.of_nat (size seen)) l m = changeAll (fun _ => f) m (served ips known l).
Proof.
  revert m seen. induction l as [|p l IH]; intros m seen Hseen Hnd Hl; [done|]. cbn [pioplatLoop].
  unfold pioplat, served in *. destruct (decide (Peer.IP p ∈ ips)) as [Hp|Hp].
  - rewrite filter_cons_True in Hnd, Hl by done. cbn [fmap list_fmap] in Hnd. apply NoDup_cons in Hnd as [Hpl Hnd].
    assert (Peer.IP p ∉ seen) as Hps by (apply Hl; set_solver).
    set (m' := if known p then m else _).
    assert (changeAll (fun _ => f) m (filter (fun p => Peer.IP p ∈ ips /\ known p = false) (p :: l)) =
            changeAll (fun _ => f) m' (filter (fun p => Peer.IP p ∈ ips /\ known p = false) l)) as ->.
    { unfold m'. destruct (known p) eqn:Hk; [rewrite filter_cons_False by (intros [_ E]; congruence)|rewrite filter_cons_True by done]; done. }
    assert (Z.of_nat (size seen) + 1 = Z.of_nat (size (seen ∪ {[Peer.IP p]}))) as Hsz.
    { rewrite size_union by set_solver. rewrite size_singleton. lia. }
    rewrite Hsz. destruct (Z.leb_spec (Z.of_nat (size ips)) (Z.of_nat (size (seen ∪ {[Peer.IP p]})))) as [Hle|Hlt].
    + assert (seen ∪ {[Peer.IP p]} ≡ ips) as Hall.
      { apply set_subseteq_size_equiv; [set_solver|lia]. }
      fold (served ips known l). rewrite served_nil; [done|]. intros q Hq Hqi.
      assert (Peer.IP q ∈ seen \/ Peer.IP q = Peer.IP p) as [Hs|Hs] by set_solver.
      * apply (Hl q); [|done]. apply elem_of_cons. right. by apply list_elem_of_filter.
      * apply Hpl. rewrite <- Hs. apply list_elem_of_fmap_2. by apply list_elem_of_filter.
    + apply IH; [set_solver|done|]. intros q Hq. rewrite not_elem_of_union, not_elem_of_singleton. split.
      * apply Hl. by apply elem_of_cons; right.
      * intros E. apply Hpl. rewrite <- E. by apply list_elem_of_fmap_2.
  - rewrite filter_cons_False in Hnd, Hl by done. rewrite IH by done. f_equal.
    rewrite filter_cons_False; [done|]. tauto.
Qed.

Lemma size_empty_Z {A} `{Countable A} : Z.of_nat (size (∅ : gset A)) = 0.
Proof. by rewrite size_empty. Qed.

Lemma pioplat_IP_NoDup ips ps order :
  wf ps -> range_of order (peers ps) ->
  (forall i j p q, peers ps !! i = Some p -> peers ps !! j = Some q ->
     Peer.IP p ∈ ips -> Peer.IP p = Peer.IP q -> i = j) ->
  NoDup (Peer.IP <$> pioplat ips (inOrder ps order)).
Proof.
  intros Hwf Ho Huniq. pose proof (inOrder_filter_NoDup (fun p => Peer.IP p ∈ ips) ps order Hwf Ho) as Hnd.
  fold (pioplat ips (inOrder ps order)) in Hnd.
  assert (forall p, p ∈ pioplat ips (inOrder ps order) -> Peer.IP p ∈ ips /\ peers ps !! Peer.id p = Some p) as Hin.
  { intros p [Hp Hl]%list_elem_of_filter. split; [done|].
    apply (inOrder_elem ps order p Ho) in Hl as [i Hi]. by rewrite (Hwf i p Hi). }
  revert Hnd Hin. induction (pioplat ips (inOrder ps order)) as [|p l IH]; intros Hnd Hin; [constructor|].
  cbn [fmap list_fmap] in *. apply NoDup_cons in Hnd as [Hp Hnd]. apply NoDup_cons. split.
  - intros (q & Hq & Hql)%list_elem_of_fmap. apply Hp. apply list_elem_of_fmap. exists q. split; [|done].
    destruct (Hin p ltac:(set_solver)) as [Hpi Hp1]. destruct (Hin q ltac:(set_solver)) as [_ Hq1].
    by apply (Huniq _ _ p q).
  - apply IH; [done|]. intros q Hq. apply Hin. set_solver.
Qed.

(** ** Packets *)

Lemma unknownBlocks_spec bc anns :
  unknownBlocks bc anns.*1 anns.*2 = Ret (filter (fun a => HasBlock bc a.1 a.2 = false) anns).
Proof.
  induction anns as [|[h n] anns IH]; [done|]. cbn [fmap list_fmap unknownBlocks fst snd].
  rewrite IH. destruct (HasBlock bc h n) eqn:Hh.
  - rewrite filter_cons_False; [done|]. cbn. congruence.
  - by rewrite filter_cons_True.
Qed.

(** The changes of the policy that recording a batch of blocks or of transactions at time [t] from peer [i] makes. *)
Definition blocksRecorded (current : Z) (i : string) (t : Z) (anns : list (hash * Z)) (pe pe' : Peri.peri) : Prop :=
  exists arr per, pe' = Peri.setBlock pe arr per /\ Peri.recorded (Peri.blockSkip current) i t anns (Peri.blockArrivals pe) arr (Peri.blockArrivalPerPeer pe) per.

Definition txsRecorded (i : string) (t : Z) (hs : list hash) (pe pe' : Peri.peri) : Prop :=
  exists arr per, pe' = Peri.setTx pe arr per /\ Peri.recorded (Peri.txSkip pe) i t hs (Peri.txArrivals pe) arr (Peri.txArrivalPerPeer pe) per.

Lemma record_Ret (R : Peri.peri -> Peri.peri -> Prop) (pe : option Peri.peri) (f : Peri.peri -> go Peri.peri) :
  (forall pe0, pe = Some pe0 -> Peri.wf pe0) ->
  (forall q, Peri.wf q -> exists q', f q = Ret q' /\ Peri.wf q' /\ R q q') ->
  exists pe', match pe with None => Ret None | Some pe => let! pe := f pe in Ret (Some pe) end = Ret pe' /\
    (forall pe0, pe' = Some pe0 -> Peri.wf pe0) /\ option_Forall2 R pe pe'.
Proof.
  intros Hwf Hf. destruct pe as [q|]; [|exists None; split_and!; [done|done|constructor]].
  destruct (Hf q (Hwf q eq_refl)) as (q' & -> & Hq' & HR). exists (Some q'). split_and!; [done|by intros ? [= <-]|by constructor].
Qed.

Lemma record_blocks cfg pe i url anns current t : (forall pe0, pe = Some pe0 -> Peri.wf pe0) -> Peri.longURL url ->
  exists pe', match pe with None => Ret None | Some pe => let! pe := Peri.recordBlockAnnounces cfg pe i url anns.*1 anns.*2 current t in Ret (Some pe) end = Ret pe' /\
    (forall pe0, pe' = Some pe0 -> Peri.wf pe0) /\ option_Forall2 (blocksRecorded current i t anns) pe pe'.
Proof.
  intros Hpe Hu. apply (record_Ret _ pe (fun pe => Peri.recordBlockAnnounces cfg pe i url anns.*1 anns.*2 current t)); [done|]. intros q Hq.
  destruct (recordBlocks_exact cfg q i url anns.*1 anns.*2 current t Hq Hu) as (arr & per & H1 & H2 & H3). rewrite zip_fst_snd in H3. eexists. split_and!; [exact H1|done|]. by exists arr, per.
Qed.

Lemma record_txs cfg pe i url hs t : (forall pe0, pe = Some pe0 -> Peri.wf pe0) -> Peri.longURL url ->
  exists pe', match pe with None => Ret None | Some pe => let! pe := Peri.recordTransactionAnnounces cfg pe i url hs t in Ret (Some pe) end = Ret pe' /\
    (forall pe0, pe' = Some pe0 -> Peri.wf pe0) /\ option_Forall2 (txsRecorded i t hs) pe pe'.
Proof.
  intros Hpe Hu. apply (record_Ret _ pe (fun pe => Peri.recordTransactionAnnounces cfg pe i url hs t)); [done|]. intros q Hq.
  destruct (recordTransactions_exact cfg q i url hs t Hq Hu) as (arr & per & H1 & H2 & H3). eexists. split_and!; [exact H1|done|]. by exists arr, per.
Qed.

(** ** Shutting down *)

Definition running (l : loopState) : Z := match l with Running => 1 | _ => 0 end.

(** The count is one more than the loops that still run. *)
Definition lifeInv (s : lifecycle) : Prop :=
  wg s = 1 + running (txLoop s) + running (reannoLoop s) + running (minedLoop s) /\
  subscribed s = false /\ stopping s = Waiting /\
  txLoop s <> Idle /\ reannoLoop s <> Idle /\ minedLoop s <> Idle.

Lemma lifeInv_step s s' : lifeStep s s' -> lifeInv s -> lifeInv s'.
Proof.
  intros Hs (Hw & Hsub & Hwait & Ht & Hr & Hm).
  destruct Hs; cbn in *; try (split_and!; cbn; (done || lia)).
  exfalso. destruct t, r, m; cbn in Hw; lia.
Qed.

(** From there the loops can all end. *)
Lemma shutdown_ends s : lifeInv s -> rtc lifeStep s (mkLife 1 Finished Finished Finished false Waiting).
Proof.
  intros (Hw & Hsub & Hwait & Ht & Hr & Hm). destruct s as [w t r m b st]. cbn in *. subst b st.
  transitivity (mkLife (1 + running r + running m) Finished r m false Waiting).
  { destruct t; [done| |subst w; cbn; by replace (1 + 0) with 1 by lia].
    apply rtc_once. subst w. replace (1 + running r + running m) with (1 + running Running + running r + running m - 1)
      by (cbn; lia). constructor. }
  transitivity (mkLife (1 + running m) Finished Finished m false Waiting).
  { destruct r; [done| |done]. apply rtc_once.
    replace (1 + running m) with (1 + running Running + running m - 1) by (cbn; lia). constructor. }
  destruct m; [done| |done]. apply rtc_once. apply step_minedExit.
Qed.

(** ** The limit on peers *)

Lemma registerPeer_len ps p : len (fst (registerPeer ps p)) <= len ps + 1.
Proof.
  unfold registerPeer. destruct (closed ps); cbn [fst]; [lia|].
  destruct (peers ps !! Peer.id p) eqn:Hi; cbn [fst]; [lia|].
  unfold len. cbn [peers]. rewrite map_size_insert_None by done. lia.
Qed.

Lemma checkAll_passes maxPeers ps l passed :
  len ps < maxPeers -> foldl (limitRun maxPeers) (ps, passed) (CheckRoom <$> l) = (ps, passed ++ l).
Proof.
  intros Hlt. revert passed. induction l as [|p l IH]; intros passed; [by rewrite app_nil_r|].
  cbn [fmap list_fmap foldl limitRun]. unfold noRoom. rewrite (proj2 (Z.leb_gt _ _)) by lia. rewrite andb_false_r.
  rewrite IH. by rewrite <- app_assoc.
Qed.

(** Those that passed are all registered. *)
Lemma registerAll maxPeers ps l :
  closed ps = false -> NoDup (Peer.id <$> l) -> (forall p, p ∈ l -> peers ps !! Peer.id p = None) ->
  exists ps', foldl (limitRun maxPeers) (ps, l) (replicate (length l) (Register 0)) = (ps', []) /\
    len ps' = len ps + Z.of_nat (length l).
Proof.
  revert ps. induction l as [|p l IH]; intros ps Hc Hnd Hnew.
  { exists ps. split; [done|]. cbn [length]. lia. }
  cbn [fmap list_fmap] in Hnd. apply NoDup_cons in Hnd as [Hp Hnd].
  cbn [length replicate foldl limitRun lookup list_lookup delete list_delete]. unfold registerPeer.
  rewrite Hc, (Hnew p) by set_solver. cbn [fst].
  destruct (IH (mkPeerSet (<[Peer.id p:=p]> (peers ps)) false)) as (ps' & Hf & Hl); [done|done| |].
  - intros q Hq. cbn [peers]. rewrite lookup_insert_ne; [apply Hnew; set_solver|].
    intros E. apply Hp. rewrite E. by apply list_elem_of_fmap_2.
  - exists ps'. split; [done|]. rewrite Hl. unfold len. cbn [peers].
    rewrite map_size_insert_None by (apply Hnew; set_solver). lia.
Qed.

End HandlerLemmas.

Import HandlerLemmas.

(** ** Admission *)








(** The limit on peers. Admissions that follow one another never exceed it; but the
    comparison and the registration are separate steps, and any number of untrusted
    peers that connect at the same time all pass a limit of at least one. *)
Theorem peer_limit_is_racy :
  (forall maxPeers ps l,
     len ps <= maxPeers -> Forall (fun p => Peer.Trusted p = false) l ->
     len (fst (foldl (limitRun maxPeers) (ps, []) (l ≫= fun p => [CheckRoom p; Register 0]))) <= maxPeers) /\
  (forall maxPeers l,
     0 < maxPeers -> NoDup (Peer.id <$> l) ->
     let '(ps, waiting) := foldl (limitRun maxPeers) (newPeerSet, [])
                             ((CheckRoom <$> l) ++ replicate (length l) (Register 0)) in
     len ps = Z.of_nat (length l) /\ waiting = []).
Proof.
  split.
  - intros maxPeers ps l Hlen Hl. revert ps Hlen. induction Hl as [|p l Hp _ IH]; intros ps Hlen; [done|].
    cbn [mbind list_bind app foldl limitRun]. unfold noRoom. rewrite Hp. cbn [negb andb].
    destruct (Z.leb_spec maxPeers (len ps)) as [Hle|Hlt]; [by apply IH|].
    cbn [limitRun app lookup list_lookup delete list_delete]. apply IH.
    pose proof (registerPeer_len ps p). lia.
  - intros maxPeers l Hmax Hnd. rewrite foldl_app, checkAll_passes by exact Hmax. cbn [app].
    destruct (registerAll maxPeers newPeerSet l) as (ps & -> & Hl); [done..|]. by rewrite Hl.
Qed.

(** ** Broadcasts *)







(** The broadcast of transactions. It does not panic as long as the number of direct
    peers, a cube root, does not exceed the number of peers. A connected peer is announced exactly the
    transactions of the batch whose hash ends in a byte below 4 (one in 64), which it does not
    know, and for which it is not one of the direct peers; those get nothing at all,
    since the direct sends are disabled. The hashes travel in one announcement, in the
    order of the batch. *)
Theorem transactions_announced `{SetPop} numDirect order taken ps txs :
  (forall n, (numDirect n <= n)%nat) -> wf ps -> (forall tx, range_of (order tx) (peers ps)) ->
  exists ps' annos,
    BroadcastTransactions numDirect order taken ps txs = Ret (ps', annos) /\
    forall i p, peers ps !! i = Some p ->
      exists hs, hs `sublist_of` (txHash <$> txs) /\
        (forall h, h ∈ hs <->
           exists tx, tx ∈ txs /\ txHash tx = h /\ h mod 256 < 4 /\ Peer.KnownTransaction p h = false /\
             p ∉ directPeers numDirect order ps tx) /\
        peers ps' !! i = Some (if decide (hs = []) then p else Peer.AsyncSendPooledTransactionHashes p hs (taken i)).
Proof.
  intros Hcbrt Hwf Ho. unfold BroadcastTransactions.
  destruct (assignTx_fold numDirect order ps Hcbrt Hwf Ho ∅ ∅ txs) as (txset & annos & -> & Ha);
    [by intros i; rewrite lookup_empty|].
  do 2 eexists. split; [done|]. intros i p Hi.
  exists (txHash <$> filter (announcedTo numDirect order ps i) txs). split_and!.
  - apply fmap_sublist, sublist_filter.
  - intros h. rewrite list_elem_of_fmap. split.
    + intros (tx & -> & [Htx Hin]%list_elem_of_filter). exists tx.
      apply (announcedTo_spec numDirect order ps Hwf Ho i p tx Hi) in Htx. tauto.
    + intros (tx & Hin & <- & Hrest). exists tx. split; [done|]. apply list_elem_of_filter.
      split; [|done]. by apply (announcedTo_spec numDirect order ps Hwf Ho i p tx Hi).
  - cbn [withPeers peers]. rewrite map_lookup_imap, Hi. cbn [option_bind mbind].
    destruct (Ha i) as [Hne Hd]. rewrite lookup_empty in Hd. cbn [default app] in Hd. rewrite <- Hd. f_equal.
    destruct (annos !! i) as [hs|]; cbn; [|by rewrite decide_True].
    rewrite decide_False; [done|]. congruence.
Qed.

(** ** Pioplat peers *)

(** Blocks for Pioplat peers. Near the head and with the broadcast switched on, every
    connected peer at a Pioplat address that does not know the block is sent it, and
    nobody else, provided no two connected peers share a Pioplat address. When they do, the loop
    ends too early: with one address, only the first peer found there is served. *)
Theorem pioplat_peers_served `{SetPop} ips current ps order b d :
  wf ps -> range_of order (peers ps) ->
  - Peri.maxBlockDist <= i64 (i64 (NumberU64 b) - i64 (NumberU64 current)) <= Peri.maxBlockDist ->
  let ps' := BroadcastBlockToPioplatPeer true ips current ps order b d in
  ((forall i j p q, peers ps !! i = Some p -> peers ps !! j = Some q ->
      Peer.IP p ∈ ips -> Peer.IP p = Peer.IP q -> i = j) ->
   forall i p, peers ps !! i = Some p ->
     peers ps' !! i = Some (if decide (Peer.IP p ∈ ips /\ Peer.KnownBlock p (blockHash b) = false)
                            then Peer.AsyncSendNewBlock p b d else p)) /\
  (forall p rest, inOrder ps order = p :: rest -> ips = {[Peer.IP p]} ->
     forall i q, i <> Peer.id p -> peers ps !! i = Some q -> peers ps' !! i = Some q).
Proof.
  intros Hwf Ho Hdist ps'. unfold ps', BroadcastBlockToPioplatPeer.
  rewrite (proj2 (orb_false_iff _ _)) by (split; lia). split.
  - intros Huniq i p Hi. cbn [withPeers peers]. rewrite <- (size_empty_Z (A := string)).
    rewrite pioplatLoop_all; [|apply empty_subseteq|by apply pioplat_IP_NoDup|intros q _; apply not_elem_of_empty].
    rewrite changeAll_lookup by (by apply inOrder_filter_NoDup). rewrite Hi.
    pose proof (selected_ids (fun p => Peer.IP p ∈ ips /\ Peer.KnownBlock p (blockHash b) = false)
      ps order i p Hwf Ho Hi) as Hs. cbv beta in Hs. fold (served ips (fun p => Peer.KnownBlock p (blockHash b)) (inOrder ps order)) in Hs.
    destruct (decide (i ∈ _)) as [Hin|Hin].
    + by rewrite decide_True by (by apply Hs).
    + rewrite decide_False; [done|]. intros E. by apply Hin, Hs.
  - intros p rest Hl -> i q Hne Hi. cbn [withPeers peers]. rewrite Hl. cbn [pioplatLoop].
    rewrite decide_True by set_solver. rewrite size_singleton. rewrite (proj2 (Z.leb_le _ _)) by lia.
    destruct (Peer.KnownBlock p _); [done|]. unfold change. by rewrite lookup_alter_ne.
Qed.

(** ** Packets *)

(** C32: What a packet does. For a peer with a complete URL the handler does not panic and
    returns an error exactly for an unexpected packet. The total difficulty the peer is
    credited with never falls, and rises only to that of the parent of a block it sent.
    Announced blocks go to the block fetcher when the chain lacks them, in order; a block, announced
    hashes and transactions go to their fetchers unchanged, transactions marked as
    requested exactly when they answer a request. The policy, once it exists, first records what was
    delivered: the announced blocks, the block, the announced hashes or the transactions of a broadcast, each with the
    time of the packet for this peer and as its arrival if there is no earlier one, except for transactions of earlier rounds and blocks more
    than 32 behind the head; nothing else of the policy changes, and nothing at all for requested transactions
    and unexpected packets. *)
Theorem packets_reach_fetchers cfg pe bc p t pk :
  Peri.longURL (Peer.URLv4 p) -> (forall pe0, pe = Some pe0 -> Peri.wf pe0) ->
  let current := NumberU64 (currentBlock bc) in
  exists pe' p' calls,
    Handle cfg pe bc p t pk = Ret (pe', p', calls) /\
    (forall pe0, pe' = Some pe0 -> Peri.wf pe0) /\ Peer.td p <= Peer.td p' /\
    match pk with
    | NewBlockHashesPacket anns =>
        option_Forall2 (blocksRecorded current (Peer.id p) t anns) pe pe' /\
        p' = p /\ calls = Some ((fun a => BlockNotify (Peer.id p) a.1 a.2) <$>
                                  filter (fun a => HasBlock bc a.1 a.2 = false) anns)
    | NewBlockPacket b d =>
        option_Forall2 (blocksRecorded current (Peer.id p) t [(blockHash b, NumberU64 b)]) pe pe' /\
        calls = Some [BlockEnqueue (Peer.id p) b] /\
        Peer.td p' = Z.max (Peer.td p) (d - Difficulty (header b)) /\
        (Peer.td p < d - Difficulty (header b) -> Peer.head p' = ParentHash (header b)) /\
        (d - Difficulty (header b) <= Peer.td p -> p' = p)
    | NewPooledTransactionHashesPacket hs => option_Forall2 (txsRecorded (Peer.id p) t hs) pe pe' /\ p' = p /\ calls = Some [TxNotify (Peer.id p) hs]
    | TransactionsPacket txs => option_Forall2 (txsRecorded (Peer.id p) t (txHash <$> txs)) pe pe' /\ p' = p /\ calls = Some [TxEnqueue (Peer.id p) txs false]
    | PooledTransactionsPacket txs => pe' = pe /\ p' = p /\ calls = Some [TxEnqueue (Peer.id p) txs true]
    | UnexpectedPacket => pe' = pe /\ p' = p /\ calls = None
    end.
Proof.
  intros Hu Hpe current. destruct pk as [anns|b d|hs|txs|txs|]; cbn [Handle Unpack].
  - destruct (record_blocks cfg pe (Peer.id p) (Peer.URLv4 p) anns current t Hpe Hu) as (pe' & E & Hwf & HR). fold current. rewrite E.
    unfold handleBlockAnnounces. rewrite unknownBlocks_spec. by do 3 eexists.
  - destruct (record_blocks cfg pe (Peer.id p) (Peer.URLv4 p) [(blockHash b, NumberU64 b)] current t Hpe Hu) as (pe' & E & Hwf & HR).
    unfold Peri.recordBlockBody. fold current. cbn [fmap list_fmap fst snd] in E. rewrite E. cbn [handleBlockBroadcast Peer.Head snd].
    destruct (Z.ltb_spec (Peer.td p) (d - Difficulty (header b))); do 3 eexists; (split; [reflexivity|]);
      cbn [Peer.SetHead Peer.td Peer.head]; split_and!; try done; lia.
  - destruct (record_txs cfg pe (Peer.id p) (Peer.URLv4 p) hs t Hpe Hu) as (pe' & -> & Hwf & HR). by do 3 eexists.
  - destruct (record_txs cfg pe (Peer.id p) (Peer.URLv4 p) (txHash <$> txs) t Hpe Hu) as (pe' & E & Hwf & HR). unfold Peri.recordTransactionBody. rewrite E. by do 3 eexists.
  - by do 3 eexists.
  - by do 3 eexists.
Qed.

(** ** Shutting down *)

(** [Stop] never returns on a started handler. [Start] adds four to the wait group but
    starts three loops; whatever the order in which they end, [Stop] stays in its
    wait, so it never disconnects the peers. From every state on the way the loops can all
    end, which leaves the count at one, and then nothing can happen any more. *)
Theorem stop_never_returns s :
  rtc lifeStep (StopCall (Start created)) s ->
  stopping s = Waiting /\ 1 <= wg s /\
  exists s', rtc lifeStep s s' /\ nf lifeStep s' /\ s' = mkLife 1 Finished Finished Finished false Waiting.
Proof.
  intros Hs. assert (lifeInv s) as Hinv.
  { revert Hs. apply (rtc_ind_r lifeInv); [by split_and!|]. intros x y _ Hxy. by apply lifeInv_step. }
  split_and!; [apply Hinv| |].
  - destruct Hinv as [-> _]. destruct (txLoop s), (reannoLoop s), (minedLoop s); cbn; lia.
  - eexists. split; [by apply shutdown_ends|]. split; [|done]. intros [s' Hstep]. inversion Hstep.
Qed.

(** ** The theorems at work *)

Lemma exPeers_wf : wf exPeers.
Proof.
  intros i p. unfold exPeers. cbn [peers]. rewrite !lookup_insert_Some, lookup_empty.
  by intros [[<- <-]|[_ [[<- <-]|[_ ?]]]].
Qed.

Lemma exPeers_order : range_of ["a"; "b"] (peers exPeers).
Proof. by vm_compute. Qed.


Definition exNewcomer : Peer.peer := Peer.NewPeer "c" (exURL "1.2.3.4") "1.2.3.4" false 0 0 0.





Lemma transactions_announced_witness :
  exists ps' annos, BroadcastTransactions (fun _ => 0%nat) (fun _ => ["a"; "b"]) (fun _ => true) exPeers
    [mkTx 3 0; mkTx 4 0; mkTx 257 0] = Ret (ps', annos) /\ is_Some (peers ps' !! "a").
Proof.
  destruct (transactions_announced (fun _ => 0%nat) (fun _ => ["a"; "b"]) (fun _ => true) exPeers
    [mkTx 3 0; mkTx 4 0; mkTx 257 0]) as (ps' & annos & Hrun & Hall);
    [intros; lia|exact exPeers_wf|intros; exact exPeers_order|].
  exists ps', annos. split; [exact Hrun|].
  destruct (Hall "a" (exPeer "a" 3) eq_refl) as (hs & _ & _ & ->). by eexists.
Defined.

Lemma pioplat_peers_served_witness :
  let ps' := BroadcastBlockToPioplatPeer true {["a"]} (exBlock 1 101) exPeers ["a"; "b"] (exBlock 2 102) 9 in
  peers ps' !! "a" = Some (Peer.AsyncSendNewBlock (exPeer "a" 3) (exBlock 2 102) 9) /\
  peers ps' !! "b" = Some (exPeer "b" 8).
Proof.
  destruct (pioplat_peers_served {["a"]} (exBlock 1 101) exPeers ["a"; "b"] (exBlock 2 102) 9) as [Hall _];
    [exact exPeers_wf|exact exPeers_order|by vm_compute|].
  assert (forall i p, peers exPeers !! i = Some p -> Peer.IP p = i) as Hip.
  { intros i p. unfold exPeers. cbn [peers]. rewrite !lookup_insert_Some, lookup_empty.
    by intros [[<- <-]|[_ [[<- <-]|[_ ?]]]]. }
  specialize (Hall ltac:(intros i j p q Hi Hj _ E; by rewrite <- (Hip i p Hi), <- (Hip j q Hj))).
  split; [exact (Hall "a" _ eq_refl)|exact (Hall "b" _ eq_refl)].
Defined.

Lemma fresh_policy_wf cfg maxPeers : Peri.wf (Peri.newPeri cfg maxPeers).
Proof. split; [split|split|]; intros; cbn in *; rewrite lookup_empty in *; done || by destruct H. Qed.

Lemma packets_reach_fetchers_witness :
  exists pe' p', Handle (exCfg []) (Some (Peri.newPeri (exCfg []) 50)) exChain exNewcomer 7 (NewBlockPacket (exBlock 9 109) 50)
    = Ret (Some pe', p', Some [BlockEnqueue "c" (exBlock 9 109)]) /\ Peer.td p' = 50 /\ Peri.blockArrivals pe' !! (109, 9) = Some 7.
Proof.
  destruct (packets_reach_fetchers (exCfg []) (Some (Peri.newPeri (exCfg []) 50)) exChain exNewcomer 7 (NewBlockPacket (exBlock 9 109) 50))
    as (pe' & p' & calls & Hrun & _ & _ & HR & -> & Htd & _); [unfold Peri.longURL; vm_compute; lia|intros ? [= <-]; apply fresh_policy_wf|].
  inversion HR as [q q' Hq E E'|]; subst. exists q', p'. split; [exact Hrun|]. split; [rewrite Htd; reflexivity|]. destruct Hq as (arr & per & -> & Hrec & _).
  cbn [Peri.setBlock Peri.blockArrivals]. destruct (Hrec (109, 9) ltac:(by apply list_elem_of_singleton) eq_refl) as [-> _]. reflexivity.
Defined.

Lemma stop_never_returns_witness : stopping (StopCall (Start created)) = Waiting.
Proof. exact (proj1 (stop_never_returns (StopCall (Start created)) (rtc_refl _ _))). Defined.
