(* ===== verification/Prque.v ===== *)
(** * The priority queue (src/common/prque)

    [sstack] keeps its items in blocks of fixed size, [Prque] is Go's container/heap over it. The active
    block is a slice that is also in the list of blocks, kept here as its index. The queue has no
    callback for moved items, as in [New(nil)], and does not wrap priorities around. *)

From stdpp Require Import base tactics list.
From Stdlib Require Import ZArith Lia.
From S2P Require Import Prelude GoHeap.

Open Scope nat_scope.
Open Scope go_scope.

Module Prque.

Definition blockSize : nat := 4096.

Section Queue.
Context {A : Type}.

Record item := mkItem { value : A; priority : Z }.

Record sstack := mkStack {
  size : nat;
  capacity : nat;
  offset : nat;
  blocks : list (list (option item));
  active : nat
}.

Definition emptyBlock : list (option item) := replicate blockSize None.

Definition newSstack : sstack := mkStack 0 blockSize 0 [emptyBlock] 0.

(** [s.blocks[b][o] = x]. *)
Definition store (bs : list (list (option item))) (b o : nat) (x : option item) : go (list (list (option item))) :=
  match bs !! b with
  | Some blk => if decide (o < length blk) then Ret (<[b := <[o := x]> blk]> bs) else Panic
  | None => Panic
  end.

(** [s.blocks[b][o]]. *)
Definition load (bs : list (list (option item))) (b o : nat) : go (option item) :=
  match bs !! b with
  | Some blk => match blk !! o with Some x => Ret x | None => Panic end
  | None => Panic
  end.

Definition Push (s : sstack) (x : item) : go sstack :=
  let s :=
    if decide (size s = capacity s) then
      mkStack (size s) (capacity s + blockSize) 0 (blocks s ++ [emptyBlock]) (length (blocks s))
    else if decide (offset s = blockSize) then
      mkStack (size s) (capacity s) 0 (blocks s) (size s / blockSize)
    else s in
  let! bs := store (blocks s) (active s) (offset s) (Some x) in
  Ret (mkStack (size s + 1) (capacity s) (offset s + 1) bs (active s)).

(** The nil item that an empty slot holds makes the caller's type assertion panic. *)
Definition Pop (s : sstack) : go (item * sstack) :=
  if decide (size s = 0) then Panic
  else
    let n := size s - 1 in
    let s :=
      if decide (offset s = 0) then mkStack n (capacity s) (blockSize - 1) (blocks s) (n / blockSize)
      else mkStack n (capacity s) (offset s - 1) (blocks s) (active s) in
    let! res := load (blocks s) (active s) (offset s) in
    let! bs := store (blocks s) (active s) (offset s) None in
    match res with
    | Some x => Ret (x, mkStack (size s) (capacity s) (offset s) bs (active s))
    | None => Panic
    end.

Definition at_ (s : sstack) (i : nat) : go (option item) := load (blocks s) (i / blockSize) (i mod blockSize).

(** [Less], with the nil dereference of an empty slot. *)
Definition Less (s : sstack) (i j : nat) : go bool :=
  let! a := at_ s i in
  let! b := at_ s j in
  match a, b with
  | Some a, Some b => Ret (priority b <? priority a)%Z
  | _, _ => Panic
  end.

Definition Swap (s : sstack) (i j : nat) : go sstack :=
  let! a := at_ s j in
  let! b := at_ s i in
  let! bs := store (blocks s) (i / blockSize) (i mod blockSize) a in
  let! bs := store bs (j / blockSize) (j mod blockSize) b in
  Ret (mkStack (size s) (capacity s) (offset s) bs (active s)).

(** ** container/heap over [sstack] *)

Fixpoint siftUp (fuel : nat) (s : sstack) (j : nat) : go sstack :=
  match fuel with
  | O => Ret s
  | S fuel =>
      let i := parent j in
      if decide (i = j) then Ret s
      else
        let! lt := Less s j i in
        if lt : bool then let! s := Swap s i j in siftUp fuel s i else Ret s
  end.

Definition pick (s : sstack) (n i : nat) : go nat :=
  let j1 := 2 * i + 1 in
  if decide (j1 + 1 < n) then
    let! lt := Less s (j1 + 1) j1 in
    Ret (if lt : bool then j1 + 1 else j1)
  else Ret j1.

Fixpoint siftDown (fuel : nat) (s : sstack) (i n : nat) : go sstack :=
  match fuel with
  | O => Ret s
  | S fuel =>
      if decide (n <= 2 * i + 1) then Ret s
      else
        let! j := pick s n i in
        let! lt := Less s j i in
        if lt : bool then let! s := Swap s i j in siftDown fuel s j n else Ret s
  end.

(** [Prque.Push]; the fuel of the loops is the number of items, one tree level per round. *)
Definition queuePush (s : sstack) (data : A) (prio : Z) : go sstack :=
  let! s := Push s (mkItem data prio) in
  siftUp (size s) s (size s - 1).

(** [Prque.Pop]. Popping an empty queue swaps with the slot before the first, a panic. *)
Definition queuePop (s : sstack) : go (A * Z * sstack) :=
  if decide (size s = 0) then Panic
  else
    let n := size s - 1 in
    let! s' := Swap s 0 n in
    let! s' := siftDown (size s) s' 0 n in
    let! (x, s') := Pop s' in
    Ret (value x, priority x, s').

Definition Empty (s : sstack) : bool := bool_decide (size s = 0).

End Queue.
Arguments item : clear implicits.
Arguments sstack : clear implicits.

End Prque.

Import Prque.

Module PrqueLemmas.

Section Queue.
Context {A : Type}.
Implicit Types (s : sstack A) (l : list (item A)) (bs : list (list (option (item A)))).

Lemma blockSize_pos : 0 < blockSize.
Proof. unfold blockSize. lia. Qed.

Opaque blockSize.

Definition uniform bs : Prop := Forall (fun b => length b = blockSize) bs.

Lemma concat_lookup bs b o : uniform bs -> o < blockSize -> concat bs !! (b * blockSize + o) = bs !! b ≫= fun blk => blk !! o.
Proof.
  intros Hu Ho. revert b. induction Hu as [|blk bs Hb Hu IH]; intros b; [done|]. cbn [concat]. destruct b as [|b].
  - cbn. by rewrite lookup_app_l by lia.
  - rewrite lookup_app_r by lia. replace (S b * blockSize + o - length blk) with (b * blockSize + o) by lia. apply IH.
Qed.

Lemma concat_insert bs b o blk x :
  uniform bs -> o < blockSize -> bs !! b = Some blk ->
  concat (<[b := <[o := x]> blk]> bs) = <[b * blockSize + o := x]> (concat bs).
Proof.
  intros Hu Ho. revert b. induction Hu as [|blk' bs Hb Hu IH]; intros b; [done|]. destruct b as [|b].
  - intros [= ->]. cbn. by rewrite insert_app_l by lia.
  - intros Hl. change (<[S b := <[o := x]> blk]> (blk' :: bs)) with (blk' :: <[b := <[o := x]> blk]> bs). cbn [concat].
    rewrite (IH b Hl), insert_app_r_alt by lia. do 2 f_equal. lia.
Qed.

Lemma uniform_insert bs b o blk x : uniform bs -> bs !! b = Some blk -> uniform (<[b := <[o := x]> blk]> bs).
Proof.
  intros Hu Hl. apply Forall_insert; [done|]. rewrite length_insert. eapply Forall_lookup_1 in Hu; [|exact Hl]. done.
Qed.

(** The stack holds the items [l], and its write position is behind them. *)
Definition holds s l : Prop :=
  size s = length l /\ uniform (blocks s) /\ capacity s = length (blocks s) * blockSize /\ size s <= capacity s /\
  concat (blocks s) = (Some <$> l) ++ replicate (capacity s - size s) None /\
  active s * blockSize + offset s = size s /\ offset s <= blockSize /\ active s < length (blocks s).

Lemma new_holds : holds newSstack [].
Proof.
  pose proof blockSize_pos. unfold holds, newSstack, uniform, emptyBlock. cbn [size blocks capacity active offset length concat].
  split_and!; [done|by repeat constructor; rewrite length_replicate|lia|lia|by rewrite app_nil_r, Nat.sub_0_r|lia|lia|lia].
Qed.

Lemma block_exists bs b : uniform bs -> b < length bs -> exists blk, bs !! b = Some blk /\ length blk = blockSize.
Proof.
  intros Hu Hb. destruct (lookup_lt_is_Some_2 bs b Hb) as [blk Hl]. exists blk. split; [done|]. by eapply Forall_lookup_1 in Hu.
Qed.

Lemma store_ok bs b o x :
  uniform bs -> b < length bs -> o < blockSize ->
  exists bs', store bs b o x = Ret bs' /\ uniform bs' /\ length bs' = length bs /\
    concat bs' = <[b * blockSize + o := x]> (concat bs).
Proof.
  intros Hu Hb Ho. destruct (block_exists bs b Hu Hb) as (blk & Hl & Hlen). unfold store. rewrite Hl, decide_True by lia.
  eexists. split; [done|]. split; [by apply uniform_insert|]. split; [by rewrite length_insert|by apply concat_insert].
Qed.

Lemma load_ok bs b o : uniform bs -> b < length bs -> o < blockSize ->
  exists x, load bs b o = Ret x /\ concat bs !! (b * blockSize + o) = Some x.
Proof.
  intros Hu Hb Ho. destruct (block_exists bs b Hu Hb) as (blk & Hl & Hlen). unfold load. rewrite concat_lookup, Hl by done. cbn.
  destruct (lookup_lt_is_Some_2 blk o ltac:(lia)) as [x ->]. by exists x.
Qed.

(** Slots by their index in the whole stack. *)
Lemma slot s l i : holds s l -> i < capacity s ->
  i / blockSize < length (blocks s) /\ i mod blockSize < blockSize /\ i / blockSize * blockSize + i mod blockSize = i.
Proof.
  intros (_ & _ & Hc & _) Hi. pose proof blockSize_pos. pose proof (Nat.div_mod_eq i blockSize).
  split_and!; [apply Nat.Div0.div_lt_upper_bound; lia|apply Nat.mod_upper_bound; lia|lia].
Qed.

Lemma at_ok s l i x : holds s l -> l !! i = Some x -> at_ s i = Ret (Some x).
Proof.
  intros Hh Hl. pose proof (lookup_lt_Some _ _ _ Hl). pose proof Hh as (Hs & Hu & Hc & Hsc & Hcc & _).
  destruct (slot s l i Hh ltac:(lia)) as (Hb & Ho & E). destruct (load_ok (blocks s) _ _ Hu Hb Ho) as (y & Hy & Hc').
  unfold at_. rewrite Hy.
  rewrite E, Hcc, lookup_app_l, list_lookup_fmap, Hl in Hc' by (rewrite length_fmap; lia). by injection Hc' as <-.
Qed.

Definition rank (x : item A) : Z := - priority x.

Lemma Less_ok s l i j : holds s l -> i < length l -> j < length l -> Less s i j = Ret (less rank l i j).
Proof.
  intros Hh Hi Hj. destruct (lookup_lt_is_Some_2 l i Hi) as [x Hx]. destruct (lookup_lt_is_Some_2 l j Hj) as [y Hy].
  unfold Less. rewrite (at_ok s l i x), (at_ok s l j y) by done. unfold less. rewrite Hx, Hy. unfold rank. f_equal.
  destruct (Z.ltb_spec (priority y) (priority x)), (Z.ltb_spec (- priority x) (- priority y)); lia.
Qed.

(** Storing an item over an item. *)
Lemma store_holds s l i x :
  holds s l -> i < length l ->
  exists bs', store (blocks s) (i / blockSize) (i mod blockSize) (Some x) = Ret bs' /\
    holds (mkStack (size s) (capacity s) (offset s) bs' (active s)) (<[i := x]> l).
Proof.
  intros Hh Hi. pose proof Hh as (Hs & Hu & Hc & Hsc & Hcc & Ha & Ho & Hac).
  destruct (slot s l i Hh ltac:(lia)) as (Hb & Hm & E).
  destruct (store_ok (blocks s) _ _ (Some x) Hu Hb Hm) as (bs' & Hst & Hu' & Hl' & Hc'). exists bs'. split; [done|].
  unfold holds. cbn [size blocks capacity active offset]. rewrite length_insert, Hl'. split_and!; try done.
  rewrite Hc', E, Hcc, insert_app_l by (rewrite length_fmap; lia). by rewrite list_fmap_insert.
Qed.

Lemma Swap_ok s l i j : holds s l -> i < length l -> j < length l ->
  exists s', Swap s i j = Ret s' /\ holds s' (swap l i j) /\ size s' = size s.
Proof.
  intros Hh Hi Hj. destruct (lookup_lt_is_Some_2 l i Hi) as [x Hx]. destruct (lookup_lt_is_Some_2 l j Hj) as [y Hy].
  unfold Swap. rewrite (at_ok s l i x), (at_ok s l j y) by done.
  destruct (store_holds s l i y Hh Hi) as (bs1 & -> & H1).
  destruct (store_holds _ _ j x H1) as (bs2 & Hst & H2); [by rewrite length_insert|]. cbn [blocks] in Hst. rewrite Hst.
  eexists. split; [done|]. split; [|done]. cbn [size capacity offset active] in H2. unfold swap. rewrite Hx, Hy.
  destruct (decide (i = j)) as [->|Hne]; [|by rewrite list_insert_insert_ne].
  rewrite list_insert_insert_eq in H2. rewrite list_insert_insert_eq. replace y with x by congruence. done.
Qed.

Lemma Push_ok s l x : holds s l -> exists s', Push s x = Ret s' /\ holds s' (l ++ [x]) /\ size s' = S (length l).
Proof.
  intros (Hs & Hu & Hc & Hsc & Hcc & Ha & Ho & Hac). pose proof blockSize_pos as Hpos. unfold Push.
  match goal with |- context [store (blocks ?e)] => set (s1 := e) end.
  assert (holds s1 l /\ offset s1 < blockSize /\ size s1 < capacity s1) as (Hh1 & Ho1 & Hr1).
  { unfold s1. case_decide as Hfull; [|case_decide as Hend]; [| |by split_and!; try done; lia].
    - unfold holds, emptyBlock. cbn [size blocks capacity active offset]. rewrite length_app, concat_app. cbn [length concat].
      rewrite Hcc, app_nil_r. split_and!; try lia; try done.
      + apply Forall_app. split; [done|]. by repeat constructor; rewrite length_replicate.
      + rewrite <- app_assoc, <- replicate_add. do 2 f_equal. lia.
    - pose proof (Nat.div_mod_eq (size s) blockSize). assert (size s = S (active s) * blockSize) as E by lia.
      unfold holds. cbn [size blocks capacity active offset].
      assert (size s / blockSize = S (active s)) as -> by (rewrite E; apply Nat.div_mul; lia).
      split_and!; try done; try lia. assert (S (active s) * blockSize < length (blocks s) * blockSize) as Hlt by lia.
      apply Nat.mul_lt_mono_pos_r in Hlt; lia. }
  destruct Hh1 as (Hs1 & Hu1 & Hc1 & _ & Hcc1 & Ha1 & _ & Hac1).
  destruct (store_ok (blocks s1) (active s1) (offset s1) (Some x) Hu1 Hac1 Ho1) as (bs & -> & Hu' & Hl' & Hc').
  eexists. split; [done|]. unfold holds. cbn [size blocks capacity active offset]. rewrite length_app, Hl'. cbn [length].
  split; [|lia]. split_and!; try done; try lia. rewrite Hc', Ha1, Hcc1, insert_app_r_alt by (rewrite length_fmap; lia).
  rewrite length_fmap, Hs1, Nat.sub_diag, fmap_app, <- app_assoc. f_equal.
  replace (capacity s1 - length l) with (S (capacity s1 - (length l + 1))) by lia. done.
Qed.

Lemma Pop_ok s l x : holds s (l ++ [x]) -> exists s', Pop s = Ret (x, s') /\ holds s' l.
Proof.
  intros (Hs & Hu & Hc & Hsc & Hcc & Ha & Ho & Hac). pose proof blockSize_pos as Hpos. rewrite length_app in Hs. cbn [length] in Hs.
  unfold Pop. rewrite decide_False by lia.
  match goal with |- context [load (blocks ?e)] => set (s1 := e) end.
  assert (blocks s1 = blocks s /\ capacity s1 = capacity s /\ size s1 = length l /\ active s1 * blockSize + offset s1 = length l /\
    offset s1 < blockSize /\ active s1 < length (blocks s)) as (Eb & Ec & Es & Ea & Eo & Eac).
  { unfold s1. case_decide as H0; cbn [size blocks capacity active offset]; [|split_and!; try done; lia].
    destruct (active s) as [|a]; [lia|].
    assert ((size s - 1) / blockSize = a) as -> by (symmetry; apply (Nat.div_unique _ _ _ (blockSize - 1)); lia).
    split_and!; try done; lia. }
  rewrite Eb. destruct (load_ok (blocks s) (active s1) (offset s1) Hu Eac Eo) as (y & -> & Hy).
  destruct (store_ok (blocks s) (active s1) (offset s1) None Hu Eac Eo) as (bs & -> & Hu' & Hl' & Hc').
  rewrite Ea, Hcc, fmap_app, <- app_assoc in Hy. cbn [fmap list_fmap app] in Hy.
  rewrite lookup_app_r, length_fmap, Nat.sub_diag in Hy by (rewrite length_fmap; lia). cbn in Hy. injection Hy as <-.
  eexists. split; [done|]. unfold holds. cbn [size blocks capacity active offset]. rewrite Hl', Ec, Es. split_and!; try done; try lia.
  rewrite Hc', Ea, Hcc, fmap_app, <- app_assoc. cbn [fmap list_fmap app].
  rewrite insert_app_r_alt, length_fmap, Nat.sub_diag by (rewrite length_fmap; lia). f_equal. cbn.
  replace (capacity s - length l) with (S (capacity s - size s)) by lia. done.
Qed.

Lemma siftUp_ok fuel s l j : holds s l -> j < length l ->
  exists s', siftUp fuel s j = Ret s' /\ holds s' (up rank fuel l j) /\ size s' = size s.
Proof.
  revert s l j. induction fuel as [|fuel IH]; intros s l j Hh Hj; cbn [siftUp up]; [by exists s|].
  case_decide as Hp; [by exists s|]. assert (0 < j) by (destruct j; [by destruct Hp|lia]).
  assert (parent j < length l) as Hpj by (pose proof (parent_spec j ltac:(lia)); lia).
  rewrite (Less_ok s l) by done. destruct (less rank l j (parent j)); [|by exists s].
  destruct (Swap_ok s l (parent j) j Hh Hpj Hj) as (s1 & -> & Hh1 & <-).
  apply IH; [done|]. by rewrite length_swap.
Qed.

Lemma siftDown_ok fuel s l i n : holds s l -> i < length l -> n <= length l ->
  exists s', siftDown fuel s i n = Ret s' /\ holds s' (down rank fuel l i n) /\ size s' = size s.
Proof.
  revert s l i. induction fuel as [|fuel IH]; intros s l i Hh Hi Hn; cbn [siftDown down]; [by exists s|].
  case_decide as Hd; [by exists s|].
  assert (pick s n i = Ret (child rank l n i) /\ child rank l n i < length l) as [-> Hc].
  { unfold pick, child. case_decide; [|split; [done|lia]]. rewrite (Less_ok s l) by (done || lia).
    split; [done|]. destruct (less _ _ _ _); lia. }
  rewrite (Less_ok s l) by done. destruct (less rank l _ i); [|by exists s].
  destruct (Swap_ok s l i (child rank l n i) Hh Hi Hc) as (s1 & -> & Hh1 & <-).
  apply IH; rewrite ?length_swap; done.
Qed.

(** A queue with the items [l], in the order of the heap. *)
Definition queueOf s l : Prop := holds s l /\ heap_ok rank (length l) l.

Lemma queueOf_unique s l l' : queueOf s l -> queueOf s l' -> l = l'.
Proof.
  intros [(E & _ & _ & _ & C & _) _] [(E' & _ & _ & _ & C' & _) _]. apply (inj (fmap Some)).
  rewrite C in C'. apply app_inj_1 in C' as [H _]; [done|]. rewrite !length_fmap. lia.
Qed.

Lemma queuePush_ok s l data prio : queueOf s l ->
  exists s' l', queuePush s data prio = Ret s' /\ queueOf s' l' /\ l' ≡ₚ mkItem data prio :: l.
Proof.
  intros [Hh Hok]. unfold queuePush. destruct (Push_ok s l (mkItem data prio) Hh) as (s1 & -> & Hh1 & Hs1). rewrite Hs1.
  cbn [Nat.sub]. rewrite Nat.sub_0_r.
  destruct (siftUp_ok (S (length l)) s1 _ (length l) Hh1) as (s2 & -> & Hh2 & _); [rewrite length_app; cbn; lia|].
  destruct (heap_push_ok rank l (mkItem data prio) Hok) as [Hp Ho]. unfold heap_push in Hp, Ho. rewrite Nat.add_1_r in Hp, Ho.
  eexists s2, _. split; [done|]. by split.
Qed.

Lemma heap_pop_unfold l x r :
  heap_pop rank l = Some (x, r) -> l <> [] -> down rank (length l) (swap l 0 (length l - 1)) 0 (length l - 1) = r ++ [x].
Proof.
  intros Hp Hne. unfold heap_pop in Hp. set (l' := down _ _ _ _ _) in *.
  assert (length l' = length l) as Hl by (unfold l'; rewrite (Permutation_length (down_perm rank _ _ _ _)); apply length_swap).
  destruct l' as [|z l''] eqn:E using rev_ind; [destruct l; [done|cbn in Hl; lia]|]. clear IHl''.
  rewrite length_app in Hl. cbn [length] in Hl. replace (length l - 1) with (length l'') in Hp by lia.
  rewrite lookup_app_r, Nat.sub_diag in Hp by lia. cbn in Hp. injection Hp as <- <-.
  by rewrite take_app_length.
Qed.

Lemma queuePop_ok s l : queueOf s l -> l <> [] ->
  exists x s' l', queuePop s = Ret (value x, priority x, s') /\ queueOf s' l' /\ l ≡ₚ x :: l' /\
    Forall (fun y => priority y <= priority x)%Z l.
Proof.
  intros [Hh Hok] Hne. pose proof Hh as (Hs & _). assert (0 < length l) as Hpos by (destruct l; [done|cbn; lia]).
  destruct (heap_pop_ok rank l Hok Hne) as (x & r & Hp & Hperm & Hor & _ & Hmin).
  pose proof (heap_pop_unfold l x r Hp Hne) as Hd. unfold queuePop. rewrite decide_False by lia. rewrite Hs.
  destruct (Swap_ok s l 0 (length l - 1) Hh ltac:(lia) ltac:(lia)) as (s1 & -> & Hh1 & _).
  destruct (siftDown_ok (length l) s1 _ 0 (length l - 1) Hh1) as (s2 & -> & Hh2 & _); [rewrite length_swap; lia..|].
  rewrite Hd in Hh2. destruct (Pop_ok s2 r x Hh2) as (s3 & -> & Hh3). exists x, s3, r. split; [done|]. split; [by split|]. split; [done|].
  eapply Forall_impl; [exact Hmin|]. unfold rank. cbn. lia.
Qed.

End Queue.
End PrqueLemmas.

Import PrqueLemmas.

(** The priority queue. Over the blocks of the stack, pushing adds the item and popping removes one of the highest
    priority, without a panic as long as there is an item; what the queue holds is
    otherwise unchanged. *)
Theorem queue_pops_highest {A} (s : sstack A) l data prio :
  queueOf s l ->
  (exists s' l', queuePush s data prio = Ret s' /\ queueOf s' l' /\ l' ≡ₚ mkItem data prio :: l) /\
  (if decide (l = []) then queuePop s = Panic
   else exists x s' l', queuePop s = Ret (value x, priority x, s') /\ queueOf s' l' /\ l ≡ₚ x :: l' /\
     Forall (fun y => priority y <= priority x)%Z l).
Proof.
  intros Hq. split; [by apply queuePush_ok|]. case_decide as Hl; [|by apply queuePop_ok].
  destruct Hq as [(Hs & _) _]. unfold queuePop. by rewrite Hs, Hl, decide_True.
Qed.

Lemma queue_pops_highest_witness : exists s' l', queuePush (newSstack (A := nat)) 7 3 = Ret s' /\ queueOf s' l' /\ l' ≡ₚ [mkItem 7 3%Z].
Proof. apply (queue_pops_highest newSstack []). split; [apply new_holds|]. intros k Hk. cbn in Hk. lia. Defined.
