(* ===== verification/BlockFetcher.v ===== *)
(** * The block fetcher (src/eth/fetcher/block_fetcher.go)

    The loop of [BlockFetcher]: what it does before each wait ([expireFetches], [importQueued]) and one
    function per case of its [select]. The callbacks into the chain are arguments, what the
    loop asks others to do is a list of effects, and a goroutine that finishes an import comes back as
    the event [Done]. An announcement is a pointer that only [fetching] shares with the later
    stages; the header filter writes through it to both. The timers are kept
    as flags: one is armed when a trigger of it is due or pending. *)

From stdpp Require Import base tactics list gmap fin_maps strings.
From Stdlib Require Import ZArith Lia.
From S2P Require Import Prelude Types Prque TxFetcherEntry.

Open Scope Z_scope.
Open Scope go_scope.

Import FetcherEntry.

(** [types.EmptyUncleHash], [types.CalcUncleHash] and [types.DeriveSha] over a fresh trie. *)
Class BodyHashes := {
  EmptyUncleHash : hash;
  CalcUncleHash : list Header -> hash;
  DeriveSha : list Transaction -> hash
}.

Module BlockFetcher.

Definition EmptyRootHash : hash := 0x56e81f171bcc55a6ff8345e692c0f86e5b48e01b996cadc001622fb5e363b421.

Definition fetchTimeout : Z := 5000000000.
Definition hashLimit : Z := 256.
Definition blockLimit : Z := 64.

Record blockAnnounce := mkAnnounce {
  ahash : hash;
  number : Z;
  aheader : option Header;
  time : Z;
  origin : string
}.

Record blockOrHeaderInject := mkInject { iorigin : string; iheader : option Header; iblock : option Block }.

Record fetcher := mkFetcher {
  light : bool;
  announces : gmap string Z;
  announced : gmap hash (list blockAnnounce);
  fetching : gmap hash blockAnnounce;
  fetched : gmap hash (list blockAnnounce);
  completing : gmap hash blockAnnounce;
  queue : Prque.sstack blockOrHeaderInject;
  queues : gmap string Z;
  queued : gmap hash blockOrHeaderInject;
  fetchArmed : bool;
  completeArmed : bool
}.

Definition NewBlockFetcher (light : bool) : fetcher :=
  mkFetcher light ∅ ∅ ∅ ∅ ∅ Prque.newSstack ∅ ∅ false false.

Definition setAnnounced (f : fetcher) an ad : fetcher :=
  mkFetcher (light f) an ad (fetching f) (fetched f) (completing f) (queue f) (queues f) (queued f)
    (fetchArmed f) (completeArmed f).
Definition setStages (f : fetcher) fe fd co : fetcher :=
  mkFetcher (light f) (announces f) (announced f) fe fd co (queue f) (queues f) (queued f)
    (fetchArmed f) (completeArmed f).
Definition setImports (f : fetcher) q qs qd : fetcher :=
  mkFetcher (light f) (announces f) (announced f) (fetching f) (fetched f) (completing f) q qs qd
    (fetchArmed f) (completeArmed f).
Definition setTimers (f : fetcher) fa ca : fetcher :=
  mkFetcher (light f) (announces f) (announced f) (fetching f) (fetched f) (completing f) (queue f) (queues f) (queued f)
    fa ca.

(** What the loop asks of the rest of the node. *)
Inductive effect :=
| DropPeer (peer : string)
| PioplatBroadcast (b : Block)
| ImportBlock (peer : string) (b : Block)
| ImportHeader (peer : string) (h : Header)
| RequestHeaders (peer : string) (hashes : list hash)
| RequestBodies (peer : string) (hashes : list hash)
| ReturnHeaders (hs : list Header)
| ReturnBodies (txs : list (list Transaction)) (uncles : list (list Header)).

(** The chain as the callbacks see it. *)
Record view := mkView { getHeader : hash -> option Header; getBlock : hash -> option Block }.

(** ** Forgetting *)

(** [m[p]--; if m[p] <= 0 { delete(m, p) }]. *)
Definition decrement (m : gmap string Z) (p : string) : gmap string Z :=
  let c := default 0 (m !! p) - 1 in
  if c <=? 0 then delete p m else <[p := c]> m.

Definition decrementAll (m : gmap string Z) (l : list blockAnnounce) : gmap string Z :=
  foldl (fun m a => decrement m (origin a)) m l.

Definition forgetHash (f : fetcher) (h : hash) : fetcher :=
  let an := decrementAll (announces f) (default [] (announced f !! h)) in
  let an := match fetching f !! h with Some a => decrement an (origin a) | None => an end in
  let an := decrementAll an (default [] (fetched f !! h)) in
  let an := match completing f !! h with Some a => decrement an (origin a) | None => an end in
  setStages (setAnnounced f an (delete h (announced f)))
    (delete h (fetching f)) (delete h (fetched f)) (delete h (completing f)).

Definition forgetBlock (f : fetcher) (h : hash) : fetcher :=
  match queued f !! h with
  | Some op =>
      let c := default 0 (queues f !! iorigin op) - 1 in
      setImports f (queue f) (if c =? 0 then delete (iorigin op) (queues f) else <[iorigin op := c]> (queues f))
        (delete h (queued f))
  | None => f
  end.

(** ** Timers *)

Definition rescheduleFetch (f : fetcher) : fetcher :=
  if decide (announced f = ∅) then f else setTimers f true (completeArmed f).

Definition rescheduleComplete (f : fetcher) : fetcher :=
  if decide (fetched f = ∅) then f else setTimers f (fetchArmed f) true.

(** ** Imports *)

(** [enqueue] of a header or a block. It logs the number of the block first, which a
    header does not have. *)
Definition enqueue (f : fetcher) (peer : string) (hd : option Header) (b : option Block) : go fetcher :=
  match b with
  | None => Panic
  | Some blk =>
      let '(h, n) := match hd with
                     | Some hd => (headerHash hd, u64 (Number hd))
                     | None => (blockHash blk, NumberU64 blk)
                     end in
      let count := default 0 (queues f !! peer) + 1 in
      if blockLimit <? count then Ret (forgetHash f h)
      else
        match queued f !! h with
        | Some _ => Ret f
        | None =>
            let op := match hd with
                      | Some hd => mkInject peer (Some hd) None
                      | None => mkInject peer None b
                      end in
            let! q := Prque.queuePush (queue f) op (i64 (- i64 n)) in
            Ret (setImports f q (<[peer := count]> (queues f)) (<[h := op]> (queued f)))
        end
  end.

(** The start of an import; its end is the event [Done]. *)
Definition importHeaders (op : blockOrHeaderInject) : go (list effect) :=
  match iheader op with
  | Some h => Ret [ImportHeader (iorigin op) h]
  | None => Panic
  end.

Definition importBlocks (op : blockOrHeaderInject) : go (list effect) :=
  match iblock op with
  | Some b => Ret ((if containsColon (iorigin op) then [] else [PioplatBroadcast b]) ++ [ImportBlock (iorigin op) b])
  | None => Panic
  end.

(** The loop that empties the queue; the fuel is its size. *)
Fixpoint importLoop (fuel : nat) (lt : bool) (q : Prque.sstack blockOrHeaderInject)
    : go (Prque.sstack blockOrHeaderInject * list effect) :=
  match fuel with
  | O => Ret (q, [])
  | S fuel =>
      if Prque.Empty q then Ret (q, [])
      else
        let! (op, _, q) := Prque.queuePop q in
        let! es := if lt then importHeaders op else importBlocks op in
        let! (q, es') := importLoop fuel lt q in
        Ret (q, es ++ es')
  end.

Definition importQueued (f : fetcher) : go (fetcher * list effect) :=
  let! (q, es) := importLoop (Prque.size (queue f)) (light f) (queue f) in
  Ret (setImports f q (queues f) (queued f), es).

Section Loop.

Context `{RangeOrder} `{BodyHashes}.

(** The clean up before each wait. *)
Definition expireFetches (f : fetcher) (now : Z) : fetcher :=
  foldl (fun f h =>
    match fetching f !! h with
    | Some a => if fetchTimeout <? now - time a then forgetHash f h else f
    | None => f
    end) f (hashOrder (dom (fetching f))).

(** ** Announcements *)

Definition onNotify (f : fetcher) (a : blockAnnounce) : fetcher :=
  let count := default 0 (announces f !! origin a) + 1 in
  if hashLimit <? count then f
  else if number a =? 0 then f
  else if decide (is_Some (fetching f !! ahash a)) then f
  else if decide (is_Some (completing f !! ahash a)) then f
  else
    let f := setAnnounced f (<[origin a := count]> (announces f))
               (<[ahash a := default [] (announced f !! ahash a) ++ [a]]> (announced f)) in
    if decide (size (announced f) = 1%nat) then rescheduleFetch f else f.

Definition onDone (f : fetcher) (h : hash) : fetcher := forgetBlock (forgetHash f h) h.

Definition onInject (f : fetcher) (op : blockOrHeaderInject) : go fetcher :=
  if light f then Ret f else enqueue f (iorigin op) None (iblock op).

Definition onRequeue (f : fetcher) (op : blockOrHeaderInject) : go fetcher :=
  enqueue f (iorigin op) (iheader op) (iblock op).

(** ** The fetch timer *)

(** [rand.Intn(len(l))] as an index, whatever number was drawn. *)
Definition choose (l : list blockAnnounce) (draw : nat) : go blockAnnounce :=
  match l !! (draw mod length l)%nat with Some a => Ret a | None => Panic end.

Definition addRequest (m : gmap string (list hash)) (p : string) (h : hash) : gmap string (list hash) :=
  <[p := default [] (m !! p) ++ [h]]> m.

(** One announced hash; [draw h] is the number drawn for it. *)
Definition fetchHash (v : view) (now : Z) (draw : hash -> nat) (st : fetcher * gmap string (list hash)) (h : hash)
    : go (fetcher * gmap string (list hash)) :=
  let '(f, request) := st in
  match announced f !! h with
  | None => Ret st
  | Some l =>
      match l with
      | [] => Panic
      | first :: _ =>
          if 0 <? now - time first then
            let! a := choose l (draw h) in
            let f := forgetHash f h in
            let missing := if light f then bool_decide (getHeader v h = None) else bool_decide (getBlock v h = None) in
            if missing then
              Ret (setStages f (<[h := a]> (fetching f)) (fetched f) (completing f), addRequest request (origin a) h)
            else Ret (f, request)
          else Ret st
      end
  end.

Definition sendRequests (mk : string -> list hash -> effect) (request : gmap string (list hash)) : list effect :=
  (fun p => mk p (default [] (request !! p))) <$> peerOrder (dom request).

Definition onFetchTimer (f : fetcher) (v : view) (now : Z) (draw : hash -> nat) : go (fetcher * list effect) :=
  let f := setTimers f false (completeArmed f) in
  let! (f, request) := go_foldl (fetchHash v now draw) (f, ∅) (hashOrder (dom (announced f))) in
  Ret (rescheduleFetch f, sendRequests RequestHeaders request).

(** ** The completion timer *)

Definition completeHash (v : view) (draw : hash -> nat) (st : fetcher * gmap string (list hash)) (h : hash)
    : go (fetcher * gmap string (list hash)) :=
  let '(f, request) := st in
  match fetched f !! h with
  | None => Ret st
  | Some l =>
      let! a := choose l (draw h) in
      let f := forgetHash f h in
      if decide (getBlock v h = None) then
        Ret (setStages f (fetching f) (fetched f) (<[h := a]> (completing f)), addRequest request (origin a) h)
      else Ret (f, request)
  end.

Definition onCompleteTimer (f : fetcher) (v : view) (draw : hash -> nat) : go (fetcher * list effect) :=
  let f := setTimers f (fetchArmed f) false in
  let! (f, request) := go_foldl (completeHash v draw) (f, ∅) (hashOrder (dom (fetched f))) in
  Ret (rescheduleComplete f, sendRequests RequestBodies request).

(** ** Headers *)

(** The lists that the header filter fills. *)
Record sorted := mkSorted {
  unknown : list Header;
  incomplete : list blockAnnounce;
  complete : list Block;
  lightHeaders : list blockAnnounce;
  drops : list effect
}.

Definition withHeader (a : blockAnnounce) (h : Header) (t : Z) : blockAnnounce :=
  mkAnnounce (ahash a) (number a) (Some h) t (origin a).

Definition NewBlockWithHeader (h : Header) : Block := mkBlock h [] [].

Definition emptyBody (h : Header) : bool := (TxHash h =? EmptyRootHash) && (UncleHash h =? EmptyUncleHash).

(** A header of the batch. Only [fetching] holds the announcement when it is written. *)
Definition filterHeader (v : view) (peer : string) (t : Z) (st : fetcher * sorted) (hd : Header) : fetcher * sorted :=
  let '(f, s) := st in
  let h := headerHash hd in
  let other := (f, mkSorted (unknown s ++ [hd]) (incomplete s) (complete s) (lightHeaders s) (drops s)) in
  match fetching f !! h, fetched f !! h, completing f !! h, queued f !! h with
  | Some a, None, None, None =>
      if negb (String.eqb (origin a) peer) then other
      else if negb (u64 (Number hd) =? number a) then
        (forgetHash f h,
         mkSorted (unknown s) (incomplete s) (complete s) (lightHeaders s) (drops s ++ [DropPeer (origin a)]))
      else if light f then
        (forgetHash f h,
         match getHeader v h with
         | None => mkSorted (unknown s) (incomplete s) (complete s) (lightHeaders s ++ [withHeader a hd (time a)]) (drops s)
         | Some _ => s
         end)
      else
        match getBlock v h with
        | Some _ => (forgetHash f h, s)
        | None =>
            let a := withHeader a hd t in
            let f := setStages f (<[h := a]> (fetching f)) (fetched f) (completing f) in
            if emptyBody hd then
              (setStages f (fetching f) (fetched f) (<[h := a]> (completing f)),
               mkSorted (unknown s) (incomplete s) (complete s ++ [NewBlockWithHeader hd]) (lightHeaders s) (drops s))
            else (f, mkSorted (unknown s) (incomplete s ++ [a]) (complete s) (lightHeaders s) (drops s))
        end
  | _, _, _, _ => other
  end.

(** An announcement whose header has arrived, put on for completion. *)
Definition awaitBody (f : fetcher) (a : blockAnnounce) : go fetcher :=
  match aheader a with
  | None => Panic
  | Some hd =>
      let h := headerHash hd in
      if decide (is_Some (completing f !! h)) then Ret f
      else
        let f := setStages f (fetching f) (<[h := default [] (fetched f !! h) ++ [a]]> (fetched f)) (completing f) in
        Ret (if decide (size (fetched f) = 1%nat) then rescheduleComplete f else f)
  end.

Definition enqueueCompleted (f : fetcher) (b : Block) : go fetcher :=
  match completing f !! blockHash b with
  | Some a => enqueue f (origin a) None (Some b)
  | None => Ret f
  end.

Definition onHeaderFilter (f : fetcher) (v : view) (peer : string) (hs : list Header) (t : Z) : go (fetcher * list effect) :=
  let '(f, s) := foldl (filterHeader v peer t) (f, mkSorted [] [] [] [] []) hs in
  let! f := go_foldl awaitBody f (incomplete s) in
  let! f := go_foldl (fun f a => enqueue f (origin a) (aheader a) None) f (lightHeaders s) in
  let! f := go_foldl enqueueCompleted f (complete s) in
  Ret (f, drops s ++ [ReturnHeaders (unknown s)]).

(** ** Bodies *)

(** A body against one completing hash: matched, and the blocks put together so far. *)
Definition matchBody (v : view) (peer : string) (txs : list Transaction) (us : list Header)
    (st : fetcher * bool * list Block) (h : hash) : go (fetcher * bool * list Block) :=
  let '(f, matched, blocks) := st in
  match completing f !! h with
  | None => Ret st
  | Some a =>
      if bool_decide (is_Some (queued f !! h)) || negb (String.eqb (origin a) peer) then Ret st
      else
        match aheader a with
        | None => Panic
        | Some hd =>
            if negb (CalcUncleHash us =? UncleHash hd) then Ret st
            else if negb (DeriveSha txs =? TxHash hd) then Ret st
            else if decide (getBlock v h = None) then Ret (f, true, blocks ++ [mkBlock hd txs us])
            else Ret (forgetHash f h, true, blocks)
        end
  end.

(** The bodies of a packet, in order; matched ones are taken out of the lists. *)
Fixpoint matchBodies (v : view) (peer : string) (f : fetcher) (blocks : list Block)
    (txs : list (list Transaction)) (us : list (list Header))
    : go (fetcher * list Block * list (list Transaction) * list (list Header)) :=
  match txs, us with
  | t :: txs', u :: us' =>
      let! (f, matched, blocks) :=
        go_foldl (matchBody v peer t u) (f, false, blocks) (hashOrder (dom (completing f))) in
      let! (f, blocks, txs', us') := matchBodies v peer f blocks txs' us' in
      Ret (if matched : bool then (f, blocks, txs', us') else (f, blocks, t :: txs', u :: us'))
  | _, _ => Ret (f, blocks, txs, us)
  end.

Definition onBodyFilter (f : fetcher) (v : view) (peer : string) (txs : list (list Transaction)) (us : list (list Header))
    : go (fetcher * list effect) :=
  let! (f, blocks, txs, us) :=
    if decide (completing f = ∅) then Ret (f, [], txs, us) else matchBodies v peer f [] txs us in
  let! f := go_foldl enqueueCompleted f blocks in
  Ret (f, [ReturnBodies txs us]).

(** ** The loop *)

Inductive event :=
| Notify (a : blockAnnounce)
| Requeue (op : blockOrHeaderInject)
| Inject (op : blockOrHeaderInject)
| Done (h : hash)
| FetchTimer (draw : hash -> nat)
| CompleteTimer (draw : hash -> nat)
| HeaderFilter (peer : string) (hs : list Header) (t : Z)
| BodyFilter (peer : string) (txs : list (list Transaction)) (us : list (list Header)).

Definition handle (f : fetcher) (v : view) (now : Z) (e : event) : go (fetcher * list effect) :=
  match e with
  | Notify a => Ret (onNotify f a, [])
  | Requeue op => let! f := onRequeue f op in Ret (f, [])
  | Inject op => let! f := onInject f op in Ret (f, [])
  | Done h => Ret (onDone f h, [])
  | FetchTimer draw => onFetchTimer f v now draw
  | CompleteTimer draw => onCompleteTimer f v draw
  | HeaderFilter peer hs t => onHeaderFilter f v peer hs t
  | BodyFilter peer txs us => onBodyFilter f v peer txs us
  end.

(** One round: clean up and imports at [now], then the event the loop waited for, at [later]. *)
Definition round (f : fetcher) (v : view) (now later : Z) (e : event) : go (fetcher * list effect) :=
  let! (f, es) := importQueued (expireFetches f now) in
  let! (f, es') := handle f v later e in
  Ret (f, es ++ es').

End Loop.

(** Rounds of the loop, each with the order in which maps are ranged over, the view of the chain and the two moments it sees. *)
Record input := mkInput { iorder : RangeOrder; iview : view; inow : Z; ilater : Z; ievent : event }.

Fixpoint loop `{BodyHashes} (f : fetcher) (ins : list input) : go (fetcher * list effect) :=
  match ins with
  | [] => Ret (f, [])
  | i :: ins =>
      let! (f, es) := round (H := iorder i) f (iview i) (inow i) (ilater i) (ievent i) in
      let! (f, es') := loop f ins in
      Ret (f, es ++ es')
  end.

End BlockFetcher.
