(* ===== verification/BlockFetcherProps.v ===== *)
(** * Properties of the block fetcher (BlockFetcher.v) *)

From stdpp Require Import base tactics list gmap fin_maps strings sorting.
From Stdlib Require Import ZArith Lia.
From S2P Require Import Prelude Types GoHeap Prque TxFetcherEntry BlockFetcher.

Open Scope Z_scope.
Open Scope go_scope.

Import FetcherEntry PrqueLemmas BlockFetcher.

Module BlockFetcherLemmas.

(** ** Invariants *)

Definition hasHeader (h : hash) (a : blockAnnounce) : Prop :=
  exists hd, aheader a = Some hd /\ headerHash hd = h.

(** An announced hash is not being fetched or completed, one whose header has arrived is not being completed. *)
Record stagesOk (f : fetcher) : Prop := {
  announced_ok h l : announced f !! h = Some l ->
    l <> [] /\ fetching f !! h = None /\ completing f !! h = None;
  fetched_ok h l : fetched f !! h = Some l ->
    l <> [] /\ Forall (hasHeader h) l /\ completing f !! h = None;
  completing_ok h a : completing f !! h = Some a -> hasHeader h a
}.

Definition countsOk (f : fetcher) : Prop := forall p, 0 <= default 0 (announces f !! p) <= hashLimit.

Definition timersOk (f : fetcher) : Prop :=
  (announced f <> ∅ -> fetchArmed f = true) /\ (fetched f <> ∅ -> completeArmed f = true).

(** An operation on a block, under its hash. *)
Definition isBlock (h : hash) (op : blockOrHeaderInject) : Prop :=
  iheader op = None /\ exists b, iblock op = Some b /\ blockHash b = h.

Definition opHash (op : blockOrHeaderInject) : hash := match iblock op with Some b => blockHash b | None => 0 end.

(** The negated number, as [enqueue] computes it. *)
Definition opPriority (op : blockOrHeaderInject) : Z :=
  match iblock op with Some b => i64 (- i64 (NumberU64 b)) | None => 0 end.

Definition from (p : string) (x : hash * blockOrHeaderInject) : Prop := iorigin x.2 = p.
#[local] Instance from_dec p x : Decision (from p x).
Proof. unfold from. apply _. Defined.

(** The blocks that a peer has in the queue or under import. *)
Definition pendingOf (f : fetcher) (p : string) : Z := Z.of_nat (size (filter (from p) (queued f))).

Record importsOk (f : fetcher) : Prop := {
  queued_ok h op : queued f !! h = Some op -> isBlock h op;
  queue_ok : exists l, queueOf (queue f) l /\ NoDup (opHash ∘ Prque.value <$> l) /\
    Forall (fun x => queued f !! opHash (Prque.value x) = Some (Prque.value x)) l /\
    Forall (fun x => Prque.priority x = opPriority (Prque.value x)) l;
  queues_ok p : default 0 (queues f !! p) = pendingOf f p /\ pendingOf f p <= blockLimit
}.

Record wf (f : fetcher) : Prop := {
  wf_light : light f = false;
  wf_stages : stagesOk f;
  wf_counts : countsOk f;
  wf_timers : timersOk f;
  wf_imports : importsOk f
}.

(** ** Forgetting *)

Lemma decrement_lookup m p q :
  0 <= default 0 (m !! p) ->
  default 0 (decrement m p !! q) = if decide (q = p) then Z.max 0 (default 0 (m !! p) - 1) else default 0 (m !! q).
Proof.
  intros Hm. unfold decrement. destruct (Z.leb_spec (default 0 (m !! p) - 1) 0); case_decide; subst;
    rewrite ?lookup_delete_eq, ?lookup_insert_eq, ?lookup_delete_ne, ?lookup_insert_ne by done; cbn; lia.
Qed.

Definition below (m m' : gmap string Z) : Prop := forall p, 0 <= default 0 (m' !! p) <= default 0 (m !! p).
Definition nonneg (m : gmap string Z) : Prop := forall p, 0 <= default 0 (m !! p).

Lemma decrement_below m p : nonneg m -> below m (decrement m p).
Proof. intros Hm q. rewrite decrement_lookup by apply Hm. pose proof (Hm p). pose proof (Hm q). case_decide; subst; lia. Qed.

Lemma below_refl m : nonneg m -> below m m.
Proof. intros Hm p. specialize (Hm p). lia. Qed.

Lemma below_trans m m' m'' : below m m' -> below m' m'' -> below m m''.
Proof. intros H1 H2 p. specialize (H1 p). specialize (H2 p). lia. Qed.

Lemma below_nonneg m m' : below m m' -> nonneg m'.
Proof. intros H p. specialize (H p). lia. Qed.

Lemma decrementAll_below m l : nonneg m -> below m (decrementAll m l).
Proof.
  unfold decrementAll. revert m. induction l as [|a l IH]; intros m Hm; [by apply below_refl|]. cbn [foldl].
  eapply below_trans; [by apply (decrement_below m (origin a))|]. apply IH. eapply below_nonneg. by apply decrement_below.
Qed.

Lemma forgetHash_counts f h : nonneg (announces f) -> below (announces f) (announces (forgetHash f h)).
Proof.
  intros Hm. unfold forgetHash. cbn [announces setStages setAnnounced].
  set (m1 := decrementAll (announces f) _). assert (below (announces f) m1) as H1 by by apply decrementAll_below.
  set (m2 := match fetching f !! h with Some a => _ | None => _ end).
  assert (below (announces f) m2) as H2.
  { unfold m2. destruct (fetching f !! h); [|done]. eapply below_trans; [exact H1|]. apply decrement_below. by eapply below_nonneg. }
  set (m3 := decrementAll m2 _).
  assert (below (announces f) m3) as H3 by (eapply below_trans; [exact H2|]; apply decrementAll_below; by eapply below_nonneg).
  destruct (completing f !! h); [|done]. eapply below_trans; [exact H3|]. apply decrement_below. by eapply below_nonneg.
Qed.

Lemma forgetHash_countsOk f h : countsOk f -> countsOk (forgetHash f h).
Proof. intros Hc p. specialize (Hc p) as Hp. pose proof (forgetHash_counts f h (fun q => proj1 (Hc q)) p). lia. Qed.

Lemma forgetHash_stagesOk f h : stagesOk f -> stagesOk (forgetHash f h).
Proof.
  intros [H1 H2 H3]. split; cbn [announced fetching fetched completing forgetHash setStages setAnnounced];
    intros h' x; destruct (decide (h = h')) as [->|]; rewrite ?lookup_delete_eq, ?lookup_delete_ne by done; try done;
    [apply H1|apply H2|apply H3].
Qed.

Lemma forgetHash_timersOk f h : timersOk f -> timersOk (forgetHash f h).
Proof.
  intros [H1 H2]. split; cbn [announced fetched fetchArmed completeArmed forgetHash setStages setAnnounced];
    intros Hne; [apply H1|apply H2]; intros E; rewrite E in Hne; by rewrite delete_empty in Hne.
Qed.

Lemma importsOk_same f f' :
  queue f' = queue f -> queues f' = queues f -> queued f' = queued f -> importsOk f -> importsOk f'.
Proof. intros E1 E2 E3 [H1 H2 H3]. split; unfold pendingOf in *; rewrite ?E1, ?E2, ?E3; done. Qed.

Lemma forgetHash_wf f h : wf f -> wf (forgetHash f h).
Proof.
  intros [H1 H2 H3 H4 H5]. split; [done|by apply forgetHash_stagesOk|by apply forgetHash_countsOk|by apply forgetHash_timersOk|].
  by apply (importsOk_same f).
Qed.

(** ** Counting imports *)

Lemma pending_insert (m : gmap hash blockOrHeaderInject) h op p :
  m !! h = None ->
  Z.of_nat (size (filter (from p) (<[h := op]> m))) =
    Z.of_nat (size (filter (from p) m)) + if decide (iorigin op = p) then 1 else 0.
Proof.
  intros Hm. case_decide as Hp.
  - rewrite map_filter_insert_True by done. rewrite map_size_insert_None; [lia|]. apply map_lookup_filter_None. by left.
  - rewrite map_filter_insert_False by done. rewrite delete_id by done. lia.
Qed.

Lemma pending_delete (m : gmap hash blockOrHeaderInject) h op p :
  m !! h = Some op ->
  Z.of_nat (size (filter (from p) (delete h m))) =
    Z.of_nat (size (filter (from p) m)) - if decide (iorigin op = p) then 1 else 0.
Proof.
  intros Hm. pose proof (pending_insert (delete h m) h op p ltac:(apply lookup_delete_eq)) as H.
  rewrite insert_delete_id in H by done. lia.
Qed.

Lemma Forall_lookup_delete (m : gmap hash blockOrHeaderInject) h (l : list (Prque.item blockOrHeaderInject)) :
  Forall (fun x => opHash (Prque.value x) <> h) l ->
  Forall (fun x => m !! opHash (Prque.value x) = Some (Prque.value x)) l ->
  Forall (fun x => delete h m !! opHash (Prque.value x) = Some (Prque.value x)) l.
Proof.
  intros Hn Hl. apply Forall_forall. intros x Hx. rewrite Forall_forall in Hn, Hl. specialize (Hn x Hx).
  rewrite lookup_delete_ne by done. by apply Hl.
Qed.

(** With nothing waiting in the queue a hash can be taken off the imports. *)
Lemma forgetBlock_imports f h : importsOk f -> queueOf (queue f) [] -> importsOk (forgetBlock f h).
Proof.
  intros [H1 H2 H3] Hq. unfold forgetBlock. destruct (queued f !! h) as [op|] eqn:Hop; [|by split]. split.
  - cbn [queued setImports]. intros h' op'. rewrite lookup_delete_Some. intros [_ ?]. by apply H1.
  - exists []. cbn [queue setImports]. split; [done|]. by repeat (split; [constructor|]).
  - intros p. unfold pendingOf in *. cbn [queues queued setImports]. rewrite (pending_delete _ _ _ _ Hop). specialize (H3 p).
    destruct (H3 : _ /\ _) as [E Hle]. split; [|case_decide; lia].
    destruct (decide (iorigin op = p)) as [<-|Hne].
    + rewrite E. destruct (Z.eqb_spec (Z.of_nat (size (filter (from (iorigin op)) (queued f))) - 1) 0) as [E0|];
        [rewrite lookup_delete_eq; cbn; lia|by rewrite lookup_insert_eq].
    + destruct (_ =? 0); rewrite ?lookup_delete_ne, ?lookup_insert_ne by done; lia.
Qed.

Lemma onDone_wf f h : wf f -> queueOf (queue f) [] -> wf (onDone f h).
Proof.
  intros Hwf Hq. pose proof (forgetHash_wf f h Hwf) as [H1 H2 H3 H4 H5]. unfold onDone, forgetBlock in *.
  pose proof (forgetBlock_imports (forgetHash f h) h H5 Hq) as H6. unfold forgetBlock in H6.
  destruct (queued (forgetHash f h) !! h); split; try done.
  - destruct H2 as [A B C]. by split.
Qed.

(** ** Growing *)

Definition b2n (b : bool) : nat := if b then 1 else 0.

Definition isQueued (f : fetcher) (h : hash) : nat := b2n (bool_decide (is_Some (queued f !! h))).

(** The operations on a hash in a list of queued items. *)
Definition waiting (l : list (Prque.item blockOrHeaderInject)) (h : hash) : nat :=
  length (filter (fun x => opHash (Prque.value x) = h) l).

(** Imports of a hash among effects. *)
Definition isImport (h : hash) (e : effect) : bool :=
  match e with ImportBlock _ b => blockHash b =? h | _ => false end.

Definition imports (h : hash) (es : list effect) : nat := length (filter (fun e => isImport h e) es).

Definition noImports (es : list effect) : Prop := forall h, imports h es = 0%nat.

Lemma imports_app h es es' : imports h (es ++ es') = (imports h es + imports h es')%nat.
Proof. unfold imports. by rewrite filter_app, length_app. Qed.

Lemma imports_cons h e es : imports h (e :: es) = (b2n (isImport h e) + imports h es)%nat.
Proof. unfold imports. rewrite filter_cons. destruct (isImport h e); case_decide; done. Qed.

Lemma noImports_app es es' : noImports es -> noImports es' -> noImports (es ++ es').
Proof. intros H1 H2 h. by rewrite imports_app, H1, H2. Qed.

(** Between two states the queue only gets more operations, one for each hash that becomes queued. *)
Definition grows (f f' : fetcher) : Prop :=
  forall l, queueOf (queue f) l -> exists l', queueOf (queue f') l' /\
    forall h, (isQueued f' h + waiting l h = isQueued f h + waiting l' h)%nat.

#[local] Instance grows_preorder : PreOrder grows.
Proof.
  split; [intros f l Hl; by exists l|]. intros f g k Hg Hk l Hl. destruct (Hg l Hl) as (l' & Hl' & E).
  destruct (Hk l' Hl') as (l'' & Hl'' & E'). exists l''. split; [done|]. intros h. specialize (E h). specialize (E' h). lia.
Qed.

Lemma grows_same f f' : queue f' = queue f -> queued f' = queued f -> grows f f'.
Proof. intros E1 E2 l Hl. exists l. unfold isQueued. by rewrite E1, E2. Qed.

Lemma waiting_perm l l' h : l ≡ₚ l' -> waiting l h = waiting l' h.
Proof. intros E. unfold waiting. by rewrite E. Qed.

Lemma waiting_cons x l h : waiting (x :: l) h = (b2n (bool_decide (opHash (Prque.value x) = h)) + waiting l h)%nat.
Proof. unfold waiting. rewrite filter_cons. case_decide; case_bool_decide; done. Qed.

(** ** Queueing *)

Lemma enqueue_grows f l q l' qs b p pr :
  queueOf (queue f) l -> queueOf q l' -> l' ≡ₚ Prque.mkItem (mkInject p None (Some b)) pr :: l -> queued f !! blockHash b = None ->
  grows f (setImports f q qs (<[blockHash b := mkInject p None (Some b)]> (queued f))).
Proof.
  intros Hl Hl' Hp Hq l2 Hl2. exists l'. split; [done|]. intros h. rewrite (waiting_perm _ _ h Hp), waiting_cons.
  assert (waiting l2 h = waiting l h) as -> by (by rewrite (queueOf_unique (queue f) l2 l)).
  unfold isQueued. cbn [queued setImports Prque.value opHash iblock]. destruct (decide (blockHash b = h)) as [<-|].
  - rewrite lookup_insert_eq, Hq. rewrite (bool_decide_eq_true_2 (is_Some (Some _))), (bool_decide_eq_true_2 (_ = _)) by done.
    rewrite bool_decide_eq_false_2 by by intros []. cbn. lia.
  - rewrite lookup_insert_ne by done. rewrite (bool_decide_eq_false_2 (_ = _)) by done. cbn. lia.
Qed.

Lemma enqueue_wf f p b :
  wf f -> exists f', enqueue f p None (Some b) = Ret f' /\ wf f' /\ grows f f' /\
    (f' = forgetHash f (blockHash b) \/
     (announced f' = announced f /\ fetching f' = fetching f /\ fetched f' = fetched f /\ completing f' = completing f)).
Proof.
  intros Hwf. pose proof Hwf as [H1 H2 H3 H4 [Q1 (l & Q2 & Q3 & Q4 & Q6) Q5]]. unfold enqueue.
  destruct (Z.ltb_spec blockLimit (default 0 (queues f !! p) + 1)) as [|Hc].
  { eexists. split; [done|]. split_and!; [by apply forgetHash_wf|by apply grows_same|by left]. }
  destruct (queued f !! blockHash b) as [op|] eqn:Hq; [exists f; split_and!; [done..|by right]|].
  destruct (queuePush_ok (queue f) l (mkInject p None (Some b)) (i64 (- i64 (NumberU64 b))) Q2) as (q & l' & -> & Hq' & Hp).
  eexists. split; [done|]. split_and!; [|by eapply enqueue_grows|by right]. split; [done| |done|done|].
  { destruct H2 as [A B C]. by split. }
  split; cbn [queued queue queues setImports].
  - intros h op. destruct (decide (h = blockHash b)) as [->|]; rewrite ?lookup_insert_eq, ?lookup_insert_ne by done; [|apply Q1].
    intros [= <-]. split; [done|]. by exists b.
  - exists l'. split; [done|]. rewrite Hp. cbn [fmap list_fmap]. split_and!.
    + constructor; [|done]. intros (x & E & Hx)%list_elem_of_fmap. rewrite Forall_forall in Q4. specialize (Q4 x Hx).
      change (blockHash b = opHash (Prque.value x)) in E. rewrite <- E in Q4. congruence.
    + constructor; [apply lookup_insert_eq|]. eapply Forall_impl; [exact Q4|]. intros x Hx. cbn in Hx.
      rewrite lookup_insert_ne; [done|]. intros E. rewrite <- E in Hx. congruence.
    + by constructor.
  - intros p'. unfold pendingOf in *. cbn [queued setImports]. rewrite pending_insert by done. cbn [iorigin].
    specialize (Q5 p') as [E Hle]. case_decide as Hpp; [subst p'; rewrite lookup_insert_eq|rewrite lookup_insert_ne by done]; cbn; lia.
Qed.

(** ** Stages *)

(** The invariant without the timers. *)
Definition core (f : fetcher) : Prop := light f = false /\ stagesOk f /\ countsOk f /\ importsOk f.

Lemma wf_core f : wf f <-> core f /\ timersOk f.
Proof.
  split; [intros [H1 H2 H3 H4 H5]; by split_and!|]. intros [(H1 & H2 & H3 & H5) H4]. by split.
Qed.

Lemma core_forgetHash f h : core f -> core (forgetHash f h).
Proof.
  intros (H1 & H2 & H3 & H4). split_and!; [done|by apply forgetHash_stagesOk|by apply forgetHash_countsOk|].
  by apply (importsOk_same f).
Qed.

Lemma core_setTimers f a b : core f -> core (setTimers f a b).
Proof. intros (H1 & [A B C] & H3 & H4). split_and!; [done|by split|done|]. by apply (importsOk_same f). Qed.

Lemma core_fetching f h a :
  core f -> announced f !! h = None -> core (setStages f (<[h := a]> (fetching f)) (fetched f) (completing f)).
Proof.
  intros (H1 & [A B C] & H3 & H4) Ha. split_and!; [done| |done|by apply (importsOk_same f)]. split; [|done|done].
  cbn [announced fetching completing setStages]. intros h' l Hl. destruct (A h' l Hl) as (? & ? & ?). split_and!; [done| |done].
  destruct (decide (h = h')) as [->|]; [congruence|]. by rewrite lookup_insert_ne.
Qed.

Lemma core_fetched f h l :
  core f -> l <> [] -> Forall (hasHeader h) l -> completing f !! h = None ->
  core (setStages f (fetching f) (<[h := l]> (fetched f)) (completing f)).
Proof.
  intros (H1 & [A B C] & H3 & H4) Hl Hh Hc. split_and!; [done| |done|by apply (importsOk_same f)]. split; [done| |done].
  cbn [fetched completing setStages]. intros h' l'. destruct (decide (h = h')) as [->|].
  - rewrite lookup_insert_eq. intros [= <-]. by split_and!.
  - rewrite lookup_insert_ne by done. apply B.
Qed.

Lemma core_completing f h a :
  core f -> hasHeader h a -> announced f !! h = None -> fetched f !! h = None ->
  core (setStages f (fetching f) (fetched f) (<[h := a]> (completing f))).
Proof.
  intros (H1 & [A B C] & H3 & H4) Hh Ha Hf. split_and!; [done| |done|by apply (importsOk_same f)].
  split; cbn [announced fetched completing fetching setStages]; intros h' x; destruct (decide (h = h')) as [->|];
    rewrite ?lookup_insert_eq, ?lookup_insert_ne by done; try congruence; [apply A|apply B|apply C].
Qed.

(** ** The top of the loop *)

Definition importEffects (x : Prque.item blockOrHeaderInject) : list effect :=
  match iblock (Prque.value x) with
  | Some b => (if containsColon (iorigin (Prque.value x)) then [] else [PioplatBroadcast b]) ++ [ImportBlock (iorigin (Prque.value x)) b]
  | None => []
  end.

(** Lower numbers have higher priorities. *)
Definition notLater (x y : Prque.item blockOrHeaderInject) : Prop := Prque.priority y <= Prque.priority x.

Lemma importLoop_ok fuel q l :
  queueOf q l -> (length l <= fuel)%nat -> Forall (fun x => is_Some (iblock (Prque.value x))) l ->
  exists q' xs, importLoop fuel false q = Ret (q', xs ≫= importEffects) /\ queueOf q' [] /\ xs ≡ₚ l /\ StronglySorted notLater xs.
Proof.
  revert q l. induction fuel as [|fuel IH]; intros q l Hq Hl Hb; cbn [importLoop].
  { assert (l = []) as -> by (apply nil_length_inv; lia). exists q, []. split_and!; [done|done|done|constructor]. }
  unfold Prque.Empty. pose proof Hq as [(Hs & _) _]. rewrite Hs. case_bool_decide as H0.
  { assert (l = []) as -> by (apply nil_length_inv; lia). exists q, []. split_and!; [done|done|done|constructor]. }
  destruct (queuePop_ok q l Hq) as (x & q1 & l1 & -> & Hq1 & Hp & Hmax); [by destruct l|].
  pose proof Hb as Hb'. rewrite Hp in Hb'. inversion_clear Hb' as [|?? [b Ex] Hb1].
  unfold importBlocks. rewrite Ex. rewrite Hp in Hl. cbn [length] in Hl.
  destruct (IH q1 l1 Hq1 ltac:(lia) Hb1) as (q' & xs & -> & Hq' & Hxs & Hsorted). exists q', (x :: xs). split_and!.
  - cbn [mbind list_bind]. unfold importEffects at 2. by rewrite Ex.
  - done.
  - by rewrite Hp, Hxs.
  - constructor; [done|]. rewrite Hxs. rewrite Hp in Hmax. by inversion_clear Hmax.
Qed.

Lemma importQueued_wf f :
  wf f -> exists q' l xs, importQueued f = Ret (setImports f q' (queues f) (queued f), xs ≫= importEffects) /\
    queueOf (queue f) l /\ queueOf q' [] /\ xs ≡ₚ l /\ StronglySorted notLater xs /\
    NoDup (opHash ∘ Prque.value <$> l) /\ Forall (fun x => Prque.priority x = opPriority (Prque.value x)) l /\
    Forall (fun x => is_Some (iblock (Prque.value x))) l /\ wf (setImports f q' (queues f) (queued f)).
Proof.
  intros [H1 H2 H3 H4 [Q1 (l & Q2 & Q3 & Q4 & Q6) Q5]]. unfold importQueued. rewrite H1.
  assert (Forall (fun x => is_Some (iblock (Prque.value x))) l) as Q7.
  { eapply Forall_impl; [exact Q4|]. intros x Hx. destruct (Q1 _ _ Hx) as (_ & b & -> & _). by eexists. }
  destruct (importLoop_ok (Prque.size (queue f)) (queue f) l Q2) as (q' & xs & -> & Hq' & Hp & Hs).
  { destruct Q2 as [(-> & _) _]. done. }
  { done. }
  exists q', l, xs. split_and!; [done..|]. split; [done|by destruct H2|done|done|].
  split; [done| |done]. exists []. split; [done|]. by repeat (split; [constructor|]).
Qed.

Section Loop.
Context `{RangeOrder}.

Lemma expireFetches_wf f now : wf f -> wf (expireFetches f now).
Proof.
  intros Hwf. unfold expireFetches. apply foldl_inv; [done|]. intros g h _ Hg. destruct (fetching g !! h); [|done].
  destruct (_ <? _); [by apply forgetHash_wf|done].
Qed.

Lemma onNotify_wf f a : wf f -> wf (onNotify f a).
Proof.
  intros Hwf. unfold onNotify. destruct (Z.ltb_spec hashLimit (default 0 (announces f !! origin a) + 1)) as [|Hc]; [done|].
  destruct (number a =? 0); [done|]. case_decide as Hf; [done|]. case_decide as Hco; [done|].
  rewrite <- eq_None_not_Some in Hf, Hco. pose proof Hwf as [H1 [A B C] H3 [T1 T2] H5].
  set (g := setAnnounced f _ _). assert (core g) as Hg.
  { split_and!; [done| | |by apply (importsOk_same f)].
    - split; [|done|done]. cbn [announced fetching completing g setAnnounced]. intros h l.
      destruct (decide (ahash a = h)) as [<-|]; rewrite ?lookup_insert_eq, ?lookup_insert_ne by done; [|apply A].
      intros [= <-]. split_and!; [by intros [_ ?]%app_nil|done|done].
    - intros p. cbn [announces g setAnnounced]. specialize (H3 p) as Hp. specialize (H3 (origin a)) as Ho.
      destruct (decide (origin a = p)) as [<-|]; rewrite ?lookup_insert_eq, ?lookup_insert_ne by done; cbn; lia. }
  assert (announced g <> ∅) as Hne by (cbn [announced g setAnnounced]; apply insert_non_empty).
  case_decide as Hsz; apply wf_core.
  - unfold rescheduleFetch. rewrite decide_False by done. split; [by apply core_setTimers|]. by split.
  - split; [done|]. split; [|done]. intros _. cbn [fetchArmed g setAnnounced]. apply T1. intros E. destruct Hsz.
    cbn [announced g setAnnounced]. rewrite E. rewrite lookup_empty. cbn. rewrite map_size_insert_None by apply lookup_empty. by rewrite map_size_empty.
Qed.

Lemma choose_ok l draw : l <> [] -> exists a, choose l draw = Ret a /\ a ∈ l.
Proof.
  intros Hl. unfold choose. assert (draw mod length l < length l)%nat as Hlt by (apply Nat.mod_upper_bound; by destruct l).
  destruct (lookup_lt_is_Some_2 l _ Hlt) as [a E]. rewrite E. exists a. split; [done|]. by eapply list_elem_of_lookup_2.
Qed.

Lemma sendRequests_noImports mk request : (forall p hs, noImports [mk p hs]) -> noImports (sendRequests mk request).
Proof.
  intros Hmk. unfold sendRequests. induction (peerOrder _) as [|p ps IH]; [done|]. by apply (noImports_app [_]).
Qed.

(** A step of the fetch timer leaves the state, or forgets an announced hash and may put it on fetching. *)
Lemma fetchHash_ok v now draw g req h :
  core g -> exists g' req', fetchHash v now draw (g, req) h = Ret (g', req') /\ core g' /\
    (g' = g \/ (is_Some (announced g !! h) /\ (g' = forgetHash g h \/
      exists a, g' = setStages (forgetHash g h) (<[h := a]> (fetching (forgetHash g h))) (fetched (forgetHash g h)) (completing (forgetHash g h))))).
Proof.
  intros Hg. unfold fetchHash. destruct (announced g !! h) as [l|] eqn:Hl; [|by eexists _, _; split_and!; [..|left]].
  pose proof Hg as (_ & [A _ _] & _). destruct (A h l Hl) as (Hne & _ & _). destruct l as [|a0 l0]; [done|].
  destruct (0 <? now - time a0); [|by eexists _, _; split_and!; [..|left]].
  destruct (choose_ok (a0 :: l0) (draw h) ltac:(done)) as (a & -> & _).
  destruct (if light _ then _ else _); eexists _, _; (split; [done|]); split.
  - apply core_fetching; [by apply core_forgetHash|]. cbn [announced forgetHash setStages setAnnounced]. apply lookup_delete_eq.
  - right. split; [done|]. right. by exists a.
  - by apply core_forgetHash.
  - right. split; [done|]. by left.
Qed.

Lemma onFetchTimer_wf f v now draw : wf f -> exists f' es, onFetchTimer f v now draw = Ret (f', es) /\ wf f' /\ grows f f' /\ noImports es.
Proof.
  intros [Hcore [T1 T2]]%wf_core. unfold onFetchTimer. set (f0 := setTimers f false (completeArmed f)).
  destruct (go_foldl_inv (fun st : fetcher * gmap string (list hash) =>
      core st.1 /\ (fetched st.1 <> ∅ -> completeArmed st.1 = true) /\ grows f st.1)
    (fetchHash v now draw) (hashOrder (dom (announced f0))) (f0, ∅)) as ([f1 req] & -> & Hc1 & Ht1 & Hq1).
  - split_and!; [by apply core_setTimers|done|by apply grows_same].
  - intros [g req] h _ (Hg & Ht & Hq). cbn [fst] in *.
    destruct (fetchHash_ok v now draw g req h Hg) as (g' & req' & -> & Hg' & Hcase). eexists. split; [done|]. cbn [fst]. split; [done|].
    destruct Hcase as [->|(_ & [->|[a ->]])]; [done|..]; (split; [|exact Hq]); cbn [fetched completeArmed forgetHash setStages setAnnounced];
      intros Hne; apply Ht; intros E; rewrite E in Hne; by rewrite delete_empty in Hne.
  - eexists _, _. split; [done|]. cbn [fst] in *.
    unfold rescheduleFetch; case_decide as He; (split; [|split; [exact Hq1|by apply sendRequests_noImports]]); apply wf_core.
    + split; [done|]. by split.
    + split; [by apply core_setTimers|]. by split.
Qed.

Lemma completeHash_ok v draw g req h :
  core g -> exists g' req', completeHash v draw (g, req) h = Ret (g', req') /\ core g' /\
    (g' = g \/ (is_Some (fetched g !! h) /\ (g' = forgetHash g h \/
      exists a, g' = setStages (forgetHash g h) (fetching (forgetHash g h)) (fetched (forgetHash g h)) (<[h := a]> (completing (forgetHash g h)))))).
Proof.
  intros Hg. unfold completeHash. destruct (fetched g !! h) as [l|] eqn:Hl; [|by eexists _, _; split_and!; [..|left]].
  pose proof Hg as (_ & [_ B _] & _). destruct (B h l Hl) as (Hne & Hh & _).
  destruct (choose_ok l (draw h) Hne) as (a & -> & Ha). case_decide; eexists _, _; (split; [done|]); split.
  - apply core_completing; [by apply core_forgetHash|by eapply Forall_forall in Hh|apply lookup_delete_eq..].
  - right. split; [done|]. right. by exists a.
  - by apply core_forgetHash.
  - right. split; [done|]. by left.
Qed.

Lemma onCompleteTimer_wf f v draw : wf f -> exists f' es, onCompleteTimer f v draw = Ret (f', es) /\ wf f' /\ grows f f' /\ noImports es.
Proof.
  intros [Hcore [T1 T2]]%wf_core. unfold onCompleteTimer. set (f0 := setTimers f (fetchArmed f) false).
  destruct (go_foldl_inv (fun st : fetcher * gmap string (list hash) =>
      core st.1 /\ (announced st.1 <> ∅ -> fetchArmed st.1 = true) /\ grows f st.1)
    (completeHash v draw) (hashOrder (dom (fetched f0))) (f0, ∅)) as ([f1 req] & -> & Hc1 & Ht1 & Hq1).
  - split_and!; [by apply core_setTimers|done|by apply grows_same].
  - intros [g req] h _ (Hg & Ht & Hq). cbn [fst] in *.
    destruct (completeHash_ok v draw g req h Hg) as (g' & req' & -> & Hg' & Hcase). eexists. split; [done|]. cbn [fst]. split; [done|].
    destruct Hcase as [->|(_ & [->|[a ->]])]; [done|..]; (split; [|exact Hq]); cbn [announced fetchArmed forgetHash setStages setAnnounced];
      intros Hne; apply Ht; intros E; rewrite E in Hne; by rewrite delete_empty in Hne.
  - eexists _, _. split; [done|]. cbn [fst] in *.
    unfold rescheduleComplete; case_decide as He; (split; [|split; [exact Hq1|by apply sendRequests_noImports]]); apply wf_core.
    + split; [done|]. by split.
    + split; [by apply core_setTimers|]. by split.
Qed.

End Loop.

(** ** The filters *)

Section Filters.
Context `{RangeOrder} `{BodyHashes}.

Lemma fetching_not_announced f h a : wf f -> fetching f !! h = Some a -> announced f !! h = None.
Proof.
  intros [_ [A _ _] _ _ _] Hf. destruct (announced f !! h) as [l|] eqn:E; [|done]. destruct (A h l E) as (_ & ? & _). congruence.
Qed.

Definition sortedOk (s : sorted) : Prop := Forall (fun a => exists h, hasHeader h a) (incomplete s) /\ lightHeaders s = [] /\ noImports (drops s).

Lemma filterHeader_wf v peer t f s hd :
  wf f -> sortedOk s ->
  let st := filterHeader v peer t (f, s) hd in wf st.1 /\ sortedOk st.2 /\ queue st.1 = queue f /\ queued st.1 = queued f.
Proof.
  intros Hwf (Hi & Hl & Hd). unfold filterHeader, sortedOk. pose proof Hwf as [Hcore Ht]%wf_core. pose proof Hwf as [H1 _ _ _ _].
  destruct (fetching f !! headerHash hd) as [a|] eqn:Hf; [|by split_and!].
  pose proof (fetching_not_announced f _ a Hwf Hf) as Ha.
  destruct (fetched f !! headerHash hd) eqn:Hfd; [by split_and!|]. destruct (completing f !! headerHash hd) eqn:Hc; [by split_and!|].
  destruct (queued f !! headerHash hd); [by split_and!|]. destruct (negb _); [by split_and!|].
  destruct (negb _); [split_and!; [by apply forgetHash_wf|done|done|by apply noImports_app|done|done]|]. rewrite H1.
  destruct (getBlock v (headerHash hd)); [split_and!; [by apply forgetHash_wf|done..]|].
  pose proof (core_fetching f (headerHash hd) (withHeader a hd t) Hcore Ha) as Hg.
  assert (hasHeader (headerHash hd) (withHeader a hd t)) as Hh by by exists hd.
  destruct (emptyBody hd); split_and!; try done; try (apply wf_core; split; [|by destruct Ht]).
  - exact (core_completing _ (headerHash hd) _ Hg Hh Ha Hfd).
  - done.
  - cbn [snd incomplete]. apply Forall_app. split; [done|]. repeat constructor. by eexists.
Qed.

Lemma awaitBody_wf f a h : wf f -> hasHeader h a -> exists f', awaitBody f a = Ret f' /\ wf f' /\ queue f' = queue f /\ queued f' = queued f.
Proof.
  intros [Hcore [T1 T2]]%wf_core (hd & Ea & Eh). unfold awaitBody. rewrite Ea. case_decide as Hc.
  { exists f. split_and!; [done|by apply wf_core|done|done]. }
  rewrite <- eq_None_not_Some in Hc. set (l := default [] _ ++ _). set (g := setStages f _ _ _).
  assert (core g) as Hg.
  { apply core_fetched; [done|by intros [_ ?]%app_nil| |done]. apply Forall_app. split; [|repeat constructor; by exists hd].
    destruct Hcore as (_ & [_ B _] & _). destruct (fetched f !! headerHash hd) as [l'|] eqn:El; [|constructor]. by destruct (B _ _ El) as (_ & ? & _). }
  assert (fetched g <> ∅) as Hne by (cbn [fetched g setStages]; apply insert_non_empty).
  eexists. split; [done|]. case_decide as Hsz.
  - unfold rescheduleComplete. rewrite decide_False by done. split_and!; [|done|done]. apply wf_core. split; [by apply core_setTimers|].
    by split.
  - split_and!; [|done|done]. apply wf_core. split; [done|]. split; [done|]. intros _. apply T2. intros E. destruct Hsz.
    cbn [fetched g setStages]. rewrite E. rewrite map_size_insert_None by apply lookup_empty. by rewrite map_size_empty.
Qed.

Lemma enqueueCompleted_wf f b : wf f -> exists f', enqueueCompleted f b = Ret f' /\ wf f' /\ grows f f'.
Proof.
  intros Hwf. unfold enqueueCompleted. destruct (completing f !! blockHash b) as [a|]; [|by exists f; split_and!].
  destruct (enqueue_wf f (origin a) b Hwf) as (f' & -> & ? & ? & _). by exists f'.
Qed.

Lemma enqueueAll_wf f bs : wf f -> exists f', go_foldl enqueueCompleted f bs = Ret f' /\ wf f' /\ grows f f'.
Proof.
  intros Hwf. apply (go_foldl_inv (fun g => wf g /\ grows f g)); [by split|]. intros g b _ [Hg Hgr].
  destruct (enqueueCompleted_wf g b Hg) as (g' & -> & ? & ?). exists g'. split_and!; [done|done|by etrans].
Qed.

Lemma onHeaderFilter_wf f v peer hs t : wf f -> exists f' es, onHeaderFilter f v peer hs t = Ret (f', es) /\ wf f' /\ grows f f' /\ noImports es.
Proof.
  intros Hwf. unfold onHeaderFilter.
  pose proof (foldl_inv (fun st : fetcher * sorted => wf st.1 /\ sortedOk st.2 /\ grows f st.1)
    (filterHeader v peer t) hs (f, mkSorted [] [] [] [] [])) as Hfold.
  destruct (foldl _ _ hs) as [f1 s]. destruct Hfold as (Hwf1 & (Hi & Hl & Hd) & Hg1); [split_and!; [done|split; [apply Forall_nil_2|done]|done]| |].
  { intros [g s'] hd _ (Hg & Hs & Hgr). destruct (filterHeader_wf v peer t g s' hd Hg Hs) as (? & ? & ? & ?).
    split_and!; [done|done|]. etrans; [exact Hgr|by apply grows_same]. }
  destruct (go_foldl_inv (fun g => wf g /\ grows f g) awaitBody (incomplete s) f1) as (f2 & -> & Hwf2 & Hg2); [done| |].
  { intros g a Hin [Hg Hgr]. rewrite Forall_forall in Hi. destruct (Hi a Hin) as [h Hh].
    destruct (awaitBody_wf g a h Hg Hh) as (g' & -> & ? & ? & ?). exists g'. split_and!; [done|done|]. etrans; [exact Hgr|by apply grows_same]. }
  cbn [snd] in Hl. rewrite Hl. cbn [go_foldl]. destruct (enqueueAll_wf f2 (complete s) Hwf2) as (f3 & -> & Hwf3 & Hg3).
  eexists _, _. split_and!; [done|done|by etrans|by apply noImports_app].
Qed.

Lemma matchBody_wf v peer txs us f m bs h :
  wf f -> exists f' m' bs', matchBody v peer txs us (f, m, bs) h = Ret (f', m', bs') /\ wf f' /\ queue f' = queue f /\ queued f' = queued f.
Proof.
  intros Hwf. unfold matchBody. destruct (completing f !! h) as [a|] eqn:Hc; [|by eexists _, _, _; split_and!].
  destruct (_ || _); [by eexists _, _, _; split_and!|]. pose proof Hwf as [_ [_ _ C] _ _ _]. destruct (C h a Hc) as (hd & -> & _).
  destruct (negb _); [by eexists _, _, _; split_and!|]. destruct (negb _); [by eexists _, _, _; split_and!|]. case_decide; [by eexists _, _, _; split_and!|].
  eexists _, _, _. split_and!; [done|by apply forgetHash_wf|done|done].
Qed.

Lemma matchBodies_wf v peer f bs txs us :
  wf f -> exists f' bs' txs' us', matchBodies v peer f bs txs us = Ret (f', bs', txs', us') /\ wf f' /\ grows f f'.
Proof.
  revert f bs us. induction txs as [|t txs IH]; intros f bs us Hwf; [by eexists _, _, _, _; split_and!|]. destruct us as [|u us]; [by eexists _, _, _, _; split_and!|].
  cbn [matchBodies]. destruct (go_foldl_inv (fun st : fetcher * bool * list Block => wf st.1.1 /\ grows f st.1.1)
    (matchBody v peer t u) (hashOrder (dom (completing f))) (f, false, bs)) as ([[f1 m] bs1] & -> & Hwf1 & Hg1); [done| |].
  { intros [[g m] bs'] h _ [Hg Hgr]. destruct (matchBody_wf v peer t u g m bs' h Hg) as (g' & m' & bs'' & -> & ? & ? & ?).
    eexists. split_and!; [done|done|]. cbn [fst] in *. etrans; [exact Hgr|by apply grows_same]. }
  destruct (IH f1 bs1 us Hwf1) as (f2 & bs2 & txs2 & us2 & -> & Hwf2 & Hg2). cbn [fst] in *.
  destruct m; (eexists _, _, _, _; split_and!; [done|done|by etrans]).
Qed.

Lemma onBodyFilter_wf f v peer txs us : wf f -> exists f' es, onBodyFilter f v peer txs us = Ret (f', es) /\ wf f' /\ grows f f' /\ noImports es.
Proof.
  intros Hwf. unfold onBodyFilter.
  assert (exists f1 bs txs' us', (if decide (completing f = ∅) then Ret (f, [], txs, us) else matchBodies v peer f [] txs us)
    = Ret (f1, bs, txs', us') /\ wf f1 /\ grows f f1) as (f1 & bs & txs' & us' & -> & Hwf1 & Hg1).
  { case_decide; [by eexists _, _, _, _; split_and!|by apply matchBodies_wf]. }
  destruct (enqueueAll_wf f1 bs Hwf1) as (f2 & -> & Hwf2 & Hg2). eexists _, _. split_and!; [done|done|by etrans|done].
Qed.

End Filters.

(** ** Rounds *)

Section Rounds.
Context `{RangeOrder} `{BodyHashes}.

(** What the channels carry: [Enqueue] sends blocks, a requeued operation is one of the queue. *)
Definition proper (e : event) : Prop :=
  match e with
  | Inject op => is_Some (iblock op)
  | Requeue op => iheader op = None /\ is_Some (iblock op)
  | _ => True
  end.

Definition doneOf (h : hash) (e : event) : nat := match e with Done h' => b2n (h =? h') | _ => 0 end.

(** Queued and no longer waiting: a hash under import. Only its [Done] ends that. *)
Lemma handle_ok f v now e :
  wf f -> queueOf (queue f) [] -> proper e ->
  exists f' es, handle f v now e = Ret (f', es) /\ wf f' /\ noImports es /\
    exists l', queueOf (queue f') l' /\ forall h, (isQueued f h + waiting l' h <= isQueued f' h + doneOf h e)%nat.
Proof.
  intros Hwf Hq He.
  assert (forall f' es, wf f' /\ grows f f' /\ noImports es -> wf f' /\ noImports es /\
    exists l', queueOf (queue f') l' /\ forall h n, (isQueued f h + waiting l' h <= isQueued f' h + n)%nat) as Hgrow.
  { intros f' es (? & Hg & ?). split_and!; [done|done|]. destruct (Hg [] Hq) as (l' & ? & E). exists l'. split; [done|].
    intros h n. specialize (E h). cbn in E. lia. }
  assert (forall f' es, handle f v now e = Ret (f', es) -> wf f' /\ grows f f' /\ noImports es ->
    exists f' es, handle f v now e = Ret (f', es) /\ wf f' /\ noImports es /\
      exists l', queueOf (queue f') l' /\ forall h, (isQueued f h + waiting l' h <= isQueued f' h + doneOf h e)%nat) as Hfin.
  { intros f' es E (? & ? & l' & ? & ?)%Hgrow. exists f', es. split_and!; [done..|]. exists l'. by split. }
  destruct e as [a|op|op|h|draw|draw|p hs t|p txs us].
  - eapply Hfin; [done|]. split_and!; [by apply onNotify_wf| |done]. apply grows_same; unfold onNotify;
      repeat first [case_decide|case_match]; try done; unfold rescheduleFetch; case_decide; done.
  - destruct He as [E1 [b E2]]. destruct (enqueue_wf f (iorigin op) b Hwf) as (f' & E & ? & ? & _).
    eapply (Hfin f' []); [|by split_and!]. cbn [handle]. unfold onRequeue. by rewrite E1, E2, E.
  - destruct He as [b E2]. destruct (enqueue_wf f (iorigin op) b Hwf) as (f' & E & ? & ? & _).
    eapply (Hfin f' []); [|by split_and!]. cbn [handle]. unfold onInject. by rewrite (wf_light _ Hwf), E2, E.
  - eexists _, _. split; [done|]. split_and!; [by apply onDone_wf|done|]. exists []. split.
    + unfold onDone, forgetBlock. by case_match.
    + intros h'. change (waiting [] h') with 0%nat. unfold onDone, forgetBlock, isQueued. cbn [doneOf].
      case_match; cbn [queued setImports forgetHash setStages setAnnounced]; [|lia]. destruct (Z.eqb_spec h' h) as [->|].
      * cbn. destruct (bool_decide _), (bool_decide _); cbn; lia.
      * rewrite lookup_delete_ne by done. cbn. lia.
  - destruct (onFetchTimer_wf f v now draw Hwf) as (f' & es & E & ?). by eapply Hfin.
  - destruct (onCompleteTimer_wf f v draw Hwf) as (f' & es & E & ?). by eapply Hfin.
  - destruct (onHeaderFilter_wf f v p hs t Hwf) as (f' & es & E & ?). by eapply Hfin.
  - destruct (onBodyFilter_wf f v p txs us Hwf) as (f' & es & E & ?). by eapply Hfin.
Qed.

Lemma imports_waiting h xs :
  Forall (fun x => is_Some (iblock (Prque.value x))) xs -> imports h (xs ≫= importEffects) = waiting xs h.
Proof.
  induction 1 as [|x xs [b Hb] _ IH]; [done|]. cbn [mbind list_bind]. rewrite imports_app, waiting_cons. f_equal; [|exact IH].
  unfold importEffects, opHash. rewrite Hb, imports_app. destruct (containsColon _); rewrite !imports_cons; cbn [isImport b2n];
    destruct (Z.eqb_spec (blockHash b) h); case_bool_decide; done.
Qed.

Lemma expireFetches_imports f now : queue (expireFetches f now) = queue f /\ queued (expireFetches f now) = queued f.
Proof.
  unfold expireFetches. apply (foldl_inv (fun g => queue g = queue f /\ queued g = queued f)); [done|]. intros g h _ Hg.
  destruct (fetching g !! h); [|done]. by destruct (_ <? _).
Qed.

(** The state and effects of one round. *)
Lemma round_ok f v now later e :
  wf f -> proper e ->
  exists f' l xs es, round f v now later e = Ret (f', (xs ≫= importEffects) ++ es) /\ wf f' /\
    queueOf (queue f) l /\ xs ≡ₚ l /\ StronglySorted notLater xs /\ noImports es /\
    NoDup (opHash ∘ Prque.value <$> l) /\ Forall (fun x => Prque.priority x = opPriority (Prque.value x)) l /\
    exists l', queueOf (queue f') l' /\
      forall h, (isQueued f h + waiting l' h <= isQueued f' h + doneOf h e)%nat /\ imports h (xs ≫= importEffects) = waiting l h.
Proof.
  intros Hwf He. unfold round. pose proof (expireFetches_wf f now Hwf) as Hwf1.
  destruct (expireFetches_imports f now) as [Eq Ed].
  destruct (importQueued_wf _ Hwf1) as (q' & l & xs & -> & Hl & Hq' & Hp & Hs & Hnd & Hpr & Hb & Hwf2). rewrite Eq in Hl.
  destruct (handle_ok _ v later e Hwf2 Hq' He) as (f' & es & -> & Hwf' & Hno & l' & Hl' & Hslack).
  exists f', l, xs, es. split_and!; [done..|]. exists l'. split; [done|]. intros h. split.
  - specialize (Hslack h). unfold isQueued in *. cbn [queued setImports] in Hslack. by rewrite Ed in Hslack.
  - rewrite imports_waiting by by rewrite Hp. by apply waiting_perm.
Qed.

End Rounds.

(** ** The loop *)

Section Loops.
Context `{RangeOrder} `{BodyHashes}.

Definition dones (h : hash) (ins : list input) : nat := sum_list_with (fun i => doneOf h (ievent i)) ins.

Lemma new_wf : wf (NewBlockFetcher false).
Proof.
  split; [done|split; by intros|by intros p; cbn|by split|]. split; [by intros| |].
  - exists []. split; [split; [apply new_holds|by intros i j]|]. by repeat (split; [constructor|]).
  - intros p. unfold pendingOf. cbn [queued NewBlockFetcher]. rewrite map_filter_empty, map_size_empty. done.
Qed.

Lemma loop_ok f l ins :
  wf f -> queueOf (queue f) l -> Forall (fun i => proper (ievent i)) ins ->
  exists f' es l', loop f ins = Ret (f', es) /\ wf f' /\ queueOf (queue f') l' /\
    forall h, (imports h es + isQueued f h + waiting l' h <= isQueued f' h + waiting l h + dones h ins)%nat.
Proof.
  intros Hwf Hl Hins. revert f l Hwf Hl. induction Hins as [|i ins Hi _ IH]; intros f l Hwf Hl; cbn [loop].
  { exists f, [], l. split_and!; [done..|]. intros h. cbn. lia. }
  destruct (round_ok (H := iorder i) f (iview i) (inow i) (ilater i) (ievent i) Hwf Hi)
    as (f1 & l0 & xs & es & -> & Hwf1 & Hl0 & _ & _ & Hno & _ & _ & l1 & Hl1 & Hs).
  rewrite (queueOf_unique _ _ _ Hl Hl0). destruct (IH f1 l1 Hwf1 Hl1) as (f2 & es2 & l2 & -> & Hwf2 & Hl2 & Hs2).
  eexists _, _, l2. split_and!; [done..|]. intros h. specialize (Hs h) as [Hle Him]. specialize (Hs2 h).
  rewrite !imports_app, Him, Hno. unfold dones in *. cbn [sum_list_with]. lia.
Qed.

(** *** A hash whose body does not come *)

Section Stuck.
Variables (h : hash) (a : blockAnnounce).

Definition stuck (f : fetcher) : Prop := completing f !! h = Some a /\ fetching f !! h = None.

(** An event that neither finishes the hash nor carries its block or body. *)
Definition unanswered (e : event) : Prop :=
  match e with
  | Inject op | Requeue op => opHash op <> h
  | Done h' => h' <> h
  | BodyFilter p txs us => p <> origin a \/
      forall t u hd, (t, u) ∈ zip txs us -> aheader a = Some hd -> CalcUncleHash u <> UncleHash hd \/ DeriveSha t <> TxHash hd
  | _ => True
  end.

Lemma stuck_not_announced f : wf f -> stuck f -> announced f !! h = None /\ fetched f !! h = None.
Proof.
  intros [_ [A B _] _ _ _] [Hc _]. split; apply eq_None_not_Some; intros [l Hl];
    [destruct (A h l Hl) as (_ & _ & ?)|destruct (B h l Hl) as (_ & _ & ?)]; congruence.
Qed.

Lemma stuck_forgetHash f h' : h' <> h -> stuck f -> stuck (forgetHash f h').
Proof. intros Hne [H1 H2]. split; cbn [completing fetching forgetHash setStages]; by rewrite lookup_delete_ne. Qed.

Lemma stuck_same f f' : completing f' = completing f -> fetching f' = fetching f -> stuck f -> stuck f'.
Proof. unfold stuck. by intros -> ->. Qed.

Lemma enqueue_stuck f p b :
  wf f -> blockHash b <> h -> stuck f -> exists f', enqueue f p None (Some b) = Ret f' /\ wf f' /\ stuck f'.
Proof.
  intros Hwf Hne Hs. destruct (enqueue_wf f p b Hwf) as (f' & -> & Hwf' & _ & [->|(_ & E1 & _ & E2)]); eexists; split_and!; try done.
  - by apply stuck_forgetHash.
  - by apply (stuck_same f).
Qed.

Lemma enqueueAll_stuck f bs :
  wf f -> Forall (fun b => blockHash b <> h) bs -> stuck f -> exists f', go_foldl enqueueCompleted f bs = Ret f' /\ stuck f'.
Proof.
  intros Hwf Hbs Hs. destruct (go_foldl_inv (fun g => wf g /\ stuck g) enqueueCompleted bs f) as (f' & -> & _ & ?); [done| |by eauto].
  intros g b Hin [Hg Hgs]. rewrite Forall_forall in Hbs. unfold enqueueCompleted.
  destruct (completing g !! blockHash b) as [x|]; [|by exists g]. by apply enqueue_stuck; [|apply Hbs|].
Qed.

Lemma filterHeader_stuck v peer t f s hd :
  stuck f -> Forall (fun b => blockHash b <> h) (complete s) ->
  let st := filterHeader v peer t (f, s) hd in stuck st.1 /\ Forall (fun b => blockHash b <> h) (complete st.2).
Proof.
  intros Hs Hc. unfold filterHeader. destruct (fetching f !! headerHash hd) as [x|] eqn:Hf; [|done].
  assert (headerHash hd <> h) as Hne by (intros E; rewrite E in Hf; destruct Hs; congruence).
  repeat case_match; try done; cbn [fst snd complete]; (split; [try by apply stuck_forgetHash|try done]).
  - destruct Hs. split; cbn [completing fetching setStages]; by rewrite lookup_insert_ne.
  - apply Forall_app. by repeat constructor.
  - destruct Hs. split; cbn [completing fetching setStages]; by rewrite ?lookup_insert_ne.
Qed.

Lemma awaitBody_stuck f x h' :
  wf f -> hasHeader h' x -> stuck f -> exists f', awaitBody f x = Ret f' /\ wf f' /\ stuck f'.
Proof.
  intros Hwf Hh Hs. destruct (awaitBody_wf f x h' Hwf Hh) as (f' & E & Hwf' & _). exists f'. split_and!; [done|done|].
  unfold awaitBody in E. destruct (aheader x); [|done]. case_decide; [by simplify_eq|]. injection E as <-.
  case_decide; [unfold rescheduleComplete; case_decide|]; exact Hs.
Qed.

Lemma onHeaderFilter_stuck f v peer hs t :
  wf f -> stuck f -> exists f' es, onHeaderFilter f v peer hs t = Ret (f', es) /\ stuck f'.
Proof.
  intros Hwf Hs. unfold onHeaderFilter.
  pose proof (foldl_inv (fun st : fetcher * sorted => wf st.1 /\ sortedOk st.2 /\ stuck st.1 /\ Forall (fun b => blockHash b <> h) (complete st.2))
    (filterHeader v peer t) hs (f, mkSorted [] [] [] [] [])) as Hfold.
  destruct (foldl _ _ hs) as [f1 s]. cbn [fst snd] in Hfold. destruct Hfold as (Hwf1 & (Hi & Hl & Hd) & Hs1 & Hc1).
  { split_and!; [done|split; [apply Forall_nil_2|done]|done|apply Forall_nil_2]. }
  { intros [g s'] hd _ (Hg & Hs' & Hgs & Hc). destruct (filterHeader_wf v peer t g s' hd Hg Hs') as (? & ? & _).
    by destruct (filterHeader_stuck v peer t g s' hd Hgs Hc). }
  destruct (go_foldl_inv (fun g => wf g /\ stuck g) awaitBody (incomplete s) f1) as (f2 & -> & Hwf2 & Hs2); [done| |].
  { intros g x Hin [Hg Hgs]. rewrite Forall_forall in Hi. destruct (Hi x Hin) as [h' Hh]. by eapply awaitBody_stuck. }
  rewrite Hl. cbn [go_foldl]. destruct (enqueueAll_stuck f2 (complete s) Hwf2 Hc1 Hs2) as (f3 & -> & Hs3). by eexists _, _.
Qed.

(** A body that does not match the hash leaves it and produces no block of it. *)
Lemma matchBody_stuck v peer txs us f m bs h' :
  wf f -> stuck f -> Forall (fun b => blockHash b <> h) bs ->
  (peer <> origin a \/ forall hd, aheader a = Some hd -> CalcUncleHash us <> UncleHash hd \/ DeriveSha txs <> TxHash hd) ->
  exists f' m' bs', matchBody v peer txs us (f, m, bs) h' = Ret (f', m', bs') /\ wf f' /\ stuck f' /\ Forall (fun b => blockHash b <> h) bs'.
Proof.
  intros Hwf Hs Hbs Hno. unfold matchBody. destruct (completing f !! h') as [x|] eqn:Hc; [|by eexists _, _, _].
  destruct (_ || _) eqn:Hor; [by eexists _, _, _|]. apply orb_false_elim in Hor as [_ Ho%negb_false_iff%String.eqb_eq].
  pose proof Hwf as [_ [_ _ C] _ _ _]. destruct (C h' x Hc) as (hd & Ex & Eh). rewrite Ex.
  destruct (Z.eqb_spec (CalcUncleHash us) (UncleHash hd)) as [E1|]; [|by eexists _, _, _].
  destruct (Z.eqb_spec (DeriveSha txs) (TxHash hd)) as [E2|]; [|by eexists _, _, _]. cbn [negb].
  assert (h' <> h) as Hne.
  { intros ->. destruct Hs as [Hc' _]. simplify_eq. destruct Hno as [|Hno]; [done|]. by destruct (Hno hd Ex). }
  case_decide; eexists _, _, _; (split; [done|]); split_and!; try done.
  - apply Forall_app. split; [done|]. repeat constructor. unfold blockHash. cbn. by rewrite Eh.
  - by apply forgetHash_wf.
  - by apply stuck_forgetHash.
Qed.

Lemma matchBodies_stuck v peer f bs txs us :
  wf f -> stuck f -> Forall (fun b => blockHash b <> h) bs -> unanswered (BodyFilter peer txs us) ->
  exists f' bs' txs' us', matchBodies v peer f bs txs us = Ret (f', bs', txs', us') /\ wf f' /\ stuck f' /\
    Forall (fun b => blockHash b <> h) bs'.
Proof.
  revert f bs us. induction txs as [|t txs IH]; intros f bs us Hwf Hs Hbs Hu; [by eexists _, _, _, _|].
  destruct us as [|u us]; [by eexists _, _, _, _|]. cbn [matchBodies].
  destruct (go_foldl_inv (fun st : fetcher * bool * list Block => wf st.1.1 /\ stuck st.1.1 /\ Forall (fun b => blockHash b <> h) st.2)
    (matchBody v peer t u) (hashOrder (dom (completing f))) (f, false, bs)) as ([[f1 m] bs1] & -> & Hwf1 & Hs1 & Hb1); [done| |].
  { intros [[g m] bs'] h' _ (Hg & Hgs & Hgb).
    destruct (matchBody_stuck v peer t u g m bs' h' Hg Hgs Hgb) as (g' & m' & bs'' & -> & ?); [|by eexists].
    destruct Hu as [?|Hu]; [by left|]. right. intros hd. apply Hu. cbn. left. }
  cbn [fst snd] in *. destruct (IH f1 bs1 us Hwf1 Hs1 Hb1) as (f2 & bs2 & txs2 & us2 & -> & ?).
  { destruct Hu as [?|Hu]; [by left|]. right. intros t' u' hd Hin. apply Hu. cbn. by right. }
  destruct m; by eexists _, _, _, _.
Qed.

Lemma onBodyFilter_stuck f v peer txs us :
  wf f -> stuck f -> unanswered (BodyFilter peer txs us) -> exists f' es, onBodyFilter f v peer txs us = Ret (f', es) /\ stuck f'.
Proof.
  intros Hwf Hs Hu. unfold onBodyFilter. rewrite decide_False by (intros E; destruct Hs as [Hc _]; by rewrite E in Hc).
  destruct (matchBodies_stuck v peer f [] txs us Hwf Hs) as (f1 & bs & txs' & us' & -> & Hwf1 & Hs1 & Hb1); [constructor|done|].
  destruct (enqueueAll_stuck f1 bs Hwf1 Hb1 Hs1) as (f2 & -> & Hs2). by eexists _, _.
Qed.

Lemma timers_stuck f v now draw :
  wf f -> stuck f -> (forall f' es, onFetchTimer f v now draw = Ret (f', es) -> stuck f') /\
    (forall f' es, onCompleteTimer f v draw = Ret (f', es) -> stuck f').
Proof.
  intros [Hcore _]%wf_core Hs.
  assert (forall g h', core g -> stuck g -> is_Some (announced g !! h') \/ is_Some (fetched g !! h') -> h' <> h) as Hne.
  { intros g h' (_ & [A B _] & _) [Hc _] [[l Hl]|[l Hl]] ->; [destruct (A h l Hl) as (_ & _ & ?)|destruct (B h l Hl) as (_ & _ & ?)]; congruence. }
  split; intros f' es.
  - unfold onFetchTimer. edestruct (go_foldl_inv (fun st : fetcher * gmap string (list hash) => core st.1 /\ stuck st.1)
      (fetchHash v now draw)) as ([f1 req] & -> & Hc1 & Hs1); [by split; [apply core_setTimers|]| |].
    + intros [g req] h' _ [Hg Hgs]. cbn [fst] in *. destruct (fetchHash_ok v now draw g req h' Hg) as (g' & req' & -> & Hg' & Hcase).
      eexists. split; [done|]. split; [done|]. destruct Hcase as [->|(Ha & [->|[x ->]])]; [done|apply stuck_forgetHash; eauto|].
      destruct (stuck_forgetHash g h') as [? ?]; [eauto|done|]. split; cbn [fst completing fetching setStages]; [done|].
      rewrite lookup_insert_ne; eauto.
    + intros [= <- _]. unfold rescheduleFetch. by case_decide.
  - unfold onCompleteTimer. edestruct (go_foldl_inv (fun st : fetcher * gmap string (list hash) => core st.1 /\ stuck st.1)
      (completeHash v draw)) as ([f1 req] & -> & Hc1 & Hs1); [by split; [apply core_setTimers|]| |].
    + intros [g req] h' _ [Hg Hgs]. cbn [fst] in *. destruct (completeHash_ok v draw g req h' Hg) as (g' & req' & -> & Hg' & Hcase).
      eexists. split; [done|]. split; [done|]. destruct Hcase as [->|(Ha & [->|[x ->]])]; [done|apply stuck_forgetHash; eauto|].
      destruct (stuck_forgetHash g h') as [? ?]; [eauto|done|]. split; cbn [fst completing fetching setStages]; [|done].
      rewrite lookup_insert_ne; eauto.
    + intros [= <- _]. unfold rescheduleComplete. by case_decide.
Qed.

Lemma handle_stuck f v now e f' es :
  wf f -> stuck f -> proper e -> unanswered e -> handle f v now e = Ret (f', es) -> stuck f'.
Proof.
  intros Hwf Hs He Hu. destruct e as [x|op|op|h'|draw|draw|p hs t|p txs us]; cbn [handle].
  - intros [= <- _]. apply (stuck_same f); [..|done]; unfold onNotify, rescheduleFetch; repeat first [case_decide|case_match]; done.
  - destruct He as [E1 [b E2]]. unfold onRequeue. rewrite E1, E2. cbn [unanswered] in Hu. unfold opHash in Hu. rewrite E2 in Hu.
    destruct (enqueue_stuck f (iorigin op) b Hwf Hu Hs) as (g & -> & _ & Hg). by intros [= <- _].
  - destruct He as [b E2]. unfold onInject. rewrite (wf_light _ Hwf), E2. cbn [unanswered] in Hu. unfold opHash in Hu. rewrite E2 in Hu.
    destruct (enqueue_stuck f (iorigin op) b Hwf Hu Hs) as (g & -> & _ & Hg). by intros [= <- _].
  - intros [= <- _]. unfold onDone, forgetBlock. pose proof (stuck_forgetHash f h' Hu Hs) as Hg. by case_match.
  - by apply (timers_stuck f v now draw Hwf Hs).
  - by apply (timers_stuck f v now draw Hwf Hs).
  - destruct (onHeaderFilter_stuck f v p hs t Hwf Hs) as (g & es' & -> & Hg). by intros [= <- _].
  - destruct (onBodyFilter_stuck f v p txs us Hwf Hs Hu) as (g & es' & -> & Hg). by intros [= <- _].
Qed.

Lemma expireFetches_stuck f now : stuck f -> stuck (expireFetches f now).
Proof.
  intros Hs. unfold expireFetches. apply foldl_inv; [done|]. intros g h' _ Hg. destruct (fetching g !! h') eqn:E; [|done].
  destruct (_ <? _); [|done]. apply stuck_forgetHash; [|done]. intros ->. destruct Hg. congruence.
Qed.

End Stuck.

End Loops.

Lemma loop_stuck `{BodyHashes} h a f ins :
  wf f -> stuck h a f -> Forall (fun i => proper (ievent i) /\ unanswered h a (ievent i)) ins ->
  exists f' es, loop f ins = Ret (f', es) /\ wf f' /\ stuck h a f'.
Proof.
  intros Hwf Hs Hins. revert f Hwf Hs. induction Hins as [|i ins [Hp Hu] _ IH]; intros f Hwf Hs; cbn [loop]; [by eexists _, _|].
  unfold round. pose proof (expireFetches_wf (H := iorder i) f (inow i) Hwf) as Hwf1. pose proof (expireFetches_stuck (H := iorder i) h a f (inow i) Hs) as Hs1.
  destruct (importQueued_wf _ Hwf1) as (q' & l & xs & -> & _ & Hq' & _ & _ & _ & _ & _ & Hwf2).
  destruct (handle_ok (H := iorder i) _ (iview i) (ilater i) (ievent i) Hwf2 Hq' Hp) as (f2 & es & E & Hwf3 & _). rewrite E.
  destruct (IH f2 Hwf3) as (f3 & es' & -> & ?); [|by eexists _, _]. by eapply (handle_stuck (H := iorder i) h a _ _ _ _ _ _ Hwf2).
Qed.

(** ** Main properties *)

Definition opNumber (x : Prque.item blockOrHeaderInject) : Z :=
  match iblock (Prque.value x) with Some b => NumberU64 b | None => 0 end.

Lemma priority_number x y :
  0 <= opNumber x < 2 ^ 63 -> 0 <= opNumber y < 2 ^ 63 ->
  Prque.priority x = opPriority (Prque.value x) -> Prque.priority y = opPriority (Prque.value y) ->
  notLater x y -> opNumber x <= opNumber y.
Proof.
  assert (forall n, 0 <= n < 2 ^ 63 -> i64 (- i64 n) = - n) as Hi by (intros n Hn; rewrite (i64_id n), i64_id by (unfold in_i64; lia); done).
  unfold notLater, opNumber, opPriority. intros Hx Hy -> ->. destruct (iblock (Prque.value x)), (iblock (Prque.value y));
    rewrite ?Hi by done; lia.
Qed.

(** The items, sorted by number when they have numbers that an [int64] holds. *)
Lemma sorted_numbers xs :
  Forall (fun x => Prque.priority x = opPriority (Prque.value x)) xs -> StronglySorted notLater xs ->
  Forall (fun x => opNumber x < 2 ^ 63) xs -> StronglySorted (fun x y => opNumber x <= opNumber y) xs.
Proof.
  assert (forall x, 0 <= opNumber x) as H0 by (intros x; unfold opNumber, NumberU64; case_match; [apply u64_range|lia]).
  intros Hp Hs Hn. induction Hs as [|x xs Hs IH Hx]; [constructor|]. inversion_clear Hp as [|?? Hpx Hp']. inversion_clear Hn as [|?? Hnx Hn'].
  constructor; [by apply IH|]. apply Forall_forall. intros y Hy. rewrite Forall_forall in Hx, Hp', Hn'.
  specialize (Hp' y Hy). specialize (Hn' y Hy). apply priority_number; auto.
Qed.

Section Main.
Context `{RangeOrder} `{BodyHashes}.

(** C8: Whatever reaches the loop of a full block fetcher (announcements, injected and requeued blocks, timers, headers and bodies
    from any peer, finished imports, in any order), no round panics and the state stays well formed: a hash moves through
    announced, fetching, fetched and completing without overlap, the timers are armed while something waits for them, a peer has
    at most 256 announcements counted, and its count of queued blocks is exact and at most 64. A hash is imported at most once
    more than imports of it have finished, so no block is under import twice. *)
Theorem block_fetcher_run ins :
  Forall (fun i => proper (ievent i)) ins ->
  exists f es, loop (NewBlockFetcher false) ins = Ret (f, es) /\ wf f /\ forall h, (imports h es <= dones h ins + 1)%nat.
Proof.
  intros Hins. destruct (loop_ok (NewBlockFetcher false) [] ins new_wf) as (f & es & l & E & Hwf & _ & Hle); [|done|].
  { split; [apply new_holds|by intros i j]. }
  exists f, es. split_and!; [done|done|]. intros h. specialize (Hle h). unfold waiting, isQueued in Hle. cbn in Hle.
  destruct (bool_decide (is_Some (queued f !! h))); cbn in Hle; lia.
Qed.

(** In each round the fetcher starts the import of exactly the blocks that wait in its queue, each hash once, and from the
    lowest block number to the highest; the event of the round itself starts no import. *)
Theorem round_imports_in_order f v now later e :
  wf f -> proper e ->
  exists f' l xs es, round f v now later e = Ret (f', (xs ≫= importEffects) ++ es) /\ queueOf (queue f) l /\ xs ≡ₚ l /\
    noImports es /\ NoDup (opHash ∘ Prque.value <$> xs) /\
    (Forall (fun x => opNumber x < 2 ^ 63) xs -> StronglySorted (fun x y => opNumber x <= opNumber y) xs).
Proof.
  intros Hwf He. destruct (round_ok f v now later e Hwf He) as (f' & l & xs & es & E & _ & Hl & Hp & Hs & Hno & Hnd & Hpr & _).
  exists f', l, xs, es. split_and!; [done..|by rewrite Hp|]. intros Hn. apply sorted_numbers; [by rewrite Hp|done|done].
Qed.

(** A hash that waits for its body ([completing]) and is not being fetched stays there, whatever else reaches the loop, until
    its body or block arrives or an import of it finishes: nothing times it out, and announcements of it by other peers are not
    taken up. *)
Theorem completing_never_expires f h a ins :
  wf f -> completing f !! h = Some a -> fetching f !! h = None ->
  Forall (fun i => proper (ievent i) /\ unanswered h a (ievent i)) ins ->
  exists f' es, loop f ins = Ret (f', es) /\ completing f' !! h = Some a /\ announced f' !! h = None /\ fetching f' !! h = None.
Proof.
  intros Hwf Hc Hf Hins. destruct (loop_stuck h a f ins Hwf) as (f' & es & -> & Hwf' & Hs'); [done|done|].
  exists f', es. destruct (stuck_not_announced h a f' Hwf' Hs') as [? _]. destruct Hs'. by split_and!.
Qed.

(** In light mode the arrival of a header that the fetcher has asked for is a panic: the header is queued without a block, and
    the first thing [enqueue] does is log the number of that block. *)
Theorem light_header_panics f v peer hd t a :
  light f = true -> fetching f !! headerHash hd = Some a -> origin a = peer -> u64 (Number hd) = number a ->
  fetched f !! headerHash hd = None -> completing f !! headerHash hd = None -> queued f !! headerHash hd = None ->
  getHeader v (headerHash hd) = None ->
  handle f v t (HeaderFilter peer [hd] t) = Panic.
Proof.
  intros Hl Hf <- Hn Hfd Hc Hq Hg. cbn [handle]. unfold onHeaderFilter. cbn [foldl filterHeader].
  rewrite Hf, Hfd, Hc, Hq, Hl, Hg, Hn, Z.eqb_refl, String.eqb_refl. done.
Qed.

End Main.

(** ** A run of the fetcher *)

Definition exHashes : BodyHashes :=
  {| EmptyUncleHash := 1; CalcUncleHash := fun us => Z.of_nat (length us); DeriveSha := fun txs => Z.of_nat (length txs) |}.

Definition exHeader : Header := mkHeader 6 9 0 7 1 0 0.
Definition exAnnounce : blockAnnounce := mkAnnounce 7 9 None 0 "A".
Definition exView : view := mkView (fun _ => None) (fun _ => None).
Definition exInput (e : event) : input := mkInput elements_order exView 5 5 e.

(** Peer A announces block 9, serves its header and its body, and the block is imported; B injects it in the meantime. *)
Definition exInputs : list input := exInput <$>
  [Notify exAnnounce; FetchTimer (fun _ => 0%nat); HeaderFilter "A" [exHeader] 6; CompleteTimer (fun _ => 3%nat);
   Notify exAnnounce; BodyFilter "A" [[mkTx 1 0]] [[]]; Inject (mkInject "B" None (Some (mkBlock exHeader [mkTx 1 0] []))); Done 7].

Lemma exInputs_proper n : Forall (fun i => proper (ievent i)) (take n exInputs).
Proof. apply Forall_take. unfold exInputs, exInput. cbn [fmap list_fmap]. repeat constructor; cbn; try done; by eexists. Qed.

(** What a loop ends with. *)
Definition final {A} (r : go (fetcher * list effect)) (g : fetcher -> A) (d : A) : A := match r with Ret (f, _) => g f | Panic => d end.

Lemma block_fetcher_run_witness : exists f es,
  loop (H := exHashes) (NewBlockFetcher false) exInputs = Ret (f, es) /\ imports 7 es = 1%nat /\
  forall h, (imports h es <= dones h exInputs + 1)%nat.
Proof.
  destruct (block_fetcher_run (H0 := exHashes) exInputs (exInputs_proper 8)) as (f & es & E & _ & Hle).
  exists f, es. split_and!; [exact E| |exact Hle].
  assert (match loop (H := exHashes) (NewBlockFetcher false) exInputs with Ret (_, es) => imports 7 es | Panic => 0%nat end = 1%nat)
    as H1 by (vm_compute; reflexivity).
  by rewrite E in H1.
Defined.

Lemma round_imports_in_order_witness : exists f f' xs es,
  (let! f := enqueue (NewBlockFetcher false) "A" None (Some (exBlock 12 3)) in enqueue f "B" None (Some (exBlock 9 4))) = Ret f /\
  round (H := elements_order) (H0 := exHashes) f exView 0 0 (Done 3) = Ret (f', (xs ≫= importEffects) ++ es) /\
  NoDup (opHash ∘ Prque.value <$> xs).
Proof.
  destruct (enqueue_wf (NewBlockFetcher false) "A" (exBlock 12 3) new_wf) as (f1 & E1 & W1 & _). rewrite E1.
  destruct (enqueue_wf f1 "B" (exBlock 9 4) W1) as (f2 & E2 & W2 & _).
  destruct (round_imports_in_order (H := elements_order) (H0 := exHashes) f2 exView 0 0 (Done 3) W2 I) as (f' & l & xs & es & E & _ & _ & _ & Hnd & _).
  exists f2, f', xs, es. split_and!; [exact E2|exact E|exact Hnd].
Defined.

Lemma completing_never_expires_witness : exists f es0 f' es a,
  loop (H := exHashes) (NewBlockFetcher false) (take 4 exInputs) = Ret (f, es0) /\
  loop (H := exHashes) f
    [mkInput elements_order exView 99000000000 0 (Notify (mkAnnounce 7 9 None 0 "B")); mkInput elements_order exView (10 ^ 18) 0 (FetchTimer (fun _ => 0%nat));
     exInput (BodyFilter "A" [[]] [[]])] = Ret (f', es) /\
  completing f' !! 7 = Some a /\ announced f' !! 7 = None.
Proof.
  destruct (loop_ok (H0 := exHashes) (NewBlockFetcher false) [] (take 4 exInputs) new_wf) as (f & es0 & l & E & Hwf & _ & _);
    [split; [apply new_holds|by intros i j]|apply exInputs_proper|].
  pose (r := loop (H := exHashes) (NewBlockFetcher false) (take 4 exInputs)).
  assert (final r (fun f => completing f !! 7) None = Some (mkAnnounce 7 9 (Some exHeader) 6 "A")) as Hc by (vm_compute; reflexivity).
  assert (final r (fun f => fetching f !! 7) (Some exAnnounce) = None) as Hf by (vm_compute; reflexivity).
  unfold r in *. rewrite E in Hc, Hf. cbn [final] in Hc, Hf.
  edestruct (completing_never_expires (H0 := exHashes) f 7 _
    [mkInput elements_order exView 99000000000 0 (Notify (mkAnnounce 7 9 None 0 "B")); mkInput elements_order exView (10 ^ 18) 0 (FetchTimer (fun _ => 0%nat));
     exInput (BodyFilter "A" [[]] [[]])] Hwf Hc Hf) as (f' & es & E' & Hc' & Ha & _).
  { do 2 (apply Forall_cons; split; [exact (conj I I)|]). apply Forall_cons. split; [split; [exact I|]|apply Forall_nil_2]. right. intros t u hd Hin [= <-]. apply list_elem_of_singleton in Hin as [= -> ->]. right. by vm_compute. }
  exists f, es0, f', es. eexists. split_and!; [exact E|exact E'|exact Hc'|exact Ha].
Defined.

Lemma light_header_panics_witness : exists f es,
  loop (H := exHashes) (NewBlockFetcher true) (take 2 exInputs) = Ret (f, es) /\
  handle (H := elements_order) (H0 := exHashes) f exView 6 (HeaderFilter "A" [exHeader] 6) = Panic.
Proof.
  destruct (loop (H := exHashes) (NewBlockFetcher true) (take 2 exInputs)) as [[f es]|] eqn:E; [|by vm_compute in E].
  assert (forall A (g : fetcher -> A) d x, final (loop (H := exHashes) (NewBlockFetcher true) (take 2 exInputs)) g d = x -> g f = x)
    as Hg by (intros A g d x; by rewrite E).
  exists f, es. split; [done|]. apply (light_header_panics (H := elements_order) (H0 := exHashes) f exView "A" exHeader 6 exAnnounce).
  - apply (Hg _ light false). vm_compute. reflexivity.
  - apply (Hg _ (fun f => fetching f !! 7) None). vm_compute. reflexivity.
  - reflexivity.
  - reflexivity.
  - apply (Hg _ (fun f => fetched f !! 7) (Some [])). vm_compute. reflexivity.
  - apply (Hg _ (fun f => completing f !! 7) (Some exAnnounce)). vm_compute. reflexivity.
  - apply (Hg _ (fun f => queued f !! 7) (Some (mkInject "A" None None))). vm_compute. reflexivity.
  - reflexivity.
Defined.

End BlockFetcherLemmas.
