(* ===== verification/RlpRaw.v ===== *)
(** * RLP without a stream (src/rlp/raw.go, iterator.go and the headers of encode.go)

    The canonical encodings of sizes and integers, the functions that split an encoded value
    off a byte slice, and the iterator over an encoded list. Sizes are [uint64]. *)

From stdpp Require Import base tactics list.
From Stdlib Require Import ZArith Lia.
From S2P Require Import Prelude Bytes GoReader.

Open Scope Z_scope.
Open Scope go_scope.

Import GoReader.

Module Rlp.

Inductive rlpError :=
| EOL | ErrExpectedString | ErrExpectedList | ErrCanonInt | ErrCanonSize | ErrElemTooLarge
| ErrValueTooLarge | ErrMoreThanOneValue | errNotInList | errNotAtEOL | errUintOverflow
| ErrUnexpectedEOF | ErrEOF | ErrNegativeBigInt | errTooLong | errTooShort | errTooFew
| errWrongKind | errBadBool | errEmptyTypedTx | ErrTxTypeNotSupported | errEmptyTypedReceipt | errBadStatus | errBothOrigins | errOriginSize.

#[global] Instance rlpError_eq_dec : EqDecision rlpError.
Proof. solve_decision. Defined.

(** A value or an error. *)
Inductive res (A : Type) := Ok (a : A) | Err (e : rlpError).
Arguments Ok {A} a.
Arguments Err {A} e.

Inductive Kind := KByte | KString | KList.

#[global] Instance Kind_eq_dec : EqDecision Kind.
Proof. solve_decision. Defined.

(** ** Integers and headers *)

Definition putint (i : Z) : list Z :=
  if i <? 2 ^ 8 then [u8 i]
  else if i <? 2 ^ 16 then [u8 (Z.shiftr i 8); u8 i]
  else if i <? 2 ^ 24 then [u8 (Z.shiftr i 16); u8 (Z.shiftr i 8); u8 i]
  else if i <? 2 ^ 32 then [u8 (Z.shiftr i 24); u8 (Z.shiftr i 16); u8 (Z.shiftr i 8); u8 i]
  else if i <? 2 ^ 40 then
    [u8 (Z.shiftr i 32); u8 (Z.shiftr i 24); u8 (Z.shiftr i 16); u8 (Z.shiftr i 8); u8 i]
  else if i <? 2 ^ 48 then
    [u8 (Z.shiftr i 40); u8 (Z.shiftr i 32); u8 (Z.shiftr i 24); u8 (Z.shiftr i 16); u8 (Z.shiftr i 8); u8 i]
  else if i <? 2 ^ 56 then
    [u8 (Z.shiftr i 48); u8 (Z.shiftr i 40); u8 (Z.shiftr i 32); u8 (Z.shiftr i 24); u8 (Z.shiftr i 16);
     u8 (Z.shiftr i 8); u8 i]
  else
    [u8 (Z.shiftr i 56); u8 (Z.shiftr i 48); u8 (Z.shiftr i 40); u8 (Z.shiftr i 32); u8 (Z.shiftr i 24);
     u8 (Z.shiftr i 16); u8 (Z.shiftr i 8); u8 i].

(** The loop of [intsize]; a [uint64] is zero after eight shifts. *)
Fixpoint intsizeLoop (fuel : nat) (size i : Z) : Z :=
  let i := Z.shiftr i 8 in
  if i =? 0 then size
  else match fuel with O => size | S fuel => intsizeLoop fuel (size + 1) i end.

Definition intsize (i : Z) : Z := intsizeLoop 8 1 i.

Definition headsize (size : Z) : Z := if size <? 56 then 1 else 1 + intsize size.

(** The bytes that [puthead] writes. *)
Definition puthead (smalltag largetag size : Z) : list Z :=
  if size <? 56 then [u8 (smalltag + u8 size)]
  else
    let s := putint size in
    u8 (largetag + u8 (Z.of_nat (length s))) :: s.

Definition ListSize (contentSize : Z) : Z := u64 (headsize contentSize + contentSize).

Definition IntSize (x : Z) : Z := if x <? 0x80 then 1 else 1 + intsize x.

Definition AppendUint64 (b : list Z) (i : Z) : list Z :=
  if i =? 0 then b ++ [0x80]
  else if i <? 128 then b ++ [u8 i]
  else if i <? 2 ^ 8 then b ++ [0x81; u8 i]
  else if i <? 2 ^ 16 then b ++ [0x82; u8 (Z.shiftr i 8); u8 i]
  else if i <? 2 ^ 24 then b ++ [0x83; u8 (Z.shiftr i 16); u8 (Z.shiftr i 8); u8 i]
  else if i <? 2 ^ 32 then b ++ [0x84; u8 (Z.shiftr i 24); u8 (Z.shiftr i 16); u8 (Z.shiftr i 8); u8 i]
  else if i <? 2 ^ 40 then
    b ++ [0x85; u8 (Z.shiftr i 32); u8 (Z.shiftr i 24); u8 (Z.shiftr i 16); u8 (Z.shiftr i 8); u8 i]
  else if i <? 2 ^ 48 then
    b ++ [0x86; u8 (Z.shiftr i 40); u8 (Z.shiftr i 32); u8 (Z.shiftr i 24); u8 (Z.shiftr i 16);
          u8 (Z.shiftr i 8); u8 i]
  else if i <? 2 ^ 56 then
    b ++ [0x87; u8 (Z.shiftr i 48); u8 (Z.shiftr i 40); u8 (Z.shiftr i 32); u8 (Z.shiftr i 24);
          u8 (Z.shiftr i 16); u8 (Z.shiftr i 8); u8 i]
  else
    b ++ [0x88; u8 (Z.shiftr i 56); u8 (Z.shiftr i 48); u8 (Z.shiftr i 40); u8 (Z.shiftr i 32);
          u8 (Z.shiftr i 24); u8 (Z.shiftr i 16); u8 (Z.shiftr i 8); u8 i].

(** ** Splitting *)

(** The cases of the switch compute the big-endian number of the first [slen] bytes, for
    [slen] from 1 to 8. *)
Definition readSize (b : list Z) (slen : Z) : res Z :=
  if Z.of_nat (length b) <? slen then Err ErrUnexpectedEOF
  else
    let s := be_decode (take (Z.to_nat slen) b) in
    if (s <? 56) || bool_decide (head b = Some 0) then Err ErrCanonSize else Ok s.

(** The kind, the size of the tag and the size of the content. *)
Definition readKind (buf : list Z) : res (Kind * Z * Z) :=
  match buf with
  | [] => Err ErrUnexpectedEOF
  | b :: tail =>
      let check (k : Kind) (tagsize contentsize : Z) :=
        if u64 (Z.of_nat (length buf) - tagsize) <? contentsize then Err ErrValueTooLarge
        else Ok (k, tagsize, contentsize) in
      if b <? 0x80 then check KByte 0 1
      else if b <? 0xB8 then
        if (b - 0x80 =? 1) && match tail with x :: _ => x <? 128 | [] => false end then Err ErrCanonSize
        else check KString 1 (b - 0x80)
      else if b <? 0xC0 then
        match readSize tail (b - 0xB7) with
        | Ok s => check KString (b - 0xB7 + 1) s
        | Err e => Err e
        end
      else if b <? 0xF8 then check KList 1 (b - 0xC0)
      else
        match readSize tail (b - 0xF7) with
        | Ok s => check KList (b - 0xF7 + 1) s
        | Err e => Err e
        end
  end.

(** The kind, the content and the bytes behind the value. *)
Definition Split (b : list Z) : go (res (Kind * list Z * list Z)) :=
  match readKind b with
  | Err e => Ret (Err e)
  | Ok (k, ts, cs) =>
      let! content := sub b ts (u64 (ts + cs)) in
      let! rest := sub b (u64 (ts + cs)) (Z.of_nat (length b)) in
      Ret (Ok (k, content, rest))
  end.

Definition SplitString (b : list Z) : go (res (list Z * list Z)) :=
  let! r := Split b in
  Ret match r with
      | Err e => Err e
      | Ok (k, content, rest) => if decide (k = KList) then Err ErrExpectedString else Ok (content, rest)
      end.

Definition SplitList (b : list Z) : go (res (list Z * list Z)) :=
  let! r := Split b in
  Ret match r with
      | Err e => Err e
      | Ok (k, content, rest) => if decide (k = KList) then Ok (content, rest) else Err ErrExpectedList
      end.

Definition SplitUint64 (b : list Z) : go (res (Z * list Z)) :=
  let! r := SplitString b in
  Ret match r with
      | Err e => Err e
      | Ok ([], rest) => Ok (0, rest)
      | Ok ([x], rest) => if x =? 0 then Err ErrCanonInt else Ok (x, rest)
      | Ok (content, rest) =>
          if decide (8 < length content)%nat then Err errUintOverflow
          else match readSize content (Z.of_nat (length content)) with
               | Ok x => Ok (x, rest)
               | Err _ => Err ErrCanonInt
               end
      end.

(** The loop of [CountValues]; every value takes at least one byte. *)
Fixpoint countLoop (fuel : nat) (b : list Z) (i : Z) : go (res Z) :=
  match b, fuel with
  | [], _ => Ret (Ok i)
  | _, O => Ret (Ok i)
  | _, S fuel =>
      match readKind b with
      | Err e => Ret (Err e)
      | Ok (_, tagsize, size) =>
          let! b := sub b (u64 (tagsize + size)) (Z.of_nat (length b)) in countLoop fuel b (i + 1)
      end
  end.

Definition CountValues (b : list Z) : go (res Z) := countLoop (length b) b 0.

(** ** The list iterator *)

Record listIterator := mkIterator { data : list Z; next : list Z; err : option rlpError }.

Definition NewListIterator (b : list Z) : go (res listIterator) :=
  match readKind b with
  | Err e => Ret (Err e)
  | Ok (k, t, c) =>
      if decide (k = KList) then
        let! d := sub b t (u64 (t + c)) in Ret (Ok (mkIterator d [] None))
      else Ret (Err ErrExpectedList)
  end.

(** [Next]: an error leaves both sizes zero, and the data where it was. *)
Definition Next (it : listIterator) : go (bool * listIterator) :=
  match data it with
  | [] => Ret (false, it)
  | _ =>
      let '(t, c, e) := match readKind (data it) with
                        | Ok (_, t, c) => (t, c, None)
                        | Err e => (0, 0, Some e)
                        end in
      let! n := sub (data it) 0 (u64 (t + c)) in
      let! d := sub (data it) (u64 (t + c)) (Z.of_nat (length (data it))) in
      Ret (true, mkIterator d n e)
  end.

(** ** Canonical encodings

    What the package documentation calls the encoding of a string, a list and an integer. *)

Definition bytelen (i : Z) : nat := if decide (i = 0) then 0%nat else Z.to_nat (Z.log2 i / 8 + 1).

(** The big-endian bytes of a number without leading zeros. *)
Definition minimal (i : Z) : list Z := be_encode (bytelen i) i.

Definition header (smalltag largetag : Z) (n : nat) : list Z :=
  if decide (n < 56)%nat then [smalltag + Z.of_nat n]
  else
    let s := minimal (Z.of_nat n) in
    largetag + Z.of_nat (length s) :: s.

Definition encString (bs : list Z) : list Z :=
  match bs with
  | [b] => if b <? 0x80 then [b] else 0x81 :: [b]
  | _ => header 0x80 0xB7 (length bs) ++ bs
  end.

Definition encList (payload : list Z) : list Z := header 0xC0 0xF7 (length payload) ++ payload.

Definition encUint (i : Z) : list Z := encString (minimal i).

End Rlp.
