(* ===== verification/RlpLemmas.v ===== *)
(** * Lemmas on RLP headers and integers, and the theorems about RlpRaw.v

    The headers and integers that the code writes branch by branch are the canonical ones, and
    the splitting functions accept exactly the canonical encodings. *)

From stdpp Require Import base tactics list.
From Stdlib Require Import ZArith Lia.
From S2P Require Import Prelude Bytes GoReader RlpRaw.

Open Scope Z_scope.
Open Scope go_scope.

Import GoReader Rlp.

Module RlpLemmas.

Create HintDb rlp.

(** ** Big-endian numbers *)

Lemma le_encode_shiftr n z :
  le_encode n z = (fun k => u8 (Z.shiftr z (8 * Z.of_nat k))) <$> seq 0 n.
Proof.
  revert z. induction n as [|n IH]; intros z; [done|]. cbn [le_encode seq fmap list_fmap]. f_equal.
  rewrite IH, <- fmap_S_seq, <- list_fmap_compose. apply list_fmap_ext. intros i k _. unfold compose.
  f_equal. rewrite Z.shiftr_div_pow2 by lia. change 256 with (2 ^ 8). rewrite Z.div_div by lia.
  rewrite Z.shiftr_div_pow2, <- Z.pow_add_r by lia. f_equal. f_equal. lia.
Qed.

(** ** The number of bytes of an integer *)

Lemma pow256_pow2 n : 256 ^ Z.of_nat n = 2 ^ (8 * Z.of_nat n).
Proof. rewrite Z.pow_mul_r by lia. done. Qed.

Lemma bytelen_unique n i : 256 ^ Z.of_nat n <= i < 256 ^ Z.of_nat (S n) -> bytelen i = S n.
Proof.
  rewrite !pow256_pow2, Nat2Z.inj_succ. intros Hi. assert (0 < i) by (pose proof (Z.pow_pos_nonneg 2 (8 * Z.of_nat n)); lia).
  unfold bytelen. rewrite decide_False by lia.
  assert (8 * Z.of_nat n <= Z.log2 i < 8 * Z.succ (Z.of_nat n)) as Hl.
  { split; [apply Z.log2_le_pow2; lia|]. apply Z.log2_lt_pow2; lia. }
  assert (Z.log2 i / 8 = Z.of_nat n) as ->; [|lia].
  symmetry. apply (Z.div_unique _ _ _ (Z.log2 i - 8 * Z.of_nat n)); lia.
Qed.

Lemma bytelen_spec i : 0 < i -> exists n, bytelen i = S n /\ 256 ^ Z.of_nat n <= i < 256 ^ Z.of_nat (S n).
Proof.
  intros Hi. pose proof (Z.log2_spec i Hi) as Hl. pose proof (Z.log2_nonneg i) as Hn.
  exists (Z.to_nat (Z.log2 i / 8)). assert (0 <= Z.log2 i / 8) by (apply Z.div_pos; lia). split.
  - unfold bytelen. rewrite decide_False by lia. lia.
  - rewrite !pow256_pow2, Nat2Z.inj_succ, Z2Nat.id by done.
    pose proof (Z.div_mod (Z.log2 i) 8). pose proof (Z.mod_pos_bound (Z.log2 i) 8). split.
    + etrans; [|apply Hl]. apply Z.pow_le_mono_r; lia.
    + eapply Z.lt_le_trans; [apply Hl|]. apply Z.pow_le_mono_r; lia.
Qed.

Lemma bytelen_le i n : 0 <= i < 256 ^ Z.of_nat n -> (bytelen i <= n)%nat.
Proof.
  intros Hi. destruct (decide (i = 0)) as [->|]; [by vm_compute; lia|].
  destruct (bytelen_spec i) as (m & -> & Hm); [lia|].
  assert (256 ^ Z.of_nat m < 256 ^ Z.of_nat n) as Hlt by lia.
  apply Z.pow_lt_mono_r_iff in Hlt; lia.
Qed.

Lemma bytelen_lt i n : (bytelen i <= n)%nat -> 0 <= i -> i < 256 ^ Z.of_nat n.
Proof.
  intros Hn Hi. destruct (decide (i = 0)) as [->|]; [apply Z.pow_pos_nonneg; lia|].
  destruct (bytelen_spec i) as (m & Hm & Hb); [lia|]. eapply Z.lt_le_trans; [apply Hb|].
  apply Z.pow_le_mono_r; lia.
Qed.

(** A case distinction over the sizes of a [uint64]. *)
Lemma u64_sizes i :
  0 < i < 2 ^ 64 -> i < 2 ^ 8 \/ 2 ^ 8 <= i < 2 ^ 16 \/ 2 ^ 16 <= i < 2 ^ 24 \/ 2 ^ 24 <= i < 2 ^ 32 \/
    2 ^ 32 <= i < 2 ^ 40 \/ 2 ^ 40 <= i < 2 ^ 48 \/ 2 ^ 48 <= i < 2 ^ 56 \/ 2 ^ 56 <= i.
Proof. lia. Qed.

Ltac size_is n i := pose proof (bytelen_unique n i) as Hlen;
  cbn [Z.of_nat Pos.of_succ_nat Pos.succ] in Hlen; specialize (Hlen ltac:(lia)).

Ltac size_cases H :=
  match type of H with
  | 0 < ?i < _ =>
      destruct (u64_sizes i H) as [Hs|[Hs|[Hs|[Hs|[Hs|[Hs|[Hs|Hs]]]]]]];
      [size_is 0%nat i|size_is 1%nat i|size_is 2%nat i|size_is 3%nat i|size_is 4%nat i|size_is 5%nat i|size_is 6%nat i|size_is 7%nat i]
  end.

(** Decides the comparisons of a branch. *)
Ltac branch := repeat first [rewrite (proj2 (Z.ltb_ge _ _)) by lia|rewrite (proj2 (Z.ltb_lt _ _)) by lia].

Lemma putint_minimal i : 0 < i < 2 ^ 64 -> putint i = minimal i.
Proof.
  intros Hi. unfold minimal, putint, be_encode. size_cases Hi; rewrite Hlen, le_encode_shiftr; branch;
    cbn [seq fmap list_fmap]; rewrite Z.shiftr_0_r; reflexivity.
Qed.

Lemma shiftr_zero i k : 0 <= k -> 0 <= i < 2 ^ k -> (Z.shiftr i k =? 0) = true.
Proof. intros Hk Hi. rewrite Z.shiftr_div_pow2, Z.div_small by lia. done. Qed.

Lemma shiftr_nonzero i k : 0 <= k -> 2 ^ k <= i -> (Z.shiftr i k =? 0) = false.
Proof.
  intros Hk Hi. apply Z.eqb_neq. rewrite Z.shiftr_div_pow2 by lia.
  assert (1 <= i / 2 ^ k); [|lia]. apply Z.div_le_lower_bound; lia.
Qed.

Lemma intsize_bytelen i : 0 < i < 2 ^ 64 -> intsize i = Z.of_nat (bytelen i).
Proof.
  intros Hi. unfold intsize. cbn [intsizeLoop]. rewrite !Z.shiftr_shiftr by lia. cbn [Z.add Pos.add Pos.succ].
  size_cases Hi; rewrite Hlen;
    repeat first [rewrite shiftr_nonzero by lia|rewrite shiftr_zero by lia]; reflexivity.
Qed.

(** ** Minimal numbers *)

Lemma length_minimal i : length (minimal i) = bytelen i.
Proof. apply length_be_encode. Qed.

Lemma minimal_bytes i : Forall is_byte (minimal i).
Proof. apply be_encode_bytes. Qed.

Lemma minimal_decode i : 0 <= i -> be_decode (minimal i) = i.
Proof.
  intros Hi. unfold minimal. rewrite be_decode_encode. apply Z.mod_small. split; [done|].
  by apply bytelen_lt.
Qed.

(** Bytes without a leading zero are the minimal bytes of their number. *)
Lemma minimal_unique bs : Forall is_byte bs -> head bs <> Some 0 -> minimal (be_decode bs) = bs.
Proof.
  intros Hb Hh. unfold minimal. rewrite <- (be_encode_decode bs Hb) at 3. f_equal.
  destruct bs as [|b bs]; [done|]. inversion_clear Hb as [|?? Hb0 Hbs].
  pose proof (be_decode_bound bs Hbs) as Hd. unfold is_byte in Hb0. cbn [head] in Hh.
  cbn [length]. apply bytelen_unique. rewrite be_decode_cons, Nat2Z.inj_succ, Z.pow_succ_r by lia.
  assert (b <> 0) by congruence. nia.
Qed.

Lemma minimal_head i : 0 <= i -> head (minimal i) <> Some 0.
Proof.
  intros Hi E. destruct (decide (i = 0)) as [->|Hne]; [done|].
  destruct (bytelen_spec i) as (n & Hn & Hb); [lia|].
  destruct (minimal i) as [|b bs] eqn:Hm; [done|]. injection E as ->.
  pose proof (minimal_decode i Hi) as Hd. rewrite Hm, be_decode_cons in Hd.
  pose proof (minimal_bytes i) as Hf. rewrite Hm in Hf. inversion_clear Hf as [|?? _ Hf'].
  pose proof (be_decode_bound bs Hf') as Hbs. pose proof (length_minimal i) as Hl.
  rewrite Hm, Hn in Hl. cbn [length] in Hl. injection Hl as Hl. rewrite Hl in Hbs. lia.
Qed.

(** ** Headers *)

Lemma header_length s l n : (length (header s l n) = 1 + (if decide (n < 56) then 0 else bytelen (Z.of_nat n)))%nat.
Proof. unfold header. case_decide; [done|]. cbn [length]. by rewrite length_minimal. Qed.

Lemma header_bound s l n : Z.of_nat n < 2 ^ 64 -> (length (header s l n) <= 9)%nat.
Proof. intros Hn. rewrite header_length. case_decide; [lia|]. pose proof (bytelen_le (Z.of_nat n) 8). lia. Qed.

Lemma encString_bound b : Z.of_nat (length b) < 2 ^ 64 -> (length (encString b) <= length b + 9)%nat.
Proof.
  intros Hb. unfold encString. destruct b as [|x [|y b]]; [by apply Nat.leb_le|destruct (_ <? _); cbn [length]; lia|].
  rewrite length_app. pose proof (header_bound 0x80 0xB7 (length (x :: y :: b)) Hb). lia.
Qed.

Lemma encList_bound bs : Z.of_nat (length bs) < 2 ^ 64 -> (length bs < length (encList bs) <= length bs + 9)%nat.
Proof.
  intros Hl. unfold encList. rewrite length_app. pose proof (header_bound 0xC0 0xF7 (length bs) Hl). rewrite header_length in *. lia.
Qed.

Lemma puthead_header s l n :
  0 <= s <= 200 -> 0 <= l <= 247 -> Z.of_nat n < 2 ^ 64 -> puthead s l (Z.of_nat n) = header s l n.
Proof.
  intros Hs Hl Hn. unfold puthead, header, u8. case_decide.
  - rewrite (proj2 (Z.ltb_lt _ _)) by lia. rewrite (Z.mod_small (Z.of_nat n)) by lia. by rewrite Z.mod_small by lia.
  - rewrite (proj2 (Z.ltb_ge _ _)) by lia. rewrite putint_minimal by lia.
    pose proof (bytelen_le (Z.of_nat n) 8). rewrite length_minimal. rewrite (Z.mod_small (Z.of_nat (bytelen _))) by lia.
    by rewrite Z.mod_small by lia.
Qed.

Lemma headsize_header s l n : Z.of_nat n < 2 ^ 64 -> headsize (Z.of_nat n) = Z.of_nat (length (header s l n)).
Proof.
  intros Hn. unfold headsize. rewrite header_length. case_decide.
  - rewrite (proj2 (Z.ltb_lt _ _)) by lia. done.
  - rewrite (proj2 (Z.ltb_ge _ _)) by lia. rewrite intsize_bytelen by lia. lia.
Qed.

Lemma header_bytes s l n :
  0 <= s <= 200 -> 0 <= l <= 247 -> Z.of_nat n < 2 ^ 64 -> Forall is_byte (header s l n).
Proof.
  intros Hs Hl Hn. unfold header, is_byte. case_decide; [constructor; [lia|done]|].
  pose proof (bytelen_le (Z.of_nat n) 8). rewrite length_minimal. constructor; [lia|apply minimal_bytes].
Qed.

Lemma AppendUint64_enc b i : in_u64 i -> AppendUint64 b i = b ++ encUint i.
Proof.
  intros Hi. unfold in_u64 in Hi. destruct (decide (i = 0)) as [->|Hne]; [done|].
  unfold AppendUint64. rewrite (proj2 (Z.eqb_neq _ _)) by done. unfold encUint.
  destruct (Z.ltb_spec i 128) as [Hlt|Hge].
  - assert (minimal i = [i]) as ->; [|cbn; rewrite (proj2 (Z.ltb_lt _ _)) by lia; unfold u8; by rewrite Z.mod_small by lia].
    rewrite <- putint_minimal by lia. unfold putint, u8. branch. by rewrite Z.mod_small by lia.
  - rewrite <- putint_minimal by lia. unfold putint.
    assert (0 < i < 2 ^ 64) as Hi' by lia. size_cases Hi'; clear Hlen; branch; cbn [encString]; try reflexivity.
    unfold u8. rewrite Z.mod_small by lia. by rewrite (proj2 (Z.ltb_ge _ _)) by lia.
Qed.

(** ** Splitting *)

(** What a value of a kind looks like. *)
Definition tag (k : Kind) (n : nat) : list Z :=
  match k with
  | KByte => []
  | KString => header 0x80 0xB7 n
  | KList => header 0xC0 0xF7 n
  end.

Definition fitting (k : Kind) (content : list Z) : Prop :=
  match k with
  | KByte => exists x, content = [x] /\ x < 0x80
  | KString => forall x, content = [x] -> 0x80 <= x
  | KList => True
  end.

Lemma readSize_spec b slen s :
  Forall is_byte b -> 1 <= slen <= 8 ->
  readSize b slen = Ok s <->
  exists rest, b = minimal s ++ rest /\ Z.of_nat (length (minimal s)) = slen /\ 56 <= s.
Proof.
  intros Hb Hs. unfold readSize. destruct (Z.ltb_spec (Z.of_nat (length b)) slen) as [Hl|Hl].
  { split; [done|]. intros (rest & -> & Hlen & _). rewrite length_app in Hl. lia. }
  set (t := take (Z.to_nat slen) b).
  assert (length t = Z.to_nat slen) as Ht by (unfold t; rewrite length_take; lia).
  assert (Forall is_byte t) as Hbt by (by apply Forall_take).
  assert (head t = head b) as Hh.
  { unfold t. destruct b as [|x b]; [by rewrite take_nil|]. by destruct (Z.to_nat slen) eqn:E; [lia|]. }
  split.
  - destruct (Z.ltb_spec (be_decode t) 56); [done|]. cbn [orb].
    destruct (bool_decide_reflect (head b = Some 0)) as [|Hz]; [done|]. intros [= <-].
    rewrite minimal_unique by (done || congruence). exists (drop (Z.to_nat slen) b).
    split; [unfold t; by rewrite take_drop|]. split; [lia|done].
  - intros (rest & E & Hlen & H56). assert (t = minimal s) as ->.
    { unfold t. rewrite E, take_app_length'; [done|lia]. }
    rewrite minimal_decode by lia. rewrite (proj2 (Z.ltb_ge _ _)) by lia. cbn [orb].
    rewrite bool_decide_eq_false_2; [done|]. rewrite <- Hh. apply minimal_head. lia.
Qed.

Lemma header_minimal s l n :
  (56 <= n)%nat -> header s l n = l + Z.of_nat (length (minimal (Z.of_nat n))) :: minimal (Z.of_nat n).
Proof. intros Hn. unfold header. by rewrite decide_False by lia. Qed.

Lemma header_small s l n : (n < 56)%nat -> header s l n = [s + Z.of_nat n].
Proof. intros Hn. unfold header. by rewrite decide_True. Qed.

(** The check against the input. *)
Lemma check_spec {A} (b : list Z) (ts cs : Z) (x : A) :
  0 <= ts <= Z.of_nat (length b) -> Z.of_nat (length b) < 2 ^ 64 ->
  (if u64 (Z.of_nat (length b) - ts) <? cs then Err ErrValueTooLarge else Ok x) =
  (if Z.of_nat (length b) <? ts + cs then Err ErrValueTooLarge else Ok x).
Proof.
  intros Hts Hb. unfold u64. rewrite Z.mod_small by lia.
  destruct (Z.ltb_spec (Z.of_nat (length b) - ts) cs), (Z.ltb_spec (Z.of_nat (length b)) (ts + cs)); (done || lia).
Qed.

(** Bytes that start with a tag and have enough behind it. *)
Lemma split_at (b t : list Z) n :
  take (length t) b = t -> (length t + n <= length b)%nat ->
  exists content rest, b = t ++ content ++ rest /\ length content = n.
Proof.
  intros Ht Hl. exists (take n (drop (length t) b)), (drop n (drop (length t) b)). split.
  - rewrite take_drop. rewrite <- Ht at 1. by rewrite take_drop.
  - rewrite length_take, length_drop. lia.
Qed.

(** A long header that was read. *)
Lemma long_header s l x tail size :
  Forall is_byte tail -> 1 <= x - l <= 8 -> readSize tail (x - l) = Ok size ->
  exists rest, header s l (Z.to_nat size) = x :: minimal size /\ x :: tail = header s l (Z.to_nat size) ++ rest /\
    Z.of_nat (length (header s l (Z.to_nat size))) = x - l + 1 /\ 56 <= size.
Proof.
  intros Hb Hx Hr. apply readSize_spec in Hr as (rest & Ht & Hl & H56); [|done..].
  exists rest. rewrite header_minimal, Z2Nat.id by lia. rewrite Hl. split_and!.
  - f_equal. lia.
  - rewrite Ht. cbn [app]. f_equal. lia.
  - cbn [length]. lia.
  - done.
Qed.

(** One case of [readKind]: the tag is read, and the check passes. *)
Lemma kind_found b k small n k' ts cs :
  0 <= n -> tag k (Z.to_nat n) = small -> take (length small) b = small ->
  (forall content rest, b = small ++ content ++ rest -> length content = Z.to_nat n -> fitting k content) ->
  (if Z.of_nat (length b) <? Z.of_nat (length small) + n then Err ErrValueTooLarge
   else Ok (k, Z.of_nat (length small), n)) = Ok (k', ts, cs) ->
  exists content rest, b = tag k' (length content) ++ content ++ rest /\ fitting k' content /\
    ts = Z.of_nat (length (tag k' (length content))) /\ cs = Z.of_nat (length content).
Proof.
  intros Hn Htag Htake Hfit. destruct (Z.ltb_spec (Z.of_nat (length b)) (Z.of_nat (length small) + n)); [done|].
  intros [= <- <- <-]. destruct (split_at b small (Z.to_nat n) Htake) as (content & rest & E & Hc); [lia|].
  exists content, rest. rewrite Hc, Htag. split_and!; [done|by apply (Hfit content rest)|done|lia].
Qed.

Lemma readKind_sound b k ts cs :
  Forall is_byte b -> Z.of_nat (length b) < 2 ^ 64 -> readKind b = Ok (k, ts, cs) ->
  exists content rest, b = tag k (length content) ++ content ++ rest /\ fitting k content /\
    ts = Z.of_nat (length (tag k (length content))) /\ cs = Z.of_nat (length content).
Proof.
  intros Hb Hlen. destruct b as [|x tail]; [done|]. inversion_clear Hb as [|?? Hx Ht]. unfold is_byte in Hx.
  cbn [readKind]. set (b := x :: tail) in *.
  assert (1 <= Z.of_nat (length b)) as H1 by (unfold b; cbn [length]; lia).
  destruct (Z.ltb_spec x 0x80) as [H80|H80].
  { rewrite check_spec by lia. apply (kind_found b KByte [] 1); [lia|done|done|].
    intros content rest E Hc. destruct content as [|y [|? ?]]; [done| |done]. injection E as <- _. by exists x. }
  destruct (Z.ltb_spec x 0xB8) as [HB8|HB8].
  { destruct (_ && _) eqn:Hsingle; [done|]. rewrite check_spec by lia.
    apply (kind_found b KString [x] (x - 0x80)); [lia|cbn [tag]; rewrite header_small by lia; f_equal; lia|done|].
    intros content rest E Hc y ->. unfold b in E. injection E as ->. cbn [app] in Hsingle.
    destruct (Z.ltb_spec y 128); [|done]. cbn [length] in Hc.
    rewrite (proj2 (Z.eqb_eq _ _)) in Hsingle by lia. done. }
  destruct (Z.ltb_spec x 0xC0) as [HC0|HC0].
  { destruct (readSize tail _) as [size|] eqn:Hr; [|done].
    apply (long_header 0x80 0xB7) in Hr as (rest & Eh & E & Hl & H56); [|done|lia].
    assert (length (header 0x80 0xB7 (Z.to_nat size)) <= length b)%nat by (unfold b; rewrite E, length_app; lia).
    rewrite <- Hl, check_spec by lia. apply (kind_found b KString); [lia|done| |].
    - unfold b. by rewrite E, take_app_length.
    - intros content rest' _ Hc y ->. cbn [length] in Hc. lia. }
  destruct (Z.ltb_spec x 0xF8) as [HF8|HF8].
  { rewrite check_spec by lia.
    apply (kind_found b KList [x] (x - 0xC0)); [lia|cbn [tag]; rewrite header_small by lia; f_equal; lia|done|done]. }
  destruct (readSize tail _) as [size|] eqn:Hr; [|done].
  apply (long_header 0xC0 0xF7) in Hr as (rest & Eh & E & Hl & H56); [|done|lia].
  assert (length (header 0xC0 0xF7 (Z.to_nat size)) <= length b)%nat by (unfold b; rewrite E, length_app; lia).
  rewrite <- Hl, check_spec by lia. apply (kind_found b KList); [lia|done| |done].
  unfold b. by rewrite E, take_app_length.
Qed.

(** A header in front of its content is read back. *)
Lemma header_readSize l n rest :
  (56 <= n)%nat -> Z.of_nat n < 2 ^ 64 -> Forall is_byte rest ->
  let m := minimal (Z.of_nat n) in
  1 <= Z.of_nat (length m) <= 8 /\ readSize (m ++ rest) (l + Z.of_nat (length m) - l) = Ok (Z.of_nat n).
Proof.
  intros Hn Hlt Hr m. destruct (bytelen_spec (Z.of_nat n)) as (k & Hk & _); [lia|].
  pose proof (bytelen_le (Z.of_nat n) 8) as H8. unfold m. rewrite length_minimal. split; [lia|].
  apply readSize_spec; [apply Forall_app; split; [apply minimal_bytes|done]|lia|].
  exists rest. rewrite length_minimal. split_and!; [done|lia|lia].
Qed.

Lemma readKind_complete k content rest :
  let b := tag k (length content) ++ content ++ rest in
  Forall is_byte (content ++ rest) -> Z.of_nat (length b) < 2 ^ 64 -> fitting k content ->
  readKind b = Ok (k, Z.of_nat (length (tag k (length content))), Z.of_nat (length content)).
Proof.
  intros b Hb Hlen Hfit.
  assert (Z.of_nat (length (tag k (length content))) + Z.of_nat (length content) <= Z.of_nat (length b)) as Hfits
    by (unfold b; rewrite !length_app; lia).
  assert (forall A (r : A), (if u64 (Z.of_nat (length b) - Z.of_nat (length (tag k (length content))))
    <? Z.of_nat (length content) then Err ErrValueTooLarge else Ok r) = Ok r) as Hcheck.
  { intros A r. rewrite check_spec by lia. by rewrite (proj2 (Z.ltb_ge _ _)) by lia. }
  destruct k; cbn [tag fitting] in *.
  - destruct Hfit as (x & -> & Hx). unfold b in *. cbn [app readKind length] in *.
    rewrite (proj2 (Z.ltb_lt _ _)) by lia. apply Hcheck.
  - destruct (decide (length content < 56)%nat) as [Hs|Hs].
    + unfold b in *. rewrite header_small in * by done. cbn [app readKind] in *. branch.
      replace (128 + Z.of_nat (length content) - 128) with (Z.of_nat (length content)) by lia.
      destruct (_ && _) eqn:Hsingle; [exfalso|apply Hcheck].
      apply andb_prop in Hsingle as [H1%Z.eqb_eq H2]. destruct content as [|y [|? ?]]; [done| |cbn in H1; lia].
      cbn [app] in H2. apply Z.ltb_lt in H2. specialize (Hfit y eq_refl). lia.
    + destruct (header_readSize 0xB7 (length content) (content ++ rest)) as [H8 Hr]; [lia|lia|done|].
      unfold b in *. rewrite header_minimal in * by lia. cbn [app readKind] in *. branch.
      rewrite Hr. cbn [length] in *.
      set (m := length (minimal _)) in *. replace (183 + Z.of_nat m - 183 + 1) with (Z.of_nat (S m)) by lia. apply Hcheck.
  - destruct (decide (length content < 56)%nat) as [Hs|Hs].
    + unfold b in *. rewrite header_small in * by done. cbn [app readKind] in *. branch.
      replace (192 + Z.of_nat (length content) - 192) with (Z.of_nat (length content)) by lia. apply Hcheck.
    + destruct (header_readSize 0xF7 (length content) (content ++ rest)) as [H8 Hr]; [lia|lia|done|].
      unfold b in *. rewrite header_minimal in * by lia. cbn [app readKind] in *. branch.
      rewrite Hr. cbn [length] in *.
      set (m := length (minimal _)) in *. replace (247 + Z.of_nat m - 247 + 1) with (Z.of_nat (S m)) by lia. apply Hcheck.
Qed.

(** ** Whole values *)

Definition value : Type := Kind * list Z.

Definition encValue (v : value) : list Z := tag v.1 (length v.2) ++ v.2.

Lemma encValue_nonempty v : fitting v.1 v.2 -> (0 < length (encValue v))%nat.
Proof.
  destruct v as [k content]. unfold encValue. cbn [fst snd]. rewrite length_app.
  destruct k; cbn [tag fitting]; [intros (x & -> & _); cbn; lia|rewrite header_length; lia..].
Qed.

Lemma readKind_value v rest :
  Forall is_byte (encValue v ++ rest) -> Z.of_nat (length (encValue v ++ rest)) < 2 ^ 64 -> fitting v.1 v.2 ->
  readKind (encValue v ++ rest) = Ok (v.1, Z.of_nat (length (tag v.1 (length v.2))), Z.of_nat (length v.2)).
Proof.
  intros Hb Hl Hf. unfold encValue in *. rewrite <- app_assoc in *. apply readKind_complete; [|done|done].
  by apply Forall_app in Hb as [_ ?].
Qed.

Lemma sub_prefix a b : Z.of_nat (length (a ++ b)) < 2 ^ 64 -> sub (a ++ b) 0 (u64 (Z.of_nat (length a))) = Ret a.
Proof.
  intros Hl. rewrite length_app in Hl. unfold u64. rewrite Z.mod_small by lia.
  rewrite <- (app_nil_l (a ++ b)). apply sub_app; cbn [length]; lia.
Qed.

Lemma sub_suffix a b :
  Z.of_nat (length (a ++ b)) < 2 ^ 64 ->
  sub (a ++ b) (u64 (Z.of_nat (length a))) (Z.of_nat (length (a ++ b))) = Ret b.
Proof.
  intros Hl. rewrite length_app in *. unfold u64. rewrite Z.mod_small by lia.
  rewrite <- (app_nil_r (a ++ b)), <- app_assoc. apply sub_app; lia.
Qed.

Lemma sub_none b : sub b 0 0 = Ret [].
Proof. unfold sub. by rewrite !(proj2 (Z.leb_le _ _)) by lia. Qed.

Lemma sub_all b : sub b 0 (Z.of_nat (length b)) = Ret b.
Proof.
  unfold sub. rewrite !(proj2 (Z.leb_le _ _)) by lia. cbn [andb]. change (Z.to_nat 0) with 0%nat.
  rewrite drop_0. by rewrite take_ge by lia.
Qed.

Lemma encValue_end v : Z.of_nat (length (tag v.1 (length v.2))) + Z.of_nat (length v.2) = Z.of_nat (length (encValue v)).
Proof. unfold encValue. rewrite length_app. lia. Qed.

Lemma Split_value v rest :
  Forall is_byte (encValue v ++ rest) -> Z.of_nat (length (encValue v ++ rest)) < 2 ^ 64 -> fitting v.1 v.2 ->
  Split (encValue v ++ rest) = Ret (Ok (v.1, v.2, rest)).
Proof.
  intros Hb Hl Hf. unfold Split. rewrite readKind_value by done. rewrite encValue_end.
  rewrite sub_suffix by done. unfold encValue at 1. rewrite <- app_assoc.
  assert (u64 (Z.of_nat (length (encValue v))) = Z.of_nat (length (tag v.1 (length v.2)) + length v.2)) as ->.
  { unfold u64. rewrite length_app in Hl. rewrite Z.mod_small by lia. pose proof (encValue_end v). lia. }
  by rewrite sub_app.
Qed.

(** [Split] never panics, and accepts exactly the encoding of a value. *)
Lemma Split_spec b :
  Forall is_byte b -> Z.of_nat (length b) < 2 ^ 64 ->
  exists r, Split b = Ret r /\
    forall k content rest, r = Ok (k, content, rest) <-> b = encValue (k, content) ++ rest /\ fitting k content.
Proof.
  intros Hb Hl. destruct (readKind b) as [[[k ts] cs]|e] eqn:Hk.
  - apply readKind_sound in Hk as (content & rest & E & Hf & _); [|done..].
    assert (b = encValue (k, content) ++ rest) as -> by (unfold encValue; cbn [fst snd]; by rewrite <- app_assoc).
    eexists. split; [by apply Split_value|]. intros k' content' rest'. split; [by intros [= <- <- <-]|].
    intros [E' Hf']. assert (Split (encValue (k, content) ++ rest) = Ret (Ok (k', content', rest'))) as Hs
      by (rewrite E' in *; by apply Split_value).
    rewrite Split_value in Hs by done. by injection Hs as -> -> ->.
  - exists (Err e). unfold Split. rewrite Hk. split; [done|]. intros k content rest. split; [done|].
    intros [-> Hf]. by rewrite readKind_value in Hk.
Qed.

Lemma encString_value k content : fitting k content -> k <> KList -> encString content = encValue (k, content).
Proof.
  intros Hf Hk. unfold encValue. cbn [fst snd]. destruct k; [| |done]; cbn [tag fitting] in *.
  - destruct Hf as (x & -> & Hx). cbn [encString length app]. by rewrite (proj2 (Z.ltb_lt _ _)).
  - destruct content as [|x [|y content]]; [done| |done]. specialize (Hf x eq_refl).
    cbn [encString]. by rewrite (proj2 (Z.ltb_ge _ _)).
Qed.

(** Every string is the content of a value. *)
Lemma string_kind bs : exists k, k <> KList /\ fitting k bs.
Proof.
  destruct bs as [|x [|y bs]]; [by exists KString| |by exists KString].
  destruct (decide (x < 0x80)); [exists KByte|exists KString]; cbn [fitting]; (split; [done|]); [by exists x|].
  intros y [= <-]. lia.
Qed.

Lemma SplitString_spec b :
  Forall is_byte b -> Z.of_nat (length b) < 2 ^ 64 ->
  exists r, SplitString b = Ret r /\
    forall content rest, r = Ok (content, rest) <-> b = encString content ++ rest.
Proof.
  intros Hb Hl. destruct (Split_spec b Hb Hl) as (r & Hs & Hr). unfold SplitString. rewrite Hs.
  eexists. split; [done|]. intros content rest. split.
  - destruct r as [[[k c] rs]|]; [|done]. case_decide as Hk; [done|]. intros [= <- <-].
    destruct (proj1 (Hr k c rs) eq_refl) as [-> Hf]. by rewrite (encString_value k).
  - intros E. destruct (string_kind content) as (k & Hk & Hf). rewrite (encString_value k) in E by done.
    rewrite (proj2 (Hr k content rest) (conj E Hf)). by rewrite decide_False.
Qed.

Lemma uint_content content x :
  Forall is_byte content -> (length content <= 8)%nat -> head content <> Some 0 ->
  x = be_decode content -> in_u64 x /\ minimal x = content.
Proof.
  intros Hb H8 Hh ->. split; [|by apply minimal_unique]. pose proof (be_decode_bound content Hb) as H.
  split; [lia|]. eapply Z.lt_le_trans; [apply H|]. change (2 ^ 64) with (256 ^ 8). apply Z.pow_le_mono_r; lia.
Qed.

Lemma encString_bytes bs rest : Forall is_byte (encString bs ++ rest) -> Forall is_byte bs.
Proof.
  destruct (string_kind bs) as (k & Hk & Hf). rewrite (encString_value k) by done.
  unfold encValue. rewrite !Forall_app. cbn [snd]. tauto.
Qed.

Lemma SplitUint64_spec b :
  Forall is_byte b -> Z.of_nat (length b) < 2 ^ 64 ->
  exists r, SplitUint64 b = Ret r /\
    forall x rest, r = Ok (x, rest) <-> in_u64 x /\ b = AppendUint64 [] x ++ rest.
Proof.
  intros Hb Hl. destruct (SplitString_spec b Hb Hl) as (r & Hs & Hr). unfold SplitUint64. rewrite Hs.
  eexists. split; [done|]. intros x rest. split.
  - destruct r as [[content rs]|]; [|done]. pose proof (proj1 (Hr content rs) eq_refl) as E.
    assert (Forall is_byte content) as Hc by (rewrite E in Hb; by eapply encString_bytes).
    intros Hx. assert (rs = rest /\ (length content <= 8)%nat /\ head content <> Some 0 /\ x = be_decode content)
      as (<- & H8 & Hh & Hd).
    { destruct content as [|y [|z content]]; [injection Hx as <- <-; by cbn; split_and!; [|lia|..]| |].
      - destruct (Z.eqb_spec y 0); [done|]. injection Hx as <- <-. cbn [length head].
        split_and!; [done|lia|congruence|]. rewrite be_decode_cons. cbn. lia.
      - destruct (decide (8 < length (y :: z :: content))%nat); [done|].
        destruct (readSize _ _) as [s|] eqn:Hrs; [|done]. injection Hx as <- <-.
        apply readSize_spec in Hrs as (tl & Et & Hlm & H56); [|done|cbn [length] in *; lia].
        assert (tl = []) as -> by (apply nil_length_inv; apply (f_equal length) in Et; rewrite length_app in Et; lia).
        rewrite app_nil_r in Et. split_and!; [done|cbn [length] in *; lia| |].
        + rewrite Et. apply minimal_head. lia.
        + rewrite Et. symmetry. apply minimal_decode. lia. }
    destruct (uint_content content x Hc H8 Hh Hd) as [Hx64 Hm]. split; [done|].
    rewrite AppendUint64_enc by done. cbn [app]. unfold encUint. by rewrite Hm.
  - intros [Hx E]. rewrite AppendUint64_enc in E by done. cbn [app] in E. unfold encUint in E.
    rewrite (proj2 (Hr (minimal x) rest) E). pose proof (minimal_decode x ltac:(apply Hx)) as Hd.
    pose proof (minimal_head x ltac:(apply Hx)) as Hh. pose proof (bytelen_le x 8 Hx) as H8.
    pose proof (minimal_bytes x) as Hmb. rewrite <- length_minimal in H8.
    assert (minimal x = minimal x ++ []) as Hself by (by rewrite app_nil_r).
    destruct (minimal x) as [|y [|z content]] eqn:Hm.
    + by rewrite <- Hd.
    + cbn [head] in Hh. rewrite (proj2 (Z.eqb_neq _ _)) by congruence.
      rewrite be_decode_cons in Hd. cbn in Hd. do 2 f_equal. lia.
    + rewrite decide_False by lia. assert (1 <= Z.of_nat (length (y :: z :: content)) <= 8) as Hr8 by (cbn [length] in *; lia).
      rewrite (proj2 (readSize_spec _ _ x Hmb Hr8)); [done|].
      exists []. rewrite Hm. split_and!; [done|done|].
      inversion_clear Hmb as [|?? Hy Hmb']. rewrite be_decode_cons in Hd. cbn [length] in Hd.
      pose proof (be_decode_bound _ Hmb') as Hdb. unfold is_byte in Hy. cbn [head] in Hh.
      assert (y <> 0) by congruence. assert (256 ^ 1 <= 256 ^ Z.of_nat (S (length content))) by (apply Z.pow_le_mono_r; lia).
      nia.
Qed.

(** Encodings in front of anything are told apart. *)
Lemma encValue_inj v v' r r' :
  Forall is_byte (encValue v ++ r) -> Z.of_nat (length (encValue v ++ r)) < 2 ^ 64 ->
  fitting v.1 v.2 -> fitting v'.1 v'.2 -> encValue v ++ r = encValue v' ++ r' -> v = v' /\ r = r'.
Proof.
  intros Hb Hl Hf Hf' E. pose proof (Split_value v r Hb Hl Hf) as H1. rewrite E in *.
  rewrite (Split_value v' r' Hb Hl Hf') in H1. destruct v, v'. by injection H1 as <- <- <-.
Qed.

Definition encValues (vs : list value) : list Z := concat (encValue <$> vs).

Definition allFitting (vs : list value) : Prop := Forall (fun v => fitting v.1 v.2) vs.

Lemma countLoop_spec fuel b i :
  Forall is_byte b -> Z.of_nat (length b) < 2 ^ 64 -> (length b <= fuel)%nat ->
  exists r, countLoop fuel b i = Ret r /\
    forall n, r = Ok n <-> exists vs, b = encValues vs /\ allFitting vs /\ n = i + Z.of_nat (length vs).
Proof.
  revert b i. induction fuel as [|fuel IH]; intros b i Hb Hl Hf.
  all: destruct b as [|x b']; [exists (Ok i); split; [done|]; intros n; split|].
  1, 4: intros [= <-]; exists []; split_and!; [done|constructor|cbn; lia].
  1, 3: intros ([|v vs] & E & Hv & ->); [cbn; f_equal; lia|]; inversion_clear Hv as [|?? Hv0 _];
    apply encValue_nonempty in Hv0; apply (f_equal length) in E; unfold encValues in E; cbn in E; rewrite length_app in E; lia.
  { cbn [length] in Hf. lia. }
  cbn [countLoop]. set (b := x :: b') in *. destruct (readKind b) as [[[k ts] cs]|e] eqn:Hk.
  - apply readKind_sound in Hk as (content & rest & E & Hfit & -> & ->); [|done..].
    assert (b = encValue (k, content) ++ rest) as E' by (unfold encValue; cbn [fst snd]; by rewrite <- app_assoc).
    pose proof (encValue_nonempty (k, content) Hfit) as Hne. pose proof (encValue_end (k, content)) as He. cbn [fst snd] in He.
    rewrite He, E', sub_suffix by (by rewrite <- E'). clear E. rewrite E' in Hb, Hl, Hf. rewrite length_app in Hf.
    destruct (IH rest (i + 1)) as (r & -> & Hr);
      [by apply Forall_app in Hb as [_ ?]|rewrite length_app in Hl; lia|lia|].
    exists r. split; [done|]. intros n. rewrite Hr. split.
    + intros (vs & -> & Hvs & ->). exists ((k, content) :: vs). split_and!; [done|by constructor|cbn [length]; lia].
    + intros (vs & E2 & Hvs & ->). destruct vs as [|v vs].
      { apply (f_equal length) in E2. rewrite length_app in E2. cbn in E2. lia. }
      inversion_clear Hvs as [|?? Hv Hvs']. unfold encValues in E2. cbn [fmap list_fmap concat] in E2.
      destruct (encValue_inj _ _ _ _ Hb Hl Hfit Hv E2) as [<- ->]. exists vs. split_and!; [done|done|cbn [length]; lia].
  - exists (Err e). split; [done|]. intros n. split; [done|]. intros (vs & E & Hvs & _).
    destruct vs as [|v vs]; [done|]. inversion_clear Hvs as [|?? Hv _]. unfold encValues in E.
    cbn [fmap list_fmap concat] in E. rewrite E in Hk, Hb, Hl. by rewrite readKind_value in Hk.
Qed.

(** ** The iterator *)

(** [n] calls of [Next]: the values seen, and the iterator afterwards. *)
Fixpoint iterate (n : nat) (it : listIterator) : go (list (list Z) * listIterator) :=
  match n with
  | O => Ret ([], it)
  | S n =>
      let! (more, it) := Next it in
      if more : bool then let! (vs, it') := iterate n it in Ret (next it :: vs, it') else Ret ([], it)
  end.

Lemma iterate_values vs nx e :
  allFitting vs -> Forall is_byte (encValues vs) -> Z.of_nat (length (encValues vs)) < 2 ^ 64 ->
  exists it, iterate (length vs) (mkIterator (encValues vs) nx e) = Ret (encValue <$> vs, it) /\
    data it = [] /\ (e = None -> err it = None) /\ Next it = Ret (false, it).
Proof.
  intros Hvs. revert nx e. induction Hvs as [|v vs Hv Hvs IH]; intros nx e Hb Hl.
  { eexists. split_and!; [done|done|done|done]. }
  unfold encValues in Hb, Hl. cbn [fmap list_fmap concat] in Hb, Hl. fold (encValues vs) in Hb, Hl.
  cbn [length iterate]. unfold Next at 1. cbn [data]. unfold encValues. cbn [fmap list_fmap concat]. fold (encValues vs).
  pose proof (encValue_nonempty v Hv). rewrite readKind_value by done. rewrite encValue_end.
  rewrite sub_prefix, sub_suffix by done. destruct (encValue v ++ encValues vs) as [|x l] eqn:E.
  { apply (f_equal length) in E. rewrite length_app in E. cbn in E. lia. }
  rewrite <- E in *. destruct (IH (encValue v) None) as (it & -> & Hd & He & Hn);
    [by apply Forall_app in Hb as [_ ?]|rewrite length_app in Hl; lia|].
  exists it. split_and!; [done|done| |done]. intros _. by apply He.
Qed.

End RlpLemmas.

Import RlpLemmas.

(** C20: The functions that take values off a byte slice. None of them panics. [Split]
    succeeds exactly on canonical encodings: the kind and content that it returns, encoded again, are
    the bytes in front of the rest. [SplitUint64] succeeds exactly on what [AppendUint64]
    writes. [CountValues] returns [n] exactly when the slice is the concatenation of [n]
    encoded values. *)
Theorem splitting_is_canonical b :
  Forall is_byte b -> Z.of_nat (length b) < 2 ^ 64 ->
  (exists r, Split b = Ret r /\
     forall k content rest, r = Ok (k, content, rest) <-> b = encValue (k, content) ++ rest /\ fitting k content) /\
  (exists r, SplitUint64 b = Ret r /\
     forall x rest, r = Ok (x, rest) <-> in_u64 x /\ b = AppendUint64 [] x ++ rest) /\
  (exists r, CountValues b = Ret r /\
     forall n, r = Ok n <-> exists vs, b = encValues vs /\ allFitting vs /\ n = Z.of_nat (length vs)).
Proof.
  intros Hb Hl. split_and!; [by apply Split_spec|by apply SplitUint64_spec|]. by apply countLoop_spec.
Qed.

Lemma splitting_is_canonical_witness :
  exists r, SplitUint64 [0x82; 0x04; 0x00; 7] = Ret r /\ r = Ok (1024, [7]).
Proof.
  destruct (splitting_is_canonical [0x82; 0x04; 0x00; 7]) as (_ & (r & Hr & Hiff) & _).
  - repeat constructor; cbn; lia.
  - cbn. lia.
  - exists r. split; [exact Hr|]. apply Hiff. split; [split; [discriminate|reflexivity]|reflexivity].
Defined.

(** The list iterator. Over an encoded list it yields the encoded elements one by one,
    in order, and then reports the end without an error. But at a malformed element it does
    not advance: every further call of [Next] returns true, an empty value and the same error, so a
    loop that does not look at the error never ends. *)
Theorem iterator_yields_or_loops vs rest bad nx e0 e :
  allFitting vs -> Forall is_byte (encValue (KList, encValues vs) ++ rest) ->
  Z.of_nat (length (encValue (KList, encValues vs) ++ rest)) < 2 ^ 64 ->
  bad <> [] -> readKind bad = Err e ->
  (exists it it', NewListIterator (encValue (KList, encValues vs) ++ rest) = Ret (Ok it) /\
     iterate (length vs) it = Ret (encValue <$> vs, it') /\ err it' = None /\ Next it' = Ret (false, it')) /\
  Next (mkIterator bad nx e0) = Ret (true, mkIterator bad [] (Some e)) /\
  forall n, iterate n (mkIterator bad nx e0) =
    Ret (replicate n [], if decide (n = 0%nat) then mkIterator bad nx e0 else mkIterator bad [] (Some e)).
Proof.
  intros Hvs Hb Hl Hne Hbad.
  assert (forall nx e0, Next (mkIterator bad nx e0) = Ret (true, mkIterator bad [] (Some e))) as Hnext.
  { intros nx' e0'. unfold Next. cbn [data]. rewrite Hbad. destruct bad as [|x bad']; [done|].
    cbn [Z.add]. change (u64 0) with 0. by rewrite sub_none, sub_all. }
  split; [|split; [apply Hnext|]].
  - unfold NewListIterator. pose proof (readKind_value (KList, encValues vs) rest Hb Hl I) as Hk. cbn [fst snd] in Hk.
    rewrite Hk, decide_True by done. pose proof (encValue_end (KList, encValues vs)) as He. cbn [fst snd] in He.
    rewrite He. unfold encValue at 1. cbn [fst snd]. rewrite <- app_assoc.
    assert (u64 (Z.of_nat (length (encValue (KList, encValues vs)))) =
      Z.of_nat (length (tag KList (length (encValues vs))) + length (encValues vs))) as ->.
    { rewrite length_app in Hl. unfold u64. rewrite Z.mod_small by lia. lia. }
    rewrite sub_app by done. unfold encValue in Hb, Hl. cbn [fst snd] in Hb, Hl. rewrite !length_app in Hl.
    rewrite !Forall_app in Hb. destruct (iterate_values vs [] None Hvs) as (it & Hit & _ & Herr & Hend); [tauto|lia|].
    eexists _, it. split; [reflexivity|]. split_and!; [done|by apply Herr|done].
  - intros n. revert nx e0. induction n as [|n IH]; intros nx e0; [done|]. cbn [iterate]. rewrite Hnext, IH.
    cbn [next replicate]. do 2 f_equal. by case_decide.
Qed.

Lemma iterator_yields_or_loops_witness :
  exists it it', NewListIterator [0xC3; 1; 0x81; 200] = Ret (Ok it) /\
    iterate 2 it = Ret ([[1]; [0x81; 200]], it') /\ Next it' = Ret (false, it').
Proof.
  destruct (iterator_yields_or_loops [(KByte, [1]); (KString, [200])] [] [0xB8] [] None ErrUnexpectedEOF)
    as [(it & it' & H1 & H2 & _ & H3) _].
  - repeat constructor; cbn; [by exists 1|]. intros x [= <-]. lia.
  - vm_compute. repeat constructor; discriminate.
  - vm_compute. reflexivity.
  - discriminate.
  - reflexivity.
  - exists it, it'. split; [exact H1|]. split; [exact H2|exact H3].
Defined.
