(* ===== verification/RlpEncode.v ===== *)
(** * The RLP encoder (src/rlp/encbuffer.go and the writers of encode.go)

    The buffer keeps the string data and the list headers apart, since the size of a list is
    known only at its end; the output is put together from both. A writer is a function on
    the buffer; [makeWriter] chooses one by the type of the value. *)

From stdpp Require Import base tactics list.
From Stdlib Require Import ZArith Lia.
From S2P Require Import Prelude Bytes GoReader RlpRaw.

Open Scope Z_scope.
Open Scope go_scope.

Import GoReader Rlp.

Module RlpEncode.

(** ** The buffer *)

(** A list header: its position in the string data and the size of the encoded content. *)
Record listhead := mkHead { offset : nat; hsize : Z }.

Record encBuffer := mkBuf { str : list Z; lheads : list listhead; lhsize : Z }.

Definition reset : encBuffer := mkBuf [] [] 0.

Definition size (buf : encBuffer) : Z := Z.of_nat (length (str buf)) + lhsize buf.

(** [head.encode]: the bytes that [puthead] writes to a buffer that must have room. *)
Definition encodeHead (h : listhead) : list Z := puthead 0xC0 0xF7 (u64 (hsize h)).

(** [copyTo]: the loop over the headers, with the positions in the output and the data. *)
Fixpoint copyLoop (s : list Z) (heads : list listhead) (dst : list Z) (pos strpos : nat) : go (list Z) :=
  match heads with
  | [] =>
      let! tl := sub s (Z.of_nat strpos) (Z.of_nat (length s)) in
      copyAt dst pos tl
  | h :: heads =>
      let! piece := sub s (Z.of_nat strpos) (Z.of_nat (offset h)) in
      let! dst := copyAt dst pos piece in
      let n := Nat.min (length piece) (length dst - pos) in
      let pos := (pos + n)%nat in
      let enc := encodeHead h in
      if decide (pos + length enc <= length dst)%nat then
        let! dst := copyAt dst pos enc in
        copyLoop s heads dst (pos + length enc) (strpos + n)
      else Panic
  end.

Definition copyTo (buf : encBuffer) (dst : list Z) : go (list Z) := copyLoop (str buf) (lheads buf) dst 0 0.

Definition makeBytes (buf : encBuffer) : go (list Z) := copyTo buf (make (Z.to_nat (size buf))).

(** [writeTo] a writer that does not fail: the pieces it writes. *)
Fixpoint writeLoop (s : list Z) (heads : list listhead) (strpos : nat) : go (list (list Z)) :=
  match heads with
  | [] =>
      if decide (strpos < length s)%nat then
        let! tl := sub s (Z.of_nat strpos) (Z.of_nat (length s)) in Ret [tl]
      else Ret []
  | h :: heads =>
      if decide (strpos < offset h)%nat then
        let! piece := sub s (Z.of_nat strpos) (Z.of_nat (offset h)) in
        let! more := writeLoop s heads (strpos + length piece) in
        Ret (piece :: encodeHead h :: more)
      else
        let! more := writeLoop s heads strpos in
        Ret (encodeHead h :: more)
  end.

Definition writeTo (buf : encBuffer) : go (list (list Z)) := writeLoop (str buf) (lheads buf) 0.

Definition Write (buf : encBuffer) (b : list Z) : encBuffer := mkBuf (str buf ++ b) (lheads buf) (lhsize buf).

Definition writeBool (buf : encBuffer) (b : bool) : encBuffer := Write buf [if b then 0x01 else 0x80].

Definition writeUint64 (buf : encBuffer) (i : Z) : encBuffer :=
  if i =? 0 then Write buf [0x80]
  else if i <? 128 then Write buf [u8 i]
  else
    let s := putint i in
    Write buf (u8 (0x80 + u8 (Z.of_nat (length s))) :: s).

Definition encodeStringHeader (buf : encBuffer) (n : Z) : encBuffer :=
  if n <? 56 then Write buf [u8 (0x80 + u8 n)]
  else
    let s := putint (u64 n) in
    Write buf (u8 (0xB7 + u8 (Z.of_nat (length s))) :: s).

Definition writeBytes (buf : encBuffer) (b : list Z) : encBuffer :=
  match b with
  | [x] => if x <=? 0x7F then Write buf [x] else Write (encodeStringHeader buf 1) b
  | _ => Write (encodeStringHeader buf (Z.of_nat (length b))) b
  end.

(** [big.Int.BitLen] and [big.Int.Bits]: the 64-bit words, least significant first. *)
Definition BitLen (i : Z) : Z := if decide (i = 0) then 0 else Z.log2 (Z.abs i) + 1.

Fixpoint wordsOf (fuel : nat) (i : Z) : list Z :=
  match fuel with
  | O => []
  | S fuel => if decide (i = 0) then [] else i mod 2 ^ 64 :: wordsOf fuel (i / 2 ^ 64)
  end.

Definition Bits (i : Z) : list Z := wordsOf (Z.to_nat (BitLen i)) (Z.abs i).

(** The words are written byte by byte from the end of the [length] bytes on, until the
    bytes are used up. *)
Definition writeBigInt (buf : encBuffer) (i : Z) : encBuffer :=
  let bitlen := BitLen i in
  if bitlen <=? 64 then writeUint64 buf (u64 (Z.abs i))
  else
    let n := Z.shiftr (Z.land (bitlen + 7) (-8)) 3 in
    Write (encodeStringHeader buf n) (reverse (take (Z.to_nat n) (Bits i ≫= le_encode 8))).

(** [list]: the size field keeps the size of the headers so far until the list ends. *)
Definition list_ (buf : encBuffer) : nat * encBuffer :=
  (length (lheads buf),
   mkBuf (str buf) (lheads buf ++ [mkHead (length (str buf)) (lhsize buf)]) (lhsize buf)).

Definition listEnd (buf : encBuffer) (index : nat) : go encBuffer :=
  match lheads buf !! index with
  | None => Panic
  | Some lh =>
      let n := size buf - Z.of_nat (offset lh) - hsize lh in
      Ret (mkBuf (str buf) (<[index := mkHead (offset lh) n]> (lheads buf))
             (lhsize buf + (if n <? 56 then 1 else 1 + intsize (u64 n))))
  end.

(** ** Writers *)

Definition writer : Type := encBuffer -> go (res encBuffer).

Definition emit (f : encBuffer -> encBuffer) : writer := fun buf => Ret (Ok (f buf)).

(** Writers one after the other, up to the first error. *)
Fixpoint sequence (ws : list writer) : writer := fun buf =>
  match ws with
  | [] => Ret (Ok buf)
  | w :: ws =>
      let! r := w buf in
      match r with Ok buf => sequence ws buf | Err e => Ret (Err e) end
  end.

Definition writeUint (i : Z) : writer := emit (fun buf => writeUint64 buf i).
Definition writeBoolValue (b : bool) : writer := emit (fun buf => writeBool buf b).
Definition writeByteSlice (b : list Z) : writer := emit (fun buf => writeBytes buf b).
Definition writeRawValue (b : list Z) : writer := emit (fun buf => Write buf b).

(** [makeByteArrayWriter], for arrays of every length. *)
Definition writeByteArray (b : list Z) : writer := emit (fun buf =>
  match b with
  | [] => Write buf [0x80]
  | [x] => if x <=? 0x7f then Write buf [x] else Write buf [0x81; x]
  | _ => Write (encodeStringHeader buf (Z.of_nat (length b))) b
  end).

(** [writeBigIntPtr]: [None] is the nil pointer. *)
Definition writeBigIntPtr (i : option Z) : writer := fun buf =>
  match i with
  | None => Ret (Ok (Write buf [0x80]))
  | Some i => if i <? 0 then Ret (Err ErrNegativeBigInt) else Ret (Ok (writeBigInt buf i))
  end.

(** The frame that [makeSliceWriter] and [makeStructWriter] put around the elements. *)
Definition writeList (ws : list writer) : writer := fun buf =>
  let '(lh, buf) := list_ buf in
  let! r := sequence ws buf in
  match r with
  | Ok buf => let! buf := listEnd buf lh in Ret (Ok buf)
  | Err e => Ret (Err e)
  end.

Definition writeSlice (ws : list writer) : writer :=
  match ws with
  | [] => emit (fun buf => Write buf [0xC0])
  | _ => writeList ws
  end.

Definition writeStruct (ws : list writer) : writer := writeList ws.

(** [makePtrWriter]: a nil pointer is the empty value of the kind. *)
Definition writePtr (nilKind : Kind) (w : option writer) : writer :=
  match w with
  | Some w => w
  | None => emit (fun buf => Write buf [if decide (nilKind = KString) then 0x80 else 0xC0])
  end.

(** The kinds of values that [makeWriter] tells apart, interfaces and types with an encoder of
    their own aside. *)
Inductive goValue :=
| VUint (i : Z)
| VBool (b : bool)
| VBytes (b : list Z)
| VArray (b : list Z)
| VBig (i : option Z)
| VRaw (b : list Z)
| VPtr (nilKind : Kind) (v : option goValue)
| VSlice (vs : list goValue)
| VStruct (vs : list goValue).

Fixpoint makeWriter (v : goValue) : writer :=
  match v with
  | VUint i => writeUint i
  | VBool b => writeBoolValue b
  | VBytes b => writeByteSlice b
  | VArray b => writeByteArray b
  | VBig i => writeBigIntPtr i
  | VRaw b => writeRawValue b
  | VPtr k v => writePtr k (match v with Some v => Some (makeWriter v) | None => None end)
  | VSlice vs => writeSlice (makeWriter <$> vs)
  | VStruct vs => writeStruct (makeWriter <$> vs)
  end.

Definition EncodeToBytes (w : writer) : go (res (list Z)) :=
  let! r := w reset in
  match r with
  | Ok buf => let! out := makeBytes buf in Ret (Ok out)
  | Err e => Ret (Err e)
  end.

(** ** Reading the output piecewise *)

(** [encReader]; [live] is false once the buffer was given back. *)
Record encReader := mkEncReader { live : bool; lhpos : nat; strpos : nat; piece : option (list Z) }.

Definition newEncReader : encReader := mkEncReader true 0 0 None.

Definition nextPiece (buf : encBuffer) (r : encReader) : go (option (list Z) * encReader) :=
  if negb (live r) then Ret (None, r)
  else
    match piece r with
    | Some p => Ret (Some p, r)
    | None =>
        match lheads buf !! lhpos r with
        | Some head =>
            if decide (strpos r < offset head)%nat then
              let! p := sub (str buf) (Z.of_nat (strpos r)) (Z.of_nat (offset head)) in
              Ret (Some p, mkEncReader true (lhpos r) (offset head) None)
            else Ret (Some (encodeHead head), mkEncReader true (S (lhpos r)) (strpos r) None)
        | None =>
            if decide (strpos r < length (str buf))%nat then
              let! p := sub (str buf) (Z.of_nat (strpos r)) (Z.of_nat (length (str buf))) in
              Ret (Some p, mkEncReader true (lhpos r) (length (str buf)) None)
            else Ret (None, r)
        end
    end.

(** The loop of [Read] into [n] bytes: what it copies, and whether it returns EOF. Each
    round takes one piece, of which there are at most two for each header and one more. *)
Fixpoint readPieces (fuel : nat) (buf : encBuffer) (n : nat) (r : encReader) : go (list Z * bool * encReader) :=
  match fuel with
  | O => Ret ([], false, r)
  | S fuel =>
      let! (p, r) := nextPiece buf r in
      match p with
      | None => Ret ([], true, mkEncReader false (lhpos r) (strpos r) None)
      | Some p =>
          if decide (n < length p)%nat then
            Ret (take n p, false, mkEncReader (live r) (lhpos r) (strpos r) (Some (drop n p)))
          else
            let! (more, eof, r) :=
              readPieces fuel buf (n - length p) (mkEncReader (live r) (lhpos r) (strpos r) None) in
            Ret (p ++ more, eof, r)
      end
  end.

Definition Read (buf : encBuffer) (n : nat) (r : encReader) : go (list Z * bool * encReader) :=
  readPieces (2 * length (lheads buf) + 3) buf n r.

(** Reading to the end with buffers of the given sizes. *)
Fixpoint readAll (buf : encBuffer) (sizes : list nat) (r : encReader) : go (list Z * bool) :=
  match sizes with
  | [] => Ret ([], false)
  | n :: sizes =>
      let! (bs, eof, r) := Read buf n r in
      if eof : bool then Ret (bs, true)
      else let! (more, fin) := readAll buf sizes r in Ret (bs ++ more, fin)
  end.

End RlpEncode.
