(* ===== verification/RlpEncodeProps.v ===== *)
(** * The RLP encoder writes the canonical encoding (RlpEncode.v)

    Each writer emits a sequence of segments, string data and list headers; the ways to take the
    output from the buffer all give the concatenation of the segments. *)

From stdpp Require Import base tactics list.
From Stdlib Require Import ZArith Lia.
From S2P Require Import Prelude Bytes GoReader RlpRaw RlpLemmas RlpEncode.

Open Scope Z_scope.
Open Scope go_scope.

Import GoReader Rlp RlpLemmas RlpEncode.

Module RlpEncodeLemmas.

(** ** Segments *)

Inductive seg := Raw (bs : list Z) | Head (n : nat).

Definition segBytes (s : seg) : list Z := match s with Raw bs => bs | Head n => header 0xC0 0xF7 n end.

Definition bytesOf (segs : list seg) : list Z := segs ≫= segBytes.

Definition strOf (segs : list seg) : list Z := segs ≫= fun s => match s with Raw bs => bs | Head _ => [] end.

Fixpoint headsOf (pos : nat) (segs : list seg) : list listhead :=
  match segs with
  | [] => []
  | Raw bs :: segs => headsOf (pos + length bs) segs
  | Head n :: segs => mkHead pos (Z.of_nat n) :: headsOf pos segs
  end.

Lemma bytesOf_app a b : bytesOf (a ++ b) = bytesOf a ++ bytesOf b.
Proof. apply bind_app. Qed.

Lemma strOf_app a b : strOf (a ++ b) = strOf a ++ strOf b.
Proof. apply bind_app. Qed.

Lemma headsOf_app pos a b : headsOf pos (a ++ b) = headsOf pos a ++ headsOf (pos + length (strOf a)) b.
Proof.
  revert pos. induction a as [|[bs|n] a IH]; intros pos; cbn [headsOf app strOf mbind list_bind].
  - by rewrite Nat.add_0_r.
  - rewrite IH. unfold strOf. cbn [mbind list_bind]. rewrite length_app. by rewrite Nat.add_assoc.
  - by rewrite IH.
Qed.

(** The bytes that headers add. *)
Definition headBytes (segs : list seg) : Z := Z.of_nat (length (bytesOf segs)) - Z.of_nat (length (strOf segs)).

(** Headers of encodable sizes. *)
Definition small (segs : list seg) : Prop := Z.of_nat (length (bytesOf segs)) < 2 ^ 63.

Lemma small_app a b : small (a ++ b) -> small a /\ small b.
Proof. unfold small. rewrite bytesOf_app, length_app. lia. Qed.

(** ** Putting the output together *)

Fixpoint render (strpos : nat) (heads : list listhead) (s : list Z) : list Z :=
  match heads with
  | [] => s
  | h :: heads =>
      take (offset h - strpos) s ++ encodeHead h ++ render (offset h) heads (drop (offset h - strpos) s)
  end.

Definition headsFit (segs : list seg) : Prop :=
  Forall (fun s => match s with Head n => Z.of_nat n < 2 ^ 64 | Raw _ => True end) segs.

Lemma encodeHead_header pos n : Z.of_nat n < 2 ^ 64 -> encodeHead (mkHead pos (Z.of_nat n)) = header 0xC0 0xF7 n.
Proof.
  intros Hn. unfold encodeHead. cbn [hsize]. unfold u64. rewrite Z.mod_small by lia.
  apply puthead_header; lia.
Qed.

Lemma render_segs segs pos pre :
  headsFit segs -> render pos (headsOf (pos + length pre) segs) (pre ++ strOf segs) = pre ++ bytesOf segs.
Proof.
  intros Hf. revert pos pre. induction Hf as [|s segs Hs Hf IH]; intros pos pre; [done|].
  destruct s as [bs|n]; cbn [headsOf strOf bytesOf mbind list_bind segBytes].
  - fold (strOf segs). fold (bytesOf segs). specialize (IH pos (pre ++ bs)).
    by rewrite length_app, Nat.add_assoc, <- !app_assoc in IH.
  - fold (strOf segs). fold (bytesOf segs). cbn [render offset app].
    replace (pos + length pre - pos)%nat with (length pre) by lia.
    rewrite take_app_length, drop_app_length, encodeHead_header by done.
    specialize (IH (pos + length pre)%nat []). cbn [length app] in IH. rewrite Nat.add_0_r in IH. by rewrite IH.
Qed.

(** Offsets that grow and stay within the data. *)
Fixpoint ordered (pos : nat) (heads : list listhead) (n : nat) : Prop :=
  match heads with
  | [] => (pos <= n)%nat
  | h :: heads => (pos <= offset h)%nat /\ ordered (offset h) heads n
  end.

Lemma ordered_le pos heads n : ordered pos heads n -> (pos <= n)%nat.
Proof. revert pos. induction heads as [|h heads IH]; intros pos; cbn [ordered]; [done|]. intros [? ?%IH]. lia. Qed.

Lemma ordered_mono pos pos' heads n : (pos' <= pos)%nat -> ordered pos heads n -> ordered pos' heads n.
Proof. destruct heads as [|h heads]; cbn [ordered]; [lia|]. intros ? [? ?]. split; [lia|done]. Qed.

Lemma headsOf_ordered segs pos : ordered pos (headsOf pos segs) (pos + length (strOf segs)).
Proof.
  revert pos. induction segs as [|[bs|n] segs IH]; intros pos; cbn [headsOf ordered strOf mbind list_bind].
  - cbn. lia.
  - fold (strOf segs). rewrite length_app. specialize (IH (pos + length bs)%nat).
    replace (pos + (length bs + length (strOf segs)))%nat with (pos + length bs + length (strOf segs))%nat by lia.
    eapply ordered_mono; [|exact IH]. lia.
  - fold (strOf segs). cbn [app offset]. split; [done|apply IH].
Qed.

Lemma sub_from (s : list Z) lo hi :
  (lo <= hi <= length s)%nat -> sub s (Z.of_nat lo) (Z.of_nat hi) = Ret (take (hi - lo) (drop lo s)).
Proof.
  intros H. unfold sub. rewrite !(proj2 (Z.leb_le _ _)) by lia. cbn [andb].
  rewrite Nat2Z.id. by replace (Z.to_nat (Z.of_nat hi - Z.of_nat lo)) with (hi - lo)%nat by lia.
Qed.

(** Copying into the middle of a buffer that has room. *)
Lemma copyAt_room (done_ src rest : list Z) n :
  length done_ = n -> (length src <= length rest)%nat ->
  copyAt (done_ ++ rest) n src = Ret (done_ ++ src ++ drop (length src) rest).
Proof.
  intros <- Hl. unfold copyAt. rewrite length_app, decide_True by lia. f_equal.
  rewrite take_app_length. f_equal.
  rewrite take_ge by lia. f_equal. rewrite drop_app_ge by lia. f_equal. lia.
Qed.

Lemma copyLoop_render s heads done_ rest pos strpos :
  length done_ = pos -> ordered strpos heads (length s) ->
  length rest = length (render strpos heads (drop strpos s)) ->
  copyLoop s heads (done_ ++ rest) pos strpos = Ret (done_ ++ render strpos heads (drop strpos s)).
Proof.
  revert done_ rest pos strpos. induction heads as [|h heads IH]; intros done_ rest pos strpos Hd Ho Hr;
    cbn [copyLoop ordered render] in *.
  - rewrite sub_from by lia. rewrite take_ge by (rewrite length_drop; lia).
    rewrite copyAt_room by (done || lia). rewrite (drop_ge rest) by lia. by rewrite app_nil_r.
  - destruct Ho as [Ho1 Ho2]. pose proof (ordered_le _ _ _ Ho2) as Hle. rewrite sub_from by lia.
    set (p := take (offset h - strpos) (drop strpos s)) in *.
    assert (length p = offset h - strpos)%nat as Hp by (unfold p; rewrite length_take, length_drop; lia).
    rewrite drop_drop in *. replace (strpos + (offset h - strpos))%nat with (offset h) in * by lia.
    rewrite !length_app in Hr. rewrite copyAt_room by (done || lia).
    assert (Nat.min (length p) (length (done_ ++ p ++ drop (length p) rest) - pos) = length p) as ->
      by (rewrite !length_app; lia).
    rewrite decide_True by (rewrite !length_app, length_drop; lia).
    rewrite app_assoc, copyAt_room by (rewrite ?length_app, ?length_drop; lia).
    rewrite app_assoc. replace (strpos + length p)%nat with (offset h) by lia.
    rewrite IH; [by rewrite <- !app_assoc|rewrite !length_app; lia|done|rewrite !length_drop; lia].
Qed.

Lemma makeBytes_segs segs :
  headsFit segs ->
  makeBytes (mkBuf (strOf segs) (headsOf 0 segs) (headBytes segs)) = Ret (bytesOf segs).
Proof.
  intros Hf. unfold makeBytes, copyTo, size. cbn [str lheads lhsize].
  pose proof (render_segs segs 0 [] Hf) as Hr. cbn [length app Nat.add] in Hr.
  assert (Z.to_nat (Z.of_nat (length (strOf segs)) + headBytes segs) = length (bytesOf segs)) as -> by (unfold headBytes; lia).
  rewrite <- (app_nil_l (make _)), copyLoop_render; [by rewrite drop_0, Hr|done|apply (headsOf_ordered segs 0)|].
  by rewrite drop_0, Hr, length_make.
Qed.

(** ** What writers emit *)

Definition extend (buf : encBuffer) (segs : list seg) : encBuffer :=
  mkBuf (str buf ++ strOf segs) (lheads buf ++ headsOf (length (str buf)) segs) (lhsize buf + headBytes segs).

Lemma extend_nil buf : extend buf [] = buf.
Proof. destruct buf. unfold extend, headBytes. cbn. rewrite !app_nil_r. f_equal. lia. Qed.

Lemma extend_app buf a b : extend (extend buf a) b = extend buf (a ++ b).
Proof.
  unfold extend, headBytes. cbn [str lheads lhsize]. rewrite bytesOf_app, strOf_app, headsOf_app, !app_assoc, !length_app.
  f_equal. lia.
Qed.

Lemma Write_extend buf bs : Write buf bs = extend buf [Raw bs].
Proof.
  unfold Write, extend, headBytes, strOf, bytesOf. cbn [mbind list_bind segBytes headsOf].
  rewrite !app_nil_r. f_equal. lia.
Qed.

Definition emits (w : writer) (segs : list seg) : Prop := forall buf, w buf = Ret (Ok (extend buf segs)).

Lemma emits_sequence ws segss : Forall2 emits ws segss -> emits (sequence ws) (concat segss).
Proof.
  induction 1 as [|w segs ws segss Hw _ IH]; intros buf; cbn [sequence concat]; [by rewrite extend_nil|].
  rewrite Hw, IH. by rewrite extend_app.
Qed.

(** A list header that is filled in at the end of its list. *)
Lemma emits_list ws segss :
  Forall2 emits ws segss -> Z.of_nat (length (bytesOf (concat segss))) < 2 ^ 64 ->
  emits (writeList ws) (Head (length (bytesOf (concat segss))) :: concat segss).
Proof.
  intros Hws Hl buf. unfold writeList, list_. rewrite (emits_sequence ws segss Hws). set (segs := concat segss) in *.
  unfold listEnd, extend. cbn [str lheads lhsize]. rewrite <- app_assoc. cbn [app].
  rewrite list_lookup_middle by done. cbn [offset hsize]. unfold size. cbn [str lhsize].
  assert (Z.of_nat (length (str buf ++ strOf segs)) + (lhsize buf + headBytes segs) - Z.of_nat (length (str buf)) - lhsize buf
    = Z.of_nat (length (bytesOf segs))) as -> by (unfold headBytes; rewrite length_app; lia).
  rewrite insert_app_r_alt by lia. rewrite Nat.sub_diag. cbn [insert list_insert].
  do 2 f_equal. unfold headBytes, bytesOf, strOf. cbn [mbind list_bind segBytes headsOf app].
  fold (bytesOf segs). fold (strOf segs). f_equal.
  assert (Z.of_nat (length (header 0xC0 0xF7 (length (bytesOf segs)))) =
    (if Z.of_nat (length (bytesOf segs)) <? 56 then 1 else 1 + intsize (u64 (Z.of_nat (length (bytesOf segs)))))) as Hh.
  { unfold u64. rewrite Z.mod_small by lia. symmetry. by apply headsize_header. }
  rewrite length_app. lia.
Qed.

(** A writer that writes the bytes [bs]. *)
Definition encodes (w : writer) (bs : list Z) : Prop :=
  exists segs, emits w segs /\ headsFit segs /\ bytesOf segs = bs.

Lemma encodes_EncodeToBytes w bs : encodes w bs -> EncodeToBytes w = Ret (Ok bs).
Proof.
  intros (segs & Hw & Hf & <-). unfold EncodeToBytes. rewrite Hw. unfold extend, reset. cbn [str lheads lhsize app length].
  rewrite Z.add_0_l. by rewrite makeBytes_segs.
Qed.

Lemma encodes_raw f bs : (forall buf, f buf = Write buf bs) -> encodes (emit f) bs.
Proof.
  intros Hf. exists [Raw bs]. split_and!.
  - intros buf. unfold emit. by rewrite Hf, Write_extend.
  - by repeat constructor.
  - unfold bytesOf. cbn. by rewrite app_nil_r.
Qed.

Lemma encodes_list ws bss :
  Forall2 encodes ws bss -> Z.of_nat (length (concat bss)) < 2 ^ 64 ->
  encodes (writeList ws) (encList (concat bss)).
Proof.
  intros Hws Hl. assert (exists segss, Forall2 emits ws segss /\ Forall headsFit segss /\ bytesOf <$> segss = bss)
    as (segss & Hs & Hf & <-).
  { clear Hl. induction Hws as [|w bs ws bss (segs & Hw & Hf & <-) _ (segss & IH1 & IH2 & <-)].
    - exists []. by split_and!; constructor.
    - exists (segs :: segss). split_and!; [by constructor|by constructor|done]. }
  assert (concat (bytesOf <$> segss) = bytesOf (concat segss)) as E.
  { clear. induction segss as [|s segss IH]; [done|]. cbn [fmap list_fmap concat]. by rewrite IH, bytesOf_app. }
  rewrite E in *. exists (Head (length (bytesOf (concat segss))) :: concat segss). split_and!.
  - by apply emits_list.
  - constructor; [done|]. unfold headsFit in *. by apply Forall_concat.
  - done.
Qed.

Lemma encodes_slice ws bss :
  Forall2 encodes ws bss -> Z.of_nat (length (concat bss)) < 2 ^ 64 ->
  encodes (writeSlice ws) (encList (concat bss)).
Proof.
  intros Hws Hl. destruct Hws as [|w bs ws bss Hw Hws]; [by apply encodes_raw|].
  apply (encodes_list (w :: ws) (bs :: bss)); [by constructor|done].
Qed.

(** ** Strings and integers *)

Lemma Write_Write buf a b : Write (Write buf a) b = Write buf (a ++ b).
Proof. unfold Write. cbn [str lheads lhsize]. by rewrite app_assoc. Qed.

Lemma encodeStringHeader_Write buf n :
  Z.of_nat n < 2 ^ 64 -> encodeStringHeader buf (Z.of_nat n) = Write buf (header 0x80 0xB7 n).
Proof.
  intros Hn. rewrite <- puthead_header by lia. unfold encodeStringHeader, puthead, u64.
  rewrite Z.mod_small by lia. by destruct (_ <? 56).
Qed.

Lemma writeBytes_Write buf b : Z.of_nat (length b) < 2 ^ 64 -> writeBytes buf b = Write buf (encString b).
Proof.
  intros Hl. unfold writeBytes, encString.
  destruct b as [|x [|y b]]; [|destruct (Z.leb_spec x 0x7F), (Z.ltb_spec x 0x80); try lia; [done|]|].
  - by rewrite encodeStringHeader_Write, Write_Write.
  - change 1 with (Z.of_nat 1). by rewrite encodeStringHeader_Write, Write_Write.
  - by rewrite encodeStringHeader_Write, Write_Write.
Qed.

Lemma writeUint64_Write buf i : in_u64 i -> writeUint64 buf i = Write buf (encUint i).
Proof.
  intros Hi. unfold in_u64 in Hi. pose proof (AppendUint64_enc [] i Hi) as Ha. cbn [app] in Ha. rewrite <- Ha.
  unfold writeUint64, AppendUint64. destruct (i =? 0) eqn:E0; [done|]. apply Z.eqb_neq in E0.
  destruct (Z.ltb_spec i 128); [done|]. unfold putint.
  assert (0 < i < 2 ^ 64) as Hi' by lia. size_cases Hi'; clear Hlen; branch; reflexivity.
Qed.

Lemma le_encode_app a b z : le_encode (a + b) z = le_encode a z ++ le_encode b (z / 256 ^ Z.of_nat a).
Proof.
  revert z. induction a as [|a IH]; intros z; cbn [le_encode Nat.add app]; [by rewrite Z.div_1_r|].
  f_equal. rewrite IH, Z.div_div, Nat2Z.inj_succ, Z.pow_succ_r by lia. done.
Qed.

Lemma le_encode_mod a z : le_encode a (z mod 256 ^ Z.of_nat a) = le_encode a z.
Proof.
  pose proof (le_decode_encode a z) as Hd. pose proof (le_encode_decode (le_encode a z) (le_encode_bytes a z)) as He.
  by rewrite length_le_encode, Hd in He.
Qed.

Lemma le_encode_take n m z : (n <= m)%nat -> take n (le_encode m z) = le_encode n z.
Proof.
  intros Hn. replace m with (n + (m - n))%nat by lia. rewrite le_encode_app.
  by rewrite take_app_length' by (by rewrite length_le_encode).
Qed.

(** The words of a number are its bytes, eight at a time. *)
Lemma words_bytes fuel i :
  0 <= i < 2 ^ (64 * Z.of_nat fuel) ->
  exists m, (wordsOf fuel i ≫= le_encode 8) = le_encode (8 * m) i /\ i < 256 ^ Z.of_nat (8 * m).
Proof.
  revert i. induction fuel as [|fuel IH]; intros i Hi; cbn [wordsOf].
  { exists 0%nat. cbn in *. split; [done|lia]. }
  case_decide as H0; [exists 0%nat; subst; done|].
  destruct (IH (i / 2 ^ 64)) as (m & Hm & Hlt).
  { split; [apply Z.div_pos; lia|]. apply Z.div_lt_upper_bound; [lia|]. rewrite <- Z.pow_add_r by lia.
    replace (64 + 64 * Z.of_nat fuel) with (64 * Z.of_nat (S fuel)) by lia. lia. }
  exists (S m). cbn [mbind list_bind]. rewrite Hm. replace (8 * S m)%nat with (8 + 8 * m)%nat by lia.
  rewrite le_encode_app, Nat2Z.inj_add, Z.pow_add_r by lia. change (256 ^ Z.of_nat 8) with (2 ^ 64). split.
  - f_equal. apply (le_encode_mod 8).
  - pose proof (Z.div_mod i (2 ^ 64)). pose proof (Z.mod_pos_bound i (2 ^ 64)). nia.
Qed.

Lemma BitLen_bytelen i : 0 < i -> Z.shiftr (Z.land (BitLen i + 7) (-8)) 3 = Z.of_nat (bytelen i).
Proof.
  intros Hi. unfold BitLen, bytelen. rewrite !decide_False, Z.abs_eq by lia.
  pose proof (Z.log2_nonneg i). rewrite Z.shiftr_land. change (Z.shiftr (-8) 3) with (-1). rewrite Z.land_m1_r.
  rewrite Z.shiftr_div_pow2 by lia. rewrite Z2Nat.id by (pose proof (Z.div_pos (Z.log2 i) 8); lia).
  replace (Z.log2 i + 1 + 7) with (Z.log2 i + 1 * 8) by lia. change (2 ^ 3) with 8. by rewrite Z.div_add by lia.
Qed.

Lemma writeBigInt_Write buf i :
  0 <= i -> Z.of_nat (bytelen i) < 2 ^ 64 -> writeBigInt buf i = Write buf (encUint i).
Proof.
  intros Hi Hl. unfold writeBigInt. destruct (Z.leb_spec (BitLen i) 64) as [Hb|Hb].
  - assert (i < 2 ^ 64).
    { unfold BitLen in Hb. case_decide; [subst; done|]. rewrite Z.abs_eq in Hb by done. apply Z.log2_lt_pow2; lia. }
    unfold u64. rewrite Z.abs_eq, Z.mod_small by lia. by apply writeUint64_Write.
  - assert (0 < i) as Hp by (destruct (decide (i = 0)) as [->|]; [done|lia]). rewrite BitLen_bytelen by done.
    unfold BitLen in Hb. rewrite decide_False, Z.abs_eq in Hb by lia.
    rewrite encodeStringHeader_Write by done. rewrite Nat2Z.id, Write_Write. f_equal.
    assert (exists m, Bits i ≫= le_encode 8 = le_encode (8 * m) i /\ i < 256 ^ Z.of_nat (8 * m)) as (m & -> & Hm).
    { unfold Bits, BitLen. rewrite decide_False, Z.abs_eq by lia. apply words_bytes. split; [done|].
      eapply Z.lt_le_trans; [apply (Z.log2_spec i Hp)|]. apply Z.pow_le_mono_r; lia. }
    rewrite le_encode_take by (by apply bytelen_le). fold (be_encode (bytelen i) i). fold (minimal i). unfold encUint, encString.
    assert (8 < bytelen i)%nat as H8.
    { apply Nat.nle_gt. intros Hle. assert (i < 2 ^ 64) as Hlt by (apply (bytelen_lt i 8); lia).
      apply Z.log2_lt_pow2 in Hlt; lia. }
    rewrite <- (length_minimal i) in *. destruct (minimal i) as [|x [|y l]]; cbn [length] in *; [lia|lia|done].
Qed.

Lemma encodes_big i :
  0 <= i -> Z.of_nat (bytelen i) < 2 ^ 64 -> encodes (writeBigIntPtr (Some i)) (encUint i).
Proof.
  intros Hi Hl. exists [Raw (encUint i)]. split_and!.
  - intros buf. unfold writeBigIntPtr. rewrite (proj2 (Z.ltb_ge _ _)) by done.
    by rewrite writeBigInt_Write, Write_extend.
  - by repeat constructor.
  - unfold bytesOf. cbn. by rewrite app_nil_r.
Qed.

Lemma encodes_bytes b : Z.of_nat (length b) < 2 ^ 64 -> encodes (writeByteSlice b) (encString b).
Proof. intros Hl. apply encodes_raw. intros buf. by apply writeBytes_Write. Qed.

Lemma encodes_array b : Z.of_nat (length b) < 2 ^ 64 -> encodes (writeByteArray b) (encString b).
Proof.
  intros Hl. apply encodes_raw. intros buf. unfold encString.
  destruct b as [|x [|y b]]; [done|destruct (Z.leb_spec x 0x7f), (Z.ltb_spec x 0x80); try lia; done|].
  by rewrite encodeStringHeader_Write, Write_Write.
Qed.

Lemma encodes_uint i : in_u64 i -> encodes (writeUint i) (encUint i).
Proof. intros Hi. apply encodes_raw. intros buf. by apply writeUint64_Write. Qed.

Lemma encodes_bool b : encodes (writeBoolValue b) (encUint (if b then 1 else 0)).
Proof. apply encodes_raw. intros buf. by destruct b. Qed.

(** ** The other ways to the output *)

Lemma writeLoop_render s heads strpos :
  ordered strpos heads (length s) ->
  exists pieces, writeLoop s heads strpos = Ret pieces /\ concat pieces = render strpos heads (drop strpos s).
Proof.
  revert strpos. induction heads as [|h heads IH]; intros strpos Ho; cbn [writeLoop ordered render] in *.
  - case_decide.
    + rewrite sub_from, take_ge by (rewrite ?length_drop; lia). eexists. split; [done|]. cbn. apply app_nil_r.
    + exists []. split; [done|]. by rewrite drop_ge by lia.
  - destruct Ho as [Ho1 Ho2]. pose proof (ordered_le _ _ _ Ho2) as Hle. rewrite drop_drop.
    replace (strpos + (offset h - strpos))%nat with (offset h) by lia. case_decide.
    + rewrite sub_from by lia. rewrite length_take, length_drop.
      replace (strpos + (offset h - strpos) `min` (length s - strpos))%nat with (offset h) by lia.
      destruct (IH (offset h) Ho2) as (pieces & -> & <-). eexists. by split.
    + assert (offset h = strpos) as E by lia. rewrite E in *.
      destruct (IH strpos Ho2) as (pieces & -> & <-). eexists. split; [done|]. by rewrite Nat.sub_diag, take_0.
Qed.

(** What a reader has still to deliver, and how many pieces that is. *)
Definition unread (buf : encBuffer) (r : encReader) : list Z :=
  if live r then
    default [] (piece r) ++ render (strpos r) (drop (lhpos r) (lheads buf)) (drop (strpos r) (str buf))
  else [].

Definition readerOk (buf : encBuffer) (r : encReader) : Prop :=
  ordered (strpos r) (drop (lhpos r) (lheads buf)) (length (str buf)) /\ piece r <> Some [].

Fixpoint pending (heads : list listhead) (pos n : nat) : nat :=
  match heads with
  | [] => if decide (pos < n)%nat then 1 else 0
  | h :: heads => (if decide (pos < offset h)%nat then 2 else 1) + pending heads (offset h) n
  end.

Definition pieces (buf : encBuffer) (r : encReader) : nat :=
  (if piece r then 1 else 0) + pending (drop (lhpos r) (lheads buf)) (strpos r) (length (str buf)).

Lemma pending_le heads pos n : (pending heads pos n <= 2 * length heads + 1)%nat.
Proof.
  revert pos. induction heads as [|h heads IH]; intros pos; cbn [pending length]; [case_decide; lia|].
  specialize (IH (offset h)). case_decide; lia.
Qed.

Lemma puthead_nonempty s l n : puthead s l n <> [].
Proof. unfold puthead. by destruct (_ <? _). Qed.

Lemma nextPiece_spec buf r :
  readerOk buf r -> live r = true ->
  exists p r', nextPiece buf r = Ret (p, r') /\ live r' = true /\
    match p with
    | None => unread buf r = []
    | Some p => p <> [] /\ exists r1, r1 = mkEncReader true (lhpos r') (strpos r') None /\
        unread buf r = p ++ unread buf r1 /\ readerOk buf r1 /\ (pieces buf r1 < pieces buf r)%nat
    end.
Proof.
  intros [Ho Hp] Hl. unfold nextPiece. rewrite Hl. cbn [negb]. unfold unread at 1 2. rewrite Hl.
  destruct (piece r) as [p|] eqn:Hpc.
  { exists (Some p), r. split_and!; [done|done|congruence|]. eexists. split; [done|]. unfold unread, readerOk, pieces.
    cbn [live piece lhpos strpos default]. rewrite Hpc. split_and!; [done|done|done|lia]. }
  cbn [default app]. unfold pieces at 2. rewrite Hpc. destruct (lheads buf !! lhpos r) as [h|] eqn:Hh.
  - rewrite (drop_S _ _ _ Hh) in Ho |- *. cbn [ordered render pending] in *.
    destruct Ho as [Ho1 Ho2]. pose proof (ordered_le _ _ _ Ho2) as Hle. rewrite drop_drop.
    replace (strpos r + (offset h - strpos r))%nat with (offset h) by lia. case_decide.
    + rewrite sub_from by lia. do 2 eexists. split; [done|]. split; [done|]. split.
      { intros E. apply (f_equal length) in E. rewrite length_take, length_drop in E. cbn in E. lia. }
      eexists. split; [done|]. unfold unread, readerOk, pieces. cbn [live piece lhpos strpos default app].
      rewrite (drop_S _ _ _ Hh). cbn [render ordered pending]. rewrite Nat.sub_diag, take_0, drop_0.
      split_and!; [done|done|done|done|repeat case_decide; lia].
    + assert (offset h = strpos r) as E by lia. rewrite E, Nat.sub_diag, take_0 in *. cbn [app].
      do 2 eexists. split; [done|]. split; [done|]. split; [apply puthead_nonempty|].
      eexists. split; [done|]. unfold unread, readerOk, pieces. cbn [live piece lhpos strpos default app].
      split_and!; [done|done|done|repeat case_decide; lia].
  - apply lookup_ge_None in Hh. rewrite (drop_ge (lheads buf)) in Ho |- * by lia. cbn [ordered render pending] in *. case_decide.
    + rewrite sub_from, take_ge by (rewrite ?length_drop; lia). do 2 eexists. split; [done|]. split; [done|]. split.
      { intros E. apply (f_equal length) in E. rewrite length_drop in E. cbn in E. lia. }
      eexists. split; [done|]. unfold unread, readerOk, pieces. cbn [live piece lhpos strpos default app].
      rewrite (drop_ge (lheads buf)) by lia. cbn [render ordered pending].
      rewrite (drop_ge (str buf) (length (str buf))), app_nil_r by lia. split_and!; [done|lia|done|repeat case_decide; lia].
    + do 2 eexists. split; [done|]. split; [done|]. unfold unread. rewrite Hl, Hpc. cbn [default app]. by rewrite (drop_ge (lheads buf)), (drop_ge (str buf)) by lia.
Qed.

(** A read of [n] bytes delivers the next [n], or all that is left together with EOF. *)
Lemma readPieces_spec fuel buf n r :
  readerOk buf r -> live r = true -> (pieces buf r < fuel)%nat ->
  exists r', readPieces fuel buf n r =
      Ret (take n (unread buf r), bool_decide (length (unread buf r) <= n)%nat, r') /\
    ((n < length (unread buf r))%nat -> readerOk buf r' /\ live r' = true /\ unread buf r' = drop n (unread buf r)).
Proof.
  revert n r. induction fuel as [|fuel IH]; intros n r Hok Hl Hf; [lia|]. cbn [readPieces].
  destruct (nextPiece_spec buf r Hok Hl) as (p & r1 & -> & Hl1 & Hp). destruct p as [p|].
  - destruct Hp as (Hne & r2 & -> & Hu & Hok2 & Hlt). rewrite Hu, length_app. case_decide as Hd.
    + rewrite Hl1. eexists. split; [rewrite bool_decide_eq_false_2 by lia; by rewrite take_app_le by lia|]. intros _.
      unfold unread, readerOk in *. cbn [live piece lhpos strpos default app] in *. split_and!; [apply Hok2| |done|].
      * intros [= E]. apply (f_equal length) in E. rewrite length_drop in E. cbn in E. lia.
      * by rewrite drop_app_le by lia.
    + rewrite Hl1. destruct (IH (n - length p)%nat _ Hok2 eq_refl ltac:(lia)) as (r' & -> & Hrest).
      exists r'. split.
      * rewrite take_app_ge by lia. set (u := unread buf _).
        by rewrite (bool_decide_ext (length u <= n - length p)%nat (length p + length u <= n)%nat) by lia.
      * intros Hn. rewrite drop_app_ge by lia. apply Hrest. lia.
  - rewrite Hp. eexists. split; [rewrite take_nil, bool_decide_eq_true_2 by (cbn; lia); done|]. cbn [length]. lia.
Qed.

Lemma Read_spec buf n r :
  readerOk buf r -> live r = true ->
  exists r', Read buf n r = Ret (take n (unread buf r), bool_decide (length (unread buf r) <= n)%nat, r') /\
    ((n < length (unread buf r))%nat -> readerOk buf r' /\ live r' = true /\ unread buf r' = drop n (unread buf r)).
Proof.
  intros Hok Hl. apply readPieces_spec; [done|done|]. unfold pieces.
  pose proof (pending_le (drop (lhpos r) (lheads buf)) (strpos r) (length (str buf))) as Hp.
  rewrite length_drop in Hp. destruct (piece r); lia.
Qed.

Lemma readAll_spec buf sizes r :
  readerOk buf r -> live r = true -> sizes <> [] -> (length (unread buf r) <= sum_list sizes)%nat ->
  readAll buf sizes r = Ret (unread buf r, true).
Proof.
  revert r. induction sizes as [|n sizes IH]; intros r Hok Hl Hne Hs; [done|]. cbn [readAll sum_list] in *.
  destruct (Read_spec buf n r Hok Hl) as (r' & -> & Hrest). case_bool_decide as Hd; [by rewrite take_ge|].
  destruct (Hrest ltac:(lia)) as (Hok' & Hl' & Hu). destruct sizes as [|m sizes]; [cbn in Hs; lia|].
  rewrite IH; [|done|done|done|rewrite Hu, length_drop; cbn in *; lia]. rewrite Hu. by rewrite take_drop.
Qed.

(** The three ways to the bytes of a buffer agree. *)
Lemma outputs_agree segs sizes :
  headsFit segs -> sizes <> [] -> (length (bytesOf segs) <= sum_list sizes)%nat ->
  let buf := mkBuf (strOf segs) (headsOf 0 segs) (headBytes segs) in
  makeBytes buf = Ret (bytesOf segs) /\
  (exists ps, writeTo buf = Ret ps /\ concat ps = bytesOf segs) /\
  readAll buf sizes newEncReader = Ret (bytesOf segs, true).
Proof.
  intros Hf Hne Hs buf. pose proof (render_segs segs 0 [] Hf) as Hr. cbn [length app Nat.add] in Hr.
  pose proof (headsOf_ordered segs 0) as Ho. cbn [Nat.add] in Ho. split_and!.
  - by apply makeBytes_segs.
  - destruct (writeLoop_render (strOf segs) (headsOf 0 segs) 0 Ho) as (ps & Hw & Hc).
    exists ps. split; [done|]. by rewrite Hc, drop_0, Hr.
  - assert (unread buf newEncReader = bytesOf segs) as Hu
      by (unfold unread, buf; cbn [live newEncReader piece default app lhpos strpos lheads str]; by rewrite !drop_0, Hr).
    rewrite <- Hu. apply readAll_spec; [|done|done|by rewrite Hu]. split; [|done].
    unfold buf. cbn [lheads str newEncReader lhpos strpos]. by rewrite drop_0.
Qed.

(** ** Values *)

(** The encoding that the package documentation defines. *)
Fixpoint encOf (v : goValue) : list Z :=
  match v with
  | VUint i => encUint i
  | VBool b => encUint (if b then 1 else 0)
  | VBytes b | VArray b => encString b
  | VBig i => encUint (default 0 i)
  | VRaw b => b
  | VPtr k (Some v) => encOf v
  | VPtr k None => if decide (k = KString) then encString [] else encList []
  | VSlice vs | VStruct vs => encList (concat (encOf <$> vs))
  end.

(** Whether a negative big integer occurs, and whether the unsigned integers are in range. *)
Fixpoint negative (v : goValue) : bool :=
  match v with
  | VBig (Some i) => i <? 0
  | VPtr _ (Some v) => negative v
  | VSlice vs | VStruct vs => existsb negative vs
  | _ => false
  end.

Fixpoint inRange (v : goValue) : bool :=
  match v with
  | VUint i => (0 <=? i) && (i <? 2 ^ 64)
  | VPtr _ (Some v) => inRange v
  | VSlice vs | VStruct vs => forallb inRange vs
  | _ => true
  end.

Section GoValueInd.

Variable P : goValue -> Prop.
Hypotheses (HU : forall i, P (VUint i)) (HB : forall b, P (VBool b)) (HY : forall b, P (VBytes b))
  (HA : forall b, P (VArray b)) (HI : forall i, P (VBig i)) (HR : forall b, P (VRaw b))
  (HN : forall k, P (VPtr k None)) (HP : forall k v, P v -> P (VPtr k (Some v)))
  (HL : forall vs, Forall P vs -> P (VSlice vs)) (HS : forall vs, Forall P vs -> P (VStruct vs)).

Fixpoint goValue_nested (v : goValue) : P v :=
  let fix all (vs : list goValue) : Forall P vs :=
    match vs with
    | [] => @List.Forall_nil _ P
    | v :: vs => @List.Forall_cons _ P v vs (goValue_nested v) (all vs)
    end in
  match v with
  | VUint i => HU i | VBool b => HB b | VBytes b => HY b | VArray b => HA b | VBig i => HI i | VRaw b => HR b
  | VPtr k None => HN k
  | VPtr k (Some v) => HP k v (goValue_nested v)
  | VSlice vs => HL vs (all vs)
  | VStruct vs => HS vs (all vs)
  end.

End GoValueInd.

Definition writesAs (v : goValue) : Prop :=
  inRange v = true -> Z.of_nat (length (encOf v)) < 2 ^ 64 ->
  if negative v then forall buf, makeWriter v buf = Ret (Err ErrNegativeBigInt)
  else encodes (makeWriter v) (encOf v).

Lemma encString_length b : (length b <= length (encString b))%nat.
Proof. unfold encString. destruct b as [|x [|y b]]; [cbn; lia|by destruct (_ <? _); cbn; lia|rewrite length_app; lia]. Qed.

Lemma encList_length b : (length b <= length (encList b))%nat.
Proof. unfold encList. rewrite length_app. lia. Qed.

Lemma writesAs_list vs :
  Forall writesAs vs -> forallb inRange vs = true -> Z.of_nat (length (concat (encOf <$> vs))) < 2 ^ 64 ->
  if existsb negative vs then forall buf, sequence (makeWriter <$> vs) buf = Ret (Err ErrNegativeBigInt)
  else Forall2 encodes (makeWriter <$> vs) (encOf <$> vs).
Proof.
  induction 1 as [|v vs Hv _ IH]; [constructor|]. cbn [forallb existsb fmap list_fmap concat].
  rewrite andb_true_iff, length_app. intros [Hr Hrs] Hl. specialize (Hv Hr ltac:(lia)). specialize (IH Hrs ltac:(lia)).
  destruct (negative v); cbn [orb].
  - intros buf. cbn [sequence]. by rewrite Hv.
  - destruct (existsb negative vs); [|by constructor]. intros buf. cbn [sequence].
    destruct Hv as (segs & Hw & _). rewrite Hw. apply IH.
Qed.

(** The frame around elements of which one is negative. *)
Lemma writeList_fails ws :
  (forall buf, sequence ws buf = Ret (Err ErrNegativeBigInt)) -> forall buf, writeList ws buf = Ret (Err ErrNegativeBigInt).
Proof. intros Hw buf. unfold writeList, list_. by rewrite Hw. Qed.

Lemma makeWriter_spec v : writesAs v.
Proof.
  induction v as [i|b|b|b|i|b|k|k v IH|vs IH|vs IH] using goValue_nested; intros Hr Hl; cbn [negative encOf makeWriter] in *.
  - apply encodes_uint. apply andb_prop in Hr as [H1%Z.leb_le H2%Z.ltb_lt]. by split.
  - apply encodes_bool.
  - apply encodes_bytes. pose proof (encString_length b). lia.
  - apply encodes_array. pose proof (encString_length b). lia.
  - destruct i as [i|]; [|by apply (encodes_raw (fun buf => Write buf [0x80]))]. cbn [default] in Hl.
    destruct (Z.ltb_spec i 0) as [Hn|Hn].
    + intros buf. unfold writeBigIntPtr. by rewrite (proj2 (Z.ltb_lt _ _)).
    + apply (encodes_big i); [done|]. pose proof (encString_length (minimal i)) as He. rewrite length_minimal in He.
      assert (Z.of_nat (length (encString (minimal i))) < 2 ^ 64) as Hl' by exact Hl. cbn. lia.
  - by apply encodes_raw.
  - cbn [writePtr]. apply encodes_raw. intros buf. by case_decide.
  - by apply IH.
  - pose proof (encList_length (concat (encOf <$> vs))). pose proof (writesAs_list vs IH Hr ltac:(lia)) as Hs.
    destruct (existsb negative vs) eqn:Hneg; [|apply encodes_slice; [done|lia]].
    intros buf. destruct vs as [|v vs]; [done|]. by apply (writeList_fails (makeWriter <$> v :: vs)).
  - pose proof (encList_length (concat (encOf <$> vs))). pose proof (writesAs_list vs IH Hr ltac:(lia)) as Hs.
    destruct (existsb negative vs) eqn:Hneg; [by apply writeList_fails|apply encodes_list; [done|lia]].
Qed.

End RlpEncodeLemmas.

Import RlpEncodeLemmas.

(** C19: The encoder. A value without negative big integers is encoded as the documentation of
    the package defines it: although the buffer keeps list headers and data apart and fills in the
    sizes late, the bytes put together from it, the pieces written to a writer and the bytes
    read from [EncodeToReader] with buffers of any sizes are all that encoding, and nothing
    panics. A negative big integer anywhere in the value is reported as an error. *)
Theorem encoder_is_canonical v sizes :
  inRange v = true -> Z.of_nat (length (encOf v)) < 2 ^ 64 ->
  sizes <> [] -> (length (encOf v) <= sum_list sizes)%nat ->
  if negative v then EncodeToBytes (makeWriter v) = Ret (Err ErrNegativeBigInt)
  else EncodeToBytes (makeWriter v) = Ret (Ok (encOf v)) /\
    exists buf, makeWriter v reset = Ret (Ok buf) /\
      (exists ps, writeTo buf = Ret ps /\ concat ps = encOf v) /\
      readAll buf sizes newEncReader = Ret (encOf v, true).
Proof.
  intros Hr Hl Hne Hs. pose proof (makeWriter_spec v Hr Hl) as Hw. destruct (negative v).
  - unfold EncodeToBytes. by rewrite Hw.
  - split; [by apply encodes_EncodeToBytes|]. destruct Hw as (segs & Hw & Hf & Hb).
    exists (mkBuf (strOf segs) (headsOf 0 segs) (headBytes segs)). split; [by rewrite Hw|].
    rewrite <- Hb in Hs |- *. by apply outputs_agree.
Qed.

Lemma encoder_is_canonical_witness :
  EncodeToBytes (makeWriter (VStruct [VUint 1024; VSlice [VBytes [1]; VBytes [200; 3]]; VBig (Some (2 ^ 70))])) =
    Ret (Ok [0xD2; 0x82; 4; 0; 0xC4; 1; 0x82; 200; 3; 0x89; 64; 0; 0; 0; 0; 0; 0; 0; 0]).
Proof.
  apply (encoder_is_canonical (VStruct [VUint 1024; VSlice [VBytes [1]; VBytes [200; 3]]; VBig (Some (2 ^ 70))]) [7; 20]%nat).
  - vm_compute. reflexivity.
  - vm_compute. reflexivity.
  - discriminate.
  - apply Nat.leb_le. vm_compute. reflexivity.
Defined.
