(* ===== verification/RlpDecode.v ===== *)
(** * The RLP decoder (src/rlp/decode.go)

    The stream over a byte reader with its stack of list limits, and the decoders that
    [makeDecoder] chooses by type. An operation returns a value or an error together with the stream, which
    an error may leave in the middle of a value. The scratch buffer for integers is left
    out. *)

From stdpp Require Import base tactics list.
From Stdlib Require Import ZArith Lia.
From S2P Require Import Prelude Bytes RlpRaw.

Open Scope Z_scope.

Import Rlp.

Module RlpDecode.

(** [kind] is [None] when the next value has not been looked at; the innermost list is the
    first of [stack]. *)
Record Stream := mkStream {
  input : list Z;
  remaining : Z;
  size : Z;
  kinderr : option rlpError;
  stack : list Z;
  kind : option Kind;
  byteval : Z;
  limited : bool
}.

Definition setKind (s : Stream) (k : option Kind) : Stream :=
  mkStream (input s) (remaining s) (size s) (kinderr s) (stack s) k (byteval s) (limited s).

Definition setByteval (s : Stream) (b : Z) : Stream :=
  mkStream (input s) (remaining s) (size s) (kinderr s) (stack s) (kind s) b (limited s).

Definition setInput (s : Stream) (i : list Z) : Stream :=
  mkStream i (remaining s) (size s) (kinderr s) (stack s) (kind s) (byteval s) (limited s).

Definition setLimits (s : Stream) (st : list Z) (rem : Z) : Stream :=
  mkStream (input s) rem (size s) (kinderr s) st (kind s) (byteval s) (limited s).

Definition setValue (s : Stream) (k : Kind) (n : Z) (e : option rlpError) : Stream :=
  mkStream (input s) (remaining s) n e (stack s) (Some k) (byteval s) (limited s).

Definition setSize (s : Stream) (n : Z) : Stream :=
  mkStream (input s) (remaining s) n (kinderr s) (stack s) (kind s) (byteval s) (limited s).

(** [Reset] on a [bytes.Reader] over [b]: the limit, or the length when it is zero. *)
Definition Reset (b : list Z) (inputLimit : Z) : Stream :=
  mkStream b (if 0 <? inputLimit then inputLimit else Z.of_nat (length b)) 0 None [] None 0 true.

(** ** Reading *)

Definition listLimit (s : Stream) : option Z := head (stack s).

Definition willRead (s : Stream) (n : Z) : res unit * Stream :=
  let s := setKind s None in
  let below (s : Stream) : res unit * Stream :=
    if limited s then
      if remaining s <? n then (Err ErrValueTooLarge, s)
      else (Ok tt, setLimits s (stack s) (u64 (remaining s - n)))
    else (Ok tt, s) in
  match stack s with
  | [] => below s
  | limit :: outer =>
      if limit <? n then (Err ErrElemTooLarge, s) else below (setLimits s (u64 (limit - n) :: outer) (remaining s))
  end.

(** [readFull] into [n] bytes. *)
Definition readFull (s : Stream) (n : Z) : res (list Z) * Stream :=
  match willRead s n with
  | (Err e, s) => (Err e, s)
  | (Ok _, s) =>
      if decide (Z.of_nat (length (input s)) < n) then (Err ErrUnexpectedEOF, setInput s [])
      else (Ok (take (Z.to_nat n) (input s)), setInput s (drop (Z.to_nat n) (input s)))
  end.

Definition readByte (s : Stream) : res Z * Stream :=
  match willRead s 1 with
  | (Err e, s) => (Err e, s)
  | (Ok _, s) =>
      match input s with
      | [] => (Err ErrUnexpectedEOF, s)
      | b :: rest => (Ok b, setInput s rest)
      end
  end.

Definition readUint (s : Stream) (n : Z) : res Z * Stream :=
  if n =? 0 then (Ok 0, setKind s None)
  else if n =? 1 then readByte s
  else
    match readFull s n with
    | (Err e, s) => (Err e, s)
    | (Ok b, s) => if decide (head b = Some 0) then (Err ErrCanonSize, s) else (Ok (be_decode b), s)
    end.

(** The kind and size behind the next tag; with an error the kind may still be set. *)
Definition readKind (s : Stream) : Kind * Z * option rlpError * Stream :=
  match readByte s with
  | (Err e, s) =>
      let e := if decide (stack s = []) then
                 match e with ErrUnexpectedEOF | ErrValueTooLarge => ErrEOF | e => e end
               else e in
      (KByte, 0, Some e, s)
  | (Ok b, s) =>
      let s := setByteval s 0 in
      let long (k : Kind) (n : Z) :=
        match readUint s n with
        | (Ok size, s) => (k, size, if size <? 56 then Some ErrCanonSize else None, s)
        | (Err e, s) => (k, 0, Some e, s)
        end in
      if b <? 0x80 then (KByte, 0, None, setByteval s b)
      else if b <? 0xB8 then (KString, b - 0x80, None, s)
      else if b <? 0xC0 then long KString (b - 0xB7)
      else if b <? 0xF8 then (KList, b - 0xC0, None, s)
      else long KList (b - 0xF7)
  end.

(** [Kind]: the cached value, the end of the list, or the next tag with its size checked
    against the limits. *)
Definition Kind_ (s : Stream) : res (Kind * Z) * Stream :=
  let answer (k : Kind) (n : Z) (e : option rlpError) :=
    match e with None => Ok (k, n) | Some e => Err e end in
  match kind s with
  | Some k => (answer k (size s) (kinderr s), s)
  | None =>
      let limit := listLimit s in
      if decide (limit = Some 0) then (Err EOL, s)
      else
        let '(k, n, e, s) := readKind s in
        let e := match e with
                 | Some e => Some e
                 | None =>
                     if match limit with Some l => l <? n | None => false end then Some ErrElemTooLarge
                     else if limited s && (remaining s <? n) then Some ErrValueTooLarge
                     else None
                 end in
        (answer k n e, setValue s k n e)
  end.

(** ** Values *)

Definition Bytes (s : Stream) : res (list Z) * Stream :=
  match Kind_ s with
  | (Err e, s) => (Err e, s)
  | (Ok (KByte, _), s) => (Ok [byteval s], setKind s None)
  | (Ok (KString, n), s) =>
      match readFull s n with
      | (Err e, s) => (Err e, s)
      | (Ok b, s) =>
          if (n =? 1) && match b with x :: _ => x <? 128 | [] => false end then (Err ErrCanonSize, s) else (Ok b, s)
      end
  | (Ok (KList, _), s) => (Err ErrExpectedString, s)
  end.

(** [ReadBytes] into [n] bytes; [decodeByteArray] differs only in the wording of its
    errors. *)
Definition ReadBytes (s : Stream) (n : nat) : res (list Z) * Stream :=
  match Kind_ s with
  | (Err e, s) => (Err e, s)
  | (Ok (KByte, _), s) =>
      if decide (n = 1%nat) then (Ok [byteval s], setKind s None)
      else (Err (if decide (n = 0%nat) then errTooLong else errTooShort), s)
  | (Ok (KString, m), s) =>
      if Z.of_nat n <? m then (Err errTooLong, s)
      else if m <? Z.of_nat n then (Err errTooShort, s)
      else
        match readFull s (Z.of_nat n) with
        | (Err e, s) => (Err e, s)
        | (Ok b, s) =>
            if (m =? 1) && match b with x :: _ => x <? 128 | [] => false end then (Err ErrCanonSize, s) else (Ok b, s)
        end
  | (Ok (KList, _), s) => (Err ErrExpectedString, s)
  end.

(** [Raw]: the header has been consumed and is written anew. *)
Definition Raw (s : Stream) : res (list Z) * Stream :=
  match Kind_ s with
  | (Err e, s) => (Err e, s)
  | (Ok (KByte, _), s) => (Ok [byteval s], setKind s None)
  | (Ok (k, n), s) =>
      match readFull s n with
      | (Err e, s) => (Err e, s)
      | (Ok b, s) =>
          (Ok ((if decide (k = KString) then puthead 0x80 0xB7 n else puthead 0xC0 0xF7 n) ++ b), s)
      end
  end.

Definition uint (s : Stream) (maxbits : Z) : res Z * Stream :=
  match Kind_ s with
  | (Err e, s) => (Err e, s)
  | (Ok (KByte, _), s) => if byteval s =? 0 then (Err ErrCanonInt, s) else (Ok (byteval s), setKind s None)
  | (Ok (KString, n), s) =>
      if maxbits / 8 <? n then (Err errUintOverflow, s)
      else
        match readUint s n with
        | (Err ErrCanonSize, s) => (Err ErrCanonInt, s)
        | (Err e, s) => (Err e, s)
        | (Ok v, s) => if (0 <? n) && (v <? 128) then (Err ErrCanonSize, s) else (Ok v, s)
        end
  | (Ok (KList, _), s) => (Err ErrExpectedString, s)
  end.

Definition Bool (s : Stream) : res bool * Stream :=
  match uint s 8 with
  | (Err e, s) => (Err e, s)
  | (Ok n, s) => if n =? 0 then (Ok false, s) else if n =? 1 then (Ok true, s) else (Err errBadBool, s)
  end.

(** The limit was compared before the tag was read, so [limit - n] may wrap around. *)
Definition List_ (s : Stream) : res Z * Stream :=
  match Kind_ s with
  | (Err e, s) => (Err e, s)
  | (Ok (KList, n), s) =>
      let st := match stack s with limit :: outer => u64 (limit - n) :: outer | [] => [] end in
      (Ok n, setSize (setKind (setLimits s (n :: st) (remaining s)) None) 0)
  | (Ok _, s) => (Err ErrExpectedList, s)
  end.

Definition ListEnd (s : Stream) : res unit * Stream :=
  match stack s with
  | [] => (Err errNotInList, s)
  | limit :: outer =>
      if 0 <? limit then (Err errNotAtEOL, s)
      else (Ok tt, setSize (setKind (setLimits s outer (remaining s)) None) 0)
  end.

Definition MoreDataInList (s : Stream) : bool := match stack s with limit :: _ => 0 <? limit | [] => false end.

Definition decodeBigInt (s : Stream) : res Z * Stream :=
  let finish (buffer : list Z) (s : Stream) : res Z * Stream :=
    if decide (head buffer = Some 0) then (Err ErrCanonInt, s) else (Ok (be_decode buffer), s) in
  match Kind_ s with
  | (Err e, s) => (Err e, s)
  | (Ok (KList, _), s) => (Err ErrExpectedString, s)
  | (Ok (KByte, _), s) => finish [byteval s] (setKind s None)
  | (Ok (KString, n), s) =>
      if n =? 0 then finish [] (setKind s None)
      else
        match readFull s n with
        | (Err e, s) => (Err e, s)
        | (Ok b, s) =>
            if (n =? 1) && match b with x :: _ => x <? 128 | [] => false end then (Err ErrCanonSize, s)
            else finish b s
        end
  end.

(** ** Decoders *)

Definition decoder (A : Type) : Type := Stream -> res A * Stream.

Definition decodeUint (bits : Z) : decoder Z := fun s => uint s bits.
Definition decodeBool : decoder bool := Bool.
Definition decodeByteSlice : decoder (list Z) := Bytes.
Definition decodeByteArray (n : nat) : decoder (list Z) := fun s => ReadBytes s n.
Definition decodeRawValue : decoder (list Z) := Raw.

(** The loop of [decodeSliceElems]: elements up to the end of the list. The fuel is the length of the
    input, since every element takes a byte of it. *)
Fixpoint decodeElems {A} (fuel : nat) (elem : decoder A) (s : Stream) : res (list A) * Stream :=
  match elem s with
  | (Err EOL, s) => (Ok [], s)
  | (Err e, s) => (Err e, s)
  | (Ok a, s) =>
      match fuel with
      | O => (Ok [a], s)
      | S fuel =>
          match decodeElems fuel elem s with
          | (Ok l, s) => (Ok (a :: l), s)
          | (Err e, s) => (Err e, s)
          end
      end
  end.

Definition decodeSliceElems {A} (elem : decoder A) : decoder (list A) := fun s =>
  decodeElems (length (input s)) elem s.

(** [ListEnd] after the elements of a list. *)
Definition closeList {A} (a : A) (s : Stream) : res A * Stream :=
  match ListEnd s with
  | (Ok _, s) => (Ok a, s)
  | (Err e, s) => (Err e, s)
  end.

Definition decodeListSlice {A} (elem : decoder A) : decoder (list A) := fun s =>
  match List_ s with
  | (Err e, s) => (Err e, s)
  | (Ok n, s) =>
      if n =? 0 then closeList [] s
      else
        match decodeSliceElems elem s with
        | (Err e, s) => (Err e, s)
        | (Ok l, s) => closeList l s
        end
  end.

(** A field of [makeStructDecoder]: the end of the list before it is an error. *)
Definition decodeField {A} (d : decoder A) : decoder A := fun s =>
  match d s with
  | (Err EOL, s) => (Err errTooFew, s)
  | r => r
  end.

(** The last field when it is optional: zero at the end of the list. *)
Definition decodeOptional {A} (zero : A) (d : decoder A) : decoder A := fun s =>
  match d s with
  | (Err EOL, s) => (Ok zero, s)
  | r => r
  end.

(** Two decoders in sequence. *)
Definition decodePair {A B} (da : decoder A) (db : decoder B) : decoder (A * B) := fun s =>
  match da s with
  | (Err e, s) => (Err e, s)
  | (Ok a, s) =>
      match db s with
      | (Err e, s) => (Err e, s)
      | (Ok b, s) => (Ok (a, b), s)
      end
  end.

(** The struct around its fields. *)
Definition decodeStruct {A} (fields : decoder A) : decoder A := fun s =>
  match List_ s with
  | (Err e, s) => (Err e, s)
  | (Ok _, s) =>
      match fields s with
      | (Err e, s) => (Err e, s)
      | (Ok a, s) => closeList a s
      end
  end.

(** [makeSimplePtrDecoder]. *)
Definition decodePtr {A} (d : decoder A) : decoder (option A) := fun s =>
  match d s with
  | (Err e, s) => (Err e, s)
  | (Ok a, s) => (Ok (Some a), s)
  end.

(** The decoded parts put together. *)
Definition decodeMap {A B} (f : A -> B) (d : decoder A) : decoder B := fun s =>
  match d s with
  | (Ok a, s) => (Ok (f a), s)
  | (Err e, s) => (Err e, s)
  end.

(** [makeNilPtrDecoder]: the empty value of the right kind is nil. *)
Definition decodeNilPtr {A} (nilKind : Kind) (d : decoder A) : decoder (option A) := fun s =>
  match Kind_ s with
  | (Err e, s) => (Err e, s)
  | (Ok (k, n), s) =>
      if negb (bool_decide (k = KByte)) && (n =? 0) then
        if decide (k = nilKind) then (Ok None, setKind s None) else (Err errWrongKind, s)
      else decodePtr d s
  end.

Definition DecodeBytes {A} (d : decoder A) (b : list Z) : res A :=
  match d (Reset b (Z.of_nat (length b))) with
  | (Err e, _) => Err e
  | (Ok a, s) => if decide (input s = []) then Ok a else Err ErrMoreThanOneValue
  end.

End RlpDecode.
