(* ===== verification/RlpDecodeProps.v ===== *)
(** * Laws of the RLP decoder (RlpDecode.v)

    A decoder that belongs to an encoding reads back what was encoded, at any place of the input
    where the limits allow it, and accepts nothing else. The laws are the class [Lawful];
    the decoders of the package satisfy it, and so do those built from them. *)

From stdpp Require Import base tactics list.
From Stdlib Require Import ZArith Lia.
From S2P Require Import Prelude Bytes RlpRaw RlpLemmas RlpDecode.

Open Scope Z_scope.

Import Rlp RlpLemmas RlpDecode.

Module RlpDecodeLemmas.

(** ** Positions *)

(** What determines the future of a stream between two values. *)
Record place := mkPlace { inp : list Z; st : list Z; rem : Z; lim : bool }.

Definition on (s : Stream) (p : place) : Prop :=
  input s = inp p /\ stack s = st p /\ remaining s = rem p /\ limited s = lim p.

Definition at_ (s : Stream) (p : place) : Prop := kind s = None /\ on s p.

Definition fits (n : Z) (p : place) : Prop :=
  match st p with l :: _ => n <= l | [] => True end /\ (lim p = true -> n <= rem p).

Definition advance (n : Z) (p : place) (rest : list Z) : place :=
  mkPlace rest (match st p with l :: o => u64 (l - n) :: o | [] => [] end) (if lim p then u64 (rem p - n) else rem p) (lim p).

Definition proper (p : place) : Prop :=
  Forall is_byte (inp p) /\ Z.of_nat (length (inp p)) < 2 ^ 64 /\ Forall in_u64 (st p) /\ in_u64 (rem p).

Lemma on_setKind s p k : on s p -> on (setKind s k) p.
Proof. done. Qed.

Lemma at_setKind s p : on s p -> at_ (setKind s None) p.
Proof. done. Qed.

Lemma u64_sub l n m : u64 (u64 (l - n) - m) = u64 (l - (n + m)).
Proof. unfold u64. rewrite Zminus_mod_idemp_l. f_equal. lia. Qed.

Lemma advance_advance n m p r r' : advance m (advance n p r) r' = advance (n + m) p r'.
Proof.
  unfold advance. cbn [st rem lim]. f_equal; [destruct (st p); [done|]; by rewrite u64_sub|].
  destruct (lim p); [by rewrite u64_sub|done].
Qed.

(** Within the limits the subtraction does not wrap. *)
Lemma advance_within n p rest :
  proper p -> 0 <= n -> fits n p ->
  advance n p rest =
    mkPlace rest (match st p with l :: o => l - n :: o | [] => [] end) (if lim p then rem p - n else rem p) (lim p).
Proof.
  intros (_ & _ & Hs & Hr) Hn [Hf Hl]. unfold advance, in_u64 in *. f_equal.
  - destruct (st p); [done|]. inversion_clear Hs. rewrite u64_id by (unfold in_u64; lia). done.
  - destruct (lim p); [|done]. specialize (Hl eq_refl). by rewrite u64_id by (unfold in_u64; lia).
Qed.

Lemma advance_0 p : proper p -> advance 0 p (inp p) = p.
Proof.
  intros Hp. unfold advance. destruct Hp as (_ & _ & Hs & Hr), p as [i s r l]. cbn [inp st rem lim] in *. f_equal.
  - destruct s; [done|]. inversion_clear Hs. by rewrite Z.sub_0_r, u64_id.
  - destruct l; [|done]. by rewrite Z.sub_0_r, u64_id.
Qed.

Lemma fits_advance n m p r :
  proper p -> 0 <= n -> 0 <= m -> fits m (advance n p r) /\ fits n p <-> fits (n + m) p.
Proof.
  intros Hp Hn Hm. assert (fits n p -> fits m (advance n p r) <-> fits (n + m) p) as H.
  { intros Hf. rewrite (advance_within n p r Hp Hn Hf). unfold fits. cbn [st rem lim].
    destruct (st p), (lim p); split; intros [H1 H2]; split; intros; try lia; auto;
      repeat match goal with H : true = true -> _ |- _ => specialize (H eq_refl) end; lia. }
  split; [intros [? ?]; by apply H|]. intros Hf. assert (fits n p) as Hf1; [|split; [by apply H|done]].
  unfold fits in *. destruct (st p); destruct Hf as [? H2]; split; try lia; intros Hl; specialize (H2 Hl); lia.
Qed.

Lemma fits_le n m p : n <= m -> fits m p -> fits n p.
Proof. unfold fits. destruct (st p); intros ? [? H2]; split; try lia; intros Hl; specialize (H2 Hl); lia. Qed.

Lemma proper_advance n p a rest : proper p -> inp p = a ++ rest -> proper (advance n p rest).
Proof.
  intros (Hb & Hl & Hs & Hr) E. unfold proper, advance. cbn [inp st rem]. rewrite E in Hb, Hl.
  rewrite length_app in Hl. apply Forall_app in Hb as [_ Hb]. split_and!; [done|lia| |].
  - destruct (st p); [done|]. inversion_clear Hs. constructor; [apply u64_range|done].
  - destruct (lim p); [apply u64_range|done].
Qed.

(** ** Reading bytes *)

Lemma willRead_fits s p n : on s p -> fits n p -> exists s', willRead s n = (Ok tt, s') /\ at_ s' (advance n p (inp p)).
Proof.
  intros (Hi & Hs & Hr & Hl) [Hf1 Hf2]. unfold willRead. cbn [setKind stack]. rewrite Hs.
  destruct (st p) as [|l o] eqn:Est.
  - cbn [setKind limited remaining]. rewrite Hl. destruct (lim p) eqn:El.
    + rewrite Hr. specialize (Hf2 eq_refl). rewrite (proj2 (Z.ltb_ge _ _)) by lia. eexists. split; [done|].
      unfold at_, on, advance. cbn. by rewrite Est, El.
    + eexists. split; [done|]. unfold at_, on, advance. cbn. by rewrite Est, El.
  - rewrite (proj2 (Z.ltb_ge _ _)) by lia. cbn [setLimits setKind limited remaining]. rewrite Hl. destruct (lim p) eqn:El.
    + rewrite Hr. specialize (Hf2 eq_refl). rewrite (proj2 (Z.ltb_ge _ _)) by lia. eexists. split; [done|].
      unfold at_, on, advance. cbn. by rewrite Est, El.
    + eexists. split; [done|]. unfold at_, on, advance. cbn. by rewrite Est, El.
Qed.

Lemma willRead_sound s p n s' : on s p -> willRead s n = (Ok tt, s') -> fits n p.
Proof.
  intros (Hi & Hs & Hr & Hl). unfold willRead, fits. cbn [setKind stack]. rewrite Hs. destruct (st p) as [|l o].
  - cbn [setKind limited remaining]. rewrite Hl, Hr. destruct (lim p); [|done].
    destruct (Z.ltb_spec (rem p) n); [done|]. by split.
  - destruct (Z.ltb_spec l n); [done|]. cbn [setLimits setKind limited remaining]. rewrite Hl, Hr.
    destruct (lim p); [|done]. destruct (Z.ltb_spec (rem p) n); [done|]. by split.
Qed.

Lemma willRead_err s n e s' : willRead s n = (Err e, s') -> e <> EOL.
Proof.
  unfold willRead. cbn [setKind stack]. destruct (stack s).
  - cbn [setKind limited]. destruct (limited s); [|done]. by destruct (_ <? n); intros [= <- _].
  - destruct (_ <? n); [by intros [= <- _]|]. cbn [setLimits setKind limited]. destruct (limited s); [|done].
    by destruct (_ <? n); intros [= <- _].
Qed.

Lemma readFull_ok s p n bs rest :
  on s p -> inp p = bs ++ rest -> n = Z.of_nat (length bs) -> fits n p ->
  exists s', readFull s n = (Ok bs, s') /\ at_ s' (advance n p rest).
Proof.
  intros Hon E -> Hf. unfold readFull. destruct (willRead_fits s p _ Hon Hf) as (s1 & -> & Hk & Hi & Hs & Hr & Hl).
  rewrite Hi. cbn [advance inp]. rewrite E, length_app, decide_False by lia. rewrite Nat2Z.id, take_app_length, drop_app_length.
  eexists. split; [done|]. by split_and!.
Qed.

Lemma readFull_sound s p n bs s' :
  on s p -> 0 <= n -> readFull s n = (Ok bs, s') ->
  exists rest, inp p = bs ++ rest /\ n = Z.of_nat (length bs) /\ fits n p /\ at_ s' (advance n p rest).
Proof.
  intros Hon Hn. unfold readFull. destruct (willRead s n) as [[[]|e] s1] eqn:Hw; [|done].
  pose proof (willRead_sound s p n s1 Hon Hw) as Hf. destruct (willRead_fits s p n Hon Hf) as (s2 & Hw2 & Hk & Hi & Hst & Hr & Hl).
  rewrite Hw in Hw2. injection Hw2 as <-. rewrite Hi. cbn [advance inp]. case_decide as Hd; [done|]. intros [= <- <-].
  exists (drop (Z.to_nat n) (inp p)). split_and!; [by rewrite take_drop|rewrite length_take; lia|done|]. by split_and!.
Qed.

Lemma readFull_err s n e s' : readFull s n = (Err e, s') -> e <> EOL.
Proof.
  unfold readFull. destruct (willRead s n) as [[a|e0] s1] eqn:Hw.
  - case_decide; [by intros [= <- _]|done].
  - intros [= <- _]. by eapply willRead_err.
Qed.

Lemma readByte_ok s p b rest :
  on s p -> inp p = b :: rest -> fits 1 p -> exists s', readByte s = (Ok b, s') /\ at_ s' (advance 1 p rest).
Proof.
  intros Hon E Hf. unfold readByte. destruct (willRead_fits s p 1 Hon Hf) as (s1 & -> & Hk & Hi & Hs & Hr & Hl).
  rewrite Hi. cbn [advance inp]. rewrite E. eexists. split; [done|]. by split_and!.
Qed.

Lemma readByte_sound s p b s' :
  on s p -> readByte s = (Ok b, s') ->
  exists rest, inp p = b :: rest /\ fits 1 p /\ at_ s' (advance 1 p rest).
Proof.
  intros Hon. unfold readByte. destruct (willRead s 1) as [[[]|e] s1] eqn:Hw; [|done].
  pose proof (willRead_sound s p 1 s1 Hon Hw) as Hf. destruct (willRead_fits s p 1 Hon Hf) as (s2 & Hw2 & Hk & Hi & Hst & Hr & Hl).
  rewrite Hw in Hw2. injection Hw2 as <-. rewrite Hi. cbn [advance inp].
  destruct (inp p) as [|b0 rest]; [done|]. intros [= -> <-]. exists rest. by split_and!.
Qed.

Lemma readByte_err s e s' : readByte s = (Err e, s') -> e <> EOL.
Proof.
  unfold readByte. destruct (willRead s 1) as [[a|e0] s1] eqn:Hw.
  - destruct (input s1); [by intros [= <- _]|done].
  - intros [= <- _]. by eapply willRead_err.
Qed.

(** [readUint] reads minimal bytes, except that a single byte may be zero. *)
Definition uintBytes (n : Z) (v : Z) (bs : list Z) : Prop :=
  Z.of_nat (length bs) = n /\ be_decode bs = v /\ (n <> 1 -> head bs <> Some 0).

Lemma readUint_ok s p n v bs rest :
  on s p -> proper p -> inp p = bs ++ rest -> uintBytes n v bs -> fits n p ->
  exists s', readUint s n = (Ok v, s') /\ at_ s' (advance n p rest).
Proof.
  intros Hon Hp E (Hn & Hv & Hh) Hf. unfold readUint. destruct (Z.eqb_spec n 0) as [H0|H0].
  { assert (bs = []) as -> by (apply nil_length_inv; lia). rewrite H0. eexists. split; [by rewrite <- Hv|].
    cbn [app] in E. rewrite <- E, (advance_0 p Hp). by apply at_setKind. }
  destruct (Z.eqb_spec n 1) as [H1|H1].
  - destruct bs as [|b [|? ?]]; cbn [length] in Hn; [lia| |lia]. rewrite H1 in *.
    destruct (readByte_ok s p b rest Hon E Hf) as (s' & -> & Hat). exists s'. split; [|done].
    rewrite be_decode_cons in Hv. cbn in Hv. do 2 f_equal. lia.
  - destruct (readFull_ok s p n bs rest Hon E ltac:(lia) Hf) as (s' & -> & Hat). rewrite decide_False by (by apply Hh).
    exists s'. by rewrite Hv.
Qed.

Lemma readUint_sound s p n v s' :
  on s p -> proper p -> 0 <= n -> readUint s n = (Ok v, s') ->
  exists bs rest, inp p = bs ++ rest /\ uintBytes n v bs /\ (0 < n -> fits n p) /\ at_ s' (advance n p rest).
Proof.
  intros Hon Hp Hn. unfold readUint, uintBytes. destruct (Z.eqb_spec n 0) as [->|H0].
  { intros [= <- <-]. exists [], (inp p). split_and!; [done|done|done|done|lia|].
    rewrite (advance_0 p Hp). by apply at_setKind. }
  destruct (Z.eqb_spec n 1) as [->|H1].
  - intros Hr. apply (readByte_sound s p) in Hr as (rest & E & Hf & Hat); [|done].
    exists [v], rest. split_and!; [done|done| |done|done|done]. rewrite be_decode_cons. cbn. lia.
  - destruct (readFull s n) as [[b|e] s1] eqn:Hr; [|done].
    apply (readFull_sound s p) in Hr as (rest & E & Hl & Hf & Hat); [|done|done].
    case_decide as Hd; [done|]. intros [= <- <-]. exists b, rest. by split_and!.
Qed.

Lemma readUint_err s n e s' : readUint s n = (Err e, s') -> e <> EOL.
Proof.
  unfold readUint. destruct (n =? 0); [done|]. destruct (n =? 1); [apply readByte_err|].
  destruct (readFull s n) as [[b|e0] s1] eqn:Hr.
  - case_decide; [by intros [= <- _]|done].
  - intros [= <- _]. by eapply readFull_err.
Qed.

(** ** Tags *)

Definition taglen (k : Kind) (n : nat) : Z := Z.of_nat (length (tag k n)).

Lemma uintBytes_minimal n : (56 <= n)%nat -> uintBytes (Z.of_nat (length (minimal (Z.of_nat n)))) (Z.of_nat n) (minimal (Z.of_nat n)).
Proof. intros Hn. split_and!; [done|apply minimal_decode; lia|]. intros _. apply minimal_head. lia. Qed.

Lemma minimal_uintBytes m n bs : Forall is_byte bs -> uintBytes m n bs -> 56 <= n -> minimal n = bs.
Proof.
  intros Hb (Hl & Hd & Hh) Hn. rewrite <- Hd. apply minimal_unique; [done|].
  destruct (decide (m = 1)) as [->|]; [|by apply Hh]. destruct bs as [|b [|? ?]]; cbn [length] in Hl; [done| |lia].
  rewrite be_decode_cons in Hd. cbn in Hd. cbn. intros [= ->]. lia.
Qed.

Lemma readKind_byte s p x rest :
  on s p -> inp p = x :: rest -> x < 0x80 -> fits 1 p ->
  exists s', RlpDecode.readKind s = (KByte, 0, None, s') /\ byteval s' = x /\ at_ s' (advance 1 p rest).
Proof.
  intros Hon E Hx Hf. unfold RlpDecode.readKind. destruct (readByte_ok s p x rest Hon E Hf) as (s1 & -> & Hat).
  rewrite (proj2 (Z.ltb_lt _ _)) by lia. by eexists.
Qed.

(** The size behind a long tag. *)
Lemma readUint_minimal s p n rest (l := Z.of_nat (length (minimal (Z.of_nat n)))) :
  (56 <= n)%nat -> on s p -> proper p -> inp p = minimal (Z.of_nat n) ++ rest -> fits l p ->
  exists s', readUint s l = (Ok (Z.of_nat n), s') /\ at_ s' (advance l p rest).
Proof. intros Hn Hon Hp E Hf. by apply (readUint_ok s p _ _ _ rest Hon Hp E (uintBytes_minimal n Hn)). Qed.

Lemma readKind_tag s p k n rest :
  k <> KByte -> on s p -> proper p -> inp p = tag k n ++ rest -> Z.of_nat n < 2 ^ 64 -> fits (taglen k n) p ->
  exists s', RlpDecode.readKind s = (k, Z.of_nat n, None, s') /\ at_ s' (advance (taglen k n) p rest).
Proof.
  intros Hk Hon Hp E Hn Hf. unfold RlpDecode.readKind.
  assert (exists b m, tag k n = b :: m) as (b & m & Et)
    by (destruct k; [done|cbn; unfold header; case_decide; by eexists _, _..]).
  rewrite Et in E. cbn [app] in E. assert (fits 1 p) as Hf1
    by (eapply fits_le; [|exact Hf]; unfold taglen; rewrite Et; cbn [length]; lia).
  destruct (readByte_ok s p b (m ++ rest) Hon E Hf1) as (s1 & -> & Hat).
  set (s2 := setByteval s1 0). assert (on s2 (advance 1 p (m ++ rest))) as Hon2 by apply Hat.
  assert (at_ s2 (advance 1 p (m ++ rest))) as Hat2 by exact Hat.
  destruct (decide (n < 56)%nat) as [Hs|Hs].
  - assert (m = [] /\ taglen k n = 1) as [-> Ht].
    { unfold taglen. destruct k; [done|..]; cbn [tag] in *; rewrite header_small in * by done; by injection Et as _ <-. }
    rewrite Ht. cbn [app] in Hat2.
    destruct k; [done|..]; cbn [tag] in Et; rewrite header_small in Et by done; injection Et as <-; branch;
      eexists; (split; [|exact Hat2]); do 3 f_equal; lia.
  - assert (m = minimal (Z.of_nat n)) as Em
      by (destruct k; [done|..]; cbn [tag] in Et; rewrite header_minimal in Et by lia; by injection Et as _ <-).
    assert (1 + Z.of_nat (length m) = taglen k n) as Ht by (unfold taglen; rewrite Et; cbn [length]; lia).
    rewrite <- Ht in *. rewrite Em in *. set (l := Z.of_nat (length (minimal (Z.of_nat n)))) in *.
    assert (1 <= l <= 8) as Hl8.
    { unfold l. rewrite length_minimal. pose proof (bytelen_le (Z.of_nat n) 8).
      destruct (bytelen_spec (Z.of_nat n)) as (k' & E' & _); [lia|]. lia. }
    pose proof (proper_advance 1 p [b] (minimal (Z.of_nat n) ++ rest) Hp E) as Hp2.
    apply (fits_advance 1 l p (minimal (Z.of_nat n) ++ rest)) in Hf as [Hfl _]; [|done|lia|lia].
    destruct (readUint_minimal s2 _ n rest ltac:(lia) Hon2 Hp2 eq_refl Hfl) as (s' & Hr & Hat'). fold l in Hr, Hat'.
    rewrite advance_advance in Hat'.
    destruct k; [done|..]; cbn [tag] in Et; rewrite header_minimal in Et by lia; injection Et as <-; fold l; branch;
      rewrite Z.add_simpl_l, Hr, (proj2 (Z.ltb_ge _ _)) by lia; by eexists.
Qed.

(** What was found ahead: a byte that is its own encoding, or a tag. *)
Definition found (p : place) (k : Kind) (n : Z) (s' : Stream) : Prop :=
  match k with
  | KByte => n = 0 /\ exists rest, inp p = byteval s' :: rest /\ byteval s' < 0x80 /\ fits 1 p /\ on s' (advance 1 p rest)
  | _ => in_u64 n /\ exists rest, inp p = tag k (Z.to_nat n) ++ rest /\ fits (taglen k (Z.to_nat n)) p /\
      on s' (advance (taglen k (Z.to_nat n)) p rest)
  end.

Lemma long_sound s1 q small large k x n s' (p : place) :
  k <> KByte -> (forall m, tag k m = header small large m) ->
  proper p -> inp p = x :: inp q -> q = advance 1 p (inp q) -> fits 1 p -> 1 <= x - large <= 8 -> on s1 q ->
  readUint s1 (x - large) = (Ok n, s') -> 56 <= n -> found p k n s'.
Proof.
  intros Hk Htag Hp E Eq Hf1 Hx Hon Hr Hn.
  assert (proper q) as Hq by (rewrite Eq; by apply (proper_advance 1 p [x])).
  apply (readUint_sound s1 q) in Hr as (bs & rest & E' & Hu & Hf & Hat); [|done|done|lia].
  pose proof Hp as (Hb & _). rewrite E, E' in Hb. inversion_clear Hb as [|?? _ Hb']. apply Forall_app in Hb' as [Hbs _].
  pose proof (minimal_uintBytes _ _ _ Hbs Hu Hn) as Hm. destruct Hu as (Hlen & Hd & _).
  assert (in_u64 n) as Hn64.
  { apply be_decode_bound in Hbs. rewrite Hd, Hlen in Hbs. split; [lia|].
    apply Z.lt_le_trans with (256 ^ (x - large)); [lia|]. apply (Z.pow_le_mono_r 256 _ 8); lia. }
  assert (tag k (Z.to_nat n) = x :: bs) as Et.
  { rewrite Htag, header_minimal, Z2Nat.id, Hm by lia. f_equal. lia. }
  assert (taglen k (Z.to_nat n) = 1 + (x - large)) as Elen by (unfold taglen; rewrite Et; cbn [length]; lia).
  assert (fits (1 + (x - large)) p) as Hff.
  { apply (fits_advance 1 (x - large) p (inp q)); [done|lia|lia|]. rewrite <- Eq. split; [apply Hf; lia|done]. }
  rewrite Eq, advance_advance in Hat. unfold found. rewrite Et, Elen.
  destruct k; [done|..]; (split; [done|]); exists rest; (split; [by rewrite E, E'|]); (split; [done|apply Hat]).
Qed.

Lemma tag_sound s p k n s' :
  on s p -> proper p -> RlpDecode.readKind s = (k, n, None, s') -> found p k n s' /\ kind s' = None.
Proof.
  intros Hon Hp. unfold RlpDecode.readKind. destruct (readByte s) as [[b|e] s1] eqn:Hr; [|done].
  pose proof Hr as Hr'. apply (readByte_sound s p) in Hr as (rest & E & Hf & Hat); [|done].
  assert (is_byte b) as Hb by (destruct Hp as (Hb & _); rewrite E in Hb; by inversion Hb). unfold is_byte in Hb.
  destruct (Z.ltb_spec b 0x80).
  { intros [= <- <- <-]. split; [|apply Hat]. split; [done|]. exists rest. by split_and!; try apply Hat. }
  assert (forall k small large, k <> KByte -> (forall m, tag k m = header small large m) -> large = small + 55 ->
    small <= b < small + 56 -> (k, b - small, @None rlpError, setByteval s1 0) = (k, n, None, s') -> found p k n s' /\ kind s' = None) as Hshort.
  { intros k' small large Hk' Htag -> Hsm [= <- <-]. assert (tag k' (Z.to_nat (b - small)) = [b]) as Et.
    { rewrite Htag, header_small by lia. f_equal. lia. }
    split; [|apply Hat]. unfold found, taglen. rewrite Et. destruct k'; [done|..]; (split; [unfold in_u64; lia|]); exists rest; by split_and!; try apply Hat. }
  assert (forall k small large, k <> KByte -> (forall m, tag k m = header small large m) -> 1 <= b - large <= 8 ->
    match readUint (setByteval s1 0) (b - large) with
    | (Ok size, s) => (k, size, if size <? 56 then Some ErrCanonSize else None, s)
    | (Err e, s) => (k, 0, Some e, s)
    end = (k, n, None, s') -> found p k n s' /\ kind s' = None) as Hlong.
  { intros k' small large Hk' Htag Hlg. destruct (readUint _ _) as [[size|e] s2] eqn:Hu; [|done].
    destruct (Z.ltb_spec size 56) as [|H56]; [done|]. intros [= <- <-].
    split; [apply (long_sound (setByteval s1 0) (advance 1 p rest) small large k' b size s2 p); try done; apply Hat|].
    apply (readUint_sound _ (advance 1 p rest)) in Hu as (? & ? & _ & _ & _ & Hat2);
      [apply Hat2|apply Hat|by apply (proper_advance 1 p [b])|lia]. }
  destruct (Z.ltb_spec b 0xB8).
  { intros [= <- Hrest]. apply (Hshort KString 0x80 0xB7); [done|done|done|lia|]. congruence. }
  destruct (Z.ltb_spec b 0xC0).
  { intros Hr. assert (k = KString) as -> by (destruct (readUint _ _) as [[?|?] ?]; congruence).
    by apply (Hlong KString 0x80 0xB7); [| |lia|]. }
  destruct (Z.ltb_spec b 0xF8).
  { intros [= <- Hrest]. apply (Hshort KList 0xC0 0xF7); [done|done|done|lia|]. congruence. }
  intros Hr. assert (k = KList) as -> by (destruct (readUint _ _) as [[?|?] ?]; congruence).
  by apply (Hlong KList 0xC0 0xF7); [| |lia|].
Qed.

Lemma readKind_err s k n e s' : RlpDecode.readKind s = (k, n, Some e, s') -> e <> EOL.
Proof.
  unfold RlpDecode.readKind. destruct (readByte s) as [[b|e0] s1] eqn:Hr.
  - destruct (b <? 0x80); [done|]. destruct (b <? 0xB8); [done|]. destruct (b <? 0xC0); [|destruct (b <? 0xF8); [done|]].
    all: destruct (readUint _ _) as [[size|e1] s2] eqn:Hu; [destruct (_ <? 56); by intros [= _ _ <- _]|].
    all: intros [= _ _ <- _]; by eapply readUint_err.
  - apply readByte_err in Hr. case_decide; intros [= _ _ <- _]; [by destruct e0|done].
Qed.

(** ** The value ahead *)

Lemma Kind_eol s p : at_ s p -> head (st p) = Some 0 -> Kind_ s = (Err EOL, s).
Proof. intros (Hk & _ & Hs & _) Hz. unfold Kind_. rewrite Hk. unfold listLimit. by rewrite Hs, decide_True. Qed.

Lemma Kind_eol_only s p s' : at_ s p -> Kind_ s = (Err EOL, s') -> head (st p) = Some 0 /\ s' = s.
Proof.
  intros (Hk & _ & Hs & _). unfold Kind_. rewrite Hk. unfold listLimit. rewrite Hs. case_decide as Hd; [by intros [= <-]|].
  destruct (RlpDecode.readKind s) as [[[k n] [e|]] s1] eqn:Hr.
  - intros [= -> <-]. by apply readKind_err in Hr.
  - destruct (match head (st p) with Some l => l <? n | None => false end); [done|]. by destruct (limited s1 && _).
Qed.

Lemma Kind_sound s p k n s' :
  at_ s p -> proper p -> Kind_ s = (Ok (k, n), s') -> found p k n s' /\ head (st p) <> Some 0.
Proof.
  intros (Hk & Hon) Hp. unfold Kind_. rewrite Hk. unfold listLimit. destruct Hon as (Hi & Hs & Hon). rewrite Hs.
  case_decide as Hd; [done|]. destruct (RlpDecode.readKind s) as [[[k1 n1] [e|]] s1] eqn:Hr; [done|].
  destruct (match head (st p) with Some l => l <? n1 | None => false end); [done|]. destruct (limited s1 && _); [done|].
  intros [= -> -> <-]. apply (tag_sound s p) in Hr as [Hf _]; [|done|done]. split; [|done]. by destruct k.
Qed.

Lemma fits_open n p : fits n p -> 0 < n -> head (st p) <> Some 0.
Proof. intros [Hf _] Hn. destruct (st p); cbn; [done|]. intros [= ->]. lia. Qed.

Lemma Kind_byte s p x rest :
  at_ s p -> inp p = x :: rest -> 0 <= x < 0x80 -> fits 1 p -> proper p ->
  exists s', Kind_ s = (Ok (KByte, 0), s') /\ byteval s' = x /\ on s' (advance 1 p rest).
Proof.
  intros (Hk & Hon) E Hx Hf Hp. unfold Kind_. rewrite Hk. pose proof Hon as (_ & Hs & _). unfold listLimit. rewrite Hs.
  rewrite decide_False by (eapply fits_open; [exact Hf|lia]).
  destruct (readKind_byte s p x rest Hon E ltac:(lia) Hf) as (s1 & -> & Hbv & Hat).
  replace (match head (st p) with Some l => l <? 0 | None => false end) with false.
  2: { destruct Hf as [Hf _]. destruct (st p); cbn; [done|]. symmetry. apply Z.ltb_ge. lia. }
  replace (limited s1 && (remaining s1 <? 0)) with false; [eexists; split_and!; [done|exact Hbv|apply Hat..]|]. destruct Hat as (_ & _ & _ & -> & ->).
  unfold advance. cbn [lim rem]. destruct (lim p); [|done]. cbn. symmetry. apply Z.ltb_ge. apply u64_range.
Qed.

Lemma Kind_tag s p k n rest :
  at_ s p -> k <> KByte -> proper p -> inp p = tag k n ++ rest -> Z.of_nat n < 2 ^ 64 -> fits (taglen k n + Z.of_nat n) p ->
  exists s', Kind_ s = (Ok (k, Z.of_nat n), s') /\ on s' (advance (taglen k n) p rest) /\
    fits (Z.of_nat n) (advance (taglen k n) p rest).
Proof.
  intros (Hk & Hon) Hkb Hp E Hn Hf. unfold Kind_. rewrite Hk. pose proof Hon as (_ & Hs & _). unfold listLimit. rewrite Hs.
  assert (0 < taglen k n) as Ht by (unfold taglen; destruct k; [done|cbn [tag]; rewrite header_length; lia..]).
  rewrite decide_False by (eapply fits_open; [exact Hf|lia]).
  assert (fits (taglen k n) p) as Hft by (eapply fits_le; [|exact Hf]; lia).
  destruct (readKind_tag s p k n rest Hkb Hon Hp E Hn Hft) as (s1 & -> & Hat).
  apply (fits_advance _ _ p rest Hp) in Hf as [Hfn _]; [|lia|lia].
  replace (match head (st p) with Some l => l <? Z.of_nat n | None => false end) with false.
  2: { rewrite (advance_within _ p rest Hp) in Hfn by (done || lia). destruct Hfn as [Hfn _].
       cbn [st] in Hfn. destruct (st p); cbn; [done|]. symmetry. apply Z.ltb_ge. lia. }
  replace (limited s1 && (remaining s1 <? Z.of_nat n)) with false; [eexists; split; [done|]; split; [apply Hat|exact Hfn]|]. destruct Hat as (_ & _ & _ & -> & ->).
  destruct Hfn as [_ Hfn]. destruct (lim (advance _ p rest)); [|done]. cbn. symmetry. apply Z.ltb_ge. by apply Hfn.
Qed.

(** A second look finds the same. *)
Lemma Kind_again s : Kind_ (Kind_ s).2 = Kind_ s.
Proof.
  unfold Kind_ at 2 3. destruct (kind s) eqn:Hk; cbn [snd]; [unfold Kind_; by rewrite Hk|].
  case_decide as Hd; cbn [snd]; [unfold Kind_; by rewrite Hk, decide_True|].
  destruct (RlpDecode.readKind s) as [[[k n] e] s1]. cbn [snd]. done.
Qed.

(** ** Lawful decoders *)

(** A decoder that looks at the tag first, and whose own errors are not [EOL]. *)
Definition peeks {A} (d : decoder A) : Prop :=
  (forall s, d (Kind_ s).2 = d s) /\
  (forall s e s1, Kind_ s = (Err e, s1) -> d s = (Err e, s1)) /\
  (forall s p x s1 s', at_ s p -> proper p -> Kind_ s = (Ok x, s1) -> d s <> (Err EOL, s')).

Lemma peeks_eol {A} (d : decoder A) s p : peeks d -> at_ s p -> head (st p) = Some 0 -> d s = (Err EOL, s).
Proof. intros (_ & Hd & _) Hat Hz. apply Hd. by apply Kind_eol with p. Qed.

Lemma peeks_eol_only {A} (d : decoder A) s p s' :
  peeks d -> at_ s p -> proper p -> d s = (Err EOL, s') -> head (st p) = Some 0 /\ s' = s.
Proof.
  intros (_ & Hd & Hx) Hat Hp. destruct (Kind_ s) as [[x|e] s1] eqn:HK; [intros H; by apply (Hx _ _ _ _ _ Hat Hp HK) in H|].
  rewrite (Hd _ _ _ HK). intros [= -> <-]. by apply (Kind_eol_only s p).
Qed.

(** A decoder of values: it reads back an encoding where the limits allow it and accepts
    nothing else. *)
Class Lawful {A} (d : decoder A) (enc : A -> list Z) (good : A -> Prop) := {
  lawful_peeks : peeks d;
  lawful_ok s p a rest :
    at_ s p -> proper p -> good a -> inp p = enc a ++ rest -> fits (Z.of_nat (length (enc a))) p ->
    exists s', d s = (Ok a, s') /\ at_ s' (advance (Z.of_nat (length (enc a))) p rest);
  lawful_sound s p a s' :
    at_ s p -> proper p -> d s = (Ok a, s') ->
    good a /\ exists rest, inp p = enc a ++ rest /\ at_ s' (advance (Z.of_nat (length (enc a))) p rest);
  lawful_nonempty a : good a -> enc a <> [];
  lawful_bytes a : good a -> Forall is_byte (enc a)
}.

(** A decoder of the fields of a list, up to its end. *)
Class LawfulFields {A} (d : decoder A) (enc : A -> list Z) (good : A -> Prop) := {
  fields_ok s p a rest :
    at_ s p -> proper p -> good a -> inp p = enc a ++ rest -> head (st p) = Some (Z.of_nat (length (enc a))) ->
    fits (Z.of_nat (length (enc a))) p ->
    exists s', d s = (Ok a, s') /\ at_ s' (advance (Z.of_nat (length (enc a))) p rest);
  fields_sound s p a s' :
    at_ s p -> proper p -> d s = (Ok a, s') ->
    good a /\ exists rest, inp p = enc a ++ rest /\ at_ s' (advance (Z.of_nat (length (enc a))) p rest);
  fields_eol s p s' : at_ s p -> proper p -> d s <> (Err EOL, s');
  fields_bytes a : good a -> Forall is_byte (enc a)
}.

(** ** Strings *)

Lemma encString_ne bs : encString bs <> [].
Proof.
  destruct (string_kind bs) as (k & Hk & Hf). rewrite (encString_value k bs Hf Hk). intros E.
  apply (f_equal length) in E. pose proof (encValue_nonempty (k, bs) Hf). cbn in E. lia.
Qed.

Lemma encString_is_bytes bs : Forall is_byte bs -> Z.of_nat (length bs) < 2 ^ 64 -> Forall is_byte (encString bs).
Proof.
  intros Hb Hl. destruct (string_kind bs) as (k & Hk & Hf). rewrite (encString_value k bs Hf Hk). unfold encValue. cbn [fst snd].
  apply Forall_app. split; [|done]. destruct k; [constructor| |done]. by apply header_bytes.
Qed.

Lemma encUint_is_bytes v : Z.of_nat (bytelen v) < 2 ^ 64 -> Forall is_byte (encUint v).
Proof. intros Hl. apply encString_is_bytes; [apply minimal_bytes|by rewrite length_minimal]. Qed.

Definition strGood (bs : list Z) : Prop := Forall is_byte bs /\ Z.of_nat (length bs) < 2 ^ 64.

(** What [Kind_] finds in front of an encoded string. *)
Lemma string_ahead s p bs rest :
  at_ s p -> proper p -> strGood bs -> inp p = encString bs ++ rest -> fits (Z.of_nat (length (encString bs))) p ->
  (exists x s', bs = [x] /\ x < 0x80 /\ Kind_ s = (Ok (KByte, 0), s') /\ byteval s' = x /\
     on s' (advance (Z.of_nat (length (encString bs))) p rest)) \/
  (exists s' q, (forall x, bs = [x] -> 0x80 <= x) /\ Kind_ s = (Ok (KString, Z.of_nat (length bs)), s') /\
     on s' q /\ proper q /\ inp q = bs ++ rest /\ fits (Z.of_nat (length bs)) q /\
     advance (Z.of_nat (length bs)) q rest = advance (Z.of_nat (length (encString bs))) p rest).
Proof.
  intros Hat Hp [Hb Hl] E Hf. destruct (string_kind bs) as (k & Hk & Hfit).
  rewrite (encString_value k bs Hfit Hk) in *. unfold encValue in *. cbn [fst snd] in *. destruct k; [left|right|done].
  - destruct Hfit as (x & -> & Hx). cbn in E, Hf |- *. inversion_clear Hb as [|?? Hbx _]. unfold is_byte in Hbx.
    destruct (Kind_byte s p x rest Hat E ltac:(lia) Hf Hp) as (s' & HK & Hbv & Hon). by exists x, s'.
  - rewrite <- app_assoc in E. rewrite length_app, Nat2Z.inj_add in Hf. fold (taglen KString (length bs)) in Hf.
    destruct (Kind_tag s p KString (length bs) (bs ++ rest) Hat ltac:(done) Hp E Hl Hf) as (s' & HK & Hon & Hfq).
    eexists s', _. split_and!; [done|done|exact Hon|by eapply proper_advance|done|exact Hfq|].
    rewrite advance_advance. f_equal. rewrite length_app. unfold taglen. lia.
Qed.

(** A string read after its tag. *)
Lemma string_read p n s1 bs s2 :
  proper p -> found p KString n s1 -> readFull s1 n = (Ok bs, s2) ->
  (n =? 1) && match bs with x :: _ => x <? 128 | [] => false end = false ->
  strGood bs /\ n = Z.of_nat (length bs) /\ exists rest, inp p = encString bs ++ rest /\
    at_ s2 (advance (Z.of_nat (length (encString bs))) p rest).
Proof.
  intros Hp (Hn & rest & E & Hf & Hon) Hr Hc. unfold in_u64 in Hn.
  apply (readFull_sound s1 (advance (taglen KString (Z.to_nat n)) p rest) n bs s2 Hon ltac:(lia)) in Hr as (rest' & E' & Hl & Hf' & Hat).
  cbn [advance inp] in E'. subst n rest. rewrite Nat2Z.id in *. destruct Hp as (Hb & _). rewrite E in Hb.
  apply Forall_app in Hb as [_ Hb]. apply Forall_app in Hb as [Hb _].
  assert (encString bs = encValue (KString, bs)) as Ee.
  { apply encString_value; [|done]. intros x ->. cbn [length] in Hc. cbn in Hc. by apply Z.ltb_ge in Hc. }
  split; [split; [done|lia]|]. split; [done|]. exists rest'. rewrite Ee. unfold encValue. cbn [fst snd].
  split; [by rewrite E, app_assoc|]. rewrite advance_advance in Hat. by rewrite length_app, Nat2Z.inj_add.
Qed.

Lemma not_short bs :
  (forall x, bs = [x] -> 0x80 <= x) ->
  (Z.of_nat (length bs) =? 1) && match bs with x :: _ => x <? 128 | [] => false end = false.
Proof.
  intros H. destruct bs as [|x [|y l]]; [done| |]; [cbn; apply Z.ltb_ge; by apply H|].
  apply andb_false_iff. left. apply Z.eqb_neq. cbn [length]. lia.
Qed.

(** A byte that is its own encoding. *)
Lemma byte_read p n s1 :
  proper p -> found p KByte n s1 ->
  is_byte (byteval s1) /\ byteval s1 < 0x80 /\ encString [byteval s1] = [byteval s1] /\
  exists rest, inp p = [byteval s1] ++ rest /\ on s1 (advance 1 p rest).
Proof.
  intros (Hb & _) (_ & rest & E & Hx & _ & Hon). rewrite E in Hb. inversion_clear Hb. split_and!; [done|done| |by exists rest].
  cbn. by rewrite (proj2 (Z.ltb_lt _ _)).
Qed.

#[export] Instance Bytes_lawful : Lawful decodeByteSlice encString strGood.
Proof.
  split.
  - split_and!; unfold decodeByteSlice, Bytes; [intros s; by rewrite Kind_again|intros s e s1 HK; by rewrite HK|].
    intros s p [[] n] s1 s' _ _ HK; rewrite HK; [done| |done].
    destruct (readFull s1 n) as [[b|e] s2] eqn:Hr; [by destruct (_ && _)|]. apply readFull_err in Hr. congruence.
  - intros s p bs rest Hat Hp Hg E Hf. unfold decodeByteSlice, Bytes.
    destruct (string_ahead s p bs rest Hat Hp Hg E Hf) as
      [(x & s1 & -> & Hx & -> & Hbv & Hon)|(s1 & q & Hne & -> & Hon & Hq & E' & Hfq & Eq)].
    + rewrite Hbv. eexists. by split.
    + destruct (readFull_ok s1 q _ bs rest Hon E' eq_refl Hfq) as (s2 & -> & Hat2). rewrite Eq in Hat2.
      rewrite (not_short bs Hne). by eexists.
  - intros s p bs s' Hat Hp. unfold decodeByteSlice, Bytes.
    destruct (Kind_ s) as [[[k n]|e] s1] eqn:HK; [|done]. apply (Kind_sound s p) in HK as [Hfd _]; [|done|done].
    destruct k; [| |done].
    + intros [= <- <-]. destruct (byte_read p n s1 Hp Hfd) as (Hb & Hx & Ee & rest & E & Hon). rewrite Ee.
      split; [split; [by constructor|done]|]. exists rest. by split.
    + destruct (readFull s1 n) as [[b|e] s2] eqn:Hr; [|done]. destruct (_ && _) eqn:Hc; [done|]. intros [= <- <-].
      destruct (string_read p n s1 b s2 Hp Hfd Hr Hc) as (Hg & _ & H). done.
  - intros bs _. apply encString_ne.
  - intros bs [Hb Hl]. by apply encString_is_bytes.
Qed.

#[export] Instance ReadBytes_lawful n :
  Z.of_nat n < 2 ^ 64 -> Lawful (decodeByteArray n) encString (fun bs => Forall is_byte bs /\ length bs = n).
Proof.
  intros Hn. split; unfold decodeByteArray, ReadBytes.
  - split_and!; [intros s; by rewrite Kind_again|intros s e s1 HK; by rewrite HK|].
    intros s p [[] m] s1 s' _ _ HK; rewrite HK; [by case_decide; [|case_decide]| |done].
    destruct (_ <? m); [done|]. destruct (m <? _); [done|].
    destruct (readFull s1 _) as [[b|e] s2] eqn:Hr; [by destruct (_ && _)|]. apply readFull_err in Hr. congruence.
  - intros s p bs rest Hat Hp [Hb Hl] E Hf.
    destruct (string_ahead s p bs rest Hat Hp ltac:(split; [done|lia]) E Hf) as
      [(x & s1 & -> & Hx & -> & Hbv & Hon)|(s1 & q & Hne & -> & Hon & Hq & E' & Hfq & Eq)].
    + rewrite decide_True by done. rewrite Hbv. eexists. by split.
    + rewrite Hl. rewrite Z.ltb_irrefl. rewrite <- Hl.
      destruct (readFull_ok s1 q _ bs rest Hon E' eq_refl Hfq) as (s2 & -> & Hat2). rewrite Eq in Hat2.
      rewrite (not_short bs Hne). by eexists.
  - intros s p bs s' Hat Hp.
    destruct (Kind_ s) as [[[k m]|e] s1] eqn:HK; [|done]. apply (Kind_sound s p) in HK as [Hfd _]; [|done|done].
    destruct k; [| |done].
    + case_decide as Hd; [|done]. intros [= <- <-].
      destruct (byte_read p m s1 Hp Hfd) as (Hb & Hx & Ee & rest & E & Hon). rewrite Ee.
      split; [split; [by constructor|done]|]. exists rest. by split.
    + destruct (Z.ltb_spec (Z.of_nat n) m); [done|]. destruct (Z.ltb_spec m (Z.of_nat n)); [done|].
      replace (Z.of_nat n) with m by lia.
      destruct (readFull s1 m) as [[b|e] s2] eqn:Hr; [|done]. destruct (_ && _) eqn:Hc; [done|]. intros [= <- <-].
      destruct (string_read p m s1 b s2 Hp Hfd Hr Hc) as ([Hg _] & Hl & H'). split; [split; [done|lia]|done].
  - intros bs _. apply encString_ne.
  - intros bs [Hb Hl]. apply encString_is_bytes; [done|lia].
Qed.

(** ** Integers *)

Definition uintGood (bits : Z) (v : Z) : Prop := 0 <= v < 2 ^ bits.

Lemma uintBytes_content v : 0 <= v -> uintBytes (Z.of_nat (length (minimal v))) v (minimal v).
Proof. intros Hv. split_and!; [done|by apply minimal_decode|]. intros _. by apply minimal_head. Qed.

Lemma minimal_single x : 0 < x < 256 -> minimal x = [x].
Proof.
  intros Hx. assert (be_decode [x] = x) as E by (rewrite be_decode_cons; cbn; lia). rewrite <- E at 1.
  apply minimal_unique; [by repeat constructor; unfold is_byte; lia|]. cbn. intros [= ->]. lia.
Qed.

(** The bytes of an integer behind a tag. *)
Lemma uint_read p n s1 v s2 :
  proper p -> found p KString n s1 -> readUint s1 n = (Ok v, s2) -> (0 <? n) && (v <? 128) = false ->
  0 <= v < 256 ^ n /\ exists rest, inp p = encUint v ++ rest /\ at_ s2 (advance (Z.of_nat (length (encUint v))) p rest).
Proof.
  intros Hp (Hn & rest & E & Hf & Hon) Hr Hc. unfold in_u64 in Hn.
  assert (proper (advance (taglen KString (Z.to_nat n)) p rest)) as Hq by (by eapply proper_advance).
  apply (readUint_sound s1 (advance (taglen KString (Z.to_nat n)) p rest) n v s2 Hon Hq ltac:(lia)) in Hr
    as (bs & rest' & E' & (Hl & Hd & Hh) & _ & Hat).
  cbn [advance inp] in E'. subst rest. destruct Hp as (Hb & _). rewrite E in Hb.
  apply Forall_app in Hb as [_ Hb]. apply Forall_app in Hb as [Hb _]. rewrite <- Hd, <- Hl.
  split; [by apply be_decode_bound|]. rewrite <- Hl, Nat2Z.id in *. apply andb_false_iff in Hc.
  assert (forall x, bs = [x] -> 0x80 <= x) as Hs.
  { intros x ->. rewrite be_decode_cons in Hd. cbn in Hd. destruct Hc as [Hc|Hc]; [done|]. apply Z.ltb_ge in Hc. lia. }
  assert (minimal (be_decode bs) = bs) as Hm.
  { apply minimal_unique; [done|]. destruct bs as [|x [|y l]]; [done| |].
    - cbn. intros [= ->]. specialize (Hs 0 eq_refl). lia.
    - apply Hh. cbn [length]. lia. }
  unfold encUint. rewrite Hm, (encString_value KString bs Hs) by done. unfold encValue. cbn [fst snd]. exists rest'.
  split; [by rewrite E, app_assoc|]. rewrite advance_advance in Hat. by rewrite length_app, Nat2Z.inj_add.
Qed.

Lemma minimal_strGood v k : 0 <= v < 256 ^ Z.of_nat k -> Z.of_nat k < 2 ^ 64 -> strGood (minimal v) /\ (length (minimal v) <= k)%nat.
Proof.
  intros Hv Hk. pose proof (bytelen_le v k Hv). rewrite <- length_minimal in H. split; [|done].
  split; [apply minimal_bytes|lia].
Qed.

Lemma uint_byte x : is_byte x -> x < 0x80 -> x <> 0 -> encUint x = [x].
Proof.
  unfold is_byte. intros Hb Hx H0. unfold encUint. rewrite minimal_single by lia. cbn. by rewrite (proj2 (Z.ltb_lt _ _)).
Qed.

Lemma uint_no_eol s bits s' x s1 : Kind_ s = (Ok x, s1) -> uint s bits <> (Err EOL, s').
Proof.
  intros HK. unfold uint. rewrite HK. destruct x as [[] n]; [by destruct (_ =? 0)| |done].
  destruct (_ <? n); [done|]. destruct (readUint s1 n) as [[v|e] s2] eqn:Hr; [by destruct (_ && _)|].
  apply readUint_err in Hr. destruct e; congruence.
Qed.

#[export] Instance uint_lawful k : (1 <= k <= 8)%nat -> Lawful (decodeUint (8 * Z.of_nat k)) encUint (uintGood (8 * Z.of_nat k)).
Proof.
  intros Hk. assert (8 * Z.of_nat k / 8 = Z.of_nat k) as Hd by (rewrite Z.mul_comm; by apply Z.div_mul).
  split; unfold decodeUint, uintGood; rewrite <- ?pow256_pow2.
  - split_and!; [intros s; unfold uint; by rewrite Kind_again|intros s e s1 HK; unfold uint; by rewrite HK|].
    intros s p x s1 s' _ _ HK. by apply uint_no_eol with x s1.
  - intros s p v rest Hat Hp Hv E Hf. unfold uint. rewrite Hd.
    destruct (minimal_strGood v k Hv ltac:(lia)) as [Hg Hlen].
    destruct (string_ahead s p (minimal v) rest Hat Hp Hg E Hf) as
      [(x & s1 & Em & Hx & -> & Hbv & Hon)|(s1 & q & Hne & -> & Hon & Hq & E' & Hfq & Eq)].
    + pose proof (minimal_decode v ltac:(lia)) as Hdec. rewrite Em, be_decode_cons in Hdec. cbn in Hdec.
      assert (x <> 0) as Hx0 by (intros ->; pose proof (minimal_head v ltac:(lia)) as Hh; by rewrite Em in Hh).
      rewrite Hbv, (proj2 (Z.eqb_neq _ _)) by done. eexists. split; [do 2 f_equal; lia|]. done.
    + rewrite (proj2 (Z.ltb_ge _ _)) by lia.
      destruct (readUint_ok s1 q _ v _ rest Hon Hq E' (uintBytes_content v ltac:(lia)) Hfq) as (s2 & -> & Hat2).
      rewrite Eq in Hat2. replace (_ && _) with false; [by eexists|]. symmetry. apply andb_false_iff.
      destruct (Z.ltb_spec 0 (Z.of_nat (length (minimal v)))) as [Hl|]; [right|by left]. apply Z.ltb_ge.
      destruct (Z.lt_ge_cases v 128); [|done]. destruct (decide (v = 0)) as [->|]; [done|].
      specialize (Hne v (minimal_single v ltac:(lia))). lia.
  - intros s p v s' Hat Hp. unfold uint. rewrite Hd.
    destruct (Kind_ s) as [[[kd n]|e] s1] eqn:HK; [|done]. apply (Kind_sound s p) in HK as [Hfd _]; [|done|done].
    destruct kd; [| |done].
    + destruct (Z.eqb_spec (byteval s1) 0) as [|Hx0]; [done|]. intros [= <- <-].
      destruct (byte_read p n s1 Hp Hfd) as (Hb & Hx & _ & rest & E & Hon). rewrite uint_byte by done.
      split; [|exists rest; by split]. unfold is_byte in Hb. split; [lia|].
      apply Z.lt_le_trans with (256 ^ 1); [lia|]. apply Z.pow_le_mono_r; lia.
    + destruct (Z.ltb_spec (Z.of_nat k) n); [done|]. destruct (readUint s1 n) as [[v'|e] s2] eqn:Hr; [|by destruct e].
      destruct (_ && _) eqn:Hc; [done|]. intros [= <- <-]. destruct (uint_read p n s1 v' s2 Hp Hfd Hr Hc) as (Hv & H').
      split; [|done]. split; [lia|]. apply Z.lt_le_trans with (256 ^ n); [lia|]. apply Z.pow_le_mono_r; lia.
  - intros v _. apply encString_ne.
  - intros v Hv. apply encUint_is_bytes. pose proof (bytelen_le v k Hv). lia.
Qed.

#[export] Instance Bool_lawful : Lawful decodeBool (fun b => encUint (if b : bool then 1 else 0)) (fun _ => True).
Proof.
  pose proof (uint_lawful 1 ltac:(lia)) as L. change (8 * Z.of_nat 1) with 8 in L.
  split; unfold decodeBool, Bool.
  - split_and!; [intros s; unfold uint; by rewrite Kind_again|intros s e s1 HK; unfold uint; by rewrite HK|].
    intros s p x s1 s' _ _ HK. pose proof (fun s' => uint_no_eol s 8 s' x s1 HK) as Hne.
    destruct (uint s 8) as [[n|e] s2]; [by destruct (n =? 0); [|destruct (n =? 1)]|]. specialize (Hne s2). congruence.
  - intros s p b rest Hat Hp _ E Hf.
    destruct (lawful_ok (Lawful := L) s p (if b then 1 else 0) rest Hat Hp ltac:(by destruct b) E Hf) as (s' & Hu & Hat').
    unfold decodeUint in Hu. rewrite Hu. exists s'. split; [by destruct b|done].
  - intros s p b s' Hat Hp. destruct (uint s 8) as [[n|e] s2] eqn:Hu; [|done].
    destruct (lawful_sound (Lawful := L) s p n s2 Hat Hp Hu) as [_ H].
    destruct (Z.eqb_spec n 0) as [->|]; [by intros [= <- <-]|]. destruct (Z.eqb_spec n 1) as [->|]; [by intros [= <- <-]|done].
  - intros b _. apply encString_ne.
  - intros b _. by destruct b; apply encUint_is_bytes.
Qed.

#[export] Instance BigInt_lawful : Lawful decodeBigInt encUint (fun v => 0 <= v /\ Z.of_nat (bytelen v) < 2 ^ 64).
Proof.
  split; unfold decodeBigInt.
  - split_and!; [intros s; by rewrite Kind_again|intros s e s1 HK; by rewrite HK|].
    intros s p [[] n] s1 s' _ _ HK; rewrite HK; [by case_decide| |done]. destruct (n =? 0); [by case_decide|].
    destruct (readFull s1 n) as [[b|e] s2] eqn:Hr; [destruct (_ && _); [done|by case_decide]|]. apply readFull_err in Hr. congruence.
  - intros s p v rest Hat Hp [Hv Hl] E Hf. rewrite <- length_minimal in Hl.
    pose proof (minimal_decode v Hv) as Hdec. pose proof (minimal_head v Hv) as Hh.
    destruct (string_ahead s p (minimal v) rest Hat Hp (conj (minimal_bytes v) Hl) E Hf) as
      [(x & s1 & Em & Hx & -> & Hbv & Hon)|(s1 & q & Hne & -> & Hon & Hq & E' & Hfq & Eq)].
    + rewrite Hbv, <- Em, decide_False, Hdec by done. by eexists.
    + destruct (Z.eqb_spec (Z.of_nat (length (minimal v))) 0) as [H0|H0].
      * assert (minimal v = []) as Em by (apply nil_length_inv; lia). rewrite Em in Hdec. rewrite decide_False, Hdec by done.
        eexists. split; [done|]. unfold encUint. rewrite <- Eq, H0. rewrite Em in E'. cbn [app] in E'. rewrite <- E', advance_0 by done. done.
      * destruct (readFull_ok s1 q _ (minimal v) rest Hon E' eq_refl Hfq) as (s2 & -> & Hat2). rewrite Eq in Hat2.
        rewrite (not_short _ Hne), decide_False, Hdec by done. by eexists.
  - intros s p v s' Hat Hp.
    destruct (Kind_ s) as [[[kd n]|e] s1] eqn:HK; [|done]. apply (Kind_sound s p) in HK as [Hfd _]; [|done|done].
    assert (forall bs s2, strGood bs -> head bs <> Some 0 ->
      (exists rest, inp p = encString bs ++ rest /\ at_ s2 (advance (Z.of_nat (length (encString bs))) p rest)) ->
      v = be_decode bs -> s' = s2 -> (0 <= v /\ Z.of_nat (bytelen v) < 2 ^ 64) /\
        exists rest, inp p = encUint v ++ rest /\ at_ s' (advance (Z.of_nat (length (encUint v))) p rest)) as Hfin.
    { intros bs s2 [Hb Hl] Hh H -> ->. unfold encUint. rewrite <- length_minimal, minimal_unique by done.
      split; [split; [by apply be_decode_bound|done]|done]. }
    destruct kd; [| |done].
    + case_decide as Hd; [done|]. intros [= <- <-]. destruct (byte_read p n s1 Hp Hfd) as (Hb & Hx & Ee & rest & E & Hon).
      apply (Hfin [byteval s1] (setKind s1 None)); [split; [by constructor|done]|done| |done|done].
      exists rest. rewrite Ee. by split.
    + destruct (Z.eqb_spec n 0) as [->|].
      * rewrite decide_False by done. intros [= <- <-]. apply (Hfin [] (setKind s1 None)); [done|done| |done|done].
        destruct Hfd as (_ & rest & E & _ & Hon). by exists rest.
      * destruct (readFull s1 n) as [[b|e] s2] eqn:Hr; [|done]. destruct (_ && _) eqn:Hc; [done|]. case_decide; [done|].
        intros [= <- <-]. destruct (string_read p n s1 b s2 Hp Hfd Hr Hc) as (Hg & _ & H'). by apply (Hfin b s2).
  - intros v _. apply encString_ne.
  - intros v [_ Hv]. by apply encUint_is_bytes.
Qed.

End RlpDecodeLemmas.
