(* ===== verification/RlpCompound.v ===== *)
(** * Lists, structs and pointers of the RLP decoder (src/rlp/decode.go)

    The laws of RlpDecodeProps.v for the decoders built from other decoders, and what they
    say of [DecodeBytes]. The limit of an enclosing list may wrap around when an inner list is longer than it;
    the enclosing list then never ends, so nothing is accepted that should not be. *)

From stdpp Require Import base tactics list.
From Stdlib Require Import ZArith Lia.
From S2P Require Import Prelude Bytes RlpRaw RlpLemmas RlpDecode RlpDecodeProps.

Open Scope Z_scope.

Import Rlp RlpLemmas RlpDecode RlpDecodeLemmas.

Module RlpCompound.

(** ** Entering and leaving a list *)

(** At the first element of a list of [n] bytes, its tag read. *)
Definition inside (n : Z) (q : place) : place := mkPlace (inp q) (n :: st (advance n q (inp q))) (rem q) (lim q).

Lemma inside_proper n q : in_u64 n -> proper q -> proper (inside n q).
Proof.
  intros Hn Hq. pose proof (proper_advance n q [] (inp q) Hq eq_refl) as (_ & _ & Hs & _). destruct Hq as (Hb & Hl & _ & Hr).
  unfold proper, inside. cbn [inp st rem]. split_and!; [done|done|by constructor|apply Hr..].
Qed.

Lemma List_ok s p n rest :
  at_ s p -> proper p -> inp p = tag KList n ++ rest -> Z.of_nat n < 2 ^ 64 -> fits (taglen KList n + Z.of_nat n) p ->
  exists s', List_ s = (Ok (Z.of_nat n), s') /\ at_ s' (inside (Z.of_nat n) (advance (taglen KList n) p rest)) /\
    fits (Z.of_nat n) (advance (taglen KList n) p rest).
Proof.
  intros Hat Hp E Hn Hf. unfold List_.
  destruct (Kind_tag s p KList n rest Hat ltac:(done) Hp E Hn Hf) as (s1 & -> & (Hi & Hs & Hr & Hl) & Hfn).
  eexists. split; [done|]. split; [|done]. unfold at_, on, inside. cbn. rewrite Hi, Hs, Hr, Hl. split_and!; [done|done|done|done..].
Qed.

Lemma List_sound s p n s' :
  at_ s p -> proper p -> List_ s = (Ok n, s') ->
  in_u64 n /\ exists rest, inp p = tag KList (Z.to_nat n) ++ rest /\
    at_ s' (inside n (advance (taglen KList (Z.to_nat n)) p rest)).
Proof.
  intros Hat Hp. unfold List_. destruct (Kind_ s) as [[[k m]|e] s1] eqn:HK; [|done].
  apply (Kind_sound s p) in HK as [Hfd _]; [|done|done]. destruct k; [done|done|]. intros [= -> <-].
  destruct Hfd as (Hn & rest & E & _ & Hi & Hs & Hr & Hl). split; [done|]. exists rest. split; [done|].
  unfold at_, on, inside. cbn. rewrite Hi, Hs, Hr, Hl. split_and!; [done|done|done|done..].
Qed.

Lemma List_kind s x s1 s' : Kind_ s = (Ok x, s1) -> List_ s <> (Err EOL, s').
Proof. intros HK. unfold List_. rewrite HK. by destruct x as [[] n]. Qed.

Lemma closeList_ok {A} (a : A) s n q rest :
  at_ s (advance n (inside n q) rest) -> exists s', closeList a s = (Ok a, s') /\ at_ s' (advance n q rest).
Proof.
  intros (Hk & Hi & Hs & Hr & Hl). unfold closeList, ListEnd. rewrite Hs. cbn [advance inside st]. rewrite Z.sub_diag.
  cbn. eexists. split; [done|]. unfold at_, on. cbn. rewrite Hi, Hr, Hl. done.
Qed.

Lemma closeList_sound {A} (a a' : A) s n m q rest s' :
  at_ s (advance m (inside n q) rest) -> in_u64 n -> in_u64 m -> closeList a s = (Ok a', s') ->
  a' = a /\ m = n /\ at_ s' (advance n q rest).
Proof.
  intros (Hk & Hi & Hs & Hr & Hl) Hn Hm. unfold closeList, ListEnd. rewrite Hs. cbn [advance inside st].
  destruct (Z.ltb_spec 0 (u64 (n - m))) as [|H0]; [done|]. intros [= <- <-]. split; [done|].
  assert (m = n) as ->.
  { unfold u64, in_u64 in *. destruct (Z.lt_ge_cases n m) as [Hlt|].
    - rewrite <- (Z.mod_unique (n - m) (2 ^ 64) (-1) (n - m + 2 ^ 64)) in H0 by lia. lia.
    - rewrite Z.mod_small in H0 by lia. lia. }
  split; [done|]. unfold at_, on. cbn. rewrite Hi, Hr, Hl. done.
Qed.

Lemma closeList_err {A} (a : A) s s' : closeList a s <> (Err EOL, s').
Proof. unfold closeList, ListEnd. destruct (stack s); [done|]. by destruct (0 <? z). Qed.

Lemma encList_tag payload : encList payload = tag KList (length payload) ++ payload.
Proof. done. Qed.

Lemma encList_ne payload : encList payload <> [].
Proof. rewrite encList_tag. cbn [tag]. unfold header. by case_decide. Qed.

Lemma encList_taglen payload :
  Z.of_nat (length (encList payload)) = taglen KList (length payload) + Z.of_nat (length payload).
Proof. rewrite encList_tag, length_app. unfold taglen. lia. Qed.

Lemma encList_is_bytes payload :
  Forall is_byte payload -> Z.of_nat (length (encList payload)) < 2 ^ 64 -> Forall is_byte (encList payload).
Proof.
  intros Hb Hl. rewrite encList_taglen in Hl. rewrite encList_tag. apply Forall_app. split; [|done].
  apply header_bytes; [lia..|]. unfold taglen in Hl. lia.
Qed.

(** ** Structs and slices *)

Section listing.
Context {A} (d : decoder A) (enc : A -> list Z) (good : A -> Prop) `{!LawfulFields d enc good}.

#[export] Instance struct_lawful :
  Lawful (decodeStruct d) (fun a => encList (enc a)) (fun a => good a /\ Z.of_nat (length (encList (enc a))) < 2 ^ 64).
Proof.
  split; unfold decodeStruct.
  - split_and!; [intros s; unfold List_; by rewrite Kind_again|intros s e s1 HK; unfold List_; by rewrite HK|].
    intros s p x s1 s' Hat Hp HK. pose proof (fun s' => List_kind s x s1 s' HK) as Hne.
    destruct (List_ s) as [[n|e] s2] eqn:HL; [|specialize (Hne s2); congruence].
    destruct (List_sound s p n s2 Hat Hp HL) as (Hn & rest & E & Hat2).
    assert (proper (inside n (advance (taglen KList (Z.to_nat n)) p rest))) as Hin
      by (apply inside_proper; [done|]; by eapply proper_advance).
    pose proof (fun s' => fields_eol s2 _ s' Hat2 Hin) as Hd.
    destruct (d s2) as [[a|e] s3]; [apply closeList_err|]. specialize (Hd s3). congruence.
  - intros s p a rest Hat Hp [Hg Hl] E Hf. rewrite encList_taglen in *. unfold taglen in Hl at 1. rewrite encList_tag, <- app_assoc in E.
    destruct (List_ok s p (length (enc a)) (enc a ++ rest) Hat Hp E ltac:(lia) Hf) as (s1 & -> & Hat1 & Hfn).
    set (q := advance (taglen KList (length (enc a))) p (enc a ++ rest)) in *.
    assert (proper q) as Hq by (by eapply proper_advance).
    assert (in_u64 (Z.of_nat (length (enc a)))) as Hn by (split; lia).
    destruct (fields_ok s1 _ a rest Hat1 (inside_proper _ _ Hn Hq) Hg eq_refl eq_refl) as (s2 & -> & Hat2).
    { split; [cbn; lia|]. apply Hfn. }
    destruct (closeList_ok a s2 _ q rest Hat2) as (s3 & -> & Hat3). exists s3. split; [done|].
    unfold q in Hat3. by rewrite advance_advance in Hat3.
  - intros s p a s' Hat Hp. destruct (List_ s) as [[n|e] s1] eqn:HL; [|done].
    destruct (List_sound s p n s1 Hat Hp HL) as (Hn & rest & E & Hat1).
    set (q := advance (taglen KList (Z.to_nat n)) p rest) in *.
    assert (proper q) as Hq by (by eapply proper_advance).
    pose proof (inside_proper n q Hn Hq) as Hin. destruct (d s1) as [[a1|e] s2] eqn:Hd; [|done]. intros Hc.
    destruct (fields_sound s1 _ a1 s2 Hat1 Hin Hd) as (Hg & rest' & E' & Hat2). cbn in E'.
    assert (in_u64 (Z.of_nat (length (enc a1)))) as Hl.
    { destruct Hq as (_ & Hl & _). cbn in Hl. rewrite E', length_app in Hl. split; lia. }
    destruct (closeList_sound a1 a s2 n _ q rest' s' Hat2 Hn Hl Hc) as (-> & <- & Hat3).
    rewrite Nat2Z.id in E. assert (inp p = encList (enc a1) ++ rest') as E2 by (by rewrite E, E', encList_tag, <- app_assoc).
    split; [split; [done|]|].
    { destruct Hp as (_ & Hlp & _). rewrite E2, length_app in Hlp. lia. }
    exists rest'. rewrite encList_taglen, encList_tag, <- app_assoc, <- E'.
    unfold q in Hat3. rewrite advance_advance in Hat3. by rewrite Nat2Z.id in Hat3.
  - intros a _. apply encList_ne.
  - intros a [Hg Hl]. apply fields_bytes in Hg. by apply encList_is_bytes.
Qed.

(** The size that was announced is the size of the fields. *)
Lemma struct_kind s p a s' :
  at_ s p -> proper p -> decodeStruct d s = (Ok a, s') -> (Kind_ s).1 = Ok (KList, Z.of_nat (length (enc a))).
Proof.
  intros Hat Hp. unfold decodeStruct. destruct (List_ s) as [[n|e] s1] eqn:HL; [|done].
  destruct (List_sound s p n s1 Hat Hp HL) as (Hn & rest & E & Hat1).
  set (q := advance (taglen KList (Z.to_nat n)) p rest) in *. assert (proper q) as Hq by (by eapply proper_advance).
  destruct (d s1) as [[a1|e] s2] eqn:Hd; [|done]. intros Hc.
  destruct (fields_sound s1 _ a1 s2 Hat1 (inside_proper n q Hn Hq) Hd) as (_ & rest' & E' & Hat2). cbn in E'.
  assert (in_u64 (Z.of_nat (length (enc a1)))) as Hl.
  { destruct Hq as (_ & Hl & _). cbn in Hl. rewrite E', length_app in Hl. split; lia. }
  destruct (closeList_sound a1 a s2 n _ q rest' s' Hat2 Hn Hl Hc) as (-> & -> & _).
  unfold List_ in HL. destruct (Kind_ s) as [[[[] m]|e] s3]; by simplify_eq.
Qed.

End listing.

Section slices.
Context {A} (d : decoder A) (enc : A -> list Z) (good : A -> Prop) `{!Lawful d enc good}.

Definition encElems (l : list A) : list Z := concat (enc <$> l).

Lemma lawful_length a : good a -> 0 < Z.of_nat (length (enc a)).
Proof. intros Hg. apply lawful_nonempty in Hg. destruct (enc a); [done|]. cbn [length]. lia. Qed.

Lemma elems_ok fuel s p l rest :
  at_ s p -> proper p -> Forall good l -> inp p = encElems l ++ rest ->
  head (st p) = Some (Z.of_nat (length (encElems l))) -> fits (Z.of_nat (length (encElems l))) p ->
  (length (encElems l) <= fuel)%nat ->
  exists s', decodeElems fuel d s = (Ok l, s') /\ at_ s' (advance (Z.of_nat (length (encElems l))) p rest).
Proof.
  revert fuel s p. induction l as [|a l IH]; intros fuel s p Hat Hp Hg E Hh Hf Hfuel.
  - exists s. cbn in E. rewrite <- E. change (Z.of_nat (length (encElems []))) with 0. rewrite advance_0 by done.
    split; [|done]. destruct fuel; cbn [decodeElems]; by rewrite (peeks_eol d s p lawful_peeks Hat Hh).
  - inversion_clear Hg as [|?? Ha Hl]. pose proof (lawful_length a Ha) as Hpos.
    assert (encElems (a :: l) = enc a ++ encElems l) as El by done. rewrite El in *. rewrite length_app, Nat2Z.inj_add in *.
    rewrite <- app_assoc in E. apply (fits_advance _ _ p (encElems l ++ rest) Hp) in Hf as [Hf2 Hf1]; [|lia|lia].
    destruct (lawful_ok s p a _ Hat Hp Ha E Hf1) as (s1 & Hd & Hat1).
    destruct fuel as [|fuel]; [lia|]. cbn [decodeElems]. rewrite Hd.
    destruct (IH fuel s1 _ Hat1 (proper_advance _ p _ _ Hp E) Hl eq_refl) as (s2 & -> & Hat2); [|done|lia|].
    { rewrite advance_within by (done || lia). destruct (st p); [done|]. cbn in Hh |- *. injection Hh as ->. f_equal. lia. }
    exists s2. split; [done|]. by rewrite advance_advance in Hat2.
Qed.

Lemma elems_sound fuel s p l s' :
  at_ s p -> proper p -> decodeElems fuel d s = (Ok l, s') ->
  Forall good l /\ exists rest, inp p = encElems l ++ rest /\ at_ s' (advance (Z.of_nat (length (encElems l))) p rest).
Proof.
  revert s p l s'. induction fuel as [|fuel IH]; intros s p l s' Hat Hp; cbn [decodeElems].
  all: destruct (d s) as [[a|e] s1] eqn:Hd.
  2, 4: destruct e; try done; intros [= <- <-]; destruct (peeks_eol_only d s p s1 lawful_peeks Hat Hp Hd) as [_ ->];
    split; [done|]; exists (inp p); split; [done|]; by rewrite advance_0.
  all: destruct (lawful_sound s p a s1 Hat Hp Hd) as (Hg & rest & E & Hat1).
  - intros [= <- <-]. split; [by constructor|]. exists rest. unfold encElems. cbn. by rewrite app_nil_r.
  - destruct (decodeElems fuel d s1) as [[l'|e] s2] eqn:Hr; [|done]. intros [= <- <-].
    destruct (IH s1 _ l' s2 Hat1 (proper_advance _ p _ _ Hp E) Hr) as (Hgs & rest' & E' & Hat2). cbn in E'. subst rest.
    split; [by constructor|]. exists rest'. unfold encElems. cbn [fmap list_fmap concat]. fold (encElems l').
    rewrite length_app, Nat2Z.inj_add. split; [by rewrite E, app_assoc|]. by rewrite advance_advance in Hat2.
Qed.

Lemma elems_eol fuel s s' : decodeElems fuel d s <> (Err EOL, s').
Proof.
  revert s. induction fuel as [|fuel IH]; intros s; cbn [decodeElems]; destruct (d s) as [[a|e] s1]; [done|by destruct e| |by destruct e].
  specialize (IH s1). destruct (decodeElems fuel d s1) as [[l|e] s2]; [done|]. congruence.
Qed.

(** The input bounds the number of elements, so more fuel changes nothing. *)
Lemma elems_fuel fuel fuel' s p :
  at_ s p -> proper p -> (length (inp p) <= fuel)%nat -> (fuel <= fuel')%nat ->
  decodeElems fuel' d s = decodeElems fuel d s.
Proof.
  revert fuel' s p. induction fuel as [|fuel IH]; intros fuel' s p Hat Hp Hl Hf.
  all: destruct (d s) as [[a|e] s1] eqn:Hd; [|destruct fuel'; cbn [decodeElems]; by rewrite Hd].
  all: destruct (lawful_sound s p a s1 Hat Hp Hd) as (Hg & rest & E & Hat1);
    apply lawful_length in Hg; rewrite E, length_app in Hl.
  { lia. }
  destruct fuel' as [|fuel']; [lia|]. cbn [decodeElems]. rewrite Hd, (IH fuel' s1 _ Hat1); [done|by eapply proper_advance|cbn; lia|lia].
Qed.

#[export] Instance slice_fields : LawfulFields (decodeSliceElems d) encElems (Forall good).
Proof.
  split; unfold decodeSliceElems.
  - intros s p l rest Hat Hp Hg E Hh Hf. apply elems_ok; try done. destruct Hat as (_ & Hi & _). rewrite Hi, E, length_app. lia.
  - intros s p l s'. apply elems_sound.
  - intros s p s' _ _. apply elems_eol.
  - intros l Hl. unfold encElems. induction Hl; [constructor|]. cbn [fmap list_fmap concat]. apply Forall_app.
    split; [by apply lawful_bytes|done].
Qed.

Lemma decodeListSlice_struct s p :
  at_ s p -> proper p -> decodeListSlice d s = decodeStruct (decodeSliceElems d) s.
Proof.
  intros Hat Hp. unfold decodeListSlice, decodeStruct. destruct (List_ s) as [[n|e] s1] eqn:HL; [|done].
  destruct (Z.eqb_spec n 0) as [->|]; [|done]. destruct (List_sound s p 0 s1 Hat Hp HL) as (_ & rest & _ & Hat1).
  unfold decodeSliceElems. destruct (length (input s1)); cbn [decodeElems]; by rewrite (peeks_eol d _ _ lawful_peeks Hat1).
Qed.

#[export] Instance list_lawful :
  Lawful (decodeListSlice d) (fun l => encList (encElems l)) (fun l => Forall good l /\ Z.of_nat (length (encList (encElems l))) < 2 ^ 64).
Proof.
  pose proof (struct_lawful (decodeSliceElems d) encElems (Forall good)) as L. split.
  - destruct (lawful_peeks (Lawful := L)) as (_ & _ & Hne). split_and!; unfold decodeListSlice.
    + intros s. unfold List_. by rewrite Kind_again.
    + intros s e s1 HK. unfold List_. by rewrite HK.
    + intros s p x s1 s' Hat Hp HK. fold (decodeListSlice d s). rewrite (decodeListSlice_struct s p Hat Hp). by eapply Hne.
  - intros s p l rest Hat Hp. rewrite (decodeListSlice_struct s p Hat Hp). by apply (lawful_ok (Lawful := L)).
  - intros s p l s' Hat Hp. rewrite (decodeListSlice_struct s p Hat Hp). by apply (lawful_sound (Lawful := L)).
  - apply (lawful_nonempty (Lawful := L)).
  - apply (lawful_bytes (Lawful := L)).
Qed.

End slices.

(** ** Values in other forms *)

Lemma lawful_ext {A} (d : decoder A) enc enc' (good good' : A -> Prop) :
  Lawful d enc good -> (forall a, good a -> enc' a = enc a) -> (forall a, good' a <-> good a) -> Lawful d enc' good'.
Proof.
  intros L He Hg. split.
  - apply lawful_peeks.
  - intros s p a rest Hat Hp Ha E Hf. apply Hg in Ha. rewrite He in * by done. by apply (lawful_ok (Lawful := L)).
  - intros s p a s' Hat Hp Hd. destruct (lawful_sound (Lawful := L) s p a s' Hat Hp Hd) as [Ha H].
    rewrite He by done. split; [by apply Hg|done].
  - intros a Ha. apply Hg in Ha. rewrite He by done. by apply lawful_nonempty.
  - intros a Ha. apply Hg in Ha. rewrite He by done. by apply lawful_bytes.
Qed.

Lemma map_lawful {A B} (f : A -> B) (g : B -> A) (d : decoder A) enc good :
  (forall a, g (f a) = a) -> (forall b, good (g b) -> f (g b) = b) ->
  Lawful d enc good -> Lawful (decodeMap f d) (fun b => enc (g b)) (fun b => good (g b)).
Proof.
  intros Hgf Hfg L. destruct (lawful_peeks (Lawful := L)) as (Hagain & Herr & Heol). split; unfold decodeMap.
  - split_and!; [intros s; by rewrite Hagain|intros s e s1 HK; by rewrite (Herr _ _ _ HK)|].
    intros s p x s1 s' Hat Hp HK. pose proof (fun s' => Heol s p x s1 s' Hat Hp HK) as Hd.
    destruct (d s) as [[a|e] s2]; [done|]. specialize (Hd s2). congruence.
  - intros s p b rest Hat Hp Hg E Hf. destruct (lawful_ok s p (g b) rest Hat Hp Hg E Hf) as (s' & -> & Hat').
    rewrite Hfg by done. by exists s'.
  - intros s p b s' Hat Hp. destruct (d s) as [[a|e] s1] eqn:Hd; [|done]. intros [= <- <-]. rewrite Hgf.
    by apply (lawful_sound (Lawful := L) s).
  - intros b. apply lawful_nonempty.
  - intros b. apply lawful_bytes.
Qed.

Definition goodSome {A} (good : A -> Prop) (o : option A) : Prop := match o with Some a => good a | None => False end.

#[export] Instance ptr_lawful {A} (d : decoder A) enc good e0 :
  Lawful d enc good -> Lawful (decodePtr d) (from_option enc e0) (goodSome good).
Proof.
  intros L. destruct (lawful_peeks (Lawful := L)) as (Hagain & Herr & Heol). split; unfold decodePtr.
  - split_and!; [intros s; by rewrite Hagain|intros s e s1 HK; by rewrite (Herr _ _ _ HK)|].
    intros s p x s1 s' Hat Hp HK. pose proof (fun s' => Heol s p x s1 s' Hat Hp HK) as Hd.
    destruct (d s) as [[a|e] s2]; [done|]. specialize (Hd s2). congruence.
  - intros s p [a|] rest Hat Hp Hg E Hf; [|done].
    destruct (lawful_ok s p a rest Hat Hp Hg E Hf) as (s' & -> & Hat'). by exists s'.
  - intros s p o s' Hat Hp. destruct (d s) as [[a|e] s1] eqn:Hd; [|done]. intros [= <- <-].
    by apply (lawful_sound (Lawful := L) s).
  - intros [a|] Hg; [by apply (lawful_nonempty (Lawful := L))|done].
  - intros [a|] Hg; [by apply (lawful_bytes (Lawful := L))|done].
Qed.

(** ** Fields *)

Lemma field_sound {A} (d : decoder A) enc good `{!Lawful d enc good} s p a s' :
  at_ s p -> proper p -> decodeField d s = (Ok a, s') ->
  good a /\ exists rest, inp p = enc a ++ rest /\ at_ s' (advance (Z.of_nat (length (enc a))) p rest).
Proof.
  intros Hat Hp. unfold decodeField. destruct (d s) as [[a'|e] s1] eqn:Hd; [|by destruct e]. intros [= -> <-].
  by apply (lawful_sound s).
Qed.

Lemma field_ok {A} (d : decoder A) enc good `{!Lawful d enc good} s p a rest :
  at_ s p -> proper p -> good a -> inp p = enc a ++ rest -> fits (Z.of_nat (length (enc a))) p ->
  exists s', decodeField d s = (Ok a, s') /\ at_ s' (advance (Z.of_nat (length (enc a))) p rest).
Proof.
  intros Hat Hp Hg E Hf. unfold decodeField. destruct (lawful_ok s p a rest Hat Hp Hg E Hf) as (s' & -> & Hat'). by exists s'.
Qed.

Lemma field_eol {A} (d : decoder A) s s' : decodeField d s <> (Err EOL, s').
Proof. unfold decodeField. destruct (d s) as [[a|e] s1]; [done|]. by destruct e. Qed.

#[export] Instance last_fields {A} (d : decoder A) enc good : Lawful d enc good -> LawfulFields (decodeField d) enc good.
Proof.
  intros L. split.
  - intros s p a rest Hat Hp Hg E _ Hf. by apply field_ok with good.
  - intros s p a s'. by apply field_sound.
  - intros s p s' _ _. apply field_eol.
  - apply lawful_bytes.
Qed.

Definition encPair {A B} (ea : A -> list Z) (eb : B -> list Z) (x : A * B) : list Z := ea x.1 ++ eb x.2.
Definition goodPair {A B} (ga : A -> Prop) (gb : B -> Prop) (x : A * B) : Prop := ga x.1 /\ gb x.2.

#[export] Instance pair_fields {A B} (da : decoder A) (db : decoder B) ea eb ga gb :
  Lawful da ea ga -> LawfulFields db eb gb ->
  LawfulFields (decodePair (decodeField da) db) (encPair ea eb) (goodPair ga gb).
Proof.
  intros La Lb. split; unfold decodePair.
  - intros s p [a b] rest Hat Hp [Ha Hb] E Hh Hf. unfold encPair in *. cbn [fst snd] in *.
    rewrite <- app_assoc in E. rewrite length_app, Nat2Z.inj_add in *.
    apply (fits_advance _ _ p (eb b ++ rest) Hp) in Hf as [Hf2 Hf1]; [|lia|lia].
    destruct (field_ok da ea ga s p a _ Hat Hp Ha E Hf1) as (s1 & -> & Hat1).
    destruct (fields_ok (LawfulFields := Lb) s1 _ b rest Hat1 (proper_advance _ p _ _ Hp E) Hb eq_refl) as (s2 & -> & Hat2); [|done|].
    { rewrite advance_within by (done || lia). destruct (st p); [done|]. cbn in Hh |- *. injection Hh as ->. f_equal. lia. }
    exists s2. split; [done|]. by rewrite advance_advance in Hat2.
  - intros s p [a b] s' Hat Hp. destruct (decodeField da s) as [[a'|e] s1] eqn:Hd; [|done].
    destruct (field_sound da ea ga s p a' s1 Hat Hp Hd) as (Ha & rest & E & Hat1).
    destruct (db s1) as [[b'|e] s2] eqn:Hd2; [|done]. intros [= -> -> <-].
    destruct (fields_sound (LawfulFields := Lb) s1 _ b s2 Hat1 (proper_advance _ p _ _ Hp E) Hd2) as (Hb & rest' & E' & Hat2).
    cbn in E'. subst rest. split; [by split|]. exists rest'. unfold encPair. cbn [fst snd].
    rewrite length_app, Nat2Z.inj_add. split; [by rewrite E, app_assoc|]. by rewrite advance_advance in Hat2.
  - intros s p s' Hat Hp. pose proof (field_eol da s) as Hne. destruct (decodeField da s) as [[a'|e] s1] eqn:Hd; [|specialize (Hne s1); congruence].
    destruct (field_sound da ea ga s p a' s1 Hat Hp Hd) as (Ha & rest & E & Hat1).
    pose proof (fun s' => fields_eol (LawfulFields := Lb) s1 _ s' Hat1 (proper_advance _ p _ _ Hp E)) as Hb.
    destruct (db s1) as [[b|e] s2]; [done|]. specialize (Hb s2). congruence.
  - intros [a b] [Ha Hb]. apply Forall_app. split; [by apply lawful_bytes|by apply fields_bytes].
Qed.

Definition goodOption {A} (good : A -> Prop) (o : option A) : Prop := match o with Some a => good a | None => True end.

#[export] Instance optional_fields {A} (d : decoder A) enc good :
  Lawful d enc good -> LawfulFields (decodeOptional None (decodePtr d)) (from_option enc []) (goodOption good).
Proof.
  intros L. split; unfold decodeOptional, decodePtr.
  - intros s p [a|] rest Hat Hp Hg E Hh Hf.
    + destruct (lawful_ok s p a rest Hat Hp Hg E Hf) as (s' & -> & Hat'). by exists s'.
    + rewrite (peeks_eol d s p lawful_peeks Hat Hh). exists s. split; [done|]. cbn in E |- *. by rewrite <- E, advance_0.
  - intros s p o s' Hat Hp. destruct (d s) as [[a|e] s1] eqn:Hd.
    + intros [= <- <-]. by apply (lawful_sound (Lawful := L) s).
    + destruct e; try done. intros [= <- <-]. destruct (peeks_eol_only d s p s1 lawful_peeks Hat Hp Hd) as [_ ->].
      split; [done|]. exists (inp p). split; [done|]. by rewrite advance_0.
  - intros s p s' _ _. destruct (d s) as [[a|e] s1]; [done|]. by destruct e.
  - intros [a|] Hg; [by apply (lawful_bytes (Lawful := L))|constructor].
Qed.

(** ** Pointers that may be nil *)

Definition emptyOf (k : Kind) : list Z := match k with KList => [0xC0] | _ => [0x80] end.
Definition encNilPtr {A} (k : Kind) (enc : A -> list Z) (o : option A) : list Z := from_option enc (emptyOf k) o.

Lemma emptyOf_tag k : k <> KByte -> emptyOf k = tag k 0.
Proof. by destruct k. Qed.

(** The element's own encoding must not begin like an empty value. *)
#[export] Instance nilPtr_lawful {A} (k : Kind) (d : decoder A) enc good :
  k <> KByte -> Lawful d enc good ->
  (forall a, good a -> head (enc a) <> Some 0x80 /\ head (enc a) <> Some 0xC0) ->
  Lawful (decodeNilPtr k d) (encNilPtr k enc) (goodOption good).
Proof.
  intros Hk L Hne. destruct (lawful_peeks (Lawful := L)) as (Hagain & Herr & Heol). split; unfold decodeNilPtr, decodePtr.
  - split_and!; [intros s; by rewrite Kind_again|intros s e s1 HK; by rewrite HK|].
    intros s p [k' n] s1 s' Hat Hp HK. rewrite HK. destruct (_ && _); [by case_decide|].
    pose proof (Hagain s) as Ha. rewrite HK in Ha. cbn [snd] in Ha. rewrite Ha.
    pose proof (fun s' => Heol s p _ s1 s' Hat Hp HK) as Hd. destruct (d s) as [[a|e] s2]; [done|]. specialize (Hd s2). congruence.
  - intros s p [a|] rest Hat Hp Hg E Hf; cbn [encNilPtr from_option] in *.
    + destruct (lawful_ok s p a rest Hat Hp Hg E Hf) as (s' & Hd & Hat').
      destruct (Kind_ s) as [[[k' n]|e] s1] eqn:HK; [|apply Herr in HK; congruence].
      replace (negb (bool_decide (k' = KByte)) && (n =? 0)) with false.
      { pose proof (Hagain s) as Ha. rewrite HK in Ha. cbn [snd] in Ha. rewrite Ha, Hd. by exists s'. }
      symmetry. apply not_true_is_false. rewrite andb_true_iff, negb_true_iff, bool_decide_eq_false, Z.eqb_eq. intros [Hkb ->].
      apply (Kind_sound s p) in HK as [Hfd _]; [|done|done]. destruct (Hne a Hg) as [H1 H2].
      pose proof (lawful_nonempty a Hg) as Hnil. destruct (enc a) as [|x l]; [done|].
      destruct k'; [done|..]; destruct Hfd as (_ & r & E' & _); rewrite E in E'; injection E' as -> _; done.
    + assert (inp p = tag k 0 ++ rest) as E0 by (rewrite E; by destruct k).
      destruct (Kind_tag s p k 0 rest Hat Hk Hp E0 ltac:(done)) as (s1 & -> & Hon & _).
      { eapply fits_le; [|exact Hf]. by destruct k. }
      rewrite bool_decide_eq_false_2 by done. cbn [negb andb Z.of_nat Z.eqb]. rewrite decide_True by done.
      eexists. split; [done|]. by destruct k.
  - intros s p o s' Hat Hp. destruct (Kind_ s) as [[[k' n]|e] s1] eqn:HK; [|done]. destruct (_ && _) eqn:Hc.
    + destruct (decide (k' = k)) as [->|]; [|done]. intros [= <- <-]. apply andb_true_iff in Hc as [_ Hn]. apply Z.eqb_eq in Hn as ->.
      apply (Kind_sound s p) in HK as [Hfd _]; [|done|done]. split; [done|]. cbn [encNilPtr from_option].
      rewrite emptyOf_tag by done. destruct k; [done|..]; destruct Hfd as (_ & r & E & _ & Hon); by exists r.
    + pose proof (Hagain s) as Ha. rewrite HK in Ha. cbn [snd] in Ha. rewrite Ha.
      destruct (d s) as [[a|e] s2] eqn:Hd; [|done]. intros [= <- <-]. by apply (lawful_sound (Lawful := L) s).
  - intros [a|] Hg; [by apply (lawful_nonempty (Lawful := L))|]. by destruct k.
  - intros [a|] Hg; [by apply (lawful_bytes (Lawful := L))|]. destruct k; by repeat constructor.
Qed.

(** An inner list that is longer than what is left of the outer one is entered all the same:
    its size is compared with what was left before its own tag. The limit of the outer list
    wraps around, and the error comes only when the input ends. *)
Lemma overlong_inner_list :
  let s := (List_ (Reset [0xC2; 0xC2; 1; 2] 4)).2 in
  stack s = [2] /\ (List_ s).1 = Ok 2 /\ stack (List_ s).2 = [2; 2 ^ 64 - 1] /\
  DecodeBytes (decodeListSlice (decodeListSlice (decodeUint 8))) [0xC2; 0xC2; 1; 2] = Err ErrValueTooLarge.
Proof. vm_compute. done. Qed.

(** ** The whole input *)

(** The stream of [DecodeBytes] starts outside of any list, with all of the input. *)
Lemma DecodeBytes_start b :
  Forall is_byte b -> Z.of_nat (length b) < 2 ^ 64 ->
  exists p, at_ (Reset b (Z.of_nat (length b))) p /\ proper p /\ st p = [] /\ inp p = b /\ rem p = Z.of_nat (length b).
Proof.
  intros Hb Hl. exists (mkPlace b [] (Z.of_nat (length b)) true).
  split_and!; [| |done|done|done].
  - unfold at_, on, Reset. cbn. split_and!; [done|done|done|by destruct (0 <? _)|done].
  - split_and!; [done|done|apply Forall_nil_2|unfold in_u64; cbn [rem]; lia].
Qed.

Lemma DecodeBytes_lawful {A} (d : decoder A) enc good `{!Lawful d enc good} b a :
  Forall is_byte b -> Z.of_nat (length b) < 2 ^ 64 -> DecodeBytes d b = Ok a <-> good a /\ b = enc a.
Proof.
  intros Hb Hl. unfold DecodeBytes. destruct (DecodeBytes_start b Hb Hl) as (p & Hat & Hp & Hs & Ei & Er).
  set (s := Reset b (Z.of_nat (length b))) in *. split.
  - destruct (d s) as [[a'|e] s'] eqn:Hd; [|done]. case_decide as Hi; [|done]. intros [= ->].
    destruct (lawful_sound s p a s' Hat Hp Hd) as (Hg & rest & E & (_ & Hi' & _)). cbn in Hi'. rewrite Hi in Hi'. subst rest.
    split; [done|]. by rewrite <- Ei, E, app_nil_r.
  - intros [Hg Eb]. destruct (lawful_ok s p a [] Hat Hp Hg) as (s' & -> & (_ & Hi & _)).
    + by rewrite app_nil_r, Ei.
    + split; [by rewrite Hs|]. intros _. rewrite Er, <- Eb. lia.
    + cbn in Hi. by rewrite decide_True.
Qed.

End RlpCompound.
