(* ===== verification/RlpReads.v ===== *)
(** * Decoders that read more than one encoding

    Where older encodings are still accepted, an encoding is not determined by the value. What is left of a lawful decoder is that it reads what the encoder writes;
    this passes to lists, structs and raw values. *)

From stdpp Require Import base tactics list.
From Stdlib Require Import ZArith Lia.
From S2P Require Import Prelude Bytes RlpRaw RlpLemmas RlpDecode RlpDecodeProps RlpCompound.

Open Scope Z_scope.

Import Rlp RlpLemmas RlpDecode RlpDecodeLemmas RlpCompound.

Module RlpReads.

Class Reads {A} (d : decoder A) (enc : A -> list Z) (good : A -> Prop) := {
  reads_kind s e s1 : Kind_ s = (Err e, s1) -> d s = (Err e, s1);
  reads_ok s p a rest :
    at_ s p -> proper p -> good a -> inp p = enc a ++ rest -> fits (Z.of_nat (length (enc a))) p ->
    exists s', d s = (Ok a, s') /\ at_ s' (advance (Z.of_nat (length (enc a))) p rest);
  reads_nonempty a : good a -> enc a <> [];
  reads_bytes a : good a -> Forall is_byte (enc a)
}.

#[export] Instance lawful_reads {A} (d : decoder A) enc good : Lawful d enc good -> Reads d enc good.
Proof. intros L. split; [apply lawful_peeks|apply lawful_ok|apply lawful_nonempty|apply lawful_bytes]. Qed.

(** The fields of a struct. *)
Class ReadsFields {A} (d : decoder A) (enc : A -> list Z) (good : A -> Prop) := {
  readsf_ok s p a rest :
    at_ s p -> proper p -> good a -> inp p = enc a ++ rest -> head (st p) = Some (Z.of_nat (length (enc a))) -> fits (Z.of_nat (length (enc a))) p ->
    exists s', d s = (Ok a, s') /\ at_ s' (advance (Z.of_nat (length (enc a))) p rest);
  readsf_bytes a : good a -> Forall is_byte (enc a)
}.

#[export] Instance reads_field {A} (d : decoder A) enc good : Reads d enc good -> ReadsFields (decodeField d) enc good.
Proof.
  intros L. split; [|apply reads_bytes]. intros s p a rest Hat Hp Hg E _ Hf. unfold decodeField. destruct (reads_ok s p a rest Hat Hp Hg E Hf) as (s' & -> & Hat'). by exists s'.
Qed.

#[export] Instance reads_pair {A B} (da : decoder A) (db : decoder B) ea eb ga gb :
  Reads da ea ga -> ReadsFields db eb gb -> ReadsFields (decodePair (decodeField da) db) (encPair ea eb) (goodPair ga gb).
Proof.
  intros La Lb. split; unfold decodePair.
  - intros s p [a b] rest Hat Hp [Ha Hb] E Hh Hf. unfold encPair in *. cbn [fst snd] in *. rewrite <- app_assoc in E. rewrite length_app, Nat2Z.inj_add in *.
    apply (fits_advance _ _ p (eb b ++ rest) Hp) in Hf as [Hf2 Hf1]; [|lia|lia]. unfold decodeField. destruct (reads_ok s p a _ Hat Hp Ha E Hf1) as (s1 & -> & Hat1).
    destruct (readsf_ok (ReadsFields := Lb) s1 _ b rest Hat1 (proper_advance _ p _ _ Hp E) Hb eq_refl) as (s2 & -> & Hat2); [|done|].
    { rewrite advance_within by (done || lia). destruct (st p); [done|]. cbn in Hh |- *. injection Hh as ->. f_equal. lia. }
    exists s2. split; [done|]. by rewrite advance_advance in Hat2.
  - intros [a b] [Ha Hb]. apply Forall_app. split; [by apply reads_bytes|by apply readsf_bytes].
Qed.

Section Lists.
Context {A} (d : decoder A) (enc : A -> list Z) (good : A -> Prop) `{!ReadsFields d enc good}.

#[export] Instance reads_struct : Reads (decodeStruct d) (fun a => encList (enc a)) (fun a => good a /\ Z.of_nat (length (encList (enc a))) < 2 ^ 64).
Proof.
  split; unfold decodeStruct.
  - intros s e s1 HK. unfold List_. by rewrite HK.
  - intros s p a rest Hat Hp [Hg Hl] E Hf. rewrite encList_taglen in *. unfold taglen in Hl at 1. rewrite encList_tag, <- app_assoc in E.
    destruct (List_ok s p (length (enc a)) (enc a ++ rest) Hat Hp E ltac:(lia) Hf) as (s1 & -> & Hat1 & Hfn).
    set (q := advance (taglen KList (length (enc a))) p (enc a ++ rest)) in *. assert (proper q) as Hq by (by eapply proper_advance).
    assert (in_u64 (Z.of_nat (length (enc a)))) as Hn by (split; lia).
    destruct (readsf_ok s1 _ a rest Hat1 (inside_proper _ _ Hn Hq) Hg eq_refl eq_refl) as (s2 & -> & Hat2); [split; [cbn; lia|]; apply Hfn|].
    destruct (closeList_ok a s2 _ q rest Hat2) as (s3 & -> & Hat3). exists s3. split; [done|]. unfold q in Hat3. by rewrite advance_advance in Hat3.
  - intros a _. apply encList_ne.
  - intros a [Hg Hl]. apply readsf_bytes in Hg. by apply encList_is_bytes.
Qed.

End Lists.

Section Slices.
Context {A} (d : decoder A) (enc : A -> list Z) (good : A -> Prop) `{!Reads d enc good}.

Lemma reads_elems fuel s p l rest :
  at_ s p -> proper p -> Forall good l -> inp p = encElems enc l ++ rest -> head (st p) = Some (Z.of_nat (length (encElems enc l))) -> fits (Z.of_nat (length (encElems enc l))) p ->
  (length (encElems enc l) <= fuel)%nat ->
  exists s', decodeElems fuel d s = (Ok l, s') /\ at_ s' (advance (Z.of_nat (length (encElems enc l))) p rest).
Proof.
  revert fuel s p. induction l as [|a l IH]; intros fuel s p Hat Hp Hg E Hh Hf Hfuel.
  - exists s. cbn in E. rewrite <- E. change (Z.of_nat (length (encElems enc []))) with 0. rewrite advance_0 by done.
    split; [|done]. assert (d s = (Err EOL, s)) as Hd by (apply reads_kind; by apply Kind_eol with p). destruct fuel; cbn [decodeElems]; by rewrite Hd.
  - inversion_clear Hg as [|?? Ha Hl]. pose proof (reads_nonempty a Ha) as Hne. assert (0 < length (enc a))%nat as Hpos by (destruct (enc a); [done|cbn; lia]).
    assert (encElems enc (a :: l) = enc a ++ encElems enc l) as El by done. rewrite El in *. rewrite length_app, Nat2Z.inj_add in *.
    rewrite <- app_assoc in E. apply (fits_advance _ _ p (encElems enc l ++ rest) Hp) in Hf as [Hf2 Hf1]; [|lia|lia].
    destruct (reads_ok s p a _ Hat Hp Ha E Hf1) as (s1 & Hd & Hat1). destruct fuel as [|fuel]; [lia|]. cbn [decodeElems]. rewrite Hd.
    destruct (IH fuel s1 _ Hat1 (proper_advance _ p _ _ Hp E) Hl eq_refl) as (s2 & -> & Hat2); [|done|lia|].
    { rewrite advance_within by (done || lia). destruct (st p); [done|]. cbn in Hh |- *. injection Hh as ->. f_equal. lia. }
    exists s2. split; [done|]. by rewrite advance_advance in Hat2.
Qed.

#[export] Instance reads_sliceElems : ReadsFields (decodeSliceElems d) (encElems enc) (Forall good).
Proof.
  split; unfold decodeSliceElems.
  - intros s p l rest Hat Hp Hg E Hh Hf. apply reads_elems; try done. destruct Hat as (_ & Hi & _). rewrite Hi, E, length_app. lia.
  - intros l Hl. unfold encElems. induction Hl; [constructor|]. cbn [fmap list_fmap concat]. apply Forall_app. split; [by apply reads_bytes|done].
Qed.

#[export] Instance reads_list : Reads (decodeListSlice d) (fun l => encList (encElems enc l)) (fun l => Forall good l /\ Z.of_nat (length (encList (encElems enc l))) < 2 ^ 64).
Proof.
  pose proof (reads_struct (decodeSliceElems d) (encElems enc) (Forall good)) as L. split.
  - intros s e s1 HK. unfold decodeListSlice, List_. by rewrite HK.
  - intros s p l rest Hat Hp Hg E Hf. destruct (reads_ok (Reads := L) s p l rest Hat Hp Hg E Hf) as (s' & Hd & Hat'). exists s'. split; [|done]. rewrite <- Hd. unfold decodeListSlice, decodeStruct.
    destruct (List_ s) as [[n|e] s1] eqn:HL; [|done]. destruct (Z.eqb_spec n 0) as [->|]; [|done]. destruct (List_sound s p 0 s1 Hat Hp HL) as (_ & rest' & _ & Hat1).
    assert (d s1 = (Err EOL, s1)) as Hd1 by (apply reads_kind; by eapply Kind_eol). unfold decodeSliceElems. destruct (length (input s1)); cbn [decodeElems]; by rewrite Hd1.
  - apply (reads_nonempty (Reads := L)).
  - apply (reads_bytes (Reads := L)).
Qed.

End Slices.

Lemma reads_map {A B} (f : A -> B) (g : B -> A) (d : decoder A) enc good (goodB : B -> Prop) :
  Reads d enc good -> (forall b, goodB b -> good (g b) /\ f (g b) = b) -> Reads (decodeMap f d) (fun b => enc (g b)) goodB.
Proof.
  intros L Hg. split; unfold decodeMap.
  - intros s e s1 HK. by rewrite (reads_kind s e s1 HK).
  - intros s p b rest Hat Hp Hb E Hf. destruct (Hg b Hb) as [Hga Hfg]. destruct (reads_ok s p (g b) rest Hat Hp Hga E Hf) as (s' & -> & Hat'). rewrite Hfg. by exists s'.
  - intros b Hb. apply reads_nonempty. by apply Hg.
  - intros b Hb. apply reads_bytes. by apply Hg.
Qed.

Lemma DecodeBytes_reads {A} (d : decoder A) enc good `{!Reads d enc good} a : good a -> Z.of_nat (length (enc a)) < 2 ^ 64 -> DecodeBytes d (enc a) = Ok a.
Proof.
  intros Hg Hl. unfold DecodeBytes. destruct (DecodeBytes_start (enc a) (reads_bytes a Hg) Hl) as (p & Hat & Hp & Hs & Ei & Er).
  destruct (reads_ok _ p a [] Hat Hp Hg) as (s' & -> & (_ & Hi & _)); [by rewrite app_nil_r, Ei|split; [by rewrite Hs|]; intros _; rewrite Er; lia|]. cbn in Hi. by rewrite decide_True.
Qed.

(** A decoder that takes a whole list first and then looks into it. *)
Lemma reads_rawAs {A} (f : list Z -> res A) (enc : A -> list Z) (good : A -> Prop) :
  (forall a, good a -> f (enc a) = Ok a) -> (forall a, good a -> exists payload, enc a = encList payload /\ Forall is_byte payload /\ Z.of_nat (length (encList payload)) < 2 ^ 64) ->
  Reads (fun s => match Raw s with (Err e, s) => (Err e, s) | (Ok blob, s) => (f blob, s) end) enc good.
Proof.
  intros Hf Hg. split; unfold Raw.
  - intros s e s1 HK. by rewrite HK.
  - intros s p a rest Hat Hp Ha E Hfit. pose proof (Hf a Ha) as Hfa. destruct (Hg a Ha) as (payload & Ea & Hb & Hl). rewrite Ea in *. pose proof (encList_taglen payload) as Elen. rewrite Elen in *. unfold taglen in Hl at 1.
    pose proof E as E'. rewrite encList_tag, <- app_assoc in E'.
    destruct (Kind_tag s p KList (length payload) (payload ++ rest) Hat ltac:(done) Hp E' ltac:(lia) Hfit) as (s1 & -> & Hon & Hfn).
    destruct (readFull_ok s1 _ _ payload rest Hon eq_refl eq_refl Hfn) as (s2 & -> & Hat2). rewrite decide_False by done. rewrite puthead_header by lia.
    change (header 0xC0 0xF7 (length payload) ++ payload) with (encList payload). rewrite Hfa. exists s2. split; [done|]. by rewrite advance_advance in Hat2.
  - intros a Ha. destruct (Hg a Ha) as (payload & -> & _). apply encList_ne.
  - intros a Ha. destruct (Hg a Ha) as (payload & -> & Hb & Hl). by apply encList_is_bytes.
Qed.

Lemma reads_raw {A} (f : list Z -> res A) (payload : A -> list Z) (good : A -> Prop) :
  (forall a, good a -> f (encList (payload a)) = Ok a) -> (forall a, good a -> Forall is_byte (payload a) /\ Z.of_nat (length (encList (payload a))) < 2 ^ 64) ->
  Reads (fun s => match Raw s with (Err e, s) => (Err e, s) | (Ok blob, s) => (f blob, s) end) (fun a => encList (payload a)) good.
Proof. intros Hf Hg. apply reads_rawAs; [done|]. intros a Ha. exists (payload a). by destruct (Hg a Ha). Qed.

(** A raw list. *)
Lemma reads_rawList (good : list Z -> Prop) : (forall a, good a -> exists payload, a = encList payload /\ Forall is_byte payload /\ Z.of_nat (length (encList payload)) < 2 ^ 64) -> Reads decodeRawValue id good.
Proof.
  intros Hg. pose proof (reads_rawAs Ok id good ltac:(done) Hg) as L. assert (forall s, decodeRawValue s = match Raw s with (Err e, s) => (Err e, s) | (Ok blob, s) => (Ok blob, s) end) as E.
  { intros s. unfold decodeRawValue. by destruct (Raw s) as [[?|?] ?]. }
  split; [| |apply (reads_nonempty (Reads := L))|apply (reads_bytes (Reads := L))]; intros *; rewrite E; [apply (reads_kind (Reads := L))|apply (reads_ok (Reads := L))].
Qed.

(** A pointer that may be nil; the element's own encoding must not begin like an empty value. *)
Lemma reads_nilPtr {A} (k : Kind) (d : decoder A) enc good :
  k <> KByte -> Reads d enc good -> (forall s, d (Kind_ s).2 = d s) -> (forall a, good a -> head (enc a) <> Some 0x80 /\ head (enc a) <> Some 0xC0) ->
  Reads (decodeNilPtr k d) (encNilPtr k enc) (goodOption good).
Proof.
  intros Hk L Hagain Hne. split; unfold decodeNilPtr, decodePtr.
  - intros s e s1 HK. by rewrite HK.
  - intros s p [a|] rest Hat Hp Hg E Hf; cbn [encNilPtr from_option] in *.
    + destruct (reads_ok s p a rest Hat Hp Hg E Hf) as (s' & Hd & Hat'). destruct (Kind_ s) as [[[k' n]|e] s1] eqn:HK; [|apply (reads_kind (Reads := L)) in HK; congruence].
      replace (negb (bool_decide (k' = KByte)) && (n =? 0)) with false.
      { pose proof (Hagain s) as Ha. rewrite HK in Ha. cbn [snd] in Ha. rewrite Ha, Hd. by exists s'. }
      symmetry. apply not_true_is_false. rewrite andb_true_iff, negb_true_iff, bool_decide_eq_false, Z.eqb_eq. intros [Hkb ->].
      apply (Kind_sound s p) in HK as [Hfd _]; [|done|done]. destruct (Hne a Hg) as [H1 H2]. pose proof (reads_nonempty a Hg) as Hnil. destruct (enc a) as [|x l]; [done|].
      destruct k'; [done|..]; destruct Hfd as (_ & r & E' & _); rewrite E in E'; injection E' as -> _; done.
    + assert (inp p = tag k 0 ++ rest) as E0 by (rewrite E; by destruct k). destruct (Kind_tag s p k 0 rest Hat Hk Hp E0 ltac:(done)) as (s1 & -> & Hon & _).
      { eapply fits_le; [|exact Hf]. by destruct k. }
      rewrite bool_decide_eq_false_2 by done. cbn [negb andb Z.of_nat Z.eqb]. rewrite decide_True by done. eexists. split; [done|]. by destruct k.
  - intros [a|] Hg; [by apply (reads_nonempty (Reads := L))|]. by destruct k.
  - intros [a|] Hg; [by apply (reads_bytes (Reads := L))|]. destruct k; by repeat constructor.
Qed.

End RlpReads.
