(* ===== verification/TypesRlp.v ===== *)
(** * Encodings of headers, transactions and blocks (src/core/types)

    The consensus data with all its fields and the RLP codecs of block.go,
    gen_header_rlp.go, transaction.go and the files of the transaction types; the sizes that transactions cache,
    the hashes and the order in which [DeriveSha] feeds a trie. Byte arrays are lists
    of bytes of their length; a [*big.Int] is an optional number, [None] the nil pointer. *)

From stdpp Require Import base tactics list.
From Stdlib Require Import ZArith Lia.
From S2P Require Import Prelude Bytes RlpRaw RlpEncode RlpDecode.

Open Scope Z_scope.
Open Scope go_scope.

Import Rlp RlpDecode RlpEncode.

Module TypesRlp.

Record Header := mkHeader {
  ParentHash : list Z;
  UncleHash : list Z;
  Coinbase : list Z;
  Root : list Z;
  TxHash : list Z;
  ReceiptHash : list Z;
  Bloom : list Z;
  Difficulty : option Z;
  Number : option Z;
  GasLimit : Z;
  GasUsed : Z;
  Time : Z;
  Extra : list Z;
  MixDigest : list Z;
  Nonce : list Z;
  BaseFee : option Z
}.

Record LegacyTx := mkLegacy {
  lNonce : Z;
  lGasPrice : option Z;
  lGas : Z;
  lTo : option (list Z);
  lValue : option Z;
  lData : list Z;
  lV : option Z;
  lR : option Z;
  lS : option Z
}.

Record AccessTuple := mkTuple { Address : list Z; StorageKeys : list (list Z) }.

Record AccessListTx := mkAccess {
  aChainID : option Z;
  aNonce : Z;
  aGasPrice : option Z;
  aGas : Z;
  aTo : option (list Z);
  aValue : option Z;
  aData : list Z;
  aAccessList : list AccessTuple;
  aV : option Z;
  aR : option Z;
  aS : option Z
}.

Record DynamicFeeTx := mkDynamic {
  dChainID : option Z;
  dNonce : Z;
  dGasTipCap : option Z;
  dGasFeeCap : option Z;
  dGas : Z;
  dTo : option (list Z);
  dValue : option Z;
  dData : list Z;
  dAccessList : list AccessTuple;
  dV : option Z;
  dR : option Z;
  dS : option Z
}.

Inductive TxData :=
| Legacy (tx : LegacyTx)
| AccessListTx_ (tx : AccessListTx)
| DynamicFee (tx : DynamicFeeTx).

(** A transaction with its cached size; the time it was first seen and the caches of its
    hash and sender are left out. *)
Record Transaction := mkTransaction { inner : TxData; size : option Z }.

Record Block := mkBlock {
  header : Header;
  transactions : list Transaction;
  uncles : list Header;
  blockSize : option Z
}.

Definition txType (tx : TxData) : Z :=
  match tx with Legacy _ => 0 | AccessListTx_ _ => 1 | DynamicFee _ => 2 end.

Definition setDecoded (inner : TxData) (size : Z) : Transaction :=
  mkTransaction inner (if 0 <? size then Some size else None).

(** A copy of a big integer that may be nil. *)
Definition copyBig (i : option Z) : option Z := Some (default 0 i).

Definition copyLegacyTx (t : LegacyTx) : LegacyTx :=
  mkLegacy (lNonce t) (copyBig (lGasPrice t)) (lGas t) (lTo t) (copyBig (lValue t)) (lData t)
    (copyBig (lV t)) (copyBig (lR t)) (copyBig (lS t)).

Definition copyAccessListTx (t : AccessListTx) : AccessListTx :=
  mkAccess (copyBig (aChainID t)) (aNonce t) (copyBig (aGasPrice t)) (aGas t) (aTo t) (copyBig (aValue t)) (aData t)
    (aAccessList t) (copyBig (aV t)) (copyBig (aR t)) (copyBig (aS t)).

Definition copyDynamicFeeTx (t : DynamicFeeTx) : DynamicFeeTx :=
  mkDynamic (copyBig (dChainID t)) (dNonce t) (copyBig (dGasTipCap t)) (copyBig (dGasFeeCap t)) (dGas t) (dTo t)
    (copyBig (dValue t)) (dData t) (dAccessList t) (copyBig (dV t)) (copyBig (dR t)) (copyBig (dS t)).

Definition copyTx (tx : TxData) : TxData :=
  match tx with
  | Legacy t => Legacy (copyLegacyTx t)
  | AccessListTx_ t => AccessListTx_ (copyAccessListTx t)
  | DynamicFee t => DynamicFee (copyDynamicFeeTx t)
  end.

Definition NewTx (inner : TxData) : Transaction := setDecoded (copyTx inner) 0.

(** ** Encoding *)

(** [Header.EncodeRLP], the generated code. *)
Definition HeaderEncodeRLP (h : Header) : writer :=
  writeList ([writeByteSlice (ParentHash h); writeByteSlice (UncleHash h); writeByteSlice (Coinbase h);
    writeByteSlice (Root h); writeByteSlice (TxHash h); writeByteSlice (ReceiptHash h); writeByteSlice (Bloom h);
    writeBigIntPtr (Difficulty h); writeBigIntPtr (Number h); writeUint (GasLimit h); writeUint (GasUsed h);
    writeUint (Time h); writeByteSlice (Extra h); writeByteSlice (MixDigest h); writeByteSlice (Nonce h)] ++
    match BaseFee h with Some f => [writeBigIntPtr (Some f)] | None => [] end).

Definition addressValue (a : option (list Z)) : goValue := VPtr KString (VArray <$> a).

Definition tupleValue (t : AccessTuple) : goValue := VStruct [VArray (Address t); VSlice (VArray <$> StorageKeys t)].

(** The fields of a transaction as [makeWriter] sees them. *)
Definition innerValue (tx : TxData) : goValue :=
  match tx with
  | Legacy t =>
      VStruct [VUint (lNonce t); VBig (lGasPrice t); VUint (lGas t); addressValue (lTo t); VBig (lValue t); VBytes (lData t);
        VBig (lV t); VBig (lR t); VBig (lS t)]
  | AccessListTx_ t =>
      VStruct [VBig (aChainID t); VUint (aNonce t); VBig (aGasPrice t); VUint (aGas t); addressValue (aTo t);
        VBig (aValue t); VBytes (aData t); VSlice (tupleValue <$> aAccessList t); VBig (aV t); VBig (aR t); VBig (aS t)]
  | DynamicFee t =>
      VStruct [VBig (dChainID t); VUint (dNonce t); VBig (dGasTipCap t); VBig (dGasFeeCap t); VUint (dGas t);
        addressValue (dTo t); VBig (dValue t); VBytes (dData t); VSlice (tupleValue <$> dAccessList t);
        VBig (dV t); VBig (dR t); VBig (dS t)]
  end.

Definition encodeInner (tx : TxData) : go (res (list Z)) := EncodeToBytes (makeWriter (innerValue tx)).

Definition encodeTyped (tx : TxData) : go (res (list Z)) :=
  let! r := encodeInner tx in
  match r with Ok bs => Ret (Ok (txType tx :: bs)) | Err e => Ret (Err e) end.

(** [Transaction.EncodeRLP]. *)
Definition TransactionEncodeRLP (tx : Transaction) : writer := fun buf =>
  if txType (inner tx) =? 0 then makeWriter (innerValue (inner tx)) buf
  else
    let! r := encodeTyped (inner tx) in
    match r with Ok bs => writeByteSlice bs buf | Err e => Ret (Err e) end.

Definition MarshalBinary (tx : Transaction) : go (res (list Z)) :=
  if txType (inner tx) =? 0 then encodeInner (inner tx) else encodeTyped (inner tx).

(** [Block.EncodeRLP], by way of [extblock]. *)
Definition BlockEncodeRLP (b : Block) : writer :=
  writeStruct [HeaderEncodeRLP (header b); writeSlice (TransactionEncodeRLP <$> transactions b);
    writeSlice (HeaderEncodeRLP <$> uncles b)].

(** [Transaction.Size]; on an error of the encoder nothing is counted. *)
Definition Size (tx : Transaction) : go Z :=
  match size tx with
  | Some n => Ret n
  | None =>
      let! r := encodeInner (inner tx) in
      Ret (match r with Ok bs => Z.of_nat (length bs) | Err _ => 0 end)
  end.

(** ** Decoding *)

Definition decodeBig : decoder (option Z) := decodePtr decodeBigInt.
Definition decodeHash : decoder (list Z) := decodeByteArray 32.
Definition decodeAddress : decoder (list Z) := decodeByteArray 20.
Definition decodeTo : decoder (option (list Z)) := decodeNilPtr KString decodeAddress.
Definition decodeUint64 : decoder Z := decodeUint 64.

(** A decoder for each type of a struct's field that occurs, joined with [+++]. *)
Declare Scope rlp_scope.
Notation "d +++ e" := (decodePair (decodeField d) e) (at level 60, right associativity) : rlp_scope.
Open Scope rlp_scope.

Definition decodeHeader : decoder Header :=
  decodeMap (fun '(parent, (uncle, (coinbase, (root, (tx, (receipt, (bloom, (difficulty, (number,
      (limit, (used, (time, (extra, (mix, (nonce, fee))))))))))))))) =>
    mkHeader parent uncle coinbase root tx receipt bloom difficulty number limit used time extra mix nonce fee)
  (decodeStruct (decodeHash +++ decodeHash +++ decodeAddress +++ decodeHash +++ decodeHash +++ decodeHash +++
    decodeByteArray 256 +++ decodeBig +++ decodeBig +++ decodeUint64 +++ decodeUint64 +++ decodeUint64 +++
    decodeByteSlice +++ decodeHash +++ decodeByteArray 8 +++ decodeOptional None decodeBig)).

Definition decodeTuple : decoder AccessTuple :=
  decodeMap (fun '(address, keys) => mkTuple address keys)
  (decodeStruct (decodeAddress +++ decodeField (decodeListSlice decodeHash))).

Definition decodeAccessList : decoder (list AccessTuple) := decodeListSlice decodeTuple.

Definition decodeLegacyTx : decoder LegacyTx :=
  decodeMap (fun '(nonce, (price, (gas, (to, (value, (data, (v, (r, s)))))))) => mkLegacy nonce price gas to value data v r s)
  (decodeStruct (decodeUint64 +++ decodeBig +++ decodeUint64 +++ decodeTo +++ decodeBig +++ decodeByteSlice +++
    decodeBig +++ decodeBig +++ decodeField decodeBig)).

Definition decodeAccessListTx : decoder AccessListTx :=
  decodeMap (fun '(chain, (nonce, (price, (gas, (to, (value, (data, (access, (v, (r, s)))))))))) =>
    mkAccess chain nonce price gas to value data access v r s)
  (decodeStruct (decodeBig +++ decodeUint64 +++ decodeBig +++ decodeUint64 +++ decodeTo +++ decodeBig +++
    decodeByteSlice +++ decodeAccessList +++ decodeBig +++ decodeBig +++ decodeField decodeBig)).

Definition decodeDynamicFeeTx : decoder DynamicFeeTx :=
  decodeMap (fun '(chain, (nonce, (tip, (fee, (gas, (to, (value, (data, (access, (v, (r, s))))))))))) =>
    mkDynamic chain nonce tip fee gas to value data access v r s)
  (decodeStruct (decodeBig +++ decodeUint64 +++ decodeBig +++ decodeBig +++ decodeUint64 +++ decodeTo +++ decodeBig +++
    decodeByteSlice +++ decodeAccessList +++ decodeBig +++ decodeBig +++ decodeField decodeBig)).

Definition mapRes {A B} (f : A -> B) (r : res A) : res B := match r with Ok a => Ok (f a) | Err e => Err e end.

Definition decodeTyped (b : list Z) : res TxData :=
  match b with
  | [] => Err errEmptyTypedTx
  | t :: rest =>
      if t =? 1 then mapRes AccessListTx_ (DecodeBytes decodeAccessListTx rest)
      else if t =? 2 then mapRes DynamicFee (DecodeBytes decodeDynamicFeeTx rest)
      else Err ErrTxTypeNotSupported
  end.

(** [Transaction.DecodeRLP]. *)
Definition TransactionDecodeRLP : decoder Transaction := fun s =>
  match Kind_ s with
  | (Err e, s) => (Err e, s)
  | (Ok (KList, n), s) => decodeMap (fun t => setDecoded (Legacy t) (i64 (ListSize n))) decodeLegacyTx s
  | (Ok (KString, _), s) =>
      match Bytes s with
      | (Err e, s) => (Err e, s)
      | (Ok b, s) => (mapRes (fun t => setDecoded t (Z.of_nat (length b))) (decodeTyped b), s)
      end
  | (Ok (KByte, _), s) => (Err ErrExpectedList, s)
  end.

Definition UnmarshalBinary (b : list Z) : res Transaction :=
  let n := Z.of_nat (length b) in
  match b with
  | t :: _ => if 0x7f <? t then mapRes (fun t => setDecoded (Legacy t) n) (DecodeBytes decodeLegacyTx b)
              else mapRes (fun t => setDecoded t n) (decodeTyped b)
  | [] => mapRes (fun t => setDecoded t n) (decodeTyped b)
  end.

(** [Block.DecodeRLP]: the size of the value is looked at first, an error there is met again. *)
Definition BlockDecodeRLP : decoder Block := fun s =>
  let '(k, s) := Kind_ s in
  let n := match k with Ok (_, n) => n | Err _ => 0 end in
  decodeMap (fun '(h, (txs, us)) => mkBlock h txs us (Some (ListSize n)))
    (decodeStruct (decodeHeader +++ decodeListSlice TransactionDecodeRLP +++ decodeField (decodeListSlice decodeHeader))) s.

(** ** Hashes *)

Section Hashes.

(** Keccak-256, from a library. *)
Context (keccak : list Z -> list Z).

(** An error of the encoder leaves the hash of what was written before. *)
Definition rlpHash (prefix : list Z) (w : writer) : go (list Z) :=
  let! r := EncodeToBytes w in
  Ret (keccak (prefix ++ match r with Ok bs => bs | Err _ => [] end)).

Definition HeaderHash (h : Header) : go (list Z) := rlpHash [] (HeaderEncodeRLP h).

Definition TransactionHash (tx : Transaction) : go (list Z) :=
  let prefix := if txType (inner tx) =? 0 then [] else [txType (inner tx)] in
  rlpHash prefix (makeWriter (innerValue (inner tx))).

Definition BlockHash (b : Block) : go (list Z) := HeaderHash (header b).

End Hashes.

(** ** The order of a derived trie *)

(** The keys under which [DeriveSha] inserts a list of [n] items, with their indices. *)
Definition deriveKeys (n : nat) : list (list Z * nat) :=
  let key i := (AppendUint64 [] (Z.of_nat i), i) in
  (key <$> seq 1 (Nat.min n 0x80 - 1)) ++ (if decide (0 < n)%nat then [key 0%nat] else []) ++ (key <$> seq 0x80 (n - 0x80)).

End TypesRlp.
