(* ===== verification/TypesRlpProps.v ===== *)
(** * The codecs of headers, transactions and blocks are inverse (TypesRlp.v) *)

From stdpp Require Import base tactics list sorting.
From Stdlib Require Import ZArith Lia.
From S2P Require Import Prelude Bytes RlpRaw RlpLemmas RlpEncode RlpEncodeProps RlpDecode RlpDecodeProps RlpCompound TypesRlp.

Open Scope Z_scope.
Open Scope go_scope.
Open Scope rlp_scope.

Import Rlp RlpLemmas RlpEncodeLemmas RlpDecode RlpDecodeLemmas RlpCompound RlpEncode TypesRlp.

Module TypesRlpLemmas.

(** ** Well-formed values *)

Definition arrayOk (n : nat) (b : list Z) : Prop := Forall is_byte b /\ length b = n.

(** A big integer that is present and not negative. *)
Definition bigOk : option Z -> Prop := goodSome (fun v => 0 <= v /\ Z.of_nat (bytelen v) < 2 ^ 64).

Definition toOk : option (list Z) -> Prop := goodOption (arrayOk 20).

Definition shortEnough (bs : list Z) : Prop := Z.of_nat (length bs) < 2 ^ 64.

#[export] Instance decodeBig_lawful : Lawful decodeBig (fun o => encUint (default 0 o)) bigOk.
Proof. apply (lawful_ext _ (from_option encUint []) _ bigOk); [apply ptr_lawful, BigInt_lawful|by intros []|done]. Qed.

#[export] Instance decodeHash_lawful : Lawful decodeHash encString (arrayOk 32).
Proof. by apply ReadBytes_lawful. Qed.

#[export] Instance decodeAddress_lawful : Lawful decodeAddress encString (arrayOk 20).
Proof. by apply ReadBytes_lawful. Qed.

#[export] Instance decodeBloom_lawful : Lawful (decodeByteArray 256) encString (arrayOk 256).
Proof. by apply ReadBytes_lawful. Qed.

#[export] Instance decodeNonce_lawful : Lawful (decodeByteArray 8) encString (arrayOk 8).
Proof. by apply ReadBytes_lawful. Qed.

#[export] Instance decodeUint64_lawful : Lawful decodeUint64 encUint in_u64.
Proof. apply (uint_lawful 8). lia. Qed.

Lemma address_head a : arrayOk 20 a -> head (encString a) = Some 0x94.
Proof. intros [_ Hl]. unfold encString. do 2 (destruct a as [|? a]; [done|]). by rewrite Hl. Qed.

#[export] Instance decodeTo_lawful : Lawful decodeTo (fun o => encOf (addressValue o)) toOk.
Proof.
  apply (lawful_ext _ (encNilPtr KString encString) _ toOk); [|by intros []|done].
  apply nilPtr_lawful; [done|apply _|]. intros a Ha. by rewrite address_head.
Qed.

(** ** Headers *)

Definition headerFields (h : Header) : list Z :=
  concat [encString (ParentHash h); encString (UncleHash h); encString (Coinbase h); encString (Root h);
    encString (TxHash h); encString (ReceiptHash h); encString (Bloom h); encUint (default 0 (Difficulty h));
    encUint (default 0 (Number h)); encUint (GasLimit h); encUint (GasUsed h); encUint (Time h); encString (Extra h);
    encString (MixDigest h); encString (Nonce h); from_option encUint [] (BaseFee h)].

Definition encHeader (h : Header) : list Z := encList (headerFields h).

Definition headerOk (h : Header) : Prop :=
  (arrayOk 32 (ParentHash h) /\ arrayOk 32 (UncleHash h) /\ arrayOk 20 (Coinbase h) /\ arrayOk 32 (Root h) /\
   arrayOk 32 (TxHash h) /\ arrayOk 32 (ReceiptHash h) /\ arrayOk 256 (Bloom h) /\ bigOk (Difficulty h) /\
   bigOk (Number h) /\ in_u64 (GasLimit h) /\ in_u64 (GasUsed h) /\ in_u64 (Time h) /\ strGood (Extra h) /\
   arrayOk 32 (MixDigest h) /\ arrayOk 8 (Nonce h) /\
   goodOption (fun v => 0 <= v /\ Z.of_nat (bytelen v) < 2 ^ 64) (BaseFee h)) /\
  shortEnough (encHeader h).

Definition headerTuple (h : Header) :=
  (ParentHash h, (UncleHash h, (Coinbase h, (Root h, (TxHash h, (ReceiptHash h, (Bloom h, (Difficulty h, (Number h,
    (GasLimit h, (GasUsed h, (Time h, (Extra h, (MixDigest h, (Nonce h, BaseFee h))))))))))))))).

#[export] Instance decodeHeader_lawful : Lawful decodeHeader encHeader headerOk.
Proof.
  eapply lawful_ext; [apply (map_lawful _ headerTuple); [|by intros []|apply struct_lawful, _]|..].
  - by intros (?&?&?&?&?&?&?&?&?&?&?&?&?&?&?&?).
  - intros h _. unfold encHeader, headerFields, encPair, headerTuple. cbn [fst snd concat]. by rewrite app_nil_r.
  - intros h. unfold headerOk, shortEnough, encHeader, headerFields, goodPair, encPair, headerTuple. cbn [fst snd concat].
    by rewrite app_nil_r.
Qed.

(** ** Transactions *)

Definition encTuple (t : AccessTuple) : list Z := encOf (tupleValue t).

Definition tupleOk (t : AccessTuple) : Prop :=
  (arrayOk 20 (Address t) /\ Forall (arrayOk 32) (StorageKeys t) /\ shortEnough (encList (concat (encString <$> StorageKeys t)))) /\
  shortEnough (encTuple t).

Lemma keys_fmap (l : list (list Z)) : encOf <$> (VArray <$> l) = encString <$> l.
Proof. by rewrite <- list_fmap_compose. Qed.

#[export] Instance decodeTuple_lawful : Lawful decodeTuple encTuple tupleOk.
Proof.
  eapply lawful_ext; [apply (map_lawful _ (fun t => (Address t, StorageKeys t))); [|by intros []|apply struct_lawful, _]|..].
  - by intros (?&?).
  - intros t _. unfold encTuple, tupleValue, encPair, encElems. cbn [encOf fmap list_fmap concat fst snd].
    by rewrite app_nil_r, keys_fmap.
  - intros t. unfold tupleOk, goodPair, encPair, encElems, shortEnough, encTuple, tupleValue.
    cbn [encOf fmap list_fmap fst snd concat]. by rewrite app_nil_r, keys_fmap.
Qed.

Definition accessOk (l : list AccessTuple) : Prop := Forall tupleOk l /\ shortEnough (encList (concat (encTuple <$> l))).

#[export] Instance decodeAccessList_lawful : Lawful decodeAccessList (fun l => encOf (VSlice (tupleValue <$> l))) accessOk.
Proof.
  eapply lawful_ext; [apply list_lawful, _|intros l _|done]. cbn [encOf]. by rewrite <- list_fmap_compose.
Qed.

Definition encInner (tx : TxData) : list Z := encOf (innerValue tx).

(** The concatenated fields of a struct. *)
Definition fieldsOf (v : goValue) : list Z := match v with VStruct vs => concat (encOf <$> vs) | _ => [] end.

Definition innerOk (tx : TxData) : Prop :=
  match tx with
  | Legacy t => in_u64 (lNonce t) /\ bigOk (lGasPrice t) /\ in_u64 (lGas t) /\ toOk (lTo t) /\ bigOk (lValue t) /\
      strGood (lData t) /\ bigOk (lV t) /\ bigOk (lR t) /\ bigOk (lS t)
  | AccessListTx_ t => bigOk (aChainID t) /\ in_u64 (aNonce t) /\ bigOk (aGasPrice t) /\ in_u64 (aGas t) /\ toOk (aTo t) /\
      bigOk (aValue t) /\ strGood (aData t) /\ accessOk (aAccessList t) /\ bigOk (aV t) /\ bigOk (aR t) /\ bigOk (aS t)
  | DynamicFee t => bigOk (dChainID t) /\ in_u64 (dNonce t) /\ bigOk (dGasTipCap t) /\ bigOk (dGasFeeCap t) /\
      in_u64 (dGas t) /\ toOk (dTo t) /\ bigOk (dValue t) /\ strGood (dData t) /\ accessOk (dAccessList t) /\
      bigOk (dV t) /\ bigOk (dR t) /\ bigOk (dS t)
  end /\ shortEnough (encInner tx).

Lemma encInner_list tx : encInner tx = encList (fieldsOf (innerValue tx)).
Proof. by destruct tx. Qed.

Ltac inner_tuple := unfold innerOk, shortEnough, encInner, fieldsOf, innerValue, goodPair, encPair;
  cbn [encOf fmap list_fmap concat fst snd]; by rewrite app_nil_r.

#[export] Instance decodeLegacyTx_lawful :
  Lawful decodeLegacyTx (fun t => encInner (Legacy t)) (fun t => innerOk (Legacy t)).
Proof.
  eapply lawful_ext; [apply (map_lawful _ (fun t =>
    (lNonce t, (lGasPrice t, (lGas t, (lTo t, (lValue t, (lData t, (lV t, (lR t, lS t))))))))));
    [|by intros []|apply struct_lawful, _]|..].
  - by intros (?&?&?&?&?&?&?&?&?).
  - intros t _. inner_tuple.
  - intros t. inner_tuple.
Qed.

#[export] Instance decodeAccessListTx_lawful :
  Lawful decodeAccessListTx (fun t => encInner (AccessListTx_ t)) (fun t => innerOk (AccessListTx_ t)).
Proof.
  eapply lawful_ext; [apply (map_lawful _ (fun t =>
    (aChainID t, (aNonce t, (aGasPrice t, (aGas t, (aTo t, (aValue t, (aData t, (aAccessList t, (aV t, (aR t, aS t))))))))))));
    [|by intros []|apply struct_lawful, _]|..].
  - by intros (?&?&?&?&?&?&?&?&?&?&?).
  - intros t _. inner_tuple.
  - intros t. inner_tuple.
Qed.

#[export] Instance decodeDynamicFeeTx_lawful :
  Lawful decodeDynamicFeeTx (fun t => encInner (DynamicFee t)) (fun t => innerOk (DynamicFee t)).
Proof.
  eapply lawful_ext; [apply (map_lawful _ (fun t =>
    (dChainID t, (dNonce t, (dGasTipCap t, (dGasFeeCap t, (dGas t, (dTo t, (dValue t, (dData t, (dAccessList t, (dV t,
     (dR t, dS t)))))))))))));
    [|by intros []|apply struct_lawful, _]|..].
  - by intros (?&?&?&?&?&?&?&?&?&?&?&?).
  - intros t _. inner_tuple.
  - intros t. inner_tuple.
Qed.

(** ** What the encoders write *)

Lemma bigOk_negative o : bigOk o -> negative (VBig o) = false.
Proof. destruct o as [v|]; [|done]. intros [Hv _]. by apply Z.ltb_ge. Qed.

Lemma u64_inRange v : in_u64 v -> inRange (VUint v) = true.
Proof. intros [H1 H2]. cbn [inRange]. apply andb_true_iff. split; [by apply Z.leb_le|by apply Z.ltb_lt]. Qed.

Lemma arrays_plain (l : list (list Z)) : negative (VSlice (VArray <$> l)) = false /\ inRange (VSlice (VArray <$> l)) = true.
Proof. cbn [negative inRange]. induction l as [|b l [IH1 IH2]]; [done|]. cbn. by rewrite IH1, IH2. Qed.

Lemma tuples_plain l : negative (VSlice (tupleValue <$> l)) = false /\ inRange (VSlice (tupleValue <$> l)) = true.
Proof.
  cbn [negative inRange]. induction l as [|t l [IH1 IH2]]; [done|]. cbn [fmap list_fmap existsb forallb]. rewrite IH1, IH2.
  destruct (arrays_plain (StorageKeys t)) as [H1 H2]. unfold tupleValue. cbn [negative inRange existsb forallb] in *.
  by rewrite H1, H2.
Qed.

Lemma address_plain o : negative (addressValue o) = false /\ inRange (addressValue o) = true.
Proof. by destruct o. Qed.

Lemma inner_writes tx : innerOk tx -> encodes (makeWriter (innerValue tx)) (encInner tx).
Proof.
  intros [Hok Hl]. pose proof (makeWriter_spec (innerValue tx)) as Hw. unfold writesAs in Hw.
  assert (negative (innerValue tx) = false /\ inRange (innerValue tx) = true) as [Hn Hr].
  { destruct tx as [t|t|t]; cbn [innerValue negative inRange existsb forallb] in *; destruct_and? Hok;
      repeat match goal with
      | H : bigOk ?o |- _ => apply bigOk_negative in H; cbn [negative] in H; rewrite ?H; clear H
      | H : in_u64 ?v |- _ => apply u64_inRange in H; cbn [inRange] in H; rewrite ?H; clear H
      end.
    - destruct (address_plain (lTo t)) as [-> ->]. done.
    - destruct (address_plain (aTo t)) as [-> ->]. destruct (tuples_plain (aAccessList t)) as [H1 H2].
      cbn [negative inRange] in H1, H2. by rewrite H1, H2.
    - destruct (address_plain (dTo t)) as [-> ->]. destruct (tuples_plain (dAccessList t)) as [H1 H2].
      cbn [negative inRange] in H1, H2. by rewrite H1, H2. }
  rewrite Hn in Hw. by apply Hw.
Qed.

Lemma bigOk_encodes o : bigOk o -> encodes (writeBigIntPtr o) (encUint (default 0 o)).
Proof. destruct o as [v|]; [|done]. intros [Hv Hl]. by apply encodes_big. Qed.

Lemma arrayOk_encodes n b : arrayOk n b -> Z.of_nat n < 2 ^ 64 -> encodes (writeByteSlice b) (encString b).
Proof. intros [_ Hl] Hn. apply encodes_bytes. lia. Qed.

Lemma encodes_listAs ws bss payload :
  Forall2 encodes ws bss -> concat bss = payload -> Z.of_nat (length payload) < 2 ^ 64 ->
  encodes (writeList ws) (encList payload).
Proof. intros Hw <- Hl. by apply encodes_list. Qed.

Lemma header_writes h : headerOk h -> encodes (HeaderEncodeRLP h) (encHeader h).
Proof.
  intros [Hok Hl]. unfold shortEnough in Hl. pose proof (RlpEncodeLemmas.encList_length (headerFields h)) as Hle. fold (encHeader h) in Hle.
  unfold HeaderEncodeRLP. destruct_and? Hok.
  assert (exists bss, Forall2 encodes (match BaseFee h with Some f => [writeBigIntPtr (Some f)] | None => [] end) bss /\
    concat bss = from_option encUint [] (BaseFee h)) as (bss & Hb & Eb).
  { destruct (BaseFee h) as [f|]; [|by exists []]. exists [encUint f]. split; [|apply app_nil_r]. constructor; [|done].
    by apply (bigOk_encodes (Some f)). }
  apply (encodes_listAs _ ([encString (ParentHash h); encString (UncleHash h); encString (Coinbase h); encString (Root h);
    encString (TxHash h); encString (ReceiptHash h); encString (Bloom h); encUint (default 0 (Difficulty h));
    encUint (default 0 (Number h)); encUint (GasLimit h); encUint (GasUsed h); encUint (Time h); encString (Extra h);
    encString (MixDigest h); encString (Nonce h)] ++ bss)); [|unfold headerFields; cbn [concat app]; by rewrite Eb, app_nil_r|lia].
  apply Forall2_app; [|done]. repeat (apply Forall2_cons; split; [|]); try (by apply bigOk_encodes); try (by apply encodes_uint);
    try (by eapply arrayOk_encodes); try (match goal with H : strGood _ |- _ => by apply encodes_bytes, H end); constructor.
Qed.

(** The bytes of a transaction by itself, and as part of a list. *)
Definition encBinary (tx : TxData) : list Z := if txType tx =? 0 then encInner tx else txType tx :: encInner tx.
Definition encTx (tx : TxData) : list Z := if txType tx =? 0 then encInner tx else encString (encBinary tx).

(** The size that decoding leaves in the cache. *)
Definition decodedSize (tx : TxData) : Z :=
  if txType tx =? 0 then i64 (ListSize (Z.of_nat (length (fieldsOf (innerValue tx))))) else Z.of_nat (length (encBinary tx)).

Definition txOk (tx : Transaction) : Prop :=
  innerOk (inner tx) /\ shortEnough (encBinary (inner tx)) /\ tx = setDecoded (inner tx) (decodedSize (inner tx)).

Lemma encodeInner_ok tx : innerOk tx -> encodeInner tx = Ret (Ok (encInner tx)).
Proof. intros Hok. by apply encodes_EncodeToBytes, inner_writes. Qed.

Lemma transaction_writes tx :
  innerOk (inner tx) -> shortEnough (encBinary (inner tx)) -> encodes (TransactionEncodeRLP tx) (encTx (inner tx)).
Proof.
  intros Hok Hl. unfold encTx, encBinary, shortEnough in *. destruct (txType (inner tx) =? 0) eqn:Ht.
  - destruct (inner_writes _ Hok) as (segs & Hw & H). exists segs. split; [|done]. intros buf. unfold TransactionEncodeRLP.
    by rewrite Ht.
  - destruct (encodes_bytes _ Hl) as (segs & Hw & H). exists segs. split; [|done]. intros buf. unfold TransactionEncodeRLP, encodeTyped.
    rewrite Ht, encodeInner_ok by done. apply Hw.
Qed.

Lemma MarshalBinary_ok tx : innerOk (inner tx) -> MarshalBinary tx = Ret (Ok (encBinary (inner tx))).
Proof.
  intros Hok. unfold MarshalBinary, encodeTyped, encBinary. rewrite encodeInner_ok by done. by destruct (_ =? 0).
Qed.

(** ** Reading transactions *)

Lemma encInner_ne tx : encInner tx <> [].
Proof. rewrite encInner_list. apply encList_ne. Qed.

Lemma DecodeBytes_eol {A} (d : decoder A) enc good `{!Lawful d enc good} b :
  Forall is_byte b -> shortEnough b -> DecodeBytes d b <> Err EOL.
Proof.
  intros Hb Hl. unfold DecodeBytes. destruct (DecodeBytes_start b Hb Hl) as (p & Hat & Hp & Hs & _).
  destruct (d _) as [[a|e] s'] eqn:Hd; [by case_decide|]. intros [= ->].
  destruct (peeks_eol_only d _ p s' lawful_peeks Hat Hp Hd) as [H _]. by rewrite Hs in H.
Qed.

Lemma decodeTyped_spec b tx :
  strGood b -> decodeTyped b = Ok tx <-> txType tx <> 0 /\ innerOk tx /\ b = encBinary tx.
Proof.
  intros [Hb Hl]. unfold decodeTyped, encBinary. destruct b as [|t rest].
  { split; [done|]. intros (Ht & _ & E). by rewrite (proj2 (Z.eqb_neq _ _)) in E. }
  inversion_clear Hb as [|?? _ Hb']. cbn [length] in Hl.
  assert (Z.of_nat (length rest) < 2 ^ 64) as Hl' by lia.
  destruct (Z.eqb_spec t 1) as [->|H1]; [|destruct (Z.eqb_spec t 2) as [->|H2]].
  - split.
    + destruct (DecodeBytes decodeAccessListTx rest) as [t|e] eqn:Hd; [|done]. intros [= <-].
      apply (DecodeBytes_lawful _ _ _) in Hd as [Hg ->]; done.
    + destruct tx as [t|t|t]; intros (Ht & Hok & E); try done. injection E as ->.
      by rewrite (proj2 (DecodeBytes_lawful _ _ _ _ t Hb' Hl') (conj Hok eq_refl)).
  - split.
    + destruct (DecodeBytes decodeDynamicFeeTx rest) as [t|e] eqn:Hd; [|done]. intros [= <-].
      apply (DecodeBytes_lawful _ _ _) in Hd as [Hg ->]; done.
    + destruct tx as [t|t|t]; intros (Ht & Hok & E); try done. injection E as ->.
      by rewrite (proj2 (DecodeBytes_lawful _ _ _ _ t Hb' Hl') (conj Hok eq_refl)).
  - split; [done|]. destruct tx as [t'|t'|t']; intros (Ht & Hok & E); [by destruct Ht|..]; injection E; congruence.
Qed.

Lemma decodeTyped_eol b : strGood b -> decodeTyped b <> Err EOL.
Proof.
  intros [Hb Hl]. unfold decodeTyped. destruct b as [|t rest]; [done|]. inversion_clear Hb as [|?? _ Hb']. cbn [length] in Hl.
  assert (shortEnough rest) as Hl' by (unfold shortEnough; lia).
  pose proof (DecodeBytes_eol decodeAccessListTx _ _ rest Hb' Hl'). pose proof (DecodeBytes_eol decodeDynamicFeeTx _ _ rest Hb' Hl').
  destruct (t =? 1); [destruct (DecodeBytes decodeAccessListTx rest); cbn; congruence|].
  destruct (t =? 2); [destruct (DecodeBytes decodeDynamicFeeTx rest); cbn; congruence|done].
Qed.

Lemma legacy_kind s p t s' :
  at_ s p -> proper p -> decodeLegacyTx s = (Ok t, s') ->
  (Kind_ s).1 = Ok (KList, Z.of_nat (length (fieldsOf (innerValue (Legacy t))))).
Proof.
  intros Hat Hp. unfold decodeLegacyTx, decodeMap. destruct (decodeStruct _ s) as [[a|e] s1] eqn:Hd; [|done].
  pose proof (struct_kind _ _ _ s p a s1 Hat Hp Hd) as HK. destruct a as (?&?&?&?&?&?&?&?&?). intros [= <- <-]. rewrite HK. do 4 f_equal.
  unfold fieldsOf, innerValue, encPair. cbn [encOf fmap list_fmap concat fst snd]. by rewrite app_nil_r.
Qed.

(** What follows the first look, with the look undone. *)
Lemma transaction_unfold s :
  TransactionDecodeRLP s =
    match Kind_ s with
    | (Err e, s') => (Err e, s')
    | (Ok (KList, n), _) => decodeMap (fun t => setDecoded (Legacy t) (i64 (ListSize n))) decodeLegacyTx s
    | (Ok (KString, _), _) =>
        match Bytes s with
        | (Err e, s') => (Err e, s')
        | (Ok b, s') => (mapRes (fun t => setDecoded t (Z.of_nat (length b))) (decodeTyped b), s')
        end
    | (Ok (KByte, _), s') => (Err ErrExpectedList, s')
    end.
Proof.
  unfold TransactionDecodeRLP. pose proof (proj1 (lawful_peeks (Lawful := decodeLegacyTx_lawful)) s) as H1.
  pose proof (proj1 (lawful_peeks (Lawful := Bytes_lawful)) s) as H2. unfold decodeByteSlice in H2.
  destruct (Kind_ s) as [[[[] n]|e] s1]; cbn [snd] in *; [done| | |done].
  - by rewrite H2.
  - unfold decodeMap. by rewrite H1.
Qed.

Lemma inner_setDecoded t n : inner (setDecoded t n) = t.
Proof. done. Qed.

Lemma typed_kind s p b s' : at_ s p -> proper p -> Bytes s = (Ok b, s') -> (1 < length b)%nat -> exists n, (Kind_ s).1 = Ok (KString, n).
Proof.
  intros Hat Hp. unfold Bytes. destruct (Kind_ s) as [[[[] n]|e] s1]; [|by eexists|done|done]. intros [= <- <-]. cbn. lia.
Qed.

Lemma transaction_peeks : peeks TransactionDecodeRLP.
Proof.
  destruct (lawful_peeks (Lawful := decodeLegacyTx_lawful)) as (_ & _ & HL).
  destruct (lawful_peeks (Lawful := Bytes_lawful)) as (_ & _ & HB). split_and!.
  - intros s. unfold TransactionDecodeRLP. by rewrite Kind_again.
  - intros s e s1 HK. unfold TransactionDecodeRLP. by rewrite HK.
  - intros s p x s1 s' Hat Hp HK. rewrite transaction_unfold. pose proof (fun s' => HL s p x s1 s' Hat Hp HK) as H1.
    pose proof (fun s' => HB s p x s1 s' Hat Hp HK) as H2. rewrite HK. destruct x as [[] n]; [done| |].
    + unfold decodeByteSlice in H2. destruct (Bytes s) as [[b|e] s2] eqn:Hb; [|specialize (H2 s2); congruence].
      destruct (lawful_sound (Lawful := Bytes_lawful) s p b s2 Hat Hp Hb) as [Hg _].
      pose proof (decodeTyped_eol b Hg). destruct (decodeTyped b); cbn; congruence.
    + unfold decodeMap. destruct (decodeLegacyTx s) as [[t|e] s2]; [done|]. specialize (H1 s2). congruence.
Qed.

Lemma encBinary_bytes tx : innerOk tx -> Forall is_byte (encBinary tx).
Proof.
  intros Hok. assert (Forall is_byte (encInner tx)) as Hb.
  { destruct tx; [by apply (lawful_bytes (Lawful := decodeLegacyTx_lawful))|
      by apply (lawful_bytes (Lawful := decodeAccessListTx_lawful))|by apply (lawful_bytes (Lawful := decodeDynamicFeeTx_lawful))]. }
  unfold encBinary. destruct (_ =? 0); [done|]. constructor; [by destruct tx|done].
Qed.

Lemma encTx_bytes tx : innerOk tx -> shortEnough (encBinary tx) -> Forall is_byte (encTx tx).
Proof.
  intros Hok Hl. pose proof (encBinary_bytes tx Hok) as Hb. unfold encTx. destruct (_ =? 0) eqn:Ht.
  - unfold encBinary in Hb. by rewrite Ht in Hb.
  - by apply encString_is_bytes.
Qed.

#[export] Instance transaction_lawful : Lawful TransactionDecodeRLP (fun tx => encTx (inner tx)) txOk.
Proof.
  split; [apply transaction_peeks|..].
  - intros s p tx rest Hat Hp (Hok & Hl & Etx) E Hf. rewrite transaction_unfold. unfold encTx, decodedSize in *.
    destruct (txType (inner tx) =? 0) eqn:Ht.
    + destruct (inner tx) as [t|t|t] eqn:Ei; [|done..].
      destruct (lawful_ok (Lawful := decodeLegacyTx_lawful) s p t rest Hat Hp Hok E Hf) as (s' & Hd & Hat').
      pose proof (legacy_kind s p t s' Hat Hp Hd) as HK. destruct (Kind_ s) as [r s1]. cbn [fst] in HK. subst r.
      unfold decodeMap. rewrite Hd. exists s'. split; [|done]. by rewrite Etx at 1.
    + destruct (lawful_ok (Lawful := Bytes_lawful) s p (encBinary (inner tx)) rest Hat Hp) as (s' & Hd & Hat'); [|done|done|].
      { split; [|done]. destruct Hp as (Hb & _). rewrite E in Hb. by apply encString_bytes in Hb. }
      unfold decodeByteSlice in Hd. assert (strGood (encBinary (inner tx))) as Hg
        by (by apply (lawful_sound (Lawful := Bytes_lawful) s p _ s')).
      destruct (typed_kind s p _ s' Hat Hp Hd) as (n & HK).
      { unfold encBinary. rewrite Ht. pose proof (encInner_ne (inner tx)). destruct (encInner (inner tx)); [done|cbn; lia]. }
      destruct (Kind_ s) as [r s1]. cbn [fst] in HK. subst r. rewrite Hd.
      apply Z.eqb_neq in Ht. rewrite (proj2 (decodeTyped_spec _ (inner tx) Hg) (conj Ht (conj Hok eq_refl))).
      exists s'. split; [|done]. by rewrite Etx at 2.
  - intros s p tx s' Hat Hp. rewrite transaction_unfold. destruct (Kind_ s) as [[[[] n]|e] s1] eqn:HK; [done| | |done].
    + destruct (Bytes s) as [[b|e] s2] eqn:Hb; [|done].
      destruct (lawful_sound (Lawful := Bytes_lawful) s p b s2 Hat Hp Hb) as [Hg H].
      destruct (decodeTyped b) as [t|e] eqn:Hd; [|done]. intros [= <- <-]. apply (decodeTyped_spec b t Hg) in Hd as (Ht & Hok & ->).
      rewrite inner_setDecoded. unfold encTx, txOk, decodedSize. rewrite inner_setDecoded.
      rewrite (proj2 (Z.eqb_neq _ _)) by done. split; [|done]. split_and!; [done|apply Hg|done].
    + unfold decodeMap. destruct (decodeLegacyTx s) as [[t|e] s2] eqn:Hd; [|done]. intros [= <- <-].
      pose proof (legacy_kind s p t s2 Hat Hp Hd) as Hn. rewrite HK in Hn. injection Hn as ->.
      destruct (lawful_sound (Lawful := decodeLegacyTx_lawful) s p t s2 Hat Hp Hd) as [Hg H]. split; [|done].
      unfold txOk. rewrite inner_setDecoded. split; [done|]. split; [apply Hg|]. unfold decodedSize. cbn [txType Z.eqb]. reflexivity.
  - intros tx _. unfold encTx. destruct (_ =? 0); [apply encInner_ne|apply encString_ne].
  - intros tx (Hok & Hl & _). by apply encTx_bytes.
Qed.

(** ** Blocks *)

Definition encTxs (txs : list Transaction) : list Z := encList (concat ((fun tx => encTx (inner tx)) <$> txs)).
Definition encHeaders (hs : list Header) : list Z := encList (concat (encHeader <$> hs)).

Definition blockFields (b : Block) : list Z := encHeader (header b) ++ encTxs (transactions b) ++ encHeaders (uncles b).
Definition encBlock (b : Block) : list Z := encList (blockFields b).

(** The parts of a block are well formed, whatever the caches hold. *)
Definition blockOk (b : Block) : Prop :=
  headerOk (header b) /\ Forall (fun tx => innerOk (inner tx) /\ shortEnough (encBinary (inner tx))) (transactions b) /\
  Forall headerOk (uncles b) /\ shortEnough (encBlock b).

(** A block with the sizes in its caches that decoding puts there. *)
Definition sized (b : Block) : Block :=
  mkBlock (header b) ((fun tx => setDecoded (inner tx) (decodedSize (inner tx))) <$> transactions b) (uncles b)
    (Some (ListSize (Z.of_nat (length (blockFields b))))).

Definition blockDecoder : decoder (Header * (list Transaction * list Header)) :=
  decodeStruct (decodeHeader +++ decodeListSlice TransactionDecodeRLP +++ decodeField (decodeListSlice decodeHeader)).

Definition partsOf (b : Block) : Header * (list Transaction * list Header) := (header b, (transactions b, uncles b)).

Definition partsFields (x : Header * (list Transaction * list Header)) : list Z :=
  encHeader x.1 ++ encTxs x.2.1 ++ encHeaders x.2.2.

Definition partsOk (x : Header * (list Transaction * list Header)) : Prop :=
  headerOk x.1 /\ (Forall txOk x.2.1 /\ shortEnough (encTxs x.2.1)) /\ (Forall headerOk x.2.2 /\ shortEnough (encHeaders x.2.2)).

Lemma parts_fields :
  LawfulFields (decodeHeader +++ decodeListSlice TransactionDecodeRLP +++ decodeField (decodeListSlice decodeHeader))
    partsFields partsOk.
Proof.
  assert (Lawful (decodeListSlice TransactionDecodeRLP) encTxs (fun l => Forall txOk l /\ shortEnough (encTxs l))) as L1
    by apply (list_lawful TransactionDecodeRLP _ _).
  assert (Lawful (decodeListSlice decodeHeader) encHeaders (fun l => Forall headerOk l /\ shortEnough (encHeaders l))) as L2
    by apply (list_lawful decodeHeader _ _).
  exact (pair_fields _ _ _ _ _ _ decodeHeader_lawful (pair_fields _ _ _ _ _ _ L1 (last_fields _ _ _ L2))).
Qed.

#[export] Instance block_lawful :
  Lawful BlockDecodeRLP encBlock (fun b => partsOk (partsOf b) /\ shortEnough (encBlock b) /\
    blockSize b = Some (ListSize (Z.of_nat (length (blockFields b))))).
Proof.
  pose proof parts_fields as F. pose proof (struct_lawful _ _ _ (LawfulFields0 := F)) as L. fold blockDecoder in L.
  destruct (lawful_peeks (Lawful := L)) as (Hagain & Herr & Heol).
  assert (forall s, BlockDecodeRLP s = decodeMap (fun '(h, (txs, us)) =>
    mkBlock h txs us (Some (ListSize (match (Kind_ s).1 with Ok (_, n) => n | Err _ => 0 end)))) blockDecoder s) as Hs.
  { intros s. unfold BlockDecodeRLP. pose proof (Hagain s) as Ha. destruct (Kind_ s) as [k s1]. cbn [fst snd] in *.
    fold blockDecoder. unfold decodeMap. by rewrite Ha. }
  split.
  - split_and!; [intros s; unfold BlockDecodeRLP; by rewrite Kind_again|intros s e s1 HK; rewrite Hs; unfold decodeMap; by rewrite (Herr _ _ _ HK)|].
    intros s p x s1 s' Hat Hp HK. rewrite Hs. pose proof (fun s' => Heol s p x s1 s' Hat Hp HK) as Hd. unfold decodeMap.
    destruct (blockDecoder s) as [[[h [txs us]]|e] s2]; [done|]. specialize (Hd s2). congruence.
  - intros s p b rest Hat Hp (Hok & Hl & Hsz) E Hf. rewrite Hs.
    destruct (lawful_ok (Lawful := L) s p (partsOf b) rest Hat Hp (conj Hok Hl) E Hf) as (s' & Hd & Hat').
    pose proof (struct_kind _ _ _ s p _ s' Hat Hp Hd) as HK. rewrite HK. unfold decodeMap. rewrite Hd.
    exists s'. split; [|done]. destruct b as [h txs us sz]. cbn in Hsz |- *. by rewrite Hsz.
  - intros s p b s' Hat Hp. rewrite Hs. unfold decodeMap. destruct (blockDecoder s) as [[[h [txs us]]|e] s2] eqn:Hd; [|done].
    rewrite (struct_kind _ _ _ s p _ s2 Hat Hp Hd). intros [= <- <-].
    destruct (lawful_sound (Lawful := L) s p _ s2 Hat Hp Hd) as [[Hok Hl] H]. split; [|done]. by split_and!.
  - intros b _. apply encList_ne.
  - intros b (Hok & Hl & _). by apply (lawful_bytes (Lawful := L) (partsOf b)).
Qed.

Lemma shortEnough_app a b c : shortEnough (encList (a ++ b ++ c)) -> shortEnough a /\ shortEnough b /\ shortEnough c.
Proof. unfold shortEnough. rewrite encList_taglen, !length_app. unfold taglen. lia. Qed.

Lemma concat_short l : shortEnough (encList l) -> Z.of_nat (length l) < 2 ^ 64.
Proof. unfold shortEnough. rewrite encList_taglen. unfold taglen. lia. Qed.

Lemma block_writes b : blockOk b -> encodes (BlockEncodeRLP b) (encBlock b).
Proof.
  intros (Hh & Ht & Hu & Hl). destruct (shortEnough_app _ _ _ Hl) as (_ & Hl2 & Hl3).
  apply (encodes_listAs _ [encHeader (header b); encTxs (transactions b); encHeaders (uncles b)]).
  - repeat (apply Forall2_cons; split); [by apply header_writes|apply encodes_slice|apply encodes_slice|constructor].
    + apply Forall2_fmap, Forall_Forall2_diag. eapply Forall_impl; [exact Ht|]. intros tx [H1 H2]. by apply transaction_writes.
    + by apply concat_short.
    + apply Forall2_fmap, Forall_Forall2_diag. eapply Forall_impl; [exact Hu|]. intros h. apply header_writes.
    + by apply concat_short.
  - unfold blockFields. cbn [concat]. by rewrite app_nil_r.
  - by apply concat_short.
Qed.

Lemma sized_fields b : blockFields (sized b) = blockFields b.
Proof. unfold blockFields, encTxs. cbn [header transactions uncles sized]. by rewrite <- list_fmap_compose. Qed.

Lemma sized_ok b : blockOk b -> partsOk (partsOf (sized b)) /\ shortEnough (encBlock (sized b)) /\
  blockSize (sized b) = Some (ListSize (Z.of_nat (length (blockFields (sized b))))).
Proof.
  intros (Hh & Ht & Hu & Hl). unfold encBlock. rewrite sized_fields. split_and!; [|done|done].
  pose proof Hl as Hl'. unfold encBlock in Hl'. rewrite <- sized_fields in Hl'. destruct (shortEnough_app _ _ _ Hl') as (_ & Hl2 & Hl3).
  split; [done|]. split; [split; [|done]|by split]. cbn. apply Forall_fmap. eapply Forall_impl; [exact Ht|].
  intros tx [H1 H2]. by split_and!.
Qed.

Lemma ok_sized b : partsOk (partsOf b) -> shortEnough (encBlock b) ->
  blockSize b = Some (ListSize (Z.of_nat (length (blockFields b)))) -> blockOk b /\ sized b = b.
Proof.
  intros (Hh & [Ht _] & [Hu _]) Hl Hs. cbn in Hh, Ht, Hu. split.
  - split_and!; [done| |done|done]. eapply Forall_impl; [exact Ht|]. by intros tx (? & ? & _).
  - destruct b as [h txs us sz]. unfold sized. cbn in Hs, Ht |- *. rewrite <- Hs. f_equal. clear Hs Hl. induction Ht as [|tx txs (_ & _ & E) _ IH]; [done|].
    cbn [fmap list_fmap]. by rewrite <- E, IH.
Qed.

Lemma copyBig_ok o : bigOk o -> copyBig o = o.
Proof. by destruct o. Qed.

Lemma copyTx_ok t : innerOk t -> copyTx t = t.
Proof.
  intros [Hok _]. destruct t as [t|t|t]; cbv beta iota in Hok; unfold copyTx, copyLegacyTx, copyAccessListTx, copyDynamicFeeTx;
    rewrite !copyBig_ok by tauto; by destruct t.
Qed.

Lemma legacy_first t : exists x l, encInner (Legacy t) = x :: l /\ 0x7f < x.
Proof.
  rewrite encInner_list. unfold encList, Rlp.header. case_decide; eexists _, _; (split; [done|]); [lia|].
  rewrite length_minimal. lia.
Qed.

Lemma Unmarshal_spec b tx :
  strGood b -> UnmarshalBinary b = Ok tx <-> innerOk (inner tx) /\ b = encBinary (inner tx) /\ tx = setDecoded (inner tx) (Z.of_nat (length b)).
Proof.
  intros Hg. pose proof Hg as [Hb Hl]. unfold UnmarshalBinary. 
  assert ((exists t l, b = t :: l /\ 0x7f < t) \/ ~ (exists t l, b = t :: l /\ 0x7f < t)) as [(t0 & l & Eb & Ht)|Hn].
  { destruct b as [|t l]; [right; by intros (?&?&?&?)|].
    destruct (decide (0x7f < t)); [left; by eexists _, _|right]. intros (?&?&[= <- <-]&?). lia. }
  - rewrite Eb at 1. rewrite (proj2 (Z.ltb_lt _ _)) by done. split.
    + destruct (DecodeBytes decodeLegacyTx b) as [t|e] eqn:Hd; [|done]. intros [= <-].
      apply (DecodeBytes_lawful _ _ _) in Hd as [Hok E]; done.
    + intros (Hok & E & ->). destruct (inner tx) as [t|t|t] eqn:Ei; [|rewrite Eb in E; injection E as -> _; done..].
      by rewrite (proj2 (DecodeBytes_lawful _ _ _ b t Hb Hl) (conj Hok E)).
  - assert (match b with
      | [] => mapRes (fun t => setDecoded t (Z.of_nat (length b))) (decodeTyped b)
      | t :: _ => if 0x7f <? t then mapRes (fun t => setDecoded (Legacy t) (Z.of_nat (length b))) (DecodeBytes decodeLegacyTx b)
          else mapRes (fun t => setDecoded t (Z.of_nat (length b))) (decodeTyped b)
      end = mapRes (fun t => setDecoded t (Z.of_nat (length b))) (decodeTyped b)) as ->.
    { destruct b as [|t l]; [done|]. destruct (Z.ltb_spec 0x7f t); [|done]. destruct Hn. by eexists _, _. }
    split.
    + destruct (decodeTyped b) as [t|e] eqn:Hd; [|done]. intros [= <-]. by apply decodeTyped_spec in Hd as (_ & ? & ?).
    + intros (Hok & E & ->). rewrite (proj2 (decodeTyped_spec b (inner tx) Hg)); [done|]. split_and!; [|done|done].
      intros H0. destruct (inner tx) as [t|t|t]; [|done..]. destruct Hn. destruct (legacy_first t) as (x & l & El & Hx).
      exists x, l. split; [by rewrite E|done].
Qed.

(** ** Keys in order *)

(** The lexicographic order of strings of which none is a prefix of another: they part, and the first is less there. *)
Fixpoint bytesLt (a b : list Z) : Prop :=
  match a, b with
  | x :: a, y :: b => x < y \/ x = y /\ bytesLt a b
  | _, _ => False
  end.

Lemma be_encode_S n z : be_encode (S n) z = z / 256 ^ Z.of_nat n mod 256 :: be_encode n z.
Proof.
  unfold be_encode. replace (S n) with (n + 1)%nat by lia. rewrite le_encode_app. cbn [le_encode]. by rewrite reverse_snoc.
Qed.

Lemma be_encode_mod n z : be_encode n (z mod 256 ^ Z.of_nat n) = be_encode n z.
Proof. unfold be_encode. by rewrite le_encode_mod. Qed.

Lemma be_encode_lt n i j : 0 <= i < j -> j < 256 ^ Z.of_nat n -> bytesLt (be_encode n i) (be_encode n j).
Proof.
  revert i j. induction n as [|n IH]; intros i j Hij Hj; [cbn in Hj; lia|]. rewrite !be_encode_S. cbn [bytesLt].
  set (m := 256 ^ Z.of_nat n) in *. assert (0 < m) as Hm by (apply Z.pow_pos_nonneg; lia).
  rewrite Nat2Z.inj_succ, Z.pow_succ_r in Hj by lia. fold m in Hj.
  pose proof (Z.div_mod i m). pose proof (Z.div_mod j m). pose proof (Z.mod_pos_bound i m Hm). pose proof (Z.mod_pos_bound j m Hm).
  pose proof (Z.div_pos i m). assert (j / m < 256) by (apply Z.div_lt_upper_bound; lia).
  assert (i / m <= j / m) by (apply Z.div_le_mono; lia). rewrite !Z.mod_small by lia.
  destruct (Z.eq_dec (i / m) (j / m)) as [E|]; [right|left; lia]. split; [done|].
  rewrite <- (be_encode_mod n i), <- (be_encode_mod n j). fold m. apply IH; [|lia]. nia.
Qed.

Lemma encUint_long i : 128 <= i -> (bytelen i < 56)%nat -> encUint i = 0x80 + Z.of_nat (bytelen i) :: minimal i.
Proof.
  intros Hi Hl. unfold encUint, encString. pose proof (length_minimal i) as Hm.
  destruct (minimal i) as [|x [|y l]] eqn:E.
  - rewrite <- (minimal_decode i) in Hi by lia. by rewrite E in Hi.
  - pose proof (minimal_decode i) as Hd. rewrite E, be_decode_cons in Hd. cbn in Hd. rewrite (proj2 (Z.ltb_ge _ _)) by lia.
    by rewrite <- Hm.
  - rewrite Hm. by rewrite header_small.
Qed.

Lemma encUint_lt i j : 128 <= i < j -> j < 2 ^ 64 -> bytesLt (encUint i) (encUint j).
Proof.
  intros Hij Hj. assert (bytelen j <= 8)%nat as Hb8 by (apply bytelen_le; lia).
  destruct (bytelen_spec i) as (ni & Ei & Hi); [lia|]. destruct (bytelen_spec j) as (nj & Ej & Hj'); [lia|].
  assert (ni <= nj)%nat as Hle.
  { apply Nat.nlt_ge. intros Hlt. assert (256 ^ Z.of_nat (S nj) <= 256 ^ Z.of_nat ni) by (apply Z.pow_le_mono_r; lia). lia. }
  rewrite !encUint_long by lia. cbn [bytesLt]. destruct (Nat.eq_dec ni nj) as [->|]; [right|left; lia].
  split; [lia|]. unfold minimal. rewrite Ei, Ej. apply be_encode_lt; lia.
Qed.

Lemma encUint_head i : 128 <= i -> i < 2 ^ 64 -> exists x l, encUint i = x :: l /\ 0x80 < x.
Proof.
  intros Hi Hj. pose proof (bytelen_le i 8). destruct (bytelen_spec i) as (n & E & _); [lia|]. rewrite encUint_long by lia.
  eexists _, _. split; [done|]. lia.
Qed.

Definition key (i : nat) : list Z * nat := (encUint (Z.of_nat i), i).

Lemma deriveKeys_enc n : Z.of_nat n < 2 ^ 64 ->
  deriveKeys n = (key <$> seq 1 (Nat.min n 0x80 - 1)) ++ (if decide (0 < n)%nat then [key 0] else []) ++ (key <$> seq 0x80 (n - 0x80)).
Proof.
  intros Hn. assert (forall i, (i < n)%nat -> (AppendUint64 [] (Z.of_nat i), i) = key i) as Hk.
  { intros i Hi. unfold key. rewrite AppendUint64_enc by (split; lia). done. }
  unfold deriveKeys. apply (f_equal2 app); [|apply (f_equal2 app)].
  - apply list_fmap_ext. intros j i [-> Hi]%lookup_seq. apply Hk. lia.
  - by case_decide.
  - apply list_fmap_ext. intros j i [-> Hi]%lookup_seq. apply Hk. lia.
Qed.

Lemma keys_indices n :
  ((key <$> seq 1 (Nat.min n 0x80 - 1)) ++ (if decide (0 < n)%nat then [key 0] else []) ++ (key <$> seq 0x80 (n - 0x80))).*2
    ≡ₚ seq 0 n.
Proof.
  assert (forall l, (key <$> l).*2 = l) as Hk.
  { intros l. rewrite <- list_fmap_compose. rewrite (list_fmap_ext _ id); [apply list_fmap_id|done]. }
  rewrite !fmap_app, !Hk. case_decide as Hd; [|by replace n with 0%nat by lia].
  cbn [fmap list_fmap app snd key]. rewrite <- Permutation_middle. rewrite app_comm_cons.
  change (0%nat :: seq 1 (Nat.min n 0x80 - 1)) with (seq 0 (S (Nat.min n 0x80 - 1))).
  replace (S (Nat.min n 0x80 - 1)) with (Nat.min n 0x80) by lia.
  destruct (decide (n <= 0x80)%nat) as [Hs|Hs].
  - replace (n - 0x80)%nat with 0%nat by lia. cbn [seq]. rewrite app_nil_r. by rewrite Nat.min_l.
  - rewrite Nat.min_r by lia. change 0x80%nat with (0 + 0x80)%nat at 2. rewrite <- seq_app. by replace (0x80 + (n - 0x80))%nat with n by lia.
Qed.

Lemma key_small i : (1 <= i < 0x80)%nat -> encUint (Z.of_nat i) = [Z.of_nat i].
Proof. intros Hi. apply uint_byte; unfold is_byte; lia. Qed.

(** Sorting of the parts: the keys of a run grow when its indices do. *)
Lemma keys_run a m :
  (forall i j, (a <= i < j)%nat -> (j < a + m)%nat -> bytesLt (encUint (Z.of_nat i)) (encUint (Z.of_nat j))) ->
  StronglySorted (fun x y => bytesLt x.1 y.1) (key <$> seq a m).
Proof.
  revert a. induction m as [|m IH]; intros a H; [constructor|]. cbn [seq fmap list_fmap]. constructor.
  - apply IH. intros i j Hi Hj. apply H; lia.
  - apply Forall_fmap, Forall_forall. intros j Hj%elem_of_seq. apply H; lia.
Qed.

Lemma keys_sorted n :
  Z.of_nat n < 2 ^ 64 -> StronglySorted (fun x y => bytesLt x.1 y.1)
  ((key <$> seq 1 (Nat.min n 0x80 - 1)) ++ (if decide (0 < n)%nat then [key 0] else []) ++ (key <$> seq 0x80 (n - 0x80))).
Proof.
  intros Hn. assert (forall i, (0x80 <= i < n)%nat -> exists x l, encUint (Z.of_nat i) = x :: l /\ 0x80 < x) as Hlong.
  { intros i Hi. apply encUint_head; lia. }
  apply StronglySorted_app_2; [|apply keys_run|apply StronglySorted_app_2].
  - intros x y (i & -> & Hi%elem_of_seq)%list_elem_of_fmap [Hy|Hy]%elem_of_app; cbn [key fst]; rewrite key_small by lia.
    + case_decide; [|by apply not_elem_of_nil in Hy]. apply list_elem_of_singleton in Hy as ->. left. lia.
    + apply list_elem_of_fmap in Hy as (j & -> & Hj%elem_of_seq). destruct (Hlong j) as (c & l & E & Hc); [lia|].
      cbn [key fst]. rewrite E. left. lia.
  - intros i j Hi Hj. rewrite !key_small by lia. left. lia.
  - intros x y Hx Hy. case_decide; [|by apply not_elem_of_nil in Hx]. apply list_elem_of_singleton in Hx as ->.
    apply list_elem_of_fmap in Hy as (j & -> & Hj%elem_of_seq). destruct (Hlong j) as (c & l & E & Hc); [lia|].
    change (bytesLt [0x80] (encUint (Z.of_nat j))). rewrite E. left. lia.
  - case_decide; repeat constructor.
  - apply keys_run. intros i j Hi Hj. apply encUint_lt; lia.
Qed.

End TypesRlpLemmas.

Import TypesRlpLemmas.

(** ** Concrete values *)

Definition exHeader : Header :=
  mkHeader (replicate 32 1) (replicate 32 2) (replicate 20 3) (replicate 32 4) (replicate 32 5) (replicate 32 6)
    (replicate 256 0) (Some 131072) (Some (2 ^ 70)) 30000000 21000 1650000000 [100; 101] (replicate 32 7) (replicate 8 0) (Some 7).

Definition exTx : TxData :=
  DynamicFee (mkDynamic (Some 56) 9 (Some 1) (Some (2 ^ 33)) 21000 (Some (replicate 20 9)) (Some 0) [1; 2; 3]
    [mkTuple (replicate 20 8) [replicate 32 5]] (Some 1) (Some (2 ^ 250)) (Some 77)).

Definition exWireBlock : Block := mkBlock exHeader [mkTransaction exTx None] [exHeader] None.

Lemma replicate_ok n x : 0 <= x < 256 -> arrayOk n (replicate n x).
Proof. intros Hx. split; [|apply length_replicate]. by apply Forall_replicate. Qed.

Lemma exHeader_ok : headerOk exHeader.
Proof.
  split; [|by vm_compute]. cbn [exHeader ParentHash UncleHash Coinbase Root TxHash ReceiptHash Bloom Difficulty Number GasLimit
    GasUsed Time Extra MixDigest Nonce BaseFee].
  split_and!; try (apply replicate_ok; lia); try (by vm_compute).
  split; [repeat constructor; unfold is_byte; lia|done].
Qed.

Lemma exTx_ok : innerOk exTx.
Proof.
  split; [|by vm_compute]. cbn [exTx dChainID dNonce dGasTipCap dGasFeeCap dGas dTo dValue dData dAccessList dV dR dS].
  do 5 (split; [by vm_compute|]). split; [apply replicate_ok; lia|]. split; [by vm_compute|].
  split; [split; [repeat constructor; unfold is_byte; lia|done]|]. split; [|by vm_compute].
  split; [|by vm_compute]. constructor; [|constructor]. split; [|by vm_compute]. cbn [Address StorageKeys].
  split; [apply replicate_ok; lia|]. split; [|by vm_compute]. constructor; [apply replicate_ok; lia|constructor].
Qed.

Lemma exWireBlock_ok : blockOk exWireBlock.
Proof.
  split; [apply exHeader_ok|]. split; [constructor; [|constructor]; split; [apply exTx_ok|by vm_compute]|].
  split; [constructor; [apply exHeader_ok|constructor]|by vm_compute].
Qed.

(** C3: Blocks on the wire. Encoding a block and decoding the bytes gives the block back, with the sizes
    in its caches, for every block whose big integers are present and not negative; and
    bytes that decode to a block are the bytes its encoder writes, so a block
    has one encoding only. *)
Theorem block_codec b bs :
  (blockOk b -> exists out, EncodeToBytes (BlockEncodeRLP b) = Ret (Ok out) /\ DecodeBytes BlockDecodeRLP out = Ok (sized b)) /\
  (Forall is_byte bs -> shortEnough bs -> DecodeBytes BlockDecodeRLP bs = Ok b ->
    blockOk b /\ sized b = b /\ EncodeToBytes (BlockEncodeRLP b) = Ret (Ok bs)).
Proof.
  split.
  - intros Hok. exists (encBlock b). split; [by apply encodes_EncodeToBytes, block_writes|].
    pose proof (sized_ok b Hok) as Hs. pose proof (lawful_bytes (Lawful := block_lawful) _ Hs) as Hb.
    assert (encBlock (sized b) = encBlock b) as E by (unfold encBlock; by rewrite sized_fields). rewrite <- E.
    apply (DecodeBytes_lawful _ _ _); [done|apply Hs|done].
  - intros Hb Hl Hd. apply (DecodeBytes_lawful _ _ _) in Hd as [(Hok & Hs & Hz) ->]; [|done|done].
    destruct (ok_sized b Hok Hs Hz) as [Hbok Hsz]. split_and!; [done|done|]. by apply encodes_EncodeToBytes, block_writes.
Qed.

Lemma block_codec_witness :
  exists out, EncodeToBytes (BlockEncodeRLP exWireBlock) = Ret (Ok out) /\ DecodeBytes BlockDecodeRLP out = Ok (sized exWireBlock).
Proof. apply (proj1 (block_codec exWireBlock [])). apply exWireBlock_ok. Defined.

(** Transactions by themselves. [UnmarshalBinary] gives back what [MarshalBinary] wrote, for each of the
    three types, and accepts nothing else. *)
Theorem transaction_codec tx b :
  (innerOk (inner tx) -> shortEnough (encBinary (inner tx)) ->
    exists out, MarshalBinary tx = Ret (Ok out) /\
      UnmarshalBinary out = Ok (setDecoded (inner tx) (Z.of_nat (length out)))) /\
  (Forall is_byte b -> shortEnough b -> UnmarshalBinary b = Ok tx -> MarshalBinary tx = Ret (Ok b)).
Proof.
  split.
  - intros Hok Hl. exists (encBinary (inner tx)). split; [by apply MarshalBinary_ok|].
    apply Unmarshal_spec; [split; [by apply encBinary_bytes|done]|]. rewrite inner_setDecoded. done.
  - intros Hb Hl Hu. apply Unmarshal_spec in Hu as (Hok & -> & _); [|done]. by apply MarshalBinary_ok.
Qed.

Lemma transaction_codec_witness :
  exists out, MarshalBinary (NewTx exTx) = Ret (Ok out) /\ UnmarshalBinary out = Ok (setDecoded exTx (Z.of_nat (length out))).
Proof. apply (proj1 (transaction_codec (NewTx exTx) [])); [apply exTx_ok|by vm_compute]. Defined.

(** The size of a transaction. A typed transaction reports one byte more when it was read from
    the wire than when it was made from its parts, since only the cached size counts the
    type; a legacy transaction reports the same. *)
Theorem size_depends_on_origin t :
  innerOk t -> shortEnough (encBinary t) ->
  exists bs tx, MarshalBinary (NewTx t) = Ret (Ok bs) /\ UnmarshalBinary bs = Ok tx /\ inner tx = inner (NewTx t) /\
    Size tx = Ret (Z.of_nat (length bs)) /\
    Size (NewTx t) = Ret (Z.of_nat (length bs) - if txType t =? 0 then 0 else 1).
Proof.
  intros Hok Hl. exists (encBinary t), (setDecoded t (Z.of_nat (length (encBinary t)))).
  assert (inner (NewTx t) = t) as Ei by (by apply copyTx_ok).
  rewrite MarshalBinary_ok, Ei by (by rewrite Ei). split; [done|]. split.
  { apply Unmarshal_spec; [split; [by apply encBinary_bytes|done]|]. by rewrite inner_setDecoded. }
  split; [done|]. assert (length (encBinary t) = length (encInner t) + (if (txType t =? 0)%Z then 0 else 1))%nat as El
    by (unfold encBinary; destruct (_ =? 0); cbn [length]; lia).
  assert (encInner t <> []) as Hne by apply encInner_ne. split.
  - unfold Size, setDecoded. cbn [size]. rewrite (proj2 (Z.ltb_lt _ _)); [done|].
    destruct (encInner t); [done|]. cbn [length] in El. lia.
  - unfold Size, NewTx, setDecoded. cbn [size inner Z.ltb Z.compare]. rewrite copyTx_ok, encodeInner_ok by done.
    f_equal. rewrite El. destruct (txType t =? 0); lia.
Qed.

Lemma size_depends_on_origin_witness :
  exists bs tx, MarshalBinary (NewTx exTx) = Ret (Ok bs) /\ UnmarshalBinary bs = Ok tx /\ inner tx = inner (NewTx exTx) /\
    Size tx = Ret (Z.of_nat (length bs)) /\ Size (NewTx exTx) = Ret (Z.of_nat (length bs) - 1).
Proof. apply (size_depends_on_origin exTx); [apply exTx_ok|by vm_compute]. Defined.

(** Deriving a trie. [DeriveSha] inserts every index of the list exactly once, under the encoding of the index, and
    the keys come in strictly increasing order of their bytes, none a prefix of another, as the stack trie
    requires. *)
Theorem derive_keys_increase n :
  Z.of_nat n < 2 ^ 64 ->
  StronglySorted (fun a b => bytesLt a.1 b.1) (deriveKeys n) /\
  (deriveKeys n).*2 ≡ₚ seq 0 n /\ Forall (fun '(k, i) => k = encUint (Z.of_nat i)) (deriveKeys n).
Proof.
  intros Hn. rewrite deriveKeys_enc by done. split_and!.
  - apply keys_sorted. done.
  - apply keys_indices.
  - rewrite !Forall_app. split_and!; [by apply Forall_fmap, Forall_true| |by apply Forall_fmap, Forall_true].
    case_decide; by repeat constructor.
Qed.

Lemma derive_keys_increase_witness : (deriveKeys 300).*2 ≡ₚ seq 0 300.
Proof. apply (derive_keys_increase 300). by vm_compute. Defined.
