(* ===== verification/RlpCodec.v ===== *)
(** * Codecs: writers and decoders of the same values

    A writer and a decoder belong together when the decoder reads what the writer writes. Decoding may settle a value, that is fill in caches and drop what is
    not sent; a settled value is read back as it is. Codecs of structs, slices and derived types come from those of their parts. *)

From stdpp Require Import base tactics list.
From Stdlib Require Import ZArith Lia.
From S2P Require Import Prelude Bytes RlpRaw RlpLemmas RlpEncode RlpEncodeProps RlpDecode RlpDecodeProps RlpCompound RlpReads TypesRlp TypesRlpProps.

Open Scope Z_scope.
Open Scope go_scope.

Import Rlp RlpLemmas RlpEncode RlpEncodeLemmas RlpDecode RlpDecodeLemmas RlpCompound RlpReads TypesRlp TypesRlpLemmas.

Module RlpCodec.

Class Codec {A} (w : A -> writer) (d : decoder A) (enc : A -> list Z) (ok : A -> Prop) (settle : A -> A) := {
  codec_writes a : ok a -> shortEnough (enc a) -> encodes (w a) (enc a);
  codec_reads : Reads d enc (fun a => (ok a /\ settle a = a) /\ shortEnough (enc a));
  codec_settle a : ok a -> ok (settle a) /\ settle (settle a) = settle a /\ enc (settle a) = enc a
}.

(** The fields of a struct. *)
Class CodecFields {A} (ws : A -> list writer) (d : decoder A) (enc : A -> list Z) (ok : A -> Prop) (settle : A -> A) := {
  fields_write a : ok a -> shortEnough (enc a) -> exists bss, Forall2 encodes (ws a) bss /\ concat bss = enc a;
  fields_read : ReadsFields d enc (fun a => (ok a /\ settle a = a) /\ shortEnough (enc a));
  fields_settle a : ok a -> ok (settle a) /\ settle (settle a) = settle a /\ enc (settle a) = enc a
}.

(** What is good for one condition is good for an equivalent one. *)
Lemma reads_iff {A} (d : decoder A) enc (good good' : A -> Prop) : (forall a, good' a -> good a) -> Reads d enc good -> Reads d enc good'.
Proof.
  intros Hg L. split; [apply (reads_kind (Reads := L))| |intros a Ha; by apply (reads_nonempty (Reads := L)), Hg|intros a Ha; by apply (reads_bytes (Reads := L)), Hg].
  intros s p a rest Hat Hp Ha. by apply (reads_ok (Reads := L)), Hg.
Qed.

Lemma readsFields_iff {A} (d : decoder A) enc (good good' : A -> Prop) : (forall a, good' a -> good a) -> ReadsFields d enc good -> ReadsFields d enc good'.
Proof. intros Hg L. split; [|intros a Ha; by apply (readsf_bytes (ReadsFields := L)), Hg]. intros s p a rest Hat Hp Ha. by apply (readsf_ok (ReadsFields := L)), Hg. Qed.

(** Values that are not changed by decoding. *)
Lemma codec_lawful {A} (w : A -> writer) (d : decoder A) enc good : Lawful d enc good -> (forall a, good a -> encodes (w a) (enc a)) -> Codec w d enc good id.
Proof. intros L Hw. split; [by auto| |done]. eapply reads_iff; [|by apply lawful_reads]. by intros a [[Ha _] _]. Qed.

Lemma codec_last {A} (w : A -> writer) d enc ok settle : Codec w d enc ok settle -> CodecFields (fun a => [w a]) (decodeField d) enc ok settle.
Proof.
  intros C. split; [|apply reads_field, C|apply C]. intros a Ha Hs. exists [enc a]. split; [|apply app_nil_r]. constructor; [by apply codec_writes|done].
Qed.

Lemma short_app a b : shortEnough (a ++ b) -> shortEnough a /\ shortEnough b.
Proof. unfold shortEnough. rewrite length_app. lia. Qed.

Lemma codec_pair {A B} (wa : A -> writer) (wsb : B -> list writer) da db ea eb oka okb sa sb :
  Codec wa da ea oka sa -> CodecFields wsb db eb okb sb ->
  CodecFields (fun x => wa x.1 :: wsb x.2) (decodePair (decodeField da) db) (encPair ea eb) (goodPair oka okb) (fun x => (sa x.1, sb x.2)).
Proof.
  intros Ca Cb. split.
  - intros [a b] [Ha Hb] [H1 H2]%short_app. cbn [fst snd] in *. destruct (fields_write b Hb H2) as (bss & Hw & E). exists (ea a :: bss). split; [constructor; [by apply codec_writes|done]|].
    cbn [concat]. by rewrite E.
  - eapply readsFields_iff; [|apply reads_pair; [apply codec_reads|apply fields_read]]. intros [a b] [[[Ha Hb] E] [H1 H2]%short_app]. injection E as E1 E2. by split.
  - intros [a b] [Ha Hb]. cbn [fst snd] in *. destruct (codec_settle a Ha) as (H1 & H2 & H3), (fields_settle b Hb) as (H4 & H5 & H6). unfold encPair, goodPair. cbn [fst snd]. by rewrite H2, H3, H5, H6.
Qed.

Lemma codec_struct {A} (ws : A -> list writer) d enc ok settle : CodecFields ws d enc ok settle -> Codec (fun a => writeStruct (ws a)) (decodeStruct d) (fun a => encList (enc a)) ok settle.
Proof.
  intros C. split.
  - intros a Ha Hs. destruct (fields_write a Ha (concat_short _ Hs)) as (bss & Hw & E). apply (encodes_listAs _ bss); [done|done|]. by apply concat_short.
  - eapply reads_iff; [|apply (reads_struct _ _ _ (ReadsFields0 := fields_read))]. intros a [[Ha E] Hs]. split; [|done]. split; [done|]. by apply concat_short.
  - intros a Ha. destruct (fields_settle a Ha) as (H1 & H2 & H3). by rewrite H3.
Qed.

Lemma elem_short {A} (enc : A -> list Z) l a : shortEnough (encList (encElems enc l)) -> a ∈ l -> shortEnough (enc a).
Proof.
  intros Hs%concat_short Ha. apply list_elem_of_split in Ha as (l1 & l2 & ->). unfold encElems, shortEnough in *. rewrite fmap_app, concat_app in Hs. cbn [fmap list_fmap concat] in Hs. rewrite !length_app in Hs. lia.
Qed.

Lemma codec_slice {A} (w : A -> writer) d enc ok settle : Codec w d enc ok settle ->
  Codec (fun l => writeSlice (w <$> l)) (decodeListSlice d) (fun l => encList (encElems enc l)) (Forall ok) (fmap settle).
Proof.
  intros C. split.
  - intros l Hl Hs. apply encodes_slice; [|by apply concat_short]. apply Forall2_fmap, Forall_Forall2_diag, Forall_forall. intros a Ha. apply codec_writes; [by eapply Forall_forall in Hl|by eapply elem_short].
  - eapply reads_iff; [|apply (reads_list _ _ _ (Reads0 := codec_reads))]. intros l [[Hl E] Hs]. split; [|done]. apply Forall_forall. intros a Ha. split; [|by eapply elem_short].
    split; [by eapply Forall_forall in Hl|]. apply list_elem_of_lookup in Ha as [i Hi]. apply (f_equal (lookup i)) in E. rewrite list_lookup_fmap, Hi in E. by injection E.
  - intros l Hl. assert (encElems enc (settle <$> l) = encElems enc l) as E.
    { unfold encElems. induction Hl as [|a l Ha _ IH]; [done|]. cbn [fmap list_fmap concat]. f_equal; [by apply (codec_settle a Ha)|exact IH]. }
    split; [|split; [|by rewrite E]]; clear E.
    + apply Forall_fmap. eapply Forall_impl; [exact Hl|]. intros a Ha. by apply (codec_settle a Ha).
    + induction Hl as [|a l Ha _ IH]; [done|]. cbn [fmap list_fmap]. f_equal; [by apply (codec_settle a Ha)|exact IH].
Qed.

Lemma codec_map {A B} (f : A -> B) (g : B -> A) (w : A -> writer) d enc ok settle :
  (forall a, g (f a) = a) -> (forall b, f (g b) = b) -> Codec w d enc ok settle ->
  Codec (fun b => w (g b)) (decodeMap f d) (fun b => enc (g b)) (fun b => ok (g b)) (fun b => f (settle (g b))).
Proof.
  intros Hgf Hfg C. split.
  - intros b Hb Hs. by apply codec_writes.
  - apply (reads_map f g _ _ (fun a => (ok a /\ settle a = a) /\ shortEnough (enc a))); [apply codec_reads|]. intros b [[Hb E] Hs]. split; [|done]. split; [|done]. split; [done|]. transitivity (g (f (settle (g b)))); [by rewrite Hgf|by rewrite E].
  - intros b Hb. destruct (codec_settle (g b) Hb) as (H1 & H2 & H3). by rewrite !Hgf, H2, H3.
Qed.

(** The writer may be given in another form. *)
Lemma codec_ext {A} (w w' : A -> writer) d enc ok settle : (forall a, w' a = w a) -> Codec w d enc ok settle -> Codec w' d enc ok settle.
Proof. intros E C. split; [|apply C|apply C]. intros a Ha Hs. rewrite E. by apply codec_writes. Qed.

(** What is written is read back and settled. *)
Lemma codec_roundtrip {A} (w : A -> writer) d enc ok settle a : Codec w d enc ok settle -> ok a -> Z.of_nat (length (enc a)) < 2 ^ 64 ->
  EncodeToBytes (w a) = Ret (Ok (enc a)) /\ DecodeBytes d (enc a) = Ok (settle a).
Proof.
  intros C Ha Hl. destruct (codec_settle a Ha) as (H1 & H2 & H3). split; [by apply encodes_EncodeToBytes, codec_writes|]. rewrite <- H3 in *. by apply (DecodeBytes_reads _ _ _ (Reads0 := codec_reads) (settle a)).
Qed.

End RlpCodec.
