(* ===== verification/Trie.v ===== *)
(** * The stack trie and the encodings of trie keys (src/trie/stacktrie.go, encoding.go, node_enc.go, hasher.go)

    A node of the stack trie owns its children, so it is a value: one constructor per [nodeType], with the fields that the type uses.
    The pool of nodes only saves allocations. Slices that are written in place are lists with updates by index, out of range a
    panic. Keccak-256 is a member of the class [Keccak]. The specification of the root of a trie, after the
    Yellow Paper, is at the end. *)

From stdpp Require Import base tactics list.
From Stdlib Require Import ZArith Lia.
From S2P Require Import Prelude Bytes RlpRaw RlpEncode TypesRlp.

Open Scope Z_scope.
Open Scope go_scope.

Import Rlp RlpEncode.

(** [trie.emptyRoot]. *)
Definition emptyRoot : list Z :=
  [0x56; 0xe8; 0x1f; 0x17; 0x1b; 0xcc; 0x55; 0xa6; 0xff; 0x83; 0x45; 0xe6; 0x92; 0xc0; 0xf8; 0x6e;
   0x5b; 0x48; 0xe0; 0x1b; 0x99; 0x6c; 0xad; 0xc0; 0x01; 0x62; 0x2f; 0xb5; 0xe3; 0x63; 0xb4; 0x21].

(** Keccak-256, from a library: the output is 32 bytes, and the known hash of the encoding of the empty string. *)
Class Keccak := {
  keccak : list Z -> list Z;
  keccak_length : forall b, length (keccak b) = 32%nat;
  keccak_bytes : forall b, Forall is_byte (keccak b);
  keccak_empty : keccak [0x80] = emptyRoot
}.

Module Trie.

(** ** Encodings of keys *)

Definition hasTerm (s : list Z) : bool := bool_decide (last s = Some 16).

(** [x<<4 | y] on bytes. *)
Definition joinNibbles (x y : Z) : Z := Z.lor (Z.shiftl x 4 mod 256) y.

(** The loop from nibble [ni] to byte [bi]; an odd number of nibbles, or too short a target, is a panic. *)
Fixpoint decodeNibbles (nibbles bytes : list Z) : go (list Z) :=
  match nibbles with
  | [] => Ret bytes
  | [_] => Panic
  | x :: y :: nibbles =>
      match bytes with
      | [] => Panic
      | _ :: bytes => let! r := decodeNibbles nibbles bytes in Ret (joinNibbles x y :: r)
      end
  end.

Definition hexToCompact (hex : list Z) : go (list Z) :=
  let terminator := if hasTerm hex then 1 else 0 in
  let hex := if hasTerm hex then take (length hex - 1) hex else hex in
  let n := (length hex / 2 + 1)%nat in
  let flag := Z.shiftl terminator 5 in
  let '(flag, hex) :=
    match hex with
    | x :: rest => if Nat.odd (length hex) then (Z.lor (Z.lor flag 16) x, rest) else (flag, hex)
    | [] => (flag, hex)
    end in
  let! rest := decodeNibbles hex (replicate (n - 1) 0) in
  Ret (flag :: rest).

(** A write by index. *)
Definition setAt (l : list Z) (i : nat) (x : Z) : go (list Z) := if decide (i < length l)%nat then Ret (<[i := x]> l) else Panic.

(** The loop of [hexToCompactInPlace]; it ends after [hexLen] rounds at most. *)
Fixpoint compactLoop (fuel : nat) (hex : list Z) (hexLen bi ni : nat) : go (list Z) :=
  match fuel with
  | O => Ret hex
  | S fuel =>
      if decide (ni < hexLen)%nat then
        match hex !! ni, hex !! (ni + 1)%nat with
        | Some x, Some y => let! hex := setAt hex bi (joinNibbles x y) in compactLoop fuel hex hexLen (bi + 1) (ni + 2)
        | _, _ => Panic
        end
      else Ret hex
  end.

(** The buffer afterwards, and the length of the key in it. *)
Definition hexToCompactInPlace (hex : list Z) : go (list Z * nat) :=
  let term := hasTerm hex in
  let hexLen := (if term then length hex - 1 else length hex)%nat in
  let firstByte := if term then 32 else 0 in
  let binLen := (hexLen / 2 + 1)%nat in
  if Nat.odd hexLen then
    match hex !! 0%nat with
    | None => Panic
    | Some x =>
        let! hex := compactLoop hexLen hex hexLen 1 1 in
        let! hex := setAt hex 0 (Z.lor (Z.lor firstByte 16) x) in Ret (hex, binLen)
    end
  else
    let! hex := compactLoop hexLen hex hexLen 1 0 in
    let! hex := setAt hex 0 firstByte in Ret (hex, binLen).

Fixpoint nibblesOf (str : list Z) : list Z :=
  match str with
  | [] => []
  | b :: str => b / 16 :: b mod 16 :: nibblesOf str
  end.

Definition keybytesToHex (str : list Z) : list Z := nibblesOf str ++ [16].

Definition compactToHex (compact : list Z) : list Z :=
  if decide (compact = []) then compact
  else
    let base := keybytesToHex compact in
    let flag := default 0 (base !! 0%nat) in
    let base := if flag <? 2 then take (length base - 1) base else base in
    drop (Z.to_nat (2 - Z.land flag 1)) base.

Definition hexToKeybytes (hex : list Z) : go (list Z) :=
  let hex := if hasTerm hex then take (length hex - 1) hex else hex in
  if Nat.odd (length hex) then Panic else decodeNibbles hex (replicate (length hex / 2) 0).

Fixpoint prefixLen (a b : list Z) : nat :=
  match a, b with
  | x :: a, y :: b => if decide (x = y) then S (prefixLen a b) else 0
  | _, _ => 0
  end.

(** ** The stack trie *)

Inductive StackTrie :=
| emptyNode
| branchNode (children : list (option StackTrie))
| extNode (key : list Z) (child : StackTrie)
| leafNode (key val : list Z)
| hashedNode (val : list Z).

Definition NewStackTrie : StackTrie := emptyNode.

Definition noChildren : list (option StackTrie) := replicate 16 None.

(** A key that ends before the node's is a panic. *)
Fixpoint getDiffIndex (stkey key : list Z) : go nat :=
  match stkey with
  | [] => Ret 0%nat
  | x :: stkey =>
      match key with
      | [] => Panic
      | y :: key => if decide (x = y) then let! n := getDiffIndex stkey key in Ret (S n) else Ret 0%nat
      end
  end.

Section Hashing.
Context `{Keccak}.

(** The end of [hashRec]: the bytes of the node, or their hash. *)
Definition finish (w : writer) : go (list Z) :=
  match EncodeToBytes w with
  | Ret (Ok enc) => Ret (if (Z.of_nat (length enc) <? 32) then enc else keccak enc)
  | _ => Panic
  end.

(** A child as [rawNode] or [hashNode]. *)
Definition childNode (val : list Z) : writer := if (Z.of_nat (length val) <? 32) then writeRawValue val else writeByteSlice val.

Definition compactKey (hex : list Z) : go (list Z) := let! (buf, sz) := hexToCompactInPlace hex in Ret (take sz buf).

(** The value that [hashRec] leaves in the node, which then is a [hashedNode]. *)
Fixpoint hashRec (st : StackTrie) : go (list Z) :=
  match st with
  | hashedNode val => Ret val
  | emptyNode => Ret emptyRoot
  | branchNode children =>
      let! nodes := (fix nodes (l : list (option StackTrie)) : go (list writer) :=
        match l with
        | [] => Ret []
        | None :: l => let! ws := nodes l in Ret (writeByteSlice [] :: ws)
        | Some child :: l => let! val := hashRec child in let! ws := nodes l in Ret (childNode val :: ws)
        end) children in
      finish (writeList (nodes ++ [writeRawValue [0x80]]))
  | extNode key child =>
      let! val := hashRec child in
      let! k := compactKey key in
      finish (writeList [writeByteSlice k; childNode val])
  | leafNode key val =>
      let! k := compactKey (key ++ [16]) in
      finish (writeList [writeByteSlice k; writeByteSlice val])
  end.

Definition hash (st : StackTrie) : go StackTrie := let! val := hashRec st in Ret (hashedNode val).

(** The next elder sibling of child [idx], if any, is hashed. *)
Fixpoint hashElder (idx : nat) (l : list (option StackTrie)) : go (list (option StackTrie)) :=
  match idx with
  | O => Ret l
  | S i =>
      match l !! i with
      | Some (Some child) => let! child := hash child in Ret (<[i := Some child]> l)
      | _ => hashElder i l
      end
  end.

(** A write to the array of children. *)
Definition setChild (l : list (option StackTrie)) (i : Z) (c : StackTrie) : go (list (option StackTrie)) :=
  if decide (Z.to_nat i < length l)%nat then Ret (<[Z.to_nat i := Some c]> l) else Panic.

(** The branch of the two parts of a node that is split, below the part [key] that they share. *)
Definition splitAt (key : list Z) (origIdx : Z) (orig : StackTrie) (newIdx : Z) (new : StackTrie) : go StackTrie :=
  let! children := setChild noChildren origIdx orig in
  let! children := setChild children newIdx new in
  Ret (if decide (key = []) then branchNode children else extNode key (branchNode children)).

(** [hashElder] leaves child [idx] as it is. *)
Fixpoint insert (st : StackTrie) (key value : list Z) : go StackTrie :=
  match st with
  | branchNode children =>
      match key with
      | [] => Panic
      | x :: rest =>
          let! elders := hashElder (Z.to_nat x) children in
          let! child :=
            (fix at_ (l : list (option StackTrie)) (i : nat) : go StackTrie :=
               match l, i with
               | [], _ => Panic
               | None :: _, O => Ret (leafNode rest value)
               | Some child :: _, O => insert child rest value
               | _ :: l, S i => at_ l i
               end) children (Z.to_nat x) in
          let! children := setChild elders x child in
          Ret (branchNode children)
      end
  | extNode stkey child =>
      let! diffidx := getDiffIndex stkey key in
      if decide (diffidx = length stkey) then
        let! child := insert child (drop diffidx key) value in Ret (extNode stkey child)
      else
        let n := if decide (diffidx < length stkey - 1)%nat then extNode (drop (diffidx + 1) stkey) child else child in
        let! n := hash n in
        match stkey !! diffidx, key !! diffidx with
        | Some origIdx, Some newIdx => splitAt (take diffidx stkey) origIdx n newIdx (leafNode (drop (diffidx + 1) key) value)
        | _, _ => Panic
        end
  | leafNode stkey val =>
      let! diffidx := getDiffIndex stkey key in
      if decide (length stkey <= diffidx)%nat then Panic
      else
        match stkey !! diffidx, key !! diffidx with
        | Some origIdx, Some newIdx =>
            let! orig := hash (leafNode (drop (diffidx + 1) stkey) val) in
            splitAt (take diffidx stkey) origIdx orig newIdx (leafNode (drop (diffidx + 1) key) value)
        | _, _ => Panic
        end
  | emptyNode => Ret (leafNode key value)
  | hashedNode _ => Panic
  end.

Definition TryUpdate (st : StackTrie) (key value : list Z) : go StackTrie :=
  let k := keybytesToHex key in
  if decide (value = []) then Panic else insert st (take (length k - 1) k) value.

Definition Hash (st : StackTrie) : go (list Z) :=
  let! val := hashRec st in Ret (if decide (length val = 32%nat) then val else keccak val).

(** [types.DeriveSha] of a list, given by the encodings of its items. *)
Definition DeriveSha (items : list (list Z)) : go (list Z) :=
  let! st := go_foldl (fun st '(k, i) => TryUpdate st k (default [] (items !! i))) NewStackTrie (TypesRlp.deriveKeys (length items)) in
  Hash st.

(** ** The root of a trie after the Yellow Paper (appendices C and D) *)

(** Hex prefix encoding. *)
Fixpoint pairs (x : list Z) : list Z :=
  match x with
  | a :: b :: x => 16 * a + b :: pairs x
  | _ => []
  end.

Definition HP (x : list Z) (t : bool) : list Z :=
  let f := if t then 2 else 0 in
  if Nat.odd (length x) then match x with a :: x => 16 * (f + 1) + a :: pairs x | [] => [] end
  else 16 * f :: pairs x.

Fixpoint lcp (a b : list Z) : list Z :=
  match a, b with
  | x :: a, y :: b => if decide (x = y) then x :: lcp a b else []
  | _, _ => []
  end.

(** The longest prefix that all keys share. *)
Fixpoint lcps (ks : list (list Z)) : list Z :=
  match ks with
  | [] => []
  | [k] => k
  | k :: ks => lcp k (lcps ks)
  end.

(** The pairs whose keys start with [i], without it. *)
Definition below (i : Z) (J : list (list Z * list Z)) : list (list Z * list Z) :=
  omap (fun '(k, v) => match k with x :: k => if decide (x = i) then Some (k, v) else None | [] => None end) J.

(** The value of the pair whose key ends here. *)
Definition valueAt (J : list (list Z * list Z)) : list Z := foldr (fun '(k, v) r => if decide (k = []) then v else r) [] J.

Definition chop (n : nat) (J : list (list Z * list Z)) : list (list Z * list Z) := (fun '(k, v) => (drop n k, v)) <$> J.

(** A node inside its parent: itself if it is short, else the string of its hash. *)
Definition nodeRef (c : list Z) : list Z := if (Z.of_nat (length c) <? 32) then c else encString (keccak c).

(** The structural composition [c]; every level takes a nibble off all keys. *)
Fixpoint composition (fuel : nat) (J : list (list Z * list Z)) : list Z :=
  match fuel with
  | O => []
  | S fuel =>
      match J with
      | [] => [0x80]
      | [(k, v)] => encList (encString (HP k true) ++ encString v)
      | _ =>
          let p := lcps J.*1 in
          if decide (p = []) then
            let branch i := match below i J with [] => [0x80] | Ji => nodeRef (composition fuel Ji) end in
            encList (concat (branch <$> seqZ 0 16) ++ encString (valueAt J))
          else encList (encString (HP p false) ++ nodeRef (composition fuel (chop (length p) J)))
      end
  end.

Definition depth (J : list (list Z * list Z)) : nat := S (max_list (length <$> J.*1)).

(** The root of the trie of a list of pairs of nibble keys and values. *)
Definition trieRoot (J : list (list Z * list Z)) : list Z := keccak (composition (depth J) J).

(** The nibble keys of byte keys. *)
Definition hexed (kvs : list (list Z * list Z)) : list (list Z * list Z) := (fun '(k, v) => (nibblesOf k, v)) <$> kvs.

(** The pairs of the trie of a list: every item under the encoding of its index. *)
Definition indexed (items : list (list Z)) : list (list Z * list Z) := imap (fun i item => (encUint (Z.of_nat i), item)) items.

End Hashing.
End Trie.
