(* ===== verification/TrieProps.v ===== *)
(** * Properties of the stack trie (Trie.v)

    The encodings of keys against the hex prefix encoding, and the root that the stack trie computes against the Yellow Paper. *)

From stdpp Require Import base tactics list sorting sets.
From Stdlib Require Import ZArith Lia.
From S2P Require Import Prelude Bytes RlpRaw RlpLemmas RlpEncode RlpEncodeProps RlpDecodeProps TypesRlp TypesRlpProps Trie.

Open Scope Z_scope.
Open Scope go_scope.

Import Rlp RlpLemmas RlpEncode RlpEncodeLemmas TypesRlpLemmas Trie.

Module TrieLemmas.

(** ** Encodings of keys *)

Definition nibble (x : Z) : Prop := 0 <= x < 16.

Lemma joinNibbles_nibbles x y : nibble x -> nibble y -> joinNibbles x y = 16 * x + y.
Proof.
  unfold nibble, joinNibbles. intros Hx Hy. rewrite Z.shiftl_mul_pow2 by lia. rewrite Z.mod_small by lia.
  pose proof (Z.add_lor_land (x * 2 ^ 4) y) as E. assert (Z.land (x * 2 ^ 4) y = 0) as H0; [|lia]. clear E.
  rewrite <- Z.shiftl_mul_pow2 by lia. apply Z.bits_inj'. intros n Hn.
  rewrite Z.land_spec, Z.bits_0, Z.shiftl_spec by done. destruct (Z.lt_ge_cases n 4) as [Hlt|Hge].
  - by rewrite (Z.testbit_neg_r x) by lia.
  - rewrite (Z.bits_above_log2 y); [apply andb_false_r|lia|]. destruct (Z.eq_dec y 0) as [->|]; [cbn; lia|]. apply Z.log2_lt_pow2; [lia|].
    apply Z.lt_le_trans with (2 ^ 4); [lia|]. apply Z.pow_le_mono_r; lia.
Qed.

(** Induction by two elements. *)
Lemma list_ind2 {A} (P : list A -> Prop) :
  P [] -> (forall x, P [x]) -> (forall x y l, P l -> P (x :: y :: l)) -> forall l, P l.
Proof.
  intros H0 H1 H2 l. assert (P l /\ forall x, P (x :: l)) as [? _]; [|done]. induction l as [|y l [IH1 IH2]]; [done|]. split; [done|]. intros x. by apply H2.
Qed.

Lemma decodeNibbles_pairs l bytes :
  Forall nibble l -> Nat.even (length l) = true -> (length l / 2 <= length bytes)%nat ->
  decodeNibbles l bytes = Ret (pairs l ++ drop (length l / 2) bytes).
Proof.
  revert bytes. induction l as [|x|x y l IH] using list_ind2; intros bytes Hl He Hb; [done|done|].
  apply Forall_cons in Hl as [Hx Hl]. apply Forall_cons in Hl as [Hy Hl]. cbn [decodeNibbles pairs].
  change (length (x :: y :: l)) with (S (S (length l))) in *. cbn [Nat.even] in He.
  replace (S (S (length l))) with (1 * 2 + length l)%nat in * by lia. rewrite Nat.div_add_l in * by lia.
  destruct bytes as [|b bytes]; [cbn in Hb; lia|]. cbn [length] in Hb. rewrite IH by (done || lia). by rewrite joinNibbles_nibbles.
Qed.

Lemma length_pairs l : length (pairs l) = (length l / 2)%nat.
Proof.
  induction l as [|x|x y l IH] using list_ind2; [done|done|]. cbn [pairs length]. rewrite IH.
  replace (S (S (length l))) with (1 * 2 + length l)%nat by lia. by rewrite Nat.div_add_l by lia.
Qed.

Lemma last_nibbles l : Forall nibble l -> hasTerm l = false.
Proof.
  intros Hl. apply bool_decide_eq_false. intros E. apply last_Some in E as [l' ->]. apply Forall_app in Hl as [_ Hl]. rewrite Forall_singleton in Hl.
  unfold nibble in Hl. lia.
Qed.

Lemma hasTerm_snoc l : hasTerm (l ++ [16]) = true.
Proof. apply bool_decide_eq_true. by rewrite last_snoc. Qed.

Lemma take_snoc (l : list Z) x : take (length (l ++ [x]) - 1) (l ++ [x]) = l.
Proof. rewrite length_app. cbn. replace (length l + 1 - 1)%nat with (length l) by lia. by rewrite take_app_length. Qed.

(** The flag byte is put together with [Z.lor]. *)
Lemma flag_nibble f x : (f = 0 \/ f = 32) -> nibble x -> Z.lor (Z.lor f 16) x = f + 16 + x.
Proof.
  intros Hf Hx. unfold nibble in Hx.
  assert (x = 0 \/ x = 1 \/ x = 2 \/ x = 3 \/ x = 4 \/ x = 5 \/ x = 6 \/ x = 7 \/ x = 8 \/ x = 9 \/ x = 10 \/ x = 11 \/ x = 12 \/ x = 13 \/ x = 14 \/ x = 15) as H by lia.
  destruct Hf as [->| ->]; repeat destruct H as [->|H]; try subst x; reflexivity.
Qed.

Lemma half_S n : Nat.even n = true -> (S n / 2 = n / 2)%nat.
Proof.
  intros [m ->]%Nat.even_spec. rewrite (Nat.mul_comm 2 m), Nat.div_mul by lia. symmetry. apply (Nat.div_unique _ 2 m 1); lia.
Qed.

(** The compact key of a part with or without terminator. *)
Definition withTerm (k : list Z) (t : bool) : list Z := if t then k ++ [16] else k.

Lemma hexToCompact_HP k t : Forall nibble k -> hexToCompact (withTerm k t) = Ret (HP k t).
Proof.
  intros Hk. unfold hexToCompact. assert (hasTerm (withTerm k t) = t) as Et by (destruct t; [apply hasTerm_snoc|by apply last_nibbles]). rewrite Et.
  assert ((if t then take (length (withTerm k t) - 1) (withTerm k t) else withTerm k t) = k) as Ek by (destruct t; [apply take_snoc|done]). rewrite Ek.
  unfold HP. destruct (Nat.odd (length k)) eqn:Eo.
  - destruct k as [|x k]; [done|]. apply Forall_cons in Hk as [Hx Hk]. cbn [length] in *. rewrite Nat.odd_succ in Eo.
    replace (S (length k) / 2 + 1 - 1)%nat with (length k / 2)%nat.
    2: { by rewrite Nat.add_sub, half_S. }
    rewrite decodeNibbles_pairs by (rewrite ?length_replicate; done). rewrite drop_ge by (rewrite length_replicate; done). rewrite app_nil_r.
    rewrite flag_nibble by (destruct t; cbn; auto). do 2 f_equal. destruct t; [change (Z.shiftl 1 5) with 32|change (Z.shiftl 0 5) with 0]; lia.
  - assert (Nat.even (length k) = true) as Ee by (rewrite <- Nat.negb_odd, Eo; done). rewrite Nat.add_sub.
    destruct k as [|x k]; [by destruct t|].
    rewrite decodeNibbles_pairs by (rewrite ?length_replicate; done). rewrite drop_ge by (rewrite length_replicate; done). rewrite app_nil_r. by destruct t.
Qed.

(** The loop in place: the bytes are written behind the nibbles that are still to be read. *)
Lemma compactLoop_pairs fuel hex hexLen bi ni :
  (bi <= ni <= hexLen)%nat -> (hexLen <= length hex)%nat -> Nat.even (hexLen - ni) = true -> (hexLen - ni <= 2 * fuel)%nat ->
  Forall nibble (take (hexLen - ni) (drop ni hex)) ->
  exists tl, compactLoop fuel hex hexLen bi ni = Ret (take bi hex ++ pairs (take (hexLen - ni) (drop ni hex)) ++ tl) /\
    length (take bi hex ++ pairs (take (hexLen - ni) (drop ni hex)) ++ tl) = length hex.
Proof.
  revert hex bi ni. induction fuel as [|fuel IH]; intros hex bi ni Hbi Hl He Hf Hn; cbn [compactLoop].
  { replace (hexLen - ni)%nat with 0%nat by lia. exists (drop bi hex). rewrite firstn_O. cbn [pairs]. by rewrite app_nil_l, take_drop. }
  case_decide as Hlt. 2: { replace (hexLen - ni)%nat with 0%nat by lia. exists (drop bi hex). rewrite firstn_O. cbn [pairs]. by rewrite app_nil_l, take_drop. }
  destruct (hexLen - ni)%nat as [|[|m]] eqn:Em; [lia|done|].
  destruct (lookup_lt_is_Some_2 hex ni) as [x Hx]; [lia|]. destruct (lookup_lt_is_Some_2 hex (ni + 1)) as [y Hy]; [lia|]. rewrite Hx, Hy.
  rewrite (drop_S hex x ni Hx) in *. replace (S ni) with (ni + 1)%nat in * by lia. rewrite (drop_S hex y (ni + 1) Hy) in *.
  cbn [take] in Hn. apply Forall_cons in Hn as [Hnx Hn]. apply Forall_cons in Hn as [Hny Hn]. rewrite joinNibbles_nibbles by done.
  unfold setAt. rewrite decide_True by lia. set (hex' := <[bi := 16 * x + y]> hex). cbn beta iota.
  assert (drop (ni + 2) hex' = drop (S (ni + 1)) hex) as Hd.
  { replace (S (ni + 1)) with (ni + 2)%nat by lia. unfold hex'. by rewrite drop_insert_lt by lia. }
  assert (hexLen - (ni + 2) = m)%nat as Em2 by lia.
  destruct (IH hex' (bi + 1)%nat (ni + 2)%nat) as (tl & E & Hlen); rewrite ?Em2, ?Hd; unfold hex'; rewrite ?length_insert; try lia; try done.
  fold hex' in E, Hlen. rewrite Em2, Hd in E, Hlen.
  assert (take (bi + 1) hex' = take bi hex ++ [16 * x + y]) as Ht.
  { unfold hex'. rewrite Nat.add_1_r. rewrite (take_S_r _ bi (16 * x + y)) by (apply list_lookup_insert_eq; lia). by rewrite take_insert_ge by lia. } 
  exists tl. cbn [take pairs]. rewrite Ht in E, Hlen. fold hex'. rewrite E. split; [by rewrite <- !app_assoc|]. unfold hex' in Hlen.
  rewrite length_insert in Hlen. rewrite <- Hlen. by rewrite <- !app_assoc.
Qed.

Lemma setAt_0 x y l : setAt (x :: l) 0 y = Ret (y :: l).
Proof. unfold setAt. rewrite decide_True by (cbn; lia). done. Qed.

Lemma length_HP k t : length (HP k t) = (length k / 2 + 1)%nat.
Proof.
  unfold HP. destruct (Nat.odd (length k)) eqn:Eo; [|cbn [length]; rewrite length_pairs; lia].
  destruct k as [|x k]; [done|]. cbn [length] in *. rewrite length_pairs, half_S by (by rewrite Nat.odd_succ in Eo). lia.
Qed.

Lemma compactLoop_step fuel hex hexLen bi ni :
  compactLoop (S fuel) hex hexLen bi ni =
    if decide (ni < hexLen)%nat then
      match hex !! ni, hex !! (ni + 1)%nat with
      | Some x, Some y => let! hex := setAt hex bi (joinNibbles x y) in compactLoop fuel hex hexLen (bi + 1) (ni + 2)
      | _, _ => Panic
      end
    else Ret hex.
Proof. done. Qed.

(** In place and into a fresh buffer, the key is the same. *)
Lemma compactKey_HP k t : Forall nibble k -> withTerm k t <> [] -> compactKey (withTerm k t) = Ret (HP k t).
Proof.
  intros Hk Hne. unfold compactKey, hexToCompactInPlace.
  assert (hasTerm (withTerm k t) = t) as -> by (destruct t; [apply hasTerm_snoc|by apply last_nibbles]).
  assert ((if t then length (withTerm k t) - 1 else length (withTerm k t)) = length k)%nat as -> by (destruct t; cbn [withTerm]; rewrite ?length_app; cbn; lia).
  assert (forall i, (i <= length k)%nat -> take (length k - i) (drop i (withTerm k t)) = drop i k) as Hpart.
  { intros i Hi. destruct t; cbn [withTerm]; [rewrite drop_app_le by done; apply take_app_length'|apply take_ge]; by rewrite length_drop. }
  assert (length k <= length (withTerm k t))%nat as Hlen by (destruct t; cbn [withTerm]; rewrite ?length_app; cbn; lia).
  pose proof (length_HP k t) as HHP. unfold HP in *. destruct (Nat.odd (length k)) eqn:Eo.
  - destruct k as [|x k]; [done|]. assert (withTerm (x :: k) t = x :: withTerm k t) as Ew by by destruct t. rewrite Ew in *. cbn [lookup list_lookup].
    apply Forall_cons in Hk as [Hx Hk]. cbn [length] in *. rewrite Nat.odd_succ in Eo.
    destruct (compactLoop_pairs (S (length k)) (x :: withTerm k t) (S (length k)) 1 1) as (tl & -> & _);
      [lia|cbn; lia|by replace (S (length k) - 1)%nat with (length k) by lia|lia|by rewrite Hpart by lia|].
    rewrite Hpart by lia. rewrite firstn_cons, firstn_O, skipn_cons, drop_0. cbn [app]. rewrite setAt_0. cbn iota. rewrite flag_nibble by (destruct t; auto). f_equal.
    rewrite app_comm_cons. rewrite take_app_length' by (cbn [length] in *; lia). f_equal. destruct t; lia.
  - assert (Nat.even (length k) = true) as Ee by (by rewrite <- Nat.negb_odd, Eo). destruct k as [|x [|y k]]; [|done|].
    + destruct t; [|done]. reflexivity.
    + assert (withTerm (x :: y :: k) t = x :: y :: withTerm k t) as Ew by by destruct t. rewrite Ew in *.
      apply Forall_cons in Hk as [Hx Hk]. apply Forall_cons in Hk as [Hy Hk]. cbn [length] in *. cbn [Nat.even] in Ee. rewrite compactLoop_step, decide_True by lia.
      change ((x :: y :: withTerm k t) !! (0 + 1)%nat) with (Some y). change ((x :: y :: withTerm k t) !! 0%nat) with (Some x).
      cbn beta iota. rewrite joinNibbles_nibbles by done. unfold setAt at 1. rewrite decide_True by (cbn; lia).
      change (<[1%nat := 16 * x + y]> (x :: y :: withTerm k t)) with (x :: 16 * x + y :: withTerm k t). cbn beta iota.
      assert (forall z, take (S (S (length k)) - 2) (drop 2 (x :: z :: withTerm k t)) = k) as Hp2 by (intros z; apply (Hpart 2%nat); lia).
      destruct (compactLoop_pairs (S (length k)) (x :: 16 * x + y :: withTerm k t) (S (S (length k))) (1 + 1) (0 + 2)) as (tl & -> & _);
        [lia|cbn in *; lia|by replace (S (S (length k)) - (0 + 2))%nat with (length k) by lia|lia|by rewrite Hp2|].
      change (0 + 2)%nat with 2%nat. rewrite Hp2. cbn [Nat.add]. rewrite !firstn_cons, firstn_O. cbn [app]. rewrite setAt_0. cbn iota. cbn [pairs length] in *.
      rewrite (app_comm_cons _ tl), (app_comm_cons _ tl). rewrite take_app_length' by (cbn [length] in *; lia). destruct t; done.
Qed.

Lemma nibblesOf_byte a x l : nibble x -> nibblesOf (16 * a + x :: l) = a :: x :: nibblesOf l.
Proof.
  intros Hx. cbn [nibblesOf]. unfold nibble in *. f_equal; [symmetry; apply (Z.div_unique _ _ a x); lia|].
  f_equal. symmetry. apply (Z.mod_unique _ _ a x); lia.
Qed.

Lemma nibblesOf_pairs l : Forall nibble l -> Nat.even (length l) = true -> nibblesOf (pairs l) = l.
Proof.
  induction l as [|x|x y l IH] using list_ind2; [done|done|]. intros Hl He. apply Forall_cons in Hl as [Hx Hl]. apply Forall_cons in Hl as [Hy Hl].
  cbn [pairs]. by rewrite nibblesOf_byte, IH by done.
Qed.

Lemma compactToHex_HP k t : Forall nibble k -> compactToHex (HP k t) = withTerm k t.
Proof.
  intros Hk. unfold compactToHex, HP, keybytesToHex. destruct (Nat.odd (length k)) eqn:Eo.
  - destruct k as [|x k]; [done|]. apply Forall_cons in Hk as [Hx Hk]. cbn [length] in Eo. rewrite Nat.odd_succ in Eo. rewrite decide_False by done.
    rewrite nibblesOf_byte by done. rewrite nibblesOf_pairs by done. cbn [app lookup list_lookup default].
    destruct t; cbn [Z.add Z.ltb Z.compare]; [done|]. rewrite !app_comm_cons, take_snoc. done.
  - assert (Nat.even (length k) = true) as Ee by (by rewrite <- Nat.negb_odd, Eo). rewrite decide_False by done.
    replace (16 * (if t then 2 else 0)) with (16 * (if t then 2 else 0) + 0) by lia. rewrite nibblesOf_byte by (unfold nibble; lia).
    rewrite nibblesOf_pairs by done. destruct t; [done|]. rewrite take_snoc. done.
Qed.

Lemma pairs_nibblesOf l : pairs (nibblesOf l) = l.
Proof. induction l as [|b l IH]; [done|]. cbn [nibblesOf pairs]. rewrite IH. f_equal. pose proof (Z.div_mod b 16). lia. Qed.

Lemma nibblesOf_nibbles k : Forall is_byte k -> Forall nibble (nibblesOf k).
Proof.
  induction 1 as [|b k Hb _ IH]; cbn [nibblesOf]; [constructor|]. unfold is_byte in Hb. pose proof (Z.mod_pos_bound b 16).
  repeat constructor; try done; [apply Z.div_pos; lia|apply Z.div_lt_upper_bound; lia|lia..].
Qed.

Lemma length_nibblesOf k : length (nibblesOf k) = (2 * length k)%nat.
Proof. induction k as [|b k IH]; [done|]. cbn [nibblesOf length]. lia. Qed.

Lemma hexToKeybytes_hex k : Forall is_byte k -> hexToKeybytes (keybytesToHex k) = Ret k.
Proof.
  intros Hk. unfold hexToKeybytes, keybytesToHex. rewrite hasTerm_snoc, take_snoc. rewrite length_nibblesOf, Nat.odd_mul. cbn [andb Nat.odd Nat.even negb].
  rewrite decodeNibbles_pairs.
  - rewrite pairs_nibblesOf, drop_ge; [by rewrite app_nil_r|]. by rewrite length_replicate, length_nibblesOf.
  - by apply nibblesOf_nibbles.
  - by rewrite length_nibblesOf, Nat.even_mul.
  - by rewrite length_replicate, length_nibblesOf.
Qed.

(** ** The composition *)

Lemma lcp_prefix_l a b : lcp a b `prefix_of` a.
Proof.
  revert b. induction a as [|x a IH]; intros [|y b]; cbn [lcp]; try apply prefix_nil. case_decide; [|apply prefix_nil]. by apply prefix_cons.
Qed.

Lemma lcp_comm a b : lcp a b = lcp b a.
Proof.
  revert b. induction a as [|x a IH]; intros [|y b]; cbn [lcp]; try done. repeat case_decide; try congruence.
Qed.

Lemma lcp_assoc a b c : lcp a (lcp b c) = lcp (lcp a b) c.
Proof.
  revert b c. induction a as [|x a IH]; intros b c; [done|]. destruct b as [|y b]; [done|]. destruct c as [|z c]; [cbn [lcp]; by case_decide|].
  cbn [lcp]. destruct (decide (y = z)) as [<-|]; destruct (decide (x = y)) as [<-|]; cbn [lcp]; repeat case_decide; congruence.
Qed.

Lemma lcp_app k a b : lcp (k ++ a) (k ++ b) = k ++ lcp a b.
Proof. induction k as [|x k IH]; [done|]. cbn [app lcp]. by rewrite decide_True, IH. Qed.

Lemma lcps_cons k ks : ks <> [] -> lcps (k :: ks) = lcp k (lcps ks).
Proof. by destruct ks. Qed.

Lemma lcps_prefix ks k : k ∈ ks -> lcps ks `prefix_of` k.
Proof.
  induction ks as [|x [|y ks] IH]; intros Hk; [by apply not_elem_of_nil in Hk|by apply list_elem_of_singleton in Hk as ->|].
  rewrite lcps_cons by done. apply elem_of_cons in Hk as [->|Hk]; [apply lcp_prefix_l|]. rewrite lcp_comm. etrans; [apply lcp_prefix_l|by apply IH].
Qed.

Lemma lcps_perm ks ks' : ks ≡ₚ ks' -> lcps ks = lcps ks'.
Proof.
  induction 1 as [|k ks ks' Hp IH|x y ks|]; [done| |cbn [lcps]|congruence].
  - destruct ks as [|y ks]; [apply Permutation_nil_l in Hp as ->; done|]. destruct ks' as [|z ks']; [by apply Permutation_nil_r in Hp|].
    rewrite !lcps_cons by done. by rewrite IH.
  - destruct ks as [|z ks]; [apply lcp_comm|]. rewrite !lcp_assoc. by rewrite (lcp_comm x y).
Qed.

Lemma lcps_app k ks : ks <> [] -> lcps ((k ++.) <$> ks) = k ++ lcps ks.
Proof.
  induction ks as [|x [|y ks] IH]; intros Hne; [done|done|]. cbn [fmap list_fmap] in *. rewrite !lcps_cons by done. rewrite IH by done. by rewrite lcp_app.
Qed.

(** Keys that differ in their first nibble share no prefix. *)
Lemma lcps_nil ks a b : a ∈ ks -> b ∈ ks -> head a <> head b -> lcps ks = [].
Proof.
  intros Ha Hb Hne. destruct (lcps_prefix ks a Ha) as [a' Ea]. destruct (lcps_prefix ks b Hb) as [b' Eb]. destruct (lcps ks) as [|x l]; [done|]. by subst.
Qed.

Notation pairs_ := (list (list Z * list Z)).

Lemma elem_of_below i J k v : (k, v) ∈ below i J <-> (i :: k, v) ∈ J.
Proof.
  unfold below. rewrite list_elem_of_omap. split.
  - intros ([[|x k'] v'] & Hin & E); [done|]. case_decide; [|done]. by simplify_eq.
  - intros Hin. exists (i :: k, v). split; [done|]. by rewrite decide_True.
Qed.

Lemma below_perm i J J' : J ≡ₚ J' -> below i J ≡ₚ below i J'.
Proof. intros H. unfold below. by rewrite H. Qed.

(** Enough fuel for all keys. *)
Definition short (fuel : nat) (J : pairs_) : Prop := Forall (fun kv => (length kv.1 < fuel)%nat) J.

Lemma short_below fuel i J : short (S fuel) J -> short fuel (below i J).
Proof.
  unfold short. rewrite !Forall_forall. intros H [k v] Hin%elem_of_below. specialize (H _ Hin). cbn in *. lia.
Qed.

Lemma short_chop fuel J : short (S fuel) J -> lcps J.*1 <> [] -> short fuel (chop (length (lcps J.*1)) J).
Proof.
  unfold short, chop. rewrite Forall_fmap, !Forall_forall. intros H Hp [k v] Hin. specialize (H _ Hin). cbn in *. rewrite length_drop.
  destruct (lcps_prefix J.*1 k) as [k' ->]; [by apply (list_elem_of_fmap_2 fst J (k, v))|]. rewrite length_app in *. destruct (lcps J.*1); [done|]. cbn [length] in *. lia.
Qed.

(** A common prefix put before all keys. *)
Definition prefixed (p : list Z) (J : pairs_) : pairs_ := (fun '(k, v) => (p ++ k, v)) <$> J.

Lemma prefixed_keys p J : (prefixed p J).*1 = (p ++.) <$> J.*1.
Proof. unfold prefixed. rewrite <- !list_fmap_compose. apply list_fmap_ext. by intros i [k v] _. Qed.

Lemma chop_prefixed p J : chop (length p) (prefixed p J) = J.
Proof.
  unfold chop, prefixed. rewrite <- list_fmap_compose. rewrite <- (list_fmap_id J) at 2. apply list_fmap_ext. intros i [k v] _. cbn. by rewrite drop_app_length.
Qed.

Lemma prefixed_chop J : prefixed (lcps J.*1) (chop (length (lcps J.*1)) J) = J.
Proof.
  unfold chop, prefixed. rewrite <- list_fmap_compose. etrans; [|apply list_fmap_id]. apply list_fmap_ext. intros i [k v] Hi. cbn.
  destruct (lcps_prefix J.*1 k) as [k' ->]; [apply (list_elem_of_fmap_2 fst J (k, v)); by eapply list_elem_of_lookup_2|]. by rewrite drop_app_length.
Qed.

Lemma below_keys i J : (below i J).*1 = omap (fun k => match k with x :: k => if decide (x = i) then Some k else None | [] => None end) J.*1.
Proof.
  induction J as [|[[|x k] v] J IH]; [done|done|]. unfold below in *. cbn. case_decide; cbn; [by rewrite IH|done].
Qed.

Lemma NoDup_below i J : NoDup J.*1 -> NoDup (below i J).*1.
Proof.
  rewrite below_keys. generalize J.*1. induction 1 as [|[|x k] l Hk Hl IH]; cbn; [constructor|done|]. case_decide as E; [|done]. subst x.
  constructor; [|done]. intros ([|y k'] & Hin & E)%list_elem_of_omap; [done|]. case_decide; [|done]. by simplify_eq.
Qed.

Lemma NoDup_chop J : NoDup J.*1 -> NoDup (chop (length (lcps J.*1)) J).*1.
Proof. intros Hnd. rewrite <- (prefixed_chop J) in Hnd at 1. rewrite prefixed_keys in Hnd. by apply NoDup_fmap_1 in Hnd. Qed.

Lemma valueAt_elem J v : NoDup J.*1 -> ([], v) ∈ J -> valueAt J = v.
Proof.
  induction J as [|[k w] J IH]; intros Hnd Hin; [by apply not_elem_of_nil in Hin|]. cbn in Hnd. apply NoDup_cons in Hnd as [Hk Hnd]. cbn [valueAt foldr].
  apply elem_of_cons in Hin as [[= <- <-]|Hin]; [done|]. rewrite decide_False; [by apply IH|]. intros ->. apply Hk. by apply (list_elem_of_fmap_2 fst J ([], v)).
Qed.

Lemma valueAt_none J : (forall v, ([], v) ∉ J) -> valueAt J = [].
Proof.
  induction J as [|[k w] J IH]; intros Hn; [done|]. cbn [valueAt foldr]. rewrite decide_False; [apply IH; intros v Hv; apply (Hn v); set_solver|].
  intros ->. apply (Hn w). set_solver.
Qed.

Lemma valueAt_perm J J' : J ≡ₚ J' -> NoDup J.*1 -> valueAt J = valueAt J'.
Proof.
  intros Hp Hnd. assert (NoDup J'.*1) as Hnd' by by rewrite <- Hp. destruct (decide ([] ∈ J.*1)) as [Hin|Hin].
  - apply list_elem_of_fmap in Hin as ([k v] & E & Hin). cbn in E. subst k. rewrite (valueAt_elem J v), (valueAt_elem J' v); [done|done|by rewrite <- Hp|done|done].
  - rewrite !valueAt_none; [done| |]; intros v Hv; apply Hin; [rewrite Hp|]; by apply (list_elem_of_fmap_2 fst _ ([], v)).
Qed.

Section Composition.
Context `{Keccak}.

(** The composition depends neither on spare fuel nor on the order of the pairs. *)
Lemma composition_perm f f' J J' :
  J ≡ₚ J' -> short f J -> short f' J -> NoDup J.*1 -> (0 < f)%nat -> (0 < f')%nat -> composition f J = composition f' J'.
Proof.
  revert f' J J'. induction f as [|f IH]; intros [|f'] J J' Hp Hf Hf' Hnd ? ?; [lia..|]. cbn [composition].
  destruct J as [|[k v] [|b J]].
  - apply Permutation_nil_l in Hp. by subst J'.
  - apply Permutation_singleton_l in Hp. by subst J'.
  - destruct J' as [|[k' v'] [|c' J']]; [by apply Permutation_length in Hp..|]. set (J1 := (k, v) :: b :: J) in *. set (J2 := (k', v') :: c' :: J') in *. clearbody J1 J2.
    assert (lcps J2.*1 = lcps J1.*1) as -> by (by rewrite (lcps_perm J1.*1 J2.*1) by (by rewrite Hp)).
    assert (forall i, below i J1 ≡ₚ below i J2) as Hb by (intros i; by apply below_perm).
    case_decide as E.
    + rewrite (valueAt_perm J1 J2 Hp Hnd). f_equal. f_equal. f_equal. apply list_fmap_ext. intros n i _. destruct (below i J1) as [|[k1 v1] J1i] eqn:E1.
      * specialize (Hb i). rewrite E1 in Hb. apply Permutation_nil_l in Hb. by rewrite <- Hb.
      * assert (below i J2 <> []) as Hne by (intros E2; specialize (Hb i); rewrite E1, E2 in Hb; by apply Permutation_nil_r in Hb).
        assert (short f (below i J1) /\ short f' (below i J1)) as [Hs Hs'] by (split; by apply short_below).
        assert (0 < f /\ 0 < f')%nat as [? ?].
        { rewrite E1 in Hs, Hs'. apply Forall_cons in Hs as [Hs _], Hs' as [Hs' _]. lia. }
        destruct (below i J2) as [|c2 J2i] eqn:E2; [done|]. f_equal. rewrite <- E1, <- E2. apply IH; auto. by apply NoDup_below.
    + assert (chop (length (lcps J1.*1)) J1 ≡ₚ chop (length (lcps J1.*1)) J2) as Hc by (unfold chop; by rewrite Hp).
      assert (short f (chop (length (lcps J1.*1)) J1) /\ short f' (chop (length (lcps J1.*1)) J1)) as [Hs Hs'] by (split; by apply short_chop).
      assert (0 < f /\ 0 < f')%nat as [? ?].
      { destruct (chop (length (lcps J1.*1)) J1) as [|x l] eqn:Ec; [|apply Forall_cons in Hs as [Hs _], Hs' as [Hs' _]; lia].
        apply fmap_nil_inv in Ec. subst J1. by destruct E. }
      f_equal. f_equal. f_equal. apply IH; auto. by apply NoDup_chop.
Qed.

(** The composition of a list with the fuel of its depth, by cases. *)
Definition comp (J : pairs_) : list Z := composition (depth J) J.

Lemma short_depth J : short (depth J) J.
Proof.
  apply Forall_forall. intros [k v] Hin. unfold depth. cbn. apply Nat.lt_succ_r. apply max_list_elem_of_le.
  apply (list_elem_of_fmap_2 length). by apply (list_elem_of_fmap_2 fst J (k, v)).
Qed.

Lemma comp_fuel f J : short f J -> NoDup J.*1 -> (0 < f)%nat -> composition f J = comp J.
Proof. intros Hs Hnd Hf. apply composition_perm; auto using short_depth. unfold depth. lia. Qed.

Lemma comp_leaf k v : comp [(k, v)] = encList (encString (HP k true) ++ encString v).
Proof. done. Qed.

Lemma composition_many f J :
  (2 <= length J)%nat ->
  composition (S f) J =
    if decide (lcps J.*1 = []) then
      encList (concat ((fun i => match below i J with [] => [0x80] | Ji => nodeRef (composition f Ji) end) <$> seqZ 0 16) ++ encString (valueAt J))
    else encList (encString (HP (lcps J.*1) false) ++ nodeRef (composition f (chop (length (lcps J.*1)) J))).
Proof. intros Hl. destruct J as [|[k v] [|b J]]; [cbn in Hl; lia..|]. done. Qed.

Lemma comp_branch J :
  (2 <= length J)%nat -> NoDup J.*1 -> lcps J.*1 = [] ->
  comp J = encList (concat ((fun i => match below i J with [] => [0x80] | Ji => nodeRef (comp Ji) end) <$> seqZ 0 16) ++ encString (valueAt J)).
Proof.
  intros Hl Hnd Hp. unfold comp at 1. pose proof (short_depth J) as Hsd. unfold depth in *. rewrite composition_many, decide_True by done.
  f_equal. f_equal. f_equal. apply list_fmap_ext. intros n i _. destruct (below i J) as [|c Ji] eqn:E; [done|]. f_equal.
  pose proof (short_below _ i J Hsd) as Hs. rewrite E in Hs. pose proof (NoDup_below i J Hnd) as Hndi. rewrite E in Hndi.
  apply comp_fuel; [done|done|]. apply Forall_cons in Hs as [Hs _]. lia.
Qed.

Lemma length_prefixed p J : length (prefixed p J) = length J.
Proof. apply length_fmap. Qed.

Lemma NoDup_prefixed p J : NoDup (prefixed p J).*1 <-> NoDup J.*1.
Proof. rewrite prefixed_keys. split; [apply NoDup_fmap_1|apply NoDup_fmap_2]; apply _. Qed.

Lemma comp_ext p J :
  p <> [] -> (2 <= length J)%nat -> NoDup J.*1 -> lcps J.*1 = [] ->
  comp (prefixed p J) = encList (encString (HP p false) ++ nodeRef (comp J)).
Proof.
  intros Hp Hl Hnd Hlc. set (J' := prefixed p J). assert (lcps J'.*1 = p) as Hlc'.
  { unfold J'. rewrite prefixed_keys, lcps_app, Hlc; [apply app_nil_r|]. destruct J; [cbn in Hl; lia|done]. }
  pose proof (length_prefixed p J) as Hlen. fold J' in Hlen. pose proof (short_depth J') as Hsd. unfold comp at 1. unfold depth in *.
  rewrite composition_many, Hlc', decide_False by (done || lia). f_equal. f_equal. f_equal. pose proof (short_chop _ J' Hsd) as Hs. rewrite Hlc' in Hs. specialize (Hs Hp).
  unfold J' in Hs |- *. rewrite chop_prefixed in *. apply comp_fuel; [done|done|]. destruct J; [cbn in Hl; lia|]. apply Forall_cons in Hs as [Hs _]. lia.
Qed.

End Composition.

(** ** Keys below a nibble *)

Lemma below_app i J J' : below i (J ++ J') = below i J ++ below i J'.
Proof. unfold below. apply omap_app. Qed.

Lemma below_cons i x k v J : below i ((x :: k, v) :: J) = if decide (x = i) then (k, v) :: below i J else below i J.
Proof. unfold below. cbn. by case_decide. Qed.

Lemma below_prefixed i j J : below i (prefixed [j] J) = if decide (i = j) then J else [].
Proof.
  induction J as [|[k v] J IH]; [by case_decide|]. change (prefixed [j] ((k, v) :: J)) with ((j :: k, v) :: prefixed [j] J). rewrite below_cons, IH.
  repeat case_decide; congruence.
Qed.

Lemma prefixed_app p J J' : prefixed p (J ++ J') = prefixed p J ++ prefixed p J'.
Proof. apply fmap_app. Qed.

Lemma prefixed_prefixed p q J : prefixed p (prefixed q J) = prefixed (p ++ q) J.
Proof. unfold prefixed. rewrite <- list_fmap_compose. apply list_fmap_ext. intros i [k v] _. cbn. by rewrite app_assoc. Qed.

Lemma elem_of_prefixed p J k v : (k, v) ∈ prefixed p J <-> exists k', k = p ++ k' /\ (k', v) ∈ J.
Proof.
  unfold prefixed. rewrite list_elem_of_fmap. split.
  - intros ([k' v'] & E & Hin). simplify_eq. eauto.
  - intros (k' & -> & Hin). by exists (k', v).
Qed.

(** ** What a node of the stack trie stands for *)

(** Nibble keys, and sizes that no slice exceeds. *)
Definition keyOk (kv : list Z * list Z) : Prop :=
  Forall nibble kv.1 /\ Z.of_nat (length kv.1) < 2 ^ 60 /\ Z.of_nat (length kv.2) < 2 ^ 60.

Definition keysOk : pairs_ -> Prop := Forall keyOk.

(** Two keys part here, and none ends. *)
Definition branching (J : pairs_) : Prop :=
  (forall k v, (k, v) ∈ J -> k <> []) /\ exists a b, a ∈ J.*1 /\ b ∈ J.*1 /\ head a <> head b.

Lemma branching_lcps J : branching J -> lcps J.*1 = [].
Proof. intros (_ & a & b & Ha & Hb & Hne). exact (lcps_nil _ a b Ha Hb Hne). Qed.

Lemma branching_length J : branching J -> (2 <= length J)%nat.
Proof.
  intros (_ & a & b & Ha & Hb & Hne). destruct J as [|x [|y J]]; [by apply not_elem_of_nil in Ha| |cbn; lia].
  apply list_elem_of_singleton in Ha, Hb. congruence.
Qed.

Lemma branching_valueAt J : branching J -> valueAt J = [].
Proof. intros [Hne _]. apply valueAt_none. intros v Hin. by apply (Hne [] v). Qed.

Lemma branching_app J k v : branching J -> k <> [] -> branching (J ++ [(k, v)]).
Proof.
  intros (Hne & a & b & Ha & Hb & Hab) Hk. split; [|exists a, b; rewrite fmap_app; split_and!; [apply elem_of_app; by left..|done]].
  intros k' v' [Hin|E%list_elem_of_singleton]%elem_of_app; [by eapply Hne|congruence].
Qed.

Lemma keysOk_below i J : keysOk J -> keysOk (below i J).
Proof.
  unfold keysOk. rewrite !Forall_forall. intros H [k v] Hin%elem_of_below. destruct (H _ Hin) as (Hn & Hl & Hv). cbn in *.
  apply Forall_cons in Hn as [_ Hn]. split_and!; [done|cbn; lia|done].
Qed.

Lemma keysOk_prefixed p J : J <> [] -> keysOk (prefixed p J) -> keysOk J /\ Forall nibble p /\ Z.of_nat (length p) < 2 ^ 60.
Proof.
  unfold keysOk, prefixed. rewrite Forall_fmap. intros Hne H. split.
  - eapply Forall_impl; [exact H|]. intros [k v] (Hn & Hl & Hv). cbn in *. apply Forall_app in Hn as [_ Hn]. rewrite length_app in Hl. split_and!; cbn; [done|lia|done].
  - destruct J as [|[k v] J]; [done|]. apply Forall_cons in H as [(Hn & Hl & _) _]. cbn in *. apply Forall_app in Hn as [Hn _]. rewrite length_app in Hl. split; [done|lia].
Qed.

Section Meaning.
Context `{Keccak}.

(** The value of a hashed node. *)
Definition hval (J : pairs_) : list Z := if (Z.of_nat (length (comp J)) <? 32) then comp J else keccak (comp J).

Inductive repr : StackTrie -> pairs_ -> Prop :=
| repr_empty : repr emptyNode []
| repr_leaf k v : repr (leafNode k v) [(k, v)]
| repr_ext k c J : k <> [] -> branching J -> repr c J -> repr (extNode k c) (prefixed k J)
| repr_branch children J :
    length children = 16%nat -> branching J ->
    (forall i, children !! i = Some None -> below (Z.of_nat i) J = []) ->
    (forall i c, children !! i = Some (Some c) -> below (Z.of_nat i) J <> []) ->
    (forall i c, children !! i = Some (Some c) -> repr c (below (Z.of_nat i) J)) ->
    repr (branchNode children) J
| repr_hashed J : J <> [] -> repr (hashedNode (hval J)) J.

(** The nodes on the way to the last key are not hashed. *)
Inductive openT : StackTrie -> Prop :=
| open_empty : openT emptyNode
| open_leaf k v : openT (leafNode k v)
| open_ext k c : openT c -> openT (extNode k c)
| open_branch children :
    (forall i c, children !! i = Some (Some c) -> (forall j c', (i < j)%nat -> children !! j <> Some (Some c')) -> openT c) ->
    openT (branchNode children).

(** ** Hashing *)

Lemma finish_encodes w bs : encodes w bs -> finish w = Ret (if (Z.of_nat (length bs) <? 32) then bs else keccak bs).
Proof. intros Hw. unfold finish. by rewrite (encodes_EncodeToBytes w bs). Qed.

Lemma encodes_child J : encodes (childNode (hval J)) (nodeRef (comp J)).
Proof.
  unfold childNode, hval, nodeRef. destruct (Z.of_nat (length (comp J)) <? 32) eqn:E; [rewrite E; by apply encodes_raw|].
  rewrite keccak_length. cbn. apply encodes_bytes. rewrite keccak_length. lia.
Qed.

Lemma nodeRef_bound c : (length (nodeRef c) <= 41)%nat.
Proof.
  unfold nodeRef. destruct (_ <? 32) eqn:E; [lia|]. pose proof (encString_bound (keccak c)) as Hb. rewrite keccak_length in Hb. lia.
Qed.

(** The writers of the children of a branch. *)
Fixpoint childWriters (l : list (option StackTrie)) : go (list writer) :=
  match l with
  | [] => Ret []
  | None :: l => let! ws := childWriters l in Ret (writeByteSlice [] :: ws)
  | Some child :: l => let! val := hashRec child in let! ws := childWriters l in Ret (childNode val :: ws)
  end.

Lemma hashRec_branch children :
  hashRec (branchNode children) = let! nodes := childWriters children in finish (writeList (nodes ++ [writeRawValue [0x80]])).
Proof. done. Qed.

(** The reference to child [i] in its branch. *)
Definition childRef (J : pairs_) (i : Z) : list Z := match below i J with [] => [0x80] | Ji => nodeRef (comp Ji) end.

Lemma childRef_some J i : below i J <> [] -> childRef J i = nodeRef (comp (below i J)).
Proof. unfold childRef. by destruct (below i J). Qed.

Lemma childRef_bound J i : (length (childRef J i) <= 41)%nat.
Proof. unfold childRef. destruct (below i J); [cbn; lia|apply nodeRef_bound]. Qed.

Lemma childWriters_spec l n J :
  (forall i, l !! i = Some None -> below (Z.of_nat (n + i)) J = []) ->
  (forall i c, l !! i = Some (Some c) -> below (Z.of_nat (n + i)) J <> []) ->
  (forall i c, l !! i = Some (Some c) -> hashRec c = Ret (hval (below (Z.of_nat (n + i)) J))) ->
  exists ws, childWriters l = Ret ws /\ Forall2 encodes ws (childRef J <$> seqZ (Z.of_nat n) (Z.of_nat (length l))).
Proof.
  revert n. induction l as [|c l IH]; intros n H0 H1 H2; [exists []; by split; [|constructor]|].
  destruct (IH (S n)) as (ws & E & Hws); [intros i; specialize (H0 (S i))|intros i c'; specialize (H1 (S i) c')|intros i c'; specialize (H2 (S i) c')|];
    rewrite ?Nat.add_succ_r in *; try done.
  specialize (H0 0%nat). specialize (H1 0%nat). specialize (H2 0%nat). rewrite Nat.add_0_r in *. cbn [lookup list_lookup childWriters] in *. rewrite E.
  cbn [length]. rewrite Nat2Z.inj_succ, seqZ_cons by lia. rewrite Z.pred_succ. replace (Z.succ (Z.of_nat n)) with (Z.of_nat (S n)) by lia. cbn [fmap list_fmap].
  destruct c as [c|].
  - rewrite (H2 c) by done. eexists. split; [done|]. constructor; [|done]. rewrite childRef_some by by eapply H1. apply encodes_child.
  - eexists. split; [done|]. constructor; [|done]. unfold childRef. rewrite H0 by done. by apply encodes_bytes.
Qed.

Lemma childRefs_bound J l : (length (concat (childRef J <$> l)) <= 41 * length l)%nat.
Proof. induction l as [|i l IH]; [cbn; lia|]. cbn [fmap list_fmap concat length]. rewrite length_app. pose proof (childRef_bound J i). lia. Qed.

Lemma hashRec_spec t J : repr t J -> J <> [] -> NoDup J.*1 -> keysOk J -> hashRec t = Ret (hval J).
Proof.
  induction 1 as [|k v|k c J Hk Hb Hc IH|children J Hl Hb Hn Hs Hc IH|J]; intros Hne Hnd Hok; [done| | | |done].
  - cbn [hashRec]. apply Forall_cons in Hok as [(Hn & Hl & Hv) _]. cbn in Hn, Hl, Hv. change (k ++ [16]) with (withTerm k true). rewrite compactKey_HP by (done || by destruct k).
    cbn beta iota. pose proof (length_HP k true) as HL. assert (length k / 2 <= length k)%nat by (apply Nat.Div0.div_le_upper_bound; lia).
    rewrite (finish_encodes _ (comp [(k, v)])); [done|]. rewrite comp_leaf.
    pose proof (encString_bound (HP k true)). pose proof (encString_bound v).
    rewrite <- (app_nil_r (encString v)). apply (encodes_list _ [_; _]); [repeat constructor; apply encodes_bytes; lia|]. cbn [concat]. rewrite !length_app. cbn [length]. lia.
  - assert (J <> []) as HJ by (by destruct J). cbn [hashRec]. apply keysOk_prefixed in Hok as (Hok & Hn & Hl); [|done]. apply NoDup_prefixed in Hnd.
    rewrite IH by done. cbn beta iota. rewrite (compactKey_HP k false : _ -> _ -> compactKey k = _) by done. cbn beta iota.
    pose proof (length_HP k false) as HL. assert (length k / 2 <= length k)%nat by (apply Nat.Div0.div_le_upper_bound; lia).
    rewrite (finish_encodes _ (comp (prefixed k J))); [done|]. rewrite comp_ext by auto using branching_length, branching_lcps.
    pose proof (encString_bound (HP k false)). pose proof (nodeRef_bound (comp J)).
    rewrite <- (app_nil_r (nodeRef _)). apply (encodes_list _ [_; _]); [repeat constructor; [apply encodes_bytes; lia|apply encodes_child]|].
    cbn [concat]. rewrite !length_app. cbn [length]. lia.
  - rewrite hashRec_branch. destruct (childWriters_spec children 0 J) as (ws & -> & Hws); [done|done|intros i c Hi; apply (IH i c Hi); [by eapply Hs|by apply NoDup_below|by apply keysOk_below]|].
    cbn beta iota. rewrite (finish_encodes _ (comp J)); [done|]. rewrite comp_branch by auto using branching_length, branching_lcps.
    rewrite branching_valueAt by done. rewrite Hl in Hws. change (encString []) with [0x80].
    change (fun i => match below i J with [] => [0x80] | _ => _ end) with (childRef J). 
    assert (concat (childRef J <$> seqZ 0 16) ++ [0x80] = concat ((childRef J <$> seqZ 0 16) ++ [[0x80]])) as -> by (rewrite concat_app; done).
    apply encodes_list; [apply Forall2_app; [done|]; repeat constructor; by apply encodes_raw|].
    rewrite concat_app, length_app. pose proof (childRefs_bound J (seqZ 0 16)). rewrite length_seqZ in *. cbn [concat length app]. lia.
Qed.

Lemma hash_spec t J : repr t J -> J <> [] -> NoDup J.*1 -> keysOk J -> hash t = Ret (hashedNode (hval J)).
Proof. intros. unfold hash. by rewrite (hashRec_spec t J). Qed.

(** ** Insertion of increasing keys *)

Lemma bytesLt_app k a b : bytesLt (k ++ a) (k ++ b) <-> bytesLt a b.
Proof. induction k as [|x k IH]; [done|]. cbn [app bytesLt]. rewrite IH. intuition lia. Qed.

Lemma bytesLt_app_l k a b :
  bytesLt (k ++ a) b ->
  (exists r, b = k ++ r /\ bytesLt a r) \/ (exists p x y k' r, k = p ++ x :: k' /\ b = p ++ y :: r /\ x < y).
Proof.
  revert b. induction k as [|z k IH]; intros b Hb; [left; by exists b|]. destruct b as [|y b]; [done|]. cbn [app bytesLt] in Hb. destruct Hb as [Hlt|[<- Hb]].
  - right. by exists [], z, y, k, b.
  - destruct (IH b Hb) as [(r & -> & Hr)|(p & x & y & k' & r & -> & -> & Hxy)]; [left; by exists r|right; by exists (z :: p), x, y, k', r].
Qed.

Lemma bytesLt_split a b : bytesLt a b -> exists p x y a' b', a = p ++ x :: a' /\ b = p ++ y :: b' /\ x < y.
Proof.
  revert b. induction a as [|x a IH]; intros [|y b] Hab; [done..|]. destruct Hab as [Hlt|[<- Hab]]; [by exists [], x, y, a, b|].
  destruct (IH b Hab) as (p & x' & y' & a' & b' & -> & -> & Hlt). by exists (x :: p), x', y', a', b'.
Qed.

Lemma bytesLt_neq a b : bytesLt a b -> a <> b.
Proof. revert b. induction a as [|x a IH]; intros [|y b] Hab; [done..|]. destruct Hab as [Hlt|[<- Hab]]; [intros [=]; lia|]. intros [= <-]. by apply (IH a). Qed.

Lemma getDiffIndex_split p x y a b : x <> y -> getDiffIndex (p ++ x :: a) (p ++ y :: b) = Ret (length p).
Proof.
  intros Hxy. induction p as [|z p IH]; cbn [app getDiffIndex length]; [by rewrite decide_False by done|]. by rewrite decide_True, IH.
Qed.

Lemma getDiffIndex_prefix k r : getDiffIndex k (k ++ r) = Ret (length k).
Proof. induction k as [|z k IH]; cbn [app getDiffIndex length]; [done|]. by rewrite decide_True, IH. Qed.

(** The last key is beyond all others. *)
Definition beyond (J : pairs_) (key : list Z) : Prop := forall k v, (k, v) ∈ J -> bytesLt k key.

Lemma beyond_below J x rest : beyond J (x :: rest) -> beyond (below x J) rest.
Proof. intros Hb k v Hin%elem_of_below. destruct (Hb _ _ Hin) as [?|[_ ?]]; [lia|done]. Qed.

Lemma beyond_last J x rest i : beyond J (x :: rest) -> x < i -> below i J = [].
Proof.
  intros Hb Hlt. destruct (below i J) as [|[k v] Ji] eqn:E; [done|]. exfalso.
  assert ((k, v) ∈ below i J) as Hin%elem_of_below by (rewrite E; set_solver). destruct (Hb _ _ Hin); lia.
Qed.

Lemma beyond_prefixed p J r : beyond (prefixed p J) (p ++ r) -> beyond J r.
Proof. intros Hb k v Hin. apply (bytesLt_app p). apply (Hb _ v). apply elem_of_prefixed. eauto. Qed.

Lemma beyond_NoDup J key v : NoDup J.*1 -> beyond J key -> NoDup (J ++ [(key, v)]).*1.
Proof.
  intros Hnd Hb. rewrite fmap_app. apply NoDup_app. split_and!; [done| |apply NoDup_singleton]. intros k ([k' w] & -> & Hin)%list_elem_of_fmap E%list_elem_of_singleton.
  cbn in E. subst k'. by apply (bytesLt_neq key key); [apply (Hb _ w)|].
Qed.

Lemma setChild_ok l i c : nibble i -> length l = 16%nat -> setChild l i c = Ret (<[Z.to_nat i := Some c]> l).
Proof. unfold nibble, setChild. intros Hi Hl. rewrite decide_True by lia. done. Qed.

(** A branch of a hashed part and a new leaf. *)
Lemma branch_two x y J' r v :
  nibble x -> nibble y -> x < y -> J' <> [] ->
  let t := branchNode (<[Z.to_nat y := Some (leafNode r v)]> (<[Z.to_nat x := Some (hashedNode (hval J'))]> noChildren)) in
  let J := prefixed [x] J' ++ [(y :: r, v)] in
  repr t J /\ openT t /\ branching J.
Proof.
  intros Hx Hy Hxy HJ' t J. unfold nibble in Hx, Hy.
  assert (forall i, below i J = if decide (i = x) then J' else if decide (i = y) then [(r, v)] else []) as Hbelow.
  { intros i. unfold J. rewrite below_app, below_prefixed, below_cons. change (below i []) with (@nil (list Z * list Z)).
    repeat case_decide; subst; try lia; cbn [app]; rewrite ?app_nil_r; done. }
  assert (branching J) as HJ.
  { split.
    - intros k w [(k' & -> & _)%elem_of_prefixed|E%list_elem_of_singleton]%elem_of_app; [done|congruence].
    - destruct J' as [|[k w] J']; [done|]. exists (x :: k), (y :: r). unfold J. rewrite fmap_app. cbn. split_and!; [set_solver|set_solver|]. intros [=]. lia. }
  assert (forall i c, (<[Z.to_nat y := Some (leafNode r v)]> (<[Z.to_nat x := Some (hashedNode (hval J'))]> noChildren)) !! i = Some c ->
    (i = Z.to_nat y /\ c = Some (leafNode r v)) \/ (i = Z.to_nat x /\ c = Some (hashedNode (hval J'))) \/
    (i <> Z.to_nat y /\ i <> Z.to_nat x /\ c = None)) as Hat.
  { intros i c [(<- & <- & _)|[? [(<- & <- & _)|[? Hc]]%list_lookup_insert_Some]]%list_lookup_insert_Some; [by left|by right; left|].
    right; right. split_and!; [done|done|]. unfold noChildren in Hc. apply lookup_replicate in Hc. by destruct Hc. }
  split_and!; [constructor| |done].
  - by rewrite !length_insert.
  - done.
  - intros i Hi%Hat. rewrite Hbelow. destruct Hi as [(_ & [=])|[(_ & [=])|(Hiy & Hix & _)]]. by rewrite !decide_False by lia.
  - intros i c Hi%Hat. rewrite Hbelow. destruct Hi as [(-> & _)|[(-> & _)|(_ & _ & [=])]]; rewrite Z2Nat.id by lia; repeat case_decide; try done; lia.
  - intros i c Hi%Hat. rewrite Hbelow. destruct Hi as [(-> & [= ->])|[(-> & [= ->])|(_ & _ & [=])]]; rewrite Z2Nat.id by lia; repeat case_decide; try lia; by constructor.
  - constructor. intros i c Hi%Hat Hlast. destruct Hi as [(-> & [= ->])|[(-> & [= ->])|(_ & _ & [=])]]; [constructor|].
    exfalso. apply (Hlast (Z.to_nat y) (leafNode r v)); [lia|]. apply list_lookup_insert_eq. rewrite length_insert. cbn. lia.
Qed.

Lemma splitAt_spec p x y J' r v :
  nibble x -> nibble y -> x < y -> J' <> [] ->
  exists t, splitAt p x (hashedNode (hval J')) y (leafNode r v) = Ret t /\
    repr t (prefixed (p ++ [x]) J' ++ [(p ++ y :: r, v)]) /\ openT t.
Proof.
  intros Hx Hy Hxy HJ'. destruct (branch_two x y J' r v Hx Hy Hxy HJ') as (Hr & Ho & Hb).
  unfold splitAt. rewrite setChild_ok by done. cbn beta iota. rewrite setChild_ok by (rewrite ?length_insert; done). cbn beta iota.
  eexists. split; [done|]. case_decide as Hp; [by subst p|]. split; [|by constructor].
  rewrite <- prefixed_prefixed. change [(p ++ y :: r, v)] with (prefixed p [(y :: r, v)]). rewrite <- prefixed_app. by constructor.
Qed.

(** Hashing an elder sibling keeps what the children stand for. *)
Lemma hashElder_spec idx l J :
  NoDup J.*1 -> keysOk J ->
  (forall i c, l !! i = Some (Some c) -> below (Z.of_nat i) J <> []) ->
  (forall i c, l !! i = Some (Some c) -> repr c (below (Z.of_nat i) J)) ->
  exists l', hashElder idx l = Ret l' /\ length l' = length l /\
    forall i, match l' !! i with
              | Some (Some c) => below (Z.of_nat i) J <> [] /\ repr c (below (Z.of_nat i) J)
              | Some None => l !! i = Some None
              | None => True
              end.
Proof.
  intros Hnd Hok Hs Hc. assert (forall i, match l !! i with
    Some (Some c) => below (Z.of_nat i) J <> [] /\ repr c (below (Z.of_nat i) J) | Some None => l !! i = Some None | None => True end) as Hl.
  { intros i. destruct (l !! i) as [[c|]|] eqn:E; eauto. }
  induction idx as [|idx IH]; cbn [hashElder]; [by exists l|]. destruct (l !! idx) as [[c|]|] eqn:E; [|done|done].
  rewrite (hash_spec c (below (Z.of_nat idx) J)) by eauto using NoDup_below, keysOk_below. cbn beta iota. eexists. split_and!; [done|apply length_insert|].
  intros i. destruct (decide (i = idx)) as [->|Hne]; [|rewrite list_lookup_insert_ne by done; apply Hl].
  rewrite list_lookup_insert_eq by (by eapply lookup_lt_Some). split; [by eapply Hs|constructor; by eapply Hs].
Qed.

(** The new or changed child of a branch. *)
Definition insertAt (rest value : list Z) : list (option StackTrie) -> nat -> go StackTrie :=
  fix at_ l i :=
    match l, i with
    | [], _ => Panic
    | None :: _, O => Ret (leafNode rest value)
    | Some child :: _, O => insert child rest value
    | _ :: l, S i => at_ l i
    end.

Lemma insert_branch children x rest value :
  insert (branchNode children) (x :: rest) value =
    let! elders := hashElder (Z.to_nat x) children in
    let! child := insertAt rest value children (Z.to_nat x) in
    let! children := setChild elders x child in
    Ret (branchNode children).
Proof. reflexivity. Qed.

Lemma insertAt_lookup rest value l i :
  insertAt rest value l i =
    match l !! i with None => Panic | Some None => Ret (leafNode rest value) | Some (Some child) => insert child rest value end.
Proof. revert i. induction l as [|[c|] l IH]; intros [|i]; try done; cbn [insertAt lookup list_lookup]; apply IH. Qed.

(** What insertion of a key beyond all others does. *)
Definition inserts (t : StackTrie) (J : pairs_) (key value : list Z) : Prop :=
  exists t', insert t key value = Ret t' /\ repr t' (J ++ [(key, value)]) /\ openT t'.

Lemma insert_leaf_spec k v0 key v : keyOk (k, v0) -> Forall nibble key -> bytesLt k key -> inserts (leafNode k v0) [(k, v0)] key v.
Proof.
  intros (Hn & Hl & Hv) Hkey (p & x & y & k' & r & -> & -> & Hxy)%bytesLt_split. cbn in Hn, Hl, Hv. unfold inserts. cbn [insert].
  apply Forall_app in Hn as [Hp [Hx Hn]%Forall_cons]. apply Forall_app in Hkey as [_ [Hy Hr]%Forall_cons]. rewrite length_app in Hl. cbn [length] in Hl.
  rewrite getDiffIndex_split by lia. cbn beta iota. rewrite decide_False by (rewrite length_app; cbn [length]; lia).
  rewrite !list_lookup_middle by done. rewrite take_app_length. rewrite !drop_app_add, !skipn_cons, !drop_0.
  rewrite (hash_spec _ [(k', v0)]); [|constructor|done|apply NoDup_singleton|repeat constructor; cbn; (done || lia)].
  cbn beta iota. destruct (splitAt_spec p x y [(k', v0)] r v) as (t & -> & Hr' & Ho); [done..|]. exists t. split_and!; [done| |done].
  replace [(p ++ x :: k', v0)] with (prefixed (p ++ [x]) [(k', v0)]); [done|]. unfold prefixed. cbn. by rewrite <- app_assoc.
Qed.

Lemma insert_ext_spec k c J key v :
  k <> [] -> branching J -> repr c J -> openT c -> NoDup J.*1 -> keysOk (prefixed k J) -> Forall nibble key ->
  beyond (prefixed k J) key -> (forall key, Forall nibble key -> beyond J key -> inserts c J key v) ->
  inserts (extNode k c) (prefixed k J) key v.
Proof.
  intros Hk Hb Hc Ho Hnd Hok Hkey Hbe IH. pose proof (branching_length J Hb) as HL. assert (J <> []) as HJ by (by destruct J; [cbn in HL; lia|]).
  pose proof Hok as Hok'. apply keysOk_prefixed in Hok' as (HokJ & Hn & Hl); [|done]. unfold inserts. cbn [insert].
  assert (exists k0, bytesLt (k ++ k0) key) as [k0 Hk0].
  { destruct J as [|[k0 v0] J]; [done|]. exists k0. apply (Hbe _ v0). apply elem_of_prefixed. exists k0. set_solver. }
  destruct (bytesLt_app_l k k0 key Hk0) as [(r & -> & Hr)|(p & x & y & k' & r & -> & -> & Hxy)].
  - rewrite getDiffIndex_prefix. cbn beta iota. rewrite decide_True by done. rewrite drop_app_length.
    apply Forall_app in Hkey as [_ Hkey]. destruct (IH r Hkey) as (t & -> & Ht & Hto); [by apply beyond_prefixed in Hbe|]. cbn beta iota.
    eexists. split_and!; [done| |by constructor]. change [(k ++ r, v)] with (prefixed k [(r, v)]). rewrite <- prefixed_app. constructor; [done| |done].
    apply branching_app; [done|]. by destruct r; [destruct k0|].
  - rewrite getDiffIndex_split by lia. cbn beta iota. rewrite length_app. cbn [length]. rewrite decide_False by lia.
    apply Forall_app in Hn as [Hp [Hx Hn]%Forall_cons]. apply Forall_app in Hkey as [_ [Hy Hr]%Forall_cons].
    rewrite !list_lookup_middle by done. rewrite take_app_length. rewrite !drop_app_add, !skipn_cons, !drop_0.
    set (n := if decide _ then _ else _). assert (repr n (prefixed k' J)) as Hrn.
    { unfold n. destruct k' as [|z k'].
      - rewrite decide_False by (cbn [length]; lia). replace (prefixed [] J) with J; [done|]. unfold prefixed. symmetry. etrans; [|apply list_fmap_id].
        apply list_fmap_ext. by intros i [? ?] _.
      - rewrite decide_True by (cbn [length]; lia). by constructor. }
    assert (prefixed k' J <> []) as Hne by (by intros ?%fmap_nil_inv).
    rewrite (hash_spec n (prefixed k' J)); [|done|done|by apply NoDup_prefixed|].
    2: { replace (p ++ x :: k') with ((p ++ [x]) ++ k') in Hok by (by rewrite <- app_assoc). rewrite <- prefixed_prefixed in Hok. by apply keysOk_prefixed in Hok as [Hok _]. }
    cbn beta iota. destruct (splitAt_spec p x y (prefixed k' J) r v) as (t & -> & Hr' & Ho'); [done..|]. exists t. split_and!; [done| |done].
    rewrite prefixed_prefixed, <- app_assoc in Hr'. done.
Qed.

Lemma insert_branch_spec children J key v :
  length children = 16%nat -> branching J ->
  (forall i, children !! i = Some None -> below (Z.of_nat i) J = []) ->
  (forall i c, children !! i = Some (Some c) -> below (Z.of_nat i) J <> []) ->
  (forall i c, children !! i = Some (Some c) -> repr c (below (Z.of_nat i) J)) ->
  NoDup J.*1 -> keysOk J -> Forall nibble key -> beyond J key ->
  (forall i c key, children !! i = Some (Some c) -> (forall j c', (i < j)%nat -> children !! j <> Some (Some c')) ->
     Forall nibble key -> beyond (below (Z.of_nat i) J) key -> inserts c (below (Z.of_nat i) J) key v) ->
  inserts (branchNode children) J key v.
Proof.
  intros Hl Hb Hn Hs Hc Hnd Hok Hkey Hbe IH. pose proof (branching_length J Hb) as HL.
  destruct key as [|x rest]. { destruct J as [|[k0 v0] J]; [cbn in HL; lia|]. specialize (Hbe k0 v0 ltac:(set_solver)). by destruct k0. }
  apply Forall_cons in Hkey as [Hx Hkey]. unfold nibble in Hx. unfold inserts. rewrite insert_branch.
  destruct (hashElder_spec (Z.to_nat x) children J) as (elders & -> & Hle & He); [done..|]. cbn beta iota.
  assert (exists c', insertAt rest v children (Z.to_nat x) = Ret c' /\ repr c' (below x J ++ [(rest, v)]) /\ openT c') as (c' & -> & Hr' & Ho').
  { rewrite insertAt_lookup. destruct (lookup_lt_is_Some_2 children (Z.to_nat x)) as [[c|] E]; [lia| |]; rewrite E.
    - replace (below x J) with (below (Z.of_nat (Z.to_nat x)) J) by (by rewrite Z2Nat.id by lia). apply (IH _ _ _ E); [|done|rewrite Z2Nat.id by lia; by apply beyond_below].
      intros j c' Hj E'. by apply (Hs j c' E'), (beyond_last J x rest); [|lia].
    - apply Hn in E. rewrite Z2Nat.id in E by lia. rewrite E. eexists. split_and!; [done|constructor|constructor]. }
  cbn beta iota. rewrite setChild_ok by (done || lia). cbn beta iota. eexists. split; [done|].
  assert (forall i, below i (J ++ [(x :: rest, v)]) = below i J ++ if decide (x = i) then [(rest, v)] else []) as Hbelow.
  { intros i. rewrite below_app, below_cons. by case_decide. }
  assert (forall i c, <[Z.to_nat x := Some c']> elders !! i = Some c ->
    (i = Z.to_nat x /\ c = Some c') \/ (Z.of_nat i <> x /\ elders !! i = Some c)) as Hat.
  { intros i c [(<- & <- & _)|[? ?]]%list_lookup_insert_Some; [by left|right; split; [lia|done]]. }
  split; [constructor|constructor].
  - by rewrite length_insert, Hle.
  - by apply branching_app.
  - intros i [(_ & [=])|[Hi E]]%Hat. rewrite Hbelow, decide_False, app_nil_r by done. apply Hn. specialize (He i). by rewrite E in He.
  - intros i c [(-> & [= ->])|[Hi E]]%Hat; rewrite Hbelow.
    + rewrite decide_True by lia. by intros [_ [=]]%app_eq_nil.
    + rewrite decide_False, app_nil_r by done. specialize (He i). by rewrite E in He; destruct He.
  - intros i c [(-> & [= ->])|[Hi E]]%Hat; rewrite Hbelow.
    + rewrite decide_True by lia. by rewrite Z2Nat.id by lia.
    + rewrite decide_False, app_nil_r by done. specialize (He i). by rewrite E in He; destruct He.
  - intros i c [(-> & [= ->])|[Hi E]]%Hat Hlast; [done|]. exfalso. destruct (Z.lt_ge_cases (Z.of_nat i) x).
    + apply (Hlast (Z.to_nat x) c'); [lia|]. apply list_lookup_insert_eq. lia.
    + specialize (He i). rewrite E in He. destruct He as [He _]. apply He, (beyond_last J x rest); [done|lia].
Qed.

Lemma insert_spec t J key v :
  repr t J -> openT t -> NoDup J.*1 -> keysOk J -> Forall nibble key -> beyond J key -> inserts t J key v.
Proof.
  intros Hr. revert key. induction Hr as [|k v0|k c J Hk Hb Hc IH|children J Hl Hb Hn Hs Hc IH|J]; intros key Ho Hnd Hok Hkey Hbe.
  - exists (leafNode key v). split_and!; [done|constructor|constructor].
  - apply insert_leaf_spec; [by apply Forall_cons in Hok as [Hok _]|done|]. apply (Hbe k v0). set_solver.
  - inversion_clear Ho. apply NoDup_prefixed in Hnd. apply insert_ext_spec; auto. intros key' ? ?. apply IH; auto.
    apply keysOk_prefixed in Hok; [by destruct Hok|]. apply branching_length in Hb. by destruct J; [cbn in Hb; lia|].
  - inversion_clear Ho as [| | |? Ho']. apply insert_branch_spec; auto. intros i c key' Hi Hlast ? ?. apply (IH i c Hi); eauto using NoDup_below, keysOk_below.
  - inversion Ho.
Qed.

(** ** Whole runs *)

Lemma sorted_NoDup (J : pairs_) : StronglySorted (fun a b => bytesLt a.1 b.1) J -> NoDup J.*1.
Proof.
  induction 1 as [|[k v] J HJ IH Hall]; cbn; constructor; [|done]. intros ([k' v'] & -> & Hin)%list_elem_of_fmap.
  rewrite Forall_forall in Hall. by apply (bytesLt_neq k' k'); [apply (Hall _ Hin)|].
Qed.

Lemma TryUpdate_insert st k v : v <> [] -> TryUpdate st k v = insert st (nibblesOf k) v.
Proof. intros Hv. unfold TryUpdate, keybytesToHex. rewrite decide_False by done. by rewrite take_snoc. Qed.

Lemma nibblesOf_lt a b : bytesLt a b -> bytesLt (nibblesOf a) (nibblesOf b).
Proof.
  revert b. induction a as [|x a IH]; intros [|y b] Hab; [done..|]. cbn [nibblesOf bytesLt]. destruct Hab as [Hlt|[<- Hab]]; [|right; split; [done|right; auto]].
  pose proof (Z.div_mod x 16). pose proof (Z.div_mod y 16). pose proof (Z.mod_pos_bound x 16). pose proof (Z.mod_pos_bound y 16). lia.
Qed.

(** Keys and values as byte strings of sizes that fit. *)
Definition entryOk (kv : list Z * list Z) : Prop :=
  Forall is_byte kv.1 /\ kv.2 <> [] /\ Z.of_nat (length kv.1) < 2 ^ 58 /\ Z.of_nat (length kv.2) < 2 ^ 60.

Lemma entryOk_keyOk k v : entryOk (k, v) -> keyOk (nibblesOf k, v).
Proof. intros (Hb & _ & Hl & Hv). cbn in *. split_and!; cbn; [by apply nibblesOf_nibbles|rewrite length_nibblesOf; lia|done]. Qed.

Lemma updates_spec kvs st J :
  repr st J -> openT st -> keysOk J -> Forall entryOk kvs -> StronglySorted (fun a b => bytesLt a.1 b.1) (J ++ hexed kvs) ->
  exists st', go_foldl (fun st '(k, v) => TryUpdate st k v) st kvs = Ret st' /\ repr st' (J ++ hexed kvs) /\ keysOk (J ++ hexed kvs).
Proof.
  revert st J. induction kvs as [|[k v] kvs IH]; intros st J Hr Ho Hok Hall Hs; [exists st; cbn; by rewrite app_nil_r|].
  apply Forall_cons in Hall as [Hkv Hall]. change (hexed ((k, v) :: kvs)) with ([(nibblesOf k, v)] ++ hexed kvs) in *. rewrite app_assoc in *.
  pose proof (entryOk_keyOk k v Hkv) as Hk. destruct Hkv as (Hb & Hv & _). cbn [go_foldl]. rewrite TryUpdate_insert by done.
  pose proof Hs as Hs'. apply StronglySorted_app_1_l in Hs'. destruct (insert_spec st J (nibblesOf k) v) as (st' & -> & Hr' & Ho'); [done|done| |done|by apply nibblesOf_nibbles| |].
  - apply StronglySorted_app_1_l in Hs'. by apply sorted_NoDup.
  - intros k' v' Hin. exact (StronglySorted_app_1_elem_of _ _ _ (k', v') (nibblesOf k, v) Hs' Hin ltac:(set_solver)).
  - cbn beta iota. apply IH; auto. apply Forall_app. split; [done|]. by constructor.
Qed.

Lemma repr_nil st J : repr st J -> J = [] -> st = emptyNode.
Proof.
  intros [|k v|k c J0 _ Hb _|children J0 _ Hb _ _ _|J0 Hne] HJ; [done|done| | |done]; apply branching_length in Hb.
  - apply fmap_nil_inv in HJ as ->. cbn in Hb. lia.
  - subst J0. cbn in Hb. lia.
Qed.

Lemma Hash_spec st J : repr st J -> NoDup J.*1 -> keysOk J -> Hash st = Ret (trieRoot J).
Proof.
  intros Hr Hnd Hok. unfold Hash, trieRoot. destruct (decide (J = [])) as [->|Hne].
  - rewrite (repr_nil st []) by done. cbn. by rewrite keccak_empty.
  - rewrite (hashRec_spec st J) by done. cbn beta iota. fold (comp J). unfold hval. destruct (Z.of_nat (length (comp J)) <? 32) eqn:E.
    + rewrite decide_False by lia. done.
    + rewrite decide_True; [done|]. apply keccak_length.
Qed.

Lemma hexed_sorted kvs :
  StronglySorted (fun a b => bytesLt a.1 b.1) kvs -> StronglySorted (fun a b => bytesLt a.1 b.1) (hexed kvs).
Proof. apply StronglySorted_fmap. intros [k v] [k' v']. apply nibblesOf_lt. Qed.

Lemma updates_root kvs :
  Forall entryOk kvs -> StronglySorted (fun a b => bytesLt a.1 b.1) kvs ->
  exists st, go_foldl (fun st '(k, v) => TryUpdate st k v) NewStackTrie kvs = Ret st /\ Hash st = Ret (trieRoot (hexed kvs)).
Proof.
  intros Hall Hs%hexed_sorted.
  destruct (updates_spec kvs emptyNode []) as (st & E & Hr & Hok); [constructor..|done|done|]. exists st. split; [done|]. apply Hash_spec; [done|by apply sorted_NoDup|done].
Qed.

Lemma trieRoot_perm J J' : J ≡ₚ J' -> NoDup J.*1 -> trieRoot J = trieRoot J'.
Proof.
  intros Hp Hnd. unfold trieRoot. f_equal. assert (short (depth J') J) as Hs by (unfold short; rewrite Hp; apply short_depth).
  apply composition_perm; auto using short_depth; unfold depth; lia.
Qed.

(** ** The trie of a list *)

Lemma deriveKeys_key n : Z.of_nat n < 2 ^ 64 -> TypesRlp.deriveKeys n ≡ₚ key <$> seq 0 n.
Proof.
  intros Hn. rewrite <- keys_indices. rewrite deriveKeys_enc by done.
  assert (forall l, key <$> (key <$> l).*2 = key <$> l) as Hk.
  { intros l. rewrite <- !list_fmap_compose. by apply list_fmap_ext. }
  rewrite !fmap_app, !Hk. by case_decide.
Qed.

Definition itemAt (items : list (list Z)) (ki : list Z * nat) : list Z * list Z := (ki.1, default [] (items !! ki.2)).

Lemma itemAt_keys items : itemAt items <$> (key <$> seq 0 (length items)) = indexed items.
Proof.
  apply list_eq. intros i. unfold indexed. rewrite list_lookup_imap, !list_lookup_fmap. destruct (items !! i) as [item|] eqn:E.
  - rewrite lookup_seq_lt by (by eapply lookup_lt_Some). cbn. unfold itemAt. cbn. by rewrite E.
  - rewrite lookup_seq_ge by (by apply lookup_ge_None). done.
Qed.

Lemma itemAt_indexed items : Z.of_nat (length items) < 2 ^ 64 -> itemAt items <$> TypesRlp.deriveKeys (length items) ≡ₚ indexed items.
Proof. intros Hn. rewrite <- itemAt_keys. by apply fmap_Permutation, deriveKeys_key. Qed.

Lemma DeriveSha_fold items : DeriveSha items =
  let! st := go_foldl (fun st '(k, v) => TryUpdate st k v) NewStackTrie (itemAt items <$> TypesRlp.deriveKeys (length items)) in Hash st.
Proof.
  unfold DeriveSha. generalize (TypesRlp.deriveKeys (length items)), NewStackTrie. intros l. induction l as [|[k i] l IH]; intros st; [done|].
  cbn [go_foldl fmap list_fmap itemAt fst snd]. destruct (TryUpdate _ _ _); [apply IH|done].
Qed.

End Meaning.

End TrieLemmas.

Import TrieLemmas.

(** ** The theorems *)

(** C9: The root of the stack trie. For byte keys in increasing order of which none is a prefix of another, and values that are not
    empty, insertion never panics, and [Hash] then gives the root that the Yellow Paper defines for the whole set of pairs: hashing
    the left siblings on the way, splitting leaves and extensions and dropping what is hashed loses nothing. *)
Theorem stack_trie_root `{Keccak} kvs :
  Forall (fun '(k, v) => Forall is_byte k /\ v <> [] /\ Z.of_nat (length k) < 2 ^ 58 /\ Z.of_nat (length v) < 2 ^ 60) kvs ->
  StronglySorted (fun a b => bytesLt a.1 b.1) kvs ->
  exists st, go_foldl (fun st '(k, v) => TryUpdate st k v) NewStackTrie kvs = Ret st /\ Hash st = Ret (trieRoot (hexed kvs)).
Proof. intros Hall. apply updates_root. eapply Forall_impl; [exact Hall|]. by intros [k v] ?. Qed.

(** The root of a list. [DeriveSha] inserts the items in an order that the stack trie can take, never panics, and returns the root
    of the trie that holds every item under the RLP encoding of its index. *)
Theorem derive_sha_root `{Keccak} items :
  Z.of_nat (length items) < 2 ^ 64 ->
  Forall (fun item => item <> [] /\ Z.of_nat (length item) < 2 ^ 60) items ->
  DeriveSha items = Ret (trieRoot (hexed (indexed items))).
Proof.
  intros Hn Hall. rewrite DeriveSha_fold. pose proof (itemAt_indexed items Hn) as Hp.
  assert (StronglySorted (fun a b => bytesLt a.1 b.1) (itemAt items <$> TypesRlp.deriveKeys (length items))) as Hs.
  { rewrite deriveKeys_enc by done. apply (StronglySorted_fmap (itemAt items) (fun x y => bytesLt x.1 y.1)); [done|by apply keys_sorted]. }
  destruct (updates_root (itemAt items <$> TypesRlp.deriveKeys (length items))) as (st & -> & E); [|done|].
  - rewrite Hp. apply Forall_forall. intros [k v] (i & item & [= -> ->] & Hi)%elem_of_lookup_imap. pose proof (lookup_lt_Some _ _ _ Hi).
    rewrite Forall_lookup in Hall. destruct (Hall _ _ Hi). pose proof (bytelen_le (Z.of_nat i) 8 ltac:(cbn; lia)).
    pose proof (encString_bound (minimal (Z.of_nat i))) as Hb. rewrite length_minimal in Hb. specialize (Hb ltac:(lia)).
    split_and!; cbn [fst snd]; [apply RlpDecodeLemmas.encUint_is_bytes; lia|done| |done]. unfold encUint. lia.
  - cbn beta iota. rewrite E. f_equal. apply trieRoot_perm; [by apply fmap_Permutation|]. by apply sorted_NoDup, hexed_sorted.
Qed.

(** Compact keys. The compact form of a key with or without terminator is the hex prefix encoding of the Yellow Paper, whether it is
    built in a fresh slice or in place over the nibbles, where only the empty key panics; reading it gives the key back. The nibbles of a
    byte key give the bytes back. *)
Theorem compact_keys k t str :
  Forall nibble k -> Forall is_byte str ->
  hexToCompact (withTerm k t) = Ret (HP k t) /\
  compactKey (withTerm k t) = (if decide (withTerm k t = []) then Panic else Ret (HP k t)) /\
  compactToHex (HP k t) = withTerm k t /\
  hexToKeybytes (keybytesToHex str) = Ret str.
Proof.
  intros Hk Hs. split_and!; [by apply hexToCompact_HP| |by apply compactToHex_HP|by apply hexToKeybytes_hex].
  case_decide as E; [by rewrite E|by apply compactKey_HP].
Qed.

(** ** Runs *)

Module TrieDemo.

(** A stand-in for Keccak-256 with 32 bytes. *)
Definition mix (b : list Z) : list Z :=
  if decide (b = [0x80]) then emptyRoot else be_encode 32 (foldl (fun h x => h * 257 + x + 1) 7 b).

#[local] Instance demo_keccak : Keccak.
Proof.
  refine {| keccak := mix |}; [| |done]; intros b; unfold mix; case_decide.
  - done.
  - apply length_be_encode.
  - repeat constructor; unfold is_byte; lia.
  - apply be_encode_bytes.
Defined.

Definition items : list (list Z) := (fun i => Z.of_nat i :: replicate 40 (Z.of_nat i)) <$> seq 0 130.

Definition kvs : list (list Z * list Z) := [([0x12; 0x34], [1]); ([0x12; 0x35], [2; 3]); ([0x12; 0x75], [4]); ([0x20], replicate 50 7)].

End TrieDemo.

Lemma compact_keys_witness :
  hexToCompact (withTerm [1; 2; 3] true) = Ret [0x31; 0x23] /\ compactToHex [0x31; 0x23] = [1; 2; 3; 16].
Proof. destruct (compact_keys [1; 2; 3] true []) as (E & _ & E' & _); [repeat constructor; lia|constructor|]. split; [exact E|exact E']. Defined.

Lemma stack_trie_root_witness :
  exists st, go_foldl (fun st '(k, v) => @TryUpdate TrieDemo.demo_keccak st k v) NewStackTrie TrieDemo.kvs = Ret st /\
    @Hash TrieDemo.demo_keccak st = Ret (@trieRoot TrieDemo.demo_keccak (hexed TrieDemo.kvs)).
Proof.
  apply (@stack_trie_root TrieDemo.demo_keccak TrieDemo.kvs).
  - repeat constructor; cbn; try lia; done.
  - repeat constructor; cbn; lia.
Defined.

Lemma derive_sha_root_witness :
  @DeriveSha TrieDemo.demo_keccak TrieDemo.items = Ret (@trieRoot TrieDemo.demo_keccak (hexed (indexed TrieDemo.items))).
Proof.
  apply (@derive_sha_root TrieDemo.demo_keccak TrieDemo.items); [by vm_compute|]. apply Forall_fmap, Forall_true. intros i. split; [done|]. cbn. lia.
Defined.
