(* ===== verification/TrieNode.v ===== *)
(** * Trie nodes, their encoding and decoding, and the hasher (src/trie/node.go, node_enc.go, hasher.go)

    A node is a value: the code copies nodes before it changes them. The cached hash is an option, [None] for nil. An array of children is
    a list of 17 options. The sixteen goroutines of a parallel hasher write different entries of the two arrays, so
    they give what the loop gives. *)

From stdpp Require Import base tactics list strings.
From Stdlib Require Import ZArith Lia.
From S2P Require Import Prelude Bytes RlpRaw RlpEncode Trie.

Open Scope Z_scope.
Open Scope go_scope.

Import Rlp RlpEncode Trie.

Module TrieNode.

Record nodeFlag := mkFlag { cachedHash : option (list Z); dirty : bool }.

Inductive node :=
| fullNode (Children : list (option node)) (flags : nodeFlag)
| shortNode (Key : list Z) (Val : option node) (flags : nodeFlag)
| hashNode (b : list Z)
| valueNode (b : list Z).

Definition nilValueNode : node := valueNode [].

Definition cache (n : node) : option (list Z) * bool :=
  match n with
  | fullNode _ flags | shortNode _ _ flags => (cachedHash flags, dirty flags)
  | hashNode _ | valueNode _ => (None, true)
  end.

(** ** Encoding *)

Fixpoint encode (n : node) : writer :=
  match n with
  | fullNode children _ =>
      writeList ((fix all (l : list (option node)) : list writer :=
        match l with
        | [] => []
        | Some c :: l => encode c :: all l
        | None :: l => writeRawValue [0x80] :: all l
        end) children)
  | shortNode key val _ => writeList [writeByteSlice key; match val with Some v => encode v | None => writeRawValue [0x80] end]
  | hashNode b | valueNode b => writeByteSlice b
  end.

Definition nodeToBytes (n : node) : go (list Z) := match EncodeToBytes (encode n) with Ret (Ok enc) => Ret enc | _ => Panic end.

(** ** Hashing *)

Section Hashing.
Context `{Keccak}.

(** [shortnodeToHash] and [fullnodeToHash], which are the same. *)
Definition nodeToHash (n : node) (force : bool) : go node :=
  let! enc := nodeToBytes n in
  Ret (if (Z.of_nat (length enc) <? 32) && negb force then n else hashNode (keccak enc)).

(** Full and short nodes, which have children. *)
Definition inner (n : node) : bool := match n with fullNode _ _ | shortNode _ _ _ => true | _ => false end.

(** The value of a short node: unless it is a value or a hash, it is hashed. *)
Definition hashVal (hash : node -> bool -> go (node * node)) (val : option node) : go (option node * option node) :=
  match val with
  | Some v => if inner v then let! (h, c) := hash v false in Ret (Some h, Some c) else Ret (Some v, Some v)
  | None => Ret (None, None)
  end.

(** The collapsed node, and the copy with hashed children; [hashed] is the outcome for the value. *)
Definition hashShortNodeChildren (key : list Z) (flags : nodeFlag) (hashed : go (option node * option node)) : go (node * node) :=
  let! k := hexToCompact key in
  let! (h, c) := hashed in
  Ret (shortNode k h flags, shortNode key c flags).

(** The loop over all children but the last, the value. *)
Definition hashChildren (hash : node -> bool -> go (node * node)) : list (option node) -> go (list (option node) * list (option node)) :=
  fix loop l :=
    match l with
    | [] => Panic
    | [val] => Ret ([val], [val])
    | None :: l => let! (a, b) := loop l in Ret (Some nilValueNode :: a, None :: b)
    | Some c :: l =>
        let! (h, c) := hash c false in
        let! (a, b) := loop l in Ret (Some h :: a, Some c :: b)
    end.

Definition hashFullNodeChildren (flags : nodeFlag) (hashed : go (list (option node) * list (option node))) : go (node * node) :=
  let! (collapsed, cached) := hashed in Ret (fullNode collapsed flags, fullNode cached flags).

(** [cached.flags.hash] after hashing. *)
Definition setHash (hashed cached : node) : node :=
  let h := match hashed with hashNode b => Some b | _ => None end in
  match cached with
  | fullNode c flags => fullNode c (mkFlag h (dirty flags))
  | shortNode k v flags => shortNode k v (mkFlag h (dirty flags))
  | n => n
  end.

(** The end of [hash] for a node with children. *)
Definition finishHash (r : go (node * node)) (force : bool) : go (node * node) :=
  let! (collapsed, cached) := r in
  let! hashed := nodeToHash collapsed force in Ret (hashed, setHash hashed cached).

Fixpoint hash (n : node) (force : bool) : go (node * node) :=
  match (cache n).1 with
  | Some h => Ret (hashNode h, n)
  | None =>
      match n with
      | shortNode key val flags => finishHash (hashShortNodeChildren key flags (hashVal hash val)) force
      | fullNode children flags => finishHash (hashFullNodeChildren flags (hashChildren hash children)) force
      | hashNode _ | valueNode _ => Ret (n, n)
      end
  end.

Definition proofHash (original : node) : go (node * node) :=
  match original with
  | shortNode key val flags =>
      let! (sn, _) := hashShortNodeChildren key flags (hashVal hash val) in
      let! h := nodeToHash sn false in Ret (sn, h)
  | fullNode children flags =>
      let! (fn, _) := hashFullNodeChildren flags (hashChildren hash children) in
      let! h := nodeToHash fn false in Ret (fn, h)
  | hashNode _ | valueNode _ => Ret (original, original)
  end.

End Hashing.

(** ** Decoding *)

Inductive nodeErr :=
| ErrUnexpectedEOF
| decodeErr (e : rlpError)
| invalidCount (c : Z)
| rlpErr (e : rlpError)
| invalidValue (e : rlpError)
| oversized (size : nat)
| invalidSize (n : nat)
| decodeError (what : nodeErr) (stack : list string).

(** The result, or an error. *)
Definition dres (A : Type) : Type := A + nodeErr.

Definition wrapError {A} (r : dres A) (ctx : string) : dres A :=
  match r with
  | inl x => inl x
  | inr (decodeError what stack) => inr (decodeError what (stack ++ [ctx]))
  | inr e => inr (decodeError e [ctx])
  end.

Definition hashLen : nat := 32.

(** [fmt.Sprintf("[%d]", i)] below 16. *)
Definition digit (i : nat) : string := default EmptyString (["0"; "1"; "2"; "3"; "4"; "5"; "6"; "7"; "8"; "9"]%string !! i).

Definition ctxOf (i : nat) : string := ("[" +:+ (if decide (i < 10)%nat then digit i else "1" +:+ digit (i - 10)) +:+ "]")%string.

Section Decoding.
Variable decodeNode : option (list Z) -> list Z -> go (dres node).

Definition decodeRef (buf : list Z) : go (dres (option node * list Z)) :=
  let! r := Split buf in
  match r with
  | Err e => Ret (inr (rlpErr e))
  | Ok (KList, _, rest) =>
      let size := (length buf - length rest)%nat in
      if decide (hashLen < size)%nat then Ret (inr (oversized size))
      else
        let! n := decodeNode None buf in
        Ret match n with inl n => inl (Some n, rest) | inr e => inr e end
  | Ok (k, val, rest) =>
      if decide (k = KString /\ length val = 0%nat) then Ret (inl (None, rest))
      else if decide (k = KString /\ length val = 32%nat) then Ret (inl (Some (hashNode val), rest))
      else Ret (inr (invalidSize (length val)))
  end.

Definition decodeShort (hash : option (list Z)) (elems : list Z) : go (dres node) :=
  let! r := SplitString elems in
  match r with
  | Err e => Ret (inr (rlpErr e))
  | Ok (kbuf, rest) =>
      let flag := mkFlag hash false in
      let key := compactToHex kbuf in
      if hasTerm key then
        let! r := SplitString rest in
        Ret match r with
            | Err e => inr (invalidValue e)
            | Ok (val, _) => inl (shortNode key (Some (valueNode val)) flag)
            end
      else
        let! r := decodeRef rest in
        Ret match r with
            | inr e => wrapError (inr e) "val"
            | inl (r, _) => inl (shortNode key r flag)
            end
  end.

(** The loop over the children from [i] on; the last one is the value. *)
Fixpoint decodeChildren (n i : nat) (elems : list Z) : go (dres (list (option node))) :=
  match n with
  | O =>
      let! r := SplitString elems in
      Ret match r with
          | Err e => inr (rlpErr e)
          | Ok (val, _) => inl [if decide (0 < length val)%nat then Some (valueNode val) else None]
          end
  | S n =>
      let! r := decodeRef elems in
      match r with
      | inr e => Ret (wrapError (inr e) (ctxOf i))
      | inl (cld, rest) =>
          let! r := decodeChildren n (S i) rest in
          Ret match r with inl l => inl (cld :: l) | inr e => inr e end
      end
  end.

Definition decodeFull (hash : option (list Z)) (elems : list Z) : go (dres node) :=
  let! r := decodeChildren 16 0 elems in
  Ret match r with inl l => inl (fullNode l (mkFlag hash false)) | inr e => inr e end.

End Decoding.

(** An embedded node is at most 32 bytes long, and its content shorter: the nesting is bounded by the length of the buffer. *)
Fixpoint decodeFuel (fuel : nat) (hash : option (list Z)) (buf : list Z) : go (dres node) :=
  match fuel with
  | O => Panic
  | S fuel =>
      if decide (buf = []) then Ret (inr ErrUnexpectedEOF)
      else
        let! r := SplitList buf in
        match r with
        | Err e => Ret (inr (decodeErr e))
        | Ok (elems, _) =>
            let! c := CountValues elems in
            let c := match c with Ok c => c | Err _ => 0 end in
            if c =? 2 then let! r := decodeShort (decodeFuel fuel) hash elems in Ret (wrapError r "short")
            else if c =? 17 then let! r := decodeFull (decodeFuel fuel) hash elems in Ret (wrapError r "full")
            else Ret (inr (invalidCount c))
        end
  end.

Definition decodeNode (hash : option (list Z)) (buf : list Z) : go (dres node) := decodeFuel (S (length buf)) hash buf.

Definition mustDecodeNode (hash : option (list Z)) (buf : list Z) : go node :=
  let! r := decodeNode hash buf in
  match r with inl n => Ret n | inr _ => Panic end.

End TrieNode.
