(* ===== verification/TrieNodeProps.v ===== *)
(** * Properties of trie nodes (TrieNode.v)

    The hasher computes the root of the Yellow Paper and fills the caches; what it collapses decodes to the node again, and no
    input makes the decoder panic. *)

From stdpp Require Import base tactics list sets strings.
From Stdlib Require Import ZArith Lia.
From S2P Require Import Prelude Bytes RlpRaw RlpLemmas RlpEncode RlpEncodeProps TypesRlp Trie TrieProps TrieNode.

Open Scope Z_scope.
Open Scope go_scope.

Import Rlp RlpLemmas RlpEncode RlpEncodeLemmas Trie TrieLemmas TrieNode.

Module TrieNodeLemmas.

(** ** Values one after the other *)

Definition isValue (bs : list Z) : Prop := exists v, fitting v.1 v.2 /\ bs = encValue v.

Lemma isValue_string bs : isValue (encString bs).
Proof. destruct (string_kind bs) as (k & Hk & Hf). exists (k, bs). split; [done|]. by apply encString_value. Qed.

Lemma isValue_list bs : isValue (encList bs).
Proof. by exists (KList, bs). Qed.

Lemma CountValues_values bss :
  Forall isValue bss -> Forall is_byte (concat bss) -> Z.of_nat (length (concat bss)) < 2 ^ 64 ->
  CountValues (concat bss) = Ret (Ok (Z.of_nat (length bss))).
Proof.
  intros Hv Hb Hl. unfold CountValues. destruct (countLoop_spec (length (concat bss)) (concat bss) 0 Hb Hl ltac:(lia)) as (r & -> & Hr).
  f_equal. apply Hr. assert (exists vs, bss = encValue <$> vs /\ allFitting vs) as (vs & -> & Hvs).
  { clear -Hv. induction Hv as [|bs bss (v & Hf & ->) _ (vs & -> & IH)]; [by exists []; split; [|constructor]|].
    exists (v :: vs). split; [done|by constructor]. }
  exists vs. split_and!; [done|done|]. by rewrite length_fmap.
Qed.

Lemma SplitString_enc bs rest :
  Forall is_byte (encString bs ++ rest) -> Z.of_nat (length (encString bs ++ rest)) < 2 ^ 64 ->
  SplitString (encString bs ++ rest) = Ret (Ok (bs, rest)).
Proof. intros Hb Hl. destruct (SplitString_spec _ Hb Hl) as (r & -> & Hr). f_equal. by apply Hr. Qed.

Lemma Split_list bs rest :
  Forall is_byte (encList bs ++ rest) -> Z.of_nat (length (encList bs ++ rest)) < 2 ^ 64 ->
  Split (encList bs ++ rest) = Ret (Ok (KList, bs, rest)).
Proof. intros Hb Hl. by apply (Split_value (KList, bs) rest). Qed.

Lemma SplitList_enc bs rest :
  Forall is_byte (encList bs ++ rest) -> Z.of_nat (length (encList bs ++ rest)) < 2 ^ 64 ->
  SplitList (encList bs ++ rest) = Ret (Ok (bs, rest)).
Proof. intros Hb Hl. unfold SplitList. by rewrite Split_list. Qed.

Lemma encString_byte_list bs : Z.of_nat (length bs) < 2 ^ 64 -> Forall is_byte bs -> Forall is_byte (encString bs).
Proof.
  intros Hl Hb. unfold encString. destruct bs as [|x [|y bs]]; [by repeat constructor| |apply Forall_app; split; [apply header_bytes; lia|done]].
  destruct (_ <? _); [done|]. constructor; [unfold is_byte; lia|done].
Qed.

Lemma encList_byte_list bs : Z.of_nat (length bs) < 2 ^ 64 -> Forall is_byte bs -> Forall is_byte (encList bs).
Proof. intros Hl Hb. apply Forall_app. split; [apply header_bytes; lia|done]. Qed.

Lemma pairs_bytes l : Forall nibble l -> Forall is_byte (pairs l).
Proof.
  induction l as [|x|x y l IH] using list_ind2; [constructor..|]. intros [Hx [Hy Hl]%Forall_cons]%Forall_cons. unfold nibble in *.
  constructor; [unfold is_byte; lia|auto].
Qed.

Lemma HP_bytes k t : Forall nibble k -> Forall is_byte (HP k t).
Proof.
  intros Hk. unfold HP. destruct (Nat.odd _).
  - destruct k as [|x k]; [constructor|]. apply Forall_cons in Hk as [Hx Hk]. unfold nibble in Hx. constructor; [destruct t; unfold is_byte; lia|by apply pairs_bytes].
  - constructor; [destruct t; unfold is_byte; lia|by apply pairs_bytes].
Qed.

Section Spec.
Context `{Keccak}.

(** ** The encoding of a node *)

(** A key without its terminator. *)
Definition bare (k : list Z) : list Z := if hasTerm k then take (length k - 1) k else k.

Fixpoint encSpec (n : node) : list Z :=
  match n with
  | shortNode k v _ =>
      encList (encString (HP (bare k) (hasTerm k)) ++
        match v with Some c => if inner c then nodeRef (encSpec c) else encSpec c | None => [0x80] end)
  | fullNode cs _ =>
      encList (concat ((fun o => match o with Some c => if inner c then nodeRef (encSpec c) else encSpec c | None => [0x80] end) <$> cs))
  | hashNode b | valueNode b => encString b
  end.

(** A node in its parent. *)
Definition childEnc (o : option node) : list Z :=
  match o with Some c => if inner c then nodeRef (encSpec c) else encSpec c | None => [0x80] end.

Lemma encSpec_short k v f : encSpec (shortNode k v f) = encList (encString (HP (bare k) (hasTerm k)) ++ childEnc v).
Proof. done. Qed.

Lemma encSpec_full cs f : encSpec (fullNode cs f) = encList (concat (childEnc <$> cs)).
Proof. done. Qed.

(** What the database gives back for a node. *)
Fixpoint stored (h : option (list Z)) (n : node) : node :=
  match n with
  | shortNode k v _ =>
      shortNode k ((fun c => if inner c then if decide (length (encSpec c) < 32)%nat then stored None c else hashNode (keccak (encSpec c)) else c) <$> v)
        (mkFlag h false)
  | fullNode cs _ =>
      fullNode ((fun o : option node =>
          (fun c => if inner c then if decide (length (encSpec c) < 32)%nat then stored None c else hashNode (keccak (encSpec c)) else c) <$> o) <$> cs)
        (mkFlag h false)
  | n => n
  end.

Definition storedRef (c : node) : node :=
  if inner c then if decide (length (encSpec c) < 32)%nat then stored None c else hashNode (keccak (encSpec c)) else c.

Lemma stored_short h k v f : stored h (shortNode k v f) = shortNode k (storedRef <$> v) (mkFlag h false).
Proof. done. Qed.

Definition storedChild (o : option node) : option node := storedRef <$> o.

Lemma stored_full h cs f : stored h (fullNode cs f) = fullNode (storedChild <$> cs) (mkFlag h false).
Proof. done. Qed.

(** ** Nodes of a trie *)

Definition bytesOk (b : list Z) : Prop := Forall is_byte b /\ Z.of_nat (length b) < 2 ^ 60.

Definition keyNibbles (k : list Z) : Prop := Forall nibble k /\ Z.of_nat (length k) < 2 ^ 60.

(** A cached hash is the hash of the node; below the root, only nodes that are not embedded have one. *)
Definition cacheOk (n : node) : Prop := forall h, (cache n).1 = Some h -> h = keccak (encSpec n).

Definition cacheBig (n : node) : Prop := forall h, (cache n).1 = Some h -> (32 <= length (encSpec n))%nat.

Definition isRef (n : node) : Prop := match n with valueNode _ => False | _ => True end.

Inductive wf : node -> Prop :=
| wf_leaf k v f : keyNibbles k -> bytesOk v -> cacheOk (shortNode (k ++ [16]) (Some (valueNode v)) f) ->
    wf (shortNode (k ++ [16]) (Some (valueNode v)) f)
| wf_ext k c f : keyNibbles k -> isRef c -> cacheBig c -> wf c -> cacheOk (shortNode k (Some c) f) -> wf (shortNode k (Some c) f)
| wf_full cs v f : length cs = 16%nat ->
    (forall c, Some c ∈ cs -> isRef c /\ cacheBig c) -> (forall c, Some c ∈ cs -> wf c) ->
    (v = None \/ exists b, v = Some (valueNode b) /\ bytesOk b /\ b <> []) ->
    cacheOk (fullNode (cs ++ [v]) f) -> wf (fullNode (cs ++ [v]) f)
| wf_hash b : length b = 32%nat -> Forall is_byte b -> wf (hashNode b).

Lemma childEnc_isRef c : isRef c -> wf c -> (inner c = true -> Forall is_byte (encSpec c)) ->
  Forall is_byte (childEnc (Some c)) /\ (length (childEnc (Some c)) <= 41)%nat.
Proof.
  intros Hr Hw IH. cbn [childEnc]. destruct (inner c) eqn:Ei.
  - split; [|apply nodeRef_bound]. unfold nodeRef. destruct (_ <? 32); [by apply IH|].
    apply encString_byte_list; [rewrite keccak_length; lia|apply keccak_bytes].
  - inversion Hw as [| | |b Hl Hb]; subst; try done. cbn [encSpec]. split; [apply encString_byte_list; [lia|done]|].
    pose proof (encString_bound b ltac:(lia)). lia.
Qed.

Lemma bare_leaf k : bare (k ++ [16]) = k /\ hasTerm (k ++ [16]) = true.
Proof. unfold bare. rewrite hasTerm_snoc. by rewrite take_snoc. Qed.

Lemma bare_ext k : Forall nibble k -> bare k = k /\ hasTerm k = false.
Proof. intros Hk. unfold bare. by rewrite last_nibbles. Qed.

Lemma encKey_ok k t : keyNibbles k -> Forall is_byte (encString (HP k t)) /\ Z.of_nat (length (encString (HP k t))) < 2 ^ 61.
Proof.
  intros [Hk Hl]. pose proof (length_HP k t) as HL. assert (length k / 2 <= length k)%nat by (apply Nat.Div0.div_le_upper_bound; lia).
  pose proof (encString_bound (HP k t) ltac:(lia)). split; [apply encString_byte_list; [lia|by apply HP_bytes]|lia].
Qed.

Lemma encValue_ok b : bytesOk b -> Forall is_byte (encString b) /\ Z.of_nat (length (encString b)) < 2 ^ 61.
Proof. intros [Hb Hl]. pose proof (encString_bound b ltac:(lia)). split; [apply encString_byte_list; [lia|done]|lia]. Qed.

Lemma concat_bound {A} (f : A -> list Z) l m : (forall x, x ∈ l -> length (f x) <= m)%nat -> (length (concat (f <$> l)) <= m * length l)%nat.
Proof.
  induction l as [|x l IH]; intros Hf; [cbn; lia|]. cbn [fmap list_fmap concat length]. rewrite length_app.
  pose proof (Hf x ltac:(set_solver)). specialize (IH ltac:(set_solver)). lia.
Qed.

(** The content of the list of a node with children. *)
Definition payload (n : node) : list Z :=
  match n with
  | shortNode k v _ => encString (HP (bare k) (hasTerm k)) ++ childEnc v
  | fullNode cs _ => concat (childEnc <$> cs)
  | _ => []
  end.

Lemma encSpec_payload n : inner n = true -> encSpec n = encList (payload n).
Proof. by destruct n. Qed.

Lemma value_child v : (v = None \/ exists b, v = Some (valueNode b) /\ bytesOk b /\ b <> []) ->
  exists b, childEnc v = encString b /\ bytesOk b /\ v = (if decide (0 < length b)%nat then Some (valueNode b) else None).
Proof.
  intros [->|(b & -> & Hb & Hne)]; [exists []; split_and!; [done|split; [constructor|cbn; lia]|done]|]. exists b. split_and!; [done|done|].
  rewrite decide_True; [done|]. destruct b; [done|cbn; lia].
Qed.

Lemma encSpec_bytes n : inner n = true -> Forall is_byte (payload n) /\ Z.of_nat (length (payload n)) < 2 ^ 62 -> Forall is_byte (encSpec n).
Proof. intros Hi [Hb Hl]. rewrite encSpec_payload by done. apply encList_byte_list; [lia|done]. Qed.

Lemma payload_ok n : wf n -> inner n = true -> Forall is_byte (payload n) /\ Z.of_nat (length (payload n)) < 2 ^ 62.
Proof.
  induction 1 as [k v f Hk Hv Hc|k c f Hk Hr Hbig Hw IH Hc|cs v f Hl Hr Hw IH Hv Hc|b]; intros Hi; [| | |done].
  - cbn [payload]. destruct (bare_leaf k) as [-> ->]. destruct (encKey_ok k true Hk). destruct (encValue_ok v Hv). cbn [childEnc inner encSpec].
    rewrite Forall_app, length_app. split; [done|lia].
  - cbn [payload]. destruct (bare_ext k) as [-> ->]; [apply Hk|]. destruct (encKey_ok k false Hk).
    destruct (childEnc_isRef c Hr Hw); [intros Hi'; apply encSpec_bytes; auto|rewrite Forall_app, length_app; split; [done|lia]].
  - assert (forall o, o ∈ cs -> Forall is_byte (childEnc o) /\ length (childEnc o) <= 41)%nat as Hcs.
    { intros [c|] Hin; [|split; [by repeat constructor|cbn; lia]]. destruct (Hr c Hin). apply childEnc_isRef; auto. intros Hi'. apply encSpec_bytes; auto. }
    destruct (value_child v Hv) as (b & E & Hb & _). destruct (encValue_ok b Hb). cbn [payload]. rewrite fmap_app, concat_app. cbn [fmap list_fmap concat].
    rewrite app_nil_r, E. pose proof (concat_bound childEnc cs 41 ltac:(intros; by apply Hcs)). rewrite length_app. split; [|lia].
    apply Forall_app. split; [|done]. apply Forall_concat, Forall_fmap, Forall_forall. intros o Ho. by apply Hcs.
Qed.

(** ** Decoding *)

Lemma fitting_hash b : length b = 32%nat -> fitting KString b.
Proof. by intros Hl x ->. Qed.

Lemma encString_hash b : length b = 32%nat -> encString b = encValue (KString, b).
Proof. intros Hl. apply encString_value; [by apply fitting_hash|done]. Qed.

Lemma decodeRef_string dec b rest :
  length b = 32%nat -> Forall is_byte (encString b ++ rest) -> Z.of_nat (length (encString b ++ rest)) < 2 ^ 64 ->
  decodeRef dec (encString b ++ rest) = Ret (inl (Some (hashNode b), rest)).
Proof.
  intros Hl Hb Hl'. unfold decodeRef. rewrite (encString_hash b Hl) in *. rewrite Split_value; [|done|done|by apply fitting_hash].
  cbn [fst snd]. rewrite decide_False by (intros [_ ?]; lia). by rewrite decide_True.
Qed.

Lemma decodeRef_nil dec rest : Forall is_byte rest -> Z.of_nat (length ([0x80] ++ rest)) < 2 ^ 64 ->
  decodeRef dec ([0x80] ++ rest) = Ret (inl (None, rest)).
Proof.
  intros Hb Hl. unfold decodeRef. change ([0x80] ++ rest) with (encValue (KString, []) ++ rest) in *.
  rewrite Split_value; [done| |done|done]. apply Forall_app. split; [by repeat constructor|done].
Qed.

(** Decoding a node that other bytes follow. *)
Definition decodes (fuel : nat) (n : node) : Prop :=
  forall h rest, Forall is_byte (encSpec n ++ rest) -> Z.of_nat (length (encSpec n ++ rest)) < 2 ^ 64 ->
    decodeFuel fuel h (encSpec n ++ rest) = Ret (inl (stored h n)).

Lemma decodeRef_child fuel c rest :
  isRef c -> wf c -> (inner c = true -> (length (encSpec c) < 32)%nat -> decodes fuel c) ->
  Forall is_byte (childEnc (Some c) ++ rest) -> Z.of_nat (length (childEnc (Some c) ++ rest)) < 2 ^ 64 ->
  decodeRef (decodeFuel fuel) (childEnc (Some c) ++ rest) = Ret (inl (Some (storedRef c), rest)).
Proof.
  intros Hr Hw IH Hb Hl. unfold storedRef. cbn [childEnc] in *. destruct (inner c) eqn:Ei.
  - unfold nodeRef in *. destruct (Z.of_nat (length (encSpec c)) <? 32) eqn:E.
    + rewrite decide_True by lia. unfold decodeRef. rewrite (encSpec_payload c Ei) at 1. rewrite (encSpec_payload c Ei) in Hb, Hl. rewrite Split_list by done.
      rewrite <- (encSpec_payload c Ei) in Hb, Hl. rewrite length_app. unfold hashLen. rewrite decide_False by lia. rewrite IH by (done || lia). done.
    + rewrite decide_False by lia. apply decodeRef_string; [apply keccak_length|done|done].
  - inversion Hw as [| | |b Hlb Hbb]; subst; try done. cbn [encSpec] in *. by apply decodeRef_string.
Qed.

Lemma decodeChildren_ok fuel cs v i :
  (forall c, Some c ∈ cs -> isRef c) -> (forall c, Some c ∈ cs -> wf c) ->
  (forall c, Some c ∈ cs -> inner c = true -> (length (encSpec c) < 32)%nat -> decodes fuel c) ->
  (v = None \/ exists b, v = Some (valueNode b) /\ bytesOk b /\ b <> []) ->
  Forall is_byte (concat (childEnc <$> cs ++ [v])) -> Z.of_nat (length (concat (childEnc <$> cs ++ [v]))) < 2 ^ 64 ->
  decodeChildren (decodeFuel fuel) (length cs) i (concat (childEnc <$> cs ++ [v])) = Ret (inl (storedChild <$> cs ++ [v])).
Proof.
  revert i. induction cs as [|c cs IHcs]; intros i Hr Hw IH Hv Hb Hl; cbn [length decodeChildren app fmap list_fmap concat] in *.
  - destruct (value_child v Hv) as (b & E & Hbb & Ev). rewrite E in *. rewrite SplitString_enc by done. cbn beta iota. rewrite <- Ev.
    destruct Hv as [->|(? & -> & _)]; done.
  - apply Forall_app in Hb as Hb'. destruct Hb' as [Hb1 Hb2]. rewrite length_app in Hl.
    assert (decodeRef (decodeFuel fuel) (childEnc c ++ concat (childEnc <$> cs ++ [v])) = Ret (inl (storedChild c, concat (childEnc <$> cs ++ [v])))) as ->.
    { destruct c as [c|]; [|change (childEnc None) with [0x80] in Hl; apply decodeRef_nil; [done|rewrite length_app; lia]].
      apply decodeRef_child; [apply Hr|apply Hw|apply IH|done|rewrite length_app; lia]; set_solver. }
    cbn beta iota. rewrite IHcs; [done| | | |done|done|lia]; set_solver.
Qed.

Lemma childEnc_value o : isValue (childEnc o).
Proof.
  destruct o as [c|]; [|exact (isValue_string [])]. cbn [childEnc]. destruct (inner c) eqn:Hi; [|destruct c; [done..| |]; apply isValue_string].
  unfold nodeRef. destruct (_ <? 32); [rewrite encSpec_payload by done; apply isValue_list|apply isValue_string].
Qed.

Lemma childEnc_small cs c : Some c ∈ cs -> inner c = true -> (length (encSpec c) < 32)%nat ->
  (length (encSpec c) <= length (concat (childEnc <$> cs)))%nat.
Proof.
  intros Hin Hi Hs. apply list_elem_of_split in Hin as (l1 & l2 & ->). rewrite fmap_app, concat_app. cbn [fmap list_fmap concat childEnc].
  rewrite Hi. unfold nodeRef. rewrite (proj2 (Z.ltb_lt _ _)) by lia. rewrite !length_app. lia.
Qed.

(** The start of decoding, up to the number of elements. *)
Lemma decodeFuel_list fuel h bss rest :
  Forall isValue bss -> Forall is_byte (encList (concat bss) ++ rest) -> Z.of_nat (length (encList (concat bss) ++ rest)) < 2 ^ 64 ->
  decodeFuel (S fuel) h (encList (concat bss) ++ rest) =
    if Z.of_nat (length bss) =? 2 then let! r := decodeShort (decodeFuel fuel) h (concat bss) in Ret (wrapError r "short")
    else if Z.of_nat (length bss) =? 17 then let! r := decodeFull (decodeFuel fuel) h (concat bss) in Ret (wrapError r "full")
    else Ret (inr (invalidCount (Z.of_nat (length bss)))).
Proof.
  intros Hv Hb Hl. cbn [decodeFuel]. rewrite decide_False.
  2: { intros [E _]%app_eq_nil. unfold encList in E. apply app_eq_nil in E as [E _]. apply (f_equal length) in E. rewrite header_length in E. done. }
  rewrite SplitList_enc by done. cbn beta iota. apply Forall_app in Hb as [Hb _]. unfold encList in Hb. apply Forall_app in Hb as [_ Hb].
  unfold encList in Hl. rewrite !length_app in Hl. rewrite CountValues_values by (done || lia). done.
Qed.

Lemma decode_short fuel h k v f rest :
  let n := shortNode k v f in
  Forall is_byte (encSpec n ++ rest) -> Z.of_nat (length (encSpec n ++ rest)) < 2 ^ 64 ->
  decodeFuel (S fuel) h (encSpec n ++ rest) = let! r := decodeShort (decodeFuel fuel) h (payload n) in Ret (wrapError r "short").
Proof.
  intros n Hb Hl. unfold n in *. rewrite encSpec_short in *.
  replace (encString (HP (bare k) (hasTerm k)) ++ childEnc v) with (concat [encString (HP (bare k) (hasTerm k)); childEnc v]) in * by (cbn; by rewrite app_nil_r).
  rewrite decodeFuel_list; [|repeat constructor; [apply isValue_string|apply childEnc_value]|done|done]. cbn [length Z.of_nat Z.eqb]. 
  cbn [payload concat]. by rewrite app_nil_r.
Qed.

Lemma decodes_ok n fuel : wf n -> inner n = true -> (length (encSpec n) < fuel)%nat -> decodes fuel n.
Proof.
  intros Hw. revert fuel. induction Hw as [k v f Hk Hv Hc|k c f Hk Hr Hbig Hw IH Hc|cs v f Hl Hr Hw IH Hv Hc|b]; intros fuel Hi Hf h rest Hb Hlen; [| | |done];
    (destruct fuel as [|fuel]; [lia|]).
  - rewrite decode_short by done. assert (wf (shortNode (k ++ [16]) (Some (valueNode v)) f)) as Hw by by constructor.
    destruct (payload_ok _ Hw eq_refl) as [Hpb Hpl]. cbn [payload] in *. destruct (bare_leaf k) as [E1 E2]. rewrite E1, E2 in *.
    unfold decodeShort. rewrite SplitString_enc by (done || lia). cbn beta iota. rewrite compactToHex_HP by apply Hk. cbn [withTerm]. rewrite E2.
    cbn [childEnc inner encSpec] in *. apply Forall_app in Hpb as [_ Hpb]. rewrite length_app in Hpl. rewrite <- (app_nil_r (encString v)) in *.
    rewrite SplitString_enc by (done || lia). done.
  - rewrite decode_short by done. assert (wf (shortNode k (Some c) f)) as Hw' by by constructor.
    destruct (payload_ok _ Hw' eq_refl) as [Hpb Hpl]. rewrite encSpec_payload in Hf by done. cbn [payload] in *. destruct (bare_ext k) as [E1 E2]; [apply Hk|].
    rewrite E1, E2 in *. pose proof (encList_length (encString (HP k false) ++ childEnc (Some c))) as HL.
    unfold decodeShort. rewrite SplitString_enc by (done || lia). cbn beta iota. rewrite compactToHex_HP by apply Hk. cbn [withTerm]. rewrite E2.
    apply Forall_app in Hpb as [_ Hpb]. rewrite length_app in Hpl, HL. rewrite <- (app_nil_r (childEnc (Some c))) in Hpb |- *.
    rewrite decodeRef_child; [done|done|done| |done|rewrite app_nil_r; lia]. intros Hic Hs. apply IH; [done|]. revert HL Hf. cbn [childEnc]. rewrite Hic. unfold nodeRef.
    rewrite (proj2 (Z.ltb_lt _ _)) by lia. pose proof (encList_bound (encString (HP k false) ++ encSpec c)) as HB. rewrite length_app in HB. lia.
  - assert (wf (fullNode (cs ++ [v]) f)) as Hw' by by constructor. destruct (payload_ok _ Hw' eq_refl) as [Hpb Hpl].
    rewrite encSpec_full in *. cbn [payload] in *. rewrite decodeFuel_list; [|apply Forall_fmap, Forall_true; intros; apply childEnc_value|done|done].
    rewrite length_fmap, length_app, Hl. change (Z.of_nat (16 + length [v]) =? 2) with false. change (Z.of_nat (16 + length [v]) =? 17) with true. unfold decodeFull. rewrite <- Hl.
    rewrite decodeChildren_ok; [by rewrite stored_full|intros; by apply Hr|done| |done|done|lia]. intros c Hin Hic Hs. apply IH; [done|done|].
    pose proof (childEnc_small (cs ++ [v]) c ltac:(set_solver) Hic Hs). assert (Z.of_nat (length (concat (childEnc <$> cs ++ [v]))) < 2 ^ 64) as Hpl'.
    { lia. } pose proof (encList_bound _ Hpl'). lia.
Qed.

(** ** Decoding never panics *)

(** A decoder that returns on all buffers of at most [m] bytes. *)
Definition returns (m : nat) (dec : option (list Z) -> list Z -> go (dres node)) : Prop :=
  forall h b, Forall is_byte b -> (length b <= m)%nat -> exists r, dec h b = Ret r.

Lemma SplitString_total b : Forall is_byte b -> Z.of_nat (length b) < 2 ^ 64 ->
  exists r, SplitString b = Ret r /\ forall c rest, r = Ok (c, rest) -> Forall is_byte rest /\ (length rest <= length b)%nat.
Proof.
  intros Hb Hl. destruct (SplitString_spec b Hb Hl) as (r & -> & Hr). exists r. split; [done|]. intros c rest ->.
  pose proof (proj1 (Hr c rest) eq_refl) as E. rewrite E in Hb |- *. apply Forall_app in Hb as [_ Hb]. rewrite length_app. split; [done|lia].
Qed.

Lemma decodeRef_total m dec b : returns m dec -> Forall is_byte b -> (length b <= m)%nat -> Z.of_nat m < 2 ^ 64 ->
  exists r, decodeRef dec b = Ret r /\ forall c rest, r = inl (c, rest) -> Forall is_byte rest /\ (length rest <= length b)%nat.
Proof.
  intros Hd Hb Hl Hm. unfold decodeRef. destruct (Split_spec b Hb ltac:(lia)) as (r & -> & Hr). destruct r as [[[k v] rest]|e]; [|by eexists].
  destruct (proj1 (Hr k v rest) eq_refl) as [E _]. assert (Forall is_byte rest /\ length rest <= length b)%nat as Hrest.
  { rewrite E in Hb |- *. apply Forall_app in Hb as [_ Hb]. rewrite length_app. split; [done|lia]. }
  destruct k; [repeat case_decide; eexists; (split; [done|]); by intros ? ? [= <- <-]..|]. case_decide; [by eexists|].
  destruct (Hd None b Hb Hl) as (r & ->). destruct r as [n|e]; (eexists; split; [done|]); [by intros ? ? [= <- <-]|done].
Qed.

Lemma decodeShort_total m dec h b : returns m dec -> Forall is_byte b -> (length b <= m)%nat -> Z.of_nat m < 2 ^ 64 ->
  exists r, decodeShort dec h b = Ret r.
Proof.
  intros Hd Hb Hl Hm. unfold decodeShort. destruct (SplitString_total b Hb ltac:(lia)) as (r & -> & Hr). destruct r as [[kb rest]|e]; [|by eexists].
  destruct (Hr kb rest eq_refl) as [Hb' Hl']. destruct (hasTerm _).
  - destruct (SplitString_total rest Hb' ltac:(lia)) as (r & -> & _). by eexists.
  - destruct (decodeRef_total m dec rest) as (r & -> & _); [done|done|lia|done|]. by eexists.
Qed.

Lemma decodeChildren_total m dec n i b : returns m dec -> Forall is_byte b -> (length b <= m)%nat -> Z.of_nat m < 2 ^ 64 ->
  exists r, decodeChildren dec n i b = Ret r.
Proof.
  intros Hd. revert i b. induction n as [|n IH]; intros i b Hb Hl Hm; cbn [decodeChildren].
  - destruct (SplitString_total b Hb ltac:(lia)) as (r & -> & _). by eexists.
  - destruct (decodeRef_total m dec b) as (r & -> & Hr); [done..|]. destruct r as [[c rest]|e]; [|by eexists].
    destruct (Hr c rest eq_refl). destruct (IH (S i) rest) as (r & ->); [done|lia|done|]. by eexists.
Qed.

Lemma decodeFuel_total fuel : Z.of_nat fuel <= 2 ^ 64 -> forall m, (m < fuel)%nat -> returns m (decodeFuel fuel).
Proof.
  induction fuel as [|fuel IH]; intros Hf m Hm h b Hb Hl; [lia|]. cbn [decodeFuel]. case_decide; [by eexists|]. unfold SplitList.
  destruct (Split_spec b Hb ltac:(lia)) as (r & -> & Hr). cbn beta iota. destruct r as [[[k elems] rest]|e]; [|by eexists].
  destruct (proj1 (Hr k elems rest) eq_refl) as [E _]. case_decide; [|by eexists]. subst k. cbn beta iota.
  assert (length elems < length b)%nat as Hlt by (rewrite E; unfold encValue; cbn [fst snd tag]; rewrite !length_app, header_length; lia).
  assert (Forall is_byte elems) as He by (rewrite E in Hb; unfold encValue in Hb; cbn [fst snd] in Hb; by rewrite !Forall_app in Hb; destruct Hb as [[_ ?] _]).
  destruct (countLoop_spec (length elems) elems 0 He ltac:(lia) ltac:(lia)) as (c & Ec & _). unfold CountValues. rewrite Ec. cbn beta iota.
  assert (returns (length elems) (decodeFuel fuel)) as Hd by (apply IH; lia).
  destruct (_ =? 2); [|destruct (_ =? 17); [|by eexists]].
  - destruct (decodeShort_total _ _ h elems Hd He ltac:(lia) ltac:(lia)) as (r & ->). by eexists.
  - unfold decodeFull. destruct (decodeChildren_total _ _ 16 0 elems Hd He ltac:(lia) ltac:(lia)) as (r & ->). by eexists.
Qed.

(** ** Hashing *)

(** A node without its caches. *)
Fixpoint erase (n : node) : node :=
  match n with
  | shortNode k v _ => shortNode k (erase <$> v) (mkFlag None false)
  | fullNode cs _ => fullNode ((fun o : option node => erase <$> o) <$> cs) (mkFlag None false)
  | n => n
  end.

Definition encodeOpt (o : option node) : writer := match o with Some c => encode c | None => writeRawValue [0x80] end.

Lemma encode_full cs f : encode (fullNode cs f) = writeList (encodeOpt <$> cs).
Proof. cbn [encode]. f_equal. induction cs as [|[c|] cs IH]; cbn; [done|by rewrite <- IH..]. Qed.

Lemma encode_short k v f : encode (shortNode k v f) = writeList [writeByteSlice k; encodeOpt v].
Proof. by destruct v. Qed.

(** What hashing a child gives its parent: a node that is written as the reference to the child, and the child with its caches. *)
Definition hashesTo (c h c' : node) : Prop :=
  encodes (encode h) (childEnc (Some c)) /\ wf c' /\ isRef c' /\ cacheBig c' /\ encSpec c' = encSpec c /\ inner c' = inner c /\ erase c' = erase c.

(** What [hash] does with a node. *)
Definition hashed (n : node) (force : bool) : Prop :=
  exists hd n', hash n force = Ret (hd, n') /\ wf n' /\ inner n' = true /\ encSpec n' = encSpec n /\ erase n' = erase n /\
    ((hd = hashNode (keccak (encSpec n)) /\ (cache n').1 = Some (keccak (encSpec n)) /\
        (force = true \/ (32 <= length (encSpec n))%nat \/ (cache n).1 <> None)) \/
     (force = false /\ (length (encSpec n) < 32)%nat /\ encodes (encode hd) (encSpec n) /\ (cache n').1 = None)).

Lemma hashed_child c : hashed c false -> inner c = true -> cacheBig c -> exists h c', hash c false = Ret (h, c') /\ hashesTo c h c'.
Proof.
  intros (h & c' & E & Hw & Hi' & Ee & Er & Hcase) Hi Hb. exists h, c'. split; [done|]. unfold hashesTo. cbn [childEnc]. rewrite Hi. unfold nodeRef.
  assert (isRef c') as Hr by by destruct c'. destruct Hcase as [(-> & Hc & Hbig)|(_ & Hs & He & Hc)].
  - assert (32 <= length (encSpec c))%nat as Hge.
    { destruct Hbig as [|[|Hne]]; [done|done|]. destruct (cache c).1 as [h|] eqn:Eh; [|done]. by apply (Hb h). }
    rewrite (proj2 (Z.ltb_ge _ _)) by lia. split_and!; [|done|done| |done|done|done].
    + cbn [encode]. apply encodes_bytes. rewrite keccak_length. lia.
    + intros h' _. by rewrite Ee.
  - rewrite (proj2 (Z.ltb_lt _ _)) by lia. split_and!; [done|done|done| |done|done|done]. intros h' E'. congruence.
Qed.

Lemma hashesTo_self c : wf c -> isRef c -> inner c = false -> hashesTo c c c.
Proof.
  intros Hw Hr Hi. inversion Hw as [| | |b Hl Hb]; subst; try done. unfold hashesTo. cbn [childEnc inner encSpec encode].
  split_and!; try done. apply encodes_bytes. lia.
Qed.

Lemma setHash_same hd c : encSpec (setHash hd c) = encSpec c /\ erase (setHash hd c) = erase c /\ inner (setHash hd c) = inner c.
Proof. by destruct c. Qed.

Lemma wf_setHash hd c : wf c -> (forall b, hd = hashNode b -> b = keccak (encSpec c)) -> wf (setHash hd c).
Proof.
  intros Hw Hh. assert (cacheOk (setHash hd c)) as Hc.
  { intros h E. rewrite (proj1 (setHash_same hd c)). destruct Hw; cbn in E; try done; destruct hd; simplify_eq; by apply Hh. }
  destruct Hw; cbn [setHash] in *; [by apply wf_leaf|by apply wf_ext|by apply wf_full|by constructor].
Qed.

Lemma cache_setHash hd c : inner c = true -> (cache (setHash hd c)).1 = match hd with hashNode b => Some b | _ => None end.
Proof. by destruct c. Qed.

Lemma nodeToBytes_encodes n bs : encodes (encode n) bs -> nodeToBytes n = Ret bs.
Proof. intros He. unfold nodeToBytes. by rewrite (encodes_EncodeToBytes _ bs). Qed.

(** The collapsed node and the copy, as [hash] and [proofHash] compute them. *)
Definition collapse (n : node) : go (node * node) :=
  match n with
  | shortNode key val flags => hashShortNodeChildren key flags (hashVal hash val)
  | fullNode children flags => hashFullNodeChildren flags (hashChildren hash children)
  | _ => Ret (n, n)
  end.

Definition collapses (n : node) : Prop :=
  exists col c, collapse n = Ret (col, c) /\ inner col = true /\ encodes (encode col) (encSpec n) /\
    wf c /\ inner c = true /\ encSpec c = encSpec n /\ erase c = erase n.

Lemma cacheOk_same n n' : cacheOk n -> (cache n').1 = (cache n).1 -> encSpec n' = encSpec n -> cacheOk n'.
Proof. intros Hn E1 E2 h Eh. rewrite E2. apply Hn. congruence. Qed.

Lemma hash_collapse n force : wf n -> inner n = true -> cacheOk n -> collapses n -> hashed n force.
Proof.
  intros Hwn Hin Hok (col & c & E & Hcol & He & Hw & Hi & Ee & Er). destruct (cache n).1 as [h|] eqn:Ec.
  - pose proof (Hok h Ec) as ->. exists (hashNode (keccak (encSpec n))), n. split_and!; try done.
    + destruct n; try done; cbn [hash]; by rewrite Ec.
    + left. split_and!; [done|done|]. right. right. by rewrite Ec.
  - set (hd := if (Z.of_nat (length (encSpec n)) <? 32) && negb force then col else hashNode (keccak (encSpec n))).
    destruct (setHash_same hd c) as (S1 & S2 & S3). exists hd, (setHash hd c). split_and!; [| |congruence|congruence|congruence|].
    + assert (hash n force = finishHash (collapse n) force) as -> by (destruct n; try done; cbn [hash]; by rewrite Ec).
      rewrite E. unfold finishHash, nodeToHash. by rewrite (nodeToBytes_encodes _ _ He).
    + apply wf_setHash; [done|]. unfold hd. intros b. destruct (_ && _); [by intros ->|]. intros [= <-]. by rewrite Ee.
    + rewrite cache_setHash by done. unfold hd. destruct (Z.of_nat (length (encSpec n)) <? 32) eqn:Es; destruct force; cbn [andb negb].
      * left. split_and!; auto.
      * right. split_and!; [done|lia|done|by destruct col].
      * left. split_and!; auto.
      * left. split_and!; auto. right. left. lia.
Qed.

(** The loop over the children. *)
Lemma hashChildren_ok cs v :
  (forall c, Some c ∈ cs -> exists h c', hash c false = Ret (h, c') /\ hashesTo c h c') ->
  exists col cs', hashChildren hash (cs ++ [v]) = Ret (col ++ [v], cs' ++ [v]) /\ length cs' = length cs /\
    Forall2 encodes (encodeOpt <$> col) (childEnc <$> cs) /\
    (forall c, Some c ∈ cs' -> wf c /\ isRef c /\ cacheBig c) /\
    childEnc <$> cs' = childEnc <$> cs /\ (fun o : option node => erase <$> o) <$> cs' = (fun o : option node => erase <$> o) <$> cs.
Proof.
  induction cs as [|c cs IH]; intros Hc.
  { exists [], []. split_and!; try done; [by destruct v|]. intros c Hin. by apply not_elem_of_nil in Hin. }
  destruct IH as (col & cs' & E & Hl & He & Hw & Ec & Er); [intros c' Hin; apply Hc; set_solver|].
  assert (hashChildren hash ((c :: cs) ++ [v]) = match c with
    | None => let! (a, b) := hashChildren hash (cs ++ [v]) in Ret (Some nilValueNode :: a, None :: b)
    | Some c => let! (h, c) := hash c false in let! (a, b) := hashChildren hash (cs ++ [v]) in Ret (Some h :: a, Some c :: b) end) as ->.
  { destruct c as [c|]; by destruct cs. }
  rewrite E. destruct c as [c|].
  - destruct (Hc c) as (h & c' & -> & Hh & Hw' & Hr & Hb & Ee & Ei & Er'); [set_solver|]. exists (Some h :: col), (Some c' :: cs'). split_and!; [done|by cbn; rewrite Hl|by constructor| | |].
    + intros c'' [[= ->]|Hin]%elem_of_cons; [done|by apply Hw].
    + cbn [fmap list_fmap]. rewrite Ec. f_equal. cbn [childEnc]. by rewrite Ei, Ee.
    + cbn [fmap list_fmap]. rewrite Er. f_equal. cbn. by rewrite Er'.
  - exists (Some nilValueNode :: col), (None :: cs'). split_and!; [done|by cbn; rewrite Hl| | | |].
    + constructor; [by apply encodes_bytes|done].
    + intros c'' [[=]|Hin]%elem_of_cons. by apply Hw.
    + cbn [fmap list_fmap]. by rewrite Ec.
    + cbn [fmap list_fmap]. by rewrite Er.
Qed.

Lemma collapses_leaf k v f : wf (shortNode (k ++ [16]) (Some (valueNode v)) f) -> keyNibbles k -> bytesOk v ->
  collapses (shortNode (k ++ [16]) (Some (valueNode v)) f).
Proof.
  intros Hw Hk Hv. destruct (payload_ok _ Hw eq_refl) as [_ Hpl].
  exists (shortNode (HP k true) (Some (valueNode v)) f), (shortNode (k ++ [16]) (Some (valueNode v)) f). split_and!; [|done| |done..].
  - cbn [collapse]. unfold hashShortNodeChildren. by rewrite (hexToCompact_HP k true : _ -> hexToCompact (k ++ [16]) = _) by apply Hk.
  - rewrite encode_short, encSpec_short. cbn [payload] in Hpl. destruct (bare_leaf k) as [E1 E2]. rewrite E1, E2 in *. rewrite length_app in Hpl.
    cbn [childEnc inner encSpec encodeOpt encode] in *. pose proof (encString_length (HP k true)). pose proof (encString_length v).
    rewrite <- (app_nil_r (encString v)). apply (encodes_list _ [_; _]); [repeat constructor; apply encodes_bytes; lia|]. cbn [concat]. rewrite !length_app. cbn [length]. lia.
Qed.

Lemma collapses_ext k c f : wf (shortNode k (Some c) f) -> cacheOk (shortNode k (Some c) f) -> keyNibbles k ->
  isRef c -> cacheBig c -> wf c -> (inner c = true -> hashed c false) -> collapses (shortNode k (Some c) f).
Proof.
  intros Hw' Hok Hk Hr Hbig Hw IH. destruct (payload_ok _ Hw' eq_refl) as [_ Hpl].
  assert (exists h c', hashVal hash (Some c) = Ret (Some h, Some c') /\ hashesTo c h c') as (h & c' & Eh & He & Hw1 & Hr1 & Hb1 & Ee & Ei & Er).
  { cbn [hashVal]. destruct (inner c) eqn:Eic; [|exists c, c; split; [done|by apply hashesTo_self]].
    destruct (hashed_child c (IH eq_refl) Eic Hbig) as (h & c' & -> & Hh). by exists h, c'. }
  assert (encSpec (shortNode k (Some c') f) = encSpec (shortNode k (Some c) f)) as Es by (rewrite !encSpec_short; cbn [childEnc]; by rewrite Ee, Ei).
  exists (shortNode (HP k false) (Some h) f), (shortNode k (Some c') f). split_and!; [|done| | |done|done|].
  - cbn [collapse]. unfold hashShortNodeChildren. rewrite (hexToCompact_HP k false : _ -> hexToCompact k = _) by apply Hk. cbn beta iota. by rewrite Eh.
  - rewrite encode_short, encSpec_short. cbn [payload] in Hpl. destruct (bare_ext k) as [E1 E2]; [apply Hk|]. rewrite E1, E2 in *. rewrite length_app in Hpl.
    pose proof (encString_length (HP k false)). rewrite <- (app_nil_r (childEnc (Some c))).
    apply (encodes_list _ [_; _]); [repeat constructor; [apply encodes_bytes; lia|done]|]. cbn [concat]. rewrite !length_app. cbn [length]. lia.
  - constructor; auto. by apply (cacheOk_same _ _ Hok).
  - cbn. by rewrite Er.
Qed.

Lemma collapses_full cs v f : wf (fullNode (cs ++ [v]) f) -> cacheOk (fullNode (cs ++ [v]) f) -> length cs = 16%nat ->
  (forall c, Some c ∈ cs -> isRef c /\ cacheBig c) -> (forall c, Some c ∈ cs -> wf c) ->
  (v = None \/ exists b, v = Some (valueNode b) /\ bytesOk b /\ b <> []) ->
  (forall c, Some c ∈ cs -> inner c = true -> hashed c false) -> collapses (fullNode (cs ++ [v]) f).
Proof.
  intros Hw' Hok Hl Hr Hw Hv IH. destruct (payload_ok _ Hw' eq_refl) as [_ Hpl].
  destruct (hashChildren_ok cs v) as (col & cs' & Eh & Hl' & He & Hw1 & Ec & Er).
  { intros c Hin. destruct (Hr c Hin) as [Hrc Hbc]. destruct (inner c) eqn:Eic; [by apply hashed_child; [apply IH|..]|].
    exists c, c. split; [|by apply hashesTo_self; [apply Hw|..]]. by destruct c. }
  assert (encSpec (fullNode (cs' ++ [v]) f) = encSpec (fullNode (cs ++ [v]) f)) as Es by (rewrite !encSpec_full, !fmap_app; by rewrite Ec).
  exists (fullNode (col ++ [v]) f), (fullNode (cs' ++ [v]) f). split_and!; [|done| | |done|done|].
  - cbn [collapse]. by rewrite Eh.
  - rewrite encode_full, encSpec_full. apply encodes_list; [|cbn [payload] in Hpl; lia]. rewrite !fmap_app. apply Forall2_app; [done|].
    repeat constructor. destruct Hv as [->|(b & -> & [_ Hb] & _)]; [by apply encodes_raw|]. cbn [encodeOpt encode childEnc inner encSpec]. apply encodes_bytes. lia.
  - constructor; [congruence|intros c Hin; destruct (Hw1 c Hin) as (_ & ? & ?); done|intros c Hin; by apply Hw1|done|by apply (cacheOk_same _ _ Hok)].
  - cbn [erase]. rewrite !fmap_app. by rewrite Er.
Qed.

Lemma hash_ok n force : wf n -> inner n = true -> hashed n force /\ collapses n.
Proof.
  intros Hw. revert force. induction Hw as [k v f Hk Hv Hc|k c f Hk Hr Hbig Hw IH Hc|cs v f Hl Hr Hw IH Hv Hc|b]; intros force Hi; [| | |done].
  - assert (wf (shortNode (k ++ [16]) (Some (valueNode v)) f)) as Hw by by constructor. assert (collapses _) by by apply collapses_leaf. split; [by apply hash_collapse|done].
  - assert (wf (shortNode k (Some c) f)) as Hw' by by constructor.
    assert (collapses (shortNode k (Some c) f)) by (apply collapses_ext; auto; intros Hic; by apply (IH false)). split; [by apply hash_collapse|done].
  - assert (wf (fullNode (cs ++ [v]) f)) as Hw' by by constructor.
    assert (collapses (fullNode (cs ++ [v]) f)) by (apply collapses_full; auto; intros c Hin Hic; by apply (IH c Hin false)). split; [by apply hash_collapse|done].
Qed.

Lemma proofHash_ok n : wf n -> inner n = true -> exists col hd, proofHash n = Ret (col, hd) /\ nodeToBytes col = Ret (encSpec n).
Proof.
  intros Hw Hi. destruct (proj2 (hash_ok n false Hw Hi)) as (col & c & E & _ & He & _).
  pose proof (nodeToBytes_encodes _ _ He) as Hb. exists col. destruct n; [| |done..]; cbn [collapse proofHash] in *; rewrite E; cbn beta iota;
    unfold nodeToHash; rewrite Hb; by eexists.
Qed.

(** ** The pairs that a node holds *)

Inductive holds : node -> list (list Z * list Z) -> Prop :=
| holds_leaf k v f : holds (shortNode (k ++ [16]) (Some (valueNode v)) f) [(k, v)]
| holds_ext k c f J : k <> [] -> Forall nibble k -> (2 <= length J)%nat -> lcps J.*1 = [] -> NoDup J.*1 -> holds c J ->
    holds (shortNode k (Some c) f) (prefixed k J)
| holds_full cs v f J : length cs = 16%nat -> (2 <= length J)%nat -> lcps J.*1 = [] -> NoDup J.*1 ->
    (forall i, cs !! i = Some None -> below (Z.of_nat i) J = []) ->
    (forall i c, cs !! i = Some (Some c) -> below (Z.of_nat i) J <> []) ->
    (forall i c, cs !! i = Some (Some c) -> holds c (below (Z.of_nat i) J)) ->
    v = (if decide (valueAt J = []) then None else Some (valueNode (valueAt J))) -> holds (fullNode (cs ++ [v]) f) J
| holds_hash J : (32 <= length (comp J))%nat -> holds (hashNode (keccak (comp J))) J.

Lemma children_refs cs J n :
  (forall i, cs !! i = Some None -> below (Z.of_nat (n + i)) J = []) ->
  (forall i c, cs !! i = Some (Some c) -> below (Z.of_nat (n + i)) J <> []) ->
  (forall i c, cs !! i = Some (Some c) -> childEnc (Some c) = nodeRef (comp (below (Z.of_nat (n + i)) J))) ->
  childEnc <$> cs = childRef J <$> seqZ (Z.of_nat n) (Z.of_nat (length cs)).
Proof.
  revert n. induction cs as [|c cs IH]; intros n H0 H1 H2; [done|]. cbn [fmap list_fmap length]. rewrite Nat2Z.inj_succ, seqZ_cons by lia. rewrite Z.pred_succ.
  replace (Z.succ (Z.of_nat n)) with (Z.of_nat (S n)) by lia. cbn [fmap list_fmap]. f_equal.
  - specialize (H0 0%nat). specialize (H1 0%nat). specialize (H2 0%nat). rewrite Nat.add_0_r in *. destruct c as [c|].
    + rewrite childRef_some by by eapply H1. by apply H2.
    + unfold childRef. by rewrite H0.
  - apply IH; [intros i; specialize (H0 (S i))|intros i c'; specialize (H1 (S i) c')|intros i c'; specialize (H2 (S i) c')]; by rewrite Nat.add_succ_r in *.
Qed.

Lemma holds_enc n J : holds n J -> childEnc (Some n) = nodeRef (comp J) /\ (inner n = true -> encSpec n = comp J).
Proof.
  induction 1 as [k v f|k c f J Hk Hn Hl Hp Hnd Hh [IH _]|cs v f J Hl HJ Hp Hnd H0 H1 Hh IH Hv|J Hbig].
  - assert (encSpec (shortNode (k ++ [16]) (Some (valueNode v)) f) = comp [(k, v)]) as E.
    { rewrite encSpec_short, comp_leaf. destruct (bare_leaf k) as [-> ->]. done. }
    split; [cbn [childEnc inner]; by rewrite E|done].
  - assert (encSpec (shortNode k (Some c) f) = comp (prefixed k J)) as E.
    { rewrite encSpec_short, comp_ext by done. destruct (bare_ext k Hn) as [-> ->]. by rewrite IH. }
    split; [cbn [childEnc inner]; by rewrite E|done].
  - assert (encSpec (fullNode (cs ++ [v]) f) = comp J) as E.
    { rewrite encSpec_full, comp_branch by done. f_equal. rewrite fmap_app, concat_app. f_equal.
      - rewrite (children_refs cs J 0); [|done|done|intros i c Hi; by apply (IH i c Hi)]. by rewrite Hl.
      - cbn. rewrite app_nil_r. subst v. case_decide as Ev; [by rewrite Ev|done]. }
    split; [cbn [childEnc inner]; by rewrite E|done].
  - split; [|done]. cbn [childEnc inner encSpec]. unfold nodeRef. by rewrite (proj2 (Z.ltb_ge _ _)) by lia.
Qed.

End Spec.

End TrieNodeLemmas.

Import TrieNodeLemmas.

(** ** The theorems *)

(** C16: The hasher. For a trie whose nodes are well formed, parts of which may be hashes, with caches that are right, [hash] with force
    gives the root that the Yellow Paper defines for the pairs that the trie holds. The copy it returns is the same trie
    with right caches, and hashing the copy gives the same root without any work. *)
Theorem node_hasher_root `{Keccak} n J :
  wf n -> inner n = true -> holds n J ->
  exists n', TrieNode.hash n true = Ret (hashNode (trieRoot J), n') /\ erase n' = erase n /\ wf n' /\
    forall force, TrieNode.hash n' force = Ret (hashNode (trieRoot J), n').
Proof.
  intros Hw Hi Hh. destruct (holds_enc n J Hh) as [_ E]. specialize (E Hi). destruct (proj1 (hash_ok n true Hw Hi)) as (hd & n' & Eh & Hw' & Hi' & Ee & Er & Hcase).
  destruct Hcase as [(-> & Ec & _)|([=] & _)]. rewrite E in *. exists n'. split_and!; [done|done|done|]. intros force. destruct n'; [| |done..]; cbn [TrieNode.hash]; by rewrite Ec.
Qed.

(** Nodes in a database. The bytes of the node that [proofHash] collapses decode to the node again: keys in hex, children of 32
    bytes and more as their hashes, smaller ones in full, and the hash it was asked under as cache. No bytes make the
    decoder panic. *)
Theorem stored_nodes_decode `{Keccak} n h buf :
  wf n -> inner n = true -> Forall is_byte buf -> Z.of_nat (length buf) < 2 ^ 63 ->
  (exists col hd enc, proofHash n = Ret (col, hd) /\ nodeToBytes col = Ret enc /\ decodeNode h enc = Ret (inl (stored h n))) /\
  exists r, decodeNode h buf = Ret r.
Proof.
  intros Hw Hi Hb Hl. split.
  - destruct (proofHash_ok n Hw Hi) as (col & hd & E & En). exists col, hd, (encSpec n). split_and!; [done|done|].
    destruct (payload_ok n Hw Hi) as [Hpb Hpl]. assert (Z.of_nat (length (payload n)) < 2 ^ 64) as Hpl' by lia. pose proof (encList_bound _ Hpl').
    pose proof (decodes_ok n (S (length (encSpec n))) Hw Hi ltac:(lia) h []) as Hd. rewrite app_nil_r in Hd. apply Hd; [by apply encSpec_bytes|].
    rewrite encSpec_payload by done. lia.
  - exact (decodeFuel_total (S (length buf)) ltac:(lia) (length buf) ltac:(lia) h buf Hb ltac:(lia)).
Qed.

(** ** Runs *)

Module NodeDemo.

Definition clean : nodeFlag := mkFlag None true.

Definition leaf1 : node := shortNode ([3] ++ [16]) (Some (valueNode [7])) clean.

Definition leaf2 : node := shortNode ([4; 5] ++ [16]) (Some (valueNode (replicate 40 9))) clean.

Definition root : node := fullNode ([None; Some leaf1; Some leaf2] ++ replicate 13 None ++ [None]) clean.

Definition J : list (list Z * list Z) := [([1; 3], [7]); ([2; 4; 5], replicate 40 9)].

Lemma keyNibbles_dec k : bool_decide (Forall (fun x => 0 <= x < 16) k /\ Z.of_nat (length k) < 2 ^ 60) = true -> keyNibbles k.
Proof. apply bool_decide_eq_true. Qed.

Lemma bytesOk_dec b : bool_decide (Forall (fun x => 0 <= x < 256) b /\ Z.of_nat (length b) < 2 ^ 60) = true -> bytesOk b.
Proof. apply bool_decide_eq_true. Qed.

Lemma leaf1_wf `{Keccak} : wf leaf1.
Proof. apply wf_leaf; [apply keyNibbles_dec; by vm_compute|apply bytesOk_dec; by vm_compute|by intros h [=]]. Qed.

Lemma leaf2_wf `{Keccak} : wf leaf2.
Proof. apply wf_leaf; [apply keyNibbles_dec; by vm_compute|apply bytesOk_dec; by vm_compute|by intros h [=]]. Qed.

Lemma leaf_cases c : Some c ∈ [None; Some leaf1; Some leaf2] ++ replicate 13 None -> c = leaf1 \/ c = leaf2.
Proof. intros [Hin|[? ?]%elem_of_replicate]%elem_of_app; [|done]. set_solver. Qed.

Lemma root_wf `{Keccak} : wf root.
Proof.
  apply (wf_full ([None; Some leaf1; Some leaf2] ++ replicate 13 None) None clean); [done| | |by left|by intros h [=]].
  - intros c [->| ->]%leaf_cases; (split; [done|by intros h [=]]).
  - intros c [->| ->]%leaf_cases; [apply leaf1_wf|apply leaf2_wf].
Qed.

Lemma root_holds `{Keccak} : holds root J.
Proof.
  apply (holds_full ([None; Some leaf1; Some leaf2] ++ replicate 13 None) None clean J); [done|cbn; lia|done| | | | |done].
  - apply NoDup_cons. split; [set_solver|]. apply NoDup_singleton.
  - intros i Hi. destruct i as [|[|[|i]]]; try done. do 13 (destruct i as [|i]; [done|]). done.
  - intros i c Hi. destruct i as [|[|[|i]]]; try done. do 13 (destruct i as [|i]; [done|]). done.
  - intros i c Hi. destruct i as [|[|[|i]]]; try done; [| |do 13 (destruct i as [|i]; [done|]); done]; injection Hi as <-; apply holds_leaf.
Qed.

End NodeDemo.

Lemma node_hasher_root_witness :
  exists n', @TrieNode.hash TrieDemo.demo_keccak NodeDemo.root true = Ret (hashNode (@trieRoot TrieDemo.demo_keccak NodeDemo.J), n') /\
    erase n' = erase NodeDemo.root.
Proof.
  destruct (@node_hasher_root TrieDemo.demo_keccak NodeDemo.root NodeDemo.J) as (n' & E & Er & _);
    [apply NodeDemo.root_wf|reflexivity|apply NodeDemo.root_holds|]. exists n'. by split.
Defined.

Lemma stored_nodes_decode_witness :
  exists col hd enc, @proofHash TrieDemo.demo_keccak NodeDemo.root = Ret (col, hd) /\ nodeToBytes col = Ret enc /\
    decodeNode None enc = Ret (inl (@stored TrieDemo.demo_keccak None NodeDemo.root)).
Proof.
  apply (@stored_nodes_decode TrieDemo.demo_keccak NodeDemo.root None []); [apply NodeDemo.root_wf|reflexivity|constructor|cbn; lia].
Defined.
