(* ===== verification/FreezerTable.v ===== *)
(** * Freezer tables and their batches (src/core/rawdb/freezer_table.go, freezer_batch.go)

    A table is an index file and numbered data files. Files are byte lists; an open file is its number and whether it may be written, and
    its position is always at the end, since it is opened, truncated and written there. The operating system carries out
    what it is asked for: of its errors only those that the state of the files causes are modelled, such as a missing file, a read beyond
    the end or a negative offset. Snappy is a library, the class [Snappy]. Locks, meters and logs are left out. *)

From stdpp Require Import base tactics list gmap strings.
From Stdlib Require Import ZArith Lia.
From S2P Require Import Prelude Bytes RlpRaw RlpEncode.

Open Scope Z_scope.
Open Scope go_scope.

(** The snappy block format: decoding gives back what was encoded, and the header tells its length. *)
Class Snappy := {
  snappyEncode : list Z -> list Z;
  snappyDecode : list Z -> option (list Z);
  snappyDecodedLen : list Z -> Z;
  snappy_decode_encode : forall b, snappyDecode (snappyEncode b) = Some b;
  snappy_len_encode : forall b, snappyDecodedLen (snappyEncode b) = Z.of_nat (length b)
}.

Module FreezerTable.

Inductive fErr :=
| errClosed
| errOutOfBounds
| errOutOrderInsertion (have want : Z)
| errNotExist
| errNotWritable
| errInvalid
| errEOF
| missingFile (num : Z)
| errSnappy
| errRlp (e : Rlp.rlpError)
| errUnknownTable
| errReadOnly
| errNotSupported
| errSymlinkDatadir
| errLocked
| errTableAt (item want : Z)
| errLengths (kind name : string) (items length : Z)
| errMissing (what : string) (number : Z)
| errWrite (what : string) (e : fErr).

(** A value or an error. *)
Definition fres (A : Type) : Type := A + fErr.

(** ** Index entries *)

Record indexEntry := mkEntry { filenum : Z; offset : Z }.

Definition indexEntrySize : Z := 6.

(** Called on six bytes or more. *)
Definition unmarshalBinary (b : list Z) : indexEntry := mkEntry (be_decode (take 2 b)) (be_decode (take 4 (drop 2 b))).

(** The file number is cut to 16 bits. *)
Definition appendEntry (i : indexEntry) (b : list Z) : list Z := b ++ be_encode 2 (filenum i) ++ be_encode 4 (offset i).

(** Start, end and file of the item between two entries. *)
Definition bounds (start end_ : indexEntry) : Z * Z * Z :=
  if negb (filenum start =? filenum end_) then (0, offset end_, filenum end_) else (offset start, offset end_, filenum end_).

(** ** Files *)

(** [Truncate], which also extends a file with zeros. *)
Definition resize (n : nat) (l : list Z) : list Z := take n l ++ replicate (n - length l) 0.

(** [ReadAt]: the bytes read, and the error if they are fewer than asked for. *)
Definition readAt (l : list Z) (n : nat) (off : Z) : list Z * option fErr :=
  if off <? 0 then ([], Some errInvalid)
  else
    let r := if Z.of_nat (length l) <=? off then [] else take n (drop (Z.to_nat off) l) in
    (r, if decide (length r < n)%nat then Some errEOF else None).

(** The buffer after a [ReadAt] whose error is ignored. *)
Definition readInto (buffer l : list Z) (off : Z) : list Z :=
  let r := (readAt l (length buffer) off).1 in r ++ drop (length r) buffer.

Record freezerTable := mkTable {
  items : Z;
  noCompression : bool;
  readonly : bool;
  maxFileSize : Z;
  index : list Z;
  disk : gmap Z (list Z);
  files : gmap Z bool;
  head : option Z;
  headId : Z;
  tailId : Z;
  itemOffset : Z;
  headBytes : Z;
  closed : bool
}.

Definition setIndex (t : freezerTable) (i : list Z) : freezerTable :=
  mkTable (items t) (noCompression t) (readonly t) (maxFileSize t) i (disk t) (files t) (head t) (headId t) (tailId t) (itemOffset t) (headBytes t) (closed t).

Definition setFiles (t : freezerTable) (d : gmap Z (list Z)) (f : gmap Z bool) : freezerTable :=
  mkTable (items t) (noCompression t) (readonly t) (maxFileSize t) (index t) d f (head t) (headId t) (tailId t) (itemOffset t) (headBytes t) (closed t).

Definition setHead (t : freezerTable) (h : option Z) : freezerTable :=
  mkTable (items t) (noCompression t) (readonly t) (maxFileSize t) (index t) (disk t) (files t) h (headId t) (tailId t) (itemOffset t) (headBytes t) (closed t).

Definition setTail (t : freezerTable) (tail off : Z) : freezerTable :=
  mkTable (items t) (noCompression t) (readonly t) (maxFileSize t) (index t) (disk t) (files t) (head t) (headId t) tail off (headBytes t) (closed t).

Definition setCounters (t : freezerTable) (n bytes id : Z) : freezerTable :=
  mkTable n (noCompression t) (readonly t) (maxFileSize t) (index t) (disk t) (files t) (head t) id (tailId t) (itemOffset t) bytes (closed t).

(** A computation on the table, which keeps what it changed when it fails. *)
Definition act (A : Type) : Type := freezerTable -> fres A * freezerTable.

Definition done_ {A} (x : A) : act A := fun t => (inl x, t).

Definition fail {A} (e : fErr) : act A := fun t => (inr e, t).

Definition andThen {A B} (m : act A) (k : A -> act B) : act B := fun t =>
  match m t with
  | (inl x, t) => k x t
  | (inr e, t) => (inr e, t)
  end.

Definition gets {A} (f : freezerTable -> A) : act A := fun t => (inl (f t), t).

Definition modify (f : freezerTable -> freezerTable) : act unit := fun t => (inl tt, f t).

Notation "'do!' x ':=' m 'in' k" := (andThen m (fun x => k)) (at level 200, x pattern, m at level 100, k at level 200, right associativity) : go_scope.

Definition truncateIndex (size : Z) : act unit := fun t =>
  if (size <? 0) || readonly t then (inr (if size <? 0 then errInvalid else errNotWritable), t)
  else (inl tt, setIndex t (resize (Z.to_nat size) (index t))).

Definition writeIndex (b : list Z) : act unit := fun t =>
  if closed t then (inr errInvalid, t)
  else if readonly t then (inr errNotWritable, t)
  else (inl tt, setIndex t (index t ++ b)).

(** The open file [num], if it may be written. *)
Definition writable (t : freezerTable) (num : option Z) : fres Z :=
  match num with
  | None => inr errInvalid
  | Some num => match files t !! num with Some true => inl num | Some false => inr errNotWritable | None => inr errClosed end
  end.

Definition truncateHead (size : Z) : act unit := fun t =>
  match writable t (head t) with
  | inr e => (inr e, t)
  | inl num => (inl tt, setFiles t (<[num := resize (Z.to_nat size) (default [] (disk t !! num))]> (disk t)) (files t))
  end.

Definition writeHead (b : list Z) : act unit := fun t =>
  match writable t (head t) with
  | inr e => (inr e, t)
  | inl num => (inl tt, setFiles t (<[num := default [] (disk t !! num) ++ b]> (disk t)) (files t))
  end.

Definition sizeOf (num : Z) (t : freezerTable) : Z := Z.of_nat (length (default [] (disk t !! num))).

(** The three ways to open a file. *)
Inductive opener := ForAppend | ForReadOnly | Truncated.

Definition openFile (num : Z) (how : opener) : act Z := fun t =>
  match files t !! num with
  | Some _ => (inl num, t)
  | None =>
      match how with
      | ForAppend => (inl num, setFiles t (<[num := default [] (disk t !! num)]> (disk t)) (<[num := true]> (files t)))
      | Truncated => (inl num, setFiles t (<[num := []]> (disk t)) (<[num := true]> (files t)))
      | ForReadOnly =>
          match disk t !! num with
          | None => (inr errNotExist, t)
          | Some _ => (inl num, setFiles t (disk t) (<[num := false]> (files t)))
          end
      end
  end.

Definition releaseFile (num : Z) (t : freezerTable) : freezerTable := setFiles t (disk t) (delete num (files t)).

Definition releaseFilesAfter (num : Z) (remove : bool) (t : freezerTable) : freezerTable :=
  let after := filter (fun kv => num < kv.1) (files t) in
  setFiles t (if remove then disk t ∖ fmap (fun _ => []) after else disk t) (files t ∖ after).

(** ** Opening *)

Fixpoint openRange (num : Z) (n : nat) : act unit :=
  match n with
  | O => done_ tt
  | S n => do! _ := openFile num ForReadOnly in openRange (num + 1) n
  end.

Definition preopen : act unit :=
  do! _ := modify (releaseFilesAfter 0 false) in
  do! t := gets id in
  do! _ := openRange (tailId t) (Z.to_nat (headId t - tailId t)) in
  do! h := openFile (headId t) (if readonly t then ForReadOnly else ForAppend) in
  modify (fun t => setHead t (Some h)).

(** The index loses its last entry; the new last one may be in an earlier file. *)
Definition dropEntry (lastIndex : indexEntry) (offsetsSize contentSize : Z) (buffer : list Z) : act (indexEntry * Z * list Z) :=
  do! _ := truncateIndex (offsetsSize - indexEntrySize) in
  let offsetsSize := offsetsSize - indexEntrySize in
  do! idx := gets index in
  let buffer := readInto buffer idx (offsetsSize - indexEntrySize) in
  let newLastIndex := unmarshalBinary buffer in
  if negb (filenum newLastIndex =? filenum lastIndex) then
    do! _ := modify (releaseFile (filenum lastIndex)) in
    do! h := openFile (filenum newLastIndex) ForAppend in
    do! _ := modify (fun t => setHead t (Some h)) in
    do! contentSize := gets (sizeOf h) in
    done_ (newLastIndex, contentSize, buffer)
  else done_ (newLastIndex, contentSize, buffer).

(** The loop of [repair]: a round either ends it or drops an index entry, so it ends after as many rounds as there are entries. The result
    is the size of the index, the size of the head and the last entry. *)
Fixpoint repairLoop (fuel : nat) (lastIndex : indexEntry) (offsetsSize contentSize : Z) (buffer : list Z) : act (Z * Z * indexEntry) :=
  match fuel with
  | O => fail errInvalid
  | S fuel =>
      let contentExp := offset lastIndex in
      if contentExp =? contentSize then done_ (offsetsSize, contentSize, lastIndex)
      else if contentExp <? contentSize then
        do! _ := truncateHead contentExp in
        done_ (offsetsSize, contentExp, lastIndex)
      else
        do! (newLastIndex, contentSize, buffer) := dropEntry lastIndex offsetsSize contentSize buffer in
        repairLoop fuel newLastIndex (offsetsSize - indexEntrySize) contentSize buffer
  end.

(** A truncation whose error is ignored. *)
Definition ignoring (m : act unit) : act unit := fun t => (inl tt, (m t).2).

Definition repair : act unit :=
  let buffer := replicate 6 0 in
  do! size := gets (fun t => Z.of_nat (length (index t))) in
  do! _ := if size =? 0 then writeIndex buffer else done_ tt in
  let overflow := size mod indexEntrySize in
  do! _ := if negb (overflow =? 0) then ignoring (truncateIndex (size - overflow)) else done_ tt in
  do! idx := gets index in
  let offsetsSize := Z.of_nat (length idx) in
  let buffer := readInto buffer idx 0 in
  let firstIndex := unmarshalBinary buffer in
  do! _ := modify (fun t => setTail t (filenum firstIndex) (offset firstIndex)) in
  let buffer := readInto buffer idx (offsetsSize - indexEntrySize) in
  let lastIndex := unmarshalBinary buffer in
  do! ro := gets readonly in
  do! h := openFile (filenum lastIndex) (if ro then ForReadOnly else ForAppend) in
  do! _ := modify (fun t => setHead t (Some h)) in
  do! contentSize := gets (sizeOf h) in
  do! (offsetsSize, contentSize, lastIndex) := repairLoop (S (S (length idx))) lastIndex offsetsSize contentSize buffer in
  do! _ := modify (fun t => setCounters t (u64 (itemOffset t + u64 (offsetsSize / indexEntrySize - 1))) contentSize (filenum lastIndex)) in
  preopen.

(** The table of the files of a directory; without an index file, a table that may be written creates it. *)
Definition newTable (idx : option (list Z)) (d : gmap Z (list Z)) (maxFilesize : Z) (noCompression readonly : bool) : fres freezerTable * (list Z * gmap Z (list Z)) :=
  match idx with
  | None => if readonly then (inr errNotExist, ([], d)) else
      let '(r, t) := repair (mkTable 0 noCompression readonly maxFilesize [] d ∅ None 0 0 0 0 false) in
      (match r with inl _ => inl t | inr e => inr e end, (index t, disk t))
  | Some idx =>
      let '(r, t) := repair (mkTable 0 noCompression readonly maxFilesize idx d ∅ None 0 0 0 0 false) in
      (match r with inl _ => inl t | inr e => inr e end, (index t, disk t))
  end.

Definition Close (t : freezerTable) : freezerTable :=
  mkTable (items t) (noCompression t) (readonly t) (maxFileSize t) (index t) (disk t) (files t) None (headId t) (tailId t) (itemOffset t) (headBytes t) true.

(** ** Truncation *)

(** Going back to an older head file. *)
Definition backTo (num : Z) : act unit :=
  do! hid := gets headId in
  if negb (num =? hid) then
    do! _ := modify (releaseFile num) in
    do! newHead := openFile num ForAppend in
    do! _ := modify (releaseFilesAfter num true) in
    do! _ := modify (fun t => setHead t (Some newHead)) in
    modify (fun t => setCounters t (items t) (headBytes t) num)
  else done_ tt.

Definition truncate (n : Z) : act unit :=
  do! existing := gets items in
  if existing <=? n then done_ tt
  else
    do! c := gets closed in
    if c then fail errInvalid
    else
      do! _ := truncateIndex (i64 (i64 (u64 (n + 1)) * indexEntrySize)) in
      do! idx := gets index in
      match readAt idx 6 (i64 (u64 (n * indexEntrySize))) with
      | (_, Some e) => fail e
      | (buffer, None) =>
          let expected := unmarshalBinary buffer in
          do! _ := backTo (filenum expected) in
          do! _ := truncateHead (offset expected) in
          modify (fun t => setCounters t n (offset expected) (headId t))
      end.

Definition has (t : freezerTable) (number : Z) : bool := number <? items t.

Definition size (t : freezerTable) : fres Z :=
  if closed t then inr errInvalid
  else inl (u64 (u64 (u64 (maxFileSize t * u32 (headId t - tailId t)) + u64 (headBytes t)) + Z.of_nat (length (index t)))).

Definition advanceHead : act unit :=
  do! t := gets id in
  let nextID := u32 (headId t + 1) in
  do! newHead := openFile nextID Truncated in
  do! _ := modify (releaseFile (headId t)) in
  do! _ := fun t' => (inl tt, (openFile (headId t) ForReadOnly t').2) in
  do! _ := modify (fun t => setHead t (Some newHead)) in
  modify (fun t => setCounters t (items t) 0 nextID).

(** ** Reading *)

(** [make] panics beyond the address space. *)
Definition maxAlloc : Z := 2 ^ 48.

Definition makeBuffer (n : Z) : go (list Z) := if maxAlloc <? n then Panic else Ret (replicate (Z.to_nat n) 0).

(** The entries of a buffer of [n] entries. *)
Fixpoint entriesOf (n : nat) (buffer : list Z) : list indexEntry :=
  match n with
  | O => []
  | S n => unmarshalBinary buffer :: entriesOf n (drop 6 buffer)
  end.

(** The sizes are 64-bit numbers; a buffer too short for the entries is a panic. *)
Definition getIndices (t : freezerTable) (from count : Z) : go (fres (list indexEntry)) :=
  let from := u64 (from - itemOffset t) in
  let size := u64 (u64 (count + 1) * indexEntrySize) in
  if maxAlloc <? size then Panic
  else
    match readAt (index t) (Z.to_nat size) (i64 (u64 (from * indexEntrySize))) with
    | (_, Some e) => Ret (inr e)
    | (buffer, None) =>
        if u64 (from + count) <? from then Ret (inl [])
        else if size <? (count + 1) * indexEntrySize then Panic
        else
          Ret (inl match entriesOf (Z.to_nat (count + 1)) buffer with
                   | i0 :: i1 :: l => if from =? 0 then mkEntry (filenum i1) 0 :: i1 :: l else i0 :: i1 :: l
                   | l => l
                   end)
    end.

(** The buffer of [retrieveItems] and its used size. *)
Record outBuf := mkOut { output : list Z; outputSize : nat }.

(** [readData], which reads into the free part of the buffer. *)
Definition readData (t : freezerTable) (o : outBuf) (fileId start : Z) (len : nat) : go (fres outBuf) :=
  let out := if decide (length (output o) < len)%nat then replicate len 0 else output o in
  match files t !! fileId with
  | None => Ret (inr (missingFile fileId))
  | Some _ =>
      if decide (length out < outputSize o + len)%nat then Panic
      else
        match readAt (default [] (disk t !! fileId)) len start with
        | (_, Some e) => Ret (inr e)
        | (r, None) => Ret (inl (mkOut (take (outputSize o) out ++ r ++ drop (outputSize o + len) out) (outputSize o + len)))
        end
  end.

(** The loop over the entries from number [i] on. *)
Fixpoint readLoop (t : freezerTable) (maxBytes : Z) (i : nat) (firstIndex : indexEntry) (rest : list indexEntry)
    (o : outBuf) (sizes : list nat) (totalSize unreadSize : nat) (readStart : Z) : go (fres (outBuf * list nat)) :=
  match rest with
  | [] => Ret (inl (o, sizes))
  | secondIndex :: rest =>
      let '(offset1, offset2, _) := bounds firstIndex secondIndex in
      let size := Z.to_nat (u32 (offset2 - offset1)) in
      let crossing := negb (filenum secondIndex =? filenum firstIndex) in
      let! r := if crossing && bool_decide (0 < unreadSize)%nat then readData t o (filenum firstIndex) readStart unreadSize else Ret (inl o) in
      match r with
      | inr e => Ret (inr e)
      | inl o =>
          let unreadSize := if crossing then 0%nat else unreadSize in
          let readStart := if crossing then 0 else readStart in
          if bool_decide (0 < i)%nat && (maxBytes <? Z.of_nat (totalSize + size)) then
            if bool_decide (0 < unreadSize)%nat then
              let! r := readData t o (filenum secondIndex) readStart unreadSize in
              Ret match r with inl o => inl (o, sizes) | inr e => inr e end
            else Ret (inl (o, sizes))
          else
            let unreadSize := (unreadSize + size)%nat in
            let totalSize := (totalSize + size)%nat in
            let sizes := sizes ++ [size] in
            if bool_decide (rest = []) || (maxBytes <? Z.of_nat totalSize) then
              let! r := readData t o (filenum secondIndex) readStart unreadSize in
              Ret match r with inl o => inl (o, sizes) | inr e => inr e end
            else readLoop t maxBytes (S i) secondIndex rest o sizes totalSize unreadSize readStart
      end
  end.

Definition retrieveItems (t : freezerTable) (start count maxBytes : Z) : go (fres (list Z * list nat)) :=
  if closed t || bool_decide (head t = None) then Ret (inr errClosed)
  else if (items t <=? start) || (start <? itemOffset t) || (count =? 0) then Ret (inr errOutOfBounds)
  else
    let count := if items t <? u64 (start + count) then items t - start else count in
    let! out := makeBuffer maxBytes in
    let! indices := getIndices t start count in
    match indices with
    | inr e => Ret (inr e)
    | inl [] => Panic
    | inl (i0 :: indices) =>
        let! r := readLoop t maxBytes 0 i0 indices (mkOut out 0) [] 0 0 (offset i0) in
        Ret match r with inl (o, sizes) => inl (take (outputSize o) (output o), sizes) | inr e => inr e end
    end.

Section Compression.
Context `{Snappy}.

(** The loop that slices up the data, from item [i] on. *)
Fixpoint sliceLoop (t : freezerTable) (maxBytes : Z) (i : nat) (diskData : list Z) (sizes : list nat) (outputSize : Z) : go (fres (list (list Z))) :=
  match sizes with
  | [] => Ret (inl [])
  | diskSize :: sizes =>
      if decide (length diskData < diskSize)%nat then Panic
      else
        let item := take diskSize diskData in
        let decompressedSize := if noCompression t then Z.of_nat diskSize else snappyDecodedLen item in
        if bool_decide (0 < i)%nat && (maxBytes <? outputSize + decompressedSize) then Ret (inl [])
        else
          match (if noCompression t then Some item else snappyDecode item) with
          | None => Ret (inr errSnappy)
          | Some data =>
              let! r := sliceLoop t maxBytes (S i) (drop diskSize diskData) sizes (outputSize + decompressedSize) in
              Ret match r with inl l => inl (data :: l) | inr e => inr e end
          end
  end.

Definition RetrieveItems (t : freezerTable) (start count maxBytes : Z) : go (fres (list (list Z))) :=
  let! r := retrieveItems t start count maxBytes in
  match r with
  | inr e => Ret (inr e)
  | inl (diskData, sizes) => if maxAlloc <? 24 * count then Panic else sliceLoop t maxBytes 0 diskData sizes 0
  end.

Definition Retrieve (t : freezerTable) (item : Z) : go (fres (list Z)) :=
  let! r := RetrieveItems t item 1 0 in
  match r with
  | inr e => Ret (inr e)
  | inl [] => Panic
  | inl (x :: _) => Ret (inl x)
  end.

(** ** Batches *)

Record freezerTableBatch := mkBatch {
  dataBuffer : list Z;
  indexBuffer : list Z;
  curItem : Z;
  totalBytes : Z;
  boffset : Z
}.

Definition freezerBatchBufferLimit : Z := 2 * 1024 * 1024.

(** [reset] of a batch, with the offset it was made with. *)
Definition reset (t : freezerTable) (off : Z) : freezerTableBatch := mkBatch [] [] (u64 (items t + off)) 0 off.

Definition newBatch (t : freezerTable) (off : Z) : freezerTableBatch := reset t off.

(** A step of a batch on its table. *)
Definition bact : Type := freezerTableBatch * freezerTable -> option fErr * (freezerTableBatch * freezerTable).

Definition commit : bact := fun '(b, t) =>
  match writeHead (dataBuffer b) t with
  | (inr e, t) => (Some e, (b, t))
  | (inl _, t) =>
      let dataSize := Z.of_nat (length (dataBuffer b)) in
      let b := mkBatch [] (indexBuffer b) (curItem b) (totalBytes b) (boffset b) in
      match writeIndex (indexBuffer b) t with
      | (inr e, t) => (Some e, (b, t))
      | (inl _, t) =>
          let b := mkBatch [] [] (curItem b) (totalBytes b) (boffset b) in
          (None, (b, setCounters t (u64 (curItem b - boffset b)) (headBytes t + dataSize) (headId t)))
      end
  end.

Definition maybeCommit : bact := fun '(b, t) =>
  if freezerBatchBufferLimit <? Z.of_nat (length (dataBuffer b)) then commit (b, t) else (None, (b, t)).

(** The data and the entry of an item go to the buffers. *)
Definition putItem (data : list Z) (off : Z) : bact := fun '(b, t) =>
  let itemSize := Z.of_nat (length data) in
  let entry := mkEntry (headId t) (u32 (off + itemSize)) in
  maybeCommit (mkBatch (dataBuffer b ++ data) (appendEntry entry (indexBuffer b)) (u64 (curItem b + 1)) (totalBytes b + itemSize) (boffset b), t).

Definition appendItem (data : list Z) : bact := fun '(b, t) =>
  let itemSize := Z.of_nat (length data) in
  let off := headBytes t + Z.of_nat (length (dataBuffer b)) in
  if maxFileSize t <? off + itemSize then
    match commit (b, t) with
    | (Some e, s) => (Some e, s)
    | (None, (b, t)) =>
        match advanceHead t with
        | (inr e, t) => (Some e, (b, t))
        | (inl _, t) => putItem data 0 (b, t)
        end
    end
  else putItem data off (b, t).

Definition AppendRaw (item : Z) (blob : list Z) : bact := fun '(b, t) =>
  if negb (item =? curItem b) then (Some (errOutOrderInsertion item (curItem b)), (b, t))
  else appendItem (if noCompression t then blob else snappyEncode blob) (b, t).

(** [Append], with the value to encode given by its writer. *)
Definition Append (item : Z) (data : RlpEncode.writer) : freezerTableBatch * freezerTable -> go (option fErr * (freezerTableBatch * freezerTable)) := fun '(b, t) =>
  if negb (item =? curItem b) then Ret (Some (errOutOrderInsertion item (curItem b)), (b, t))
  else
    let! r := RlpEncode.EncodeToBytes data in
    match r with
    | Rlp.Err e => Ret (Some (errRlp e), (b, t))
    | Rlp.Ok encItem => Ret (appendItem (if noCompression t then encItem else snappyEncode encItem) (b, t))
    end.

End Compression.

End FreezerTable.
