(* ===== verification/FreezerTableProps.v ===== *)
(** * Properties of freezer tables (FreezerTable.v)

    A table refines the list of its items: appending, reading, truncating and reopening after a crash. *)

From stdpp Require Import base tactics list gmap sets.
From Stdlib Require Import ZArith Lia.
From S2P Require Import Prelude Bytes RlpRaw RlpEncode RlpEncodeProps FreezerTable.

Open Scope Z_scope.
Open Scope go_scope.

Import FreezerTable.

Module FreezerLemmas.

(** Fields of a table that was built by setters. *)
Ltac fields := cbn [items noCompression readonly maxFileSize index disk files head headId tailId itemOffset headBytes closed
  setIndex setFiles setHead setTail setCounters releaseFile dataBuffer indexBuffer curItem totalBytes boffset fst snd].

Notation len l := (Z.of_nat (length l)).

(** ** Index entries *)

Definition enc (e : indexEntry) : list Z := be_encode 2 (filenum e) ++ be_encode 4 (offset e).

Definition eOk (e : indexEntry) : Prop := 0 <= filenum e < 2 ^ 16 /\ 0 <= offset e < 2 ^ 32.

Lemma length_enc e : length (enc e) = 6%nat.
Proof. unfold enc. by rewrite length_app, !length_be_encode. Qed.

Lemma unmarshal_enc e rest : eOk e -> unmarshalBinary (enc e ++ rest) = e.
Proof.
  intros [Hf Ho]. unfold unmarshalBinary, enc. rewrite <- app_assoc.
  rewrite (take_app_length' (be_encode 2 _)) by (by rewrite length_be_encode). rewrite (drop_app_length' (be_encode 2 _)) by (by rewrite length_be_encode).
  rewrite take_app_length' by (by rewrite length_be_encode). rewrite !be_decode_encode. destruct e as [f o]. cbn [filenum offset] in *.
  by rewrite !Z.mod_small by lia.
Qed.

Lemma unmarshal_enc_nil e : eOk e -> unmarshalBinary (enc e) = e.
Proof. intros He. rewrite <- (app_nil_r (enc e)). by apply unmarshal_enc. Qed.

Lemma length_encs es : length (concat (enc <$> es)) = (6 * length es)%nat.
Proof. induction es as [|e es IH]; [done|]. cbn [fmap list_fmap concat length]. rewrite length_app, length_enc, IH. lia. Qed.

Lemma encs_drop n es : drop (6 * n) (concat (enc <$> es)) = concat (enc <$> drop n es).
Proof.
  revert es. induction n as [|n IH]; intros es; [by rewrite Nat.mul_0_r, !drop_0|]. destruct es as [|e es]; [by rewrite !drop_nil|].
  cbn [fmap list_fmap concat]. rewrite skipn_cons. replace (6 * S n)%nat with (length (enc e) + 6 * n)%nat by (rewrite length_enc; lia). by rewrite drop_app_add, IH.
Qed.

Lemma encs_take n es : take (6 * n) (concat (enc <$> es)) = concat (enc <$> take n es).
Proof.
  revert es. induction n as [|n IH]; intros es; [by rewrite Nat.mul_0_r, !firstn_O|]. destruct es as [|e es]; [by rewrite !take_nil|].
  cbn [fmap list_fmap concat]. rewrite firstn_cons. cbn [fmap list_fmap concat]. replace (6 * S n)%nat with (length (enc e) + 6 * n)%nat by (rewrite length_enc; lia). by rewrite take_app_add, IH.
Qed.

Lemma entriesOf_enc n es : Forall eOk es -> (n <= length es)%nat -> entriesOf n (concat (enc <$> es)) = take n es.
Proof.
  revert es. induction n as [|n IH]; intros es Hes Hn; [by rewrite firstn_O|]. destruct es as [|e es]; [cbn in Hn; lia|]. apply Forall_cons in Hes as [He Hes].
  cbn [entriesOf fmap list_fmap concat length] in *. rewrite unmarshal_enc by done. rewrite drop_app_length' by (by rewrite length_enc). rewrite IH by (done || lia). done.
Qed.

(** ** Where the items are *)

(** The bytes [b] are in file [n] from [s] on. *)
Definition stored (d : gmap Z (list Z)) (n s : Z) (b : list Z) : Prop := exists p q, d !! n = Some (p ++ b ++ q) /\ len p = s.

Definition start (f o : Z) (e : indexEntry) : Z := if filenum e =? f then o else 0.

(** The items [bs] have the entries [es] when writing goes on at [o] in file [f]. *)
Fixpoint chain (d : gmap Z (list Z)) (f o : Z) (bs : list (list Z)) (es : list indexEntry) : Prop :=
  match bs, es with
  | [], [] => True
  | b :: bs, e :: es =>
      f <= filenum e /\ eOk e /\ offset e = start f o e + len b /\ stored d (filenum e) (start f o e) b /\ chain d (filenum e) (offset e) bs es
  | _, _ => False
  end.

(** Where writing goes on after the entries. *)
Definition endPos (f o : Z) (es : list indexEntry) : Z * Z := foldl (fun _ e => (filenum e, offset e)) (f, o) es.

Lemma chain_length d f o bs es : chain d f o bs es -> length bs = length es.
Proof. revert f o es. induction bs as [|b bs IH]; intros f o [|e es]; try done. intros (_ & _ & _ & _ & Hc). cbn. by rewrite (IH _ _ _ Hc). Qed.

Lemma chain_eOk d f o bs es : chain d f o bs es -> Forall eOk es.
Proof. revert f o es. induction bs as [|b bs IH]; intros f o [|e es]; try done. intros (_ & He & _ & _ & Hc). constructor; [done|by apply IH in Hc]. Qed.

Lemma endPos_app f o es es' : endPos f o (es ++ es') = endPos (endPos f o es).1 (endPos f o es).2 es'.
Proof. unfold endPos. rewrite foldl_app. by destruct (foldl _ _ es). Qed.

Lemma chain_app d f o bs bs' es es' :
  length bs = length es ->
  chain d f o (bs ++ bs') (es ++ es') <-> chain d f o bs es /\ chain d (endPos f o es).1 (endPos f o es).2 bs' es'.
Proof.
  revert f o es. induction bs as [|b bs IH]; intros f o [|e es] Hl; try done; [cbn; tauto|]. cbn [app chain].
  rewrite IH by (by injection Hl). change (endPos f o (e :: es)) with (endPos (filenum e) (offset e) es). tauto.
Qed.

Lemma chain_last d f o bs es : chain d f o bs es -> f <= (endPos f o es).1.
Proof.
  revert f o es. induction bs as [|b bs IH]; intros f o [|e es]; try done. intros (Hf & _ & _ & _ & Hc). apply IH in Hc.
  change (endPos f o (e :: es)) with (endPos (filenum e) (offset e) es). lia.
Qed.

(** Items stay where they are when files that hold them grow. *)
Lemma stored_grow d d' n s b : stored d n s b -> (forall c, d !! n = Some c -> exists q, d' !! n = Some (c ++ q)) -> stored d' n s b.
Proof. intros (p & q & E & Hp) Hg. destruct (Hg _ E) as [q' E']. exists p, (q ++ q'). by rewrite E', <- !app_assoc. Qed.

Lemma chain_grow d d' f o bs es :
  chain d f o bs es -> (forall n c, n <= (endPos f o es).1 -> d !! n = Some c -> exists q, d' !! n = Some (c ++ q)) -> chain d' f o bs es.
Proof.
  revert f o es. induction bs as [|b bs IH]; intros f o [|e es]; try done. change (endPos f o (e :: es)) with (endPos (filenum e) (offset e) es).
  intros (Hf & He & Ho & Hs & Hc) Hg. split_and!; [done|done|done| |by apply IH]. eapply stored_grow; [exact Hs|]. intros c. apply Hg. by eapply chain_last.
Qed.

Lemma stored_app d n s a b : stored d n s a -> stored d n (s + len a) b -> stored d n s (a ++ b).
Proof.
  intros (p & q & E & Hp) (p' & q' & E' & Hp'). rewrite E in E'. injection E' as E'. exists p, q'. split; [|done]. rewrite E. f_equal.
  rewrite <- (take_drop (length p + length a) (p ++ a ++ q)). rewrite E' at 2. replace (length p + length a)%nat with (length p') at 2 by lia.
  rewrite drop_app_length. rewrite (app_assoc p a q). rewrite take_app_length' by (rewrite length_app; lia). by rewrite <- !app_assoc.
Qed.

Lemma readAt_stored d n s b c : stored d n s b -> d !! n = Some c -> readAt c (length b) s = (b, None).
Proof.
  intros (p & q & E & Hp) Ec. rewrite E in Ec. injection Ec as <-. unfold readAt. rewrite (proj2 (Z.ltb_ge _ _)) by lia. rewrite !length_app.
  destruct (_ <=? _) eqn:Es.
  - assert (b = []) as -> by (destruct b; [done|]; apply Z.leb_le in Es; cbn [length] in Es; lia). done.
  - subst s. rewrite Nat2Z.id. rewrite drop_app_length, take_app_length. rewrite decide_False by lia. done.
Qed.

(** ** The invariant of a table *)

Definition firstEntry (t : freezerTable) : indexEntry := mkEntry (tailId t) (itemOffset t).

(** The table holds the items [bs], as they are on disk, with the entries [es]. *)
Record inv (t : freezerTable) (bs : list (list Z)) (es : list indexEntry) : Prop := {
  i_open : closed t = false;
  i_rw : readonly t = false;
  i_index : index t = concat (enc <$> firstEntry t :: es);
  i_first : eOk (firstEntry t);
  i_chain : chain (disk t) (tailId t) 0 bs es;
  i_last : (endPos (tailId t) 0 es).1 <= headId t < 2 ^ 16;
  i_bytes : headBytes t = if decide ((endPos (tailId t) 0 es).1 = headId t) then (endPos (tailId t) 0 es).2 else 0;
  i_head : head t = Some (headId t);
  i_headfile : files t !! headId t = Some true;
  i_size : exists c, disk t !! headId t = Some c /\ len c = headBytes t;
  i_files : forall n, tailId t <= n <= headId t -> is_Some (files t !! n) /\ is_Some (disk t !! n);
  i_after : forall n, headId t < n -> files t !! n = None;
  i_items : items t = itemOffset t + len bs;
  i_max : 0 <= maxFileSize t < 2 ^ 32
}.

(** Settings that no operation changes. *)
Definition kept (t t' : freezerTable) : Prop :=
  itemOffset t' = itemOffset t /\ tailId t' = tailId t /\ noCompression t' = noCompression t /\ maxFileSize t' = maxFileSize t.

(** ** Appending *)

(** The items [ps] with the entries [es] follow each other in file [f] from [o] on. *)
Fixpoint run (f o : Z) (ps : list (list Z)) (es : list indexEntry) : Prop :=
  match ps, es with
  | [], [] => True
  | p :: ps, e :: es => e = mkEntry f (o + len p) /\ eOk e /\ run f (o + len p) ps es
  | _, _ => False
  end.

Lemma run_length f o ps es : run f o ps es -> length ps = length es.
Proof. revert o es. induction ps as [|p ps IH]; intros o [|e es]; try done. intros (_ & _ & Hr). cbn. by rewrite (IH _ _ Hr). Qed.

Lemma run_app f o ps es p e :
  run f o ps es -> e = mkEntry f (o + len (concat ps) + len p) -> eOk e -> run f o (ps ++ [p]) (es ++ [e]).
Proof.
  revert o es. induction ps as [|p' ps IH]; intros o [|e' es]; try done; cbn [app run concat].
  - intros _ -> He. split_and!; [f_equal; cbn; lia|done|done].
  - intros (-> & He' & Hr) -> He. split_and!; [done|done|]. apply IH; [done| |done]. f_equal. rewrite length_app. lia.
Qed.

Lemma run_end f o ps es : run f o ps es -> endPos f o es = (f, o + len (concat ps)).
Proof.
  revert o es. induction ps as [|p ps IH]; intros o [|e es]; try done; cbn [run concat]; [intros _; cbn; f_equal; lia|].
  intros (-> & _ & Hr). change (endPos f o (mkEntry f (o + len p) :: es)) with (endPos f (o + len p) es). rewrite (IH _ _ Hr), length_app. f_equal. lia.
Qed.

(** Once the data is in the file, a run is a chain; at its start the file changes or writing goes on. *)
Lemma run_chain d f o ps es pre post f0 o0 :
  run f o ps es -> d !! f = Some (pre ++ concat ps ++ post) -> len pre = o -> f0 <= f -> o = (if decide (f0 = f) then o0 else 0) ->
  chain d f0 o0 ps es.
Proof.
  revert o es pre f0 o0. induction ps as [|p ps IH]; intros o [|e es] pre f0 o0; try done. cbn [run chain concat].
  intros (-> & He & Hr) Hd Hp Hf Ho. assert (start f0 o0 (mkEntry f (o + len p)) = o) as Es.
  { unfold start. cbn [filenum]. destruct (Z.eqb_spec f f0) as [->|]; [by rewrite decide_True in Ho|]. by rewrite decide_False in Ho. }
  rewrite Es. cbn [filenum offset]. split_and!; [done|done|done| |].
  - exists pre, (concat ps ++ post). split; [|done]. by rewrite Hd, <- !app_assoc.
  - apply (IH (o + len p) es (pre ++ p)); [done| | |done|by rewrite decide_True]; [by rewrite Hd, <- !app_assoc|rewrite length_app; lia].
Qed.

(** What a batch has buffered for its table. *)
Record pend (t : freezerTable) (b : freezerTableBatch) (ps : list (list Z)) (es : list indexEntry) : Prop := {
  p_data : dataBuffer b = concat ps;
  p_index : indexBuffer b = concat (enc <$> es);
  p_run : run (headId t) (headBytes t) ps es;
  p_item : curItem b = u64 (items t + len ps + boffset b)
}.

Lemma inv_bytes t bs es : inv t bs es -> 0 <= headBytes t.
Proof. intros Hi. destruct (i_size _ _ _ Hi) as (c & _ & <-). lia. Qed.

Lemma commit_ok t bs es b ps es' :
  inv t bs es -> pend t b ps es' -> itemOffset t + len (bs ++ ps) < 2 ^ 64 ->
  exists b' t', commit (b, t) = (None, (b', t')) /\ inv t' (bs ++ ps) (es ++ es') /\ pend t' b' [] [] /\ kept t t' /\ boffset b' = boffset b /\
    headId t' = headId t.
Proof.
  intros Hi Hp Hlen. pose proof (inv_bytes _ _ _ Hi) as Hb0. destruct (i_size _ _ _ Hi) as (c & Hc & Hcl).
  unfold commit, writeHead, writable. rewrite (i_head _ _ _ Hi), (i_headfile _ _ _ Hi). cbn beta iota.
  unfold writeIndex. fields. rewrite (i_open _ _ _ Hi), (i_rw _ _ _ Hi). fields.
  rewrite Hc. change (default [] (Some c)) with c. pose proof (i_last _ _ _ Hi) as Hlast. pose proof (i_bytes _ _ _ Hi) as Hbytes. pose proof (chain_length _ _ _ _ _ (i_chain _ _ _ Hi)) as Hl1.
  set (d' := <[headId t := _]> (disk t)). assert (u64 (curItem b - boffset b) = itemOffset t + len (bs ++ ps)) as Hcur.
  { rewrite (p_item _ _ _ _ Hp), (i_items _ _ _ Hi). unfold u64. rewrite Zminus_mod_idemp_l. rewrite length_app in *.
    pose proof (i_first _ _ _ Hi) as [_ Hoff]. cbn in Hoff. rewrite Z.mod_small by lia. lia. }
  assert (endPos (tailId t) 0 (es ++ es') = (if decide (ps = []) then endPos (tailId t) 0 es else (headId t, headBytes t + len (concat ps)))) as Hend.
  { rewrite endPos_app. destruct ps as [|p ps]; [pose proof (p_run _ _ _ _ Hp) as Hr; destruct es'; [|done]; cbn; by destruct (endPos _ _ _)|].
    destruct es' as [|e es']; [by pose proof (p_run _ _ _ _ Hp)|]. rewrite decide_False by done. rewrite <- (run_end _ _ _ _ (p_run _ _ _ _ Hp)). done. }
  eexists _, _. split; [done|]. split_and!; [constructor|constructor|done|done|done];
    unfold firstEntry; fields; try done; try apply Hi.
  - rewrite (i_index _ _ _ Hi), (p_index _ _ _ _ Hp), <- concat_app, <- fmap_app. done.
  - apply chain_app; [done|]. split.
    + eapply chain_grow; [apply Hi|]. intros n c' Hn Hc'. unfold d'. destruct (decide (n = headId t)) as [->|Hne].
      * rewrite lookup_insert_eq. rewrite Hc in Hc'. injection Hc' as <-. by eexists.
      * rewrite lookup_insert_ne by done. exists []. by rewrite app_nil_r.
    + apply (run_chain _ (headId t) (headBytes t) ps es' c []); [apply Hp| |done|lia|done]. unfold d'. rewrite lookup_insert_eq, app_nil_r. by rewrite (p_data _ _ _ _ Hp).
  - rewrite Hend. case_decide; [done|cbn; lia].
  - rewrite Hend, (p_data _ _ _ _ Hp). case_decide as E; [|by rewrite decide_True]. subst ps. cbn [concat length]. rewrite Z.add_0_r. done.
  - unfold d'. rewrite lookup_insert_eq. eexists. split; [done|]. rewrite length_app. lia.
  - intros n Hn. split; [by apply (i_files _ _ _ Hi)|]. unfold d'. destruct (decide (n = headId t)) as [->|Hne]; [by rewrite lookup_insert_eq|].
    rewrite lookup_insert_ne by done. by apply (i_files _ _ _ Hi).
  - rewrite Hcur. cbn [length]. rewrite (p_item _ _ _ _ Hp), (i_items _ _ _ Hi). f_equal. rewrite length_app. lia.
Qed.

Lemma advanceHead_ok t bs es :
  inv t bs es -> headId t + 1 < 2 ^ 16 ->
  exists t', advanceHead t = (inl tt, t') /\ inv t' bs es /\ kept t t' /\ headId t' = headId t + 1 /\ headBytes t' = 0 /\ items t' = items t.
Proof.
  intros Hi Hn. pose proof (i_last _ _ _ Hi) as Hlast. pose proof (chain_last _ _ _ _ _ (i_chain _ _ _ Hi)) as Hge. pose proof (i_first _ _ _ Hi) as [Hf _]. cbn in Hf.
  destruct (i_size _ _ _ Hi) as (c & Hc & Hcl).
  unfold advanceHead, andThen, gets, modify, id. assert (u32 (headId t + 1) = headId t + 1) as -> by (unfold u32; apply Z.mod_small; lia).
  unfold openFile at 1. rewrite (i_after _ _ _ Hi) by lia. cbn beta iota. unfold openFile. fields.
  rewrite lookup_delete_eq, lookup_insert_ne, Hc by lia. cbn beta iota. fields. set (d' := <[headId t + 1 := []]> (disk t)). set (f' := <[headId t := false]> _).
  assert (forall n, f' !! n = if decide (n = headId t) then Some false else if decide (n = headId t + 1) then Some true else files t !! n) as Hf'.
  { intros n. unfold f'. case_decide; [subst; by rewrite lookup_insert_eq|]. rewrite lookup_insert_ne, lookup_delete_ne by done.
    case_decide; [subst; by rewrite lookup_insert_eq|]. by rewrite lookup_insert_ne by done. }
  eexists. split; [reflexivity|]. split_and!; [constructor|done|done|done|done]; unfold firstEntry; fields; try done; try apply Hi.
  - eapply chain_grow; [apply Hi|]. intros n c' Hn' Hc'. exists []. unfold d'. rewrite app_nil_r, lookup_insert_ne by lia. done.
  - split; lia.
  - by rewrite decide_False by lia.
  - rewrite Hf', decide_False, decide_True by lia. done.
  - exists []. unfold d'. by rewrite lookup_insert_eq.
  - intros n Hn'. rewrite Hf'. unfold d'. destruct (decide (n = headId t + 1)) as [->|Hne]; [rewrite lookup_insert_eq, decide_False by lia; done|].
    rewrite lookup_insert_ne by done. destruct (i_files _ _ _ Hi n) as [? ?]; [lia|]. split; [by case_decide|done].
  - intros n Hn'. rewrite Hf', !decide_False by lia. apply (i_after _ _ _ Hi). lia.
Qed.

(** The table and the batch together hold the items [xs], of which at least [n] are in the table. *)
Definition holding (n : nat) (off : Z) (s : freezerTableBatch * freezerTable) (xs : list (list Z)) : Prop :=
  exists bs es ps es', inv s.2 bs es /\ pend s.2 s.1 ps es' /\ xs = bs ++ ps /\ boffset s.1 = off /\ (n <= length bs)%nat.

Lemma u64_succ z : u64 (u64 z + 1) = u64 (z + 1).
Proof. unfold u64. by rewrite Zplus_mod_idemp_l. Qed.

Lemma maybeCommit_ok n off s xs :
  holding n off s xs -> itemOffset s.2 + len xs < 2 ^ 64 ->
  exists s', maybeCommit s = (None, s') /\ holding n off s' xs /\ kept s.2 s'.2 /\ headId s'.2 = headId s.2.
Proof.
  intros (bs & es & ps & es' & Hi & Hp & -> & Ho & Hn) Hl. destruct s as [b t]. unfold maybeCommit. cbn [fst snd] in *. destruct (_ <? _).
  - destruct (commit_ok t bs es b ps es') as (b' & t' & -> & Hi' & Hp' & Hk & Hb & Hh); [done..|]. exists (b', t'). split_and!; [done| |done|done].
    exists (bs ++ ps), (es ++ es'), [], []. cbn [fst snd]. rewrite app_nil_r. split_and!; [done|done|done|congruence|rewrite length_app; lia].
  - exists (b, t). split_and!; [done| |done|done]. by exists bs, es, ps, es'.
Qed.

Lemma putItem_ok n b t bs es ps es' data o :
  inv t bs es -> pend t b ps es' -> o = headBytes t + len (dataBuffer b) -> 0 <= o -> o + len data < 2 ^ 32 ->
  itemOffset t + len (bs ++ ps ++ [data]) < 2 ^ 64 -> (n <= length bs)%nat ->
  exists s', putItem data o (b, t) = (None, s') /\ holding n (boffset b) s' (bs ++ ps ++ [data]) /\ kept t s'.2 /\ headId s'.2 = headId t.
Proof.
  intros Hi Hp Ho H0 Hs Hl Hn. unfold putItem. assert (u32 (o + len data) = o + len data) as -> by (unfold u32; apply Z.mod_small; lia).
  apply (maybeCommit_ok n (boffset b) (_, t)); [|done]. exists bs, es, (ps ++ [data]), (es' ++ [mkEntry (headId t) (o + len data)]). cbn [fst snd boffset].
  split_and!; [done| |done|done|done]. pose proof (i_last _ _ _ Hi) as Hlast. pose proof (chain_last _ _ _ _ _ (i_chain _ _ _ Hi)). pose proof (i_first _ _ _ Hi) as [Hf _]. cbn in Hf.
  constructor; cbn [dataBuffer indexBuffer curItem boffset].
  - rewrite concat_app, (p_data _ _ _ _ Hp). cbn. by rewrite app_nil_r.
  - unfold appendEntry. rewrite fmap_app, concat_app, (p_index _ _ _ _ Hp). cbn [fmap list_fmap concat]. by rewrite app_nil_r.
  - apply run_app; [apply Hp| |split; cbn; lia]. rewrite <- (p_data _ _ _ _ Hp). by rewrite <- Ho.
  - rewrite (p_item _ _ _ _ Hp), u64_succ. f_equal. rewrite length_app. cbn. lia.
Qed.

Lemma appendItem_ok n off s xs data :
  holding n off s xs -> headId s.2 + 1 < 2 ^ 16 -> len data < 2 ^ 32 -> itemOffset s.2 + len (xs ++ [data]) < 2 ^ 64 ->
  exists s', appendItem data s = (None, s') /\ holding n off s' (xs ++ [data]) /\ kept s.2 s'.2 /\ headId s.2 <= headId s'.2 <= headId s.2 + 1.
Proof.
  intros (bs & es & ps & es' & Hi & Hp & -> & <- & Hn) Hh Hd Hl. destruct s as [b t]. cbn [fst snd] in *. unfold appendItem.
  pose proof (i_max _ _ _ Hi) as Hmax. pose proof (inv_bytes _ _ _ Hi) as Hb0. rewrite !length_app in Hl. cbn [length] in Hl.
  destruct (_ <? _) eqn:E.
  - destruct (commit_ok t bs es b ps es') as (b1 & t1 & -> & Hi1 & Hp1 & Hk1 & Hb1 & Hh1); [done|done|rewrite length_app; lia|].
    destruct (advanceHead_ok t1 (bs ++ ps) (es ++ es')) as (t2 & -> & Hi2 & Hk2 & Hh2 & Hb2 & Hn2); [done|lia|].
    assert (pend t2 b1 [] []) as Hp2. { destruct Hp1 as [? ? ? ?]. constructor; [done|done|done|congruence]. }
    destruct (putItem_ok n b1 t2 (bs ++ ps) (es ++ es') [] [] data 0) as (s' & -> & Hs' & Hk' & Hh'); [done|done| |lia|lia| |rewrite length_app; lia|].
    { rewrite (p_data _ _ _ _ Hp1), Hb2. done. }
    { destruct Hk2 as (-> & _), Hk1 as (-> & _). rewrite !length_app. cbn [length]. lia. }
    exists s'. split_and!; [done| | |lia|lia].
    + rewrite <- Hb1. by rewrite <- app_assoc in *.
    + destruct Hk1 as (? & ? & ? & ?), Hk2 as (? & ? & ? & ?), Hk' as (? & ? & ? & ?). split_and!; congruence.
  - destruct (putItem_ok n b t bs es ps es' data (headBytes t + len (dataBuffer b))) as (s' & -> & Hs' & Hk' & Hh'); [done|done|done|lia| | |done|].
    { apply Z.ltb_ge in E. lia. }
    { rewrite !length_app. cbn [length]. lia. }
    exists s'. rewrite <- app_assoc. split_and!; [done|done|done|lia|lia].
Qed.

Section Whole.
Context `{Snappy}.

(** An item as it is on disk. *)
Definition store (t : freezerTable) (x : list Z) : list Z := if noCompression t then x else snappyEncode x.

Lemma holding_cur n off s xs : holding n off s xs -> curItem s.1 = u64 (itemOffset s.2 + len xs + off).
Proof.
  intros (bs & es & ps & es' & Hi & Hp & -> & <- & _). rewrite (p_item _ _ _ _ Hp), (i_items _ _ _ Hi). f_equal. rewrite length_app. lia.
Qed.

Lemma AppendRaw_ok n off s xs x :
  holding n off s xs -> headId s.2 + 1 < 2 ^ 16 -> len (store s.2 x) < 2 ^ 32 -> itemOffset s.2 + len xs + 1 < 2 ^ 64 ->
  exists s', AppendRaw (u64 (itemOffset s.2 + len xs + off)) x s = (None, s') /\ holding n off s' (xs ++ [store s.2 x]) /\ kept s.2 s'.2 /\
    headId s.2 <= headId s'.2 <= headId s.2 + 1.
Proof.
  intros Hh Hf Hl Hm. pose proof (holding_cur n off s xs Hh) as Hc. destruct s as [b t]. cbn [fst snd] in *. unfold AppendRaw. rewrite Hc, Z.eqb_refl. cbn [negb].
  apply appendItem_ok; [done|done|done|]. rewrite length_app. cbn. lia.
Qed.

(** A batch: the items one after the other, with the numbers from [n] on, and the commit. *)
Fixpoint appendAll (n : Z) (xs : list (list Z)) (s : freezerTableBatch * freezerTable) : option fErr * (freezerTableBatch * freezerTable) :=
  match xs with
  | [] => commit s
  | x :: xs => match AppendRaw n x s with (Some e, s) => (Some e, s) | (None, s) => appendAll (u64 (n + 1)) xs s end
  end.

Lemma kept_trans t1 t2 t3 : kept t1 t2 -> kept t2 t3 -> kept t1 t3.
Proof. intros (? & ? & ? & ?) (? & ? & ? & ?). split_and!; congruence. Qed.

Lemma kept_store t t' x : kept t t' -> store t' x = store t x.
Proof. intros (_ & _ & E & _). unfold store. by rewrite E. Qed.

Lemma appendAll_ok n off xs s ys :
  holding n off s ys -> headId s.2 + len xs < 2 ^ 16 -> Forall (fun x => len (store s.2 x) < 2 ^ 32) xs -> itemOffset s.2 + len ys + len xs < 2 ^ 64 ->
  exists b' t' es, appendAll (u64 (itemOffset s.2 + len ys + off)) xs s = (None, (b', t')) /\ inv t' (ys ++ (store s.2 <$> xs)) es /\ kept s.2 t' /\
    headId s.2 <= headId t' <= headId s.2 + len xs.
Proof.
  revert s ys. induction xs as [|x xs IH]; intros s ys Hh Hf Hl Hm; cbn [appendAll].
  - destruct Hh as (bs & es & ps & es' & Hi & Hp & -> & Ho & _). destruct s as [b t]. cbn [fst snd fmap list_fmap] in *.
    destruct (commit_ok t bs es b ps es') as (b' & t' & -> & Hi' & _ & Hk & _ & Hh'); [done|done|cbn [length] in Hm; lia|].
    exists b', t', (es ++ es'). rewrite app_nil_r. split_and!; [done|done|done|lia|cbn; lia].
  - apply Forall_cons in Hl as [Hx Hl]. cbn [length] in *. destruct (AppendRaw_ok n off s ys x) as (s' & -> & Hh' & Hk & Hf'); [done|lia|done|lia|].
    pose proof Hk as (Ho & _). destruct (IH s' (ys ++ [store s.2 x])) as (b' & t' & es & E & Hi & Hk' & Hf''); [done|lia| | |].
    + eapply Forall_impl; [exact Hl|]. intros y. by rewrite (kept_store s.2).
    + rewrite Ho, length_app. cbn [length]. lia.
    + exists b', t', es. rewrite Ho, length_app in E. cbn [length] in E.
      replace (u64 (u64 (itemOffset s.2 + len ys + off) + 1)) with (u64 (itemOffset s.2 + Z.of_nat (length ys + 1) + off)) by (rewrite u64_succ; f_equal; lia).
      split_and!; [done| |by eapply kept_trans|lia|lia]. cbn [fmap list_fmap]. rewrite <- app_assoc in Hi.
      by rewrite (list_fmap_ext _ (store s.2)) in Hi by (intros ? ? _; by apply kept_store).
Qed.

Lemma holding_new t bs es off : inv t bs es -> holding (length bs) off (newBatch t off, t) bs.
Proof.
  intros Hi. exists bs, es, [], []. rewrite app_nil_r. split_and!; [done| |done|done|done]. constructor; [done|done|done|]. unfold newBatch, reset. fields. f_equal. cbn. lia.
Qed.

End Whole.

(** ** Reading *)

(** The items that fit into [max] bytes, the first in any case. *)
Fixpoint fit (max total : Z) (first : bool) (l : list (list Z)) : list (list Z) :=
  match l with
  | [] => []
  | b :: l => if negb first && (max <? total + len b) then [] else b :: fit max (total + len b) false l
  end.

(** The data read so far is at the start of the buffer. *)
Definition filled (o : outBuf) (r : list Z) : Prop := take (outputSize o) (output o) = r /\ outputSize o = length r.

Lemma readData_ok t o r f s u :
  filled o r -> stored (disk t) f s u -> is_Some (files t !! f) ->
  (length u <= length (output o))%nat /\ (length r + length u <= length (output o))%nat \/ r = [] ->
  exists o', readData t o f s (length u) = Ret (inl o') /\ filled o' (r ++ u) /\ (length (output o') = length (output o) \/ (length (output o) < length u)%nat).
Proof.
  intros [Hr Hn] Hs [m Hm] Hroom. unfold readData. rewrite Hm. pose proof Hs as (p & q & Hd & _). rewrite Hd. change (default [] (Some (p ++ u ++ q))) with (p ++ u ++ q).
  rewrite (readAt_stored _ _ _ _ _ Hs Hd). rewrite Hn. 
  destruct (decide (length (output o) < length u)%nat) as [Hlt|Hge].
  - destruct Hroom as [|E]; [lia|]. rewrite E. cbn [length Nat.add]. rewrite length_replicate, decide_False by lia. eexists. split; [done|].
    rewrite firstn_O, drop_ge by (rewrite length_replicate; lia). rewrite app_nil_r. cbn [app]. split; [split; cbn [output outputSize]; [by apply take_ge|done]|by right].
  - assert (length r + length u <= length (output o))%nat as Hroom' by (destruct Hroom as [|E]; [lia|rewrite E; cbn; lia]). rewrite decide_False by lia. eexists. split; [done|].
    rewrite Hn in Hr. rewrite Hr. split.
    + split; cbn [output outputSize]; [|by rewrite length_app]. rewrite app_assoc. apply take_app_length'. by rewrite length_app.
    + left. cbn [output]. rewrite !length_app, length_drop. lia.
Qed.

(** The state of the read loop: [r] is in the buffer, [u] is still to be read from [rs] on in file [f], where it ends at [o]. *)
Record reading (t : freezerTable) (max : Z) (first : bool) (out : outBuf) (r u : list Z) (f o rs : Z) : Prop := {
  r_filled : filled out r;
  r_unread : u = [] \/ stored (disk t) f rs u;
  r_pos : rs + len u = o;
  r_buf : length (output out) = Z.to_nat max;
  r_room : if first then r = [] /\ u = [] else len r + len u <= max
}.

Definition opened (t : freezerTable) (es : list indexEntry) : Prop := Forall (fun e => is_Some (files t !! filenum e)) es.

(** The deferred read at a file boundary. *)
Lemma flush_ok t max first out r u f o rs (cross : bool) :
  reading t max first out r u f o rs -> 0 <= max -> is_Some (files t !! f) \/ u = [] ->
  exists out' r', (if cross && bool_decide (0 < length u)%nat then readData t out f rs (length u) else Ret (inl out)) = Ret (inl out') /\
    filled out' r' /\ length (output out') = Z.to_nat max /\ r' = (if cross then r ++ u else r).
Proof.
  intros [Hf Hu Hp Hb Hr] Hmax Hfile. destruct cross; cbn [andb]; [|by exists out, r]. destruct u as [|x u0] eqn:Eu.
  { exists out, r. rewrite app_nil_r. done. }
  rewrite bool_decide_true by (cbn; lia). rewrite <- Eu in *. assert (u <> []) as Hne by by rewrite Eu. clear Eu. destruct Hfile as [Hfile|]; [|done].
  destruct Hu as [|Hs]; [done|]. destruct first; [by destruct Hr|]. destruct (readData_ok t out r f rs u Hf Hs Hfile) as (out' & -> & Hf' & Hlen).
  - left. rewrite Hb. lia.
  - exists out', (r ++ u). split_and!; [done|done|destruct Hlen; lia|done].
Qed.

Lemma readLoop_ok t max i out sizes r u f o rs bs es :
  chain (disk t) f o bs es -> opened t es -> is_Some (files t !! f) \/ u = [] -> 0 <= max -> bs <> [] ->
  reading t max (bool_decide (i = 0%nat)) out r u f o rs ->
  exists out', readLoop t max i (mkEntry f o) es out sizes (length r + length u) (length u) rs =
      Ret (inl (out', sizes ++ (length <$> fit max (len r + len u) (bool_decide (i = 0%nat)) bs))) /\
    filled out' (r ++ u ++ concat (fit max (len r + len u) (bool_decide (i = 0%nat)) bs)).
Proof.
  revert i out sizes r u f o rs es. induction bs as [|b bs IH]; intros i out sizes r u f o rs es Hc Hop Hfile Hmax Hne Hrd; [done|].
  destruct es as [|e es]; [done|]. cbn [chain] in Hc. destruct Hc as (Hfe & He & Hoff & Hst & Hc). apply Forall_cons in Hop as [Hope Hop].
  cbn [readLoop]. assert (bounds (mkEntry f o) e = (start f o e, offset e, filenum e)) as ->.
  { unfold bounds, start. cbn [filenum offset]. rewrite Z.eqb_sym. by destruct (_ =? _). }
  assert (Z.to_nat (u32 (offset e - start f o e)) = length b) as ->.
  { unfold u32. destruct He as [_ He]. rewrite Z.mod_small; [lia|]. destruct Hst as (p & q & _ & Hp). lia. }
  set (cross := negb (filenum e =? filenum (mkEntry f o))). assert (cross = negb (filenum e =? f)) as Hcr by done. clearbody cross.
  change (filenum (mkEntry f o)) with f.
  destruct (flush_ok t max _ out r u f o rs cross Hrd Hmax Hfile) as (out1 & r1 & -> & Hf1 & Hl1 & Hr1). cbn beta iota.
  set (u1 := if cross then [] else u). set (rs1 := if cross then 0 else rs).
  assert ((if cross then 0%nat else length u) = length u1) as -> by (unfold u1; by destruct cross).
  assert (r ++ u = r1 ++ u1) as Hru by (rewrite Hr1; unfold u1; destruct cross; [by rewrite app_nil_r|done]).
  assert (length r + length u = length r1 + length u1)%nat as Hlru by (apply (f_equal length) in Hru; by rewrite !length_app in Hru).
  replace (len r + len u) with (len r1 + len u1) by lia. rewrite Hlru. rewrite app_assoc, Hru.
  assert (stored (disk t) (filenum e) rs1 (u1 ++ b) /\ rs1 + len (u1 ++ b) = offset e /\ (u1 <> [] -> stored (disk t) (filenum e) rs1 u1)) as (Hst1 & Hpos1 & Hst0).
  { pose proof (r_pos _ _ _ _ _ _ _ _ _ Hrd) as Hpos. unfold u1, rs1, start in *. destruct (Z.eqb_spec (filenum e) f) as [->|Hnf]; subst cross; cbn [negb] in *.
    - rewrite length_app. destruct (r_unread _ _ _ _ _ _ _ _ _ Hrd) as [->|Hs]; [cbn [app length] in *; replace rs with o by lia; split_and!; [done|lia|done]|].
      split_and!; [|lia|done]. apply stored_app; [done|by rewrite Hpos].
    - cbn [app]. split_and!; [done|lia|done]. }
  pose proof (r_room _ _ _ _ _ _ _ _ _ Hrd) as Hroom. assert (bool_decide (0 < i)%nat = negb (bool_decide (i = 0%nat))) as ->.
  { repeat case_bool_decide; done || lia. }
  cbn [fit]. replace (Z.of_nat (length r1 + length u1 + length b)) with (len r1 + len u1 + len b) by lia. destruct (negb _ && _) eqn:Elim.
  - apply andb_prop in Elim as [Hfirst _]. apply negb_true_iff in Hfirst. rewrite Hfirst in Hroom. cbn [fmap list_fmap concat]. rewrite !app_nil_r.
    destruct u1 as [|x u2] eqn:Eu1; [exists out1; by rewrite app_nil_r|]. rewrite <- Eu1 in *. rewrite bool_decide_true by (rewrite Eu1; cbn; lia).
    destruct (readData_ok t out1 r1 (filenum e) rs1 u1) as (out2 & -> & Hf2 & _); [done|apply Hst0; by rewrite Eu1|done|left; rewrite Hl1; lia|]. by exists out2.
  - assert (length u1 + length b = length (u1 ++ b))%nat as -> by by rewrite length_app.
    assert (bool_decide (i = 0%nat) = true -> r1 = []) as Hr1'.
    { intros E. rewrite E in Hroom. destruct Hroom as [-> ->]. rewrite Hr1. by destruct cross. }
    assert (bool_decide (i = 0%nat) = false -> len r1 + len u1 + len b <= max) as Hfit.
    { intros E. rewrite E in Elim. cbn [negb andb] in Elim. lia. }
    destruct (bool_decide (es = []) || (max <? len r1 + len u1 + len b)) eqn:Eend.
    + assert (fit max (len r1 + len u1 + len b) false bs = []) as ->.
      { apply orb_prop in Eend as [E%bool_decide_eq_true|E]; [subst es; apply chain_length in Hc; by destruct bs|].
        destruct bs as [|b' bs]; [done|]. cbn [fit negb andb]. by rewrite (proj2 (Z.ltb_lt _ _)) by lia. }
      destruct (readData_ok t out1 r1 (filenum e) rs1 (u1 ++ b)) as (out2 & -> & Hf2 & _); [done|done|done| |].
      { destruct (bool_decide (i = 0%nat)); [right; by apply Hr1'|left]. specialize (Hfit eq_refl). rewrite Hl1, length_app. lia. }
      exists out2. cbn [fmap list_fmap concat]. rewrite app_nil_r. split; [done|]. by rewrite <- app_assoc.
    + apply orb_false_elim in Eend as [Ees%bool_decide_eq_false Elt]. 
      destruct (IH (S i) out1 (sizes ++ [length b]) r1 (u1 ++ b) (filenum e) (offset e) rs1 es) as (out2 & E2 & Hf2); [done|done|by left|done| | |].
      { intros ->. apply chain_length in Hc. by destruct es. }
      { constructor; [done|by right|done|done|]. rewrite bool_decide_false by lia. rewrite length_app. lia. }
      rewrite bool_decide_false in E2, Hf2 by lia. exists out2. destruct e as [fe oe]. cbn [filenum offset] in *.
      replace (len r1 + len (u1 ++ b)) with (len r1 + len u1 + len b) in E2, Hf2 by (rewrite length_app; lia).
      split; [|cbn [concat]; by rewrite <- !app_assoc in *]. cbn [fmap list_fmap]. rewrite <- app_assoc in E2.
      replace (length r1 + length u1 + length b)%nat with (length r1 + length (u1 ++ b))%nat by (rewrite length_app; lia). done.
Qed.

Lemma chain_range d f o bs es : chain d f o bs es -> Forall (fun e => f <= filenum e <= (endPos f o es).1) es.
Proof.
  revert f o es. induction bs as [|b bs IH]; intros f o [|e es]; try done. change (endPos f o (e :: es)) with (endPos (filenum e) (offset e) es).
  intros (Hf & _ & _ & _ & Hc). pose proof (chain_last _ _ _ _ _ Hc). constructor; [lia|]. eapply Forall_impl; [by eapply IH|]. cbn. lia.
Qed.

Lemma chain_split d f o bs es n :
  chain d f o bs es ->
  chain d f o (take n bs) (take n es) /\ chain d (endPos f o (take n es)).1 (endPos f o (take n es)).2 (drop n bs) (drop n es).
Proof.
  intros Hc. pose proof (chain_length _ _ _ _ _ Hc) as Hl. rewrite <- (take_drop n bs), <- (take_drop n es) in Hc. by apply chain_app in Hc; [|rewrite !length_take; lia].
Qed.

Lemma endPos_take f o es i e : es !! i = Some e -> endPos f o (take (S i) es) = (filenum e, offset e).
Proof. intros He. rewrite (take_S_r _ _ _ He). unfold endPos. by rewrite foldl_app. Qed.

(** Before the first item, the start of its file is as good as the start of the table. *)
Lemma chain_from_zero d f b bs e es : chain d f 0 (b :: bs) (e :: es) -> chain d (filenum e) 0 (b :: bs) (e :: es).
Proof.
  cbn [chain]. assert (forall f', start f' 0 e = 0) as Hs by (intros f'; unfold start; by destruct (_ =? _)). rewrite !Hs. intros (? & ? & ? & ? & ?). split_and!; (done || lia).
Qed.

(** ** Entries of a range *)

Lemma getIndices_ok t bs es i c :
  inv t bs es -> len bs < 2 ^ 40 -> (0 < c)%nat -> (i + c <= length bs)%nat ->
  exists p, getIndices t (itemOffset t + Z.of_nat i) (Z.of_nat c) = Ret (inl (p :: take c (drop i es))) /\
    chain (disk t) (filenum p) (offset p) (take c (drop i bs)) (take c (drop i es)).
Proof.
  intros Hi Hb Hc Hic. pose proof (chain_length _ _ _ _ _ (i_chain _ _ _ Hi)) as Hl. unfold getIndices, indexEntrySize, maxAlloc.
  replace (itemOffset t + Z.of_nat i - itemOffset t) with (Z.of_nat i) by lia. unfold u64. rewrite !(Z.mod_small (Z.of_nat i)) by lia.
  rewrite !(Z.mod_small (Z.of_nat c + 1)) by lia. rewrite !(Z.mod_small ((Z.of_nat c + 1) * 6)) by lia. rewrite (Z.mod_small (Z.of_nat i * 6)) by lia.
  rewrite (Z.mod_small (Z.of_nat i + Z.of_nat c)) by lia. rewrite (proj2 (Z.ltb_ge (2 ^ 48) _)) by lia.
  replace (i64 (Z.of_nat i * 6)) with (Z.of_nat (6 * i)) by (unfold i64; rewrite Z.mod_small by lia; lia).
  replace (Z.to_nat ((Z.of_nat c + 1) * 6)) with (6 * S c)%nat by lia. rewrite (i_index _ _ _ Hi).
  assert (readAt (concat (enc <$> firstEntry t :: es)) (6 * S c) (Z.of_nat (6 * i)) = (concat (enc <$> take (S c) (drop i (firstEntry t :: es))), None)) as ->.
  { unfold readAt. rewrite (proj2 (Z.ltb_ge _ _)) by lia. rewrite length_encs. cbn [length]. rewrite (proj2 (Z.leb_gt _ _)) by lia.
    rewrite Nat2Z.id, encs_drop, encs_take. rewrite decide_False; [done|]. rewrite length_encs, length_take, length_drop. cbn [length]. lia. }
  rewrite (proj2 (Z.ltb_ge (Z.of_nat i + Z.of_nat c) _)) by lia. rewrite Z.ltb_irrefl. replace (Z.to_nat (Z.of_nat c + 1)) with (S c) by lia.
  rewrite entriesOf_enc; [|apply Forall_take, Forall_drop; constructor; [apply Hi|by eapply chain_eOk, i_chain]|rewrite length_take, length_drop; cbn [length]; lia].
  rewrite take_take, Nat.min_id. destruct (chain_split _ _ _ _ _ i (i_chain _ _ _ Hi)) as [_ Hd]. destruct i as [|i].
  - rewrite !drop_0 in *. rewrite firstn_cons. destruct c as [|c]; [lia|]. destruct bs as [|b bs]; [cbn in Hic; lia|]. destruct es as [|e es]; [done|].
    rewrite firstn_cons. cbn [Z.of_nat Z.eqb]. exists (mkEntry (filenum e) 0). split; [done|]. rewrite firstn_O in Hd. cbn [endPos foldl fst snd] in Hd.
    destruct (chain_split _ _ _ _ _ (S c) (chain_from_zero _ _ _ _ _ _ Hd)) as [Ht _]. done.
  - rewrite skipn_cons. destruct (lookup_lt_is_Some_2 es i) as [e He]; [lia|]. rewrite (drop_S _ _ _ He), firstn_cons in *. rewrite (endPos_take _ _ _ _ _ He) in Hd. cbn [fst snd] in Hd.
    exists e. destruct (chain_split _ _ _ _ _ c Hd) as [Ht _]. split; [|done].
    destruct (take c (drop (S i) es)) as [|e' l] eqn:Ed.
    + apply (f_equal length) in Ed. rewrite length_take, length_drop in Ed. cbn in Ed. lia.
    + by rewrite (proj2 (Z.eqb_neq _ _)) by lia.
Qed.

Lemma opened_inv t bs es : inv t bs es -> opened t es.
Proof.
  intros Hi. eapply Forall_impl; [by eapply chain_range, i_chain|]. cbn. intros e He. apply (i_files _ _ _ Hi). pose proof (i_last _ _ _ Hi). lia.
Qed.

Lemma retrieveItems_ok t bs es i count max :
  inv t bs es -> len bs < 2 ^ 40 -> (i < length bs)%nat -> 0 < count < 2 ^ 63 -> 0 <= max <= maxAlloc ->
  let l := fit max 0 true (take (Z.to_nat count) (drop i bs)) in
  retrieveItems t (itemOffset t + Z.of_nat i) count max = Ret (inl (concat l, length <$> l)).
Proof.
  intros Hi Hb Hlt Hcount Hmax l. unfold retrieveItems. rewrite (i_open _ _ _ Hi), (i_head _ _ _ Hi). rewrite bool_decide_false by done. cbn [orb].
  pose proof (i_first _ _ _ Hi) as [_ Hoff]. cbn in Hoff. rewrite (i_items _ _ _ Hi). rewrite (proj2 (Z.leb_gt _ _)), (proj2 (Z.ltb_ge _ (itemOffset t))), (proj2 (Z.eqb_neq count 0)) by lia.
  cbn [orb]. unfold u64. rewrite (Z.mod_small (_ + count)) by lia. set (c := Nat.min (Z.to_nat count) (length bs - i)).
  assert ((if itemOffset t + len bs <? itemOffset t + Z.of_nat i + count then itemOffset t + len bs - (itemOffset t + Z.of_nat i) else count) = Z.of_nat c) as ->.
  { unfold c. destruct (Z.ltb_spec (itemOffset t + len bs) (itemOffset t + Z.of_nat i + count)); lia. }
  unfold makeBuffer. rewrite (proj2 (Z.ltb_ge _ _)) by lia. cbn beta iota.
  destruct (getIndices_ok t bs es i c Hi Hb ltac:(lia) ltac:(lia)) as (p & -> & Hch). cbn beta iota.
  assert (take (Z.to_nat count) (drop i bs) = take c (drop i bs)) as El.
  { unfold c. destruct (Nat.min_spec (Z.to_nat count) (length bs - i)) as [[_ ->]|[? ->]]; [done|]. rewrite !take_ge; [done|rewrite length_drop; lia..]. }
  destruct (readLoop_ok t max 0 (mkOut (replicate (Z.to_nat max) 0) 0) [] [] [] (filenum p) (offset p) (offset p) (take c (drop i bs)) (take c (drop i es))) as (out & E & Hf).
  - done.
  - apply Forall_take, Forall_drop. by eapply opened_inv.
  - by right.
  - lia.
  - intros E. apply (f_equal length) in E. rewrite length_take, length_drop in E. cbn in E. lia.
  - constructor; [done|by left|cbn; lia|apply length_replicate|done].
  - destruct p as [pf po]. cbn [filenum offset length Nat.add Z.add Z.of_nat app] in E, Hf. rewrite bool_decide_true in E, Hf by done. cbn [offset]. rewrite E. cbn beta iota.
    unfold l. rewrite El. destruct Hf as [-> _]. done.
Qed.

Lemma fit_prefix max total first l : fit max total first l = take (length (fit max total first l)) l.
Proof.
  revert total first. induction l as [|b l IH]; intros total first; [done|]. cbn [fit]. destruct (_ && _); [done|]. cbn [length]. rewrite firstn_cons. f_equal. apply IH.
Qed.

Section Items.
Context `{Snappy}.

Lemma sliceLoop_ok t max i xs total :
  sliceLoop t max i (concat (store t <$> xs)) (length <$> (store t <$> xs)) total = Ret (inl (fit max total (bool_decide (i = 0%nat)) xs)).
Proof.
  revert i total. induction xs as [|x xs IH]; intros i total; [done|]. cbn [fmap list_fmap concat sliceLoop fit].
  rewrite decide_False by (rewrite length_app; lia). rewrite take_app_length, drop_app_length.
  assert ((if noCompression t then len (store t x) else snappyDecodedLen (store t x)) = len x) as ->.
  { unfold store. destruct (noCompression t); [done|]. apply snappy_len_encode. }
  assert ((if noCompression t then Some (store t x) else snappyDecode (store t x)) = Some x) as ->.
  { unfold store. destruct (noCompression t); [done|]. apply snappy_decode_encode. }
  assert (bool_decide (0 < i)%nat = negb (bool_decide (i = 0%nat))) as -> by (repeat case_bool_decide; done || lia).
  destruct (_ && _); [done|]. rewrite IH. by rewrite bool_decide_false by lia.
Qed.

(** How many of the items from [i] on one read takes: those that fit on disk and then fit again. *)
Definition readable (t : freezerTable) (xs : list (list Z)) (i : nat) (count max : Z) : list (list Z) :=
  let avail := take (Z.to_nat count) (drop i xs) in
  fit max 0 true (take (length (fit max 0 true (store t <$> avail))) avail).

Lemma RetrieveItems_ok t xs es i count max :
  inv t (store t <$> xs) es -> len xs < 2 ^ 40 -> (i < length xs)%nat -> 0 < count <= 2 ^ 43 -> 0 <= max <= maxAlloc ->
  RetrieveItems t (itemOffset t + Z.of_nat i) count max = Ret (inl (readable t xs i count max)).
Proof.
  intros Hi Hb Hlt Hcount Hmax. unfold RetrieveItems. rewrite (retrieveItems_ok t (store t <$> xs) es) by (rewrite ?length_fmap; done || lia). cbn beta iota.
  unfold maxAlloc at 1. rewrite (proj2 (Z.ltb_ge _ _)) by lia. rewrite <- fmap_drop, <- fmap_take. unfold readable. cbv zeta.
  set (avail := take (Z.to_nat count) (drop i xs)). set (k := length (fit max 0 true (store t <$> avail))).
  assert (fit max 0 true (store t <$> avail) = store t <$> take k avail) as -> by (rewrite fmap_take; apply fit_prefix). by rewrite sliceLoop_ok.
Qed.

Lemma Retrieve_ok t xs es i x :
  inv t (store t <$> xs) es -> len xs < 2 ^ 40 -> xs !! i = Some x -> Retrieve t (itemOffset t + Z.of_nat i) = Ret (inl x).
Proof.
  intros Hi Hb Hx. unfold Retrieve. rewrite (RetrieveItems_ok t xs es); [|done|done|by eapply lookup_lt_Some|lia|unfold maxAlloc; lia]. unfold readable.
  rewrite (drop_S _ _ _ Hx). change (Z.to_nat 1) with 1%nat. rewrite firstn_cons, firstn_O. done.
Qed.

Lemma Retrieve_out t bs es n : inv t bs es -> ~ itemOffset t <= n < itemOffset t + len bs -> Retrieve t n = Ret (inr errOutOfBounds).
Proof.
  intros Hi Hn. unfold Retrieve, RetrieveItems, retrieveItems. rewrite (i_open _ _ _ Hi), (i_head _ _ _ Hi). rewrite bool_decide_false by done. cbn [orb].
  rewrite (i_items _ _ _ Hi). destruct (_ <=? n) eqn:E1; [done|]. destruct (n <? _) eqn:E2; [done|]. lia.
Qed.

End Items.

(** ** Truncation *)

Lemma resize_take n l : (n <= length l)%nat -> resize n l = take n l.
Proof. intros Hn. unfold resize. replace (n - length l)%nat with 0%nat by lia. apply app_nil_r. Qed.

(** Items before a cut stay where they are. *)
Lemma stored_take d d' n s b c m : stored d n s b -> d !! n = Some c -> d' !! n = Some (take m c) -> (Z.to_nat (s + len b) <= m)%nat -> stored d' n s b.
Proof.
  intros (p & q & E & Hp) Ec Ed Hm. rewrite E in Ec. injection Ec as <-. exists p, (take (m - length p - length b) q). split; [|done]. rewrite Ed. f_equal.
  rewrite !take_app. rewrite (take_ge p) by lia. rewrite (take_ge b) by lia. done.
Qed.

Lemma chain_mono d f o bs es : chain d f o bs es -> (endPos f o es).1 = f -> o <= (endPos f o es).2.
Proof.
  revert f o es. induction bs as [|b bs IH]; intros f o [|e es]; try done. change (endPos f o (e :: es)) with (endPos (filenum e) (offset e) es).
  intros (Hf & He & Hoff & Hs & Hc) E. pose proof (chain_last _ _ _ _ _ Hc) as Hge. assert (filenum e = f) as Ef by lia. rewrite Ef in *. specialize (IH _ _ _ Hc E).
  unfold start in Hoff. rewrite Ef, Z.eqb_refl in Hoff. lia.
Qed.

(** Cutting the last file after the last item. *)
Lemma chain_cut d d' f o bs es c :
  chain d f o bs es -> (forall n, n < (endPos f o es).1 -> d' !! n = d !! n) ->
  d !! (endPos f o es).1 = Some c -> d' !! (endPos f o es).1 = Some (take (Z.to_nat (endPos f o es).2) c) -> chain d' f o bs es.
Proof.
  revert f o es. induction bs as [|b bs IH]; intros f o [|e es]; try done. change (endPos f o (e :: es)) with (endPos (filenum e) (offset e) es).
  intros (Hf & He & Hoff & Hs & Hc) Hlt Hd Hd'. split_and!; [done|done|done| |by apply IH].
  pose proof (chain_last _ _ _ _ _ Hc) as Hge. destruct (decide ((endPos (filenum e) (offset e) es).1 = filenum e)) as [E|Hne].
  - rewrite <- E. rewrite <- E in Hs. eapply stored_take; [exact Hs|done|done|]. rewrite <- Hoff. pose proof (chain_mono _ _ _ _ _ Hc E). destruct He. lia.
  - destruct Hs as (p & q & Ep & Hp). exists p, q. split; [|done]. by rewrite Hlt by lia.
Qed.

(** The last file is as long as the last entry says at least. *)
Lemma chain_size d f o bs es c : chain d f o bs es -> es <> [] -> d !! (endPos f o es).1 = Some c -> 0 <= (endPos f o es).2 <= len c.
Proof.
  revert f o es. induction bs as [|b bs IH]; intros f o [|e es]; try done. change (endPos f o (e :: es)) with (endPos (filenum e) (offset e) es).
  intros (Hf & He & Hoff & Hs & Hc) _ Hd. destruct es as [|e' es]; [|by apply (IH _ _ _ Hc)]. cbn [endPos foldl fst snd] in *.
  destruct Hs as (p & q & Ep & Hp). rewrite Ep in Hd. injection Hd as <-. rewrite !length_app. lia.
Qed.

(** The entry that ends the first [n] items. *)
Lemma entry_at t es n : itemOffset t = 0 -> (n <= length es)%nat ->
  exists e, (firstEntry t :: es) !! n = Some e /\ endPos (tailId t) 0 (take n es) = (filenum e, offset e).
Proof.
  intros H0 Hn. destruct n as [|n]; [exists (firstEntry t); split; [done|]; unfold firstEntry; by rewrite H0|].
  destruct (lookup_lt_is_Some_2 es n) as [e He]; [lia|]. exists e. split; [done|]. by apply endPos_take.
Qed.

Lemma readAt_entry l n e : Forall eOk l -> l !! n = Some e -> readAt (concat (enc <$> l)) 6 (Z.of_nat (6 * n)) = (enc e, None).
Proof.
  intros Hl He. pose proof (lookup_lt_Some _ _ _ He). unfold readAt. rewrite (proj2 (Z.ltb_ge _ _)) by lia. rewrite length_encs. rewrite (proj2 (Z.leb_gt _ _)) by lia.
  rewrite Nat2Z.id, encs_drop, (drop_S _ _ _ He). cbn [fmap list_fmap concat]. rewrite take_app_length' by (by rewrite length_enc). by rewrite length_enc, decide_False by lia.
Qed.

Lemma readInto_at buffer l n e : length buffer = 6%nat -> Forall eOk l -> l !! n = Some e -> readInto buffer (concat (enc <$> l)) (Z.of_nat (6 * n)) = enc e.
Proof.
  intros Hb Hl He. unfold readInto. rewrite Hb, (readAt_entry _ n e) by done. cbn [fst]. rewrite length_enc, drop_ge by lia. apply app_nil_r.
Qed.

(** The open files are those from the tail to the head. *)
Record filesOk (t : freezerTable) : Prop := {
  f_head : head t = Some (headId t);
  f_headfile : files t !! headId t = Some true;
  f_files : forall n, tailId t <= n <= headId t -> is_Some (files t !! n) /\ is_Some (disk t !! n);
  f_after : forall n, headId t < n -> files t !! n = None
}.

Lemma backTo_ok t e :
  filesOk t -> tailId t <= e <= headId t ->
  exists t', backTo e t = (inl tt, t') /\ kept t t' /\ index t' = index t /\ closed t' = closed t /\ readonly t' = readonly t /\ headId t' = e /\
    (forall m, m <= e -> disk t' !! m = disk t !! m) /\ filesOk t'.
Proof.
  intros Hi He. unfold backTo, andThen, gets, modify. destruct (Z.eqb_spec e (headId t)) as [->|Hne]; cbn [negb].
  - by exists t.
  - destruct (f_files _ Hi e) as [_ [c Hc]]; [lia|]. unfold openFile. fields. rewrite lookup_delete_eq. fields. rewrite Hc. change (default [] (Some c)) with c.
    unfold releaseFilesAfter. fields. rewrite (insert_id (disk t) e c Hc). rewrite insert_delete_eq.
    set (f := <[e := true]> (files t)). set (after := filter (fun kv => e < kv.1) f).
    assert (forall m, after !! m = if decide (e < m) then files t !! m else None) as Ha.
    { intros m. unfold after. case_decide as Hm.
      - unfold f. destruct (files t !! m) as [x|] eqn:Ex.
        + apply map_lookup_filter_Some. split; [by rewrite lookup_insert_ne by lia|done].
        + apply map_lookup_filter_None. left. by rewrite lookup_insert_ne by lia.
      - apply map_lookup_filter_None. right. intros x _. done. }
    assert (forall m, m <= e -> (disk t ∖ ((fun _ => []) <$> after)) !! m = disk t !! m) as Hd.
    { intros m Hm. destruct (disk t !! m) as [x|] eqn:Ex.
      - apply lookup_difference_Some. split; [done|]. rewrite lookup_fmap, Ha, decide_False by lia. done.
      - apply lookup_difference_None. by left. }
    assert ((f ∖ after) !! e = Some true) as Hfe.
    { apply lookup_difference_Some. unfold f at 1. rewrite lookup_insert_eq, Ha, decide_False by lia. done. }
    eexists. split; [reflexivity|]. fields. split_and!; try done. constructor; fields; [done|done| |].
    + intros m Hm. destruct (f_files _ Hi m) as [[x Hx] ?]; [lia|]. split; [|by rewrite Hd by lia]. destruct (decide (m = e)) as [->|]; [by rewrite Hfe|].
      exists x. apply lookup_difference_Some. unfold f at 1. rewrite lookup_insert_ne, Ha, decide_False by (done || lia). done.
    + intros m Hm. apply lookup_difference_None. rewrite Ha, decide_True by done. unfold f. rewrite lookup_insert_ne by lia. destruct (files t !! m); [right; by eexists|by left].
Qed.

Lemma inv_filesOk t bs es : inv t bs es -> filesOk t.
Proof. intros Hi. constructor; apply Hi. Qed.

(** The head file is cut to the end of the last item. *)
Lemma cut_ok t t0 bs es n o :
  filesOk t -> closed t = false -> readonly t = false -> index t = concat (enc <$> firstEntry t :: es) -> eOk (firstEntry t) -> itemOffset t = 0 ->
  0 <= maxFileSize t < 2 ^ 32 -> chain t0 (tailId t) 0 bs es -> endPos (tailId t) 0 es = (headId t, o) -> headId t < 2 ^ 16 -> n = len bs ->
  (forall m, m <= headId t -> disk t !! m = t0 !! m) ->
  exists t', (do! _ := truncateHead o in modify (fun t => setCounters t n o (headId t))) t = (inl tt, t') /\
    inv t' bs es /\ kept t t' /\ headId t' = headId t.
Proof.
  intros Hf Hcl Hro Hidx Hfirst H0 Hmax Hch Hend Hh16 -> Hd. destruct (f_files _ Hf (headId t)) as [_ [c Hc]].
  { pose proof (chain_last _ _ _ _ _ Hch) as Hge. rewrite Hend in Hge. cbn [fst] in Hge. lia. }
  unfold andThen, truncateHead, writable, modify. rewrite (f_head _ Hf), (f_headfile _ Hf). fields. rewrite Hc. change (default [] (Some c)) with c.
  assert (0 <= o <= len c) as Hsz.
  { replace o with (endPos (tailId t) 0 es).2 by by rewrite Hend. destruct (decide (es = [])) as [->|Hne]; [cbn; lia|].
    apply (chain_size _ _ _ _ _ _ Hch Hne). rewrite Hend. cbn [fst]. rewrite <- Hd by lia. done. }
  rewrite resize_take by lia. eexists. split; [reflexivity|]. split_and!; [constructor|done..]; unfold firstEntry; fields; try done; try apply Hf.
  - apply (chain_cut t0 _ _ _ _ _ c Hch); rewrite Hend; cbn [fst snd].
    + intros m Hm. rewrite lookup_insert_ne by lia. apply Hd. lia.
    + rewrite <- Hd by lia. done.
    + by rewrite lookup_insert_eq.
  - rewrite Hend. cbn [fst]. lia.
  - rewrite Hend. cbn [fst snd]. by rewrite decide_True.
  - eexists. rewrite lookup_insert_eq. split; [done|]. rewrite length_take. lia.
  - intros m Hm. split; [by apply (f_files _ Hf)|]. destruct (decide (m = headId t)) as [->|]; [by rewrite lookup_insert_eq|]. rewrite lookup_insert_ne by done. by apply (f_files _ Hf).
  - rewrite H0. lia.
Qed.

Lemma truncate_ok t bs es n :
  inv t bs es -> itemOffset t = 0 -> len bs < 2 ^ 40 -> 0 <= n ->
  exists t' es', truncate n t = (inl tt, t') /\ inv t' (take (Z.to_nat n) bs) es' /\ kept t t' /\ headId t' <= headId t.
Proof.
  intros Hi H0 Hb Hn. unfold truncate, andThen at 1, gets at 1. rewrite (i_items _ _ _ Hi), H0. destruct (Z.leb_spec (0 + len bs) n) as [Hle|Hlt].
  { exists t, es. rewrite take_ge by lia. split_and!; [done|done|done|lia]. }
  unfold andThen at 1, gets at 1. rewrite (i_open _ _ _ Hi). pose proof (chain_length _ _ _ _ _ (i_chain _ _ _ Hi)) as Hl.
  pose proof (chain_eOk _ _ _ _ _ (i_chain _ _ _ Hi)) as HeOk. set (k := Z.to_nat n).
  assert (i64 (i64 (u64 (n + 1)) * indexEntrySize) = Z.of_nat (6 * S k)) as ->.
  { unfold indexEntrySize, u64. rewrite (Z.mod_small (n + 1)) by lia. unfold i64. rewrite (Z.mod_small (n + 1 + 2 ^ 63)) by lia. rewrite Z.mod_small by lia. lia. }
  assert (i64 (u64 (n * indexEntrySize)) = Z.of_nat (6 * k)) as ->.
  { unfold indexEntrySize, u64. rewrite (Z.mod_small (n * 6)) by lia. unfold i64. rewrite Z.mod_small by lia. lia. }
  unfold andThen at 1, truncateIndex. rewrite (proj2 (Z.ltb_ge _ _)) by lia. rewrite (i_rw _ _ _ Hi). cbn [orb]. rewrite Nat2Z.id.
  unfold andThen at 1, gets at 1. fields. rewrite (i_index _ _ _ Hi). rewrite resize_take by (rewrite length_encs; cbn [length]; lia). rewrite encs_take, firstn_cons.
  destruct (entry_at t es k H0 ltac:(lia)) as (e & He & Hend).
  assert (firstEntry t :: take k es = take (S k) (firstEntry t :: es)) as Et by done.
  rewrite (readAt_entry _ k e); [|rewrite Et; apply Forall_take; constructor; [apply Hi|done]|rewrite Et; by rewrite lookup_take_lt by lia].
  assert (eOk e) as Heok. { assert (Forall eOk (firstEntry t :: es)) as Hall by (constructor; [apply Hi|done]). rewrite Forall_lookup in Hall. by apply (Hall k). }
  rewrite unmarshal_enc_nil by done. set (t1 := setIndex t _).
  destruct (chain_split _ _ _ _ _ k (i_chain _ _ _ Hi)) as [Hct _]. pose proof (chain_last _ _ _ _ _ Hct) as Hge. rewrite Hend in Hge. cbn [fst] in Hge.
  assert (filenum e <= headId t) as Hle.
  { pose proof (i_last _ _ _ Hi) as Hlast. destruct (chain_split _ _ _ _ _ k (i_chain _ _ _ Hi)) as [_ Hcd]. apply chain_last in Hcd.
    rewrite <- endPos_app, take_drop, Hend in Hcd. cbn [fst] in Hcd. lia. }
  destruct (backTo_ok t1 (filenum e)) as (t2 & E2 & (K1 & K2 & K3 & K4) & Hidx2 & Hcl2 & Hro2 & Hh2 & Hd2 & Hf2); [by destruct (inv_filesOk _ _ _ Hi); constructor|done|].
  unfold andThen at 1. rewrite E2. change (itemOffset t1) with (itemOffset t) in K1. change (tailId t1) with (tailId t) in K2. change (noCompression t1) with (noCompression t) in K3.
  change (maxFileSize t1) with (maxFileSize t) in K4.
  destruct (cut_ok t2 (disk t) (take k bs) (take k es) n (offset e)) as (t3 & E3 & Hi3 & (J1 & J2 & J3 & J4) & Hh3); rewrite ?K1, ?K2, ?K4, ?Hcl2, ?Hro2, ?Hh2; try done; try apply Hi.
  - rewrite Hidx2. unfold firstEntry. by rewrite K1, K2.
  - unfold firstEntry. rewrite K1, K2. apply Hi.
  - destruct Heok. lia.
  - rewrite length_take. lia.
  - exists t3, (take k es). split_and!; [exact E3|done|..]; [split_and!; congruence|]. rewrite Hh3, Hh2. done.
Qed.

(** ** Reopening after a crash *)

(** Settings that the loop does not touch. *)
Definition keeps (t t' : freezerTable) : Prop :=
  kept t t' /\ items t' = items t /\ headId t' = headId t /\ headBytes t' = headBytes t.

Lemma table_keeps_trans t1 t2 t3 : keeps t1 t2 -> keeps t2 t3 -> keeps t1 t3.
Proof. intros (Ha & ? & ? & ?) (Hb & ? & ? & ?). split; [by eapply kept_trans|]. split_and!; congruence. Qed.

Lemma setFiles_same t : setFiles t (disk t) (files t) = t.
Proof. by destruct t. Qed.

Lemma openRange_ok n num t :
  (forall m, num <= m < num + Z.of_nat n -> is_Some (disk t !! m)) ->
  exists f', openRange num n t = (inl tt, setFiles t (disk t) f') /\
    forall m, f' !! m = if decide (num <= m < num + Z.of_nat n) then Some (default false (files t !! m)) else files t !! m.
Proof.
  revert num t. induction n as [|n IH]; intros num t Hd; cbn [openRange].
  { exists (files t). rewrite setFiles_same. split; [done|]. intros m. by rewrite decide_False by lia. }
  unfold andThen. assert (exists f1, openFile num ForReadOnly t = (inl num, setFiles t (disk t) f1) /\
    forall m, f1 !! m = if decide (m = num) then Some (default false (files t !! m)) else files t !! m) as (f1 & -> & Hf1).
  { unfold openFile. destruct (files t !! num) as [x|] eqn:Ex.
    - exists (files t). rewrite setFiles_same. split; [done|]. intros m. case_decide; [subst m; by rewrite Ex|done].
    - destruct (Hd num) as [c ->]; [lia|]. eexists. split; [done|]. intros m. case_decide as Em; [subst m; by rewrite lookup_insert_eq, Ex|by rewrite lookup_insert_ne by done]. }
  destruct (IH (num + 1) (setFiles t (disk t) f1)) as (f' & -> & Hf'); [intros m Hm; apply Hd; lia|]. exists f'. split; [done|].
  intros m. rewrite Hf'. cbn [setFiles files]. rewrite Hf1. repeat case_decide; subst; done || lia.
Qed.

(** What [preopen] leaves open. *)
Lemma preopen_ok t e :
  files t = {[e := true]} -> headId t = e -> readonly t = false -> 0 <= tailId t <= e -> (forall m, tailId t <= m <= e -> is_Some (disk t !! m)) ->
  exists t', preopen t = (inl tt, t') /\ filesOk t' /\ disk t' = disk t /\ index t' = index t /\ keeps t t' /\ closed t' = closed t /\ readonly t' = false.
Proof.
  intros Hf He Hro Ht Hd. unfold preopen. unfold andThen at 1, modify at 1, releaseFilesAfter. rewrite Hf.
  set (f0 := {[e := true]} ∖ filter (fun kv => 0 < kv.1) {[e := true]}).
  assert (forall m, f0 !! m = if decide (m = e /\ e = 0) then Some true else None) as Hf0.
  { intros m. unfold f0. case_decide as Em.
    - destruct Em as [-> ->]. apply lookup_difference_Some. split; [by rewrite lookup_singleton_eq|]. apply map_lookup_filter_None. right. cbn. lia.
    - apply lookup_difference_None. destruct (decide (m = e)) as [->|Hne]; [right; exists true; apply map_lookup_filter_Some; split; [by rewrite lookup_singleton_eq|cbn; lia]|].
      left. by rewrite lookup_singleton_ne. }
  unfold andThen at 1, gets at 1, id. set (t1 := setFiles t (disk t) f0). change (tailId t1) with (tailId t). change (headId t1) with (headId t). rewrite He.
  destruct (openRange_ok (Z.to_nat (e - tailId t)) (tailId t) t1) as (f1 & E1 & Hf1); [intros m Hm; apply Hd; lia|].
  unfold andThen at 1. rewrite E1. change (readonly t1) with (readonly t). rewrite Hro. set (t2 := setFiles t1 (disk t1) f1).
  destruct (Hd e) as [c Hc]; [lia|].
  assert (exists f2, openFile e ForAppend t2 = (inl e, setFiles t2 (disk t) f2) /\ f2 !! e = Some true /\ forall m, m <> e -> f2 !! m = f1 !! m) as (f2 & E2 & Hfe & Hf2).
  { unfold openFile. change (files t2) with f1. change (disk t2) with (disk t). change (files t1) with f0 in Hf1. rewrite Hf1, decide_False by lia. rewrite Hf0. destruct (decide (e = e /\ e = 0)) as [E0|E0].
    - exists f1. split_and!; [reflexivity|by rewrite Hf1, decide_False, Hf0, decide_True by (done || lia)|done].
    - exists (<[e := true]> f1). rewrite Hc. change (default [] (Some c)) with c. rewrite (insert_id _ _ _ Hc). split_and!; [done|by rewrite lookup_insert_eq|].
      intros m Hm. by rewrite lookup_insert_ne by done. }
  unfold andThen. rewrite E2. unfold modify. eexists. split; [reflexivity|]. change (files t1) with f0 in Hf1. split_and!; [constructor|done..]; unfold t2, t1; fields; rewrite ?He; try done.
  - intros m Hm. split; [|by apply Hd]. destruct (decide (m = e)) as [->|Hne]; [by rewrite Hfe|]. rewrite Hf2, Hf1, decide_True by (done || lia). done.
  - intros m Hm. rewrite Hf2, Hf1, decide_False by lia. rewrite Hf0, decide_False by lia. done.
Qed.

Section Repair.
Variables (T0 : Z) (d : gmap Z (list Z)) (bs : list (list Z)) (es : list indexEntry) (c' : list Z).
Hypothesis Hfirst : eOk (mkEntry T0 0).
Hypothesis Hchain : chain d T0 0 bs es.
Hypothesis Hfiles : forall n, T0 <= n <= (endPos T0 0 es).1 -> is_Some (d !! n).

Definition lastFile : Z := (endPos T0 0 es).1.

(** What is left of the last file agrees with it as far as both go. *)
Hypothesis Hlast : c' `prefix_of` default [] (d !! lastFile) \/ default [] (d !! lastFile) `prefix_of` c'.

(** The end of the first [j] items, as an index entry. *)
Definition endOf (j : nat) : indexEntry := mkEntry (endPos T0 0 (take j es)).1 (endPos T0 0 (take j es)).2.

Definition entries (j : nat) : list indexEntry := mkEntry T0 0 :: take j es.

Lemma endOf_S j e : es !! j = Some e -> endOf (S j) = e.
Proof. intros He. unfold endOf. rewrite (endPos_take _ _ _ _ _ He). by destruct e. Qed.

Lemma endOf_ok j : eOk (endOf j).
Proof.
  destruct j as [|j]; [done|]. destruct (es !! j) as [e|] eqn:He.
  - rewrite (endOf_S _ _ He). pose proof (chain_eOk _ _ _ _ _ Hchain) as Hall. rewrite Forall_lookup in Hall. by apply (Hall j).
  - apply lookup_ge_None in He. unfold endOf. rewrite take_ge by lia. destruct es as [|e l] eqn:El using rev_ind; [done|].
    unfold endPos. rewrite foldl_app. cbn. pose proof (chain_eOk _ _ _ _ _ Hchain) as Hall. apply Forall_app in Hall as [_ Hall]. rewrite Forall_singleton in Hall. by destruct e.
Qed.

Lemma entries_ok j : Forall eOk (entries j).
Proof. constructor; [done|]. apply Forall_take. by eapply chain_eOk. Qed.

Lemma entries_last j : (j <= length es)%nat -> entries j !! j = Some (endOf j).
Proof.
  intros Hj. unfold entries. destruct j as [|j]; [done|]. destruct (lookup_lt_is_Some_2 es j) as [e He]; [lia|]. cbn [lookup list_lookup].
  change (take (S j) es !! j = Some (endOf (S j))). rewrite lookup_take_lt by lia. by rewrite He, (endOf_S _ _ He).
Qed.

Lemma endOf_range j : T0 <= filenum (endOf j) <= lastFile.
Proof.
  destruct (chain_split _ _ _ _ _ j Hchain) as [Ht Hd]. apply chain_last in Ht, Hd. rewrite <- endPos_app, take_drop in Hd. done.
Qed.

(** A file that was not damaged is long enough. *)
Lemma endOf_fits j c : filenum (endOf j) < lastFile -> d !! filenum (endOf j) = Some c -> 0 <= offset (endOf j) <= len c.
Proof.
  intros Hlt Hc. destruct (chain_split _ _ _ _ _ j Hchain) as [Ht _]. destruct (decide (take j es = [])) as [E|Hne]; [unfold endOf; rewrite E; cbn; lia|].
  by apply (chain_size _ _ _ _ _ c Ht Hne).
Qed.

(** The table while entries are dropped, with [j] items left. *)
Record rstate (t : freezerTable) (j : nat) : Prop := {
  s_idx : index t = concat (enc <$> entries j);
  s_rw : readonly t = false;
  s_open : closed t = false;
  s_files : files t = {[filenum (endOf j) := true]};
  s_head : head t = Some (filenum (endOf j));
  s_low : forall n, n < lastFile -> disk t !! n = d !! n;
  s_last : default [] (disk t !! lastFile) = c';
  s_here : is_Some (disk t !! filenum (endOf j))
}.

(** The table when the head file ends where the last entry says. *)
Record rdone (t : freezerTable) (j : nat) : Prop := {
  e_idx : index t = concat (enc <$> entries j);
  e_rw : readonly t = false;
  e_open : closed t = false;
  e_files : files t = {[filenum (endOf j) := true]};
  e_low : forall n, n < filenum (endOf j) -> disk t !! n = d !! n;
  e_here : exists c, d !! filenum (endOf j) = Some c /\ disk t !! filenum (endOf j) = Some (take (Z.to_nat (offset (endOf j))) c) /\ offset (endOf j) <= len c
}.

Lemma content_take j t : (j <= length es)%nat -> rstate t j -> offset (endOf j) <= sizeOf (filenum (endOf j)) t ->
  exists c, d !! filenum (endOf j) = Some c /\ offset (endOf j) <= len c /\
    take (Z.to_nat (offset (endOf j))) (default [] (disk t !! filenum (endOf j))) = take (Z.to_nat (offset (endOf j))) c.
Proof.
  intros Hj Hs Hle. pose proof (endOf_range j) as Hr. destruct (Hfiles (filenum (endOf j))) as [c Hc]; [unfold lastFile in Hr; lia|]. exists c. split; [done|].
  unfold sizeOf in Hle. destruct (decide (filenum (endOf j) = lastFile)) as [E|Hne].
  - rewrite E in *. rewrite (s_last _ _ Hs) in *. rewrite Hc in Hlast. change (default [] (Some c)) with c in Hlast.
    assert (offset (endOf j) <= len c) as Hlc.
    { destruct (chain_split _ _ _ _ _ j Hchain) as [Ht _]. destruct (decide (take j es = [])) as [En|Hn]; [unfold endOf; rewrite En; cbn; lia|].
      apply (chain_size _ _ _ _ _ c Ht Hn). change (d !! filenum (endOf j) = Some c). by rewrite E. }
    split; [done|]. destruct (endOf_ok j) as [_ Ho]. destruct Hlast as [[k ->]|[k ->]]; rewrite take_app_le by lia; done.
  - rewrite (s_low _ _ Hs) by lia. rewrite Hc. change (default [] (Some c)) with c. split; [|done]. apply endOf_fits; [lia|done].
Qed.

(** The head file is long enough: what is too much is cut off. *)
Lemma repair_cut j t : (j <= length es)%nat -> rstate t j -> offset (endOf j) <= sizeOf (filenum (endOf j)) t ->
  exists t', (if offset (endOf j) =? sizeOf (filenum (endOf j)) t then (inl tt, t) else truncateHead (offset (endOf j)) t) = (inl tt, t') /\ rdone t' j /\ keeps t t'.
Proof.
  intros Hj Hs Hle. destruct (content_take j t Hj Hs Hle) as (c & Hc & Hlc & Htk). destruct (s_here _ _ Hs) as [x Hx]. unfold sizeOf in *. rewrite Hx in *.
  change (default [] (Some x)) with x in *. destruct (endOf_ok j) as [_ Ho]. pose proof (endOf_range j) as Hr.
  destruct (Z.eqb_spec (offset (endOf j)) (len x)) as [E|Hne].
  - exists t. split_and!; [done| |done]. constructor; try apply Hs; [intros n Hn; apply (s_low _ _ Hs); lia|]. exists c. split_and!; [done| |done].
    rewrite Hx, <- Htk. by rewrite take_ge by lia.
  - unfold truncateHead, writable. rewrite (s_head _ _ Hs), (s_files _ _ Hs), lookup_singleton_eq, Hx. change (default [] (Some x)) with x. rewrite resize_take by lia.
    eexists. split; [done|]. split; [|done]. constructor; fields; try done; try apply Hs.
    + intros n Hn. rewrite lookup_insert_ne by lia. apply (s_low _ _ Hs). lia.
    + exists c. rewrite lookup_insert_eq. split_and!; [done|by rewrite Htk|done].
Qed.

Lemma readInto_entry buffer j : length buffer = 6%nat -> (j <= length es)%nat ->
  readInto buffer (concat (enc <$> entries j)) (Z.of_nat (6 * j)) = enc (endOf j).
Proof. intros Hb Hj. apply readInto_at; [done|apply entries_ok|by apply entries_last]. Qed.

(** Dropping the last entry, and going back to an earlier file if it was the first there. *)
Lemma repair_drop j t buffer : (S j <= length es)%nat -> length buffer = 6%nat -> rstate t (S j) ->
  exists t', dropEntry (endOf (S j)) (Z.of_nat (6 * S (S j))) (sizeOf (filenum (endOf (S j))) t) buffer t =
      (inl (endOf j, sizeOf (filenum (endOf j)) t', enc (endOf j)), t') /\ rstate t' j /\ keeps t t'.
Proof.
  intros Hj Hb Hs. unfold dropEntry. unfold andThen at 1, truncateIndex, indexEntrySize. rewrite (proj2 (Z.ltb_ge _ _)) by lia. rewrite (s_rw _ _ Hs). cbn [orb].
  replace (Z.of_nat (6 * S (S j)) - 6) with (Z.of_nat (6 * S j)) by lia. rewrite Nat2Z.id. replace (Z.of_nat (6 * S j) - 6) with (Z.of_nat (6 * j)) by lia.
  unfold andThen at 1, gets at 1. fields. rewrite (s_idx _ _ Hs). assert (take (S j) (entries (S j)) = entries j) as Et.
  { unfold entries. rewrite firstn_cons. by rewrite take_take, Nat.min_l by lia. }
  rewrite resize_take by (rewrite length_encs; unfold entries; cbn [length]; rewrite length_take; lia). rewrite encs_take, Et.
  rewrite readInto_entry by (done || lia). cbv zeta. rewrite unmarshal_enc_nil by apply endOf_ok.
  destruct (Z.eqb_spec (filenum (endOf j)) (filenum (endOf (S j)))) as [E|Hne]; cbn [negb].
  - unfold andThen, gets, done_. exists (setIndex t (concat (enc <$> entries j))). rewrite E. split; [reflexivity|]. split; [|done]. constructor; fields; rewrite ?E; try done; apply Hs.
  - unfold andThen, modify, gets, done_, openFile. fields. rewrite (s_files _ _ Hs). rewrite delete_singleton_eq, lookup_empty. fields.
    eexists. split; [reflexivity|]. split; [|done]. pose proof (endOf_range j) as Hr.
    assert (forall n, default [] (<[filenum (endOf j) := default [] (disk t !! filenum (endOf j))]> (disk t) !! n) = default [] (disk t !! n)) as Hd.
    { intros n. destruct (decide (n = filenum (endOf j))) as [->|]; [by rewrite lookup_insert_eq|by rewrite lookup_insert_ne by done]. }
    constructor; fields; [done|apply Hs|apply Hs|done|done| | |].
    + intros n Hn. destruct (decide (n = filenum (endOf j))) as [->|]; [|rewrite lookup_insert_ne by done; by apply (s_low _ _ Hs)].
      rewrite lookup_insert_eq, (s_low _ _ Hs) by done. destruct (Hfiles (filenum (endOf j))) as [x ->]; [unfold lastFile in Hr; lia|]. done.
    + rewrite Hd. apply Hs.
    + by rewrite lookup_insert_eq.
Qed.

Lemma repairLoop_ok j t fuel buffer :
  (j <= length es)%nat -> length buffer = 6%nat -> rstate t j -> (j < fuel)%nat ->
  exists t' j', repairLoop fuel (endOf j) (Z.of_nat (6 * S j)) (sizeOf (filenum (endOf j)) t) buffer t =
      (inl (Z.of_nat (6 * S j'), offset (endOf j'), endOf j'), t') /\
    rdone t' j' /\ keeps t t' /\ (j' <= j)%nat /\
    ((j' < j)%nat -> filenum (endOf (S j')) = lastFile /\ len c' < offset (endOf (S j'))).
Proof.
  revert t fuel buffer. induction j as [|j IH]; intros t fuel buffer Hj Hb Hs Hf; (destruct fuel as [|fuel]; [lia|]); cbn [repairLoop].
  - assert (offset (endOf 0) = 0) as H0 by (unfold endOf; by rewrite firstn_O). assert (0 <= sizeOf (filenum (endOf 0)) t) as Hsz by (unfold sizeOf; lia).
    destruct (repair_cut 0 t Hj Hs) as (t' & E & Hd & Hk); [lia|]. exists t', 0%nat.
    destruct (Z.eqb_spec (offset (endOf 0)) (sizeOf (filenum (endOf 0)) t)) as [E0|].
    + injection E as <-. unfold done_. rewrite E0. split_and!; try done. lia.
    + rewrite (proj2 (Z.ltb_lt _ _)) by lia. unfold andThen. rewrite E. split_and!; try done. lia.
  - destruct (Z.leb_spec (offset (endOf (S j))) (sizeOf (filenum (endOf (S j))) t)) as [Hle|Hgt].
    + destruct (repair_cut (S j) t Hj Hs Hle) as (t' & E & Hd & Hk). exists t', (S j).
      destruct (Z.eqb_spec (offset (endOf (S j))) (sizeOf (filenum (endOf (S j))) t)) as [E0|].
      * injection E as <-. unfold done_. rewrite E0. split_and!; try done. lia.
      * rewrite (proj2 (Z.ltb_lt _ _)) by lia. unfold andThen. rewrite E. split_and!; try done. lia.
    + rewrite (proj2 (Z.eqb_neq _ _)), (proj2 (Z.ltb_ge _ _)) by lia. destruct (repair_drop j t buffer Hj Hb Hs) as (t1 & E1 & Hs1 & Hk1).
      unfold andThen. rewrite E1. replace (Z.of_nat (6 * S (S j)) - indexEntrySize) with (Z.of_nat (6 * S j)) by (unfold indexEntrySize; lia).
      destruct (IH t1 fuel (enc (endOf j))) as (t' & j' & E & Hd & Hk2 & Hle & Hmax); [lia|apply length_enc|done|lia|].
      exists t', j'. split_and!; [exact E|done|by eapply table_keeps_trans|lia|].
      intros Hlt. destruct (decide (j' = j)) as [->|]; [|apply Hmax; lia].
      assert (filenum (endOf (S j)) = lastFile) as El.
      { pose proof (endOf_range (S j)) as Hr. destruct (decide (filenum (endOf (S j)) = lastFile)) as [|Hne]; [done|]. exfalso.
        destruct (Hfiles (filenum (endOf (S j)))) as [x Hx]; [unfold lastFile in *; lia|]. pose proof (endOf_fits (S j) x ltac:(lia) Hx).
        unfold sizeOf in Hgt. rewrite (s_low _ _ Hs), Hx in Hgt by lia. change (default [] (Some x)) with x in Hgt. lia. }
      split; [done|]. unfold sizeOf in Hgt. by rewrite El, (s_last _ _ Hs) in Hgt.
Qed.

(** The last part of [repair]. *)
Lemma repair_end t j :
  (j <= length es)%nat -> rdone t j -> tailId t = T0 -> itemOffset t = 0 -> 0 <= maxFileSize t < 2 ^ 32 -> len bs < 2 ^ 40 ->
  exists t', (do! _ := modify (fun t => setCounters t (u64 (itemOffset t + u64 (Z.of_nat (6 * S j) / indexEntrySize - 1))) (offset (endOf j)) (filenum (endOf j))) in preopen) t =
      (inl tt, t') /\ inv t' (take j bs) (take j es) /\ kept t t'.
Proof.
  intros Hj Hd HT H0 Hmax Hb. pose proof (chain_length _ _ _ _ _ Hchain) as Hl. unfold andThen, modify. rewrite H0. destruct (e_here _ _ Hd) as (c & Hc & Hdc & Hlc).
  assert (u64 (0 + u64 (Z.of_nat (6 * S j) / indexEntrySize - 1)) = Z.of_nat j) as ->.
  { unfold indexEntrySize. replace (Z.of_nat (6 * S j)) with (Z.of_nat (S j) * 6) by lia. rewrite Z.div_mul by lia. unfold u64. rewrite (Z.mod_small (_ - 1)) by lia. rewrite Z.mod_small by lia. lia. }
  pose proof (endOf_range j) as Hr. destruct (endOf_ok j) as [Ho1 Ho2]. destruct Hfirst as [Hf1 _]. cbn in Hf1.
  destruct (preopen_ok (setCounters t (Z.of_nat j) (offset (endOf j)) (filenum (endOf j))) (filenum (endOf j))) as (t' & E & Hf & Hdd & Hi & ((K1 & K2 & K3 & K4) & K5 & K6 & K7) & Hcl & Hro);
    fields; rewrite ?HT; try apply Hd; [done|lia| |].
  { intros m Hm. destruct (decide (m = filenum (endOf j))) as [->|]; [by rewrite Hdc|]. rewrite (e_low _ _ Hd) by lia. apply Hfiles. unfold lastFile in Hr. lia. }
  exists t'. revert Hdd Hi K1 K2 K3 K4 K5 K6 K7 Hcl. fields. intros Hdd Hi K1 K2 K3 K4 K5 K6 K7 Hcl. split; [exact E|]. split; [|done].
  assert (firstEntry t' = mkEntry T0 0) as Hfe by (unfold firstEntry; by rewrite K1, K2, HT, H0).
  destruct (chain_split _ _ _ _ _ j Hchain) as [Ht _]. rewrite HT in K2. constructor; rewrite ?K1, ?K2, ?K4, ?K5, ?K6, ?K7; try done.
  - rewrite Hcl. apply Hd.
  - rewrite Hi, Hfe. apply Hd.
  - by rewrite Hfe.
  - rewrite Hdd. apply (chain_cut d _ _ _ _ _ c Ht); [|done|done]. intros n Hn. by apply (e_low _ _ Hd).
  - change (filenum (endOf j) <= filenum (endOf j) < 2 ^ 16). lia.
  - change (offset (endOf j) = if decide (filenum (endOf j) = filenum (endOf j)) then offset (endOf j) else 0). by rewrite decide_True.
  - rewrite (f_head _ Hf). by rewrite K6.
  - rewrite <- K6. apply Hf.
  - rewrite Hdd, Hdc. eexists. split; [done|]. rewrite length_take. lia.
  - intros n Hn. apply (f_files _ Hf). rewrite K2, K6. done.
  - intros n Hn. apply (f_after _ Hf). by rewrite K6.
  - rewrite H0, length_take. lia.
Qed.

(** Opening the files of a table of which the end of the index and of the last file is lost, or has grown without index. *)
Lemma reopen_ok m d0 max nc :
  (6 <= m)%nat -> (forall n, n < lastFile -> d0 !! n = d !! n) -> default [] (d0 !! lastFile) = c' -> 0 <= max < 2 ^ 32 -> len bs < 2 ^ 40 ->
  let idx := take m (concat (enc <$> mkEntry T0 0 :: es)) in
  let k := (length idx / 6 - 1)%nat in
  exists t' j, (newTable (Some idx) d0 max nc false).1 = inl t' /\ inv t' (take j bs) (take j es) /\ (j <= k)%nat /\ itemOffset t' = 0 /\ noCompression t' = nc /\
    ((j < k)%nat -> filenum (endOf (S j)) = lastFile /\ len c' < offset (endOf (S j))).
Proof.
  intros Hm Hlow Hc' Hmax Hb idx k. assert (length idx = Nat.min m (6 * S (length es))) as Hli by (unfold idx; rewrite length_take, length_encs; cbn [length]; lia).
  assert (6 <= length idx)%nat as Hge by lia. pose proof (Nat.div_mod_eq (length idx) 6) as Hdm. pose proof (Nat.mod_upper_bound (length idx) 6 ltac:(lia)) as Hmb.
  assert (k <= length es)%nat as Hk by (unfold k; lia). assert (length idx / 6 = S k)%nat as HSk by (unfold k; lia).
  assert (take (6 * S k) idx = concat (enc <$> entries k)) as Hcut.
  { unfold idx. rewrite take_take, Nat.min_l by lia. rewrite encs_take. done. }
  unfold newTable. set (t0 := mkTable 0 nc false max idx d0 ∅ None 0 0 0 0 false). set (t1 := setIndex t0 (concat (enc <$> entries k))).
  assert ((if negb (len idx mod indexEntrySize =? 0) then ignoring (truncateIndex (len idx - len idx mod indexEntrySize)) else done_ tt) t0 = (inl tt, t1)) as Ealign.
  { unfold indexEntrySize. change 6 with (Z.of_nat 6). rewrite <- Nat2Z.inj_mod. destruct (Z.eqb_spec (Z.of_nat (length idx mod 6)) 0) as [E0|Hne]; cbn [negb].
    - unfold done_, t1. rewrite <- Hcut, take_ge by lia. by unfold t0.
    - unfold ignoring, truncateIndex. rewrite (proj2 (Z.ltb_ge _ _)) by lia. cbn [orb t0 readonly snd].
      replace (Z.to_nat (len idx - Z.of_nat (length idx mod 6))) with (6 * S k)%nat by lia. change (index t0) with idx. rewrite resize_take by lia. by rewrite Hcut. }
  set (t2 := setTail t1 T0 0). set (ef := filenum (endOf k)).
  set (t3 := setHead (setFiles t2 (<[ef := default [] (d0 !! ef)]> d0) {[ef := true]}) (Some ef)).
  assert (rstate t3 k) as Hs.
  { pose proof (endOf_range k) as Hr. fold ef in Hr. assert (forall n, default [] (<[ef := default [] (d0 !! ef)]> d0 !! n) = default [] (d0 !! n)) as Hdef.
    { intros n. destruct (decide (n = ef)) as [->|]; [by rewrite lookup_insert_eq|by rewrite lookup_insert_ne by done]. }
    constructor; unfold t3, t2, t1, t0; fields; fold ef; try done.
    - intros n Hn. destruct (decide (n = ef)) as [->|]; [|rewrite lookup_insert_ne by done; by apply Hlow]. rewrite lookup_insert_eq, Hlow by done.
      destruct (Hfiles ef) as [x ->]; [unfold lastFile in Hr; lia|]. done.
    - by rewrite Hdef.
    - by rewrite lookup_insert_eq. }
  destruct (repairLoop_ok k t3 (S (S (length (concat (enc <$> entries k))))) (enc (endOf k))) as (t4 & j & E4 & Hd4 & (K4 & _) & Hjk & Hmaxj); [done|apply length_enc|done| |].
  { rewrite length_encs. unfold entries. cbn [length]. rewrite length_take. lia. }
  destruct K4 as (K41 & K42 & K43 & K44). destruct (repair_end t4 j) as (t5 & E5 & Hi5 & (K51 & K52 & K53 & K54)); [lia|done|done|done|by rewrite K44|done|].
  assert (repair t0 = (inl tt, t5)) as E.
  { unfold repair. unfold andThen at 1, gets at 1. change (index t0) with idx. rewrite (proj2 (Z.eqb_neq _ _)) by lia. unfold andThen at 1, done_ at 1.
    unfold andThen at 1. rewrite Ealign. unfold andThen at 1, gets at 1. change (index t1) with (concat (enc <$> entries k)).
    assert (readInto (replicate 6 0) (concat (enc <$> entries k)) 0 = enc (mkEntry T0 0)) as ->.
    { exact (readInto_at (replicate 6 0) (entries k) 0 (mkEntry T0 0) eq_refl (entries_ok k) eq_refl). }
    rewrite (unmarshal_enc_nil (mkEntry T0 0)) by done. unfold andThen at 1, modify at 1. cbn [filenum offset]. fold t2. rewrite length_encs. 
    replace (length (entries k)) with (S k) by (unfold entries; cbn [length]; rewrite length_take; lia).
    replace (Z.of_nat (6 * S k) - indexEntrySize) with (Z.of_nat (6 * k)) by (unfold indexEntrySize; lia). rewrite readInto_entry by (done || apply length_enc).
    rewrite unmarshal_enc_nil by apply endOf_ok. unfold andThen at 1, gets at 1. change (readonly t2) with false. unfold andThen at 1, openFile. change (files t2) with (∅ : gmap Z bool).
    rewrite lookup_empty. unfold andThen at 1, modify at 1. fold ef. change (disk t2) with d0. change (setHead _ _) with t3. unfold andThen at 1, gets at 1.
    unfold andThen at 1. rewrite length_encs in E4. replace (length (entries k)) with (S k) in E4 by (unfold entries; cbn [length]; rewrite length_take; lia). fold ef in E4. rewrite E4. exact E5. }
  rewrite E. exists t5, j. split_and!; [done|done|done|by rewrite K51, K41|by rewrite K53, K43|done].
Qed.

End Repair.

(** ** What a read takes *)

Lemma fit_bound max total first l : (first = true \/ total <= max) ->
  (fit max total first l = [] \/ (exists b, fit max total first l = [b] /\ first = true) \/ total + len (concat (fit max total first l)) <= max).
Proof.
  revert total first. induction l as [|b l IH]; intros total first Hf; [by left|]. cbn [fit]. destruct (negb first && (max <? total + len b)) eqn:E; [by left|]. right.
  destruct (Z.leb_spec (total + len b) max) as [Hle|Hgt].
  - right. destruct (IH (total + len b) false) as [E1|[(b' & _ & [=])|E1]]; [by right|rewrite E1; cbn; rewrite app_nil_r; lia|]. cbn [concat]. rewrite length_app. lia.
  - destruct first; [|cbn [negb andb] in E; lia]. left. exists b. split; [|done]. f_equal. destruct l as [|b' l]; [done|]. cbn [fit negb andb].
    by rewrite (proj2 (Z.ltb_lt _ _)) by lia.
Qed.

Lemma fit_max max total first l x : l !! length (fit max total first l) = Some x -> max < total + len (concat (fit max total first l)) + len x.
Proof.
  revert total first. induction l as [|b l IH]; intros total first; [done|]. cbn [fit]. destruct (_ && _) eqn:E; cbn [length lookup list_lookup concat].
  - intros [= <-]. apply andb_prop in E as [_ E]. cbn [length]. lia.
  - intros Hx. apply IH in Hx. rewrite length_app. lia.
Qed.

Lemma fit_nonempty max total l : l <> [] -> fit max total true l <> [].
Proof. by destruct l. Qed.

Lemma fit_idem max total first l : fit max total first (fit max total first l) = fit max total first l.
Proof.
  revert total first. induction l as [|b l IH]; intros total first; [done|]. cbn [fit]. destruct (_ && _) eqn:E; [done|]. cbn [fit]. by rewrite E, IH.
Qed.

Section Reads.
Context `{Snappy}.

(** The table holds the items [xs]. *)
Definition tableHolds (t : freezerTable) (xs : list (list Z)) : Prop := exists es, inv t (store t <$> xs) es.

Lemma readable_spec t xs i count max :
  (i < length xs)%nat -> 0 < count -> exists n, readable t xs i count max = take n (drop i xs) /\ (0 < n <= Z.to_nat count)%nat /\ (n <= length xs - i)%nat /\
    (n = 1%nat \/ len (concat (take n (drop i xs))) <= max) /\
    (noCompression t = true -> n = Z.to_nat count \/ n = (length xs - i)%nat \/ max < len (concat (take (S n) (drop i xs)))).
Proof.
  intros Hi Hc. unfold readable. set (avail := take (Z.to_nat count) (drop i xs)). set (k := length (fit max 0 true (store t <$> avail))).
  assert (0 < length avail)%nat as Ha by (unfold avail; rewrite length_take, length_drop; lia).
  assert (length avail <= Z.to_nat count /\ length avail <= length xs - i)%nat as [Ha1 Ha2] by (unfold avail; rewrite length_take, length_drop; lia).
  assert (0 < k <= length avail)%nat as Hk.
  { unfold k. split.
    - destruct (fit max 0 true (store t <$> avail)) as [|] eqn:E; [|cbn; lia]. apply fit_nonempty in E; [done|]. by destruct avail; [cbn in Ha; lia|].
    - rewrite fit_prefix, length_take, length_fmap. lia. }
  set (l := take k avail). set (n := length (fit max 0 true l)).
  assert (0 < n <= k)%nat as Hn.
  { unfold n. split.
    - destruct (fit max 0 true l) as [|] eqn:E; [|cbn; lia]. apply fit_nonempty in E; [done|]. unfold l. destruct avail; [cbn in Ha; lia|]. destruct k; [lia|done].
    - rewrite fit_prefix, length_take. unfold l. rewrite length_take. lia. }
  assert (fit max 0 true l = take n (drop i xs)) as El.
  { rewrite fit_prefix. fold n. unfold l, avail. rewrite !take_take. f_equal. lia. }
  exists n. split_and!; [done|lia|lia|lia| |].
  - destruct (fit_bound max 0 true l) as [E|[(b & E & _)|E]]; [by left|unfold n in Hn; rewrite E in Hn; cbn in Hn; lia|left; unfold n; by rewrite E|right; by rewrite <- El].
  - intros Hnc. destruct (decide (n = length avail)) as [E|Hne].
    { unfold avail in E. rewrite length_take, length_drop in E. destruct (Nat.min_spec (Z.to_nat count) (length xs - i)) as [[_ Em]|[_ Em]]; rewrite Em in E; auto. }
    right. right. assert (store t <$> avail = avail) as Est.
    { etrans; [|apply list_fmap_id]. apply list_fmap_ext. intros. unfold store. by rewrite Hnc. }
    assert (n = k) as Enk.
    { unfold n, l. assert (take k avail = fit max 0 true avail) as ->; [|by rewrite fit_idem; unfold k; rewrite Est]. unfold k. rewrite Est. symmetry. apply fit_prefix. }
    destruct (lookup_lt_is_Some_2 avail n) as [x Hx]; [lia|]. pose proof (fit_max max 0 true avail x) as Hm. unfold k in Enk. rewrite Est in Enk. rewrite <- Enk in Hm. specialize (Hm Hx).
    assert (fit max 0 true avail = take n (drop i xs)) as Ef. { rewrite fit_prefix, <- Enk. unfold avail. rewrite take_take. f_equal. lia. }
    rewrite Ef in Hm. assert (drop i xs !! n = Some x) as Hx' by (unfold avail in Hx; by apply lookup_take_Some in Hx as [? ?]).
    rewrite (take_S_r _ _ _ Hx'), concat_app, length_app. cbn [concat]. rewrite app_nil_r. lia.
Qed.

End Reads.

End FreezerLemmas.

Import FreezerLemmas.

(** ** The theorems *)

Section Theorems.
Context `{Snappy}.

(** A new table is empty. *)
Lemma fresh_table max nc : 0 <= max < 2 ^ 32 -> exists t, (newTable None ∅ max nc false).1 = inl t /\ tableHolds t [] /\ itemOffset t = 0 /\ noCompression t = nc /\ headId t = 0.
Proof.
  intros Hmax. exists (mkTable 0 nc false max (replicate 6 0) {[0 := []]} {[0 := true]} (Some 0) 0 0 0 0 false). split; [reflexivity|]. split; [|done]. exists [].
  constructor; fields; try done; [by exists []| |].
  - intros n Hn. replace n with 0 by lia. rewrite !lookup_singleton_eq. by split; eexists.
  - intros n Hn. by rewrite lookup_singleton_ne by lia.
Qed.

Lemma holds_length t xs : tableHolds t xs -> items t = itemOffset t + len xs.
Proof. intros [es Hi]. rewrite (i_items _ _ _ Hi). by rewrite length_fmap. Qed.

Lemma appendAll_holds t ys xs off :
  tableHolds t ys -> headId t + len xs < 2 ^ 16 -> Forall (fun x => len (store t x) < 2 ^ 32) xs -> len ys + len xs < 2 ^ 40 ->
  exists b' t', appendAll (u64 (items t + off)) xs (newBatch t off, t) = (None, (b', t')) /\ tableHolds t' (ys ++ xs) /\ kept t t'.
Proof.
  intros Hh Hf Hx Hl. rewrite (holds_length _ _ Hh). destruct Hh as [es Hi]. pose proof (i_first _ _ _ Hi) as [_ Hoff]. cbn in Hoff.
  pose proof (appendAll_ok _ off xs (newBatch t off, t) (store t <$> ys) (holding_new _ _ _ off Hi)) as Happ. cbn [fst snd] in Happ. rewrite length_fmap in Happ.
  destruct Happ as (b' & t' & es' & E & Hi' & Hk & _); [done|done|lia|]. exists b', t'. rewrite <- fmap_app in Hi'. split_and!; [done| |apply Hk..].
  exists es'. by rewrite (list_fmap_ext _ (store t)) by (intros ? ? _; by apply kept_store).
Qed.

(** C33: Appending and reading. Items appended through a batch, with the numbers that are expected, are all there after the commit, in order and
    behind the items that were there before, however they are spread over data files and whether they are compressed or not: every number
    gives its item, and any other number is out of bounds. *)
Theorem table_append_read t ys xs off :
  tableHolds t ys -> headId t + len xs < 2 ^ 16 -> Forall (fun x => len (store t x) < 2 ^ 32) xs -> len ys + len xs < 2 ^ 40 ->
  exists b' t', appendAll (u64 (items t + off)) xs (newBatch t off, t) = (None, (b', t')) /\ tableHolds t' (ys ++ xs) /\
    (forall i x, (ys ++ xs) !! i = Some x -> Retrieve t' (itemOffset t + Z.of_nat i) = Ret (inl x)) /\
    (forall n, ~ itemOffset t <= n < itemOffset t + len (ys ++ xs) -> Retrieve t' n = Ret (inr errOutOfBounds)).
Proof.
  intros Hh Hf Hx Hl. destruct (appendAll_holds t ys xs off Hh Hf Hx Hl) as (b' & t' & E & (es' & Hi) & Ho & _). exists b', t'. rewrite <- Ho. split_and!; [done|by exists es'| |].
  - intros i x Hix. apply (Retrieve_ok t' (ys ++ xs) es'); [done|rewrite length_app; lia|done].
  - intros n Hn. apply (Retrieve_out t' _ _ _ Hi). by rewrite length_fmap.
Qed.

(** Reading a range. [RetrieveItems] gives the items from the one asked for on, in order: at least one, at most as many as asked for, and
    no more bytes than allowed unless the first one alone has more. Without compression it stops only where the limit or the table
    ends. *)
Theorem table_range_read t xs i count max :
  tableHolds t xs -> len xs < 2 ^ 40 -> (i < length xs)%nat -> 0 < count <= 2 ^ 43 -> 0 <= max <= maxAlloc ->
  exists n, RetrieveItems t (itemOffset t + Z.of_nat i) count max = Ret (inl (take n (drop i xs))) /\ (0 < n <= Z.to_nat count)%nat /\
    (n = 1%nat \/ len (concat (take n (drop i xs))) <= max) /\
    (noCompression t = true -> n = Z.to_nat count \/ n = (length xs - i)%nat \/ max < len (concat (take (S n) (drop i xs)))).
Proof.
  intros [es Hi] Hl Hlt Hc Hm. destruct (readable_spec t xs i count max Hlt ltac:(lia)) as (n & E & Hn & _ & Hb & Hmax). exists n.
  rewrite (RetrieveItems_ok t xs es) by done. rewrite E. done.
Qed.

(** Truncation. A table without deleted items that is truncated holds the first items, as many as asked for, and nothing else. *)
Theorem table_truncates t xs n :
  tableHolds t xs -> itemOffset t = 0 -> len xs < 2 ^ 40 -> 0 <= n ->
  exists t', truncate n t = (inl tt, t') /\ tableHolds t' (take (Z.to_nat n) xs) /\
    (forall i x, (Z.of_nat i < n) -> xs !! i = Some x -> Retrieve t' (Z.of_nat i) = Ret (inl x)) /\
    (forall i, n <= i -> Retrieve t' i = Ret (inr errOutOfBounds)).
Proof.
  intros [es Hi] H0 Hl Hn. destruct (truncate_ok t _ es n Hi H0) as (t' & es' & E & Hi' & Hk & _); [by rewrite length_fmap|done|]. exists t'. rewrite <- fmap_take in Hi'.
  assert (inv t' (store t' <$> take (Z.to_nat n) xs) es') as Hi2 by (by rewrite (list_fmap_ext _ (store t)) by (intros ? ? _; by apply kept_store)).
  destruct Hk as (Ho & _). split_and!; [done|by exists es'| |].
  - intros i x Hlt Hx. replace (Z.of_nat i) with (itemOffset t' + Z.of_nat i) by lia. apply (Retrieve_ok t' (take (Z.to_nat n) xs) es'); [done|rewrite length_take; lia|].
    by rewrite lookup_take_lt by lia.
  - intros i Hle. apply (Retrieve_out t' _ _ _ Hi2). rewrite length_fmap, length_take. lia.
Qed.

(** The entries are those of the index. *)
Lemma inv_entries t xs es : inv t (store t <$> xs) es -> entriesOf (length xs) (drop 6 (index t)) = es.
Proof.
  intros Hi. pose proof (chain_length _ _ _ _ _ (i_chain _ _ _ Hi)) as Hl. rewrite length_fmap in Hl. rewrite (i_index _ _ _ Hi).
  rewrite fmap_cons, concat_cons, drop_app_length' by (by rewrite length_enc). rewrite entriesOf_enc by (lia || by eapply chain_eOk, i_chain). by rewrite take_ge by lia.
Qed.

(** C17: Recovery. When a crash has lost the end of the index file, at any byte behind the first entry, and the end of the last data file, or has
    left data there that is not indexed, opening the table repairs it: the first items are all there, and it lacks only
    those whose index entry or data is lost. *)
Theorem table_recovers t xs m d' :
  tableHolds t xs -> itemOffset t = 0 -> len xs < 2 ^ 40 -> (6 <= m)%nat ->
  let es := entriesOf (length xs) (drop 6 (index t)) in
  let last := (endPos (tailId t) 0 es).1 in
  (forall n, n < last -> d' !! n = disk t !! n) ->
  (default [] (d' !! last) `prefix_of` default [] (disk t !! last) \/ default [] (disk t !! last) `prefix_of` default [] (d' !! last)) ->
  let idx := take m (index t) in
  let k := (length idx / 6 - 1)%nat in
  exists t' j, (newTable (Some idx) d' (maxFileSize t) (noCompression t) false).1 = inl t' /\ tableHolds t' (take j xs) /\ (j <= k)%nat /\
    ((j < k)%nat -> exists e, es !! j = Some e /\ filenum e = last /\ len (default [] (d' !! last)) < offset e) /\
    (forall i x, (i < j)%nat -> xs !! i = Some x -> Retrieve t' (Z.of_nat i) = Ret (inl x)).
Proof.
  intros [es Hi] H0 Hl Hm. rewrite (inv_entries _ _ _ Hi). intros es0 last Hlow Hlast idx k. subst es0. pose proof (i_first _ _ _ Hi) as Hfirst. unfold firstEntry in Hfirst. rewrite H0 in Hfirst.
  pose proof (i_last _ _ _ Hi) as Hhead. pose proof (chain_length _ _ _ _ _ (i_chain _ _ _ Hi)) as Hlen. rewrite length_fmap in Hlen.
  assert (index t = concat (enc <$> mkEntry (tailId t) 0 :: es)) as Hidx by (rewrite (i_index _ _ _ Hi); unfold firstEntry; by rewrite H0).
  destruct (reopen_ok (tailId t) (disk t) (store t <$> xs) es (default [] (d' !! last)) Hfirst (i_chain _ _ _ Hi)) with (m := m) (d0 := d') (max := maxFileSize t) (nc := noCompression t)
    as (t' & j & E & Hi' & Hj & Ho & Hnc & Hmax); try done; [intros n Hn; apply (i_files _ _ _ Hi); lia|apply Hi|by rewrite length_fmap|].
  rewrite <- Hidx in E, Hj, Hmax. exists t', j. rewrite <- fmap_take in Hi'.
  assert (inv t' (store t' <$> take j xs) (take j es)) as Hi2 by (rewrite (list_fmap_ext _ (store t)); [done|]; intros ? ? _; unfold store; by rewrite Hnc).
  split_and!; [done|by eexists|done| |].
  - intros Hlt. destruct (Hmax Hlt) as [Hf Hof]. assert (k <= length es)%nat as Hkl.
    { unfold k, idx. rewrite Hidx, length_take, length_encs. cbn [length]. assert (Nat.min m (6 * S (length es)) / 6 <= S (length es))%nat; [|lia].
      apply Nat.Div0.div_le_upper_bound. lia. }
    destruct (lookup_lt_is_Some_2 es j) as [e He]; [unfold k, idx in Hkl; fold idx in Hkl; unfold k in Hlt; lia|]. exists e. rewrite (endOf_S (tailId t) es j e He) in Hf, Hof. done.
  - intros i x Hlt Hx. replace (Z.of_nat i) with (itemOffset t' + Z.of_nat i) by lia. apply (Retrieve_ok t' (take j xs) (take j es)); [done|rewrite length_take; lia|].
    by rewrite lookup_take_lt by lia.
Qed.

End Theorems.

(** A codec that marks the end, for the examples. *)
#[local] Instance markSnappy : Snappy.
Proof.
  refine {| snappyEncode b := b ++ [7]; snappyDecode b := Some (take (length b - 1) b); snappyDecodedLen b := Z.of_nat (length b) - 1 |}.
  - intros b. rewrite length_app, Nat.add_sub. by rewrite take_app_length.
  - intros b. rewrite length_app. cbn [length]. lia.
Defined.

Module FreezerDemo.

(** The table in a directory, opened or empty. *)
Definition opened (r : fres freezerTable * (list Z * gmap Z (list Z))) : freezerTable :=
  match r.1 with inl t => t | inr _ => mkTable 0 false true 0 [] ∅ ∅ None 0 0 0 0 true end.

Definition fresh (nc : bool) : freezerTable := opened (newTable None ∅ 8 nc false).

Definition blobs : list (list Z) := [[1; 2; 3]; [4]; [5; 6; 7; 8]; []; [9; 9]].

Definition filled (nc : bool) : freezerTable := (appendAll 0 blobs (newBatch (fresh nc) 0, fresh nc)).2.2.

Definition entries (nc : bool) : list indexEntry := entriesOf 5 (drop 6 (index (filled nc))).

Lemma filled_holds nc : tableHolds (filled nc) blobs.
Proof.
  destruct (fresh_table 8 nc ltac:(lia)) as (t & E & Hh & Ho & Hn & Hf). assert (t = fresh nc) as -> by (unfold fresh, opened; by rewrite E).
  destruct (appendAll_holds (fresh nc) [] blobs 0 Hh) as (b' & t' & E' & Hh' & _); [rewrite Hf; cbn; lia| |cbn; lia|].
  - unfold store. rewrite Hn. repeat constructor; destruct nc; cbn; lia.
  - change (u64 (items (fresh nc) + 0)) with 0 in E'. unfold filled. by rewrite E'.
Qed.

End FreezerDemo.
Import FreezerDemo.

Lemma table_append_read_witness : exists b' t', appendAll 5 [[1; 1]; [2; 2; 2; 2; 2]] (newBatch (filled false) 0, filled false) = (None, (b', t')) /\
  Retrieve t' 2 = Ret (inl [5; 6; 7; 8]) /\ Retrieve t' 6 = Ret (inl [2; 2; 2; 2; 2]) /\ Retrieve t' 7 = Ret (inr errOutOfBounds).
Proof.
  destruct (table_append_read (filled false) blobs [[1; 1]; [2; 2; 2; 2; 2]] 0) as (b' & t' & E & _ & Hr & Ho); [apply filled_holds|reflexivity|by repeat constructor|reflexivity|].
  exists b', t'. change (u64 (items (filled false) + 0)) with 5 in E. split_and!; [done|by apply (Hr 2%nat)|by apply (Hr 6%nat)|apply Ho; vm_compute; by intros [_ ?]].
Defined.

Lemma table_range_read_witness : exists n, RetrieveItems (filled true) 1 4 6 = Ret (inl (take n [[4]; [5; 6; 7; 8]; []; [9; 9]])) /\ n = 3%nat.
Proof.
  destruct (table_range_read (filled true) blobs 1 4 6) as (n & E & Hn & Hb & Hm); [apply filled_holds|reflexivity|cbn; lia|lia|unfold maxAlloc; lia|].
  exists n. split; [exact E|]. clear E. specialize (Hm eq_refl). destruct n as [|[|[|[|n]]]]; try done; cbn in *; lia.
Defined.

Lemma table_truncates_witness : exists t', truncate 3 (filled false) = (inl tt, t') /\ Retrieve t' 2 = Ret (inl [5; 6; 7; 8]) /\ Retrieve t' 3 = Ret (inr errOutOfBounds).
Proof.
  destruct (table_truncates (filled false) blobs 3) as (t' & E & _ & Hr & Ho); [apply filled_holds|reflexivity|reflexivity|lia|].
  exists t'. split_and!; [done|by apply (Hr 2%nat)|apply Ho; lia].
Defined.

(** The last file has lost a byte, and the index the end of the last entry. *)
Lemma table_recovers_witness : exists t' j, (newTable (Some (take 35 (index (filled true)))) (<[1 := [9]]> (disk (filled true))) 8 true false).1 = inl t' /\
  tableHolds t' (take j blobs) /\ (j <= 4)%nat.
Proof.
  destruct (table_recovers (filled true) blobs 35 (<[1 := [9]]> (disk (filled true)))) as (t' & j & E & Hh & Hj & _).
  - apply filled_holds.
  - vm_compute. reflexivity.
  - reflexivity.
  - lia.
  - intros n Hn. vm_compute in Hn. rewrite lookup_insert_ne by (intros <-; done). done.
  - left. exists [9]. vm_compute. reflexivity.
  - exists t', j. split_and!; [|done|vm_compute in Hj; lia]. rewrite <- E. vm_compute. reflexivity.
Defined.
