(* ===== verification/Freezer.v ===== *)
(** * The freezer (src/core/rawdb/freezer.go, freezer_batch.go)

    The freezer keeps one table per kind of data, all of the same length, and writes to them through one batch per table. A write operation is a
    function that calls [AppendRaw] and [Append] and sees their errors; it is a tree here, with a branch for every answer. The
    batches share the tables with the freezer, so that both are fields of one state. What a failed opening leaves on disk, the lock and the
    meters are left out. *)

From stdpp Require Import base tactics list gmap strings.
From Stdlib Require Import ZArith Lia.
From S2P Require Import Prelude Types Bytes RlpRaw RlpEncode FreezerTable.

Open Scope Z_scope.
Open Scope go_scope.

Module Freezer.
Import FreezerTable.

Definition MaxUint64 : Z := 2 ^ 64 - 1.
Definition FullImmutabilityThreshold : Z := 90000.
Definition freezerTableSize : Z := 2 * 1000 * 1000 * 1000.

Record freezer := mkFreezer {
  frozen : Z;
  threshold : Z;
  freadonly : bool;
  tables : gmap string freezerTable;
  writeBatch : gmap string freezerTableBatch;
  foffset : Z
}.

Definition setFrozen (f : freezer) (n : Z) : freezer := mkFreezer n (threshold f) (freadonly f) (tables f) (writeBatch f) (foffset f).
Definition setTables (f : freezer) (ts : gmap string freezerTable) : freezer := mkFreezer (frozen f) (threshold f) (freadonly f) ts (writeBatch f) (foffset f).
Definition setBatch (f : freezer) (bs : gmap string freezerTableBatch) : freezer := mkFreezer (frozen f) (threshold f) (freadonly f) (tables f) bs (foffset f).

(** ** Opening *)

Section Ranges.
Context `{RangeOrder}.

(** An order of the kinds of tables. *)
Definition kinds {A} (m : gmap string A) : list string := peerOrder (dom m).

(** What [Lstat] finds in the place of the data directory. *)
Inductive lstat := NotExist | Directory | Symlink | Unreadable.

(** The index file and the data files of a table. *)
Definition onDisk : Type := option (list Z) * gmap Z (list Z).

(** The tables one after the other, up to the first that cannot be opened. *)
Fixpoint openTables (dir : gmap string onDisk) (maxTableSize : Z) (readonly : bool) (l : list (string * bool)) (ts : gmap string freezerTable) : fres (gmap string freezerTable) :=
  match l with
  | [] => inl ts
  | (name, disableSnappy) :: l =>
      let d := default (None, ∅) (dir !! name) in
      match (newTable d.1 d.2 maxTableSize disableSnappy readonly).1 with
      | inr e => inr e
      | inl table => openTables dir maxTableSize readonly l (<[name := table]> ts)
      end
  end.

(** [g] on the tables, up to the first error. *)
Fixpoint eachTable (g : act unit) (l : list string) (ts : gmap string freezerTable) : option fErr * gmap string freezerTable :=
  match l with
  | [] => (None, ts)
  | k :: l =>
      match ts !! k with
      | None => eachTable g l ts
      | Some t =>
          match g t with
          | (inr e, t) => (Some e, <[k := t]> ts)
          | (inl _, t) => eachTable g l (<[k := t]> ts)
          end
      end
  end.

(** The check of [validate] on the tables behind the first. *)
Fixpoint sameLength (name : string) (length : Z) (ts : gmap string freezerTable) (l : list string) : option fErr :=
  match l with
  | [] => None
  | k :: l =>
      let n := default 0 (items <$> ts !! k) in
      if negb (length =? n) then Some (errLengths k name n length) else sameLength name length ts l
  end.

Definition validate (f : freezer) : option fErr * freezer :=
  match kinds (tables f) with
  | [] => (None, f)
  | name :: _ =>
      let length := default 0 (items <$> tables f !! name) in
      match sameLength name length (tables f) (kinds (tables f)) with
      | Some e => (Some e, f)
      | None => (None, setFrozen f length)
      end
  end.

(** The shortest length of a table. *)
Definition minItems (ts : gmap string freezerTable) (l : list string) : Z :=
  foldl (fun min k => match ts !! k with Some t => if items t <? min then items t else min | None => min end) MaxUint64 l.

Definition repairFreezer (f : freezer) : option fErr * freezer :=
  let min := minItems (tables f) (kinds (tables f)) in
  match eachTable (truncate min) (kinds (tables f)) (tables f) with
  | (Some e, ts) => (Some e, setTables f ts)
  | (None, ts) => (None, setFrozen (setTables f ts) min)
  end.

Definition newFreezerBatch (f : freezer) : gmap string freezerTableBatch := (fun t => newBatch t (foffset f)) <$> tables f.

(** The file information of an unreadable directory is nil. *)
Definition newFreezer (datadir : lstat) (locked : bool) (dir : gmap string onDisk) (readonly : bool) (offset maxTableSize : Z) (cfg : gmap string bool) : go (fres freezer) :=
  match datadir with
  | Unreadable => Panic
  | Symlink => Ret (inr errSymlinkDatadir)
  | _ =>
      if locked then Ret (inr errLocked)
      else
        match openTables dir maxTableSize readonly (omap (fun k => pair k <$> cfg !! k) (kinds cfg)) ∅ with
        | inr e => Ret (inr e)
        | inl ts =>
            let f := mkFreezer 0 FullImmutabilityThreshold readonly ts ∅ offset in
            match (if readonly then validate f else repairFreezer f) with
            | (Some e, _) => Ret (inr e)
            | (None, f) => let f := setFrozen f (u64 (frozen f + offset)) in Ret (inl (setBatch f (newFreezerBatch f)))
            end
        end
  end.

Definition CloseFreezer (f : freezer) : freezer := setTables f (Close <$> tables f).

(** ** Reading *)

Definition HasAncient (f : freezer) (kind : string) (number : Z) : bool :=
  match tables f !! kind with Some t => has t (u64 (number - foffset f)) | None => false end.

Definition Ancients (f : freezer) : Z := frozen f.

Definition ItemAmountInAncient (f : freezer) : Z := u64 (frozen f - foffset f).

Definition AncientOffSet (f : freezer) : Z := foffset f.

Definition AncientSize (f : freezer) (kind : string) : fres Z :=
  match tables f !! kind with Some t => size t | None => inr errUnknownTable end.

Section Compressed.
Context `{Snappy}.

Definition Ancient (f : freezer) (kind : string) (number : Z) : go (fres (list Z)) :=
  match tables f !! kind with Some t => Retrieve t (u64 (number - foffset f)) | None => Ret (inr errUnknownTable) end.

(** The number of the first item is not adjusted. *)
Definition AncientRange (f : freezer) (kind : string) (start count maxBytes : Z) : go (fres (list (list Z))) :=
  match tables f !! kind with Some t => RetrieveItems t start count maxBytes | None => Ret (inr errUnknownTable) end.

(** ** Writing *)

(** A write operation, which may panic itself. *)
Inductive writeOp :=
| Finish (err : option fErr)
| Crash
| OpAppendRaw (kind : string) (num : Z) (item : list Z) (k : option fErr -> writeOp)
| OpAppend (kind : string) (num : Z) (item : RlpEncode.writer) (k : option fErr -> writeOp).

(** A step of the batch of one kind; the batch of an unknown kind is nil. *)
Definition onBatch (f : freezer) (kind : string) (g : freezerTableBatch * freezerTable -> go (option fErr * (freezerTableBatch * freezerTable))) : go (option fErr * freezer) :=
  match writeBatch f !! kind, tables f !! kind with
  | Some b, Some t =>
      let! r := g (b, t) in
      let '(e, (b, t)) := r in
      Ret (e, setBatch (setTables f (<[kind := t]> (tables f))) (<[kind := b]> (writeBatch f)))
  | _, _ => Panic
  end.

Fixpoint runOp (fn : writeOp) (f : freezer) : go (option fErr * freezer) :=
  match fn with
  | Finish err => Ret (err, f)
  | Crash => Panic
  | OpAppendRaw kind num item k =>
      let! r := onBatch f kind (fun s => Ret (AppendRaw num item s)) in
      let '(e, f) := r in runOp (k e) f
  | OpAppend kind num item k =>
      let! r := onBatch f kind (Append num item) in
      let '(e, f) := r in runOp (k e) f
  end.

Definition resetBatch (f : freezer) : freezer :=
  setBatch f (map_imap (fun k b => match tables f !! k with Some t => Some (reset t (boffset b)) | None => Some b end) (writeBatch f)).

(** The counts of the batches, from [item] on. *)
Fixpoint sameCount (bs : gmap string freezerTableBatch) (item : Z) (l : list string) : fres Z :=
  match l with
  | [] => inl item
  | k :: l =>
      match bs !! k with
      | None => sameCount bs item l
      | Some b => if (item <? MaxUint64) && negb (curItem b =? item) then inr (errTableAt (curItem b) item) else sameCount bs (curItem b) l
      end
  end.

Fixpoint commitAll (l : list string) (f : freezer) (writeSize : Z) : fres Z * freezer :=
  match l with
  | [] => (inl writeSize, f)
  | k :: l =>
      match writeBatch f !! k, tables f !! k with
      | Some b, Some t =>
          let '(e, (b, t)) := commit (b, t) in
          let f := setBatch (setTables f (<[k := t]> (tables f))) (<[k := b]> (writeBatch f)) in
          match e with
          | Some e => (inr e, f)
          | None => commitAll l f (writeSize + totalBytes b)
          end
      | _, _ => commitAll l f writeSize
      end
  end.

Definition commitBatch (f : freezer) : fres (Z * Z) * freezer :=
  match sameCount (writeBatch f) MaxUint64 (kinds (writeBatch f)) with
  | inr e => (inr e, f)
  | inl item =>
      match commitAll (kinds (writeBatch f)) f 0 with
      | (inr e, f) => (inr e, f)
      | (inl writeSize, f) => (inl (item, writeSize), f)
      end
  end.

(** Back to [prevItem]; errors are only logged. *)
Definition rollBack (prevItem : Z) (f : freezer) : freezer := setTables f ((fun t => (truncate prevItem t).2) <$> tables f).

(** The deferred roll back does not see a panic of the operation. *)
Definition ModifyAncients (fn : writeOp) (f : freezer) : go (Z * option fErr * freezer) :=
  if freadonly f then Ret (0, Some errReadOnly, f)
  else
    let prevItem := frozen f in
    let! r := runOp fn (resetBatch f) in
    match r with
    | (Some e, f) => Ret (0, Some e, rollBack prevItem f)
    | (None, f) =>
        match commitBatch f with
        | (inr e, f) => Ret (0, Some e, rollBack prevItem f)
        | (inl (item, writeSize), f) => Ret (writeSize, None, setFrozen f item)
        end
    end.

End Compressed.

Definition TruncateAncients (n : Z) (f : freezer) : option fErr * freezer :=
  if freadonly f then (Some errReadOnly, f)
  else if frozen f <=? n then (None, f)
  else
    match eachTable (truncate (u64 (n - foffset f))) (kinds (tables f)) (tables f) with
    | (Some e, ts) => (Some e, setTables f ts)
    | (None, ts) => (None, setFrozen (setTables f ts) n)
    end.

End Ranges.

End Freezer.
