(* ===== verification/FreezerProps.v ===== *)
(** * Properties of the freezer

    A freezer is abstractly a column of items per kind, all of the same length. Write operations are atomic on the columns, reads give their
    items, truncation shortens all of them, and opening brings tables of different lengths to their common length. *)

From stdpp Require Import base tactics list gmap strings.
From Stdlib Require Import ZArith Lia.
From S2P Require Import Prelude Types Bytes RlpRaw RlpEncode FreezerTable FreezerTableProps Freezer.

Open Scope Z_scope.
Open Scope go_scope.

Import FreezerTable Freezer FreezerLemmas.

(** The items of every kind. *)
Notation columns := (gmap string (list (list Z))).

Module FreezerSpec.
Section Spec.
Context `{Snappy}.

(** Appending to a column, whose next number is expected. *)
Definition absAppend (off : Z) (kind : string) (num : Z) (item : go (Rlp.res (list Z))) (cols : columns) : go (option fErr * columns) :=
  match cols !! kind with
  | None => Panic
  | Some col =>
      let cur := off + len col in
      if negb (num =? cur) then Ret (Some (errOutOrderInsertion num cur), cols)
      else
        let! r := item in
        match r with
        | Rlp.Err e => Ret (Some (errRlp e), cols)
        | Rlp.Ok x => Ret (None, <[kind := col ++ [x]]> cols)
        end
  end.

Fixpoint absRun (off : Z) (fn : writeOp) (cols : columns) : go (option fErr * columns) :=
  match fn with
  | Finish e => Ret (e, cols)
  | Crash => Panic
  | OpAppendRaw kind num item k => let! r := absAppend off kind num (Ret (Rlp.Ok item)) cols in absRun off (k r.1) r.2
  | OpAppend kind num item k => let! r := absAppend off kind num (RlpEncode.EncodeToBytes item) cols in absRun off (k r.1) r.2
  end.

(** The columns have one length. *)
Definition level (n : nat) (cols : columns) : Prop := map_Forall (fun _ col => length col = n) cols.

#[global] Instance level_dec n cols : Decision (level n cols).
Proof. unfold level. apply _. Defined.

(** An item whose stored form a data file can hold. *)
Definition small (x : list Z) : Prop := len x < 2 ^ 32 /\ len (snappyEncode x) < 2 ^ 32.

(** The appends to every kind that are left, after one to [kind]. *)
Definition spend (kind : string) (m : string -> nat) : string -> nat := fun k => if decide (k = kind) then pred (m k) else m k.

(** An operation with at most [m k] appends to every kind [k], of small items. *)
Fixpoint fits (m : string -> nat) (fn : writeOp) : Prop :=
  match fn with
  | Finish _ => True
  | Crash => True
  | OpAppendRaw kind _ item k => (0 < m kind)%nat /\ small item /\ forall e, fits (spend kind m) (k e)
  | OpAppend kind _ item k => (0 < m kind)%nat /\ (forall x, RlpEncode.EncodeToBytes item = Ret (Rlp.Ok x) -> small x) /\ forall e, fits (spend kind m) (k e)
  end.

(** The freezer holds the columns: a table and a batch for every kind, tables without deleted items. *)
Definition column (off : Z) (col : option (list (list Z))) (t : option freezerTable) (b : option freezerTableBatch) : Prop :=
  match col, t, b with
  | Some col, Some t, Some b => tableHolds t col /\ itemOffset t = 0 /\ boffset b = off
  | None, None, None => True
  | _, _, _ => False
  end.

Record freezerHolds (f : freezer) (n : nat) (cols : columns) : Prop := {
  fh_rw : freadonly f = false;
  fh_off : 0 <= foffset f < 2 ^ 62;
  fh_frozen : frozen f = foffset f + Z.of_nat n;
  fh_some : cols <> ∅;
  fh_level : level n cols;
  fh_tables : forall k, column (foffset f) (cols !! k) (tables f !! k) (writeBatch f !! k)
}.

(** Data files left for [m k] more items of every kind [k]. *)
Definition room (m : string -> nat) (f : freezer) : Prop := map_Forall (fun k t => headId t + Z.of_nat (m k) < 2 ^ 16) (tables f).

End Spec.
End FreezerSpec.
Import FreezerSpec.

Module FreezerLemmas2.
Section Writing.
Context `{Snappy} `{RangeOrder}.

(** A table while an operation runs that started at length [n] with the items [c0]. *)
Definition busy (n m : nat) (off : Z) (c0 col : option (list (list Z))) (t : option freezerTable) (b : option freezerTableBatch) : Prop :=
  match c0, col, t, b with
  | Some c0, Some col, Some t, Some b =>
      c0 `prefix_of` col /\ length c0 = n /\ holding n off (b, t) (store t <$> col) /\ itemOffset t = 0 /\ headId t + Z.of_nat m < 2 ^ 16 /\ len col + Z.of_nat m < 2 ^ 40
  | None, None, None, None => True
  | _, _, _, _ => False
  end.

Record working (f : freezer) (n : nat) (m : string -> nat) (c0 cols : columns) : Prop := {
  w_off : 0 <= foffset f < 2 ^ 62;
  w_busy : forall k, busy n (m k) (foffset f) (c0 !! k) (cols !! k) (tables f !! k) (writeBatch f !! k)
}.

Lemma busy_weaken n m m' off c0 col t b : (m' <= m)%nat -> busy n m off c0 col t b -> busy n m' off c0 col t b.
Proof. intros Hm. unfold busy. destruct c0, col, t, b; try done. intros (? & ? & ? & ? & ? & ?). split_and!; try done; lia. Qed.

Lemma small_store t x : small x -> len (store t x) < 2 ^ 32.
Proof. intros [? ?]. unfold store. by destruct (noCompression t). Qed.

Lemma holding_next n off b t col : holding n off (b, t) (store t <$> col) -> itemOffset t = 0 -> 0 <= off < 2 ^ 62 -> len col < 2 ^ 40 -> curItem b = off + len col.
Proof.
  intros Hh Ho Hoff Hl. pose proof (holding_cur _ _ _ _ Hh) as Hc. cbn [fst snd] in Hc. rewrite Hc, Ho, length_fmap. unfold u64. rewrite Z.mod_small by lia. lia.
Qed.

(** The batch of a table appends an item, whose number has been checked. *)
Lemma busy_append n m off c0 col t b x :
  0 <= off < 2 ^ 62 -> busy n (S m) off (Some c0) (Some col) (Some t) (Some b) -> small x ->
  exists b' t', appendItem (store t x) (b, t) = (None, (b', t')) /\ busy n m off (Some c0) (Some (col ++ [x])) (Some t') (Some b').
Proof.
  intros Hoff (Hp & Hn & Hh & Ho & Hid & Hl) Hx. destruct (appendItem_ok n off (b, t) (store t <$> col) (store t x)) as ([b' t'] & E & Hh' & Hk & Hid'); cbn [fst snd] in *.
  - done.
  - lia.
  - by apply small_store.
  - rewrite Ho, length_app, length_fmap. cbn. lia.
  - exists b', t'. split; [done|]. assert (store t' <$> col ++ [x] = (store t <$> col) ++ [store t x]) as E'.
    { rewrite fmap_app. f_equal; [apply list_fmap_ext; intros ? ? _|cbn; f_equal]; by apply kept_store. }
    destruct Hk as (Ho' & _). cbn [busy]. rewrite E'. split_and!; [by apply prefix_app_r|done|done|congruence|lia|rewrite length_app; cbn; lia].
Qed.

Lemma spend_le kind m k : (spend kind m k <= m k)%nat.
Proof. unfold spend. case_decide; lia. Qed.

Definition zero : string -> nat := fun _ => 0%nat.

(** A step of a batch that appends [item] under the number [num]. *)
Definition appends (num : Z) (item : go (Rlp.res (list Z))) (g : freezerTableBatch * freezerTable -> go (option fErr * (freezerTableBatch * freezerTable))) : Prop :=
  forall b t, g (b, t) =
    if decide (curItem b = num) then let! r := item in Ret match r with Rlp.Err e => (Some (errRlp e), (b, t)) | Rlp.Ok x => appendItem (store t x) (b, t) end
    else Ret (Some (errOutOrderInsertion num (curItem b)), (b, t)).

Lemma AppendRaw_appends num item : appends num (Ret (Rlp.Ok item)) (fun s => Ret (AppendRaw num item s)).
Proof. intros b t. unfold AppendRaw. destruct (decide _) as [->|Hne]; [by rewrite Z.eqb_refl|]. by rewrite (proj2 (Z.eqb_neq _ _)) by congruence. Qed.

Lemma Append_appends num item : appends num (RlpEncode.EncodeToBytes item) (Append num item).
Proof.
  intros b t. unfold Append. destruct (decide _) as [->|Hne]; [|by rewrite (proj2 (Z.eqb_neq _ _)) by congruence].
  rewrite Z.eqb_refl. cbn [negb]. by destruct (RlpEncode.EncodeToBytes item) as [[x|e]|].
Qed.

(** [onBatch] and the abstract append. *)
Lemma onBatch_ok f n m c0 cols kind num (item : go (Rlp.res (list Z))) g :
  working f n m c0 cols -> (0 < m kind)%nat -> appends num item g -> (forall x, item = Ret (Rlp.Ok x) -> small x) ->
  match absAppend (foffset f) kind num item cols with
  | Panic => onBatch f kind g = Panic
  | Ret (e, cols') => exists f', onBatch f kind g = Ret (e, f') /\ working f' n (spend kind m) c0 cols' /\ foffset f' = foffset f /\ frozen f' = frozen f /\ freadonly f' = freadonly f
  end.
Proof.
  intros [Hoff Hb] Hpos Hg Hs. pose proof (Hb kind) as Hk. unfold absAppend, onBatch, busy in *.
  destruct (c0 !! kind) as [c|] eqn:Ec, (cols !! kind) as [col|] eqn:Ecol, (tables f !! kind) as [t|] eqn:Et, (writeBatch f !! kind) as [b|] eqn:Eb; try done.
  pose proof Hk as (Hp & Hn & Hh & Ho & Hid & Hl). pose proof (holding_next _ _ _ _ _ Hh Ho Hoff ltac:(lia)) as Hcur.
  assert (forall f' : freezer, tables f' = <[kind := t]> (tables f) -> writeBatch f' = <[kind := b]> (writeBatch f) -> foffset f' = foffset f -> working f' n (spend kind m) c0 cols) as Hsame.
  { intros f' E1 E2 E3. constructor; [by rewrite E3|]. intros k. rewrite E1, E2, E3, !insert_id by done. eapply busy_weaken, Hb. apply spend_le. }
  destruct (Z.eqb_spec num (foffset f + len col)) as [->|Hne]; cbn [negb].
  - rewrite Hg, decide_True by done. destruct item as [[x|e]|]; [|by eexists; split; [done|]; split; [apply Hsame|]|done].
    destruct (busy_append n (pred (m kind)) (foffset f) c col t b x) as (b' & t' & -> & Hb'); [done|by rewrite Nat.succ_pred_pos|by apply Hs|].
    eexists. split; [done|]. split; [|done]. constructor; [done|]. cbn [foffset tables writeBatch setTables setBatch]. intros k. destruct (decide (k = kind)) as [->|Hk'].
    + rewrite !lookup_insert_eq, Ec. unfold spend. by rewrite decide_True.
    + rewrite !lookup_insert_ne by done. eapply busy_weaken, Hb. apply spend_le.
  - rewrite Hg, decide_False by congruence. rewrite Hcur. eexists. split; [done|]. split; [by apply Hsame|done].
Qed.

Lemma runOp_ok fn : forall f n m c0 cols, working f n m c0 cols -> fits m fn ->
  match absRun (foffset f) fn cols with
  | Panic => runOp fn f = Panic
  | Ret (e, cols') => exists f', runOp fn f = Ret (e, f') /\ working f' n zero c0 cols' /\ foffset f' = foffset f /\ frozen f' = frozen f /\ freadonly f' = freadonly f
  end.
Proof.
  induction fn as [e| |kind num item k IH|kind num item k IH]; intros f n m c0 cols Hw Hf; cbn [absRun runOp].
  - exists f. split_and!; try done. destruct Hw as [Ho Hb]. constructor; [done|]. intros k. eapply busy_weaken, Hb. unfold zero. lia.
  - done.
  - destruct Hf as (Hpos & Hs & Hk).
    pose proof (onBatch_ok f n m c0 cols kind num _ _ Hw Hpos (AppendRaw_appends num item)) as Hstep. specialize (Hstep ltac:(congruence)).
    destruct (absAppend _ _ _ _ _) as [[e cols']|]; [|by rewrite Hstep].
    destruct Hstep as (f' & -> & Hw' & E1 & E2 & E3). cbn beta iota. cbn [fst snd]. specialize (IH e f' n (spend kind m) c0 cols' Hw' (Hk e)). by rewrite E1, E2, E3 in IH.
  - destruct Hf as (Hpos & Hs & Hk).
    pose proof (onBatch_ok f n m c0 cols kind num _ _ Hw Hpos (Append_appends num item) Hs) as Hstep. destruct (absAppend _ _ _ _ _) as [[e cols']|]; [|by rewrite Hstep].
    destruct Hstep as (f' & -> & Hw' & E1 & E2 & E3). cbn beta iota. cbn [fst snd]. specialize (IH e f' n (spend kind m) c0 cols' Hw' (Hk e)). by rewrite E1, E2, E3 in IH.
Qed.

Lemma reset_working f n m cols : freezerHolds f n cols -> room m f -> (forall k, Z.of_nat n + Z.of_nat (m k) < 2 ^ 40) -> working (resetBatch f) n m cols cols.
Proof.
  intros Hf Hr Hm. constructor; [apply Hf|]. unfold resetBatch. cbn [setBatch foffset tables writeBatch]. intros k. rewrite map_lookup_imap.
  pose proof (fh_tables _ _ _ Hf k) as Hk. pose proof (fh_level _ _ _ Hf k) as Hlev. pose proof (Hr k) as Hroom. unfold column, busy in *.
  destruct (cols !! k) as [col|], (tables f !! k) as [t|] eqn:Et, (writeBatch f !! k) as [b|]; try done. cbn. destruct Hk as ([es Hi] & Ho & Hb).
  specialize (Hlev col eq_refl). specialize (Hroom t eq_refl). specialize (Hm k). rewrite Hb. cbn in Hlev, Hroom. split_and!; [done|done| |done|lia|lia].
  rewrite <- Hlev. pose proof (holding_new t _ es (foffset f) Hi) as Hh. by rewrite length_fmap in Hh.
Qed.

(** ** The commit *)

Lemma commit_holding n off b t col :
  holding n off (b, t) (store t <$> col) -> itemOffset t = 0 -> len col < 2 ^ 40 ->
  exists b' t', commit (b, t) = (None, (b', t')) /\ holding n off (b', t') (store t' <$> col) /\ tableHolds t' col /\ kept t t' /\ headId t' = headId t.
Proof.
  intros (bs & es & ps & es' & Hi & Hp & E & Ho & Hn) Hz Hl. cbn [fst snd] in *.
  destruct (commit_ok t bs es b ps es') as (b' & t' & Ec & Hi' & Hp' & Hk & Hb & Hh); [done|done|rewrite Hz, <- E, length_fmap; lia|].
  exists b', t'. assert (store t' <$> col = bs ++ ps) as E' by (rewrite <- E; apply list_fmap_ext; intros ? ? _; by apply kept_store).
  split_and!; [done| |exists (es ++ es'); by rewrite E'|apply Hk..|done]. exists (bs ++ ps), (es ++ es'), [], []. cbn [fst snd].
  rewrite app_nil_r. split_and!; [done|done|done|congruence|rewrite length_app; lia].
Qed.

Lemma sameCount_spec bs l item : (forall k b, bs !! k = Some b -> curItem b < MaxUint64) ->
  match sameCount bs item l with
  | inl r => (forall k b, k ∈ l -> bs !! k = Some b -> curItem b = r) /\ (item < MaxUint64 -> r = item)
  | inr _ => forall r, (forall k b, k ∈ l -> bs !! k = Some b -> curItem b = r) -> item < MaxUint64 /\ r <> item
  end.
Proof.
  intros Hmax. revert item. induction l as [|k l IH]; intros item; cbn [sameCount]; [split; [|done]; intros k b Hk; by apply not_elem_of_nil in Hk|].
  destruct (bs !! k) as [b|] eqn:Eb.
  - destruct (_ && _) eqn:Et.
    + intros r Hr. rewrite <- (Hr k b) by (done || apply list_elem_of_here). apply andb_true_iff in Et as [? ?]. split; [lia|]. intros E. rewrite E, Z.eqb_refl in *. done.
    + specialize (IH (curItem b)). pose proof (Hmax _ _ Eb) as Hb. destruct (sameCount bs (curItem b) l) as [r|e].
      * destruct IH as [IH1 IH2]. specialize (IH2 Hb). subst r. split.
        -- intros k' b' [->|Hk']%elem_of_cons Hb'; [by simplify_eq|by apply (IH1 k')].
        -- intros Hi. apply andb_false_iff in Et as [Et|Et]; [lia|]. by apply negb_false_iff, Z.eqb_eq in Et.
      * intros r Hr. destruct (IH r) as [_ Hne]; [intros k' b' Hk'; apply Hr; by apply list_elem_of_further|]. destruct Hne. symmetry. apply (Hr k b); [apply list_elem_of_here|done].
  - specialize (IH item). destruct (sameCount bs item l) as [r|e].
    + destruct IH as [IH1 IH2]. split; [|done]. intros k' b' [->|Hk']%elem_of_cons Hb'; [congruence|by apply (IH1 k')].
    + intros r Hr. apply IH. intros k' b' Hk'. apply Hr. by apply list_elem_of_further.
Qed.

Lemma commitAll_ok n c0 cols l : NoDup l -> forall f ws, working f n zero c0 cols ->
  exists ws' f', commitAll l f ws = (inl ws', f') /\ working f' n zero c0 cols /\ foffset f' = foffset f /\ freadonly f' = freadonly f /\
    (forall k t col, k ∈ l -> tables f' !! k = Some t -> cols !! k = Some col -> tableHolds t col) /\ (forall k, k ∉ l -> tables f' !! k = tables f !! k).
Proof.
  induction 1 as [|k l Hk _ IH]; intros f ws Hw; cbn [commitAll].
  - exists ws, f. split_and!; try done. intros k t col Hk. by apply not_elem_of_nil in Hk.
  - pose proof (w_busy _ _ _ _ _ Hw k) as Hb. unfold busy in Hb.
    destruct (c0 !! k) as [c|] eqn:Ec, (cols !! k) as [col|] eqn:Ecol, (tables f !! k) as [t|] eqn:Et, (writeBatch f !! k) as [b|] eqn:Eb; try done.
    + destruct Hb as (Hp & Hn & Hh & Ho & Hid & Hl). destruct (commit_holding _ _ _ _ _ Hh Ho ltac:(lia)) as (b' & t' & -> & Hh' & Ht & (Ho' & _) & Hid').
      match goal with |- context [commitAll l ?f1 ?w] => destruct (IH f1 w) as (ws' & f' & E & Hw' & E1 & E2 & Hs & Hsame) end.
      * constructor; [apply Hw|]. cbn [foffset tables writeBatch setTables setBatch]. intros k'. destruct (decide (k' = k)) as [->|Hne].
        -- rewrite !lookup_insert_eq, Ec, Ecol. cbn [busy]. split_and!; try done; [congruence|lia].
        -- rewrite !lookup_insert_ne by done. apply Hw.
      * exists ws', f'. cbn [foffset freadonly tables setTables setBatch] in *. split_and!; [done|done|done|done| |].
        -- intros k' t1 col1 [->|Hk']%elem_of_cons E1' E2'; [|by apply (Hs k')]. rewrite Hsame, lookup_insert_eq in E1' by done. congruence.
        -- intros k' [? ?]%not_elem_of_cons. rewrite Hsame, lookup_insert_ne by done. done.
    + destruct (IH f ws Hw) as (ws' & f' & E & Hw' & E1 & E2 & Hs & Hsame). exists ws', f'. split_and!; [done|done|done|done| |].
      * intros k' t1 col1 [->|Hk']%elem_of_cons E1' E2'; [congruence|by apply (Hs k')].
      * intros k' [? ?]%not_elem_of_cons. by apply Hsame.
Qed.

(** ** The roll back *)

Lemma rollBack_ok f n c0 cols : working f n zero c0 cols -> foffset f = 0 ->
  forall k, column (foffset f) (c0 !! k) (tables (rollBack (Z.of_nat n) f) !! k) (writeBatch f !! k).
Proof.
  intros [Hoff Hw] Hz k. unfold rollBack. cbn [tables setTables]. rewrite lookup_fmap. specialize (Hw k). unfold busy, column in *.
  destruct (c0 !! k) as [c|], (cols !! k) as [col|], (tables f !! k) as [t|], (writeBatch f !! k) as [b|]; try done. cbn [fmap option_fmap option_map].
  destruct Hw as ([rest ->] & <- & (bs & es & ps & es' & Hi & Hp & E & Ho & Hn) & Hi0 & Hid & Hl). cbn [fst snd] in *. rewrite length_app in Hl.
  assert (length (store t <$> c ++ rest) = length (bs ++ ps)) as El by (by rewrite E). rewrite length_fmap, !length_app in El.
  destruct (truncate_ok t bs es (Z.of_nat (length c)) Hi Hi0) as (t' & es1 & -> & Hi' & Hk & _); [lia|lia|]. cbn [snd]. pose proof Hk as (Hk0 & _). split_and!; [|congruence|done].
  exists es1. replace (store t' <$> c) with (take (Z.to_nat (Z.of_nat (length c))) bs); [done|]. rewrite Nat2Z.id.
  rewrite (list_fmap_ext _ (store t)) by (intros ? ? _; by apply kept_store).
  rewrite <- (take_app_le bs ps) by lia. rewrite <- E, fmap_app. apply take_app_length'. by rewrite length_fmap.
Qed.

Lemma kinds_elem {A} (m : gmap string A) k : k ∈ kinds m <-> is_Some (m !! k).
Proof. unfold kinds. rewrite peerOrder_perm, elem_of_elements. apply elem_of_dom. Qed.

Lemma kinds_NoDup {A} (m : gmap string A) : NoDup (kinds m).
Proof. unfold kinds. rewrite peerOrder_perm. apply NoDup_elements. Qed.

(** Every column has its batch, whose count is the length of the column. *)
Lemma working_batch f n c0 cols k b : working f n zero c0 cols -> writeBatch f !! k = Some b -> exists col, cols !! k = Some col /\ curItem b = foffset f + len col /\ len col < 2 ^ 40.
Proof.
  intros [Hoff Hw] Eb. specialize (Hw k). unfold busy in Hw. rewrite Eb in Hw. destruct (c0 !! k), (cols !! k) as [col|], (tables f !! k) as [t|]; try done.
  destruct Hw as (_ & _ & Hh & Ho & _ & Hl). exists col. split_and!; [done|by eapply (holding_next n _ b t); [done..|lia]|lia].
Qed.

Lemma working_col f n m c0 cols k col : working f n m c0 cols -> cols !! k = Some col -> exists t b, tables f !! k = Some t /\ writeBatch f !! k = Some b /\ itemOffset t = 0 /\ boffset b = foffset f.
Proof.
  intros [Hoff Hw] Ec. specialize (Hw k). unfold busy in Hw. rewrite Ec in Hw. destruct (c0 !! k), (tables f !! k) as [t|], (writeBatch f !! k) as [b|]; try done.
  destruct Hw as (_ & _ & (? & ? & ? & ? & _ & _ & _ & Ho & _) & Hi & _). by exists t, b.
Qed.

Lemma working_none f n m c0 cols k : working f n m c0 cols -> cols !! k = None -> c0 !! k = None /\ tables f !! k = None /\ writeBatch f !! k = None.
Proof. intros [Hoff Hw] Ec. specialize (Hw k). unfold busy in Hw. rewrite Ec in Hw. by destruct (c0 !! k), (tables f !! k) as [t|], (writeBatch f !! k) as [b|]. Qed.

Lemma commitBatch_ok f n c0 cols : working f n zero c0 cols -> cols <> ∅ ->
  match commitBatch f with
  | (inl (item, _), f') => exists n', level n' cols /\ item = foffset f + Z.of_nat n' /\ foffset f' = foffset f /\ freadonly f' = freadonly f /\
      forall k, column (foffset f) (cols !! k) (tables f' !! k) (writeBatch f' !! k)
  | (inr _, f') => f' = f /\ forall n', ~ level n' cols
  end.
Proof.
  intros Hw Hne. pose proof (w_off _ _ _ _ _ Hw) as Hoff. unfold commitBatch. pose proof (sameCount_spec (writeBatch f) (kinds (writeBatch f)) MaxUint64) as Hs.
  destruct (sameCount _ _ _) as [item|e].
  - destruct Hs as [Hs _]. { intros k b Eb. destruct (working_batch _ _ _ _ _ _ Hw Eb) as (col & _ & -> & Hl). unfold MaxUint64. lia. }
    destruct (commitAll_ok n c0 cols _ (kinds_NoDup (writeBatch f)) f 0 Hw) as (ws & f' & -> & Hw' & E1 & E2 & Ht & _).
    destruct (map_choose cols Hne) as (k0 & col0 & E0). destruct (working_col _ _ _ _ _ _ _ Hw E0) as (t0 & b0 & _ & Eb0 & _).
    destruct (working_batch _ _ _ _ _ _ Hw Eb0) as (col0' & E0' & Hc0 & _). assert (item = foffset f + len col0) as ->.
    { rewrite <- (Hs k0 b0) by (done || by apply kinds_elem; eexists). rewrite Hc0. congruence. }
    exists (length col0). split_and!; try done.
    + intros k col Ecol. destruct (working_col _ _ _ _ _ _ _ Hw Ecol) as (t & b & _ & Eb & _). destruct (working_batch _ _ _ _ _ _ Hw Eb) as (col' & Ecol' & Hc & _).
      rewrite (Hs k b) in Hc by (done || by apply kinds_elem; eexists). simplify_eq. cbn. lia.
    + intros k. destruct (cols !! k) as [col|] eqn:Ecol; cbn [column].
      * destruct (working_col _ _ _ _ _ _ _ Hw' Ecol) as (t & b & Et & Eb & Ho & Hb). rewrite Et, Eb. split_and!; [|done|congruence].
        apply (Ht k); [|done|done]. apply kinds_elem. destruct (working_col _ _ _ _ _ _ _ Hw Ecol) as (? & ? & _ & ? & _). by eexists.
      * by destruct (working_none _ _ _ _ _ _ Hw' Ecol) as (_ & -> & ->).
  - split; [done|]. intros n' Hlev. destruct (Hs) with (r := foffset f + Z.of_nat n') as [Hlt _]; [| |unfold MaxUint64 in Hlt; lia].
    { intros k b Eb. destruct (working_batch _ _ _ _ _ _ Hw Eb) as (col & _ & -> & Hl). unfold MaxUint64. lia. }
    intros k b _ Eb. destruct (working_batch _ _ _ _ _ _ Hw Eb) as (col & Ecol & -> & _). by rewrite (Hlev k col Ecol).
Qed.

Lemma rollBack_holds f f0 n c0 cols : working f n zero c0 cols -> freezerHolds f0 n c0 -> foffset f0 = 0 -> foffset f = foffset f0 -> frozen f = frozen f0 -> freadonly f = freadonly f0 ->
  freezerHolds (rollBack (frozen f0) f) n c0.
Proof.
  intros Hw Hf Hz E1 E2 E3. rewrite (fh_frozen _ _ _ Hf), Hz, Z.add_0_l. constructor; try apply Hf; cbn [rollBack setTables freadonly foffset frozen writeBatch].
  - rewrite E3. apply Hf.
  - rewrite E1. apply Hf.
  - rewrite E1, E2. apply Hf.
  - apply (rollBack_ok f n c0 cols Hw). congruence.
Qed.

End Writing.

(** ** Truncating and opening *)

Section Opening.
Context `{Snappy} `{RangeOrder}.

Lemma truncate_holds t col n : tableHolds t col -> itemOffset t = 0 -> len col < 2 ^ 40 -> 0 <= n ->
  exists t', truncate n t = (inl tt, t') /\ tableHolds t' (take (Z.to_nat n) col) /\ itemOffset t' = 0.
Proof.
  intros [es Hi] Hz Hl Hn. destruct (truncate_ok t _ es n Hi Hz) as (t' & es' & E & Hi' & Hk & _); [by rewrite length_fmap|done|].
  exists t'. pose proof Hk as (Ho & _). split_and!; [done| |congruence]. exists es'. rewrite <- fmap_take in Hi'. by rewrite (list_fmap_ext _ (store t)) by (intros ? ? _; by apply kept_store).
Qed.

(** A table for a column. *)
Definition holdsCol (col : option (list (list Z))) (t : option freezerTable) : Prop :=
  match col, t with Some col, Some t => tableHolds t col /\ itemOffset t = 0 /\ len col < 2 ^ 40 | None, None => True | _, _ => False end.

(** All tables cut to the length [n]. *)
Lemma eachTable_ok n (cols : columns) l ts : NoDup l -> 0 <= n -> (forall k, holdsCol (cols !! k) (ts !! k)) ->
  exists ts', eachTable (truncate n) l ts = (None, ts') /\ forall k, holdsCol (if decide (k ∈ l) then take (Z.to_nat n) <$> cols !! k else cols !! k) (ts' !! k).
Proof.
  intros Hl Hn. revert cols ts. induction Hl as [|k l Hk _ IH]; intros cols ts Hc; cbn [eachTable].
  - exists ts. split; [done|]. intros k. rewrite decide_False by apply not_elem_of_nil. apply Hc.
  - pose proof (Hc k) as Hk'. destruct (cols !! k) as [col|] eqn:Ec, (ts !! k) as [t|] eqn:Et; try done.
    + destruct Hk' as (Ht & Ho & Hlen). destruct (truncate_holds t col n Ht Ho Hlen Hn) as (t' & -> & Ht' & Ho').
      destruct (IH (<[k := take (Z.to_nat n) col]> cols) (<[k := t']> ts)) as (ts' & E & Hts').
      { intros k'. destruct (decide (k' = k)) as [->|Hne]; [|by rewrite !lookup_insert_ne by done]. rewrite !lookup_insert_eq. cbn [holdsCol]. split_and!; [done|done|rewrite length_take; lia]. }
      exists ts'. split; [done|]. intros k'. specialize (Hts' k'). destruct (decide (k' = k)) as [->|Hne].
      * rewrite decide_False, lookup_insert_eq in Hts' by done. rewrite decide_True by apply list_elem_of_here. by rewrite Ec.
      * rewrite lookup_insert_ne in Hts' by done. rewrite (decide_ext (k' ∈ k :: l) (k' ∈ l)) by set_solver. done.
    + destruct (IH cols ts Hc) as (ts' & E & Hts'). exists ts'. split; [done|]. intros k'. specialize (Hts' k'). destruct (decide (k' = k)) as [->|Hne].
      * rewrite decide_False in Hts' by done. rewrite decide_True by apply list_elem_of_here. by rewrite Ec in *.
      * rewrite (decide_ext (k' ∈ k :: l) (k' ∈ l)) by set_solver. done.
Qed.

Lemma holdsCol_dom (cols : columns) (ts : gmap string freezerTable) : (forall k, holdsCol (cols !! k) (ts !! k)) -> forall k, is_Some (ts !! k) <-> is_Some (cols !! k).
Proof. intros Hc k. specialize (Hc k). destruct (cols !! k), (ts !! k); done. Qed.

Lemma eachTable_all n (cols : columns) ts : 0 <= n -> (forall k, holdsCol (cols !! k) (ts !! k)) ->
  exists ts', eachTable (truncate n) (kinds ts) ts = (None, ts') /\ forall k, holdsCol ((take (Z.to_nat n) <$> cols) !! k) (ts' !! k).
Proof.
  intros Hn Hc. destruct (eachTable_ok n cols (kinds ts) ts (kinds_NoDup ts) Hn Hc) as (ts' & E & Hts). exists ts'. split; [done|]. intros k. specialize (Hts k). rewrite lookup_fmap.
  destruct (decide _) as [Hk|Hk]; [done|]. destruct (cols !! k) as [col|] eqn:Ec; [|done]. destruct Hk. apply kinds_elem, (holdsCol_dom cols ts Hc). rewrite Ec. by eexists.
Qed.

Lemma freezerHolds_cols f n cols : freezerHolds f n cols -> Z.of_nat n < 2 ^ 40 -> forall k, holdsCol (cols !! k) (tables f !! k).
Proof.
  intros Hf Hn k. pose proof (fh_tables _ _ _ Hf k) as Hk. pose proof (fh_level _ _ _ Hf k) as Hlev. unfold column, holdsCol in *.
  destruct (cols !! k) as [col|], (tables f !! k), (writeBatch f !! k); try done. destruct Hk as (Ht & Ho & _). specialize (Hlev col eq_refl). cbn in Hlev. split_and!; [done|done|lia].
Qed.

(** What is on disk for a kind opens to a table with a column. *)
Definition opens (dir : gmap string onDisk) (max : Z) (k : string) (nc : option bool) (col : option (list (list Z))) : Prop :=
  match nc, col with
  | Some nc, Some _ => let d := default (None, ∅) (dir !! k) in exists t, (newTable d.1 d.2 max nc false).1 = inl t /\ holdsCol col (Some t)
  | None, None => True
  | _, _ => False
  end.

Lemma openTables_ok dir max (cols : columns) l ts : NoDup l.*1 -> (forall k nc, (k, nc) ∈ l -> opens dir max k (Some nc) (cols !! k)) ->
  exists ts', openTables dir max false l ts = inl ts' /\ (forall k, k ∈ l.*1 -> holdsCol (cols !! k) (ts' !! k)) /\ (forall k, k ∉ l.*1 -> ts' !! k = ts !! k).
Proof.
  revert ts. induction l as [|[k nc] l IH]; intros ts Hnd Hl; cbn [openTables fmap list_fmap fst] in *.
  - exists ts. split_and!; [done| |done]. intros k Hk. by apply not_elem_of_nil in Hk.
  - apply NoDup_cons in Hnd as [Hk Hnd]. pose proof (Hl k nc (list_elem_of_here _ _)) as Ho. unfold opens in Ho. destruct (cols !! k) as [col|] eqn:Ec; [|done]. destruct Ho as (t & -> & Ht).
    destruct (IH (<[k := t]> ts) Hnd) as (ts' & E & H1 & H2); [intros; apply Hl; by apply list_elem_of_further|]. exists ts'. split_and!; [done| |].
    + intros k' [->|Hk']%elem_of_cons; [|by apply H1]. by rewrite H2, lookup_insert_eq, Ec by done.
    + intros k' [? ?]%not_elem_of_cons. by rewrite H2, lookup_insert_ne by done.
Qed.

Lemma minItems_spec ts l : let m := minItems ts l in (forall k t, k ∈ l -> ts !! k = Some t -> m <= items t) /\ m <= MaxUint64 /\ (m = MaxUint64 \/ exists k t, k ∈ l /\ ts !! k = Some t /\ m = items t).
Proof.
  induction l as [|k l IH] using rev_ind; cbn zeta in *; unfold minItems; [split_and!; [intros k t Hk; by apply not_elem_of_nil in Hk|done|by left]|].
  rewrite foldl_app. fold (minItems ts l). cbn [foldl]. destruct IH as (IH1 & IH2 & IH3). destruct (ts !! k) as [t|] eqn:Et.
  - destruct (Z.ltb_spec (items t) (minItems ts l)) as [Hlt|Hge].
    + split_and!; [|lia|right; exists k, t; split_and!; [|done|done]; set_solver]. intros k' t' [Hk'|Hk']%elem_of_app Et'; [specialize (IH1 k' t' Hk' Et'); lia|].
      apply list_elem_of_singleton in Hk' as ->. replace t' with t by congruence. lia.
    + split_and!; [|lia|destruct IH3 as [?|(k' & t' & ? & ? & ?)]; [by left|right; exists k', t'; set_solver]]. intros k' t' [Hk'|Hk']%elem_of_app Et'; [by apply (IH1 k')|].
      apply list_elem_of_singleton in Hk' as ->. replace t' with t by congruence. lia.
  - split_and!; [|lia|destruct IH3 as [?|(k' & t' & ? & ? & ?)]; [by left|right; exists k', t'; set_solver]]. intros k' t' [Hk'|Hk']%elem_of_app Et'; [by apply (IH1 k')|].
    apply list_elem_of_singleton in Hk' as ->. congruence.
Qed.

Lemma holdsCol_items col t : holdsCol (Some col) (Some t) -> items t = len col.
Proof. intros ([es Hi] & Ho & _). rewrite (i_items _ _ _ Hi), Ho, length_fmap. lia. Qed.

(** The common length is that of the shortest column. *)
Lemma minItems_cols (cols : columns) ts : cols <> ∅ -> (forall k, holdsCol (cols !! k) (ts !! k)) ->
  exists n, minItems ts (kinds ts) = Z.of_nat n /\ (forall k col, cols !! k = Some col -> (n <= length col)%nat) /\ exists k col, cols !! k = Some col /\ n = length col.
Proof.
  intros Hne Hc. destruct (minItems_spec ts (kinds ts)) as (H1 & _ & H3). assert (forall k col, cols !! k = Some col -> exists t, ts !! k = Some t /\ k ∈ kinds ts /\ items t = len col /\ len col < 2 ^ 40) as Hcol.
  { intros k col Ec. pose proof (Hc k) as Hk. rewrite Ec in Hk. destruct (ts !! k) as [t|] eqn:Et; [|done]. exists t.
    split_and!; [done|apply kinds_elem; by eexists|by apply holdsCol_items|apply Hk]. }
  assert (forall k col, cols !! k = Some col -> minItems ts (kinds ts) <= len col) as Hle.
  { intros k col Ec. destruct (Hcol k col Ec) as (t & Et & Hk & <- & _). by apply (H1 k). }
  destruct (map_choose cols Hne) as (k0 & col0 & E0). destruct H3 as [Hm|(k & t & Hk & Et & Em)].
  - destruct (Hcol _ _ E0) as (_ & _ & _ & _ & Hl). specialize (Hle _ _ E0). unfold MaxUint64 in Hm. lia.
  - pose proof (Hc k) as Hk'. rewrite Et in Hk'. destruct (cols !! k) as [col|] eqn:Ec; [|done]. exists (length col). rewrite Em, (holdsCol_items col t Hk'). split_and!; [done| |by exists k, col].
    intros k' col' Ec'. specialize (Hle k' col' Ec'). rewrite Em, (holdsCol_items col t Hk') in Hle. lia.
Qed.

Lemma onBatch_offset f kind g e f' : onBatch f kind g = Ret (e, f') -> foffset f' = foffset f.
Proof.
  unfold onBatch. destruct (writeBatch f !! kind) as [b|], (tables f !! kind) as [t|]; try done. destruct (g (b, t)) as [[e' [b' t']]|]; [|done]. by intros [= <- <-].
Qed.

Lemma runOp_offset fn : forall f e f', runOp fn f = Ret (e, f') -> foffset f' = foffset f.
Proof.
  induction fn as [e0| |kind num item k IH|kind num item k IH]; intros f e f'; cbn [runOp]; [by intros [= _ <-]|done|..];
    (destruct (onBatch _ _ _) as [[e1 f1]|] eqn:E; [|done]); intros Hr; apply IH in Hr; by rewrite Hr, (onBatch_offset _ _ _ _ _ E).
Qed.

Lemma commitAll_offset l : forall f ws r f', commitAll l f ws = (r, f') -> foffset f' = foffset f.
Proof.
  induction l as [|k l IH]; intros f ws r f'; cbn [commitAll]; [by intros [= _ <-]|]. destruct (writeBatch f !! k) as [b|], (tables f !! k) as [t|]; try apply IH.
  destruct (commit (b, t)) as [[e|] [b' t']]; [by intros [= _ <-]|]. intros Hr. by apply IH in Hr.
Qed.

(** The offset of a freezer never changes. *)
Lemma ModifyAncients_offset fn f ws e f' : ModifyAncients fn f = Ret (ws, e, f') -> foffset f' = foffset f.
Proof.
  unfold ModifyAncients. destruct (freadonly f); [by intros [= _ _ <-]|]. destruct (runOp fn (resetBatch f)) as [[e1 f1]|] eqn:E; [|done]. apply runOp_offset in E. change (foffset (resetBatch f)) with (foffset f) in E. cbn beta iota.
  destruct e1 as [e1|]; [by intros [= _ _ <-]|]. unfold commitBatch. destruct (sameCount _ _ _) as [item|]; [|by intros [= _ _ <-]].
  destruct (commitAll _ f1 0) as [r f2] eqn:Ec. apply commitAll_offset in Ec. destruct r; intros [= _ _ <-]; cbn; congruence.
Qed.

Lemma ModifyAncients_ok f n m cols fn :
  freezerHolds f n cols -> room m f -> (forall k, Z.of_nat n + Z.of_nat (m k) < 2 ^ 40) -> fits m fn ->
  match absRun (foffset f) fn cols with
  | Panic => ModifyAncients fn f = Panic
  | Ret (Some e, _) => exists f', ModifyAncients fn f = Ret (0, Some e, f') /\ (foffset f = 0 -> freezerHolds f' n cols)
  | Ret (None, cols') =>
      (exists n' ws f', level n' cols' /\ ModifyAncients fn f = Ret (ws, None, f') /\ freezerHolds f' n' cols') \/
      ((forall n', ~ level n' cols') /\ exists e f', ModifyAncients fn f = Ret (0, Some e, f') /\ (foffset f = 0 -> freezerHolds f' n cols))
  end.
Proof.
  intros Hf Hr Hm Hfit. pose proof (reset_working f n m cols Hf Hr Hm) as Hw. pose proof (runOp_ok fn _ _ _ _ _ Hw Hfit) as Hrun.
  change (foffset (resetBatch f)) with (foffset f) in Hrun. unfold ModifyAncients. rewrite (fh_rw _ _ _ Hf).
  destruct (absRun (foffset f) fn cols) as [[[e|] cols']|]; [| |by rewrite Hrun]; destruct Hrun as (f1 & -> & Hw1 & E1 & E2 & E3); cbn beta iota.
  - eexists. split; [done|]. intros Hz. eapply rollBack_holds; done || congruence.
  - assert (cols' <> ∅) as Hne.
    { intros ->. apply (fh_some _ _ _ Hf). apply map_empty. intros k. by destruct (working_none _ _ _ _ _ k Hw1 (lookup_empty k)) as (? & _). }
    pose proof (commitBatch_ok f1 n cols cols' Hw1 Hne) as Hc. destruct (commitBatch f1) as [[[item ws]|e] f2]; [left|right].
    + destruct Hc as (n' & Hlev & -> & F1 & F2 & Hcol). exists n', ws. eexists. split_and!; [done|done|]. constructor; cbn [setFrozen freadonly foffset frozen tables writeBatch]; try done.
      * rewrite F2, E3. apply Hf.
      * rewrite F1, E1. apply Hf.
      * by rewrite F1.
      * by rewrite F1.
    + destruct Hc as [-> Hlev]. split; [done|]. exists e. eexists. split; [done|]. intros Hz. eapply rollBack_holds; done || congruence.
Qed.

Lemma newFreezer_ok dir off max cfg cols :
  cols <> ∅ -> 0 <= off < 2 ^ 62 -> (forall k, opens dir max k (cfg !! k) (cols !! k)) ->
  exists f n, newFreezer Directory false dir false off max cfg = Ret (inl f) /\ freezerHolds f n (take n <$> cols) /\ foffset f = off /\
    (forall k col, cols !! k = Some col -> (n <= length col)%nat) /\ exists k col, cols !! k = Some col /\ n = length col.
Proof.
  intros Hne Hoff Ho. unfold newFreezer. set (l := omap _ _). assert (forall k nc, (k, nc) ∈ l <-> cfg !! k = Some nc) as Hl.
  { intros k nc. unfold l. rewrite list_elem_of_omap. split; [intros (k' & _ & E); destruct (cfg !! k') eqn:Ek; [|done]; cbn in E; congruence|].
    intros E. exists k. rewrite E. split; [apply kinds_elem; by eexists|done]. }
  assert (NoDup l.*1) as Hnd.
  { assert (forall ks, (omap (fun k => pair k <$> cfg !! k) ks).*1 `sublist_of` ks) as Hsub.
    { induction ks as [|k ks IH]; [done|]. cbn. destruct (cfg !! k); cbn; by constructor. }
    eapply sublist_NoDup; [apply (kinds_NoDup cfg)|apply Hsub]. }
  destruct (openTables_ok dir max cols l ∅ Hnd) as (ts & -> & Ht1 & Ht2); [intros k nc Hk; apply Hl in Hk; by rewrite <- Hk|].
  assert (forall k, holdsCol (cols !! k) (ts !! k)) as Hts.
  { intros k. destruct (decide (k ∈ l.*1)) as [Hk|Hk]; [by apply Ht1|]. rewrite Ht2, lookup_empty by done. specialize (Ho k). unfold opens in Ho. destruct (cfg !! k) as [nc|] eqn:E; [|by destruct (cols !! k)].
    destruct Hk. apply list_elem_of_fmap. exists (k, nc). split; [done|]. by apply Hl. }
  destruct (minItems_cols cols ts Hne Hts) as (n & Em & Hmin & Hreach). unfold repairFreezer. cbn [tables]. rewrite Em.
  destruct (eachTable_all (Z.of_nat n) cols ts) as (ts' & -> & Hts'); [lia|done|]. eexists _, n. split; [done|]. rewrite Nat2Z.id in Hts'.
  assert (Z.of_nat n < 2 ^ 40) as Hn. { destruct Hreach as (k & col & Ec & ->). specialize (Hts k). rewrite Ec in Hts. destruct (ts !! k); [|done]. apply Hts. }
  split_and!; [|done|done|done]. constructor; cbn [setBatch setFrozen setTables freadonly foffset frozen tables writeBatch newFreezerBatch]; try done.
  - unfold u64. rewrite Z.mod_small by lia. lia.
  - by rewrite fmap_empty_iff.
  - intros k col' E. rewrite lookup_fmap in E. destruct (cols !! k) as [col|] eqn:Ec; [|done]. injection E as <-. specialize (Hmin k col Ec). rewrite length_take. lia.
  - intros k. specialize (Hts' k). rewrite lookup_fmap in Hts'. unfold newFreezerBatch. cbn [setFrozen setTables tables foffset]. rewrite !lookup_fmap.
    destruct (cols !! k) as [col|], (ts' !! k) as [t|]; try done. destruct Hts' as (Hth & Hto & _). cbn [fmap option_fmap option_map column]. split_and!; done.
Qed.

End Opening.
End FreezerLemmas2.
Import FreezerLemmas2.

(** ** The theorems *)

Section FreezerTheorems.
Context `{Snappy} `{RangeOrder}.

(** C10: Write operations. Whatever an operation appends, in whatever order and with whatever numbers, the freezer does what appending to
    the columns does, with any offset: if the operation succeeds and leaves the columns equally long, the freezer holds the new columns; otherwise an
    error is returned, and it panics only when the operation does. In a freezer that starts at item 0 an operation that fails or leaves the columns unequal
    changes nothing: all tables go back to where they were, also those that have written items already. With an offset the roll back
    truncates to the wrong length and the tables may keep items. *)
Theorem modify_is_atomic f n m cols fn :
  freezerHolds f n cols -> room m f -> (forall k, Z.of_nat n + Z.of_nat (m k) < 2 ^ 40) -> fits m fn ->
  match absRun (foffset f) fn cols with
  | Panic => ModifyAncients fn f = Panic
  | Ret (Some e, _) => exists f', ModifyAncients fn f = Ret (0, Some e, f') /\ (foffset f = 0 -> freezerHolds f' n cols)
  | Ret (None, cols') =>
      (exists n' ws f', level n' cols' /\ ModifyAncients fn f = Ret (ws, None, f') /\ freezerHolds f' n' cols') \/
      ((forall n', ~ level n' cols') /\ exists e f', ModifyAncients fn f = Ret (0, Some e, f') /\ (foffset f = 0 -> freezerHolds f' n cols))
  end.
Proof. apply ModifyAncients_ok. Qed.

(** Reading. A freezer gives the item of a kind and a number between its offset and its length; other numbers, also those below the offset, are
    out of bounds, and other kinds are unknown. *)
Theorem freezer_reads f n cols kind number :
  freezerHolds f n cols -> Z.of_nat n < 2 ^ 40 -> in_u64 number ->
  Ancient f kind number = Ret match cols !! kind with
    | None => inr errUnknownTable
    | Some col => if decide (foffset f <= number) then match col !! Z.to_nat (number - foffset f) with Some x => inl x | None => inr errOutOfBounds end else inr errOutOfBounds
    end /\
  HasAncient f kind number = bool_decide (is_Some (cols !! kind) /\ foffset f <= number < foffset f + Z.of_nat n).
Proof.
  intros Hf Hn Hu. pose proof (freezerHolds_cols f n cols Hf Hn kind) as Hk. pose proof (fh_off _ _ _ Hf) as Hoff. pose proof (fh_level _ _ _ Hf kind) as Hlev. unfold Ancient, HasAncient, holdsCol in *.
  destruct (cols !! kind) as [col|], (tables f !! kind) as [t|]; try done.
  specialize (Hlev col eq_refl). cbn in Hlev. destruct Hk as ([es Hi] & Ho & Hl). unfold has. rewrite (i_items _ _ _ Hi), Ho, length_fmap, Hlev. unfold in_u64 in Hu.
  destruct (decide (foffset f <= number)) as [Hle|Hlt].
  - assert (u64 (number - foffset f) = number - foffset f) as -> by (unfold u64; apply Z.mod_small; lia). split.
    + destruct (col !! _) as [x|] eqn:Ex.
      * pose proof (Retrieve_ok t col es _ x Hi Hl Ex) as E. rewrite Ho, Z2Nat.id in E by lia. by rewrite Z.add_0_l in E.
      * apply lookup_ge_None in Ex. rewrite (Retrieve_out t _ es) by (done || rewrite ?Ho, length_fmap; lia). done.
    + symmetry. destruct (Z.ltb_spec (number - foffset f) (0 + Z.of_nat n)); [apply bool_decide_true; split; [by eexists|lia]|apply bool_decide_false; intros [_ ?]; lia].
  - assert (u64 (number - foffset f) = number - foffset f + 2 ^ 64) as -> by (unfold u64; rewrite <- (Z.mod_add _ 1) by lia; apply Z.mod_small; lia). split.
    + rewrite (Retrieve_out t _ es) by (done || rewrite ?Ho, length_fmap; lia). done.
    + rewrite (proj2 (Z.ltb_ge _ _)) by lia. symmetry. apply bool_decide_false. intros [_ ?]. lia.
Qed.

(** Truncation. Down to a number that is not below the offset, [TruncateAncients] cuts every column to it and keeps the freezer consistent. *)
Theorem truncate_ancients f n cols items :
  freezerHolds f n cols -> Z.of_nat n < 2 ^ 40 -> foffset f <= items < 2 ^ 64 ->
  let k := Z.to_nat (items - foffset f) in
  exists f', TruncateAncients items f = (None, f') /\ freezerHolds f' (min k n) (take k <$> cols).
Proof.
  intros Hf Hn Hi k. pose proof (fh_off _ _ _ Hf) as Hoff. unfold TruncateAncients. rewrite (fh_rw _ _ _ Hf), (fh_frozen _ _ _ Hf). destruct (Z.leb_spec (foffset f + Z.of_nat n) items) as [Hge|Hlt].
  - exists f. split; [done|]. rewrite Nat.min_r by lia. replace (take k <$> cols) with cols; [done|]. apply map_eq. intros k'. rewrite lookup_fmap.
    destruct (cols !! k') as [col|] eqn:Ec; [|done]. cbn. by rewrite take_ge by (rewrite (fh_level _ _ _ Hf k' col Ec); lia).
  - assert (u64 (items - foffset f) = items - foffset f) as -> by (unfold u64; apply Z.mod_small; lia).
    destruct (eachTable_all (items - foffset f) cols (tables f)) as (ts & -> & Hts); [lia|by eapply freezerHolds_cols|]. eexists. split; [done|]. rewrite Nat.min_l by lia.
    constructor; cbn [setFrozen setTables freadonly foffset frozen tables writeBatch]; try apply Hf; [lia|by rewrite fmap_empty_iff; apply Hf| |].
    + intros k' col' E. rewrite lookup_fmap in E. destruct (cols !! k') as [col|] eqn:Ec; [|done]. injection E as <-. rewrite length_take, (fh_level _ _ _ Hf k' col Ec). lia.
    + intros k'. specialize (Hts k'). pose proof (fh_tables _ _ _ Hf k') as Hc. unfold column, holdsCol in *. rewrite lookup_fmap in *. fold k in Hts.
      destruct (cols !! k') as [col|], (ts !! k') as [t|], (tables f !! k'), (writeBatch f !! k'); try done. destruct Hts as (? & ? & _), Hc as (_ & _ & ?). done.
Qed.

(** Opening. When the tables of all kinds can be opened, each with the items that are left to it, the freezer opens with the columns cut to
    the length of the shortest: what a crash between the writes to different tables has left is made consistent. *)
Theorem opens_at_common_length dir off max cfg cols :
  cols <> ∅ -> 0 <= off < 2 ^ 62 -> (forall k, opens dir max k (cfg !! k) (cols !! k)) ->
  exists f n, newFreezer Directory false dir false off max cfg = Ret (inl f) /\ freezerHolds f n (take n <$> cols) /\ foffset f = off /\
    (forall k col, cols !! k = Some col -> (n <= length col)%nat) /\ exists k col, cols !! k = Some col /\ n = length col.
Proof. apply newFreezer_ok. Qed.

(** A truncation below the offset cuts nothing and yet lowers the number of frozen items, so that the freezer reports fewer items than its offset. *)
Theorem truncate_below_offset f n cols items :
  freezerHolds f n cols -> Z.of_nat n < 2 ^ 40 -> 0 <= items < foffset f ->
  exists f', TruncateAncients items f = (None, f') /\ tables f' = tables f /\ frozen f' = items /\ ItemAmountInAncient f' = items - foffset f + 2 ^ 64.
Proof.
  intros Hf Hn Hi. pose proof (fh_off _ _ _ Hf) as Hoff. pose proof (freezerHolds_cols f n cols Hf Hn) as Hcols. unfold TruncateAncients. rewrite (fh_rw _ _ _ Hf), (fh_frozen _ _ _ Hf).
  rewrite (proj2 (Z.leb_gt _ _)) by lia. assert (u64 (items - foffset f) = items - foffset f + 2 ^ 64) as Eu by (unfold u64; rewrite <- (Z.mod_add _ 1) by lia; apply Z.mod_small; lia). rewrite Eu.
  assert (forall l, eachTable (truncate (items - foffset f + 2 ^ 64)) l (tables f) = (None, tables f)) as ->.
  { induction l as [|k l IH]; [done|]. cbn [eachTable]. destruct (tables f !! k) as [t|] eqn:Et; [|done]. specialize (Hcols k). rewrite Et in Hcols. destruct (cols !! k) as [col|] eqn:Ec; [|done].
    unfold truncate, andThen at 1, gets at 1. rewrite (holdsCol_items col t Hcols), (proj2 (Z.leb_le _ _)); [unfold done_; cbn beta iota; by rewrite insert_id|]. destruct Hcols as (_ & _ & ?). lia. }
  eexists. split_and!; [done|done|done|]. unfold ItemAmountInAncient. cbn [setFrozen setTables frozen foffset]. done.
Qed.

End FreezerTheorems.

#[local] Existing Instance markSnappy.

Module FreezerRun.

Definition config : gmap string bool := {["a" := true; "b" := false]}.

Definition nothing : columns := {["a" := []; "b" := []]}.

(** A freezer in an empty directory, with data files of eight bytes. *)
Definition empty (off : Z) : freezer :=
  match newFreezer NotExist false ∅ false off 8 config with Ret (inl f) => f | _ => mkFreezer 0 0 true ∅ ∅ 0 end.

(** Both items, one after the other, and what follows unless there is an error. *)
Definition append (kind : string) (num : Z) (item : list Z) (k : writeOp) : writeOp :=
  OpAppendRaw kind num item (fun e => match e with Some e => Finish (Some e) | None => k end).

Definition row (num : Z) (x y : list Z) (k : writeOp) : writeOp := append "a" num x (append "b" num y k).

Definition wide : list Z := replicate 7 1.

(** Rows of which the first is on disk before the last is appended. *)
Definition rows (num : Z) (k : writeOp) : writeOp := row num wide [2] (row (num + 1) wide [3; 3] k).

Definition written : columns := {["a" := [wide; wide]; "b" := [[2]; [3; 3]]]}.

Definition filled (off : Z) : freezer := match ModifyAncients (rows off (Finish None)) (empty off) with Ret (_, _, f) => f | Panic => empty off end.

Lemma opens_nothing k : opens ∅ 8 k (config !! k) (nothing !! k).
Proof.
  unfold opens, config, nothing. destruct (decide (k = "a")) as [->|Ha]; [|destruct (decide (k = "b")) as [->|Hb]].
  - rewrite !lookup_insert_eq. destruct (fresh_table 8 true ltac:(lia)) as (t & E & Hh & Ho & _). by exists t.
  - rewrite !lookup_insert_ne, !lookup_singleton_eq by done. destruct (fresh_table 8 false ltac:(lia)) as (t & E & Hh & Ho & _). by exists t.
  - rewrite !lookup_insert_ne, !lookup_singleton_ne by done. done.
Qed.

Lemma empty_holds off : 0 <= off < 2 ^ 62 -> freezerHolds (empty off) 0 nothing /\ foffset (empty off) = off.
Proof.
  intros Hoff. destruct (newFreezer_ok ∅ off 8 config nothing) as (f & n & E & Hf & Ho & Hn & _); [done|done|apply opens_nothing|].
  assert (n = 0%nat) as -> by (specialize (Hn "a" [] eq_refl); cbn in Hn; lia). unfold empty. change (newFreezer NotExist) with (newFreezer Directory). rewrite E.
  assert (take 0 <$> nothing = nothing) as En by (vm_compute; reflexivity). rewrite En in Hf. split; [exact Hf|exact Ho].
Qed.

(** Two items of every kind. *)
Definition two : string -> nat := fun _ => 2%nat.

Lemma empty_room : room two (empty 0).
Proof. apply map_Forall_to_list. vm_compute. repeat constructor. Qed.

Lemma small_row x : len x < 100 -> small x.
Proof. intros Hx. unfold small. cbn [snappyEncode markSnappy]. rewrite length_app. cbn [length]. lia. Qed.

Lemma fits_append m kind num item k : len item < 100 -> (0 < m kind)%nat -> fits (spend kind m) k -> fits m (append kind num item k).
Proof. intros Hi Hpos Hk. split; [done|]. split; [by apply small_row|]. intros [e|]; [exact I|exact Hk]. Qed.

Lemma fits_rows num err : fits two (rows num (Finish err)).
Proof. repeat (apply fits_append; [cbn; lia|vm_compute; lia|]). exact I. Qed.

Lemma filled_ok : freezerHolds (filled 0) 2 written.
Proof.
  destruct (empty_holds 0) as [Hf Ho]; [lia|]. pose proof (ModifyAncients_ok (empty 0) 0 two nothing (rows 0 (Finish None)) Hf empty_room ltac:(unfold two; lia) (fits_rows 0 None)) as Hm.
  assert (absRun 0 (rows 0 (Finish None)) nothing = Ret (None, written)) as E by (vm_compute; reflexivity). rewrite Ho, E in Hm. unfold filled. destruct Hm as [(n & ws & f' & Hl & -> & Hf')|[Hl _]].
  - specialize (Hl "a" [wide; wide] eq_refl). cbn in Hl. by subst n.
  - destruct (Hl 2%nat). apply map_Forall_to_list. vm_compute. repeat constructor.
Qed.

(** A freezer whose first item has number 100, after an operation that fails when an item of one kind is on disk, and after the next operation. *)
Definition failing : writeOp := append "a" 100 wide (append "a" 101 wide (Finish (Some errInvalid))).

Definition after (fn : writeOp) (f : freezer) : freezer := match ModifyAncients fn f with Ret (_, _, f) => f | Panic => f end.

Definition stuck : freezer := after failing (empty 100).

End FreezerRun.
Import FreezerRun.

(** The second operation fails after its rows are on disk. *)
Lemma modify_is_atomic_witness : (exists n ws f', level n written /\ ModifyAncients (rows 0 (Finish None)) (empty 0) = Ret (ws, None, f') /\ freezerHolds f' n written) /\
  exists f', ModifyAncients (rows 0 (Finish (Some errInvalid))) (empty 0) = Ret (0, Some errInvalid, f') /\ freezerHolds f' 0 nothing.
Proof.
  destruct (empty_holds 0) as [Hf Ho]; [lia|]. split.
  - pose proof (modify_is_atomic (empty 0) 0 two nothing (rows 0 (Finish None)) Hf empty_room ltac:(unfold two; lia) (fits_rows 0 None)) as Hm.
    assert (absRun 0 (rows 0 (Finish None)) nothing = Ret (None, written)) as E by (vm_compute; reflexivity). rewrite Ho, E in Hm.
    destruct Hm as [Hm|[Hl _]]; [exact Hm|]. destruct (Hl 2%nat). apply map_Forall_to_list. vm_compute. repeat constructor.
  - pose proof (modify_is_atomic (empty 0) 0 two nothing (rows 0 (Finish (Some errInvalid))) Hf empty_room ltac:(unfold two; lia) (fits_rows 0 (Some errInvalid))) as Hm.
    assert (absRun 0 (rows 0 (Finish (Some errInvalid))) nothing = Ret (Some errInvalid, written)) as E by (vm_compute; reflexivity). rewrite Ho, E in Hm.
    destruct Hm as (f' & E' & Hh). exists f'. split; [exact E'|exact (Hh eq_refl)].
Defined.

Lemma freezer_reads_witness : Ancient (filled 0) "b" 1 = Ret (inl [3; 3]) /\ Ancient (filled 0) "b" 2 = Ret (inr errOutOfBounds) /\ Ancient (filled 0) "c" 0 = Ret (inr errUnknownTable).
Proof.
  assert (forall kind n, in_u64 n -> Ancient (filled 0) kind n = Ret match written !! kind with
    | None => inr errUnknownTable
    | Some col => if decide (foffset (filled 0) <= n) then match col !! Z.to_nat (n - foffset (filled 0)) with Some x => inl x | None => inr errOutOfBounds end else inr errOutOfBounds end) as E.
  { intros kind n Hn. apply (freezer_reads (filled 0) 2 written); [apply filled_ok|lia|done]. }
  split_and!; rewrite E by (unfold in_u64; lia); vm_compute; reflexivity.
Defined.

Lemma truncate_ancients_witness : exists f', TruncateAncients 1 (filled 0) = (None, f') /\ freezerHolds f' 1 {["a" := [wide]; "b" := [[2]]]}.
Proof.
  destruct (truncate_ancients (filled 0) 2 written 1) as (f' & E & Hf); [apply filled_ok|lia|vm_compute; split; [discriminate|reflexivity]|].
  exists f'. split; [done|]. assert (take (Z.to_nat (1 - foffset (filled 0))) <$> written = {["a" := [wide]; "b" := [[2]]]}) as E1 by (vm_compute; reflexivity). rewrite E1 in Hf.
  assert (min (Z.to_nat (1 - foffset (filled 0))) 2 = 1%nat) as E2 by (vm_compute; reflexivity). rewrite E2 in Hf. exact Hf.
Defined.

Lemma opens_at_common_length_witness : exists f n, newFreezer Directory false ∅ false 7 8 config = Ret (inl f) /\ freezerHolds f n (take n <$> nothing) /\ foffset f = 7.
Proof.
  destruct (opens_at_common_length ∅ 7 8 config nothing) as (f & n & E & Hf & Ho & _); [done|lia|apply opens_nothing|]. exists f, n. split_and!; [exact E|exact Hf|exact Ho].
Defined.

Lemma truncate_below_offset_witness : exists f', TruncateAncients 3 (empty 7) = (None, f') /\ frozen f' = 3 /\ ItemAmountInAncient f' = 2 ^ 64 - 4.
Proof.
  destruct (empty_holds 7) as [Hf Ho]; [lia|]. destruct (truncate_below_offset (empty 7) 0 nothing 3) as (f' & E & _ & Hz & Ha); [done|lia|rewrite Ho; lia|].
  exists f'. rewrite Ho in Ha. split_and!; [exact E|exact Hz|lia].
Defined.

(** Above an offset the roll back is missing. A freezer whose first item has number 100 keeps the item that a failed operation has written to
    one of its tables: the item can be read, although no item is frozen, and from then on every operation is refused, since the tables no
    longer expect the same number. Reads of a range, moreover, count from the offset where single reads do not. *)
Theorem roll_back_ignores_offset :
  ModifyAncients failing (empty 100) = Ret (0, Some errInvalid, stuck) /\
  Ancients stuck = 100 /\ Ancient stuck "a" 100 = Ret (inl wide) /\ Ancient stuck "b" 100 = Ret (inr errOutOfBounds) /\
  ModifyAncients (row 100 wide [2] (Finish None)) stuck = Ret (0, Some (errOutOrderInsertion 100 101), after (row 100 wide [2] (Finish None)) stuck) /\
  AncientRange stuck "a" 100 1 100 = Ret (inr errOutOfBounds) /\ AncientRange stuck "a" 0 1 100 = Ret (inl [wide]).
Proof. split_and!; vm_compute; reflexivity. Qed.
