(* ===== verification/KeyValue.v ===== *)
(** * Key-value stores (src/ethdb/database.go, batch.go, iterator.go, memorydb/memorydb.go, src/core/rawdb/table.go)

    The memory store with its batches and iterators, and the interfaces of readers and writers as classes, with the laws that the accessors rely on.
    A store is a map, or nothing after it was closed; values are copied in and out, so that they are values here. *)

From stdpp Require Import base tactics list gmap sorting.
From Stdlib Require Import ZArith Lia.
From S2P Require Import Prelude.

Open Scope Z_scope.
Open Scope go_scope.

Notation bytes := (list Z).
Notation content := (gmap (list Z) (list Z)).

Inductive dbErr := errMemorydbClosed | errMemorydbNotFound.

(** ** Interfaces *)

Class KeyValueReader (R : Type) := {
  Has_ : R -> bytes -> bool;
  Get_ : R -> bytes -> option bytes
}.

Class KeyValueWriter (W : Type) := {
  Put_ : bytes -> bytes -> W -> option dbErr * W;
  Delete_ : bytes -> W -> option dbErr * W
}.

(** What a store contains once the writer is flushed to it. *)
Class LawfulWriter (W : Type) `{KeyValueWriter W} := {
  effect : W -> content -> content;
  usable : W -> Prop;
  put_effect k v w : usable w -> exists w', Put_ k v w = (None, w') /\ usable w' /\ forall m, effect w' m = <[k := v]> (effect w m);
  delete_effect k w : usable w -> exists w', Delete_ k w = (None, w') /\ usable w' /\ forall m, effect w' m = delete k (effect w m)
}.

Class LawfulReader (R : Type) `{KeyValueReader R} := {
  contents : R -> content;
  get_contents r k : Get_ r k = contents r !! k;
  has_contents r k : Has_ r k = bool_decide (is_Some (contents r !! k))
}.

(** ** The order of keys *)

(** [a <= b] for strings and byte slices. *)
Fixpoint bytesLe (a b : bytes) : bool :=
  match a, b with
  | [], _ => true
  | _ :: _, [] => false
  | x :: a, y :: b => if x <? y then true else if y <? x then false else bytesLe a b
  end.

Fixpoint HasPrefix (s prefix : bytes) {struct prefix} : bool :=
  match prefix, s with
  | [], _ => true
  | p :: prefix, x :: s => (p =? x) && HasPrefix s prefix
  | _ :: _, [] => false
  end.

Module MemoryDB.

Definition Database : Type := option content.

Definition New : Database := Some ∅.

Definition Close (db : Database) : Database := None.

Definition Has (db : Database) (key : bytes) : bool + dbErr :=
  match db with None => inr errMemorydbClosed | Some m => inl (bool_decide (is_Some (m !! key))) end.

Definition Get (db : Database) (key : bytes) : bytes + dbErr :=
  match db with
  | None => inr errMemorydbClosed
  | Some m => match m !! key with Some entry => inl entry | None => inr errMemorydbNotFound end
  end.

Definition Put (key value : bytes) (db : Database) : option dbErr * Database :=
  match db with None => (Some errMemorydbClosed, None) | Some m => (None, Some (<[key := value]> m)) end.

Definition Delete (key : bytes) (db : Database) : option dbErr * Database :=
  match db with None => (Some errMemorydbClosed, None) | Some m => (None, Some (delete key m)) end.

Definition Len (db : Database) : nat := match db with None => 0%nat | Some m => size m end.

#[global] Instance database_reader : KeyValueReader Database := {|
  Has_ db key := match Has db key with inl b => b | inr _ => false end;
  Get_ db key := match Get db key with inl v => Some v | inr _ => None end
|}.

#[global] Instance database_writer : KeyValueWriter Database := {| Put_ := Put; Delete_ := Delete |}.

(** ** Batches *)

Record keyvalue := mkKeyvalue { kkey : bytes; kvalue : bytes; kdelete : bool }.

Record batch := mkBatch { writes : list keyvalue; bsize : Z }.

Definition NewBatch : batch := mkBatch [] 0.

Definition BatchPut (key value : bytes) (b : batch) : option dbErr * batch :=
  (None, mkBatch (writes b ++ [mkKeyvalue key value false]) (bsize b + Z.of_nat (length key) + Z.of_nat (length value))).

Definition BatchDelete (key : bytes) (b : batch) : option dbErr * batch :=
  (None, mkBatch (writes b ++ [mkKeyvalue key [] true]) (bsize b + Z.of_nat (length key))).

Definition ValueSize (b : batch) : Z := bsize b.

#[global] Instance batch_writer : KeyValueWriter batch := {| Put_ := BatchPut; Delete_ := BatchDelete |}.

(** [Write]: the map of a closed store is nil, where deleting does nothing and storing panics. *)
Definition Write (b : batch) (db : Database) : go Database :=
  go_foldl (fun db kv =>
    if kdelete kv then Ret (delete (kkey kv) <$> db)
    else match db with None => Panic | Some m => Ret (Some (<[kkey kv := kvalue kv]> m)) end) db (writes b).

Definition Reset (b : batch) : batch := mkBatch [] 0.

(** [Replay], up to the first error. *)
Fixpoint replayLoop {W} `{KeyValueWriter W} (l : list keyvalue) (w : W) : option dbErr * W :=
  match l with
  | [] => (None, w)
  | kv :: l =>
      match (if kdelete kv then Delete_ (kkey kv) w else Put_ (kkey kv) (kvalue kv) w) with
      | (Some e, w) => (Some e, w)
      | (None, w) => replayLoop l w
      end
  end.

Definition Replay {W} `{KeyValueWriter W} (b : batch) (w : W) : option dbErr * W := replayLoop (writes b) w.

(** ** Iterators *)

Record iterator := mkIterator { inited : bool; ikeys : list bytes; ivalues : list bytes }.

(** The map is ranged over in some order; the sorted keys do not depend on it. *)
Definition NewIterator (prefix start : bytes) (db : Database) : iterator :=
  let m := default ∅ db in
  let st := prefix ++ start in
  let keys := merge_sort (fun a b => bytesLe a b) (filter (fun key => HasPrefix key prefix && bytesLe st key) (map_to_list m).*1) in
  mkIterator false keys ((fun key => default [] (m !! key)) <$> keys).

Definition Next (it : iterator) : bool * iterator :=
  let it := if inited it then mkIterator true (tail (ikeys it)) (tail (ivalues it)) else mkIterator true (ikeys it) (ivalues it) in
  (match ikeys it with [] => false | _ => true end, it).

Definition Key (it : iterator) : bytes := default [] (head (ikeys it)).

Definition Value (it : iterator) : bytes := default [] (head (ivalues it)).

Definition Release (it : iterator) : iterator := mkIterator (inited it) [] [].

(** [for it.Next() { ... }] with the key and the value, up to a [break]. *)
Fixpoint iterate {S} (fuel : nat) (body : bytes -> bytes -> S -> S + S) (it : iterator) (s : S) : option S :=
  match fuel with
  | O => None
  | S fuel =>
      let '(more, it) := Next it in
      if more then match body (Key it) (Value it) s with inl s => iterate fuel body it s | inr s => Some s end
      else Some s
  end.

End MemoryDB.

(** * Stores under a prefix (src/core/rawdb/table.go) *)

Module PrefixTable.

Record table := mkTable { tdb : MemoryDB.Database; tprefix : bytes }.

Definition NewTable (db : MemoryDB.Database) (prefix : bytes) : table := mkTable db prefix.

(** Closing a table leaves the store open. *)
Definition TableClose (t : table) : table := t.

Definition TableHas (t : table) (key : bytes) : bool + dbErr := MemoryDB.Has (tdb t) (tprefix t ++ key).

Definition TableGet (t : table) (key : bytes) : bytes + dbErr := MemoryDB.Get (tdb t) (tprefix t ++ key).

Definition TablePut (key value : bytes) (t : table) : option dbErr * table :=
  let '(e, db) := MemoryDB.Put (tprefix t ++ key) value (tdb t) in (e, mkTable db (tprefix t)).

Definition TableDelete (key : bytes) (t : table) : option dbErr * table :=
  let '(e, db) := MemoryDB.Delete (tprefix t ++ key) (tdb t) in (e, mkTable db (tprefix t)).

(** The first key behind those with a prefix, given from its end: bytes are bumped up to the first that does not overflow; nil when all do. *)
Fixpoint bump (reversed : bytes) : option bytes :=
  match reversed with
  | [] => Some []
  | x :: l =>
      let x := u8 (x + 1) in
      if 0 <? x then Some (x :: l)
      else match l with [] => None | _ => (fun l => x :: l) <$> bump l end
  end.

Definition CompactRange (t : table) (start limit : option bytes) : bytes * option bytes :=
  (match start with None => tprefix t | Some start => tprefix t ++ start end,
   match limit with None => reverse <$> bump (reverse (tprefix t)) | Some limit => Some (tprefix t ++ limit) end).

(** ** Batches *)

Record tableBatch := mkTableBatch { tbatch : MemoryDB.batch; bprefix : bytes }.

Definition TableNewBatch (t : table) : tableBatch := mkTableBatch MemoryDB.NewBatch (tprefix t).

Definition TableBatchPut (key value : bytes) (b : tableBatch) : option dbErr * tableBatch :=
  let '(e, tb) := MemoryDB.BatchPut (bprefix b ++ key) value (tbatch b) in (e, mkTableBatch tb (bprefix b)).

Definition TableBatchDelete (key : bytes) (b : tableBatch) : option dbErr * tableBatch :=
  let '(e, tb) := MemoryDB.BatchDelete (bprefix b ++ key) (tbatch b) in (e, mkTableBatch tb (bprefix b)).

Definition TableWrite (b : tableBatch) (t : table) : go table :=
  let! db := MemoryDB.Write (tbatch b) (tdb t) in Ret (mkTable db (tprefix t)).

Definition TableReset (b : tableBatch) : tableBatch := mkTableBatch (MemoryDB.Reset (tbatch b)) (bprefix b).

(** A writer that is given prefixed keys and writes them without; a key shorter than the prefix would be a panic, and none is in a batch of the table. *)
Record tableReplayer (W : Type) := mkReplayer { rw : W; rprefix : bytes }.
Arguments mkReplayer {W} rw rprefix.
Arguments rw {W} t.
Arguments rprefix {W} t.

#[global] Instance replayer_writer {W} `{KeyValueWriter W} : KeyValueWriter (tableReplayer W) := {|
  Put_ key value r := let '(e, w) := Put_ (drop (length (rprefix r)) key) value (rw r) in (e, mkReplayer w (rprefix r));
  Delete_ key r := let '(e, w) := Delete_ (drop (length (rprefix r)) key) (rw r) in (e, mkReplayer w (rprefix r))
|}.

Definition TableReplay {W} `{KeyValueWriter W} (b : tableBatch) (w : W) : option dbErr * W :=
  let '(e, r) := MemoryDB.Replay (tbatch b) (mkReplayer w (bprefix b)) in (e, rw r).

(** ** Iterators *)

Record tableIterator := mkTableIterator { iter : MemoryDB.iterator; iprefix : bytes }.

Definition TableNewIterator (t : table) (prefix start : bytes) : tableIterator :=
  mkTableIterator (MemoryDB.NewIterator (tprefix t ++ prefix) start (tdb t)) (tprefix t).

Definition TableNext (it : tableIterator) : bool * tableIterator :=
  let '(more, i) := MemoryDB.Next (iter it) in (more, mkTableIterator i (iprefix it)).

Definition TableKey (it : tableIterator) : bytes :=
  match MemoryDB.ikeys (iter it) with [] => [] | key :: _ => drop (length (iprefix it)) key end.

Definition TableValue (it : tableIterator) : bytes := MemoryDB.Value (iter it).

End PrefixTable.
