(* ===== verification/KeyValueProps.v ===== *)
(** * Properties of key-value stores, their batches, iterators and prefixed tables *)

From stdpp Require Import base tactics list gmap sorting.
From Stdlib Require Import ZArith Lia.
From S2P Require Import Prelude KeyValue.

Open Scope Z_scope.
Open Scope go_scope.

(** ** The order of keys *)

Lemma bytesLe_refl a : bytesLe a a = true.
Proof. induction a as [|x a IH]; [done|]. cbn. by rewrite Z.ltb_irrefl. Qed.

Lemma bytesLe_total a b : bytesLe a b = true \/ bytesLe b a = true.
Proof.
  revert b. induction a as [|x a IH]; intros [|y b]; cbn; [by left..|by right|].
  destruct (Z.ltb_spec x y), (Z.ltb_spec y x); auto; lia.
Qed.

Lemma bytesLe_trans a b c : bytesLe a b = true -> bytesLe b c = true -> bytesLe a c = true.
Proof.
  revert b c. induction a as [|x a IH]; intros [|y b] [|z c]; cbn; try done.
  destruct (Z.ltb_spec x y), (Z.ltb_spec y x), (Z.ltb_spec y z), (Z.ltb_spec z y), (Z.ltb_spec x z), (Z.ltb_spec z x); try done; try lia. apply IH.
Qed.

Lemma bytesLe_antisym a b : bytesLe a b = true -> bytesLe b a = true -> a = b.
Proof.
  revert b. induction a as [|x a IH]; intros [|y b]; cbn; try done.
  destruct (Z.ltb_spec x y), (Z.ltb_spec y x); try done; try lia. intros H1 H2. f_equal; [lia|by apply IH].
Qed.

Lemma bytesLe_app p a b : bytesLe (p ++ a) (p ++ b) = bytesLe a b.
Proof. induction p as [|x p IH]; [done|]. cbn. by rewrite Z.ltb_irrefl. Qed.

Lemma bytesLe_prefix p a : bytesLe p (p ++ a) = true.
Proof. rewrite <- (app_nil_r p) at 1. rewrite bytesLe_app. by destruct a. Qed.

Lemma HasPrefix_spec s p : HasPrefix s p = true <-> p `prefix_of` s.
Proof.
  revert s. induction p as [|x p IH]; intros s; cbn; [split; [intros _; apply prefix_nil|done]|].
  destruct s as [|y s]; [split; [done|intros [? ?]; done]|]. rewrite andb_true_iff, IH, Z.eqb_eq. split.
  - intros [-> [r ->]]. by exists r.
  - intros [r E]. injection E as <- ->. split; [done|by exists r].
Qed.

Lemma HasPrefix_app p q s : HasPrefix (p ++ s) (p ++ q) = HasPrefix s q.
Proof. induction p as [|x p IH]; [done|]. cbn. by rewrite Z.eqb_refl. Qed.

#[global] Instance bytesLe_Total : Total (fun a b : bytes => bytesLe a b).
Proof. intros a b. destruct (bytesLe_total a b) as [->| ->]; [left|right]; done. Qed.

#[global] Instance bytesLe_Transitive : Transitive (fun a b : bytes => bytesLe a b).
Proof. intros a b c Ha Hb. apply Is_true_true in Ha, Hb. apply Is_true_true. by eapply bytesLe_trans. Qed.

#[global] Instance bytesLe_AntiSymm : AntiSymm (=) (fun a b : bytes => bytesLe a b).
Proof. intros a b Ha Hb. apply Is_true_true in Ha, Hb. by apply bytesLe_antisym. Qed.

(** ** The interfaces hold *)

#[global] Instance database_lawful_reader : LawfulReader MemoryDB.Database.
Proof.
  refine {| contents (db : MemoryDB.Database) := default ∅ db |}.
  - intros [m|] k; cbn; [by destruct (m !! k)|by rewrite lookup_empty].
  - intros [m|] k; cbn; [done|by rewrite lookup_empty].
Defined.

#[global] Instance database_lawful_writer : LawfulWriter MemoryDB.Database.
Proof.
  refine {| effect (db : MemoryDB.Database) _ := default ∅ db; usable (db : MemoryDB.Database) := is_Some db |}.
  - intros k v w [m ->]. exists (Some (<[k := v]> m)). by split.
  - intros k w [m ->]. exists (Some (delete k m)). by split.
Defined.

(** The writes of a batch on a map. *)
Definition applyWrites (l : list MemoryDB.keyvalue) (m : content) : content :=
  foldl (fun m kv => if MemoryDB.kdelete kv then delete (MemoryDB.kkey kv) m else <[MemoryDB.kkey kv := MemoryDB.kvalue kv]> m) m l.

#[global] Instance batch_lawful_writer : LawfulWriter MemoryDB.batch.
Proof.
  refine {| effect b m := applyWrites (MemoryDB.writes b) m; usable b := True |}.
  - intros k v w _. eexists. split_and!; [done|done|]. intros m. unfold applyWrites. cbn [MemoryDB.writes]. by rewrite foldl_app.
  - intros k w _. eexists. split_and!; [done|done|]. intros m. unfold applyWrites. cbn [MemoryDB.writes]. by rewrite foldl_app.
Defined.

(** ** Batches *)

Lemma Write_open b m : MemoryDB.Write b (Some m) = Ret (Some (applyWrites (MemoryDB.writes b) m)).
Proof.
  unfold MemoryDB.Write, applyWrites. revert m. induction (MemoryDB.writes b) as [|kv l IH]; intros m; [done|]. cbn [go_foldl foldl].
  destruct (MemoryDB.kdelete kv); cbn [fmap option_fmap option_map]; apply IH.
Qed.

Lemma Write_closed b : MemoryDB.Write b None = if forallb MemoryDB.kdelete (MemoryDB.writes b) then Ret None else Panic.
Proof. unfold MemoryDB.Write. induction (MemoryDB.writes b) as [|kv l IH]; [done|]. cbn [go_foldl forallb]. by destruct (MemoryDB.kdelete kv). Qed.

Lemma replay_effect {W} `{LawfulWriter W} l w : usable w -> exists w', MemoryDB.replayLoop l w = (None, w') /\ usable w' /\ forall m, effect w' m = applyWrites l (effect w m).
Proof.
  revert w. induction l as [|kv l IH]; intros w Hw; [by exists w|]. cbn [MemoryDB.replayLoop].
  destruct (MemoryDB.kdelete kv) eqn:Ed.
  - destruct (delete_effect (MemoryDB.kkey kv) w Hw) as (w1 & -> & Hw1 & E1). destruct (IH w1 Hw1) as (w2 & -> & Hw2 & E2).
    exists w2. split_and!; [done|done|]. intros m. rewrite E2, E1. unfold applyWrites. cbn [foldl]. by rewrite Ed.
  - destruct (put_effect (MemoryDB.kkey kv) (MemoryDB.kvalue kv) w Hw) as (w1 & -> & Hw1 & E1). destruct (IH w1 Hw1) as (w2 & -> & Hw2 & E2).
    exists w2. split_and!; [done|done|]. intros m. rewrite E2, E1. unfold applyWrites. cbn [foldl]. by rewrite Ed.
Qed.

(** ** Iterators *)

Section Iteration.
Variables (prefix start : bytes).

(** The keys of an iteration. *)
Definition within (key : bytes) : Prop := prefix `prefix_of` key /\ bytesLe (prefix ++ start) key = true.

Lemma iterator_keys m : let it := MemoryDB.NewIterator prefix start (Some m) in
  StronglySorted (fun a b => bytesLe a b) (MemoryDB.ikeys it) /\ NoDup (MemoryDB.ikeys it) /\
  (forall k, k ∈ MemoryDB.ikeys it <-> is_Some (m !! k) /\ within k) /\ MemoryDB.ivalues it = (fun k => default [] (m !! k)) <$> MemoryDB.ikeys it.
Proof.
  cbn [MemoryDB.NewIterator default from_option MemoryDB.ikeys MemoryDB.ivalues id]. cbv zeta. split_and!; [|..|done].
  - apply (StronglySorted_merge_sort _).
  - rewrite merge_sort_Permutation. apply NoDup_filter. apply NoDup_fst_map_to_list.
  - intros k. rewrite merge_sort_Permutation, list_elem_of_filter, list_elem_of_fmap. unfold within. rewrite <- HasPrefix_spec. split.
    + intros [Hf ([k' v] & -> & Hk)]. apply elem_of_map_to_list in Hk. apply Is_true_true, andb_true_iff in Hf. cbn. split; [by eexists|done].
    + intros [[v Hk] [H1 H2]]. split; [apply Is_true_true, andb_true_iff; done|]. exists (k, v). split; [done|by apply elem_of_map_to_list].
Qed.

(** What [body] does over the entries of a list. *)
Fixpoint walk {S} (body : bytes -> bytes -> S -> S + S) (l : list (bytes * bytes)) (s : S) : S :=
  match l with
  | [] => s
  | (k, v) :: l => match body k v s with inl s => walk body l s | inr s => s end
  end.

Lemma iterate_walk {S} (body : bytes -> bytes -> S -> S + S) fuel keys values s :
  length keys = length values -> (length keys < fuel)%nat ->
  MemoryDB.iterate fuel body (MemoryDB.mkIterator false keys values) s = Some (walk body (zip keys values) s).
Proof.
  intros Hl Hf. destruct fuel as [|fuel]; [lia|]. cbn [MemoryDB.iterate MemoryDB.Next MemoryDB.inited MemoryDB.ikeys MemoryDB.ivalues].
  destruct keys as [|k keys], values as [|v values]; try done. cbn [zip zip_with walk MemoryDB.Key MemoryDB.Value head default from_option id MemoryDB.ikeys MemoryDB.ivalues].
  destruct (body k v s) as [s1|]; [|done]. cbn [length] in *. assert (length keys < fuel)%nat as Hf' by lia. assert (length keys = length values) as Hl' by lia. clear Hf Hl s. revert k v keys values s1 Hl' Hf'.
  induction fuel as [|fuel IH]; intros k v keys values s Hl Hf; [lia|]. cbn [MemoryDB.iterate MemoryDB.Next MemoryDB.inited MemoryDB.ikeys MemoryDB.ivalues tail].
  destruct keys as [|k' keys], values as [|v' values]; try done. cbn [zip zip_with walk MemoryDB.Key MemoryDB.Value head default from_option id MemoryDB.ikeys MemoryDB.ivalues].
  destruct (body k' v' s) as [s1|]; [|done]. cbn [length] in *. apply IH; lia.
Qed.

End Iteration.

Lemma within_view p prefix start k : within (p ++ prefix) start (p ++ k) <-> within prefix start k.
Proof. unfold within. rewrite <- !HasPrefix_spec, HasPrefix_app, <- app_assoc, bytesLe_app. done. Qed.

(** ** Tables *)

Section Views.

(** What a table under the prefix [p] shows of a store. *)
Definition view (p : bytes) (m : content) : content :=
  list_to_map (omap (fun '(k, v) => if HasPrefix k p then Some (drop (length p) k, v) else None) (map_to_list m)).

Lemma lookup_view p m k : view p m !! k = m !! (p ++ k).
Proof.
  assert (forall v, (k, v) ∈ omap (fun '(k, v) => if HasPrefix k p then Some (drop (length p) k, v) else None) (map_to_list m) <-> m !! (p ++ k) = Some v) as Hin.
  { intros v. rewrite list_elem_of_omap. split.
    - intros ([k' v'] & Hk & E). apply elem_of_map_to_list in Hk. destruct (HasPrefix k' p) eqn:Hp; [|done]. apply HasPrefix_spec in Hp as [r ->].
      rewrite drop_app_length in E. by injection E as <- <-.
    - intros Hk. exists (p ++ k, v). split; [by apply elem_of_map_to_list|]. rewrite (proj2 (HasPrefix_spec (p ++ k) p)) by (by exists k). by rewrite drop_app_length. }
  apply option_eq. intros v. unfold view. rewrite <- Hin. symmetry. apply elem_of_list_to_map'. intros v' Hv'. apply Hin in Hv'. intros Hv. apply Hin in Hv. congruence.
Qed.

Lemma view_insert p m k v : view p (<[p ++ k := v]> m) = <[k := v]> (view p m).
Proof.
  apply map_eq. intros k'. rewrite lookup_view. destruct (decide (k' = k)) as [->|Hne]; [by rewrite !lookup_insert_eq|].
  rewrite !lookup_insert_ne by (congruence || by intros ?%app_inv_head). by rewrite lookup_view.
Qed.

Lemma view_delete p m k : view p (delete (p ++ k) m) = delete k (view p m).
Proof.
  apply map_eq. intros k'. rewrite lookup_view. destruct (decide (k' = k)) as [->|Hne]; [by rewrite !lookup_delete_eq|].
  rewrite !lookup_delete_ne by (congruence || by intros ?%app_inv_head). by rewrite lookup_view.
Qed.

Lemma sorted_under p l : StronglySorted (fun a b => bytesLe a b) l -> StronglySorted (fun a b => bytesLe a b) (app p <$> l).
Proof.
  induction 1 as [|k l Hl IH Hk]; [constructor|]. rewrite fmap_cons. constructor; [done|]. apply Forall_fmap. eapply Forall_impl; [exact Hk|]. intros k' Hk'. cbn. by rewrite bytesLe_app.
Qed.

(** The keys of a table are those of its view under the prefix. *)
Lemma view_keys p m prefix start :
  MemoryDB.ikeys (MemoryDB.NewIterator (p ++ prefix) start (Some m)) = app p <$> MemoryDB.ikeys (MemoryDB.NewIterator prefix start (Some (view p m))).
Proof.
  destruct (iterator_keys (p ++ prefix) start m) as (Hs & Hn & Hk & _), (iterator_keys prefix start (view p m)) as (Hs' & Hn' & Hk' & _).
  apply (StronglySorted_unique (fun a b => bytesLe a b)); [done|by apply sorted_under|]. apply NoDup_Permutation; [done|apply NoDup_fmap; [|done]; intros ? ?; apply app_inv_head|].
  intros k. rewrite Hk, list_elem_of_fmap. split.
  - intros [Hm Hw]. pose proof Hw as [[r ->] _]. rewrite <- app_assoc in *. exists (prefix ++ r). split; [done|]. apply Hk'. rewrite lookup_view. split; [done|]. by apply within_view in Hw.
  - intros (k' & -> & Hk1). apply Hk' in Hk1 as [Hm Hw]. rewrite lookup_view in Hm. split; [done|]. by apply within_view.
Qed.

Lemma view_values p m prefix start :
  MemoryDB.ivalues (MemoryDB.NewIterator (p ++ prefix) start (Some m)) = MemoryDB.ivalues (MemoryDB.NewIterator prefix start (Some (view p m))).
Proof.
  destruct (iterator_keys (p ++ prefix) start m) as (_ & _ & _ & ->), (iterator_keys prefix start (view p m)) as (_ & _ & _ & ->). rewrite view_keys, <- list_fmap_compose.
  apply list_fmap_ext. intros _ k _. cbn. by rewrite lookup_view.
Qed.

End Views.

(** The bumped prefix is behind every key with the prefix. *)
Lemma bump_spec r : r <> [] -> Forall (fun x => 0 <= x < 256) r ->
  match PrefixTable.bump r with
  | Some l => forall key, bytesLe (reverse l) (reverse r ++ key) = false
  | None => Forall (fun x => x = 255) r
  end.
Proof.
  induction r as [|x r IH]; intros Hne Hb; [done|]. apply Forall_cons in Hb as [Hx Hb]. cbn [PrefixTable.bump]. unfold u8.
  destruct (Z.ltb_spec 0 ((x + 1) mod 2 ^ 8)) as [Hlt|Hge].
  - intros key. assert (x + 1 < 2 ^ 8) as Hx1. { destruct (decide (x = 255)) as [->|]; [done|lia]. } rewrite Z.mod_small by lia.
    rewrite !reverse_cons, <- app_assoc, bytesLe_app. cbn. rewrite (proj2 (Z.ltb_ge _ _)), (proj2 (Z.ltb_lt _ _)) by lia. done.
  - assert (x = 255) as ->. { destruct (decide (x = 255)); [done|]. rewrite Z.mod_small in Hge by lia. lia. }
    destruct r as [|y r]; [by repeat constructor|]. specialize (IH ltac:(done) Hb). destruct (PrefixTable.bump (y :: r)) as [l|]; cbn [fmap option_fmap option_map].
    + intros key. rewrite (reverse_cons l), (reverse_cons (y :: r) 255), <- app_assoc. specialize (IH ([255] ++ key)). destruct (bytesLe (reverse l ++ _) _) eqn:E; [|done].
      assert (bytesLe (reverse l) (reverse l ++ [(255 + 1) mod 2 ^ 8]) = true) as E' by apply bytesLe_prefix. rewrite (bytesLe_trans _ _ _ E' E) in IH. done.
    + by constructor.
Qed.

(** ** The theorems *)

(** Iteration. An iterator over an open store visits exactly the entries whose key has the prefix and is not below the start, each once and in
    increasing order of the keys, up to where the loop breaks off. *)
Theorem iterator_visits (prefix start : bytes) (m : content) : exists l : list (bytes * bytes),
  (forall S (body : bytes -> bytes -> S -> S + S) s fuel, (size m < fuel)%nat ->
    MemoryDB.iterate fuel body (MemoryDB.NewIterator prefix start (Some m)) s = Some (walk body l s)) /\
  StronglySorted (fun a b => bytesLe a b) l.*1 /\ NoDup l.*1 /\
  forall k v, (k, v) ∈ l <-> m !! k = Some v /\ prefix `prefix_of` k /\ bytesLe (prefix ++ start) k = true.
Proof.
  destruct (iterator_keys prefix start m) as (Hs & Hn & Hk & Hv). set (it := MemoryDB.NewIterator prefix start (Some m)) in *.
  exists (zip (MemoryDB.ikeys it) (MemoryDB.ivalues it)). assert (length (MemoryDB.ikeys it) = length (MemoryDB.ivalues it)) as Hl by (by rewrite Hv, length_fmap).
  rewrite fst_zip by lia. split_and!; [|done|done|].
  - intros S body s fuel Hf. destruct it as [i ks vs] eqn:E. assert (i = false) as -> by (by injection E). apply iterate_walk; [done|]. cbn in *. eapply Nat.le_lt_trans; [|exact Hf].
    rewrite <- (size_dom (D := gset bytes)). change (length ks <= length (elements (dom m)))%nat.
    apply submseteq_length, NoDup_submseteq; [done|]. intros k Hk1. apply elem_of_elements, elem_of_dom. by apply Hk in Hk1 as [? _].
  - intros k v. rewrite Hv. split.
    + intros (i & E1)%list_elem_of_lookup. apply lookup_zip_with_Some in E1 as (k' & v' & E & Ek & Ev). injection E as -> ->. rewrite list_lookup_fmap, Ek in Ev. injection Ev as <-.
      apply list_elem_of_lookup_2 in Ek. apply Hk in Ek as [[v ->] Hw]. done.
    + intros (Hm & Hw). assert (k ∈ MemoryDB.ikeys it) as Hin by (apply Hk; split; [by eexists|done]). apply list_elem_of_lookup in Hin as [i Ei].
      apply list_elem_of_lookup. exists i. apply lookup_zip_with_Some. exists k, v. rewrite list_lookup_fmap, Ei. cbn. by rewrite Hm.
Qed.

(** A prefixed table is a store of its own. Reading, writing, deleting and iterating through it are these operations on the entries under its
    prefix, without the prefix, and no entry without the prefix changes. *)
Theorem prefix_table_is_a_store p m key value prefix start :
  let t := PrefixTable.NewTable (Some m) p in
  let s := Some (view p m) in
  PrefixTable.TableGet t key = MemoryDB.Get s key /\ PrefixTable.TableHas t key = MemoryDB.Has s key /\
  (exists m', PrefixTable.TablePut key value t = (None, PrefixTable.mkTable (Some m') p) /\ MemoryDB.Put key value s = (None, Some (view p m')) /\
    forall k, ~ p `prefix_of` k -> m' !! k = m !! k) /\
  (exists m', PrefixTable.TableDelete key t = (None, PrefixTable.mkTable (Some m') p) /\ MemoryDB.Delete key s = (None, Some (view p m')) /\
    forall k, ~ p `prefix_of` k -> m' !! k = m !! k) /\
  (let it := PrefixTable.TableNewIterator t prefix start in
   (drop (length p) <$> MemoryDB.ikeys (PrefixTable.iter it)) = MemoryDB.ikeys (MemoryDB.NewIterator prefix start s) /\
   MemoryDB.ivalues (PrefixTable.iter it) = MemoryDB.ivalues (MemoryDB.NewIterator prefix start s)).
Proof.
  cbv zeta. split_and!.
  - unfold PrefixTable.TableGet. cbn [PrefixTable.NewTable PrefixTable.tdb PrefixTable.tprefix MemoryDB.Get]. by rewrite lookup_view.
  - unfold PrefixTable.TableHas. cbn [PrefixTable.NewTable PrefixTable.tdb PrefixTable.tprefix MemoryDB.Has]. by rewrite lookup_view.
  - exists (<[p ++ key := value]> m). cbn [MemoryDB.Put]. rewrite view_insert. split_and!; [done|done|]. intros k Hk. apply lookup_insert_ne. intros <-. destruct Hk. by exists key.
  - exists (delete (p ++ key) m). cbn [MemoryDB.Delete]. rewrite view_delete. split_and!; [done|done|]. intros k Hk. apply lookup_delete_ne. intros <-. destruct Hk. by exists key.
  - unfold PrefixTable.TableNewIterator. cbn [PrefixTable.iter PrefixTable.NewTable PrefixTable.tprefix PrefixTable.tdb]. rewrite view_keys, <- list_fmap_compose.
    rewrite <- (list_fmap_id (MemoryDB.ikeys (MemoryDB.NewIterator prefix start (Some (view p m))))) at 2. apply list_fmap_ext. intros _ k _. cbn. by rewrite drop_app_length.
  - apply view_values.
Qed.

(** Writes through a table, with and without its prefix. *)
Lemma table_writes p l m :
  view p (applyWrites ((fun kv => MemoryDB.mkKeyvalue (p ++ MemoryDB.kkey kv) (MemoryDB.kvalue kv) (MemoryDB.kdelete kv)) <$> l) m) = applyWrites l (view p m).
Proof.
  revert m. induction l as [|kv l IH]; intros m; [done|]. rewrite fmap_cons. unfold applyWrites. cbn [foldl MemoryDB.kkey MemoryDB.kvalue MemoryDB.kdelete].
  destruct (MemoryDB.kdelete kv); fold (applyWrites l); etrans; [apply IH| |apply IH|]; [by rewrite view_delete|by rewrite view_insert].
Qed.

(** Batches. Writing a batch to an open store and replaying it on the store, or on any other writer, carry out the same writes in the
    same order; on a closed store replaying fails, while writing does nothing or, if anything is stored, panics. *)
Theorem batch_write_is_replay b m :
  MemoryDB.Write b (Some m) = Ret (Some (applyWrites (MemoryDB.writes b) m)) /\
  MemoryDB.Replay b (Some m) = (None, Some (applyWrites (MemoryDB.writes b) m)) /\
  (forall W `{LawfulWriter W} (w : W), usable w -> exists w', MemoryDB.Replay b w = (None, w') /\ forall m, effect w' m = applyWrites (MemoryDB.writes b) (effect w m)) /\
  (MemoryDB.Write b None = if forallb MemoryDB.kdelete (MemoryDB.writes b) then Ret None else Panic) /\
  (MemoryDB.writes b <> [] -> MemoryDB.Replay b (None : MemoryDB.Database) = (Some errMemorydbClosed, None)).
Proof.
  split_and!.
  - apply Write_open.
  - destruct (replay_effect (W := MemoryDB.Database) (MemoryDB.writes b) (Some m)) as (w' & E & [m' ->] & Heff); [by eexists|]. etrans; [exact E|]. do 2 f_equal. apply (Heff ∅).
  - intros W ? ? w Hw. destruct (replay_effect (MemoryDB.writes b) w Hw) as (w' & E & _ & Heff). by exists w'.
  - apply Write_closed.
  - unfold MemoryDB.Replay. destruct (MemoryDB.writes b) as [|kv l]; [done|]. intros _. cbn [MemoryDB.replayLoop]. by destruct (MemoryDB.kdelete kv).
Qed.

(** The range that a table compacts covers all keys with its prefix: none is below the start, and none reaches the limit, which is missing
    only when no key is behind the prefix. *)
Theorem compact_range_covers db p key :
  p <> [] -> Forall (fun x => 0 <= x < 256) p ->
  let '(start, limit) := PrefixTable.CompactRange (PrefixTable.NewTable db p) None None in
  bytesLe start (p ++ key) = true /\ match limit with Some l => bytesLe l (p ++ key) = false | None => Forall (fun x => x = 255) p end.
Proof.
  intros Hne Hb. unfold PrefixTable.CompactRange. cbn [PrefixTable.NewTable PrefixTable.tprefix]. split; [apply bytesLe_prefix|].
  pose proof (bump_spec (reverse p)) as Hs. destruct (PrefixTable.bump (reverse p)) as [l|]; cbn [fmap option_fmap option_map].
  - rewrite <- (reverse_involutive p). apply Hs; [|by rewrite reverse_Permutation]. intros E. apply Hne. by rewrite <- (reverse_involutive p), E.
  - rewrite <- (reverse_Permutation p). apply Hs; [|by rewrite reverse_Permutation]. intros E. apply Hne. by rewrite <- (reverse_involutive p), E.
Qed.

Lemma compact_range_covers_witness : PrefixTable.CompactRange (PrefixTable.NewTable None [1; 255]) None None = ([1; 255], Some [2; 0]) /\ bytesLe [2; 0] [1; 255; 7] = false.
Proof. split; [reflexivity|]. apply (compact_range_covers None [1; 255] [7]); [done|]. repeat constructor; lia. Defined.

(** A closed store. [Close] promises that later operations fail with an error. Reads, writes and deletions do; but an iterator
    over a closed store is empty without an error, and writing a batch panics. *)
Theorem closed_store_batch_panics db key value :
  let db := MemoryDB.Close db in
  MemoryDB.Get db key = inr errMemorydbClosed /\ MemoryDB.Put key value db = (Some errMemorydbClosed, db) /\
  MemoryDB.Next (MemoryDB.NewIterator [] [] db) = (false, MemoryDB.mkIterator true [] []) /\
  MemoryDB.Write (MemoryDB.BatchPut key value MemoryDB.NewBatch).2 db = Panic.
Proof. done. Qed.
