(* ===== verification/Schema.v ===== *)
(** * The database schema (src/core/rawdb/schema.go)

    The keys under which chain data is stored. The prefixes are slices of static arrays without spare capacity, so that [append] copies them. *)

From stdpp Require Import base tactics list gmap strings.
From Stdlib Require Import ZArith Lia.
From S2P Require Import Prelude Bytes KeyValue.

Open Scope Z_scope.

Module Schema.

(** The bytes of a string literal. *)
Fixpoint lit (s : string) : bytes :=
  match s with
  | EmptyString => []
  | String c s => Z.of_nat (Ascii.nat_of_ascii c) :: lit s
  end.

Definition databaseVersionKey := lit "DatabaseVersion".
Definition headHeaderKey := lit "LastHeader".
Definition headBlockKey := lit "LastBlock".
Definition headFastBlockKey := lit "LastFast".
Definition lastPivotKey := lit "LastPivot".
Definition fastTrieProgressKey := lit "TrieSync".
Definition snapshotDisabledKey := lit "SnapshotDisabled".
Definition SnapshotRootKey := lit "SnapshotRoot".
Definition snapshotJournalKey := lit "SnapshotJournal".
Definition snapshotGeneratorKey := lit "SnapshotGenerator".
Definition snapshotRecoveryKey := lit "SnapshotRecovery".
Definition snapshotSyncStatusKey := lit "SnapshotSyncStatus".
Definition txIndexTailKey := lit "TransactionIndexTail".
Definition fastTxLookupLimitKey := lit "FastTransactionLookupLimit".
Definition offSetOfCurrentAncientFreezer := lit "offSetOfCurrentAncientFreezer".
Definition offSetOfLastAncientFreezer := lit "offSetOfLastAncientFreezer".
Definition frozenOfAncientDBKey := lit "FrozenOfAncientDB".
Definition LastSafePointBlockKey := lit "LastSafePointBlockNumber".
Definition pruneAncientKey := lit "PruneAncientFlag".
Definition badBlockKey := lit "InvalidBlock".
Definition uncleanShutdownKey := lit "unclean-shutdown".
Definition transitionStatusKey := lit "eth2-transition".

Definition headerPrefix := lit "h".
Definition headerTDSuffix := lit "t".
Definition headerHashSuffix := lit "n".
Definition headerNumberPrefix := lit "H".
Definition blockBodyPrefix := lit "b".
Definition blockReceiptsPrefix := lit "r".
Definition txLookupPrefix := lit "l".
Definition bloomBitsPrefix := lit "B".
Definition SnapshotAccountPrefix := lit "a".
Definition SnapshotStoragePrefix := lit "o".
Definition CodePrefix := lit "c".
Definition diffLayerPrefix := lit "d".
Definition PreimagePrefix := lit "secure-key-".
Definition configPrefix := lit "ethereum-config-".

Definition freezerHeaderTable : string := "headers".
Definition freezerHashTable : string := "hashes".
Definition freezerBodiesTable : string := "bodies".
Definition freezerReceiptTable : string := "receipts".
Definition freezerDifficultyTable : string := "diffs".

Definition FreezerNoSnappy : gmap string bool :=
  {[freezerHeaderTable := false; freezerHashTable := true; freezerBodiesTable := false; freezerReceiptTable := false; freezerDifficultyTable := true]}.

Definition encodeBlockNumber (number : Z) : bytes := be_encode 8 number.

Definition headerKeyPrefix (number : Z) : bytes := headerPrefix ++ encodeBlockNumber number.
Definition headerKey (number : Z) (hash : bytes) : bytes := (headerPrefix ++ encodeBlockNumber number) ++ hash.
Definition headerTDKey (number : Z) (hash : bytes) : bytes := headerKey number hash ++ headerTDSuffix.
Definition headerHashKey (number : Z) : bytes := (headerPrefix ++ encodeBlockNumber number) ++ headerHashSuffix.
Definition headerNumberKey (hash : bytes) : bytes := headerNumberPrefix ++ hash.
Definition blockBodyKey (number : Z) (hash : bytes) : bytes := (blockBodyPrefix ++ encodeBlockNumber number) ++ hash.
Definition blockReceiptsKey (number : Z) (hash : bytes) : bytes := (blockReceiptsPrefix ++ encodeBlockNumber number) ++ hash.
Definition diffLayerKey (hash : bytes) : bytes := diffLayerPrefix ++ hash.
Definition txLookupKey (hash : bytes) : bytes := txLookupPrefix ++ hash.
Definition accountSnapshotKey (hash : bytes) : bytes := SnapshotAccountPrefix ++ hash.
Definition storageSnapshotKey (accountHash storageHash : bytes) : bytes := (SnapshotStoragePrefix ++ accountHash) ++ storageHash.
Definition storageSnapshotsKey (accountHash : bytes) : bytes := SnapshotStoragePrefix ++ accountHash.

(** The two numbers are written over ten zero bytes; the bit is cut to 16 bits. *)
Definition bloomBitsKey (bit section : Z) (hash : bytes) : bytes := (bloomBitsPrefix ++ be_encode 2 bit ++ be_encode 8 section) ++ hash.

Definition preimageKey (hash : bytes) : bytes := PreimagePrefix ++ hash.
Definition codeKey (hash : bytes) : bytes := CodePrefix ++ hash.

Definition IsCodeKey (key : bytes) : bool * bytes :=
  if HasPrefix key CodePrefix && (Z.of_nat (length key) =? 32 + Z.of_nat (length CodePrefix)) then (true, drop (length CodePrefix) key) else (false, []).

(** The key of [ReadTrieNode], [WriteTrieNode] and [DeleteTrieNode], and the older one of [ReadCode] and [HasCode]: the hash with no prefix. *)
Definition trieNodeKey (hash : bytes) : bytes := hash.

Definition configKey (hash : bytes) : bytes := configPrefix ++ hash.

End Schema.
