(* ===== verification/Accessors.v ===== *)
(** * Database accessors (src/core/rawdb/accessors_chain.go, accessors_indexes.go, accessors_metadata.go, database.go)

    Reading, writing and deleting of chain data, over the interfaces of key-value stores and of the freezer. A failing write ends the process
    ([log.Crit]), which is the panic of the model. A database with a freezer looks into the freezer first. *)

From stdpp Require Import base tactics list gmap strings.
From Stdlib Require Import ZArith Lia.
From S2P Require Import Prelude Bytes RlpRaw RlpEncode RlpDecode TypesRlp Trie FreezerTable Freezer KeyValue Schema.

Open Scope Z_scope.
Open Scope go_scope.

Import Rlp RlpDecode RlpEncode TypesRlp Schema.

(** The part of the interface that reads the freezer. *)
Class AncientReader (R : Type) := {
  Ancient_ : R -> string -> Z -> go (FreezerTable.fres bytes);
  AncientRange_ : R -> string -> Z -> Z -> Z -> go (FreezerTable.fres (list bytes));
  Ancients_ : R -> FreezerTable.fres Z
}.

Module Accessors.

(** ** Helpers of the language and of package common *)

Definition zeroHash : bytes := replicate 32 0.

(** [common.BytesToHash] crops from the left and fills with zeros. *)
Definition BytesToHash (b : bytes) : bytes :=
  let b := drop (length b - 32) b in replicate (32 - length b) 0 ++ b.

(** [big.Int]: the lower 64 bits, of a nil pointer a panic; and the number of bytes. *)
Definition Uint64Of (i : option Z) : go Z := match i with None => Panic | Some i => Ret (u64 (Z.abs i)) end.
Definition SetBytesUint64 (b : bytes) : Z := u64 (be_decode b).
Definition Uint64Bytes (n : Z) : bytes := minimal n.

(** [rlp.Decode] from a byte reader, which may leave bytes over. *)
Definition Decode {A} (d : decoder A) (b : bytes) : res A := (d (Reset b 0)).1.

Definition okay {A} (r : res A) : option A := match r with Ok a => Some a | Err _ => None end.

(** What is left of a result when the error is dropped. *)
Definition orNil (r : FreezerTable.fres bytes) : bytes := match r with inl d => d | inr _ => [] end.

Section Writers.
Context {W : Type} `{KeyValueWriter W}.

Definition store (key value : bytes) (w : W) : go W := match Put_ key value w with (None, w) => Ret w | (Some _, _) => Panic end.
Definition remove (key : bytes) (w : W) : go W := match Delete_ key w with (None, w) => Ret w | (Some _, _) => Panic end.

End Writers.

(** ** Hashes and numbers *)

Section KeyValue.
Context {R : Type} `{KeyValueReader R} {W : Type} `{KeyValueWriter W}.

Definition getData (db : R) (key : bytes) : bytes := default [] (Get_ db key).

Definition WriteCanonicalHash (hash : bytes) (number : Z) : W -> go W := store (headerHashKey number) hash.
Definition DeleteCanonicalHash (number : Z) : W -> go W := remove (headerHashKey number).

Definition ReadHeaderNumber (db : R) (hash : bytes) : option Z :=
  let data := getData db (headerNumberKey hash) in
  if negb (length data =? 8)%nat then None else Some (be_decode data).

Definition WriteHeaderNumber (hash : bytes) (number : Z) : W -> go W := store (headerNumberKey hash) (encodeBlockNumber number).
Definition DeleteHeaderNumber (hash : bytes) : W -> go W := remove (headerNumberKey hash).

(** [ReadHeadHeaderHash], [ReadHeadBlockHash] and [ReadHeadFastBlockHash]. *)
Definition readHash (db : R) (key : bytes) : bytes :=
  match getData db key with [] => zeroHash | data => BytesToHash data end.

Definition ReadHeadHeaderHash (db : R) : bytes := readHash db headHeaderKey.
Definition WriteHeadHeaderHash (hash : bytes) : W -> go W := store headHeaderKey hash.
Definition ReadHeadBlockHash (db : R) : bytes := readHash db headBlockKey.
Definition WriteHeadBlockHash (hash : bytes) : W -> go W := store headBlockKey hash.
Definition ReadHeadFastBlockHash (db : R) : bytes := readHash db headFastBlockKey.
Definition WriteHeadFastBlockHash (hash : bytes) : W -> go W := store headFastBlockKey hash.

Definition ReadLastPivotNumber (db : R) : option Z :=
  match getData db lastPivotKey with
  | [] => None
  | data => okay (DecodeBytes decodeUint64 data)
  end.

(** The encoding of a value, when the encoder does not fail. *)
Definition encoded (w : writer) : go bytes := let! r := EncodeToBytes w in match r with Ok bs => Ret bs | Err _ => Panic end.

Definition WriteLastPivotNumber (pivot : Z) (w : W) : go W := let! enc := encoded (writeUint pivot) in store lastPivotKey enc w.

(** [ReadTxIndexTail] and [ReadFastTxLookupLimit]. *)
Definition readNumber (db : R) (key : bytes) : option Z :=
  let data := getData db key in if negb (length data =? 8)%nat then None else Some (be_decode data).

Definition ReadTxIndexTail (db : R) : option Z := readNumber db txIndexTailKey.
Definition WriteTxIndexTail (number : Z) : W -> go W := store txIndexTailKey (encodeBlockNumber number).
Definition ReadFastTxLookupLimit (db : R) : option Z := readNumber db fastTxLookupLimitKey.
Definition WriteFastTxLookupLimit (number : Z) : W -> go W := store fastTxLookupLimitKey (encodeBlockNumber number).

Definition ReadDiffLayerRLP (db : R) (blockHash : bytes) : bytes := getData db (diffLayerKey blockHash).
Definition WriteDiffLayerRLP (blockHash rlp : bytes) : W -> go W := store (diffLayerKey blockHash) rlp.
Definition DeleteDiffLayer (blockHash : bytes) : W -> go W := remove (diffLayerKey blockHash).

(** ** Metadata *)

Definition ReadDatabaseVersion (db : R) : option Z :=
  match getData db databaseVersionKey with [] => None | enc => okay (DecodeBytes decodeUint64 enc) end.

Definition WriteDatabaseVersion (version : Z) (w : W) : go W := let! enc := encoded (writeUint version) in store databaseVersionKey enc w.

(** The numbers that are stored as big integers. *)
Definition readBig (db : R) (key : bytes) : Z := match Get_ db key with None => 0 | Some b => SetBytesUint64 b end.
Definition writeBig (key : bytes) (n : Z) : W -> go W := store key (Uint64Bytes n).

Definition ReadOffSetOfCurrentAncientFreezer (db : R) : Z := readBig db offSetOfCurrentAncientFreezer.
Definition WriteOffSetOfCurrentAncientFreezer (offset : Z) : W -> go W := writeBig offSetOfCurrentAncientFreezer offset.
Definition ReadOffSetOfLastAncientFreezer (db : R) : Z := readBig db offSetOfLastAncientFreezer.
Definition WriteOffSetOfLastAncientFreezer (offset : Z) : W -> go W := writeBig offSetOfLastAncientFreezer offset.
Definition ReadFrozenOfAncientFreezer (db : R) : Z := readBig db frozenOfAncientDBKey.
Definition WriteFrozenOfAncientFreezer (frozen : Z) : W -> go W := writeBig frozenOfAncientDBKey frozen.
Definition ReadSafePointBlockNumber (db : R) : Z := readBig db LastSafePointBlockKey.
Definition WriteSafePointBlockNumber (number : Z) : W -> go W := writeBig LastSafePointBlockKey number.

Definition EntireFreezerType : Z := 0.
Definition PruneFreezerType : Z := 1.
Definition ReadAncientType (db : R) : Z := readBig db pruneAncientKey.
Definition WriteAncientType (flag : Z) : W -> go W := writeBig pruneAncientKey flag.

(** ** Transaction lookup *)

Definition DeleteTxLookupEntry (hash : bytes) : W -> go W := remove (txLookupKey hash).
Definition DeleteTxLookupEntries (hashes : list bytes) (w : W) : go W := go_foldl (fun w hash => DeleteTxLookupEntry hash w) w hashes.
Definition writeTxLookupEntry (hash numberBytes : bytes) : W -> go W := store (txLookupKey hash) numberBytes.
Definition WriteTxLookupEntries (number : Z) (hashes : list bytes) (w : W) : go W :=
  let numberBytes := Uint64Bytes number in go_foldl (fun w hash => writeTxLookupEntry hash numberBytes w) w hashes.

(** The three formats of a lookup entry, by its length. *)
Definition ReadTxLookupEntry (db : R) (hash : bytes) : option Z :=
  match getData db (txLookupKey hash) with
  | [] => None
  | data =>
      if (length data <? 32)%nat then Some (SetBytesUint64 data)
      else if (length data =? 32)%nat then ReadHeaderNumber db (BytesToHash data)
      else (fun '(_, (index, _)) => index) <$> okay (DecodeBytes (decodeStruct (decodePair (decodeField decodeHash) (decodePair (decodeField decodeUint64) (decodeField decodeUint64)))) data)
  end.

End KeyValue.

(** ** Blocks *)

(** [types.Body]. *)
Record Body := mkBody { Transactions : list Transaction; Uncles : list Header }.

Definition BodyEncodeRLP (b : Body) : writer :=
  writeStruct [writeSlice (TransactionEncodeRLP <$> Transactions b); writeSlice (HeaderEncodeRLP <$> Uncles b)].

Definition decodeBody : decoder Body :=
  decodeMap (fun '(txs, us) => mkBody txs us) (decodeStruct (decodePair (decodeField (decodeListSlice TransactionDecodeRLP)) (decodeField (decodeListSlice decodeHeader)))).

Definition BodyOf (b : Block) : Body := mkBody (transactions b) (uncles b).

(** [CopyHeader]: missing big integers become zero. *)
Definition CopyHeader (h : Header) : Header :=
  mkHeader (ParentHash h) (UncleHash h) (Coinbase h) (Root h) (TxHash h) (ReceiptHash h) (Bloom h) (Some (default 0 (Difficulty h))) (Some (default 0 (Number h)))
    (GasLimit h) (GasUsed h) (Time h) (Extra h) (MixDigest h) (Nonce h) (BaseFee h).

(** [NewBlockWithHeader(h).WithBody(txs, uncles)]. *)
Definition assemble (h : Header) (b : Body) : Block := mkBlock (CopyHeader (CopyHeader h)) (Transactions b) (CopyHeader <$> Uncles b) None.

(** [HeaderParentHashFromRLP]. *)
Definition HeaderParentHashFromRLP (header : bytes) : go bytes :=
  let! r := SplitList header in
  match r with
  | Err _ => Ret zeroHash
  | Ok (listContent, _) =>
      let! r := SplitString listContent in
      match r with
      | Err _ => Ret zeroHash
      | Ok (parentHash, _) => if negb (length parentHash =? 32)%nat then Ret zeroHash else Ret (BytesToHash parentHash)
      end
  end.

Section Chain.
Context `{Keccak} {R : Type} `{KeyValueReader R} `{AncientReader R}.

Definition ancientData (db : R) (kind : string) (number : Z) : go bytes := let! r := Ancient_ db kind number in Ret (orNil r).

Definition ReadCanonicalHash (db : R) (number : Z) : go bytes :=
  let! data := ancientData db freezerHashTable number in
  Ret (BytesToHash match data with [] => getData db (headerHashKey number) | _ => data end).

(** Whether the freezer has the hash at the number. *)
Definition isCanon (db : R) (number : Z) (hash : bytes) : go bool :=
  let! r := Ancient_ db freezerHashTable number in
  Ret match r with inr _ => false | inl h => bool_decide (h = hash) end.

Definition ReadHeaderRLP (db : R) (hash : bytes) (number : Z) : go bytes :=
  let! data := ancientData db freezerHeaderTable number in
  if bool_decide (data <> []) && bool_decide (keccak data = hash) then Ret data
  else Ret (getData db (headerKey number hash)).

(** Data that the freezer keeps for the canonical block of a number, and the store under a key: bodies, receipts and total difficulties. *)
Definition readCanon (db : R) (kind : string) (key hash : bytes) (number : Z) : go bytes :=
  let! canon := isCanon db number hash in
  if canon then ancientData db kind number else Ret (getData db key).

Definition ReadBodyRLP (db : R) (hash : bytes) (number : Z) : go bytes := readCanon db freezerBodiesTable (blockBodyKey number hash) hash number.
Definition ReadTdRLP (db : R) (hash : bytes) (number : Z) : go bytes := readCanon db freezerDifficultyTable (headerTDKey number hash) hash number.
Definition ReadReceiptsRLP (db : R) (hash : bytes) (number : Z) : go bytes := readCanon db freezerReceiptTable (blockReceiptsKey number hash) hash number.

(** The existence of a header, a body or receipts. *)
Definition hasCanon (db : R) (key hash : bytes) (number : Z) : go bool :=
  let! canon := isCanon db number hash in
  if canon then Ret true else Ret (Has_ db key).

Definition HasHeader (db : R) (hash : bytes) (number : Z) : go bool := hasCanon db (headerKey number hash) hash number.
Definition HasBody (db : R) (hash : bytes) (number : Z) : go bool := hasCanon db (blockBodyKey number hash) hash number.
Definition HasReceipts (db : R) (hash : bytes) (number : Z) : go bool := hasCanon db (blockReceiptsKey number hash) hash number.

(** A stored value, decoded; nothing when it is missing or invalid. *)
Definition decodedFrom {A} (d : decoder A) (read : go bytes) : go (option A) :=
  let! data := read in Ret match data with [] => None | _ => okay (Decode d data) end.

Definition ReadHeader (db : R) (hash : bytes) (number : Z) : go (option Header) := decodedFrom decodeHeader (ReadHeaderRLP db hash number).
Definition ReadBody (db : R) (hash : bytes) (number : Z) : go (option Body) := decodedFrom decodeBody (ReadBodyRLP db hash number).
Definition ReadTd (db : R) (hash : bytes) (number : Z) : go (option Z) := decodedFrom decodeBigInt (ReadTdRLP db hash number).

Definition ReadCanonicalBodyRLP (db : R) (number : Z) : go bytes :=
  let! data := ancientData db freezerBodiesTable number in
  match data with
  | [] => Ret (getData db (blockBodyKey number (BytesToHash (getData db (headerHashKey number)))))
  | _ => Ret data
  end.

Definition ReadBlock (db : R) (hash : bytes) (number : Z) : go (option Block) :=
  let! header := ReadHeader db hash number in
  match header with
  | None => Ret None
  | Some header =>
      let! body := ReadBody db hash number in
      Ret (assemble header <$> body)
  end.

Definition ReadHeadHeader (db : R) : go (option Header) :=
  let headHeaderHash := ReadHeadHeaderHash db in
  if bool_decide (headHeaderHash = zeroHash) then Ret None
  else match ReadHeaderNumber db headHeaderHash with None => Ret None | Some n => ReadHeader db headHeaderHash n end.

Definition ReadHeadBlock (db : R) : go (option Block) :=
  let headBlockHash := ReadHeadBlockHash db in
  if bool_decide (headBlockHash = zeroHash) then Ret None
  else match ReadHeaderNumber db headBlockHash with None => Ret None | Some n => ReadBlock db headBlockHash n end.

(** The live headers from [i] down, at most [count] of them: the headers, and where the loop ends. *)
Fixpoint liveHeaders (db : R) (limit : Z) (count : nat) (i : Z) (hash : bytes) : go (list bytes * Z * nat) :=
  match count with
  | O => Ret ([], i, O)
  | S count' =>
      if limit <=? i then
        match getData db (headerKey i hash) with
        | [] => Ret ([], i, count)
        | data =>
            let! parent := HeaderParentHashFromRLP data in
            let! r := liveHeaders db limit count' (u64 (i - 1)) parent in
            let '(headers, i, count) := r in Ret (data :: headers, i, count)
        end
      else Ret ([], i, count)
  end.

Definition ReadHeaderRange (db : R) (number count : Z) : go (list bytes) :=
  if count =? 0 then Ret []
  else
    let count := if number <? u64 (count - 1) then u64 (number + 1) else count in
    let limit := match Ancients_ db with inl n => n | inr _ => 0 end in
    let! r := (if limit <=? number then
        let! hash := ReadCanonicalHash db number in liveHeaders db limit (Z.to_nat count) number hash
      else Ret ([], number, Z.to_nat count)) in
    let '(rlpHeaders, i, rest) := r in
    if decide (rest = O) then Ret rlpHeaders
    else
      let count := Z.of_nat rest in
      let! data := AncientRange_ db freezerHeaderTable (u64 (i + 1 - count)) count (u64 (count * 700)) in
      Ret match data with
          | inl data => if Z.of_nat (length data) =? count then rlpHeaders ++ reverse data else rlpHeaders
          | inr _ => rlpHeaders
          end.

(** [ReadTransaction]: the transaction with the hash and number of its block and its index. *)
Fixpoint findTransaction (txs : list Transaction) (hash : bytes) (index : Z) : go (option (Transaction * Z)) :=
  match txs with
  | [] => Ret None
  | tx :: txs =>
      let! h := TransactionHash keccak tx in
      if decide (h = hash) then Ret (Some (tx, index)) else findTransaction txs hash (index + 1)
  end.

Definition ReadTransaction (db : R) (hash : bytes) : go (option (Transaction * bytes * Z * Z)) :=
  match ReadTxLookupEntry db hash with
  | None => Ret None
  | Some blockNumber =>
      let! blockHash := ReadCanonicalHash db blockNumber in
      if bool_decide (blockHash = zeroHash) then Ret None
      else
        let! body := ReadBody db blockHash blockNumber in
        match body with
        | None => Ret None
        | Some body =>
            let! r := findTransaction (Transactions body) hash 0 in
            Ret ((fun '(tx, i) => (tx, blockHash, blockNumber, i)) <$> r)
        end
  end.

(** [FindCommonAncestor]: the parents of [a] down to the height [bn]. *)
Definition parentOf (db : R) (h : Header) : go (option Header) :=
  let! n := Uint64Of (Number h) in ReadHeader db (ParentHash h) (u64 (n - 1)).

Fixpoint lowerTo (fuel : nat) (db : R) (bn : Z) (a : Header) : go (option (option Header)) :=
  match fuel with
  | O => Ret None
  | S fuel =>
      let! n := Uint64Of (Number a) in
      if bn <? n then
        let! p := parentOf db a in
        match p with None => Ret (Some None) | Some a => lowerTo fuel db bn a end
      else Ret (Some (Some a))
  end.

Fixpoint lowerBoth (fuel : nat) (db : R) (a b : Header) : go (option (option Header)) :=
  match fuel with
  | O => Ret None
  | S fuel =>
      let! ha := HeaderHash keccak a in
      let! hb := HeaderHash keccak b in
      if decide (ha = hb) then Ret (Some (Some a))
      else
        let! pa := parentOf db a in
        match pa with
        | None => Ret (Some None)
        | Some a =>
            let! pb := parentOf db b in
            match pb with None => Ret (Some None) | Some b => lowerBoth fuel db a b end
        end
  end.

(** [None] when the fuel runs out. *)
Definition FindCommonAncestor (fuel : nat) (db : R) (a b : Header) : go (option (option Header)) :=
  let! bn := Uint64Of (Number b) in
  let! ra := lowerTo fuel db bn a in
  match ra with
  | None => Ret None
  | Some None => Ret (Some None)
  | Some (Some a) =>
      let! an := Uint64Of (Number a) in
      let! rb := lowerTo fuel db an b in
      match rb with
      | None => Ret None
      | Some None => Ret (Some None)
      | Some (Some b) => lowerBoth fuel db a b
      end
  end.

End Chain.

Section ChainWrites.
Context `{Keccak} {W : Type} `{KeyValueWriter W}.

Definition WriteHeader (header : Header) (w : W) : go W :=
  let! hash := HeaderHash keccak header in
  let! number := Uint64Of (Number header) in
  let! w := WriteHeaderNumber hash number w in
  let! data := encoded (HeaderEncodeRLP header) in
  store (headerKey number hash) data w.

Definition deleteHeaderWithoutNumber (hash : bytes) (number : Z) : W -> go W := remove (headerKey number hash).

Definition DeleteHeader (hash : bytes) (number : Z) (w : W) : go W :=
  let! w := deleteHeaderWithoutNumber hash number w in remove (headerNumberKey hash) w.

Definition WriteBodyRLP (hash : bytes) (number : Z) (rlp : bytes) : W -> go W := store (blockBodyKey number hash) rlp.

Definition WriteBody (hash : bytes) (number : Z) (body : Body) (w : W) : go W :=
  let! data := encoded (BodyEncodeRLP body) in WriteBodyRLP hash number data w.

Definition DeleteBody (hash : bytes) (number : Z) : W -> go W := remove (blockBodyKey number hash).

Definition WriteTd (hash : bytes) (number : Z) (td : option Z) (w : W) : go W :=
  let! data := encoded (writeBigIntPtr td) in store (headerTDKey number hash) data w.

Definition DeleteTd (hash : bytes) (number : Z) : W -> go W := remove (headerTDKey number hash).

Definition DeleteReceipts (hash : bytes) (number : Z) : W -> go W := remove (blockReceiptsKey number hash).

Definition WriteBlock (block : Block) (w : W) : go W :=
  let! hash := BlockHash keccak block in
  let! number := Uint64Of (Number (header block)) in
  let! w := WriteBody hash number (BodyOf block) w in
  WriteHeader (CopyHeader (header block)) w.

Definition DeleteBlock (hash : bytes) (number : Z) (w : W) : go W :=
  let! w := DeleteReceipts hash number w in
  let! w := DeleteHeader hash number w in
  let! w := DeleteBody hash number w in
  DeleteTd hash number w.

Definition DeleteBlockWithoutNumber (hash : bytes) (number : Z) (w : W) : go W :=
  let! w := DeleteReceipts hash number w in
  let! w := deleteHeaderWithoutNumber hash number w in
  let! w := DeleteBody hash number w in
  DeleteTd hash number w.

Fixpoint writeLookups (txs : list Transaction) (numberBytes : bytes) (w : W) : go W :=
  match txs with
  | [] => Ret w
  | tx :: txs =>
      let! hash := TransactionHash keccak tx in
      let! w := writeTxLookupEntry hash numberBytes w in
      writeLookups txs numberBytes w
  end.

Definition WriteTxLookupEntriesByBlock (block : Block) (w : W) : go W :=
  let! n := match Number (header block) with None => Panic | Some n => Ret n end in
  writeLookups (transactions block) (minimal (Z.abs n)) w.

End ChainWrites.

End Accessors.
