(* ===== verification/ChainStore.v ===== *)
(** * Iterations, bad blocks and crash markers (src/core/rawdb/accessors_chain.go, accessors_indexes.go, accessors_metadata.go)

    Iterations over the keys of the store, the bits of the bloom index, the bounded list of bad blocks, and the markers of unclean shutdowns. *)

From stdpp Require Import base tactics list gmap strings.
From Stdlib Require Import ZArith Lia.
From S2P Require Import Prelude Types Bytes RlpRaw RlpEncode RlpDecode TypesRlp Trie FreezerTable Freezer KeyValue Schema Accessors.

Open Scope Z_scope.
Open Scope go_scope.

Import Rlp RlpDecode RlpEncode TypesRlp Schema Accessors.

Class Iteratee (R : Type) := { NewIterator_ : bytes -> bytes -> R -> MemoryDB.iterator }.

#[global] Instance database_iteratee : Iteratee MemoryDB.Database := {| NewIterator_ := MemoryDB.NewIterator |}.

Module ChainStore.

(** [for it.Next() { ... }]: one round more than there are keys is enough. *)
Definition forEach {S} (it : MemoryDB.iterator) (body : bytes -> bytes -> S -> S + S) (s : S) : S :=
  default s (MemoryDB.iterate (Datatypes.S (length (MemoryDB.ikeys it))) body it s).

(** ** Iterations *)

Section Iterations.
Context {R : Type} `{Iteratee R}.

Definition ReadAllHashes (db : R) (number : Z) : list bytes :=
  let prefix := headerKeyPrefix number in
  forEach (NewIterator_ prefix [] db) (fun key _ hashes =>
    inl (if (length key =? length prefix + 32)%nat then hashes ++ [BytesToHash (drop (length key - 32) key)] else hashes)) [].

(** Making room for an absurd number of pointers panics. *)
Definition ReadAllHashesInRange (db : R) (first last : Z) : go (list (Z * bytes)) :=
  if FreezerTable.maxAlloc <? 8 * u64 (1 + last - first) then Panic
  else
    Ret (forEach (NewIterator_ headerPrefix (encodeBlockNumber first) db) (fun key _ hashes =>
      if negb (length key =? 41)%nat then inl hashes
      else
        let num := be_decode (take 8 (drop 1 key)) in
        if last <? num then inr hashes else inl (hashes ++ [(num, BytesToHash (drop (length key - 32) key))])) []).

Definition ReadAllCanonicalHashes (db : R) (from to limit : Z) : list (Z * bytes) :=
  if limit =? 0 then []
  else
    forEach (NewIterator_ [] (headerHashKey from) db) (fun key value acc =>
      if bytesLe (headerHashKey to) key then inr acc
      else if (length key =? 10)%nat && bool_decide (drop (length key - 1) key = headerHashSuffix) then
        let acc := acc ++ [(be_decode (take 8 (drop 1 key)), BytesToHash value)] in
        if limit <=? Z.of_nat (length acc) then inr acc else inl acc
      else inl acc) [].

(** The keys that [DeleteBloombits] deletes; the iterator does not see the deletions. *)
Definition bloomBitsKeys (db : R) (bit from to : Z) : list bytes :=
  forEach (NewIterator_ [] (bloomBitsKey bit from zeroHash) db) (fun key _ acc =>
    if bytesLe (bloomBitsKey bit to zeroHash) key then inr acc
    else if (length key =? 43)%nat then inl (acc ++ [key]) else inl acc) [].

End Iterations.

Section BloomBits.
Context {R : Type} `{KeyValueReader R} `{KeyValueWriter R} `{Iteratee R}.

Definition ReadBloomBits (db : R) (bit section : Z) (hash : bytes) : option bytes := Get_ db (bloomBitsKey bit section hash).
Definition WriteBloomBits (bit section : Z) (hash bits : bytes) : R -> go R := store (bloomBitsKey bit section hash) bits.

(** Errors of the deletions are dropped. *)
Definition DeleteBloombits (db : R) (bit from to : Z) : R := foldl (fun db key => (Delete_ key db).2) db (bloomBitsKeys db bit from to).

End BloomBits.

(** ** Bad blocks *)

Definition badBlockToKeep : Z := 10.

Record badBlock := mkBad { BHeader : Header; BBody : Body }.

Definition badBlocksWriter (l : list badBlock) : writer :=
  writeSlice ((fun b => writeStruct [HeaderEncodeRLP (BHeader b); BodyEncodeRLP (BBody b)]) <$> l).

Definition decodeBadBlock : decoder badBlock :=
  decodeMap (fun '(h, b) => mkBad h b) (decodeStruct (decodePair (decodeField decodeHeader) (decodeField decodeBody))).

Definition decodeBadBlocks : decoder (list badBlock) := decodeListSlice decodeBadBlock.

(** The number of a header that was decoded or copied, and so has one. *)
Definition numberOf (h : Header) : Z := u64 (Z.abs (default 0 (Number h))).

Section BadBlocks.
Context `{Keccak} `{SortSlice} {R : Type} `{KeyValueReader R} `{KeyValueWriter R}.

Definition loadBad (db : R) : option (list badBlock) := match Get_ db badBlockKey with None => None | Some blob => okay (DecodeBytes decodeBadBlocks blob) end.

Fixpoint findBad (l : list badBlock) (hash : bytes) : go (option Block) :=
  match l with
  | [] => Ret None
  | bad :: l =>
      let! h := HeaderHash keccak (BHeader bad) in
      if decide (h = hash) then Ret (Some (assemble (BHeader bad) (BBody bad))) else findBad l hash
  end.

Definition ReadBadBlock (db : R) (hash : bytes) : go (option Block) :=
  match loadBad db with None => Ret None | Some l => findBad l hash end.

Definition ReadAllBadBlocks (db : R) : list Block :=
  match loadBad db with None => [] | Some l => (fun bad => assemble (BHeader bad) (BBody bad)) <$> l end.

Fixpoint isDuplicate (l : list badBlock) (number : Z) (hash : bytes) : go bool :=
  match l with
  | [] => Ret false
  | b :: l =>
      if numberOf (BHeader b) =? number then
        let! h := HeaderHash keccak (BHeader b) in
        if decide (h = hash) then Ret true else isDuplicate l number hash
      else isDuplicate l number hash
  end.

(** The list with a block, the highest numbers first. *)
Definition addBad (l : list badBlock) (bad : badBlock) : list badBlock :=
  take (Z.to_nat badBlockToKeep) (sort_slice (fun a b => numberOf (BHeader b) <? numberOf (BHeader a)) (l ++ [bad])).

Definition WriteBadBlock (block : Block) (db : R) : go R :=
  let! l := match default [] (Get_ db badBlockKey) with
            | [] => Ret []
            | blob => match DecodeBytes decodeBadBlocks blob with Ok l => Ret l | Err _ => Panic end
            end in
  let! number := Uint64Of (Number (header block)) in
  let! hash := BlockHash keccak block in
  let! dup := isDuplicate l number hash in
  if dup : bool then Ret db
  else
    let! data := encoded (badBlocksWriter (addBad l (mkBad (CopyHeader (header block)) (BodyOf block)))) in
    store badBlockKey data db.

Definition DeleteBadBlocks : R -> go R := remove badBlockKey.

End BadBlocks.

(** ** Unclean shutdowns *)

Record crashList := mkCrash { Discarded : Z; Recent : list Z }.

Definition crashesToKeep : Z := 10.

Definition crashWriter (c : crashList) : writer := writeStruct [writeUint (Discarded c); writeSlice (writeUint <$> Recent c)].

Definition decodeCrash : decoder crashList :=
  decodeMap (fun '(d, r) => mkCrash d r) (decodeStruct (decodePair (decodeField decodeUint64) (decodeField (decodeListSlice decodeUint64)))).

Section Shutdowns.
Context {R : Type} `{KeyValueReader R} `{KeyValueWriter R}.

(** The marked list with a new marker, the oldest dropped. *)
Definition pushMarker (c : crashList) (now : Z) : crashList :=
  let recent := Recent c ++ [u64 now] in
  let count := Z.of_nat (length recent) in
  if crashesToKeep + 1 <? count then
    let numDel := count - (crashesToKeep + 1) in mkCrash (u64 (Discarded c + numDel)) (drop (Z.to_nat numDel) recent)
  else mkCrash (Discarded c) recent.

(** The encoding, of which an error would be dropped. *)
Definition crashBytes (c : crashList) : go bytes := let! r := EncodeToBytes (crashWriter c) in Ret match r with Ok bs => bs | Err _ => [] end.

(** A failing write is an error here, and is only logged by the other two. *)
Definition PushUncleanShutdownMarker (now : Z) (db : R) : go ((list Z * Z) + unit) * R :=
  match (match Get_ db uncleanShutdownKey with None => Ok (mkCrash 0 []) | Some data => DecodeBytes decodeCrash data end) with
  | Err _ => (Ret (inr tt), db)
  | Ok c =>
      match crashBytes (pushMarker c now) with
      | Panic => (Panic, db)
      | Ret data => match Put_ uncleanShutdownKey data db with
                    | (None, db) => (Ret (inl (Recent c, Discarded c)), db)
                    | (Some _, db) => (Ret (inr tt), db)
                    end
      end
  end.

(** What the decoder leaves in the list when it fails. *)
Context (leftover : bytes -> crashList).

(** The list that is stored; an error is only logged. *)
Definition loadCrashes (db : R) : crashList :=
  match Get_ db uncleanShutdownKey with
  | None => mkCrash 0 []
  | Some data => match DecodeBytes decodeCrash data with Ok c => c | Err _ => leftover data end
  end.

Definition PopUncleanShutdownMarker (db : R) : go R :=
  let c := loadCrashes db in
  let! data := crashBytes (mkCrash (Discarded c) (take (length (Recent c) - 1) (Recent c))) in
  Ret (Put_ uncleanShutdownKey data db).2.

Definition UpdateUncleanShutdownMarker (now : Z) (db : R) : go R :=
  let c := loadCrashes db in
  match Recent c with
  | [] => Ret db
  | _ =>
      let! data := crashBytes (mkCrash (Discarded c) (take (length (Recent c) - 1) (Recent c) ++ [u64 now])) in
      Ret (Put_ uncleanShutdownKey data db).2
  end.

End Shutdowns.

End ChainStore.
