(* ===== verification/Receipts.v ===== *)
(** * Receipts, logs and their blooms (src/core/types/receipt.go, log.go, bloom9.go, src/core/rawdb/accessors_chain.go, accessors_indexes.go)

    The consensus encoding of receipts, their encoding in the database with the two older formats that are still read, the bloom filter over their logs, the fields that are
    derived from the block, and the accessors of the database. Logs are values here; the code changes them in place while it derives their fields. *)

From stdpp Require Import base tactics list gmap strings.
From Stdlib Require Import ZArith Lia.
From S2P Require Import Prelude Bytes RlpRaw RlpEncode RlpDecode TypesRlp Trie FreezerTable Freezer KeyValue Schema Accessors.

Open Scope Z_scope.
Open Scope go_scope.

Import Rlp RlpDecode RlpEncode TypesRlp Schema Accessors Freezer.

Module Receipts.

(** ** Logs *)

Record Log := mkLog {
  LogAddress : bytes;
  Topics : list bytes;
  LogData : bytes;
  LogBlockNumber : Z;
  LogTxHash : bytes;
  TxIndex : Z;
  LogBlockHash : bytes;
  Index : Z;
  Removed : bool
}.

(** A log with nothing but its consensus fields. *)
Definition rlpLog (address : bytes) (topics : list bytes) (data : bytes) : Log := mkLog address topics data 0 zeroHash 0 zeroHash 0 false.

(** [Log.EncodeRLP] and [LogForStorage.EncodeRLP], by the generated code. *)
Definition LogEncodeRLP (l : Log) : writer :=
  writeList [writeByteSlice (LogAddress l); writeList (writeByteSlice <$> Topics l); writeByteSlice (LogData l)].

Definition LogDecodeRLP : decoder Log :=
  decodeMap (fun '(address, (topics, data)) => rlpLog address topics data)
    (decodeStruct (decodeAddress +++ decodeListSlice decodeHash +++ decodeField decodeByteSlice)).

(** The older form of a stored log, of which the same fields are kept. *)
Definition decodeLegacyStorageLog : decoder Log :=
  decodeMap (fun '(address, (topics, (data, (number, (txHash, (txIndex, (blockHash, index))))))) => rlpLog address topics data)
    (decodeStruct (decodeAddress +++ decodeListSlice decodeHash +++ decodeByteSlice +++ decodeUint64 +++ decodeHash +++ decodeUint64 +++ decodeHash +++ decodeField decodeUint64)).

Definition LogForStorageDecodeRLP : decoder Log := fun s =>
  match Raw s with
  | (Err e, s) => (Err e, s)
  | (Ok blob, s) => (match DecodeBytes LogDecodeRLP blob with Ok l => Ok l | Err _ => DecodeBytes decodeLegacyStorageLog blob end, s)
  end.

(** ** Receipts *)

Record Receipt := mkReceipt {
  RType : Z;
  PostState : bytes;
  Status : Z;
  CumulativeGasUsed : Z;
  RBloom : bytes;
  Logs : list Log;
  RTxHash : bytes;
  ContractAddress : bytes;
  RGasUsed : Z;
  RBlockHash : bytes;
  RBlockNumber : option Z;
  TransactionIndex : Z
}.

Definition zeroAddress : bytes := replicate 20 0.

(** The consensus fields of a receipt, the others with their zero values. *)
Definition consensus (type : Z) (postState : bytes) (status gas : Z) (bloom : bytes) (logs : list Log) : Receipt :=
  mkReceipt type postState status gas bloom logs zeroHash zeroAddress 0 zeroHash None 0.

Definition ReceiptStatusFailed : Z := 0.
Definition ReceiptStatusSuccessful : Z := 1.
Definition receiptStatusFailedRLP : bytes := [].
Definition receiptStatusSuccessfulRLP : bytes := [1].

Definition NewReceipt (root : bytes) (failed : bool) (cumulativeGasUsed : Z) : Receipt :=
  consensus 0 root (if failed then ReceiptStatusFailed else ReceiptStatusSuccessful) cumulativeGasUsed (replicate 256 0) [].

Definition statusEncoding (r : Receipt) : bytes :=
  match PostState r with
  | [] => if Status r =? ReceiptStatusFailed then receiptStatusFailedRLP else receiptStatusSuccessfulRLP
  | postState => postState
  end.

(** The post state and the status of a new receipt. *)
Definition setStatus (postStateOrStatus : bytes) : res (bytes * Z) :=
  if decide (postStateOrStatus = receiptStatusSuccessfulRLP) then Ok ([], ReceiptStatusSuccessful)
  else if decide (postStateOrStatus = receiptStatusFailedRLP) then Ok ([], ReceiptStatusFailed)
  else if (length postStateOrStatus =? 32)%nat then Ok (postStateOrStatus, 0)
  else Err errBadStatus.

(** The fields of [receiptRLP]. *)
Definition receiptRLP (r : Receipt) : writer :=
  writeStruct [writeByteSlice (statusEncoding r); writeUint (CumulativeGasUsed r); writeByteArray (RBloom r); writeSlice (LogEncodeRLP <$> Logs r)].

(** The type and the consensus fields, as [MarshalBinary] writes them for typed receipts. *)
Definition encodeTyped (r : Receipt) : go (res bytes) :=
  let! b := EncodeToBytes (receiptRLP r) in
  Ret match b with Ok b => Ok (RType r :: b) | Err e => Err e end.

Definition ReceiptEncodeRLP (r : Receipt) : writer := fun buf =>
  if RType r =? 0 then receiptRLP r buf
  else
    let! b := encodeTyped r in
    match b with Ok b => writeByteSlice b buf | Err e => Ret (Err e) end.

Definition MarshalBinary (r : Receipt) : go (res bytes) := if RType r =? 0 then EncodeToBytes (receiptRLP r) else encodeTyped r.

Definition decodeReceiptRLP : decoder (bytes * (Z * (bytes * list Log))) :=
  decodeStruct (decodeByteSlice +++ decodeUint64 +++ decodeByteArray 256 +++ decodeField (decodeListSlice LogDecodeRLP)).

Definition setFromRLP (type : Z) (dec : bytes * (Z * (bytes * list Log))) : res Receipt :=
  let '(status, (gas, (bloom, logs))) := dec in
  match setStatus status with
  | Err e => Err e
  | Ok (postState, status) => Ok (consensus type postState status gas bloom logs)
  end.

Definition decodeTyped (b : bytes) : res Receipt :=
  match b with
  | [] => Err errEmptyTypedReceipt
  | t :: rest =>
      if (t =? 1) || (t =? 2) then match DecodeBytes decodeReceiptRLP rest with Ok dec => setFromRLP t dec | Err e => Err e end
      else Err ErrTxTypeNotSupported
  end.

Definition ReceiptDecodeRLP : decoder Receipt := fun s =>
  match Kind_ s with
  | (Err e, s) => (Err e, s)
  | (Ok (KList, _), s) =>
      match decodeReceiptRLP s with
      | (Err e, s) => (Err e, s)
      | (Ok dec, s) => (setFromRLP 0 dec, s)
      end
  | (Ok (KString, _), s) =>
      match RlpDecode.Bytes s with
      | (Err e, s) => (Err e, s)
      | (Ok b, s) => (decodeTyped b, s)
      end
  | (Ok (KByte, _), s) => (Err ErrExpectedList, s)
  end.

Definition UnmarshalBinary (b : bytes) : res Receipt :=
  match b with
  | t :: _ => if 0x7f <? t then match DecodeBytes decodeReceiptRLP b with Ok dec => setFromRLP 0 dec | Err e => Err e end else decodeTyped b
  | [] => decodeTyped b
  end.

(** [Receipts.EncodeIndex]: what is written for the derived hash; nothing for unknown types, and errors are dropped. *)
Definition EncodeIndex (r : Receipt) : go bytes :=
  if (RType r =? 0) || (RType r =? 1) || (RType r =? 2) then
    let! b := EncodeToBytes (receiptRLP r) in
    Ret ((if RType r =? 0 then [] else [RType r]) ++ match b with Ok b => b | Err _ => [] end)
  else Ret [].

(** ** The bloom filter *)

Definition BloomByteLength : Z := 256.

Section Blooms.
Context `{Keccak}.

(** The indices of the bytes and the bits in them, from the first six bytes of the hash. *)
Definition bloomValues (data : bytes) : list (Z * Z) :=
  let hashbuf := take 6 (keccak data) in
  let value i := Z.shiftl 1 (Z.land (nth (i + 1) hashbuf 0) 0x7) in
  let index i := BloomByteLength - Z.shiftr (Z.land (be_decode (take 2 (drop i hashbuf))) 0x7ff) 3 - 1 in
  [(index 0%nat, value 0%nat); (index 2%nat, value 2%nat); (index 4%nat, value 4%nat)].

Definition orByte (b : bytes) (iv : Z * Z) : bytes := alter (fun x => Z.lor x iv.2) (Z.to_nat iv.1) b.

Definition add (b d : bytes) : bytes := foldl orByte b (bloomValues d).

Definition Test (b topic : bytes) : bool := forallb (fun iv => iv.2 =? Z.land iv.2 (nth (Z.to_nat iv.1) b 0)) (bloomValues topic).

Definition EmptyBloom : bytes := replicate 256 0.

(** The logs of a receipt, into a filter. *)
Definition addLog (bin : bytes) (log : Log) : bytes := foldl add (add bin (LogAddress log)) (Topics log).

Definition CreateBloom (receipts : list Receipt) : bytes := foldl (fun bin receipt => foldl addLog bin (Logs receipt)) EmptyBloom receipts.

Definition LogsBloom (logs : list Log) : bytes := foldl addLog EmptyBloom logs.

Definition SetBytes (d : bytes) : go bytes :=
  if BloomByteLength <? Z.of_nat (length d) then Panic else Ret (replicate (256 - length d) 0 ++ d).

Definition Bloom9 (data : bytes) : go bytes := SetBytes data.

(** ** Receipts in the database *)

Definition ReceiptForStorageEncodeRLP (r : Receipt) : writer :=
  writeList [writeByteSlice (statusEncoding r); writeUint (CumulativeGasUsed r); writeList (LogEncodeRLP <$> Logs r)].

(** A stored receipt whose bloom is computed anew. *)
Definition withBloom (postState : bytes) (status gas : Z) (logs : list Log) (txHash address : bytes) (used : Z) : Receipt :=
  mkReceipt 0 postState status gas (LogsBloom logs) logs txHash address used zeroHash None 0.

Definition decodeStoredReceiptRLP (blob : bytes) : res Receipt :=
  match DecodeBytes (decodeStruct (decodeByteSlice +++ decodeUint64 +++ decodeField (decodeListSlice LogForStorageDecodeRLP))) blob with
  | Err e => Err e
  | Ok (status, (gas, logs)) =>
      match setStatus status with
      | Err e => Err e
      | Ok (postState, status) => Ok (withBloom postState status gas logs zeroHash zeroAddress 0)
      end
  end.

Definition decodeV4StoredReceiptRLP (blob : bytes) : res Receipt :=
  match DecodeBytes (decodeStruct (decodeByteSlice +++ decodeUint64 +++ decodeHash +++ decodeAddress +++ decodeListSlice LogForStorageDecodeRLP +++ decodeField decodeUint64)) blob with
  | Err e => Err e
  | Ok (status, (gas, (txHash, (address, (logs, used))))) =>
      match setStatus status with
      | Err e => Err e
      | Ok (postState, status) => Ok (withBloom postState status gas logs txHash address used)
      end
  end.

Definition decodeV3StoredReceiptRLP (blob : bytes) : res Receipt :=
  match DecodeBytes (decodeStruct (decodeByteSlice +++ decodeUint64 +++ decodeByteArray 256 +++ decodeHash +++ decodeAddress +++ decodeListSlice LogForStorageDecodeRLP +++ decodeField decodeUint64)) blob with
  | Err e => Err e
  | Ok (status, (gas, (bloom, (txHash, (address, (logs, used)))))) =>
      match setStatus status with
      | Err e => Err e
      | Ok (postState, status) => Ok (mkReceipt 0 postState status gas bloom logs txHash address used zeroHash None 0)
      end
  end.

Definition ReceiptForStorageDecodeRLP : decoder Receipt := fun s =>
  match Raw s with
  | (Err e, s) => (Err e, s)
  | (Ok blob, s) =>
      (match decodeStoredReceiptRLP blob with
       | Ok r => Ok r
       | Err _ => match decodeV3StoredReceiptRLP blob with Ok r => Ok r | Err _ => decodeV4StoredReceiptRLP blob end
       end, s)
  end.

(** ** Derived fields *)

Definition logAt (number : Z) (hash txHash : bytes) (txIndex index : Z) (l : Log) : Log :=
  mkLog (LogAddress l) (Topics l) (LogData l) number txHash txIndex hash index (Removed l).

(** The logs of a transaction, numbered from [index] on. *)
Fixpoint deriveLogs (number : Z) (hash txHash : bytes) (txIndex index : Z) (logs : list Log) : list Log :=
  match logs with
  | [] => []
  | l :: logs => logAt number hash txHash txIndex index l :: deriveLogs number hash txHash txIndex (u64 (index + 1)) logs
  end.

Definition CreateAddress (b : bytes) (nonce : Z) : go bytes :=
  let! data := EncodeToBytes (writeSlice [writeByteArray b; writeUint nonce]) in
  Ret (drop 12 (keccak match data with Ok d => d | Err _ => [] end)).

Definition txTo (tx : TxData) : option bytes := match tx with Legacy t => lTo t | AccessListTx_ t => aTo t | DynamicFee t => dTo t end.
Definition txNonce (tx : TxData) : Z := match tx with Legacy t => lNonce t | AccessListTx_ t => aNonce t | DynamicFee t => dNonce t end.

(** [Sender] with the signer of the chain and the block: the address that is recovered from the signature, zero with an error. *)
Context (sender : Transaction -> bytes).

(** The receipt of the transaction [tx] at index [i], after a receipt with the cumulative gas [before]. *)
Definition deriveReceipt (hash : bytes) (number i logIndex : Z) (before : option Z) (tx : Transaction) (r : Receipt) : go Receipt :=
  let! txHash := TransactionHash keccak tx in
  let! address := match txTo (inner tx) with None => CreateAddress (sender tx) (txNonce (inner tx)) | Some _ => Ret (ContractAddress r) end in
  let gas := match before with None => CumulativeGasUsed r | Some g => u64 (CumulativeGasUsed r - g) end in
  Ret (mkReceipt (txType (inner tx)) (PostState r) (Status r) (CumulativeGasUsed r) (RBloom r) (deriveLogs number hash txHash i logIndex (Logs r))
         txHash address gas hash (Some number) i).

Fixpoint deriveLoop (hash : bytes) (number i logIndex : Z) (before : option Z) (txs : list Transaction) (rs : list Receipt) : go (list Receipt) :=
  match txs, rs with
  | tx :: txs, r :: rs =>
      let! r' := deriveReceipt hash number i logIndex before tx r in
      let! rest := deriveLoop hash number (i + 1) (u64 (logIndex + Z.of_nat (length (Logs r)))) (Some (CumulativeGasUsed r)) txs rs in
      Ret (r' :: rest)
  | _, _ => Ret []
  end.

(** [None] when the counts differ. *)
Definition DeriveFields (hash : bytes) (number : Z) (txs : list Transaction) (rs : list Receipt) : go (option (list Receipt)) :=
  if negb (length txs =? length rs)%nat then Ret None
  else let! rs := deriveLoop hash number 0 0 None txs rs in Ret (Some rs).

(** The same for lists of logs. *)
Fixpoint deriveLogsLoop (hash : bytes) (number i logIndex : Z) (txs : list Transaction) (logs : list (list Log)) : go (list (list Log)) :=
  match txs, logs with
  | tx :: txs, l :: logs =>
      let! txHash := TransactionHash keccak tx in
      let! rest := deriveLogsLoop hash number (i + 1) (u64 (logIndex + Z.of_nat (length l))) txs logs in
      Ret (deriveLogs number hash txHash i logIndex l :: rest)
  | _, _ => Ret []
  end.

Definition deriveLogFields (hash : bytes) (number : Z) (txs : list Transaction) (logs : list (list Log)) : go (option (list (list Log))) :=
  if negb (length txs =? length logs)%nat then Ret None
  else let! logs := deriveLogsLoop hash number 0 0 txs logs in Ret (Some logs).

(** ** Accessors *)

Definition receiptsWriter (receipts : list Receipt) : writer := writeSlice (ReceiptForStorageEncodeRLP <$> receipts).

Definition WriteReceipts {W} `{KeyValueWriter W} (hash : bytes) (number : Z) (receipts : list Receipt) (w : W) : go W :=
  let! b := encoded (receiptsWriter receipts) in store (blockReceiptsKey number hash) b w.

Section Readers.
Context {R : Type} `{KeyValueReader R} `{AncientReader R}.

Definition ReadRawReceipts (db : R) (hash : bytes) (number : Z) : go (option (list Receipt)) :=
  let! data := ReadReceiptsRLP db hash number in
  Ret match data with [] => None | _ => okay (DecodeBytes (decodeListSlice ReceiptForStorageDecodeRLP) data) end.

Definition ReadReceipts (db : R) (hash : bytes) (number : Z) : go (option (list Receipt)) :=
  let! receipts := ReadRawReceipts db hash number in
  match receipts with
  | None => Ret None
  | Some receipts =>
      let! body := ReadBody db hash number in
      match body with None => Ret None | Some body => DeriveFields hash number (Transactions body) receipts end
  end.

(** [receiptLogs.DecodeRLP]. *)
Definition decodeReceiptLogs : decoder (list Log) :=
  decodeMap (fun '(_, (_, logs)) => logs) (decodeStruct (decodeByteSlice +++ decodeUint64 +++ decodeField (decodeListSlice LogForStorageDecodeRLP))).

Definition readLegacyLogs (db : R) (hash : bytes) (number : Z) : go (option (list (list Log))) :=
  let! receipts := ReadReceipts db hash number in Ret (match receipts with None => None | Some rs => Some (Logs <$> rs) end).

Definition ReadLogs (db : R) (hash : bytes) (number : Z) : go (option (list (list Log))) :=
  let! data := ReadReceiptsRLP db hash number in
  match data with
  | [] => Ret None
  | _ =>
      match DecodeBytes (decodeListSlice decodeReceiptLogs) data with
      | Err _ => readLegacyLogs db hash number
      | Ok logs =>
          let! body := ReadBody db hash number in
          match body with None => Ret None | Some body => deriveLogFields hash number (Transactions body) logs end
      end
  end.

(** The receipt of a transaction, with the hash and number of its block and its index. *)
Definition ReadReceipt (db : R) (hash : bytes) : go (option (Receipt * bytes * Z * Z)) :=
  match ReadTxLookupEntry db hash with
  | None => Ret None
  | Some blockNumber =>
      let! blockHash := ReadCanonicalHash db blockNumber in
      if bool_decide (blockHash = zeroHash) then Ret None
      else
        let! receipts := ReadReceipts db blockHash blockNumber in
        Ret ((fun '(i, r) => (r, blockHash, blockNumber, Z.of_nat i)) <$> list_find (fun r => RTxHash r = hash) (default [] receipts))
  end.

End Readers.

(** ** Blocks that go to the freezer at once *)

(** A step of [writeAncientBlock]. *)
Definition orElse (what : string) (k : writeOp) (e : option FreezerTable.fErr) : writeOp :=
  match e with Some e => Finish (Some (FreezerTable.errWrite what e)) | None => k end.

Definition writeAncientBlock (block : Block) (header : Header) (receipts : list Receipt) (td : Z) (k : writeOp) : writeOp :=
  match Uint64Of (Number (TypesRlp.header block)), BlockHash keccak block with
  | Ret num, Ret hash =>
      OpAppendRaw freezerHashTable num hash (orElse "hash" (
      OpAppend freezerHeaderTable num (HeaderEncodeRLP header) (orElse "header" (
      OpAppend freezerBodiesTable num (BodyEncodeRLP (BodyOf block)) (orElse "body" (
      OpAppend freezerReceiptTable num (receiptsWriter receipts) (orElse "receipts" (
      OpAppend freezerDifficultyTable num (writeBigIntPtr (Some td)) (orElse "td" k)))))))))
  | _, _ => Crash
  end.

(** The blocks from the [i]-th on; the difficulty of the first is not added. *)
Fixpoint ancientBlocksOp (first : bool) (blocks : list Block) (receipts : list (list Receipt)) (tdSum : Z) : writeOp :=
  match blocks with
  | [] => Finish None
  | block :: blocks =>
      match receipts with
      | [] => Crash
      | rs :: receipts =>
          let header := CopyHeader (TypesRlp.header block) in
          let tdSum := if first then tdSum else tdSum + default 0 (Difficulty header) in
          writeAncientBlock block header rs tdSum (ancientBlocksOp false blocks receipts tdSum)
      end
  end.

End Blooms.

Definition WriteAncientBlocks `{Keccak} `{FreezerTable.Snappy} `{Types.RangeOrder} (blocks : list Block) (receipts : list (list Receipt)) (td : option Z) (f : freezer) : go (Z * option FreezerTable.fErr * freezer) :=
  match td with None => Panic | Some td => ModifyAncients (ancientBlocksOp true blocks receipts td) f end.

End Receipts.
