(* ===== verification/ChainFreezer.v ===== *)
(** * Databases with a freezer and the rounds of the freezer (src/core/rawdb/database.go, freezer.go)

    The key-value store is a memory store. The goroutine of the freezer runs rounds, each of which reads the head of the chain, moves the blocks that are old
    enough to the freezer, and deletes them and the side chains from the store; a round is a function on both. Timers, the trigger of the tests
    and the shutdown are left out. *)

From stdpp Require Import base tactics list gmap strings.
From Stdlib Require Import ZArith Lia.
From S2P Require Import Prelude Types Bytes RlpRaw RlpEncode RlpDecode TypesRlp Trie FreezerTable Freezer KeyValue Schema Accessors ChainStore.

Open Scope Z_scope.
Open Scope go_scope.

Import TypesRlp Schema Accessors ChainStore FreezerTable Freezer.

Module ChainFreezer.

Definition freezerBatchLimit : Z := 30000.
Definition StableStateThreshold : Z := 128.

(** ** Databases *)

Record nofreezedb := mkNoFreeze { nkv : MemoryDB.Database }.

#[global] Instance nofreezedb_reader : KeyValueReader nofreezedb := {| Has_ db key := Has_ (nkv db) key; Get_ db key := Get_ (nkv db) key |}.

#[global] Instance nofreezedb_ancients : AncientReader nofreezedb := {|
  Ancient_ _ _ _ := Ret (inr errNotSupported);
  AncientRange_ _ _ _ _ _ := Ret (inr errNotSupported);
  Ancients_ _ := inr errNotSupported
|}.

Record freezerdb := mkFreezerDb { kv : MemoryDB.Database; ancientStore : freezer }.

#[global] Instance freezerdb_reader : KeyValueReader freezerdb := {| Has_ db key := Has_ (kv db) key; Get_ db key := Get_ (kv db) key |}.

#[global] Instance freezerdb_ancients `{Snappy} : AncientReader freezerdb := {|
  Ancient_ db kind number := Ancient (ancientStore db) kind number;
  AncientRange_ db kind start count max := AncientRange (ancientStore db) kind start count max;
  Ancients_ db := inl (Ancients (ancientStore db))
|}.

Section Rounds.
Context `{Keccak} `{Snappy} `{RangeOrder}.

(** ** Moving blocks to the freezer *)

(** The parts of a block are read one after the other; the freezing ends at the first that is missing. *)
Definition reading (read : go bytes) (what : string) (number : Z) (k : bytes -> writeOp) : writeOp :=
  match read with
  | Panic => Crash
  | Ret [] => Finish (Some (errMissing what number))
  | Ret data => k data
  end.

Definition writing (kind : string) (number : Z) (item : bytes) (what : string) (k : writeOp) : writeOp :=
  OpAppendRaw kind number item (fun e => match e with Some e => Finish (Some (errWrite what e)) | None => k end).

(** The operation of [freezeRange] from [number] on, for [n] blocks. *)
Fixpoint freezeOp (nfdb : nofreezedb) (n : nat) (number : Z) : writeOp :=
  match n with
  | O => Finish None
  | S n =>
      match ReadCanonicalHash nfdb number with
      | Panic => Crash
      | Ret hash =>
          if decide (hash = zeroHash) then Finish (Some (errMissing "hash" number))
          else
            reading (ReadHeaderRLP nfdb hash number) "header" number (fun header =>
            reading (ReadBodyRLP nfdb hash number) "body" number (fun body =>
            reading (ReadReceiptsRLP nfdb hash number) "receipts" number (fun receipts =>
            reading (ReadTdRLP nfdb hash number) "td" number (fun td =>
            writing freezerHashTable number hash "hash" (
            writing freezerHeaderTable number header "header" (
            writing freezerBodiesTable number body "body" (
            writing freezerReceiptTable number receipts "receipts" (
            writing freezerDifficultyTable number td "td" (freezeOp nfdb n (u64 (number + 1)))))))))))
      end
  end.

(** The hashes that the operation collects. *)
Fixpoint frozenHashes (nfdb : nofreezedb) (n : nat) (number : Z) : list bytes :=
  match n with
  | O => []
  | S n => match ReadCanonicalHash nfdb number with Ret hash => hash | Panic => [] end :: frozenHashes nfdb n (u64 (number + 1))
  end.

(** The hashes count only when the operation succeeds. *)
Definition freezeRange (nfdb : nofreezedb) (number limit : Z) (f : freezer) : go (list bytes * option fErr * freezer) :=
  let n := Z.to_nat (limit + 1 - number) in
  let! r := ModifyAncients (freezeOp nfdb n number) f in
  let '(_, err, f) := r in
  Ret (match err with None => frozenHashes nfdb n number | Some _ => [] end, err, f).

(** ** Cleaning the store *)

(** The canonical blocks from [number] on, without the genesis block. *)
Fixpoint wipeFrozen (ancients : list bytes) (number : Z) (batch : MemoryDB.batch) : go MemoryDB.batch :=
  match ancients with
  | [] => Ret batch
  | hash :: ancients =>
      let! batch := (if negb (number =? 0) then
          let! batch := DeleteBlockWithoutNumber hash number batch in DeleteCanonicalHash number batch
        else Ret batch) in
      wipeFrozen ancients (u64 (number + 1)) batch
  end.

Definition wipeHashes (hashes : list bytes) (number : Z) (batch : MemoryDB.batch) : go MemoryDB.batch :=
  go_foldl (fun batch hash => DeleteBlock hash number batch) batch hashes.

(** The side chains at [n] numbers from [number] on, and the hashes at the last number. *)
Fixpoint wipeSides (db : MemoryDB.Database) (n : nat) (number : Z) (dangling : list bytes) (batch : MemoryDB.batch) : go (list bytes * MemoryDB.batch) :=
  match n with
  | O => Ret (dangling, batch)
  | S n =>
      if negb (number =? 0) then
        let dangling := ReadAllHashes db number in
        let! batch := wipeHashes dangling number batch in
        wipeSides db n (u64 (number + 1)) dangling batch
      else wipeSides db n (u64 (number + 1)) dangling batch
  end.

(** The children of dangling blocks are kept as dangling and deleted; those whose header is missing are only kept. *)
Fixpoint wipeChildren (db : MemoryDB.Database) (drop_ : list bytes) (tip : Z) (children : list bytes) (batch : MemoryDB.batch) : go (list bytes * MemoryDB.batch) :=
  match children with
  | [] => Ret ([], batch)
  | hash :: children =>
      let! child := ReadHeader (mkNoFreeze db) hash tip in
      match child with
      | None => let! r := wipeChildren db drop_ tip children batch in Ret (hash :: r.1, r.2)
      | Some child =>
          if decide (ParentHash child ∈ drop_) then
            let! batch := DeleteBlock hash tip batch in
            let! r := wipeChildren db drop_ tip children batch in Ret (hash :: r.1, r.2)
          else wipeChildren db drop_ tip children batch
      end
  end.

Fixpoint wipeDangling (fuel : nat) (db : MemoryDB.Database) (dangling : list bytes) (tip : Z) (batch : MemoryDB.batch) : go (option MemoryDB.batch) :=
  match fuel with
  | O => Ret None
  | S fuel =>
      match dangling with
      | [] => Ret (Some batch)
      | _ =>
          let! r := wipeChildren db dangling tip (ReadAllHashes db tip) batch in
          wipeDangling fuel db r.1 (u64 (tip + 1)) r.2
      end
  end.

(** [None] when the fuel runs out. *)
Definition gcKvStore (fuel : nat) (db : MemoryDB.Database) (ancients : list bytes) (first frozen : Z) : go (option MemoryDB.Database) :=
  let! batch := wipeFrozen ancients first MemoryDB.NewBatch in
  let! db := MemoryDB.Write batch db in
  let! r := wipeSides db (Z.to_nat (frozen - first)) first [] MemoryDB.NewBatch in
  let '(dangling, batch) := r in
  let! db := MemoryDB.Write batch db in
  if 0 <? frozen then
    let! r := wipeDangling fuel db dangling frozen MemoryDB.NewBatch in
    match r with
    | None => Ret None
    | Some batch => let! db := MemoryDB.Write batch db in Ret (Some db)
    end
  else Ret (Some db).

(** ** A round *)

(** Whether the freezer waits before the next round, the store and the freezer. *)
Record outcome := mkOutcome { backoff : bool; store_ : MemoryDB.Database; freezer_ : freezer }.

(** The block that is old enough, or nothing when there is none. *)
Definition freezingLimit (nfdb : nofreezedb) (threshold frozen : Z) : go (option Z) :=
  let hash := ReadHeadBlockHash nfdb in
  if decide (hash = zeroHash) then Ret None
  else
    match ReadHeaderNumber nfdb hash with
    | None => Ret None
    | Some number =>
        if number <? threshold then Ret None
        else if number - threshold <=? frozen then Ret None
        else
          let! head := ReadHeader nfdb hash number in
          match head with None => Ret None | Some _ => Ret (Some (number - threshold)) end
    end.

Definition freezeRound (fuel : nat) (db : MemoryDB.Database) (f : freezer) : go (option outcome) :=
  let nfdb := mkNoFreeze db in
  let! limit := freezingLimit nfdb (threshold f) (frozen f) in
  match limit with
  | None => Ret (Some (mkOutcome true db f))
  | Some limit =>
      let first := frozen f in
      let limit := if freezerBatchLimit <? limit - first then first + freezerBatchLimit else limit in
      let! r := freezeRange nfdb first limit f in
      match r with
      | (_, Some _, f) => Ret (Some (mkOutcome true db f))
      | (ancients, None, f) =>
          let! db := gcKvStore fuel db ancients first (frozen f) in
          match db with
          | None => Ret None
          | Some db => Ret (Some (mkOutcome (freezerBatchLimit <=? u64 (frozen f - first)) db f))
          end
      end
  end.

End Rounds.

End ChainFreezer.
