(* ===== verification/SchemaProps.v ===== *)
(** * The schema is unambiguous

    The kinds of data that are stored, with their keys: different data never share a key. *)

From stdpp Require Import base tactics list gmap strings.
From Stdlib Require Import ZArith Lia.
From S2P Require Import Prelude Bytes KeyValue Schema.

Open Scope Z_scope.
Import Schema.

(** Data under a fixed key. *)
Inductive meta :=
| DatabaseVersion | HeadHeader | HeadBlock | HeadFastBlock | LastPivot | TxIndexTail | FastTxLookupLimit | OffsetCurrent | OffsetLast | Frozen | SafePoint | PruneAncient
| BadBlocks | UncleanShutdown | TransitionStatus | FastTrieProgress
| SnapshotDisabled | SnapshotRoot | SnapshotJournal | SnapshotGenerator | SnapshotRecovery | SnapshotSyncStatus.

Definition metaKey (d : meta) : bytes :=
  match d with
  | DatabaseVersion => databaseVersionKey | HeadHeader => headHeaderKey | HeadBlock => headBlockKey | HeadFastBlock => headFastBlockKey | LastPivot => lastPivotKey
  | TxIndexTail => txIndexTailKey | FastTxLookupLimit => fastTxLookupLimitKey | OffsetCurrent => offSetOfCurrentAncientFreezer | OffsetLast => offSetOfLastAncientFreezer
  | Frozen => frozenOfAncientDBKey | SafePoint => LastSafePointBlockKey | PruneAncient => pruneAncientKey | BadBlocks => badBlockKey | UncleanShutdown => uncleanShutdownKey
  | TransitionStatus => transitionStatusKey | FastTrieProgress => fastTrieProgressKey | SnapshotDisabled => snapshotDisabledKey | SnapshotRoot => SnapshotRootKey
  | SnapshotJournal => snapshotJournalKey | SnapshotGenerator => snapshotGeneratorKey | SnapshotRecovery => snapshotRecoveryKey | SnapshotSyncStatus => snapshotSyncStatusKey
  end.

Inductive datum :=
| DHeader (number : Z) (hash : bytes) | DTd (number : Z) (hash : bytes) | DCanonical (number : Z) | DNumber (hash : bytes)
| DBody (number : Z) (hash : bytes) | DReceipts (number : Z) (hash : bytes) | DTxLookup (hash : bytes) | DBloomBits (bit section : Z) (hash : bytes)
| DAccount (hash : bytes) | DStorage (account storage : bytes) | DCode (hash : bytes) | DDiffLayer (hash : bytes) | DPreimage (hash : bytes) | DConfig (hash : bytes)
| DTrieNode (hash : bytes) | DMeta (d : meta).

Definition keyOf (d : datum) : bytes :=
  match d with
  | DHeader n h => headerKey n h | DTd n h => headerTDKey n h | DCanonical n => headerHashKey n | DNumber h => headerNumberKey h
  | DBody n h => blockBodyKey n h | DReceipts n h => blockReceiptsKey n h | DTxLookup h => txLookupKey h | DBloomBits b s h => bloomBitsKey b s h
  | DAccount h => accountSnapshotKey h | DStorage a s => storageSnapshotKey a s | DCode h => codeKey h | DDiffLayer h => diffLayerKey h | DPreimage h => preimageKey h
  | DConfig h => configKey h | DTrieNode h => trieNodeKey h | DMeta d => metaKey d
  end.

Definition isHash (h : bytes) : Prop := length h = 32%nat.

(** Numbers of their width and hashes of 32 bytes. *)
Definition valid (d : datum) : Prop :=
  match d with
  | DHeader n h | DTd n h | DBody n h | DReceipts n h => in_u64 n /\ isHash h
  | DCanonical n => in_u64 n
  | DNumber h | DTxLookup h | DAccount h | DCode h | DDiffLayer h | DPreimage h | DConfig h | DTrieNode h => isHash h
  | DBloomBits b s h => 0 <= b < 2 ^ 16 /\ in_u64 s /\ isHash h
  | DStorage a s => isHash a /\ isHash s
  | DMeta _ => True
  end.

Lemma number_length n : length (encodeBlockNumber n) = 8%nat.
Proof. apply length_be_encode. Qed.

Lemma number_inj n n' : in_u64 n -> in_u64 n' -> encodeBlockNumber n = encodeBlockNumber n' -> n = n'.
Proof. unfold in_u64. intros Hn Hn'. apply (be_encode_inj 8); done. Qed.

(** The first byte and the length of a key. *)
Definition tag (k : bytes) : option Z * nat := (head k, length k).

Definition tagOf (d : datum) : option Z * nat :=
  match d with
  | DHeader _ _ => (Some 104, 41%nat) | DTd _ _ => (Some 104, 42%nat) | DCanonical _ => (Some 104, 10%nat) | DNumber _ => (Some 72, 33%nat)
  | DBody _ _ => (Some 98, 41%nat) | DReceipts _ _ => (Some 114, 41%nat) | DTxLookup _ => (Some 108, 33%nat) | DBloomBits _ _ _ => (Some 66, 43%nat)
  | DAccount _ => (Some 97, 33%nat) | DStorage _ _ => (Some 111, 65%nat) | DCode _ => (Some 99, 33%nat) | DDiffLayer _ => (Some 100, 33%nat)
  | DPreimage _ => (Some 115, 43%nat) | DConfig _ => (Some 101, 48%nat) | DTrieNode h => (head h, 32%nat) | DMeta d => tag (metaKey d)
  end.

Lemma tag_key d : valid d -> tag (keyOf d) = tagOf d.
Proof.
  unfold valid, isHash, tag. destruct d; cbn [keyOf tagOf]; intros Hv; try done;
    unfold headerKey, headerTDKey, headerHashKey, headerNumberKey, blockBodyKey, blockReceiptsKey, txLookupKey, bloomBitsKey, accountSnapshotKey, storageSnapshotKey, codeKey,
      diffLayerKey, preimageKey, configKey, trieNodeKey; unfold headerKey; rewrite ?length_app, ?number_length, ?length_be_encode; cbn; f_equal; destruct_and?; lia.
Qed.

Lemma app_same {A} (p a b : list A) : p ++ a = p ++ b -> a = b.
Proof. apply app_inv_head. Qed.

Lemma numbered_inj p n h n' h' : in_u64 n -> in_u64 n' -> (p ++ encodeBlockNumber n) ++ h = (p ++ encodeBlockNumber n') ++ h' -> n = n' /\ h = h'.
Proof.
  intros Hn Hn' E. rewrite <- !app_assoc in E. apply app_inv_head in E. apply app_inj_1 in E as [E ->]; [|by rewrite !number_length]. split; [by apply number_inj|done].
Qed.

Lemma keyOf_inj d d' : valid d -> valid d' -> keyOf d = keyOf d' -> d = d'.
Proof.
  intros Hv Hv' E. assert (tagOf d = tagOf d') as Et by (by rewrite <- !tag_key, E).
  destruct d, d'; cbn [tagOf] in Et; try discriminate Et; try (match type of Et with context [metaKey ?m] => by destruct m end); cbn [valid keyOf] in *; destruct_and?.
  - apply numbered_inj in E as [-> ->]; done.
  - unfold headerTDKey in E. apply app_inj_2 in E as [E _]; [|done]. apply numbered_inj in E as [-> ->]; done.
  - unfold headerHashKey in E. apply numbered_inj in E as [-> _]; done.
  - by apply app_inv_head in E as ->.
  - apply numbered_inj in E as [-> ->]; done.
  - apply numbered_inj in E as [-> ->]; done.
  - by apply app_inv_head in E as ->.
  - unfold bloomBitsKey in E. rewrite <- !app_assoc in E. apply app_inv_head in E. apply app_inj_1 in E as [E1 E]; [|by rewrite !length_be_encode].
    apply app_inj_1 in E as [E2 ->]; [|by rewrite !length_be_encode]. unfold in_u64 in *. apply be_encode_inj in E1 as ->, E2 as ->; try done.
  - by apply app_inv_head in E as ->.
  - unfold storageSnapshotKey in E. rewrite <- !app_assoc in E. apply app_inv_head in E. unfold isHash in *. apply app_inj_1 in E as [-> ->]; [done|congruence].
  - by apply app_inv_head in E as ->.
  - by apply app_inv_head in E as ->.
  - by apply app_inv_head in E as ->.
  - by apply app_inv_head in E as ->.
  - unfold trieNodeKey in E. by subst.
  - f_equal. destruct d, d0; try done.
Qed.

(** C23: The schema is unambiguous: different data, of whatever kinds, have different keys, so that no write to one of them touches another. The data are those of all
    accessors: of the chain, of the metadata, of the state snapshots, and the trie nodes, whose keys are bare hashes. *)
Theorem schema_unambiguous d d' : valid d -> valid d' -> keyOf d = keyOf d' -> d = d'.
Proof. apply keyOf_inj. Qed.

Lemma schema_unambiguous_witness : keyOf (DHeader 1 (replicate 32 7)) <> keyOf (DBody 1 (replicate 32 7)).
Proof. intros E. apply schema_unambiguous in E; [discriminate| |]; (split; [unfold in_u64; lia|reflexivity]). Defined.
