(* ===== verification/AccessorsProps.v ===== *)
(** * Properties of the accessors

    A store is seen as a function from data to bytes. What is written is read back, also after the trip through the encodings, and
    nothing else changes, whether the writes go to the store or to a batch; the iteration over the headers of a number gives all of them. *)

From stdpp Require Import base tactics list gmap strings.
From Stdlib Require Import ZArith Lia.
From S2P Require Import Prelude Bytes RlpRaw RlpLemmas RlpEncode RlpEncodeProps RlpDecode RlpDecodeProps RlpCompound TypesRlp TypesRlpProps Trie FreezerTable Freezer KeyValue KeyValueProps Schema SchemaProps Accessors ChainStore ChainFreezer.

Open Scope Z_scope.
Open Scope go_scope.

Import Rlp RlpLemmas RlpEncodeLemmas RlpDecode RlpDecodeLemmas RlpCompound RlpEncode TypesRlp TypesRlpLemmas Schema Accessors ChainStore ChainFreezer.

Module AccessorsLemmas.

(** ** The data of a store *)

#[global] Instance meta_eq_dec : EqDecision meta.
Proof. solve_decision. Defined.

#[global] Instance datum_eq_dec : EqDecision datum.
Proof. solve_decision. Defined.

Definition at_ (m : content) (d : datum) : option bytes := m !! keyOf d.

Lemma key_ne d d' : valid d -> valid d' -> d <> d' -> keyOf d <> keyOf d'.
Proof. intros Hv Hv' Hne E. destruct Hne. by apply keyOf_inj. Qed.

Lemma datum_insert m d d' v : valid d -> valid d' -> at_ (<[keyOf d := v]> m) d' = if decide (d = d') then Some v else at_ m d'.
Proof. intros Hv Hv'. unfold at_. destruct (decide _) as [->|Hne]; [apply lookup_insert_eq|apply lookup_insert_ne; by apply key_ne]. Qed.

Lemma datum_delete m d d' : valid d -> valid d' -> at_ (delete (keyOf d) m) d' = if decide (d = d') then None else at_ m d'.
Proof. intros Hv Hv'. unfold at_. destruct (decide _) as [->|Hne]; [apply lookup_delete_eq|apply lookup_delete_ne; by apply key_ne]. Qed.

Ltac solve_valid := repeat apply Forall_cons_2; [done..|apply Forall_nil_2].

(** ** Writers *)

(** An accessor that succeeds on every usable writer, and what it does to the content. *)
Definition performs {W} `{LawfulWriter W} (act : W -> go W) (f : content -> content) : Prop :=
  forall w, usable w -> exists w', act w = Ret w' /\ usable w' /\ forall m, effect w' m = f (effect w m).

Section Performs.
Context {W : Type} `{LawfulWriter W}.

Lemma store_performs k v : performs (store k v) (insert k v).
Proof. intros w Hw. destruct (put_effect k v w Hw) as (w' & E & Hw' & Hm). exists w'. unfold store. by rewrite E. Qed.

Lemma remove_performs k : performs (remove k) (delete k).
Proof. intros w Hw. destruct (delete_effect k w Hw) as (w' & E & Hw' & Hm). exists w'. unfold remove. by rewrite E. Qed.

Lemma performs_nothing : performs (fun w => Ret w) (fun m => m).
Proof. intros w Hw. by exists w. Qed.

Lemma performs_bind (a b : W -> go W) f g : performs a f -> performs b g -> performs (fun w => let! w := a w in b w) (fun m => g (f m)).
Proof.
  intros Ha Hb w Hw. destruct (Ha w Hw) as (w1 & -> & Hw1 & E1). destruct (Hb w1 Hw1) as (w2 & -> & Hw2 & E2). exists w2. split_and!; try done.
  intros m. by rewrite E2, E1.
Qed.

Lemma performs_given {A} (r : go A) x (b : A -> W -> go W) f : r = Ret x -> performs (b x) f -> performs (fun w => let! y := r in b y w) f.
Proof. by intros ->. Qed.

Lemma performs_foldl {A} (act : A -> W -> go W) f l : (forall x, x ∈ l -> performs (act x) (f x)) ->
  performs (fun w => go_foldl (fun w x => act x w) w l) (fun m => foldl (fun m x => f x m) m l).
Proof.
  induction l as [|x l IH]; intros Ha w Hw; [by exists w|]. cbn [go_foldl foldl]. destruct (Ha x ltac:(apply list_elem_of_here) w Hw) as (w1 & -> & Hw1 & E1).
  destruct (IH ltac:(intros y Hy; apply Ha; by apply list_elem_of_further) w1 Hw1) as (w2 & -> & Hw2 & E2). exists w2. split_and!; try done. intros m. by rewrite E2, E1.
Qed.

End Performs.

(** ** Decoding what is stored *)

Lemma Decode_lawful {A} (d : decoder A) enc good `{!Lawful d enc good} a : good a -> Z.of_nat (length (enc a)) < 2 ^ 64 -> Decode d (enc a) = Ok a.
Proof.
  intros Hg Hl. pose proof (lawful_bytes a Hg) as Hb. destruct (DecodeBytes_start (enc a) Hb Hl) as (p & Hat & Hp & Hs & Ei & Er). unfold Decode.
  assert (Reset (enc a) 0 = Reset (enc a) (Z.of_nat (length (enc a)))) as -> by (unfold Reset; by destruct (0 <? Z.of_nat (length (enc a)))).
  destruct (lawful_ok _ p a [] Hat Hp Hg) as (s' & -> & _); [by rewrite app_nil_r, Ei| |done]. split; [by rewrite Hs|]. intros _. rewrite Er. lia.
Qed.

Definition bodyFields (b : Body) : list Z := encTxs (Transactions b) ++ encHeaders (Uncles b).
Definition encBody (b : Body) : list Z := encList (bodyFields b).

(** A body whose transactions carry the sizes that decoding leaves. *)
Definition bodyOk (b : Body) : Prop :=
  ((Forall txOk (Transactions b) /\ shortEnough (encTxs (Transactions b))) /\ (Forall headerOk (Uncles b) /\ shortEnough (encHeaders (Uncles b)))) /\ shortEnough (encBody b).

#[export] Instance body_lawful : Lawful decodeBody encBody bodyOk.
Proof.
  assert (Lawful (decodeListSlice TransactionDecodeRLP) encTxs (fun l => Forall txOk l /\ shortEnough (encTxs l))) as L1 by apply (list_lawful TransactionDecodeRLP _ _).
  assert (Lawful (decodeListSlice decodeHeader) encHeaders (fun l => Forall headerOk l /\ shortEnough (encHeaders l))) as L2 by apply (list_lawful decodeHeader _ _).
  pose proof (struct_lawful _ _ _ (LawfulFields0 := pair_fields _ _ _ _ _ _ L1 (last_fields _ _ _ L2))) as L.
  exact (map_lawful (fun '(txs, us) => mkBody txs us) (fun b => (Transactions b, Uncles b)) _ _ _ ltac:(by intros []) ltac:(by intros []) L).
Qed.

Lemma bytelen_mono i j : 0 <= i <= j -> (bytelen i <= bytelen j)%nat.
Proof.
  intros Hij. unfold bytelen. destruct (decide (i = 0)), (decide (j = 0)); try lia. pose proof (Z.log2_le_mono i j ltac:(lia)). pose proof (Z.log2_nonneg i).
  pose proof (Z.div_le_mono (Z.log2 i) (Z.log2 j) 8). lia.
Qed.

Lemma encList_mono a b : (length a <= length b)%nat -> (length (encList a) <= length (encList b))%nat.
Proof.
  intros Hl. unfold encList. rewrite !length_app, !header_length. pose proof (bytelen_mono (Z.of_nat (length a)) (Z.of_nat (length b))).
  destruct (decide _), (decide _); lia.
Qed.

Lemma sizedBody_ok b : blockOk b -> bodyOk (BodyOf (sized b)).
Proof.
  intros Hok. pose proof (sized_ok b Hok) as ((_ & Ht & Hu) & Hl & _). split; [done|]. unfold shortEnough in *. pose proof (encList_mono (bodyFields (BodyOf (sized b))) (blockFields (sized b))) as Hm.
  unfold encBlock, encBody in *. assert (length (bodyFields (BodyOf (sized b))) <= length (blockFields (sized b)))%nat; [unfold blockFields, bodyFields; rewrite (length_app (encHeader _)); cbn [BodyOf Transactions Uncles]; lia|lia].
Qed.

Lemma sizedBody_bytes b : encBody (BodyOf (sized b)) = encBody (BodyOf b).
Proof. unfold encBody, bodyFields, encTxs. cbn [BodyOf Transactions Uncles sized transactions uncles]. by rewrite <- list_fmap_compose. Qed.

Lemma body_writes b : blockOk b -> encodes (BodyEncodeRLP (BodyOf b)) (encBody (BodyOf b)).
Proof.
  intros Hok. pose proof (sizedBody_ok b Hok) as [_ Hb]. rewrite sizedBody_bytes in Hb. destruct Hok as (_ & Ht & Hu & Hl). destruct (shortEnough_app _ _ _ Hl) as (_ & Hl2 & Hl3).
  apply (encodes_listAs _ [encTxs (transactions b); encHeaders (uncles b)]).
  - repeat (apply Forall2_cons; split); [apply encodes_slice|apply encodes_slice|constructor].
    + apply Forall2_fmap, Forall_Forall2_diag. eapply Forall_impl; [exact Ht|]. intros tx [H1 H2]. by apply transaction_writes.
    + by apply concat_short.
    + apply Forall2_fmap, Forall_Forall2_diag. eapply Forall_impl; [exact Hu|]. intros h. apply header_writes.
    + by apply concat_short.
  - unfold bodyFields. cbn [concat]. by rewrite app_nil_r.
  - by apply concat_short.
Qed.

Lemma CopyHeader_ok h : headerOk h -> CopyHeader h = h.
Proof. intros [Hok _]. unfold CopyHeader. destruct h as [? ? ? ? ? ? ? d n ? ? ? ? ? ? ?]. cbn in Hok |- *. destruct Hok as (_ & _ & _ & _ & _ & _ & _ & Hd & Hn & _). by destruct d, n. Qed.

Lemma encoded_ok w bs : encodes w bs -> encoded w = Ret bs.
Proof. intros Hw. unfold encoded. by rewrite (encodes_EncodeToBytes _ _ Hw). Qed.

Lemma nonempty_match {A B} (l : list A) (x y : B) : l <> [] -> match l with [] => x | _ => y end = y.
Proof. by destruct l. Qed.

(** ** Databases without a freezer *)

Lemma getData_plain m k : getData (mkNoFreeze (Some m)) k = default [] (m !! k).
Proof. unfold getData. cbn. by destruct (m !! k). Qed.

Section Plain.
Context `{Keccak}.

(** The hash of a header and its number. *)
Definition hashOf (h : Header) : bytes := keccak (encHeader h).
Definition numberOf_ (h : Header) : Z := u64 (Z.abs (default 0 (Number h))).

Lemma HeaderHash_ok h : headerOk h -> HeaderHash keccak h = Ret (hashOf h).
Proof. intros Hh. unfold HeaderHash, rlpHash. by rewrite (encodes_EncodeToBytes _ _ (header_writes h Hh)). Qed.

Lemma Uint64Of_ok h : headerOk h -> Uint64Of (Number h) = Ret (numberOf_ h) /\ in_u64 (numberOf_ h).
Proof. intros [Hok _]. unfold Uint64Of, numberOf_, in_u64, u64. destruct (Number h); [|naive_solver]. split; [done|]. apply Z.mod_pos_bound. lia. Qed.

Lemma hashOf_length h : isHash (hashOf h).
Proof. apply keccak_length. Qed.

(** Without a freezer, data is read from the store. *)
Lemma plain_reads m n hash : let db := mkNoFreeze (Some m) in
  ReadHeaderRLP db hash n = Ret (default [] (at_ m (DHeader n hash))) /\ ReadBodyRLP db hash n = Ret (default [] (at_ m (DBody n hash))) /\
  ReadTdRLP db hash n = Ret (default [] (at_ m (DTd n hash))) /\ ReadReceiptsRLP db hash n = Ret (default [] (at_ m (DReceipts n hash))) /\
  ReadCanonicalHash db n = Ret (BytesToHash (default [] (at_ m (DCanonical n)))).
Proof.
  cbv zeta. unfold ReadHeaderRLP, ReadBodyRLP, ReadTdRLP, ReadReceiptsRLP, ReadCanonicalHash, readCanon, isCanon, ancientData, Ancient_, nofreezedb_ancients. cbn beta iota. cbn [orNil].
  rewrite bool_decide_false by (intros E; by apply E). cbn [andb]. by rewrite !getData_plain.
Qed.

Context {W : Type} `{LawfulWriter W}.

Lemma WriteHeader_performs h : headerOk h ->
  performs (W := W) (WriteHeader h) (fun m => <[headerKey (numberOf_ h) (hashOf h) := encHeader h]> (<[headerNumberKey (hashOf h) := encodeBlockNumber (numberOf_ h)]> m)).
Proof.
  intros Hh. unfold WriteHeader. destruct (Uint64Of_ok h Hh) as [En _].
  eapply performs_given; [by apply HeaderHash_ok|]. eapply performs_given; [exact En|].
  apply (performs_bind (WriteHeaderNumber _ _) _ (insert _ _) (insert _ _)); [apply store_performs|].
  eapply performs_given; [by apply encoded_ok, header_writes|]. apply store_performs.
Qed.

Lemma WriteBlock_performs b : blockOk b -> let n := numberOf_ (header b) in let hash := hashOf (header b) in
  performs (W := W) (WriteBlock b) (fun m => <[headerKey n hash := encHeader (header b)]> (<[headerNumberKey hash := encodeBlockNumber n]> (<[blockBodyKey n hash := encBody (BodyOf b)]> m))).
Proof.
  intros Hok n hash. pose proof (proj1 Hok) as Hh. unfold WriteBlock. destruct (Uint64Of_ok _ Hh) as [En _].
  eapply performs_given; [by apply HeaderHash_ok|]. eapply performs_given; [exact En|].
  apply (performs_bind (WriteBody _ _ _) _ (insert _ _) (fun m => <[headerKey n hash := encHeader (header b)]> (<[headerNumberKey hash := encodeBlockNumber n]> m))).
  - eapply performs_given; [by apply encoded_ok, body_writes|]. apply store_performs.
  - rewrite (CopyHeader_ok _ Hh). by apply WriteHeader_performs.
Qed.

(** The data of a block. *)
Definition blockData (n : Z) (hash : bytes) : list datum := [DReceipts n hash; DHeader n hash; DBody n hash; DTd n hash].

Definition wipe (ds : list datum) (m : content) : content := foldl (fun m d => delete (keyOf d) m) m ds.

Lemma DeleteBlock_performs hash n : performs (W := W) (DeleteBlock hash n) (wipe [DReceipts n hash; DHeader n hash; DNumber hash; DBody n hash; DTd n hash]).
Proof.
  unfold DeleteBlock, DeleteHeader, wipe. cbn [foldl]. apply (performs_bind (DeleteReceipts _ _) _ (delete _) (fun m => delete _ (delete _ (delete _ (delete _ m))))); [apply remove_performs|].
  apply (performs_bind _ _ (fun m => delete _ (delete _ m)) (fun m => delete _ (delete _ m))); [apply (performs_bind _ _ (delete _) (delete _)); apply remove_performs|].
  apply (performs_bind (DeleteBody _ _) _ (delete _) (delete _)); apply remove_performs.
Qed.

Lemma DeleteBlockWithoutNumber_performs hash n : performs (W := W) (DeleteBlockWithoutNumber hash n) (wipe (blockData n hash)).
Proof.
  unfold DeleteBlockWithoutNumber, wipe, blockData. cbn [foldl]. apply (performs_bind (DeleteReceipts _ _) _ (delete _) (fun m => delete _ (delete _ (delete _ m)))); [apply remove_performs|].
  apply (performs_bind _ _ (delete _) (fun m => delete _ (delete _ m))); [apply remove_performs|]. apply (performs_bind (DeleteBody _ _) _ (delete _) (delete _)); apply remove_performs.
Qed.

Lemma at_wipe ds m d : Forall valid ds -> valid d -> at_ (wipe ds m) d = if decide (d ∈ ds) then None else at_ m d.
Proof.
  intros Hds Hd. unfold wipe. revert m. induction Hds as [|d' ds Hd' _ IH]; intros m; [done|]. cbn [foldl]. rewrite IH, datum_delete by done.
  destruct (decide (d ∈ ds)) as [Hin|Hin], (decide (d' = d)) as [->|Hne], (decide (d ∈ _)) as [Hin'|Hin']; try done; set_solver.
Qed.

End Plain.

(** ** The headers of a number *)

Lemma walk_collect {A} (p : bytes -> bool) (f : bytes -> A) (l : list (bytes * bytes)) acc :
  walk (fun key _ acc => inl (if p key then acc ++ [f key] else acc)) l acc = acc ++ (f <$> filter (fun k => Is_true (p k)) l.*1).
Proof.
  revert acc. induction l as [|[k v] l IH]; intros acc; cbn [walk fmap list_fmap]; [by rewrite app_nil_r|]. cbn [fst]. rewrite filter_cons, IH.
  destruct (p k); cbn [Is_true]; [rewrite decide_True by done; cbn; by rewrite <- app_assoc|by rewrite decide_False by (intros [])].
Qed.

Lemma forEach_walk {S} prefix start m (body : bytes -> bytes -> S -> S + S) s : let it := MemoryDB.NewIterator prefix start (Some m) in
  forEach it body s = walk body (zip (MemoryDB.ikeys it) (MemoryDB.ivalues it)) s.
Proof.
  intros it. destruct (iterator_keys prefix start m) as (_ & _ & _ & Ev). unfold forEach. change it with (MemoryDB.mkIterator false (MemoryDB.ikeys it) (MemoryDB.ivalues it)) at 2.
  rewrite iterate_walk; [done| |cbn; lia]. fold it in Ev. rewrite Ev. by rewrite length_fmap.
Qed.

Lemma BytesToHash_id h : isHash h -> BytesToHash h = h.
Proof. intros Hh. unfold BytesToHash. rewrite Hh. cbn [Nat.sub]. rewrite drop_0, Hh. done. Qed.

(** The hashes of the headers that are stored under a number, each once. *)
Lemma ReadAllHashes_spec m number : in_u64 number ->
  NoDup (ReadAllHashes (R := MemoryDB.Database) (Some m) number) /\ forall hash, hash ∈ ReadAllHashes (R := MemoryDB.Database) (Some m) number <-> isHash hash /\ is_Some (at_ m (DHeader number hash)).
Proof.
  intros Hn. unfold ReadAllHashes. change (NewIterator_ ?p ?s ?d) with (MemoryDB.NewIterator p s d). rewrite forEach_walk.
  destruct (iterator_keys (headerKeyPrefix number) [] m) as (_ & Hnd & Hk & Ev). set (it := MemoryDB.NewIterator _ _ _) in *.
  rewrite (walk_collect (fun key => (length key =? length (headerKeyPrefix number) + 32)%nat)), fst_zip by (rewrite Ev, length_fmap; lia). cbn [app].
  assert (length (headerKeyPrefix number) = 9%nat) as Hl by (unfold headerKeyPrefix; rewrite length_app, number_length; done). rewrite Hl.
  assert (forall key, key ∈ filter (fun k => Is_true (length k =? 9 + 32)%nat) (MemoryDB.ikeys it) -> exists h, key = headerKey number h /\ isHash h /\ BytesToHash (drop (length key - 32) key) = h) as Hkey.
  { intros key [Hlen Hin]%list_elem_of_filter. apply Is_true_true, Nat.eqb_eq in Hlen. apply Hk in Hin as [_ [[h ->] _]]. exists h. rewrite length_app, Hl in Hlen |- *.
    assert (isHash h) as Hh by (unfold isHash; lia). split_and!; [done|done|]. rewrite Hh. rewrite drop_app_length' by (rewrite Hl; done). by apply BytesToHash_id. }
  split.
  - apply NoDup_fmap_2_strong; [|by apply NoDup_filter]. intros x y Hx Hy E. destruct (Hkey x Hx) as (h & -> & _ & E1), (Hkey y Hy) as (h' & -> & _ & E2). congruence.
  - intros hash. rewrite list_elem_of_fmap. split.
    + intros (key & -> & Hin). destruct (Hkey key Hin) as (h & -> & Hh & ->). split; [done|]. apply list_elem_of_filter in Hin as [_ Hin]. apply Hk in Hin as [Hin _]. done.
    + intros [Hh Hs]. exists (headerKey number hash). assert (length (headerKey number hash) = 41%nat) as Hlen.
      { unfold headerKey. rewrite length_app, <- Hh. unfold headerKeyPrefix in Hl. lia. }
      split; [|apply list_elem_of_filter; split; [by rewrite Hlen|]].
      * rewrite Hlen. cbn [Nat.sub]. unfold headerKey. rewrite drop_app_length' by (unfold headerKeyPrefix in Hl; lia). by rewrite BytesToHash_id.
      * apply Hk. split; [exact Hs|]. split; [by exists hash|]. unfold headerKeyPrefix, headerKey. rewrite app_nil_r. apply bytesLe_prefix.
Qed.

End AccessorsLemmas.
Import AccessorsLemmas.

(** ** The theorems *)

Section AccessorTheorems.
Context `{Keccak} {W : Type} `{LawfulWriter W}.

(** C14: Blocks in the database. What [WriteBlock] writes, to a store or to a batch that is flushed later, [ReadBlock] reads back as the same block,
    through the encodings of header and body and back, and the index from its hash gives its number; all other data stays as it was. After
    [DeleteBlock] the block, its index entry, its receipts and its difficulty are gone, and again nothing else has changed. *)
Theorem blocks_are_stored b w :
  blockOk b -> usable w ->
  exists hash n w1 w2, BlockHash keccak b = Ret hash /\ Uint64Of (Number (header b)) = Ret n /\ WriteBlock b w = Ret w1 /\ DeleteBlock hash n w1 = Ret w2 /\
    forall m, let db1 := mkNoFreeze (Some (effect w1 m)) in let db2 := mkNoFreeze (Some (effect w2 m)) in
      ReadBlock db1 hash n = Ret (Some (mkBlock (header b) (transactions (sized b)) (uncles b) None)) /\ ReadHeaderNumber db1 hash = Some n /\
      (forall d, valid d -> d ∉ [DHeader n hash; DNumber hash; DBody n hash] -> at_ (effect w1 m) d = at_ (effect w m) d) /\
      ReadBlock db2 hash n = Ret None /\ ReadHeaderNumber db2 hash = None /\
      (forall d, valid d -> d ∉ DNumber hash :: blockData n hash -> at_ (effect w2 m) d = at_ (effect w m) d).
Proof.
  intros Hok Hw. pose proof (proj1 Hok) as Hh. destruct (Uint64Of_ok _ Hh) as [En Hn]. pose proof (hashOf_length (header b)) as Hlen.
  set (n := numberOf_ (header b)) in *. set (hash := hashOf (header b)) in *. destruct (WriteBlock_performs b Hok w Hw) as (w1 & E1 & Hw1 & Hm1).
  destruct (DeleteBlock_performs hash n w1 Hw1) as (w2 & E2 & _ & Hm2). exists hash, n, w1, w2. split_and!; [by apply HeaderHash_ok|done|done|done|].
  intros m db1 db2. unfold db1, db2. rewrite Hm2, Hm1. clear db1 db2 Hm1 Hm2. fold n hash. set (m0 := effect w m).
  change (headerKey n hash) with (keyOf (DHeader n hash)). change (headerNumberKey hash) with (keyOf (DNumber hash)). change (blockBodyKey n hash) with (keyOf (DBody n hash)).
  set (m1 := insert _ _ _). set (m2 := wipe _ m1).
  assert (forall d, valid d -> d ∉ [DHeader n hash; DNumber hash; DBody n hash] -> at_ m1 d = at_ m0 d) as Hframe.
  { intros d Hd Hin. unfold m1. rewrite !datum_insert by done. repeat (rewrite decide_False by (intros <-; set_solver)). done. }
  assert (forall d, valid d -> at_ m2 d = if decide (d ∈ [DReceipts n hash; DHeader n hash; DNumber hash; DBody n hash; DTd n hash]) then None else at_ m1 d) as Hgone.
  { intros d Hd. apply at_wipe; [solve_valid|done]. }
  unfold ReadBlock, ReadHeader, ReadBody, decodedFrom, ReadHeaderNumber. rewrite !getData_plain.
  destruct (plain_reads m1 n hash) as (-> & -> & _). destruct (plain_reads m2 n hash) as (-> & -> & _).
  change (m1 !! headerNumberKey hash) with (at_ m1 (DNumber hash)). change (m2 !! headerNumberKey hash) with (at_ m2 (DNumber hash)).
  rewrite !(Hgone (DHeader _ _)), !(Hgone (DNumber _)) by done. rewrite !decide_True by set_solver. cbn [default from_option].
  assert (at_ m1 (DHeader n hash) = Some (encHeader (header b)) /\ at_ m1 (DNumber hash) = Some (encodeBlockNumber n) /\ at_ m1 (DBody n hash) = Some (encBody (BodyOf b))) as (-> & -> & ->).
  { unfold m1. rewrite !datum_insert by done. split_and!; repeat case_decide; congruence. }
  cbn [default from_option id]. split_and!; [|..|done|done|].
  - pose proof (sizedBody_ok b Hok) as Hs. rewrite <- sizedBody_bytes.
    rewrite (nonempty_match (encHeader _)) by (by apply (lawful_nonempty (Lawful := decodeHeader_lawful))). rewrite (Decode_lawful _ _ _ _ Hh) by apply Hh. cbn [okay].
    rewrite (nonempty_match (encBody _)) by (by apply (lawful_nonempty (Lawful := body_lawful))). rewrite (Decode_lawful _ _ _ _ Hs) by apply Hs. cbn [okay fmap option_fmap option_map].
    unfold assemble. rewrite !CopyHeader_ok by (done || by rewrite CopyHeader_ok). cbn [BodyOf Transactions Uncles sized uncles transactions]. do 3 f_equal.
    destruct Hok as (_ & _ & Hu & _). clear -Hu. induction Hu as [|u us Hu _ IH]; [done|]. cbn. by rewrite IH, CopyHeader_ok.
  - rewrite number_length. cbn [Nat.eqb negb]. f_equal. unfold encodeBlockNumber. rewrite be_decode_encode. apply Z.mod_small. exact Hn.
  - done.
  - intros d Hd Hin. rewrite Hgone by done. rewrite decide_False by (unfold blockData in Hin; set_solver). apply Hframe; [done|]. unfold blockData in Hin. set_solver.
Qed.

End AccessorTheorems.

#[local] Instance constant_keccak : Keccak.
Proof.
  refine {| keccak b := if decide (b = [0x80]) then emptyRoot else replicate 32 7 |}.
  - intros b. by destruct (decide _).
  - intros b. destruct (decide _); [repeat constructor; unfold is_byte; lia|by apply Forall_replicate].
  - by rewrite decide_True.
Defined.

Lemma blocks_are_stored_witness : exists n w1, WriteBlock exWireBlock MemoryDB.New = Ret w1 /\ ReadHeaderNumber (mkNoFreeze (Some (effect w1 ∅))) (replicate 32 7) = Some n /\ n = 0.
Proof.
  destruct (blocks_are_stored exWireBlock MemoryDB.New exWireBlock_ok) as (hash & n & w1 & w2 & E1 & E2 & E3 & _ & Hm); [by eexists|].
  exists n, w1. split; [exact E3|]. destruct (Hm ∅) as (_ & Hn & _). assert (hash = replicate 32 7) as -> by (vm_compute in E1; by injection E1 as <-).
  split; [exact Hn|]. vm_compute in E2. congruence.
Defined.

(** The iteration over the headers of a number. [ReadAllHashes] gives the hashes of the headers that are stored under the number, all of them and
    each once, whatever else the store holds, also under keys with the same prefix. *)
Theorem all_hashes_found m number : in_u64 number ->
  NoDup (ReadAllHashes (R := MemoryDB.Database) (Some m) number) /\ forall hash, hash ∈ ReadAllHashes (R := MemoryDB.Database) (Some m) number <-> isHash hash /\ is_Some (at_ m (DHeader number hash)).
Proof. apply ReadAllHashes_spec. Qed.

Definition twoHeaders : content := <[headerKey 5 (replicate 32 2) := [1]]> (<[headerTDKey 5 (replicate 32 1) := [2]]> (<[headerKey 5 (replicate 32 1) := [3]]> {[headerHashKey 5 := [4]]})).

Lemma all_hashes_found_witness : ReadAllHashes (R := MemoryDB.Database) (Some twoHeaders) 5 = [replicate 32 1; replicate 32 2] /\ NoDup (ReadAllHashes (R := MemoryDB.Database) (Some twoHeaders) 5).
Proof. split; [vm_compute; reflexivity|]. apply (all_hashes_found twoHeaders 5). unfold in_u64. lia. Defined.
