(* ===== verification/ChainFreezerProps.v ===== *)
(** * Properties of the rounds of the freezer

    A round moves blocks of the canonical chain from the store to the freezer and deletes what they and their side chains have left in the store. Readers of
    the database do not see it: they read the same chain before and after. *)

From stdpp Require Import base tactics list gmap strings.
From Stdlib Require Import ZArith Lia.
From S2P Require Import Prelude Types Bytes RlpRaw RlpLemmas RlpEncode RlpDecode TypesRlp TypesRlpProps Trie FreezerTable FreezerTableProps Freezer FreezerProps KeyValue KeyValueProps Schema SchemaProps Accessors ChainStore ChainFreezer AccessorsProps.

Open Scope Z_scope.
Open Scope go_scope.

Import TypesRlp Schema Accessors ChainStore FreezerTable Freezer FreezerLemmas FreezerSpec FreezerLemmas2 ChainFreezer AccessorsLemmas.

(** A block of the canonical chain, as it is stored. *)
Record row := mkRow { rhash : bytes; rheader : bytes; rbody : bytes; rreceipts : bytes; rtd : bytes }.

Module ChainFreezerSpec.

(** The columns of the freezer that hold the blocks. *)
Definition columnsOf (rows : list row) : gmap string (list (list Z)) :=
  <[freezerHashTable := rhash <$> rows]> (<[freezerHeaderTable := rheader <$> rows]> (<[freezerBodiesTable := rbody <$> rows]>
    (<[freezerReceiptTable := rreceipts <$> rows]> {[freezerDifficultyTable := rtd <$> rows]}))).

(** The store holds the block as the canonical block of the number. *)
Definition stored (m : content) (n : Z) (r : row) : Prop :=
  at_ m (DCanonical n) = Some (rhash r) /\ at_ m (DHeader n (rhash r)) = Some (rheader r) /\ at_ m (DBody n (rhash r)) = Some (rbody r) /\
  at_ m (DReceipts n (rhash r)) = Some (rreceipts r) /\ at_ m (DTd n (rhash r)) = Some (rtd r).

Section Spec.
Context `{Keccak} `{Snappy}.

(** A block with all of its parts, which the data files can hold. *)
Definition rowOk (r : row) : Prop :=
  isHash (rhash r) /\ rhash r <> zeroHash /\ keccak (rheader r) = rhash r /\
  Forall (fun x => x <> [] /\ small x) [rhash r; rheader r; rbody r; rreceipts r; rtd r].

(** What the readers of a database give for the block. *)
Definition readsRow {R} `{KeyValueReader R} `{AncientReader R} (db : R) (n : Z) (r : row) : Prop :=
  ReadCanonicalHash db n = Ret (rhash r) /\ ReadHeaderRLP db (rhash r) n = Ret (rheader r) /\ ReadBodyRLP db (rhash r) n = Ret (rbody r) /\
  ReadReceiptsRLP db (rhash r) n = Ret (rreceipts r) /\ ReadTdRLP db (rhash r) n = Ret (rtd r).

End Spec.

(** Every block names the one before it as its parent. *)
Definition linked (rows : list row) : Prop :=
  forall i r r', rows !! i = Some r -> rows !! S i = Some r' -> exists h, okay (Decode decodeHeader (rheader r')) = Some h /\ ParentHash h = rhash r.

(** A hash is the hash of a header of one number only. *)
Definition oneNumber (m : content) : Prop :=
  forall n n' h, in_u64 n -> in_u64 n' -> isHash h -> is_Some (at_ m (DHeader n h)) -> is_Some (at_ m (DHeader n' h)) -> n = n'.

End ChainFreezerSpec.
Import ChainFreezerSpec.

Module ChainFreezerLemmas.
Section Moving.
Context `{Keccak} `{Snappy} `{RangeOrder}.

Lemma columnsOf_snoc rows r :
  <[freezerDifficultyTable := (rtd <$> rows) ++ [rtd r]]> (<[freezerReceiptTable := (rreceipts <$> rows) ++ [rreceipts r]]> (<[freezerBodiesTable := (rbody <$> rows) ++ [rbody r]]>
    (<[freezerHeaderTable := (rheader <$> rows) ++ [rheader r]]> (<[freezerHashTable := (rhash <$> rows) ++ [rhash r]]> (columnsOf rows))))) = columnsOf (rows ++ [r]).
Proof.
  unfold columnsOf. rewrite !fmap_app. cbn [fmap list_fmap]. apply map_eq. intros k. rewrite !lookup_insert, !lookup_singleton.
  repeat case_decide; subst; done || congruence.
Qed.

Lemma columnsOf_level rows : level (length rows) (columnsOf rows).
Proof.
  intros k col E. unfold columnsOf in E. rewrite !lookup_insert, lookup_singleton in E. repeat case_decide; simplify_eq; by rewrite length_fmap.
Qed.

Lemma absAppend_next off kind num item cols col : cols !! kind = Some col -> num = off + len col ->
  absAppend off kind num (Ret (Rlp.Ok item)) cols = Ret (None, <[kind := col ++ [item]]> cols).
Proof. intros E ->. unfold absAppend. by rewrite E, Z.eqb_refl. Qed.

(** One block more. *)
Lemma freezeOp_step m k n r : rowOk r -> stored m n r ->
  freezeOp (mkNoFreeze (Some m)) (S k) n =
    writing freezerHashTable n (rhash r) "hash" (writing freezerHeaderTable n (rheader r) "header" (writing freezerBodiesTable n (rbody r) "body" (
    writing freezerReceiptTable n (rreceipts r) "receipts" (writing freezerDifficultyTable n (rtd r) "td" (freezeOp (mkNoFreeze (Some m)) k (u64 (n + 1))))))).
Proof.
  intros (Hh & Hz & _ & Hs) (E1 & E2 & E3 & E4 & E5). cbn [freezeOp]. destruct (plain_reads m n (rhash r)) as (R2 & R3 & R5 & R4 & R1).
  rewrite R1, E1. cbn [default from_option id]. rewrite BytesToHash_id, decide_False, R2, R3, R4, R5, E2, E3, E4, E5 by done. cbn [default from_option id].
  apply Forall_cons in Hs as [_ Hs]. repeat (apply Forall_cons in Hs as [[? _] Hs]). unfold reading. by rewrite !nonempty_match.
Qed.

(** The blocks [rows] from number [n] on are in the store. *)
Definition storedFrom (m : content) (n : Z) (rows : list row) : Prop := forall i r, rows !! i = Some r -> stored m (n + Z.of_nat i) r.

Lemma storedFrom_cons m n r rows : storedFrom m n (r :: rows) -> stored m n r /\ storedFrom m (n + 1) rows.
Proof.
  intros Hs. split; [specialize (Hs 0%nat r eq_refl); by rewrite Z.add_0_r in Hs|]. intros i r' E. specialize (Hs (S i) r' E).
  by replace (n + 1 + Z.of_nat i) with (n + Z.of_nat (S i)) by lia.
Qed.

Lemma freezeOp_runs m rows : forall n old, Forall rowOk rows -> storedFrom m n rows -> n = len old -> n + len rows < 2 ^ 64 ->
  absRun 0 (freezeOp (mkNoFreeze (Some m)) (length rows) n) (columnsOf old) = Ret (None, columnsOf (old ++ rows)).
Proof.
  induction rows as [|r rows IH]; intros n old Hok Hst Hn Hl; [cbn; by rewrite app_nil_r|]. apply Forall_cons in Hok as [Hr Hok]. apply storedFrom_cons in Hst as [Hst Hst'].
  cbn [length] in *. rewrite (freezeOp_step m _ n r Hr Hst). unfold writing. cbn [absRun].
  rewrite (absAppend_next 0 freezerHashTable n _ _ (rhash <$> old)) by (done || rewrite length_fmap; lia). cbn [absRun fst snd].
  rewrite (absAppend_next 0 freezerHeaderTable n _ _ (rheader <$> old)) by (done || rewrite length_fmap; lia). cbn [absRun fst snd].
  rewrite (absAppend_next 0 freezerBodiesTable n _ _ (rbody <$> old)) by (done || rewrite length_fmap; lia). cbn [absRun fst snd].
  rewrite (absAppend_next 0 freezerReceiptTable n _ _ (rreceipts <$> old)) by (done || rewrite length_fmap; lia). cbn [absRun fst snd].
  rewrite (absAppend_next 0 freezerDifficultyTable n _ _ (rtd <$> old)) by (done || rewrite length_fmap; lia). cbn [fst snd].
  rewrite columnsOf_snoc. unfold u64. rewrite Z.mod_small by lia. rewrite (IH (n + 1)) by (done || rewrite ?length_app; cbn; lia). by rewrite <- app_assoc.
Qed.

Lemma fits_writing left kind n x what k : (0 < left kind)%nat -> small x -> fits (spend kind left) k -> fits left (writing kind n x what k).
Proof. intros Hpos Hx Hk. split; [done|]. split; [done|]. intros [e|]; [exact I|exact Hk]. Qed.

Definition kindsOfRows : list string := [freezerHashTable; freezerHeaderTable; freezerBodiesTable; freezerReceiptTable; freezerDifficultyTable].

Lemma spend_ne kind k left : k <> kind -> spend kind left k = left k.
Proof. intros Hne. unfold spend. by rewrite decide_False. Qed.

Lemma spend_eq kind left : spend kind left kind = pred (left kind).
Proof. unfold spend. by rewrite decide_True. Qed.

Lemma freezeOp_fits m rows : forall n left, Forall rowOk rows -> storedFrom m n rows -> 0 <= n -> n + len rows < 2 ^ 64 -> Forall (fun k => length rows <= left k)%nat kindsOfRows ->
  fits left (freezeOp (mkNoFreeze (Some m)) (length rows) n).
Proof.
  induction rows as [|r rows IH]; intros n left Hok Hst Hn Hl Hleft; [done|]. apply Forall_cons in Hok as [Hr Hok]. apply storedFrom_cons in Hst as [Hst Hst'].
  cbn [length] in *. rewrite (freezeOp_step m _ n r Hr Hst). destruct Hr as (_ & _ & _ & Hs). unfold kindsOfRows in Hleft |- *. rewrite !Forall_cons in Hs. rewrite !Forall_cons in Hleft. destruct_and!.
  repeat (apply fits_writing; [rewrite ?spend_ne by done; lia|done|]). unfold u64. rewrite Z.mod_small by lia. apply IH; [done|done|lia|lia|].
  repeat (apply Forall_cons_2; [rewrite ?spend_ne by done; rewrite spend_eq, ?spend_ne by done; lia|]). constructor.
Qed.

Lemma frozenHashes_rows m rows : forall n, Forall rowOk rows -> storedFrom m n rows -> 0 <= n -> n + len rows < 2 ^ 64 ->
  frozenHashes (mkNoFreeze (Some m)) (length rows) n = rhash <$> rows.
Proof.
  induction rows as [|r rows IH]; intros n Hok Hst Hn Hl; [done|]. apply Forall_cons in Hok as [(Hr & _) Hok]. apply storedFrom_cons in Hst as [(E & _) Hst'].
  cbn [length frozenHashes fmap list_fmap] in *. destruct (plain_reads m n []) as (_ & _ & _ & _ & ->). rewrite E. cbn [default from_option id]. rewrite BytesToHash_id by done.
  unfold u64. rewrite Z.mod_small by lia. by rewrite IH by (done || lia).
Qed.

Lemma freezeRange_ok m f old rows :
  freezerHolds f (length old) (columnsOf old) -> foffset f = 0 -> room (fun _ => length rows) f -> len old + len rows < 2 ^ 40 ->
  Forall rowOk rows -> storedFrom m (len old) rows ->
  exists f', freezeRange (mkNoFreeze (Some m)) (len old) (len old + len rows - 1) f = Ret (rhash <$> rows, None, f') /\
    freezerHolds f' (length (old ++ rows)) (columnsOf (old ++ rows)) /\ foffset f' = 0.
Proof.
  intros Hf Ho Hroom Hl Hok Hst. unfold freezeRange. replace (Z.to_nat (len old + len rows - 1 + 1 - len old)) with (length rows) by lia.
  pose proof (ModifyAncients_ok f (length old) (fun _ => length rows) (columnsOf old) (freezeOp (mkNoFreeze (Some m)) (length rows) (len old)) Hf Hroom ltac:(intros; lia)) as Hm. rewrite Ho in Hm.
  rewrite (freezeOp_runs m rows (len old) old) in Hm by (done || lia). destruct Hm as [(n' & ws & f' & Hlev & E & Hf')|[Hno _]].
  - apply freezeOp_fits; [done|done|lia|lia|]. unfold kindsOfRows. repeat (apply Forall_cons_2; [lia|]). constructor.
  - exists f'. rewrite E, frozenHashes_rows by (done || lia). split; [done|]. split.
    + pose proof (columnsOf_level (old ++ rows) freezerHashTable _ eq_refl) as HL1. pose proof (Hlev freezerHashTable _ eq_refl) as HL2. cbn beta in HL1, HL2. congruence.
    + rewrite (ModifyAncients_offset _ _ _ _ _ E). done.
  - destruct (Hno (length (old ++ rows))). apply columnsOf_level.
Qed.

End Moving.
(** ** Cleaning *)

Section Cleaning.
Context `{Keccak}.

Lemma wipe_app a b m : wipe (a ++ b) m = wipe b (wipe a m).
Proof. apply foldl_app. Qed.

Lemma wipe_sub ds m : wipe ds m ⊆ m.
Proof. revert m. induction ds as [|d ds IH]; intros m; [done|]. etrans; [apply IH|]. apply delete_subseteq. Qed.

Lemma at_sub ds m d v : at_ (wipe ds m) d = Some v -> at_ m d = Some v.
Proof. unfold at_. intros E. eapply lookup_weaken; [exact E|apply wipe_sub]. Qed.

Lemma is_Some_sub ds m d : is_Some (at_ (wipe ds m) d) -> is_Some (at_ m d).
Proof. intros [v E]. exists v. by eapply at_sub. Qed.

Lemma performs_wipes {W} `{LawfulWriter W} (a b : W -> go W) ds ds' : performs a (wipe ds) -> performs b (wipe ds') -> performs (fun w => let! w := a w in b w) (wipe (ds ++ ds')).
Proof.
  intros Ha Hb w Hw. destruct (performs_bind a b _ _ Ha Hb w Hw) as (w' & E & Hw' & Hm). exists w'. split_and!; [done|done|]. intros m. by rewrite Hm, wipe_app.
Qed.

(** The data that goes with the canonical blocks from [n] on. *)
Fixpoint frozenData (hashes : list bytes) (n : Z) : list datum :=
  match hashes with
  | [] => []
  | h :: hashes => (if n =? 0 then [] else blockData n h ++ [DCanonical n]) ++ frozenData hashes (n + 1)
  end.

Lemma wipeFrozen_performs hashes : forall n, 0 <= n -> n + len hashes < 2 ^ 64 -> performs (wipeFrozen hashes n) (wipe (frozenData hashes n)).
Proof.
  induction hashes as [|h hashes IH]; intros n Hn Hl; [apply performs_nothing|]. cbn [wipeFrozen frozenData length] in *.
  assert (u64 (n + 1) = n + 1) as -> by (unfold u64; apply Z.mod_small; lia). apply performs_wipes; [|apply IH; lia].
  destruct (n =? 0); cbn [negb]; [apply performs_nothing|]. apply performs_wipes; [apply DeleteBlockWithoutNumber_performs|apply remove_performs].
Qed.

Lemma elem_of_frozenData hashes : forall n d, d ∈ frozenData hashes n <-> exists i h, hashes !! i = Some h /\ n + Z.of_nat i <> 0 /\ d ∈ blockData (n + Z.of_nat i) h ++ [DCanonical (n + Z.of_nat i)].
Proof.
  induction hashes as [|h hashes IH]; intros n d; cbn [frozenData].
  - split; [by intros ?%not_elem_of_nil|]. by intros (i & h & E & _).
  - rewrite elem_of_app, IH. split.
    + intros [Hd|(i & h' & E & Hne & Hd)].
      * exists 0%nat, h. rewrite Z.add_0_r. destruct (Z.eqb_spec n 0); [by apply not_elem_of_nil in Hd|done].
      * exists (S i), h'. by replace (n + Z.of_nat (S i)) with (n + 1 + Z.of_nat i) by lia.
    + intros ([|i] & h' & E & Hne & Hd).
      * left. rewrite Z.add_0_r in *. injection E as ->. by rewrite (proj2 (Z.eqb_neq _ _)).
      * right. exists i, h'. by replace (n + 1 + Z.of_nat i) with (n + Z.of_nat (S i)) by lia.
Qed.

(** The data that goes with a block of a side chain, and with many. *)
Definition sideData (b : Z * bytes) : list datum := [DReceipts b.1 b.2; DHeader b.1 b.2; DNumber b.2; DBody b.1 b.2; DTd b.1 b.2].
Definition sidesData (bs : list (Z * bytes)) : list datum := concat (sideData <$> bs).

Lemma sidesData_app a b : sidesData (a ++ b) = sidesData a ++ sidesData b.
Proof. unfold sidesData. by rewrite fmap_app, concat_app. Qed.

Lemma wipeHashes_performs hashes n : performs (wipeHashes hashes n) (wipe (sidesData ((n,.) <$> hashes))).
Proof.
  intros w Hw. destruct (performs_foldl (fun h => DeleteBlock h n) (fun h => wipe (sideData (n, h))) hashes ltac:(intros; apply DeleteBlock_performs) w Hw) as (w' & E & Hw' & Hm).
  exists w'. split_and!; [exact E|done|]. intros m. rewrite Hm. clear. generalize (effect w m). induction hashes as [|h hashes IH]; intros m'; [done|].
  cbn [foldl fmap list_fmap]. change (sidesData ((n, h) :: ?l)) with (sideData (n, h) ++ sidesData l). by rewrite wipe_app, <- IH.
Qed.

(** A header, not of the genesis block, is stored. *)
Definition good (m : content) (n : Z) (h : bytes) : Prop := in_u64 n /\ n <> 0 /\ isHash h /\ is_Some (at_ m (DHeader n h)).

Lemma good_all m n h : in_u64 n -> n <> 0 -> h ∈ ReadAllHashes (R := MemoryDB.Database) (Some m) n <-> good m n h.
Proof. intros Hn Hne. rewrite (proj2 (ReadAllHashes_spec m n Hn)). unfold good. tauto. Qed.

(** What a step adds to a batch. *)
Definition adds (w w' : MemoryDB.batch) (bs : list (Z * bytes)) : Prop := forall m, effect w' m = wipe (sidesData bs) (effect w m).

Lemma adds_nothing w : adds w w [].
Proof. done. Qed.

Lemma adds_trans w1 w2 w3 a b : adds w1 w2 a -> adds w2 w3 b -> adds w1 w3 (a ++ b).
Proof. intros H1 H2 m. by rewrite H2, H1, sidesData_app, wipe_app. Qed.

Lemma wipeHashes_adds hashes n w : exists w', wipeHashes hashes n w = Ret w' /\ adds w w' ((n,.) <$> hashes).
Proof. destruct (wipeHashes_performs hashes n w I) as (w' & E & _ & Hm). by exists w'. Qed.

Lemma wipeSides_ok m k : forall n dangling w, 0 <= n -> n + Z.of_nat k < 2 ^ 64 -> (forall h, h ∈ dangling -> good m (n - 1) h) ->
  exists dangling' bs w', wipeSides (Some m) k n dangling w = Ret (dangling', w') /\ adds w w' bs /\
    (k = O -> dangling' = dangling) /\ (k <> O -> forall h, h ∈ dangling' <-> good m (n + Z.of_nat k - 1) h) /\
    forall n' h, (n', h) ∈ bs <-> n <= n' < n + Z.of_nat k /\ good m n' h.
Proof.
  induction k as [|k IH]; intros n dangling w Hn Hl Hd; cbn [wipeSides].
  - exists dangling, [], w. split_and!; [done|apply adds_nothing|done|done|]. intros n' h. split; [by intros ?%not_elem_of_nil|lia].
  - assert (u64 (n + 1) = n + 1) as -> by (unfold u64; apply Z.mod_small; lia). replace (n + Z.of_nat (S k) - 1) with (n + 1 + Z.of_nat k - 1) by lia.
    destruct (Z.eqb_spec n 0) as [->|Hne]; cbn [negb].
    + assert (dangling = []) as -> by (apply elem_of_nil_inv; intros h Hh; destruct (Hd h Hh) as [Hu _]; unfold in_u64 in Hu; lia).
      destruct (IH (0 + 1) [] w) as (dangling' & bs & w' & E & Ha & H0 & Hd' & Hbs); [lia|lia|by intros h ?%not_elem_of_nil|].
      exists dangling', bs, w'. split_and!; [done|done|done| |].
      * intros _. destruct k as [|k]; [|by apply Hd']. rewrite H0 by done. intros h. split; [by intros ?%not_elem_of_nil|]. by intros (_ & ? & _).
      * intros n' h. rewrite Hbs. split; [intros [? Hg]; split; [lia|done]|]. intros [? Hg]. pose proof Hg as (_ & ? & _). split; [lia|done].
    + assert (in_u64 n) as Hu by (unfold in_u64; lia). destruct (wipeHashes_adds (ReadAllHashes (R := MemoryDB.Database) (Some m) n) n w) as (w1 & E1 & Ha1). cbv zeta. rewrite E1. cbn beta iota.
      destruct (IH (n + 1) (ReadAllHashes (R := MemoryDB.Database) (Some m) n) w1) as (dangling' & bs & w' & E & Ha & H0 & Hd' & Hbs); [lia|lia|intros h Hh; rewrite Z.add_simpl_r; by apply good_all|].
      exists dangling', (((n,.) <$> ReadAllHashes (R := MemoryDB.Database) (Some m) n) ++ bs), w'. split_and!; [done|by eapply adds_trans|done| |].
      * intros _. destruct k as [|k]; [|by apply Hd']. rewrite H0 by done. intros h. replace (n + 1 + Z.of_nat 0 - 1) with n by lia. by apply good_all.
      * intros n' h. rewrite elem_of_app, Hbs, list_elem_of_fmap. split.
        -- intros [(h' & [= -> ->] & Hh)|[? Hg]]; (split; [lia|]); [by apply good_all|done].
        -- intros [Hr Hg]. destruct (decide (n' = n)) as [->|]; [|right; split; [lia|done]]. left. exists h. split; [done|]. by apply good_all.
Qed.

(** The header of a block in the store. *)
Definition headerAt (m : content) (n : Z) (h : bytes) : option Header :=
  let data := default [] (at_ m (DHeader n h)) in match data with [] => None | _ => okay (Decode decodeHeader data) end.

Lemma wipeChildren_ok m drop_ tip children : forall w,
  exists kept del w', wipeChildren (Some m) drop_ tip children w = Ret (kept, w') /\ adds w w' ((tip,.) <$> del) /\
    (forall h, h ∈ kept -> h ∈ children) /\ (forall h, h ∈ del -> h ∈ kept) /\
    (forall h, h ∈ kept -> match headerAt m tip h with None => True | Some child => ParentHash child ∈ drop_ end) /\
    forall h, h ∈ children -> match headerAt m tip h with None => False | Some child => ParentHash child ∈ drop_ end -> h ∈ del.
Proof.
  induction children as [|h children IH]; intros w; cbn [wipeChildren].
  - exists [], [], w. split_and!; [done|apply adds_nothing|set_solver..].
  - assert (ReadHeader (mkNoFreeze (Some m)) h tip = Ret (headerAt m tip h)) as ->.
    { unfold ReadHeader, decodedFrom. by destruct (plain_reads m tip h) as (-> & _). }
    destruct (headerAt m tip h) as [child|] eqn:Eh; [destruct (decide (ParentHash child ∈ drop_)) as [Hin|Hin]|].
    + destruct (DeleteBlock_performs (W := MemoryDB.batch) h tip w) as (w1 & -> & _ & Ha1); [done|]. destruct (IH w1) as (kept & del & w' & -> & Ha & H1 & H2 & H3 & H4).
      exists (h :: kept), (h :: del), w'. split_and!; [done| |set_solver|set_solver| |].
      * change (adds w w' ([(tip, h)] ++ ((tip,.) <$> del))). eapply adds_trans; [|exact Ha]. intros m'. apply Ha1.
      * intros h' [->|Hh]%elem_of_cons; [by rewrite Eh|by apply H3].
      * intros h' [->|Hh]%elem_of_cons Hc; [apply list_elem_of_here|]. apply list_elem_of_further. by apply H4.
    + destruct (IH w) as (kept & del & w' & -> & Ha & H1 & H2 & H3 & H4). exists kept, del, w'. split_and!; [done|done|set_solver|set_solver|done|].
      intros h' [->|Hh]%elem_of_cons Hc; [by rewrite Eh in Hc|by apply H4].
    + destruct (IH w) as (kept & del & w' & -> & Ha & H1 & H2 & H3 & H4). exists (h :: kept), del, w'. split_and!; [done|done|set_solver|set_solver| |].
      * intros h' [->|Hh]%elem_of_cons; [by rewrite Eh|by apply H3].
      * intros h' [->|Hh]%elem_of_cons Hc; [by rewrite Eh in Hc|by apply H4].
Qed.

(** Deleting dangling blocks: [prot] are blocks whose parents are protected too. The loop ends behind the highest header; it deletes no protected block, and with a
    block all of its children. *)
Lemma wipeDangling_ok m (prot : Z -> bytes -> Prop) from top :
  (forall n h, from <= n -> prot n h -> exists child, headerAt m n h = Some child /\ prot (n - 1) (ParentHash child)) ->
  (forall n h, good m n h -> n <= top) -> 0 < from -> top + 2 < 2 ^ 64 ->
  forall fuel tip dangling w, from <= tip -> dangling = [] \/ tip <= top + 1 -> top + 3 - tip <= Z.of_nat fuel -> (0 < fuel)%nat -> (forall h, h ∈ dangling -> ~ prot (tip - 1) h) ->
  exists bs w', wipeDangling fuel (Some m) dangling tip w = Ret (Some w') /\ adds w w' bs /\ (forall n h, (n, h) ∈ bs -> tip <= n /\ good m n h /\ ~ prot n h) /\
    (forall h child, good m tip h -> headerAt m tip h = Some child -> ParentHash child ∈ dangling -> (tip, h) ∈ bs) /\
    (forall n h child, (n, ParentHash child) ∈ bs -> good m (n + 1) h -> headerAt m (n + 1) h = Some child -> (n + 1, h) ∈ bs).
Proof.
  intros Hprot Htop Hfrom Hwrap. induction fuel as [|fuel IH]; intros tip dangling w Htip Hor Hfuel Hpos Hd; [lia|]. cbn [wipeDangling]. destruct dangling as [|d0 ds].
  { exists [], w. split_and!; [done|apply adds_nothing|set_solver..]. }
  destruct Hor as [Hor|Hor]; [done|]. assert (in_u64 tip) as Hu by (unfold in_u64; lia). assert (tip <> 0) as Hne by lia. set (dangling := d0 :: ds) in *.
  destruct (wipeChildren_ok m dangling tip (ReadAllHashes (R := MemoryDB.Database) (Some m) tip) w) as (kept & del & w1 & -> & Ha1 & Hkc & Hdk & Hkp & Hdel). cbn beta iota. cbn [fst snd].
  assert (forall h, h ∈ kept -> good m tip h /\ ~ prot tip h) as Hkg.
  { intros h Hh. pose proof (Hkc h Hh) as Hc. apply good_all in Hc; [|done|done]. split; [done|]. intros Hp. destruct (Hprot tip h Htip Hp) as (child & Ec & Hp').
    pose proof (Hkp h Hh) as Hin. rewrite Ec in Hin. by apply (Hd _ Hin). }
  assert (u64 (tip + 1) = tip + 1) as -> by (unfold u64; apply Z.mod_small; lia).
  destruct (IH (tip + 1) kept w1) as (bs & w' & -> & Ha & Hbs & Hchild & Hclosed); [lia| |lia|lia|intros h Hh; rewrite Z.add_simpl_r; by apply Hkg|].
  { destruct (decide (tip <= top)); [right; lia|left]. apply elem_of_nil_inv. intros h Hh. pose proof (Htop _ _ (proj1 (Hkg h Hh))). lia. }
  exists (((tip,.) <$> del) ++ bs), w'. split_and!; [done|by eapply adds_trans| | |].
  - intros n h [(h' & [= -> ->] & Hh)%list_elem_of_fmap|Hb]%elem_of_app; [split; [lia|]; by apply Hkg, Hdk|]. destruct (Hbs n h Hb). split; [lia|done].
  - intros h child Hg Ec Hin. apply elem_of_app. left. apply list_elem_of_fmap. exists h. split; [done|]. apply Hdel; [by apply good_all|]. by rewrite Ec.
  - intros n h child [(h' & E & Hh)%list_elem_of_fmap|Hb]%elem_of_app Hg Ec; apply elem_of_app; right; [|by eapply Hclosed].
    injection E as -> E. apply (Hchild h child); [done|done|]. rewrite E. by apply Hdk.
Qed.

Lemma elem_of_sidesData bs d : d ∈ sidesData bs <-> exists n h, (n, h) ∈ bs /\ d ∈ sideData (n, h).
Proof.
  unfold sidesData. rewrite list_elem_of_In, in_concat. setoid_rewrite <- list_elem_of_In. split.
  - intros (l & (b & -> & Hb)%list_elem_of_fmap & Hd). destruct b as [n h]. by exists n, h.
  - intros (n & h & Hb & Hd). exists (sideData (n, h)). split; [|done]. apply list_elem_of_fmap. by exists (n, h).
Qed.

Lemma sides_valid m bs : (forall n h, (n, h) ∈ bs -> good m n h) -> Forall valid (sidesData bs).
Proof.
  intros Hg. apply Forall_forall. intros d (n & h & Hb & Hd)%elem_of_sidesData. destruct (Hg n h Hb) as (Hu & _ & Hh & _).
  revert d Hd. apply Forall_forall. unfold sideData. cbn [fst snd]. solve_valid.
Qed.

Lemma frozen_valid hashes n : 0 <= n -> n + len hashes <= 2 ^ 64 -> Forall isHash hashes -> Forall valid (frozenData hashes n).
Proof.
  intros Hn Hl Hh. apply Forall_forall. intros d (i & h & E & _ & Hd)%elem_of_frozenData. pose proof (lookup_lt_Some _ _ _ E) as Hi. assert (in_u64 (n + Z.of_nat i)) as Hu by (unfold in_u64; lia).
  pose proof (Forall_lookup_1 _ _ _ _ Hh E) as Hh'. revert d Hd. apply Forall_forall. unfold blockData. cbn [app]. solve_valid.
Qed.

Lemma good_sub ds m n h : good (wipe ds m) n h -> good m n h.
Proof. intros (Hu & Hne & Hh & Hs). split_and!; try done. by eapply is_Some_sub. Qed.

(** Headers above those that are deleted. *)
Lemma sides_below m bs bound n h : (forall n h, (n, h) ∈ bs -> n < bound /\ good m n h) -> in_u64 n -> isHash h -> bound <= n ->
  at_ (wipe (sidesData bs) m) (DHeader n h) = at_ m (DHeader n h).
Proof.
  intros Hbs Hu Hh Hn. rewrite at_wipe by (done || eapply sides_valid; intros; by apply Hbs). rewrite decide_False; [done|]. intros (n' & h' & Hb & Hd)%elem_of_sidesData.
  destruct (Hbs _ _ Hb) as [Hlt _]. unfold sideData in Hd. cbn [fst snd] in Hd. assert (n = n') by set_solver. lia.
Qed.

Lemma effect_new m : effect MemoryDB.NewBatch m = m.
Proof. done. Qed.

Lemma Write_effect b m : MemoryDB.Write b (Some m) = Ret (Some (effect b m)).
Proof. apply Write_open. Qed.

(** What is left in the store: without the canonical blocks, then without the side chains up to them, then without the blocks that build on side chains. *)
Lemma gc_ok m hashes first (prot : Z -> bytes -> Prop) top fuel :
  let m1 := wipe (frozenData hashes first) m in let frozen := first + len hashes in
  0 <= first -> hashes <> [] -> frozen <= top + 1 -> top + 2 < 2 ^ 64 -> top + 3 - frozen <= Z.of_nat fuel ->
  (forall n h, frozen <= n -> prot n h -> in_u64 n /\ isHash h /\ exists child, headerAt m1 n h = Some child /\ prot (n - 1) (ParentHash child)) ->
  (forall n h, good m1 n h -> n <= top) -> (forall h, prot (frozen - 1) h -> ~ good m1 (frozen - 1) h) ->
  exists bs bs', gcKvStore fuel (Some m) hashes first frozen = Ret (Some (Some (wipe (sidesData (bs ++ bs')) m1))) /\
    (forall n h, (n, h) ∈ bs <-> first <= n < frozen /\ good m1 n h) /\
    (forall n h, (n, h) ∈ bs' -> frozen <= n /\ good m1 n h /\ ~ prot n h) /\
    (forall n h child, (n, ParentHash child) ∈ bs ++ bs' -> frozen <= n + 1 -> good m1 (n + 1) h -> headerAt m1 (n + 1) h = Some child -> (n + 1, h) ∈ bs').
Proof.
  intros m1 frozen Hf Hne Hft Htop Hfuel Hprot Hhigh Hedge. assert (0 < len hashes) as Hpos by (destruct hashes; [done|cbn; lia]).
  unfold gcKvStore. destruct (wipeFrozen_performs hashes first Hf ltac:(lia) MemoryDB.NewBatch) as (w & -> & _ & Hw); [done|]. rewrite Write_effect, Hw, effect_new. cbn beta iota. fold m1.
  destruct (wipeSides_ok m1 (Z.to_nat (frozen - first)) first [] MemoryDB.NewBatch Hf ltac:(lia)) as (dangling & bs & w1 & -> & Ha & _ & Hd & Hbs); [by intros h ?%not_elem_of_nil|].
  cbn beta iota. rewrite Write_effect, (Ha m1), effect_new. cbn beta iota. rewrite (proj2 (Z.ltb_lt _ _)) by lia. specialize (Hd ltac:(lia)).
  rewrite Z2Nat.id in Hd, Hbs by lia. replace (first + (frozen - first)) with frozen in * by lia.
  set (m2 := wipe (sidesData bs) m1). assert (forall n h, in_u64 n -> isHash h -> frozen <= n -> at_ m2 (DHeader n h) = at_ m1 (DHeader n h)) as Hsame.
  { intros n h. apply sides_below. intros n' h' [? ?]%Hbs. split; [lia|done]. }
  assert (forall n h, in_u64 n -> isHash h -> frozen <= n -> headerAt m2 n h = headerAt m1 n h) as Hsame'.
  { intros n h Hu Hh Hn. unfold headerAt. by rewrite Hsame. }
  destruct (wipeDangling_ok m2 prot frozen top) with (fuel := fuel) (tip := frozen) (dangling := dangling) (w := MemoryDB.NewBatch)
    as (bs' & w2 & -> & Ha2 & Hbs' & Hchild & Hclosed); [|intros n h ?%good_sub; by eapply Hhigh|lia|lia|lia|by right|lia|lia|intros h Hh Hp; apply Hd in Hh; by eapply Hedge|].
  { intros n h Hn Hp. destruct (Hprot n h Hn Hp) as (Hu & Hh & child & Ec & Hp'). exists child. by rewrite Hsame'. }
  cbn beta iota. rewrite Write_effect, (Ha2 m2), effect_new. cbn beta iota. unfold m2. rewrite <- wipe_app, <- sidesData_app. exists bs, bs'. split_and!; [done|done| |].
  - intros n h Hb. destruct (Hbs' n h Hb) as (? & Hg & ?). split_and!; [done|by eapply good_sub|done].
  - intros n h child Hb Hn Hg Ec. pose proof Hg as (Hu & Hnz & Hh & Hs). assert (good m2 (n + 1) h) as Hg2 by (split_and!; [done|done|done|by rewrite Hsame]). rewrite <- Hsame' in Ec by done.
    apply elem_of_app in Hb as [Hb|Hb]; [|by eapply Hclosed]. apply Hbs in Hb as [Hr Hgb]. assert (n + 1 = frozen) as En by lia. rewrite En in *.
    apply (Hchild h child); [done|done|]. apply Hd. by replace (frozen - 1) with n by lia.
Qed.

End Cleaning.

(** ** Reading *)

Section Reading.
Context `{Keccak} `{Snappy}.

Lemma Ancient_rows db f rows number kind col :
  freezerHolds f (length rows) (columnsOf rows) -> foffset f = 0 -> len rows < 2 ^ 40 -> in_u64 number -> columnsOf rows !! kind = Some col ->
  Ancient_ (mkFreezerDb db f) kind number = Ret match col !! Z.to_nat number with Some x => inl x | None => inr errOutOfBounds end.
Proof.
  intros Hf Ho Hl Hu Ec. cbn [Ancient_ freezerdb_ancients ancientStore]. destruct (freezer_reads f _ _ kind number Hf Hl Hu) as [-> _]. rewrite Ec, Ho. unfold in_u64 in Hu.
  rewrite decide_True by lia. by rewrite Z.sub_0_r.
Qed.

Lemma frozen_readsRow db f rows i r : freezerHolds f (length rows) (columnsOf rows) -> foffset f = 0 -> len rows < 2 ^ 40 -> rows !! i = Some r -> rowOk r ->
  readsRow (mkFreezerDb db f) (Z.of_nat i) r.
Proof.
  intros Hf Ho Hl Er (Hh & Hz & Hk & Hs). pose proof (lookup_lt_Some _ _ _ Er) as Hi. assert (in_u64 (Z.of_nat i)) as Hu by (unfold in_u64; lia).
  rewrite !Forall_cons in Hs. destruct_and!. unfold readsRow, ReadCanonicalHash, ReadHeaderRLP, ReadBodyRLP, ReadReceiptsRLP, ReadTdRLP, readCanon, isCanon, ancientData.
  rewrite (Ancient_rows db f rows _ freezerHashTable (rhash <$> rows)), (Ancient_rows db f rows _ freezerHeaderTable (rheader <$> rows)), (Ancient_rows db f rows _ freezerBodiesTable (rbody <$> rows)),
    (Ancient_rows db f rows _ freezerReceiptTable (rreceipts <$> rows)), (Ancient_rows db f rows _ freezerDifficultyTable (rtd <$> rows)) by done.
  rewrite Nat2Z.id, !list_lookup_fmap, Er. cbn [fmap option_fmap option_map orNil]. cbn beta iota. rewrite Hk, !bool_decide_true by done. cbn [andb]. rewrite nonempty_match by done.
  by rewrite BytesToHash_id.
Qed.

Lemma getData_freezer m f k : getData (mkFreezerDb (Some m) f) k = default [] (m !! k).
Proof. unfold getData. cbn. by destruct (m !! k). Qed.

Lemma live_readsRow m f rows n r : freezerHolds f (length rows) (columnsOf rows) -> foffset f = 0 -> len rows < 2 ^ 40 -> in_u64 n -> len rows <= n -> stored m n r -> isHash (rhash r) ->
  readsRow (mkFreezerDb (Some m) f) n r.
Proof.
  intros Hf Ho Hl Hu Hn (E1 & E2 & E3 & E4 & E5) Hh.
  unfold readsRow, ReadCanonicalHash, ReadHeaderRLP, ReadBodyRLP, ReadReceiptsRLP, ReadTdRLP, readCanon, isCanon, ancientData.
  rewrite (Ancient_rows (Some m) f rows _ freezerHashTable (rhash <$> rows)), (Ancient_rows (Some m) f rows _ freezerHeaderTable (rheader <$> rows)) by done.
  rewrite !list_lookup_fmap, (lookup_ge_None_2 rows) by lia. cbn [fmap option_fmap option_map orNil]. cbn beta iota.
  rewrite bool_decide_false by (intros E; by apply E). cbn [andb]. rewrite !getData_freezer. unfold at_ in *. cbn [keyOf] in *. rewrite E1, E2, E3, E4, E5. cbn [default from_option id].
  by rewrite BytesToHash_id.
Qed.

End Reading.

(** ** A round *)

Section Round.
Context `{Keccak} `{Snappy} `{RangeOrder}.
Context (m : content) (first : Z) (rows upper : list row).
Notation n := (first + len rows).
Hypothesis Hfirst : 0 <= first.
Hypothesis Hwide : first + len (rows ++ upper) < 2 ^ 64.
Hypothesis Hsome : rows <> [].
Hypothesis Hok : Forall rowOk (rows ++ upper).
Hypothesis Hst : storedFrom m first (rows ++ upper).
Hypothesis Hlink : linked (rows ++ upper).
Hypothesis Hone : oneNumber m.

(** The blocks of the chain from the last one that is moved on. *)
Definition keptChain (k : Z) (h : bytes) : Prop := exists i r, (rows ++ upper) !! i = Some r /\ k = first + Z.of_nat i /\ h = rhash r /\ n - 1 <= k.

Definition withoutFrozen : content := wipe (frozenData (rhash <$> rows) first) m.

Lemma rows_wide : n < 2 ^ 64.
Proof. rewrite length_app in Hwide. lia. Qed.

Lemma rows_hashes : Forall isHash (rhash <$> rows).
Proof. apply Forall_fmap. apply Forall_app in Hok as [Hr _]. eapply Forall_impl; [exact Hr|]. by intros r (? & _). Qed.

Lemma frozen_below d : d ∈ frozenData (rhash <$> rows) first -> exists i r, rows !! i = Some r /\ first + Z.of_nat i <> 0 /\ d ∈ blockData (first + Z.of_nat i) (rhash r) ++ [DCanonical (first + Z.of_nat i)].
Proof.
  intros (i & h & E & Hne & Hd)%elem_of_frozenData. rewrite list_lookup_fmap in E. destruct (rows !! i) as [r|] eqn:Er; [|done]. injection E as <-. by exists i, r.
Qed.

(** Headers above the blocks that are moved, and indices by hash, are not touched with them. *)
Lemma above_kept d : valid d -> (forall k h, d ∈ blockData k h ++ [DCanonical k] -> n <= k) -> at_ withoutFrozen d = at_ m d.
Proof.
  intros Hv Hd. pose proof rows_wide as Hn. unfold withoutFrozen. rewrite at_wipe by (done || (apply frozen_valid; [done|rewrite length_fmap; lia|apply rows_hashes])).
  rewrite decide_False; [done|]. intros (i & r & E & _ & Hin)%frozen_below. apply Hd in Hin. apply lookup_lt_Some in E. lia.
Qed.

Lemma row_gone i r : rows !! i = Some r -> first + Z.of_nat i <> 0 -> at_ withoutFrozen (DHeader (first + Z.of_nat i) (rhash r)) = None.
Proof.
  intros E Hne. pose proof rows_wide as Hn. pose proof (lookup_lt_Some _ _ _ E) as Hi. pose proof rows_hashes as Hh. unfold withoutFrozen. rewrite at_wipe.
  - rewrite decide_True; [done|]. apply elem_of_frozenData. exists i, (rhash r). rewrite list_lookup_fmap, E. split_and!; [done|done|]. unfold blockData. set_solver.
  - apply frozen_valid; [done|rewrite length_fmap; lia|done].
  - split; [unfold in_u64; lia|]. eapply Forall_lookup_1; [exact Hh|]. by rewrite list_lookup_fmap, E.
Qed.

Lemma chain_row i r : (rows ++ upper) !! i = Some r -> rowOk r /\ stored m (first + Z.of_nat i) r.
Proof. intros E. split; [by eapply (Forall_lookup_1 _ _ _ _ Hok)|by apply Hst]. Qed.

Lemma chain_u64 i r : (rows ++ upper) !! i = Some r -> in_u64 (first + Z.of_nat i).
Proof. intros E%lookup_lt_Some. unfold in_u64. lia. Qed.

(** A header of the chain that is not moved is in the store and has its parent on the chain. *)
Lemma chain_kept k h : n <= k -> keptChain k h -> in_u64 k /\ isHash h /\ exists child, headerAt withoutFrozen k h = Some child /\ keptChain (k - 1) (ParentHash child).
Proof.
  intros Hk (i & r & E & -> & -> & _). pose proof (chain_u64 _ _ E) as Hu. destruct (chain_row i r E) as [(Hh & _ & _ & Hs) (_ & Eh & _)]. split_and!; [done|done|].
  assert (0 < length rows)%nat as Hpos by (destruct rows; [done|cbn; lia]). destruct i as [|i]; [lia|].
  destruct (lookup_lt_is_Some_2 (rows ++ upper) i) as [r0 E0]; [apply lookup_lt_Some in E; lia|]. destruct (Hlink i r0 r E0 E) as (child & Ec & Ep). exists child. split.
  - unfold headerAt. rewrite above_kept, Eh; [|done|].
    + cbn [default from_option id]. rewrite !Forall_cons in Hs. by rewrite nonempty_match by apply Hs.
    + intros k' h' Hin. unfold blockData in Hin. cbn [app] in Hin. assert (first + Z.of_nat (S i) = k') by set_solver. lia.
  - exists i, r0. split_and!; [done|lia|done|lia].
Qed.

Lemma edge_gone h : keptChain (n - 1) h -> ~ good withoutFrozen (n - 1) h.
Proof.
  intros (i & r & E & Ei & -> & _) (_ & Hne & _ & Hs). assert (i < length rows)%nat as Hi by lia. rewrite lookup_app_l in E by done. rewrite Ei in Hne, Hs.
  rewrite (row_gone i r E Hne) in Hs. by apply is_Some_None in Hs.
Qed.

(** The rest of the round's work on the store. *)
Context (bs bs' : list (Z * bytes)).
Hypothesis Hbs : forall k h, (k, h) ∈ bs <-> first <= k < n /\ good withoutFrozen k h.
Hypothesis Hbs' : forall k h, (k, h) ∈ bs' -> n <= k /\ good withoutFrozen k h /\ ~ keptChain k h.

Definition cleaned : content := wipe (sidesData (bs ++ bs')) withoutFrozen.

Lemma sides_good k h : (k, h) ∈ bs ++ bs' -> good withoutFrozen k h.
Proof. intros [[_ Hg]%Hbs|(_ & Hg & _)%Hbs']%elem_of_app; done. Qed.

Lemma sides_are_valid : Forall valid (sidesData (bs ++ bs')).
Proof. eapply sides_valid, sides_good. Qed.

Lemma cleaned_keeps d : valid d -> (forall k h, (k, h) ∈ bs ++ bs' -> d ∉ sideData (k, h)) -> at_ cleaned d = at_ withoutFrozen d.
Proof.
  intros Hv Hno. unfold cleaned. rewrite at_wipe by (done || apply sides_are_valid). rewrite decide_False; [done|]. intros (k & h & Hb & Hd)%elem_of_sidesData. by eapply Hno.
Qed.

Lemma cleaned_drops k h d : (k, h) ∈ bs ++ bs' -> d ∈ sideData (k, h) -> valid d -> at_ cleaned d = None.
Proof.
  intros Hb Hd Hv. unfold cleaned. rewrite at_wipe by (done || apply sides_are_valid). rewrite decide_True; [done|]. apply elem_of_sidesData. by exists k, h.
Qed.

(** No block of the chain is among the side chains, under whatever number. *)
Lemma chain_not_side i r k : (rows ++ upper) !! i = Some r -> (k, rhash r) ∉ bs ++ bs'.
Proof.
  intros E Hb. pose proof (chain_u64 _ _ E) as Hu. destruct (chain_row i r E) as [_ (_ & Eh & _)]. pose proof (sides_good _ _ Hb) as (Hk & Hne & Hh & Hs).
  assert (k = first + Z.of_nat i) as ->. { eapply Hone; [done|done|done|by eapply is_Some_sub|by rewrite Eh]. }
  destruct (decide (i < length rows)%nat) as [Hi|Hi].
  - rewrite lookup_app_l in E by done. rewrite (row_gone i r E Hne) in Hs. by apply is_Some_None in Hs.
  - apply elem_of_app in Hb as [[Hr _]%Hbs|(_ & _ & Hp)%Hbs']; [lia|]. destruct Hp. exists i, r. split_and!; [done|done|done|lia].
Qed.

Lemma upper_stored i r : (rows ++ upper) !! i = Some r -> (length rows <= i)%nat -> stored cleaned (first + Z.of_nat i) r.
Proof.
  intros E Hi. pose proof (chain_u64 _ _ E) as Hu. destruct (chain_row i r E) as [(Hh & _) Hs]. pose proof (fun k => chain_not_side i r k E) as Hno.
  assert (forall d, valid d -> d ∈ DCanonical (first + Z.of_nat i) :: blockData (first + Z.of_nat i) (rhash r) -> at_ cleaned d = at_ m d) as Hkeep.
  { intros d Hv Hd. unfold blockData in Hd. rewrite cleaned_keeps; [apply above_kept|..]; try done.
    - intros k' h' Hin. unfold blockData in Hin. cbn [app] in Hin. assert (first + Z.of_nat i = k') by set_solver. lia.
    - intros k h Hb Hd'. unfold sideData in Hd'. cbn [fst snd] in Hd'. assert (h = rhash r) as -> by set_solver. by apply (Hno k). }
  unfold stored. rewrite !Hkeep by (done || unfold blockData; set_solver). done.
Qed.

Lemma index_kept i r : (rows ++ upper) !! i = Some r -> at_ cleaned (DNumber (rhash r)) = at_ m (DNumber (rhash r)).
Proof.
  intros E. destruct (chain_row i r E) as [(Hh & _) Hs]. rewrite cleaned_keeps; [apply above_kept|..]; try done.
  - intros k' h' Hin. unfold blockData in Hin. set_solver.
  - intros k h Hb Hd. unfold sideData in Hd. cbn [fst snd] in Hd. assert (h = rhash r) as -> by set_solver. by apply (chain_not_side i r k E).
Qed.

Lemma headers_gone k h : first <= k < n -> k <> 0 -> isHash h -> at_ cleaned (DHeader k h) = None.
Proof.
  intros Hk Hne Hh. pose proof rows_wide as Hn. assert (in_u64 k) as Hu by (unfold in_u64; lia). destruct (at_ withoutFrozen (DHeader k h)) as [v|] eqn:E.
  - apply (cleaned_drops k h); [|unfold sideData; set_solver|done]. apply elem_of_app. left. apply Hbs. split; [done|]. split_and!; [done|done|done|by eexists].
  - destruct (at_ cleaned (DHeader k h)) as [v|] eqn:E'; [|done]. by rewrite (at_sub _ _ _ _ E') in E.
Qed.

(** What is left has its parents left, or moved. *)
Hypothesis Hclosed : forall k h child, (k, ParentHash child) ∈ bs ++ bs' -> n <= k + 1 -> good withoutFrozen (k + 1) h -> headerAt withoutFrozen (k + 1) h = Some child -> (k + 1, h) ∈ bs'.

Lemma no_orphans k h child : n <= k -> k <> 0 -> in_u64 k -> isHash h -> headerAt cleaned k h = Some child -> good m (k - 1) (ParentHash child) ->
  is_Some (at_ cleaned (DHeader (k - 1) (ParentHash child))) \/ exists i r, rows !! i = Some r /\ k - 1 = first + Z.of_nat i /\ ParentHash child = rhash r.
Proof.
  intros Hk Hne Hu Hh Hc (Hu' & _ & Hp & Hs). unfold headerAt in Hc. destruct (at_ cleaned (DHeader k h)) as [data|] eqn:E; [|done]. pose proof (at_sub _ _ _ _ E) as E1.
  assert ((k - 1, ParentHash child) ∉ bs ++ bs') as Hno.
  { intros Hb. rewrite (cleaned_drops k h) in E; [done| |unfold sideData; set_solver|done]. apply elem_of_app. right.
    pose proof (Hclosed _ h child Hb) as Hin. replace (k - 1 + 1) with k in Hin by lia. apply Hin; [done|split_and!; [done|done|done|by eexists]|]. unfold headerAt. by rewrite E1. }
  destruct (decide (DHeader (k - 1) (ParentHash child) ∈ frozenData (rhash <$> rows) first)) as [Hin|Hin].
  - right. apply frozen_below in Hin as (i & r & Er & _ & Hd). unfold blockData in Hd. cbn [app] in Hd. exists i, r. split; [done|]. set_solver.
  - left. rewrite cleaned_keeps; [|done|].
    + unfold withoutFrozen. rewrite at_wipe, decide_False; [done|done| |done]. apply frozen_valid; [done|rewrite length_fmap; pose proof rows_wide; lia|apply rows_hashes].
    + intros k' h' Hb Hd. unfold sideData in Hd. cbn [fst snd] in Hd. assert (k - 1 = k' /\ ParentHash child = h') as [<- <-] by set_solver. done.
Qed.

End Round.

End ChainFreezerLemmas.
Import ChainFreezerLemmas.

Section RoundTheorems.
Context `{Keccak} `{Snappy} `{RangeOrder}.

Lemma freezingLimit_above nfdb thr frozen limit : freezingLimit nfdb thr frozen = Ret (Some limit) -> frozen < limit.
Proof.
  unfold freezingLimit. case_decide; [done|]. destruct (ReadHeaderNumber _ _) as [number|]; [|done]. destruct (number <? thr); [done|].
  destruct (Z.leb_spec (number - thr) frozen); [done|]. destruct (ReadHeader _ _ _) as [[h|]|]; [|done..]. intros [= <-]. done.
Qed.

(** C4: Freezing is invisible. The store holds the canonical chain from where the freezer ends, each block naming the one before it as its parent. A round of the freezer
    that finds blocks old enough succeeds: afterwards the freezer has these blocks more, and every block of the chain, frozen before, frozen now or still in the store, is
    read from the database as before, through the same accessors and by the index from hashes. No header is left in the store at the numbers that were moved, of whatever chain, and
    no block is left above them whose parent was deleted with a side chain. *)
Theorem freezing_is_invisible m f old rows upper limit top fuel :
  let first := len old in let n := first + len rows in
  freezerHolds f (length old) (columnsOf old) -> foffset f = 0 -> room (fun _ => length rows) f -> n < 2 ^ 40 ->
  Forall rowOk (old ++ rows ++ upper) -> storedFrom m first (rows ++ upper) -> linked (rows ++ upper) -> first + len (rows ++ upper) < 2 ^ 64 ->
  oneNumber m -> (forall k h, good m k h -> k <= top) -> top + 2 < 2 ^ 64 -> top + 3 - n <= Z.of_nat fuel ->
  freezingLimit (mkNoFreeze (Some m)) (threshold f) (frozen f) = Ret (Some limit) -> n - 1 = Z.min limit (first + freezerBatchLimit) ->
  exists m' f', freezeRound fuel (Some m) f = Ret (Some (mkOutcome (freezerBatchLimit <=? len rows) (Some m') f')) /\
    freezerHolds f' (length (old ++ rows)) (columnsOf (old ++ rows)) /\
    (forall i r, (old ++ rows ++ upper) !! i = Some r -> readsRow (mkFreezerDb (Some m) f) (Z.of_nat i) r /\ readsRow (mkFreezerDb (Some m') f') (Z.of_nat i) r) /\
    (forall r, r ∈ rows ++ upper -> ReadHeaderNumber (mkFreezerDb (Some m') f') (rhash r) = ReadHeaderNumber (mkFreezerDb (Some m) f) (rhash r)) /\
    (forall k, first <= k < n -> k <> 0 -> ReadAllHashes (R := MemoryDB.Database) (Some m') k = []) /\
    (forall k h child, n <= k -> in_u64 k -> isHash h -> headerAt m' k h = Some child -> good m (k - 1) (ParentHash child) ->
      is_Some (at_ m' (DHeader (k - 1) (ParentHash child))) \/ exists i r, rows !! i = Some r /\ k - 1 = first + Z.of_nat i /\ ParentHash child = rhash r).
Proof.
  intros first n Hf Ho Hroom Hn Hok Hst Hlink Hwide Hone Hhigh Htop Hfuel Hlim Hmin. unfold n in *. clear n. pose proof (fh_frozen _ _ _ Hf) as Efr. rewrite Ho, Z.add_0_l in Efr. fold first in Efr.
  pose proof (freezingLimit_above _ _ _ _ Hlim) as Habove. rewrite Efr in Habove, Hlim. unfold freezerBatchLimit in Hmin. assert (1 < len rows) as Hlen by lia.
  assert (rows <> []) as Hsome by (intros ->; cbn in Hlen; lia). pose proof Hok as [Hold [Hrows Hupper]%Forall_app]%Forall_app.
  assert (Forall rowOk (rows ++ upper)) as Hok' by (by apply Forall_app). assert (0 <= first) as Hfirst by (unfold first; lia).
  destruct (freezeRange_ok m f old rows) as (f' & Ef & Hf' & Ho'); try done.
  { intros i r E. apply Hst. rewrite lookup_app_l; [done|]. by eapply lookup_lt_Some. }
  pose proof (fh_frozen _ _ _ Hf') as Efr'. rewrite Ho', Z.add_0_l, length_app, Nat2Z.inj_add in Efr'. fold first in Efr', Ef.
  assert (first + len rows - 1 <= top) as Hnt. { destruct (lookup_lt_is_Some_2 rows (pred (length rows))) as [r Er]; [lia|]. assert ((rows ++ upper) !! pred (length rows) = Some r) as Er' by (by apply lookup_app_l_Some).
    destruct (Hst _ _ Er') as (_ & Eh & _). pose proof (Forall_lookup_1 _ _ _ _ Hrows Er) as (Hh & _). replace (first + Z.of_nat (pred (length rows))) with (first + len rows - 1) in Eh by lia.
    apply (Hhigh _ (rhash r)). split_and!; [unfold in_u64; lia|lia|done|by rewrite Eh]. }
  destruct (gc_ok m (rhash <$> rows) first (keptChain first rows upper) top fuel) as (bs & bs' & Eg & Hbs & Hbs' & Hclosed); rewrite ?length_fmap in *; try (done || lia).
  { by destruct rows. }
  { intros k h Hk Hp. by apply (chain_kept m first rows upper). }
  { intros k h Hg%good_sub. by eapply Hhigh. }
  { intros h Hp. by apply (edge_gone m first rows upper). }
  fold (withoutFrozen m first rows) in Eg, Hbs, Hbs', Hclosed. exists (cleaned m first rows bs bs'), f'. fold (cleaned m first rows bs bs') in Eg. split_and!.
  - unfold freezeRound. rewrite Efr, Hlim. cbn beta iota zeta. replace (if freezerBatchLimit <? limit - first then first + freezerBatchLimit else limit) with (first + len rows - 1) by (unfold freezerBatchLimit; destruct (Z.ltb_spec 30000 (limit - first)); lia).
    rewrite Ef. cbn beta iota. rewrite Efr', Eg. cbn beta iota. do 4 f_equal. unfold u64. rewrite Z.mod_small by lia. lia.
  - done.
  - assert (first = len old) as Ef1 by done. intros i r E. pose proof (Forall_lookup_1 _ _ _ _ Hok E) as Hr. destruct (decide (i < length old)%nat) as [Hi|Hi]; [|destruct (decide (i < length (old ++ rows))%nat) as [Hi'|Hi']].
    + rewrite lookup_app_l in E by done. split; [apply (frozen_readsRow _ f old); done || lia|].
      apply (frozen_readsRow _ f' (old ++ rows)); [done|done|rewrite length_app; lia|by rewrite lookup_app_l|done].
    + pose proof E as E'. rewrite lookup_app_r in E' by lia. rewrite app_assoc, lookup_app_l in E by done. split; [|apply (frozen_readsRow _ f' (old ++ rows)); [done|done|rewrite length_app; lia|done|done]].
      apply (live_readsRow _ _ old); [done|done|lia|unfold in_u64; rewrite length_app in Hi'; lia|lia| |apply Hr]. specialize (Hst _ _ E'). by replace (first + _) with (Z.of_nat i) in Hst by lia.
    + assert ((rows ++ upper) !! (i - length old)%nat = Some r) as E' by (by rewrite <- lookup_app_r by lia). rewrite length_app in Hi'. pose proof (lookup_lt_Some _ _ _ E') as Hlt.
      assert (Z.of_nat i = first + Z.of_nat (i - length old)) as -> by lia. split.
      * apply (live_readsRow _ _ old); [done|done|lia|unfold in_u64; lia|lia|by apply Hst|apply Hr].
      * apply (live_readsRow _ _ (old ++ rows)); [done|done|rewrite length_app; lia|unfold in_u64; lia|rewrite length_app; lia| |apply Hr]. apply (upper_stored m first rows upper); try done. lia.
  - intros r [i E]%list_elem_of_lookup. unfold ReadHeaderNumber. rewrite !getData_freezer. change (_ !! headerNumberKey (rhash r)) with (at_ (cleaned m first rows bs bs') (DNumber (rhash r))) at 1 2.
    rewrite (index_kept m first rows upper) with (i := i) by done. done.
  - intros k Hk Hne. apply elem_of_nil_inv. intros h. rewrite (proj2 (ReadAllHashes_spec _ k ltac:(unfold in_u64; lia))). intros [Hh Hs]. rewrite (headers_gone m first rows upper) in Hs by done. by apply is_Some_None in Hs.
  - intros k h child Hk Hu Hh Hc Hg. apply (no_orphans m first rows upper) with (h := h) (bs := bs) (bs' := bs'); try done. lia.
Qed.

End RoundTheorems.

(** ** A concrete round *)

Module ChainFreezerDemo.

(** A hash function that keeps the end of its input. *)
#[global] Instance tail_keccak : Keccak.
Proof.
  refine {| keccak b := if decide (b = [0x80]) then emptyRoot else (fun x => x mod 256) <$> BytesToHash b |}.
  - intros b. case_decide; [done|]. rewrite length_fmap. unfold BytesToHash. rewrite length_app, length_replicate, !length_drop. lia.
  - intros b. case_decide; [repeat constructor; unfold is_byte; lia|]. apply Forall_fmap, Forall_true. intros x. apply Z.mod_pos_bound. lia.
  - by rewrite decide_True.
Defined.

#[local] Existing Instance markSnappy.

Definition headerOf (parent : bytes) (number : Z) : Header :=
  mkHeader parent (replicate 32 2) (replicate 20 3) (replicate 32 4) (replicate 32 5) (replicate 32 6)
    (replicate 256 0) (Some 131072) (Some number) 30000000 21000 1650000000 [100; 101] (replicate 32 7) (replicate 8 (number mod 256)) None.

Definition bytesOf (parent : bytes) (number : Z) : bytes := match encoded (HeaderEncodeRLP (headerOf parent number)) with Ret b => b | Panic => [] end.

Definition rowOf (parent : bytes) (number : Z) : row := let b := bytesOf parent number in mkRow (keccak b) b [0xC2; 0xC0; 0xC0] [0xC0] [number].

Definition genesis : row := Eval vm_compute in rowOf (replicate 32 0) 0.
Definition block1 : row := Eval vm_compute in rowOf (rhash genesis) 1.
Definition block2 : row := Eval vm_compute in rowOf (rhash block1) 2.

(** A side block at the number of the first, and one that builds on it. *)
Definition side1 : row := Eval vm_compute in rowOf (rhash block2) 77.
Definition side2 : row := Eval vm_compute in rowOf (rhash side1) 78.

(** The head of the chain, of which the blocks between are left out. *)
Definition headNumber : Z := 90001.
Definition headRow : row := Eval vm_compute in rowOf (replicate 32 9) headNumber.

Definition entriesOf (n : Z) (r : row) : list (datum * bytes) :=
  [(DCanonical n, rhash r); (DHeader n (rhash r), rheader r); (DBody n (rhash r), rbody r); (DReceipts n (rhash r), rreceipts r); (DTd n (rhash r), rtd r); (DNumber (rhash r), encodeBlockNumber n)].

Definition entries : list (datum * bytes) := Eval vm_compute in
  entriesOf 0 genesis ++ entriesOf 1 block1 ++ entriesOf 2 block2 ++ tail (entriesOf 1 side1) ++ tail (entriesOf 2 side2) ++
  [(DHeader headNumber (rhash headRow), rheader headRow); (DNumber (rhash headRow), encodeBlockNumber headNumber); (DMeta HeadBlock, rhash headRow)].

Definition build (l : list (datum * bytes)) : content := foldr (fun e m => <[keyOf e.1 := e.2]> m) ∅ l.

Definition before : content := build entries.

Lemma build_in l d : Forall (fun e => valid e.1) l -> valid d -> is_Some (at_ (build l) d) -> d ∈ l.*1.
Proof.
  intros Hl Hd. induction Hl as [|[d' v] l Hv _ IH]; cbn [build foldr]; [unfold at_; rewrite lookup_empty; by intros [? ?]|]. cbn [fst snd fmap list_fmap] in *.
  fold (build l). rewrite datum_insert by done. case_decide; [subst; intros _; apply list_elem_of_here|]. intros Hs. apply list_elem_of_further. by apply IH.
Qed.

Lemma entries_valid : Forall (fun e => valid e.1) entries.
Proof. repeat (apply Forall_cons_2; [vm_compute; repeat split; discriminate|]). constructor. Qed.

(** The headers of the store. *)
Lemma headers_before k h : in_u64 k -> isHash h -> is_Some (at_ before (DHeader k h)) ->
  (k, h) ∈ [(0, rhash genesis); (1, rhash block1); (2, rhash block2); (1, rhash side1); (2, rhash side2); (headNumber, rhash headRow)].
Proof.
  intros Hk Hh Hs. assert (DHeader k h ∈ entries.*1) as Hin by (apply build_in; [apply entries_valid|done|exact Hs]). clear Hs. unfold entries in Hin. cbn [fmap list_fmap fst] in Hin.
  repeat (apply elem_of_cons in Hin as [Hin|Hin]; [try discriminate Hin; injection Hin as -> ->; repeat (apply list_elem_of_here || apply list_elem_of_further)|]). by apply not_elem_of_nil in Hin.
Qed.

Lemma before_high k h : good before k h -> k <= headNumber.
Proof.
  intros (Hk & _ & Hh & Hs). pose proof (headers_before k h Hk Hh Hs) as Hin. unfold headNumber in *. repeat (apply elem_of_cons in Hin as [Hin|Hin]; [injection Hin as -> _; lia|]). by apply not_elem_of_nil in Hin.
Qed.

Lemma before_one : oneNumber before.
Proof.
  intros k k' h Hk Hk' Hh Hs Hs'. pose proof (headers_before k h Hk Hh Hs) as H1. pose proof (headers_before k' h Hk' Hh Hs') as H2. revert H1 H2. set (l := cons _ _).
  assert (Forall (fun a => Forall (fun b => a.2 = b.2 -> a.1 = b.1) l) l) as Hl by (apply (bool_decide_unpack _); vm_compute; exact I).
  intros H1 H2. rewrite Forall_forall in Hl. specialize (Hl _ H1). rewrite Forall_forall in Hl. by apply (Hl _ H2).
Qed.

(** A new freezer. *)
Definition fresh : freezer := match newFreezer NotExist false ∅ false 0 2000 FreezerNoSnappy with Ret (inl f) => f | _ => mkFreezer 0 0 true ∅ ∅ 0 end.

Lemma opens_fresh k : opens ∅ 2000 k (FreezerNoSnappy !! k) (columnsOf [] !! k).
Proof.
  unfold opens, FreezerNoSnappy, columnsOf. rewrite !lookup_insert, !lookup_singleton. repeat case_decide; subst; try done.
  all: match goal with |- context [newTable _ _ _ ?nc _] => destruct (fresh_table 2000 nc ltac:(lia)) as (t & E & Hh & Ho & _); by exists t end.
Qed.

Lemma fresh_holds : freezerHolds fresh 0 (columnsOf []) /\ foffset fresh = 0.
Proof.
  destruct (newFreezer_ok ∅ 0 2000 FreezerNoSnappy (columnsOf [])) as (f & n & E & Hf & Ho & Hn & _); [done|lia|apply opens_fresh|].
  assert (n = 0%nat) as -> by (specialize (Hn freezerHashTable [] eq_refl); cbn in Hn; lia). unfold fresh. change (newFreezer NotExist) with (newFreezer Directory). rewrite E.
  assert (take 0 <$> columnsOf [] = columnsOf []) as En by (unfold columnsOf; by rewrite !fmap_insert, map_fmap_singleton). rewrite En in Hf. split; [exact Hf|exact Ho].
Qed.

Lemma fresh_room : room (fun _ => 2%nat) fresh.
Proof. unfold room. apply (bool_decide_unpack _). vm_compute. exact I. Qed.

Lemma small_short x : len x < 2 ^ 20 -> small x.
Proof. intros Hx. unfold small. cbn [snappyEncode markSnappy]. rewrite length_app. cbn [length]. lia. Qed.

Lemma rows_ok : Forall rowOk [genesis; block1; block2].
Proof.
  repeat (apply Forall_cons_2; [split_and!; [reflexivity|by vm_compute|vm_compute; reflexivity|]; repeat (apply Forall_cons_2; [split; [discriminate|apply small_short; by vm_compute]|]); constructor|]). constructor.
Qed.

Lemma rows_stored : storedFrom before 0 [genesis; block1; block2].
Proof. intros [|[|[|i]]] r; [..|done]; intros [= <-]; split_and!; vm_compute; reflexivity. Qed.

Lemma rows_linked : linked [genesis; block1; block2].
Proof.
  intros [|[|i]] r r' E E'; [..|done]; injection E as <-; injection E' as <-; eexists; (split; [vm_compute; reflexivity|reflexivity]).
Qed.

End ChainFreezerDemo.
Import ChainFreezerDemo.

#[local] Existing Instance markSnappy.

(** Two blocks are moved, the side chain goes with the first of them, and the next block stays. *)
Lemma freezing_is_invisible_witness : exists m' f', freezeRound (Z.to_nat 90010) (Some before) fresh = Ret (Some (mkOutcome false (Some m') f')) /\
  readsRow (mkFreezerDb (Some m') f') 1 block1 /\ readsRow (mkFreezerDb (Some m') f') 2 block2 /\ ReadAllHashes (R := MemoryDB.Database) (Some m') 1 = [] /\
  ReadAllHashes (R := MemoryDB.Database) (Some before) 1 <> [].
Proof.
  destruct fresh_holds as [Hf Ho].
  destruct (freezing_is_invisible before fresh [] [genesis; block1] [block2] 1 headNumber (Z.to_nat 90010)) as (m' & f' & E & _ & Hr & _ & Hgone & _);
    [exact Hf|exact Ho|exact fresh_room|cbn; lia|exact rows_ok|exact rows_stored|exact rows_linked|cbn; lia|exact before_one|exact before_high|unfold headNumber; lia|unfold headNumber; rewrite Z2Nat.id by lia; cbn; lia|vm_compute; reflexivity|vm_compute; reflexivity|].
  exists m', f'. split; [exact E|]. split; [exact (proj2 (Hr 1%nat _ eq_refl))|]. split; [exact (proj2 (Hr 2%nat _ eq_refl))|]. split; [apply Hgone; cbn; lia|]. vm_compute. discriminate.
Defined.
