(* ===== verification/ReceiptsProps.v ===== *)
(** * Properties of receipts, logs and blooms

    The bloom filter has no false negatives and is the union of the filters of the receipts; receipts survive their encodings, on the wire and in the database; and the derived
    fields number the logs of a block and add up its gas. *)

From stdpp Require Import base tactics list gmap strings.
From Stdlib Require Import ZArith Lia.
From S2P Require Import Prelude Bytes RlpRaw RlpLemmas RlpEncode RlpEncodeProps RlpDecode RlpDecodeProps RlpCompound RlpReads TypesRlp TypesRlpProps Trie FreezerTable Freezer KeyValue KeyValueProps Schema SchemaProps Accessors Receipts ChainFreezer AccessorsProps.

Open Scope Z_scope.
Open Scope go_scope.

Import Rlp RlpLemmas RlpEncodeLemmas RlpDecode RlpDecodeLemmas RlpCompound RlpReads RlpEncode TypesRlp TypesRlpLemmas Schema Accessors ChainFreezer AccessorsLemmas Receipts.

Module ReceiptsLemmas.

(** ** Blooms *)

Section Blooms.
Context `{Keccak}.

(** Every index is within the filter. *)
Lemma bloomValues_index d : Forall (fun iv => 0 <= iv.1 < 256) (bloomValues d).
Proof.
  assert (forall x, 0 <= Z.shiftr (Z.land x 0x7ff) 3 < 256) as Hi.
  { intros x. change 0x7ff with (Z.ones 11). rewrite (Z.land_ones x 11) by lia. rewrite Z.shiftr_div_pow2 by lia. pose proof (Z.mod_pos_bound x (2 ^ 11)). split; [apply Z.div_pos; lia|apply Z.div_lt_upper_bound; lia]. }
  unfold bloomValues, BloomByteLength. cbn [Nat.add]. repeat (apply Forall_cons_2; [cbn [fst]; match goal with |- context [Z.land ?x 0x7ff] => specialize (Hi x) end; lia|]). constructor.
Qed.

Lemma length_orByte b iv : length (orByte b iv) = length b.
Proof. apply length_alter. Qed.

Lemma length_add b d : length (add b d) = length b.
Proof. unfold add. generalize (bloomValues d). intros l. revert b. induction l as [|iv l IH]; intros b; [done|]. cbn [foldl]. by rewrite IH, length_orByte. Qed.

(** The bits of [iv] are set. *)
Definition hasBits (b : bytes) (iv : Z * Z) : Prop := iv.2 = Z.land iv.2 (nth (Z.to_nat iv.1) b 0).

Lemma Test_spec b topic : Test b topic = true <-> Forall (hasBits b) (bloomValues topic).
Proof.
  unfold Test. rewrite forallb_forall, Forall_forall. setoid_rewrite list_elem_of_In. unfold hasBits. setoid_rewrite Z.eqb_eq. done.
Qed.

Lemma nth_orByte b iv i : nth i (orByte b iv) 0 = if decide (i = Z.to_nat iv.1 /\ (i < length b)%nat) then Z.lor (nth i b 0) iv.2 else nth i b 0.
Proof.
  rewrite !nth_lookup. unfold orByte. case_decide as Hd.
  - destruct Hd as [-> Hl]. destruct (lookup_lt_is_Some_2 b (Z.to_nat iv.1) Hl) as [x Hx]. rewrite list_lookup_alter_eq, Hx. done.
  - destruct (decide (i = Z.to_nat iv.1)) as [->|Hne]; [|by rewrite list_lookup_alter_ne]. rewrite list_lookup_alter_eq, (lookup_ge_None_2 b) by lia. done.
Qed.

Lemma land_lor_absorb v x : Z.land v (Z.lor x v) = v.
Proof. apply Z.bits_inj'. intros n _. rewrite Z.land_spec, Z.lor_spec. destruct (Z.testbit v n), (Z.testbit x n); done. Qed.

Lemma orByte_sets b iv : (Z.to_nat iv.1 < length b)%nat -> hasBits (orByte b iv) iv.
Proof. intros Hl. unfold hasBits. rewrite nth_orByte, decide_True by done. by rewrite land_lor_absorb. Qed.

Lemma orByte_keeps b iv jv : hasBits b jv -> hasBits (orByte b iv) jv.
Proof.
  unfold hasBits. intros Hb. rewrite nth_orByte. case_decide; [|done]. rewrite Z.land_lor_distr_r, <- Hb. symmetry. apply Z.bits_inj'. intros n _.
  rewrite Z.lor_spec, Z.land_spec. by destruct (Z.testbit jv.2 n), (Z.testbit iv.2 n).
Qed.

Lemma or_all_keeps l b jv : hasBits b jv -> hasBits (foldl orByte b l) jv.
Proof. revert b. induction l as [|iv l IH]; intros b Hb; [done|]. cbn [foldl]. by apply IH, orByte_keeps. Qed.

Lemma or_all_sets l b : Forall (fun iv => Z.to_nat iv.1 < length b)%nat l -> Forall (hasBits (foldl orByte b l)) l.
Proof.
  revert b. induction l as [|iv l IH]; intros b Hl; [constructor|]. apply Forall_cons in Hl as [Hi Hl]. cbn [foldl]. constructor; [by apply or_all_keeps, orByte_sets|].
  apply IH. by rewrite length_orByte.
Qed.

Lemma add_test b d : length b = 256%nat -> Test (add b d) d = true.
Proof. intros Hl. apply Test_spec, or_all_sets. eapply Forall_impl; [apply bloomValues_index|]. intros iv Hi. cbn in Hi |- *. lia. Qed.

Lemma add_keeps b d t : Test b t = true -> Test (add b d) t = true.
Proof. rewrite !Test_spec. intros Ht. eapply Forall_impl; [exact Ht|]. intros jv. apply or_all_keeps. Qed.

Lemma adds_keep l b t : Test b t = true -> Test (foldl add b l) t = true.
Proof. revert b. induction l as [|d l IH]; intros b Hb; [done|]. cbn [foldl]. by apply IH, add_keeps. Qed.

Lemma adds_test l b d : length b = 256%nat -> d ∈ l -> Test (foldl add b l) d = true.
Proof.
  revert b. induction l as [|x l IH]; intros b Hb Hd; [by apply not_elem_of_nil in Hd|]. cbn [foldl].
  apply elem_of_cons in Hd as [->|Hd]; [by apply adds_keep, add_test|]. apply IH; [by rewrite length_add|done].
Qed.

(** What a log puts into the filter, and all logs of the receipts. *)
Definition logItems (l : Log) : list bytes := LogAddress l :: Topics l.
Definition bloomItems (rs : list Receipt) : list bytes := concat (logItems <$> concat (Logs <$> rs)).

Lemma CreateBloom_items rs : CreateBloom rs = foldl add EmptyBloom (bloomItems rs).
Proof.
  unfold CreateBloom, bloomItems. generalize EmptyBloom. induction rs as [|r rs IH]; intros b; [done|]. cbn [foldl fmap list_fmap concat]. rewrite fmap_app, concat_app, foldl_app, <- IH. f_equal.
  generalize (Logs r). clear. intros logs. revert b. induction logs as [|l logs IH]; intros b; [done|]. cbn [foldl fmap list_fmap concat]. rewrite foldl_app, <- IH. done.
Qed.

(** The union of filters. *)
Definition union (a b : bytes) : bytes := zip_with Z.lor a b.

Lemma orByte_union a b iv : length a = length b -> orByte (union a b) iv = union a (orByte b iv).
Proof.
  intros Hl. apply list_eq. intros i. unfold union, orByte. rewrite lookup_zip_with. destruct (decide (i = Z.to_nat iv.1)) as [->|Hne].
  - rewrite !list_lookup_alter_eq, lookup_zip_with. destruct (a !! _) as [x|], (b !! _) as [y|]; try done. cbn. by rewrite Z.lor_assoc.
  - rewrite !list_lookup_alter_ne by done. by rewrite lookup_zip_with.
Qed.

Lemma adds_union l a b : length a = length b -> foldl add (union a b) l = union a (foldl add b l).
Proof.
  revert b. induction l as [|d l IH]; intros b Hl; [done|]. cbn [foldl]. rewrite <- IH by (by rewrite length_add). f_equal. unfold add. revert b Hl. generalize (bloomValues d). clear.
  intros l. induction l as [|iv l IH]; intros b Hl; [done|]. cbn [foldl]. rewrite orByte_union by done. apply IH. by rewrite length_orByte.
Qed.

Lemma union_empty a : length a = 256%nat -> union a EmptyBloom = a.
Proof.
  intros Hl. apply list_eq. intros i. unfold union, EmptyBloom. rewrite lookup_zip_with. destruct (a !! i) as [x|] eqn:E; [|done].
  apply lookup_lt_Some in E. rewrite lookup_replicate_2 by lia. cbn. by rewrite Z.lor_0_r.
Qed.

Lemma length_adds l b : length (foldl add b l) = length b.
Proof. revert b. induction l as [|d l IH]; intros b; [done|]. cbn [foldl]. by rewrite IH, length_add. Qed.

Lemma CreateBloom_app a b : CreateBloom (a ++ b) = union (CreateBloom a) (CreateBloom b).
Proof.
  rewrite !CreateBloom_items. unfold bloomItems. rewrite fmap_app, concat_app, fmap_app, concat_app, foldl_app. set (x := foldl add EmptyBloom _).
  assert (length x = 256%nat) as Hx by (unfold x; by rewrite length_adds). rewrite <- (union_empty x Hx) at 1. by rewrite adds_union.
Qed.

Lemma LogsBloom_one r : CreateBloom [r] = LogsBloom (Logs r).
Proof. done. Qed.

End Blooms.

(** ** Encodings *)

(** A decoder of other values, of which only some come from it. *)
Lemma map_lawful_to {A B} (f : A -> B) (g : B -> A) (d : decoder A) enc good (goodB : B -> Prop) :
  (forall a, good a -> goodB (f a) /\ g (f a) = a) -> (forall b, goodB b -> good (g b) /\ f (g b) = b) ->
  Lawful d enc good -> Lawful (decodeMap f d) (fun b => enc (g b)) goodB.
Proof.
  intros Hgf Hfg L. destruct (lawful_peeks (Lawful := L)) as (Hagain & Herr & Heol). split; unfold decodeMap.
  - split_and!; [intros s; by rewrite Hagain|intros s e s1 HK; by rewrite (Herr _ _ _ HK)|].
    intros s p x s1 s' Hat Hp HK. pose proof (fun s' => Heol s p x s1 s' Hat Hp HK) as Hd. destruct (d s) as [[a|e] s2]; [done|]. specialize (Hd s2). congruence.
  - intros s p b rest Hat Hp Hb E Hf. destruct (Hfg b Hb) as [Hg Efg]. destruct (lawful_ok s p (g b) rest Hat Hp Hg E Hf) as (s' & -> & Hat'). rewrite Efg. by exists s'.
  - intros s p b s' Hat Hp. destruct (d s) as [[a|e] s1] eqn:Hd; [|done]. intros [= <- <-]. destruct (lawful_sound (Lawful := L) s p a s1 Hat Hp Hd) as [Hg H1]. destruct (Hgf a Hg) as [Hb Ea]. by rewrite Ea.
  - intros b Hb. apply (lawful_nonempty (Lawful := L)). by apply Hfg.
  - intros b Hb. apply (lawful_bytes (Lawful := L)). by apply Hfg.
Qed.

Definition encTopics (ts : list bytes) : bytes := encList (encElems encString ts).
Definition topicsOk (ts : list bytes) : Prop := Forall (arrayOk 32) ts /\ shortEnough (encTopics ts).

Definition logFields (l : Log) : bytes := encString (LogAddress l) ++ encTopics (Topics l) ++ encString (LogData l).
Definition encLog (l : Log) : bytes := encList (logFields l).

(** The consensus fields of a log are well formed. *)
Definition logOk (l : Log) : Prop := (arrayOk 20 (LogAddress l) /\ topicsOk (Topics l) /\ strGood (LogData l)) /\ shortEnough (encLog l).

Definition bare (l : Log) : Log := rlpLog (LogAddress l) (Topics l) (LogData l).

Definition logBare (l : Log) : Prop := logOk l /\ l = bare l.

Lemma bare_ok l : logOk l -> logBare (bare l).
Proof. done. Qed.

#[export] Instance log_lawful : Lawful LogDecodeRLP encLog logBare.
Proof.
  assert (Lawful (decodeListSlice decodeHash) encTopics topicsOk) as L1 by apply (list_lawful decodeHash _ _).
  pose proof (struct_lawful _ _ _ (LawfulFields0 := pair_fields _ _ _ _ _ _ decodeAddress_lawful (pair_fields _ _ _ _ _ _ L1 (last_fields _ _ _ Bytes_lawful)))) as L.
  refine (map_lawful_to (fun '(address, (topics, data)) => rlpLog address topics data) (fun l => (LogAddress l, (Topics l, LogData l))) _ _ _ logBare _ _ L).
  - intros (a & ts & d) Hg. split; [|done]. split; [exact Hg|done].
  - intros l [Hok E]. split; [exact Hok|by rewrite E].
Qed.

Lemma log_writes l : logOk l -> encodes (LogEncodeRLP l) (encLog l).
Proof.
  intros ((Ha & [Ht Htl] & Hd) & Hl). apply (encodes_listAs _ [encString (LogAddress l); encTopics (Topics l); encString (LogData l)]).
  - repeat (apply Forall2_cons; split); [by eapply arrayOk_encodes| |by apply encodes_bytes, Hd|constructor]. apply encodes_list; [|by apply concat_short].
    apply Forall2_fmap, Forall_Forall2_diag. eapply Forall_impl; [exact Ht|]. intros t Ht'. by eapply arrayOk_encodes.
  - cbn [concat]. by rewrite app_nil_r.
  - by apply concat_short.
Qed.

(** A list of logs. *)
Definition encLogs (ls : list Log) : bytes := encList (encElems encLog ls).

Lemma logs_write ls : Forall logOk ls -> shortEnough (encLogs ls) -> encodes (writeSlice (LogEncodeRLP <$> ls)) (encLogs ls) /\ encodes (writeList (LogEncodeRLP <$> ls)) (encLogs ls).
Proof.
  intros Hok Hl. assert (Forall2 encodes (LogEncodeRLP <$> ls) (encLog <$> ls)) as Hw.
  { apply Forall2_fmap, Forall_Forall2_diag. eapply Forall_impl; [exact Hok|]. intros l. apply log_writes. }
  split; [apply encodes_slice|apply encodes_list]; done || by apply concat_short.
Qed.

Lemma bare_bytes ls : encElems encLog (bare <$> ls) = encElems encLog ls.
Proof. unfold encElems. by rewrite <- list_fmap_compose. Qed.

(** Stored logs are read in either format, and written in the new one. *)
#[export] Instance storedLog_reads : Reads LogForStorageDecodeRLP encLog logBare.
Proof.
  apply (reads_raw (fun blob => match DecodeBytes LogDecodeRLP blob with Ok l => Ok l | Err _ => DecodeBytes decodeLegacyStorageLog blob end) logFields).
  - intros l Hl. change (encList (logFields l)) with (encLog l). by rewrite (DecodeBytes_reads LogDecodeRLP encLog logBare) by (done || apply Hl).
  - intros l Hl. split; [|apply Hl]. pose proof (lawful_bytes (Lawful := log_lawful) l Hl) as Hb. unfold encLog in Hb. rewrite encList_tag in Hb. by apply Forall_app in Hb as [_ Hb].
Qed.

(** ** Receipts in the database *)

(** A receipt with a status and no post state, or with a post state only. *)
Definition statusOk (r : Receipt) : Prop := (PostState r = [] /\ (Status r = 0 \/ Status r = 1)) \/ (arrayOk 32 (PostState r) /\ Status r = 0).

Lemma setStatus_encoding r : statusOk r -> setStatus (statusEncoding r) = Ok (PostState r, Status r) /\ strGood (statusEncoding r).
Proof.
  unfold setStatus, statusEncoding, receiptStatusFailedRLP, receiptStatusSuccessfulRLP, strGood. intros [[Ep [Es|Es]]|[[Hb Hl] Es]]; rewrite Es.
  - rewrite Ep. split; [done|]. by split.
  - rewrite Ep. split; [done|]. split; [repeat constructor; unfold is_byte; lia|done].
  - destruct (PostState r) as [|x l] eqn:E; [done|]. rewrite <- E in *. rewrite !decide_False by (intros E'; rewrite E' in Hl; done). rewrite Hl. cbn [Nat.eqb]. split; [done|]. split; [done|]. lia.
Qed.

Definition storedFields (r : Receipt) : bytes := encString (statusEncoding r) ++ encUint (CumulativeGasUsed r) ++ encLogs (Logs r).
Definition encStored (r : Receipt) : bytes := encList (storedFields r).

Definition receiptOk (r : Receipt) : Prop := statusOk r /\ in_u64 (CumulativeGasUsed r) /\ Forall logOk (Logs r) /\ shortEnough (encStored r).

Lemma stored_writes r : receiptOk r -> encodes (ReceiptForStorageEncodeRLP r) (encStored r).
Proof.
  intros (Hs & Hg & Hl & Hsh). destruct (shortEnough_app _ _ _ Hsh) as (Hs1 & _ & Hs3). apply (encodes_listAs _ [encString (statusEncoding r); encUint (CumulativeGasUsed r); encLogs (Logs r)]).
  - repeat (apply Forall2_cons; split); [apply encodes_bytes; by apply setStatus_encoding|by apply encodes_uint|by apply logs_write|constructor].
  - cbn [concat]. by rewrite app_nil_r.
  - by apply concat_short.
Qed.

Section Storage.
Context `{Keccak}.

(** What is left of a receipt in the database. *)
Definition storedForm (r : Receipt) : Receipt := withBloom (PostState r) (Status r) (CumulativeGasUsed r) (bare <$> Logs r) zeroHash zeroAddress 0.

Definition storedGood (r : Receipt) : Prop := receiptOk r /\ r = storedForm r.

Lemma logs_bare (ls : list Log) : ls = bare <$> ls -> Forall logOk ls -> Forall logBare ls.
Proof.
  intros E Hok. rewrite E. apply Forall_fmap. eapply Forall_impl; [exact Hok|]. intros l. apply bare_ok.
Qed.

Lemma bare_idem (ls : list Log) : bare <$> (bare <$> ls) = bare <$> ls.
Proof. by rewrite <- list_fmap_compose. Qed.

Lemma storedForm_good r : receiptOk r -> storedGood (storedForm r) /\ encStored (storedForm r) = encStored r.
Proof.
  intros (Hs & Hg & Hl & Hsh). assert (encStored (storedForm r) = encStored r) as E.
  { unfold encStored, storedFields, encLogs. cbn [storedForm withBloom statusEncoding PostState Status CumulativeGasUsed Logs]. by rewrite bare_bytes. }
  split; [|done]. split; [split_and!; [exact Hs|exact Hg| |by rewrite E]|].
  - cbn [storedForm withBloom Logs]. apply Forall_fmap. eapply Forall_impl; [exact Hl|]. by intros l Hl'.
  - unfold storedForm, withBloom. cbn [PostState Status CumulativeGasUsed Logs]. by rewrite bare_idem.
Qed.

Lemma stored_tuple_reads : Reads (decodeStruct (decodeByteSlice +++ decodeUint64 +++ decodeField (decodeListSlice LogForStorageDecodeRLP)))
  (fun x => encList (encString x.1 ++ encUint x.2.1 ++ encLogs x.2.2))
  (fun x => (strGood x.1 /\ in_u64 x.2.1 /\ Forall logBare x.2.2 /\ shortEnough (encLogs x.2.2)) /\ shortEnough (encList (encString x.1 ++ encUint x.2.1 ++ encLogs x.2.2))).
Proof.
  exact (reads_struct _ _ _ (ReadsFields0 := reads_pair _ _ _ _ _ _ (lawful_reads _ _ _ Bytes_lawful) (reads_pair _ _ _ _ _ _ (lawful_reads _ _ _ decodeUint64_lawful)
    (reads_field _ _ _ (reads_list LogForStorageDecodeRLP encLog logBare))))).
Qed.

Lemma decodeStored_ok r : storedGood r -> decodeStoredReceiptRLP (encStored r) = Ok r.
Proof.
  intros [(Hs & Hg & Hl & Hsh) E]. unfold decodeStoredReceiptRLP. destruct (setStatus_encoding r Hs) as [Es Hst]. assert (Logs r = bare <$> Logs r) as El by (rewrite E at 1; done).
  pose proof (DecodeBytes_reads _ _ _ (Reads0 := stored_tuple_reads) (statusEncoding r, (CumulativeGasUsed r, Logs r))) as Hd. cbn [fst snd] in Hd.
  change (encList (encString (statusEncoding r) ++ encUint (CumulativeGasUsed r) ++ encLogs (Logs r))) with (encStored r) in Hd. rewrite Hd; [|split; [split_and!|]|done]; try done.
  - rewrite Es. rewrite E at 5. unfold storedForm. by rewrite <- El.
  - by apply logs_bare.
  - destruct (shortEnough_app _ _ _ Hsh) as (_ & _ & Hs3). done.
Qed.

#[export] Instance storedReceipt_reads : Reads ReceiptForStorageDecodeRLP encStored storedGood.
Proof.
  apply (reads_raw (fun blob => match decodeStoredReceiptRLP blob with
       | Ok r => Ok r
       | Err _ => match decodeV3StoredReceiptRLP blob with Ok r => Ok r | Err _ => decodeV4StoredReceiptRLP blob end
       end) storedFields).
  - intros r Hr. change (encList (storedFields r)) with (encStored r). by rewrite decodeStored_ok.
  - intros r [(Hs & Hg & Hl & Hsh) E]. split; [|done]. unfold storedFields, encLogs. assert (Logs r = bare <$> Logs r) as El by (rewrite E at 1; done). pose proof (logs_bare _ El Hl) as Hlb.
    pose proof (reads_bytes (Reads := stored_tuple_reads) (statusEncoding r, (CumulativeGasUsed r, Logs r))) as Hb. cbn [fst snd] in Hb. rewrite encList_tag in Hb.
    assert (Forall is_byte (tag KList (length (storedFields r)) ++ storedFields r)) as Hb'; [apply Hb|by apply Forall_app in Hb' as [_ ?]].
    destruct (shortEnough_app _ _ _ Hsh) as (_ & _ & Hs3). split; [split_and!; [by apply setStatus_encoding|done|done|done]|done].
Qed.

End Storage.

(** ** Receipts on the wire *)

Definition receiptTuple (r : Receipt) : bytes * (Z * (bytes * list Log)) := (statusEncoding r, (CumulativeGasUsed r, (RBloom r, Logs r))).

Definition tupleFields (x : bytes * (Z * (bytes * list Log))) : bytes := encString x.1 ++ encUint x.2.1 ++ encString x.2.2.1 ++ encLogs x.2.2.2.
Definition encReceipt (r : Receipt) : bytes := encList (tupleFields (receiptTuple r)).

Definition typeOk (r : Receipt) : Prop := RType r = 0 \/ RType r = 1 \/ RType r = 2.

Definition wireOk (r : Receipt) : Prop :=
  typeOk r /\ statusOk r /\ in_u64 (CumulativeGasUsed r) /\ arrayOk 256 (RBloom r) /\ Forall logOk (Logs r) /\ Z.of_nat (length (encReceipt r)) + 16 < 2 ^ 64.

(** What of a receipt is sent. *)
Definition wireForm (r : Receipt) : Receipt := consensus (RType r) (PostState r) (Status r) (CumulativeGasUsed r) (RBloom r) (bare <$> Logs r).

Definition tupleGood (x : bytes * (Z * (bytes * list Log))) : Prop :=
  (strGood x.1 /\ in_u64 x.2.1 /\ arrayOk 256 x.2.2.1 /\ Forall logBare x.2.2.2 /\ shortEnough (encLogs x.2.2.2)) /\ shortEnough (encList (tupleFields x)).

#[export] Instance receiptRLP_lawful : Lawful decodeReceiptRLP (fun x => encList (tupleFields x)) tupleGood.
Proof.
  assert (Lawful (decodeListSlice LogDecodeRLP) encLogs (fun ls => Forall logBare ls /\ shortEnough (encLogs ls))) as L1 by apply (list_lawful LogDecodeRLP _ _).
  exact (struct_lawful _ _ _ (LawfulFields0 := pair_fields _ _ _ _ _ _ Bytes_lawful (pair_fields _ _ _ _ _ _ decodeUint64_lawful (pair_fields _ _ _ _ _ _ decodeBloom_lawful (last_fields _ _ _ L1))))).
Qed.

Lemma shortEnough_app4 a b c d : shortEnough (encList (a ++ b ++ c ++ d)) -> shortEnough d.
Proof. unfold shortEnough. rewrite encList_taglen, !length_app. unfold taglen. lia. Qed.

Lemma receiptRLP_writes r : wireOk r -> encodes (receiptRLP r) (encReceipt r).
Proof.
  intros (_ & Hs & Hg & Hb & Hl & Hsh). assert (shortEnough (encReceipt r)) as Hsh' by (unfold shortEnough; lia). pose proof (shortEnough_app4 _ _ _ _ Hsh') as Hs4.
  apply (encodes_listAs _ [encString (statusEncoding r); encUint (CumulativeGasUsed r); encString (RBloom r); encLogs (Logs r)]).
  - repeat (apply Forall2_cons; split); [apply encodes_bytes; by apply setStatus_encoding|by apply encodes_uint|apply encodes_array; destruct Hb as [_ ->]; done|by apply logs_write|constructor].
  - cbn [concat]. by rewrite app_nil_r.
  - by apply concat_short.
Qed.

Lemma wireForm_tuple r : wireOk r -> tupleGood (receiptTuple (wireForm r)) /\ encReceipt (wireForm r) = encReceipt r /\ wireOk (wireForm r).
Proof.
  intros (Ht & Hs & Hg & Hb & Hl & Hsh). assert (encReceipt (wireForm r) = encReceipt r) as E.
  { unfold encReceipt, tupleFields, receiptTuple, encLogs. cbn [wireForm consensus statusEncoding PostState Status CumulativeGasUsed RBloom Logs fst snd]. by rewrite bare_bytes. }
  assert (Forall logOk (Logs (wireForm r))) as Hl' by (cbn [wireForm consensus Logs]; apply Forall_fmap; eapply Forall_impl; [exact Hl|]; by intros l Hl').
  assert (shortEnough (encReceipt (wireForm r))) as Hsh' by (rewrite E; unfold shortEnough; lia). split; [|split; [done|]; unfold wireOk; rewrite E; by split_and!].
  split; [split_and!|done]; [by apply setStatus_encoding|exact Hg|exact Hb| |by eapply shortEnough_app4].
  cbn [receiptTuple wireForm consensus Logs fst snd]. apply logs_bare; [by rewrite bare_idem|done].
Qed.

Lemma setFromRLP_ok r : wireOk r -> setFromRLP (RType r) (receiptTuple (wireForm r)) = Ok (wireForm r).
Proof. intros (_ & Hs & _). unfold setFromRLP, receiptTuple. change (statusEncoding (wireForm r)) with (statusEncoding r). by destruct (setStatus_encoding r Hs) as [-> _]. Qed.

(** What decoding the fields leaves. *)
Lemma setFromRLP_sound t x r : tupleGood x -> setFromRLP t x = Ok r -> receiptTuple r = x /\ RType r = t /\ statusOk r /\ wireForm r = r.
Proof.
  destruct x as (st & gas & bloom & logs). intros ((Hst & Hg & Hb & Hl & _) & _). cbn [fst snd] in *. assert (bare <$> logs = logs) as El.
  { clear -Hl. induction Hl as [|l ls [_ E] _ IH]; [done|]. cbn. by rewrite IH, <- E. }
  unfold setFromRLP, setStatus, receiptStatusSuccessfulRLP, receiptStatusFailedRLP. repeat case_decide; subst; [..|destruct (Nat.eqb_spec (length st) 32); [|done]]; intros [= <-];
    unfold receiptTuple, wireForm, statusEncoding, statusOk; cbn [consensus PostState Status CumulativeGasUsed RBloom Logs RType].
  - rewrite El. split_and!; try done. left. split; [done|by right].
  - rewrite El. split_and!; try done. left. split; [done|by left].
  - rewrite El. split_and!; try done; [by destruct st|]. right. split; [split; [apply Hst|done]|done].
Qed.

Definition encBinaryReceipt (r : Receipt) : bytes := (if RType r =? 0 then [] else [RType r]) ++ encReceipt r.

Lemma marshal_ok r : wireOk r -> MarshalBinary r = Ret (Ok (encBinaryReceipt r)) /\ EncodeIndex r = Ret (encBinaryReceipt r).
Proof.
  intros Hok. pose proof (proj1 Hok) as Ht. unfold MarshalBinary, EncodeIndex, encodeTyped, encBinaryReceipt. rewrite (encodes_EncodeToBytes _ _ (receiptRLP_writes r Hok)). destruct Ht as [-> | [-> | ->]]; done.
Qed.

Lemma encReceipt_bytes r : wireOk r -> Forall is_byte (encReceipt r).
Proof. intros Hok. destruct (wireForm_tuple r Hok) as (Hg & <- & _). by apply (lawful_bytes (Lawful := receiptRLP_lawful)). Qed.

Lemma decodeTyped_ok r : wireOk r -> RType r <> 0 -> Receipts.decodeTyped (RType r :: encReceipt r) = Ok (wireForm r).
Proof.
  intros Hok Hne. destruct (wireForm_tuple r Hok) as (Hg & E & Hok'). unfold Receipts.decodeTyped. pose proof (proj1 Hok) as Ht.
  assert ((RType r =? 1) || (RType r =? 2) = true) as -> by (destruct Ht as [?|[->| ->]]; done). rewrite <- E. unfold encReceipt.
  rewrite (proj2 (DecodeBytes_lawful _ _ _ _ (receiptTuple (wireForm r)) (lawful_bytes (Lawful := receiptRLP_lawful) _ Hg) (proj2 Hg))) by done. by apply setFromRLP_ok.
Qed.

Lemma encList_head payload : exists x l, encList payload = x :: l /\ 0xc0 <= x.
Proof.
  unfold encList, Rlp.header. case_decide as Hd; eexists _, _; (split; [done|]); [lia|]. destruct (bytelen_spec (Z.of_nat (length payload))) as (k & Hk & _); [lia|]. rewrite length_minimal, Hk. lia.
Qed.

Lemma unmarshal_ok r : wireOk r -> Receipts.UnmarshalBinary (encBinaryReceipt r) = Ok (wireForm r).
Proof.
  intros Hok. destruct (wireForm_tuple r Hok) as (Hg & E & Hok'). unfold encBinaryReceipt, Receipts.UnmarshalBinary. destruct (Z.eqb_spec (RType r) 0) as [Ht|Ht]; cbn [app].
  - destruct (encList_head (tupleFields (receiptTuple r))) as (x & l & Ex & Hx). fold (encReceipt r) in Ex. rewrite Ex, (proj2 (Z.ltb_lt _ _)) by lia. rewrite <- Ex, <- E. unfold encReceipt.
    rewrite (proj2 (DecodeBytes_lawful _ _ _ _ (receiptTuple (wireForm r)) (lawful_bytes (Lawful := receiptRLP_lawful) _ Hg) (proj2 Hg))) by done. rewrite <- Ht. by apply setFromRLP_ok.
  - pose proof (proj1 Hok) as Hty. unfold typeOk in Hty. rewrite (proj2 (Z.ltb_ge _ _)) by lia. by apply decodeTyped_ok.
Qed.

(** The typed receipts are strings, the others lists. *)
Definition encWire (r : Receipt) : bytes := if RType r =? 0 then encReceipt r else encString (encBinaryReceipt r).

Lemma encBinary_typed r : wireOk r -> RType r <> 0 -> encBinaryReceipt r = RType r :: encReceipt r /\ strGood (encBinaryReceipt r).
Proof.
  intros Hok Ht. assert (encBinaryReceipt r = RType r :: encReceipt r) as Eb by (unfold encBinaryReceipt; by rewrite (proj2 (Z.eqb_neq _ _)) by done). split; [done|]. rewrite Eb.
  pose proof (encReceipt_bytes r Hok) as Hb. destruct Hok as (Hty & _ & _ & _ & _ & Hsh). unfold typeOk in Hty. split; [constructor; [unfold is_byte; lia|done]|cbn [length]; lia].
Qed.

Lemma encWire_short r : wireOk r -> Z.of_nat (length (encWire r)) < 2 ^ 64.
Proof.
  intros Hok. unfold encWire. destruct (Z.eqb_spec (RType r) 0) as [Ht|Ht]; [destruct Hok as (_ & _ & _ & _ & _ & Hsh); lia|].
  destruct (encBinary_typed r Hok Ht) as [Eb Hstr]. pose proof (encString_bound _ (proj2 Hstr)) as Hbd. destruct Hok as (_ & _ & _ & _ & _ & Hsh). rewrite Eb in Hbd |- *. cbn [length] in Hbd. lia.
Qed.

Lemma receipt_writes r : wireOk r -> encodes (ReceiptEncodeRLP r) (encWire r).
Proof.
  intros Hok. unfold encWire. destruct (Z.eqb_spec (RType r) 0) as [Ht|Ht].
  - destruct (receiptRLP_writes r Hok) as (segs & Hw & Hs). exists segs. split; [|done]. intros buf. unfold ReceiptEncodeRLP. rewrite Ht. apply Hw.
  - destruct (encBinary_typed r Hok Ht) as [Eb Hstr]. destruct (encodes_bytes _ (proj2 Hstr)) as (segs & Hw & Hs). exists segs. split; [|done]. intros buf. unfold ReceiptEncodeRLP.
    rewrite (proj2 (Z.eqb_neq _ _)) by done. destruct (marshal_ok r Hok) as [Hm _]. unfold MarshalBinary in Hm. rewrite (proj2 (Z.eqb_neq _ _)) in Hm by done. rewrite Hm. apply Hw.
Qed.

Definition wireGood (r : Receipt) : Prop := wireOk r /\ wireForm r = r.

Lemma receipt_reads_list s p r rest : RlpDecodeLemmas.at_ s p -> proper p -> wireGood r -> RType r = 0 -> inp p = encReceipt r ++ rest -> fits (Z.of_nat (length (encReceipt r))) p ->
  exists s', ReceiptDecodeRLP s = (Ok r, s') /\ RlpDecodeLemmas.at_ s' (advance (Z.of_nat (length (encReceipt r))) p rest).
Proof.
  intros Hat Hp [Hok Ef] Ht E Hf. destruct (wireForm_tuple r Hok) as (Hg & _). rewrite Ef in Hg.
  destruct (lawful_ok (Lawful := receiptRLP_lawful) s p (receiptTuple r) rest Hat Hp Hg E Hf) as (s' & Hd & Hat'). exists s'. split; [|exact Hat'].
  pose proof (proj1 (lawful_peeks (Lawful := receiptRLP_lawful)) s) as Hpk. unfold ReceiptDecodeRLP. assert (exists n s1, Kind_ s = (Ok (KList, n), s1)) as (n & s1 & HK).
  { unfold decodeReceiptRLP, decodeStruct, List_ in Hd. destruct (Kind_ s) as [[[[] n]|e] s1]; try done. by eexists _, _. }
  rewrite HK in *. cbn [snd] in Hpk. rewrite Hpk, Hd, <- Ht. pose proof (setFromRLP_ok r Hok) as Hset. rewrite Ef in Hset. by rewrite Hset.
Qed.

Lemma receipt_reads_string s p r rest : RlpDecodeLemmas.at_ s p -> proper p -> wireGood r -> RType r <> 0 -> inp p = encString (encBinaryReceipt r) ++ rest -> fits (Z.of_nat (length (encString (encBinaryReceipt r)))) p ->
  exists s', ReceiptDecodeRLP s = (Ok r, s') /\ RlpDecodeLemmas.at_ s' (advance (Z.of_nat (length (encString (encBinaryReceipt r)))) p rest).
Proof.
  intros Hat Hp [Hok Ef] Ht E Hf. destruct (encBinary_typed r Hok Ht) as [Eb Hstr].
  destruct (lawful_ok (Lawful := Bytes_lawful) s p (encBinaryReceipt r) rest Hat Hp Hstr E Hf) as (s' & Hd & Hat'). exists s'. split; [|exact Hat'].
  pose proof (proj1 (lawful_peeks (Lawful := Bytes_lawful)) s) as Hpk. unfold decodeByteSlice in *. unfold ReceiptDecodeRLP. assert (exists n s1, Kind_ s = (Ok (KString, n), s1)) as (n & s1 & HK).
  { unfold RlpDecode.Bytes in Hd. destruct (Kind_ s) as [[[[] n]|e] s1]; [|by eexists _, _|done|done]. injection Hd as Hx _. rewrite Eb in Hx. apply (f_equal length) in Hx.
    pose proof (encList_ne (tupleFields (receiptTuple r))) as Hne. fold (encReceipt r) in Hne. cbn in Hx. by destruct (encReceipt r). }
  rewrite HK in *. cbn [snd] in Hpk. rewrite Hpk, Hd, Eb, decodeTyped_ok by done. by rewrite Ef.
Qed.

#[export] Instance receipt_reads : Reads ReceiptDecodeRLP encWire wireGood.
Proof.
  split.
  - intros s e s1 HK. unfold ReceiptDecodeRLP. by rewrite HK.
  - intros s p r rest Hat Hp Hg E Hf. unfold encWire in *. destruct (Z.eqb_spec (RType r) 0); [by apply receipt_reads_list|by apply receipt_reads_string].
  - intros r [Hok _]. unfold encWire. destruct (Z.eqb_spec (RType r) 0) as [Ht|Ht]; [apply encList_ne|]. apply (lawful_nonempty (Lawful := Bytes_lawful)). by apply encBinary_typed.
  - intros r [Hok _]. unfold encWire. destruct (Z.eqb_spec (RType r) 0) as [Ht|Ht]; [by apply encReceipt_bytes|]. apply (lawful_bytes (Lawful := Bytes_lawful)). by apply encBinary_typed.
Qed.

Lemma wireForm_good r : wireOk r -> wireGood (wireForm r) /\ encWire (wireForm r) = encWire r.
Proof.
  intros Hok. destruct (wireForm_tuple r Hok) as (_ & E & Hok'). split; [split; [done|]|].
  - unfold wireForm. cbn [consensus RType PostState Status CumulativeGasUsed RBloom Logs]. by rewrite bare_idem.
  - unfold encWire, encBinaryReceipt. by rewrite E.
Qed.

Lemma receipt_rlp_ok r : wireOk r -> exists out, EncodeToBytes (ReceiptEncodeRLP r) = Ret (Ok out) /\ DecodeBytes ReceiptDecodeRLP out = Ok (wireForm r).
Proof.
  intros Hok. exists (encWire r). destruct (wireForm_good r Hok) as [Hg E]. split; [by apply encodes_EncodeToBytes, receipt_writes|]. rewrite <- E. apply (DecodeBytes_reads _ _ _ (wireForm r) Hg). rewrite E. by apply encWire_short.
Qed.

(** Bytes that are read as a receipt. *)
Lemma unmarshal_sound b r : Forall is_byte b -> Z.of_nat (length b) + 16 < 2 ^ 64 -> Receipts.UnmarshalBinary b = Ok r -> wireOk r /\ wireForm r = r /\ MarshalBinary r = Ret (Ok b).
Proof.
  intros Hb Hl Hu. assert (forall t rest, Forall is_byte rest -> Z.of_nat (length rest) + 16 < 2 ^ 64 -> (t = 0 \/ t = 1 \/ t = 2) ->
    match DecodeBytes decodeReceiptRLP rest with Ok dec => setFromRLP t dec | Err e => Err e end = Ok r -> wireOk r /\ wireForm r = r /\ RType r = t /\ rest = encReceipt r) as Hcase.
  { intros t rest Hr Hlr Ht. destruct (DecodeBytes decodeReceiptRLP rest) as [x|e] eqn:Hd; [|done]. apply (DecodeBytes_lawful _ _ _) in Hd as [Hg ->]; [|done|lia]. intros Hs.
    destruct (setFromRLP_sound t x r Hg Hs) as (Ex & Et & Hst & Ew). subst t x. assert (encList (tupleFields (receiptTuple r)) = encReceipt r) as E by done. rewrite E in *.
    destruct Hg as ((_ & Hg & Hbl & Hlb & _) & _). cbn [receiptTuple fst snd] in Hg, Hbl, Hlb. split; [|done]. unfold wireOk. split_and!; try done. eapply Forall_impl; [exact Hlb|]. by intros l [? _]. }
  assert (wireOk r /\ wireForm r = r /\ b = encBinaryReceipt r) as (Hok & Hw & ->); [|split_and!; [done|done|by apply marshal_ok]].
  unfold Receipts.UnmarshalBinary, Receipts.decodeTyped in Hu. unfold encBinaryReceipt. destruct b as [|t rest]; [done|]. destruct (0x7f <? t).
  - destruct (Hcase 0 (t :: rest)) as (Hok & Hw & Et & E); [done|done|by left|done|]. rewrite Et. by split_and!.
  - destruct ((t =? 1) || (t =? 2)) eqn:Ht; [|done]. apply Forall_cons in Hb as [_ Hb]. cbn [length] in Hl. assert (t = 1 \/ t = 2) as Ht' by (apply orb_true_iff in Ht as [?%Z.eqb_eq|?%Z.eqb_eq]; [by left|by right]).
    destruct (Hcase t rest) as (Hok & Hw & Et & E); [done|lia|by right|done|]. rewrite Et, (proj2 (Z.eqb_neq _ _)) by lia. cbn [app]. split_and!; [done|done|congruence].
Qed.

(** ** Derived fields *)

Section Derived.
Context `{Keccak}.

Lemma CreateAddress_ok b nonce : arrayOk 20 b -> in_u64 nonce -> exists a, CreateAddress b nonce = Ret a /\ length a = 20%nat.
Proof.
  intros [_ Hl] Hn. unfold CreateAddress. assert (Forall2 encodes [writeByteArray b; writeUint nonce] [encString b; encUint nonce]) as Hw.
  { repeat (apply Forall2_cons; split); [apply encodes_array; lia|by apply encodes_uint|constructor]. }
  rewrite (encodes_EncodeToBytes _ _ (encodes_slice _ _ Hw ltac:(cbn [concat]; rewrite !length_app; pose proof (encString_bound b); pose proof (encString_bound (minimal nonce)) as H2;
    unfold encUint; rewrite length_minimal in H2; pose proof (bytelen_le nonce 8 Hn); cbn [length]; lia))).
  eexists. split; [done|]. rewrite length_drop, keccak_length. done.
Qed.

Lemma TransactionHash_ok tx : innerOk (inner tx) -> exists h, TransactionHash keccak tx = Ret h.
Proof. intros Hok. unfold TransactionHash, rlpHash. rewrite (encodes_EncodeToBytes _ _ (inner_writes _ Hok)). by eexists. Qed.

Lemma txNonce_ok tx : innerOk tx -> in_u64 (txNonce tx).
Proof. intros [Hok _]. destruct tx; cbn [txNonce]; cbv beta iota in Hok; tauto. Qed.

Lemma length_deriveLogs number hash txHash i k ls : length (deriveLogs number hash txHash i k ls) = length ls.
Proof. revert k. induction ls as [|l ls IH]; intros k; [done|]. cbn [deriveLogs length]. by rewrite IH. Qed.

(** The indices of the logs, and what else is filled in. *)
Lemma deriveLogs_spec number hash txHash i k ls : 0 <= k -> k + Z.of_nat (length ls) < 2 ^ 64 ->
  (Index <$> deriveLogs number hash txHash i k ls) = (fun j => k + Z.of_nat j) <$> seq 0 (length ls) /\
  (bare <$> deriveLogs number hash txHash i k ls) = (bare <$> ls) /\
  Forall (fun l => LogBlockNumber l = number /\ LogBlockHash l = hash /\ LogTxHash l = txHash /\ TxIndex l = i) (deriveLogs number hash txHash i k ls).
Proof.
  revert k. induction ls as [|l ls IH]; intros k Hk Hl; [done|]. cbn [deriveLogs length] in *. assert (u64 (k + 1) = k + 1) as -> by (unfold u64; apply Z.mod_small; lia).
  destruct (IH (k + 1)) as (H1 & H2 & H3); [lia|lia|]. cbn [fmap list_fmap seq]. split_and!.
  - cbn [logAt Index]. f_equal; [lia|]. change (list_fmap _ _ Index (deriveLogs number hash txHash i (k + 1) ls)) with (Index <$> deriveLogs number hash txHash i (k + 1) ls). rewrite H1. rewrite <- fmap_S_seq. rewrite <- list_fmap_compose.
    apply list_fmap_ext. intros j x _. cbn. lia.
  - f_equal. exact H2.
  - constructor; [done|exact H3].
Qed.

(** The receipt [r'] of the transaction [tx] of the block, filled in from [r]. *)
Definition derivedFrom (hash : bytes) (number i : Z) (tx : Transaction) (r r' : Receipt) : Prop :=
  RType r' = txType (inner tx) /\ TransactionHash keccak tx = Ret (RTxHash r') /\ RBlockHash r' = hash /\ RBlockNumber r' = Some number /\ TransactionIndex r' = i /\
  PostState r' = PostState r /\ Status r' = Status r /\ CumulativeGasUsed r' = CumulativeGasUsed r /\ RBloom r' = RBloom r /\ (bare <$> Logs r') = (bare <$> Logs r) /\
  Forall (fun l => LogBlockNumber l = number /\ LogBlockHash l = hash /\ LogTxHash l = RTxHash r' /\ TxIndex l = i) (Logs r').

(** The cumulative gas does not fall. *)
Fixpoint grows (g : Z) (rs : list Receipt) : Prop :=
  match rs with [] => True | r :: rs => g <= CumulativeGasUsed r < 2 ^ 64 /\ grows (CumulativeGasUsed r) rs end.

Definition finalGas (g : Z) (rs : list Receipt) : Z := foldl (fun _ r => CumulativeGasUsed r) g rs.

Definition logCount (rs : list Receipt) : nat := length (concat (Logs <$> rs)).

Context (sender : Transaction -> bytes) (Hsender : forall tx, arrayOk 20 (sender tx)) (hash : bytes) (number : Z).

Lemma deriveReceipt_ok i k before tx r : innerOk (inner tx) -> 0 <= k -> k + Z.of_nat (length (Logs r)) < 2 ^ 64 ->
  exists r', deriveReceipt sender hash number i k before tx r = Ret r' /\ derivedFrom hash number i tx r r' /\
    (Index <$> Logs r') = ((fun j => k + Z.of_nat j) <$> seq 0 (length (Logs r))) /\ RGasUsed r' = match before with None => CumulativeGasUsed r | Some g => u64 (CumulativeGasUsed r - g) end.
Proof.
  intros Hok Hk Hl. unfold deriveReceipt. destruct (TransactionHash_ok tx Hok) as [h Eh]. rewrite Eh. destruct (deriveLogs_spec number hash h i k (Logs r) Hk Hl) as (H1 & H2 & H3).
  assert (exists a, match txTo (inner tx) with None => CreateAddress (sender tx) (txNonce (inner tx)) | Some _ => Ret (ContractAddress r) end = Ret a) as [a ->].
  { destruct (txTo (inner tx)); [by eexists|]. destruct (CreateAddress_ok (sender tx) (txNonce (inner tx)) (Hsender tx) (txNonce_ok _ Hok)) as (a & -> & _). by eexists. }
  eexists. split; [done|]. unfold derivedFrom. cbn [RType RTxHash RBlockHash RBlockNumber TransactionIndex PostState Status CumulativeGasUsed RBloom Logs RGasUsed]. by split_and!.
Qed.

Lemma deriveLoop_ok txs : forall rs i k before, length txs = length rs -> Forall (fun tx => innerOk (inner tx)) txs -> 0 <= k -> k + Z.of_nat (logCount rs) < 2 ^ 64 ->
  exists rs', deriveLoop sender hash number i k before txs rs = Ret rs' /\ length rs' = length rs /\
    (forall j r', rs' !! j = Some r' -> exists tx r, txs !! j = Some tx /\ rs !! j = Some r /\ derivedFrom hash number (i + Z.of_nat j) tx r r') /\
    (Index <$> concat (Logs <$> rs')) = ((fun j => k + Z.of_nat j) <$> seq 0 (logCount rs)) /\
    (0 <= default 0 before -> grows (default 0 before) rs -> foldr Z.add 0 (RGasUsed <$> rs') = finalGas (default 0 before) rs - default 0 before).
Proof.
  induction txs as [|tx txs IH]; intros [|r rs] i k before Hlen Hok Hk Hl; try done.
  - exists []. split_and!; try done. cbn. lia.
  - apply Forall_cons in Hok as [Htx Hok]. unfold logCount in *. cbn [fmap list_fmap concat] in *. rewrite length_app in *. cbn [length] in Hlen.
    destruct (deriveReceipt_ok i k before tx r Htx Hk ltac:(lia)) as (r' & Er & Hd & Hidx & Hgas). cbn [deriveLoop]. rewrite Er.
    assert (u64 (k + Z.of_nat (length (Logs r))) = k + Z.of_nat (length (Logs r))) as -> by (unfold u64; apply Z.mod_small; lia).
    destruct (IH rs (i + 1) (k + Z.of_nat (length (Logs r))) (Some (CumulativeGasUsed r))) as (rs' & -> & Hlen' & Hall & Hidx' & Hsum); [lia|done|lia|fold (list_fmap _ _ Logs rs); lia|].
    exists (r' :: rs'). split_and!; [done|cbn [length]; lia| | |].
    + intros [|j] x Ex; cbn in Ex; [injection Ex as <-; exists tx, r; by rewrite Z.add_0_r|]. destruct (Hall j x Ex) as (tx' & r0 & E1 & E2 & Hx). exists tx', r0.
      split_and!; [done|done|]. by replace (i + Z.of_nat (S j)) with (i + 1 + Z.of_nat j) by lia.
    + cbn [fmap list_fmap concat]. change (list_fmap _ _ Index (Logs r' ++ ?l)) with (Index <$> (Logs r' ++ l)). rewrite fmap_app, Hidx.
      change (list_fmap _ _ Logs rs') with (Logs <$> rs'). rewrite Hidx', seq_app, fmap_app. f_equal. rewrite Nat.add_0_l. set (c := length (concat _)).
      replace (seq (length (Logs r)) c) with (Nat.add (length (Logs r)) <$> seq 0 c) by (by rewrite fmap_add_seq, Nat.add_0_r). rewrite <- list_fmap_compose. apply list_fmap_ext. intros j x _. cbn. lia.
    + cbn [default from_option id] in Hsum. cbn [grows finalGas foldl fmap list_fmap foldr]. intros H0 [Hg Hgs]. fold (finalGas (CumulativeGasUsed r) rs). change (list_fmap _ _ RGasUsed rs') with (RGasUsed <$> rs').
      rewrite Hsum by (done || lia). rewrite Hgas. destruct before as [g|]; cbn [default from_option id] in *; [|lia]. unfold u64. rewrite Z.mod_small by lia. lia.
Qed.

(** The logs by themselves are derived in the same way. *)
Lemma deriveLogsLoop_ok txs : forall rs i k before rs', deriveLoop sender hash number i k before txs rs = Ret rs' -> deriveLogsLoop hash number i k txs (Logs <$> rs) = Ret (Logs <$> rs').
Proof.
  induction txs as [|tx txs IH]; intros [|r rs] i k before rs'; cbn [deriveLoop deriveLogsLoop fmap list_fmap]; try (by intros [= <-]). unfold deriveReceipt.
  destruct (TransactionHash keccak tx) as [h|]; [|done]. cbn beta iota. destruct (match txTo (inner tx) with Some _ => _ | None => _ end) as [a|]; [|done]. cbn beta iota.
  destruct (deriveLoop _ _ _ _ _ _ txs rs) as [rest|] eqn:E; [|done]. intros [= <-]. change (list_fmap _ _ Logs rs) with (Logs <$> rs). by rewrite (IH _ _ _ _ _ E).
Qed.

Lemma DeriveFields_ok txs rs :
  length txs = length rs -> Forall (fun tx => innerOk (inner tx)) txs -> Z.of_nat (logCount rs) < 2 ^ 64 ->
  exists rs', DeriveFields sender hash number txs rs = Ret (Some rs') /\ length rs' = length rs /\
    (forall j r', rs' !! j = Some r' -> exists tx r, txs !! j = Some tx /\ rs !! j = Some r /\ derivedFrom hash number (Z.of_nat j) tx r r') /\
    (Index <$> concat (Logs <$> rs')) = (Z.of_nat <$> seq 0 (logCount rs)) /\
    (grows 0 rs -> foldr Z.add 0 (RGasUsed <$> rs') = finalGas 0 rs) /\
    deriveLogFields hash number txs (Logs <$> rs) = Ret (Some (Logs <$> rs')).
Proof.
  intros Hlen Hok Hl. destruct (deriveLoop_ok txs rs 0 0 None Hlen Hok) as (rs' & E & Hlen' & Hall & Hidx & Hsum); [lia|lia|].
  exists rs'. unfold DeriveFields, deriveLogFields. rewrite length_fmap, Hlen, Nat.eqb_refl. cbn [negb]. rewrite E, (deriveLogsLoop_ok txs rs 0 0 None rs' E). split_and!; try done.
  intros Hg. rewrite Hsum by (done || cbn; lia). cbn. lia.
Qed.

End Derived.

Lemma logCount_stored `{Keccak} rs : logCount (storedForm <$> rs) = logCount rs.
Proof.
  unfold logCount. induction rs as [|r rs IH]; [done|]. cbn [fmap list_fmap concat] in *. rewrite !length_app, IH. cbn [storedForm withBloom Logs]. by rewrite length_fmap.
Qed.

(** ** Lists of receipts in the database *)

Lemma listSlice_map {A B} (f : A -> B) (d : decoder A) b l : DecodeBytes (decodeListSlice d) b = Ok l -> DecodeBytes (decodeListSlice (decodeMap f d)) b = Ok (f <$> l).
Proof.
  assert (forall fuel s, decodeElems fuel (decodeMap f d) s = match decodeElems fuel d s with (Ok l, s) => (Ok (f <$> l), s) | (Err e, s) => (Err e, s) end) as Hel.
  { induction fuel as [|fuel IH]; intros s; cbn [decodeElems]; unfold decodeMap; (destruct (d s) as [[a|e] s1]; [|by destruct e]); [done|].
    fold (decodeMap f d). rewrite IH. by destruct (decodeElems fuel d s1) as [[?|?] ?]. }
  unfold DecodeBytes, decodeListSlice, decodeSliceElems. destruct (List_ _) as [[n|e] s]; [|done]. unfold closeList. destruct (n =? 0).
  - destruct (ListEnd s) as [[?|?] s1]; [|done]. case_decide; [|done]. by intros [= <-].
  - rewrite Hel. destruct (decodeElems _ d s) as [[l'|?] s1]; [|done]. destruct (ListEnd s1) as [[?|?] s2]; [|done]. case_decide; [|done]. by intros [= <-].
Qed.

Section Lists.
Context `{Keccak} (rs : list Receipt) (Hok : Forall receiptOk rs) (Hsh : shortEnough (encList (encElems encStored rs))).

Lemma storedForms_bytes : encElems encStored (storedForm <$> rs) = encElems encStored rs.
Proof. clear Hsh. unfold encElems. induction Hok as [|r l Hr Hl IH]; [done|]. cbn [fmap list_fmap concat] in *. rewrite (proj2 (storedForm_good r Hr)). f_equal. by apply IH. Qed.

Lemma receipts_encode : encodes (receiptsWriter rs) (encList (encElems encStored rs)).
Proof. apply encodes_slice; [|by apply concat_short]. apply Forall2_fmap, Forall_Forall2_diag. eapply Forall_impl; [exact Hok|]. intros r. apply stored_writes. Qed.

Lemma receipts_decode : DecodeBytes (decodeListSlice ReceiptForStorageDecodeRLP) (encList (encElems encStored rs)) = Ok (storedForm <$> rs).
Proof.
  rewrite <- storedForms_bytes. rewrite <- storedForms_bytes in Hsh. apply (DecodeBytes_reads _ _ _ (Reads0 := reads_list ReceiptForStorageDecodeRLP encStored storedGood)); [|done].
  split; [|done]. apply Forall_fmap. eapply Forall_impl; [exact Hok|]. intros r Hr. by apply storedForm_good.
Qed.

Definition storedTuple (r : Receipt) : bytes * (Z * list Log) := (statusEncoding r, (CumulativeGasUsed r, bare <$> Logs r)).

Lemma logs_decode : DecodeBytes (decodeListSlice decodeReceiptLogs) (encList (encElems encStored rs)) = Ok (Logs <$> (storedForm <$> rs)).
Proof.
  set (enc := fun x : bytes * (Z * list Log) => encList (encString x.1 ++ encUint x.2.1 ++ encLogs x.2.2)).
  assert (encElems encStored rs = encElems enc (storedTuple <$> rs)) as E.
  { unfold encElems. rewrite <- list_fmap_compose. f_equal. apply list_fmap_ext. intros _ r _. unfold encStored, storedFields, enc, storedTuple, encLogs. cbn [compose fst snd]. by rewrite bare_bytes. }
  assert (Logs <$> (storedForm <$> rs) = (fun '(_, (_, logs)) => logs) <$> (storedTuple <$> rs)) as -> by (rewrite <- !list_fmap_compose; apply list_fmap_ext; by intros).
  rewrite E in *. apply listSlice_map, (DecodeBytes_reads _ _ _ (Reads0 := reads_list _ _ _ (Reads0 := stored_tuple_reads))); [|done].
  split; [|done]. apply Forall_fmap. eapply Forall_impl; [exact Hok|]. intros r (Hs & Hg & Hl & Hr). unfold storedTuple. cbn [fst snd compose]. 
  unfold encLogs. rewrite bare_bytes. fold (encLogs (Logs r)). split; [|exact Hr]. split_and!; [by apply setStatus_encoding|done| |by apply (shortEnough_app _ _ _ Hr)].
  apply logs_bare; [by rewrite bare_idem|]. apply Forall_fmap. eapply Forall_impl; [exact Hl|]. by intros l Hl'.
Qed.

End Lists.

End ReceiptsLemmas.
Import ReceiptsLemmas.

(** ** The theorems *)

Section ReceiptTheorems.
Context `{Keccak}.

(** C35: Blooms. The filter of receipts finds the address and every topic of each of their logs: it has no false negatives. And it is the union of the filters of the single
    receipts, as the header of a block promises. *)
Theorem bloom_has_no_false_negatives rs :
  (forall r l, r ∈ rs -> l ∈ Logs r -> Test (CreateBloom rs) (LogAddress l) = true /\ forall t, t ∈ Topics l -> Test (CreateBloom rs) t = true) /\
  CreateBloom rs = foldr union EmptyBloom ((fun r => LogsBloom (Logs r)) <$> rs).
Proof.
  split.
  - intros r l Hr Hl. assert (forall d, d ∈ logItems l -> Test (CreateBloom rs) d = true) as Hd.
    { intros d Hd. rewrite CreateBloom_items. apply adds_test; [done|]. unfold bloomItems. apply list_elem_of_In, in_concat. exists (logItems l). split; [|by apply list_elem_of_In].
      apply list_elem_of_In, list_elem_of_fmap. exists l. split; [done|]. apply list_elem_of_In, in_concat. exists (Logs r). split; [|by apply list_elem_of_In]. apply list_elem_of_In, list_elem_of_fmap. by exists r. }
    split; [apply Hd, list_elem_of_here|]. intros t Ht. by apply Hd, list_elem_of_further.
  - induction rs as [|r rs IH]; [done|]. cbn [fmap list_fmap foldr]. rewrite <- IH. exact (CreateBloom_app [r] rs).
Qed.

(** C34: Receipts on the wire. A receipt of a known type is read back from its binary form and from its RLP form with its consensus fields, and the entry for the derived hash is
    its binary form; and bytes that are read as a receipt are the binary form of it, so there is one only. *)
Theorem receipt_codec r b :
  (wireOk r -> (exists out, MarshalBinary r = Ret (Ok out) /\ EncodeIndex r = Ret out /\ Receipts.UnmarshalBinary out = Ok (wireForm r)) /\
    exists out, EncodeToBytes (ReceiptEncodeRLP r) = Ret (Ok out) /\ DecodeBytes ReceiptDecodeRLP out = Ok (wireForm r)) /\
  (Forall is_byte b -> Z.of_nat (length b) + 16 < 2 ^ 64 -> Receipts.UnmarshalBinary b = Ok r -> wireOk r /\ wireForm r = r /\ MarshalBinary r = Ret (Ok b)).
Proof.
  split; [|apply unmarshal_sound]. intros Hok. split; [|by apply receipt_rlp_ok]. exists (encBinaryReceipt r). destruct (marshal_ok r Hok). split_and!; [done|done|by apply unmarshal_ok].
Qed.

(** Derived fields. For a block's transactions and receipts, as many of one as of the other, every receipt gets the type and hash of its transaction, its place in the block, and the logs the
    same place; the logs of the block are numbered consecutively; and the gas of the receipts adds up to the cumulative gas of the last. *)
Theorem derived_fields (sender : Transaction -> bytes) hash number txs rs :
  (forall tx, arrayOk 20 (sender tx)) -> length txs = length rs -> Forall (fun tx => innerOk (inner tx)) txs -> Z.of_nat (logCount rs) < 2 ^ 64 ->
  exists rs', DeriveFields sender hash number txs rs = Ret (Some rs') /\ length rs' = length rs /\
    (forall j r', rs' !! j = Some r' -> exists tx r, txs !! j = Some tx /\ rs !! j = Some r /\ derivedFrom hash number (Z.of_nat j) tx r r') /\
    (Index <$> concat (Logs <$> rs')) = (Z.of_nat <$> seq 0 (logCount rs)) /\
    (grows 0 rs -> foldr Z.add 0 (RGasUsed <$> rs') = finalGas 0 rs) /\
    deriveLogFields hash number txs (Logs <$> rs) = Ret (Some (Logs <$> rs')).
Proof.
  intros Hs. by apply (DeriveFields_ok sender Hs).
Qed.

(** C15: Receipts in the database. What [WriteReceipts] stores, to a store or a batch, is read back with status, gas, the consensus fields of the logs and a bloom computed from them, and nothing else in the
    database changes. With the body of the block stored beside, as many transactions as receipts, [ReadReceipts] fills the receipts in, and [ReadLogs], which skips everything but the logs, gives the logs
    of these receipts. *)
Theorem receipts_are_stored {W} `{LawfulWriter W} (sender : Transaction -> bytes) hash number rs w :
  (forall tx, arrayOk 20 (sender tx)) -> Forall receiptOk rs -> shortEnough (encList (encElems encStored rs)) -> isHash hash -> in_u64 number -> usable w ->
  exists w', WriteReceipts hash number rs w = Ret w' /\ usable w' /\ forall m, let db := mkNoFreeze (Some (effect w' m)) in
    ReadRawReceipts db hash number = Ret (Some (storedForm <$> rs)) /\
    (forall d, valid d -> d <> DReceipts number hash -> at_ (effect w' m) d = at_ (effect w m) d) /\
    (forall body, ReadBody db hash number = Ret (Some body) -> length (Transactions body) = length rs -> Forall (fun tx => innerOk (inner tx)) (Transactions body) -> Z.of_nat (logCount rs) < 2 ^ 64 ->
      exists rs', ReadReceipts sender db hash number = Ret (Some rs') /\ ReadLogs sender db hash number = Ret (Some (Logs <$> rs')) /\ length rs' = length rs /\
        forall j r', rs' !! j = Some r' -> exists tx r, Transactions body !! j = Some tx /\ rs !! j = Some r /\ derivedFrom hash number (Z.of_nat j) tx (storedForm r) r').
Proof.
  intros Hs Hok Hsh Hh Hn Hw. destruct (store_performs (blockReceiptsKey number hash) (encList (encElems encStored rs)) w Hw) as (w' & E & Hw' & Hm). exists w'.
  unfold WriteReceipts. rewrite (encoded_ok _ _ (receipts_encode rs Hok Hsh)), E. split_and!; [done|done|]. intros m. cbv zeta. set (db := mkNoFreeze _).
  change (blockReceiptsKey number hash) with (keyOf (DReceipts number hash)) in Hm. assert (valid (DReceipts number hash)) as Hv by done.
  assert (ReadReceiptsRLP db hash number = Ret (encList (encElems encStored rs))) as Er.
  { unfold db. rewrite Hm. match goal with |- context [mkNoFreeze (Some ?mm)] => destruct (plain_reads mm number hash) as (_ & _ & _ & -> & _) end. rewrite datum_insert by done. by rewrite decide_True. }
  assert (ReadRawReceipts db hash number = Ret (Some (storedForm <$> rs))) as Eraw.
  { unfold ReadRawReceipts. rewrite Er. rewrite (nonempty_match (encList _)) by apply encList_ne. by rewrite (receipts_decode rs Hok Hsh). }
  split_and!; [done| |].
  - intros d Hd Hne. rewrite Hm, datum_insert by done. by rewrite decide_False by congruence.
  - intros body Eb Hlen Htx Hl. rewrite <- (length_fmap storedForm) in Hlen. rewrite <- (logCount_stored rs) in Hl.
    destruct (DeriveFields_ok sender Hs hash number (Transactions body) (storedForm <$> rs) Hlen Htx Hl) as (rs' & Ed & Elen & Hall & _ & _ & Elogs). exists rs'.
    unfold ReadReceipts, ReadLogs. rewrite Eraw, Er, Eb. rewrite (nonempty_match (encList _)) by apply encList_ne. rewrite (logs_decode rs Hok Hsh). split_and!; [done|done|by rewrite Elen, length_fmap|].
    intros j r' Hj. destruct (Hall j r' Hj) as (tx & r & Htx' & Hr & Hd). apply list_lookup_fmap_Some in Hr as (r0 & -> & Hr0). eauto.
Qed.

End ReceiptTheorems.

(** ** A receipt with a log *)

#[local] Instance some_keccak : Keccak.
Proof.
  refine {| keccak b := if decide (b = [0x80]) then emptyRoot else replicate 32 9 |}.
  - intros b. by destruct (decide _).
  - intros b. destruct (decide _); [repeat constructor; unfold is_byte; lia|by apply Forall_replicate].
  - by rewrite decide_True.
Defined.

Definition exLog : Log := mkLog (replicate 20 4) [replicate 32 1; replicate 32 2] [1; 2] 0 zeroHash 0 zeroHash 0 false.
Definition exReceipt : Receipt := mkReceipt 2 [] 1 21000 (LogsBloom [exLog]) [exLog] zeroHash zeroAddress 0 zeroHash None 0.

Lemma exLog_ok : logOk exLog.
Proof.
  split; [split_and!|by vm_compute]; [by apply replicate_ok| |split; [repeat constructor; unfold is_byte; lia|by vm_compute]].
  split; [|by vm_compute]. repeat apply Forall_cons_2; [by apply replicate_ok..|constructor].
Qed.

Lemma exReceipt_ok : receiptOk exReceipt.
Proof. split_and!; [left; split; [done|by right]|split; done|by apply Forall_singleton, exLog_ok|by vm_compute]. Qed.

Lemma exReceipt_wire : wireOk exReceipt.
Proof.
  split_and!; [by right; right| | | |by apply Forall_singleton, exLog_ok|by vm_compute].
  - left. split; [done|by right].
  - split; done.
  - split; [|by vm_compute]. apply (bool_decide_unpack _). vm_compute. exact I.
Qed.

Lemma receipt_codec_witness : exists out, MarshalBinary exReceipt = Ret (Ok out) /\ Receipts.UnmarshalBinary out = Ok (wireForm exReceipt).
Proof. destruct (proj1 (receipt_codec exReceipt []) exReceipt_wire) as [(out & E1 & _ & E2) _]. eauto. Defined.

Lemma derived_fields_witness : exists r', DeriveFields (fun _ => replicate 20 5) (replicate 32 6) 7 [mkTransaction exTx None] [exReceipt] = Ret (Some [r']) /\ RGasUsed r' = 21000.
Proof.
  destruct (derived_fields (fun _ => replicate 20 5) (replicate 32 6) 7 [mkTransaction exTx None] [exReceipt]) as (rs' & E & Hlen & _ & _ & Hg & _);
    [intros _; by apply replicate_ok|done|by apply Forall_singleton, exTx_ok|by vm_compute|].
  destruct rs' as [|r' [|? ?]]; [discriminate Hlen| |discriminate Hlen]. exists r'. split; [exact E|]. cbn [grows finalGas foldl fmap list_fmap foldr CumulativeGasUsed exReceipt] in Hg. lia.
Defined.

Lemma receipts_are_stored_witness : exists w', WriteReceipts (replicate 32 6) 7 [exReceipt] MemoryDB.New = Ret w' /\ ReadRawReceipts (mkNoFreeze (Some (effect w' ∅))) (replicate 32 6) 7 = Ret (Some [storedForm exReceipt]).
Proof.
  destruct (receipts_are_stored (fun _ => replicate 20 5) (replicate 32 6) 7 [exReceipt] MemoryDB.New) as (w' & E & _ & Hm);
    [intros _; by apply replicate_ok|by apply Forall_singleton, exReceipt_ok|by vm_compute|by apply replicate_ok|split; done|by eexists|].
  exists w'. split; [exact E|]. apply Hm.
Defined.
