(* ===== verification/EthPackets.v ===== *)
(** * Packets of the eth protocol (src/eth/protocols/eth/protocol.go)

    The messages of eth/66 and eth/67 with their codes, and the RLP encoding of each: what [p2p.Send] writes for a packet and what a handler
    decodes for a code. A request and its reply carry an identifier. Replies for which the node has encoded values at hand are written from
    raw values. *)

From stdpp Require Import base tactics list gmap strings.
From Stdlib Require Import ZArith Lia.
From S2P Require Import Prelude Bytes RlpRaw RlpEncode RlpDecode TypesRlp Trie ForkId KeyValue Schema Accessors Receipts.

Open Scope Z_scope.
Open Scope go_scope.

Import Rlp RlpDecode RlpEncode TypesRlp Accessors Receipts.

Module EthPackets.

Definition ETH66 : Z := 66.
Definition ETH67 : Z := 67.
Definition maxMessageSize : Z := 10 * 1024 * 1024.

Definition StatusMsg : Z := 0x00.
Definition NewBlockHashesMsg : Z := 0x01.
Definition TransactionsMsg : Z := 0x02.
Definition GetBlockHeadersMsg : Z := 0x03.
Definition BlockHeadersMsg : Z := 0x04.
Definition GetBlockBodiesMsg : Z := 0x05.
Definition BlockBodiesMsg : Z := 0x06.
Definition NewBlockMsg : Z := 0x07.
Definition NewPooledTransactionHashesMsg : Z := 0x08.
Definition GetPooledTransactionsMsg : Z := 0x09.
Definition PooledTransactionsMsg : Z := 0x0a.
Definition UpgradeStatusMsg : Z := 0x0b.
Definition GetNodeDataMsg : Z := 0x0d.
Definition NodeDataMsg : Z := 0x0e.
Definition GetReceiptsMsg : Z := 0x0f.
Definition ReceiptsMsg : Z := 0x10.

(** The number of codes of a version. *)
Definition protocolLengths (version : Z) : Z := if version =? ETH67 then 18 else if version =? ETH66 then 17 else 0.

(** ** The status messages *)

Record StatusPacket := mkStatus {
  ProtocolVersion : Z;
  NetworkID : Z;
  StatusTD : option Z;
  StatusHead : bytes;
  Genesis : bytes;
  ForkID : ForkId.ID
}.

Definition writeForkID (id : ForkId.ID) : writer := writeStruct [writeByteArray (ForkId.Hash id); writeUint (ForkId.Next id)].
Definition decodeForkID : decoder ForkId.ID := decodeMap (fun '(h, n) => ForkId.mkID h n) (decodeStruct (decodeByteArray 4 +++ decodeField decodeUint64)).

Definition writeStatus (p : StatusPacket) : writer :=
  writeStruct [writeUint (ProtocolVersion p); writeUint (NetworkID p); writeBigIntPtr (StatusTD p); writeByteArray (StatusHead p); writeByteArray (Genesis p); writeForkID (ForkID p)].

Definition decodeStatus : decoder StatusPacket :=
  decodeMap (fun '(version, (network, (td, (head, (genesis, forkID))))) => mkStatus version network td head genesis forkID)
    (decodeStruct (decodeUint 32 +++ decodeUint64 +++ decodeBig +++ decodeHash +++ decodeHash +++ decodeField decodeForkID)).

(** [UpgradeStatusExtension], by its only field. *)
Definition writeExtension (disablePeerTxBroadcast : bool) : writer := writeStruct [writeBoolValue disablePeerTxBroadcast].
Definition decodeExtension : decoder bool := decodeStruct (decodeField decodeBool).

Definition ExtensionEncode (disablePeerTxBroadcast : bool) : go (res bytes) := EncodeToBytes (writeExtension disablePeerTxBroadcast).

(** A packet without an extension means the zero value. *)
Definition GetExtension (extension : option bytes) : res bool :=
  match extension with None => Ok false | Some raw => DecodeBytes decodeExtension raw end.

(** [UpgradeStatusPacket], whose only field may be nil. *)
Definition writeUpgradeStatus (extension : option bytes) : writer := writeStruct [writePtr KString (writeRawValue <$> extension)].
Definition decodeUpgradeStatus : decoder (option bytes) := decodeStruct (decodeField (decodeNilPtr KString decodeRawValue)).

(** ** Header queries *)

Record HashOrNumber := mkOrigin { OriginHash : bytes; OriginNumber : Z }.

Definition HashOrNumberEncodeRLP (hn : HashOrNumber) : writer :=
  if decide (OriginHash hn = zeroHash) then writeUint (OriginNumber hn)
  else if negb (OriginNumber hn =? 0) then fun _ => Ret (Err errBothOrigins)
  else writeByteArray (OriginHash hn).

Definition HashOrNumberDecodeRLP : decoder HashOrNumber := fun s =>
  match Kind_ s with
  | (Err e, s) => (Err e, s)
  | (Ok (_, size), s) =>
      if size =? 32 then decodeMap (fun h => mkOrigin h 0) decodeHash s
      else if size <=? 8 then decodeMap (fun n => mkOrigin zeroHash n) decodeUint64 s
      else (Err errOriginSize, s)
  end.

Record GetBlockHeadersPacket := mkQuery { Origin : HashOrNumber; Amount : Z; Skip : Z; Reverse : bool }.

Definition writeQuery (q : GetBlockHeadersPacket) : writer :=
  writeStruct [HashOrNumberEncodeRLP (Origin q); writeUint (Amount q); writeUint (Skip q); writeBoolValue (Reverse q)].

Definition decodeQuery : decoder GetBlockHeadersPacket :=
  decodeMap (fun '(origin, (amount, (skip, reverse))) => mkQuery origin amount skip reverse)
    (decodeStruct (HashOrNumberDecodeRLP +++ decodeUint64 +++ decodeUint64 +++ decodeField decodeBool)).

(** ** Packets *)

(** A request or reply of eth/66: the identifier and the packet. *)
Definition write66 (id : Z) (w : writer) : writer := writeStruct [writeUint id; w].
Definition decode66 {A} (d : decoder A) : decoder (Z * A) := decodeStruct (decodeUint64 +++ decodeField d).

Definition writeHashes (hashes : list bytes) : writer := writeSlice (writeByteArray <$> hashes).
Definition decodeHashes : decoder (list bytes) := decodeListSlice decodeHash.

Definition writeAnnounces (anns : list (bytes * Z)) : writer := writeSlice ((fun ann => writeStruct [writeByteArray ann.1; writeUint ann.2]) <$> anns).
Definition decodeAnnounces : decoder (list (bytes * Z)) := decodeListSlice (decodeStruct (decodeHash +++ decodeField decodeUint64)).

Definition writeTransactions (txs : list Transaction) : writer := writeSlice (TransactionEncodeRLP <$> txs).
Definition decodeTransactions : decoder (list Transaction) := decodeListSlice TransactionDecodeRLP.

Definition writeNewBlock (block : Block) (td : option Z) : writer := writeStruct [BlockEncodeRLP block; writeBigIntPtr td].
Definition decodeNewBlock : decoder (Block * option Z) := decodeStruct (BlockDecodeRLP +++ decodeField decodeBig).

(** The pointers in a packet are never nil: the decoder allocates what they point to. *)
Inductive packet :=
| Status_ (status : StatusPacket)
| UpgradeStatus (extension : option bytes)
| NewBlockHashes (anns : list (bytes * Z))
| Transactions_ (txs : list Transaction)
| NewBlock (block : Block) (td : option Z)
| NewPooledTransactionHashes (hashes : list bytes)
| GetBlockHeaders (id : Z) (query : GetBlockHeadersPacket)
| BlockHeaders (id : Z) (headers : list Header)
| GetBlockBodies (id : Z) (hashes : list bytes)
| BlockBodies (id : Z) (bodies : list Body)
| GetNodeData (id : Z) (hashes : list bytes)
| NodeData (id : Z) (nodes : list bytes)
| GetReceipts (id : Z) (hashes : list bytes)
| Receipts_ (id : Z) (receipts : list (list Receipt))
| GetPooledTransactions (id : Z) (hashes : list bytes)
| PooledTransactions (id : Z) (txs : list Transaction).

Definition Kind_of (pk : packet) : Z :=
  match pk with
  | Status_ _ => StatusMsg
  | UpgradeStatus _ => UpgradeStatusMsg
  | NewBlockHashes _ => NewBlockHashesMsg
  | Transactions_ _ => TransactionsMsg
  | NewBlock _ _ => NewBlockMsg
  | NewPooledTransactionHashes _ => NewPooledTransactionHashesMsg
  | GetBlockHeaders _ _ => GetBlockHeadersMsg
  | BlockHeaders _ _ => BlockHeadersMsg
  | GetBlockBodies _ _ => GetBlockBodiesMsg
  | BlockBodies _ _ => BlockBodiesMsg
  | GetNodeData _ _ => GetNodeDataMsg
  | NodeData _ _ => NodeDataMsg
  | GetReceipts _ _ => GetReceiptsMsg
  | Receipts_ _ _ => ReceiptsMsg
  | GetPooledTransactions _ _ => GetPooledTransactionsMsg
  | PooledTransactions _ _ => PooledTransactionsMsg
  end.

Definition writePacket (pk : packet) : writer :=
  match pk with
  | Status_ status => writeStatus status
  | UpgradeStatus extension => writeUpgradeStatus extension
  | NewBlockHashes anns => writeAnnounces anns
  | Transactions_ txs => writeTransactions txs
  | NewBlock block td => writeNewBlock block td
  | NewPooledTransactionHashes hashes => writeHashes hashes
  | GetBlockHeaders id query => write66 id (writeQuery query)
  | BlockHeaders id headers => write66 id (writeSlice (HeaderEncodeRLP <$> headers))
  | BlockBodies id bodies => write66 id (writeSlice (BodyEncodeRLP <$> bodies))
  | NodeData id nodes => write66 id (writeSlice (writeByteSlice <$> nodes))
  | Receipts_ id receipts => write66 id (writeSlice ((fun rs => writeSlice (ReceiptEncodeRLP <$> rs)) <$> receipts))
  | PooledTransactions id txs => write66 id (writeTransactions txs)
  | GetBlockBodies id hashes | GetNodeData id hashes | GetReceipts id hashes | GetPooledTransactions id hashes => write66 id (writeHashes hashes)
  end.

(** What is decoded for a code; [None] for a code that no packet has. *)
Definition decodePacket (code : Z) : option (decoder packet) :=
  if code =? StatusMsg then Some (decodeMap Status_ decodeStatus)
  else if code =? UpgradeStatusMsg then Some (decodeMap UpgradeStatus decodeUpgradeStatus)
  else if code =? NewBlockHashesMsg then Some (decodeMap NewBlockHashes decodeAnnounces)
  else if code =? TransactionsMsg then Some (decodeMap Transactions_ decodeTransactions)
  else if code =? NewBlockMsg then Some (decodeMap (uncurry NewBlock) decodeNewBlock)
  else if code =? NewPooledTransactionHashesMsg then Some (decodeMap NewPooledTransactionHashes decodeHashes)
  else if code =? GetBlockHeadersMsg then Some (decodeMap (uncurry GetBlockHeaders) (decode66 decodeQuery))
  else if code =? BlockHeadersMsg then Some (decodeMap (uncurry BlockHeaders) (decode66 (decodeListSlice decodeHeader)))
  else if code =? GetBlockBodiesMsg then Some (decodeMap (uncurry GetBlockBodies) (decode66 decodeHashes))
  else if code =? BlockBodiesMsg then Some (decodeMap (uncurry BlockBodies) (decode66 (decodeListSlice decodeBody)))
  else if code =? GetNodeDataMsg then Some (decodeMap (uncurry GetNodeData) (decode66 decodeHashes))
  else if code =? NodeDataMsg then Some (decodeMap (uncurry NodeData) (decode66 (decodeListSlice decodeByteSlice)))
  else if code =? GetReceiptsMsg then Some (decodeMap (uncurry GetReceipts) (decode66 decodeHashes))
  else if code =? ReceiptsMsg then Some (decodeMap (uncurry Receipts_) (decode66 (decodeListSlice (decodeListSlice ReceiptDecodeRLP))))
  else if code =? GetPooledTransactionsMsg then Some (decodeMap (uncurry GetPooledTransactions) (decode66 decodeHashes))
  else if code =? PooledTransactionsMsg then Some (decodeMap (uncurry PooledTransactions) (decode66 decodeTransactions))
  else None.

(** [BlockHeadersRLPPacket66] and the other replies of raw values. *)
Definition writeRawReply (id : Z) (raws : list bytes) : writer := write66 id (writeSlice (writeRawValue <$> raws)).

(** ** Messages *)

(** [p2p.Msg] as the protocol sees it: the code, the announced size and the payload. *)
Record Msg := mkMsg { Code : Z; Size : Z; Payload : bytes }.

(** [p2p.Send]: what is written to the connection, or the error of the encoder. *)
Definition Send (code : Z) (w : writer) : go (res Msg) :=
  let! out := EncodeToBytes w in
  Ret match out with Ok payload => Ok (mkMsg code (u32 (Z.of_nat (length payload))) payload) | Err e => Err e end.

(** [Msg.Decode]: the first value of the payload; what follows it is not looked at. *)
Definition MsgDecode {A} (d : decoder A) (m : Msg) : res A := (d (Reset (Payload m) (Size m))).1.

End EthPackets.
