(* ===== verification/EthPacketsProps.v ===== *)
(** * The packets of the eth protocol survive the wire *)

From stdpp Require Import base tactics list gmap strings.
From Stdlib Require Import ZArith Lia.
From S2P Require Import Prelude Bytes RlpRaw RlpLemmas RlpEncode RlpEncodeProps RlpDecode RlpDecodeProps RlpCompound RlpReads TypesRlp TypesRlpProps RlpCodec Trie ForkId KeyValue Accessors AccessorsProps Receipts ReceiptsProps EthPackets.

Open Scope Z_scope.
Open Scope go_scope.

Import Rlp RlpLemmas RlpEncode RlpEncodeLemmas RlpDecode RlpDecodeLemmas RlpCompound RlpReads TypesRlp TypesRlpLemmas RlpCodec Accessors Receipts EthPackets.
Import AccessorsLemmas ReceiptsLemmas.

Module EthPacketsLemmas.

(** ** Plain values *)

Lemma codec_uint64 : Codec writeUint decodeUint64 encUint in_u64 id.
Proof. apply codec_lawful; [apply decodeUint64_lawful|apply encodes_uint]. Qed.

Definition in_u32 (v : Z) : Prop := 0 <= v < 2 ^ 32.

Lemma codec_uint32 : Codec writeUint (decodeUint 32) encUint in_u32 id.
Proof. apply codec_lawful; [apply (uint_lawful 4); lia|]. intros v Hv. apply encodes_uint. unfold in_u32, in_u64 in *. lia. Qed.

Lemma codec_bool : Codec writeBoolValue decodeBool (fun b => encUint (if b : bool then 1 else 0)) (fun _ => True) id.
Proof. apply codec_lawful; [apply Bool_lawful|]. intros b _. apply encodes_bool. Qed.

Lemma codec_array n : (n <> 1)%nat -> Z.of_nat n < 2 ^ 64 -> Lawful (decodeByteArray n) encString (arrayOk n) -> Codec writeByteArray (decodeByteArray n) encString (arrayOk n) id.
Proof. intros _ Hn L. apply codec_lawful; [done|]. intros b [_ Hl]. apply encodes_array. lia. Qed.

Lemma codec_hash : Codec writeByteArray decodeHash encString (arrayOk 32) id.
Proof. apply (codec_array 32); [done|done|apply decodeHash_lawful]. Qed.

Lemma codec_big : Codec writeBigIntPtr decodeBig (fun o => encUint (default 0 o)) bigOk id.
Proof. apply codec_lawful; [apply decodeBig_lawful|apply bigOk_encodes]. Qed.

Lemma codec_bytes : Codec writeByteSlice decodeByteSlice encString strGood id.
Proof. apply codec_lawful; [apply Bytes_lawful|]. intros b Hb. apply encodes_bytes, Hb. Qed.

(** ** Headers, transactions, blocks, bodies and receipts *)

Lemma codec_header : Codec HeaderEncodeRLP decodeHeader encHeader headerOk id.
Proof. apply codec_lawful; [apply decodeHeader_lawful|apply header_writes]. Qed.

Definition sendable (tx : Transaction) : Prop := innerOk (inner tx) /\ shortEnough (encBinary (inner tx)).

(** Decoding leaves the size of a transaction in its cache. *)
Definition settleTx (tx : Transaction) : Transaction := setDecoded (inner tx) (decodedSize (inner tx)).

Lemma codec_tx : Codec TransactionEncodeRLP TransactionDecodeRLP (fun tx => encTx (inner tx)) sendable settleTx.
Proof.
  split.
  - intros tx [H1 H2] _. by apply transaction_writes.
  - eapply reads_iff; [|apply lawful_reads, transaction_lawful]. intros tx [[[H1 H2] E] _]. by split_and!.
  - intros tx [H1 H2]. unfold sendable, settleTx. by rewrite inner_setDecoded.
Qed.

Lemma codec_txs : Codec writeTransactions decodeTransactions encTxs (Forall sendable) (fmap settleTx).
Proof. exact (codec_slice _ _ _ _ _ codec_tx). Qed.

Lemma codec_headers : Codec (fun l => writeSlice (HeaderEncodeRLP <$> l)) (decodeListSlice decodeHeader) encHeaders (Forall headerOk) (fmap id).
Proof. exact (codec_slice _ _ _ _ _ codec_header). Qed.

Lemma codec_block : Codec BlockEncodeRLP BlockDecodeRLP encBlock blockOk sized.
Proof.
  split.
  - intros b Hb _. by apply block_writes.
  - eapply reads_iff; [|apply lawful_reads, block_lawful]. intros b [[Hb E] _]. rewrite <- E. by apply sized_ok.
  - intros b Hb. destruct (sized_ok b Hb) as (H1 & H2 & H3). destruct (ok_sized (sized b) H1 H2 H3) as [H4 H5]. split_and!; [done|done|]. unfold encBlock. by rewrite sized_fields.
Qed.

Definition bodySendable (b : Body) : Prop := Forall sendable (Transactions b) /\ Forall headerOk (Uncles b).
Definition settleBody (b : Body) : Body := mkBody (settleTx <$> Transactions b) (Uncles b).

Lemma codec_body : Codec BodyEncodeRLP decodeBody encBody bodySendable settleBody.
Proof.
  pose proof (codec_map (fun '(txs, us) => mkBody txs us) (fun b => (Transactions b, Uncles b)) _ _ _ _ _ ltac:(by intros []) ltac:(by intros [])
    (codec_struct _ _ _ _ _ (codec_pair _ _ _ _ _ _ _ _ _ _ codec_txs (codec_last _ _ _ _ _ codec_headers)))) as C.
  split; [apply (codec_writes (Codec := C))|eapply reads_iff; [|apply (codec_reads (Codec := C))]|].
  - intros b [[Hb E] Hs]. split; [split; [done|]|done]. cbn [fst snd]. rewrite list_fmap_id. exact E.
  - intros b Hb. destruct (codec_settle (Codec := C) b Hb) as (H1 & H2 & H3). cbn [fst snd] in *. rewrite !list_fmap_id in *. done.
Qed.

Lemma codec_receipt : Codec ReceiptEncodeRLP ReceiptDecodeRLP encWire wireOk wireForm.
Proof.
  split.
  - intros r Hr _. by apply receipt_writes.
  - eapply reads_iff; [|apply receipt_reads]. by intros r [[Hr E] _].
  - intros r Hr. destruct (wireForm_good r Hr) as [[H1 H2] H3]. done.
Qed.

(** ** The status messages *)

Definition forkOk (id : ForkId.ID) : Prop := arrayOk 4 (ForkId.Hash id) /\ in_u64 (ForkId.Next id).

Lemma codec_fork : Codec writeForkID decodeForkID (fun id => encList (encString (ForkId.Hash id) ++ encUint (ForkId.Next id))) forkOk id.
Proof.
  assert (Codec writeByteArray (decodeByteArray 4) encString (arrayOk 4) id) as C4 by (apply codec_array; [done|done|by apply ReadBytes_lawful]).
  pose proof (codec_map (fun '(h, n) => ForkId.mkID h n) (fun i => (ForkId.Hash i, ForkId.Next i)) _ _ _ _ _ ltac:(by intros []) ltac:(by intros [])
    (codec_struct _ _ _ _ _ (codec_pair _ _ _ _ _ _ _ _ _ _ C4 (codec_last _ _ _ _ _ codec_uint64)))) as C.
  split; [apply (codec_writes (Codec := C))|eapply reads_iff; [|apply (codec_reads (Codec := C))]|done]. intros [h n] [[Ha _] Hs]. by split.
Qed.

Definition statusOk_ (p : StatusPacket) : Prop :=
  in_u32 (ProtocolVersion p) /\ in_u64 (NetworkID p) /\ bigOk (StatusTD p) /\ arrayOk 32 (StatusHead p) /\ arrayOk 32 (Genesis p) /\ forkOk (ForkID p).

Definition encStatus (p : StatusPacket) : bytes :=
  encList (encUint (ProtocolVersion p) ++ encUint (NetworkID p) ++ encUint (default 0 (StatusTD p)) ++ encString (StatusHead p) ++ encString (Genesis p) ++
    encList (encString (ForkId.Hash (ForkID p)) ++ encUint (ForkId.Next (ForkID p)))).

Lemma codec_status : Codec writeStatus decodeStatus encStatus statusOk_ id.
Proof.
  pose proof (codec_map (fun '(version, (network, (td, (head, (genesis, forkID))))) => mkStatus version network td head genesis forkID)
    (fun p => (ProtocolVersion p, (NetworkID p, (StatusTD p, (StatusHead p, (Genesis p, ForkID p)))))) _ _ _ _ _ ltac:(by intros (? & ? & ? & ? & ? & ?)) ltac:(by intros [])
    (codec_struct _ _ _ _ _ (codec_pair _ _ _ _ _ _ _ _ _ _ codec_uint32 (codec_pair _ _ _ _ _ _ _ _ _ _ codec_uint64 (codec_pair _ _ _ _ _ _ _ _ _ _ codec_big
      (codec_pair _ _ _ _ _ _ _ _ _ _ codec_hash (codec_pair _ _ _ _ _ _ _ _ _ _ codec_hash (codec_last _ _ _ _ _ codec_fork)))))))) as C.
  split; [apply (codec_writes (Codec := C))|eapply reads_iff; [|apply (codec_reads (Codec := C))]|done]. intros [] [[Ha _] Hs]. by split.
Qed.

(** The extension is a list that is not empty. *)
Definition extensionOk (raw : bytes) : Prop := exists payload, raw = encList payload /\ payload <> [] /\ Forall is_byte payload /\ shortEnough (encList payload).

Lemma extension_head raw : extensionOk raw -> head raw <> Some 0x80 /\ head raw <> Some 0xC0.
Proof.
  intros (payload & -> & Hne & _ & Hs). assert (0 < length payload)%nat as Hl by (destruct payload; [done|cbn; lia]). unfold encList, Rlp.header. case_decide; cbn [app head]; [split; injection; lia|].
  destruct (bytelen_spec (Z.of_nat (length payload))) as (k & Hk & _); [lia|]. rewrite length_minimal, Hk. split; injection; lia.
Qed.

Definition encUpgrade (extension : option bytes) : bytes := encList (encNilPtr KString id extension).

Lemma codec_upgrade : Codec writeUpgradeStatus decodeUpgradeStatus encUpgrade (goodOption extensionOk) id.
Proof.
  assert (Codec (fun o => writePtr KString (writeRawValue <$> o)) (decodeNilPtr KString decodeRawValue) (encNilPtr KString id) (goodOption extensionOk) id) as C.
  { split; [| |done].
    - intros [raw|] _ _; by apply encodes_raw.
    - eapply reads_iff; [|apply (reads_nilPtr KString decodeRawValue id extensionOk)]; [by intros o [[Ho _] _]|done| | |apply extension_head].
      + apply reads_rawList. intros raw (payload & -> & _ & Hb & Hs). by exists payload.
      + intros s. unfold decodeRawValue, RlpDecode.Raw. by rewrite Kind_again. }
  exact (codec_struct _ _ _ _ _ (codec_last _ _ _ _ _ C)).
Qed.

(** ** Queries *)

Definition originOk (hn : HashOrNumber) : Prop :=
  (OriginHash hn = zeroHash /\ in_u64 (OriginNumber hn)) \/ (arrayOk 32 (OriginHash hn) /\ OriginHash hn <> zeroHash /\ OriginNumber hn = 0).

Definition encOrigin (hn : HashOrNumber) : bytes := if decide (OriginHash hn = zeroHash) then encUint (OriginNumber hn) else encString (OriginHash hn).

Lemma origin_reads : Reads HashOrNumberDecodeRLP encOrigin originOk.
Proof.
  split; unfold HashOrNumberDecodeRLP, encOrigin.
  - intros s e s1 HK. by rewrite HK.
  - intros s p [h n] rest Hat Hp [[Hz Hn]|(Ha & Hne & Hz)] E Hf; cbn [OriginHash OriginNumber] in *; unfold decodeMap.
    + subst h. rewrite decide_True in * by done. destruct (lawful_ok (Lawful := decodeUint64_lawful) s p n rest Hat Hp Hn E Hf) as (s' & Hd & Hat'). exists s'. split; [|done].
      assert (length (minimal n) <= 8)%nat as Hl by (rewrite length_minimal; by apply (bytelen_le n 8)). pose proof (proj1 (lawful_peeks (Lawful := decodeUint64_lawful)) s) as Hpk. unfold encUint in E, Hf.
      destruct (string_ahead s p (minimal n) rest Hat Hp) as [(x & s1 & _ & _ & HK & _)|(s1 & q & _ & HK & _)]; [split; [apply minimal_bytes|lia]|done|done|..];
        rewrite HK in *; cbn [snd] in Hpk; rewrite Hpk, Hd; [done|]. rewrite (proj2 (Z.eqb_neq _ _)) by lia. by rewrite (proj2 (Z.leb_le _ _)) by lia.
    + subst n. rewrite decide_False in * by done. destruct (lawful_ok (Lawful := decodeHash_lawful) s p h rest Hat Hp Ha E Hf) as (s' & Hd & Hat'). exists s'. split; [|done].
      pose proof (proj1 (lawful_peeks (Lawful := decodeHash_lawful)) s) as Hpk. destruct Ha as [Hb Hl].
      destruct (string_ahead s p h rest Hat Hp) as [(x & s1 & Hx & _)|(s1 & q & _ & HK & _)]; [split; [done|lia]|done|done|by subst h|].
      rewrite HK in *. cbn [snd] in Hpk. rewrite Hl. cbn [Z.of_nat]. by rewrite Z.eqb_refl, Hpk, Hd.
  - intros [h n] _. cbn [OriginHash OriginNumber]. case_decide; apply encString_ne.
  - intros [h n] Hok. cbn [OriginHash OriginNumber]. destruct Hok as [[Hz Hn]|(Ha & Hne & Hz)]; cbn in *; [rewrite decide_True by done|rewrite decide_False by done].
    + by apply (lawful_bytes (Lawful := decodeUint64_lawful)).
    + by apply (lawful_bytes (Lawful := decodeHash_lawful)).
Qed.

Lemma codec_origin : Codec HashOrNumberEncodeRLP HashOrNumberDecodeRLP encOrigin originOk id.
Proof.
  split; [|eapply reads_iff; [|apply origin_reads]; by intros hn [[H _] _]|done]. intros hn Hok _. unfold HashOrNumberEncodeRLP, encOrigin.
  destruct Hok as [[Hz Hn]|(Ha & Hne & Hz)]; [rewrite !decide_True by done; by apply encodes_uint|]. rewrite !decide_False, Hz by done. cbn [Z.eqb negb]. apply encodes_array. destruct Ha as [_ Hl]. lia.
Qed.

Definition queryOk (q : GetBlockHeadersPacket) : Prop := originOk (Origin q) /\ in_u64 (Amount q) /\ in_u64 (Skip q) /\ True.

Definition encQuery (q : GetBlockHeadersPacket) : bytes := encList (encOrigin (Origin q) ++ encUint (Amount q) ++ encUint (Skip q) ++ encUint (if Reverse q then 1 else 0)).

Lemma codec_query : Codec writeQuery decodeQuery encQuery queryOk id.
Proof.
  pose proof (codec_map (fun '(origin, (amount, (skip, reverse))) => mkQuery origin amount skip reverse) (fun q => (Origin q, (Amount q, (Skip q, Reverse q)))) _ _ _ _ _
    ltac:(by intros (? & ? & ? & ?)) ltac:(by intros [])
    (codec_struct _ _ _ _ _ (codec_pair _ _ _ _ _ _ _ _ _ _ codec_origin (codec_pair _ _ _ _ _ _ _ _ _ _ codec_uint64
      (codec_pair _ _ _ _ _ _ _ _ _ _ codec_uint64 (codec_last _ _ _ _ _ codec_bool)))))) as C.
  split; [apply (codec_writes (Codec := C))|eapply reads_iff; [|apply (codec_reads (Codec := C))]|done]. intros [] [[Ha _] Hs]. by split.
Qed.

(** ** All packets *)

Lemma codec_66 {A} (w : A -> writer) d e ok st : Codec w d e ok st ->
  Codec (fun x => write66 x.1 (w x.2)) (decode66 d) (fun x => encList (encPair encUint e x)) (goodPair in_u64 ok) (fun x => (id x.1, st x.2)).
Proof. intros C. exact (codec_struct _ _ _ _ _ (codec_pair _ _ _ _ _ _ _ _ _ _ codec_uint64 (codec_last _ _ _ _ _ C))). Qed.

Lemma codec_hashes : Codec writeHashes decodeHashes (fun l => encList (encElems encString l)) (Forall (arrayOk 32)) (fmap id).
Proof. exact (codec_slice _ _ _ _ _ codec_hash). Qed.

Definition announceOk : bytes * Z -> Prop := goodPair (arrayOk 32) in_u64.
Definition encAnnounce (ann : bytes * Z) : bytes := encList (encPair encString encUint ann).

Lemma codec_announces : Codec writeAnnounces decodeAnnounces (fun l => encList (encElems encAnnounce l)) (Forall announceOk) (fmap (fun x => (id x.1, id x.2))).
Proof. exact (codec_slice _ _ _ _ _ (codec_struct _ _ _ _ _ (codec_pair _ _ _ _ _ _ _ _ _ _ codec_hash (codec_last _ _ _ _ _ codec_uint64)))). Qed.

Lemma codec_newBlock : Codec (uncurry writeNewBlock) decodeNewBlock (fun x => encList (encPair encBlock (fun o => encUint (default 0 o)) x)) (goodPair blockOk bigOk) (fun x => (sized x.1, id x.2)).
Proof.
  eapply codec_ext; [|exact (codec_struct _ _ _ _ _ (codec_pair _ _ _ _ _ _ _ _ _ _ codec_block (codec_last _ _ _ _ _ codec_big)))]. by intros [].
Qed.

Definition encReceiptLists (receipts : list (list Receipt)) : bytes := encList (encElems (fun rs => encList (encElems encWire rs)) receipts).

(** The bytes of a packet. *)
Definition encPacket (pk : packet) : bytes :=
  match pk with
  | Status_ status => encStatus status
  | UpgradeStatus extension => encUpgrade extension
  | NewBlockHashes anns => encList (encElems encAnnounce anns)
  | Transactions_ txs => encTxs txs
  | NewBlock block td => encList (encBlock block ++ encUint (default 0 td))
  | NewPooledTransactionHashes hashes => encList (encElems encString hashes)
  | GetBlockHeaders id query => encList (encUint id ++ encQuery query)
  | BlockHeaders id headers => encList (encUint id ++ encHeaders headers)
  | BlockBodies id bodies => encList (encUint id ++ encList (encElems encBody bodies))
  | NodeData id nodes => encList (encUint id ++ encList (encElems encString nodes))
  | Receipts_ id receipts => encList (encUint id ++ encReceiptLists receipts)
  | PooledTransactions id txs => encList (encUint id ++ encTxs txs)
  | GetBlockBodies id hashes | GetNodeData id hashes | GetReceipts id hashes | GetPooledTransactions id hashes => encList (encUint id ++ encList (encElems encString hashes))
  end.

(** The fields are within their types, and big integers are present and not negative. *)
Definition packetOk (pk : packet) : Prop :=
  match pk with
  | Status_ status => statusOk_ status
  | UpgradeStatus extension => goodOption extensionOk extension
  | NewBlockHashes anns => Forall announceOk anns
  | Transactions_ txs => Forall sendable txs
  | NewBlock block td => blockOk block /\ bigOk td
  | NewPooledTransactionHashes hashes => Forall (arrayOk 32) hashes
  | GetBlockHeaders id query => in_u64 id /\ queryOk query
  | BlockHeaders id headers => in_u64 id /\ Forall headerOk headers
  | BlockBodies id bodies => in_u64 id /\ Forall bodySendable bodies
  | NodeData id nodes => in_u64 id /\ Forall strGood nodes
  | Receipts_ id receipts => in_u64 id /\ Forall (Forall wireOk) receipts
  | PooledTransactions id txs => in_u64 id /\ Forall sendable txs
  | GetBlockBodies id hashes | GetNodeData id hashes | GetReceipts id hashes | GetPooledTransactions id hashes => in_u64 id /\ Forall (arrayOk 32) hashes
  end.

(** What the receiver gets: sizes are cached, and receipts have their consensus fields only. *)
Definition settle (pk : packet) : packet :=
  match pk with
  | Transactions_ txs => Transactions_ (fmap (M := list) settleTx txs)
  | NewBlock block td => NewBlock (sized block) td
  | BlockBodies id bodies => BlockBodies id (fmap (M := list) settleBody bodies)
  | Receipts_ id receipts => Receipts_ id (fmap (M := list) (fmap (M := list) wireForm) receipts)
  | PooledTransactions id txs => PooledTransactions id (fmap (M := list) settleTx txs)
  | _ => pk
  end.

Definition arrives (pk : packet) : Prop :=
  exists m d, Send (Kind_of pk) (writePacket pk) = Ret (Ok m) /\ m = mkMsg (Kind_of pk) (Z.of_nat (length (encPacket pk))) (encPacket pk) /\ decodePacket (Kind_of pk) = Some d /\ MsgDecode d m = Ok (settle pk).

Lemma MsgDecode_reads {A} (d : decoder A) m a : DecodeBytes d (Payload m) = Ok a -> Size m = Z.of_nat (length (Payload m)) -> MsgDecode d m = Ok a.
Proof. unfold DecodeBytes, MsgDecode. intros E ->. destruct (d _) as [[x|e] s]; [|done]. case_decide; [|done]. exact E. Qed.

Lemma arrives_codec {A} (w : A -> writer) d enc ok st (f : A -> packet) a pk :
  Codec w d enc ok st -> ok a -> Z.of_nat (length (encPacket pk)) < 2 ^ 32 -> f a = pk -> encPacket pk = enc a -> writePacket pk = w a -> settle pk = f (st a) ->
  decodePacket (Kind_of pk) = Some (decodeMap f d) -> arrives pk.
Proof.
  intros C Ha Hl Ef Ee Ew Est Hd. assert (shortEnough (enc a)) as Hs by (rewrite <- Ee; unfold shortEnough; lia). eexists _, _. split_and!; [|reflexivity|exact Hd|].
  - destruct (codec_roundtrip w d enc ok st a C Ha Hs) as [E _]. unfold Send. rewrite Ew, E, Ee. unfold u32. by rewrite Z.mod_small by (rewrite <- Ee; lia).
  - destruct (codec_roundtrip w d enc ok st a C Ha Hs) as [_ E]. rewrite Ee, Est. apply MsgDecode_reads; [|done]. cbn [Payload]. unfold DecodeBytes, decodeMap in *. destruct (d _) as [[x|e] s]; [|done].
    case_decide; [|done]. by injection E as ->.
Qed.

Lemma packet_arrives pk : packetOk pk -> Z.of_nat (length (encPacket pk)) < 2 ^ 32 -> arrives pk.
Proof.
  intros Hok Hl. pose proof (list_fmap_id (A := bytes)) as Hid. destruct pk; cbn [packetOk] in *; try destruct Hok as [Hok1 Hok2].
  - by eapply (arrives_codec _ _ _ _ _ Status_ status _ codec_status).
  - by eapply (arrives_codec _ _ _ _ _ UpgradeStatus extension _ codec_upgrade).
  - eapply (arrives_codec _ _ _ _ _ NewBlockHashes anns _ codec_announces); try done. cbn [settle]. f_equal. symmetry. rewrite <- (list_fmap_id anns) at 2. apply list_fmap_ext. by intros i [h n].
  - by eapply (arrives_codec _ _ _ _ _ Transactions_ txs _ codec_txs).
  - by eapply (arrives_codec _ _ _ _ _ (uncurry NewBlock) (block, td) _ codec_newBlock).
  - eapply (arrives_codec _ _ _ _ _ NewPooledTransactionHashes hashes _ codec_hashes); try done. cbn [settle]. by rewrite Hid.
  - by eapply (arrives_codec _ _ _ _ _ (uncurry GetBlockHeaders) (id, query) _ (codec_66 _ _ _ _ _ codec_query)).
  - eapply (arrives_codec _ _ _ _ _ (uncurry BlockHeaders) (id, headers) _ (codec_66 _ _ _ _ _ codec_headers)); try done. cbn. by rewrite list_fmap_id.
  - eapply (arrives_codec _ _ _ _ _ (uncurry GetBlockBodies) (id, hashes) _ (codec_66 _ _ _ _ _ codec_hashes)); try done. cbn. by rewrite Hid.
  - by eapply (arrives_codec _ _ _ _ _ (uncurry BlockBodies) (id, bodies) _ (codec_66 _ _ _ _ _ (codec_slice _ _ _ _ _ codec_body))).
  - eapply (arrives_codec _ _ _ _ _ (uncurry GetNodeData) (id, hashes) _ (codec_66 _ _ _ _ _ codec_hashes)); try done. cbn. by rewrite Hid.
  - eapply (arrives_codec _ _ _ _ _ (uncurry NodeData) (id, nodes) _ (codec_66 _ _ _ _ _ (codec_slice _ _ _ _ _ codec_bytes))); try done. cbn. by rewrite Hid.
  - eapply (arrives_codec _ _ _ _ _ (uncurry GetReceipts) (id, hashes) _ (codec_66 _ _ _ _ _ codec_hashes)); try done. cbn. by rewrite Hid.
  - by eapply (arrives_codec _ _ _ _ _ (uncurry Receipts_) (id, receipts) _ (codec_66 _ _ _ _ _ (codec_slice _ _ _ _ _ (codec_slice _ _ _ _ _ codec_receipt)))).
  - eapply (arrives_codec _ _ _ _ _ (uncurry GetPooledTransactions) (id, hashes) _ (codec_66 _ _ _ _ _ codec_hashes)); try done. cbn. by rewrite Hid.
  - by eapply (arrives_codec _ _ _ _ _ (uncurry PooledTransactions) (id, txs) _ (codec_66 _ _ _ _ _ codec_txs)).
Qed.

Lemma packet_sent pk : packetOk pk -> Z.of_nat (length (encPacket pk)) < 2 ^ 32 -> Send (Kind_of pk) (writePacket pk) = Ret (Ok (mkMsg (Kind_of pk) (Z.of_nat (length (encPacket pk))) (encPacket pk))).
Proof. intros Hok Hl. by destruct (packet_arrives pk Hok Hl) as (m & d & -> & -> & _). Qed.

(** Raw replies are written as the typed ones. *)
Lemma raw_reply code id {A} (e : A -> bytes) (l : list A) : in_u64 id -> Z.of_nat (length (encList (encUint id ++ encList (encElems e l)))) < 2 ^ 32 ->
  Send code (writeRawReply id (e <$> l)) = Ret (Ok (mkMsg code (Z.of_nat (length (encList (encUint id ++ encList (encElems e l))))) (encList (encUint id ++ encList (encElems e l))))).
Proof.
  intros Hid Hl. assert (shortEnough (encList (encUint id ++ encList (encElems e l)))) as Hs by (unfold shortEnough; lia). destruct (short_app _ _ (concat_short _ Hs)) as [_ Hs2].
  assert (encodes (writeRawReply id (e <$> l)) (encList (encUint id ++ encList (encElems e l)))) as Hw.
  { apply (encodes_listAs _ [encUint id; encList (encElems e l)]); [|cbn [concat]; by rewrite app_nil_r|by apply concat_short]. repeat (apply Forall2_cons; split); [by apply encodes_uint| |constructor].
    apply encodes_slice; [|by apply concat_short]. rewrite <- list_fmap_compose. apply Forall2_fmap, Forall_Forall2_diag, Forall_true. intros a. by apply encodes_raw. }
  unfold Send. rewrite (encodes_EncodeToBytes _ _ Hw). unfold u32. by rewrite Z.mod_small by lia.
Qed.

End EthPacketsLemmas.
Import EthPacketsLemmas.

(** C18: The eth protocol on the wire. Every packet that is sent is decoded by the receiver, for the code it was sent under, to the packet itself, with sizes cached and receipts reduced to
    their consensus fields. A reply that is put together from encoded values is the message that the decoded values would give. *)
Theorem packets_survive_the_wire pk id :
  (packetOk pk -> Z.of_nat (length (encPacket pk)) < 2 ^ 32 ->
    exists m d, Send (Kind_of pk) (writePacket pk) = Ret (Ok m) /\ Code m = Kind_of pk /\ decodePacket (Code m) = Some d /\ MsgDecode d m = Ok (settle pk)) /\
  (forall headers, packetOk (BlockHeaders id headers) -> Z.of_nat (length (encPacket (BlockHeaders id headers))) < 2 ^ 32 ->
    Send BlockHeadersMsg (writeRawReply id (encHeader <$> headers)) = Send BlockHeadersMsg (writePacket (BlockHeaders id headers))) /\
  (forall bodies, packetOk (BlockBodies id bodies) -> Z.of_nat (length (encPacket (BlockBodies id bodies))) < 2 ^ 32 ->
    Send BlockBodiesMsg (writeRawReply id (encBody <$> bodies)) = Send BlockBodiesMsg (writePacket (BlockBodies id bodies))) /\
  (forall receipts, packetOk (Receipts_ id receipts) -> Z.of_nat (length (encPacket (Receipts_ id receipts))) < 2 ^ 32 ->
    Send ReceiptsMsg (writeRawReply id ((fun rs => encList (encElems encWire rs)) <$> receipts)) = Send ReceiptsMsg (writePacket (Receipts_ id receipts))) /\
  (forall txs, packetOk (PooledTransactions id txs) -> Z.of_nat (length (encPacket (PooledTransactions id txs))) < 2 ^ 32 ->
    Send PooledTransactionsMsg (writeRawReply id ((fun tx => encTx (inner tx)) <$> txs)) = Send PooledTransactionsMsg (writePacket (PooledTransactions id txs))).
Proof.
  split; [|split_and!; intros l [Hid Hl] Hlen; rewrite raw_reply by done].
  - intros Hok Hl. destruct (packet_arrives pk Hok Hl) as (m & d & H1 & -> & H3 & H4). eexists _, d. split_and!; [exact H1|done|exact H3|exact H4].
  - symmetry. exact (packet_sent (BlockHeaders id l) (conj Hid Hl) Hlen).
  - symmetry. exact (packet_sent (BlockBodies id l) (conj Hid Hl) Hlen).
  - symmetry. exact (packet_sent (Receipts_ id l) (conj Hid Hl) Hlen).
  - symmetry. exact (packet_sent (PooledTransactions id l) (conj Hid Hl) Hlen).
Qed.

Definition exQuery : packet := GetBlockHeaders 7 (mkQuery (mkOrigin zeroHash 5) 3 0 false).

Lemma packets_survive_the_wire_witness : exists m d, Send GetBlockHeadersMsg (writePacket exQuery) = Ret (Ok m) /\ decodePacket GetBlockHeadersMsg = Some d /\ MsgDecode d m = Ok exQuery.
Proof.
  destruct (proj1 (packets_survive_the_wire exQuery 7)) as (m & d & E1 & E2 & E3 & E4).
  - split; [unfold in_u64; lia|]. split; [left; split; [done|unfold in_u64; cbn [OriginNumber Origin]; lia]|]. unfold in_u64. cbn [Amount Skip]. lia.
  - apply Z.ltb_lt. vm_compute. reflexivity.
  - exists m, d. rewrite E2 in E3. split; [exact E1|]. split; [exact E3|exact E4].
Defined.
