(* ===== verification/EthServe.v ===== *)
(** * Serving requests of the eth protocol (src/eth/protocols/eth/handlers.go)

    What the node answers to the requests of its peers: headers, bodies, receipts, state nodes and pooled transactions. Headers and bodies come from the block cache or
    from the full node behind it ([Blockchain]). The encoders of headers, bodies and transactions are arguments: a header may be nil, and an encoder may fail. *)

From stdpp Require Import base tactics list gmap strings.
From Stdlib Require Import ZArith Lia.
From S2P Require Import Prelude Types Blockchain RlpRaw.

Open Scope Z_scope.
Open Scope go_scope.

Import Chain.

Module EthServe.

Definition softResponseLimit : Z := 2 * 1024 * 1024.
Definition maxHeadersServe : Z := 1024.
Definition maxBodiesServe : Z := 1024.
Definition maxNodeDataServe : Z := 1024.
Definition maxReceiptsServe : Z := 1024.

(** [GetBlockHeadersPacket]; an origin with the zero hash is a number. *)
Record GetBlockHeadersPacket := mkQuery { OriginHash : hash; OriginNumber : Z; Amount : Z; Skip : Z; Reverse : bool }.

Definition setOrigin (q : GetBlockHeadersPacket) (h : hash) (n : Z) : GetBlockHeadersPacket := mkQuery h n (Amount q) (Skip q) (Reverse q).

Notation raw := (list Z) (only parsing).

Section Headers.
Context (encode : option Header -> option raw) (nilHash : hash).

(** ** Headers with gaps *)

Definition maxNonCanonical : Z := 100.

(** The header that the query is at. In hash mode the first header gives the number. *)
Definition nextOrigin (bc : chain) (hashMode first : bool) (q : GetBlockHeadersPacket) : go (option Header * GetBlockHeadersPacket) :=
  if hashMode then
    if first then
      let origin := GetHeaderByHash bc (OriginHash q) in
      Ret (origin, match origin with Some o => setOrigin q (OriginHash q) (u64 (Number o)) | None => q end)
    else let! origin := GetHeader bc (OriginHash q) (OriginNumber q) in Ret (origin, q)
  else let! origin := GetHeaderByNumber bc (OriginNumber q) in Ret (origin, q).

(** The step to the next header of the query; [None] when it is unknown. *)
Definition advanceQuery (bc : chain) (hashMode : bool) (origin : Header) (q : GetBlockHeadersPacket) : go (option GetBlockHeadersPacket) :=
  let stride := u64 (Skip q + 1) in
  if hashMode then
    if Reverse q then
      if stride =? 0 then Ret None
      else
        let! r := GetAncestor bc (OriginHash q) (OriginNumber q) stride maxNonCanonical in
        Ret (if r.1 =? 0 then None else Some (setOrigin q r.1 r.2))
    else
      let current := u64 (Number origin) in
      let next := u64 (current + Skip q + 1) in
      if next <=? current then Ret None
      else
        let! header := GetHeaderByNumber bc next in
        match header with
        | None => Ret None
        | Some header =>
            let! r := GetAncestor bc (headerHash header) next stride maxNonCanonical in
            Ret (if r.1 =? OriginHash q then Some (setOrigin q (headerHash header) next) else None)
        end
  else if Reverse q then
    Ret (if stride <=? OriginNumber q then Some (setOrigin q (OriginHash q) (u64 (OriginNumber q - stride))) else None)
  else Ret (Some (setOrigin q (OriginHash q) (u64 (OriginNumber q + stride)))).

(** The loop, with [n] lookups left. An encoder that fails ends the process. *)
Fixpoint gatherHeaders (bc : chain) (n : nat) (hashMode first : bool) (q : GetBlockHeadersPacket) (headers : list raw) (bytes : Z) : go (list raw) :=
  match n with
  | O => Ret headers
  | S n =>
      let len := Z.of_nat (length headers) in
      if (len <? i64 (Amount q)) && (bytes <? softResponseLimit) && (len <? maxHeadersServe) then
        let! r := nextOrigin bc hashMode first q in
        match r with
        | (None, _) => Ret headers
        | (Some origin, q) =>
            match encode (Some origin) with
            | None => Panic
            | Some data =>
                let headers := headers ++ [data] in
                let! next := advanceQuery bc hashMode origin q in
                match next with
                | None => Ret headers
                | Some q => gatherHeaders bc n hashMode false q headers (bytes + Z.of_nat (length data))
                end
            end
        end
      else Ret headers
  end.

Definition serviceNonContiguousBlockHeaderQuery (bc : chain) (q : GetBlockHeadersPacket) : go (list raw) :=
  gatherHeaders bc (Z.to_nat (2 * maxHeadersServe)) (negb (OriginHash q =? 0)) true q [] 0.

(** ** Headers without gaps *)

(** The ancestors of a header, at most [n]. *)
Fixpoint gatherAncestors (bc : chain) (n : nat) (header : Header) : list raw :=
  match n with
  | O => []
  | S n =>
      match GetHeaderByHash bc (ParentHash header) with
      | None => []
      | Some header => default [] (encode (Some header)) :: gatherAncestors bc n header
      end
  end.

Definition serviceContiguousBlockHeaderQuery (bc : chain) (q : GetBlockHeadersPacket) : go (list raw) :=
  let count := if maxHeadersServe <? Amount q then maxHeadersServe else Amount q in
  if OriginHash q =? 0 then
    let from := if Reverse q then OriginNumber q else u64 (OriginNumber q + count - 1) in
    let! headers := GetHeadersFrom encode bc from count in
    Ret (if Reverse q then headers else reverse headers)
  else
    match GetHeaderByHash bc (OriginHash q) with
    | None => Ret []
    | Some header =>
        let headers := [default [] (encode (Some header))] in
        let num := u64 (Number header) in
        if negb (Reverse q) then
          let! canonHash := GetCanonicalHash nilHash bc num in
          if negb (canonHash =? OriginHash q) then Ret headers
          else
            let! descendants := GetHeadersFrom encode bc (u64 (num + count - 1)) (u64 (count - 1)) in
            Ret (headers ++ reverse descendants)
        else Ret (headers ++ gatherAncestors bc (Z.to_nat (count - 1)) header)
    end.

Definition ServiceGetBlockHeadersQuery (bc : chain) (q : GetBlockHeadersPacket) : go (list raw) :=
  if Skip q =? 0 then serviceContiguousBlockHeaderQuery bc q else serviceNonContiguousBlockHeaderQuery bc q.

End Headers.

(** ** Bodies, receipts and state *)

(** The loop over the requested hashes: [get] gives the reply to a hash, or nothing; [lookups] were made before. *)
Fixpoint gather (get : hash -> go (option raw)) (maxServe : Z) (lookups : Z) (query : list hash) (items : list raw) (bytes : Z) : go (list raw) :=
  match query with
  | [] => Ret items
  | h :: query =>
      if (softResponseLimit <=? bytes) || (maxServe <=? Z.of_nat (length items)) || (2 * maxServe <=? lookups) then Ret items
      else
        let! r := get h in
        match r with
        | None => gather get maxServe (lookups + 1) query items bytes
        | Some data => gather get maxServe (lookups + 1) query (items ++ [data]) (bytes + Z.of_nat (length data))
        end
  end.

(** An empty slice is no reply. *)
Definition nonEmpty (data : raw) : option raw := match data with [] => None | _ => Some data end.

Definition getBody (encodeBody : Block -> option raw) (bc : chain) (h : hash) : go (option raw) :=
  let! data := GetBodyRLP encodeBody bc h in Ret (nonEmpty data).

Definition ServiceGetBlockBodiesQuery (encodeBody : Block -> option raw) (bc : chain) (query : list hash) : go (list raw) :=
  gather (getBody encodeBody bc) maxBodiesServe 0 query [] 0.

(** The receipts of a block, a list of encoded receipts. A block without receipts has an empty list of them. *)
Definition getReceipts (emptyRootHash : hash) (bc : chain) (h : hash) : go (option raw) :=
  let! results := GetReceiptsByHash bc h in
  match results with
  | Some receipts => Ret (Some (Rlp.encList (concat receipts)))
  | None =>
      match GetHeaderByHash bc h with
      | Some header => Ret (if ReceiptHash header =? emptyRootHash then Some (Rlp.encList []) else None)
      | None => Ret None
      end
  end.

Definition ServiceGetReceiptsQuery (emptyRootHash : hash) (bc : chain) (query : list hash) : go (list raw) :=
  gather (getReceipts emptyRootHash bc) maxReceiptsServe 0 query [] 0.

Definition getNodeData (bc : chain) (h : hash) : go (option raw) :=
  let! r := TrieNode bc h in
  let '(entry, failed) := r in
  let! r := (match entry with
             | [] => ContractCodeWithPrefix bc h
             | _ => if failed : bool then ContractCodeWithPrefix bc h else Ret (entry, failed)
             end) in
  let '(entry, failed) := r in
  Ret (if failed : bool then None else nonEmpty entry).

Definition ServiceGetNodeDataQuery (bc : chain) (query : list hash) : go (list raw) :=
  gather (getNodeData bc) maxNodeDataServe 0 query [] 0.

(** ** Pooled transactions *)

(** Only the size of the reply is limited. *)
Fixpoint gatherTxs (encodeTx : Transaction -> option raw) (get : hash -> option Transaction) (query : list hash) (hashes : list hash) (txs : list raw) (bytes : Z) : list hash * list raw :=
  match query with
  | [] => (hashes, txs)
  | h :: query =>
      if softResponseLimit <=? bytes then (hashes, txs)
      else
        match get h with
        | None => gatherTxs encodeTx get query hashes txs bytes
        | Some tx =>
            match encodeTx tx with
            | None => gatherTxs encodeTx get query hashes txs bytes
            | Some encoded => gatherTxs encodeTx get query (hashes ++ [h]) (txs ++ [encoded]) (bytes + Z.of_nat (length encoded))
            end
        end
  end.

Definition answerGetPooledTransactions (encodeTx : Transaction -> option raw) (get : hash -> option Transaction) (query : list hash) : list hash * list raw :=
  gatherTxs encodeTx get query [] [] 0.

End EthServe.
