(* ===== verification/EthServeProps.v ===== *)
(** * What peers get for their requests

    Against a chain that is described by a function from numbers to headers, queries with gaps get the headers that they ask for, up to the limits on their count and size; the other
    replies are bounded and complete up to the same limits. Queries without gaps are right for a single header only. *)

From stdpp Require Import base tactics list gmap strings.
From Stdlib Require Import ZArith Lia.
From S2P Require Import Prelude Types Bytes Blockchain RlpRaw EthServe.

Open Scope Z_scope.
Open Scope go_scope.

Import Chain EthServe.

Module EthServeLemmas.

(** The node answers from the chain [canon]: headers by number and by hash, and ancestors. Asked for a header of the chain by hash and number together, it gives this header or none: the client that
    forwards such a request writes the number over a part of the hash, so only headers in the cache are found in this way. Hashes are not zero and belong to one header. Blocks outside of the chain may be cached, too. *)
Class Honest (canon : Z -> option Header) (bc : chain) : Prop := {
  honest_number n : in_u64 n -> GetHeaderByNumber bc n = Ret (canon n);
  honest_hash n hd : canon n = Some hd -> GetHeaderByHash bc (headerHash hd) = Some hd;
  honest_both n hd : canon n = Some hd -> GetHeader bc (headerHash hd) n = Ret (Some hd) \/ GetHeader bc (headerHash hd) n = Ret None;
  honest_ancestor hd n k : canon n = Some hd -> 0 < k ->
    GetAncestor bc (headerHash hd) n k maxNonCanonical = Ret (match (if k <=? n then canon (n - k) else None) with Some a => (headerHash a, n - k) | None => (0, 0) end);
  canon_number n hd : canon n = Some hd -> in_u64 n /\ Number hd = n;
  canon_hash n m hd hd' : canon n = Some hd -> canon m = Some hd' -> headerHash hd = headerHash hd' -> n = m;
  canon_nonzero n hd : canon n = Some hd -> headerHash hd <> 0
}.

(** A reply is cut at the size limit. *)
Fixpoint cut (bytes : Z) (items : list (list Z)) : list (list Z) :=
  match items with
  | [] => []
  | x :: items => if bytes <? softResponseLimit then x :: cut (bytes + Z.of_nat (length x)) items else []
  end.

Definition hashMode (q : GetBlockHeadersPacket) : bool := negb (OriginHash q =? 0).

(** The number of the [i]-th header that a query asks for. By number the steps wrap around at 64 bits. *)
Definition place (q : GetBlockHeadersPacket) (s i : Z) : option Z :=
  let stride := Skip q + 1 in
  if hashMode q then
    if Reverse q then if i * stride <=? s then Some (s - i * stride) else None
    else if s + i * stride <? 2 ^ 64 then Some (s + i * stride) else None
  else if Reverse q then if i * u64 stride <=? s then Some (s - i * u64 stride) else None
  else Some (u64 (s + i * u64 stride)).

Section Served.
Context (encode : option Header -> option (list Z)) (enc : Header -> list Z) (canon : Z -> option Header) (bc : chain) `{!Honest canon bc}.
Context (encodes_all : forall n hd, canon n = Some hd -> encode (Some hd) = Some (enc hd)).
Context (q : GetBlockHeadersPacket) (s : Z) (Hskip : in_u64 (Skip q)) (Hs : in_u64 s).

(** The [i]-th header of the query, when the node finds it. By hash all but the first are looked up by hash and number. *)
Definition held (i : Z) : option Header :=
  match place q s i with
  | None => None
  | Some n =>
      match canon n with
      | None => None
      | Some hd => if hashMode q && (0 <? i) then match GetHeader bc (headerHash hd) n with Ret r => r | Panic => None end else Some hd
      end
  end.

(** The headers from the [i]-th on, up to the first that is not found. *)
Fixpoint walk (n : nat) (i : Z) : list Header :=
  match n with
  | O => []
  | S n => match held i with Some hd => hd :: walk n (i + 1) | None => [] end
  end.

Lemma place_range i n : 0 <= i -> place q s i = Some n -> in_u64 n.
Proof using Hs Hskip.
  unfold place, in_u64 in *. intros Hi. pose proof (Z.mod_pos_bound (Skip q + 1) (2 ^ 64)). unfold u64 in *.
  destruct (hashMode q), (Reverse q); repeat match goal with |- context [if ?b then _ else _] => destruct b eqn:?E end; intros [= <-]; try (pose proof (Z.mod_pos_bound (s + i * ((Skip q + 1) mod 2 ^ 64)) (2 ^ 64)); lia); nia.
Qed.

(** The query is at its [i]-th header; by hash the header is there. *)
Definition atPlace (i : Z) (qi : GetBlockHeadersPacket) : Prop :=
  exists h n, qi = setOrigin q h n /\ place q s i = Some n /\ if hashMode q then exists hd, canon n = Some hd /\ h = headerHash hd else h = OriginHash q.

(** At the start by hash the number is not known yet. *)
Definition ready (first : bool) (i : Z) (qi : GetBlockHeadersPacket) : Prop :=
  if hashMode q && first then i = 0 /\ qi = q /\ exists hd, canon s = Some hd /\ headerHash hd = OriginHash q else atPlace i qi /\ (hashMode q = true -> 0 < i).

Lemma place_0 : place q s 0 = Some s.
Proof using Hs. unfold place. unfold in_u64, u64 in *. rewrite !Z.mul_0_l, Z.sub_0_r, Z.add_0_r, Z.mod_small by lia. rewrite (proj2 (Z.leb_le _ _)), (proj2 (Z.ltb_lt _ _)) by lia. by destruct (hashMode q), (Reverse q). Qed.

Lemma held_canon i hd : held i = Some hd -> exists n, place q s i = Some n /\ canon n = Some hd.
Proof using Honest0.
  unfold held. destruct (place q s i) as [n|]; [|done]. destruct (canon n) as [hd'|] eqn:E; [|done]. intros H. exists n. split; [done|]. destruct (_ && _); [|congruence].
  destruct (honest_both n hd' E) as [H'|H']; rewrite H' in H; congruence.
Qed.

Lemma nextOrigin_ok i first qi : 0 <= i -> ready first i qi -> exists qi', nextOrigin bc (hashMode q) first qi = Ret (held i, qi') /\ (is_Some (held i) -> atPlace i qi').
Proof using Hs Hskip Honest0.
  intros Hi Hr. unfold ready in Hr. unfold nextOrigin. destruct (hashMode q) eqn:Hm; [destruct first|]; cbn [andb] in Hr.
  - destruct Hr as (-> & -> & hd & Hhd & <-). destruct (canon_number s hd Hhd) as [_ Hnum]. eexists. rewrite (honest_hash s hd Hhd), Hnum. unfold held. rewrite place_0, Hhd, Hm. cbn [andb Z.ltb Z.compare].
    split; [reflexivity|]. intros _. exists (headerHash hd), s. unfold u64, in_u64 in *. rewrite Z.mod_small by lia. split_and!; [done|apply place_0|]. rewrite Hm. by exists hd.
  - destruct Hr as [(h & n & -> & Hn & Hh) Hpos]. rewrite Hm in Hh. destruct Hh as (hd & Hhd & ->). cbn [setOrigin OriginHash OriginNumber]. exists (setOrigin q (headerHash hd) n). unfold held. rewrite Hn, Hhd, Hm.
    rewrite (proj2 (Z.ltb_lt 0 i)) by auto. cbn [andb]. split; [by destruct (honest_both n hd Hhd) as [->| ->]|]. intros _. exists (headerHash hd), n. rewrite Hm. split_and!; [done..|]. by exists hd.
  - destruct Hr as [(h & n & -> & Hn & Hh) _]. cbn [setOrigin OriginHash OriginNumber]. rewrite honest_number by (by eapply place_range). exists (setOrigin q h n). unfold held. rewrite Hn, Hm. cbn [andb].
    split; [by destruct (canon n)|]. intros _. exists h, n. by rewrite Hm in *.
Qed.

(** By number every place is tried; by hash only those with a header. *)
Lemma advanceQuery_ok i qi n hd : 0 <= i -> atPlace i qi -> place q s i = Some n -> canon n = Some hd ->
  exists r, advanceQuery bc (hashMode q) hd qi = Ret r /\ match r with Some q' => atPlace (i + 1) q' | None => place q s (i + 1) ≫= canon = None end.
Proof using Hs Hskip Honest0.
  intros Hi (h & n' & -> & Hn' & Hh) Hn Hhd. rewrite Hn in Hn'. injection Hn' as <-. pose proof (place_range i n Hi Hn) as Hr. unfold in_u64 in *. pose proof (place_range (i + 1)) as Hr'.
  unfold advanceQuery. cbn [setOrigin OriginHash OriginNumber Skip Reverse Amount]. unfold atPlace. destruct (hashMode q) eqn:Hm.
  - destruct Hh as (hd' & Hhd' & ->). rewrite Hhd in Hhd'. injection Hhd' as <-. destruct (canon_number n hd Hhd) as [_ Hnum]. unfold place in *. rewrite Hm in *. destruct (Reverse q) eqn:Hrev.
    + destruct (Z.leb_spec (i * (Skip q + 1)) s) as [Hle|]; [|done]. injection Hn as <-. unfold u64. destruct (Z.eq_dec (Skip q + 1) (2 ^ 64)) as [Hmax|Hmax].
      { rewrite Hmax, Z.mod_same by done. exists None. split; [done|]. by rewrite (proj2 (Z.leb_gt _ _)) by nia. }
      rewrite Z.mod_small by lia. rewrite (proj2 (Z.eqb_neq _ _)) by lia. rewrite (honest_ancestor hd) by (done || lia).
      replace (s - i * (Skip q + 1) - (Skip q + 1)) with (s - (i + 1) * (Skip q + 1)) by ring.
      destruct (Z.leb_spec (Skip q + 1) (s - i * (Skip q + 1))) as [Hb|Hb]; [rewrite (proj2 (Z.leb_le _ _)) by nia|rewrite (proj2 (Z.leb_gt _ _)) by nia; by exists None].
      destruct (canon (s - (i + 1) * (Skip q + 1))) as [a|] eqn:Ha; cbn [fst snd]; [|exists None; by rewrite Z.eqb_refl]. rewrite (proj2 (Z.eqb_neq _ _)) by (by eapply canon_nonzero).
      eexists. split; [done|]. eexists _, _. split_and!; [done|done|]. by exists a.
    + destruct (Z.ltb_spec (s + i * (Skip q + 1)) (2 ^ 64)) as [Hlt|]; [|done]. injection Hn as <-. rewrite Hnum. unfold u64. rewrite (Z.mod_small (s + i * (Skip q + 1))) by lia.
      replace (s + (i + 1) * (Skip q + 1)) with (s + i * (Skip q + 1) + Skip q + 1) by ring. set (c := s + i * (Skip q + 1)) in *. destruct (Z.ltb_spec (c + Skip q + 1) (2 ^ 64)) as [Hn|Hn].
      * rewrite (Z.mod_small (c + Skip q + 1)) by lia. rewrite (proj2 (Z.leb_gt _ _)) by lia. rewrite honest_number by (unfold in_u64; lia). cbn [mbind option_bind].
        destruct (canon (c + Skip q + 1)) as [a|] eqn:Ha; [|by exists None]. rewrite (Z.mod_small (Skip q + 1)) by lia. rewrite (honest_ancestor a) by (done || lia).
        rewrite (proj2 (Z.leb_le _ _)) by lia. replace (c + Skip q + 1 - (Skip q + 1)) with c by ring. rewrite Hhd. cbn [fst snd]. rewrite Z.eqb_refl.
        eexists. split; [done|]. eexists _, _. split_and!; [done|done|]. by exists a.
      * exists None. split; [|done]. rewrite (proj2 (Z.leb_le _ _)); [done|]. replace (c + Skip q + 1) with (c + Skip q + 1 - 2 ^ 64 + 1 * 2 ^ 64) by ring. rewrite Z_mod_plus_full, Z.mod_small by lia. lia.
  - subst h. pose proof (Z.mod_pos_bound (Skip q + 1) (2 ^ 64) ltac:(lia)) as Hst. fold (u64 (Skip q + 1)) in Hst. set (stride := u64 (Skip q + 1)) in *. unfold place in *. rewrite Hm in *. fold stride in Hn |- *. destruct (Reverse q) eqn:Hrev.
    + destruct (Z.leb_spec (i * stride) s) as [Hle|]; [|done]. injection Hn as <-. destruct (Z.leb_spec stride (s - i * stride)) as [Hb|Hb].
      * rewrite (proj2 (Z.leb_le ((i + 1) * stride) s)) by lia. eexists. split; [done|]. eexists _, _. split_and!; [done| |done]. unfold u64. rewrite Z.mod_small by lia. f_equal. ring.
      * rewrite (proj2 (Z.leb_gt ((i + 1) * stride) s)) by lia. by exists None.
    + injection Hn as <-. eexists. split; [done|]. eexists _, _. split_and!; [done| |done]. unfold u64. rewrite Zplus_mod_idemp_l. do 2 f_equal. ring.
Qed.

Definition headerLimit : nat := Z.to_nat (Z.min (i64 (Amount q)) maxHeadersServe).

Lemma gatherHeaders_ok n : forall i first qi headers bytes, 0 <= i -> ready first i qi -> (headerLimit <= n + length headers)%nat -> (length headers <= headerLimit)%nat ->
  gatherHeaders encode bc n (hashMode q) first qi headers bytes = Ret (headers ++ cut bytes (enc <$> walk (headerLimit - length headers) i)).
Proof using Hs Hskip Honest0 encodes_all.
  induction n as [|n IH]; intros i first qi headers bytes Hi Hat Hn Hle; cbn [gatherHeaders].
  - replace (headerLimit - length headers)%nat with 0%nat by lia. cbn [walk fmap list_fmap cut]. by rewrite app_nil_r.
  - assert (Amount qi = Amount q) as ->. { unfold ready in Hat. destruct (_ && _); [by destruct Hat as (_ & -> & _)|by destruct Hat as [(h & n' & -> & _) _]]. }
    destruct (decide (length headers = headerLimit)) as [Hl|Hl].
    { replace (headerLimit - length headers)%nat with 0%nat by lia. cbn [walk fmap list_fmap cut]. rewrite app_nil_r. unfold headerLimit, maxHeadersServe in *.
      destruct (Z.ltb_spec (Z.of_nat (length headers)) (i64 (Amount q))); [|done]. destruct (Z.ltb_spec (Z.of_nat (length headers)) 1024); [lia|]. by rewrite andb_false_r. }
    destruct (headerLimit - length headers)%nat as [|k] eqn:Hk; [lia|]. unfold headerLimit, maxHeadersServe in *. rewrite (proj2 (Z.ltb_lt _ (i64 (Amount q)))) by lia. rewrite (proj2 (Z.ltb_lt _ 1024)) by lia. rewrite andb_true_r.
    cbn [andb]. destruct (nextOrigin_ok i first qi Hi Hat) as (qi' & -> & Hat'). cbn [walk]. destruct (held i) as [hd|] eqn:Hhd.
    2: { cbn [fmap list_fmap cut]. rewrite app_nil_r. by destruct (bytes <? softResponseLimit). }
    destruct (held_canon i hd Hhd) as (m & Hm & Hhd'). cbn [fmap list_fmap cut]. destruct (bytes <? softResponseLimit); [|by rewrite app_nil_r]. rewrite (encodes_all m hd Hhd').
    destruct (advanceQuery_ok i qi' m hd Hi (Hat' ltac:(by eexists)) Hm Hhd') as (r & -> & Hr).
    assert (k = Z.to_nat (Z.min (i64 (Amount q)) 1024) - length (headers ++ [enc hd]))%nat as Ek by (rewrite length_app; cbn [length]; lia). destruct r as [q'|].
    + rewrite (IH (i + 1)); [|lia| |rewrite length_app; cbn [length]; lia|rewrite length_app; cbn [length]; lia]. { rewrite <- Ek, <- app_assoc. done. }
      unfold ready. rewrite andb_false_r. split; [done|lia].
    + assert (walk k (i + 1) = []) as ->; [|done]. destruct k; [done|]. cbn [walk]. assert (held (i + 1) = None) as ->; [|done]. unfold held. destruct (place q s (i + 1)) as [m'|]; [|done]. cbn [mbind option_bind] in Hr. by rewrite Hr.
Qed.

Lemma ready_start : (if hashMode q then exists hd, canon s = Some hd /\ headerHash hd = OriginHash q else s = OriginNumber q) -> ready true 0 q.
Proof using Hs Hskip.
  unfold ready, atPlace. destruct (hashMode q) eqn:Hm; cbn [andb]; [done|]. intros E. split; [|done]. exists (OriginHash q), s. split_and!; [rewrite E; by destruct q|apply place_0|done].
Qed.

(** All the headers that a query asks for, and those that the cache finds by hash and number. *)
Fixpoint asked (n : nat) (i : Z) : list Header :=
  match n with
  | O => []
  | S n => match place q s i ≫= canon with Some hd => hd :: asked n (i + 1) | None => [] end
  end.

Definition cachedAt (n : Z) (hd : Header) : Prop := exists bs, BlockQueue.UniqueNumber (blockContainer bc) n = Some bs /\ header <$> findBlock (headerHash hd) bs = Some hd.

Lemma walk_complete limit : (hashMode q = true -> forall i n hd, 0 < i < Z.of_nat limit -> place q s i = Some n -> canon n = Some hd -> cachedAt n hd) -> walk limit 0 = asked limit 0.
Proof.
  intros Hc. enough (forall k i, 0 <= i -> i + Z.of_nat k <= Z.of_nat limit -> walk k i = asked k i) as H by (apply H; lia). induction k as [|k IH]; intros i Hi Hl; [done|]. cbn [walk asked].
  assert (held i = place q s i ≫= canon) as ->; [|destruct (place q s i ≫= canon); [f_equal; apply IH; lia|done]]. unfold held. destruct (place q s i) as [n|] eqn:En; [|done]. cbn [mbind option_bind].
  destruct (canon n) as [hd|] eqn:Ehd; [|done]. destruct (hashMode q) eqn:Hm; [|done]. cbn [andb]. destruct (Z.ltb_spec 0 i); [|done].
  destruct (Hc eq_refl i n hd ltac:(lia) En Ehd) as (bs & Hbs & Hf). unfold GetHeader. by rewrite Hbs, Hf.
Qed.

End Served.

(** ** Sizes *)

Definition total (items : list (list Z)) : Z := foldr (fun x n => Z.of_nat (length x) + n) 0 items.

Lemma size_total_app l1 l2 : total (l1 ++ l2) = total l1 + total l2.
Proof. unfold total. induction l1 as [|x l1 IH]; [done|]. cbn [app foldr]. rewrite IH. lia. Qed.

Lemma total_nonneg l : 0 <= total l.
Proof. unfold total. induction l as [|x l IH]; cbn [foldr]; lia. Qed.

(** All but the last item of a reply are below the limit. *)
Definition withinLimit (items : list (list Z)) : Prop := forall l x, items = l ++ [x] -> total l < softResponseLimit.

Lemma cut_within items : forall bytes l x, cut bytes items = l ++ [x] -> bytes + total l < softResponseLimit.
Proof.
  induction items as [|y items IH]; intros bytes l x; cbn [cut]; [by destruct l|]. destruct (Z.ltb_spec bytes softResponseLimit) as [Hb|Hb]; [|by destruct l].
  destruct l as [|z l]; [intros _; cbn [total foldr]; lia|]. cbn [app]. intros [= <- E]. apply IH in E. unfold total in *. cbn [foldr]. lia.
Qed.

Lemma length_cut bytes items : (length (cut bytes items) <= length items)%nat.
Proof. revert bytes. induction items as [|y items IH]; intros bytes; cbn [cut]; [done|]. destruct (_ <? _); cbn [length]; [|lia]. specialize (IH (bytes + Z.of_nat (length y))). lia. Qed.

Lemma length_walk canon bc q s n : forall i, (length (walk canon bc q s n i) <= n)%nat.
Proof. induction n as [|n IH]; intros i; cbn [walk]; [done|]. destruct (held _ _ _ _ _); cbn [length]; [|lia]. specialize (IH (i + 1)). lia. Qed.

(** ** Replies for lists of hashes *)

(** The first [k] requests are answered, and more are not because of a limit. *)
Definition servedUpTo {A} (maxServe : Z) (results : list (option A)) (size : A -> list Z) (k : nat) (items : list A) : Prop :=
  items = omap id (take k results) /\ (k <= length results)%nat /\ Z.of_nat k <= 2 * maxServe /\ Z.of_nat (length items) <= maxServe /\ withinLimit (size <$> items) /\
  (k = length results \/ Z.of_nat k = 2 * maxServe \/ Z.of_nat (length items) = maxServe \/ softResponseLimit <= total (size <$> items)).

Lemma gather_ok get maxServe query rs : 0 <= maxServe -> Forall2 (fun h r => get h = Ret r) query rs ->
  exists k items, gather get maxServe 0 query [] 0 = Ret items /\ servedUpTo maxServe rs id k items.
Proof.
  intros Hmax HF. assert (forall done_ items, Z.of_nat (length done_) <= 2 * maxServe -> Z.of_nat (length items) <= maxServe -> items = omap id done_ -> withinLimit items ->
    exists k items', gather get maxServe (Z.of_nat (length done_)) query items (total items) = Ret items' /\ (length done_ <= k)%nat /\ servedUpTo maxServe (done_ ++ rs) id k items') as HG.
  { induction HF as [|h r query rs Hr _ IH]; intros done_ items Hd Hi Ei Hw; cbn [gather].
    - exists (length done_), items. split; [done|]. split; [done|]. rewrite app_nil_r. unfold servedUpTo. rewrite list_fmap_id, firstn_all. split_and!; try done; lia || by left.
    - destruct (_ || _) eqn:Hc.
      + exists (length done_), items. split; [done|]. split; [done|]. unfold servedUpTo. rewrite list_fmap_id, take_app_length. split_and!; try done; [rewrite length_app; lia|].
        apply orb_true_iff in Hc as [[H1|H1]%orb_true_iff|H1]; apply Z.leb_le in H1; [by right; right; right|right; right; left; lia|right; left; lia].
      + apply orb_false_iff in Hc as [[H1 H2]%orb_false_iff H3]. apply Z.leb_gt in H1, H2, H3. rewrite Hr. rewrite cons_middle, app_assoc.
        assert (Z.of_nat (length done_) + 1 = Z.of_nat (length (done_ ++ [r]))) as -> by (rewrite length_app; cbn [length]; lia). destruct r as [data|].
        * assert (total items + Z.of_nat (length data) = total (items ++ [data])) as -> by (rewrite size_total_app; unfold total; cbn [foldr]; lia).
          destruct (IH (done_ ++ [Some data]) (items ++ [data])) as (k & items' & E & Hk & Hs); [rewrite length_app; cbn [length]; lia..| | |exists k, items'; split; [done|]; split; [|done]; rewrite length_app in Hk; lia].
          { rewrite omap_app, <- Ei. done. }
          { intros l x E. apply app_inj_tail in E as [<- _]. lia. }
        * destruct (IH (done_ ++ [None]) items) as (k & items' & E & Hk & Hs); [rewrite length_app; cbn [length]; lia|lia| |done|exists k, items'; split; [done|]; split; [|done]; rewrite length_app in Hk; lia].
          rewrite omap_app, <- Ei. cbn. by rewrite app_nil_r. }
  destruct (HG [] []) as (k & items & E & _ & Hs); [cbn; lia|cbn; lia|done|intros [|? ?] ? [=]|]. by exists k, items.
Qed.

Section Pooled.
Context (encodeTx : Transaction -> option (list Z)) (get : hash -> option Transaction).

(** What is sent for a hash. *)
Definition pooled (h : hash) : option (hash * list Z) := tx ← get h; encoded ← encodeTx tx; Some (h, encoded).

Lemma gatherTxs_ok query : forall items, withinLimit (snd <$> items) ->
  exists k rest, gatherTxs encodeTx get query (fst <$> items) (snd <$> items) (total (snd <$> items)) = (fst <$> (items ++ rest), snd <$> (items ++ rest)) /\ rest = omap pooled (take k query) /\ (k <= length query)%nat /\
    withinLimit (snd <$> (items ++ rest)) /\ (k = length query \/ softResponseLimit <= total (snd <$> (items ++ rest))).
Proof.
  induction query as [|h query IH]; intros items Hw; cbn [gatherTxs].
  - exists 0%nat, []. rewrite app_nil_r. split_and!; try done. by left.
  - destruct (Z.leb_spec softResponseLimit (total (snd <$> items))) as [Hl|Hl].
    + exists 0%nat, []. rewrite app_nil_r. split_and!; try done; [cbn; lia|by right].
    + destruct (get h) as [tx|] eqn:Hg; [destruct (encodeTx tx) as [e|] eqn:He|].
      * assert (pooled h = Some (h, e)) as Hp by (unfold pooled; rewrite Hg; cbn; by rewrite He).
        assert (forall A (f : hash * list Z -> A), f <$> (items ++ [(h, e)]) = (f <$> items) ++ [f (h, e)]) as Hf by (intros; by rewrite fmap_app).
        destruct (IH (items ++ [(h, e)])) as (k & rest & E & Er & Hk & Hw' & Hor).
        { intros l x. rewrite Hf. intros Ex. apply app_inj_tail in Ex as [<- _]. exact Hl. }
        exists (S k), ((h, e) :: rest). rewrite !Hf, size_total_app in E. cbn [fst snd total foldr] in E. rewrite Z.add_0_r in E. rewrite E, <- !app_assoc. cbn [app]. rewrite <- app_assoc in Hw', Hor. cbn [app] in Hw', Hor.
        split_and!; [done| |cbn [length]; lia|done|destruct Hor as [->|?]; [by left|by right]]. cbn [take omap list_omap]. by rewrite Hp, Er.
      * assert (pooled h = None) as Hp by (unfold pooled; rewrite Hg; cbn; by rewrite He). destruct (IH items Hw) as (k & rest & E & Er & Hk & Hw' & Hor). exists (S k), rest.
        split_and!; [done| |cbn [length]; lia|done|destruct Hor as [->|?]; [by left|by right]]. cbn [take omap list_omap]. by rewrite Hp, Er.
      * assert (pooled h = None) as Hp by (unfold pooled; by rewrite Hg). destruct (IH items Hw) as (k & rest & E & Er & Hk & Hw' & Hor). exists (S k), rest.
        split_and!; [done| |cbn [length]; lia|done|destruct Hor as [->|?]; [by left|by right]]. cbn [take omap list_omap]. by rewrite Hp, Er.
Qed.

End Pooled.

(** ** Queries without gaps *)

Section Contiguous.
Context (encode : option Header -> option (list Z)) (canon : Z -> option Header) (bc : chain) `{!Honest canon bc}.

Definition sent (n : Z) : list Z := default [] (encode (canon n)).

Lemma collectHeaders_ok ns : Forall in_u64 ns -> collectHeaders encode bc ns = Ret (sent <$> ns).
Proof using Honest0. induction 1 as [|n ns Hn _ IH]; [done|]. cbn [collectHeaders]. rewrite honest_number by done. by rewrite IH. Qed.

Lemma GetHeadersFrom_ok from cnt : 0 <= from -> 0 <= cnt -> from + cnt < 2 ^ 64 -> GetHeadersFrom encode bc from cnt = Ret (sent <$> seqZ from cnt).
Proof using Honest0.
  intros Hf Hc Hl. unfold GetHeadersFrom, u64. rewrite Z.mod_small by lia. replace (from + cnt - from) with cnt by ring. apply collectHeaders_ok, Forall_forall. intros n Hn%elem_of_seqZ. unfold in_u64. lia.
Qed.

End Contiguous.

End EthServeLemmas.
Import EthServeLemmas.

(** C24: Header queries with gaps. Against an honest node a query from a header of the chain gets the headers that it asks for, from its origin in steps forwards or backwards up to the first that is not
    found, cut at 1024 headers and where the limit on the size is reached; a query from a hash that is not found gets nothing. By number the steps wrap around and every header of the chain is found. By hash they
    do not wrap around, and after the first header only those that the node finds by hash and number together: as wired up these are the cached ones. When the node finds them all, the reply is complete. *)
Theorem header_queries_served encode enc nilHash canon bc q :
  Honest canon bc -> (forall n hd, canon n = Some hd -> encode (Some hd) = Some (enc hd)) -> in_u64 (Skip q) -> Skip q <> 0 ->
  (forall s, in_u64 s -> (if hashMode q then exists hd, canon s = Some hd /\ headerHash hd = OriginHash q else s = OriginNumber q) ->
    let reply := cut 0 (enc <$> walk canon bc q s (headerLimit q) 0) in
    ServiceGetBlockHeadersQuery encode nilHash bc q = Ret reply /\ Z.of_nat (length reply) <= maxHeadersServe /\ withinLimit reply /\
    ((hashMode q = true -> forall i n hd, 0 < i < Z.of_nat (headerLimit q) -> place q s i = Some n -> canon n = Some hd -> cachedAt bc n hd) ->
      reply = cut 0 (enc <$> asked canon q s (headerLimit q) 0))) /\
  (hashMode q = true -> GetHeaderByHash bc (OriginHash q) = None -> ServiceGetBlockHeadersQuery encode nilHash bc q = Ret []).
Proof.
  intros HH Henc Hskip Hne. unfold ServiceGetBlockHeadersQuery, serviceNonContiguousBlockHeaderQuery. rewrite (proj2 (Z.eqb_neq _ _)) by done. fold (hashMode q).
  assert (exists fuel, Z.to_nat (2 * maxHeadersServe) = S fuel /\ (1024 <= fuel)%nat) as (fuel & -> & Hfuel) by (exists 2047%nat; split; [reflexivity|lia]). assert (headerLimit q <= 1024)%nat as Hlim by (unfold headerLimit, maxHeadersServe; lia). split.
  - intros s Hs Hstart. set (reply := cut 0 _). split; [|split; [|split]].
    + pose proof (gatherHeaders_ok encode enc canon bc Henc q s Hskip Hs (S fuel) 0 true q [] 0) as HG. cbn [length app] in HG. rewrite Nat.sub_0_r in HG. apply HG; [lia| |lia|lia]. by apply ready_start.
    + pose proof (length_cut 0 (enc <$> walk canon bc q s (headerLimit q) 0)) as H1. rewrite length_fmap in H1. pose proof (length_walk canon bc q s (headerLimit q) 0). unfold maxHeadersServe. fold reply in H1. lia.
    + intros l x E. apply cut_within in E. lia.
    + intros Hc. unfold reply. by rewrite (walk_complete canon bc q s (headerLimit q)).
  - intros Hm Hno. rewrite Hm. cbn [gatherHeaders]. destruct (_ && _); [|done]. unfold nextOrigin. by rewrite Hno.
Qed.

(** C25: Requests for bodies, receipts, state nodes and pooled transactions. The node answers the hashes in the order of the request and skips what it does not have, until a limit is reached: of lookups, of
    items, or of bytes, which only the last item may exceed. *)
Theorem bulk_requests_served encodeBody emptyRootHash bc fn query : fullNode bc = Some fn ->
  (exists rs k items, Forall2 (fun h r => getBody encodeBody bc h = Ret r) query rs /\ ServiceGetBlockBodiesQuery encodeBody bc query = Ret items /\ servedUpTo maxBodiesServe rs id k items) /\
  (exists rs k items, Forall2 (fun h r => getReceipts emptyRootHash bc h = Ret r) query rs /\ ServiceGetReceiptsQuery emptyRootHash bc query = Ret items /\ servedUpTo maxReceiptsServe rs id k items) /\
  (exists rs k items, Forall2 (fun h r => getNodeData bc h = Ret r) query rs /\ ServiceGetNodeDataQuery bc query = Ret items /\ servedUpTo maxNodeDataServe rs id k items) /\
  (forall encodeTx get, exists k items, answerGetPooledTransactions encodeTx get query = (fst <$> items, snd <$> items) /\ items = omap (pooled encodeTx get) (take k query) /\ (k <= length query)%nat /\
    withinLimit (snd <$> items) /\ (k = length query \/ softResponseLimit <= total (snd <$> items))).
Proof.
  intros Hfn. assert (forall get : hash -> go (option (list Z)), (forall h, exists r, get h = Ret r) -> exists rs, Forall2 (fun h r => get h = Ret r) query rs) as Htot.
  { intros get Hget. induction query as [|h l [rs IH]]; [by exists []|]. destruct (Hget h) as [r Hr]. exists (r :: rs). by constructor. }
  split_and!.
  - destruct (Htot (getBody encodeBody bc)) as [rs Hrs].
    { intros h. unfold getBody, GetBodyRLP. rewrite Hfn. destruct (BlockQueue.Hash2Number _ h); by eexists. }
    destruct (gather_ok _ maxBodiesServe query rs ltac:(done) Hrs) as (k & items & E & Hs). by exists rs, k, items.
  - destruct (Htot (getReceipts emptyRootHash bc)) as [rs Hrs].
    { intros h. unfold getReceipts, GetReceiptsByHash. rewrite Hfn. destruct (reqReceiptsByHash fn h).1; [by eexists|]. destruct (GetHeaderByHash bc h); by eexists. }
    destruct (gather_ok _ maxReceiptsServe query rs ltac:(done) Hrs) as (k & items & E & Hs). by exists rs, k, items.
  - destruct (Htot (getNodeData bc)) as [rs Hrs].
    { intros h. unfold getNodeData, TrieNode, ContractCodeWithPrefix. rewrite Hfn. destruct (reqTrieNodeByHash fn h) as [[|x l] []], (reqContractCodeWithPrefix fn h) as [? []]; by eexists. }
    destruct (gather_ok _ maxNodeDataServe query rs ltac:(done) Hrs) as (k & items & E & Hs). by exists rs, k, items.
  - intros encodeTx get. destruct (gatherTxs_ok encodeTx get query []) as (k & rest & E & Er & Hk & Hw & Hor); [intros [|? ?] ? [=]|]. exists k, rest. split_and!; done.
Qed.

(** Header queries without gaps. A query for one header is answered with it. A longer one by number is not: the chain delivers ascending numbers where the handler expects descending ones, so that the
    query for [c] headers from [n] on gets those from [n+c-1] to [n+2c-2], backwards, and the first header it asked for is not among them. *)
Theorem header_ranges_misplaced encode nilHash canon bc q : Honest canon bc -> Skip q = 0 -> OriginHash q = 0 -> in_u64 (OriginNumber q) ->
  (Amount q = 1 -> OriginNumber q + 1 < 2 ^ 64 -> ServiceGetBlockHeadersQuery encode nilHash bc q = Ret [sent encode canon (OriginNumber q)]) /\
  (2 <= Amount q <= maxHeadersServe -> OriginNumber q + 2 * Amount q < 2 ^ 64 -> Reverse q = false ->
    (forall n m, OriginNumber q <= n < OriginNumber q + 2 * Amount q -> OriginNumber q <= m < OriginNumber q + 2 * Amount q -> sent encode canon n = sent encode canon m -> n = m) ->
    ServiceGetBlockHeadersQuery encode nilHash bc q = Ret (reverse (sent encode canon <$> seqZ (OriginNumber q + Amount q - 1) (Amount q))) /\
    sent encode canon (OriginNumber q) ∉ sent encode canon <$> seqZ (OriginNumber q + Amount q - 1) (Amount q)).
Proof.
  intros HH Hs Ho Hn. unfold ServiceGetBlockHeadersQuery, serviceContiguousBlockHeaderQuery. rewrite Hs, Ho. cbn [Z.eqb]. unfold in_u64, maxHeadersServe in *. split.
  - intros Ha Hl. rewrite Ha. change (1024 <? 1) with false. cbn beta iota. replace (OriginNumber q + 1 - 1) with (OriginNumber q) by ring. unfold u64. rewrite (Z.mod_small (OriginNumber q)) by lia.
    replace (if Reverse q then OriginNumber q else OriginNumber q) with (OriginNumber q) by (by destruct (Reverse q)). rewrite (GetHeadersFrom_ok encode canon bc) by lia. by destruct (Reverse q).
  - intros Ha Hl Hr Hinj. rewrite Hr. rewrite (proj2 (Z.ltb_ge _ _)) by lia. unfold u64. rewrite Z.mod_small by lia. rewrite (GetHeadersFrom_ok encode canon bc) by lia. split; [done|].
    intros (m & Em & Hm)%list_elem_of_fmap. apply elem_of_seqZ in Hm. apply Hinj in Em; lia.
Qed.

(** A query for no headers. From the hash of the first block the count is taken to be 2^64-1, and the node asks for as many headers. *)
Theorem empty_request_floods encode nilHash canon bc q hd : Honest canon bc -> Skip q = 0 -> Amount q = 0 -> Reverse q = false -> canon 1 = Some hd -> headerHash hd = OriginHash q ->
  exists reply, ServiceGetBlockHeadersQuery encode nilHash bc q = Ret reply /\ Z.of_nat (length reply) = 2 ^ 64.
Proof.
  intros HH Hs Ha Hr Hhd Eh. unfold ServiceGetBlockHeadersQuery, serviceContiguousBlockHeaderQuery. rewrite Hs, Ha, Hr. change (maxHeadersServe <? 0) with false. cbn [Z.eqb negb].
  pose proof (canon_nonzero 1 hd Hhd) as Hnz. rewrite (proj2 (Z.eqb_neq (OriginHash q) 0)) by congruence. rewrite <- Eh. rewrite (honest_hash 1 hd Hhd).
  destruct (canon_number 1 hd Hhd) as [_ ->]. change (u64 1) with 1. unfold GetCanonicalHash. rewrite honest_number by (unfold in_u64; lia). rewrite Hhd. cbn [from_option]. rewrite Z.eqb_refl. cbn [negb].
  change (u64 (1 + 0 - 1)) with 0. change (u64 (0 - 1)) with (2 ^ 64 - 1). rewrite (GetHeadersFrom_ok encode canon bc) by lia. eexists. split; [reflexivity|].
  rewrite length_app, length_reverse, length_fmap, length_seqZ. cbn [length]. lia.
Qed.

(** ** A chain of four headers

    Only the block of number 1 is cached, and the full node finds no header by hash and number. *)

Definition exHead (n : Z) : Header := mkHeader (99 + n) n 1 (100 + n) 0 0 0.
Definition exCanon (n : Z) : option Header := if (0 <=? n) && (n <? 4) then Some (exHead n) else None.

Definition exFull : FullNode := {|
  reqHeaderByHash := fun h => (exCanon (h - 100), false);
  reqHeaderByHashAndNumber := fun _ _ => (None, false);
  reqHeaderByNumber := fun n => (exCanon n, false);
  reqBlockBodyRlp := fun h => ([h], false);
  reqReceiptsByHash := fun h => (None, false);
  reqTrieNodeByHash := fun h => ([], false);
  reqContractCodeWithPrefix := fun h => ([h; h], false);
  reqAncestor := fun h n k _ => match (if k <=? n then exCanon (n - k) else None) with Some a => (headerHash a, n - k) | None => (0, 0) end;
  reqTotalDifficulty := fun _ _ => (0, true)
|}.

Definition exCache : BlockQueue.queue := match BlockQueue.Push (BlockQueue.newFixedSizeBlockQueue BlockContainerSizeLimit) (mkBlock (exHead 1) [] []) with Ret q => q | Panic => BlockQueue.newFixedSizeBlockQueue 0 end.
Definition exServer : chain := mkChain (mkBlock (exHead 1) [] []) exCache 100 false (Some exFull).

Lemma exCanon_Some n hd : exCanon n = Some hd -> 0 <= n < 4 /\ hd = exHead n.
Proof. unfold exCanon. destruct (Z.leb_spec 0 n), (Z.ltb_spec n 4); cbn [andb]; try done. by intros [= <-]. Qed.

Lemma exCanon_ind (P : Z -> Header -> Prop) : P 0 (exHead 0) -> P 1 (exHead 1) -> P 2 (exHead 2) -> P 3 (exHead 3) -> forall n hd, exCanon n = Some hd -> P n hd.
Proof. intros H0 H1 H2 H3 n hd E. destruct (exCanon_Some _ _ E) as [Hn ->]. by assert (n = 0 \/ n = 1 \/ n = 2 \/ n = 3) as [->|[->|[->| ->]]] by lia. Qed.

Lemma exCache_lookup n : BlockQueue.UniqueNumber exCache n = if n =? 1 then Some [mkBlock (exHead 1) [] []] else None.
Proof.
  change (BlockQueue.UniqueNumber exCache n) with (({[1 := [mkBlock (exHead 1) [] []]]} : gmap Z (list Block)) !! n). destruct (Z.eqb_spec n 1) as [->|]; [by rewrite lookup_singleton_eq|by rewrite lookup_singleton_ne by congruence].
Qed.

#[local] Instance exHonest : Honest exCanon exServer.
Proof.
  split.
  - intros n _. unfold GetHeaderByNumber. cbn [exServer blockContainer fullNode]. rewrite exCache_lookup. by destruct (Z.eqb_spec n 1) as [->|].
  - by apply exCanon_ind.
  - by apply exCanon_ind; vm_compute; auto.
  - intros hd n k. done.
  - intros n hd E. destruct (exCanon_Some _ _ E) as [Hn ->]. split; [unfold in_u64; lia|done].
  - intros n m hd hd' E E'. destruct (exCanon_Some _ _ E) as [_ ->], (exCanon_Some _ _ E') as [_ ->]. cbn [headerHash exHead]. lia.
  - intros n hd E. destruct (exCanon_Some _ _ E) as [Hn ->]. cbn [headerHash exHead]. lia.
Qed.

(** A header is encoded as its number. *)
Definition exEncode (hd : option Header) : option (list Z) := match hd with Some hd => Some [Number hd] | None => Some [0xC0] end.

(** Backwards from 3 the query finds 1 in the cache; forwards from 0 it does not find 2. *)
Lemma header_queries_served_witness : ServiceGetBlockHeadersQuery exEncode 0 exServer (mkQuery 103 0 10 1 true) = Ret [[3]; [1]] /\
  ServiceGetBlockHeadersQuery exEncode 0 exServer (mkQuery 100 0 10 1 false) = Ret [[0]].
Proof.
  split.
  - destruct (proj1 (header_queries_served exEncode (fun hd => [Number hd]) 0 exCanon exServer (mkQuery 103 0 10 1 true) exHonest ltac:(done) ltac:(unfold in_u64; cbn [Skip]; lia) ltac:(done)) 3) as (E & _ & _ & Hall).
    + unfold in_u64. lia.
    + cbn. by exists (exHead 3).
    + rewrite E, Hall; [vm_compute; reflexivity|]. intros _ i n hd Hi Hp. change ((if i * 2 <=? 3 then Some (3 - i * 2) else None) = Some n) in Hp. destruct (Z.leb_spec (i * 2) 3); [|discriminate Hp]. assert (i = 1) as -> by lia. injection Hp as <-. intros [= <-]. by exists [mkBlock (exHead 1) [] []].
  - destruct (proj1 (header_queries_served exEncode (fun hd => [Number hd]) 0 exCanon exServer (mkQuery 100 0 10 1 false) exHonest ltac:(done) ltac:(unfold in_u64; cbn [Skip]; lia) ltac:(done)) 0) as (E & _).
    + unfold in_u64. lia.
    + cbn. by exists (exHead 0).
    + rewrite E. vm_compute. reflexivity.
Defined.

Lemma bulk_requests_served_witness : exists items, ServiceGetBlockBodiesQuery (fun _ => None) exServer [7; 8] = Ret items /\ items = [[7]; [8]].
Proof.
  destruct (bulk_requests_served (fun _ => None) 0 exServer exFull [7; 8] eq_refl) as ((rs & k & items & _ & E & _) & _). exists items. split; [exact E|]. vm_compute in E. by injection E as <-.
Defined.

Lemma header_ranges_misplaced_witness : ServiceGetBlockHeadersQuery exEncode 0 exServer (mkQuery 0 1 1 0 false) = Ret [[1]] /\
  ServiceGetBlockHeadersQuery exEncode 0 exServer (mkQuery 0 0 2 0 false) = Ret [[2]; [1]] /\ [0] ∉ [[1]; [2]].
Proof.
  assert (forall n, 0 <= n < 4 -> in_u64 n) as Hu by (unfold in_u64; lia). split.
  - apply (proj1 (header_ranges_misplaced exEncode 0 exCanon exServer (mkQuery 0 1 1 0 false) exHonest eq_refl eq_refl (Hu 1 ltac:(lia)))); [reflexivity|cbn [OriginNumber]; lia].
  - apply (proj2 (header_ranges_misplaced exEncode 0 exCanon exServer (mkQuery 0 0 2 0 false) exHonest eq_refl eq_refl (Hu 0 ltac:(lia)))); [cbn [Amount]; unfold maxHeadersServe; lia|cbn [OriginNumber Amount]; lia|reflexivity|].
    cbn [OriginNumber Amount]. intros n m Hn Hm. assert (n = 0 \/ n = 1 \/ n = 2 \/ n = 3) as [->|[->|[->| ->]]] by lia; assert (m = 0 \/ m = 1 \/ m = 2 \/ m = 3) as [->|[->|[->| ->]]] by lia; done.
Defined.

Lemma empty_request_floods_witness : exists reply, ServiceGetBlockHeadersQuery exEncode 0 exServer (mkQuery 101 0 0 0 false) = Ret reply /\ Z.of_nat (length reply) = 2 ^ 64.
Proof. exact (empty_request_floods exEncode 0 exCanon exServer (mkQuery 101 0 0 0 false) (exHead 1) exHonest eq_refl eq_refl eq_refl eq_refl eq_refl). Defined.
