(* ===== verification/EthDispatch.v ===== *)
(** * Requests in flight (src/eth/protocols/eth/dispatcher.go, src/p2p/tracker/tracker.go)

    [Tracker] keeps the requests that wait for a response and drops those that wait too long, in the order in which they were sent. [Dispatcher] is the loop of a peer that matches
    responses with requests, together with the goroutines around it: those that send requests, those that give up on them, and the reader, which hands an accepted response to the
    channel of its request. *)

From stdpp Require Import base tactics list gmap strings.
From Stdlib Require Import ZArith Lia.
From S2P Require Import Prelude.

Open Scope Z_scope.
Open Scope go_scope.

Module Tracker.

Definition maxTrackedPackets : nat := Z.to_nat 100000.

Record request := mkRequest { peer : string; version : Z; reqCode : Z; resCode : Z; time : Z }.

(** The timer that calls [clean]: armed for a time, or fired, with the call under way. *)
Inductive timer := Armed (at_ : Z) | Fired.

(** [expire] is the linked list, oldest first; its elements are the identifiers. *)
Record tracker := mkTracker { timeout : Z; pending : gmap Z request; expire : list Z; wake : option timer }.

Definition New (timeout : Z) : tracker := mkTracker timeout ∅ [] None.

Section Enabled.
(** [metrics.Enabled]. *)
Context (enabled : bool).

Definition Track (t : tracker) (now : Z) (peer : string) (version reqCode resCode id : Z) : tracker :=
  if negb enabled then t
  else
    match pending t !! id with
    | Some _ => t
    | None =>
        if bool_decide (maxTrackedPackets <= size (pending t))%nat then t
        else
          mkTracker (timeout t) (<[id := mkRequest peer version reqCode resCode now]> (pending t)) (expire t ++ [id])
            (match wake t with None => Some (Armed (now + timeout t)) | w => w end)
    end.

(** [time.Until] may be negative, which fires at once. *)
Definition schedule (t : tracker) : go tracker :=
  match expire t with
  | [] => Ret (mkTracker (timeout t) (pending t) [] None)
  | id :: _ =>
      match pending t !! id with
      | None => Panic
      | Some req => Ret (mkTracker (timeout t) (pending t) (expire t) (Some (Armed (time req + timeout t))))
      end
  end.

(** 5 milliseconds, in nanoseconds. *)
Definition slack : Z := 5 * 1000000.

(** The loop of [clean] over the list from its front. *)
Fixpoint cleanLoop (t : tracker) (now : Z) (l : list Z) : go (gmap Z request * list Z) :=
  match l with
  | [] => Ret (pending t, [])
  | id :: l' =>
      match pending t !! id with
      | None => Panic
      | Some req =>
          if now - time req <? timeout t + slack then Ret (pending t, l)
          else cleanLoop (mkTracker (timeout t) (delete id (pending t)) l' (wake t)) now l'
      end
  end.

Definition clean (t : tracker) (now : Z) : go tracker :=
  let! r := cleanLoop t now (expire t) in
  schedule (mkTracker (timeout t) r.1 r.2 (wake t)).

(** A fulfilled request is taken off the list before its place in the list is looked at; an element that was removed has no predecessor, so the timer is always restarted. *)
Definition Fulfil (t : tracker) (peer_ : string) (version_ code id : Z) : go tracker :=
  if negb enabled then Ret t
  else
    match pending t !! id with
    | None => Ret t
    | Some req =>
        if bool_decide (peer req <> peer_) || negb (version req =? version_) || negb (resCode req =? code) then Ret t
        else
          let t := mkTracker (timeout t) (delete id (pending t)) (filter (fun i => i <> id) (expire t)) (wake t) in
          match wake t with
          | None => Panic
          | Some (Armed _) => schedule t
          | Some Fired => Ret t
          end
    end.

(** What happens to a tracker: calls, and the timer. *)
Inductive event :=
| Tracked (peer : string) (version reqCode resCode id : Z)
| Fulfilled (peer : string) (version code id : Z)
| Fire
| Cleaned.

(** [None] when the event cannot happen: the timer is not armed for now, or no call of [clean] is under way. *)
Definition handle (t : tracker) (now : Z) (e : event) : go (option tracker) :=
  match e with
  | Tracked peer version reqCode resCode id => Ret (Some (Track t now peer version reqCode resCode id))
  | Fulfilled peer version code id => let! t := Fulfil t peer version code id in Ret (Some t)
  | Fire =>
      Ret match wake t with
          | Some (Armed at_) => if at_ <=? now then Some (mkTracker (timeout t) (pending t) (expire t) (Some Fired)) else None
          | _ => None
          end
  | Cleaned =>
      match wake t with
      | Some Fired => let! t := clean t now in Ret (Some t)
      | _ => Ret None
      end
  end.

End Enabled.

End Tracker.

Module Dispatcher.

(** A [Request] is a shared object; it is known by its place in the list of the requests given to [dispatchRequest], each of which is given to it once. *)
Record Request := mkRequest { id : Z; code : Z; want : Z }.

(** The loop of a peer and its surroundings. [pending] is the map of the loop; [requestTracker] is the tracker all peers share. [closing] are the calls of [Close] that the loop has
    answered and that are about to close the cancel channel, [closed] the requests whose cancel channel is closed. [inHand] are the responses the loop accepted and a reader still
    holds: the request, the code, and whether the reader has seen that the request is not cancelled. *)
Record system := mkSystem {
  requests : list Request;
  pending : gmap Z nat;
  requestTracker : Tracker.tracker;
  closing : list nat;
  closed : gset nat;
  inHand : list (nat * Z * bool);
  delivered : list (nat * Z);
  clock : Z;
  term : bool;
  stopped : bool
}.

Definition setLoop (s : system) (p : gmap Z nat) (t : Tracker.tracker) : system := mkSystem (requests s) p t (closing s) (closed s) (inHand s) (delivered s) (clock s) (term s) (stopped s).
Definition setTracker (s : system) (t : Tracker.tracker) : system := mkSystem (requests s) (pending s) t (closing s) (closed s) (inHand s) (delivered s) (clock s) (term s) (stopped s).
Definition setRequests (s : system) (l : list Request) : system := mkSystem l (pending s) (requestTracker s) (closing s) (closed s) (inHand s) (delivered s) (clock s) (term s) (stopped s).
Definition setClosing (s : system) (l : list nat) : system := mkSystem (requests s) (pending s) (requestTracker s) l (closed s) (inHand s) (delivered s) (clock s) (term s) (stopped s).
Definition setClosed (s : system) (c : gset nat) : system := mkSystem (requests s) (pending s) (requestTracker s) (closing s) c (inHand s) (delivered s) (clock s) (term s) (stopped s).
Definition setHand (s : system) (h : list (nat * Z * bool)) : system := mkSystem (requests s) (pending s) (requestTracker s) (closing s) (closed s) h (delivered s) (clock s) (term s) (stopped s).
Definition setDelivered (s : system) (d : list (nat * Z)) : system := mkSystem (requests s) (pending s) (requestTracker s) (closing s) (closed s) (inHand s) d (clock s) (term s) (stopped s).
Definition setClock (s : system) (now : Z) : system := mkSystem (requests s) (pending s) (requestTracker s) (closing s) (closed s) (inHand s) (delivered s) now (term s) (stopped s).
Definition setTerm (s : system)  : system := mkSystem (requests s) (pending s) (requestTracker s) (closing s) (closed s) (inHand s) (delivered s) (clock s) true (stopped s).
Definition setStopped (s : system)  : system := mkSystem (requests s) (pending s) (requestTracker s) (closing s) (closed s) (inHand s) (delivered s) (clock s) (term s) true.

Definition start (timeout : Z) : system := mkSystem [] ∅ (Tracker.New timeout) [] ∅ [] [] 0 false false.

Section Peer.
(** [metrics.Enabled], and the identifier and the version of the peer. *)
Context (enabled : bool) (peer : string) (version : Z).

(** ** The cases of the loop *)

(** A request is tracked by the tracker before it is sent, and by the loop once it was sent. *)
Definition onRequest (s : system) (r : nat) (req : Request) (failed : bool) : system :=
  setLoop s (if failed then pending s else <[id req := r]> (pending s))
    (Tracker.Track enabled (requestTracker s) (clock s) peer version (code req) (want req) (id req)).

Definition onCancel (s : system) (i : Z) : system :=
  match pending s !! i with
  | None => s
  | Some _ => setLoop s (delete i (pending s)) (requestTracker s)
  end.

Inductive verdict := errDanglingResponse | errMismatchingResponseType | Accepted (r : nat).

Definition onResponse (s : system) (i c : Z) : go (verdict * system) :=
  let! t := Tracker.Fulfil enabled (requestTracker s) peer version c i in
  let s := setTracker s t in
  match pending s !! i with
  | None => Ret (errDanglingResponse, s)
  | Some r =>
      match requests s !! r with
      | None => Panic
      | Some req =>
          if negb (want req =? c) then Ret (errMismatchingResponseType, s)
          else Ret (Accepted r, setLoop s (delete i (pending s)) (requestTracker s))
      end
  end.

(** ** The goroutines *)

(** How a call ends: with or without an error, because the peer is gone, with a panic; or not yet. *)
Inductive outcome := Done (failed : bool) | Disconnected | Crash | Continues.

(** [Close] is a call of [Request.Close] that meets the loop, [CloseChannel] the rest of the call. A reader that holds a response looks for the cancellation ([Look]), and then
    delivers the response ([Deliver], with what the handler makes of it) or sees a cancellation that came meanwhile ([Discard]). [Other] is what other peers and the timer do to the tracker. *)
Inductive label :=
| Dispatch (req : Request) (failed : bool)
| Close (r : nat)
| CloseChannel (k : nat)
| Receive (i c : Z)
| Look (k : nat)
| Deliver (k : nat) (failed : bool)
| Discard (k : nat)
| Other (e : Tracker.event)
| Wait (d : Z)
| Terminate
| Stop.

(** Each call meets the loop while it runs, or finds the peer terminated. *)
Inductive step : system -> label -> outcome -> system -> Prop :=
| step_dispatch s req failed : stopped s = false ->
    step s (Dispatch req failed) (Done failed) (onRequest (setRequests s (requests s ++ [req])) (length (requests s)) req failed)
| step_dispatch_term s req failed : term s = true -> step s (Dispatch req failed) Disconnected (setRequests s (requests s ++ [req]))
| step_close s r req : stopped s = false -> requests s !! r = Some req ->
    step s (Close r) Continues (setClosing (onCancel s (id req)) (closing s ++ [r]))
| step_close_term s r : term s = true -> (r < length (requests s))%nat -> step s (Close r) Disconnected s
| step_channel s k r : closing s !! k = Some r -> r ∉ closed s ->
    step s (CloseChannel k) (Done false) (setClosed (setClosing s (delete k (closing s))) ({[r]} ∪ closed s))
| step_channel_twice s k r : closing s !! k = Some r -> r ∈ closed s -> step s (CloseChannel k) Crash (setClosing s (delete k (closing s)))
| step_accept s i c r s' : stopped s = false -> onResponse s i c = Ret (Accepted r, s') ->
    step s (Receive i c) Continues (setHand s' (inHand s ++ [(r, c, false)]))
| step_reject s i c e s' : stopped s = false -> onResponse s i c = Ret (e, s') -> (forall r, e <> Accepted r) -> step s (Receive i c) (Done false) s'
| step_receive_crash s i c : stopped s = false -> onResponse s i c = Panic -> step s (Receive i c) Crash s
| step_receive_term s i c : term s = true -> step s (Receive i c) Disconnected s
| step_look_cancelled s k r c : inHand s !! k = Some (r, c, false) -> r ∈ closed s -> step s (Look k) (Done false) (setHand s (delete k (inHand s)))
| step_look s k r c : inHand s !! k = Some (r, c, false) -> r ∉ closed s -> step s (Look k) Continues (setHand s (<[k := (r, c, true)]> (inHand s)))
| step_deliver s k r c failed : inHand s !! k = Some (r, c, true) ->
    step s (Deliver k failed) (Done failed) (setDelivered (setHand s (delete k (inHand s))) (delivered s ++ [(r, c)]))
| step_discard s k r c : inHand s !! k = Some (r, c, true) -> r ∈ closed s -> step s (Discard k) (Done false) (setHand s (delete k (inHand s)))
| step_other s e t : Tracker.handle enabled (requestTracker s) (clock s) e = Ret (Some t) -> step s (Other e) (Done false) (setTracker s t)
| step_other_crash s e : Tracker.handle enabled (requestTracker s) (clock s) e = Panic -> step s (Other e) Crash s
| step_wait s d : 0 <= d -> step s (Wait d) Continues (setClock s (clock s + d))
| step_terminate s : step s Terminate Continues (setTerm s)
| step_stop s : term s = true -> step s Stop Continues (setStopped s).

(** Runs from the start. *)
Inductive run (timeout : Z) : list (label * outcome) -> system -> Prop :=
| run_start : run timeout [] (start timeout)
| run_step tr s l o s' : run timeout tr s -> step s l o s' -> run timeout (tr ++ [(l, o)]) s'.

End Peer.

End Dispatcher.
