(* ===== verification/EthDispatchProps.v ===== *)
(** * Properties of the requests in flight

    The tracker never misses the timer that cleans it, and its early exit drops exactly the requests that are too old. The dispatcher gives every request at most one response, of the
    kind it wants; a request that was given up gets none that arrives later; and an open request does get the response that arrives for it. *)

From stdpp Require Import base tactics list gmap fin_maps strings.
From Stdlib Require Import ZArith Lia Sorted.
From S2P Require Import Prelude EthDispatch.

Open Scope Z_scope.
Open Scope go_scope.

Module TrackerLemmas.
Import Tracker.

(** The requests of the list, oldest first. *)
Definition ages (p : gmap Z request) (l : list Z) : list Z := omap (fun id => time <$> p !! id) l.

Definition timerOk (t : tracker) : Prop :=
  match wake t with
  | None => expire t = []
  | Some (Armed a) => exists id l req, expire t = id :: l /\ pending t !! id = Some req /\ a = time req + timeout t
  | Some Fired => True
  end.

(** The list holds the pending requests, each once, in the order of their times, none of which is in the future. *)
Record listed (p : gmap Z request) (l : list Z) (now : Z) : Prop := {
  listed_nodup : NoDup l;
  listed_iff id : id ∈ l <-> is_Some (p !! id);
  listed_sorted : StronglySorted Z.le (ages p l);
  listed_past id req : p !! id = Some req -> time req <= now
}.

Definition ok (t : tracker) (now : Z) : Prop :=
  listed (pending t) (expire t) now /\ timerOk t /\ (size (pending t) <= maxTrackedPackets)%nat.

Lemma ages_delete p l id : id ∉ l -> ages (delete id p) l = ages p l.
Proof.
  induction l as [|i l IH]; [done|]. intros [Hne Hl]%not_elem_of_cons. unfold ages in *. cbn [omap list_omap].
  rewrite lookup_delete_ne by done. rewrite IH by done. done.
Qed.

Lemma ages_insert p l id req : id ∉ l -> ages (<[id := req]> p) l = ages p l.
Proof.
  induction l as [|i l IH]; [done|]. intros [Hne Hl]%not_elem_of_cons. unfold ages in *. cbn [omap list_omap].
  rewrite lookup_insert_ne by done. rewrite IH by done. done.
Qed.

Lemma ages_app p l l' : ages p (l ++ l') = ages p l ++ ages p l'.
Proof. apply omap_app. Qed.

Lemma ages_cons p id l req : p !! id = Some req -> ages p (id :: l) = time req :: ages p l.
Proof. intros H. unfold ages. cbn [omap list_omap]. by rewrite H. Qed.

Lemma elem_ages p l x : x ∈ ages p l -> exists id req, id ∈ l /\ p !! id = Some req /\ x = time req.
Proof. intros (id & Hid & H)%list_elem_of_omap. destruct (p !! id) as [req|] eqn:E; [|done]. exists id, req. by simplify_eq/=. Qed.

Lemma ages_elem p l id req : id ∈ l -> p !! id = Some req -> time req ∈ ages p l.
Proof. intros Hl Hp. apply list_elem_of_omap. exists id. by rewrite Hp. Qed.

(** The order does not depend on which requests are taken out. *)
Lemma sorted_filter p l (P : Z -> Prop) `{forall x, Decision (P x)} : StronglySorted Z.le (ages p l) -> StronglySorted Z.le (ages p (filter P l)).
Proof.
  induction l as [|i l IH]; [done|]. unfold ages. cbn [omap list_omap]. fold (ages p l). intros Hs.
  assert (StronglySorted Z.le (ages p l)) as Hl by (destruct (p !! i); [by inversion Hs|done]).
  rewrite filter_cons. case_decide; [|by apply IH]. cbn [omap list_omap]. fold (ages p (filter P l)).
  destruct (p !! i) as [req|]; [|by apply IH]. cbn [fmap option_fmap option_map] in *. constructor; [by apply IH|].
  inversion Hs as [|? ? ? Hall]; subst. apply Forall_forall. intros x (j & r & [_ Hj]%list_elem_of_filter & Hr & ->)%elem_ages.
  rewrite Forall_forall in Hall. apply Hall. by eapply ages_elem.
Qed.

Lemma sorted_snoc l x : StronglySorted Z.le l -> Forall (fun y => y <= x) l -> StronglySorted Z.le (l ++ [x]).
Proof.
  induction 1 as [|y l Hs IH Hall]; intros Hx; [repeat constructor|]. inversion Hx; subst. cbn [app].
  constructor; [by apply IH|]. apply Forall_app; split; [done|by constructor].
Qed.

Lemma listed_filter p l now id : listed p l now -> listed (delete id p) (filter (fun i => i <> id) l) now.
Proof.
  intros [Hn Hi Hs Hp]. split.
  - by apply NoDup_filter.
  - intros i. rewrite list_elem_of_filter, Hi. rewrite lookup_delete_is_Some. naive_solver.
  - rewrite ages_delete by (rewrite list_elem_of_filter; naive_solver). by apply sorted_filter.
  - intros i req [_ Hl]%lookup_delete_Some. by apply (Hp i).
Qed.

Lemma listed_tail p id l now : listed p (id :: l) now -> listed (delete id p) l now.
Proof.
  intros H. pose proof (listed_filter _ _ _ id H) as H'. rewrite filter_cons_False in H' by naive_solver.
  pose proof (listed_nodup _ _ _ H) as [Hn _]%NoDup_cons. rewrite filter_all in H'; [done|]. apply Forall_forall. by intros i Hi ->.
Qed.

Lemma listed_snoc p l now id req : listed p l now -> p !! id = None -> time req = now -> listed (<[id := req]> p) (l ++ [id]) now.
Proof.
  intros [Hn Hi Hs Hp] Hid Ht.
  assert (id ∉ l) as Hl by (rewrite Hi, Hid; by intros [? ?]). split.
  - apply NoDup_app. split_and!; [done| |apply NoDup_singleton]. intros x Hx ->%list_elem_of_singleton. done.
  - intros i. rewrite elem_of_app, list_elem_of_singleton, Hi, lookup_insert_is_Some. destruct (decide (i = id)); naive_solver.
  - rewrite ages_app, ages_insert by done. erewrite (ages_cons _ id []) by apply lookup_insert_eq. apply sorted_snoc; [done|].
    apply Forall_forall. intros x (j & r & _ & Hr & ->)%elem_ages. rewrite Ht. by eapply Hp.
  - intros i r [[<- <-]|[_ Hr]]%lookup_insert_Some; [lia|by eapply Hp].
Qed.

Lemma listed_later p l now now' : listed p l now -> now <= now' -> listed p l now'.
Proof. intros [Hn Hi Hs Hp] Hle. split; [done..|]. intros id req H. pose proof (Hp _ _ H). lia. Qed.

Lemma listed_head p id l now : listed p (id :: l) now -> exists req, p !! id = Some req.
Proof. intros H. apply (listed_iff _ _ _ H). apply list_elem_of_here. Qed.

(** The requests that [clean] keeps. *)
Definition young (timeout now : Z) (r : request) : Prop := now - time r < timeout + slack.

#[export] Instance young_dec timeout now r : Decision (young timeout now r) := Z_lt_dec _ _.

Definition keep (timeout now : Z) (p : gmap Z request) : gmap Z request := filter (fun x => young timeout now x.2) p.

(** When the oldest is young, all are. *)
Lemma head_young p id l now timeout req : listed p (id :: l) now -> p !! id = Some req -> young timeout now req -> keep timeout now p = p.
Proof.
  intros H Hid Hy. apply map_filter_id. intros i r Hr. cbn [snd].
  pose proof (proj2 (listed_iff _ _ _ H i) (ex_intro _ r Hr)) as [->|Hi]%elem_of_cons; [by simplify_eq|].
  pose proof (listed_sorted _ _ _ H) as Hs. rewrite (ages_cons _ _ _ _ Hid) in Hs. inversion Hs as [|? ? _ Hall]; subst.
  rewrite Forall_forall in Hall. pose proof (Hall _ (ages_elem _ _ _ _ Hi Hr)). unfold young in *. lia.
Qed.

Lemma cleanLoop_ok l : forall t now, listed (pending t) l now ->
  exists l', cleanLoop t now l = Ret (keep (timeout t) now (pending t), l') /\ listed (keep (timeout t) now (pending t)) l' now.
Proof.
  induction l as [|id l IH]; intros t now H; cbn [cleanLoop].
  - assert (pending t = ∅) as E. { apply map_empty. intros i. apply eq_None_not_Some. rewrite <- (listed_iff _ _ _ H). by apply not_elem_of_nil. }
    exists []. unfold keep. rewrite E, map_filter_empty in *. done.
  - destruct (listed_head _ _ _ _ H) as [req Hid]. rewrite Hid. destruct (Z.ltb_spec (now - time req) (timeout t + slack)) as [Hlt|Hge].
    + exists (id :: l). by rewrite (head_young _ _ _ _ (timeout t) req H Hid Hlt).
    + destruct (IH (mkTracker (timeout t) (delete id (pending t)) l (wake t)) now (listed_tail _ _ _ _ H)) as (l' & Hc & Hl). cbn [timeout pending] in *.
      assert (keep (timeout t) now (delete id (pending t)) = keep (timeout t) now (pending t)) as E.
      { unfold keep. rewrite map_filter_delete. apply delete_id. apply map_lookup_filter_None. right. intros r Hr. cbn [snd]. simplify_eq. unfold young. lia. }
      rewrite E in *. by exists l'.
Qed.

Lemma schedule_ok t now : listed (pending t) (expire t) now -> (size (pending t) <= maxTrackedPackets)%nat ->
  exists t', schedule t = Ret t' /\ ok t' now /\ pending t' = pending t /\ timeout t' = timeout t.
Proof.
  intros H Hs. unfold schedule. destruct (expire t) as [|id l] eqn:E.
  - eexists. split; [done|]. done.
  - destruct (listed_head _ _ _ _ H) as [req Hid]. rewrite Hid. eexists. split; [done|]. split_and!; try done.
    split; [|split]; cbn [pending expire]; [done| |done]. unfold timerOk. cbn [wake expire pending timeout]. by exists id, l, req.
Qed.

Lemma keep_size timeout now p : (size (keep timeout now p) <= size p)%nat.
Proof. apply map_subseteq_size. apply map_filter_subseteq. Qed.

Lemma clean_ok t now : ok t now -> exists t', clean t now = Ret t' /\ ok t' now /\ pending t' = keep (timeout t) now (pending t) /\ timeout t' = timeout t.
Proof.
  intros (Hl & _ & Hs). unfold clean. destruct (cleanLoop_ok _ _ _ Hl) as (l' & -> & Hl'). cbn [fst snd].
  apply (schedule_ok (mkTracker (timeout t) (keep (timeout t) now (pending t)) l' (wake t))); cbn [pending expire]; [done|].
  etrans; [apply keep_size|done].
Qed.

Lemma timer_snoc t id req now : listed (pending t) (expire t) now -> timerOk t -> pending t !! id = None -> time req = now ->
  timerOk (mkTracker (timeout t) (<[id := req]> (pending t)) (expire t ++ [id]) (match wake t with None => Some (Armed (now + timeout t)) | w => w end)).
Proof.
  intros Hl Ht Hid Hnow. unfold timerOk in *. cbn [wake expire pending timeout]. destruct (wake t) as [[a|]|]; [|done|].
  - destruct Ht as (i & l & r & He & Hi & Ha). exists i, (l ++ [id]), r. rewrite He, lookup_insert_ne by congruence. done.
  - rewrite Ht. exists id, [], req. rewrite lookup_insert_eq, Hnow. done.
Qed.

Section Events.
Context (enabled : bool).

(** What an event does to the pending requests, with no list and no timer. *)
Definition specPending (timeout now : Z) (p : gmap Z request) (e : event) : gmap Z request :=
  match e with
  | Tracked peer version reqCode resCode id =>
      if bool_decide (enabled = true /\ p !! id = None /\ (size p < maxTrackedPackets)%nat) then <[id := mkRequest peer version reqCode resCode now]> p else p
  | Fulfilled peer_ version_ code id =>
      match p !! id with
      | Some r => if bool_decide (enabled = true /\ peer r = peer_ /\ version r = version_ /\ resCode r = code) then delete id p else p
      | None => p
      end
  | Fire => p
  | Cleaned => keep timeout now p
  end.

Lemma Track_ok t now peer version reqCode resCode id : ok t now ->
  let t' := Track enabled t now peer version reqCode resCode id in
  ok t' now /\ pending t' = specPending (timeout t) now (pending t) (Tracked peer version reqCode resCode id) /\ timeout t' = timeout t.
Proof.
  intros (Hl & Ht & Hs) t'. subst t'. unfold Track, specPending.
  destruct enabled; cbn [negb]; [|rewrite bool_decide_eq_false_2 by naive_solver; done].
  destruct (pending t !! id) eqn:E; [rewrite bool_decide_eq_false_2 by naive_solver; done|].
  case_bool_decide as Hsz; [rewrite bool_decide_eq_false_2 by (intros (_ & _ & ?); lia); done|].
  rewrite bool_decide_eq_true_2 by (split_and!; [done..|lia]). cbn [pending timeout]. split_and!; [|done..].
  split; [|split]; cbn [pending expire].
  - by apply listed_snoc.
  - by apply timer_snoc.
  - rewrite map_size_insert_None by done. lia.
Qed.

Lemma Fulfil_ok t now peer_ version_ code id : ok t now ->
  exists t', Fulfil enabled t peer_ version_ code id = Ret t' /\ ok t' now /\
    pending t' = specPending (timeout t) now (pending t) (Fulfilled peer_ version_ code id) /\ timeout t' = timeout t.
Proof.
  intros Hok. pose proof Hok as (Hl & Ht & Hs). unfold Fulfil, specPending.
  destruct enabled; cbn [negb].
  2:{ exists t. split_and!; try done. destruct (pending t !! id); [|done]. by rewrite bool_decide_eq_false_2 by naive_solver. }
  destruct (pending t !! id) as [r|] eqn:E; [|by exists t].
  destruct (bool_decide (peer r <> peer_) || negb (version r =? version_) || negb (resCode r =? code)) eqn:G.
  - exists t. rewrite bool_decide_eq_false_2; [done|]. intros (_ & <- & <- & <-). rewrite bool_decide_eq_false_2, !Z.eqb_refl in G by tauto. done.
  - apply orb_false_iff in G as [[G1 G2]%orb_false_iff G3]. apply bool_decide_eq_false, dec_stable in G1.
    apply negb_false_iff, Z.eqb_eq in G2, G3. rewrite bool_decide_eq_true_2 by done. cbn [wake].
    assert (size (delete id (pending t)) <= maxTrackedPackets)%nat as Hs' by (rewrite map_size_delete_Some by (by eexists); lia).
    pose proof (listed_filter _ _ _ id Hl) as Hl'. pose proof (listed_iff _ _ _ Hl id) as [_ Hin].
    unfold timerOk in Ht. destruct (wake t) as [[a|]|].
    + exact (schedule_ok (mkTracker (timeout t) (delete id (pending t)) (filter (fun i => i <> id) (expire t)) (Some (Armed a))) now Hl' Hs').
    + eexists. split; [done|]. done.
    + rewrite Ht in Hin. exfalso. eapply not_elem_of_nil, Hin. by eexists.
Qed.

Lemma ok_later t now now' : ok t now -> now <= now' -> ok t now'.
Proof. intros (Hl & Ht & Hs) Hle. split; [by eapply listed_later|done]. Qed.

Lemma tracker_handle_ok t now e : ok t now ->
  exists r, handle enabled t now e = Ret r /\ forall t', r = Some t' -> ok t' now /\ pending t' = specPending (timeout t) now (pending t) e /\ timeout t' = timeout t.
Proof.
  intros Hok. destruct e as [? ? ? ? ?|? ? ? ?| |]; cbn [handle].
  - eexists. split; [done|]. intros t' [= <-]. by apply Track_ok.
  - edestruct Fulfil_ok as (t' & -> & H); [done|]. eexists. split; [done|]. by intros ? [= <-].
  - eexists. split; [done|]. intros t'. destruct (wake t) as [[a|]|]; try done. destruct (a <=? now); [|done]. intros [= <-].
    split; [|done]. destruct Hok as (? & ? & ?). done.
  - destruct (wake t) as [[a|]|]; try (by eexists). destruct (clean_ok _ _ Hok) as (t' & -> & H). eexists. split; [done|]. by intros ? [= <-].
Qed.

(** Events with the time that passes before each. *)
Fixpoint events (t : tracker) (now : Z) (evs : list (Z * event)) : go (option (tracker * Z)) :=
  match evs with
  | [] => Ret (Some (t, now))
  | (d, e) :: evs => let! r := handle enabled t (now + d) e in match r with None => Ret None | Some t => events t (now + d) evs end
  end.

Fixpoint specEvents (timeout now : Z) (p : gmap Z request) (evs : list (Z * event)) : gmap Z request :=
  match evs with
  | [] => p
  | (d, e) :: evs => specEvents timeout (now + d) (specPending timeout (now + d) p e) evs
  end.

Lemma events_ok evs : forall t now, ok t now -> Forall (fun x => 0 <= x.1) evs ->
  exists r, events t now evs = Ret r /\
    forall t' now', r = Some (t', now') -> ok t' now' /\ pending t' = specEvents (timeout t) now (pending t) evs /\ timeout t' = timeout t.
Proof.
  induction evs as [|[d e] evs IH]; intros t now Hok Hd; cbn [events specEvents].
  - eexists. split; [done|]. by intros t' now' [= <- <-].
  - inversion Hd as [|? ? Hd1 Hd2]; subst. cbn [fst] in Hd1.
    destruct (tracker_handle_ok t (now + d) e) as (r & -> & Hr); [eapply ok_later; [done|lia]|].
    destruct r as [t1|]; [|by eexists]. destruct (Hr _ eq_refl) as (Hok1 & Hp & Ht).
    destruct (IH t1 (now + d) Hok1 Hd2) as (r & Hr' & H). exists r. split; [done|]. by rewrite <- Hp, <- Ht.
Qed.

Lemma ok_New timeout now : ok (New timeout) now.
Proof.
  split; [|split]; [|done|cbn [New pending]; rewrite map_size_empty; apply Nat.le_0_l]. split; cbn [New pending expire].
  - apply NoDup_nil_2.
  - intros id. rewrite lookup_empty, elem_of_nil. split; [done|by intros [? ?]].
  - constructor.
  - done.
Qed.

End Events.

(** The timer of a tracker with requests: fired, or armed for the oldest of them. *)
Lemma timer_oldest t now : ok t now -> pending t <> ∅ ->
  wake t = Some Fired \/ exists id req, pending t !! id = Some req /\ wake t = Some (Armed (time req + timeout t)) /\ forall i r, pending t !! i = Some r -> time req <= time r.
Proof.
  intros (Hl & Ht & _) Hne. unfold timerOk in Ht. destruct (wake t) as [[a|]|]; [right|by left|].
  - destruct Ht as (id & l & req & He & Hid & ->). exists id, req. split_and!; [done..|]. intros i r Hr. rewrite He in Hl.
    pose proof (proj2 (listed_iff _ _ _ Hl i) (ex_intro _ r Hr)) as [->|Hi]%elem_of_cons; [by simplify_eq|].
    pose proof (listed_sorted _ _ _ Hl) as Hs. rewrite (ages_cons _ _ _ _ Hid) in Hs. inversion Hs as [|? ? _ Hall]; subst.
    rewrite Forall_forall in Hall. by apply Hall, (ages_elem _ _ i).
  - exfalso. rewrite Ht in Hl. apply Hne, map_empty. intros i. apply eq_None_not_Some. rewrite <- (listed_iff _ _ _ Hl). apply not_elem_of_nil.
Qed.

End TrackerLemmas.

Module DispatcherLemmas.
Import Dispatcher.

Section Peer.
Context (enabled : bool) (peer : string) (version timeout : Z).

Notation step := (step enabled peer version).
Notation run := (run enabled peer version timeout).

(** The responses accepted: those at hand and those delivered. *)
Definition got (s : system) : list (nat * Z) := (fst <$> inHand s) ++ delivered s.

(** How many calls of [Close] for a request the loop answered. *)
Definition isClose (r : nat) (x : label * outcome) : bool := match x with (Close r', Continues) => bool_decide (r' = r) | _ => false end.
Definition closes (tr : list (label * outcome)) (r : nat) : nat := length (filter (fun x => isClose r x = true) tr).
Definition times (l : list nat) (r : nat) : nat := length (filter (fun x => x = r) l).

Lemma closes_snoc tr x r : closes (tr ++ [x]) r = (closes tr r + if isClose r x then 1 else 0)%nat.
Proof. unfold closes. rewrite filter_app, length_app. f_equal. destruct (isClose r x) eqn:E; [by rewrite filter_cons_True|by rewrite filter_cons_False by congruence]. Qed.

Lemma times_snoc l x r : times (l ++ [x]) r = (times l r + if bool_decide (x = r) then 1 else 0)%nat.
Proof. unfold times. rewrite filter_app, length_app. f_equal. case_bool_decide; [by rewrite filter_cons_True|by rewrite filter_cons_False]. Qed.

Lemma times_delete l k x r : l !! k = Some x -> times l r = (times (delete k l) r + if bool_decide (x = r) then 1 else 0)%nat.
Proof.
  intros H. unfold times. rewrite (delete_Permutation l k x H) at 1. rewrite filter_cons, bool_decide_decide. case_decide; cbn [length]; lia.
Qed.

(** What a step does to the map of the loop, the requests and the accepted responses, by the label. *)
Definition sameLoop (s s' : system) : Prop := requests s' = requests s /\ pending s' = pending s /\ got s' ⊆+ got s.

Lemma onCancel_pending s i : pending (onCancel s i) = delete i (pending s).
Proof. unfold onCancel. destruct (pending s !! i) eqn:E; [done|]. by rewrite delete_id. Qed.

Lemma onCancel_rest s i : requests (onCancel s i) = requests s /\ inHand (onCancel s i) = inHand s /\ delivered (onCancel s i) = delivered s /\
  closed (onCancel s i) = closed s /\ requestTracker (onCancel s i) = requestTracker s /\ clock (onCancel s i) = clock s.
Proof. unfold onCancel. by destruct (pending s !! i). Qed.

Lemma got_delete s k x : inHand s !! k = Some x -> got s ≡ₚ x.1 :: (fst <$> delete k (inHand s)) ++ delivered s.
Proof. intros H. unfold got. by rewrite (delete_Permutation (inHand s) k x H) at 1. Qed.

Lemma got_look s k r c : inHand s !! k = Some (r, c, false) -> fmap (M := list) fst (<[k := (r, c, true)]> (inHand s)) = fst <$> inHand s.
Proof. intros H. rewrite list_fmap_insert. cbn [fst]. apply list_insert_id. by rewrite list_lookup_fmap, H. Qed.

Inductive effect (s : system) : label -> outcome -> system -> Prop :=
| effect_sent req (failed : bool) s' : requests s' = requests s ++ [req] -> pending s' = (if failed then pending s else <[id req := length (requests s)]> (pending s)) ->
    got s' = got s -> effect s (Dispatch req failed) (Done failed) s'
| effect_unsent req failed s' : requests s' = requests s ++ [req] -> pending s' = pending s -> got s' = got s -> effect s (Dispatch req failed) Disconnected s'
| effect_close r req s' : requests s !! r = Some req -> requests s' = requests s -> pending s' = delete (id req) (pending s) -> got s' = got s ->
    effect s (Close r) Continues s'
| effect_accept r req s' : pending s !! id req = Some r -> requests s !! r = Some req -> requests s' = requests s -> pending s' = delete (id req) (pending s) ->
    got s' ≡ₚ (r, want req) :: got s -> effect s (Receive (id req) (want req)) Continues s'
| effect_same l o s' : sameLoop s s' -> (forall i c, l = Receive i c -> o <> Continues) -> (forall r, l = Close r -> o <> Continues) ->
    (forall req failed, l <> Dispatch req failed) -> effect s l o s'.

Lemma onResponse_accept s i c r s' : onResponse enabled peer version s i c = Ret (Accepted r, s') ->
  exists req, pending s !! i = Some r /\ requests s !! r = Some req /\ want req = c /\ requests s' = requests s /\ pending s' = delete i (pending s) /\
    inHand s' = inHand s /\ delivered s' = delivered s.
Proof.
  unfold onResponse. destruct (Tracker.Fulfil _ _ _ _ _ _) as [t|]; [|done]. cbn [pending requests setTracker].
  destruct (pending s !! i) as [r'|] eqn:Hp; [|done]. destruct (requests s !! r') as [req|] eqn:Hr; [|done].
  destruct (Z.eqb_spec (want req) c); cbn [negb]; [|done]. intros [= <- <-]. by exists req.
Qed.

Lemma onResponse_reject s i c e s' : onResponse enabled peer version s i c = Ret (e, s') -> (forall r, e <> Accepted r) -> exists t, s' = setTracker s t.
Proof.
  unfold onResponse. destruct (Tracker.Fulfil _ _ _ _ _ _) as [t|]; [|done]. cbn [pending requests setTracker].
  destruct (pending s !! i) as [r'|]; [|by intros [= <- <-]; exists t]. destruct (requests s !! r') as [req|]; [|done].
  destruct (negb _); intros [= <- <-]; [by exists t|]. intros H. by destruct (H r').
Qed.

Lemma step_effect s l o s' : (forall i r, pending s !! i = Some r -> exists req, requests s !! r = Some req /\ id req = i) -> step s l o s' -> effect s l o s'.
Proof.
  intros Hids Hstep. inversion Hstep; subst; try (by apply effect_same); try by (apply effect_same; [by split_and!|naive_solver..]).
  - by apply effect_sent.
  - by apply effect_unsent.
  - destruct (onCancel_rest s (id req)) as (E1 & E2 & E3 & _). eapply effect_close; [done|..]; unfold got; cbn [requests pending inHand delivered setClosing].
    + done.
    + apply onCancel_pending.
    + by rewrite E2, E3.
  - destruct (onResponse_accept _ _ _ _ _ H0) as (req & Hp & Hr & <- & E1 & E2 & E3 & E4).
    destruct (Hids _ _ Hp) as (req' & Hr' & <-). simplify_eq.
    eapply effect_accept; [done..|]. unfold got. cbn [inHand delivered setHand]. rewrite E4, fmap_app. cbn [fmap list_fmap fst].
    rewrite (Permutation_app_comm (fst <$> inHand s) [_]). done.
  - destruct (onResponse_reject _ _ _ _ _ H0 H1) as [t ->]. apply effect_same; [by split_and!|naive_solver..].
  - apply effect_same; [|naive_solver..]. split_and!; [done..|]. rewrite (got_delete s k _ H). by apply submseteq_cons.
  - apply effect_same; [|naive_solver..]. split_and!; [done..|]. unfold got. cbn [inHand delivered setHand]. by rewrite (got_look _ _ _ _ H).
  - apply effect_same; [|naive_solver..]. split_and!; [done..|]. rewrite (got_delete s k _ H). unfold got. cbn [inHand delivered setHand setDelivered fst].
    rewrite (app_assoc (fst <$> delete k (inHand s)) (delivered s) [(r, c)]), (Permutation_app_comm _ [(r, c)]). done.
  - apply effect_same; [|naive_solver..]. split_and!; [done..|]. rewrite (got_delete s k _ H). by apply submseteq_cons.
Qed.

(** ** Invariants of the runs *)

(** Where a request that the loop accepted a response for, or waits for, comes from. *)
Definition sent (tr : list (label * outcome)) (s : system) (r : nat) (req : Request) : Prop :=
  requests s !! r = Some req /\ (Dispatch req false, Done false) ∈ tr.

Record inv (tr : list (label * outcome)) (s : system) : Prop := {
  inv_pending i r : pending s !! i = Some r -> (exists req, sent tr s r req /\ id req = i) /\ r ∉ (got s).*1 /\ closes tr r = 0%nat;
  inv_got r c : (r, c) ∈ got s -> exists req, sent tr s r req /\ want req = c /\ (Receive (id req) c, Continues) ∈ tr;
  inv_once : NoDup (got s).*1;
  inv_closes r : (0 < closes tr r)%nat -> (r < length (requests s))%nat
}.

Lemma sent_grows tr s x s' r req : requests s `prefix_of` requests s' -> sent tr s r req -> sent (tr ++ [x]) s' r req.
Proof. intros Hp [H1 H2]. split; [by eapply prefix_lookup_Some|]. apply elem_of_app. by left. Qed.

Lemma got_grows tr s x s' r c : requests s `prefix_of` requests s' ->
  (exists req, sent tr s r req /\ want req = c /\ (Receive (id req) c, Continues) ∈ tr) ->
  exists req, sent (tr ++ [x]) s' r req /\ want req = c /\ (Receive (id req) c, Continues) ∈ tr ++ [x].
Proof. intros Hp (req & H1 & H2 & H3). exists req. split_and!; [by eapply sent_grows|done|]. apply elem_of_app. by left. Qed.

(** A request that is not there yet has no response and was not closed. *)
Lemma inv_fresh tr s : inv tr s -> length (requests s) ∉ (got s).*1 /\ closes tr (length (requests s)) = 0%nat.
Proof.
  intros I. split.
  - intros ([r c] & Hr & H)%list_elem_of_fmap. cbn [fst] in Hr. subst r. destruct (inv_got _ _ I _ _ H) as (req & [Hl _] & _).
    apply lookup_lt_Some in Hl. lia.
  - destruct (closes tr (length (requests s))) eqn:E; [done|]. pose proof (inv_closes _ _ I (length (requests s))). lia.
Qed.

(** The calls that do not concern [Close]. *)
Lemma closes_other tr l o r : (forall r', l = Close r' -> o <> Continues) -> closes (tr ++ [(l, o)]) r = closes tr r.
Proof. intros H. rewrite closes_snoc. destruct l; try (cbn; lia). destruct o; try (cbn; lia). by destruct (H r0). Qed.

Lemma inv_dispatch tr s s' req failed o : inv tr s -> requests s' = requests s ++ [req] -> got s' = got s ->
  (forall i r, pending s' !! i = Some r -> pending s !! i = Some r \/ (i = id req /\ r = length (requests s) /\ failed = false /\ o = Done false)) ->
  inv (tr ++ [(Dispatch req failed, o)]) s'.
Proof.
  intros I Hr Hg Hp. assert (requests s `prefix_of` requests s') as Hpre by (rewrite Hr; by apply prefix_app_r).
  destruct (inv_fresh _ _ I) as [Hf1 Hf2]. split.
  - intros i r [Hold|(-> & -> & -> & ->)]%Hp; rewrite closes_other, Hg by naive_solver.
    + destruct (inv_pending _ _ I _ _ Hold) as ((q & Hq & <-) & H). split; [|done]. exists q. split; [by eapply sent_grows|done].
    + split; [|done]. exists req. split; [|done]. split; [rewrite Hr; by apply list_lookup_middle|]. apply elem_of_app. right. apply list_elem_of_singleton. done.
  - intros r c. rewrite Hg. intros H. eapply got_grows; [done|]. by apply (inv_got _ _ I).
  - rewrite Hg. apply (inv_once _ _ I).
  - intros r. rewrite closes_other by naive_solver. intros H%(inv_closes _ _ I). rewrite Hr, length_app. lia.
Qed.

Lemma inv_step tr s l o s' : inv tr s -> step s l o s' -> inv (tr ++ [(l, o)]) s'.
Proof.
  intros I Hstep. assert (effect s l o s') as He.
  { apply step_effect; [|done]. intros i r H. destruct (inv_pending _ _ I _ _ H) as ((req & [Hr _] & Hi) & _). by exists req. }
  clear Hstep. destruct He as [req failed s' Hr Hp Hg|req failed s' Hr Hp Hg|r req s' Hreq Hr Hp Hg|r req s' Hold Hreq Hr Hp Hg|l o s' (Hr & Hp & Hg) H1 H2 H3].
  - eapply inv_dispatch; [done..|]. rewrite Hp. intros i r. destruct failed; [by left|]. rewrite lookup_insert_Some. naive_solver.
  - eapply inv_dispatch; [done..|]. rewrite Hp. by left.
  - assert (requests s `prefix_of` requests s') as Hpre by by rewrite Hr. split.
    + intros i r'. rewrite Hp, lookup_delete_Some. intros [Hne Hold]. destruct (inv_pending _ _ I _ _ Hold) as ((q & Hq & <-) & Hn & Hc). rewrite Hg.
      split_and!; [|done|]. { exists q. split; [by eapply sent_grows|done]. }
      rewrite closes_snoc, Hc. cbn. rewrite bool_decide_eq_false_2; [done|]. intros <-. destruct Hq as [Hq _]. by simplify_eq.
    + intros r' c. rewrite Hg. intros H. eapply got_grows; [done|]. by apply (inv_got _ _ I).
    + rewrite Hg. apply (inv_once _ _ I).
    + intros r'. rewrite closes_snoc, Hr. cbn. case_bool_decide as E; [subst r'; intros _; by apply lookup_lt_Some in Hreq|].
      rewrite Nat.add_0_r. apply (inv_closes _ _ I).
  - assert (requests s `prefix_of` requests s') as Hpre by by rewrite Hr. destruct (inv_pending _ _ I _ _ Hold) as ((q & Hq & _) & Hn & Hc).
    assert (q = req) as -> by (destruct Hq; by simplify_eq). split.
    + intros i r'. rewrite Hp, lookup_delete_Some. intros [Hne Hold']. destruct (inv_pending _ _ I _ _ Hold') as ((q & Hq' & <-) & Hn' & Hc').
      rewrite closes_other by naive_solver. split_and!; [|rewrite Hg; cbn [fmap list_fmap fst]|done]. { exists q. split; [by eapply sent_grows|done]. }
      apply not_elem_of_cons. split; [|done]. intros ->. destruct Hq, Hq'. by simplify_eq.
    + intros r' c. rewrite Hg. intros [[= -> ->]|H]%elem_of_cons; [|eapply got_grows; [done|]; by apply (inv_got _ _ I)].
      exists req. split_and!; [by eapply sent_grows|done|]. apply elem_of_app. right. by apply list_elem_of_singleton.
    + rewrite Hg. cbn [fmap list_fmap fst]. apply NoDup_cons. split; [done|apply (inv_once _ _ I)].
    + intros r'. rewrite closes_other, Hr by naive_solver. apply (inv_closes _ _ I).
  - assert (requests s `prefix_of` requests s') as Hpre by by rewrite Hr.
    assert ((got s').*1 ⊆+ (got s).*1) as Hsub by by apply fmap_submseteq. split.
    + intros i r. rewrite Hp. intros Hold. destruct (inv_pending _ _ I _ _ Hold) as ((q & Hq & <-) & Hn & Hc). rewrite closes_other by done.
      split_and!; [exists q; split; [by eapply sent_grows|done]| |done]. intros H. by apply Hn, (elem_of_submseteq _ _ _ H).
    + intros r c H. eapply got_grows; [done|]. apply (inv_got _ _ I). by eapply elem_of_submseteq.
    + destruct (submseteq_Permutation _ _ Hsub) as [k Hk]. pose proof (inv_once _ _ I) as Hn. rewrite Hk in Hn. by apply NoDup_app in Hn as [? _].
    + intros r. rewrite closes_other, Hr by done. apply (inv_closes _ _ I).
Qed.

Lemma run_inv tr s : run tr s -> inv tr s.
Proof.
  induction 1 as [|tr s l o s' Hrun IH Hstep]; [|by eapply inv_step]. split; cbn.
  - intros i r. by rewrite lookup_empty.
  - intros r c []%elem_of_nil.
  - apply NoDup_nil_2.
  - lia.
Qed.

(** The tracker stays well-formed, whatever happens. *)
Lemma onResponse_tracker s i c : TrackerLemmas.ok (requestTracker s) (clock s) -> (forall i r, pending s !! i = Some r -> is_Some (requests s !! r)) ->
  exists e s', onResponse enabled peer version s i c = Ret (e, s') /\ TrackerLemmas.ok (requestTracker s') (clock s') /\ closing s' = closing s /\ closed s' = closed s.
Proof.
  intros Hok Hp. unfold onResponse. destruct (TrackerLemmas.Fulfil_ok enabled _ _ peer version c i Hok) as (t & -> & Ht & _).
  cbn [pending requests setTracker]. destruct (pending s !! i) as [r|] eqn:E; [|eexists _, _; split; [reflexivity|done]].
  destruct (Hp _ _ E) as [req ->]. destruct (negb _); (eexists _, _; split; [reflexivity|done]).
Qed.

Lemma step_tracker s l o s' : TrackerLemmas.ok (requestTracker s) (clock s) -> (forall i r, pending s !! i = Some r -> is_Some (requests s !! r)) ->
  step s l o s' -> TrackerLemmas.ok (requestTracker s') (clock s') /\ (o = Crash -> exists k r, l = CloseChannel k /\ closing s !! k = Some r /\ r ∈ closed s).
Proof.
  intros Hok Hp Hstep. inversion Hstep; subst; (split; [|try done]); try done.
  - apply TrackerLemmas.Track_ok, Hok.
  - destruct (onCancel_rest s (id req)) as (_ & _ & _ & _ & E1 & E2). cbn [requestTracker clock setClosing]. by rewrite E1, E2.
  - intros _. by exists k, r.
  - destruct (onResponse_tracker _ i c Hok Hp) as (? & ? & E & Ht & _). rewrite E in *. by simplify_eq.
  - destruct (onResponse_tracker _ i c Hok Hp) as (? & ? & E & Ht & _). rewrite E in *. by simplify_eq.
  - destruct (onResponse_tracker _ i c Hok Hp) as (? & ? & E & _). congruence.
  - destruct (TrackerLemmas.tracker_handle_ok enabled _ _ e Hok) as (r & E & Hr). rewrite E in *. simplify_eq. by destruct (Hr t eq_refl).
  - destruct (TrackerLemmas.tracker_handle_ok enabled _ _ e Hok) as (r & E & _). congruence.
  - cbn [requestTracker clock setClock]. eapply TrackerLemmas.ok_later; [done|lia].
Qed.

(** A call of [Close] that was answered is about to close the channel, or has closed it. *)
Definition closings (s : system) (r : nat) : nat := (times (closing s) r + if bool_decide (r ∈ closed s) then 1 else 0)%nat.

Lemma onResponse_closing s i c e s' : onResponse enabled peer version s i c = Ret (e, s') -> closing s' = closing s /\ closed s' = closed s.
Proof. unfold onResponse. intros H. repeat case_match; by simplify_eq. Qed.

Lemma step_closings s l o s' r : step s l o s' -> (closings s' r <= closings s r + if isClose r (l, o) then 1 else 0)%nat.
Proof.
  intros Hstep. unfold closings. inversion Hstep; subst; cbn [isClose closing closed setClosing setClosed setHand setDelivered setTracker setClock setTerm setStopped setRequests onRequest setLoop]; try lia.
  - destruct (onCancel_rest s (id req)) as (_ & _ & _ & -> & _). rewrite times_snoc. lia.
  - rewrite (times_delete _ _ _ r H). destruct (decide (r0 = r)) as [->|Hne].
    + rewrite (bool_decide_eq_false_2 (r ∈ closed s)), !bool_decide_eq_true_2 by set_solver. lia.
    + rewrite (bool_decide_ext (r ∈ {[r0]} ∪ closed s) (r ∈ closed s)) by set_solver. lia.
  - rewrite (times_delete _ _ _ r H). lia.
  - destruct (onResponse_closing _ _ _ _ _ H0) as [-> ->]. lia.
  - destruct (onResponse_closing _ _ _ _ _ H0) as [-> ->]. lia.
Qed.

Lemma run_tracker tr s : run tr s -> TrackerLemmas.ok (requestTracker s) (clock s) /\ (forall r, (closings s r <= closes tr r)%nat) /\
  forall l, (l, Crash) ∈ tr -> exists r, (2 <= closes tr r)%nat.
Proof.
  induction 1 as [|tr s l o s' Hrun (Hok & Hcl & Hcr) Hstep].
  - split_and!; [apply TrackerLemmas.ok_New|intros r; unfold closings; rewrite bool_decide_eq_false_2 by (cbn; set_solver); cbn; lia|by intros l ?%elem_of_nil].
  - pose proof (run_inv _ _ Hrun) as I.
    destruct (step_tracker _ _ _ _ Hok (fun i r H => match inv_pending _ _ I i r H with conj (ex_intro _ _ (conj (conj Hr _) _)) _ => ex_intro _ _ Hr end) Hstep) as [Hok' Hcrash].
    split_and!; [done| |].
    + intros r. rewrite closes_snoc. pose proof (step_closings _ _ _ _ r Hstep). pose proof (Hcl r). lia.
    + intros l' [H|H]%elem_of_app; [destruct (Hcr _ H) as [r Hr]; exists r; rewrite closes_snoc; lia|].
      apply list_elem_of_singleton in H as [= -> <-]. destruct (Hcrash eq_refl) as (k & r & -> & Hk & Hin). exists r. rewrite closes_snoc.
      pose proof (Hcl r) as Hle. unfold closings in Hle. rewrite (times_delete _ _ _ r Hk), !bool_decide_eq_true_2 in Hle by done. lia.
Qed.

(** A request that is neither closed nor answered is still known to the loop, unless another one took its identifier. *)
Lemma run_live tr s req : run tr s -> NoDup (id <$> requests s) -> (Dispatch req false, Done false) ∈ tr ->
  exists r, requests s !! r = Some req /\ (closes tr r = 0%nat -> (Receive (id req) (want req), Continues) ∉ tr -> pending s !! id req = Some r).
Proof.
  intros Hrun. induction Hrun as [|tr s l o s' Hrun IH Hstep]; [by intros _ ?%elem_of_nil|]. intros Hnd Hin.
  pose proof (run_inv _ _ Hrun) as I.
  assert (effect s l o s') as He.
  { apply step_effect; [|done]. intros i r H. destruct (inv_pending _ _ I _ _ H) as ((q & [Hr _] & Hi) & _). by exists q. }
  clear Hstep. assert (requests s `prefix_of` requests s') as Hpre.
  { destruct He as [? ? ? Hr|? ? ? Hr|? ? ? _ Hr|? ? ? _ _ Hr|? ? ? [Hr _]]; rewrite Hr; [by apply prefix_app_r..|done|done|done]. }
  assert (NoDup (id <$> requests s)) as Hnd' by (destruct Hpre as [k Hk]; rewrite Hk, fmap_app in Hnd; by apply NoDup_app in Hnd as [? _]).
  apply elem_of_app in Hin as [Hin|[= <- <-]%list_elem_of_singleton].
  2:{ inversion He as [? ? ? Hr Hp Hg| | | |? ? ? _ _ _ H]; subst; [|by destruct (H req false)]. exists (length (requests s)). rewrite Hr, Hp.
      split; [by apply list_lookup_middle|]. intros _ _. apply lookup_insert_eq. }
  destruct (IH Hnd' Hin) as (r & Hr & Hlive). exists r. split; [by eapply prefix_lookup_Some|]. rewrite closes_snoc. intros Hc Hn.
  assert (pending s !! id req = Some r) as Hold by (apply Hlive; [lia|]; intros H; apply Hn, elem_of_app; by left).
  destruct He as [q failed s' Hr' Hp|q failed s' Hr' Hp|r' q s' Hq Hr' Hp|r' q s' Ho Hq Hr' Hp|l o s' (Hr' & Hp & _)]; rewrite Hp; try done.
  - destruct failed; [done|]. rewrite lookup_insert_ne; [done|]. intros E. rewrite Hr', fmap_app in Hnd. apply NoDup_app in Hnd as (_ & Hd & _).
    apply (Hd (id req)); [apply list_elem_of_fmap; exists req; split; [done|by eapply list_elem_of_lookup_2]|]. rewrite <- E. apply list_elem_of_here.
  - rewrite lookup_delete_ne; [done|]. intros E. cbn in Hc.
    assert (r' = r) as ->; [|rewrite bool_decide_eq_true_2 in Hc by done; lia].
    eapply NoDup_lookup; [exact Hnd'|..]; rewrite list_lookup_fmap; [by rewrite Hq|rewrite Hr; cbn; congruence].
  - rewrite lookup_delete_ne; [done|]. intros E. apply Hn. apply elem_of_app. right. apply list_elem_of_singleton.
    assert (q = req) as ->; [|done]. rewrite E in Ho. by simplify_eq.
Qed.

End Peer.

End DispatcherLemmas.

Section Theorems.
Import Tracker TrackerLemmas.

(** C28: A request tracker never panics, and what it holds is exactly what a map without list or timer would hold, where a call of [clean] drops the requests that are older than the timeout
    and five milliseconds: stopping at the first young request loses nothing. It holds at most [maxTrackedPackets] requests, and while it holds any, the timer is either armed for the oldest of
    them or has fired. *)
Theorem tracker_expires_in_time enabled timeout0 now evs :
  Forall (fun x => 0 <= x.1) evs ->
  exists r, events enabled (New timeout0) now evs = Ret r /\
    forall t now', r = Some (t, now') ->
      pending t = specEvents enabled timeout0 now ∅ evs /\ (size (pending t) <= maxTrackedPackets)%nat /\
      (pending t <> ∅ -> wake t = Some Fired \/
        exists id req, pending t !! id = Some req /\ wake t = Some (Armed (time req + timeout0)) /\ forall i r, pending t !! i = Some r -> time req <= time r).
Proof.
  intros Hd. destruct (events_ok enabled evs (New timeout0) now (ok_New timeout0 now) Hd) as (r & Hr & H). exists r. split; [done|].
  intros t now' Ht. destruct (H _ _ Ht) as (Hok & Hp & Hto). split; [exact Hp|]. split; [apply Hok|]. intros Hne.
  pose proof (timer_oldest _ _ Hok Hne) as Ho. rewrite Hto in Ho. exact Ho.
Qed.

End Theorems.

(** Two requests; the first runs out, the second is answered. *)
Definition exEvents : list (Z * Tracker.event) :=
  [(0, Tracker.Tracked "a" 66 3 4 7); (2000000, Tracker.Tracked "a" 66 5 6 8); (6000000, Tracker.Fire); (3000000, Tracker.Cleaned); (0, Tracker.Fulfilled "a" 66 6 8)].

Lemma tracker_expires_in_time_witness : exists r, TrackerLemmas.events true (Tracker.New 5000000) 0 exEvents = Ret r /\
  r <> None /\ TrackerLemmas.specEvents true 5000000 0 ∅ (take 4 exEvents) !! 7 = None /\ is_Some (TrackerLemmas.specEvents true 5000000 0 ∅ (take 4 exEvents) !! 8).
Proof.
  destruct (tracker_expires_in_time true 5000000 0 exEvents) as (r & Hr & _).
  - repeat (constructor; [apply (bool_decide_unpack _); vm_compute; exact I|]). constructor.
  - exists r. split; [exact Hr|]. split; [|split].
    + intros ->. vm_compute in Hr. discriminate Hr.
    + vm_compute. reflexivity.
    + vm_compute. eexists. reflexivity.
Defined.

Section DispatcherTheorems.
Import Dispatcher DispatcherLemmas.

(** C7: In every run of a dispatcher, of the goroutines that send and give up requests, of its readers and of the shared tracker: a delivered response belongs to a request that was sent, has
    its identifier and the code it wants, and each request gets at most one; a request whose [Close] was answered gets no response that arrives later; and nothing panics unless some request
    is closed twice. *)
Theorem responses_match_requests enabled peer version timeout tr s :
  run enabled peer version timeout tr s ->
  (forall r c, (r, c) ∈ delivered s -> exists req, requests s !! r = Some req /\ want req = c /\
     (Dispatch req false, Done false) ∈ tr /\ (Receive (id req) c, Continues) ∈ tr) /\
  NoDup (delivered s).*1 /\
  (forall r i c s', (Close r, Continues) ∈ tr -> onResponse enabled peer version s i c <> Ret (Accepted r, s')) /\
  (forall l, (l, Crash) ∈ tr -> exists r, (2 <= closes tr r)%nat).
Proof.
  intros Hrun. pose proof (run_inv _ _ _ _ _ _ Hrun) as I. split_and!.
  - intros r c H. destruct (inv_got _ _ I r c) as (req & [H1 H2] & H3 & H4); [apply elem_of_app; by right|]. by exists req.
  - pose proof (inv_once _ _ I) as Hn. unfold got in Hn. rewrite fmap_app in Hn. by apply NoDup_app in Hn as (_ & _ & ?).
  - intros r i c s' Hc Ha. destruct (onResponse_accept _ _ _ _ _ _ _ _ Ha) as (req & Hp & _). destruct (inv_pending _ _ I _ _ Hp) as (_ & _ & H0).
    unfold closes in H0. apply nil_length_inv in H0. eapply filter_nil_not_elem_of; [exact H0| |exact Hc]. cbn. by apply bool_decide_eq_true_2.
  - by destruct (run_tracker _ _ _ _ _ _ Hrun) as (_ & _ & ?).
Qed.

(** C27: While the dispatcher runs, a response that arrives for an open request is accepted and goes to that request: one that was sent, was not closed, had no such response yet and has
    an identifier of its own. *)
Theorem open_requests_are_answered enabled peer version timeout tr s req :
  run enabled peer version timeout tr s -> stopped s = false -> NoDup (id <$> requests s) ->
  (Dispatch req false, Done false) ∈ tr -> (Receive (id req) (want req), Continues) ∉ tr ->
  exists r, requests s !! r = Some req /\
    (closes tr r = 0%nat -> exists s', step enabled peer version s (Receive (id req) (want req)) Continues s' /\
       inHand s' = inHand s ++ [(r, want req, false)] /\ pending s' = delete (id req) (pending s)).
Proof.
  intros Hrun Hs Hnd Hin Hn. destruct (run_live _ _ _ _ _ _ _ Hrun Hnd Hin) as (r & Hr & Hlive). exists r. split; [exact Hr|]. intros Hc.
  pose proof (Hlive Hc Hn) as Hp. destruct (run_tracker _ _ _ _ _ _ Hrun) as (Hok & _ & _).
  destruct (TrackerLemmas.Fulfil_ok enabled _ _ peer version (want req) (id req) Hok) as (t & Ht & _).
  assert (onResponse enabled peer version s (id req) (want req) = Ret (Accepted r, setLoop (setTracker s t) (delete (id req) (pending s)) t)) as E.
  { unfold onResponse. rewrite Ht. cbn [pending requests setTracker]. rewrite Hp, Hr, Z.eqb_refl. done. }
  eexists. split; [eapply step_accept; [exact Hs|exact E]|]. done.
Qed.

End DispatcherTheorems.

(** A request for headers (code 3, answered with 4) that is sent, answered and delivered. *)
Definition exRequest : Dispatcher.Request := Dispatcher.mkRequest 9 3 4.

Definition exSent : list (Dispatcher.label * Dispatcher.outcome) := [(Dispatcher.Dispatch exRequest false, Dispatcher.Done false)].

Lemma exSent_runs : Dispatcher.run true "a" 66 1000 exSent (Dispatcher.onRequest true "a" 66 (Dispatcher.setRequests (Dispatcher.start 1000) [exRequest]) 0 exRequest false).
Proof. apply (Dispatcher.run_step _ _ _ _ [] (Dispatcher.start 1000)); [constructor|]. by apply (Dispatcher.step_dispatch _ _ _ (Dispatcher.start 1000)). Qed.

Lemma exDelivered_runs : exists s, Dispatcher.run true "a" 66 1000 (exSent ++ [(Dispatcher.Receive 9 4, Dispatcher.Continues)] ++ [(Dispatcher.Look 0, Dispatcher.Continues)] ++
    [(Dispatcher.Deliver 0 false, Dispatcher.Done false)]) s /\ Dispatcher.delivered s = [(0%nat, 4)].
Proof.
  eexists. split.
  - rewrite !(assoc_L (++)). eapply Dispatcher.run_step; [eapply Dispatcher.run_step; [eapply Dispatcher.run_step; [exact exSent_runs|]|]|].
    + eapply Dispatcher.step_accept; [reflexivity|vm_compute; reflexivity].
    + eapply Dispatcher.step_look; [vm_compute; reflexivity|]. apply (bool_decide_unpack _). vm_compute. exact I.
    + eapply Dispatcher.step_deliver. vm_compute. reflexivity.
  - vm_compute. reflexivity.
Qed.

Lemma responses_match_requests_witness : exists tr s req, Dispatcher.run true "a" 66 1000 tr s /\ (0%nat, 4) ∈ Dispatcher.delivered s /\
  Dispatcher.requests s !! 0%nat = Some req /\ (Dispatcher.Receive (Dispatcher.id req) 4, Dispatcher.Continues) ∈ tr.
Proof.
  destruct exDelivered_runs as (s & Hrun & Hd). pose proof (proj1 (responses_match_requests true "a" 66 1000 _ s Hrun) 0%nat 4) as H.
  destruct H as (req & Hr & _ & _ & Hin); [rewrite Hd; apply list_elem_of_here|]. eexists _, s, req. split; [exact Hrun|].
  split; [rewrite Hd; apply list_elem_of_here|]. split; [exact Hr|exact Hin].
Defined.

Lemma open_requests_are_answered_witness : exists s s', Dispatcher.run true "a" 66 1000 exSent s /\
  Dispatcher.step true "a" 66 s (Dispatcher.Receive 9 4) Dispatcher.Continues s' /\ Dispatcher.inHand s' = [(0%nat, 4, false)].
Proof.
  pose proof (open_requests_are_answered true "a" 66 1000 exSent _ exRequest exSent_runs eq_refl) as H. destruct H as (r & Hr & H).
  - apply NoDup_singleton.
  - apply list_elem_of_here.
  - intros Hin. apply list_elem_of_singleton in Hin. discriminate Hin.
  - destruct r as [|r]; [|discriminate Hr]. destruct (H eq_refl) as (s' & Hs & Hh & _). eexists _, s'. split; [exact exSent_runs|]. split; [exact Hs|exact Hh].
Defined.
