(* ===== verification/EthHandshake.v ===== *)
(** * The handshake of the eth protocol (src/eth/protocols/eth/handshake.go)

    Each side sends its status while another goroutine reads that of the other side, and waits for both; from version 67 on, a second exchange follows. What the connection does
    in an exchange is an input: the message that is read, whether the write succeeds, which goroutine ends first, and when the timer fires. *)

From stdpp Require Import base tactics list strings.
From Stdlib Require Import ZArith Lia.
From S2P Require Import Prelude RlpRaw RlpEncode RlpDecode ForkId KeyValue EthPackets.

Open Scope Z_scope.
Open Scope go_scope.

Import Rlp RlpEncode RlpDecode EthPackets.

Module EthHandshake.

Inductive handshakeError :=
| errConnection
| errEncoding
| errNoStatusMsg
| errMsgTooLarge
| errDecode
| errNetworkIDMismatch
| errProtocolVersionMismatch
| errGenesisMismatch
| errForkIDRejected
| DiscReadTimeout
| errTotalDifficulty.

(** The fields of a peer that the handshake sets; [txTerm] says whether the channel of that name is closed. *)
Record peer := mkPeer { version : Z; td : option Z; head : bytes; statusExtension : option bool; txTerm : bool }.

(** The connection in an exchange; [timeoutAfter] is the number of results that come before the timer fires, if it does. *)
Record exchange := mkExchange { incoming : option Msg; written : bool; readFirst : bool; timeoutAfter : option nat }.

Definition readStatus (version network : Z) (genesis : bytes) (forkFilter : ForkId.ID -> option ForkId.filterError) (incoming : option Msg) : handshakeError + StatusPacket :=
  match incoming with
  | None => inl errConnection
  | Some msg =>
      if negb (Code msg =? StatusMsg) then inl errNoStatusMsg
      else if maxMessageSize <? Size msg then inl errMsgTooLarge
      else
        match MsgDecode decodeStatus msg with
        | Err _ => inl errDecode
        | Ok status =>
            if negb (NetworkID status =? network) then inl errNetworkIDMismatch
            else if negb (ProtocolVersion status =? version) then inl errProtocolVersionMismatch
            else if bool_decide (Genesis status <> genesis) then inl errGenesisMismatch
            else match forkFilter (ForkID status) with Some _ => inl errForkIDRejected | None => inr status end
        end
  end.

Definition readUpgradeStatus (incoming : option Msg) : handshakeError + option bytes :=
  match incoming with
  | None => inl errConnection
  | Some msg =>
      if negb (Code msg =? UpgradeStatusMsg) then inl errNoStatusMsg
      else if maxMessageSize <? Size msg then inl errMsgTooLarge
      else match MsgDecode decodeUpgradeStatus msg with Err _ => inl errDecode | Ok status => inr status end
  end.

(** The result of the sending goroutine. *)
Definition sendResult (sent : res Msg) (written : bool) : option handshakeError :=
  match sent with
  | Err _ => Some errEncoding
  | Ok _ => if written then None else Some errConnection
  end.

Definition failure {A} (r : handshakeError + A) : option handshakeError := match r with inl e => Some e | inr _ => None end.

(** The loop that waits for the results of both goroutines: the first error ends it, and so does the timer. *)
Fixpoint wait (timeoutAfter : option nat) (results : list (option handshakeError)) : option handshakeError :=
  match results with
  | [] => None
  | r :: results =>
      if bool_decide (timeoutAfter = Some 0%nat) then Some DiscReadTimeout
      else match r with Some e => Some e | None => wait (pred <$> timeoutAfter) results end
  end.

Definition await (x : exchange) (sent : res Msg) (readError : option handshakeError) : option handshakeError :=
  let sendError := sendResult sent (written x) in
  wait (timeoutAfter x) (if readFirst x then [readError; sendError] else [sendError; readError]).

Definition CloseTxBroadcast (p : peer) : peer := mkPeer (version p) (td p) (head p) (statusExtension p) true.

(** The exchange of version 67. *)
Definition upgrade (p : peer) (extension : option bool) (x : exchange) : go (peer * option handshakeError) :=
  let! raw := ExtensionEncode (default false extension) in
  match raw with
  | Err _ => Ret (p, Some errEncoding)
  | Ok raw =>
      let! sent := Send UpgradeStatusMsg (writeUpgradeStatus (Some raw)) in
      let read := readUpgradeStatus (incoming x) in
      match await x sent (failure read), read with
      | Some e, _ => Ret (p, Some e)
      | None, inl e => Ret (p, Some e)
      | None, inr status =>
          match GetExtension status with
          | Err _ => Ret (p, Some errDecode)
          | Ok disable =>
              let p := mkPeer (version p) (td p) (head p) (Some disable) (txTerm p) in
              Ret (if disable then CloseTxBroadcast p else p, None)
          end
      end
  end.

(** The status a side sends. *)
Definition ownStatus (p : peer) (network : Z) (td : option Z) (head genesis : bytes) (forkID : ForkId.ID) : StatusPacket :=
  mkStatus (u32 (version p)) network td head genesis forkID.

(** [first] and [second] are the two exchanges. *)
Definition Handshake (p : peer) (network : Z) (td_ : option Z) (head_ genesis : bytes) (forkID : ForkId.ID)
    (forkFilter : ForkId.ID -> option ForkId.filterError) (extension : option bool) (first second : exchange) : go (peer * option handshakeError) :=
  let! sent := Send StatusMsg (writeStatus (ownStatus p network td_ head_ genesis forkID)) in
  let read := readStatus (version p) network genesis forkFilter (incoming first) in
  match await first sent (failure read), read with
  | Some e, _ => Ret (p, Some e)
  | None, inl e => Ret (p, Some e)
  | None, inr status =>
      let p := mkPeer (version p) (StatusTD status) (StatusHead status) (statusExtension p) (txTerm p) in
      let! r := (if ETH67 <=? version p then upgrade p extension second else Ret (p, None)) in
      match r with
      | (p, Some e) => Ret (p, Some e)
      | (p, None) =>
          match td p with
          | None => Panic
          | Some td => Ret (p, if 100 <? BitLen td then Some errTotalDifficulty else None)
          end
      end
  end.

End EthHandshake.
