(* ===== verification/EthHandshakeProps.v ===== *)
(** * Properties of the handshake

    A handshake that succeeds has checked everything it is meant to check, and two sides that agree complete it and learn of each other. *)

From stdpp Require Import base tactics list strings.
From Stdlib Require Import ZArith Lia.
From S2P Require Import Prelude Bytes RlpRaw RlpLemmas RlpEncode RlpEncodeProps RlpDecode RlpDecodeProps TypesRlp TypesRlpProps RlpReads RlpCodec ForkId KeyValue EthPackets EthPacketsProps EthHandshake.

Open Scope Z_scope.
Open Scope go_scope.

Import Rlp RlpLemmas RlpEncode RlpEncodeLemmas RlpDecode RlpDecodeLemmas TypesRlpLemmas RlpCodec EthPackets EthPacketsLemmas EthHandshake.

Module HandshakeLemmas.

(** The timer does not fire before both results are there. *)
Definition inTime (x : exchange) : Prop := forall k, timeoutAfter x = Some k -> (2 <= k)%nat.

Lemma await_ok x sent r : await x sent r = None <-> inTime x /\ r = None /\ written x = true /\ exists m, sent = Ok m.
Proof.
  unfold await, inTime. split.
  - destruct x as [inc w [] [[|[|k]]|]]; cbn; destruct r, sent, w; cbn; try done; intros _; (split; [intros k' ?; simplify_eq; lia|naive_solver]).
  - intros (Ht & -> & Hw & m & ->). rewrite Hw. destruct x as [inc w [] [[|[|k]]|]]; cbn in *; try done; specialize (Ht _ eq_refl); lia.
Qed.

Lemma readStatus_ok version network genesis forkFilter inc status :
  readStatus version network genesis forkFilter inc = inr status <->
  exists m, inc = Some m /\ Code m = StatusMsg /\ Size m <= maxMessageSize /\ MsgDecode decodeStatus m = Ok status /\
    NetworkID status = network /\ ProtocolVersion status = version /\ Genesis status = genesis /\ forkFilter (ForkID status) = None.
Proof.
  unfold readStatus. split.
  - destruct inc as [m|]; [|done]. destruct (Z.eqb_spec (Code m) StatusMsg); [|done]. destruct (Z.ltb_spec maxMessageSize (Size m)); [done|].
    destruct (MsgDecode decodeStatus m) as [st|] eqn:E; [|done]. destruct (Z.eqb_spec (NetworkID st) network); [|done].
    destruct (Z.eqb_spec (ProtocolVersion st) version); [|done]. cbn [negb]. case_bool_decide as G; [done|].
    destruct (forkFilter (ForkID st)) eqn:F; [done|]. intros [= <-]. by exists m.
  - intros (m & -> & Hc & Hs & -> & <- & <- & <- & ->). rewrite Hc, !Z.eqb_refl, (proj2 (Z.ltb_ge _ _)) by done. cbn [negb].
    by rewrite bool_decide_eq_false_2 by tauto.
Qed.

(** What a status says of its sender, as the peer remembers it. *)
Definition learnt (p : peer) (status : StatusPacket) : peer := mkPeer (version p) (StatusTD status) (StatusHead status) (statusExtension p) (txTerm p).
Definition extended (p : peer) (disable : bool) : peer := mkPeer (version p) (td p) (head p) (Some disable) (txTerm p || disable).

(** The second exchange went well, and gave this extension. *)
Definition upgraded (x : exchange) (disable : bool) : Prop :=
  inTime x /\ written x = true /\ exists m raw, incoming x = Some m /\ Code m = UpgradeStatusMsg /\ Size m <= maxMessageSize /\ MsgDecode decodeUpgradeStatus m = Ok raw /\ GetExtension raw = Ok disable.

Definition extensionBytes (b : bool) : list Z := [0xC1; if b then 1 else 0x80].

Lemma extension_encodes b : ExtensionEncode b = Ret (Ok (extensionBytes b)).
Proof. destruct b; vm_compute; reflexivity. Qed.

Lemma extension_decodes b : GetExtension (Some (extensionBytes b)) = Ok b.
Proof. destruct b; vm_compute; reflexivity. Qed.

Lemma extension_sent b : exists m, Send UpgradeStatusMsg (writeUpgradeStatus (Some (extensionBytes b))) = Ret (Ok m) /\
  Code m = UpgradeStatusMsg /\ Size m <= maxMessageSize /\ MsgDecode decodeUpgradeStatus m = Ok (Some (extensionBytes b)).
Proof. destruct b; (eexists; split; [vm_compute; reflexivity|]); (split; [reflexivity|]; split; [apply Z.leb_le; vm_compute; reflexivity|vm_compute; reflexivity]). Qed.

Lemma upgrade_ok p extension x p' : upgrade p extension x = Ret (p', None) <-> exists disable, upgraded x disable /\ p' = extended p disable.
Proof.
  unfold upgrade. rewrite extension_encodes. destruct (extension_sent (default false extension)) as (own & -> & _). split.
  - destruct (await _ _ _) eqn:Ha; [done|]. destruct (readUpgradeStatus (incoming x)) as [e|raw] eqn:Hr; [done|].
    apply await_ok in Ha as (Ht & _ & Hw & _). destruct (GetExtension raw) as [disable|] eqn:Hg; [|done].
    unfold readUpgradeStatus in Hr. destruct (incoming x) as [m|] eqn:Hi; [|done]. destruct (Z.eqb_spec (Code m) UpgradeStatusMsg); [|done].
    destruct (Z.ltb_spec maxMessageSize (Size m)); [done|]. destruct (MsgDecode decodeUpgradeStatus m) as [raw'|] eqn:Hd; [|done]. injection Hr as ->.
    intros [= <-]. exists disable. split; [by split_and!; [..|exists m, raw]|]. destruct disable; unfold extended, CloseTxBroadcast; cbn; by rewrite ?orb_true_r, ?orb_false_r.
  - intros (disable & (Ht & Hw & m & raw & Hi & Hc & Hs & Hd & Hg) & ->).
    assert (readUpgradeStatus (incoming x) = inr raw) as Hr.
    { unfold readUpgradeStatus. rewrite Hi, Hc, Z.eqb_refl, (proj2 (Z.ltb_ge _ _)), Hd by done. done. }
    rewrite Hr. cbn [failure]. rewrite (proj2 (await_ok x (Ok own) None)) by eauto. rewrite Hg.
    destruct disable; unfold extended, CloseTxBroadcast; cbn; by rewrite ?orb_true_r, ?orb_false_r.
Qed.

(** All that a successful handshake establishes. *)
Definition agreed (p : peer) (network : Z) (genesis : list Z) (forkFilter : ForkId.ID -> option ForkId.filterError) (first second : exchange) (p' : peer) : Prop :=
  exists m status d, inTime first /\ written first = true /\ incoming first = Some m /\ Code m = StatusMsg /\ Size m <= maxMessageSize /\
    MsgDecode decodeStatus m = Ok status /\ NetworkID status = network /\ ProtocolVersion status = version p /\ Genesis status = genesis /\
    forkFilter (ForkID status) = None /\ StatusTD status = Some d /\ BitLen d <= 100 /\
    ((version p < ETH67 /\ p' = learnt p status) \/ (ETH67 <= version p /\ exists disable, upgraded second disable /\ p' = extended (learnt p status) disable)).

Lemma Handshake_ok p network td_ head_ genesis forkID forkFilter extension first second own p' :
  Send StatusMsg (writeStatus (ownStatus p network td_ head_ genesis forkID)) = Ret (Ok own) ->
  Handshake p network td_ head_ genesis forkID forkFilter extension first second = Ret (p', None) <-> agreed p network genesis forkFilter first second p'.
Proof.
  intros Hown. unfold Handshake, agreed. rewrite Hown. split.
  - destruct (await _ _ _) eqn:Ha; [done|]. destruct (readStatus _ _ _ _ _) as [e|status] eqn:Hr; [done|]. cbn [version].
    apply await_ok in Ha as (Ht & _ & Hw & _). apply readStatus_ok in Hr as (m & Hi & Hc & Hs & Hd & Hn & Hv & Hg & Hf).
    destruct (Z.leb_spec ETH67 (version p)).
    + destruct (upgrade _ _ _) as [[q [e|]]|] eqn:Hu; [done| |done]. apply upgrade_ok in Hu as (disable & Hu & ->). cbn [td extended].
      destruct (StatusTD status) as [d|] eqn:Htd; [|done]. destruct (Z.ltb_spec 100 (BitLen d)); [done|]. intros [= <-].
      exists m, status, d. split_and!; try done. right. split; [done|]. exists disable. split; [done|]. unfold learnt. by rewrite Htd.
    + cbn [td]. destruct (StatusTD status) as [d|] eqn:Htd; [|done]. destruct (Z.ltb_spec 100 (BitLen d)); [done|]. intros [= <-].
      exists m, status, d. split_and!; try done. left. split; [done|]. unfold learnt. by rewrite Htd.
  - intros (m & status & d & Ht & Hw & Hi & Hc & Hs & Hd & Hn & Hv & Hg & Hf & Htd & Hb & Hcase).
    assert (readStatus (version p) network genesis forkFilter (incoming first) = inr status) as Hr by (apply readStatus_ok; by exists m).
    rewrite Hr. cbn [failure]. rewrite (proj2 (await_ok first (Ok own) None)) by eauto. fold (learnt p status). cbn [version learnt].
    destruct Hcase as [[Hlt ->]|[Hge (disable & Hu & ->)]].
    + rewrite (proj2 (Z.leb_gt _ _)) by done. cbn [td learnt]. rewrite Htd, (proj2 (Z.ltb_ge _ _)) by done. done.
    + rewrite (proj2 (Z.leb_le _ _)), (proj2 (upgrade_ok _ extension second (extended (learnt p status) disable))) by eauto. cbn [td learnt extended].
      rewrite Htd, (proj2 (Z.ltb_ge _ _)) by done. done.
Qed.

(** ** An honest side *)

Lemma encUint_bound v n : (n < 56)%nat -> 0 <= v < 256 ^ Z.of_nat n -> (length (encUint v) <= n + 9)%nat.
Proof. intros Hn Hv. pose proof (bytelen_le v n Hv). unfold encUint. pose proof (encString_bound (minimal v)) as H'. rewrite length_minimal in H'. lia. Qed.

(** A status that a node can send: within its types, with a total difficulty below the bound. *)
Definition honest (st : StatusPacket) : Prop := statusOk_ st /\ exists d, StatusTD st = Some d /\ d < 2 ^ 100.

Lemma status_small st : honest st -> Z.of_nat (length (encStatus st)) <= maxMessageSize.
Proof.
  intros [(Hv & Hn & Htd & [_ Hh] & [_ Hg] & [[_ Hf] Hx]) (d & E & Hd)]. rewrite E in Htd. destruct Htd as [Hd0 _].
  unfold encStatus. rewrite E. change (default 0 (Some d)) with d.
  pose proof (encUint_bound (ProtocolVersion st) 8) as B1. pose proof (encUint_bound (NetworkID st) 8) as B2. pose proof (encUint_bound d 13) as B3.
  pose proof (encUint_bound (ForkId.Next (ForkID st)) 8) as B4. pose proof (encString_bound (StatusHead st)) as B5. pose proof (encString_bound (Genesis st)) as B6.
  pose proof (encString_bound (ForkId.Hash (ForkID st))) as B7. unfold in_u32, in_u64 in *. rewrite Hh in B5. rewrite Hg in B6. rewrite Hf in B7.
  change (256 ^ Z.of_nat 8) with (2 ^ 64) in *. change (256 ^ Z.of_nat 13) with (2 ^ 104) in *. unfold maxMessageSize.
  pose proof (encList_bound (encString (ForkId.Hash (ForkID st)) ++ encUint (ForkId.Next (ForkID st)))) as B8. rewrite length_app in B8.
  etrans; [apply inj_le, (encList_bound _)|]; rewrite !length_app; lia.
Qed.

Lemma status_sent st : honest st -> exists m, Send StatusMsg (writeStatus st) = Ret (Ok m) /\ Code m = StatusMsg /\ Size m <= maxMessageSize /\ MsgDecode decodeStatus m = Ok st.
Proof.
  intros H. pose proof (status_small st H) as Hs. assert (Z.of_nat (length (encStatus st)) < 2 ^ 32) as Hl by (unfold maxMessageSize in Hs; lia).
  destruct (codec_roundtrip _ _ _ _ _ st codec_status (proj1 H)) as [E1 E2]; [lia|].
  exists (mkMsg StatusMsg (Z.of_nat (length (encStatus st))) (encStatus st)). split; [|split; [done|split; [done|]]].
  - unfold Send. rewrite E1. unfold u32. by rewrite Z.mod_small by lia.
  - by apply MsgDecode_reads.
Qed.

Lemma BitLen_bound d n : 0 <= d < 2 ^ n -> 0 <= n -> BitLen d <= n.
Proof.
  intros Hd Hn. unfold BitLen. case_decide; [done|]. rewrite Z.abs_eq by lia. assert (Z.log2 d < n) by (apply Z.log2_lt_pow2; lia). lia.
Qed.

(** What a side remembers of another one after the handshake. *)
Definition remembers (p : peer) (st : StatusPacket) (extension : option bool) : peer :=
  if ETH67 <=? version p then extended (learnt p st) (default false extension) else learnt p st.

(** One side, when the messages of the other one arrive. *)
Lemma side_succeeds p own st forkFilter extension theirs m u rf1 rf2 :
  honest own -> own = ownStatus p (NetworkID st) (StatusTD own) (StatusHead own) (Genesis st) (ForkID own) ->
  honest st -> ProtocolVersion st = version p -> forkFilter (ForkID st) = None ->
  Send StatusMsg (writeStatus st) = Ret (Ok m) -> Send UpgradeStatusMsg (writeUpgradeStatus (Some (extensionBytes (default false theirs)))) = Ret (Ok u) ->
  Handshake p (NetworkID own) (StatusTD own) (StatusHead own) (Genesis own) (ForkID own) forkFilter extension (mkExchange (Some m) true rf1 None) (mkExchange (Some u) true rf2 None)
    = Ret (remembers p st theirs, None).
Proof.
  intros Ho Eo Hs Hv Hf Hm Hu. destruct (status_sent own Ho) as (mo & Hmo & _). destruct (status_sent st Hs) as (m' & Hm' & Hc & Hz & Hd).
  rewrite Hm' in Hm. injection Hm as ->. destruct (extension_sent (default false theirs)) as (u' & Hu' & Huc & Huz & Hud). rewrite Hu' in Hu. injection Hu as ->.
  destruct Hs as [(_ & _ & Htd & _) (d & Ed & Hlt)]. rewrite Ed in Htd. destruct Htd as [H0 _].
  assert (NetworkID own = NetworkID st /\ Genesis own = Genesis st) as [En Eg] by (rewrite Eo; done).
  apply (Handshake_ok _ _ _ _ _ _ _ _ _ _ mo); [rewrite En, Eg, <- Eo; exact Hmo|].
  exists m, st, d. split_and!; try done; [by apply BitLen_bound|]. unfold remembers. destruct (Z.leb_spec ETH67 (version p)); [right|by left].
  split; [done|]. exists (default false theirs). split; [|done]. split; [done|]. split; [done|]. exists u, (Some (extensionBytes (default false theirs))).
  split_and!; try done. apply extension_decodes.
Qed.

End HandshakeLemmas.
Import HandshakeLemmas.

(** C26: When the status of a side can be encoded, its handshake succeeds exactly if its messages were written and the answers read before the timer fires, the answer is a status of bounded
    size that decodes, with the same network, version and genesis and a fork identifier that the filter accepts, the total difficulty has at most 100 bits, and, from version 67 on, the second
    exchange gives an extension. The peer then has the total difficulty and the head of the status, and the extension, and stops broadcasting transactions if that asks for it. *)
Theorem handshake_checks p network td_ head_ genesis forkID forkFilter extension first second p' :
  (exists own, Send StatusMsg (writeStatus (ownStatus p network td_ head_ genesis forkID)) = Ret (Ok own)) ->
  Handshake p network td_ head_ genesis forkID forkFilter extension first second = Ret (p', None) <-> agreed p network genesis forkFilter first second p'.
Proof. intros [own Hown]. by eapply Handshake_ok. Qed.

(** C13: Two sides with the same version, network and genesis, whose filters accept each other's fork identifiers, complete the handshake when their messages arrive, whichever goroutine
    is first on either side; and each then has the total difficulty, the head and the extension of the other. *)
Theorem peers_shake_hands p q st1 st2 filter1 filter2 ext1 ext2 a b c d :
  honest st1 -> honest st2 -> version p = ProtocolVersion st1 -> version q = ProtocolVersion st2 ->
  ProtocolVersion st1 = ProtocolVersion st2 -> NetworkID st1 = NetworkID st2 -> Genesis st1 = Genesis st2 ->
  filter1 (ForkID st2) = None -> filter2 (ForkID st1) = None ->
  exists m1 m2 u1 u2,
    ExtensionEncode (default false ext1) = Ret (Ok (extensionBytes (default false ext1))) /\ ExtensionEncode (default false ext2) = Ret (Ok (extensionBytes (default false ext2))) /\
    Send StatusMsg (writeStatus st1) = Ret (Ok m1) /\ Send StatusMsg (writeStatus st2) = Ret (Ok m2) /\
    Send UpgradeStatusMsg (writeUpgradeStatus (Some (extensionBytes (default false ext1)))) = Ret (Ok u1) /\
    Send UpgradeStatusMsg (writeUpgradeStatus (Some (extensionBytes (default false ext2)))) = Ret (Ok u2) /\
    Handshake p (NetworkID st1) (StatusTD st1) (StatusHead st1) (Genesis st1) (ForkID st1) filter1 ext1 (mkExchange (Some m2) true a None) (mkExchange (Some u2) true b None)
      = Ret (remembers p st2 ext2, None) /\
    Handshake q (NetworkID st2) (StatusTD st2) (StatusHead st2) (Genesis st2) (ForkID st2) filter2 ext2 (mkExchange (Some m1) true c None) (mkExchange (Some u1) true d None)
      = Ret (remembers q st1 ext1, None).
Proof.
  intros H1 H2 Hp Hq Hv Hn Hg Hf1 Hf2. destruct (status_sent _ H1) as (m1 & Hm1 & _). destruct (status_sent _ H2) as (m2 & Hm2 & _).
  destruct (extension_sent (default false ext1)) as (u1 & Hu1 & _). destruct (extension_sent (default false ext2)) as (u2 & Hu2 & _).
  pose proof (proj1 (proj1 H1)) as R1. pose proof (proj1 (proj1 H2)) as R2.
  exists m1, m2, u1, u2. split_and!; [apply extension_encodes|apply extension_encodes|done..| |]; (eapply side_succeeds; [done| |done|congruence|done..]); unfold ownStatus, u32, in_u32 in *.
  - rewrite Hp, Z.mod_small, <- Hn, <- Hg by done. by destruct st1.
  - rewrite Hq, Z.mod_small, Hn, Hg by done. by destruct st2.
Qed.

(** Two nodes of the BNB chain, one of them at an early block, the other one without interest in transactions. *)
Definition exStatus (head_ : Z) (td_ : Z) (tip : Z) : StatusPacket :=
  mkStatus 67 56 (Some td_) (replicate 32 tip) (ForkId.genesisBytes ForkId.BSCGenesisHash) (ForkId.NewID ForkId.BSCChainConfig ForkId.BSCGenesisHash head_).

Lemma exStatus_honest head_ td_ tip : is_byte tip -> 0 <= td_ < 2 ^ 64 -> forkOk (ForkId.NewID ForkId.BSCChainConfig ForkId.BSCGenesisHash head_) -> honest (exStatus head_ td_ tip).
Proof.
  intros Ht Hd Hf. assert (bytelen td_ <= 8)%nat as Hb by (apply bytelen_le; exact Hd). split; [split_and!|]; unfold exStatus.
  - unfold in_u32. cbn [ProtocolVersion]. lia.
  - unfold in_u64. cbn [NetworkID]. lia.
  - split; lia.
  - split; [by apply Forall_replicate|apply length_replicate].
  - split; [apply (bool_decide_unpack _); vm_compute; exact I|vm_compute; reflexivity].
  - exact Hf.
  - exists td_. split; [done|lia].
Qed.

Lemma peers_shake_hands_witness : exists m2 u2,
  Handshake (mkPeer 67 None [] None false) 56 (Some 200) (replicate 32 1) (ForkId.genesisBytes ForkId.BSCGenesisHash) (ForkId.NewID ForkId.BSCChainConfig ForkId.BSCGenesisHash 100)
    (ForkId.newFilter ForkId.BSCChainConfig ForkId.BSCGenesisHash 100) None (mkExchange (Some m2) true true None) (mkExchange (Some u2) true false None)
  = Ret (mkPeer 67 (Some 44000000) (replicate 32 2) (Some true) true, None).
Proof.
  destruct (peers_shake_hands (mkPeer 67 None [] None false) (mkPeer 67 None [] None false) (exStatus 100 200 1) (exStatus 22000000 44000000 2)
    (ForkId.newFilter ForkId.BSCChainConfig ForkId.BSCGenesisHash 100) (ForkId.newFilter ForkId.BSCChainConfig ForkId.BSCGenesisHash 22000000) None (Some true) true false true false)
    as (m1 & m2 & u1 & u2 & _ & _ & _ & _ & _ & _ & H & _).
  - apply exStatus_honest; [by split|by split|]. split; [split; [apply (bool_decide_unpack _); vm_compute; exact I|vm_compute; reflexivity]|].
    apply (bool_decide_unpack _). vm_compute. exact I.
  - apply exStatus_honest; [by split|by split|]. split; [split; [apply (bool_decide_unpack _); vm_compute; exact I|vm_compute; reflexivity]|].
    apply (bool_decide_unpack _). vm_compute. exact I.
  - reflexivity.
  - reflexivity.
  - reflexivity.
  - reflexivity.
  - reflexivity.
  - vm_compute. reflexivity.
  - vm_compute. reflexivity.
  - exists m2, u2. exact H.
Defined.

Definition sentMsg (r : go (res Msg)) : option Msg := match r with Ret (Ok m) => Some m | _ => None end.

Lemma handshake_checks_witness :
  agreed (mkPeer 67 None [] None false) 56 (ForkId.genesisBytes ForkId.BSCGenesisHash) (ForkId.newFilter ForkId.BSCChainConfig ForkId.BSCGenesisHash 100)
    (mkExchange (sentMsg (Send StatusMsg (writeStatus (exStatus 22000000 44000000 2)))) true true None)
    (mkExchange (sentMsg (Send UpgradeStatusMsg (writeUpgradeStatus (Some (extensionBytes true))))) true true None)
    (mkPeer 67 (Some 44000000) (replicate 32 2) (Some true) true).
Proof.
  apply (handshake_checks _ 56 (Some 200) (replicate 32 1) _ (ForkId.NewID ForkId.BSCChainConfig ForkId.BSCGenesisHash 100) _ None).
  - eexists. vm_compute. reflexivity.
  - vm_compute. reflexivity.
Defined.
